(* ===== verification/_CoqProject ===== *)
-Q . S2P
Prelude.v
Strconv.v
GoHeap.v
WorkQueue.v
DelayingQueue.v
RateLimiters.v
SchedHeap.v
InfDec.v
Quantity.v
QuantityText.v
Labels.v
ApiTypes.v
NodeInfo.v
FwkStatus.v
WaitingPods.v
NodeResourcesFit.v
NodeAffinity.v
Parallelizer.v
FeasibleSearch.v
NodeTree.v
SchedCache.v
CacheEvents.v
Snapshot.v
SchedQueue.v
QueueInv.v
QueueEvents.v
Framework.v
Preemption.v
Victims.v
DryRun.v
PickNode.v
PreemptionProps.v
NodeFilters.v
GenericScheduler.v
Scores.v
GenericProps.v
ThreadSafeStore.v
DeltaFIFO.v
RingGrowing.v
Informer.v
InformerInv.v
InformerEvents.v
InformerProps.v
EventHandlers.v
SchedulerEvents.v
SchedulerProps.v
SchedulingCycle.v
CycleEvents.v
CyclePermits.v
CycleProps.v
Expectations.v
ActivePods.v
AppsTypes.v
CtlProgram.v
ReplicaSet.v
SlowStart.v
ReplicaSetSystem.v
PodHistory.v
ReplicaSetInv.v
ReplicaSetSteps.v
ReplicaSetWp.v
ReplicaSetAdequacy.v
ReplicaSetPrograms.v
ReplicaSetProps.v
Deployment.v
Rollout.v
RolloutWp.v
RollingUpdate.v
RolloutSets.v
RolloutProps.v
Proportions.v
