(* ===== verification/Prelude.v ===== *)
(** * A verification development of the Kubernetes 1.21 scheduler and controllers

    Kubernetes is a set of processes that communicate through the API server.
    This development follows two of them, the scheduler and, of the controller
    manager, the ReplicaSet and the Deployment controller, from the libraries
    they share up to their goroutines:

    - quantities and label selectors, the two small languages that API objects
      carry ([k8s.io/apimachinery]), with the decimals of [gopkg.in/inf.v0];
    - the work queues of the controllers and the parallel loops
      ([k8s.io/client-go/util/workqueue]);
    - the informers that turn lists and watch events into notifications
      ([k8s.io/client-go/tools/cache]);
    - the scheduler's account of the cluster: [NodeInfo], the node tree, the
      cache, and the snapshot a scheduling cycle reads;
    - the scheduling queue that decides which pod is tried next;
    - the plugin framework, filters, the algorithm that chooses a node, and the
      preemption of pods when there is none;
    - the event handlers, the scheduling cycle and the binding cycles, which
      run on the shared cache and queue;
    - the ReplicaSet controller, which keeps the number of a set's pods, and the
      Deployment controller, which moves pods from one set to the next.

    The informers notify the event handlers, which write the cache and the
    queue; the main goroutine pops a pod, takes a snapshot of the cache, runs
    the algorithm with the plugins, assumes the pod in the cache and starts a
    goroutine that waits for the permit and binds; failures go back to the
    queue.  A Deployment controller creates, scales and deletes ReplicaSets; the
    ReplicaSet controller creates and deletes pods, and counts them in the cache
    of its informer, with expectations for what it has asked for and not seen.

    ** Files

    Paths are under [src/].  A definition has the name of the Go function or
    type it translates, with a prefix where two receivers share a name; the
    parts of a loop are definitions of their own.

    - [Prelude]: machine integers, Go's panics ([outcome]), condition variables,
      histories ([trace]), generic lemmas and the hint database [go].
    - [Strconv]: the decimal conversions of Go's [strconv] that the code calls.
    - [GoHeap]: Go's [container/heap] over the type class [HeapInterface] with
      its laws [HeapLaws], and orders ([StrictWeakOrder]).
    - [WorkQueue], [DelayingQueue], [RateLimiters]: [queue.go],
      [delaying_queue.go] (the entries are objects of a store, the waiting loop one
      iteration for every choice of its select), [default_rate_limiters.go] and
      [rate_limiting_queue.go].
    - [SchedHeap]: [pkg/scheduler/internal/heap/heap.go], an instance of
      [HeapInterface], with its metric.
    - [InfDec], [Quantity], [QuantityText]: [inf.v0/dec.go], and the arithmetic and the
      text form of [resource.Quantity] in both representations.
    - [Labels]: [labels/selector.go] with lexer and parser, the validation of
      keys and values, and [LabelSelectorAsSelector].
    - [ApiTypes], [NodeInfo]: the fields of pods and nodes the code reads, and
      [framework/types.go].
    - [FwkStatus], [WaitingPods], [Framework]: [framework/interface.go] and
      [cycle_state.go], [runtime/waiting_pods_map.go], and the runners of the
      plugins in [runtime/framework.go]; plugins are records of functions.
    - [NodeResourcesFit], [NodeAffinity], [NodeFilters]: the plugins [noderesources/fit.go],
      [nodeaffinity] with the selectors of [component-helpers], [nodename],
      [nodeunschedulable], [tainttoleration] and [nodeports], and the
      normalization of scores.
    - [Parallelizer], [FeasibleSearch]: [workqueue/parallelizer.go] as the
      interleavings of its goroutines, and the search of
      [findNodesThatPassFilters] on top of it.
    - [Preemption], [Victims], [DryRun], [PickNode], [PreemptionProps]:
      [defaultpreemption/default_preemption.go].  [Preemption] has the operations;
      [Victims] shows which pods of a node are evicted, [DryRun] what the parallel dry
      run finds, [PickNode] which node is chosen, [PreemptionProps] what [PostFilter] does.
    - [GenericScheduler], [Scores], [GenericProps]: [core/generic_scheduler.go],
      the arithmetic of scores, and what [Schedule] decides.
    - [NodeTree], [SchedCache], [CacheEvents], [Snapshot]: [internal/cache].
      [SchedCache] has the operations and the linked list of nodes, [CacheEvents]
      the histories, [Snapshot] the incremental snapshot through shared pointers.
    - [SchedQueue], [QueueInv], [QueueEvents]: [internal/queue].  [SchedQueue] has the
      operations, [QueueInv] what each does under the invariant, [QueueEvents] the
      histories and the properties.
    - [ThreadSafeStore], [DeltaFIFO], [RingGrowing], [Informer]: the indexed store,
      the queue of deltas, the buffer of a listener and [shared_informer.go].
      [InformerInv] has the invariants, [InformerEvents] the histories,
      [InformerProps] the properties.
    - [EventHandlers], [SchedulerEvents], [SchedulerProps]: [eventhandlers.go]
      with the filtering handlers, the histories in which notifications and
      operations of the cycle interleave, and their properties.
    - [SchedulingCycle], [CycleEvents], [CyclePermits], [CycleProps]: [scheduler.go]
      and the error function of [factory.go], as goroutines that go from one access
      of the shared state to the next ([pc]); the machine of all goroutines, with
      its invariant; the permits that binding cycles wait for; and what the
      scheduler guarantees.
    - [Expectations], [ActivePods], [AppsTypes]: [pkg/controller/controller_utils.go],
      the order in which pods are deleted, and the objects of the workloads.
    - [CtlProgram], [ReplicaSet], [SlowStart]: the handlers and the worker of
      [replicaset/replica_set.go] with [controller_ref_manager.go], as programs whose
      steps are the accesses to shared state and the requests; slow start.
    - [ReplicaSetSystem]: worker, handlers, informer and API server together.
      [PodHistory] has the histories of pods, [ReplicaSetInv] the invariant,
      [ReplicaSetSteps] its preservation, [ReplicaSetWp] and [ReplicaSetAdequacy] weakest
      preconditions of programs, [ReplicaSetPrograms] the programs' specifications,
      [ReplicaSetProps] the properties.
    - [Deployment], [Rollout]: [pkg/controller/deployment] ([sync.go], [rolling.go],
      [recreate.go], [rollback.go], [progress.go], [util]), with [intstr] and
      [pkg/util/labels], as programs on the sets the server has.
      [RolloutWp] has weakest preconditions, [RollingUpdate] one step of a rolling
      update, [RolloutSets] how the new set is found, [RolloutProps] and [Proportions] the
      properties of rolling updates and of scaling in proportion.

    ** What the theorems show

    - Functional behaviour and round trips: the text of a quantity and of a
      selector is read back to the same value; arithmetic and comparison of
      quantities are exact where stated; the filters accept exactly the nodes
      their documentation describes; the score of a node is the weighted sum of the
      plugins' scores; the victims of a preemption are those in the way, and the node
      is the best by the documented criteria.
    - Invariants along histories: work queue, node accounting, scheduler cache,
      scheduling queue, informers, and the whole scheduler with its
      goroutines.  The events of a history are the operations with all their
      arguments, the clock included; [coherent] and [allowed] state the contract of
      the callers.
    - Refinement: the heap refines a map, the cache the documented state
      machine of a pod, the queue a machine from pods to places; the
      incremental snapshot is equivalent to one from scratch, an index to a scan.
    - Composition: the cache mirrors the streams of its informers whatever the
      scheduling cycle does; when the informers are quiet it holds the assigned
      pods the reflector was told of; a suggested host is a node of the cache
      that every filter accepts; no pod is assumed without a goroutine that
      finishes or forgets it.
    - Safety: an item is processed by one worker at a time, no addition, wake-up,
      move request or pod is lost, a scheduled pod does not overcommit its node and
      may run there, a permit is unanimous, preemption only evicts pods of lower
      priority from a node where that helps.  A ReplicaSet never has more active
      pods than it was asked for, nor fewer by its own doing, although its
      controller counts in a stale cache; a rolling update stays within its surge
      and keeps its pods available.
    - Liveness: no goroutine is stuck or panics, and one that waits for a permit is
      woken by a timer; the parallel search and slow start end, a failed pod is
      queued again, after the periodic flushes a pending pod is active, and a
      rollout with enough good rounds completes.
    - Errors: inputs where the code does not do what its comments say, each with the
      theorem or lemma that exhibits it.

    ** Conventions

    Times and durations are integers in nanoseconds and the clock is an
    argument.  A lock held over a function makes it one step.  An event handler
    of the scheduler is one step, although it takes the locks of the cache and of
    the queue one after the other ([updatePodInCache] and
    [updatePodInSchedulingQueue] have two critical sections each).  An operation of
    the scheduling queue reads the clock once, also the flush of the backoff
    queue, which reads it for every pod.  Integers wrap at
    64 bits (32 where the code has [int32]) where the code can overflow, and
    theorems state the headroom they need.
    Pointers that are shared and written are modelled: a store of entries in
    [DelayingQueue], the linked list of [SchedCache], the locations of [Snapshot],
    the addresses of queued pods in [SchedQueue], the waiting pods of
    [WaitingPods], the expectations of [Expectations], the array that
    [selectVictimsOnNode] ranges over while pods are removed.  The order of Go's [range] over a map is a
    parameter with the hypothesis that it meets every key once; the order in
    which goroutines run and the numbers drawn at random are arguments.

    Fuel bounds the loops that are not structural: the length of the heap
    plus one for the flush of the backoff queue, the number of nodes plus one for the
    walk of the snapshot (both [None] when it runs out), the length
    of the heap for its loops and for the delaying queue, the longest zone plus three for
    the list of the node tree, and the length of the text
    or of the tokens for the lexer and the parser of selectors.  Lemmas show that it suffices, and the
    theorems that use these loops state that they return.  A parallel search is
    given the order of its goroutines, [None] when that is not a complete run;
    theorems show that every run ends and that one exists.

    ** What is not modelled

    The token bucket of [golang.org/x/time], the plugins that are not listed
    above (inter-pod affinity, topology spread, volumes) and the extenders are
    parameters; so are, for the controllers, [sort.Sort], the hash and the equality
    of pod templates, which work by reflection, and the answers of the API server.  Metrics other than the gauges of the queues,
    events, logging, contexts and the goroutines that only call a modelled
    function periodically are left out.  The reflector's calls to the API
    server are the events of the informer histories; the condition a failed
    attempt writes to the API server is left out, and so is the branch of the
    error function for a missing node, which takes an API error that is not
    wrapped.  The configuration of profiles is a parameter.  Of the Deployment
    controller the event handlers, the worker and the claim of ReplicaSets are
    left out, and a negative [RevisionHistoryLimit], which the API server rejects
    and with which the code would index past the end.  The other processes and
    controllers (API server, kubelet, proxy, command line) are not part of the
    development. *)

From stdpp Require Export base tactics list gmap strings sorting.
From Stdlib Require Export ZArith Lia.

(** ** Machine integers

    Go's [int] and [int64] on a 64-bit target: arithmetic is done in [Z] and
    brought back to the signed range with [int64]. *)

Declare Scope go_scope.
Delimit Scope go_scope with go.

Definition max_int64 : Z := 9223372036854775807.
Definition min_int64 : Z := -9223372036854775808.

Definition int64 (z : Z) : Z := ((z + 2 ^ 63) mod 2 ^ 64 - 2 ^ 63)%Z.

Notation "x +! y" := (int64 (x + y)) (at level 50, left associativity) : go_scope.
Notation "x -! y" := (int64 (x - y)) (at level 50, left associativity) : go_scope.
Notation "x *! y" := (int64 (x * y)) (at level 40, left associativity) : go_scope.

(** Go's signed division truncates towards zero. *)
Notation "x /! y" := (Z.quot x y) (at level 40, left associativity) : go_scope.

Lemma int64_id z : (min_int64 ≤ z ≤ max_int64)%Z → int64 z = z.
Proof.
  unfold int64, min_int64, max_int64. intros H.
  rewrite Z.mod_small; lia.
Qed.

Lemma int64_range z : (min_int64 ≤ int64 z ≤ max_int64)%Z.
Proof.
  unfold int64, min_int64, max_int64.
  pose proof (Z.mod_pos_bound (z + 2 ^ 63) (2 ^ 64) ltac:(lia)). lia.
Qed.

Lemma int64_mod z : exists k : Z, (int64 z = z + k * 2 ^ 64)%Z.
Proof.
  unfold int64. exists (- ((z + 2 ^ 63) / 2 ^ 64))%Z.
  pose proof (Z.div_mod (z + 2 ^ 63) (2 ^ 64) ltac:(lia)). lia.
Qed.

(** Two integers of the signed range that agree modulo [2^64] are equal, so
    sums and differences may be reassociated under one [int64]. *)
Lemma int64_eq_mod x y : (∃ k : Z, x = y + k * 2 ^ 64)%Z → int64 x = int64 y.
Proof.
  intros [k ->]. unfold int64.
  replace (y + k * 2 ^ 64 + 2 ^ 63)%Z with (y + 2 ^ 63 + k * 2 ^ 64)%Z by lia.
  by rewrite Z.mod_add.
Qed.

Lemma int64_add_l x y : int64 (int64 x + y) = int64 (x + y).
Proof.
  destruct (int64_mod x) as [k ->]. apply int64_eq_mod. exists k. lia.
Qed.

Lemma int64_add_r x y : int64 (x + int64 y) = int64 (x + y).
Proof. rewrite Z.add_comm, int64_add_l. f_equal. lia. Qed.

Lemma int64_sub_l x y : int64 (int64 x - y) = int64 (x - y).
Proof.
  destruct (int64_mod x) as [k ->]. apply int64_eq_mod. exists k. lia.
Qed.

Lemma int64_sub_r x y : int64 (x - int64 y) = int64 (x - y).
Proof.
  destruct (int64_mod y) as [k ->]. apply int64_eq_mod. exists (-k)%Z. lia.
Qed.

Lemma int64_idemp x : int64 (int64 x) = int64 x.
Proof. apply int64_id, int64_range. Qed.

(** The values an [int64] can hold. *)
Definition in64 (z : Z) : Prop := (min_int64 ≤ z ≤ max_int64)%Z.

#[export] Instance in64_dec z : Decision (in64 z).
Proof. unfold in64. apply _. Defined.

(** Go's [int32]. *)
Definition int32 (z : Z) : Z := ((z + 2 ^ 31) mod 2 ^ 32 - 2 ^ 31)%Z.

Lemma int32_id z : (- 2 ^ 31 ≤ z < 2 ^ 31)%Z → int32 z = z.
Proof. unfold int32. intros H. rewrite Z.mod_small; lia. Qed.

Create HintDb go discriminated.
Create Rewrite HintDb int64.
#[export] Hint Rewrite int64_add_l int64_add_r int64_sub_l int64_sub_r int64_idemp : int64.
#[export] Hint Resolve int64_range : go.

(** ** Outcomes of Go code

    A Go function that can fail returns an [error] beside its value, and one
    that can panic (an index out of range, [klog.Fatal]) may not return. *)

Inductive outcome (A : Type) : Type :=
| Ret (a : A)
| Panic.
Arguments Ret {A} a.
Arguments Panic {A}.

#[export] Instance outcome_ret : MRet outcome := @Ret.
#[export] Instance outcome_bind : MBind outcome := λ A B k m,
  match m with Ret a => k a | Panic => Panic end.

(** ** Lists *)

(** [l[i], l[j] = l[j], l[i]], for indices in range. *)
Definition lswap {A} (l : list A) (i j : nat) : list A :=
  match l !! i, l !! j with
  | Some a, Some b => <[i := b]> (<[j := a]> l)
  | _, _ => l
  end.

Lemma length_lswap {A} (l : list A) i j : length (lswap l i j) = length l.
Proof. unfold lswap. repeat case_match; rewrite ?length_insert; done. Qed.

Lemma fmap_lswap {A B} (f : A → B) l i j : f <$> lswap l i j = lswap (f <$> l) i j.
Proof.
  unfold lswap. rewrite !list_lookup_fmap.
  destruct (l !! i), (l !! j); simpl; try done. by rewrite !list_fmap_insert.
Qed.

Definition swap_idx (i j k : nat) : nat :=
  if decide (k = i) then j else if decide (k = j) then i else k.

Lemma swap_idx_inj i j : Inj (=) (=) (swap_idx i j).
Proof. intros x y. unfold swap_idx. repeat case_decide; lia. Qed.

Lemma lookup_lswap {A} (l : list A) i j k :
  i < length l → j < length l → lswap l i j !! k = l !! swap_idx i j k.
Proof.
  intros Hi Hj. unfold lswap, swap_idx.
  destruct (lookup_lt_is_Some_2 l i Hi) as [a Ha].
  destruct (lookup_lt_is_Some_2 l j Hj) as [b Hb]. rewrite Ha, Hb.
  destruct (decide (k = i)) as [->|Hki].
  - rewrite list_lookup_insert_eq; [done|]. by rewrite length_insert.
  - rewrite list_lookup_insert_ne by done.
    destruct (decide (k = j)) as [->|Hkj].
    + by rewrite list_lookup_insert_eq.
    + by rewrite list_lookup_insert_ne.
Qed.

Lemma lswap_perm {A} (l : list A) i j : lswap l i j ≡ₚ l.
Proof.
  destruct (decide (i < length l)) as [Hi|Hi]; [destruct (decide (j < length l)) as [Hj|Hj]|].
  - apply Permutation_inj. split; [apply length_lswap|].
    exists (swap_idx i j). split; [apply swap_idx_inj|].
    intros k. by apply lookup_lswap.
  - unfold lswap. rewrite (lookup_ge_None_2 l j) by lia. by case_match.
  - unfold lswap. by rewrite (lookup_ge_None_2 l i) by lia.
Qed.

(** ** Sums *)

Definition zsum {A} (f : A → Z) (l : list A) : Z := foldr (λ x a, f x + a)%Z 0%Z l.

Lemma zsum_app {A} (f : A → Z) l k : zsum f (l ++ k) = (zsum f l + zsum f k)%Z.
Proof. induction l as [|x l IH]; simpl; lia. Qed.

Lemma zsum_perm {A} (f : A → Z) l k : l ≡ₚ k → zsum f l = zsum f k.
Proof. induction 1; simpl; lia. Qed.

Lemma zsum_fmap {A B} (g : A → B) (f : B → Z) l : zsum f (g <$> l) = zsum (f ∘ g) l.
Proof. unfold zsum. rewrite foldr_fmap. done. Qed.

Lemma zsum_nonneg {A} (f : A → Z) l : Forall (λ x, 0 ≤ f x)%Z l → (0 ≤ zsum f l)%Z.
Proof. induction 1; simpl; lia. Qed.

#[export] Instance zsum_Proper {A} (f : A → Z) : Proper ((≡ₚ) ==> (=)) (zsum f).
Proof. intros l k. apply zsum_perm. Qed.

Lemma zsum_Forall2 {A B} (f : A → Z) (g : B → Z) l k : Forall2 (λ x y, f x ≤ g y)%Z l k → (zsum f l ≤ zsum g k)%Z.
Proof. induction 1; simpl; lia. Qed.

(** [append(l[:i], l[i+1:]...)] *)
Definition ldelete {A} (l : list A) (i : nat) : list A := take i l ++ drop (S i) l.

(** ** [sync.Cond]

    Goroutines blocked in [Wait], and those a [Signal] or [Broadcast] has
    woken that have not run yet. *)
Record Cond := mkCond { waiting : nat; woken : nat }.

Definition cond_Wait (c : Cond) : Cond := mkCond (S (waiting c)) (woken c).

Definition cond_Signal (c : Cond) : Cond :=
  match waiting c with
  | O => c
  | S w => mkCond w (S (woken c))
  end.

Definition cond_Broadcast (c : Cond) : Cond := mkCond 0 (waiting c + woken c).

(** A woken goroutine runs again. *)
Definition cond_Resume (c : Cond) : Cond := mkCond (waiting c) (woken c - 1).

(** If [n] items are available and goroutines wait, enough of them are woken. *)
Definition cond_covers (c : Cond) (n : nat) : Prop := 0 < waiting c → n ≤ woken c.

Lemma cond_Signal_covers c n : cond_covers c n → cond_covers (cond_Signal c) (S n).
Proof. unfold cond_covers, cond_Signal. destruct c as [[|w] k]; simpl; lia. Qed.

Lemma cond_Broadcast_covers c n : cond_covers (cond_Broadcast c) n.
Proof. unfold cond_covers. simpl. lia. Qed.

#[export] Hint Resolve cond_Signal_covers cond_Broadcast_covers : go.

(** ** Traces

    The states a step function reaches along a sequence of events. *)
Section traces.
  Context {St Ev : Type} (step : St → Ev → St → Prop).

Inductive trace : St → list Ev → St → Prop :=
| trace_nil s : trace s [] s
| trace_cons s e s' es s'' : step s e s' → trace s' es s'' → trace s (e :: es) s''.

Lemma trace_invariant (I : St → Prop) :
  (∀ s e s', I s → step s e s' → I s') →
  ∀ s es s', trace s es s' → I s → I s'.
Proof. intros Hstep s es s'. induction 1; eauto. Qed.

Lemma trace_app s es1 s' es2 s'' :
  trace s es1 s' → trace s' es2 s'' → trace s (es1 ++ es2) s''.
Proof. induction 1; simpl; [done|]. intros. econstructor; eauto. Qed.

Lemma trace_app_inv s es1 es2 s'' :
  trace s (es1 ++ es2) s'' → ∃ s', trace s es1 s' ∧ trace s' es2 s''.
Proof.
  revert s. induction es1 as [|e es1 IH]; intros s Htr; [by exists s; split; [constructor|]|].
  inversion Htr as [|? ? s1 ? ? Hstep Hrest]; subst. destruct (IH _ Hrest) as (s' & H1 & H2).
  exists s'. split; [by econstructor|done].
Qed.

Lemma trace_cons_inv s e es s'' : trace s (e :: es) s'' → ∃ s', step s e s' ∧ trace s' es s''.
Proof. inversion 1; subst. eauto. Qed.
End traces.

Lemma trace_impl {St Ev : Type} (R R' : St → Ev → St → Prop) s es s' :
  (∀ s e s', R s e s' → R' s e s') → trace R s es s' → trace R' s es s'.
Proof. intros HR. induction 1; [constructor|econstructor; eauto]. Qed.
