(* ===== verification/Strconv.v ===== *)
(** * Strings and numbers as text: the parts of Go's [strconv], [strings] and
    [math/big] the sources use

    Text is a list of bytes.  [print_Z] is [strconv.AppendInt] (and
    [big.Int.String]), [ParseInt] is [strconv.ParseInt] in base ten and
    [bigint_SetString] is [big.Int.SetString]; reading a printed number gives
    it back. *)

From Stdlib Require Export Ascii.
From S2P Require Import Prelude.
#[local] Open Scope Z_scope.

Definition text := list ascii.

(** Go string constants as bytes. *)
Definition txt (s : string) : text := String.list_ascii_of_string s.

(** ** Numbers as text *)

Definition is_digit (c : ascii) : bool :=
  (48 <=? Z.of_N (N_of_ascii c)) && (Z.of_N (N_of_ascii c) <=? 57).

Definition digit_val (c : ascii) : Z := Z.of_N (N_of_ascii c) - 48.

Definition digits_val (l : list ascii) : Z := foldl (λ a c, 10 * a + digit_val c) 0 l.

Definition is_zero (c : ascii) : bool := (c =? "0")%char.

Definition is_sign (c : ascii) : bool := (c =? "+")%char || (c =? "-")%char.

(** [big.Int.SetString(s, 10)]: an optional sign and at least one digit. *)
Definition bigint_SetString (s : list ascii) : option Z :=
  let '(neg, ds) :=
    match s with
    | c :: s' => if (c =? "-")%char then (true, s') else if (c =? "+")%char then (false, s')
                 else (false, s)
    | [] => (false, s)
    end in
  match ds with
  | [] => None
  | _ => if forallb is_digit ds
         then Some (if neg : bool then - digits_val ds else digits_val ds) else None
  end.

Definition digit_char (d : Z) : ascii := ascii_of_N (Z.to_N (48 + d)).

Fixpoint print_digits (fuel : nat) (n : Z) : text :=
  match fuel with
  | O => []
  | S fuel => if n <? 10 then [digit_char n] else print_digits fuel (n / 10) ++ [digit_char (n mod 10)]
  end.

(** A number has no more decimal digits than bits. *)
Definition print_nonneg (n : Z) : text := print_digits (S (Z.to_nat (Z.log2 n))) n.

(** [strconv.AppendInt(out, n, 10)], [big.Int.String] *)
Definition print_Z (n : Z) : text :=
  if n <? 0 then "-"%char :: print_nonneg (- n) else print_nonneg n.

(** [strconv.ParseInt(s, 10, 64)], [None] for a syntax or range error. *)
Definition ParseInt (s : text) : option Z :=
  match bigint_SetString s with
  | Some z => if (min_int64 <=? z) && (z <=? max_int64) then Some z else None
  | None => None
  end.

(** ** Splitting off a prefix *)

Fixpoint span {A} (p : A → bool) (l : list A) : list A * list A :=
  match l with
  | [] => ([], [])
  | a :: l' => if p a then let '(x, y) := span p l' in (a :: x, y) else ([], l)
  end.

Lemma span_app {A} (p : A → bool) l1 l2 :
  Forall (λ a, p a = true) l1 → (∀ a r, l2 = a :: r → p a = false) →
  span p (l1 ++ l2) = (l1, l2).
Proof.
  intros H1 H2. induction H1 as [|a l1 Ha H1 IH]; simpl.
  - destruct l2 as [|a r]; [done|]. simpl. by rewrite (H2 a r).
  - by rewrite Ha, IH.
Qed.

Lemma span_all {A} (p : A → bool) l : Forall (λ a, p a = true) l → span p l = (l, []).
Proof. intros H. pose proof (span_app p l [] H) as Hs. rewrite app_nil_r in Hs. by apply Hs. Qed.

(** ** Printing and reading digits *)

Lemma digit_cases d : 0 ≤ d < 10 → d ∈ [0; 1; 2; 3; 4; 5; 6; 7; 8; 9].
Proof. rewrite !elem_of_cons. lia. Qed.

Lemma digit_char_spec d :
  0 ≤ d < 10 → is_digit (digit_char d) = true ∧ digit_val (digit_char d) = d ∧
  is_zero (digit_char d) = (d =? 0).
Proof.
  intros Hd%digit_cases. revert d Hd. apply Forall_forall.
  repeat (apply Forall_cons; split; [done|]). apply Forall_nil_2.
Qed.

Lemma is_digit_not_sign c : is_digit c = true → is_sign c = false ∧ (c =? ".")%char = false.
Proof.
  unfold is_sign. intros H.
  destruct (Ascii.eqb_spec c "+") as [->|]; [done|].
  destruct (Ascii.eqb_spec c "-") as [->|]; [done|].
  by destruct (Ascii.eqb_spec c ".") as [->|].
Qed.

Lemma is_digit_bounds c : is_digit c = true → 0 ≤ digit_val c ≤ 9.
Proof. unfold is_digit, digit_val. rewrite andb_true_iff, !Z.leb_le. lia. Qed.

Lemma digits_val_snoc l c : digits_val (l ++ [c]) = 10 * digits_val l + digit_val c.
Proof. unfold digits_val. by rewrite foldl_app. Qed.

Lemma digits_val_bound l :
  Forall (λ c, is_digit c = true) l → 0 ≤ digits_val l < 10 ^ Z.of_nat (length l).
Proof.
  induction l as [|c l IH] using rev_ind; intros H; [done|].
  apply Forall_app in H as [Hl [Hc _]%Forall_cons].
  specialize (IH Hl). apply is_digit_bounds in Hc.
  rewrite digits_val_snoc, length_app, Nat2Z.inj_add, Z.pow_add_r by lia. simpl. lia.
Qed.

Lemma print_digits_spec fuel n :
  0 ≤ n < 2 ^ Z.of_nat fuel → (0 < fuel)%nat →
  Forall (λ c, is_digit c = true) (print_digits fuel n) ∧ digits_val (print_digits fuel n) = n ∧
  (length (print_digits fuel n) ≤ fuel)%nat ∧
  ∃ c r, print_digits fuel n = c :: r ∧ (n ≠ 0 → is_zero c = false).
Proof.
  revert n. induction fuel as [|fuel IH]; intros n Hn Hf; [lia|]. cbn [print_digits].
  destruct (Z.ltb_spec n 10) as [Hlt|Hge].
  - destruct (digit_char_spec n ltac:(lia)) as (Hd & Hv & Hz). split_and!.
    + by apply Forall_singleton.
    + unfold digits_val. simpl. lia.
    + simpl. lia.
    + do 2 eexists. split; [done|]. intros Hne. rewrite Hz. by apply Z.eqb_neq.
  - rewrite Nat2Z.inj_succ, Z.pow_succ_r in Hn by lia.
    pose proof (Z.div_mod n 10 ltac:(lia)). pose proof (Z.mod_pos_bound n 10 ltac:(lia)).
    destruct fuel as [|fuel']; [simpl in Hn; lia|].
    destruct (IH (n / 10) ltac:(lia) ltac:(lia)) as (Hall & Hval & Hlen & c & r & Heq & Hz).
    destruct (digit_char_spec (n mod 10) ltac:(lia)) as (Hd & Hv & _). split_and!.
    + apply Forall_app. by rewrite Forall_singleton.
    + rewrite digits_val_snoc, Hval, Hv. lia.
    + rewrite length_app. simpl in *. lia.
    + rewrite Heq. exists c, (r ++ [digit_char (n mod 10)]). split; [done|].
      intros _. apply Hz. lia.
Qed.

Lemma print_nonneg_spec n :
  0 ≤ n →
  Forall (λ c, is_digit c = true) (print_nonneg n) ∧ digits_val (print_nonneg n) = n ∧
  Z.of_nat (length (print_nonneg n)) ≤ Z.log2 n + 1 ∧
  ∃ c r, print_nonneg n = c :: r ∧ (n ≠ 0 → is_zero c = false).
Proof.
  intros Hn. pose proof (Z.log2_nonneg n).
  destruct (print_digits_spec (S (Z.to_nat (Z.log2 n))) n) as (? & ? & Hlen & ?); [|lia|].
  - rewrite Nat2Z.inj_succ, Z2Nat.id by lia. split; [done|].
    destruct (Z.eq_dec n 0) as [->|]; [done|]. apply Z.log2_spec. lia.
  - unfold print_nonneg. split_and!; try done. lia.
Qed.

Lemma forallb_digits l : Forall (λ c, is_digit c = true) l → forallb is_digit l = true.
Proof. intros H. apply forallb_forall. intros x Hx. rewrite Forall_forall in H. by apply H, list_elem_of_In. Qed.

Lemma bigint_SetString_print n : bigint_SetString (print_Z n) = Some n.
Proof.
  unfold print_Z. destruct (Z.ltb_spec n 0) as [Hn|Hn].
  - destruct (print_nonneg_spec (- n) ltac:(lia)) as (Hd & Hv & _ & c & r & Heq & _).
    unfold bigint_SetString. simpl. rewrite forallb_digits, Hv by done. rewrite Heq.
    f_equal. lia.
  - destruct (print_nonneg_spec n Hn) as (Hd & Hv & _ & c & r & Heq & _).
    assert (is_digit c = true) as Hc by (rewrite Heq in Hd; by apply Forall_cons in Hd as [? _]).
    apply is_digit_not_sign in Hc as [Hc _]. unfold is_sign in Hc. apply orb_false_iff in Hc as [Hc1 Hc2].
    unfold bigint_SetString. rewrite Heq, Hc1, Hc2, <- Heq, forallb_digits, Hv by done. done.
Qed.

Lemma ParseInt_print n : in64 n → ParseInt (print_Z n) = Some n.
Proof.
  intros [H1 H2]. unfold ParseInt. rewrite bigint_SetString_print.
  by rewrite (proj2 (Z.leb_le _ _) H1), (proj2 (Z.leb_le _ _) H2).
Qed.

Lemma print_Z_head n : n ≠ 0 → ∃ c r, print_Z n = c :: r ∧ is_zero c = false.
Proof.
  intros Hn. unfold print_Z. destruct (Z.ltb_spec n 0); [by do 2 eexists|].
  destruct (print_nonneg_spec n ltac:(lia)) as (_ & _ & _ & c & r & -> & Hz). eauto.
Qed.

Lemma print_nonneg_length n k :
  0 ≤ n → Z.of_nat (length (print_nonneg n)) ≤ k → n < 10 ^ k.
Proof.
  intros Hn Hlen. destruct (print_nonneg_spec n Hn) as (Hd & Hv & _).
  pose proof (digits_val_bound _ Hd) as Hb. rewrite Hv in Hb.
  eapply Z.lt_le_trans; [apply Hb|]. apply Z.pow_le_mono_r; lia.
Qed.

Lemma ParseInt_print_nonneg n : 0 ≤ n ≤ max_int64 → ParseInt (print_nonneg n) = Some n.
Proof.
  intros Hn. pose proof (ParseInt_print n) as H. unfold print_Z in H.
  rewrite (proj2 (Z.ltb_ge n 0)) in H by lia. apply H. unfold in64, min_int64. lia.
Qed.

