(* ===== verification/GoHeap.v ===== *)
(** * Go's [container/heap]

    The standard library's binary heap, as the work queue, the client cache
    heap and the scheduler heap call it.  [HeapInterface] is [heap.Interface];
    [HeapLaws] states what an implementation promises: its state has a view as
    a list, on which [Less], [Swap], [Push] and [Pop] act as they should.  The
    heap algorithms are written once over the interface; their correctness is
    proved for plain lists and transported to any implementation by the
    simulation lemmas [view_up] and [view_down]. *)

From S2P Require Import Prelude.

(** [heap.Interface].  [X] is what [Push] receives and [R] what [Pop] returns;
    [Pop] is [None] where the Go method panics. *)
Class HeapInterface (St X R : Type) := {
  Len : St → nat;
  Less : St → nat → nat → bool;
  Swap : St → nat → nat → St;
  Push : St → X → St;
  Pop : St → option (R * St);
}.

Section algorithms.
  Context {St X R : Type} `{HI : HeapInterface St X R}.

(** [func up(h Interface, j int)]; every iteration lowers [j], so [S j]
    iterations are enough ([up_unfold]). *)
Fixpoint up_loop (fuel : nat) (s : St) (j : nat) : St :=
  match fuel with
  | O => s
  | S fuel =>
      let i := (j - 1) / 2 in
      if (i =? j) || negb (Less s j i) then s
      else up_loop fuel (Swap s i j) i
  end.

Definition up (s : St) (j : nat) : St := up_loop (S j) s j.

(** [func down(h Interface, i0, n int) bool]; every iteration raises [i] below
    [n].  The loop returns the state and the last [i]. *)
Fixpoint down_loop (fuel : nat) (s : St) (i n : nat) : St * nat :=
  match fuel with
  | O => (s, i)
  | S fuel =>
      let j1 := 2 * i + 1 in
      if n <=? j1 then (s, i)
      else
        let j2 := j1 + 1 in
        let j := if (j2 <? n) && Less s j2 j1 then j2 else j1 in
        if negb (Less s j i) then (s, i)
        else down_loop fuel (Swap s i j) j n
  end.

Definition down (s : St) (i0 n : nat) : St * bool :=
  let '(s', i) := down_loop (n - i0) s i0 n in (s', i0 <? i).

(** [heap.Push] *)
Definition heap_Push (s : St) (x : X) : St :=
  let s := Push s x in up s (Len s - 1).

(** [heap.Pop]; on an empty heap [h.Swap(0, -1)] panics. *)
Definition heap_Pop (s : St) : option (R * St) :=
  if Len s =? 0 then None
  else
    let n := Len s - 1 in
    let s := Swap s 0 n in
    let '(s, _) := down s 0 n in
    Pop s.

(** [heap.Fix] *)
Definition heap_Fix (s : St) (i : nat) : St :=
  let '(s, moved) := down s i (Len s) in
  if moved then s else up s i.

(** [heap.Remove]; an index out of range panics in [h.Swap] or [h.Pop]. *)
Definition heap_Remove (s : St) (i : nat) : option (R * St) :=
  if Len s <=? i then None
  else
    let n := Len s - 1 in
    let s :=
      if n =? i then s
      else
        let s := Swap s i n in
        let '(s, moved) := down s i n in
        if moved then s else up s i in
    Pop s.
End algorithms.

(** ** Orders *)

(** What [Less] must be for the heap to be ordered: a strict weak order. *)
Class StrictWeakOrder {A} (lt : A → A → bool) : Prop := {
  swo_asym a b : lt a b = true → lt b a = false;
  swo_negtrans a b c : lt a b = false → lt b c = false → lt a c = false;
}.

Lemma swo_irrefl {A} (lt : A → A → bool) `{!StrictWeakOrder lt} a : lt a a = false.
Proof. destruct (lt a a) eqn:E; [|done]. by rewrite (swo_asym a a E) in E. Qed.

(** ** The heap algorithms on lists *)

Section list_heap.
  Context {A : Type} (lt : A → A → bool).

(** The list itself as an implementation of the interface. *)
#[local] Instance list_heap : HeapInterface (list A) A A := {
  Len := length;
  Less l i j := match l !! i, l !! j with Some a, Some b => lt a b | _, _ => false end;
  Swap := lswap;
  Push l x := l ++ [x];
  Pop l := match last l with Some a => Some (a, take (length l - 1) l) | None => None end;
}.

Definition parent (i : nat) : nat := (i - 1) / 2.

(** Position [i] is not before its parent. *)
Definition ordered_at (l : list A) (i : nat) : Prop :=
  ∀ a p, l !! i = Some a → l !! parent i = Some p → lt a p = false.

(** The first [n] positions form a heap. *)
Definition heap_upto (l : list A) (n : nat) : Prop :=
  ∀ i, 0 < i → i < n → ordered_at l i.

Definition heap_ordered (l : list A) : Prop := heap_upto l (length l).

(** Grandchildren through [i] respect [i]'s parent. *)
Definition bridged (l : list A) (n i : nat) : Prop :=
  ∀ c a p, 0 < i → 0 < c → c < n → parent c = i →
    l !! c = Some a → l !! parent i = Some p → lt a p = false.

(** A heap but for position [i] against its parent. *)
Definition heap_but_up (l : list A) (n i : nat) : Prop :=
  (∀ c, 0 < c → c < n → c ≠ i → ordered_at l c) ∧ bridged l n i.

(** A heap but for position [i] against its parent and its children. *)
Definition heap_but (l : list A) (n i : nat) : Prop :=
  (∀ c, 0 < c → c < n → c ≠ i → parent c ≠ i → ordered_at l c) ∧ bridged l n i.
End list_heap.

Lemma parent_lt i : 0 < i → parent i < i.
Proof. intros. unfold parent. apply Nat.Div0.div_lt_upper_bound. lia. Qed.

Lemma parent_child i c : 0 < c → parent c = i → c = 2 * i + 1 ∨ c = 2 * i + 2.
Proof.
  unfold parent. intros Hc <-.
  pose proof (Nat.div_mod_eq (c - 1) 2). pose proof (Nat.mod_upper_bound (c - 1) 2). lia.
Qed.

Lemma parent_left i : parent (2 * i + 1) = i.
Proof. unfold parent. replace (2 * i + 1 - 1) with (i * 2) by lia. by rewrite Nat.div_mul. Qed.

Lemma parent_right i : parent (2 * i + 1 + 1) = i.
Proof.
  unfold parent. replace (2 * i + 1 + 1 - 1) with (1 + i * 2) by lia.
  rewrite Nat.div_add by lia. done.
Qed.

Section list_heap_correct.
  Context {A : Type} (lt : A → A → bool) `{!StrictWeakOrder lt}.
  Implicit Types l : list A.

#[local] Instance lheap : HeapInterface (list A) A A := list_heap lt.

Lemma list_Less l i j a b : l !! i = Some a → l !! j = Some b → Less l i j = lt a b.
Proof. simpl. by intros -> ->. Qed.

(** Lookups in a swapped list, case by case. *)
Ltac swapped :=
  repeat match goal with
    | H : lswap _ _ _ !! _ = _ |- _ => rewrite lookup_lswap in H by lia
    end;
  unfold swap_idx in *; repeat case_decide; subst; try congruence; try lia.

Lemma swap_up_heap l n i j a b :
  n ≤ length l → 0 < j → j < n → i = parent j →
  l !! i = Some a → l !! j = Some b → lt b a = true →
  heap_but_up lt l n j → heap_but_up lt (lswap l i j) n i.
Proof.
  intros Hn Hj0 Hj -> Ha Hb Hlt [Hord Hbr].
  pose proof (parent_lt j Hj0). pose proof (swo_asym _ _ Hlt) as Hab. split.
  - intros c Hc0 Hc Hci x p Hx Hp.
    pose proof (parent_lt c Hc0). swapped.
    + assert (p = b) as -> by congruence. eapply swo_negtrans; [|exact Hab].
      eapply (Hord c); eauto. congruence.
    + by eapply (Hbr c).
    + eapply (Hord c); eauto.
  - intros c x p Hi0 Hc0 Hc Hci Hx Hp.
    pose proof (parent_lt c Hc0). pose proof (parent_lt (parent j) Hi0). swapped.
    + eapply (Hord (parent j)); eauto; lia.
    + eapply (swo_negtrans _ a).
      * eapply (Hord c); eauto. congruence.
      * eapply (Hord (parent j)); eauto; lia.
Qed.

Lemma up_loop_ok n fuel l j :
  j < fuel → j < n → n ≤ length l → heap_but_up lt l n j →
  heap_upto lt (up_loop fuel l j) n.
Proof.
  revert l j. induction fuel as [|fuel IH]; intros l j Hf Hj Hn Hh; [lia|].
  cbn [up_loop]. fold (parent j).
  destruct (lookup_lt_is_Some_2 l j ltac:(lia)) as [b Hb].
  destruct (decide (j = 0)) as [->|Hj0].
  { intros c Hc0 Hc. apply Hh; lia. }
  pose proof (parent_lt j ltac:(lia)) as Hp.
  destruct (lookup_lt_is_Some_2 l (parent j) ltac:(lia)) as [a Ha].
  rewrite (list_Less _ _ _ _ _ Hb Ha).
  destruct (Nat.eqb_spec (parent j) j) as [?|_]; [lia|].
  destruct (lt b a) eqn:Hlt; cbn [orb negb].
  - change (Swap l (parent j) j) with (lswap l (parent j) j). apply IH; [lia|lia|by rewrite length_lswap|].
    eapply swap_up_heap; eauto; lia.
  - intros c Hc0 Hc. destruct (decide (c = j)) as [->|Hcj].
    + intros x p Hx Hy. congruence.
    + by apply Hh.
Qed.

Lemma swap_down_heap l n i j a b :
  n ≤ length l → j < n → 0 < j → parent j = i →
  l !! i = Some a → l !! j = Some b → lt b a = true →
  (∀ c x, 0 < c → c < n → parent c = i → c ≠ j → l !! c = Some x → lt x b = false) →
  heap_but lt l n i →
  heap_but lt (lswap l i j) n j ∧ ordered_at lt (lswap l i j) j.
Proof.
  intros Hn Hj Hj0 <- Ha Hb Hlt Hmin [Hord Hbr].
  pose proof (parent_lt j Hj0). pose proof (swo_asym _ _ Hlt) as Hab. split; [split|].
  - intros c Hc0 Hc Hcj Hpc x p Hx Hp.
    pose proof (parent_lt c Hc0). swapped.
    + assert (p = b) as -> by congruence. eapply Hmin; eauto.
    + eapply (Hbr j); eauto; lia.
    + by eapply (Hord c).
  - intros c x p _ Hc0 Hc Hpc Hx Hp.
    pose proof (parent_lt c Hc0). swapped.
    eapply (Hord c); eauto; congruence.
  - intros x p Hx Hp. swapped.
Qed.

(** The child [down] compares with: the lesser of the two. *)
Lemma min_child l n i j1 j2 b :
  n ≤ length l → j1 = 2 * i + 1 → j2 = j1 + 1 → j1 < n →
  let j := if (j2 <? n) && Less l j2 j1 then j2 else j1 in
  l !! j = Some b →
  ∀ c x, 0 < c → c < n → parent c = i → c ≠ j → l !! c = Some x → lt x b = false.
Proof.
  intros Hn -> -> Hj1 j Hb c x Hc0 Hc Hp Hcj Hx. subst j.
  apply parent_child in Hp; [|done].
  destruct (Nat.ltb_spec (2 * i + 1 + 1) n) as [Hj2|Hj2]; cbn [andb] in *.
  - destruct (lookup_lt_is_Some_2 l (2 * i + 1) ltac:(lia)) as [b1 Hb1].
    destruct (lookup_lt_is_Some_2 l (2 * i + 1 + 1) ltac:(lia)) as [b2 Hb2].
    rewrite (list_Less _ _ _ _ _ Hb2 Hb1) in *. destruct (lt b2 b1) eqn:Hlt.
    + assert (c = 2 * i + 1) as -> by lia. simplify_eq. by apply swo_asym.
    + assert (c = 2 * i + 1 + 1) as -> by lia. by simplify_eq.
  - lia.
Qed.

Lemma down_loop_ok n fuel l i :
  n - i ≤ fuel → i < n → n ≤ length l → heap_but lt l n i →
  let '(l', k) := down_loop fuel l i n in
  (k = i ∧ l' = l ∧ heap_but_up lt l n i) ∨ (i < k ∧ heap_upto lt l' n).
Proof.
  revert l i. induction fuel as [|fuel IH]; intros l i Hf Hi Hn Hh; [lia|].
  cbn [down_loop]. destruct (Nat.leb_spec n (2 * i + 1)) as [Hj1|Hj1].
  { left. split_and!; [done..|]. split; [|apply Hh].
    intros c Hc0 Hc Hci. apply Hh; [done..|].
    intros Hp%parent_child; lia. }
  set (j := if _ && _ then _ else _).
  assert (j < n ∧ i < j ∧ parent j = i) as (Hj & Hij & Hpj).
  { subst j. destruct (Nat.ltb_spec (2 * i + 1 + 1) n); simpl;
      repeat case_match; split_and!; try lia; apply parent_left || apply parent_right. }
  destruct (lookup_lt_is_Some_2 l i ltac:(lia)) as [a Ha].
  destruct (lookup_lt_is_Some_2 l j ltac:(lia)) as [b Hb].
  pose proof (min_child l n i _ _ b Hn eq_refl eq_refl Hj1 Hb) as Hmin. fold j in Hmin.
  rewrite (list_Less _ _ _ _ _ Hb Ha).
  destruct (lt b a) eqn:Hlt; cbn [negb].
  - destruct (swap_down_heap l n i j a b) as [Hbut Hordj]; try done; [lia|].
    specialize (IH (lswap l i j) j ltac:(lia) Hj ltac:(by rewrite length_lswap) Hbut).
    change (Swap l i j) with (lswap l i j).
    destruct (down_loop fuel (lswap l i j) j n) as [l' k]. right.
    destruct IH as [(-> & -> & Hup)|[Hk Hheap]]; [|split; [lia|done]].
    split; [done|]. intros c Hc0 Hc.
    destruct (decide (c = j)) as [->|]; [done|]. by apply Hup.
  - left. split_and!; [done..|]. split; [|apply Hh]. intros c Hc0 Hc Hci.
    destruct (decide (parent c = i)) as [Hp|Hp]; [|by apply Hh].
    destruct (decide (c = j)) as [->|Hcj]; intros x p Hx Hy; [congruence|].
    rewrite Hp in Hy. eapply (swo_negtrans _ b); [by eapply Hmin|congruence].
Qed.

(** ** Frames: what the algorithms leave in place *)

Lemma up_loop_perm fuel l j : up_loop fuel l j ≡ₚ l.
Proof.
  revert l j. induction fuel as [|fuel IH]; intros l j; cbn [up_loop]; [done|].
  case_match; [done|]. rewrite IH. apply lswap_perm.
Qed.

Lemma up_loop_frame fuel l j k :
  j < k → j < length l → up_loop fuel l j !! k = l !! k.
Proof.
  revert l j. induction fuel as [|fuel IH]; intros l j Hk Hj; cbn [up_loop]; [done|].
  fold (parent j). case_match eqn:E; [done|].
  apply orb_false_iff in E as [E%Nat.eqb_neq _].
  assert (0 < j) as Hj0 by (destruct j; [done|lia]). pose proof (parent_lt j Hj0).
  change (Swap l (parent j) j) with (lswap l (parent j) j).
  rewrite IH, lookup_lswap by (rewrite ?length_lswap; lia).
  unfold swap_idx. repeat case_decide; (done || lia).
Qed.

Lemma down_loop_perm fuel l i n : (down_loop fuel l i n).1 ≡ₚ l.
Proof.
  revert l i. induction fuel as [|fuel IH]; intros l i; [done|].
  cbn [down_loop]. repeat case_match; simpl; try done.
  all: by rewrite IH; apply lswap_perm.
Qed.

Lemma down_loop_frame fuel l i n k :
  n ≤ k → n ≤ length l → (down_loop fuel l i n).1 !! k = l !! k.
Proof.
  revert l i. induction fuel as [|fuel IH]; intros l i Hk Hn; [done|].
  cbn [down_loop]. destruct (Nat.leb_spec n (2 * i + 1)) as [|Hj1]; [done|].
  set (j := if _ && _ then _ else _).
  assert (j < n ∧ i < j) as [Hj Hij].
  { subst j. destruct (Nat.ltb_spec (2 * i + 1 + 1) n); simpl; repeat case_match; lia. }
  case_match; [done|].
  rewrite IH by (simpl; rewrite ?length_lswap; lia). simpl.
  rewrite lookup_lswap by lia. unfold swap_idx. repeat case_decide; (done || lia).
Qed.

Lemma down_perm l i n : (down l i n).1 ≡ₚ l.
Proof.
  unfold down. pose proof (down_loop_perm (n - i) l i n).
  by destruct (down_loop (n - i) l i n).
Qed.

Lemma down_frame l i n k : n ≤ k → n ≤ length l → (down l i n).1 !! k = l !! k.
Proof.
  unfold down. intros Hk Hn. pose proof (down_loop_frame (n - i) l i n k Hk Hn).
  by destruct (down_loop (n - i) l i n).
Qed.

Lemma up_perm l j : up l j ≡ₚ l.
Proof. apply up_loop_perm. Qed.

#[local] Hint Resolve up_perm down_perm : go.

Lemma length_up l j : length (up l j) = length l.
Proof. apply Permutation_length, up_perm. Qed.

Lemma length_down l i n : length (down l i n).1 = length l.
Proof. apply Permutation_length, down_perm. Qed.

(** [down], then [up] when nothing moved, repairs position [i]. *)
Lemma down_up_heap l n i :
  i < n → n ≤ length l → heap_but lt l n i →
  let '(l', moved) := down l i n in heap_upto lt (if moved : bool then l' else up l' i) n.
Proof.
  intros Hi Hn Hh. pose proof (down_loop_ok n (n - i) l i (le_n _) Hi Hn Hh) as H.
  unfold down. destruct (down_loop (n - i) l i n) as [l' k].
  destruct H as [(-> & -> & Hup)|[Hk Hheap]].
  - rewrite Nat.ltb_irrefl. apply up_loop_ok; [lia|done..].
  - by apply Nat.ltb_lt in Hk as ->.
Qed.

Lemma down_root_heap l n :
  n ≤ length l → heap_but lt l n 0 → heap_upto lt (down l 0 n).1 n.
Proof.
  intros Hn Hh. destruct (decide (n = 0)) as [->|Hn0]; [intros i; lia|].
  pose proof (down_loop_ok n (n - 0) l 0 (le_n _) ltac:(lia) Hn Hh) as H.
  unfold down. destruct (down_loop (n - 0) l 0 n) as [l' k].
  destruct H as [(-> & -> & Hup)|[Hk Hheap]]; [|done].
  intros c Hc0 Hc. apply Hup; [lia..|]. lia.
Qed.

Lemma heap_but_insert l i x :
  heap_ordered lt l → i < length l → heap_but lt (<[i:=x]> l) (length l) i.
Proof.
  intros Hh Hi. split.
  - intros c Hc0 Hc Hci Hpc a p Ha Hp. rewrite list_lookup_insert_ne in Ha, Hp by done.
    by eapply (Hh c).
  - intros c a p Hi0 Hc0 Hc Hpc Ha Hp.
    pose proof (parent_lt i Hi0). pose proof (parent_lt c Hc0).
    rewrite list_lookup_insert_ne in Ha, Hp by lia.
    destruct (lookup_lt_is_Some_2 l i Hi) as [y Hy].
    eapply (swo_negtrans _ y); [eapply (Hh c); eauto; by rewrite Hpc|by eapply (Hh i)].
Qed.

Lemma heap_but_lswap_last l i n :
  heap_ordered lt l → length l = S n → i < n → heap_but lt (lswap l i n) n i.
Proof.
  intros Hh Hl Hi. split.
  - intros c Hc0 Hc Hci Hpc a p Ha Hp. pose proof (parent_lt c Hc0).
    rewrite lookup_lswap in Ha, Hp by lia. unfold swap_idx in *.
    repeat case_decide; try lia. eapply (Hh c); eauto; lia.
  - intros c a p Hi0 Hc0 Hc Hpc Ha Hp.
    pose proof (parent_lt i Hi0). pose proof (parent_lt c Hc0).
    rewrite lookup_lswap in Ha, Hp by lia. unfold swap_idx in *.
    repeat case_decide; try lia. destruct (lookup_lt_is_Some_2 l i ltac:(lia)) as [y Hy].
    eapply (swo_negtrans _ y); [|eapply (Hh i); eauto; lia].
    eapply (Hh c); eauto; [lia|by rewrite Hpc].
Qed.

(** The element [Pop] takes off the end. *)
Lemma list_Pop_spec l l0 n a :
  l ≡ₚ l0 → length l0 = S n → l !! n = Some a → heap_upto lt l n →
  ∃ l', Pop l = Some (a, l') ∧ heap_ordered lt l' ∧ a :: l' ≡ₚ l0.
Proof.
  intros Hp Hl0 Ha Hh. pose proof (Permutation_length Hp) as Hlen.
  exists (take n l). assert (last l = Some a) as Hlast.
  { rewrite last_lookup. rewrite Hlen, Hl0. done. }
  split_and!.
  - simpl. rewrite Hlast. do 3 f_equal. lia.
  - intros i Hi0 Hi x p Hx Hy. rewrite length_take in Hi.
    rewrite lookup_take in Hx, Hy. repeat case_decide; try done.
    eapply (Hh i); eauto; lia.
  - rewrite <- Hp. rewrite <- (take_drop n l) at 2.
    rewrite (drop_S _ _ _ Ha), (drop_ge l (S n)) by lia.
    by rewrite Permutation_cons_append.
Qed.

Lemma heap_Push_list l x :
  heap_ordered lt l → heap_ordered lt (heap_Push l x) ∧ heap_Push l x ≡ₚ x :: l.
Proof.
  intros Hh. unfold heap_Push. cbn [Push Len lheap list_heap].
  rewrite length_app; cbn [length]. split.
  - unfold heap_ordered. rewrite length_up, length_app; cbn [length].
    apply up_loop_ok; [lia|lia|rewrite length_app; simpl; lia|]. split.
    + intros c Hc0 Hc Hcn a p Ha Hp. pose proof (parent_lt c Hc0).
      rewrite lookup_app_l in Ha, Hp by lia. eapply (Hh c); eauto; lia.
    + intros c a p Hi0 Hc0 Hc Hpc Ha Hp. pose proof (parent_lt c Hc0). lia.
  - rewrite up_perm. symmetry. apply Permutation_cons_append.
Qed.

Lemma heap_Pop_list l r :
  heap_ordered lt l → l !! 0 = Some r →
  ∃ l', heap_Pop l = Some (r, l') ∧ heap_ordered lt l' ∧ r :: l' ≡ₚ l.
Proof.
  intros Hh Hr. unfold heap_Pop. cbn [Len lheap list_heap].
  destruct (length l) as [|n] eqn:Hl; [by destruct l|]. cbn [Nat.eqb].
  replace (S n - 1) with n by lia. change (Swap l 0 n) with (lswap l 0 n).
  pose proof (down_perm (lswap l 0 n) 0 n) as Hperm.
  pose proof (down_frame (lswap l 0 n) 0 n n (le_n _) ltac:(rewrite length_lswap; lia)) as Hfr.
  assert (heap_upto lt (down (lswap l 0 n) 0 n).1 n) as Hheap.
  { apply down_root_heap; [rewrite length_lswap; lia|].
    destruct (decide (n = 0)) as [->|]; [split; intros ?; lia|].
    apply heap_but_lswap_last; [done|done|lia]. }
  destruct (down (lswap l 0 n) 0 n) as [l2 m]. cbn [fst] in *.
  apply list_Pop_spec with n; [|done| |done].
  - by rewrite Hperm, lswap_perm.
  - rewrite Hfr, lookup_lswap by lia. unfold swap_idx. repeat case_decide; congruence.
Qed.

Lemma heap_Remove_list l i a :
  heap_ordered lt l → l !! i = Some a →
  ∃ l', heap_Remove l i = Some (a, l') ∧ heap_ordered lt l' ∧ a :: l' ≡ₚ l.
Proof.
  intros Hh Ha. pose proof (lookup_lt_Some _ _ _ Ha) as Hi.
  unfold heap_Remove. cbn [Len lheap list_heap].
  destruct (Nat.leb_spec (length l) i) as [?|_]; [lia|].
  destruct (length l) as [|n] eqn:Hl; [lia|]. replace (S n - 1) with n by lia.
  destruct (Nat.eqb_spec n i) as [->|Hni].
  { apply list_Pop_spec with i; [done..|]. intros c Hc0 Hc. apply Hh; lia. }
  change (Swap l i n) with (lswap l i n).
  pose proof (down_perm (lswap l i n) i n) as Hperm.
  pose proof (down_frame (lswap l i n) i n n (le_n _) ltac:(rewrite length_lswap; lia)) as Hfr.
  pose proof (down_up_heap (lswap l i n) n i ltac:(lia) ltac:(rewrite length_lswap; lia)
    ltac:(apply heap_but_lswap_last; [done|done|lia])) as Hheap.
  rewrite lookup_lswap in Hfr by lia. unfold swap_idx in Hfr.
  destruct (decide (n = i)) as [?|_]; [lia|]. rewrite decide_True in Hfr by done.
  pose proof (length_down (lswap l i n) i n) as Hlen. rewrite length_lswap in Hlen.
  destruct (down (lswap l i n) i n) as [l2 [|]]; cbn [fst] in *.
  - apply list_Pop_spec with n; [by rewrite Hperm, lswap_perm|done|congruence|done].
  - apply list_Pop_spec with n; [|done| |done].
    + by rewrite up_perm, Hperm, lswap_perm.
    + unfold up. rewrite up_loop_frame by lia. congruence.
Qed.

Lemma heap_Fix_list l i :
  i < length l → heap_but lt l (length l) i →
  heap_ordered lt (heap_Fix l i) ∧ heap_Fix l i ≡ₚ l.
Proof.
  intros Hi Hh. unfold heap_Fix. cbn [Len lheap list_heap].
  pose proof (down_up_heap l (length l) i Hi (le_n _) Hh) as H.
  pose proof (down_perm l i (length l)) as Hp.
  destruct (down l i (length l)) as [l' m]; cbn [fst] in *.
  pose proof (Permutation_length Hp) as Hl. unfold heap_ordered. destruct m.
  - by rewrite Hl.
  - rewrite length_up, Hl. split; [done|]. by rewrite up_perm.
Qed.

(** The root is a minimum. *)
Lemma heap_root_min l r i a :
  heap_ordered lt l → l !! 0 = Some r → l !! i = Some a → lt a r = false.
Proof.
  intros Hh Hr. revert a. induction i as [i IH] using lt_wf_ind. intros a Ha.
  destruct (decide (i = 0)) as [->|Hi]; [|].
  - assert (a = r) as -> by congruence. by apply swo_irrefl.
  - pose proof (parent_lt i ltac:(lia)) as Hp. apply lookup_lt_Some in Ha as Hlt.
    destruct (lookup_lt_is_Some_2 l (parent i) ltac:(lia)) as [p Hpa].
    eapply (swo_negtrans _ p); [eapply (Hh i); eauto; lia|by eapply IH].
Qed.
End list_heap_correct.

(** ** Implementations of the interface *)

(** What an implementation of [heap.Interface] promises about its state. *)
Class HeapLaws {St X R : Type} (A : Type) (HI : HeapInterface St X R) (lt : A → A → bool) := {
  hinv : St → Prop;
  view : St → list A;
  elt : St → X → A;
  can_push : St → X → Prop;
  result : R → A → Prop;
  law_Len s : hinv s → Len s = length (view s);
  law_Less s i j a b :
    hinv s → view s !! i = Some a → view s !! j = Some b → Less s i j = lt a b;
  law_Swap s i j :
    hinv s → i < Len s → j < Len s →
    hinv (Swap s i j) ∧ view (Swap s i j) = lswap (view s) i j;
  law_Push s x :
    hinv s → can_push s x → hinv (Push s x) ∧ view (Push s x) = view s ++ [elt s x];
  law_Pop s a :
    hinv s → last (view s) = Some a →
    ∃ r s', Pop s = Some (r, s') ∧ result r a ∧ hinv s' ∧
            view s' = take (length (view s) - 1) (view s);
}.

Section simulation.
  Context {St X R A : Type} {HI : HeapInterface St X R} {lt : A → A → bool}.
  Context {HL : HeapLaws A HI lt}.

#[local] Instance lheap' : HeapInterface (list A) A A := list_heap lt.

Lemma law_Less_list s i j :
  hinv s → i < Len s → j < Len s → Less s i j = Less (view s) i j.
Proof.
  intros Hs Hi Hj. rewrite law_Len in Hi, Hj by done.
  destruct (lookup_lt_is_Some_2 (view s) i Hi) as [a Ha].
  destruct (lookup_lt_is_Some_2 (view s) j Hj) as [b Hb].
  rewrite (law_Less s i j a b) by done. symmetry. by apply list_Less.
Qed.

Lemma law_Swap_Len s i j :
  hinv s → i < Len s → j < Len s → Len (Swap s i j) = Len s.
Proof.
  intros Hs Hi Hj. destruct (law_Swap s i j Hs Hi Hj) as [Hs' Hv].
  by rewrite !law_Len, Hv, length_lswap.
Qed.

Lemma view_up_loop fuel s j :
  hinv s → j < Len s →
  hinv (up_loop fuel s j) ∧ view (up_loop fuel s j) = up_loop fuel (view s) j.
Proof.
  revert s j. induction fuel as [|fuel IH]; intros s j Hs Hj; cbn [up_loop]; [done|].
  fold (parent j). assert (parent j < Len s) as Hp.
  { destruct (decide (j = 0)) as [->|]; [done|]. pose proof (parent_lt j); lia. }
  rewrite law_Less_list by done. case_match; [done|].
  destruct (law_Swap s (parent j) j Hs Hp Hj) as [Hs' Hv].
  pose proof (law_Swap_Len s (parent j) j Hs Hp Hj).
  destruct (IH _ (parent j) Hs' ltac:(lia)) as [Hi' ->]. by rewrite Hv.
Qed.

Lemma view_down_loop fuel s i n :
  hinv s → n ≤ Len s → i ≤ n →
  hinv (down_loop fuel s i n).1 ∧
  down_loop fuel (view s) i n =
    (view (down_loop fuel s i n).1, (down_loop fuel s i n).2).
Proof.
  revert s i. induction fuel as [|fuel IH]; intros s i Hs Hn Hi; [done|].
  cbn [down_loop]. destruct (Nat.leb_spec n (2 * i + 1)) as [|Hj1]; [done|].
  assert ((2 * i + 1 + 1 <? n) && Less (view s) (2 * i + 1 + 1) (2 * i + 1) =
          (2 * i + 1 + 1 <? n) && Less s (2 * i + 1 + 1) (2 * i + 1)) as ->.
  { destruct (Nat.ltb_spec (2 * i + 1 + 1) n); [|done].
    cbn [andb]. symmetry. apply law_Less_list; [done|lia..]. }
  set (j := if _ && _ then _ else _).
  assert (j < n ∧ i < n) as [Hj Hi'].
  { subst j. destruct (Nat.ltb_spec (2 * i + 1 + 1) n); simpl; repeat case_match; lia. }
  rewrite <- (law_Less_list s j i) by (done || lia). case_match; [done|].
  destruct (law_Swap s i j Hs ltac:(lia) ltac:(lia)) as [Hs' Hv].
  pose proof (law_Swap_Len s i j Hs ltac:(lia) ltac:(lia)).
  destruct (IH _ j Hs' ltac:(lia) ltac:(lia)) as [? ?]. split; [done|].
  change (Swap (view s) i j) with (lswap (view s) i j). by rewrite <- Hv.
Qed.

Lemma view_up s j :
  hinv s → j < Len s → hinv (up s j) ∧ view (up s j) = up (view s) j.
Proof. apply view_up_loop. Qed.

Lemma view_down s i n :
  hinv s → n ≤ Len s → i ≤ n →
  hinv (down s i n).1 ∧ down (view s) i n = (view (down s i n).1, (down s i n).2).
Proof.
  intros Hs Hn Hi. pose proof (view_down_loop (n - i) s i n Hs Hn Hi) as [? Heq].
  unfold down. rewrite Heq. by destruct (down_loop (n - i) s i n).
Qed.

(** The loops stop by themselves: more fuel changes nothing. *)
Lemma up_loop_fuel fuel s j : j < fuel → up_loop (S fuel) s j = up_loop fuel s j.
Proof.
  revert s j. induction fuel as [|fuel IH]; intros s j Hj; [lia|].
  cbn [up_loop]. fold (parent j).
  destruct (Nat.eqb_spec (parent j) j) as [|Hne]; [done|].
  cbn [orb]. case_match; [done|]. apply IH.
  assert (0 < j) as H0 by (destruct j; [done|lia]). pose proof (parent_lt j H0). lia.
Qed.

Lemma down_loop_fuel fuel s i n :
  n - i ≤ fuel → down_loop (S fuel) s i n = down_loop fuel s i n.
Proof.
  revert s i. induction fuel as [|fuel IH]; intros s i Hf.
  { cbn [down_loop]. destruct (Nat.leb_spec n (2 * i + 1)); [done|lia]. }
  cbn [down_loop] in *. destruct (Nat.leb_spec n (2 * i + 1)); [done|].
  case_match; [done|]. apply IH.
  repeat case_match; lia.
Qed.

Context `{!StrictWeakOrder lt}.

Lemma heap_Push_spec s x :
  hinv s → heap_ordered lt (view s) → can_push s x →
  hinv (heap_Push s x) ∧ heap_ordered lt (view (heap_Push s x)) ∧
  view (heap_Push s x) ≡ₚ elt s x :: view s.
Proof.
  intros Hs Hh Hx. unfold heap_Push. destruct (law_Push s x Hs Hx) as [Hs' Hv].
  assert (Len (Push s x) = S (length (view s))) as Hl
    by (rewrite law_Len, Hv, length_app by done; simpl; lia).
  destruct (view_up (Push s x) (Len (Push s x) - 1) Hs' ltac:(lia)) as [? Heq].
  pose proof (heap_Push_list lt (view s) (elt s x) Hh) as HP.
  change (lheap lt) with lheap' in HP. unfold heap_Push in HP.
  split; [done|]. rewrite Heq, Hv, Hl. cbn [Len Push list_heap lheap'] in HP.
  rewrite length_app in HP. cbn [length] in HP. by rewrite Nat.add_1_r in HP.
Qed.

Lemma heap_Fix_spec s i :
  hinv s → i < Len s → heap_but lt (view s) (Len s) i →
  hinv (heap_Fix s i) ∧ heap_ordered lt (view (heap_Fix s i)) ∧
  view (heap_Fix s i) ≡ₚ view s.
Proof.
  intros Hs Hi Hh. rewrite law_Len in Hh, Hi by done.
  pose proof (heap_Fix_list lt (view s) i Hi Hh) as HF.
  change (lheap lt) with lheap' in HF. unfold heap_Fix in *.
  cbn [Len list_heap lheap'] in HF. rewrite <- law_Len in HF, Hi by done.
  destruct (view_down s i (Len s) Hs (le_n _) ltac:(lia)) as [Hs' Heq].
  rewrite Heq in HF. destruct (down s i (Len s)) as [s' m]; cbn [fst snd] in *.
  destruct m; [done|].
  assert (Len s' = Len s) as Hl.
  { rewrite !law_Len by done. apply Permutation_length.
    pose proof (down_perm lt (view s) i (Len s)) as Hp.
    change (lheap lt) with lheap' in Hp. by rewrite Heq in Hp. }
  destruct (view_up s' i Hs' ltac:(lia)) as [? ->]. done.
Qed.

(** [Pop] on an implementation whose view is what [list_Pop_spec] needs. *)
Lemma view_Pop s a l' :
  hinv s → Pop (view s) = Some (a, l') →
  ∃ r s', Pop s = Some (r, s') ∧ result r a ∧ hinv s' ∧ view s' = l'.
Proof.
  intros Hs HP. cbn [Pop list_heap lheap'] in HP.
  destruct (last (view s)) as [b|] eqn:Hlast; [|done]. simplify_eq.
  by apply law_Pop.
Qed.

Lemma heap_Pop_spec s a :
  hinv s → heap_ordered lt (view s) → view s !! 0 = Some a →
  ∃ r s', heap_Pop s = Some (r, s') ∧ result r a ∧ hinv s' ∧
          heap_ordered lt (view s') ∧ a :: view s' ≡ₚ view s.
Proof.
  intros Hs Hh Ha. destruct (heap_Pop_list lt (view s) a Hh Ha) as (l' & HP & Hl' & Hp).
  change (lheap lt) with lheap' in HP.
  pose proof (lookup_lt_Some _ _ _ Ha) as Hpos.
  unfold heap_Pop in *. cbn [Len list_heap lheap'] in HP. rewrite <- law_Len in HP, Hpos by done.
  destruct (Nat.eqb_spec (Len s) 0) as [?|_]; [lia|].
  destruct (law_Swap s 0 (Len s - 1) Hs ltac:(lia) ltac:(lia)) as [Hs1 Hv1].
  pose proof (law_Swap_Len s 0 (Len s - 1) Hs ltac:(lia) ltac:(lia)) as Hl1.
  destruct (view_down (Swap s 0 (Len s - 1)) 0 (Len s - 1) Hs1 ltac:(lia) ltac:(lia))
    as [Hs2 Heq]. rewrite Hv1 in Heq.
  change (Swap (view s) 0 (Len s - 1)) with (lswap (view s) 0 (Len s - 1)) in HP.
  rewrite Heq in HP. destruct (down (Swap s 0 (Len s - 1)) 0 (Len s - 1)) as [s2 m].
  destruct (view_Pop s2 a l' Hs2 HP) as (r & s' & ? & ? & ? & <-). by exists r, s'.
Qed.

Lemma heap_Remove_spec s i a :
  hinv s → heap_ordered lt (view s) → view s !! i = Some a →
  ∃ r s', heap_Remove s i = Some (r, s') ∧ result r a ∧ hinv s' ∧
          heap_ordered lt (view s') ∧ a :: view s' ≡ₚ view s.
Proof.
  intros Hs Hh Ha. destruct (heap_Remove_list lt (view s) i a Hh Ha) as (l' & HP & Hl' & Hp).
  change (lheap lt) with lheap' in HP.
  pose proof (lookup_lt_Some _ _ _ Ha) as Hi.
  unfold heap_Remove in *. cbn [Len list_heap lheap'] in HP. rewrite <- law_Len in HP, Hi by done.
  destruct (Nat.leb_spec (Len s) i) as [?|_]; [lia|].
  enough (∃ s2, hinv s2 ∧ (if Len s - 1 =? i then s else
      let '(s2, moved) := down (Swap s i (Len s - 1)) i (Len s - 1) in
      if moved then s2 else up s2 i) = s2 ∧ Pop (view s2) = Some (a, l')) as (s2 & Hs2 & -> & HP2).
  { destruct (view_Pop s2 a l' Hs2 HP2) as (r & s' & ? & ? & ? & <-). by exists r, s'. }
  destruct (Nat.eqb_spec (Len s - 1) i) as [|Hne]; [by exists s|].
  destruct (law_Swap s i (Len s - 1) Hs ltac:(lia) ltac:(lia)) as [Hs1 Hv1].
  pose proof (law_Swap_Len s i (Len s - 1) Hs ltac:(lia) ltac:(lia)) as Hl1.
  destruct (view_down (Swap s i (Len s - 1)) i (Len s - 1) Hs1 ltac:(lia) ltac:(lia))
    as [Hs2 Heq]. rewrite Hv1 in Heq.
  change (Swap (view s) i (Len s - 1)) with (lswap (view s) i (Len s - 1)) in HP.
  rewrite Heq in HP. destruct (down (Swap s i (Len s - 1)) i (Len s - 1)) as [s2 m] eqn:Hd.
  cbn [fst snd] in *. destruct m; [by exists s2|]. exists (up s2 i).
  assert (Len s2 = Len s) as Hl.
  { rewrite !law_Len by done. transitivity (length (lswap (view s) i (Len s - 1))).
    - apply Permutation_length.
      pose proof (down_perm lt (lswap (view s) i (Len s - 1)) i (Len s - 1)) as Hpm.
      change (lheap lt) with lheap' in Hpm.
      by rewrite Heq in Hpm.
    - by rewrite length_lswap. }
  destruct (view_up s2 i Hs2 ltac:(lia)) as [? ->]. done.
Qed.

Lemma heap_Pop_empty (s : St) : Len s = 0 → heap_Pop s = None.
Proof. unfold heap_Pop. by intros ->. Qed.
End simulation.

(** ** Frames of an implementation

    A preorder that [Swap], [Push] and [Pop] respect is respected by the heap
    operations: what they leave alone outside the view stays as it was. *)
Section frame.
  Context {St X R : Type} `{HI : HeapInterface St X R}.
  Context (P : relation St) `{!PreOrder P}.
  Hypothesis P_Swap : ∀ s i j, P s (Swap s i j).

Lemma up_loop_P fuel s j : P s (up_loop fuel s j).
Proof.
  revert s j. induction fuel as [|fuel IH]; intros s j; cbn [up_loop]; [reflexivity|].
  case_match; [reflexivity|]. etransitivity; [apply P_Swap|apply IH].
Qed.

Lemma down_loop_P fuel s i n : P s (down_loop fuel s i n).1.
Proof.
  revert s i. induction fuel as [|fuel IH]; intros s i; cbn [down_loop]; [reflexivity|].
  repeat case_match; simpl; try reflexivity; (etransitivity; [apply P_Swap|apply IH]).
Qed.

Lemma down_P s i n : P s (down s i n).1.
Proof.
  unfold down. pose proof (down_loop_P (n - i) s i n).
  by destruct (down_loop (n - i) s i n).
Qed.

Lemma heap_Fix_P s i : P s (heap_Fix s i).
Proof.
  unfold heap_Fix. pose proof (down_P s i (Len s)). destruct (down s i (Len s)) as [s' [|]]; [done|].
  etransitivity; [done|]. apply up_loop_P.
Qed.

Hypothesis P_Pop : ∀ s r s', Pop s = Some (r, s') → P s s'.

Lemma heap_Pop_P s r s' : heap_Pop s = Some (r, s') → P s s'.
Proof.
  unfold heap_Pop. case_match; [done|].
  pose proof (down_P (Swap s 0 (Len s - 1)) 0 (Len s - 1)) as Hd.
  destruct (down _ _ _) as [s1 m]. intros HP%P_Pop. simpl in Hd.
  etransitivity; [apply P_Swap|]. by etransitivity.
Qed.

Lemma heap_Remove_P s i r s' : heap_Remove s i = Some (r, s') → P s s'.
Proof.
  unfold heap_Remove. case_match; [done|]. case_match; [apply P_Pop|].
  pose proof (down_P (Swap s i (Len s - 1)) i (Len s - 1)) as Hd.
  destruct (down _ _ _) as [s1 [|]]; simpl in Hd; intros HP%P_Pop.
  - etransitivity; [apply P_Swap|]. by etransitivity.
  - etransitivity; [apply P_Swap|]. etransitivity; [done|].
    etransitivity; [apply up_loop_P|done].
Qed.

Lemma heap_Push_P s x : P s (Push s x) → P s (heap_Push s x).
Proof. intros HP. unfold heap_Push. etransitivity; [done|]. apply up_loop_P. Qed.
End frame.
