(* ===== verification/WorkQueue.v ===== *)
(** * The work queue: client-go [util/workqueue/queue.go]

    [Type_] is the Go struct [Type]: the FIFO [queue], the [dirty] and
    [processing] sets and the condition variable.  Each method runs under the
    mutex, so it is one atomic function on the state; [Get] either returns or
    goes to sleep on the condition variable, and a woken goroutine runs its
    loop again.  [step] interleaves the calls of any number of producers and
    workers. *)

From S2P Require Import Prelude.

Section workqueue.
  Context {K : Type} `{Countable K}.

(** [type set map[t]empty], with [has], [insert] and [delete]. *)
Definition set_has (s : gset K) (item : K) : bool := bool_decide (item ∈ s).
Definition set_insert (s : gset K) (item : K) : gset K := {[item]} ∪ s.
Definition set_delete (s : gset K) (item : K) : gset K := s ∖ {[item]}.

Record Type_ := mkType {
  queue : list K;
  dirty : gset K;
  processing : gset K;
  cond : Cond;
  shuttingDown : bool;
}.

Definition newQueue : Type_ := mkType [] ∅ ∅ (mkCond 0 0) false.

Definition Add (q : Type_) (item : K) : Type_ :=
  if shuttingDown q then q
  else if set_has (dirty q) item then q
  else
    let dirty' := set_insert (dirty q) item in
    if set_has (processing q) item then
      mkType (queue q) dirty' (processing q) (cond q) (shuttingDown q)
    else
      mkType (queue q ++ [item]) dirty' (processing q) (cond_Signal (cond q)) (shuttingDown q).

Definition Len (q : Type_) : nat := length (queue q).

(** What one pass of [Get]'s loop comes to. *)
Inductive get_result :=
| GetItem (item : K)     (* return item, false *)
| GetShutdown            (* return nil, true *)
| GetWait.               (* q.cond.Wait() *)

Definition Get (q : Type_) : get_result * Type_ :=
  match queue q with
  | [] =>
      if shuttingDown q then (GetShutdown, q)
      else (GetWait, mkType (queue q) (dirty q) (processing q) (cond_Wait (cond q)) (shuttingDown q))
  | item :: rest =>
      (GetItem item,
       mkType rest (set_delete (dirty q) item) (set_insert (processing q) item) (cond q) (shuttingDown q))
  end.

Definition Done (q : Type_) (item : K) : Type_ :=
  let processing' := set_delete (processing q) item in
  if set_has (dirty q) item then
    mkType (queue q ++ [item]) (dirty q) processing' (cond_Signal (cond q)) (shuttingDown q)
  else
    mkType (queue q) (dirty q) processing' (cond q) (shuttingDown q).

Definition ShutDown (q : Type_) : Type_ :=
  mkType (queue q) (dirty q) (processing q) (cond_Broadcast (cond q)) true.

Definition ShuttingDown (q : Type_) : bool := shuttingDown q.

(** ** Runs of the queue *)

(** [Resumed] is [Get]'s loop continuing after [q.cond.Wait()]. *)
Inductive event :=
| EvAdd (item : K)
| EvGet (r : get_result)
| EvResumed (r : get_result)
| EvDone (item : K)
| EvShutDown.

#[export] Instance get_result_eq_dec : EqDecision get_result.
Proof. solve_decision. Defined.

#[export] Instance event_eq_dec : EqDecision event.
Proof. solve_decision. Defined.

Definition resume (q : Type_) : Type_ :=
  mkType (queue q) (dirty q) (processing q) (cond_Resume (cond q)) (shuttingDown q).

(** [Done] is called on an item that is being processed, as [Get]'s contract
    asks ("You must call Done with item when you have finished processing"). *)
Inductive step : Type_ → event → Type_ → Prop :=
| step_add q item : step q (EvAdd item) (Add q item)
| step_get q r q' : Get q = (r, q') → step q (EvGet r) q'
| step_resume q r q' : 0 < woken (cond q) → Get (resume q) = (r, q') → step q (EvResumed r) q'
| step_done q item : item ∈ processing q → step q (EvDone item) (Done q item)
| step_shutdown q : step q EvShutDown (ShutDown q).

Definition returns (e : event) (item : K) : Prop :=
  e = EvGet (GetItem item) ∨ e = EvResumed (GetItem item).

(** ** Invariant *)

Record wf (q : Type_) : Prop := {
  wf_nodup : NoDup (queue q);
  (* "Every element of queue should be in the dirty set and not in the processing set." *)
  wf_queue x : x ∈ queue q ↔ x ∈ dirty q ∧ x ∉ processing q;
  (* no wake-up is lost *)
  wf_cond : cond_covers (cond q) (length (queue q));
  (* nobody sleeps through a shutdown *)
  wf_down : shuttingDown q = true → waiting (cond q) = 0;
}.

Lemma set_has_true s x : set_has s x = true ↔ x ∈ s.
Proof. apply bool_decide_eq_true. Qed.

Lemma set_has_false s x : set_has s x = false ↔ x ∉ s.
Proof. apply bool_decide_eq_false. Qed.

Lemma waiting_Signal c : waiting c = 0 → waiting (cond_Signal c) = 0.
Proof. unfold cond_Signal. by intros Hc; rewrite Hc. Qed.

Ltac queue_cases :=
  repeat match goal with
    | H : set_has _ _ = true |- _ => apply set_has_true in H
    | H : set_has _ _ = false |- _ => apply set_has_false in H
    end.

Lemma wf_new : wf newQueue.
Proof.
  split; simpl; try done; [constructor|set_solver|].
  unfold cond_covers. simpl. lia.
Qed.

Lemma wf_append q x d p b :
  wf q → shuttingDown q = b → x ∉ queue q → x ∈ d → x ∉ p →
  (∀ y, y ≠ x → y ∈ d ∧ y ∉ p ↔ y ∈ dirty q ∧ y ∉ processing q) →
  wf (mkType (queue q ++ [x]) d p (cond_Signal (cond q)) b).
Proof.
  intros [Hnd Hq Hc Hdown] <- Hx Hd Hp Hother. split; simpl.
  - apply NoDup_app. split; [done|]. split; [set_solver|apply NoDup_singleton].
  - intros y. rewrite elem_of_app, list_elem_of_singleton.
    destruct (decide (y = x)) as [->|Hne]; [naive_solver|].
    rewrite Hother, <- Hq by done. naive_solver.
  - rewrite length_app. simpl. rewrite Nat.add_1_r. auto with go.
  - intros ?. apply waiting_Signal. auto.
Qed.

Lemma wf_Add q x : wf q → wf (Add q x).
Proof.
  intros Hwf. unfold Add. repeat case_match; queue_cases; try done.
  - destruct Hwf as [Hnd Hq Hc Hd]. split; simpl; try done.
    intros y. rewrite Hq. unfold set_insert. set_solver.
  - apply wf_append; [done|done| |unfold set_insert; set_solver|done|unfold set_insert; set_solver].
    rewrite (wf_queue q Hwf). naive_solver.
Qed.

Lemma wf_Get q r q' : wf q → Get q = (r, q') → wf q'.
Proof.
  unfold Get. intros [Hnd Hq Hc Hd] HG. destruct (queue q) as [|x l] eqn:Hqueue.
  - destruct (shuttingDown q) eqn:Hs; simplify_eq.
    + split; rewrite ?Hqueue; auto.
    + split; simpl; rewrite ?Hqueue; try done. intros ?. simpl. lia.
  - simplify_eq. apply NoDup_cons in Hnd as [Hx Hnd]. split; simpl; try done.
    + intros y. unfold set_delete, set_insert. specialize (Hq y).
      rewrite elem_of_cons in Hq. destruct (decide (y = x)); set_solver.
    + intros Hw. specialize (Hc Hw). simpl in Hc. lia.
Qed.

Lemma wf_resume q r q' :
  wf q → 0 < woken (cond q) → Get (resume q) = (r, q') → wf q'.
Proof.
  intros [Hnd Hq Hc Hd] Hw HG. unfold Get, resume in HG; simpl in HG.
  destruct (queue q) as [|x l] eqn:Hqueue.
  - destruct (shuttingDown q) eqn:Hs; simplify_eq; split; simpl; auto;
      unfold cond_covers; simpl; lia.
  - simplify_eq. apply NoDup_cons in Hnd as [Hx Hnd]. split; simpl; try done.
    + intros y. unfold set_delete, set_insert. specialize (Hq y).
      rewrite elem_of_cons in Hq. destruct (decide (y = x)); set_solver.
    + intros Hwait. specialize (Hc Hwait). simpl in *. lia.
Qed.

Lemma wf_Done q x : wf q → x ∈ processing q → wf (Done q x).
Proof.
  intros Hwf Hx. unfold Done. case_match; queue_cases.
  - apply wf_append; [done|done| |done|unfold set_delete; set_solver|unfold set_delete; set_solver].
    rewrite (wf_queue q Hwf). naive_solver.
  - destruct Hwf as [Hnd Hq Hc Hd]. split; simpl; try done.
    intros y. rewrite Hq. unfold set_delete. destruct (decide (y = x)); set_solver.
Qed.

Lemma wf_ShutDown q : wf q → wf (ShutDown q).
Proof. intros [Hnd Hq Hc Hd]. split; simpl; auto with go. Qed.

#[local] Hint Resolve wf_Add wf_Get wf_resume wf_Done wf_ShutDown : go.

Lemma wf_step q e q' : wf q → step q e q' → wf q'.
Proof. intros Hwf. destruct 1; eauto with go. Qed.

Lemma wf_trace q es q' : trace step q es q' → wf q → wf q'.
Proof. apply (trace_invariant step wf wf_step). Qed.

(** A pending item stays pending across an event that does not return it. *)
Lemma dirty_step q e q' x :
  step q e q' → x ∈ dirty q → ¬ returns e x → x ∈ dirty q'.
Proof.
  unfold returns. intros Hstep Hx Hno. destruct Hstep as [q y|q r q' HG|q r q' _ HG|q y _|q]; simpl; try done.
  - unfold Add, set_insert. repeat case_match; simpl; set_solver.
  - unfold Get in HG. repeat case_match; simplify_eq; simpl; try done.
    unfold set_delete. set_solver.
  - unfold Get, resume in HG. simpl in HG. repeat case_match; simplify_eq; simpl; try done.
    unfold set_delete. set_solver.
  - unfold Done. case_match; done.
Qed.

Lemma dirty_trace q es q' x :
  trace step q es q' → x ∈ dirty q → Forall (λ e, ¬ returns e x) es → x ∈ dirty q'.
Proof.
  induction 1; intros Hx Hes; [done|]. inversion Hes; subst. eauto using dirty_step.
Qed.

(** ** Workers that only take items, one after another *)
Fixpoint take_n (n : nat) (q : Type_) : list get_result * Type_ :=
  match n with
  | O => ([], q)
  | S n => let '(r, q) := Get q in let '(rs, q) := take_n n q in (r :: rs, q)
  end.

Lemma take_n_queue q :
  ∃ q', take_n (length (queue q)) q = ((GetItem <$> queue q), q') ∧
        queue q' = [] ∧ shuttingDown q' = shuttingDown q.
Proof.
  remember (queue q) as l eqn:Hl. revert q Hl.
  induction l as [|x l IH]; intros q Hl; [by exists q|].
  cbn [length take_n]. unfold Get. rewrite <- Hl.
  match goal with |- context [take_n _ ?q1] => destruct (IH q1 eq_refl) as (q' & -> & ? & ?) end.
  by exists q'.
Qed.

Lemma take_n_snoc n q :
  take_n (S n) q =
    let '(rs, q1) := take_n n q in let '(r, q2) := Get q1 in (rs ++ [r], q2).
Proof.
  revert q. induction n as [|n IH]; intros q; [by cbn; destruct (Get q)|].
  cbn [take_n] in *. destruct (Get q) as [r q1].
  rewrite IH. destruct (take_n n q1) as [rs q2]. by destruct (Get q2).
Qed.

Lemma Add_shutdown q items : shuttingDown q = true → foldl Add q items = q.
Proof. intros Hq. induction items; simpl; [done|]. unfold Add at 2. by rewrite Hq. Qed.

(** ** In-flight items *)

Lemma returns_processing q e q' x :
  wf q → step q e q' → returns e x → (x ∉ processing q) ∧ x ∈ processing q'.
Proof.
  intros Hwf Hstep [->| ->]; inversion Hstep as [|? ? ? HG|? ? ? ? HG| |]; subst;
    unfold Get in HG; simpl in HG; destruct (queue q) eqn:Hq; repeat case_match; simplify_eq;
    simpl; unfold set_insert; (split; [|set_solver]);
    apply (wf_queue q Hwf x); rewrite Hq; set_solver.
Qed.

Lemma processing_step q e q' x :
  step q e q' → x ∈ processing q → e ≠ EvDone x → x ∈ processing q'.
Proof.
  intros Hstep Hx Hno. destruct Hstep as [q y|q r q' HG|q r q' _ HG|q y _|q]; simpl; try done.
  - unfold Add. repeat case_match; simpl; done.
  - unfold Get, set_insert in HG. repeat case_match; simplify_eq; simpl; set_solver.
  - unfold Get, resume, set_insert in HG. repeat case_match; simplify_eq; simpl in *; set_solver.
  - unfold Done, set_delete. case_match; simpl; set_solver.
Qed.

Lemma processing_trace q es q' x :
  trace step q es q' → x ∈ processing q → EvDone x ∉ es → x ∈ processing q'.
Proof.
  induction 1; intros Hx Hes; [done|]. apply not_elem_of_cons in Hes as [? ?].
  eauto using processing_step.
Qed.

(** ** Properties *)

(** C36. In every reachable state the work queue is consistent: the FIFO has no
    duplicates and holds exactly the items that are dirty and not being
    processed; when goroutines sleep in [Get], at least as many as there are
    queued items have been woken (no lost wake-up), and none sleeps once the
    queue is shutting down. *)
Theorem workqueue_invariant es q :
  trace step newQueue es q →
  NoDup (queue q) ∧
  (∀ x, x ∈ queue q ↔ x ∈ dirty q ∧ x ∉ processing q) ∧
  (0 < waiting (cond q) → Len q ≤ woken (cond q) ∧ ShuttingDown q = false).
Proof.
  intros [Hnd Hq Hc Hd]%wf_trace; [|apply wf_new]. split_and!; [done..|].
  intros Hw. split; [by apply Hc|]. unfold ShuttingDown.
  destruct (shuttingDown q); [specialize (Hd eq_refl); lia|done].
Qed.

(** C37. An item is processed by one worker at a time: in every run, between two
    [Get]s that return the same item there is a [Done] of that item. *)
Theorem workqueue_exclusive x es1 e1 es2 e2 q :
  trace step newQueue (es1 ++ e1 :: es2 ++ [e2]) q →
  returns e1 x → returns e2 x → EvDone x ∈ es2.
Proof.
  intros (q1 & H1 & Ht)%trace_app_inv Hr1 Hr2. inversion Ht as [|? ? q2 ? ? He1 Ht2]; subst.
  apply trace_app_inv in Ht2 as (q3 & H2 & Ht3).
  inversion Ht3 as [|? ? ? ? ? He2 _]; subst.
  pose proof (wf_trace _ _ _ H1 wf_new) as Hwf1. pose proof (wf_step _ _ _ Hwf1 He1) as Hwf2.
  destruct (decide (EvDone x ∈ es2)) as [|Hno]; [done|].
  destruct (returns_processing _ _ _ _ Hwf1 He1 Hr1) as [_ Hin].
  pose proof (processing_trace _ _ _ _ H2 Hin Hno).
  destruct (returns_processing _ _ _ _ (wf_trace _ _ _ H2 Hwf2) He2 Hr2). done.
Qed.

(** No addition is lost: once [Add] accepts an item, the item stays dirty
    until a [Get] issued after the addition returns it, and meanwhile it is
    queued whenever no worker is processing it. *)
Lemma workqueue_add_not_lost es q x es' q' :
  trace step newQueue es q → ShuttingDown q = false →
  trace step (Add q x) es' q' → Forall (λ e, ¬ returns e x) es' →
  x ∈ dirty q' ∧ (x ∉ processing q' → x ∈ queue q').
Proof.
  intros Ht Hs Ht' Hno. pose proof (wf_trace _ _ _ Ht wf_new) as Hwf.
  assert (x ∈ dirty (Add q x)) as Hx.
  { unfold Add, ShuttingDown in *. rewrite Hs. unfold set_insert.
    repeat case_match; queue_cases; simpl; set_solver. }
  pose proof (dirty_trace _ _ _ _ Ht' Hx Hno) as Hd. split; [done|].
  intros Hp. by apply (wf_queue q' (wf_trace _ _ _ Ht' (wf_Add _ _ Hwf))).
Qed.

(** Shutdown drains: after [ShutDown], additions are ignored, successive
    [Get]s return the queued items in FIFO order, and the one after the last
    item reports the shutdown. *)
Theorem workqueue_shutdown_drains q items :
  ∃ q', take_n (S (Len q)) (foldl Add (ShutDown q) items) =
          ((GetItem <$> queue q) ++ [GetShutdown], q') ∧
        queue q' = [] ∧ ShuttingDown q' = true.
Proof.
  rewrite Add_shutdown by done. rewrite take_n_snoc. unfold Len.
  destruct (take_n_queue (ShutDown q)) as (q' & Htake & Hq' & Hs').
  cbn [queue ShutDown] in Htake. rewrite Htake. exists q'. unfold Get.
  rewrite Hq'. cbn [shuttingDown ShutDown] in Hs'. rewrite Hs'. done.
Qed.
End workqueue.
Arguments Type_ K {_ _}.
Arguments get_result K : clear implicits.
Arguments event K : clear implicits.

(** ** Witnesses: two workers and an item added again while it is processed *)

Definition demo_queue : Type_ nat := Add (Add newQueue 7) 8.
Definition demo_after_get : Type_ nat := (Get demo_queue).2.

Lemma demo_trace :
  trace step (newQueue (K := nat))
    [EvAdd 7; EvAdd 8; EvGet (GetItem 7)] demo_after_get.
Proof. repeat econstructor. Defined.

Lemma workqueue_invariant_witness :
  queue demo_after_get = [8] ∧
  NoDup (queue demo_after_get) ∧
  (∀ x, x ∈ queue demo_after_get ↔ x ∈ dirty demo_after_get ∧ x ∉ processing demo_after_get) ∧
  (0 < waiting (cond demo_after_get) →
   Len demo_after_get ≤ woken (cond demo_after_get) ∧ ShuttingDown demo_after_get = false).
Proof. split; [reflexivity|]. exact (workqueue_invariant _ _ demo_trace). Defined.

Lemma workqueue_exclusive_witness : EvDone 7 ∈ [EvAdd 7; EvDone 7; EvGet (GetItem 8)].
Proof.
  refine (workqueue_exclusive 7 [EvAdd 7; EvAdd 8] (EvGet (GetItem 7))
    [EvAdd 7; EvDone 7; EvGet (GetItem 8)] (EvGet (GetItem 7))
    (Get (Get (Done (Add demo_after_get 7) 7)).2).2 _ (or_introl eq_refl) (or_introl eq_refl)).
  simpl app. repeat econstructor.
Defined.

Lemma workqueue_add_not_lost_witness :
  7 ∈ dirty (Add demo_after_get 7) ∧
  (7 ∉ processing (Add demo_after_get 7) → 7 ∈ queue (Add demo_after_get 7)).
Proof.
  refine (workqueue_add_not_lost _ demo_after_get 7 [] _ demo_trace eq_refl _ _); constructor.
Defined.
