(* ===== verification/DelayingQueue.v ===== *)
(** * The delaying queue: client-go [util/workqueue/delaying_queue.go]

    [waitFor] objects live in a store addressed by pointers, because the
    priority queue [waitingForQueue] and the map [waitingEntryByData] share
    them: [insert] changes [readyAt] of an object both of them point to.
    [waitForPriorityQueue] is an instance of [HeapInterface], so that
    [container/heap] applies to it.  [waitingLoop] is modelled as the state
    its loop keeps, the part of an iteration up to the [select]
    ([addReady] and [nextReadyAt]) and one function per case of the [select]. *)

From S2P Require Import Prelude GoHeap WorkQueue.

Section delaying.
  Context {K : Type} `{Countable K}.

(** Times and durations are in nanoseconds. *)
Record waitFor := mkWaitFor { data : K; readyAt : Z; index : Z }.

(** The objects, and [type waitForPriorityQueue []*waitFor]. *)
Record waitHeap := mkWaitHeap { store : gmap nat waitFor; pq : list nat }.

Definition set_index (st : gmap nat waitFor) (p : nat) (i : Z) : gmap nat waitFor :=
  alter (λ w, mkWaitFor (data w) (readyAt w) i) p st.

Definition pq_Len (h : waitHeap) : nat := length (pq h).

Definition pq_Less (h : waitHeap) (i j : nat) : bool :=
  match pq h !! i, pq h !! j with
  | Some p, Some q =>
      match store h !! p, store h !! q with
      | Some a, Some b => (readyAt a <? readyAt b)%Z
      | _, _ => false
      end
  | _, _ => false
  end.

Definition pq_Swap (h : waitHeap) (i j : nat) : waitHeap :=
  let l := lswap (pq h) i j in
  let st := match l !! i with Some p => set_index (store h) p (Z.of_nat i) | None => store h end in
  let st := match l !! j with Some p => set_index st p (Z.of_nat j) | None => st end in
  mkWaitHeap st l.

(** The argument is a pointer to an object already in the store. *)
Definition pq_Push (h : waitHeap) (p : nat) : waitHeap :=
  let n := length (pq h) in
  mkWaitHeap (set_index (store h) p (Z.of_nat n)) (pq h ++ [p]).

Definition pq_Pop (h : waitHeap) : option (nat * waitHeap) :=
  match last (pq h) with
  | Some p => Some (p, mkWaitHeap (set_index (store h) p (-1)) (take (length (pq h) - 1) (pq h)))
  | None => None
  end.

Definition pq_Peek (h : waitHeap) : option nat := pq h !! 0.

#[export] Instance waitForPriorityQueue : HeapInterface waitHeap nat nat := {
  GoHeap.Len := pq_Len;
  Less := pq_Less;
  Swap := pq_Swap;
  Push := pq_Push;
  Pop := pq_Pop;
}.

(** [insert(q *waitForPriorityQueue, knownEntries map[t]*waitFor, entry *waitFor)].
    The entry is a new object: it is allocated at [p]. *)
Definition insert (h : waitHeap) (knownEntries : gmap K nat) (p : nat) (entry : waitFor)
    : waitHeap * gmap K nat :=
  let h := mkWaitHeap (<[p := entry]> (store h)) (pq h) in
  match knownEntries !! data entry with
  | Some e =>
      match store h !! e with
      | Some existing =>
          if (readyAt entry <? readyAt existing)%Z then
            let existing := mkWaitFor (data existing) (readyAt entry) (index existing) in
            let h := mkWaitHeap (<[e := existing]> (store h)) (pq h) in
            (heap_Fix h (Z.to_nat (index existing)), knownEntries)
          else (h, knownEntries)
      | None => (h, knownEntries)
      end
  | None => (heap_Push h p, <[data entry := p]> knownEntries)
  end.

(** The embedded [Interface], "stopCh is closed", the channel
    [waitingForAddCh] (each message the fields of the [waitFor] it points to),
    and the variables of [waitingLoop]. *)
Record delayingType := mkDelaying {
  Interface : Type_ K;
  stopped : bool;
  waitingForAddCh : list (K * Z);
  heap : waitHeap;
  waitingEntryByData : gmap K nat;
  next_ptr : nat;    (* the allocator *)
}.

Definition newDelayingQueue : delayingType :=
  mkDelaying newQueue false [] (mkWaitHeap ∅ []) ∅ 0.

Definition upd_Interface (f : Type_ K → Type_ K) (s : delayingType) : delayingType :=
  mkDelaying (f (Interface s)) (stopped s) (waitingForAddCh s) (heap s)
             (waitingEntryByData s) (next_ptr s).

(** [make(chan *waitFor, 1000)] *)
Definition waitingForAddCh_cap : nat := 1000.

(** [None] when the send blocks: the channel is full and not stopped. When both
    cases of the [select] are ready Go picks one; [pick_stop] is its choice. *)
Definition AddAfter (now : Z) (pick_stop : bool) (q : delayingType) (item : K) (duration : Z)
    : option delayingType :=
  if ShuttingDown (Interface q) then Some q
  else if (duration <=? 0)%Z then Some (upd_Interface (λ i, WorkQueue.Add i item) q)
  else
    let room := length (waitingForAddCh q) <? waitingForAddCh_cap in
    if stopped q && (pick_stop || negb room) then Some q
    else if room then
      Some (mkDelaying (Interface q) (stopped q) (waitingForAddCh q ++ [(item, now + duration)%Z])
                       (heap q) (waitingEntryByData q) (next_ptr q))
    else None.

(** [stopOnce.Do]: a second call does nothing. *)
Definition ShutDown (q : delayingType) : delayingType :=
  if stopped q then q
  else mkDelaying (WorkQueue.ShutDown (Interface q)) true (waitingForAddCh q) (heap q)
                  (waitingEntryByData q) (next_ptr q).

(** "Add ready entries": one pass of the inner loop pops the head if it is due. *)
Definition addReadyOne (now : Z) (s : delayingType) : option delayingType :=
  match pq_Peek (heap s) with
  | None => None
  | Some p =>
      match store (heap s) !! p with
      | Some entry =>
          if (now <? readyAt entry)%Z then None
          else
            match heap_Pop (heap s) with
            | Some (p', h') =>
                match store h' !! p' with
                | Some entry =>
                    Some (mkDelaying (WorkQueue.Add (Interface s) (data entry)) (stopped s)
                            (waitingForAddCh s) h'
                            (delete (data entry) (waitingEntryByData s)) (next_ptr s))
                | None => None
                end
            | None => None
            end
      | None => None
      end
  end.

(** Each pass removes an entry, so the length of the queue bounds the loop. *)
Fixpoint addReady_loop (fuel : nat) (now : Z) (s : delayingType) : delayingType :=
  match fuel with
  | O => s
  | S fuel =>
      match addReadyOne now s with
      | Some s' => addReady_loop fuel now s'
      | None => s
      end
  end.

Definition addReady (now : Z) (s : delayingType) : delayingType :=
  addReady_loop (length (pq (heap s))) now s.

(** The duration of the timer the loop arms, [None] for the channel [never]. *)
Definition nextReadyAt (now : Z) (s : delayingType) : option Z :=
  match pq_Peek (heap s) with
  | Some p =>
      match store (heap s) !! p with
      | Some entry => Some (readyAt entry - now)%Z
      | None => None
      end
  | None => None
  end.

(** [waitEntry := <-q.waitingForAddCh], the clock then reading [now]. *)
Definition receive (s : delayingType) (now : Z) : delayingType :=
  match waitingForAddCh s with
  | [] => s
  | (item, ready) :: ch =>
      if (now <? ready)%Z then
        let '(h, known) :=
          insert (heap s) (waitingEntryByData s) (next_ptr s) (mkWaitFor item ready 0) in
        mkDelaying (Interface s) (stopped s) ch h known (S (next_ptr s))
      else
        mkDelaying (WorkQueue.Add (Interface s) item) (stopped s) ch (heap s)
                   (waitingEntryByData s) (next_ptr s)
  end.

(** What the [select] chose; a receive comes with the clock readings made for
    the first message and for those drained after it. *)
Inductive selected :=
| SelStop
| SelHeartbeat
| SelTimer
| SelReceive (nows : list Z).

(** One iteration, the clock reading [now] at its start; [None] when the loop
    returns. *)
Definition waitingLoop_iter (now : Z) (sel : selected) (s : delayingType) : option delayingType :=
  if ShuttingDown (Interface s) then None
  else
    let s := addReady now s in
    match sel with
    | SelStop => None
    | SelHeartbeat | SelTimer => Some s
    | SelReceive nows => Some (foldl receive s nows)
    end.

(** ** The priority queue keeps [heap.Interface]'s promises *)

Definition info (st : gmap nat waitFor) (p : nat) : option (K * Z) :=
  (λ w, (data w, readyAt w)) <$> st !! p.

(** An element of the view: a pointer and what it points to. *)
Definition ready_of (a : nat * option (K * Z)) : Z :=
  match a.2 with Some (_, r) => r | None => 0%Z end.

Definition earlier (a b : nat * option (K * Z)) : bool := (ready_of a <? ready_of b)%Z.

#[export] Instance earlier_swo : StrictWeakOrder earlier.
Proof. split; unfold earlier; intros *; rewrite ?Z.ltb_lt, ?Z.ltb_ge; lia. Qed.

Definition pq_wf (h : waitHeap) : Prop :=
  NoDup (pq h) ∧
  ∀ i p, pq h !! i = Some p → ∃ w, store h !! p = Some w ∧ index w = Z.of_nat i.

Definition pq_view (h : waitHeap) : list (nat * option (K * Z)) :=
  (λ p, (p, info (store h) p)) <$> pq h.

Lemma lookup_set_index st q i p :
  set_index st q i !! p =
    if decide (q = p) then (λ w, mkWaitFor (data w) (readyAt w) i) <$> st !! p else st !! p.
Proof. unfold set_index. rewrite lookup_alter. by case_decide; subst. Qed.

Lemma info_set_index st q i p : info (set_index st q i) p = info st p.
Proof.
  unfold info. rewrite lookup_set_index. case_decide; [|done].
  by destruct (st !! p).
Qed.

(** The heap operations do not touch what the objects say. *)
Definition same_info (h h' : waitHeap) : Prop := ∀ p, info (store h') p = info (store h) p.

#[export] Instance same_info_preorder : PreOrder same_info.
Proof. split; [by intros ? ?|]. intros h1 h2 h3 H12 H23 p. by rewrite H23, H12. Qed.

Lemma pq_Swap_info h i j : same_info h (pq_Swap h i j).
Proof. intros p. unfold pq_Swap. simpl. repeat case_match; by rewrite ?info_set_index. Qed.

Lemma pq_Push_info h q : same_info h (pq_Push h q).
Proof. intros p. apply info_set_index. Qed.

Lemma pq_Pop_info h r h' : pq_Pop h = Some (r, h') → same_info h h'.
Proof. unfold pq_Pop. case_match; intros ?; simplify_eq. intros p. apply info_set_index. Qed.

Lemma pq_view_same h h' l :
  same_info h h' → pq h' = l → pq_view h' = (λ p, (p, info (store h) p)) <$> l.
Proof.
  intros Hs <-. unfold pq_view. apply list_fmap_ext. intros ? p _. f_equal. apply Hs.
Qed.

Lemma pq_Swap_wf h i j :
  pq_wf h → i < length (pq h) → j < length (pq h) → pq_wf (pq_Swap h i j).
Proof.
  intros [Hnd Hix] Hi Hj. unfold pq_Swap. set (l := lswap (pq h) i j).
  assert (NoDup l) as Hl by (unfold l; by rewrite lswap_perm). split; [done|].
  simpl. intros k p Hk.
  destruct (lookup_lt_is_Some_2 l i) as [pi Hpi]; [unfold l; by rewrite length_lswap|].
  destruct (lookup_lt_is_Some_2 l j) as [pj Hpj]; [unfold l; by rewrite length_lswap|].
  rewrite Hpi, Hpj, !lookup_set_index.
  assert (is_Some (store h !! p)) as [w Hw].
  { unfold l in Hk. rewrite lookup_lswap in Hk by done.
    destruct (Hix _ _ Hk) as (w & ? & _). by exists w. }
  rewrite Hw. destruct (decide (pj = p)) as [->|Hpjp].
  { assert (k = j) as -> by (by eapply NoDup_lookup). repeat case_decide; simpl; eauto. }
  destruct (decide (pi = p)) as [->|Hpip].
  { assert (k = i) as -> by (by eapply NoDup_lookup). simpl. eauto. }
  simpl. exists w. split; [done|].
  assert (k ≠ i ∧ k ≠ j) as [Hki Hkj] by (split; congruence).
  unfold l in Hk. rewrite lookup_lswap in Hk by done.
  unfold swap_idx in Hk. rewrite !decide_False in Hk by done.
  destruct (Hix _ _ Hk) as (w' & ? & ?). by simplify_eq.
Qed.

#[export] Program Instance waitForPriorityQueue_laws :
    HeapLaws (nat * option (K * Z)) waitForPriorityQueue earlier := {|
  hinv := pq_wf;
  view := pq_view;
  elt h p := (p, info (store h) p);
  can_push h p := (p ∉ pq h) ∧ is_Some (store h !! p);
  result p a := p = a.1;
|}.
Next Obligation. intros h Hh. unfold pq_view. by rewrite length_fmap. Qed.
Next Obligation.
  intros h i j a b [_ Hix] Ha Hb. unfold pq_view in *. rewrite list_lookup_fmap in Ha, Hb.
  simpl. unfold pq_Less.
  destruct (pq h !! i) as [p|] eqn:Hp; [|done]. destruct (pq h !! j) as [q|] eqn:Hq; [|done].
  destruct (Hix _ _ Hp) as (v & Hv & _). destruct (Hix _ _ Hq) as (w & Hw & _).
  simpl in *. simplify_eq. unfold earlier, ready_of, info. simpl. by rewrite Hv, Hw.
Qed.
Next Obligation.
  intros h i j Hh Hi Hj. split; [by apply pq_Swap_wf|].
  change (pq_view (pq_Swap h i j) = lswap (pq_view h) i j).
  rewrite (pq_view_same h _ (lswap (pq h) i j)); [|apply pq_Swap_info|done].
  apply fmap_lswap.
Qed.
Next Obligation.
  intros h p [Hnd Hix] [Hp [w Hw]]. split; [split|]; simpl.
  - apply NoDup_app. split; [done|]. split; [set_solver|apply NoDup_singleton].
  - intros i q Hi. rewrite lookup_set_index.
    apply lookup_app_Some in Hi as [Hi|[Hlen Hi]].
    + rewrite decide_False; [by apply Hix|]. intros <-. apply Hp. by eapply list_elem_of_lookup_2.
    + apply list_lookup_singleton_Some in Hi as [Hi <-]. rewrite decide_True by done.
      rewrite Hw. simpl. eexists. split; [done|]. simpl. f_equal. lia.
  - unfold pq_view. simpl. rewrite fmap_app. f_equal.
    + apply list_fmap_ext. intros ? q _. f_equal. apply info_set_index.
    + simpl. by rewrite info_set_index.
Qed.
Next Obligation.
  intros h a [Hnd Hix] Ha. unfold pq_view in *. rewrite fmap_last in Ha. simpl. unfold pq_Pop.
  destruct (last (pq h)) as [p|] eqn:Hlast; simpl in Ha; [|done]. simplify_eq.
  assert (pq h !! (length (pq h) - 1) = Some p) as Hp.
  { rewrite last_lookup in Hlast. rewrite <- Hlast. f_equal. lia. }
  eexists p, _. split_and!; [done|done| |]; simpl.
  - split; simpl.
    + eapply sublist_NoDup; [done|]. apply sublist_take.
    + intros i q Hi. rewrite lookup_take in Hi. case_decide as Hlt; [|done].
      rewrite lookup_set_index, decide_False; [by apply Hix|].
      intros <-. pose proof (NoDup_lookup _ _ _ _ Hnd Hi Hp). lia.
  - rewrite length_fmap, <- fmap_take. apply list_fmap_ext.
    intros ? q _. f_equal. apply info_set_index.
Qed.

(** ** The abstract delaying queue: a map from items to the time they are due *)

Definition due_map (h : waitHeap) (known : gmap K nat) : gmap K Z :=
  omap (λ p, snd <$> info (store h) p) known.

Definition waiting_until (s : delayingType) : gmap K Z :=
  due_map (heap s) (waitingEntryByData s).

Record entries_wf (h : waitHeap) (known : gmap K nat) (next : nat) : Prop := {
  ewf_pq : pq_wf h;
  ewf_heap : heap_ordered earlier (pq_view h);
  ewf_known d p :
    known !! d = Some p ↔ p ∈ pq h ∧ ∃ r, info (store h) p = Some (d, r);
  ewf_fresh p : next ≤ p → store h !! p = None;
}.

Definition dwf (s : delayingType) : Prop :=
  entries_wf (heap s) (waitingEntryByData s) (next_ptr s).

Lemma due_map_Some h known n d r :
  entries_wf h known n →
  due_map h known !! d = Some r ↔ ∃ p, p ∈ pq h ∧ info (store h) p = Some (d, r).
Proof.
  intros Hs. unfold due_map. rewrite lookup_omap_Some. split.
  - intros (p & Hr & Hp%(ewf_known _ _ _ Hs)). destruct Hp as [Hp [r' Hi]].
    rewrite Hi in Hr. simpl in Hr. simplify_eq. eauto.
  - intros (p & Hp & Hi). exists p. rewrite Hi. split; [done|].
    apply (ewf_known _ _ _ Hs). eauto.
Qed.

Lemma pq_view_fst h : (pq_view h).*1 = pq h.
Proof. unfold pq_view. rewrite <- list_fmap_compose. apply list_fmap_id. Qed.

Lemma pq_perm h h' : pq_view h' ≡ₚ pq_view h → pq h' ≡ₚ pq h.
Proof. intros Hp. rewrite <- (pq_view_fst h), <- (pq_view_fst h'). by rewrite Hp. Qed.

Lemma pq_elem_info h p : pq_wf h → p ∈ pq h → is_Some (info (store h) p).
Proof.
  intros [_ Hix] [i Hi]%list_elem_of_lookup. destruct (Hix _ _ Hi) as (w & Hw & _).
  unfold info. rewrite Hw. by eexists.
Qed.

Lemma ewf_not_elem h known n p : entries_wf h known n → n ≤ p → p ∉ pq h.
Proof.
  intros Hs Hp Hin. destruct (pq_elem_info _ _ (ewf_pq _ _ _ Hs) Hin) as [x Hx].
  unfold info in Hx. by rewrite (ewf_fresh _ _ _ Hs p Hp) in Hx.
Qed.

Lemma same_info_None h h' p : same_info h h' → store h !! p = None → store h' !! p = None.
Proof.
  intros Hs Hn. specialize (Hs p). unfold info in Hs. rewrite Hn in Hs.
  by destruct (store h' !! p).
Qed.

(** *** The heap operations on a consistent queue *)

Lemma pq_Fix_spec h i :
  pq_wf h → i < length (pq h) → heap_but earlier (pq_view h) (length (pq h)) i →
  pq_wf (heap_Fix h i) ∧ heap_ordered earlier (pq_view (heap_Fix h i)) ∧
  pq (heap_Fix h i) ≡ₚ pq h ∧ same_info h (heap_Fix h i).
Proof.
  intros Hh Hi Hbut.
  destruct (heap_Fix_spec (HL := waitForPriorityQueue_laws) h i Hh Hi Hbut) as (? & ? & Hp).
  split_and!; [done|done|by apply pq_perm|].
  apply (heap_Fix_P (HI := waitForPriorityQueue) same_info pq_Swap_info).
Qed.

Lemma pq_heap_Push_spec h p :
  pq_wf h → heap_ordered earlier (pq_view h) → p ∉ pq h → is_Some (store h !! p) →
  pq_wf (heap_Push h p) ∧ heap_ordered earlier (pq_view (heap_Push h p)) ∧
  pq (heap_Push h p) ≡ₚ p :: pq h ∧ same_info h (heap_Push h p).
Proof.
  intros Hh Ho Hp Hw.
  destruct (heap_Push_spec (HL := waitForPriorityQueue_laws) h p Hh Ho (conj Hp Hw))
    as (? & ? & Hperm).
  split_and!; [done|done| |].
  - apply (fmap_Permutation fst) in Hperm. simpl in Hperm.
    change (view ?h) with (pq_view h) in Hperm. by rewrite !pq_view_fst in Hperm.
  - apply (heap_Push_P (HI := waitForPriorityQueue) same_info pq_Swap_info), pq_Push_info.
Qed.

Lemma pq_heap_Pop_spec h p :
  pq_wf h → heap_ordered earlier (pq_view h) → pq_Peek h = Some p →
  ∃ h', heap_Pop h = Some (p, h') ∧ pq_wf h' ∧ heap_ordered earlier (pq_view h') ∧
        p :: pq h' ≡ₚ pq h ∧ same_info h h'.
Proof.
  intros Hh Ho Hp. unfold pq_Peek in Hp.
  assert (pq_view h !! 0 = Some (p, info (store h) p)) as Hv
    by (unfold pq_view; by rewrite list_lookup_fmap, Hp).
  destruct (heap_Pop_spec (HL := waitForPriorityQueue_laws) h _ Hh Ho Hv)
    as (r & h' & HP & Hr & ? & ? & Hperm).
  simpl in Hr. subst r. exists h'. split_and!; [done|done|done| |].
  - apply (fmap_Permutation fst) in Hperm. simpl in Hperm.
    change (view ?h) with (pq_view h) in Hperm. by rewrite !pq_view_fst in Hperm.
  - by apply (heap_Pop_P (HI := waitForPriorityQueue) same_info pq_Swap_info pq_Pop_info) in HP.
Qed.

(** *** [insert], case by case *)

Lemma info_insert_ne st p w q : q ≠ p → info (<[p:=w]> st) q = info st q.
Proof. intros. unfold info. by rewrite lookup_insert_ne. Qed.

(** A new object that the queue does not hold yet. *)
Lemma entries_alloc h known n w :
  entries_wf h known n →
  let h0 := mkWaitHeap (<[n := w]> (store h)) (pq h) in
  entries_wf h0 known (S n) ∧ due_map h0 known = due_map h known.
Proof.
  intros Hs h0. pose proof (ewf_not_elem _ _ _ _ Hs (le_n _)) as Hnew.
  assert (∀ q, q ∈ pq h → info (store h0) q = info (store h) q) as Hinfo.
  { intros q Hq. apply info_insert_ne. by intros ->. }
  assert (entries_wf h0 known (S n)) as Hs0.
  { destruct Hs as [[Hnd Hix] Ho Hk Hf]. split.
    - split; [done|]. intros i q Hi. simpl in *. rewrite lookup_insert_ne; [by apply Hix|].
      intros ->. apply Hnew. by eapply list_elem_of_lookup_2.
    - replace (pq_view h0) with (pq_view h); [done|]. unfold pq_view. simpl.
      apply list_fmap_ext. intros i q Hi%list_elem_of_lookup_2. f_equal. symmetry. by apply Hinfo.
    - intros d q. rewrite Hk. simpl. split; intros [Hq [r Hr]]; (split; [done|]);
        exists r; [by rewrite Hinfo|by rewrite <- Hinfo].
    - intros q Hq. simpl. rewrite lookup_insert_ne by lia. apply Hf. lia. }
  split; [done|]. apply map_eq. intros d. apply option_eq. intros r.
  rewrite (due_map_Some _ _ _ _ _ Hs0), (due_map_Some _ _ _ _ _ Hs).
  split; intros (q & Hq & Hr); exists q; (split; [done|]);
    [by rewrite <- Hinfo|by rewrite Hinfo].
Qed.

(** Entries after an operation that gives [item] the time [r]. *)
Lemma entries_after h known n h' item r p0 :
  entries_wf h known n → pq_wf h' → heap_ordered earlier (pq_view h') →
  (∀ p, n ≤ p → store h' !! p = None) →
  info (store h') p0 = Some (item, r) →
  (∀ p, p ∈ pq h' ↔ p = p0 ∨ p ∈ pq h) →
  (∀ p d r', p ∈ pq h → info (store h) p = Some (d, r') → p = p0 ↔ d = item) →
  (∀ p, p ≠ p0 → info (store h') p = info (store h) p) →
  entries_wf h' (<[item := p0]> known) n ∧
  due_map h' (<[item := p0]> known) = <[item := r]> (due_map h known).
Proof.
  intros Hs Hpq Ho Hf Hi0 Hmem Huniq Hinfo.
  assert (∀ d p, d ≠ item →
    (∀ r', p ∈ pq h ∧ info (store h) p = Some (d, r') ↔
           p ∈ pq h' ∧ info (store h') p = Some (d, r'))) as Hne.
  { intros d p Hd r'. rewrite Hmem. split.
    - intros [Hp Hr']. pose proof (Huniq _ _ _ Hp Hr'). rewrite Hinfo by naive_solver. naive_solver.
    - intros [Hp Hr']. destruct (decide (p = p0)) as [->|Hpp]; [congruence|].
      rewrite Hinfo in Hr' by done. naive_solver. }
  assert (∀ p r', p ∈ pq h' → info (store h') p = Some (item, r') → p = p0) as Hitem.
  { intros p r' [Hp|Hp]%Hmem Hr'; [done|]. destruct (decide (p = p0)) as [|Hpp]; [done|].
    rewrite Hinfo in Hr' by done. by apply (Huniq _ _ _ Hp Hr'). }
  assert (entries_wf h' (<[item := p0]> known) n) as Hs'.
  { split; [done..| |done]. intros d p. rewrite lookup_insert. case_decide as Hd.
    - subst d. split; [intros [= <-]; rewrite Hmem; eauto|]. intros [Hp [r' Hr']].
      f_equal. symmetry. eauto.
    - rewrite (ewf_known _ _ _ Hs). specialize (Hne d p ltac:(done)). naive_solver. }
  split; [done|]. apply map_eq. intros d. apply option_eq. intros r'.
  rewrite (due_map_Some _ _ _ _ _ Hs'), lookup_insert. case_decide as Hd.
  - subst d. split.
    + intros (p & Hp & Hr'). pose proof (Hitem _ _ Hp Hr'). congruence.
    + intros [= <-]. exists p0. rewrite Hmem. auto.
  - rewrite (due_map_Some _ _ _ _ _ Hs). pose proof (λ p, Hne d p ltac:(done) r'). naive_solver.
Qed.

(** An entry of the queue gets another [readyAt], and [heap.Fix] is called. *)
Lemma entries_retime h known n e x r i :
  entries_wf h known n → store h !! e = Some x → pq h !! i = Some e →
  let h1 := mkWaitHeap (<[e := mkWaitFor (data x) r (index x)]> (store h)) (pq h) in
  entries_wf (heap_Fix h1 i) known n ∧
  due_map (heap_Fix h1 i) known = <[data x := r]> (due_map h known).
Proof.
  intros Hs Hx Hi h1. pose proof Hs as [[Hnd Hix] Ho Hk Hf].
  assert (e ∈ pq h) as He by (by eapply list_elem_of_lookup_2).
  assert (i < length (pq h)) as Hlen by (by eapply lookup_lt_Some).
  assert (pq_wf h1) as Hh1.
  { split; [done|]. intros j q Hj. simpl in *. rewrite lookup_insert. case_decide; [subst q|by apply Hix].
    destruct (Hix _ _ Hj) as (w' & Hw' & Hidx). simplify_eq. eauto. }
  assert (pq_view h1 = <[i := (e, Some (data x, r))]> (pq_view h)) as Hv1.
  { apply list_eq. intros j. unfold pq_view. rewrite !list_lookup_fmap. simpl.
    destruct (decide (i = j)) as [<-|Hne].
    - rewrite list_lookup_insert_eq, Hi by (by rewrite length_fmap).
      simpl. unfold info. by rewrite lookup_insert_eq.
    - rewrite list_lookup_insert_ne, list_lookup_fmap by done.
      destruct (pq h !! j) as [q|] eqn:Hj; [|done]. simpl. do 2 f_equal.
      apply info_insert_ne. intros ->. apply Hne. by eapply NoDup_lookup. }
  assert (known !! data x = Some e) as Hke by (apply Hk; split; [done|];
    exists (readyAt x); unfold info; by rewrite Hx).
  destruct (pq_Fix_spec h1 i Hh1 Hlen) as (? & ? & Hp & Hsame).
  { rewrite Hv1. replace (length (pq h1)) with (length (pq_view h))
      by (unfold pq_view; by rewrite length_fmap).
    apply heap_but_insert; [apply _|done|]. unfold pq_view. by rewrite length_fmap. }
  enough (entries_wf (heap_Fix h1 i) (<[data x := e]> known) n ∧
          due_map (heap_Fix h1 i) (<[data x := e]> known) = <[data x := r]> (due_map h known))
    as Hgoal by (by rewrite insert_id in Hgoal).
  apply entries_after; [done..| | | | |].
  - intros q Hq. eapply same_info_None; [done|]. simpl. rewrite lookup_insert_ne; [by apply Hf|].
    intros <-. rewrite Hf in Hx by done. done.
  - rewrite Hsame. unfold info. simpl. by rewrite lookup_insert_eq.
  - intros q. rewrite Hp. simpl. naive_solver.
  - intros q d r' Hq Hr'. split; [intros ->|intros ->].
    + unfold info in Hr'. rewrite Hx in Hr'. naive_solver.
    + assert (known !! data x = Some q) by (apply Hk; eauto). congruence.
  - intros q Hq. rewrite Hsame. by apply info_insert_ne.
Qed.

(** A new entry for an item the queue does not know. *)
Lemma entries_push h known n p w :
  entries_wf h known n → store h !! p = Some w → p ∉ pq h → known !! data w = None →
  entries_wf (heap_Push h p) (<[data w := p]> known) n ∧
  due_map (heap_Push h p) (<[data w := p]> known) = <[data w := readyAt w]> (due_map h known).
Proof.
  intros Hs Hw Hp Hkn. pose proof Hs as [Hpq Ho Hk Hf].
  destruct (pq_heap_Push_spec h p Hpq Ho Hp ltac:(by eexists)) as (? & ? & Hperm & Hsame).
  apply entries_after; [done..| | | | |].
  - intros q Hq. eapply same_info_None; [done|]. by apply Hf.
  - rewrite Hsame. unfold info. by rewrite Hw.
  - intros q. by rewrite Hperm, elem_of_cons.
  - intros q d r' Hq Hr'. split; [intros ->|intros ->]; [done|].
    assert (known !! data w = Some q) by (apply Hk; eauto). congruence.
  - intros q _. apply Hsame.
Qed.

Definition sooner (o : option Z) (r : Z) : Z :=
  match o with Some r' => Z.min r' r | None => r end.

Lemma insert_spec h known n item r :
  entries_wf h known n →
  let '(h', known') := insert h known n (mkWaitFor item r 0) in
  entries_wf h' known' (S n) ∧
  due_map h' known' = <[item := sooner (due_map h known !! item) r]> (due_map h known).
Proof.
  intros Hs. pose proof (ewf_not_elem _ _ _ _ Hs (le_n _)) as Hnew.
  destruct (entries_alloc h known n (mkWaitFor item r 0) Hs) as [Hs0 <-].
  unfold insert. cbn [data readyAt]. set (h0 := mkWaitHeap _ _) in *.
  destruct (known !! item) as [e|] eqn:He.
  - apply (ewf_known _ _ _ Hs0) in He as [Hin [re Hre]].
    assert (due_map h0 known !! item = Some re) as Hd by (apply (due_map_Some _ _ _ _ _ Hs0); eauto).
    rewrite Hd. unfold info in Hre. destruct (store h0 !! e) as [x|] eqn:Hx; [|done].
    simpl in Hre. simplify_eq. cbn [sooner]. destruct (Z.ltb_spec r (readyAt x)).
    + rewrite Z.min_r by lia. apply list_elem_of_lookup in Hin as [i Hi].
      destruct (ewf_pq _ _ _ Hs0) as [_ Hix]. destruct (Hix _ _ Hi) as (x' & Hx' & Hidx).
      assert (x' = x) as -> by congruence. cbn [index]. rewrite Hidx, Nat2Z.id, <- Hidx.
      by apply entries_retime.
    + rewrite Z.min_l by lia. split; [done|]. by rewrite insert_id.
  - assert (due_map h0 known !! item = None) as ->
      by (unfold due_map; by rewrite lookup_omap, He).
    apply (entries_push h0 known (S n) n (mkWaitFor item r 0)); [done| |done|done].
    simpl. by rewrite lookup_insert_eq.
Qed.

(** *** Popping the entries that are due *)

Lemma entries_pop h known n p w :
  entries_wf h known n → pq_Peek h = Some p → store h !! p = Some w →
  ∃ h' w', heap_Pop h = Some (p, h') ∧ store h' !! p = Some w' ∧ data w' = data w ∧
    length (pq h) = S (length (pq h')) ∧
    entries_wf h' (delete (data w) known) n ∧
    due_map h' (delete (data w) known) = delete (data w) (due_map h known).
Proof.
  intros Hs Hp Hw. pose proof Hs as [Hpq Ho Hk Hf].
  destruct (pq_heap_Pop_spec h p Hpq Ho Hp) as (h' & HP & Hpq' & Ho' & Hperm & Hsame).
  assert (info (store h) p = Some (data w, readyAt w)) as Hi by (unfold info; by rewrite Hw).
  pose proof (Hsame p) as Hi'. rewrite Hi in Hi'. unfold info in Hi'.
  destruct (store h' !! p) as [w'|] eqn:Hw'; [|done]. simpl in Hi'. simplify_eq.
  assert (NoDup (p :: pq h')) as [Hnp _]%NoDup_cons by (rewrite Hperm; apply Hpq).
  assert (∀ q d r, d ≠ data w → q ∈ pq h' ∧ info (store h') q = Some (d, r) ↔
                   q ∈ pq h ∧ info (store h) q = Some (d, r)) as Hne.
  { intros q d r Hd. rewrite <- Hperm, elem_of_cons, Hsame. naive_solver. }
  assert (∀ q r, q ∈ pq h' → info (store h') q ≠ Some (data w, r)) as Hgone.
  { intros q r Hq Hr. rewrite Hsame in Hr.
    assert (known !! data w = Some q) as Hkq by (apply Hk; rewrite <- Hperm; set_solver).
    assert (known !! data w = Some p) as Hkp by (apply Hk; rewrite <- Hperm; set_solver).
    by simplify_eq. }
  assert (entries_wf h' (delete (data w) known) n) as Hs'.
  { split; [done..| |].
    - intros d q. rewrite lookup_delete. case_decide as Hd; [subst d; naive_solver|].
      rewrite Hk. pose proof (λ r, Hne q d r ltac:(done)). naive_solver.
    - intros q Hq. eapply same_info_None; [done|]. by apply Hf. }
  exists h', w'. split_and!; [done..| |done|].
  - by rewrite <- (Permutation_length Hperm).
  - apply map_eq. intros d. apply option_eq. intros r.
    rewrite (due_map_Some _ _ _ _ _ Hs'), lookup_delete. case_decide as Hd.
    + subst d. naive_solver.
    + rewrite (due_map_Some _ _ _ _ _ Hs). pose proof (λ q, Hne q d r ltac:(done)). naive_solver.
Qed.

Lemma entries_head_min h known n p w d r :
  entries_wf h known n → pq_Peek h = Some p → store h !! p = Some w →
  due_map h known !! d = Some r → (readyAt w ≤ r)%Z.
Proof.
  intros Hs Hp Hw Hd. apply (due_map_Some _ _ _ _ _ Hs) in Hd as (q & Hq & Hi).
  apply list_elem_of_lookup in Hq as [i Hqi].
  assert (pq_view h !! 0 = Some (p, info (store h) p)) as H0
    by (unfold pq_view, pq_Peek in *; by rewrite list_lookup_fmap, Hp).
  assert (pq_view h !! i = Some (q, info (store h) q)) as Hi2
    by (unfold pq_view; by rewrite list_lookup_fmap, Hqi).
  pose proof (heap_root_min earlier _ _ _ _ (ewf_heap _ _ _ Hs) H0 Hi2) as Hmin.
  unfold earlier, ready_of in Hmin. simpl in Hmin. rewrite Hi in Hmin.
  unfold info in Hmin. rewrite Hw in Hmin. simpl in Hmin. by apply Z.ltb_ge in Hmin.
Qed.

Lemma entries_empty h known n : entries_wf h known n → pq_Peek h = None → due_map h known = ∅.
Proof.
  intros Hs Hp. apply map_eq. intros d. apply option_eq. intros r. rewrite lookup_empty.
  rewrite (due_map_Some _ _ _ _ _ Hs). unfold pq_Peek in Hp.
  destruct (pq h); [|done]. set_solver.
Qed.

Lemma entries_head h known n p :
  entries_wf h known n → pq_Peek h = Some p →
  ∃ w, store h !! p = Some w ∧ due_map h known !! data w = Some (readyAt w).
Proof.
  intros Hs Hp. destruct (ewf_pq _ _ _ Hs) as [_ Hix].
  destruct (Hix 0 p Hp) as (w & Hw & _). exists w. split; [done|].
  apply (due_map_Some _ _ _ _ _ Hs). exists p. split; [by eapply list_elem_of_lookup_2|].
  unfold info. by rewrite Hw.
Qed.

Lemma addReadyOne_spec now s :
  dwf s →
  match addReadyOne now s with
  | Some s' =>
      ∃ d r, waiting_until s !! d = Some r ∧ (r ≤ now)%Z ∧
        (∀ d' r', waiting_until s !! d' = Some r' → (r ≤ r')%Z) ∧
        dwf s' ∧ waiting_until s' = delete d (waiting_until s) ∧
        Interface s' = WorkQueue.Add (Interface s) d ∧
        waitingForAddCh s' = waitingForAddCh s ∧ stopped s' = stopped s ∧
        length (pq (heap s)) = S (length (pq (heap s')))
  | None => ∀ d r, waiting_until s !! d = Some r → (now < r)%Z
  end.
Proof.
  intros Hs. unfold addReadyOne, waiting_until. destruct (pq_Peek (heap s)) as [p|] eqn:Hp.
  - destruct (entries_head _ _ _ _ Hs Hp) as (w & Hw & Hd). rewrite Hw.
    pose proof (λ d r, entries_head_min _ _ _ _ _ d r Hs Hp Hw) as Hmin.
    destruct (Z.ltb_spec now (readyAt w)) as [Hlt|Hge].
    + intros d r Hr. specialize (Hmin _ _ Hr). lia.
    + destruct (entries_pop _ _ _ _ _ Hs Hp Hw) as (h' & w' & -> & -> & -> & Hlen & Hs' & Hdue).
      exists (data w), (readyAt w). by split_and!.
  - intros d r. by rewrite (entries_empty _ _ _ Hs Hp), lookup_empty.
Qed.

Definition due (now : Z) (kv : K * Z) : Prop := (kv.2 ≤ now)%Z.
Definition not_due (now : Z) (kv : K * Z) : Prop := (now < kv.2)%Z.
#[export] Instance due_dec now kv : Decision (due now kv).
Proof. unfold due. apply _. Defined.
#[export] Instance not_due_dec now kv : Decision (not_due now kv).
Proof. unfold not_due. apply _. Defined.

Definition by_time (a b : K * Z) : Prop := (a.2 ≤ b.2)%Z.

Lemma none_due now (m : gmap K Z) :
  (∀ d r, m !! d = Some r → (now < r)%Z) → filter (due now) m = ∅ ∧ filter (not_due now) m = m.
Proof.
  intros Hno. split.
  - apply map_empty_filter_2. intros d r Hd%Hno. unfold due. simpl. lia.
  - apply map_filter_id. intros d r Hd%Hno. done.
Qed.

Lemma addReady_loop_spec fuel now s :
  dwf s → length (pq (heap s)) ≤ fuel →
  let s' := addReady_loop fuel now s in
  dwf s' ∧ waiting_until s' = filter (not_due now) (waiting_until s) ∧
  waitingForAddCh s' = waitingForAddCh s ∧ stopped s' = stopped s ∧
  ∃ items, StronglySorted by_time items ∧
    items ≡ₚ map_to_list (filter (due now) (waiting_until s)) ∧
    Interface s' = foldl WorkQueue.Add (Interface s) items.*1.
Proof.
  revert s. induction fuel as [|fuel IH]; intros s Hs Hlen; cbn [addReady_loop].
  - assert (waiting_until s = ∅) as Hempty.
    { apply (entries_empty _ _ _ Hs). unfold pq_Peek. by destruct (pq (heap s)); simpl in *; [|lia]. }
    destruct (none_due now (waiting_until s)) as [Hd Hnd]; [by rewrite Hempty|].
    rewrite Hd, Hnd. split_and!; [done..|]. exists []. rewrite map_to_list_empty. by repeat constructor.
  - pose proof (addReadyOne_spec now s Hs) as Hone.
    destruct (addReadyOne now s) as [s1|].
    + destruct Hone as (d & r & Hd & Hr & Hmin & Hs1 & Hw1 & HI1 & Hc1 & Hst1 & Hl1).
      destruct (IH s1 Hs1 ltac:(lia)) as (Hs' & Hw' & Hc' & Hst' & items & Hsort & Hperm & HI').
      rewrite Hw1 in Hw', Hperm. split_and!; [done| |congruence..|].
      * rewrite Hw'. rewrite <- (insert_delete_id (waiting_until s) d r Hd) at 2.
        rewrite map_filter_insert_False by (unfold not_due; simpl; lia).
        by rewrite delete_delete_eq.
      * exists ((d, r) :: items). split_and!.
        -- constructor; [done|]. rewrite Hperm. apply Forall_forall. intros [d' r'].
           rewrite elem_of_map_to_list, map_lookup_filter_Some, lookup_delete_Some.
           intros [[_ Hd'] _]. by apply Hmin in Hd'.
        -- rewrite <- (insert_delete_id (waiting_until s) d r Hd) at 1.
           rewrite map_filter_insert_True by done. rewrite map_to_list_insert; [by rewrite Hperm|].
           apply map_lookup_filter_None. left. by rewrite lookup_delete_eq.
        -- simpl. by rewrite HI', HI1.
    + destruct (none_due now _ Hone) as [-> ->]. split_and!; [done..|].
      exists []. rewrite map_to_list_empty. by repeat constructor.
Qed.

(** ** Runs: callers, workers and the waiting loop *)

Inductive dstep : delayingType → delayingType → Prop :=
| dstep_addAfter now pick s item d s' : AddAfter now pick s item d = Some s' → dstep s s'
| dstep_shutDown s : dstep s (ShutDown s)
| dstep_iter now sel s s' : waitingLoop_iter now sel s = Some s' → dstep s s'
| dstep_worker f s : dstep s (upd_Interface f s).

Lemma receive_spec s now :
  dwf s →
  dwf (receive s now) ∧
  match waitingForAddCh s with
  | [] => receive s now = s
  | (item, ready) :: ch =>
      waitingForAddCh (receive s now) = ch ∧
      if decide (now < ready)%Z then
        Interface (receive s now) = Interface s ∧
        waiting_until (receive s now) =
          <[item := sooner (waiting_until s !! item) ready]> (waiting_until s)
      else
        Interface (receive s now) = WorkQueue.Add (Interface s) item ∧
        waiting_until (receive s now) = waiting_until s
  end.
Proof.
  intros Hs. unfold receive. destruct (waitingForAddCh s) as [|[item ready] ch]; [done|].
  destruct (Z.ltb_spec now ready) as [Hlt|Hge]; [|by rewrite decide_False by lia].
  rewrite decide_True by done. pose proof (insert_spec _ _ _ item ready Hs) as Hins.
  destruct (insert _ _ _ _) as [h known]. destruct Hins as [Hs' Hdue]. by split_and!.
Qed.

Lemma dwf_addReady now s : dwf s → dwf (addReady now s).
Proof. intros Hs. by apply addReady_loop_spec. Qed.

Lemma dwf_receives nows s : dwf s → dwf (foldl receive s nows).
Proof. revert s. induction nows; simpl; intros s Hs; [done|]. by apply IHnows, receive_spec. Qed.

Lemma dwf_dstep s s' : dwf s → dstep s s' → dwf s'.
Proof.
  intros Hs. destruct 1 as [now pick s item d s' HA|s|now sel s s' HI|f s].
  - unfold AddAfter in HA. repeat case_match; by simplify_eq.
  - unfold ShutDown. by case_match.
  - unfold waitingLoop_iter in HI. pose proof (dwf_addReady now s Hs) as Hr.
    repeat case_match; simplify_eq; [done..|]. by apply dwf_receives.
  - done.
Qed.

Lemma dwf_new : dwf newDelayingQueue.
Proof.
  split; simpl; [by split; [constructor|]|by intros i ? ?|set_solver|done].
Qed.

Lemma dwf_reachable s : rtc dstep newDelayingQueue s → dwf s.
Proof. apply (rtc_ind_r (λ s, dwf s)); [apply dwf_new|eauto using dwf_dstep]. Qed.

(** ** Properties *)

(** Receiving a delayed item: an item not yet due is registered once, with
    the sooner of its previous and its new time; an item already due goes
    straight to the work queue. *)
Lemma delaying_receive s now item ready ch :
  rtc dstep newDelayingQueue s → waitingForAddCh s = (item, ready) :: ch →
  let s' := receive s now in
  ((now < ready)%Z →
     Interface s' = Interface s ∧
     waiting_until s' = <[item := sooner (waiting_until s !! item) ready]> (waiting_until s)) ∧
  ((ready ≤ now)%Z →
     Interface s' = WorkQueue.Add (Interface s) item ∧ waiting_until s' = waiting_until s).
Proof.
  intros Hs%dwf_reachable Hch s'. destruct (receive_spec s now Hs) as [_ Hr].
  rewrite Hch in Hr. destruct Hr as [_ Hr]. fold s' in Hr.
  case_decide; split; intros; (done || lia).
Qed.

(** C38. The waiting loop delivers every item when it is due, earliest first,
    and no item before its time: with the clock at [now], exactly the items
    with [readyAt <= now] are added to the work queue, in the order of their
    times, and exactly the others stay registered. *)
Theorem delaying_addReady s now :
  rtc dstep newDelayingQueue s →
  let s' := addReady now s in
  waiting_until s' = filter (not_due now) (waiting_until s) ∧
  ∃ items, StronglySorted by_time items ∧
    items ≡ₚ map_to_list (filter (due now) (waiting_until s)) ∧
    Interface s' = foldl WorkQueue.Add (Interface s) items.*1.
Proof.
  intros Hs%dwf_reachable. by destruct (addReady_loop_spec _ now s Hs (le_n _)) as (_ & ? & _ & _ & ?).
Qed.

(** The loop never oversleeps: after the due items are added, the timer is
    unarmed exactly when nothing waits, and otherwise it is armed for a
    positive duration that ends when the earliest registered item is due. *)
Theorem delaying_timer s now :
  rtc dstep newDelayingQueue s →
  let s' := addReady now s in
  match nextReadyAt now s' with
  | None => waiting_until s' = ∅
  | Some d =>
      (0 < d)%Z ∧ (∃ item, waiting_until s' !! item = Some (now + d)%Z) ∧
      ∀ item r, waiting_until s' !! item = Some r → (now + d ≤ r)%Z
  end.
Proof.
  intros Hs%dwf_reachable s'.
  destruct (addReady_loop_spec _ now s Hs (le_n _)) as (Hs' & Hw' & _). fold (addReady now s) in *.
  fold s' in Hs', Hw'. unfold nextReadyAt, waiting_until. destruct (pq_Peek (heap s')) as [p|] eqn:Hp.
  - destruct (entries_head _ _ _ _ Hs' Hp) as (w & Hw & Hd). rewrite Hw.
    replace (now + (readyAt w - now))%Z with (readyAt w) by lia. split_and!.
    + change (due_map (heap s') (waitingEntryByData s')) with (waiting_until s') in Hd.
      rewrite Hw' in Hd. apply map_lookup_filter_Some in Hd as [_ Hnd].
      unfold not_due in Hnd. simpl in Hnd. lia.
    + eauto.
    + intros item r Hr. by eapply entries_head_min.
  - by eapply entries_empty.
Qed.
End delaying.
Arguments waitFor K : clear implicits.
Arguments waitHeap K : clear implicits.
Arguments delayingType K {_ _}.

(** ** Witnesses: two items, one of them asked for twice *)

Definition demo_sent : option (delayingType nat) :=
  q ← AddAfter 0 false newDelayingQueue 7 30;
  q ← AddAfter 0 false q 8 20;
  AddAfter 1 false q 7 9.

Definition demo_delaying : delayingType nat :=
  match demo_sent with Some q => q | None => newDelayingQueue end.

Definition demo_received : delayingType nat :=
  match waitingLoop_iter 2 (SelReceive [2; 2; 3]%Z) demo_delaying with
  | Some q => q
  | None => newDelayingQueue
  end.

Lemma demo_delaying_reachable : rtc dstep newDelayingQueue demo_delaying.
Proof.
  eapply rtc_l; [by eapply (dstep_addAfter 0 false _ 7 30)|].
  eapply rtc_l; [by eapply (dstep_addAfter 0 false _ 8 20)|].
  eapply rtc_l; [by eapply (dstep_addAfter 1 false _ 7 9)|]. apply rtc_refl.
Defined.

Lemma demo_received_reachable : rtc dstep newDelayingQueue demo_received.
Proof.
  eapply rtc_r; [exact demo_delaying_reachable|].
  by eapply (dstep_iter 2 (SelReceive [2; 2; 3]%Z)).
Defined.

Lemma delaying_receive_witness :
  waiting_until (receive demo_delaying 2) = <[7 := 30%Z]> (waiting_until demo_delaying).
Proof.
  exact (proj2 (proj1 (delaying_receive demo_delaying 2 7 30 _ demo_delaying_reachable eq_refl)
    eq_refl)).
Defined.

Lemma delaying_addReady_witness :
  waiting_until demo_received !! 7 = Some 10%Z ∧
  queue (Interface (addReady 15 demo_received)) = [7] ∧
  waiting_until (addReady 15 demo_received) =
    filter (not_due 15) (waiting_until demo_received).
Proof.
  split; [reflexivity|]. split; [reflexivity|].
  exact (proj1 (delaying_addReady demo_received 15 demo_received_reachable)).
Defined.

Lemma delaying_timer_witness :
  nextReadyAt 15 (addReady 15 demo_received) = Some 5%Z ∧
  ∀ item r, waiting_until (addReady 15 demo_received) !! item = Some r → (15 + 5 ≤ r)%Z.
Proof.
  assert (nextReadyAt 15 (addReady 15 demo_received) = Some 5%Z) as Htimer by reflexivity.
  pose proof (delaying_timer demo_received 15 demo_received_reachable) as Hprop.
  cbv zeta in Hprop. rewrite Htimer in Hprop. exact (conj Htimer (proj2 (proj2 Hprop))).
Defined.
