(* ===== verification/RateLimiters.v ===== *)
(** * Rate limiters: client-go [util/workqueue/default_rate_limiters.go] and
    [rate_limiting_queue.go]

    The implementations of the [RateLimiter] interface are the constructors of
    one type.  The token bucket of [golang.org/x/time/rate] is a parameter: a
    state and the delay its next reservation has.  The exponential limiter
    computes in [float64]; the values it meets are integers times powers of
    two, so they are modelled exactly, with the rounding of the [int64] to
    [float64] conversion and the overflow to infinity.  Converting a [float64]
    outside the [int64] range is implementation-specific in Go: the result is
    the parameter [f2i]. *)

From S2P Require Import Prelude WorkQueue DelayingQueue.

(** ** The [float64] values that occur *)

Inductive float64 := Fin (z : Z) | PInf | NInf | NaN.

(** [float64(z)]: 53 significant bits, to nearest, ties to even. *)
Definition float64_of_int (z : Z) : Z :=
  let e := (Z.log2 (Z.abs z) - 52)%Z in
  if (e <=? 0)%Z then z
  else
    let m := Z.shiftr (Z.abs z) e in
    let rest := (Z.abs z - Z.shiftl m e)%Z in
    let half := Z.shiftl 1 (e - 1) in
    let m := if (half <? rest)%Z || ((rest =? half)%Z && Z.odd m) then (m + 1)%Z else m in
    (Z.sgn z * Z.shiftl m e)%Z.

(** [float64(base) * math.Pow(2, float64(exp))] *)
Definition scale_pow2 (base exp : Z) : float64 :=
  let b := float64_of_int base in
  if (exp <? 1024)%Z then
    let v := (b * 2 ^ exp)%Z in
    if (2 ^ 1024 <=? v)%Z then PInf else if (v <=? - 2 ^ 1024)%Z then NInf else Fin v
  else if (b =? 0)%Z then NaN else if (0 <? b)%Z then PInf else NInf.

(** [x > math.MaxInt64]: the constant becomes the [float64] [2^63]. *)
Definition above_MaxInt64 (x : float64) : bool :=
  match x with Fin z => (2 ^ 63 <? z)%Z | PInf => true | NInf | NaN => false end.

Section limiters.
  Context {K : Type} `{Countable K}.
  Context {B : Type} (bucket_delay : Z → B → Z * B) (f2i : float64 → Z).

(** [time.Duration(x)] *)
Definition duration_of_float64 (x : float64) : Z :=
  match x with
  | Fin z => if (min_int64 <=? z)%Z && (z <=? max_int64)%Z then z else f2i x
  | _ => f2i x
  end.

Inductive RateLimiter :=
| BucketRateLimiter (limiter : B)
| ItemExponentialFailureRateLimiter (failures : gmap K Z) (baseDelay maxDelay : Z)
| ItemFastSlowRateLimiter (failures : gmap K Z) (maxFastAttempts fastDelay slowDelay : Z)
| MaxOfRateLimiter (limiters : list RateLimiter).

(** [m[item]] of a Go map with [int] values. *)
Definition count (failures : gmap K Z) (item : K) : Z := default 0%Z (failures !! item).

Definition exponential_When (failures : gmap K Z) (baseDelay maxDelay : Z) (item : K)
    : Z * gmap K Z :=
  let exp := count failures item in
  let failures := <[item := (count failures item +! 1)%go]> failures in
  let backoff := scale_pow2 baseDelay exp in
  if above_MaxInt64 backoff then (maxDelay, failures)
  else
    let calculated := duration_of_float64 backoff in
    if (maxDelay <? calculated)%Z then (maxDelay, failures) else (calculated, failures).

Definition fastSlow_When (failures : gmap K Z) (maxFastAttempts fastDelay slowDelay : Z) (item : K)
    : Z * gmap K Z :=
  let failures := <[item := (count failures item +! 1)%go]> failures in
  if (count failures item <=? maxFastAttempts)%Z then (fastDelay, failures)
  else (slowDelay, failures).

(** [When], the clock (read by the token bucket) at [now]. *)
Fixpoint When (now : Z) (item : K) (r : RateLimiter) : Z * RateLimiter :=
  match r with
  | BucketRateLimiter b =>
      let '(d, b) := bucket_delay now b in (d, BucketRateLimiter b)
  | ItemExponentialFailureRateLimiter f base max =>
      let '(d, f) := exponential_When f base max item in
      (d, ItemExponentialFailureRateLimiter f base max)
  | ItemFastSlowRateLimiter f n fast slow =>
      let '(d, f) := fastSlow_When f n fast slow item in
      (d, ItemFastSlowRateLimiter f n fast slow)
  | MaxOfRateLimiter limiters =>
      let fix go (ret : Z) (ls : list RateLimiter) : Z * list RateLimiter :=
        match ls with
        | [] => (ret, [])
        | limiter :: ls =>
            let '(curr, limiter) := When now item limiter in
            let ret := if (ret <? curr)%Z then curr else ret in
            let '(ret, ls) := go ret ls in (ret, limiter :: ls)
        end in
      let '(ret, limiters) := go 0%Z limiters in (ret, MaxOfRateLimiter limiters)
  end.

Fixpoint NumRequeues (item : K) (r : RateLimiter) : Z :=
  match r with
  | BucketRateLimiter _ => 0
  | ItemExponentialFailureRateLimiter f _ _ => count f item
  | ItemFastSlowRateLimiter f _ _ _ => count f item
  | MaxOfRateLimiter limiters =>
      foldl (λ ret limiter,
        let curr := NumRequeues item limiter in if (ret <? curr)%Z then curr else ret) 0%Z limiters
  end.

Fixpoint Forget (item : K) (r : RateLimiter) : RateLimiter :=
  match r with
  | BucketRateLimiter b => BucketRateLimiter b
  | ItemExponentialFailureRateLimiter f base max =>
      ItemExponentialFailureRateLimiter (delete item f) base max
  | ItemFastSlowRateLimiter f n fast slow => ItemFastSlowRateLimiter (delete item f) n fast slow
  | MaxOfRateLimiter limiters => MaxOfRateLimiter (map (Forget item) limiters)
  end.

(** 5ms and 1000s *)
Definition DefaultControllerRateLimiter (bucket : B) : RateLimiter :=
  MaxOfRateLimiter
    [ItemExponentialFailureRateLimiter ∅ 5000000 1000000000000; BucketRateLimiter bucket].

(** [rateLimitingType] *)
Record rateLimitingType := mkRateLimiting {
  DelayingInterface : delayingType K;
  rateLimiter : RateLimiter;
}.

Definition AddRateLimited (now : Z) (pick : bool) (q : rateLimitingType) (item : K)
    : option rateLimitingType :=
  let '(d, r) := When now item (rateLimiter q) in
  match AddAfter now pick (DelayingInterface q) item d with
  | Some dq => Some (mkRateLimiting dq r)
  | None => None
  end.

Definition rl_NumRequeues (q : rateLimitingType) (item : K) : Z := NumRequeues item (rateLimiter q).

Definition rl_Forget (q : rateLimitingType) (item : K) : rateLimitingType :=
  mkRateLimiting (DelayingInterface q) (Forget item (rateLimiter q)).

(** The delays of successive failures of one item, at the given clock readings. *)
Fixpoint delays (nows : list Z) (item : K) (r : RateLimiter) : list Z * RateLimiter :=
  match nows with
  | [] => ([], r)
  | now :: nows =>
      let '(d, r) := When now item r in let '(ds, r) := delays nows item r in (d :: ds, r)
  end.

(** ** The exponential limiter *)

Lemma float64_of_int_small z : (0 ≤ z < 2 ^ 53)%Z → float64_of_int z = z.
Proof.
  intros Hz. unfold float64_of_int. rewrite Z.abs_eq by lia.
  destruct (Z.leb_spec (Z.log2 z - 52) 0) as [|Hlog]; [done|].
  destruct (Z.eq_dec z 0) as [->|]; [done|].
  assert (Z.log2 z < 53)%Z by (apply Z.log2_lt_pow2; lia). lia.
Qed.

Lemma count_insert f (item item' : K) z :
  count (<[item := z]> f) item' = if decide (item = item') then z else count f item'.
Proof. unfold count. rewrite lookup_insert. by case_decide. Qed.

Lemma exponential_When_spec f base max item n :
  (0 < base < 2 ^ 53)%Z → (max ≤ max_int64)%Z →
  count f item = n → (0 ≤ n < max_int64)%Z → (base * 2 ^ n ≠ 2 ^ 63)%Z →
  exponential_When f base max item = (Z.min (base * 2 ^ n) max, <[item := (n + 1)%Z]> f).
Proof.
  intros Hbase Hmax Hn Hn0 Hne. unfold exponential_When. rewrite Hn.
  rewrite (int64_id (n + 1)) by (unfold min_int64, max_int64 in *; lia).
  unfold scale_pow2. rewrite float64_of_int_small by lia.
  assert (2 ^ 63 < 2 ^ 1024)%Z as Hbig by (apply Z.pow_lt_mono_r; lia).
  assert (0 < 2 ^ n)%Z as Hpos by (apply Z.pow_pos_nonneg; lia).
  unfold max_int64 in *. destruct (Z.ltb_spec n 1024) as [Hlt|Hge].
  - generalize dependent (2 ^ 1024)%Z. intros top Htop.
    destruct (Z.leb_spec top (base * 2 ^ n)) as [|Hfin]; cbn [above_MaxInt64].
    { by rewrite Z.min_r by lia. }
    destruct (Z.leb_spec (base * 2 ^ n) (- top)) as [|_]; [nia|]. cbn [above_MaxInt64].
    destruct (Z.ltb_spec (2 ^ 63) (base * 2 ^ n)) as [|Hle]; [by rewrite Z.min_r by lia|].
    cbn [duration_of_float64]. unfold min_int64, max_int64.
    destruct (Z.leb_spec (-9223372036854775808) (base * 2 ^ n)) as [_|]; [|nia].
    destruct (Z.leb_spec (base * 2 ^ n) 9223372036854775807) as [_|]; [|lia]. cbn [andb].
    destruct (Z.ltb_spec max (base * 2 ^ n)); [by rewrite Z.min_r by lia|by rewrite Z.min_l by lia].
  - assert (2 ^ 1024 ≤ 2 ^ n)%Z by (apply Z.pow_le_mono_r; lia).
    generalize dependent (2 ^ 1024)%Z. intros top Htop Hn'.
    destruct (Z.eqb_spec base 0) as [|_]; [lia|].
    destruct (Z.ltb_spec 0 base) as [_|]; [|lia]. cbn [above_MaxInt64].
    rewrite Z.min_r by nia. done.
Qed.

(** The default base delay, 5ms, never meets [2^63] exactly. *)
Lemma five_ms_not_pow2 n : (0 ≤ n → 5000000 * 2 ^ n ≠ 2 ^ 63)%Z.
Proof.
  intros Hn Heq. apply (f_equal (λ z, z mod 5)%Z) in Heq.
  replace (5000000 * 2 ^ n)%Z with (1000000 * 2 ^ n * 5)%Z in Heq by lia.
  rewrite Z.mod_mul in Heq by lia. by vm_compute in Heq.
Qed.

Definition default_limiter (f : gmap K Z) (b : B) : RateLimiter :=
  MaxOfRateLimiter [ItemExponentialFailureRateLimiter f 5000000 1000000000000; BucketRateLimiter b].

Lemma default_When now item f b n :
  count f item = n → (0 ≤ n < max_int64)%Z →
  When now item (default_limiter f b) =
    (Z.max (Z.min (5000000 * 2 ^ n) 1000000000000) (bucket_delay now b).1,
     default_limiter (<[item := (n + 1)%Z]> f) (bucket_delay now b).2).
Proof.
  intros Hc Hn. unfold default_limiter. cbn [When].
  rewrite (exponential_When_spec f _ _ item n); [|lia|unfold max_int64; lia|done|done|apply five_ms_not_pow2; lia].
  assert (0 < 2 ^ n)%Z by (apply Z.pow_pos_nonneg; lia).
  destruct (bucket_delay now b) as [d b']. cbn [fst snd].
  set (e := Z.min _ _). assert (0 < e)%Z by lia.
  destruct (Z.ltb_spec 0 e) as [_|]; [|lia].
  destruct (Z.ltb_spec e d); [by rewrite Z.max_r by lia|by rewrite Z.max_l by lia].
Qed.

Lemma default_delays nows item f b n :
  count f item = n → (0 ≤ n)%Z → (n + Z.of_nat (length nows) ≤ max_int64)%Z →
  ∃ ds b' f', delays nows item (default_limiter f b) = (ds, default_limiter f' b') ∧
    length ds = length nows ∧
    count f' item = (n + Z.of_nat (length nows))%Z ∧
    ∀ i d, ds !! i = Some d →
      (Z.min (5000000 * 2 ^ (n + Z.of_nat i)) 1000000000000 ≤ d)%Z.
Proof.
  revert f b n. induction nows as [|now nows IH]; intros f b n Hc Hn Hlen.
  { exists [], b, f. split_and!; simpl in *; [done|done|lia|done]. }
  cbn [delays length] in *. rewrite (default_When now item f b n) by (done || lia).
  destruct (IH (<[item := (n + 1)%Z]> f) (bucket_delay now b).2 (n + 1)%Z)
    as (ds & b' & f' & -> & Hl & Hc' & Hds); [|lia|lia|].
  { rewrite count_insert. by rewrite decide_True. }
  eexists _, b', f'. split_and!; [done|by rewrite <- Hl|rewrite Hc'; lia|].
  intros [|i] d; cbn [lookup list_lookup].
  - intros [= <-]. replace (n + Z.of_nat 0)%Z with n by lia. lia.
  - intros Hd%Hds. replace (n + Z.of_nat (S i))%Z with (n + 1 + Z.of_nat i)%Z by lia. done.
Qed.

Lemma NumRequeues_default item f b : (0 ≤ count f item)%Z → NumRequeues item (default_limiter f b) = count f item.
Proof.
  intros Hc. unfold default_limiter. cbn. destruct (Z.ltb_spec 0 (count f item)); [|].
  - destruct (Z.ltb_spec (count f item) 0); [lia|done].
  - destruct (Z.ltb_spec 0 0); lia.
Qed.

(** ** Properties *)

(** A lower bound of the backoff of the default controller rate limiter: the
    [i]-th retry of an item waits at least [min(5ms * 2^i, 1000s)] whatever the
    token bucket answers, the failures are counted, and [Forget] resets them. *)
Lemma default_controller_backoff bucket nows item :
  (Z.of_nat (length nows) ≤ max_int64)%Z →
  let '(ds, r) := delays nows item (DefaultControllerRateLimiter bucket) in
  length ds = length nows ∧
  (∀ i d, ds !! i = Some d → (Z.min (5000000 * 2 ^ Z.of_nat i) 1000000000000 ≤ d)%Z) ∧
  NumRequeues item r = Z.of_nat (length nows) ∧
  NumRequeues item (Forget item r) = 0%Z.
Proof.
  intros Hlen. change (DefaultControllerRateLimiter bucket) with (default_limiter ∅ bucket).
  destruct (default_delays nows item ∅ bucket 0) as (ds & b' & f' & -> & Hl & Hc & Hds);
    [done|lia|lia|]. split_and!; [done|done| |].
  - rewrite NumRequeues_default by lia. lia.
  - change (Forget item (default_limiter f' b')) with (default_limiter (delete item f') b').
    rewrite NumRequeues_default; unfold count; by rewrite lookup_delete_eq.
Qed.

(** The cap does not cover [2^63] itself: the comparison with
    [math.MaxInt64] is made in [float64], where the constant is [2^63].  With a
    base delay of one nanosecond, after 63 failures the delay is whatever the
    platform's conversion of [2^63] gives, and where that is not positive (it is
    the least [int64] on amd64) the item is retried at once. *)
Lemma exponential_cap_misses_pow2 now pick q item f max :
  rateLimiter q = ItemExponentialFailureRateLimiter f 1 max →
  count f item = 63%Z → (0 ≤ max)%Z → (f2i (Fin (2 ^ 63)) ≤ 0)%Z →
  ShuttingDown (Interface (DelayingInterface q)) = false →
  AddRateLimited now pick q item =
    Some (mkRateLimiting (upd_Interface (λ i, WorkQueue.Add i item) (DelayingInterface q))
            (ItemExponentialFailureRateLimiter (<[item := 64%Z]> f) 1 max)).
Proof.
  intros Hr Hc Hmax Hf Hs. unfold AddRateLimited. rewrite Hr. cbn [When].
  assert (exponential_When f 1 max item = (f2i (Fin (2 ^ 63)), <[item := 64%Z]> f)) as ->.
  { unfold exponential_When. rewrite Hc.
    replace (above_MaxInt64 (scale_pow2 1 63)) with false by (vm_compute; done).
    replace (duration_of_float64 (scale_pow2 1 63)) with (f2i (Fin (2 ^ 63))) by (vm_compute; done).
    destruct (Z.ltb_spec max (f2i (Fin (2 ^ 63)))); [lia|]. done. }
  unfold AddAfter. rewrite Hs. destruct (Z.leb_spec (f2i (Fin (2 ^ 63))) 0); [done|lia].
Qed.
End limiters.
Arguments RateLimiter K {_ _} B.
Arguments rateLimitingType K {_ _} B.

(** ** Witnesses *)

(** A bucket that never delays, and amd64's conversion. *)
Definition no_bucket (now : Z) (b : unit) : Z * unit := (0%Z, b).
Definition amd64_f2i (x : float64) : Z := min_int64.

Lemma default_controller_backoff_witness :
  delays no_bucket amd64_f2i [0; 0; 0]%Z 7 (DefaultControllerRateLimiter tt) =
    ([5000000; 10000000; 20000000]%Z, default_limiter (<[7 := 3%Z]> ∅) tt) ∧
  NumRequeues 7 (default_limiter (<[7 := 3%Z]> ∅) tt) = 3%Z.
Proof.
  split; [reflexivity|].
  exact (proj1 (proj2 (proj2 (default_controller_backoff no_bucket amd64_f2i tt [0; 0; 0]%Z 7
    ltac:(unfold max_int64; simpl; lia))))).
Defined.

Lemma exponential_cap_misses_pow2_witness :
  AddRateLimited no_bucket amd64_f2i 5 false
    (mkRateLimiting newDelayingQueue
       (ItemExponentialFailureRateLimiter {[7 := 63%Z]} 1 1000000000000)) 7 =
  Some (mkRateLimiting (upd_Interface (λ i, WorkQueue.Add i 7) newDelayingQueue)
    (ItemExponentialFailureRateLimiter (<[7 := 64%Z]> {[7 := 63%Z]}) 1 1000000000000)).
Proof.
  apply (exponential_cap_misses_pow2 no_bucket amd64_f2i 5 false
    (mkRateLimiting newDelayingQueue
       (ItemExponentialFailureRateLimiter {[7 := 63%Z]} 1 1000000000000)) 7 {[7 := 63%Z]}
    1000000000000); try reflexivity; vm_compute; discriminate.
Defined.
