(* ===== verification/SchedHeap.v ===== *)
(** * The scheduler's heap: [pkg/scheduler/internal/heap/heap.go]

    [data] is the struct of that name: the map [items] from keys to objects
    with their index, and the slice [queue] of keys that [container/heap]
    orders.  [Heap] adds the metric recorder.  The operations refine a finite
    map from keys to objects whose [Pop] removes a least element
    ([spec_step]). *)

From stdpp Require Import pretty.
From S2P Require Import Prelude GoHeap.

Section schedheap.
  Context {T : Type} (keyFunc : T → option string) (lessFunc : T → T → bool).

Record heapItem := mkItem { obj : T; index : nat }.

Record itemKeyValue := mkKV { kv_key : string; kv_obj : T }.

Record data := mkData { items : gmap string heapItem; queue : list string }.

(** The guard lets an index equal to the length through, which then panics;
    [container/heap] only passes indices in range. *)
Definition data_Less (h : data) (i j : nat) : bool :=
  if (length (queue h) <? i) || (length (queue h) <? j) then false
  else
    match queue h !! i, queue h !! j with
    | Some ki, Some kj =>
        match items h !! ki with
        | None => false
        | Some itemi =>
            match items h !! kj with
            | None => false
            | Some itemj => lessFunc (obj itemi) (obj itemj)
            end
        end
    | _, _ => false
    end.

Definition data_Len (h : data) : nat := length (queue h).

Definition set_index (m : gmap string heapItem) (k : string) (i : nat) : gmap string heapItem :=
  alter (λ it, mkItem (obj it) i) k m.

Definition data_Swap (h : data) (i j : nat) : data :=
  let q := lswap (queue h) i j in
  let m := match q !! i with Some k => set_index (items h) k i | None => items h end in
  let m := match q !! j with Some k => set_index m k j | None => m end in
  mkData m q.

Definition data_Push (h : data) (kv : itemKeyValue) : data :=
  let n := length (queue h) in
  mkData (<[kv_key kv := mkItem (kv_obj kv) n]> (items h)) (queue h ++ [kv_key kv]).

(** The returned object is [nil] ([None]) when the key has no item. *)
Definition data_Pop (h : data) : option (option T * data) :=
  match last (queue h) with
  | None => None
  | Some key =>
      let q := take (length (queue h) - 1) (queue h) in
      match items h !! key with
      | None => Some (None, mkData (items h) q)
      | Some item => Some (Some (obj item), mkData (delete key (items h)) q)
      end
  end.

Definition data_Peek (h : data) : option T :=
  match queue h !! 0 with
  | Some k => obj <$> items h !! k
  | None => None
  end.

#[export] Instance data_heap : HeapInterface data itemKeyValue (option T) := {
  GoHeap.Len := data_Len;
  Less := data_Less;
  Swap := data_Swap;
  Push := data_Push;
  Pop := data_Pop;
}.

(** ** [Heap] *)

(** [metricRecorder] is the value of the recorder's gauge, [None] for a nil
    recorder. *)
Record Heap := mkHeap { hdata : data; metricRecorder : option Z }.

Definition metric_Inc (m : option Z) : option Z := (λ z, z + 1)%Z <$> m.
Definition metric_Dec (m : option Z) : option Z := (λ z, z - 1)%Z <$> m.

Inductive heap_error := KeyError | NotFound | Removed.

(** Each operation returns the heap and its error, [None] for [nil]. *)
Definition Add (h : Heap) (o : T) : Heap * option heap_error :=
  match keyFunc o with
  | None => (h, Some KeyError)
  | Some key =>
      let d := hdata h in
      match items d !! key with
      | Some it =>
          let d := mkData (<[key := mkItem o (index it)]> (items d)) (queue d) in
          (mkHeap (heap_Fix d (index it)) (metricRecorder h), None)
      | None =>
          (mkHeap (heap_Push d (mkKV key o)) (metric_Inc (metricRecorder h)), None)
      end
  end.

Definition AddIfNotPresent (h : Heap) (o : T) : Heap * option heap_error :=
  match keyFunc o with
  | None => (h, Some KeyError)
  | Some key =>
      match items (hdata h) !! key with
      | Some _ => (h, None)
      | None =>
          (mkHeap (heap_Push (hdata h) (mkKV key o)) (metric_Inc (metricRecorder h)), None)
      end
  end.

Definition Update (h : Heap) (o : T) : Heap * option heap_error := Add h o.

(** [Panic] where [heap.Remove] panics. *)
Definition Delete (h : Heap) (o : T) : outcome (Heap * option heap_error) :=
  match keyFunc o with
  | None => Ret (h, Some KeyError)
  | Some key =>
      match items (hdata h) !! key with
      | Some item =>
          match heap_Remove (hdata h) (index item) with
          | Some (_, d) => Ret (mkHeap d (metric_Dec (metricRecorder h)), None)
          | None => Panic
          end
      | None => Ret (h, Some NotFound)
      end
  end.

Definition Peek (h : Heap) : option T := data_Peek (hdata h).

(** [Panic] on an empty heap, where [heap.Pop] swaps index [-1]. *)
Definition Pop (h : Heap) : outcome (Heap * (T + heap_error)) :=
  match heap_Pop (hdata h) with
  | None => Panic
  | Some (Some o, d) => Ret (mkHeap d (metric_Dec (metricRecorder h)), inl o)
  | Some (None, d) => Ret (mkHeap d (metricRecorder h), inr Removed)
  end.

Definition GetByKey (h : Heap) (key : string) : option T := obj <$> items (hdata h) !! key.

(** [(nil, false, err)] when the key cannot be computed. *)
Definition Get (h : Heap) (o : T) : option T + heap_error :=
  match keyFunc o with
  | None => inr KeyError
  | Some key => inl (GetByKey h key)
  end.

(** The order of a Go map's iteration is not specified; [map_to_list] picks one. *)
Definition List (h : Heap) : list T := (λ kv, obj kv.2) <$> map_to_list (items (hdata h)).

Definition Len (h : Heap) : nat := length (queue (hdata h)).

Definition NewWithRecorder (recorder : option Z) : Heap := mkHeap (mkData ∅ []) recorder.

(** ** [data] keeps [heap.Interface]'s promises *)

(** "We depend on the property that items in the map are in the queue and
    vice versa." *)
Definition data_wf (h : data) : Prop :=
  NoDup (queue h) ∧
  (∀ i k, queue h !! i = Some k → ∃ it, items h !! k = Some it ∧ index it = i) ∧
  (∀ k, is_Some (items h !! k) → k ∈ queue h).

Definition contents (h : data) : gmap string T := obj <$> items h.

Definition data_view (h : data) : list (string * option T) :=
  (λ k, (k, contents h !! k)) <$> queue h.

Definition less_view (a b : string * option T) : bool :=
  match a.2, b.2 with
  | Some x, Some y => lessFunc x y
  | None, Some _ => true
  | _, None => false
  end.

#[export] Instance less_view_swo `{!StrictWeakOrder lessFunc} : StrictWeakOrder less_view.
Proof.
  split; unfold less_view.
  - intros [ka [a|]] [kb [b|]]; simpl; try done. apply swo_asym.
  - intros [ka [a|]] [kb [b|]] [kc [c|]]; simpl; try done. apply swo_negtrans.
Qed.

Lemma lookup_set_item_index m k i k' :
  set_index m k i !! k' =
    if decide (k = k') then (λ it, mkItem (obj it) i) <$> m !! k' else m !! k'.
Proof. unfold set_index. rewrite lookup_alter. by case_decide; subst. Qed.

Lemma contents_set_index m k i : obj <$> set_index m k i = (obj <$> m : gmap string T).
Proof.
  apply map_eq. intros k'. rewrite !lookup_fmap, lookup_set_item_index.
  case_decide; [|done]. by destruct (m !! k').
Qed.

Lemma contents_Swap h i j : contents (data_Swap h i j) = contents h.
Proof. unfold contents, data_Swap. simpl. repeat case_match; by rewrite ?contents_set_index. Qed.

Lemma data_wf_Swap h i j :
  data_wf h → i < length (queue h) → j < length (queue h) → data_wf (data_Swap h i j).
Proof.
  intros (Hnd & Hix & Hin) Hi Hj. unfold data_Swap. set (l := lswap (queue h) i j).
  assert (NoDup l) as Hl by (unfold l; by rewrite lswap_perm).
  destruct (lookup_lt_is_Some_2 l i) as [pi Hpi]; [unfold l; by rewrite length_lswap|].
  destruct (lookup_lt_is_Some_2 l j) as [pj Hpj]; [unfold l; by rewrite length_lswap|].
  rewrite Hpi, Hpj. split_and!; simpl; [done| |].
  - intros k p Hk. rewrite !lookup_set_item_index.
    assert (is_Some (items h !! p)) as [w Hw].
    { unfold l in Hk. rewrite lookup_lswap in Hk by done.
      destruct (Hix _ _ Hk) as (w & ? & _). by exists w. }
    rewrite Hw. destruct (decide (pj = p)) as [->|Hpjp].
    { assert (k = j) as -> by (by eapply NoDup_lookup). repeat case_decide; simpl; eauto. }
    destruct (decide (pi = p)) as [->|Hpip].
    { assert (k = i) as -> by (by eapply NoDup_lookup). simpl. eauto. }
    simpl. exists w. split; [done|]. assert (k ≠ i ∧ k ≠ j) as [Hki Hkj] by (split; congruence).
    unfold l in Hk. rewrite lookup_lswap in Hk by done.
    unfold swap_idx in Hk. rewrite !decide_False in Hk by done.
    destruct (Hix _ _ Hk) as (w' & ? & ?). by simplify_eq.
  - intros k. rewrite !lookup_set_item_index. unfold l. rewrite lswap_perm.
    intros Hk. apply Hin. repeat case_decide; rewrite ?fmap_is_Some in Hk; done.
Qed.

Lemma data_view_fst h : (data_view h).*1 = queue h.
Proof. unfold data_view. rewrite <- list_fmap_compose. by apply list_fmap_id. Qed.

Lemma elem_of_data_view h k o :
  data_wf h → (k, Some o) ∈ data_view h ↔ contents h !! k = Some o.
Proof.
  intros (_ & Hix & Hin). unfold data_view, contents. rewrite list_elem_of_fmap, lookup_fmap. split.
  - intros (k' & Hx & _). rewrite lookup_fmap in Hx. by simplify_eq.
  - intros Hk. exists k. rewrite lookup_fmap. split; [by rewrite Hk|]. apply Hin.
    destruct (items h !! k); [by eexists|done].
Qed.

Lemma data_view_Some h k x :
  data_wf h → (k, x) ∈ data_view h → ∃ o, x = Some o ∧ contents h !! k = Some o.
Proof.
  intros (_ & Hix & _). unfold data_view, contents. rewrite list_elem_of_fmap.
  intros (k' & ? & Hk'). simplify_eq. apply list_elem_of_lookup in Hk' as [i Hi].
  destruct (Hix _ _ Hi) as (it & Hit & _). exists (obj it). by rewrite lookup_fmap, Hit.
Qed.

#[export] Program Instance data_laws :
    HeapLaws (string * option T) data_heap less_view := {|
  hinv := data_wf;
  view := data_view;
  elt h kv := (kv_key kv, Some (kv_obj kv));
  can_push h kv := items h !! kv_key kv = None;
  result r a := r = a.2;
|}.
Next Obligation. intros h _. unfold data_view. by rewrite length_fmap. Qed.
Next Obligation.
  intros h i j a b (_ & Hix & _) Ha Hb. unfold data_view in *. rewrite list_lookup_fmap in Ha, Hb.
  simpl. unfold data_Less.
  destruct (queue h !! i) as [p|] eqn:Hp; [|done]. destruct (queue h !! j) as [q|] eqn:Hq; [|done].
  pose proof (lookup_lt_Some _ _ _ Hp). pose proof (lookup_lt_Some _ _ _ Hq).
  destruct (Nat.ltb_spec (length (queue h)) i); [lia|].
  destruct (Nat.ltb_spec (length (queue h)) j); [lia|].
  destruct (Hix _ _ Hp) as (v & Hv & _). destruct (Hix _ _ Hq) as (w & Hw & _).
  simpl in *. simplify_eq. unfold less_view, contents. simpl. rewrite !lookup_fmap.
  by rewrite Hv, Hw.
Qed.
Next Obligation.
  intros h i j Hh Hi Hj. split; [by apply data_wf_Swap|].
  change (data_view (data_Swap h i j) = lswap (data_view h) i j).
  unfold data_view. rewrite contents_Swap. apply fmap_lswap.
Qed.
Next Obligation.
  intros h [k o] (Hnd & Hix & Hin) Hk. simpl in Hk.
  assert (k ∉ queue h) as Hq.
  { intros [i Hi]%list_elem_of_lookup. destruct (Hix _ _ Hi) as (? & ? & _). congruence. }
  split; [split_and!|]; simpl.
  - apply NoDup_app. split; [done|]. split; [set_solver|apply NoDup_singleton].
  - intros i q Hi. apply lookup_app_Some in Hi as [Hi|[Hlen Hi]].
    + rewrite lookup_insert_ne; [by apply Hix|]. intros ->. by apply Hq, (list_elem_of_lookup_2 _ i).
    + apply list_lookup_singleton_Some in Hi as [Hi <-]. rewrite lookup_insert_eq.
      eexists. split; [done|]. simpl. lia.
  - intros k'. rewrite lookup_insert_is_Some', elem_of_app, list_elem_of_singleton. naive_solver.
  - unfold data_view. simpl. rewrite fmap_app. unfold contents. simpl. rewrite fmap_insert. f_equal.
    + apply list_fmap_ext. intros i q Hi. rewrite lookup_insert_ne; [done|].
      intros ->. by apply Hq, (list_elem_of_lookup_2 _ i).
    + simpl. by rewrite lookup_insert_eq.
Qed.
Next Obligation.
  intros h a Hh Ha. pose proof Hh as (Hnd & Hix & Hin).
  unfold data_view in *. rewrite fmap_last in Ha. simpl. unfold data_Pop.
  destruct (last (queue h)) as [k|] eqn:Hlast; simpl in Ha; [|done]. simplify_eq.
  apply last_Some in Hlast as [q Hq].
  assert (take (length (queue h) - 1) (queue h) = q) as Htake.
  { rewrite Hq, length_app. simpl. rewrite Nat.add_sub. apply take_app_length. }
  rewrite Htake, length_fmap, <- fmap_take, Htake.
  assert (k ∉ q) as Hkq by (rewrite Hq in Hnd; apply NoDup_app in Hnd; set_solver).
  destruct (Hix (length q) k) as (it & Hit & _); [by rewrite Hq, list_lookup_middle|].
  rewrite Hit. do 2 eexists. split_and!; [done| | |].
  - unfold contents. simpl. by rewrite lookup_fmap, Hit.
  - rewrite Hq in Hnd. apply NoDup_app in Hnd as [Hnd _]. split_and!; simpl; [done| |].
    + intros i k' Hi. rewrite lookup_delete_ne.
      * apply Hix. rewrite Hq. by apply lookup_app_l_Some.
      * intros ->. by apply Hkq, (list_elem_of_lookup_2 _ i).
    + intros k'. rewrite lookup_delete_is_Some. intros [Hne Hk']. apply Hin in Hk'.
      rewrite Hq in Hk'. set_solver.
  - apply list_fmap_ext. intros i k' Hi. f_equal. unfold contents. simpl.
    rewrite fmap_delete, lookup_delete_ne; [done|].
    intros ->. by apply Hkq, (list_elem_of_lookup_2 _ i).
Qed.

(** ** The operations on the contents *)

Lemma contents_perm h h' :
  data_wf h → data_wf h' → data_view h' ≡ₚ data_view h → contents h' = contents h.
Proof.
  intros Hh Hh' Hp. apply map_eq. intros k. apply option_eq. intros o.
  by rewrite <- !elem_of_data_view, Hp by done.
Qed.

Lemma contents_cons h h' k o :
  data_wf h → data_wf h' → data_view h' ≡ₚ (k, Some o) :: data_view h →
  contents h' = <[k := o]> (contents h) ∧ contents h !! k = None.
Proof.
  intros Hh Hh' Hp.
  assert (k ∉ queue h) as Hk.
  { destruct Hh' as [Hnd _]. rewrite <- data_view_fst, Hp in Hnd. simpl in Hnd.
    rewrite data_view_fst in Hnd. by apply NoDup_cons in Hnd as [? _]. }
  assert (contents h !! k = None) as Hnone.
  { apply eq_None_not_Some. intros [o' Ho']. apply Hk. destruct Hh as (_ & _ & Hin).
    apply Hin. unfold contents in Ho'. rewrite lookup_fmap in Ho'. by destruct (items h !! k). }
  split; [|done]. apply map_eq. intros k'. apply option_eq. intros o'.
  rewrite <- elem_of_data_view, Hp, elem_of_cons, elem_of_data_view by done.
  destruct (decide (k = k')) as [<-|].
  - rewrite lookup_insert_eq, Hnone. naive_solver.
  - rewrite lookup_insert_ne by done. naive_solver.
Qed.

Lemma length_queue_contents h : data_wf h → length (queue h) = size (contents h).
Proof.
  intros (Hnd & Hix & Hin). rewrite <- size_dom. unfold contents. rewrite dom_fmap_L.
  rewrite <- (size_list_to_set (C := gset string)) by done. f_equal. apply set_eq. intros k.
  rewrite elem_of_list_to_set, elem_of_dom. split; [|by apply Hin].
  intros [i Hi]%list_elem_of_lookup. destruct (Hix _ _ Hi) as (it & ? & _). by exists it.
Qed.

(** The invariant of a heap whose recorder was created at [r0]. *)
Record heap_wf (r0 : option Z) (h : Heap) : Prop := {
  hw_data : data_wf (hdata h);
  hw_ordered : heap_ordered less_view (data_view (hdata h));
  hw_keyed k o : contents (hdata h) !! k = Some o → keyFunc o = Some k;
  hw_metric : metricRecorder h = (λ r, r + Z.of_nat (Len h))%Z <$> r0;
}.

Lemma NewWithRecorder_wf r0 : heap_wf r0 (NewWithRecorder r0).
Proof.
  split.
  - split_and!; [apply NoDup_nil_2|done|]. intros k. simpl. by rewrite lookup_empty, is_Some_alt.
  - intros i Hi Hlt. simpl in Hlt. lia.
  - intros k o. unfold contents. simpl. by rewrite fmap_empty, lookup_empty.
  - unfold NewWithRecorder, Len. simpl. destruct r0; simpl; [|done]. f_equal. lia.
Qed.

Lemma Len_contents r0 h : heap_wf r0 h → Len h = size (contents (hdata h)).
Proof. intros [? _ _ _]. by apply length_queue_contents. Qed.

Lemma GetByKey_contents h k : GetByKey h k = contents (hdata h) !! k.
Proof. unfold GetByKey, contents. by rewrite lookup_fmap. Qed.

Section ordered.
  Context `{!StrictWeakOrder lessFunc} (r0 : option Z).

(** The common case of [Add] and [AddIfNotPresent]: a key the heap does not hold. *)
Lemma heap_Push_wf h k o :
  heap_wf r0 h → keyFunc o = Some k → items (hdata h) !! k = None →
  let h' := mkHeap (heap_Push (hdata h) (mkKV k o)) (metric_Inc (metricRecorder h)) in
  heap_wf r0 h' ∧ contents (hdata h') = <[k := o]> (contents (hdata h)).
Proof.
  intros [Hd Ho Hk Hm] Hkey Hnone h'.
  destruct (heap_Push_spec (HL := data_laws) (hdata h) (mkKV k o) Hd Ho Hnone) as (Hd' & Ho' & Hp).
  destruct (contents_cons (hdata h) (hdata h') k o Hd Hd' Hp) as [Hc Hn]. split; [|done].
  split; [done|done| |].
  - intros k' o'. rewrite Hc. intros [[<- <-]|[? ?]]%lookup_insert_Some; [done|by apply Hk].
  - pose proof (length_queue_contents (hdata h') Hd') as Hl.
    rewrite Hc, map_size_insert_None, <- length_queue_contents in Hl by done.
    unfold Len. rewrite Hl. simpl. rewrite Hm. unfold Len. destruct r0; simpl; [|done]. f_equal. lia.
Qed.

Lemma data_wf_update d k it o :
  data_wf d → items d !! k = Some it →
  data_wf (mkData (<[k := mkItem o (index it)]> (items d)) (queue d)).
Proof.
  intros (Hnd & Hix & Hin) Hit. split_and!; simpl; [done| |].
  - intros i k' Hi. destruct (Hix _ _ Hi) as (it' & Hit' & Hi').
    destruct (decide (k = k')) as [<-|]; [|rewrite lookup_insert_ne by done; eauto].
    rewrite lookup_insert_eq. simplify_eq. eauto.
  - intros k'. rewrite lookup_insert_is_Some'. intros [<-|?]; [|by apply Hin].
    apply Hin. by exists it.
Qed.

Lemma data_view_update d k it o :
  data_wf d → items d !! k = Some it →
  queue d !! index it = Some k ∧
  data_view (mkData (<[k := mkItem o (index it)]> (items d)) (queue d)) =
    <[index it := (k, Some o)]> (data_view d).
Proof.
  intros (Hnd & Hix & Hin) Hit.
  assert (queue d !! index it = Some k) as Hq.
  { assert (k ∈ queue d) as [i Hi]%list_elem_of_lookup by (apply Hin; by exists it).
    destruct (Hix _ _ Hi) as (it' & ? & ?). by simplify_eq. }
  split; [done|]. apply list_eq. intros i. unfold data_view, contents. simpl.
  rewrite fmap_insert. destruct (decide (i = index it)) as [->|Hne].
  - rewrite list_lookup_insert_eq by (rewrite length_fmap; by apply lookup_lt_Some in Hq).
    rewrite list_lookup_fmap, Hq. simpl. by rewrite lookup_insert_eq.
  - rewrite list_lookup_insert_ne by done. rewrite !list_lookup_fmap.
    destruct (queue d !! i) as [k'|] eqn:Hi; simpl; [|done].
    rewrite lookup_insert_ne; [done|]. intros ->. by apply Hne, (NoDup_lookup _ _ _ _ Hnd Hi Hq).
Qed.

Lemma heap_Fix_wf h k o it :
  heap_wf r0 h → keyFunc o = Some k → items (hdata h) !! k = Some it →
  let d := mkData (<[k := mkItem o (index it)]> (items (hdata h))) (queue (hdata h)) in
  let h' := mkHeap (heap_Fix d (index it)) (metricRecorder h) in
  heap_wf r0 h' ∧ contents (hdata h') = <[k := o]> (contents (hdata h)).
Proof.
  intros [Hd Ho Hk Hm] Hkey Hit d h'.
  pose proof (data_wf_update (hdata h) k it o Hd Hit) as Hd1.
  destruct (data_view_update (hdata h) k it o Hd Hit) as [Hq Hv].
  destruct (heap_Fix_spec (HL := data_laws) d (index it)) as (Hd' & Ho' & Hp); [done| | |].
  { simpl. by apply lookup_lt_Some in Hq. }
  { change (GoHeap.Len d) with (length (queue d)). change (view d) with (data_view d).
    unfold d at 1. rewrite Hv. cbn [queue d].
    replace (length (queue (hdata h))) with (length (data_view (hdata h)))
      by (unfold data_view; by rewrite length_fmap).
    apply heap_but_insert; [apply _|done|]. unfold data_view. rewrite length_fmap.
    by apply lookup_lt_Some in Hq. }
  assert (contents (hdata h') = <[k := o]> (contents (hdata h))) as Hc.
  { rewrite (contents_perm d) by done. unfold contents. simpl. by rewrite fmap_insert. }
  split; [|done]. split; [done|done| |].
  - intros k' o'. rewrite Hc. intros [[<- <-]|[? ?]]%lookup_insert_Some; [done|by apply Hk].
  - simpl. rewrite Hm. f_equal. unfold Len. simpl. apply Permutation_length in Hp.
    change (view ?d) with (data_view d) in Hp. unfold data_view in Hp.
    rewrite !length_fmap in Hp. by rewrite Hp.
Qed.

(** The common part of [Delete] and [Pop]. *)
Lemma heap_removed_wf h d' k o :
  heap_wf r0 h → data_wf d' → heap_ordered less_view (data_view d') →
  (k, Some o) :: data_view d' ≡ₚ data_view (hdata h) →
  let h' := mkHeap d' (metric_Dec (metricRecorder h)) in
  heap_wf r0 h' ∧ contents d' = delete k (contents (hdata h)) ∧
  contents (hdata h) !! k = Some o.
Proof.
  intros [Hd Ho Hk Hm] Hd' Ho' Hp h'.
  destruct (contents_cons d' (hdata h) k o Hd' Hd) as [Hc Hn]; [by symmetry|].
  assert (contents d' = delete k (contents (hdata h))) as Hc'
    by (by rewrite Hc, delete_insert_id).
  split_and!; [|done|by rewrite Hc, lookup_insert_eq]. split; [done|done| |].
  - simpl. intros k' o' Hk'. apply Hk. rewrite Hc' in Hk'. by apply lookup_delete_Some in Hk' as [_ ?].
  - simpl. rewrite Hm. unfold Len. simpl.
    apply Permutation_length in Hp. unfold data_view in Hp. simpl in Hp.
    rewrite !length_fmap in Hp. rewrite <- Hp. destruct r0; simpl; [|done]. f_equal. lia.
Qed.

Lemma Add_spec h o k :
  heap_wf r0 h → keyFunc o = Some k →
  ∃ h', Add h o = (h', None) ∧ heap_wf r0 h' ∧
        contents (hdata h') = <[k := o]> (contents (hdata h)).
Proof.
  intros Hh Hk. unfold Add. rewrite Hk.
  destruct (items (hdata h) !! k) as [it|] eqn:Hit; eexists; (split; [done|]).
  - by apply heap_Fix_wf.
  - by apply heap_Push_wf.
Qed.

Lemma AddIfNotPresent_spec h o k :
  heap_wf r0 h → keyFunc o = Some k →
  ∃ h', AddIfNotPresent h o = (h', None) ∧ heap_wf r0 h' ∧
        contents (hdata h') =
          match contents (hdata h) !! k with
          | Some _ => contents (hdata h)
          | None => <[k := o]> (contents (hdata h))
          end.
Proof.
  intros Hh Hk. unfold AddIfNotPresent. rewrite Hk. unfold contents at 2. rewrite lookup_fmap.
  destruct (items (hdata h) !! k) as [it|] eqn:Hit; eexists; (split; [done|]); simpl; [done|].
  by apply heap_Push_wf.
Qed.

Lemma Delete_spec h o k :
  heap_wf r0 h → keyFunc o = Some k →
  ∃ h' e, Delete h o = Ret (h', e) ∧ heap_wf r0 h' ∧
          contents (hdata h') = delete k (contents (hdata h)) ∧
          e = match contents (hdata h) !! k with Some _ => None | None => Some NotFound end.
Proof.
  intros Hh Hk. unfold Delete. rewrite Hk. unfold contents at 2 3. rewrite lookup_fmap.
  destruct (items (hdata h) !! k) as [it|] eqn:Hit; simpl.
  - destruct (data_view_update (hdata h) k it (obj it) (hw_data _ _ Hh) Hit) as [Hq _].
    destruct (heap_Remove_spec (HL := data_laws) (hdata h) (index it) (k, Some (obj it)))
      as (r & d' & -> & Hr & Hd' & Ho' & Hp); [apply Hh|apply Hh| |].
    { simpl. unfold data_view, contents. rewrite list_lookup_fmap, Hq. simpl.
      by rewrite lookup_fmap, Hit. }
    destruct (heap_removed_wf h d' k (obj it) Hh Hd' Ho' Hp) as (Hh' & Hc & _). eauto 10.
  - exists h, (Some NotFound). split_and!; [done|done| |done].
    rewrite delete_id; [done|]. by rewrite lookup_fmap, Hit.
Qed.

(** What [Peek] returns is least, and is what [Pop] removes. *)
Lemma Peek_spec h :
  heap_wf r0 h →
  match Peek h with
  | None => contents (hdata h) = ∅
  | Some o =>
      ∃ k, contents (hdata h) !! k = Some o ∧ data_view (hdata h) !! 0 = Some (k, Some o) ∧
           ∀ k' o', contents (hdata h) !! k' = Some o' → lessFunc o' o = false
  end.
Proof.
  intros [Hd Ho _ _]. unfold Peek, data_Peek.
  destruct (queue (hdata h) !! 0) as [k|] eqn:Hq.
  - assert (data_view (hdata h) !! 0 = Some (k, contents (hdata h) !! k)) as Hv.
    { unfold data_view. by rewrite list_lookup_fmap, Hq. }
    destruct (data_view_Some (hdata h) k (contents (hdata h) !! k) Hd) as (o & Ho1 & Ho2);
      [by eapply list_elem_of_lookup_2|]. rewrite Ho2 in Hv.
    replace (obj <$> items (hdata h) !! k) with (Some o)
      by (rewrite <- Ho2; unfold contents; by rewrite lookup_fmap).
    exists k. split_and!; [done|done|]. intros k' o' Hk'.
    apply elem_of_data_view in Hk'; [|done]. apply list_elem_of_lookup in Hk' as [i Hi].
    by apply (heap_root_min less_view (data_view (hdata h)) _ i _ Ho Hv) in Hi.
  - apply map_size_empty_inv. rewrite <- length_queue_contents by done.
    by destruct (queue (hdata h)).
Qed.

Lemma Pop_spec h o :
  heap_wf r0 h → Peek h = Some o →
  ∃ h' k, Pop h = Ret (h', inl o) ∧ heap_wf r0 h' ∧ keyFunc o = Some k ∧
          contents (hdata h') = delete k (contents (hdata h)) ∧
          contents (hdata h) !! k = Some o ∧
          ∀ k' o', contents (hdata h) !! k' = Some o' → lessFunc o' o = false.
Proof.
  intros Hh HP. pose proof (Peek_spec h Hh) as Hpk. rewrite HP in Hpk.
  destruct Hpk as (k & Hk & Hv & Hmin).
  destruct (heap_Pop_spec (HL := data_laws) (hdata h) _ (hw_data _ _ Hh) (hw_ordered _ _ Hh) Hv)
    as (r & d' & HPop & -> & Hd' & Ho' & Hp).
  destruct (heap_removed_wf h d' k o Hh Hd' Ho' Hp) as (Hh' & Hc & _).
  unfold Pop. rewrite HPop. simpl. do 2 eexists. split_and!; eauto. by apply (hw_keyed _ _ Hh).
Qed.
End ordered.

(** ** Refinement of a map with least-first removal *)

Inductive heap_op :=
  | OpAdd (o : T) | OpAddIfNotPresent (o : T) | OpUpdate (o : T) | OpDelete (o : T) | OpPop.

Inductive heap_res := ResErr (e : option heap_error) | ResPop (r : T + heap_error).

Definition run_op (h : Heap) (op : heap_op) : outcome (Heap * heap_res) :=
  match op with
  | OpAdd o => let '(h', e) := Add h o in Ret (h', ResErr e)
  | OpAddIfNotPresent o => let '(h', e) := AddIfNotPresent h o in Ret (h', ResErr e)
  | OpUpdate o => let '(h', e) := Update h o in Ret (h', ResErr e)
  | OpDelete o =>
      match Delete h o with Ret (h', e) => Ret (h', ResErr e) | Panic => Panic end
  | OpPop => match Pop h with Ret (h', r) => Ret (h', ResPop r) | Panic => Panic end
  end.

Definition op_obj (op : heap_op) : option T :=
  match op with
  | OpAdd o | OpAddIfNotPresent o | OpUpdate o | OpDelete o => Some o
  | OpPop => None
  end.

Inductive spec_step : gmap string T → heap_op → gmap string T → heap_res → Prop :=
  | spec_key_error m op o :
      op_obj op = Some o → keyFunc o = None → spec_step m op m (ResErr (Some KeyError))
  | spec_Add m o k :
      keyFunc o = Some k → spec_step m (OpAdd o) (<[k := o]> m) (ResErr None)
  | spec_Update m o k :
      keyFunc o = Some k → spec_step m (OpUpdate o) (<[k := o]> m) (ResErr None)
  | spec_AddIfNotPresent_new m o k :
      keyFunc o = Some k → m !! k = None →
      spec_step m (OpAddIfNotPresent o) (<[k := o]> m) (ResErr None)
  | spec_AddIfNotPresent_old m o k :
      keyFunc o = Some k → is_Some (m !! k) →
      spec_step m (OpAddIfNotPresent o) m (ResErr None)
  | spec_Delete m o k :
      keyFunc o = Some k → is_Some (m !! k) →
      spec_step m (OpDelete o) (delete k m) (ResErr None)
  | spec_Delete_missing m o k :
      keyFunc o = Some k → m !! k = None →
      spec_step m (OpDelete o) m (ResErr (Some NotFound))
  | spec_Pop m o k :
      m !! k = Some o → (∀ k' o', m !! k' = Some o' → lessFunc o' o = false) →
      spec_step m OpPop (delete k m) (ResPop (inl o)).

Inductive heap_reachable (r0 : option Z) : Heap → Prop :=
  | reach_New : heap_reachable r0 (NewWithRecorder r0)
  | reach_op h op h' r :
      heap_reachable r0 h → run_op h op = Ret (h', r) → heap_reachable r0 h'.

Lemma run_op_sim `{!StrictWeakOrder lessFunc} r0 h op :
  heap_wf r0 h → (op = OpPop → Len h ≠ 0) →
  ∃ h' r, run_op h op = Ret (h', r) ∧ heap_wf r0 h' ∧
          spec_step (contents (hdata h)) op (contents (hdata h')) r.
Proof.
  intros Hh Hne. destruct (op_obj op) as [o|] eqn:Hop.
  - destruct (keyFunc o) as [k|] eqn:Hk.
    2: { exists h, (ResErr (Some KeyError)).
         split_and!; [|done|by eapply spec_key_error].
         destruct op; simplify_eq/=; unfold Update, Add, AddIfNotPresent, Delete; by rewrite Hk. }
    destruct op as [?|?|?|?|]; simplify_eq/=.
    + destruct (Add_spec r0 h o k Hh Hk) as (h' & -> & ? & Hc).
      exists h', (ResErr None). rewrite Hc. eauto using spec_step.
    + destruct (AddIfNotPresent_spec r0 h o k Hh Hk) as (h' & -> & ? & Hc).
      exists h', (ResErr None). split_and!; [done|done|]. rewrite Hc.
      destruct (contents (hdata h) !! k) eqn:?; eauto using spec_step.
    + unfold Update. destruct (Add_spec r0 h o k Hh Hk) as (h' & -> & ? & Hc).
      exists h', (ResErr None). rewrite Hc. eauto using spec_step.
    + destruct (Delete_spec r0 h o k Hh Hk) as (h' & e & -> & ? & Hc & ->).
      exists h'. eexists. split_and!; [done|done|]. rewrite Hc.
      destruct (contents (hdata h) !! k) eqn:?; [eauto using spec_step|].
      rewrite delete_id by done. eauto using spec_step.
  - destruct op; simplify_eq/=. pose proof (Peek_spec r0 h Hh) as HP.
    destruct (Peek h) as [o|] eqn:Hpk.
    + destruct (Pop_spec r0 h o Hh Hpk) as (h' & k & -> & ? & ? & Hc & ? & ?).
      exists h', (ResPop (inl o)). rewrite Hc. eauto using spec_step.
    + destruct (Hne eq_refl). rewrite (Len_contents r0) by done. by rewrite HP.
Qed.

Lemma heap_reachable_wf `{!StrictWeakOrder lessFunc} r0 h : heap_reachable r0 h → heap_wf r0 h.
Proof.
  induction 1 as [|h op h' r _ IH Hrun]; [apply NewWithRecorder_wf|].
  assert (op = OpPop → Len h ≠ 0) as Hop.
  { intros -> H0. simpl in Hrun. unfold Pop in Hrun. by rewrite (heap_Pop_empty (HI := data_heap)) in Hrun. }
  destruct (run_op_sim r0 h op IH Hop) as (h1 & r1 & Hr & ? & _). rewrite Hr in Hrun. by simplify_eq.
Qed.

(** C35. The scheduler's heap refines a finite map: in every state reachable
    from [NewWithRecorder], its length is the size of the map and the metric
    the number of items added to the recorder's first value; every operation
    but [Pop] of an empty heap returns, and takes the map to what the
    specification says with the result it says, errors included: [Pop] removes
    an object no other object is less than; [Peek] shows the object [Pop]
    would remove, and [Pop] of an empty heap panics. *)
Theorem sched_heap_refines `{!StrictWeakOrder lessFunc} r0 h :
  heap_reachable r0 h →
  Len h = size (contents (hdata h)) ∧
  metricRecorder h = (λ r, r + Z.of_nat (Len h))%Z <$> r0 ∧
  (∀ op, (op = OpPop → Len h ≠ 0) →
     ∃ h' r, run_op h op = Ret (h', r) ∧
             spec_step (contents (hdata h)) op (contents (hdata h')) r) ∧
  (∀ o, Peek h = Some o → ∃ h', Pop h = Ret (h', inl o)) ∧
  (Len h = 0 → Peek h = None ∧ Pop h = Panic).
Proof.
  intros Hh%heap_reachable_wf. split_and!.
  - by eapply Len_contents.
  - apply Hh.
  - intros op Hop. destruct (run_op_sim r0 h op Hh Hop) as (h' & r & ? & _ & ?). eauto.
  - intros o Ho. destruct (Pop_spec r0 h o Hh Ho) as (h' & k & ? & _). eauto.
  - intros H0. unfold Pop. rewrite (heap_Pop_empty (HI := data_heap)) by done. split; [|done].
    unfold Peek, data_Peek. unfold Len in H0. by destruct (queue (hdata h)).
Qed.
End schedheap.

Arguments heapItem : clear implicits.
Arguments data : clear implicits.
Arguments Heap : clear implicits.

#[export] Instance ltb_swo : StrictWeakOrder Nat.ltb.
Proof.
  split; intros *; rewrite ?Nat.ltb_lt, ?Nat.ltb_ge; lia.
Qed.

Lemma sched_heap_refines_witness :
  ∃ h : Heap nat, heap_reachable (λ n, Some (pretty n)) Nat.ltb (Some 0%Z) h ∧
    Peek h = Some 1 ∧ metricRecorder h = Some 2%Z ∧
    ∃ h', Pop Nat.ltb h = Ret (h', inl 1).
Proof.
  pose (key := λ n : nat, Some (pretty n)).
  pose (h1 := (Add key Nat.ltb (NewWithRecorder (Some 0%Z)) 3).1).
  pose (h2 := (Add key Nat.ltb h1 1).1).
  assert (heap_reachable key Nat.ltb (Some 0%Z) h2) as Hr.
  { eapply (reach_op _ _ _ h1 (OpAdd 1)); [|reflexivity].
    eapply (reach_op _ _ _ _ (OpAdd 3)); [apply reach_New|reflexivity]. }
  exists h2. split; [done|]. split; [vm_compute; reflexivity|]. split; [vm_compute; reflexivity|].
  destruct (sched_heap_refines key Nat.ltb (Some 0%Z) h2 Hr) as (_ & _ & _ & HP & _).
  apply HP. vm_compute. reflexivity.
Defined.
