(* ===== verification/InfDec.v ===== *)
(** * Arbitrary-precision decimals: [vendor/gopkg.in/inf.v0]

    The part of the vendored package that [resource.Quantity] uses: a [Dec] is
    a [big.Int] with an [int32] scale and stands for [unscaled * 10^-scale].
    [dec_val] is that rational number; addition, subtraction, comparison and
    rounding are shown to be those of the rationals for scales that do not
    overflow. *)

From Stdlib Require Export QArith Qround Qpower Qabs.
From S2P Require Import Prelude Strconv.
#[local] Close Scope Q_scope.
#[local] Open Scope Z_scope.

(** ** Definitions *)

Record Dec := mkDec { unscaled : Z; dscale : Z }.

(** [x^10] for the scales the package passes, which are not negative. *)
Definition exp10 (x : Z) : Z := 10 ^ x.

Definition rescale (x : Dec) (newScale : Z) : Dec :=
  let shift := int32 (newScale - dscale x) in
  if shift <? 0 then mkDec (Z.quot (unscaled x) (exp10 (int32 (- shift)))) newScale
  else if 0 <? shift then mkDec (unscaled x * exp10 shift) newScale
  else x.

Definition upscale (a b : Dec) : Dec * Dec :=
  if dscale a =? dscale b then (a, b)
  else if dscale b <? dscale a then (a, rescale b (dscale a))
  else (rescale a (dscale b), b).

(** The result of [big.Int.Cmp]. *)
Definition cmp_int (c : comparison) : Z :=
  match c with Lt => -1 | Eq => 0 | Gt => 1 end.

Definition Dec_Sign (x : Dec) : Z := Z.sgn (unscaled x).

Definition Dec_Neg (x : Dec) : Dec := mkDec (- unscaled x) (dscale x).

Definition Dec_Cmp (x y : Dec) : Z :=
  let '(xx, yy) := upscale x y in cmp_int (unscaled xx ?= unscaled yy).

Definition Dec_Add (x y : Dec) : Dec :=
  let '(xx, yy) := upscale x y in mkDec (unscaled xx + unscaled yy) (dscale xx).

Definition Dec_Sub (x y : Dec) : Dec :=
  let '(xx, yy) := upscale x y in mkDec (unscaled xx - unscaled yy) (dscale xx).

(** The quotient at scale [s], truncated, with the numerator and the
    denominator of its remainder. *)
Definition quoRem (x y : Dec) (s : Z) : Dec * Z * Z :=
  let shift := int32 (s - int32 (dscale x - dscale y)) in
  let '(ix, iy) :=
    if 0 <? shift then (unscaled x * exp10 shift, unscaled y)
    else if shift <? 0 then (unscaled x, unscaled y * exp10 (int32 (- shift)))
    else (unscaled x, unscaled y) in
  (mkDec (Z.quot ix iy) s, Z.rem ix iy, iy).

(** The rounder [RoundUp]: away from zero. *)
Definition RoundUp (q : Dec) (rA rB : Z) : Dec :=
  if Z.sgn rA =? 0 then q else mkDec (unscaled q + Z.sgn rA * Z.sgn rB) (dscale q).

(** [Round(x, s, RoundUp)] *)
Definition Dec_RoundUp (x : Dec) (s : Z) : Dec :=
  let '(zz, rA, rB) := quoRem x (mkDec 1 0) s in RoundUp zz rA rB.

(** [Unscaled()] answers [(0, true)] exactly for zero. *)
Definition Dec_Unscaled_nonzero (x : Dec) : bool := negb (unscaled x =? 0).

(** *** Scanning *)

(** The loop of [scan]: the characters collected, the index of the decimal
    point and whether a digit was read; it stops at a character it does not
    take, which it gives back. *)
Fixpoint scan_loop (r : list ascii) (acc : list ascii) (dp : option nat) (dg : bool)
    : list ascii * option nat * bool * list ascii :=
  match r with
  | [] => (acc, dp, dg, [])
  | ch :: r' =>
      if is_sign ch then
        if (0 <? length acc)%nat || bool_decide (is_Some dp) then (acc, dp, dg, r)
        else scan_loop r' (acc ++ [ch]) dp dg
      else if (ch =? ".")%char then
        match dp with
        | Some _ => (acc, dp, dg, r)
        | None => scan_loop r' acc (Some (length acc)) dg
        end
      else if is_digit ch then scan_loop r' (acc ++ [ch]) dp true
      else (acc, dp, dg, r)
  end.

Definition Dec_SetString (s : list ascii) : option Dec :=
  let '(unscaled, dp, dg, rest) := scan_loop s [] None false in
  if negb dg then None
  else
    let sc := match dp with Some p => Z.of_nat (length unscaled - p) | None => 0 end in
    match bigint_SetString unscaled with
    | None => None
    | Some u => match rest with [] => Some (mkDec u sc) | _ => None end
    end.

(** ** The rational number of a decimal *)

Definition sval (v s : Z) : Q := (inject_Z v * (10 # 1) ^ s)%Q.

Definition dec_val (x : Dec) : Q := sval (unscaled x) (- dscale x).

(** Scales that can be added and subtracted in 32 bits. *)
Definition scale_ok (s : Z) : Prop := - 2 ^ 30 < s < 2 ^ 30.

Definition dec_ok (x : Dec) : Prop := scale_ok (dscale x).

Lemma ten_neq_0 : ~ ((10 # 1) == 0)%Q.
Proof. done. Qed.

Lemma sval_shift v s n : 0 ≤ n → (sval (v * 10 ^ n) s == sval v (s + n))%Q.
Proof.
  intros Hn. unfold sval. rewrite Qpower_plus by apply ten_neq_0.
  rewrite inject_Z_mult, Zpower_Qpower by done. change (inject_Z 10) with (10 # 1)%Q. ring.
Qed.

Lemma sval_rebase v s m : m ≤ s → (sval v s == sval (v * 10 ^ (s - m)) m)%Q.
Proof. intros Hm. rewrite sval_shift by lia. by replace (m + (s - m)) with s by lia. Qed.

Lemma sval_add v w s : (sval (v + w) s == sval v s + sval w s)%Q.
Proof. unfold sval. rewrite inject_Z_plus. ring. Qed.

Lemma sval_sub v w s : (sval (v - w) s == sval v s - sval w s)%Q.
Proof. unfold sval, Z.sub. rewrite inject_Z_plus, inject_Z_opp. ring. Qed.

Lemma sval_opp v s : (sval (- v) s == - sval v s)%Q.
Proof. unfold sval. rewrite inject_Z_opp. ring. Qed.

Lemma sval_0 s : (sval 0 s == 0)%Q.
Proof. unfold sval. ring. Qed.

Lemma sval_at_0 v : (sval v 0 == inject_Z v)%Q.
Proof. unfold sval. simpl. ring. Qed.

Lemma pow10_pos s : (0 < (10 # 1) ^ s)%Q.
Proof. apply Qpower_0_lt. done. Qed.

Lemma sval_lt v w s : v < w → (sval v s < sval w s)%Q.
Proof.
  intros H. unfold sval. apply Qmult_lt_r; [apply pow10_pos|]. by rewrite <- Zlt_Qlt.
Qed.

Lemma sval_compare v w s : (sval v s ?= sval w s)%Q = (v ?= w).
Proof.
  destruct (Z.compare_spec v w) as [->|H|H].
  - by apply Qeq_alt.
  - by apply Qlt_alt, sval_lt.
  - by apply Qgt_alt, sval_lt.
Qed.

(** ** The operations compute on the rational numbers *)

Lemma rescale_val x s :
  dec_ok x → scale_ok s → dscale x ≤ s →
  (dec_val (rescale x s) == dec_val x)%Q ∧ dscale (rescale x s) = s.
Proof.
  unfold dec_ok, scale_ok, rescale. intros Hx Hs Hle. rewrite int32_id by lia.
  destruct (Z.ltb_spec (s - dscale x) 0) as [?|_]; [lia|].
  destruct (Z.ltb_spec 0 (s - dscale x)) as [Hlt|?]; simpl; [|split; [done|lia]].
  split; [|done]. unfold dec_val, exp10. simpl. rewrite sval_shift by lia.
  by replace (- s + (s - dscale x)) with (- dscale x) by lia.
Qed.

Lemma upscale_val a b :
  dec_ok a → dec_ok b →
  let '(aa, bb) := upscale a b in
  (dec_val aa == dec_val a)%Q ∧ (dec_val bb == dec_val b)%Q ∧
  dscale aa = Z.max (dscale a) (dscale b) ∧ dscale bb = Z.max (dscale a) (dscale b).
Proof.
  intros Ha Hb. unfold upscale.
  destruct (Z.eqb_spec (dscale a) (dscale b)); [repeat split; simpl; lia|].
  destruct (Z.ltb_spec (dscale b) (dscale a)).
  - destruct (rescale_val b (dscale a) Hb Ha) as [? ?]; [lia|]. repeat split; [done|lia|lia].
  - destruct (rescale_val a (dscale b) Ha Hb) as [? ?]; [lia|]. repeat split; [done|lia|lia].
Qed.

Lemma Dec_Cmp_val x y :
  dec_ok x → dec_ok y → Dec_Cmp x y = cmp_int (dec_val x ?= dec_val y)%Q.
Proof.
  intros Hx Hy. unfold Dec_Cmp. pose proof (upscale_val x y Hx Hy) as H.
  destruct (upscale x y) as [xx yy]. destruct H as (<- & <- & Hsx & Hsy).
  unfold dec_val. by rewrite Hsx, Hsy, sval_compare.
Qed.

Lemma Dec_Add_val x y :
  dec_ok x → dec_ok y →
  (dec_val (Dec_Add x y) == dec_val x + dec_val y)%Q ∧ dec_ok (Dec_Add x y).
Proof.
  intros Hx Hy. unfold Dec_Add. pose proof (upscale_val x y Hx Hy) as H.
  destruct (upscale x y) as [xx yy]. destruct H as (<- & <- & Hsx & Hsy). split.
  - unfold dec_val. cbn [unscaled dscale]. by rewrite sval_add, Hsx, Hsy.
  - unfold dec_ok, scale_ok in *. simpl. lia.
Qed.

Lemma Dec_Sub_val x y :
  dec_ok x → dec_ok y →
  (dec_val (Dec_Sub x y) == dec_val x - dec_val y)%Q ∧ dec_ok (Dec_Sub x y).
Proof.
  intros Hx Hy. unfold Dec_Sub. pose proof (upscale_val x y Hx Hy) as H.
  destruct (upscale x y) as [xx yy]. destruct H as (<- & <- & Hsx & Hsy). split.
  - unfold dec_val. cbn [unscaled dscale]. by rewrite sval_sub, Hsx, Hsy.
  - unfold dec_ok, scale_ok in *. simpl. lia.
Qed.

Lemma Dec_Neg_val x : (dec_val (Dec_Neg x) == - dec_val x)%Q.
Proof. unfold dec_val, Dec_Neg. simpl. apply sval_opp. Qed.

(** ** Rounding away from zero *)

(** [r] is [x] rounded to an integer away from zero. *)
Definition away (x : Q) : Z :=
  if Qlt_le_dec x 0 then Qfloor x else Qceiling x.

#[export] Instance away_proper : Proper (Qeq ==> eq) away.
Proof.
  intros x y Hxy. unfold away.
  destruct (Qlt_le_dec x 0) as [H1|H1], (Qlt_le_dec y 0) as [H2|H2]; rewrite Hxy in H1.
  - by rewrite Hxy.
  - exfalso. by apply (Qlt_not_le _ _ H1).
  - exfalso. by apply (Qlt_not_le _ _ H2).
  - by rewrite Hxy.
Qed.

Lemma quot_rem_away n d :
  0 < d →
  (n < 0 → n / d = Z.quot n d + Z.sgn (Z.rem n d)) ∧
  (0 ≤ n → - (- n / d) = Z.quot n d + Z.sgn (Z.rem n d)).
Proof.
  intros Hd. pose proof (Z.quot_rem' n d) as He. set (q := Z.quot n d) in *. split; intros Hn.
  - pose proof (Z.rem_bound_pos (- n) d ltac:(lia) Hd) as Hr. rewrite Z.rem_opp_l in Hr by lia.
    set (r := Z.rem n d) in *. symmetry.
    destruct (Z.eq_dec r 0) as [H0|H0].
    + apply (Z.div_unique _ _ _ 0); [lia|]. rewrite He, H0. simpl. lia.
    + rewrite Z.sgn_neg by lia. apply (Z.div_unique _ _ _ (r + d)); lia.
  - pose proof (Z.rem_bound_pos n d Hn Hd) as Hr. set (r := Z.rem n d) in *.
    destruct (Z.eq_dec r 0) as [H0|H0].
    + rewrite H0. simpl. rewrite <- (Z.div_unique (- n) d (- q) 0); lia.
    + rewrite Z.sgn_pos by lia. rewrite <- (Z.div_unique (- n) d (- q - 1) (d - r)); lia.
Qed.

Lemma away_frac n d : 0 < d → away (n # Z.to_pos d) = Z.quot n d + Z.sgn (Z.rem n d).
Proof.
  intros Hd. destruct (quot_rem_away n d Hd) as [Hneg Hpos]. unfold away.
  destruct (Qlt_le_dec (n # Z.to_pos d) 0) as [H|H];
    unfold Qlt, Qle in H; simpl in H; rewrite Z.mul_1_r in H.
  - rewrite <- Hneg by done. unfold Qfloor. by rewrite Z2Pos.id.
  - rewrite <- Hpos by done. unfold Qceiling. simpl. by rewrite Z2Pos.id.
Qed.

Lemma sval_neg v n : 0 ≤ n → (sval v (- n) == v # Z.to_pos (10 ^ n))%Q.
Proof.
  intros Hn. assert (0 < 10 ^ n) by (apply Z.pow_pos_nonneg; lia).
  unfold sval. rewrite Qpower_opp, <- (Zpower_Qpower 10 n Hn).
  rewrite <- (Z2Pos.id (10 ^ n)) at 1 by done. rewrite Qmake_Qdiv. done.
Qed.

Lemma away_sval_neg v n :
  0 ≤ n → away (sval v (- n)) = Z.quot v (10 ^ n) + Z.sgn (Z.rem v (10 ^ n)).
Proof.
  intros Hn. rewrite sval_neg by done. apply away_frac. apply Z.pow_pos_nonneg; lia.
Qed.

Lemma away_sval_nonneg v n : 0 ≤ n → away (sval v n) = v * 10 ^ n.
Proof.
  intros Hn. rewrite <- (Z.add_0_l n), <- sval_shift by done.
  rewrite <- (Z.opp_involutive 0), away_sval_neg by done.
  replace (10 ^ (- 0)) with 1 by done. rewrite Z.quot_1_r, Z.rem_1_r. simpl. by rewrite Z.add_0_r.
Qed.

(** [RoundUp] rounds away from zero to the scale asked for. *)
Lemma Dec_RoundUp_val x s :
  dec_ok x → scale_ok s →
  Dec_RoundUp x s = mkDec (away (sval (unscaled x) (s - dscale x))) s.
Proof.
  intros Hx Hs. unfold dec_ok, scale_ok in *. unfold Dec_RoundUp, quoRem, RoundUp.
  cbn [unscaled dscale]. rewrite (int32_id (dscale x - 0)), Z.sub_0_r by lia.
  rewrite (int32_id (s - dscale x)) by lia. unfold exp10.
  destruct (Z.ltb_spec 0 (s - dscale x)).
  { rewrite Z.quot_1_r, Z.rem_1_r. simpl. by rewrite away_sval_nonneg by lia. }
  destruct (Z.ltb_spec (s - dscale x) 0).
  - rewrite int32_id by lia. rewrite Z.mul_1_l.
    set (n := - (s - dscale x)). replace (s - dscale x) with (- n) by lia.
    rewrite away_sval_neg by lia.
    assert (0 < 10 ^ n) by (apply Z.pow_pos_nonneg; lia).
    destruct (Z.eqb_spec (Z.sgn (Z.rem (unscaled x) (10 ^ n))) 0) as [->|_];
      cbn [unscaled dscale]; f_equal; [lia|]. rewrite (Z.sgn_pos (10 ^ n)) by done. lia.
  - rewrite Z.quot_1_r, Z.rem_1_r. simpl.
    replace (s - dscale x) with 0 by lia. rewrite away_sval_nonneg by lia. f_equal. lia.
Qed.

Lemma away_exact x n : (x == inject_Z n)%Q → away x = n.
Proof.
  intros ->. unfold away. destruct (Qlt_le_dec _ _); [apply Qfloor_Z|apply Qceiling_Z].
Qed.
