(* ===== verification/Quantity.v ===== *)
(** * Resource quantities: [apimachinery/pkg/api/resource]

    [math.go], [amount.go], [scale_int.go] and the numeric part of
    [quantity.go].  A [Quantity] holds an [int64Amount], or a [Dec] once its
    value left 64 bits.  [q_val] is the rational number it stands for; the
    theorems relate the arithmetic, which switches between the two
    representations, to the rationals. *)

From S2P Require Import Prelude Strconv InfDec.
#[local] Close Scope Q_scope.
#[local] Open Scope Z_scope.

(** ** [math.go] *)

Definition maxInt64Factors : Z := 18.
Definition mostNegative : Z := min_int64.
Definition mostPositive : Z := max_int64.

(** The functions return a value and whether it is valid. *)
Definition int64Add (a b : Z) : Z * bool :=
  let c := (a +! b)%go in
  if (0 <? a) && (0 <? b) then if c <? 0 then (0, false) else (c, true)
  else if (a <? 0) && (b <? 0) then
    if 0 <? c then (0, false)
    else if (a =? mostNegative) && (b =? mostNegative) then (0, false)
    else (c, true)
  else (c, true).

Definition int64Multiply (a b : Z) : Z * bool :=
  if (a =? 0) || (b =? 0) || (a =? 1) || (b =? 1) then ((a *! b)%go, true)
  else if (a =? mostNegative) || (b =? mostNegative) then (0, false)
  else let c := (a *! b)%go in (c, Z.quot c b =? a).

Definition int64MultiplyScale (a b : Z) : Z * bool :=
  if (a =? 0) || (a =? 1) then ((a *! b)%go, true)
  else if (a =? mostNegative) && negb (b =? 1) then (0, false)
  else let c := (a *! b)%go in (c, Z.quot c b =? a).

Definition int64MultiplyScale10 (a : Z) : Z * bool :=
  if (a =? 0) || (a =? 1) then ((a *! 10)%go, true)
  else if a =? mostNegative then (0, false)
  else let c := (a *! 10)%go in (c, Z.quot c 10 =? a).

Definition int64MultiplyScale100 (a : Z) : Z * bool :=
  if (a =? 0) || (a =? 1) then ((a *! 100)%go, true)
  else if a =? mostNegative then (0, false)
  else let c := (a *! 100)%go in (c, Z.quot c 100 =? a).

Definition int64MultiplyScale1000 (a : Z) : Z * bool :=
  if (a =? 0) || (a =? 1) then ((a *! 1000)%go, true)
  else if a =? mostNegative then (0, false)
  else let c := (a *! 1000)%go in (c, Z.quot c 1000 =? a).

(** The loop of the default case, [n] iterations left. *)
Fixpoint positiveScale_loop (n : nat) (value : Z) : Z * bool :=
  match n with
  | O => (value, true)
  | S n =>
      let '(value, ok) := int64MultiplyScale value 10 in
      if ok then positiveScale_loop n value else (0, false)
  end.

Definition positiveScaleInt64 (base scale : Z) : Z * bool :=
  if scale =? 0 then (base, true)
  else if scale =? 1 then int64MultiplyScale10 base
  else if scale =? 2 then int64MultiplyScale100 base
  else if scale =? 3 then int64MultiplyScale1000 base
  else if scale =? 6 then int64MultiplyScale base 1000000
  else if scale =? 9 then int64MultiplyScale base 1000000000
  else positiveScale_loop (Z.to_nat scale) base.

Fixpoint negativeScale_loop (n : nat) (base value : Z) (fraction : bool) : Z * bool :=
  match n with
  | O =>
      if fraction then ((if 0 <? base then value +! 1 else value -! 1)%go, false)
      else (value, true)
  | S n =>
      let fraction := fraction || negb (Z.rem value 10 =? 0) in
      let value := Z.quot value 10 in
      if value =? 0 then
        if fraction then (if 0 <? base then 1 else -1, false) else (0, true)
      else negativeScale_loop n base value fraction
  end.

Definition negativeScaleInt64 (base scale : Z) : Z * bool :=
  if scale =? 0 then (base, true)
  else negativeScale_loop (Z.to_nat scale) base base false.

Definition pow10Int64 (b : Z) : Z :=
  match b with
  | 0 => 1
  | 1 => 10
  | 2 => 100
  | 3 => 1000
  | 4 => 10000
  | 5 => 100000
  | 6 => 1000000
  | 7 => 10000000
  | 8 => 100000000
  | 9 => 1000000000
  | 10 => 10000000000
  | 11 => 100000000000
  | 12 => 1000000000000
  | 13 => 10000000000000
  | 14 => 100000000000000
  | 15 => 1000000000000000
  | 16 => 10000000000000000
  | 17 => 100000000000000000
  | 18 => 1000000000000000000
  | _ => 0
  end.

Definition divideByScaleInt64 (base scale : Z) : Z * Z * bool :=
  if scale =? 0 then (base, 0, true)
  else if 18 <=? scale then (0, base, false)
  else let divisor := pow10Int64 scale in (Z.quot base divisor, Z.rem base divisor, true).

(** A factor of at least two divides an [int64] at most 63 times. *)
Fixpoint removeFactors_loop (fuel : nat) (result base times : Z) : Z * Z :=
  match fuel with
  | O => (result, times)
  | S fuel =>
      if (base <=? result) && (Z.rem result base =? 0)
      then removeFactors_loop fuel (Z.quot result base) base (times + 1)
      else (result, times)
  end.

Definition removeInt64Factors (value base : Z) : Z * Z :=
  let negative := value <? 0 in
  let result := if negative then (int64 (- value)) else value in
  let '(result, times) := removeFactors_loop 64 result base 0 in
  ((if negative then int64 (- result) else result), times).

(** [DivMod] is Euclidean; for the positive factors passed it is [Z.div].  Each
    iteration divides [d] exactly, so the bits of [d] bound the loop. *)
Fixpoint removeBigIntFactors_loop (fuel : nat) (d factor times : Z) : Z * Z :=
  match fuel with
  | O => (d, times)
  | S fuel =>
      if d =? 0 then (d, times)
      else if negb (d mod factor =? 0) then (d, times)
      else removeBigIntFactors_loop fuel (d / factor) factor (times + 1)
  end.

Definition removeBigIntFactors (d factor : Z) : Z * Z :=
  removeBigIntFactors_loop (Z.to_nat (Z.log2_up (Z.abs d + 1))) d factor 0.

(** ** [scale_int.go] *)

(** [big.Int.Int64()]: the low 64 bits. *)
Definition big_Int64 (z : Z) : Z := int64 z.

(** [int64(math.Pow10(n))]: the powers up to [10^18] are exact in [float64] and
    in range; Go leaves the conversion of the others to the implementation,
    which on amd64 gives the least integer. *)
Definition int64_Pow10 (n : Z) : Z := if n <? 19 then 10 ^ n else min_int64.

Definition scaledValue (unscaled scale newScale : Z) : Z :=
  let dif := scale - newScale in
  if dif =? 0 then big_Int64 unscaled
  else if dif <? 0 then (big_Int64 unscaled *! int64_Pow10 (- dif))%go
  else if (unscaled <? max_int64) && (dif <? 19) then
    let divide := int64_Pow10 dif in
    let result := Z.quot (big_Int64 unscaled) divide in
    let mod_ := Z.rem (big_Int64 unscaled) divide in
    if negb (mod_ =? 0) then int64 (result + 1) else result
  else
    let divisor := 10 ^ dif in
    let result := unscaled / divisor in
    let remainder := unscaled mod divisor in
    if negb (remainder =? 0) then int64 (big_Int64 result + 1) else big_Int64 result.

(** ** [amount.go] *)

Record int64Amount := mkAmount { value : Z; scale : Z }.

Definition Amount_Sign (a : int64Amount) : Z :=
  if value a =? 0 then 0 else if 0 <? value a then 1 else -1.

Definition Amount_AsInt64 (a : int64Amount) : Z * bool :=
  if scale a =? 0 then (value a, true)
  else if scale a <? 0 then (0, false)
  else positiveScaleInt64 (value a) (scale a).

Definition AsScaledInt64 (a : int64Amount) (sc : Z) : Z * bool :=
  if scale a <? sc then (fst (negativeScaleInt64 (value a) (int32 (sc - scale a))), true)
  else positiveScaleInt64 (value a) (int32 (scale a - sc)).

Definition Amount_AsDec (a : int64Amount) : Dec := mkDec (value a) (int32 (- scale a)).

Definition cmp_values (a b : Z) : Z := if a =? b then 0 else if a <? b then -1 else 1.

Definition Amount_Cmp (a b : int64Amount) : Z :=
  if scale a =? scale b then cmp_values (value a) (value b)
  else if scale b <? scale a then
    let '(result, remainder, exact) := divideByScaleInt64 (value b) (int32 (scale a - scale b)) in
    if negb exact then Dec_Cmp (Amount_AsDec a) (Amount_AsDec b)
    else if result =? value a then
      if remainder =? 0 then 0 else if 0 <? remainder then -1 else 1
    else cmp_values (value a) result
  else
    let '(result, remainder, exact) := divideByScaleInt64 (value a) (int32 (scale b - scale a)) in
    if negb exact then Dec_Cmp (Amount_AsDec a) (Amount_AsDec b)
    else if result =? value b then
      if remainder =? 0 then 0 else if 0 <? remainder then 1 else -1
    else cmp_values result (value b).

(** [None] when the method returns false and leaves its receiver alone. *)
Definition Amount_Add (a b : int64Amount) : option int64Amount :=
  if value b =? 0 then Some a
  else if value a =? 0 then Some (mkAmount (value b) (scale b))
  else if scale a =? scale b then
    let '(c, ok) := int64Add (value a) (value b) in
    if ok then Some (mkAmount c (scale a)) else None
  else if scale b <? scale a then
    let '(c, ok) := positiveScaleInt64 (value a) (int32 (scale a - scale b)) in
    if negb ok then None
    else
      let '(c, ok) := int64Add c (value b) in
      if ok then Some (mkAmount c (scale b)) else None
  else
    let '(c, ok) := positiveScaleInt64 (value b) (int32 (scale b - scale a)) in
    if negb ok then None
    else
      let '(c, ok) := int64Add (value a) c in
      if ok then Some (mkAmount c (scale a)) else None.

Definition Amount_Sub (a b : int64Amount) : option int64Amount :=
  Amount_Add a (mkAmount (int64 (- value b)) (scale b)).

Definition Amount_AsScale (a : int64Amount) (sc : Z) : int64Amount * bool :=
  if sc <=? scale a then (a, true)
  else
    let '(result, exact) := negativeScaleInt64 (value a) (int32 (sc - scale a)) in
    (mkAmount result sc, exact).

Definition infDec_AsScale (d : Dec) (sc : Z) : Dec * bool :=
  let tmp := Dec_RoundUp d (int32 (- sc)) in (tmp, Dec_Cmp tmp d =? 0).

(** ** [quantity.go] *)

(** A format is a string; the package defines three. *)
Definition Format := string.
Definition DecimalExponent : Format := "DecimalExponent".
Definition BinarySI : Format := "BinarySI".
Definition DecimalSI : Format := "DecimalSI".

(** [qs] is the cached text.  The [Dec] of a quantity is modelled by value:
    Go code that copies a [Quantity] without [DeepCopy] shares it. *)
Record Quantity := mkQuantity {
  qi : int64Amount; qd : option Dec; qs : string; qFormat : Format;
}.

Definition Milli : Z := -3.
Definition Nano : Z := -9.

Definition IsZero (q : Quantity) : bool :=
  match qd q with Some d => Dec_Sign d =? 0 | None => value (qi q) =? 0 end.

Definition Sign (q : Quantity) : Z :=
  match qd q with Some d => Dec_Sign d | None => Amount_Sign (qi q) end.

Definition AsInt64 (q : Quantity) : Z * bool :=
  match qd q with Some _ => (0, false) | None => Amount_AsInt64 (qi q) end.

Definition ToDec (q : Quantity) : Quantity :=
  match qd q with
  | Some _ => q
  | None => mkQuantity (mkAmount 0 0) (Some (Amount_AsDec (qi q))) (qs q) (qFormat q)
  end.

(** The decimal [AsDec] returns; the method also promotes its receiver as [ToDec]. *)
Definition AsDec (q : Quantity) : Dec :=
  match qd q with Some d => d | None => Amount_AsDec (qi q) end.

Definition RoundUp (q : Quantity) (sc : Z) : Quantity * bool :=
  match qd q with
  | Some d => let '(d, exact) := infDec_AsScale d sc in (mkQuantity (qi q) (Some d) "" (qFormat q), exact)
  | None =>
      if sc <=? scale (qi q) then (q, true)
      else let '(i, exact) := Amount_AsScale (qi q) sc in (mkQuantity i None "" (qFormat q), exact)
  end.

Definition Add (q y : Quantity) : Quantity :=
  match qd q, qd y with
  | None, None =>
      let fmt := if value (qi q) =? 0 then qFormat y else qFormat q in
      match Amount_Add (qi q) (qi y) with
      | Some i => mkQuantity i None "" fmt
      | None => mkQuantity (mkAmount 0 0) (Some (Dec_Add (AsDec q) (AsDec y))) "" fmt
      end
  | _, _ =>
      let fmt := if IsZero q then qFormat y else qFormat q in
      mkQuantity (match qd q with Some _ => qi q | None => mkAmount 0 0 end)
                 (Some (Dec_Add (AsDec q) (AsDec y))) "" fmt
  end.

Definition Sub (q y : Quantity) : Quantity :=
  let fmt := if IsZero q then qFormat y else qFormat q in
  let dec := mkQuantity (match qd q with Some _ => qi q | None => mkAmount 0 0 end)
                        (Some (Dec_Sub (AsDec q) (AsDec y))) "" fmt in
  match qd q, qd y with
  | None, None =>
      match Amount_Sub (qi q) (qi y) with
      | Some i => mkQuantity i None "" fmt
      | None => dec
      end
  | _, _ => dec
  end.

Definition Cmp (q y : Quantity) : Z :=
  match qd q, qd y with
  | None, None => Amount_Cmp (qi q) (qi y)
  | _, _ => Dec_Cmp (AsDec q) (AsDec y)
  end.

Definition CmpInt64 (q : Quantity) (y : Z) : Z :=
  match qd q with
  | Some d => Dec_Cmp d (mkDec y 0)
  | None => Amount_Cmp (qi q) (mkAmount y 0)
  end.

Definition Equal (q v : Quantity) : bool := Cmp q v =? 0.

Definition Neg (q : Quantity) : Quantity :=
  match qd q with
  | None => mkQuantity (mkAmount (int64 (- value (qi q))) (scale (qi q))) None "" (qFormat q)
  | Some d => mkQuantity (qi q) (Some (Dec_Neg d)) "" (qFormat q)
  end.

Definition NewQuantity (v : Z) (format : Format) : Quantity :=
  mkQuantity (mkAmount v 0) None "" format.

Definition NewMilliQuantity (v : Z) (format : Format) : Quantity :=
  mkQuantity (mkAmount v (-3)) None "" format.

Definition NewScaledQuantity (v sc : Z) : Quantity :=
  mkQuantity (mkAmount v sc) None "" DecimalSI.

Definition ScaledValue (q : Quantity) (sc : Z) : Z :=
  match qd q with
  | None => fst (AsScaledInt64 (qi q) sc)
  | Some dec => scaledValue (unscaled dec) (dscale dec) (int32 (- sc))
  end.

Definition Value (q : Quantity) : Z := ScaledValue q 0.

Definition MilliValue (q : Quantity) : Z := ScaledValue q Milli.

Definition SetScaled (q : Quantity) (v sc : Z) : Quantity :=
  mkQuantity (mkAmount v sc) None "" (qFormat q).

Definition Set_ (q : Quantity) (v : Z) : Quantity := SetScaled q v 0.

Definition SetMilli (q : Quantity) (v : Z) : Quantity := SetScaled q v Milli.

(** ** Overflow checks *)

Lemma int64Add_spec a b :
  in64 a → in64 b → int64Add a b = if decide (in64 (a + b)) then (a + b, true) else (0, false).
Proof.
  intros Ha Hb. unfold int64Add, mostNegative. case_decide as H.
  - rewrite int64_id by done. unfold in64, min_int64, max_int64 in *.
    destruct (Z.ltb_spec 0 a), (Z.ltb_spec 0 b), (Z.ltb_spec a 0), (Z.ltb_spec b 0); simpl; try done;
      try lia.
    + destruct (Z.ltb_spec (a + b) 0); [lia|done].
    + destruct (Z.ltb_spec 0 (a + b)); [lia|].
      destruct (Z.eqb_spec a (-9223372036854775808)), (Z.eqb_spec b (-9223372036854775808));
        simpl; done || lia.
  - unfold in64, int64, min_int64, max_int64 in *.
    destruct (Z.ltb_spec 0 a), (Z.ltb_spec 0 b), (Z.ltb_spec a 0), (Z.ltb_spec b 0); simpl; try lia.
    + replace ((a + b + 2 ^ 63) mod 2 ^ 64) with (a + b - 2 ^ 63)
        by (apply (Z.mod_unique _ _ 1); lia).
      destruct (Z.ltb_spec (a + b - 2 ^ 63 - 2 ^ 63) 0); [done|lia].
    + replace ((a + b + 2 ^ 63) mod 2 ^ 64) with (a + b + 2 ^ 63 + 2 ^ 64)
        by (apply (Z.mod_unique _ _ (-1)); lia).
      destruct (Z.ltb_spec 0 (a + b + 2 ^ 63 + 2 ^ 64 - 2 ^ 63)); [done|].
      destruct (Z.eqb_spec a (-9223372036854775808)), (Z.eqb_spec b (-9223372036854775808));
        simpl; done || lia.
Qed.

(** The product was exact iff dividing it again gives the factor back. *)
Lemma mul_check a b :
  in64 a → a ≠ mostNegative → 1 < b ≤ max_int64 →
  (Z.quot (int64 (a * b)) b =? a) = bool_decide (in64 (a * b)).
Proof.
  intros Ha Hne Hb. destruct (decide (in64 (a * b))) as [H|H].
  - rewrite bool_decide_true, int64_id by done. rewrite Z.quot_mul by lia. apply Z.eqb_refl.
  - rewrite bool_decide_false by done. apply Z.eqb_neq. intros He. apply H.
    destruct (int64_mod (a * b)) as [k Hk]. pose proof (int64_range (a * b)) as Hr.
    pose proof (Z.quot_rem' (int64 (a * b)) b) as Hq. rewrite He in Hq.
    pose proof (Z.rem_bound_abs (int64 (a * b)) b ltac:(lia)) as Hrem.
    unfold in64. assert (k = 0) as ->; [|lia]. unfold min_int64, max_int64 in *. nia.
Qed.

Lemma in64_mul_1 b : in64 b → in64 (1 * b).
Proof. by rewrite Z.mul_1_l. Qed.

Lemma in64_0 : in64 0.
Proof. done. Qed.

Lemma mul_scale_ok a b :
  in64 a → 1 < b ≤ max_int64 →
  (a = 0 ∨ a = 1 → int64 (a * b) = a * b ∧ in64 (a * b)) ∧
  (a = mostNegative → ¬ in64 (a * b)).
Proof.
  intros Ha Hb. split.
  - intros Ha'. assert (in64 (a * b)) by (unfold in64, min_int64, max_int64 in *; nia).
    by rewrite int64_id.
  - unfold in64, mostNegative, min_int64, max_int64 in *. nia.
Qed.

(** What every checked multiplication by [b] computes. *)
Definition checked_mul (b : Z) (f : Z → Z * bool) : Prop :=
  ∀ a, in64 a → (in64 (a * b) → f a = (a * b, true)) ∧ (¬ in64 (a * b) → snd (f a) = false).

Lemma checked_mul_intro b f :
  1 < b ≤ max_int64 →
  (∀ a, f a = if (a =? 0) || (a =? 1) then (int64 (a * b), true)
              else if a =? mostNegative then (0, false)
              else (int64 (a * b), Z.quot (int64 (a * b)) b =? a)) →
  checked_mul b f.
Proof.
  intros Hb Hf a Ha. rewrite Hf. destruct (mul_scale_ok a b Ha Hb) as [Hsmall Hmost].
  destruct (Z.eqb_spec a 0); [destruct Hsmall as [-> ?]; naive_solver|].
  destruct (Z.eqb_spec a 1); [destruct Hsmall as [-> ?]; naive_solver|]. cbn [orb].
  destruct (Z.eqb_spec a mostNegative); [naive_solver|]. rewrite mul_check by done.
  split; intros H; [by rewrite bool_decide_true, int64_id by done|by rewrite bool_decide_false].
Qed.

Lemma int64MultiplyScale10_spec : checked_mul 10 int64MultiplyScale10.
Proof. by apply checked_mul_intro. Qed.
Lemma int64MultiplyScale100_spec : checked_mul 100 int64MultiplyScale100.
Proof. by apply checked_mul_intro. Qed.
Lemma int64MultiplyScale1000_spec : checked_mul 1000 int64MultiplyScale1000.
Proof. by apply checked_mul_intro. Qed.
Lemma int64MultiplyScale_spec b :
  1 < b ≤ max_int64 → checked_mul b (λ a, int64MultiplyScale a b).
Proof.
  intros Hb. apply checked_mul_intro; [done|]. intros a. unfold int64MultiplyScale.
  rewrite (proj2 (Z.eqb_neq b 1)) by lia. by rewrite andb_true_r.
Qed.

Lemma positiveScale_loop_spec n v :
  in64 v →
  (in64 (v * 10 ^ Z.of_nat n) → positiveScale_loop n v = (v * 10 ^ Z.of_nat n, true)) ∧
  (¬ in64 (v * 10 ^ Z.of_nat n) → snd (positiveScale_loop n v) = false).
Proof.
  revert v. induction n as [|n IH]; intros v Hv; cbn [positiveScale_loop].
  { rewrite Z.mul_1_r. naive_solver. }
  rewrite Nat2Z.inj_succ, Z.pow_succ_r, Z.mul_assoc by lia.
  destruct (int64MultiplyScale_spec 10 ltac:(done) v Hv) as [Hok Hbad].
  destruct (decide (in64 (v * 10))) as [H|H].
  - rewrite Hok by done. by apply IH.
  - specialize (Hbad H). destruct (int64MultiplyScale v 10) as [c ok]. simpl in Hbad. subst ok.
    split; [|done]. intros H'. destruct H.
    assert (0 < 10 ^ Z.of_nat n) by (apply Z.pow_pos_nonneg; lia).
    unfold in64, min_int64, max_int64 in *. nia.
Qed.

(** [positiveScaleInt64] multiplies by a power of ten, or reports that the
    product is not an [int64]. *)
Lemma positiveScaleInt64_spec base sc :
  in64 base → 0 ≤ sc →
  (in64 (base * 10 ^ sc) → positiveScaleInt64 base sc = (base * 10 ^ sc, true)) ∧
  (¬ in64 (base * 10 ^ sc) → snd (positiveScaleInt64 base sc) = false).
Proof.
  intros Hb Hsc. unfold positiveScaleInt64.
  destruct (Z.eqb_spec sc 0) as [->|]; [rewrite Z.mul_1_r; naive_solver|].
  destruct (Z.eqb_spec sc 1) as [->|]; [by apply int64MultiplyScale10_spec|].
  destruct (Z.eqb_spec sc 2) as [->|]; [by apply int64MultiplyScale100_spec|].
  destruct (Z.eqb_spec sc 3) as [->|]; [by apply int64MultiplyScale1000_spec|].
  destruct (Z.eqb_spec sc 6) as [->|]; [by apply (int64MultiplyScale_spec 1000000)|].
  destruct (Z.eqb_spec sc 9) as [->|]; [by apply (int64MultiplyScale_spec 1000000000)|].
  pose proof (positiveScale_loop_spec (Z.to_nat sc) base Hb) as H. by rewrite Z2Nat.id in H.
Qed.

(** ** Rounding away from zero *)

Lemma rem_mul_0 a b c :
  b ≠ 0 → c ≠ 0 → (Z.rem a (b * c) =? 0) = (Z.rem a b =? 0) && (Z.rem (Z.quot a b) c =? 0).
Proof.
  intros Hb Hc. apply Bool.eq_iff_eq_true. rewrite andb_true_iff, !Z.eqb_eq.
  rewrite !Z.rem_divide by (done || nia). split.
  - intros [k ->]. split; [exists (k * c); lia|].
    replace (k * (b * c)) with (k * c * b) by lia. rewrite Z.quot_mul by done. by exists k.
  - intros [[k ->] H]. rewrite Z.quot_mul in H by done. destruct H as [j ->]. exists j. lia.
Qed.

Lemma sgn_rem a b : 0 < b → Z.rem a b ≠ 0 → Z.sgn (Z.rem a b) = Z.sgn a ∧ a ≠ 0.
Proof.
  intros Hb H. pose proof (Z.rem_sign_nz a b ltac:(lia) H). split; [done|].
  intros ->. by rewrite Z.rem_0_l in H by lia.
Qed.

Lemma quot_bound a b : 0 < b → Z.abs (Z.quot a b) * b ≤ Z.abs a.
Proof.
  intros Hb. rewrite <- Z.quot_abs, (Z.abs_eq b) by lia.
  pose proof (Z.mul_quot_le (Z.abs a) b ltac:(lia) ltac:(lia)). lia.
Qed.

(** Once the quotient is zero it stays zero, and the remainder is the dividend. *)
Lemma early_exit base k n :
  Z.quot base (10 ^ Z.of_nat k) = 0 →
  let d := 10 ^ Z.of_nat (k + n) in
  (if negb (Z.rem base (10 ^ Z.of_nat k) =? 0) then (if 0 <? base then 1 else -1, false) else (0, true)) =
    (Z.quot base d + Z.sgn (Z.rem base d), Z.rem base d =? 0).
Proof.
  intros H0 d. set (b := 10 ^ Z.of_nat k) in *.
  assert (0 < b) by (apply Z.pow_pos_nonneg; lia).
  assert (d = b * 10 ^ Z.of_nat n) as Hd by (unfold d, b; rewrite <- Z.pow_add_r by lia; f_equal; lia).
  assert (0 < 10 ^ Z.of_nat n) by (apply Z.pow_pos_nonneg; lia).
  pose proof (Z.quot_rem' base b) as He. rewrite H0 in He.
  assert (Z.quot base d = 0) as Hq by (rewrite Hd, <- Z.quot_quot, H0 by lia; by apply Z.quot_0_l; lia).
  pose proof (Z.quot_rem' base d) as Hed. rewrite Hq in Hed.
  rewrite Hq. replace (Z.rem base b) with base by lia. replace (Z.rem base d) with base by lia.
  destruct (Z.eqb_spec base 0) as [->|Hne]; [done|]. simpl.
  destruct (Z.ltb_spec 0 base); [by rewrite Z.sgn_pos|by rewrite Z.sgn_neg by lia].
Qed.

(** The loop after [k] iterations: [v] is the truncated quotient so far and
    [fr] says whether a digit was lost. *)
Lemma negativeScale_loop_spec n k base v fr :
  in64 base → v = Z.quot base (10 ^ Z.of_nat k) →
  fr = negb (Z.rem base (10 ^ Z.of_nat k) =? 0) →
  let d := 10 ^ Z.of_nat (k + n) in
  negativeScale_loop n base v fr =
    (Z.quot base d + Z.sgn (Z.rem base d), Z.rem base d =? 0).
Proof.
  revert k v fr. induction n as [|n IH]; intros k v fr Hb -> ->; cbn [negativeScale_loop].
  - rewrite Nat.add_0_r. set (d := 10 ^ Z.of_nat k).
    assert (0 < d) by (apply Z.pow_pos_nonneg; lia).
    destruct (Z.eqb_spec (Z.rem base d) 0) as [H0|H0]; simpl.
    { f_equal. rewrite H0. simpl. lia. }
    destruct (sgn_rem base d ltac:(done) H0) as [-> Hne].
    assert (2 ≤ d).
    { destruct k as [|k']; [by unfold d in H0; rewrite Z.rem_1_r in H0|].
      unfold d. rewrite Nat2Z.inj_succ, Z.pow_succ_r by lia.
      assert (0 < 10 ^ Z.of_nat k') by (apply Z.pow_pos_nonneg; lia). lia. }
    pose proof (quot_bound base d ltac:(done)). unfold in64, min_int64, max_int64 in *.
    f_equal. destruct (Z.ltb_spec 0 base).
    + rewrite Z.sgn_pos by done. apply int64_id. unfold min_int64, max_int64. nia.
    + rewrite Z.sgn_neg by lia. rewrite int64_id; [lia|]. unfold min_int64, max_int64. nia.
  - set (b := 10 ^ Z.of_nat k). assert (0 < b) by (apply Z.pow_pos_nonneg; lia).
    assert (10 ^ Z.of_nat (S k) = b * 10) as HS.
    { rewrite Nat2Z.inj_succ, Z.pow_succ_r by lia. unfold b. lia. }
    assert (Z.quot (Z.quot base b) 10 = Z.quot base (10 ^ Z.of_nat (S k))) as Hq.
    { rewrite HS, Z.quot_quot by lia. done. }
    assert (negb (Z.rem base b =? 0) || negb (Z.rem (Z.quot base b) 10 =? 0) =
            negb (Z.rem base (10 ^ Z.of_nat (S k)) =? 0)) as Hr.
    { rewrite HS, rem_mul_0 by lia. by rewrite negb_andb. }
    rewrite Hq, Hr. replace (k + S n)%nat with (S k + n)%nat by lia.
    destruct (Z.eqb_spec (Z.quot base (10 ^ Z.of_nat (S k))) 0) as [H0|H0]; [|by apply IH].
    apply early_exit; done.
Qed.

(** [negativeScaleInt64] divides by a power of ten, rounding away from zero. *)
Lemma negativeScaleInt64_spec base n :
  in64 base → 0 ≤ n →
  negativeScaleInt64 base n = (away (sval base (- n)), Z.rem base (10 ^ n) =? 0).
Proof.
  intros Hb Hn. rewrite away_sval_neg by done. unfold negativeScaleInt64.
  destruct (Z.eqb_spec n 0) as [->|].
  - rewrite Z.quot_1_r, Z.rem_1_r. simpl. by rewrite Z.add_0_r.
  - rewrite (negativeScale_loop_spec (Z.to_nat n) 0 base base false); simpl;
      rewrite ?Z.quot_1_r, ?Z.rem_1_r, ?Z2Nat.id by done; done.
Qed.

(** ** The numbers amounts and quantities stand for *)

Definition amount_val (a : int64Amount) : Q := sval (value a) (scale a).

Definition amount_ok (a : int64Amount) : Prop := in64 (value a) ∧ scale_ok (scale a).

Definition q_val (q : Quantity) : Q :=
  match qd q with Some d => dec_val d | None => amount_val (qi q) end.

Definition q_ok (q : Quantity) : Prop :=
  match qd q with Some d => dec_ok d | None => amount_ok (qi q) end.

Lemma AsDec_val q : q_ok q → (dec_val (AsDec q) == q_val q)%Q ∧ dec_ok (AsDec q).
Proof.
  unfold q_ok, q_val, AsDec. destruct (qd q) as [d|]; [done|].
  unfold amount_ok, amount_val, Amount_AsDec, dec_val, dec_ok, scale_ok. simpl.
  intros [_ H]. rewrite int32_id by lia. rewrite Z.opp_involutive. split; [done|lia].
Qed.

(** *** Comparison *)

Lemma pow10Int64_spec n : 0 ≤ n ≤ 18 → pow10Int64 n = 10 ^ n.
Proof.
  intros Hn. assert (∃ k : nat, n = Z.of_nat k ∧ (k ≤ 18)%nat) as (k & -> & Hk)
    by (exists (Z.to_nat n); lia).
  do 19 (destruct k as [|k]; [done|]). lia.
Qed.

Lemma cmp_values_spec a b : cmp_values a b = cmp_int (a ?= b).
Proof.
  unfold cmp_values. destruct (Z.compare_spec a b) as [->|H|H]; simpl.
  - by rewrite Z.eqb_refl.
  - rewrite (proj2 (Z.eqb_neq a b)) by lia. by rewrite (proj2 (Z.ltb_lt a b)).
  - rewrite (proj2 (Z.eqb_neq a b)) by lia. rewrite (proj2 (Z.ltb_ge a b)) by lia. done.
Qed.

(** Comparing [x] with the quotient of [y], then looking at the remainder, is
    comparing [x * m] with [y]. *)
Lemma quot_compare x y m :
  0 < m →
  cmp_int (x * m ?= y) =
    if Z.quot y m =? x then
      if Z.rem y m =? 0 then 0 else if 0 <? Z.rem y m then -1 else 1
    else cmp_values x (Z.quot y m).
Proof.
  intros Hm. rewrite cmp_values_spec.
  pose proof (Z.quot_rem' y m) as He. pose proof (Z.rem_bound_abs y m ltac:(lia)) as Hr.
  set (q := Z.quot y m) in *. set (r := Z.rem y m) in *. clearbody q r. subst y.
  destruct (Z.eqb_spec q x) as [<-|Hne].
  - destruct (Z.eqb_spec r 0); [|destruct (Z.ltb_spec 0 r)];
      destruct (Z.compare_spec (q * m) (m * q + r)); simpl; lia.
  - destruct (Z.compare_spec x q); [lia|..]; destruct (Z.compare_spec (x * m) (m * q + r)); simpl; nia.
Qed.

Lemma cmp_int_opp c : cmp_int (CompOpp c) = - cmp_int c.
Proof. by destruct c. Qed.

Lemma amount_compare a b :
  scale b ≤ scale a →
  (amount_val a ?= amount_val b)%Q = (value a * 10 ^ (scale a - scale b) ?= value b).
Proof.
  intros Hs. unfold amount_val. by rewrite (sval_rebase (value a) _ (scale b)), sval_compare by done.
Qed.

Lemma Amount_Cmp_sym_val a b :
  amount_ok a → amount_ok b → scale b < scale a →
  let '(result, remainder, exact) := divideByScaleInt64 (value b) (int32 (scale a - scale b)) in
  cmp_int (amount_val a ?= amount_val b)%Q =
    if negb exact then Dec_Cmp (Amount_AsDec a) (Amount_AsDec b)
    else if result =? value a then
      if remainder =? 0 then 0 else if 0 <? remainder then -1 else 1
    else cmp_values (value a) result.
Proof.
  intros [Ha1 Ha2] [Hb1 Hb2] Hlt. unfold scale_ok in *. rewrite int32_id by lia.
  unfold divideByScaleInt64. rewrite (proj2 (Z.eqb_neq _ 0)) by lia.
  destruct (Z.leb_spec 18 (scale a - scale b)) as [Hbig|Hsmall]; simpl.
  - rewrite Dec_Cmp_val by (unfold dec_ok, Amount_AsDec, scale_ok; simpl; rewrite int32_id; lia).
    unfold amount_val, dec_val, Amount_AsDec. simpl.
    by rewrite !int32_id, !Z.opp_involutive by lia.
  - rewrite amount_compare by lia. rewrite pow10Int64_spec by lia. apply quot_compare.
    apply Z.pow_pos_nonneg; lia.
Qed.

Lemma Qcompare_swap x y : (x ?= y)%Q = CompOpp (y ?= x)%Q.
Proof. unfold Qcompare. apply Z.compare_antisym. Qed.

Lemma Amount_Cmp_val a b :
  amount_ok a → amount_ok b → Amount_Cmp a b = cmp_int (amount_val a ?= amount_val b)%Q.
Proof.
  intros Ha Hb. unfold Amount_Cmp. destruct (Z.eqb_spec (scale a) (scale b)) as [He|Hne].
  { unfold amount_val. by rewrite He, sval_compare, cmp_values_spec. }
  destruct (Z.ltb_spec (scale b) (scale a)) as [Hlt|Hge].
  - pose proof (Amount_Cmp_sym_val a b Ha Hb Hlt) as H.
    destruct (divideByScaleInt64 _ _) as [[result remainder] exact]. by rewrite H.
  - pose proof (Amount_Cmp_sym_val b a Hb Ha ltac:(lia)) as H.
    destruct (divideByScaleInt64 _ _) as [[result remainder] exact].
    rewrite Qcompare_swap, cmp_int_opp, H. destruct exact; simpl.
    + rewrite !cmp_values_spec, (Z.compare_antisym result), cmp_int_opp. repeat case_match; lia.
    + destruct Ha as [_ Ha], Hb as [_ Hb]. unfold scale_ok in *.
      rewrite !Dec_Cmp_val by (unfold dec_ok, Amount_AsDec, scale_ok; simpl; rewrite int32_id; lia).
      by rewrite Qcompare_swap, cmp_int_opp.
Qed.

Lemma Cmp_val q y : q_ok q → q_ok y → Cmp q y = cmp_int (q_val q ?= q_val y)%Q.
Proof.
  intros Hq Hy. destruct (AsDec_val q Hq) as [Hvq Hoq], (AsDec_val y Hy) as [Hvy Hoy].
  assert (Dec_Cmp (AsDec q) (AsDec y) = cmp_int (q_val q ?= q_val y)%Q) as H
    by (by rewrite Dec_Cmp_val, Hvq, Hvy).
  unfold Cmp. unfold q_ok, q_val in *. destruct (qd q), (qd y); try done. by apply Amount_Cmp_val.
Qed.

(** *** Addition and subtraction *)

(** Adding at the smaller of two scales. *)
Lemma add_scaled v w s t :
  t ≤ s → (sval (v * 10 ^ (s - t) + w) t == sval v s + sval w t)%Q.
Proof. intros H. by rewrite sval_add, <- sval_rebase. Qed.

Lemma Amount_Add_val a b c :
  amount_ok a → amount_ok b → Amount_Add a b = Some c →
  (amount_val c == amount_val a + amount_val b)%Q ∧ amount_ok c.
Proof.
  destruct a as [va sa], b as [vb sb]. intros [Ha1 Ha2] [Hb1 Hb2].
  unfold Amount_Add, amount_val, amount_ok, scale_ok in *. simpl in *.
  destruct (Z.eqb_spec vb 0) as [->|].
  { intros [= <-]. simpl. split; [by rewrite sval_0, Qplus_0_r|done]. }
  destruct (Z.eqb_spec va 0) as [->|].
  { intros [= <-]. simpl. split; [by rewrite sval_0, Qplus_0_l|done]. }
  destruct (Z.eqb_spec sa sb) as [->|].
  { rewrite int64Add_spec by done. case_decide; [|done]. intros [= <-]. simpl.
    split; [by apply sval_add|done]. }
  destruct (Z.ltb_spec sb sa).
  - rewrite int32_id by lia. destruct (positiveScaleInt64_spec va (sa - sb) Ha1 ltac:(lia)) as [Hok Hbad].
    destruct (decide (in64 (va * 10 ^ (sa - sb)))) as [Hin|Hin].
    + rewrite Hok by done. simpl. rewrite int64Add_spec by done. case_decide; [|done].
      intros [= <-]. simpl. split; [apply add_scaled; lia|done].
    + specialize (Hbad Hin). destruct (positiveScaleInt64 _ _) as [c' ok]. simpl in *. by subst ok.
  - rewrite int32_id by lia. destruct (positiveScaleInt64_spec vb (sb - sa) Hb1 ltac:(lia)) as [Hok Hbad].
    destruct (decide (in64 (vb * 10 ^ (sb - sa)))) as [Hin|Hin].
    + rewrite Hok by done. simpl. rewrite int64Add_spec by done. case_decide; [|done].
      intros [= <-]. simpl. split; [|done].
      by rewrite Z.add_comm, add_scaled, Qplus_comm by lia.
    + specialize (Hbad Hin). destruct (positiveScaleInt64 _ _) as [c' ok]. simpl in *. by subst ok.
Qed.

Lemma Add_val q y :
  q_ok q → q_ok y → (q_val (Add q y) == q_val q + q_val y)%Q ∧ q_ok (Add q y).
Proof.
  intros Hq Hy. destruct (AsDec_val q Hq) as [Hvq Hoq], (AsDec_val y Hy) as [Hvy Hoy].
  destruct (Dec_Add_val (AsDec q) (AsDec y) Hoq Hoy) as [Hv Ho]. rewrite Hvq, Hvy in Hv.
  unfold Add. unfold q_ok, q_val in *. destruct (qd q), (qd y); try done.
  destruct (Amount_Add (qi q) (qi y)) as [c|] eqn:HA; [|done].
  by apply Amount_Add_val.
Qed.

Lemma Sub_val q y :
  q_ok q → q_ok y → (qd q = None → qd y = None → value (qi y) ≠ mostNegative) →
  (q_val (Sub q y) == q_val q - q_val y)%Q ∧ q_ok (Sub q y).
Proof.
  intros Hq Hy Hne. destruct (AsDec_val q Hq) as [Hvq Hoq], (AsDec_val y Hy) as [Hvy Hoy].
  destruct (Dec_Sub_val (AsDec q) (AsDec y) Hoq Hoy) as [Hv Ho]. rewrite Hvq, Hvy in Hv.
  unfold Sub. unfold q_ok, q_val in *. destruct (qd q), (qd y); try done.
  destruct (Amount_Sub (qi q) (qi y)) as [c|] eqn:HA; [|done]. unfold Amount_Sub in HA.
  destruct (qi y) as [v s]. unfold amount_ok, amount_val in *. simpl in *.
  assert (int64 (- v) = - v ∧ in64 (- v)) as [Hneg Hin].
  { specialize (Hne eq_refl eq_refl). unfold in64, mostNegative, min_int64, max_int64 in *.
    rewrite int64_id; unfold min_int64, max_int64; lia. }
  rewrite Hneg in HA. destruct (Amount_Add_val _ _ _ Hq (conj Hin (proj2 Hy) : amount_ok (mkAmount (- v) s)) HA)
    as [HcV HcO]. unfold amount_val in HcV. simpl in HcV. split; [|done].
  by rewrite HcV, sval_opp.
Qed.

(** *** Integer values *)

Lemma ScaledValue_amount a sc :
  amount_ok a → scale_ok sc → in64 (away (sval (value a) (scale a - sc))) →
  fst (AsScaledInt64 a sc) = away (sval (value a) (scale a - sc)).
Proof.
  intros [Hv Hs] Hsc Hin. unfold scale_ok in *. unfold AsScaledInt64.
  destruct (Z.ltb_spec (scale a) sc).
  - rewrite int32_id, negativeScaleInt64_spec by (done || lia). simpl. do 2 f_equal. lia.
  - rewrite int32_id by lia. rewrite away_sval_nonneg in * by lia.
    destruct (positiveScaleInt64_spec (value a) (scale a - sc) Hv ltac:(lia)) as [-> _]; done.
Qed.

Lemma int64_Pow10_small n : n < 19 → int64_Pow10 n = 10 ^ n.
Proof. intros H. unfold int64_Pow10. by rewrite (proj2 (Z.ltb_lt n 19)). Qed.

Lemma pow10_small n : 0 ≤ n < 19 → 1 ≤ 10 ^ n ≤ 10 ^ 18.
Proof.
  intros Hn. split; [|apply Z.pow_le_mono_r; lia].
  assert (0 < 10 ^ n) by (apply Z.pow_pos_nonneg; lia). lia.
Qed.

(** The three cases of [scaledValue] round up. *)
Lemma scaledValue_nonneg u s t :
  0 ≤ u → t - s < 19 → in64 (away (sval u (t - s))) →
  scaledValue u s t = away (sval u (t - s)).
Proof.
  intros Hu Hs Hin. unfold scaledValue, big_Int64.
  destruct (Z.eqb_spec (s - t) 0) as [Heq|Hneq].
  { replace (t - s) with 0 in * by lia. rewrite away_sval_nonneg in * by lia.
    rewrite Z.mul_1_r in *. by apply int64_id. }
  destruct (Z.ltb_spec (s - t) 0).
  { replace (- (s - t)) with (t - s) by lia. rewrite away_sval_nonneg in * by lia.
    rewrite int64_Pow10_small by lia.
    destruct (int64_mod u) as [k ->]. rewrite Z.mul_add_distr_r.
    rewrite (int64_eq_mod _ (u * 10 ^ (t - s))); [by apply int64_id|].
    exists (k * 10 ^ (t - s)). lia. }
  set (n := s - t) in *. replace (t - s) with (- n) in * by lia.
  rewrite away_sval_neg in * by lia. set (d := 10 ^ n) in *.
  assert (0 < d) by (apply Z.pow_pos_nonneg; lia).
  pose proof (Z.rem_bound_pos u d Hu ltac:(done)).
  assert (Z.sgn (Z.rem u d) = if negb (Z.rem u d =? 0) then 1 else 0) as Hsg.
  { destruct (Z.eqb_spec (Z.rem u d) 0) as [->|]; [done|]. simpl. by rewrite Z.sgn_pos by lia. }
  rewrite Hsg in *.
  destruct (Z.ltb_spec u max_int64) as [Hmax|Hmax], (Z.ltb_spec n 19) as [Hn|Hn]; simpl.
  1: { rewrite int64_Pow10_small by done. fold d.
       rewrite (int64_id u) by (unfold min_int64; lia).
       destruct (Z.eqb_spec (Z.rem u d) 0); simpl in *; [lia|by apply int64_id]. }
  all: rewrite <- Z.quot_div_nonneg, <- Z.rem_mod_nonneg by lia;
    destruct (Z.eqb_spec (Z.rem u d) 0); simpl in *; rewrite ?Z.add_0_r in *;
    [by apply int64_id|]; rewrite int64_add_l; by apply int64_id.
Qed.

Lemma scaledValue_ceil u s t :
  0 ≤ u → in64 (away (sval u (t - s))) → scaledValue u s t = away (sval u (t - s)).
Proof.
  intros Hu Hin. destruct (Z.lt_ge_cases (t - s) 19) as [H|H]; [by apply scaledValue_nonneg|].
  rewrite away_sval_nonneg in * by lia.
  assert (10 ^ 19 ≤ 10 ^ (t - s)) by (apply Z.pow_le_mono_r; lia).
  assert (u = 0) as -> by (unfold in64, max_int64 in Hin; nia).
  unfold scaledValue. rewrite (proj2 (Z.eqb_neq _ 0)), (proj2 (Z.ltb_lt _ 0)) by lia. done.
Qed.

Lemma sval_div v s t : (sval v s / (10 # 1) ^ t == sval v (s - t))%Q.
Proof.
  unfold sval, Z.sub. rewrite Qpower_plus, Qpower_opp by apply ten_neq_0.
  unfold Qdiv. ring.
Qed.

Lemma away_ceil x : (0 <= x)%Q → away x = Qceiling x.
Proof. intros H. unfold away. destruct (Qlt_le_dec x 0) as [H'|]; [|done]. by destruct (Qlt_not_le _ _ H'). Qed.

Lemma sval_nonneg v s : (0 <= sval v s)%Q ↔ 0 ≤ v.
Proof.
  rewrite Qle_alt, Z.le_lteq. rewrite <- (sval_0 s), sval_compare.
  destruct (Z.compare_spec 0 v); split; naive_solver lia.
Qed.

Lemma ScaledValue_away q sc :
  q_ok q → scale_ok sc → (qd q = None ∨ 0 <= q_val q)%Q →
  in64 (away (q_val q / (10 # 1) ^ sc)) →
  ScaledValue q sc = away (q_val q / (10 # 1) ^ sc).
Proof.
  unfold q_ok, q_val, ScaledValue. intros Hq Hsc Hn. destruct (qd q) as [d|].
  - destruct Hn as [?|Hn]; [done|]. unfold dec_val in *. rewrite sval_nonneg in Hn.
    rewrite sval_div. unfold scale_ok in *. rewrite int32_id by lia.
    replace (- dscale d - sc) with (- sc - dscale d) by lia. by apply scaledValue_ceil.
  - unfold amount_val. rewrite sval_div. by apply ScaledValue_amount.
Qed.

(** ** Properties *)

(** Addition, subtraction and negation of quantities are exact, whatever
    mixture of the 64-bit and the arbitrary-precision representation they
    start from and end in; the exceptions are the subtraction and the negation of
    a quantity held as the least 64-bit integer. *)
Lemma quantity_add_sub q y :
  q_ok q → q_ok y →
  ((q_val (Add q y) == q_val q + q_val y)%Q ∧ q_ok (Add q y)) ∧
  ((qd q = None → qd y = None → value (qi y) ≠ mostNegative) →
   (q_val (Sub q y) == q_val q - q_val y)%Q ∧ q_ok (Sub q y)) ∧
  ((qd y = None → value (qi y) ≠ mostNegative) →
   (q_val (Neg y) == - q_val y)%Q ∧ q_ok (Neg y)).
Proof.
  intros Hq Hy. split; [by apply Add_val|]. split; [intros; by apply Sub_val|].
  intros Hne. unfold Neg, q_val, q_ok in *. destruct (qd y) as [d|]; simpl.
  - split; [apply Dec_Neg_val|done].
  - destruct Hy as [Hv Hs]. unfold amount_val, amount_ok, in64. simpl.
    specialize (Hne eq_refl). rewrite int64_id;
      unfold in64, mostNegative, min_int64, max_int64 in *; [|lia].
    split; [apply sval_opp|]. split; [lia|done].
Qed.

(** Comparison of quantities is comparison of the numbers they stand for,
    and so agrees for both representations of a number. *)
Lemma quantity_cmp q y :
  q_ok q → q_ok y →
  Cmp q y = cmp_int (q_val q ?= q_val y)%Q ∧
  (Equal q y = true ↔ (q_val q == q_val y)%Q) ∧
  (∀ z, in64 z → CmpInt64 q z = cmp_int (q_val q ?= inject_Z z)%Q) ∧
  Sign q = cmp_int (q_val q ?= 0)%Q.
Proof.
  intros Hq Hy. split_and!.
  - by apply Cmp_val.
  - unfold Equal. rewrite Cmp_val, Qeq_alt, Z.eqb_eq by done.
    destruct (q_val q ?= q_val y)%Q; naive_solver.
  - intros z Hz. pose proof (Cmp_val q (NewQuantity z "") Hq) as H.
    assert ((inject_Z z == q_val (NewQuantity z ""))%Q) as ->.
    { unfold NewQuantity, q_val, amount_val, sval. simpl. ring. }
    rewrite <- H by done. unfold CmpInt64, Cmp, NewQuantity, AsDec, Amount_AsDec. simpl.
    by destruct (qd q).
  - unfold Sign, q_val. destruct (qd q) as [d|].
    + unfold Dec_Sign, dec_val. rewrite <- (sval_0 (- dscale d)), sval_compare.
      by destruct (unscaled d).
    + unfold Amount_Sign, amount_val. rewrite <- (sval_0 (scale (qi q))), sval_compare.
      destruct (value (qi q)); done.
Qed.

(** [Value], [MilliValue] and [ScaledValue] round a number that is not
    negative up to the next multiple of the scale, in both representations,
    whenever that is an [int64]. *)
Lemma quantity_value_rounds_up q sc :
  q_ok q → scale_ok sc → (0 <= q_val q)%Q →
  in64 (Qceiling (q_val q / (10 # 1) ^ sc)) →
  ScaledValue q sc = Qceiling (q_val q / (10 # 1) ^ sc).
Proof.
  intros Hq Hsc Hn. assert (0 <= q_val q / (10 # 1) ^ sc)%Q as Hn'.
  { apply Qle_shift_div_l; [apply pow10_pos|]. by rewrite Qmult_0_l. }
  rewrite <- (away_ceil _ Hn'). intros Hin. apply ScaledValue_away; auto.
Qed.

(** Subtracting the least 64-bit integer: the negation overflows and the
    difference is too small by [2^64]. *)
Theorem quantity_sub_min v :
  0 ≤ v ≤ max_int64 →
  (q_val (Sub (NewQuantity v DecimalSI) (NewQuantity mostNegative DecimalSI)) ==
     q_val (NewQuantity v DecimalSI) - q_val (NewQuantity mostNegative DecimalSI)
     - inject_Z (2 ^ 64))%Q.
Proof.
  intros Hv. unfold Sub, Amount_Sub, NewQuantity, Amount_Add. simpl.
  change (int64 (- mostNegative)) with mostNegative. simpl.
  assert (∀ z, (sval z 0 == inject_Z z)%Q) as Hs by (intros; unfold sval; simpl; ring).
  destruct (Z.eqb_spec v 0) as [->|].
  - unfold q_val, amount_val. simpl. rewrite !Hs. by vm_compute.
  - rewrite int64Add_spec by (unfold in64, mostNegative, min_int64, max_int64 in *; lia).
    rewrite decide_True by (unfold in64, mostNegative, min_int64, max_int64 in *; lia).
    unfold q_val, amount_val. simpl. rewrite !Hs. unfold Qminus.
    rewrite <- !inject_Z_opp, <- !inject_Z_plus. apply inject_Z_injective.
    unfold mostNegative, min_int64. lia.
Qed.

(** A negative number that is not an integer: held as a [Dec] its [Value]
    is above its ceiling, and two more than the [Value] of the same number held
    in 64 bits, although the two quantities compare equal. *)
Theorem quantity_value_negative u s fmt :
  min_int64 < u < 0 → 0 < s < 19 → Z.rem u (10 ^ s) ≠ 0 →
  let small := mkQuantity (mkAmount u (- s)) None "" fmt in
  let big := mkQuantity (mkAmount 0 0) (Some (mkDec u s)) "" fmt in
  Cmp small big = 0 ∧ Value big = Qceiling (q_val big) + 1 ∧ Value big = Value small + 2.
Proof.
  intros Hu Hs Hrem small big.
  assert (in64 u) as Hin by (unfold in64, max_int64; lia).
  assert (0 < 10 ^ s) by (apply Z.pow_pos_nonneg; lia).
  assert (Value big = Z.quot u (10 ^ s) + 1) as Hbig.
  { unfold Value, ScaledValue, scaledValue. simpl. rewrite int32_id, Z.sub_0_r by done.
    rewrite (proj2 (Z.eqb_neq s 0)), (proj2 (Z.ltb_ge s 0)), (proj2 (Z.ltb_lt s 19)) by lia.
    rewrite (proj2 (Z.ltb_lt u max_int64)) by (unfold max_int64; lia). simpl.
    unfold big_Int64. rewrite int64_id by done. rewrite int64_Pow10_small by lia.
    rewrite (proj2 (Z.eqb_neq _ 0)) by done. simpl. apply int64_id.
    pose proof (quot_bound u (10 ^ s) ltac:(done)).
    assert (10 ^ 1 ≤ 10 ^ s) by (apply Z.pow_le_mono_r; lia).
    assert (Z.abs (Z.quot u (10 ^ s)) * 10 ≤ Z.abs u) by nia. unfold min_int64, max_int64 in *. lia. }
  assert (Value small = Z.quot u (10 ^ s) - 1) as Hsmall.
  { unfold Value, ScaledValue, AsScaledInt64. simpl.
    rewrite (proj2 (Z.ltb_lt (- s) 0)) by lia. simpl. rewrite int32_id by lia.
    rewrite negativeScaleInt64_spec by (done || lia). simpl.
    rewrite away_sval_neg by lia. rewrite Z.opp_involutive.
    destruct (sgn_rem u (10 ^ s) ltac:(done) Hrem) as [-> _]. rewrite Z.sgn_neg; lia. }
  split_and!; [|rewrite Hbig|lia].
  - rewrite Cmp_val; [|split; [done|unfold scale_ok; simpl; lia]|unfold q_ok, dec_ok, scale_ok; simpl; lia].
    unfold q_val, amount_val, dec_val, small, big. simpl. by rewrite sval_compare, Z.compare_refl.
  - f_equal. unfold q_val, dec_val, big. simpl. rewrite sval_neg by lia.
    unfold Qceiling. simpl. rewrite Z2Pos.id by done.
    rewrite <- Z.quot_div_nonneg by lia. rewrite Z.quot_opp_l by lia. lia.
Qed.

(** ** Instances *)

Lemma quantity_add_sub_witness :
  let q := NewQuantity max_int64 BinarySI in let y := NewMilliQuantity 1500 DecimalSI in
  qd (Add q y) = Some (mkDec 9223372036854775808500 3) ∧
  (q_val (Add q y) == q_val q + q_val y)%Q ∧ (q_val (Sub q y) == q_val q - q_val y)%Q.
Proof.
  intros q y. split; [reflexivity|].
  assert (q_ok q) as Hq by (split; [done|]; unfold scale_ok; simpl; lia).
  assert (q_ok y) as Hy by (split; [done|]; unfold scale_ok; simpl; lia).
  destruct (quantity_add_sub q y Hq Hy) as ([HA _] & HS & _).
  destruct HS as [HS _]; [intros _ _; discriminate|]. exact (conj HA HS).
Defined.

Lemma quantity_cmp_witness :
  let q := NewScaledQuantity 1 18 in let y := mkQuantity (mkAmount 0 0) (Some (mkDec (10 ^ 20) 2)) "" BinarySI in
  Cmp q y = cmp_int (q_val q ?= q_val y)%Q ∧ Cmp q y = 0.
Proof.
  intros q y. split; [|vm_compute; reflexivity].
  destruct (quantity_cmp q y) as [H _]; [split; [done|]| |exact H];
    unfold q_ok, dec_ok, scale_ok; simpl; lia.
Defined.

Lemma quantity_value_rounds_up_witness :
  let q := mkQuantity (mkAmount 0 0) (Some (mkDec 10241 1)) "" BinarySI in
  ScaledValue q 0 = Qceiling (q_val q / (10 # 1) ^ 0) ∧ ScaledValue q 0 = 1025.
Proof.
  intros q. split; [|vm_compute; reflexivity].
  apply (quantity_value_rounds_up q 0);
    [unfold q_ok, dec_ok, scale_ok; simpl; lia|unfold scale_ok; lia|done|done].
Defined.

Lemma quantity_sub_min_witness :
  (q_val (Sub (NewQuantity 5 DecimalSI) (NewQuantity mostNegative DecimalSI)) ==
     q_val (NewQuantity 5 DecimalSI) - q_val (NewQuantity mostNegative DecimalSI)
     - inject_Z (2 ^ 64))%Q ∧
  value (qi (Sub (NewQuantity 5 DecimalSI) (NewQuantity mostNegative DecimalSI))) < 0.
Proof. split; [apply (quantity_sub_min 5); unfold max_int64; lia|vm_compute; reflexivity]. Defined.

Lemma quantity_value_negative_witness :
  Value (mkQuantity (mkAmount 0 0) (Some (mkDec (-10241024) 4)) "" BinarySI) =
  Value (mkQuantity (mkAmount (-10241024) (-4)) None "" BinarySI) + 2.
Proof.
  destruct (quantity_value_negative (-10241024) 4 BinarySI) as (_ & _ & H);
    [unfold min_int64; lia|lia|vm_compute; discriminate|exact H].
Defined.
