(* ===== verification/QuantityText.v ===== *)
(** * The text form of quantities: [resource/suffix.go] and [quantity.go]

    The suffix tables, the canonical form ([CanonicalizeBytes], [String]) and
    the parser ([parseQuantityString], [ParseQuantity]).  Text is a list of
    bytes.  Parsing the canonical text of a quantity gives a quantity with the
    same value as long as the suffix tables reach its magnitude. *)

From S2P Require Import Prelude Strconv InfDec Quantity.
#[local] Close Scope Q_scope.
#[local] Open Scope Z_scope.

(** ** [suffix.go] *)

Record listSuffixer := mkSuffixer {
  suffixToBE : gmap string (Z * Z);
  beToSuffix : gmap (Z * Z) string;
}.

Definition addSuffix (ls : listSuffixer) (s : string) (pair : Z * Z) : listSuffixer :=
  mkSuffixer (<[s := pair]> (suffixToBE ls)) (<[pair := s]> (beToSuffix ls)).

Definition lookup_suffix (ls : listSuffixer) (s : string) : option (Z * Z) := suffixToBE ls !! s.

Definition construct_be (ls : listSuffixer) (base exponent : Z) : option string :=
  beToSuffix ls !! (base, exponent).

Definition addSuffixes (l : list (string * (Z * Z))) : listSuffixer :=
  foldl (λ ls p, addSuffix ls p.1 p.2) (mkSuffixer ∅ ∅) l.

Definition binSuffixes : listSuffixer :=
  addSuffixes
    [("Ki", (2, 10)); ("Mi", (2, 20)); ("Gi", (2, 30)); ("Ti", (2, 40)); ("Pi", (2, 50));
     ("Ei", (2, 60))].

Definition decSuffixes : listSuffixer :=
  addSuffixes
    [("", (2, 0)); ("n", (10, -9)); ("u", (10, -6)); ("m", (10, -3)); ("", (10, 0)); ("k", (10, 3));
     ("M", (10, 6)); ("G", (10, 9)); ("T", (10, 12)); ("P", (10, 15)); ("E", (10, 18))].

Definition constructBytes (base exponent : Z) (format : Format) : option text :=
  if (format =? DecimalSI)%string then txt <$> construct_be decSuffixes base exponent
  else if (format =? BinarySI)%string then txt <$> construct_be binSuffixes base exponent
  else if (format =? DecimalExponent)%string then
    if negb (base =? 10) then None
    else if exponent =? 0 then Some []
    else Some ("e"%char :: print_Z exponent)
  else None.

(** Base, exponent and format; [None] when the suffix is not known. *)
Definition handler_interpret (suffix : string) : option (Z * Z * Format) :=
  match lookup_suffix decSuffixes suffix with
  | Some (b, e) => Some (b, e, DecimalSI)
  | None =>
      match lookup_suffix binSuffixes suffix with
      | Some (b, e) => Some (b, e, BinarySI)
      | None =>
          match txt suffix with
          | c :: ((_ :: _) as rest) =>
              if (c =? "E")%char || (c =? "e")%char then
                match ParseInt rest with
                | Some parsed => Some (10, int32 parsed, DecimalExponent)
                | None => None
                end
              else None
          | _ => None
          end
      end
  end.

Definition interpret (s : string) : option (Z * Z * Format) :=
  if (s =? "")%string then Some (10, 0, DecimalSI)
  else if (s =? "n")%string then Some (10, -9, DecimalSI)
  else if (s =? "u")%string then Some (10, -6, DecimalSI)
  else if (s =? "m")%string then Some (10, -3, DecimalSI)
  else if (s =? "k")%string then Some (10, 3, DecimalSI)
  else if (s =? "M")%string then Some (10, 6, DecimalSI)
  else if (s =? "G")%string then Some (10, 9, DecimalSI)
  else handler_interpret s.

(** ** The canonical form: [amount.go], [quantity.go] *)

(** [exponent % 3 != 0] takes at most two steps down to a multiple of three. *)
Fixpoint align_exponent (fuel : nat) (amount exponent : Z) : Z * Z :=
  match fuel with
  | O => (amount, exponent)
  | S fuel =>
      if Z.rem exponent 3 =? 0 then (amount, exponent)
      else align_exponent fuel (amount * 10) (int32 (exponent - 1))
  end.

Definition infDec_AsCanonicalBytes (a : Dec) : text * Z :=
  let exponent := int32 (- dscale a) in
  let '(amount, times) := removeBigIntFactors (unscaled a) 10 in
  let '(amount, exponent) := align_exponent 3 amount (int32 (exponent + times)) in
  (print_Z amount, exponent).

Definition Amount_AsCanonicalBytes (a : int64Amount) : text * Z :=
  let '(amount, times) := removeInt64Factors (value a) 10 in
  let exponent := int32 (scale a + times) in
  let r := Z.rem exponent 3 in
  if (r =? 1) || (r =? -2) then
    let '(amount, ok) := int64MultiplyScale10 amount in
    if negb ok then infDec_AsCanonicalBytes (Amount_AsDec a)
    else (print_Z amount, int32 (exponent - 1))
  else if (r =? 2) || (r =? -1) then
    let '(amount, ok) := int64MultiplyScale100 amount in
    if negb ok then infDec_AsCanonicalBytes (Amount_AsDec a)
    else (print_Z amount, int32 (exponent - 2))
  else (print_Z amount, exponent).

Definition infDec_AsCanonicalBase1024Bytes (a : Dec) : text * Z :=
  let '(amount, exponent) := removeBigIntFactors (unscaled (Dec_RoundUp a 0)) 1024 in
  (print_Z amount, exponent).

Definition Amount_AsCanonicalBase1024Bytes (a : int64Amount) : text * Z :=
  let '(v, ok) := AsScaledInt64 a 0 in
  if negb ok then infDec_AsCanonicalBase1024Bytes (Amount_AsDec a)
  else let '(amount, exponent) := removeInt64Factors v 1024 in (print_Z amount, exponent).

Definition AsCanonicalBytes (q : Quantity) : text * Z :=
  match qd q with
  | Some d => infDec_AsCanonicalBytes d
  | None => Amount_AsCanonicalBytes (qi q)
  end.

(** [q.AsScale(0)] as a canonical value: its base-1024 text and its exactness. *)
Definition AsScale0_base1024 (q : Quantity) : text * Z * bool :=
  match qd q with
  | Some d => let '(d', exact) := infDec_AsScale d 0 in (infDec_AsCanonicalBase1024Bytes d', exact)
  | None => let '(i', exact) := Amount_AsScale (qi q) 0 in (Amount_AsCanonicalBase1024Bytes i', exact)
  end.

(** An unknown suffix is dropped: the [ok] of [constructBytes] is ignored. *)
Definition CanonicalizeBytes (q : Quantity) : text * text :=
  if IsZero q then (txt "0", [])
  else
    let decimal format :=
      let '(number, exponent) := AsCanonicalBytes q in
      (number, default [] (constructBytes 10 exponent format)) in
    if ((qFormat q =? DecimalExponent) || (qFormat q =? DecimalSI))%string then decimal (qFormat q)
    else if (qFormat q =? BinarySI)%string then
      if (0 <? CmpInt64 q (-1024)) && (CmpInt64 q 1024 <? 0) then decimal DecimalSI
      else
        let '(number, exponent, exact) := AsScale0_base1024 q in
        if negb exact then decimal DecimalSI
        else (number, default [] (constructBytes 2 (int32 (exponent * 10)) BinarySI))
    else decimal DecimalExponent.

Definition String_ (q : Quantity) : text :=
  if (qs q =? "")%string then
    let '(number, suffix) := CanonicalizeBytes q in number ++ suffix
  else txt (qs q).

(** ** The parser *)

Inductive parse_error := ErrFormatWrong | ErrNumeric | ErrSuffix.

Record parsed := mkParsed {
  p_positive : bool; p_value : text; p_num : text; p_denom : text; p_suffix : text;
}.

(** [strings.ContainsAny(str[i:i+1], "eEinumkKMGTP")] *)
Definition is_suffix_char (c : ascii) : bool := existsb (Ascii.eqb c) (txt "eEinumkKMGTP").

(** The suffix starts at [rest]: letters, an optional sign, digits, the end. *)
Definition scan_suffix (rest : text) : option text :=
  let '(_, r) := span is_suffix_char rest in
  match r with
  | [] => Some rest
  | c :: r' =>
      let r := if is_sign c then r' else r in
      match span is_digit r with (_, []) => Some rest | _ => None end
  end.

(** What follows the sign: zeros to strip, the numerator, a denominator, the suffix. *)
Definition parse_number (str : text) (positive : bool) (rest : text) : parsed + parse_error :=
  match span is_zero rest with
  | (_, []) => inl (mkParsed positive (txt "0") (txt "0") [] [])
  | (_, rest) =>
      match span is_digit rest with
      | (num, []) => inl (mkParsed positive str num [] [])
      | (num, rest) =>
          let num := match num with [] => txt "0" | _ => num end in
          let finish denom rest :=
            let value := take (length str - length rest) str in
            match scan_suffix rest with
            | Some suffix => inl (mkParsed positive value num denom suffix)
            | None => inr ErrFormatWrong
            end in
          match rest with
          | c :: rest' =>
              if (c =? ".")%char then
                match span is_digit rest' with
                | (denom, []) => inl (mkParsed positive str num denom [])
                | (denom, rest) => finish denom rest
                end
              else finish [] rest
          | [] => finish [] rest
          end
      end
  end.

Definition parseQuantityString (str : text) : parsed + parse_error :=
  match str with
  | c :: r =>
      if (c =? "-")%char then parse_number str false r
      else if (c =? "+")%char then parse_number str true r
      else parse_number str true str
  | [] => parse_number str true str
  end.

(** [strings.HasSuffix(s, "000")] *)
Definition has_suffix_000 (s : text) : bool :=
  bool_decide (drop (length s - 3) s = txt "000").

(** The fast path: digits that fit 64 bits; [None] to go on with [inf.Dec]. *)
Definition parse_fast (str : text) (p : parsed) (exponent : Z) (format : Format)
    : option (Quantity + parse_error) :=
  let n := Z.of_nat (length (p_num p)) in
  let d := Z.of_nat (length (p_denom p)) in
  let '(precision, scale, mantissa) :=
    if (format =? BinarySI)%string then
      if (0 <=? exponent) && (d =? 0) then
        (int32 (15 - n - Z.quot (exponent * 3) 10 - 1), 0, int64 (Z.shiftl 1 exponent))
      else (-1, 0, 1)
    else (int32 (maxInt64Factors - (n + d)), exponent, 1) in
  if 0 <=? precision then
    let scale := int32 (scale - d) in
    if Nano <=? scale then
      let shifted := p_num p ++ p_denom p in
      match ParseInt shifted with
      | None => Some (inr ErrNumeric)
      | Some v =>
          match int64Multiply v mantissa with
          | (result, true) =>
              let result := if p_positive p then result else int64 (- result) in
              let canonical :=
                if (format =? BinarySI)%string then
                  (Z.rem exponent 10 =? 0) && negb (Z.land v 7 =? 0)
                else
                  (Z.rem scale 3 =? 0) && negb (has_suffix_000 shifted) &&
                  negb (bool_decide (head shifted = Some "0"%char)) in
              Some (inl (mkQuantity (mkAmount result scale) None
                           (if canonical then String.string_of_list_ascii str else "") format))
          | (_, false) => None
          end
      end
    else None
  else None.

Definition maxAllowed : Dec := mkDec max_int64 0.

Definition parse_slow (p : parsed) (base exponent : Z) (format : Format) : Quantity + parse_error :=
  match Dec_SetString (p_value p) with
  | None => inr ErrNumeric
  | Some amount =>
      let amount :=
        if base =? 10 then mkDec (unscaled amount) (int32 (dscale amount + int32 (- exponent)))
        else if base =? 2 then mkDec (unscaled amount * Z.shiftl 1 exponent) (dscale amount)
        else amount in
      let sign := Dec_Sign amount in
      let amount := if sign =? -1 then Dec_Neg amount else amount in
      let amount :=
        if Dec_Unscaled_nonzero amount then Dec_RoundUp amount (int32 (- Nano)) else amount in
      let amount :=
        if (format =? BinarySI)%string && (0 <? Dec_Cmp amount maxAllowed) then maxAllowed else amount in
      let format :=
        if (format =? BinarySI)%string && (Dec_Cmp amount (mkDec 1 0) <? 0)
           && (0 <? Dec_Cmp amount (mkDec 0 0)) then DecimalSI else format in
      let amount := if sign =? -1 then Dec_Neg amount else amount in
      inl (mkQuantity (mkAmount 0 0) (Some amount) "" format)
  end.

Definition ParseQuantity (str : text) : Quantity + parse_error :=
  match str with
  | [] => inr ErrFormatWrong
  | _ =>
      if bool_decide (str = txt "0") then inl (mkQuantity (mkAmount 0 0) None "0" DecimalSI)
      else
        match parseQuantityString str with
        | inr e => inr e
        | inl p =>
            match interpret (String.string_of_list_ascii (p_suffix p)) with
            | None => inr ErrSuffix
            | Some (base, exponent, format) =>
                match parse_fast str p exponent format with
                | Some r => r
                | None => parse_slow p base exponent format
                end
            end
        end
  end.

Definition MustParse (str : text) : outcome Quantity :=
  match ParseQuantity str with inl q => Ret q | inr _ => Panic end.

Lemma scan_loop_digits ds acc dg :
  Forall (λ c, is_digit c = true) ds →
  scan_loop ds acc None dg = (acc ++ ds, None, dg || bool_decide (ds ≠ []), []).
Proof.
  revert acc dg. induction ds as [|c ds IH]; intros acc dg H; simpl.
  - by rewrite app_nil_r, orb_false_r.
  - apply Forall_cons in H as [Hc H]. destruct (is_digit_not_sign c Hc) as [-> ->].
    rewrite Hc, IH by done. rewrite <- app_assoc. simpl. by rewrite !orb_true_r.
Qed.

Lemma Dec_SetString_print n : Dec_SetString (print_Z n) = Some (mkDec n 0).
Proof.
  unfold Dec_SetString. pose proof (bigint_SetString_print n) as HB.
  destruct (print_nonneg_spec (Z.abs n) ltac:(lia)) as (Hd & _ & _ & c & r & Heq & _).
  unfold print_Z in *. destruct (Z.ltb_spec n 0) as [Hn|Hn].
  - rewrite Z.abs_neq in * by lia. simpl. rewrite scan_loop_digits by done.
    rewrite bool_decide_true by (by rewrite Heq). simpl. by rewrite HB.
  - rewrite Z.abs_eq in * by lia. rewrite scan_loop_digits by done.
    rewrite bool_decide_true by (by rewrite Heq). simpl. by rewrite HB.
Qed.

(** ** Parsing a printed number with a suffix *)

(** A suffix the lexer takes as a whole after a number. *)
Definition suffix_ok (suf : text) : Prop :=
  scan_suffix suf = Some suf ∧
  ∀ c r, suf = c :: r → is_digit c = false ∧ (c =? ".")%char = false.

Lemma parse_unsigned str positive n suf :
  0 < n → suffix_ok suf →
  parse_number str positive (print_nonneg n ++ suf) =
    inl (mkParsed positive (take (length str - length suf) str) (print_nonneg n) [] suf).
Proof.
  intros Hn [Hscan Hhd]. unfold parse_number.
  destruct (print_nonneg_spec n ltac:(lia)) as (Hd & _ & _ & c & r & Heq & Hz).
  pose proof (span_app is_zero [] (print_nonneg n ++ suf)) as Hsp. simpl in Hsp.
  rewrite Hsp; [|done|rewrite Heq; intros a r' [= <- _]; apply Hz; lia].
  assert (print_nonneg n ++ suf = c :: (r ++ suf)) as Hcons by (by rewrite Heq).
  rewrite Hcons at 1. rewrite (span_app is_digit (print_nonneg n) suf); [|done|intros a r' ->; by apply (Hhd a r')].
  destruct suf as [|c' suf'].
  - simpl. by rewrite Nat.sub_0_r, firstn_all.
  - destruct (Hhd _ _ eq_refl) as [_ ->]. rewrite Hscan. by rewrite Heq.
Qed.

Lemma parse_lex n suf :
  n ≠ 0 → suffix_ok suf →
  parseQuantityString (print_Z n ++ suf) =
    inl (mkParsed (0 <? n) (print_Z n) (print_nonneg (Z.abs n)) [] suf).
Proof.
  intros Hn Hs. set (str := print_Z n ++ suf).
  assert (take (length str - length suf) str = print_Z n) as Hval.
  { unfold str. rewrite length_app, Nat.add_sub. apply take_app_length. }
  pose proof (λ p, parse_unsigned str p (Z.abs n) suf ltac:(lia) Hs) as HP. rewrite Hval in HP.
  unfold parseQuantityString, str, print_Z at 1. fold str.
  destruct (Z.ltb_spec n 0) as [Hneg|Hpos].
  - simpl. rewrite Z.abs_neq in * by lia. rewrite HP. by rewrite (proj2 (Z.ltb_ge 0 n)) by lia.
  - rewrite Z.abs_eq, (proj2 (Z.ltb_lt 0 n)) in * by lia.
    assert (str = print_nonneg n ++ suf) as Hstr
      by (unfold str, print_Z; by rewrite (proj2 (Z.ltb_ge n 0)) by lia).
    destruct (print_nonneg_spec n ltac:(lia)) as (Hd & _ & _ & c & r & Heq & _).
    assert (is_digit c = true) as Hc by (rewrite Heq in Hd; by apply Forall_cons in Hd as [? _]).
    apply is_digit_not_sign in Hc as [Hc _]. unfold is_sign in Hc. apply orb_false_iff in Hc as [Hp Hm].
    assert (str = c :: (r ++ suf)) as Hcs by (by rewrite Hstr, Heq).
    rewrite <- Hstr. rewrite Hcs at 1. rewrite Hm, Hp. rewrite <- Hstr in HP. apply HP.
Qed.

(** What the lexer makes of a printed number. *)
Definition printed (n : Z) (suf : text) : parsed :=
  mkParsed (0 <? n) (print_Z n) (print_nonneg (Z.abs n)) [] suf.

Lemma ParseQuantity_printed n suf :
  n ≠ 0 → suffix_ok suf →
  ParseQuantity (print_Z n ++ suf) =
    match interpret (String.string_of_list_ascii suf) with
    | None => inr ErrSuffix
    | Some (base, exponent, format) =>
        match parse_fast (print_Z n ++ suf) (printed n suf) exponent format with
        | Some r => r
        | None => parse_slow (printed n suf) base exponent format
        end
    end.
Proof.
  intros Hn Hs. unfold ParseQuantity, printed. rewrite parse_lex by done.
  destruct (print_Z_head n Hn) as (c & r & Heq & Hz). rewrite Heq. simpl app.
  rewrite bool_decide_false; [done|]. intros [= -> _]. done.
Qed.

Lemma int64_signed n : in64 n → (if 0 <? n then Z.abs n else int64 (- Z.abs n)) = n.
Proof.
  intros [? ?]. destruct (Z.ltb_spec 0 n); [lia|]. rewrite Z.abs_neq, Z.opp_involutive by lia.
  by apply int64_id.
Qed.

Lemma len_printed n : 0 ≤ Z.of_nat (length (print_nonneg (Z.abs n))) ≤ Z.log2 (Z.abs n) + 1.
Proof. destruct (print_nonneg_spec (Z.abs n) ltac:(lia)) as (_ & _ & ? & _). lia. Qed.

Lemma parse_fast_decimal str n suf e fmt :
  Z.log2 (Z.abs n) < 2 ^ 29 → -9 ≤ e < 2 ^ 29 → (fmt =? BinarySI)%string = false →
  parse_fast str (printed n suf) e fmt = None ∨
  ∃ s, parse_fast str (printed n suf) e fmt = Some (inl (mkQuantity (mkAmount n e) None s fmt)).
Proof.
  intros Hlog He Hf. unfold parse_fast. rewrite !Hf. pose proof (len_printed n) as Hlen.
  unfold printed. cbn [p_num p_denom p_positive length]. unfold maxInt64Factors.
  rewrite Z.add_0_r, Z.sub_0_r, app_nil_r, (int32_id e), int32_id by lia.
  destruct (Z.leb_spec 0 (18 - Z.of_nat (length (print_nonneg (Z.abs n))))) as [Hp|]; [|by left].
  rewrite (proj2 (Z.leb_le Nano e)) by (unfold Nano; lia).
  assert (Z.abs n < 10 ^ 18) by (apply print_nonneg_length; lia).
  rewrite ParseInt_print_nonneg by (unfold max_int64; lia).
  unfold int64Multiply. rewrite !orb_true_r, Z.mul_1_r.
  assert (in64 n) by (unfold in64, min_int64, max_int64; lia).
  rewrite (int64_id (Z.abs n)) by (unfold min_int64, max_int64; lia).
  rewrite int64_signed by done. right. by eexists.
Qed.

(** Rounding to nano units leaves a number with at most nine decimals alone. *)
Lemma round_nano u s :
  - 2 ^ 30 < s ≤ 9 →
  let r := if Dec_Unscaled_nonzero (mkDec u s) then Dec_RoundUp (mkDec u s) (int32 (- Nano)) else mkDec u s in
  (dec_val r == sval u (- s))%Q ∧ dec_ok r ∧ (0 < u → 0 < unscaled r) ∧ (u = 0 → unscaled r = 0).
Proof.
  intros Hs. unfold Dec_Unscaled_nonzero. cbn [unscaled].
  destruct (Z.eqb_spec u 0) as [->|Hu]; simpl.
  { split_and!; [done|unfold dec_ok, scale_ok; simpl; lia|done|done]. }
  change (int32 (- Nano)) with 9.
  rewrite Dec_RoundUp_val by (unfold dec_ok, scale_ok; simpl; lia). cbn [unscaled dscale].
  rewrite away_sval_nonneg by lia. split_and!.
  - unfold dec_val. simpl. rewrite sval_shift by lia. by replace (- (9) + (9 - s)) with (- s) by lia.
  - unfold dec_ok, scale_ok. simpl. lia.
  - intros. simpl. assert (0 < 10 ^ (9 - s)) by (apply Z.pow_pos_nonneg; lia). nia.
  - done.
Qed.

Lemma Dec_sign_fix u s :
  let d := mkDec u s in
  let sign := Dec_Sign d in
  (if sign =? -1 then Dec_Neg d else d) = mkDec (Z.abs u) s ∧ (sign =? -1) = (u <? 0).
Proof.
  unfold Dec_Sign, Dec_Neg. simpl. destruct (Z.ltb_spec u 0).
  - rewrite Z.sgn_neg by lia. simpl. split; [f_equal; lia|done].
  - assert ((Z.sgn u =? -1) = false) as -> by (apply Z.eqb_neq; lia). split; [f_equal; lia|done].
Qed.

Lemma neg_back (r : Dec) u s :
  (dec_val r == sval (Z.abs u) s)%Q →
  (dec_val (if u <? 0 then Dec_Neg r else r) == sval u s)%Q.
Proof.
  intros H. destruct (Z.ltb_spec u 0).
  - rewrite Dec_Neg_val, H, <- sval_opp. by rewrite Z.abs_neq, Z.opp_involutive by lia.
  - by rewrite H, Z.abs_eq by lia.
Qed.

Lemma parse_slow_decimal n suf e fmt :
  -9 ≤ e < 2 ^ 29 → (fmt =? BinarySI)%string = false →
  ∃ q, parse_slow (printed n suf) 10 e fmt = inl q ∧ (q_val q == sval n e)%Q.
Proof.
  intros He Hf. unfold parse_slow, printed. cbn [p_value]. rewrite Dec_SetString_print.
  cbn [Z.eqb Pos.eqb unscaled dscale]. rewrite !(int32_id) by (rewrite ?int32_id by lia; lia).
  rewrite Z.add_0_l. destruct (Dec_sign_fix n (- e)) as [Hfix Hsg]. rewrite Hfix, Hsg, Hf.
  cbn [andb]. eexists. split; [done|]. unfold q_val. cbn [qd].
  destruct (round_nano (Z.abs n) (- e) ltac:(lia)) as (Hv & _ & _).
  rewrite Z.opp_involutive in Hv. by apply neg_back.
Qed.

Lemma parse_decimal n suf e fmt :
  n ≠ 0 → Z.log2 (Z.abs n) < 2 ^ 29 → suffix_ok suf →
  interpret (String.string_of_list_ascii suf) = Some (10, e, fmt) →
  -9 ≤ e < 2 ^ 29 → (fmt =? BinarySI)%string = false →
  ∃ q, ParseQuantity (print_Z n ++ suf) = inl q ∧ (q_val q == sval n e)%Q.
Proof.
  intros Hn Hlog Hs Hi He Hf. rewrite ParseQuantity_printed, Hi by done.
  destruct (parse_fast_decimal (print_Z n ++ suf) n suf e fmt Hlog He Hf) as [->|[s ->]].
  - by apply parse_slow_decimal.
  - by eexists.
Qed.

(** *** Binary suffixes *)

Lemma int64Multiply_exact a b :
  0 < a → 1 < b → in64 (a * b) → int64Multiply a b = (a * b, true).
Proof.
  intros Ha Hb Hin. unfold int64Multiply.
  assert (in64 a ∧ b ≤ max_int64) as [Ha' Hb'] by (unfold in64, min_int64, max_int64 in *; nia).
  assert (a ≠ mostNegative ∧ b ≠ mostNegative) as [Hna Hnb]
    by (unfold mostNegative, min_int64; lia).
  rewrite (proj2 (Z.eqb_neq a 0)), (proj2 (Z.eqb_neq b 0)), (proj2 (Z.eqb_neq b 1)) by lia.
  rewrite (proj2 (Z.eqb_neq _ _) Hna), (proj2 (Z.eqb_neq _ _) Hnb). simpl. rewrite orb_false_r.
  destruct (Z.eqb_spec a 1); [by rewrite int64_id|].
  rewrite mul_check, bool_decide_true by (done || lia). by rewrite int64_id.
Qed.

Lemma parse_slow_binary n suf k :
  n ≠ 0 → 10 ≤ k ≤ 60 → Z.abs (n * 2 ^ k) ≤ max_int64 →
  ∃ q, parse_slow (printed n suf) 2 k BinarySI = inl q ∧ (q_val q == sval (n * 2 ^ k) 0)%Q.
Proof.
  intros Hn Hk Hmax. unfold parse_slow, printed. cbn [p_value]. rewrite Dec_SetString_print.
  cbn [Z.eqb Pos.eqb unscaled dscale]. rewrite Z.shiftl_1_l. set (m := n * 2 ^ k) in *.
  assert (1 < Z.abs m) as Hm.
  { unfold m. rewrite Z.abs_mul, (Z.abs_eq (2 ^ k)) by (apply Z.pow_nonneg; lia).
    assert (2 ^ 1 < 2 ^ k) by (apply Z.pow_lt_mono_r; lia). nia. }
  destruct (Dec_sign_fix m 0) as [Hfix Hsg]. rewrite Hfix, Hsg.
  destruct (round_nano (Z.abs m) 0 ltac:(lia)) as (Hv & Hok & _). cbn zeta in Hv, Hok.
  set (r := if Dec_Unscaled_nonzero _ then _ else _) in *.
  assert ((BinarySI =? BinarySI)%string = true) as -> by done. cbn [andb].
  assert (dec_ok maxAllowed ∧ dec_ok (mkDec 1 0)) as [Hokm Hok1] by done.
  assert ((0 <? Dec_Cmp r maxAllowed) = false) as ->.
  { rewrite Dec_Cmp_val, Hv by done. unfold dec_val, maxAllowed. simpl. rewrite sval_compare.
    apply Z.ltb_ge. destruct (Z.compare_spec (Z.abs m) max_int64); simpl; lia. }
  assert ((Dec_Cmp r (mkDec 1 0) <? 0) = false) as ->.
  { rewrite Dec_Cmp_val, Hv by done. unfold dec_val. simpl. rewrite sval_compare.
    apply Z.ltb_ge. destruct (Z.compare_spec (Z.abs m) 1); simpl; lia. }
  eexists. split; [done|]. unfold q_val. cbn [qd]. by apply neg_back.
Qed.

Lemma parse_binary n suf k :
  n ≠ 0 → 10 ≤ k ≤ 60 → suffix_ok suf →
  interpret (String.string_of_list_ascii suf) = Some (2, k, BinarySI) →
  Z.abs (n * 2 ^ k) ≤ max_int64 →
  ∃ q, ParseQuantity (print_Z n ++ suf) = inl q ∧ (q_val q == sval (n * 2 ^ k) 0)%Q.
Proof.
  intros Hn Hk Hs Hi Hmax. rewrite ParseQuantity_printed, Hi by done.
  destruct (parse_slow_binary n suf k Hn Hk Hmax) as (q & Hslow & Hqv).
  assert (2 ^ 1 < 2 ^ k) as Hpow by (apply Z.pow_lt_mono_r; lia).
  assert (2 ^ k ≤ 2 ^ 60) by (apply Z.pow_le_mono_r; lia).
  assert (Z.abs n * 2 ^ k = Z.abs (n * 2 ^ k)) as Habs
    by (rewrite Z.abs_mul, (Z.abs_eq (2 ^ k)); lia).
  enough (parse_fast (print_Z n ++ suf) (printed n suf) k BinarySI = None ∨
    ∃ s, parse_fast (print_Z n ++ suf) (printed n suf) k BinarySI =
           Some (inl (mkQuantity (mkAmount (n * 2 ^ k) 0) None s BinarySI))) as [->|[s ->]];
    [by exists q|by eexists|].
  unfold parse_fast. assert ((BinarySI =? BinarySI)%string = true) as -> by done.
  unfold printed. cbn [p_num p_denom p_positive length].
  rewrite (proj2 (Z.leb_le 0 k)) by lia. change (Z.of_nat 0) with 0.
  change (true && (0 =? 0)) with true. cbv beta iota zeta.
  rewrite Z.shiftl_1_l, (int64_id (2 ^ k)), app_nil_r by (unfold min_int64, max_int64; lia).
  destruct (Z.leb_spec 0 (int32 (15 - Z.of_nat (length (print_nonneg (Z.abs n))) - Z.quot (k * 3) 10 - 1)))
    as [_|]; [|by left].
  change (Nano <=? int32 (0 - 0)) with true. cbv iota.
  rewrite ParseInt_print_nonneg by nia.
  rewrite int64Multiply_exact by (unfold in64, min_int64, max_int64 in *; lia). right. eexists.
  rewrite Habs. replace (0 <? n) with (0 <? n * 2 ^ k)
    by (destruct (Z.ltb_spec 0 n), (Z.ltb_spec 0 (n * 2 ^ k)); done || nia).
  rewrite int64_signed by (unfold in64, min_int64, max_int64 in *; lia). done.
Qed.

(** ** Canonical numbers *)

(** The loops divide out the base as often as possible. *)
Lemma removeFactors_loop_spec fuel r base t :
  0 < r < 2 ^ Z.of_nat fuel → 2 ≤ base → 0 ≤ t →
  let '(r', t') := removeFactors_loop fuel r base t in
  r = r' * base ^ (t' - t) ∧ t ≤ t' ≤ t + Z.of_nat fuel ∧ 0 < r' ≤ r ∧ (r' < base ∨ Z.rem r' base ≠ 0).
Proof.
  revert r t. induction fuel as [|fuel IH]; intros r t Hr Hb Ht; [simpl in Hr; lia|].
  cbn [removeFactors_loop].
  destruct (Z.leb_spec base r) as [Hle|Hlt], (Z.eqb_spec (Z.rem r base) 0) as [H0|H0]; simpl;
    try (split_and!; [rewrite Z.sub_diag; lia|lia|lia|lia|lia|tauto]).
  pose proof (Z.quot_rem' r base) as He. rewrite H0, Z.add_0_r in He.
  rewrite Nat2Z.inj_succ, Z.pow_succ_r in Hr by lia.
  specialize (IH (Z.quot r base) (t + 1) ltac:(nia) Hb ltac:(lia)).
  destruct (removeFactors_loop fuel (Z.quot r base) base (t + 1)) as [r' t'].
  destruct IH as (Hq & Ht' & Hr' & Hmax). split_and!; [|lia|lia|lia|nia|done].
  rewrite He at 1. rewrite Hq. replace (t' - t) with (Z.succ (t' - (t + 1))) by lia.
  rewrite Z.pow_succ_r by lia. lia.
Qed.

Lemma removeInt64Factors_spec v base :
  in64 v → v ≠ 0 → 2 ≤ base →
  let '(r, t) := removeInt64Factors v base in
  v = r * base ^ t ∧ 0 ≤ t ≤ 64 ∧ in64 r ∧ r ≠ 0.
Proof.
  intros Hv Hne Hb. unfold removeInt64Factors.
  destruct (Z.eq_dec v mostNegative) as [->|Hm].
  { change (mostNegative <? 0) with true. cbv iota. change (int64 (- mostNegative)) with mostNegative.
    cbn [removeFactors_loop]. rewrite (proj2 (Z.leb_gt base mostNegative)) by (unfold mostNegative, min_int64; lia).
    simpl. change (int64 (- mostNegative)) with mostNegative. rewrite Z.mul_1_r. split_and!; done || lia. }
  assert ((if v <? 0 then int64 (- v) else v) = Z.abs v) as ->.
  { destruct (Z.ltb_spec v 0); [|lia].
    rewrite int64_id; unfold in64, mostNegative, min_int64, max_int64 in *; lia. }
  pose proof (removeFactors_loop_spec 64 (Z.abs v) base 0) as HR.
  destruct (removeFactors_loop 64 (Z.abs v) base 0) as [r t].
  destruct HR as (Hq & Ht & Hr & _);
    [unfold in64, mostNegative, min_int64, max_int64 in *; lia|done|lia|]. rewrite Z.sub_0_r in Hq.
  destruct (Z.ltb_spec v 0).
  - rewrite int64_id; [|unfold in64, mostNegative, min_int64, max_int64 in *; lia].
    split_and!; [lia|lia|lia| |lia]. unfold in64, min_int64, max_int64 in *. lia.
  - split_and!; [lia|lia|lia| |lia]. unfold in64, min_int64, max_int64 in *. lia.
Qed.

Lemma removeBigIntFactors_loop_spec fuel d factor t :
  Z.abs d < 2 ^ Z.of_nat fuel → d ≠ 0 → 2 ≤ factor →
  let '(r, t') := removeBigIntFactors_loop fuel d factor t in
  d = r * factor ^ (t' - t) ∧ t ≤ t' ≤ t + Z.of_nat fuel ∧ r ≠ 0 ∧ Z.abs r ≤ Z.abs d ∧ r mod factor ≠ 0.
Proof.
  revert d t. induction fuel as [|fuel IH]; intros d t Hd Hne Hf; [simpl in Hd; lia|].
  cbn [removeBigIntFactors_loop]. rewrite (proj2 (Z.eqb_neq d 0)) by done.
  destruct (Z.eqb_spec (d mod factor) 0) as [H0|H0]; simpl;
    [|split_and!; [rewrite Z.sub_diag; lia|lia|lia|done|lia|done]].
  pose proof (Z.div_mod d factor ltac:(lia)) as He. rewrite H0, Z.add_0_r in He.
  rewrite Nat2Z.inj_succ, Z.pow_succ_r in Hd by lia.
  assert (Z.abs d = factor * Z.abs (d / factor)) as Ha by (rewrite He at 1; rewrite Z.abs_mul; lia).
  specialize (IH (d / factor) (t + 1) ltac:(nia) ltac:(intros Hz; rewrite Hz in He; lia) Hf).
  destruct (removeBigIntFactors_loop fuel (d / factor) factor (t + 1)) as [r t'].
  destruct IH as (Hq & Ht' & Hr & Hle & Hmax). split_and!; [|lia|lia|done|nia|done].
  rewrite He at 1. rewrite Hq. replace (t' - t) with (Z.succ (t' - (t + 1))) by lia.
  rewrite Z.pow_succ_r by lia. lia.
Qed.

Lemma removeBigIntFactors_spec d factor :
  d ≠ 0 → 2 ≤ factor →
  let '(r, t) := removeBigIntFactors d factor in
  d = r * factor ^ t ∧ 0 ≤ t ≤ Z.log2 (Z.abs d) + 1 ∧ r ≠ 0 ∧ Z.abs r ≤ Z.abs d.
Proof.
  intros Hd Hf. unfold removeBigIntFactors.
  pose proof (Z.log2_up_nonneg (Z.abs d + 1)) as Hup.
  pose proof (removeBigIntFactors_loop_spec (Z.to_nat (Z.log2_up (Z.abs d + 1))) d factor 0) as H.
  destruct (removeBigIntFactors_loop _ d factor 0) as [r t].
  rewrite Z2Nat.id in H by done. rewrite Z.sub_0_r in H. destruct H as (? & Ht & ? & ? & _); [|done|done|].
  - pose proof (Z.log2_up_spec (Z.abs d + 1) ltac:(lia)). lia.
  - split_and!; [done|lia| |done|done].
    assert (Z.log2_up (Z.abs d + 1) ≤ Z.log2 (Z.abs d) + 1); [|lia].
    apply Z.log2_up_le_pow2; [lia|]. pose proof (Z.log2_spec (Z.abs d) ltac:(lia)). lia.
Qed.

(** Quantities whose scale and length leave room for the exponent arithmetic
    in 32 bits. *)
Definition dec_small (d : Dec) : Prop :=
  - 2 ^ 27 < dscale d < 2 ^ 27 ∧ Z.log2 (Z.abs (unscaled d)) < 2 ^ 27.

Definition q_small (q : Quantity) : Prop :=
  match qd q with
  | Some d => dec_small d
  | None => in64 (value (qi q)) ∧ - 2 ^ 27 < scale (qi q) < 2 ^ 27
  end.

(** [a] and [e] are the mantissa and the exponent of the canonical text of [v]. *)
Record canonical (v : Q) (a e : Z) : Prop := {
  can_nonzero : a ≠ 0;
  can_val : (sval a e == v)%Q;
  can_aligned : Z.rem e 3 = 0;
  can_exp : - 2 ^ 29 < e < 2 ^ 29;
  can_len : Z.log2 (Z.abs a) < 2 ^ 29;
}.

Lemma align_exponent_spec fuel a e :
  (Z.abs (Z.rem e 3) < 3 → (Z.to_nat (e mod 3) < fuel)%nat) → - 2 ^ 31 + Z.of_nat fuel ≤ e < 2 ^ 31 →
  let '(a', e') := align_exponent fuel a e in
  a' = a * 10 ^ (e - e') ∧ e - e mod 3 = e' ∧ Z.rem e' 3 = 0.
Proof.
  intros Hf He. specialize (Hf ltac:(pose proof (Z.rem_bound_abs e 3); lia)).
  revert a e Hf He. induction fuel as [|fuel IH]; intros a e Hf He; [lia|]. cbn [align_exponent].
  destruct (Z.eqb_spec (Z.rem e 3) 0) as [H0|H0].
  - assert (e mod 3 = 0) as -> by (apply Z.rem_divide in H0; [by apply Z.mod_divide|lia]).
    rewrite !Z.sub_0_r, Z.sub_diag, Z.mul_1_r. done.
  - assert (e mod 3 ≠ 0) as Hm.
    { intros Hm. apply H0, Z.rem_divide; [lia|]. by apply Z.mod_divide in Hm. }
    pose proof (Z.mod_pos_bound e 3 ltac:(lia)) as Hb.
    assert ((e - 1) mod 3 = e mod 3 - 1) as Hm1.
    { symmetry. apply (Z.mod_unique _ _ (e / 3)); [lia|]. pose proof (Z.div_mod e 3). lia. }
    rewrite int32_id by lia. specialize (IH (a * 10) (e - 1) ltac:(rewrite Hm1; lia) ltac:(lia)).
    destruct (align_exponent fuel (a * 10) (e - 1)) as [a' e']. destruct IH as (-> & He' & Hr).
    split_and!; [|lia|done]. replace (e - e') with (Z.succ (e - 1 - e')) by lia.
    rewrite Z.pow_succ_r by lia. lia.
Qed.

Lemma log2_mul_small a p : 0 < p ≤ 128 → a ≠ 0 → Z.log2 (Z.abs (a * p)) ≤ Z.log2 (Z.abs a) + 8.
Proof.
  intros Hp Ha. rewrite Z.abs_mul, (Z.abs_eq p) by lia.
  etransitivity; [apply Z.log2_mul_above; lia|].
  assert (Z.log2 p ≤ 7); [|lia]. change 7 with (Z.log2 128). apply Z.log2_le_mono. lia.
Qed.

(** Dividing out tens and aligning the exponent keeps the number. *)
Lemma canonical_intro u s r t a e :
  u = r * 10 ^ t → u ≠ 0 → Z.abs r ≤ Z.abs u → 0 ≤ t → Z.log2 (Z.abs u) < 2 ^ 28 →
  - 2 ^ 28 < s + t < 2 ^ 28 → a = r * 10 ^ (s + t - e) → s + t - 2 ≤ e ≤ s + t → Z.rem e 3 = 0 →
  canonical (sval u s) a e.
Proof.
  intros Hu Hne Hle Ht Hlog Hst Ha He H3.
  assert (r ≠ 0) as Hr by (intros ->; lia).
  assert (0 < 10 ^ (s + t - e) ≤ 100) as Hp.
  { split; [apply Z.pow_pos_nonneg; lia|]. change 100 with (10 ^ 2). apply Z.pow_le_mono_r; lia. }
  split; [nia| |done|lia|].
  - rewrite Ha, Hu, !sval_shift by lia. by replace (e + (s + t - e)) with (s + t) by lia.
  - rewrite Ha. pose proof (log2_mul_small r (10 ^ (s + t - e)) ltac:(lia) Hr).
    assert (Z.log2 (Z.abs r) ≤ Z.log2 (Z.abs u)) by (apply Z.log2_le_mono; lia). lia.
Qed.

Lemma infDec_canonical d :
  dec_small d → unscaled d ≠ 0 →
  ∃ a e, infDec_AsCanonicalBytes d = (print_Z a, e) ∧ canonical (dec_val d) a e.
Proof.
  intros [Hs Hl] Hne. unfold infDec_AsCanonicalBytes.
  pose proof (removeBigIntFactors_spec (unscaled d) 10 Hne ltac:(lia)) as HR.
  destruct (removeBigIntFactors (unscaled d) 10) as [r t]. destruct HR as (Hu & Ht & Hr & Hle).
  rewrite (int32_id (- dscale d)), int32_id by lia.
  pose proof (Z.mod_pos_bound (- dscale d + t) 3 ltac:(lia)).
  pose proof (align_exponent_spec 3 r (- dscale d + t) ltac:(intros _; lia) ltac:(lia)) as HA.
  destruct (align_exponent 3 r (- dscale d + t)) as [a e]. destruct HA as (Ha & He & H3).
  exists a, e. split; [done|]. unfold dec_val. eapply (canonical_intro _ _ r t); try done; lia.
Qed.

Lemma rem3_cases e :
  let r := Z.rem e 3 in
  ((r =? 1) || (r =? -2) = true → Z.rem (e - 1) 3 = 0) ∧
  ((r =? 1) || (r =? -2) = false → (r =? 2) || (r =? -1) = true → Z.rem (e - 2) 3 = 0) ∧
  ((r =? 1) || (r =? -2) = false → (r =? 2) || (r =? -1) = false → r = 0).
Proof.
  intros r. pose proof (Z.quot_rem' e 3) as He. pose proof (Z.rem_bound_abs e 3 ltac:(lia)) as Hb.
  fold r in He, Hb. rewrite !orb_true_iff, !orb_false_iff, !Z.eqb_eq, !Z.eqb_neq.
  rewrite !Z.rem_divide by lia. split_and!; intros H.
  - destruct H; [exists (Z.quot e 3)|exists (Z.quot e 3 - 1)]; lia.
  - intros H'. destruct H'; [exists (Z.quot e 3)|exists (Z.quot e 3 - 1)]; lia.
  - lia.
Qed.

Lemma Amount_canonical v s :
  in64 v → v ≠ 0 → - 2 ^ 27 < s < 2 ^ 27 →
  ∃ a e, Amount_AsCanonicalBytes (mkAmount v s) = (print_Z a, e) ∧ canonical (sval v s) a e.
Proof.
  intros Hv Hne Hs. unfold Amount_AsCanonicalBytes. cbn [value scale].
  pose proof (removeInt64Factors_spec v 10 Hv Hne ltac:(lia)) as HR.
  destruct (removeInt64Factors v 10) as [r t]. destruct HR as (Hu & Ht & Hr & Hr0).
  assert (Z.log2 (Z.abs v) < 2 ^ 27) as Hlog.
  { assert (Z.log2 (Z.abs v) ≤ Z.log2 (2 ^ 63)) as H
      by (apply Z.log2_le_mono; unfold in64, min_int64, max_int64 in *; lia).
    rewrite Z.log2_pow2 in H; lia. }
  assert (Z.abs r ≤ Z.abs v) as Hle.
  { rewrite Hu, Z.abs_mul. assert (0 < 10 ^ t) by (apply Z.pow_pos_nonneg; lia). nia. }
  assert (∃ a e, infDec_AsCanonicalBytes (Amount_AsDec (mkAmount v s)) = (print_Z a, e) ∧
                 canonical (sval v s) a e) as Hdec.
  { destruct (infDec_canonical (Amount_AsDec (mkAmount v s))) as (a & e & ? & Hc).
    - unfold dec_small, Amount_AsDec. simpl. rewrite int32_id by lia. split; [lia|done].
    - done.
    - exists a, e. split; [done|]. unfold dec_val, Amount_AsDec in Hc. simpl in Hc.
      by rewrite int32_id, Z.opp_involutive in Hc by lia. }
  rewrite int32_id by lia. destruct (rem3_cases (s + t)) as (H1 & H2 & H3).
  destruct ((Z.rem (s + t) 3 =? 1) || (Z.rem (s + t) 3 =? -2)).
  { destruct (int64MultiplyScale10_spec r Hr) as [Hok Hbad].
    destruct (decide (in64 (r * 10))) as [Hin|Hin].
    - rewrite Hok by done. simpl. rewrite int32_id by lia. do 2 eexists. split; [done|].
      apply (canonical_intro _ _ r t); [done|done|done|lia|lia|lia| |lia|by apply H1].
      by replace (s + t - (s + t - 1)) with 1 by lia.
    - specialize (Hbad Hin). destruct (int64MultiplyScale10 r) as [? ok]. simpl in Hbad. by subst ok. }
  destruct ((Z.rem (s + t) 3 =? 2) || (Z.rem (s + t) 3 =? -1)).
  { destruct (int64MultiplyScale100_spec r Hr) as [Hok Hbad].
    destruct (decide (in64 (r * 100))) as [Hin|Hin].
    - rewrite Hok by done. simpl. rewrite int32_id by lia. do 2 eexists. split; [done|].
      apply (canonical_intro _ _ r t); [done|done|done|lia|lia|lia| |lia|by apply H2].
      by replace (s + t - (s + t - 2)) with 2 by lia.
    - specialize (Hbad Hin). destruct (int64MultiplyScale100 r) as [? ok]. simpl in Hbad. by subst ok. }
  do 2 eexists. split; [done|]. apply (canonical_intro _ _ r t); [done|done|done|lia|lia|lia| |lia|by apply H3].
  by rewrite Z.sub_diag, Z.mul_1_r.
Qed.

Lemma AsCanonicalBytes_spec q :
  q_small q → IsZero q = false →
  ∃ a e, AsCanonicalBytes q = (print_Z a, e) ∧ canonical (q_val q) a e.
Proof.
  unfold q_small, IsZero, AsCanonicalBytes, q_val, Dec_Sign.
  destruct (qd q) as [d|]; intros Hs Hz; apply Z.eqb_neq in Hz.
  - apply infDec_canonical; [done|]. intros H. by rewrite H in Hz.
  - destruct (qi q) as [v s]. destruct Hs as [Hv Hs]. by apply Amount_canonical.
Qed.

(** ** Suffixes the tables know *)

(** [suf] is read back as [base^e]. *)
Definition reads (suf : text) (base e : Z) (fmt : Format) : Prop :=
  suffix_ok suf ∧ interpret (String.string_of_list_ascii suf) = Some (base, e, fmt).

Lemma suffix_ok_check suf :
  bool_decide (scan_suffix suf = Some suf) &&
    match suf with c :: _ => negb (is_digit c) && negb (c =? ".")%char | [] => true end = true →
  suffix_ok suf.
Proof.
  rewrite andb_true_iff, bool_decide_eq_true. intros [Hs Hc]. split; [done|].
  intros c r ->. apply andb_true_iff in Hc as [?%negb_true_iff ?%negb_true_iff]. done.
Qed.

Lemma decimal_suffix e :
  -9 ≤ e ≤ 18 → Z.rem e 3 = 0 →
  ∃ suf, constructBytes 10 e DecimalSI = Some suf ∧ reads suf 10 e DecimalSI.
Proof.
  intros He H3. assert (e ∈ [-9; -6; -3; 0; 3; 6; 9; 12; 15; 18]) as Hin.
  { pose proof (Z.quot_rem' e 3). rewrite !elem_of_cons. lia. }
  clear He H3. revert e Hin. apply Forall_forall.
  repeat (apply Forall_cons; split;
    [eexists; split; [vm_compute; reflexivity|split; [by apply suffix_ok_check|done]]|]).
  apply Forall_nil_2.
Qed.

Lemma binary_suffix k :
  1 ≤ k ≤ 6 →
  ∃ suf, constructBytes 2 (k * 10) BinarySI = Some suf ∧ reads suf 2 (k * 10) BinarySI.
Proof.
  intros Hk. assert (k ∈ [1; 2; 3; 4; 5; 6]) as Hin by (rewrite !elem_of_cons; lia).
  clear Hk. revert k Hin. apply Forall_forall.
  repeat (apply Forall_cons; split;
    [eexists; split; [vm_compute; reflexivity|split; [by apply suffix_ok_check|done]]|]).
  apply Forall_nil_2.
Qed.

Lemma scan_suffix_exponent e : scan_suffix ("e"%char :: print_Z e) = Some ("e"%char :: print_Z e).
Proof.
  unfold scan_suffix.
  destruct (print_nonneg_spec (Z.abs e) ltac:(lia)) as (Hd & _ & _ & c & r & Heq & _).
  assert (∀ c, is_digit c = true → is_suffix_char c = false) as Hsuf.
  { intros c' Hc'. unfold is_suffix_char. apply not_true_is_false. intros (x & Hx & Hex)%existsb_exists.
    apply Ascii.eqb_eq in Hex as ->. unfold txt in Hx. simpl in Hx.
    repeat (destruct Hx as [<-|Hx]; [done|]). done. }
  assert (is_digit c = true) as Hc by (rewrite Heq in Hd; by apply Forall_cons in Hd as [? _]).
  unfold print_Z. destruct (Z.ltb_spec e 0).
  - rewrite Z.abs_neq in * by lia.
    pose proof (span_app is_suffix_char ["e"%char] ("-"%char :: print_nonneg (- e))) as Hsp.
    cbn [app] in Hsp. rewrite Hsp;
      [|by repeat constructor|by intros ? ? [= <- _]].
    simpl. by rewrite span_all.
  - rewrite Z.abs_eq in * by lia.
    pose proof (span_app is_suffix_char ["e"%char] (print_nonneg e)) as Hsp.
    cbn [app] in Hsp. rewrite Hsp;
      [|by repeat constructor|rewrite Heq; intros ? ? [= <- _]; by apply Hsuf].
    rewrite Heq. destruct (is_digit_not_sign c Hc) as [-> _]. rewrite <- Heq. by rewrite span_all.
Qed.

Lemma lookup_e_suffix s :
  lookup_suffix decSuffixes (String.String "e" s) = None ∧
  lookup_suffix binSuffixes (String.String "e" s) = None.
Proof.
  unfold lookup_suffix, decSuffixes, binSuffixes, addSuffixes. cbn [foldl addSuffix suffixToBE fst snd].
  split; rewrite !lookup_insert_ne by discriminate; apply lookup_empty.
Qed.

Lemma exponent_suffix e :
  - 2 ^ 29 < e < 2 ^ 29 →
  ∃ suf fmt, constructBytes 10 e DecimalExponent = Some suf ∧ reads suf 10 e fmt ∧
             (fmt =? BinarySI)%string = false.
Proof.
  intros He. unfold constructBytes. cbn [String.eqb]. simpl.
  destruct (Z.eqb_spec e 0) as [->|Hne].
  { exists [], DecimalSI. split_and!; [done|split; [by apply suffix_ok_check|done]|done]. }
  exists ("e"%char :: print_Z e), DecimalExponent. split_and!; [done| |done]. split.
  - split; [apply scan_suffix_exponent|]. by intros c r [= <- _].
  - cbn [String.string_of_list_ascii]. unfold interpret. simpl. unfold handler_interpret.
    destruct (lookup_e_suffix (String.string_of_list_ascii (print_Z e))) as [-> ->].
    unfold txt. cbn [String.list_ascii_of_string]. rewrite String.list_ascii_of_string_of_list_ascii.
    pose proof (ParseInt_print e ltac:(unfold in64, min_int64, max_int64; lia)) as HP.
    destruct (print_Z_head e Hne) as (c & r & Heq & _). rewrite Heq in HP |- *.
    change (("e" =? "E")%char || ("e" =? "e")%char) with true. cbv iota. rewrite HP.
    by rewrite int32_id by lia.
Qed.

(** ** Base 1024 *)

(** [n * 1024^k] is the integer [v]. *)
Definition is_base1024 (v : Q) (number : text) (k : Z) : Prop :=
  ∃ n, number = print_Z n ∧ n ≠ 0 ∧ 0 ≤ k < 2 ^ 28 ∧ (v == sval (n * 1024 ^ k) 0)%Q.

Lemma base1024_int64 w :
  in64 w → w ≠ 0 →
  let '(amount, k) := removeInt64Factors w 1024 in is_base1024 (sval w 0) (print_Z amount) k.
Proof.
  intros Hw Hne. pose proof (removeInt64Factors_spec w 1024 Hw Hne ltac:(lia)) as H.
  destruct (removeInt64Factors w 1024) as [r t]. destruct H as (Hu & Ht & _ & Hr).
  exists r. split_and!; [done|done|lia|lia|]. by rewrite <- Hu.
Qed.

Lemma base1024_dec w :
  w ≠ 0 → Z.log2 (Z.abs w) < 2 ^ 27 + 2 ^ 20 →
  is_base1024 (sval w 0) (infDec_AsCanonicalBase1024Bytes (mkDec w 0)).1
              (infDec_AsCanonicalBase1024Bytes (mkDec w 0)).2.
Proof.
  intros Hne Hl. unfold infDec_AsCanonicalBase1024Bytes.
  rewrite Dec_RoundUp_val by done. cbn [unscaled dscale].
  rewrite away_sval_nonneg, Z.mul_1_r by lia.
  pose proof (removeBigIntFactors_spec w 1024 Hne ltac:(lia)) as H.
  destruct (removeBigIntFactors w 1024) as [r t]. destruct H as (Hu & Ht & Hr & _).
  exists r. cbn [fst snd]. split_and!; [done|done|lia|lia|]. by rewrite <- Hu.
Qed.

Lemma sval_integer v s w : (sval v s == sval w 0)%Q → away (sval v s) = w.
Proof. intros ->. rewrite away_sval_nonneg by lia. lia. Qed.

(** An amount that is an integer. *)
Lemma AsScale0_amount v s :
  in64 v → v ≠ 0 → - 2 ^ 27 < s < 2 ^ 27 → (Qabs (sval v s) <= inject_Z max_int64)%Q →
  let '(i', exact) := Amount_AsScale (mkAmount v s) 0 in
  exact = true →
  let '(number, k) := Amount_AsCanonicalBase1024Bytes i' in is_base1024 (sval v s) number k.
Proof.
  intros Hv Hne Hs Hmax. unfold Amount_AsScale, Amount_AsCanonicalBase1024Bytes. cbn [scale value].
  destruct (Z.leb_spec 0 s) as [Hpos|Hneg].
  - intros _. unfold AsScaledInt64. cbn [scale value].
    rewrite (proj2 (Z.ltb_ge s 0)), int32_id, Z.sub_0_r by lia.
    assert ((sval v s == sval (v * 10 ^ s) 0)%Q) as Hsv by (by rewrite sval_shift, Z.add_0_l by lia).
    assert (in64 (v * 10 ^ s)) as Hin.
    { rewrite Hsv, sval_at_0 in Hmax.
      unfold Qabs, inject_Z, Qle in Hmax. simpl in Hmax. unfold in64, min_int64, max_int64 in *. lia. }
    destruct (positiveScaleInt64_spec v s Hv Hpos) as [Hok _]. rewrite Hok by done. simpl.
    assert (0 < 10 ^ s) by (apply Z.pow_pos_nonneg; lia).
    pose proof (base1024_int64 (v * 10 ^ s) Hin ltac:(nia)) as H'.
    destruct (removeInt64Factors (v * 10 ^ s) 1024) as [r t].
    destruct H' as (n & ? & ? & ? & ?). exists n. by rewrite Hsv.
  - rewrite int32_id, Z.sub_0_l, negativeScaleInt64_spec by (done || lia).
    rewrite Z.opp_involutive. intros Hex%Z.eqb_eq.
    apply Z.rem_divide in Hex as [w Hw]; [|apply Z.pow_nonzero; lia].
    assert ((sval v s == sval w 0)%Q) as Hsv.
    { rewrite Hw, sval_shift by lia. by replace (s + - s) with 0 by lia. }
    rewrite (sval_integer v s w Hsv). unfold AsScaledInt64. cbn [scale value].
    simpl. change (int32 0) with 0. unfold positiveScaleInt64. simpl.
    assert (0 < 10 ^ (- s)) by (apply Z.pow_pos_nonneg; lia).
    assert (in64 w ∧ w ≠ 0) as [Hin Hw0]
      by (split; [unfold in64, min_int64, max_int64 in *; nia|intros ->; lia]).
    pose proof (base1024_int64 w Hin Hw0) as H'.
    destruct (removeInt64Factors w 1024) as [r t].
    destruct H' as (n & ? & ? & ? & ?). exists n. by rewrite Hsv.
Qed.

Lemma AsScale0_dec d :
  dec_small d → unscaled d ≠ 0 → (Qabs (dec_val d) <= inject_Z max_int64)%Q →
  let '(d', exact) := infDec_AsScale d 0 in
  exact = true →
  is_base1024 (dec_val d) (infDec_AsCanonicalBase1024Bytes d').1 (infDec_AsCanonicalBase1024Bytes d').2.
Proof.
  intros [Hs Hl] Hne Hmax. unfold infDec_AsScale. change (int32 (- 0)) with 0.
  assert (dec_ok d) as Hok by (unfold dec_ok, scale_ok; lia).
  rewrite Dec_RoundUp_val by done. rewrite Z.sub_0_l. set (w := away _).
  rewrite Dec_Cmp_val, Z.eqb_eq by done. intros Hcmp.
  assert ((dec_val d == sval w 0)%Q) as Hv.
  { symmetry. apply Qeq_alt. change (sval w 0) with (dec_val (mkDec w 0)).
    destruct (dec_val (mkDec w 0) ?= dec_val d)%Q; done. }
  assert (w ≠ 0) as Hw0.
  { intros Hw. rewrite Hw, sval_0 in Hv. unfold dec_val in Hv.
    rewrite <- (sval_0 (- dscale d)), Qeq_alt, sval_compare in Hv. by apply Z.compare_eq in Hv. }
  rewrite Hv, sval_at_0 in Hmax.
  unfold Qabs, inject_Z, Qle in Hmax. simpl in Hmax.
  destruct (base1024_dec w Hw0) as (n & ? & ? & ? & ?).
  - assert (Z.log2 (Z.abs w) ≤ Z.log2 (2 ^ 63)) as H
      by (apply Z.log2_le_mono; unfold max_int64 in *; lia). rewrite Z.log2_pow2 in H; lia.
  - exists n. by rewrite Hv.
Qed.

(** ** Properties *)

(** The canonical text of [q] has a suffix: at least nano units, at most the
    exa suffix for the decimal format, and within the cap of the binary one. *)
Definition text_ok (q : Quantity) : Prop :=
  IsZero q = true ∨
  (-9 ≤ snd (AsCanonicalBytes q) ∧
   (qFormat q = DecimalSI → snd (AsCanonicalBytes q) ≤ 18) ∧
   (qFormat q = BinarySI → (Qabs (q_val q) <= inject_Z max_int64)%Q)).

Lemma decimal_roundtrip q fmt :
  q_small q → IsZero q = false → -9 ≤ snd (AsCanonicalBytes q) →
  (fmt = DecimalSI ∧ snd (AsCanonicalBytes q) ≤ 18 ∨ fmt = DecimalExponent) →
  ∃ q', ParseQuantity ((AsCanonicalBytes q).1 ++
          default [] (constructBytes 10 (AsCanonicalBytes q).2 fmt)) = inl q' ∧
        (q_val q' == q_val q)%Q.
Proof.
  intros Hs Hz. destruct (AsCanonicalBytes_spec q Hs Hz) as (a & e & -> & [Ha Hv H3 He Hl]).
  cbn [fst snd]. setoid_rewrite <- Hv. intros Hlo [[-> Hhi]| ->].
  - destruct (decimal_suffix e ltac:(lia) H3) as (suf & -> & Hok & Hi). simpl.
    apply (parse_decimal a suf e DecimalSI); [done|done|done|done|lia|done].
  - destruct (exponent_suffix e He) as (suf & fmt & -> & [Hok Hi] & Hf). simpl.
    apply (parse_decimal a suf e fmt); [done|done|done|done|lia|done].
Qed.

(** A number within 64 bits has a suffix of at most exa. *)
Lemma canonical_bounded q :
  q_small q → IsZero q = false → (Qabs (q_val q) <= inject_Z max_int64)%Q →
  snd (AsCanonicalBytes q) ≤ 18.
Proof.
  intros Hs Hz Hmax. destruct (AsCanonicalBytes_spec q Hs Hz) as (a & e & -> & [Ha Hv H3 He _]).
  cbn [snd]. apply Z.nlt_ge. intros Hlt. rewrite <- Hv in Hmax.
  rewrite (sval_rebase a e 0), sval_at_0, Z.sub_0_r in Hmax by lia.
  unfold Qabs, inject_Z, Qle in Hmax. simpl in Hmax.
  assert (10 ^ 19 ≤ 10 ^ e) by (apply Z.pow_le_mono_r; lia).
  unfold max_int64 in Hmax. rewrite !Z.mul_1_r, Z.abs_mul in Hmax. nia.
Qed.

Lemma binary_roundtrip q :
  q_small q → q_ok q → IsZero q = false → (Qabs (q_val q) <= inject_Z max_int64)%Q →
  let '(number, k, exact) := AsScale0_base1024 q in
  exact = true →
  ∃ q', ParseQuantity (number ++ default [] (constructBytes 2 (int32 (k * 10)) BinarySI)) = inl q' ∧
        (q_val q' == q_val q)%Q.
Proof.
  intros Hs Hok Hz Hmax. destruct (AsScale0_base1024 q) as [[number k] exact] eqn:HA. intros ->.
  assert (is_base1024 (q_val q) number k) as (n & -> & Hn & Hk & Hv).
  { unfold AsScale0_base1024 in HA. unfold q_small, IsZero, Dec_Sign, q_val in *.
    destruct (qd q) as [d|].
    - pose proof (AsScale0_dec d Hs) as HD. destruct (infDec_AsScale d 0) as [d' ex].
      destruct (infDec_AsCanonicalBase1024Bytes d') as [nu k']. simplify_eq.
      apply HD; [|done|done]. intros H. by rewrite H in Hz.
    - destruct (qi q) as [v s]. destruct Hs as [Hv Hs]. apply Z.eqb_neq in Hz.
      pose proof (AsScale0_amount v s Hv Hz Hs Hmax) as HD.
      destruct (Amount_AsScale (mkAmount v s) 0) as [i' ex].
      destruct (Amount_AsCanonicalBase1024Bytes i') as [nu k']. simplify_eq. by apply HD. }
  setoid_rewrite Hv. rewrite Hv, sval_at_0 in Hmax. unfold Qabs, inject_Z, Qle in Hmax.
  simpl in Hmax. rewrite !Z.mul_1_r in Hmax. clear HA.
  assert (1024 ^ k = 2 ^ (k * 10)) as Hpow by (rewrite Z.mul_comm, Z.pow_mul_r by lia; done).
  rewrite Hpow in *. assert (k ≤ 6) as Hk6.
  { apply Z.nlt_ge. intros Hlt. assert (2 ^ 70 ≤ 2 ^ (k * 10)) by (apply Z.pow_le_mono_r; lia).
    unfold max_int64 in Hmax. rewrite Z.abs_mul in Hmax. nia. }
  rewrite int32_id by lia. destruct (Z.eq_dec k 0) as [->|Hk0].
  - change (constructBytes 2 (0 * 10) BinarySI) with (@None text). simpl. rewrite Z.mul_1_r in *.
    apply (parse_decimal n [] 0 DecimalSI); [done| |by apply suffix_ok_check|done|lia|done].
    assert (Z.log2 (Z.abs n) ≤ Z.log2 (2 ^ 63)) as H
      by (apply Z.log2_le_mono; unfold max_int64 in *; lia). rewrite Z.log2_pow2 in H; lia.
  - destruct (binary_suffix k ltac:(lia)) as (suf & -> & Hsuf & Hi). simpl.
    apply parse_binary; [done|lia|done|done|done].
Qed.

(** C32. Text round trip: parsing the canonical text of a quantity gives a
    quantity of the same value, in all three formats and both
    representations, when the suffix tables reach its magnitude. *)
Theorem quantity_text_roundtrip q :
  q_ok q → q_small q → qs q = "" → text_ok q →
  ∃ q', ParseQuantity (String_ q) = inl q' ∧ (q_val q' == q_val q)%Q.
Proof.
  intros Hok Hs Hqs Ht. unfold String_. rewrite Hqs. simpl. unfold CanonicalizeBytes.
  destruct (IsZero q) eqn:Hz.
  { simpl. eexists. split; [done|]. unfold IsZero, Dec_Sign in Hz. unfold q_val at 1. simpl.
    unfold amount_val, q_val. simpl. rewrite sval_0. destruct (qd q) as [d|]; apply Z.eqb_eq in Hz.
    - unfold dec_val. apply (proj1 (Z.sgn_null_iff _)) in Hz. by rewrite Hz, sval_0.
    - unfold amount_val. by rewrite Hz, sval_0. }
  destruct Ht as [?|(Hlo & Hdec & Hbin)]; [congruence|].
  pose proof (λ fmt H, decimal_roundtrip q fmt Hs Hz Hlo H) as HD.
  destruct (AsCanonicalBytes q) as [number e] eqn:HC. cbn [fst snd] in *.
  destruct (String.eqb_spec (qFormat q) DecimalExponent) as [->|Hne1]; [apply HD; auto|].
  destruct (String.eqb_spec (qFormat q) DecimalSI) as [Hf|Hne2]; [rewrite Hf; apply HD; auto|]. simpl.
  destruct (String.eqb_spec (qFormat q) BinarySI) as [Hb|Hne3]; [|apply HD; auto].
  specialize (Hbin Hb). pose proof (canonical_bounded q Hs Hz Hbin) as Hhi. rewrite HC in Hhi.
  destruct ((0 <? CmpInt64 q (-1024)) && (CmpInt64 q 1024 <? 0)); [apply HD; auto|].
  pose proof (binary_roundtrip q Hs Hok Hz Hbin) as HB.
  destruct (AsScale0_base1024 q) as [[nu k] exact]. destruct exact; [by apply HB|apply HD; auto].
Qed.

(** Beyond the exa suffix the canonical text loses its magnitude: [1000E]
    is accepted, stands for [10^21], and is written back as [1]. *)
Theorem quantity_suffix_lost :
  ∃ q, ParseQuantity (txt "1000E") = inl q ∧ (q_val q == inject_Z (10 ^ 21))%Q ∧
       String_ q = txt "1" ∧
       ∃ q', ParseQuantity (String_ q) = inl q' ∧ (q_val q' == 1)%Q.
Proof.
  eexists. split; [vm_compute; reflexivity|].
  split; [by vm_compute|]. split; [vm_compute; reflexivity|].
  eexists. split; [vm_compute; reflexivity|]. by vm_compute.
Qed.

(** Texts that do not match the grammar of quantities are accepted: a bare
    sign, point or suffix is zero, and an exponent beyond 32 bits is taken
    modulo [2^32]. *)
Theorem quantity_parse_lenient :
  Forall (λ s, ∃ q, ParseQuantity (txt s) = inl q ∧ IsZero q = true)
    ["+"; "-"; "."; "m"; "Ki"; "-.Ki"; "e3"] ∧
  (∃ q, ParseQuantity (txt "1e4294967296") = inl q ∧ (q_val q == 1)%Q).
Proof.
  split.
  - repeat (apply Forall_cons; split; [eexists; split; [vm_compute; reflexivity|done]|]).
    apply Forall_nil_2.
  - eexists. split; [vm_compute; reflexivity|]. by vm_compute.
Qed.

Lemma quantity_text_roundtrip_witness :
  let q := mkQuantity (mkAmount 1536 6) None "" BinarySI in
  String_ q = txt "1500000Ki" ∧
  ∃ q', ParseQuantity (String_ q) = inl q' ∧ (q_val q' == q_val q)%Q.
Proof.
  intros q. split; [vm_compute; reflexivity|].
  apply (quantity_text_roundtrip q).
  - split; [done|]. unfold scale_ok. simpl. lia.
  - split; [done|]. simpl. lia.
  - reflexivity.
  - right. split_and!; [vm_compute; discriminate|intros H; vm_compute in H; discriminate|].
    intros _. by vm_compute.
Defined.
