(* ===== verification/Labels.v ===== *)
(** * Label selectors: [apimachinery/pkg/labels] and [meta/v1/helpers.go]

    Requirements and their matching, the printer, the lexer and the
    recursive-descent parser of [selector.go], the validation of keys and
    values it relies on, and the conversion of the API's [LabelSelector].  The
    parser is a state monad over the scanned items; reading an item beyond the
    end is an index out of range. *)

From S2P Require Import Prelude Strconv.

(** ** [util/validation/validation.go] *)

Definition char_code (c : ascii) : Z := Z.of_N (N_of_ascii c).

Definition is_lower (c : ascii) : bool := (97 <=? char_code c)%Z && (char_code c <=? 122)%Z.
Definition is_upper (c : ascii) : bool := (65 <=? char_code c)%Z && (char_code c <=? 90)%Z.

(** [[A-Za-z0-9]] and [[-A-Za-z0-9_.]] *)
Definition qnameChar (c : ascii) : bool := is_lower c || is_upper c || is_digit c.
Definition qnameExtChar (c : ascii) : bool :=
  qnameChar c || (c =? "-")%char || (c =? "_")%char || (c =? ".")%char.

(** One or more [ext] characters of which the first and the last are [char]. *)
Definition bracketed (char ext : ascii → bool) (l : text) : bool :=
  match l, last l with
  | c :: _, Some d => char c && char d && forallb ext l
  | _, _ => false
  end.

Definition qualifiedNameRegexp (l : text) : bool := bracketed qnameChar qnameExtChar l.

Definition dnsChar (c : ascii) : bool := is_lower c || is_digit c.
Definition dnsExtChar (c : ascii) : bool := dnsChar c || (c =? "-")%char.

(** [strings.Split] by one character. *)
Fixpoint split_on (sep : ascii) (l : text) : list text :=
  match l with
  | [] => [[]]
  | c :: l =>
      if (c =? sep)%char then [] :: split_on sep l
      else match split_on sep l with
           | p :: ps => (c :: p) :: ps
           | [] => [[c]]
           end
  end.

Definition IsDNS1123Subdomain (v : text) : bool :=
  (length v <=? 253)%nat && forallb (bracketed dnsChar dnsExtChar) (split_on "." v).

Definition qualifiedNameMaxLength : nat := 63.

(** [true] when the list of errors is empty. *)
Definition IsQualifiedName (v : text) : bool :=
  let name_ok name :=
    negb (length name =? 0)%nat && (length name <=? qualifiedNameMaxLength)%nat &&
    qualifiedNameRegexp name in
  match split_on "/" v with
  | [name] => name_ok name
  | [prefix; name] => negb (length prefix =? 0)%nat && IsDNS1123Subdomain prefix && name_ok name
  | _ => false
  end.

Definition labelValueMaxLength : nat := 63.

Definition IsValidLabelValue (v : text) : bool :=
  (length v <=? labelValueMaxLength)%nat &&
  match v with [] => true | _ => qualifiedNameRegexp v end.

Definition validateLabelKey (k : string) : bool := IsQualifiedName (txt k).
Definition validateLabelValue (v : string) : bool := IsValidLabelValue (txt v).

(** ** Requirements *)

(** [selection.Operator], a string; [OpOther] is any other one. *)
Inductive Operator :=
| DoesNotExist | Equals | DoubleEquals | In | NotEquals | NotIn | Exists | GreaterThan | LessThan
| OpOther (s : string).

#[export] Instance Operator_eq_dec : EqDecision Operator.
Proof. solve_decision. Defined.

Record Requirement := mkReq { key : string; operator : Operator; strValues : list string }.

(** [labels.Set] *)
Definition Labels := gmap string string.

Definition Has (ls : Labels) (k : string) : bool := bool_decide (is_Some (ls !! k)).
Definition Get (ls : Labels) (k : string) : string := default "" (ls !! k).

(** [None] for a non-empty list of errors. *)
Definition NewRequirement (k : string) (op : Operator) (vals : list string) : option Requirement :=
  let op_ok :=
    match op with
    | In | NotIn => negb (length vals =? 0)%nat
    | Equals | DoubleEquals | NotEquals => (length vals =? 1)%nat
    | Exists | DoesNotExist => (length vals =? 0)%nat
    | GreaterThan | LessThan =>
        (length vals =? 1)%nat && forallb (λ v, bool_decide (is_Some (ParseInt (txt v)))) vals
    | OpOther _ => false
    end in
  if validateLabelKey k && op_ok && forallb validateLabelValue vals
  then Some (mkReq k op vals) else None.

Definition hasValue (r : Requirement) (v : string) : bool :=
  existsb (λ s, (s =? v)%string) (strValues r).

Definition Req_Matches (r : Requirement) (ls : Labels) : bool :=
  match operator r with
  | In | Equals | DoubleEquals => if negb (Has ls (key r)) then false else hasValue r (Get ls (key r))
  | NotIn | NotEquals => if negb (Has ls (key r)) then true else negb (hasValue r (Get ls (key r)))
  | Exists => Has ls (key r)
  | DoesNotExist => negb (Has ls (key r))
  | GreaterThan | LessThan =>
      if negb (Has ls (key r)) then false
      else
        match ParseInt (txt (Get ls (key r))) with
        | None => false
        | Some lsValue =>
            match strValues r with
            | [v] =>
                match ParseInt (txt v) with
                | None => false
                | Some rValue =>
                    (bool_decide (operator r = GreaterThan) && (rValue <? lsValue)%Z) ||
                    (bool_decide (operator r = LessThan) && (lsValue <? rValue)%Z)
                end
            | _ => false
            end
        end
  | OpOther _ => false
  end.

(** *** Sorting strings *)

(** Go compares strings byte by byte. *)
Definition string_le (a b : string) : Prop := String.leb a b = true.

#[export] Instance string_le_dec : RelDecision string_le.
Proof. intros a b. unfold string_le. apply _. Defined.

#[export] Instance string_le_total : Total string_le.
Proof. intros a b. unfold string_le. apply String.leb_total. Qed.

(** [sort.Strings], [sets.String.List] *)
Definition sort_strings (l : list string) : list string := merge_sort string_le l.

Definition safeSort (l : list string) : list string := sort_strings l.

(** *** Printing *)

Fixpoint join (sep : text) (l : list text) : text :=
  match l with
  | [] => []
  | [x] => x
  | x :: l => x ++ sep ++ join sep l
  end.

Definition op_text (op : Operator) : text :=
  match op with
  | Equals => txt "="
  | DoubleEquals => txt "=="
  | NotEquals => txt "!="
  | In => txt " in "
  | NotIn => txt " notin "
  | GreaterThan => txt ">"
  | LessThan => txt "<"
  | _ => []
  end.

Definition Req_String (r : Requirement) : text :=
  let is_set := match operator r with In | NotIn => true | _ => false end in
  let head := (match operator r with DoesNotExist => txt "!" | _ => [] end) ++ txt (key r) in
  match operator r with
  | Exists | DoesNotExist => head
  | op =>
      head ++ op_text op ++ (if is_set then txt "(" else []) ++
      match strValues r with
      | [v] => txt v
      | vs => join (txt ",") (txt <$> safeSort vs)
      end ++ (if is_set then txt ")" else [])
  end.

(** *** Selectors *)

Inductive Selector :=
| internalSelector (l : list Requirement)
| nothingSelector.

Definition Everything : Selector := internalSelector [].
Definition Nothing : Selector := nothingSelector.
Definition NewSelector : Selector := internalSelector [].

(** [sort.Sort(ByKey(l))]; for requirements with the same key, whose order
    [sort.Sort] leaves open, a stable sort. *)
Definition ByKey_le (a b : Requirement) : Prop := string_le (key a) (key b).

#[export] Instance ByKey_le_dec : RelDecision ByKey_le.
Proof. intros a b. unfold ByKey_le. apply _. Defined.

Definition sort_ByKey (l : list Requirement) : list Requirement := merge_sort ByKey_le l.

Definition Add (s : Selector) (reqs : list Requirement) : Selector :=
  match s with
  | internalSelector l => internalSelector (sort_ByKey (l ++ reqs))
  | nothingSelector => nothingSelector
  end.

Definition Matches (s : Selector) (ls : Labels) : bool :=
  match s with
  | internalSelector l => forallb (λ r, Req_Matches r ls) l
  | nothingSelector => false
  end.

Definition Empty (s : Selector) : bool :=
  match s with internalSelector l => (length l =? 0)%nat | nothingSelector => false end.

Definition Sel_String (s : Selector) : text :=
  match s with
  | internalSelector l => join (txt ",") (Req_String <$> l)
  | nothingSelector => []
  end.

(** The value and whether one is required. *)
Fixpoint RequiresExactMatch (l : list Requirement) (label : string) : option string :=
  match l with
  | [] => None
  | r :: l =>
      if (key r =? label)%string then
        match operator r, strValues r with
        | (Equals | DoubleEquals | In), [v] => Some v
        | _, _ => None
        end
      else RequiresExactMatch l label
  end.

Definition SelectorFromValidatedSet (ls : Labels) : Selector :=
  internalSelector (sort_ByKey ((λ kv, mkReq kv.1 Equals [kv.2]) <$> map_to_list ls)).

(** ** The lexer *)

Inductive Token :=
| ErrorToken | EndOfStringToken | ClosedParToken | CommaToken | DoesNotExistToken
| DoubleEqualsToken | EqualsToken | GreaterThanToken | IdentifierToken | InToken
| LessThanToken | NotEqualsToken | NotInToken | OpenParToken.

#[export] Instance Token_eq_dec : EqDecision Token.
Proof. solve_decision. Defined.

Definition string2token_table : list (text * Token) :=
  [(txt ")", ClosedParToken); (txt ",", CommaToken); (txt "!", DoesNotExistToken);
   (txt "==", DoubleEqualsToken); (txt "=", EqualsToken); (txt ">", GreaterThanToken);
   (txt "in", InToken); (txt "<", LessThanToken); (txt "!=", NotEqualsToken);
   (txt "notin", NotInToken); (txt "(", OpenParToken)].

Definition string2token (s : text) : option Token :=
  snd <$> find (λ p, bool_decide (p.1 = s)) string2token_table.

Record ScannedItem := mkItem { tok : Token; literal : text }.

Definition isWhitespace (ch : ascii) : bool :=
  (ch =? " ")%char || (ch =? "009")%char || (ch =? "013")%char || (ch =? "010")%char.

Definition isSpecialSymbol (ch : ascii) : bool :=
  existsb (Ascii.eqb ch) ["="; "!"; "("; ")"; ","; ">"; "<"]%char.

(** The lexer's state is the text from its position on; [read] returns a zero
    byte at the end, so a zero byte in the text looks like the end. *)
Definition is_nul (ch : ascii) : bool := (ch =? "000")%char.

Fixpoint scanIDOrKeyword_loop (l buffer : text) : text * text :=
  match l with
  | [] => (buffer, [])
  | ch :: r =>
      if is_nul ch then (buffer, r)
      else if isSpecialSymbol ch || isWhitespace ch then (buffer, l)
      else scanIDOrKeyword_loop r (buffer ++ [ch])
  end.

Definition scanIDOrKeyword (l : text) : ScannedItem * text :=
  let '(s, r) := scanIDOrKeyword_loop l [] in
  match string2token s with
  | Some val => (mkItem val s, r)
  | None => (mkItem IdentifierToken s, r)
  end.

Fixpoint scanSpecialSymbol_loop (l buffer : text) (lastScannedItem : option ScannedItem)
    : option ScannedItem * text :=
  match l with
  | [] => (lastScannedItem, [])
  | ch :: r =>
      if is_nul ch then (lastScannedItem, r)
      else if isSpecialSymbol ch then
        let buffer := buffer ++ [ch] in
        match string2token buffer with
        | Some token => scanSpecialSymbol_loop r buffer (Some (mkItem token buffer))
        | None =>
            match lastScannedItem with
            | Some _ => (lastScannedItem, l)
            | None => scanSpecialSymbol_loop r buffer lastScannedItem
            end
        end
      else (lastScannedItem, l)
  end.

Definition scanSpecialSymbol (l : text) : ScannedItem * text :=
  match scanSpecialSymbol_loop l [] None with
  | (None, r) => (mkItem ErrorToken [], r)
  | (Some it, r) => (it, r)
  end.

Fixpoint skipWhiteSpaces (l : text) : text :=
  match l with
  | ch :: r => if isWhitespace ch then skipWhiteSpaces r else l
  | [] => []
  end.

Definition Lex (l : text) : ScannedItem * text :=
  match skipWhiteSpaces l with
  | [] => (mkItem EndOfStringToken [], [])
  | ch :: r =>
      if is_nul ch then (mkItem EndOfStringToken [], r)
      else if isSpecialSymbol ch then scanSpecialSymbol (ch :: r)
      else scanIDOrKeyword (ch :: r)
  end.

(** Each item takes at least one byte, so the length bounds the loop. *)
Fixpoint scan_loop (fuel : nat) (l : text) : list ScannedItem :=
  match fuel with
  | O => []
  | S fuel =>
      let '(it, r) := Lex l in
      if decide (tok it = EndOfStringToken) then [it] else it :: scan_loop fuel r
  end.

Definition scan (l : text) : list ScannedItem := scan_loop (S (length l)) l.

(** ** The parser *)

Inductive result (A : Type) := Ok (a : A) | Err | OutOfRange | OutOfFuel.
Arguments Ok {A} a.
Arguments Err {A}.
Arguments OutOfRange {A}.
Arguments OutOfFuel {A}.

(** The state is [scannedItems[position:]]. *)
Definition Parser (A : Type) := list ScannedItem → result (A * list ScannedItem).

#[export] Instance Parser_ret : MRet Parser := λ A a ts, Ok (a, ts).

#[export] Instance Parser_bind : MBind Parser := λ A B f m ts,
  match m ts with
  | Ok (a, ts') => f a ts'
  | Err => Err
  | OutOfRange => OutOfRange
  | OutOfFuel => OutOfFuel
  end.

Definition fail {A} : Parser A := λ _, Err.

Inductive ParserContext := KeyAndOperator | Values.

Definition in_context (context : ParserContext) (t : Token) : Token :=
  match context, t with
  | Values, (InToken | NotInToken) => IdentifierToken
  | _, _ => t
  end.

Definition lookahead (context : ParserContext) : Parser (Token * text) := λ ts,
  match ts with
  | [] => OutOfRange
  | it :: _ => Ok ((in_context context (tok it), literal it), ts)
  end.

Definition consume (context : ParserContext) : Parser (Token * text) := λ ts,
  match ts with
  | [] => OutOfRange
  | it :: ts => Ok ((in_context context (tok it), literal it), ts)
  end.

Definition of_text (l : text) : string := String.string_of_list_ascii l.

Definition parseKeyAndInferOperator : Parser (string * option Operator) :=
  '(tok, lit) ← consume Values;
  '(operator, tok, lit) ←
    (if decide (tok = DoesNotExistToken)
     then '(tok, lit) ← consume Values; mret (Some DoesNotExist, tok, lit)
     else mret (None, tok, lit));
  if decide (tok ≠ IdentifierToken) then fail
  else if negb (validateLabelKey (of_text lit)) then fail
  else
    '(t, _) ← lookahead Values;
    let operator :=
      if decide (t = EndOfStringToken ∨ t = CommaToken) then
        if decide (operator ≠ Some DoesNotExist) then Some Exists else operator
      else operator in
    mret (of_text lit, operator).

Definition parseOperator : Parser Operator :=
  '(tok, _) ← consume KeyAndOperator;
  match tok with
  | InToken => mret In
  | EqualsToken => mret Equals
  | DoubleEqualsToken => mret DoubleEquals
  | GreaterThanToken => mret GreaterThan
  | LessThanToken => mret LessThan
  | NotInToken => mret NotIn
  | NotEqualsToken => mret NotEquals
  | _ => fail
  end.

Fixpoint parseIdentifiersList (s : gset string) (ts : list ScannedItem)
    : result (gset string * list ScannedItem) :=
  match ts with
  | [] => OutOfRange
  | it :: ts =>
      match in_context Values (tok it) with
      | IdentifierToken =>
          let s := {[of_text (literal it)]} ∪ s in
          match ts with
          | [] => OutOfRange
          | it2 :: _ =>
              match in_context Values (tok it2) with
              | CommaToken => parseIdentifiersList s ts
              | ClosedParToken => Ok (s, ts)
              | _ => Err
              end
          end
      | CommaToken =>
          let s := if decide (s = ∅) then {[""]} else s in
          match ts with
          | [] => OutOfRange
          | it2 :: ts2 =>
              match in_context Values (tok it2) with
              | ClosedParToken => Ok ({[""]} ∪ s, ts)
              | CommaToken => parseIdentifiersList ({[""]} ∪ s) ts2
              | _ => parseIdentifiersList s ts
              end
          end
      | _ => Err
      end
  end.

Definition parseValues : Parser (gset string) :=
  '(tok, _) ← consume Values;
  if decide (tok ≠ OpenParToken) then fail
  else
    '(tok, _) ← lookahead Values;
    match tok with
    | IdentifierToken | CommaToken =>
        s ← parseIdentifiersList ∅;
        '(tok, _) ← consume Values;
        if decide (tok ≠ ClosedParToken) then fail else mret s
    | ClosedParToken => _ ← consume Values; mret {[""]}
    | _ => fail
    end.

Definition parseExactValue : Parser (gset string) :=
  '(tok, _) ← lookahead Values;
  if decide (tok = EndOfStringToken ∨ tok = CommaToken) then mret {[""]}
  else
    '(tok, lit) ← consume Values;
    if decide (tok = IdentifierToken) then mret {[of_text lit]} else fail.

Definition of_option {A} (o : option A) : Parser A :=
  match o with Some a => mret a | None => fail end.

Definition parseRequirement : Parser Requirement :=
  '(key, operator) ← parseKeyAndInferOperator;
  match operator with
  | Some op => of_option (NewRequirement key op [])
  | None =>
      operator ← parseOperator;
      values ← (match operator with In | NotIn => parseValues | _ => parseExactValue end);
      of_option (NewRequirement key operator (sort_strings (elements values)))
  end.

(** Each round consumes the items of a requirement. *)
Fixpoint parse_loop (fuel : nat) (requirements : list Requirement) : Parser (list Requirement) :=
  match fuel with
  | O => λ _, OutOfFuel
  | S fuel =>
      '(tok, _) ← lookahead Values;
      match tok with
      | IdentifierToken | DoesNotExistToken =>
          r ← parseRequirement;
          let requirements := requirements ++ [r] in
          '(t, _) ← consume Values;
          match t with
          | EndOfStringToken => mret requirements
          | CommaToken =>
              '(t2, _) ← lookahead Values;
              if decide (t2 ≠ IdentifierToken ∧ t2 ≠ DoesNotExistToken) then fail
              else parse_loop fuel requirements
          | _ => fail
          end
      | EndOfStringToken => mret requirements
      | _ => fail
      end
  end.

Definition parse (selector : text) : result (list Requirement) :=
  let items := scan selector in
  match parse_loop (length items) [] items with
  | Ok (reqs, _) => Ok (sort_ByKey reqs)
  | Err => Err
  | OutOfRange => OutOfRange
  | OutOfFuel => OutOfFuel
  end.

Definition Parse (selector : text) : result Selector :=
  match parse selector with
  | Ok reqs => Ok (internalSelector reqs)
  | Err => Err
  | OutOfRange => OutOfRange
  | OutOfFuel => OutOfFuel
  end.

(** ** The API's selectors: [meta/v1/helpers.go] *)

Inductive LabelSelectorOperator :=
| LabelSelectorOpIn | LabelSelectorOpNotIn | LabelSelectorOpExists | LabelSelectorOpDoesNotExist
| LabelSelectorOpOther (s : string).

Record LabelSelectorRequirement := mkLSReq {
  ls_Key : string; ls_Operator : LabelSelectorOperator; ls_Values : list string;
}.

Record LabelSelector := mkLabelSelector {
  MatchLabels : gmap string string; MatchExpressions : list LabelSelectorRequirement;
}.

Definition convert_op (op : LabelSelectorOperator) : option Operator :=
  match op with
  | LabelSelectorOpIn => Some In
  | LabelSelectorOpNotIn => Some NotIn
  | LabelSelectorOpExists => Some Exists
  | LabelSelectorOpDoesNotExist => Some DoesNotExist
  | LabelSelectorOpOther _ => None
  end.

(** Adding a requirement, or stopping at the error of [NewRequirement]. *)
Definition add_requirement (sel : option Selector) (r : option Requirement) : option Selector :=
  match sel, r with Some s, Some r => Some (Add s [r]) | _, _ => None end.

(** [None] for an error. *)
Definition LabelSelectorAsSelector (ps : option LabelSelector) : option Selector :=
  match ps with
  | None => Some Nothing
  | Some ps =>
      if (size (MatchLabels ps) + length (MatchExpressions ps) =? 0)%nat then Some Everything
      else
        let selector :=
          foldl (λ sel kv, add_requirement sel (NewRequirement kv.1 Equals [kv.2]))
            (Some NewSelector) (map_to_list (MatchLabels ps)) in
        foldl (λ sel expr,
          add_requirement sel
            (match convert_op (ls_Operator expr) with
             | Some op => NewRequirement (ls_Key expr) op (ls_Values expr)
             | None => None
             end)) selector (MatchExpressions ps)
  end.

(** ** The parser stays inside the scanned items *)

(** A list of items that ends with its only end-of-string item. *)
Definition good (ts : list ScannedItem) : Prop :=
  ∃ l it, ts = l ++ [it] ∧ tok it = EndOfStringToken ∧
          Forall (λ it, tok it ≠ EndOfStringToken) l.

Lemma skipWhiteSpaces_length l : (length (skipWhiteSpaces l) ≤ length l)%nat.
Proof. induction l as [|ch l IH]; simpl; [done|]. case_match; simpl; lia. Qed.

Lemma scanID_loop_length l b : (length (scanIDOrKeyword_loop l b).2 ≤ length l)%nat.
Proof.
  revert b. induction l as [|ch l IH]; intros b; simpl; [done|].
  case_match; [simpl; lia|]. case_match; [simpl; lia|]. specialize (IH (b ++ [ch])). lia.
Qed.

Lemma scanSpecial_loop_length l b last : (length (scanSpecialSymbol_loop l b last).2 ≤ length l)%nat.
Proof.
  revert b last. induction l as [|ch l IH]; intros b last; simpl; [done|].
  case_match; [simpl; lia|]. case_match; [|simpl; lia]. case_match; [etransitivity; [apply IH|lia]|].
  case_match; [simpl; lia|etransitivity; [apply IH|lia]].
Qed.

(** Every special symbol is a token by itself. *)
Lemma special_token ch : isSpecialSymbol ch = true → ∃ t, string2token [ch] = Some t.
Proof.
  unfold isSpecialSymbol. intros (x & Hx & Heq)%existsb_exists. apply Ascii.eqb_eq in Heq as <-.
  simpl in Hx. repeat (destruct Hx as [<-|Hx]; [by eexists|]). done.
Qed.

Lemma skipWhiteSpaces_head l ch r : skipWhiteSpaces l = ch :: r → isWhitespace ch = false.
Proof.
  induction l as [|c l IH]; simpl; [done|].
  destruct (isWhitespace c) eqn:Hc; [done|]. by intros [= <- _].
Qed.

Lemma Lex_length l :
  tok (Lex l).1 ≠ EndOfStringToken → (length (Lex l).2 < length l)%nat.
Proof.
  unfold Lex. pose proof (skipWhiteSpaces_length l) as Hskip.
  destruct (skipWhiteSpaces l) as [|ch r] eqn:Hl; simpl in *; [done|].
  apply skipWhiteSpaces_head in Hl.
  destruct (is_nul ch) eqn:Hnul; [done|]. destruct (isSpecialSymbol ch) eqn:Hsp; intros _.
  - unfold scanSpecialSymbol. simpl. rewrite Hnul, Hsp. destruct (special_token ch Hsp) as [t ->].
    pose proof (scanSpecial_loop_length r [ch] (Some (mkItem t [ch]))) as H.
    destruct (scanSpecialSymbol_loop r [ch] (Some (mkItem t [ch]))) as [[it|] r']; simpl in *; lia.
  - unfold scanIDOrKeyword. simpl. rewrite Hnul, Hsp, Hl. simpl.
    pose proof (scanID_loop_length r [ch]) as H.
    destruct (scanIDOrKeyword_loop r [ch]) as [s r']; simpl in *. case_match; simpl; lia.
Qed.

Lemma scan_loop_good fuel l : (length l < fuel)%nat → good (scan_loop fuel l).
Proof.
  revert l. induction fuel as [|fuel IH]; intros l Hf; [lia|]. simpl.
  pose proof (Lex_length l) as Hlen. destruct (Lex l) as [it r]. simpl in Hlen.
  case_decide as Ht; [by exists [], it|].
  destruct (IH r) as (l' & it' & -> & ? & ?); [specialize (Hlen Ht); lia|].
  exists (it :: l'), it'. split_and!; [done|done|]. by apply Forall_cons.
Qed.

Lemma scan_good l : good (scan l).
Proof. apply scan_loop_good. lia. Qed.

(** What holds of the value and the remaining items if there is no error. *)
Definition wp {A} (p : Parser A) (ts : list ScannedItem) (Q : A → list ScannedItem → Prop) : Prop :=
  match p ts with Ok (a, ts') => Q a ts' | Err => True | OutOfRange | OutOfFuel => False end.

Lemma wp_bind {A B} (m : Parser A) (f : A → Parser B) ts Q :
  wp m ts (λ a ts', wp (f a) ts' Q) → wp (m ≫= f) ts Q.
Proof. unfold wp, mbind, Parser_bind. by destruct (m ts) as [[a ts']| | |]. Qed.

Lemma wp_ret {A} (a : A) ts (Q : A → list ScannedItem → Prop) : Q a ts → wp (mret a) ts Q.
Proof. done. Qed.

Lemma wp_fail {A} ts (Q : A → list ScannedItem → Prop) : wp fail ts Q.
Proof. done. Qed.

Lemma wp_of_option {A} (o : option A) ts (Q : A → list ScannedItem → Prop) :
  (∀ a, o = Some a → Q a ts) → wp (of_option o) ts Q.
Proof. intros H. destruct o; [by apply H|done]. Qed.

Lemma in_context_EOS c t : in_context c t = EndOfStringToken ↔ t = EndOfStringToken.
Proof. destruct c, t; simpl; naive_solver. Qed.

Lemma good_cons it ts :
  good (it :: ts) → tok it ≠ EndOfStringToken → good ts.
Proof.
  intros ([|it' l] & e & Heq & He & Hl) Hit; simplify_eq/=.
  apply Forall_cons in Hl as [_ Hl]. by exists l, e.
Qed.

Lemma good_nonempty ts : good ts → ∃ it ts', ts = it :: ts'.
Proof. intros ([|it l] & e & -> & _); simpl; eauto. Qed.

Lemma wp_lookahead c ts (Q : Token * text → list ScannedItem → Prop) :
  good ts → (∀ t lit, Q (t, lit) ts) → wp (lookahead c) ts Q.
Proof. intros (it & ts' & ->)%good_nonempty HQ. unfold wp, lookahead. apply HQ. Qed.

Lemma wp_consume c ts (Q : Token * text → list ScannedItem → Prop) :
  good ts →
  (∀ t lit ts', (t ≠ EndOfStringToken → good ts') → length ts = S (length ts') → Q (t, lit) ts') →
  wp (consume c) ts Q.
Proof.
  intros Hg HQ. destruct (good_nonempty ts Hg) as (it & ts' & ->). unfold wp, consume.
  apply HQ; [|done]. rewrite in_context_EOS. by apply good_cons.
Qed.

Ltac wp_step :=
  match goal with
  | |- wp (_ ≫= _) _ _ => apply wp_bind
  | |- wp (mret _) _ _ => apply wp_ret
  | |- wp fail _ _ => apply wp_fail
  | |- wp (lookahead _) _ _ => apply wp_lookahead; [assumption|intros ? ?]
  | |- wp (consume _) _ _ => apply wp_consume; [assumption|intros ? ? ? ? ?]
  | |- wp (of_option _) _ _ => apply wp_of_option; intros ? ?
  | |- wp (if decide _ then _ else _) _ _ => case_decide
  | |- wp (if _ then _ else _) _ _ => case_match
  | |- wp (match ?t with ErrorToken => _ | _ => _ end) _ _ => destruct t
  end; try done.

(** The items left over are good and fewer. *)
Definition fewer {A} (ts : list ScannedItem) (_ : A) (ts' : list ScannedItem) : Prop :=
  good ts' ∧ (length ts' < length ts)%nat.

Lemma wp_mono {A} (p : Parser A) ts (Q Q' : A → list ScannedItem → Prop) :
  wp p ts Q → (∀ a ts', Q a ts' → Q' a ts') → wp p ts Q'.
Proof. unfold wp. destruct (p ts) as [[a ts']| | |]; auto. Qed.

Lemma parseKey_wp ts : good ts → wp parseKeyAndInferOperator ts (fewer ts).
Proof.
  intros Hg. unfold parseKeyAndInferOperator. apply wp_bind, wp_consume; [done|].
  intros t lit ts1 Hg1 Hlen1. apply wp_bind.
  apply (wp_mono _ _ (λ '(_, t, _) ts', (t ≠ EndOfStringToken → good ts') ∧ (length ts' < length ts)%nat)).
  - case_decide as Ht; [|by apply wp_ret; split; [|lia]]. subst t.
    apply wp_bind, wp_consume; [by apply Hg1|]. intros t' lit' ts2 Hg2 Hlen2.
    apply wp_ret. split; [done|lia].
  - intros [[op t'] lit'] ts' [Hg' Hlen]. case_decide as Ht; [done|].
    subst t'. specialize (Hg' ltac:(done)). repeat wp_step.
Qed.

Lemma parseOperator_wp ts : good ts → wp parseOperator ts (fewer ts).
Proof.
  intros Hg. unfold parseOperator. apply wp_bind, wp_consume; [done|].
  intros t lit ts1 Hg1 Hlen. destruct t; repeat wp_step; (split; [by apply Hg1|lia]).
Qed.

Lemma parseIdentifiersList_cons s it it2 ts :
  parseIdentifiersList s (it :: it2 :: ts) =
    match in_context Values (tok it) with
    | IdentifierToken =>
        match in_context Values (tok it2) with
        | CommaToken => parseIdentifiersList ({[of_text (literal it)]} ∪ s) (it2 :: ts)
        | ClosedParToken => Ok ({[of_text (literal it)]} ∪ s, it2 :: ts)
        | _ => Err
        end
    | CommaToken =>
        let s := if decide (s = ∅) then {[""]} else s in
        match in_context Values (tok it2) with
        | ClosedParToken => Ok ({[""]} ∪ s, it2 :: ts)
        | CommaToken => parseIdentifiersList ({[""]} ∪ s) ts
        | _ => parseIdentifiersList s (it2 :: ts)
        end
    | _ => Err
    end.
Proof. done. Qed.

Lemma parseIdentifiersList_wp s ts :
  good ts → wp (parseIdentifiersList s) ts (λ _ ts', good ts' ∧ (length ts' ≤ length ts)%nat).
Proof.
  remember (length ts) as n eqn:Hn. assert (length ts ≤ n)%nat as Hle by lia. clear Hn.
  revert s ts Hle. induction n as [|n IH]; intros s ts Hle Hg.
  { destruct (good_nonempty ts Hg) as (? & ? & ->). simpl in Hle. lia. }
  destruct (good_nonempty ts Hg) as (it & ts1 & ->).
  destruct (decide (tok it = EndOfStringToken)) as [He|Hne]; [unfold wp; simpl; by rewrite He|].
  pose proof (good_cons it ts1 Hg Hne) as Hg1. simpl in Hle.
  destruct (good_nonempty ts1 Hg1) as (it2 & ts2 & ->). simpl in Hle.
  assert (∀ s, wp (parseIdentifiersList s) (it2 :: ts2)
                 (λ _ ts', good ts' ∧ (length ts' ≤ S n)%nat)) as Hrec.
  { intros s'. eapply wp_mono; [apply (IH s' (it2 :: ts2)); [simpl; lia|done]|].
    intros ? ? [? ?]. split; [done|lia]. }
  assert (tok it2 ≠ EndOfStringToken → ∀ s, wp (parseIdentifiersList s) ts2
                 (λ _ ts', good ts' ∧ (length ts' ≤ S n)%nat)) as Hrec2.
  { intros Ht s'. eapply wp_mono; [apply (IH s' ts2); [lia|by eapply good_cons]|].
    intros ? ? [? ?]. split; [done|lia]. }
  unfold wp in *. rewrite parseIdentifiersList_cons. cbv zeta.
  destruct (in_context Values (tok it)); try done;
    destruct (in_context Values (tok it2)) eqn:H2; try done; try (split; [done|simpl; lia]);
    try apply Hrec. apply Hrec2. rewrite <- (in_context_EOS Values), H2. done.
Qed.

Lemma parseValues_wp ts : good ts → wp parseValues ts (fewer ts).
Proof.
  intros Hg. unfold parseValues. apply wp_bind, wp_consume; [done|].
  intros t lit ts1 Hg1 Hlen. case_decide as Ht; [done|]. subst t.
  specialize (Hg1 ltac:(done)). destruct (good_nonempty ts1 Hg1) as (it & ts2 & Hts1).
  assert (wp (s ← parseIdentifiersList ∅; '(tok, _) ← consume Values;
              if decide (tok ≠ ClosedParToken) then fail else mret s) ts1 (fewer ts)) as Hlist.
  { apply wp_bind. eapply wp_mono; [by apply parseIdentifiersList_wp|]. intros s ts3 [Hg3 Hl3].
    apply wp_bind, wp_consume; [done|]. intros t4 lit4 ts4 Hg4 Hl4.
    case_decide as Ht4; [done|]. subst t4. apply wp_ret. split; [by apply Hg4|lia]. }
  apply wp_bind. unfold wp at 1, lookahead. rewrite Hts1 in Hlist |- *.
  destruct (in_context Values (tok it)) eqn:Hit; try done.
  unfold wp, mbind, Parser_bind, consume. simpl. split; [|subst; simpl in Hlen; lia].
  rewrite Hts1 in Hg1. eapply good_cons; [done|]. rewrite <- (in_context_EOS Values), Hit. done.
Qed.

Lemma parseExactValue_wp ts :
  good ts → wp parseExactValue ts (λ _ ts', good ts' ∧ (length ts' ≤ length ts)%nat).
Proof.
  intros Hg. unfold parseExactValue. apply wp_bind, wp_lookahead; [done|]. intros t lit.
  case_decide; [by apply wp_ret|]. apply wp_bind, wp_consume; [done|].
  intros t2 lit2 ts2 Hg2 Hl. case_decide as Ht; [|done]. subst t2. apply wp_ret.
  split; [by apply Hg2|lia].
Qed.

Lemma parseRequirement_wp ts : good ts → wp parseRequirement ts (fewer ts).
Proof.
  intros Hg. unfold parseRequirement. apply wp_bind.
  eapply wp_mono; [by apply parseKey_wp|]. intros [k [op|]] ts1 [Hg1 Hl1].
  { apply wp_of_option. intros r _. by split. }
  apply wp_bind. eapply wp_mono; [by apply parseOperator_wp|]. intros op ts2 [Hg2 Hl2].
  apply wp_bind. apply (wp_mono _ _ (λ _ ts', good ts' ∧ (length ts' ≤ length ts2)%nat)).
  - destruct op; try by apply parseExactValue_wp.
    all: eapply wp_mono; [by apply parseValues_wp|]; intros ? ? [? ?]; split; [done|lia].
  - intros vs ts3 [Hg3 Hl3]. apply wp_of_option. intros r _. split; [done|lia].
Qed.

Lemma parse_loop_wp fuel reqs ts :
  good ts → (length ts ≤ fuel)%nat → wp (parse_loop fuel reqs) ts (λ _ _, True).
Proof.
  revert reqs ts. induction fuel as [|fuel IH]; intros reqs ts Hg Hf.
  { destruct (good_nonempty ts Hg) as (? & ? & ->). simpl in Hf. lia. }
  cbn [parse_loop]. apply wp_bind, wp_lookahead; [done|]. intros t lit.
  assert (wp (r ← parseRequirement; '(t, _) ← consume Values;
    match t with
    | EndOfStringToken => mret (reqs ++ [r])
    | CommaToken =>
        '(t2, _) ← lookahead Values;
        if decide (t2 ≠ IdentifierToken ∧ t2 ≠ DoesNotExistToken) then fail
        else parse_loop fuel (reqs ++ [r])
    | _ => fail
    end) ts (λ _ _, True)) as Hround.
  { apply wp_bind. eapply wp_mono; [by apply parseRequirement_wp|]. intros r ts1 [Hg1 Hl1].
    apply wp_bind, wp_consume; [done|]. intros t2 lit2 ts2 Hg2 Hl2. destruct t2; try done.
    specialize (Hg2 ltac:(done)). apply wp_bind, wp_lookahead; [done|]. intros t3 lit3.
    case_decide; [done|]. apply IH; [done|lia]. }
  by destruct t.
Qed.

(** ** Scanning printed text *)

(** A character of an identifier. *)
Definition ident_char (c : ascii) : Prop :=
  isSpecialSymbol c = false ∧ isWhitespace c = false ∧ is_nul c = false.

Definition ident (l : text) : Prop := Forall ident_char l.

Lemma not_ident_codes c :
  isSpecialSymbol c || isWhitespace c || is_nul c = true →
  c ∈ ["="; "!"; "("; ")"; ","; ">"; "<"; " "; "009"; "013"; "010"; "000"]%char.
Proof.
  unfold isSpecialSymbol, isWhitespace, is_nul. simpl.
  rewrite !orb_true_iff, !Ascii.eqb_eq, !elem_of_cons. naive_solver.
Qed.

Lemma qnameExtChar_ident c : qnameExtChar c = true ∨ c = "/"%char → ident_char c.
Proof.
  intros Hc. destruct (isSpecialSymbol c || isWhitespace c || is_nul c) eqn:Hbad.
  - exfalso. apply not_ident_codes in Hbad.
    repeat (apply elem_of_cons in Hbad as [->|Hbad]; [destruct Hc as [H|H]; by vm_compute in H|]).
    by apply not_elem_of_nil in Hbad.
  - apply orb_false_iff in Hbad as [[? ?]%orb_false_iff ?]. done.
Qed.

Lemma bracketed_chars p q l : bracketed p q l = true → Forall (λ c, q c = true) l.
Proof.
  unfold bracketed. destruct l as [|c l]; [done|]. destruct (last (c :: l)); [|done].
  rewrite !andb_true_iff. intros [_ H]. apply Forall_forall. intros x Hx.
  rewrite forallb_forall in H. apply H. by apply list_elem_of_In.
Qed.

Lemma split_on_chars (P : ascii → Prop) sep l :
  P sep → Forall (Forall P) (split_on sep l) → Forall P l.
Proof.
  intros Hsep. induction l as [|c l IH]; simpl; intros H; [constructor|].
  destruct (Ascii.eqb_spec c sep) as [->|].
  - apply Forall_cons in H as [_ H]. constructor; [done|by apply IH].
  - destruct (split_on sep l) as [|p ps].
    + apply Forall_cons in H as [H _]. apply Forall_cons in H as [? _]. constructor; [done|by apply IH].
    + apply Forall_cons in H as [Hp Hps]. apply Forall_cons in Hp as [? Hp].
      constructor; [done|]. apply IH. by constructor.
Qed.

Lemma dnsExt_qname c : dnsExtChar c = true → qnameExtChar c = true ∨ c = "/"%char.
Proof.
  unfold dnsExtChar, dnsChar, qnameExtChar, qnameChar. rewrite !orb_true_iff. tauto.
Qed.

Lemma valid_key_ident k : validateLabelKey k = true → ident (txt k) ∧ txt k ≠ [].
Proof.
  unfold validateLabelKey, IsQualifiedName. intros Hk. split.
  - apply (split_on_chars _ "/"); [apply qnameExtChar_ident; by right|].
    assert (∀ name, qualifiedNameRegexp name = true → ident name) as Hname.
    { intros name H%bracketed_chars. eapply Forall_impl; [done|].
      intros c Hc. apply qnameExtChar_ident. by left. }
    destruct (split_on "/" (txt k)) as [|prefix [|name [|]]]; try done;
      rewrite !andb_true_iff in Hk; [constructor; naive_solver|].
    destruct Hk as [[_ Hp] [_ Hn]]. repeat constructor; [|by apply Hname].
    unfold IsDNS1123Subdomain in Hp. apply andb_true_iff in Hp as [_ Hp].
    rewrite forallb_forall in Hp. apply (split_on_chars _ "."); [apply qnameExtChar_ident; by left|].
    apply Forall_forall. intros x Hx%list_elem_of_In. apply Hp in Hx. apply bracketed_chars in Hx.
    eapply Forall_impl; [done|]. intros c Hc. by apply qnameExtChar_ident, dnsExt_qname.
  - intros Hnil. rewrite Hnil in Hk. done.
Qed.

Lemma valid_value_ident v : validateLabelValue v = true → ident (txt v).
Proof.
  unfold validateLabelValue, IsValidLabelValue. rewrite andb_true_iff. intros [_ H].
  destruct (txt v) as [|c l] eqn:Hv; [constructor|]. apply bracketed_chars in H.
  eapply Forall_impl; [done|]. intros x Hx. apply qnameExtChar_ident. by left.
Qed.

(** What may follow an identifier: the end, a space or a special symbol. *)
Definition ends_ident (rest : text) : Prop :=
  ∀ c r, rest = c :: r → isSpecialSymbol c || isWhitespace c = true ∧ is_nul c = false.

Lemma scanID_loop_ident w b rest :
  ident w → ends_ident rest → scanIDOrKeyword_loop (w ++ rest) b = (b ++ w, rest).
Proof.
  intros Hw Hrest. revert b. induction Hw as [|c w (H1 & H2 & H3) Hw IH]; intros b; simpl.
  - rewrite app_nil_r. destruct rest as [|c r]; [done|]. simpl.
    destruct (Hrest c r eq_refl) as [H1 H2]. by rewrite H2, H1.
  - rewrite H3, H1, H2. simpl. by rewrite IH, <- app_assoc.
Qed.

Definition word_token (w : text) : Token := default IdentifierToken (string2token w).
Definition word (w : text) : ScannedItem := mkItem (word_token w) w.

Lemma Lex_word w rest :
  ident w → w ≠ [] → ends_ident rest → Lex (w ++ rest) = (word w, rest).
Proof.
  intros Hw Hne Hrest. pose proof (scanID_loop_ident w [] rest Hw Hrest) as Hs.
  destruct w as [|c w']; [done|]. pose proof Hw as [(H1 & H2 & H3) _]%Forall_cons.
  unfold Lex. simpl. rewrite H2, H3, H1. unfold scanIDOrKeyword.
  change (c :: w' ++ rest) with ((c :: w') ++ rest). rewrite Hs. simpl.
  unfold word, word_token. by destruct (string2token (c :: w')).
Qed.

Lemma Lex_space rest : Lex (" "%char :: rest) = Lex rest.
Proof. done. Qed.

(** What may follow the symbol [buf]: nothing that makes a longer symbol. *)
Definition ends_symbol (buf rest : text) : Prop :=
  ∀ c r, rest = c :: r → is_nul c = false ∧ (isSpecialSymbol c = true → string2token (buf ++ [c]) = None).

Lemma scanSpecial_stop buf rest it :
  ends_symbol buf rest → scanSpecialSymbol_loop rest buf (Some it) = (Some it, rest).
Proof.
  intros H. destruct rest as [|c r]; [done|]. simpl. destruct (H c r eq_refl) as [H1 H2].
  rewrite H1. destruct (isSpecialSymbol c) eqn:Hs; [|done]. by rewrite H2.
Qed.

Lemma Lex_symbol1 c rest t :
  isSpecialSymbol c = true → isWhitespace c = false → is_nul c = false →
  string2token [c] = Some t → ends_symbol [c] rest →
  Lex (c :: rest) = (mkItem t [c], rest).
Proof.
  intros H1 H2 H3 Ht Hr. unfold Lex. simpl. rewrite H2, H3, H1. unfold scanSpecialSymbol. simpl.
  by rewrite H3, H1, Ht, scanSpecial_stop.
Qed.

Lemma Lex_symbol2 c rest t :
  c = "="%char ∨ c = "!"%char →
  string2token [c; "="%char] = Some t → ends_symbol [c; "="%char] rest →
  Lex (c :: "="%char :: rest) = (mkItem t [c; "="%char], rest).
Proof.
  intros [->| ->] Ht Hr; unfold Lex; simpl; unfold scanSpecialSymbol; simpl;
    vm_compute in Ht; simplify_eq; by rewrite scanSpecial_stop.
Qed.

Lemma scan_loop_enough f l : (length l < f)%nat → scan_loop f l = scan l.
Proof.
  unfold scan. revert l. induction f as [f IH] using lt_wf_ind. intros l Hf.
  destruct f as [|f]; [lia|]. simpl. pose proof (Lex_length l) as Hlen.
  destruct (Lex l) as [it r]. simpl in Hlen. case_decide as Ht; [done|]. f_equal.
  specialize (Hlen Ht). rewrite (IH f) by lia. destruct (decide (length l = f)) as [->|]; [|].
  - rewrite (IH f) by lia. done.
  - symmetry. apply (IH (length l)); lia.
Qed.

Lemma scan_step l it r : Lex l = (it, r) → tok it ≠ EndOfStringToken → scan l = it :: scan r.
Proof.
  intros HL Ht. unfold scan at 1. simpl. pose proof (Lex_length l) as Hlen. rewrite HL in *.
  rewrite decide_False by done. f_equal. apply scan_loop_enough. simpl in Hlen. auto.
Qed.

Lemma scan_nil : scan [] = [mkItem EndOfStringToken []].
Proof. done. Qed.

(** A printed requirement is followed by a comma or the end. *)
Definition sep_text (rest : text) : Prop := rest = [] ∨ ∃ r, rest = ","%char :: r.

Lemma sep_ends_ident rest : sep_text rest → ends_ident rest.
Proof. intros [->|[r ->]] c r' Heq; simplify_eq/=; done. Qed.

Definition sym (t : Token) (s : string) : ScannedItem := mkItem t (txt s).

(** The item of an exact value, none for the empty one. *)
Definition val_toks (v : text) : list ScannedItem := match v with [] => [] | _ => [word v] end.

Fixpoint list_toks (vs : list text) : list ScannedItem :=
  match vs with
  | [] => []
  | [v] => val_toks v
  | v :: vs => val_toks v ++ sym CommaToken "," :: list_toks vs
  end.

Definition op_sym (op : Operator) : ScannedItem :=
  match op with
  | Equals => sym EqualsToken "="
  | DoubleEquals => sym DoubleEqualsToken "=="
  | NotEquals => sym NotEqualsToken "!="
  | GreaterThan => sym GreaterThanToken ">"
  | LessThan => sym LessThanToken "<"
  | In => sym InToken "in"
  | _ => sym NotInToken "notin"
  end.

Definition print_values (vs : list string) : list text :=
  match vs with [v] => [txt v] | vs => txt <$> safeSort vs end.

Definition req_toks (r : Requirement) : list ScannedItem :=
  match operator r with
  | Exists => [word (txt (key r))]
  | DoesNotExist => [sym DoesNotExistToken "!"; word (txt (key r))]
  | In | NotIn =>
      word (txt (key r)) :: op_sym (operator r) :: sym OpenParToken "(" ::
      list_toks (print_values (strValues r)) ++ [sym ClosedParToken ")"]
  | op => word (txt (key r)) :: op_sym op :: list_toks (print_values (strValues r))
  end.

Lemma scan_val v rest :
  ident v → ends_ident rest → scan (v ++ rest) = val_toks v ++ scan rest.
Proof.
  intros Hv Hr. destruct v as [|c v']; [done|]. apply scan_step; [by apply Lex_word|].
  simpl. unfold word_token, string2token. simpl.
  repeat (case_match; simpl in *; [simplify_eq; done|]). done.
Qed.

(** The symbols that end a symbol. *)
Lemma ends_symbol_special buf c r :
  is_nul c = false → string2token (buf ++ [c]) = None → ends_symbol buf (c :: r).
Proof. intros H1 H2 c' r' Heq. by simplify_eq. Qed.

Lemma ends_symbol_nil buf : ends_symbol buf [].
Proof. by intros c r. Qed.

Lemma ends_symbol_val buf v rest :
  ident v → ends_symbol buf rest → ends_symbol buf (v ++ rest).
Proof.
  intros Hv Hr. destruct v as [|c v']; [done|]. intros c' r' Heq. simplify_eq/=.
  apply Forall_cons in Hv as [(H1 & H2 & H3) _]. split; [done|]. by rewrite H1.
Qed.

Lemma scan_list vs rest :
  Forall ident vs → ends_ident rest → ends_symbol (txt ",") rest →
  scan (join (txt ",") vs ++ rest) = list_toks vs ++ scan rest.
Proof.
  intros Hvs Hr Hs. induction Hvs as [|v vs Hv Hvs IH]; [done|].
  destruct vs as [|v2 vs]; [by apply scan_val|].
  change (join (txt ",") (v :: v2 :: vs)) with (v ++ txt "," ++ join (txt ",") (v2 :: vs)).
  change (list_toks (v :: v2 :: vs)) with (val_toks v ++ sym CommaToken "," :: list_toks (v2 :: vs)).
  rewrite <- !app_assoc, scan_val; [|done|by intros c r [= <- _]]. f_equal.
  change (txt "," ++ ?x) with (","%char :: x). rewrite <- app_comm_cons, <- IH.
  apply scan_step; [|done]. apply Lex_symbol1; try done.
  destruct vs as [|v3 vs]; simpl.
  - apply Forall_cons in Hvs as [Hv2 _]. by apply ends_symbol_val.
  - apply Forall_cons in Hvs as [Hv2 _]. rewrite <- app_assoc. apply ends_symbol_val; [done|].
    by apply ends_symbol_special.
Qed.

(** A requirement the constructor accepts, without repeated values. *)
Definition valid_req (r : Requirement) : Prop :=
  NewRequirement (key r) (operator r) (strValues r) = Some r ∧ NoDup (strValues r).

Lemma print_values_perm vs : print_values vs ≡ₚ txt <$> vs.
Proof.
  unfold print_values, safeSort, sort_strings.
  destruct vs as [|v [|v2 vs]]; [done|done|]. apply fmap_Permutation, merge_sort_Permutation.
Qed.

Lemma join_print_values r :
  match strValues r with [v] => txt v | vs => join (txt ",") (txt <$> safeSort vs) end =
  join (txt ",") (print_values (strValues r)).
Proof. by destruct (strValues r) as [|v [|v2 vs]]. Qed.

Lemma valid_req_inv r :
  valid_req r →
  ident (txt (key r)) ∧ txt (key r) ≠ [] ∧ validateLabelKey (key r) = true ∧
  Forall (λ v, validateLabelValue v = true) (strValues r) ∧
  Forall ident (print_values (strValues r)).
Proof.
  intros [H _]. unfold NewRequirement in H.
  destruct (validateLabelKey (key r)) eqn:Hk; [|done]. simpl in H. case_match eqn:Hc; [|done].
  apply andb_true_iff in Hc as [_ Hv]. destruct (valid_key_ident _ Hk).
  assert (Forall (λ v, validateLabelValue v = true) (strValues r)) as Hvs.
  { apply Forall_forall. intros v Hin. rewrite forallb_forall in Hv.
    by apply Hv, list_elem_of_In. }
  split_and!; try done. rewrite print_values_perm. apply Forall_fmap.
  eapply Forall_impl; [done|]. intros v. apply valid_value_ident.
Qed.

Lemma word_token_not_EOS w : tok (word w) ≠ EndOfStringToken.
Proof.
  simpl. unfold word_token, string2token. simpl.
  repeat (case_match; simpl in *; [simplify_eq; done|]). done.
Qed.

Lemma scan_key k rest :
  ident k → k ≠ [] → ends_ident rest → scan (k ++ rest) = word k :: scan rest.
Proof.
  intros Hk Hne Hr. apply scan_step; [by apply Lex_word|apply word_token_not_EOS].
Qed.

(** The exact-match operators are one or two symbols. *)
Lemma scan_exact op v rest :
  op ∈ [Equals; DoubleEquals; NotEquals; GreaterThan; LessThan] → ident v → sep_text rest →
  scan (op_text op ++ v ++ rest) = op_sym op :: val_toks v ++ scan rest.
Proof.
  intros Hop Hv Hsep. rewrite <- scan_val by (by try apply sep_ends_ident).
  assert (∀ buf, string2token (buf ++ [","%char]) = None → ends_symbol buf (v ++ rest)) as Hend.
  { intros buf Hb. apply ends_symbol_val; [done|]. destruct Hsep as [->|[r ->]];
      [apply ends_symbol_nil|by apply ends_symbol_special]. }
  repeat (apply elem_of_cons in Hop as [->|Hop];
    [apply scan_step; [|done]; first [apply Lex_symbol1|apply Lex_symbol2]; try done;
     try (by left); try (by right); by apply Hend|]).
  by apply not_elem_of_nil in Hop.
Qed.

Lemma scan_space l : scan (" "%char :: l) = scan l.
Proof.
  pose proof (Lex_space l) as HL. destruct (Lex l) as [it r] eqn:Hl.
  destruct (decide (tok it = EndOfStringToken)) as [He|Hne].
  - unfold scan. simpl length. cbn [scan_loop]. by rewrite HL, Hl, !decide_True.
  - by rewrite (scan_step _ it r HL Hne), (scan_step _ it r Hl Hne).
Qed.

Lemma ends_symbol_join buf vs rest :
  Forall ident vs → string2token (buf ++ [","%char]) = None → ends_symbol buf rest →
  ends_symbol buf (join (txt ",") vs ++ rest).
Proof.
  intros Hvs Hb Hr. destruct Hvs as [|v vs Hv Hvs]; [done|].
  destruct vs as [|v2 vs]; simpl; [by apply ends_symbol_val|].
  rewrite <- app_assoc. apply ends_symbol_val; [done|]. by apply ends_symbol_special.
Qed.

Lemma scan_set kw t vs rest :
  (kw, t) ∈ [("in"%string, InToken); ("notin"%string, NotInToken)] → Forall ident vs →
  sep_text rest →
  scan (txt " " ++ txt kw ++ txt " (" ++ join (txt ",") vs ++ txt ")" ++ rest) =
    sym t kw :: sym OpenParToken "(" :: list_toks vs ++ sym ClosedParToken ")" :: scan rest.
Proof.
  intros Hkw Hvs Hsep. change (txt " " ++ ?l) with (" "%char :: l). rewrite scan_space.
  assert (ident (txt kw) ∧ txt kw ≠ [] ∧ word (txt kw) = sym t kw) as (Hk & Hne & Hw).
  { rewrite !elem_of_cons, elem_of_nil in Hkw.
    destruct Hkw as [[= -> ->]|[[= -> ->]|[]]]; repeat constructor; done. }
  rewrite scan_key; [|done|done|by intros c r [= <- _]]. rewrite Hw. f_equal.
  change (txt " (" ++ ?l) with (" "%char :: "("%char :: l). rewrite scan_space.
  rewrite (scan_step _ (sym OpenParToken "(") (join (txt ",") vs ++ txt ")" ++ rest)); [f_equal| |done].
  2: { apply Lex_symbol1; try done. apply ends_symbol_join; [done|done|]. by apply ends_symbol_special. }
  rewrite scan_list; [f_equal|done|by intros c r [= <- _]|by apply ends_symbol_special].
  apply scan_step; [|done]. apply Lex_symbol1; try done.
  destruct Hsep as [->|[r ->]]; [apply ends_symbol_nil|by apply ends_symbol_special].
Qed.

(** The three shapes of a valid requirement. *)
Lemma valid_req_cases r :
  valid_req r →
  (operator r ∈ [Exists; DoesNotExist] ∧ strValues r = []) ∨
  (operator r ∈ [Equals; DoubleEquals; NotEquals; GreaterThan; LessThan] ∧
     ∃ v, strValues r = [v]) ∨
  (operator r ∈ [In; NotIn] ∧ strValues r ≠ []).
Proof.
  intros [H _]. unfold NewRequirement in H. case_match eqn:Hc; [|done].
  apply andb_true_iff in Hc as [[_ Hop]%andb_true_iff _].
  destruct (operator r), (strValues r) as [|v [|]]; try done;
    first [by left; split; [set_solver|]
          |by right; left; split; [set_solver|eauto]
          |by right; right; split; [set_solver|]].
Qed.

(** Scanning a printed requirement gives its items. *)
Lemma scan_req r rest :
  valid_req r → sep_text rest → scan (Req_String r ++ rest) = req_toks r ++ scan rest.
Proof.
  intros Hr Hsep. destruct (valid_req_inv r Hr) as (Hk & Hne & _ & _ & Hvs).
  pose proof (sep_ends_ident rest Hsep) as Hei.
  assert (ends_symbol (txt "!") (txt (key r) ++ rest)) as Hex.
  { apply ends_symbol_val; [done|]. destruct Hsep as [->|[r' ->]];
      [apply ends_symbol_nil|by apply ends_symbol_special]. }
  destruct (valid_req_cases r Hr) as [[Hop Hv]|[[Hop [v Hv]]|[Hop Hv]]].
  - unfold Req_String, req_toks. rewrite !elem_of_cons, elem_of_nil in Hop.
    destruct Hop as [Hop|[Hop|[]]]; rewrite Hop.
    + by apply scan_key.
    + rewrite <- app_assoc, (scan_step _ (sym DoesNotExistToken "!") (txt (key r) ++ rest));
        [by rewrite scan_key|by apply Lex_symbol1|done].
  - rewrite Hv in Hvs. apply Forall_cons in Hvs as [Hvi _].
    pose proof (scan_exact (operator r) (txt v) rest Hop Hvi Hsep) as HS.
    assert (Req_String r = txt (key r) ++ op_text (operator r) ++ txt v) as ->.
    { unfold Req_String. rewrite Hv. repeat (apply elem_of_cons in Hop as [->|Hop];
        [by rewrite app_nil_r|]). by apply not_elem_of_nil in Hop. }
    rewrite <- !app_assoc, scan_key; [|done|done|].
    + rewrite HS. unfold req_toks. rewrite Hv. repeat (apply elem_of_cons in Hop as [->|Hop]; [done|]).
      by apply not_elem_of_nil in Hop.
    + repeat (apply elem_of_cons in Hop as [->|Hop]; [by intros c r' [= <- _]|]).
      by apply not_elem_of_nil in Hop.
  - pose proof (scan_set (if decide (operator r = In) then "in" else "notin")
      (if decide (operator r = In) then InToken else NotInToken) (print_values (strValues r)) rest) as HS.
    unfold Req_String, req_toks. rewrite join_print_values. rewrite !elem_of_cons, elem_of_nil in Hop.
    destruct Hop as [Hop|[Hop|[]]]; rewrite Hop in HS |- *;
      [rewrite !decide_True in HS by done|rewrite !decide_False in HS by done];
      rewrite app_nil_l, <- !app_assoc, scan_key by (done || by intros c r' [= <- _]);
      rewrite <- app_comm_cons; f_equal; (etransitivity; [apply HS; [set_solver|done|done]|]);
      rewrite <- !app_comm_cons, <- app_assoc; done.
Qed.

(** ** Parsing the items of a printed selector *)

Lemma of_text_txt s : of_text (txt s) = s.
Proof. apply String.string_of_list_ascii_of_string. Qed.

Lemma ident_token w : ident w → in_context Values (tok (word w)) = IdentifierToken.
Proof.
  intros Hw. simpl. unfold word_token, string2token.
  destruct (find _ string2token_table) as [[s t]|] eqn:Hf; [|done].
  apply find_some in Hf as [Hin Heq]. apply bool_decide_eq_true in Heq. simpl in Heq. subst s.
  repeat (destruct Hin as [[= <- <-]|Hin];
    [first [done|apply Forall_cons in Hw as [(H1 & _) _]; done]|]). done.
Qed.

(** What the parser makes of a printed requirement: its values sorted. *)
Definition norm_req (r : Requirement) : Requirement :=
  mkReq (key r) (operator r)
    (sort_strings (elements (list_to_set (strValues r) : gset string))).

Lemma norm_values r : valid_req r → strValues (norm_req r) ≡ₚ strValues r.
Proof.
  intros [_ Hnd]. simpl. unfold sort_strings. rewrite merge_sort_Permutation.
  by apply elements_list_to_set.
Qed.

Lemma forallb_perm {A} (f : A → bool) (l k : list A) : l ≡ₚ k → forallb f l = forallb f k.
Proof.
  induction 1; simpl; [done|by f_equal| |congruence].
  rewrite !andb_assoc. f_equal. apply andb_comm.
Qed.

Lemma NewRequirement_norm r :
  valid_req r →
  NewRequirement (key r) (operator r) (strValues (norm_req r)) = Some (norm_req r).
Proof.
  intros Hr. pose proof (norm_values r Hr) as Hp. destruct Hr as [H _].
  unfold NewRequirement in *.
  rewrite (Permutation_length Hp), !(forallb_perm _ _ _ Hp).
  case_match; [|done]. done.
Qed.

Lemma existsb_perm {A} (f : A → bool) (l k : list A) : l ≡ₚ k → existsb f l = existsb f k.
Proof.
  induction 1; simpl; [done|by f_equal| |congruence].
  rewrite !orb_assoc. f_equal. apply orb_comm.
Qed.

Lemma norm_Matches r ls : valid_req r → Req_Matches (norm_req r) ls = Req_Matches r ls.
Proof.
  intros Hr. pose proof (norm_values r Hr) as Hp.
  assert (∀ v, hasValue (norm_req r) v = hasValue r v) as Hhas.
  { intros v. by apply existsb_perm. }
  unfold Req_Matches. change (operator (norm_req r)) with (operator r).
  change (key (norm_req r)) with (key r). rewrite Hhas.
  destruct (valid_req_cases r Hr) as [[Hop Hv]|[[Hop [v Hv]]|[Hop Hv]]].
  - by rewrite !elem_of_cons, elem_of_nil in Hop; destruct Hop as [->|[->|[]]].
  - rewrite Hv in Hp |- *. apply Permutation_singleton_r in Hp. by rewrite Hp.
  - by rewrite !elem_of_cons, elem_of_nil in Hop; destruct Hop as [->|[->|[]]].
Qed.

Lemma parseKey_word k it ts :
  validateLabelKey k = true →
  parseKeyAndInferOperator (word (txt k) :: it :: ts) =
    Ok ((k, if decide (in_context Values (tok it) = EndOfStringToken ∨
                       in_context Values (tok it) = CommaToken) then Some Exists else None), it :: ts).
Proof.
  intros Hk. destruct (valid_key_ident k Hk) as [Hi _].
  unfold parseKeyAndInferOperator, mbind, Parser_bind, consume, lookahead.
  rewrite ident_token by done. simpl. rewrite of_text_txt, Hk. simpl. by case_decide.
Qed.

Lemma parseKey_not k it ts :
  validateLabelKey k = true →
  parseKeyAndInferOperator (sym DoesNotExistToken "!" :: word (txt k) :: it :: ts) =
    Ok ((k, Some DoesNotExist), it :: ts).
Proof.
  intros Hk. destruct (valid_key_ident k Hk) as [Hi _].
  pose proof (ident_token _ Hi) as Ht. assert (literal (word (txt k)) = txt k) as Hl by done.
  set (w := word (txt k)) in *. clearbody w.
  unfold parseKeyAndInferOperator, mbind, Parser_bind, consume, lookahead. simpl in Ht |- *.
  rewrite Ht, Hl. simpl. rewrite of_text_txt, Hk. simpl. by case_decide.
Qed.

Lemma list_toks_cons v vs :
  v ≠ EmptyString → ∃ ts, list_toks (txt <$> v :: vs) = word (txt v) :: ts.
Proof. intros Hv. destruct v; [done|]. destruct vs; eexists; reflexivity. Qed.

(** The identifiers of a printed list whose values are not empty. *)
Lemma parseIdentifiersList_words vs s ts :
  Forall (λ v, ident (txt v) ∧ v ≠ EmptyString) vs → vs ≠ [] →
  parseIdentifiersList s (list_toks (txt <$> vs) ++ sym ClosedParToken ")" :: ts) =
    Ok (list_to_set vs ∪ s, sym ClosedParToken ")" :: ts).
Proof.
  intros Hvs. revert s. induction Hvs as [|v vs [Hv Hne] Hvs IH]; intros s Hnil; [done|].
  assert (val_toks (txt v) = [word (txt v)]) as Hval by (by destruct v).
  destruct vs as [|v2 vs].
  - cbn [fmap list_fmap list_toks]. rewrite Hval. cbn [app]. rewrite parseIdentifiersList_cons.
    rewrite ident_token by done. cbn. rewrite of_text_txt. repeat f_equal. set_solver.
  - change (list_toks (txt <$> v :: v2 :: vs)) with
      (val_toks (txt v) ++ sym CommaToken "," :: list_toks (txt <$> v2 :: vs)).
    rewrite Hval. cbn [app]. rewrite parseIdentifiersList_cons, ident_token by done.
    change (in_context Values (tok (sym CommaToken ","))) with CommaToken. cbv iota.
    change (literal (word (txt v))) with (txt v). rewrite of_text_txt.
    specialize (IH ({[v]} ∪ s) ltac:(done)).
    apply Forall_cons in Hvs as [[Hv2 Hne2] _].
    destruct (list_toks_cons v2 vs Hne2) as [ts' Hts]. rewrite Hts in IH |- *. cbn [app] in IH |- *.
    rewrite parseIdentifiersList_cons. change (in_context Values (tok (sym CommaToken ","))) with CommaToken.
    rewrite ident_token by done. cbv iota zeta. rewrite decide_False by set_solver.
    rewrite IH. do 2 f_equal. set_solver.
Qed.

Lemma string_le_cons a s b t :
  string_le (String a s) (String b t) ↔
    (N_of_ascii a < N_of_ascii b)%N ∨ (N_of_ascii a = N_of_ascii b ∧ string_le s t).
Proof.
  unfold string_le, String.leb. simpl. unfold Ascii.compare.
  destruct (N.compare_spec (N_of_ascii a) (N_of_ascii b)); simpl; naive_solver lia.
Qed.

#[export] Instance string_le_trans : Transitive string_le.
Proof.
  intros x. induction x as [|a x IH]; intros [|b y] [|c z]; try done.
  rewrite !string_le_cons. intros [?|[? ?]] [?|[? ?]]; [left; lia|left; lia|left; lia|].
  right. split; [lia|eauto].
Qed.

Lemma print_values_sort vs : print_values vs = txt <$> safeSort vs.
Proof. by destruct vs as [|v [|v2 vs]]. Qed.

(** In a sorted list without repetitions only the first value can be empty. *)
Lemma safeSort_tail vs v k :
  NoDup vs → safeSort vs = v :: k → Forall (λ v, v ≠ EmptyString) k.
Proof.
  intros Hnd Hs. pose proof (merge_sort_Permutation string_le vs) as Hp.
  pose proof (StronglySorted_merge_sort string_le vs) as Hss.
  unfold safeSort, sort_strings in Hs. rewrite Hs in Hp, Hss.
  rewrite <- Hp in Hnd. apply NoDup_cons in Hnd as [Hni _].
  apply StronglySorted_inv in Hss as [_ Hall]. rewrite Forall_forall in Hall |- *.
  intros x Hx ->. specialize (Hall _ Hx). destruct v; done.
Qed.

Lemma parseValues_printed vs ts :
  NoDup vs → vs ≠ [] → Forall (λ v, ident (txt v)) vs →
  parseValues (sym OpenParToken "(" :: list_toks (print_values vs) ++ sym ClosedParToken ")" :: ts) =
    Ok (list_to_set vs, ts).
Proof.
  intros Hnd Hne Hid. rewrite print_values_sort.
  pose proof (merge_sort_Permutation string_le vs : safeSort vs ≡ₚ vs) as Hp.
  pose proof (safeSort_tail vs) as Htail. rewrite <- Hp in Hid.
  assert (list_to_set vs = (list_to_set (safeSort vs) : gset string)) as ->.
  { apply set_eq. intros x. rewrite !elem_of_list_to_set. by rewrite Hp. }
  destruct (safeSort vs) as [|v k]; [by apply Permutation_nil_l in Hp|].
  specialize (Htail v k Hnd eq_refl). apply Forall_cons in Hid as [Hv Hk].
  assert (Forall (λ v, ident (txt v) ∧ v ≠ EmptyString) k) as Hk' by (by apply Forall_and).
  unfold parseValues, mbind, Parser_bind. cbn [consume in_context tok sym literal].
  rewrite decide_False by (by intros []; done).
  destruct (decide (v = EmptyString)) as [->|Hvne].
  - destruct k as [|v2 k]; [cbn; by rewrite union_empty_r_L|].
    change (list_toks (txt <$> "" :: v2 :: k)) with (sym CommaToken "," :: list_toks (txt <$> v2 :: k)).
    cbn [app lookahead in_context tok sym literal].
    pose proof (parseIdentifiersList_words (v2 :: k) {[""]} ts Hk' ltac:(done)) as HP.
    pose proof Hk' as [[Hv2 Hne2] _]%Forall_cons.
    destruct (list_toks_cons v2 k Hne2) as [ts' Hts]. rewrite Hts in HP |- *. cbn [app] in HP |- *.
    rewrite parseIdentifiersList_cons. change (in_context Values (tok (sym CommaToken ","))) with CommaToken.
    cbv iota zeta. rewrite ident_token, decide_True by done. rewrite HP. cbn.
    rewrite decide_False by (by intros []). unfold mret, Parser_ret. do 2 f_equal. set_solver.
  - pose proof (parseIdentifiersList_words (v :: k) ∅ ts) as HP.
    destruct (list_toks_cons v k Hvne) as [ts' Hts]. rewrite Hts in HP |- *.
    cbn [app lookahead] in HP |- *. rewrite ident_token by done.
    rewrite HP; [|by apply Forall_cons|done]. cbn.
    rewrite decide_False by (by intros []). unfold mret, Parser_ret. do 2 f_equal. set_solver.
Qed.

Lemma parseExactValue_printed v sep ts :
  ident (txt v) → tok sep ∈ [EndOfStringToken; CommaToken] →
  parseExactValue (val_toks (txt v) ++ sep :: ts) = Ok ({[v]}, sep :: ts).
Proof.
  intros Hv Hsep. rewrite !elem_of_cons, elem_of_nil in Hsep.
  unfold parseExactValue, mbind, Parser_bind. destruct (decide (v = EmptyString)) as [->|Hne].
  - cbn [val_toks txt String.list_ascii_of_string app lookahead].
    by destruct Hsep as [->|[->|[]]].
  - assert (val_toks (txt v) = [word (txt v)]) as -> by (by destruct v).
    cbn [app lookahead consume]. rewrite ident_token by done. cbv beta iota.
    rewrite decide_False by (by intros [|]).
    cbn [consume]. rewrite ident_token by done. cbv beta iota. rewrite decide_True by done.
    change (literal (word (txt v))) with (txt v). by rewrite of_text_txt.
Qed.

(** Of a key, an operator and what follows, the operator decides. *)
Lemma parseRequirement_op k op ts vs ts' :
  validateLabelKey k = true →
  op ∈ [Equals; DoubleEquals; NotEquals; GreaterThan; LessThan; In; NotIn] →
  (match op with In | NotIn => parseValues | _ => parseExactValue end) ts = Ok (vs, ts') →
  parseRequirement (word (txt k) :: op_sym op :: ts) =
    of_option (NewRequirement k op (sort_strings (elements vs))) ts'.
Proof.
  intros Hk Hop Hvs. unfold parseRequirement, mbind, Parser_bind.
  rewrite parseKey_word by done.
  assert (parseOperator (op_sym op :: ts) = Ok (op, ts)) as HO.
  { repeat (apply elem_of_cons in Hop as [->|Hop]; [done|]). by apply not_elem_of_nil in Hop. }
  rewrite decide_False.
  - by rewrite HO, Hvs.
  - repeat (apply elem_of_cons in Hop as [->|Hop]; [by intros [|]|]). by apply not_elem_of_nil in Hop.
Qed.

(** The items of a printed requirement are parsed to it, up to the order of
    the values. *)
Lemma parseRequirement_req r sep ts :
  valid_req r → tok sep ∈ [EndOfStringToken; CommaToken] →
  parseRequirement (req_toks r ++ sep :: ts) = Ok (norm_req r, sep :: ts).
Proof.
  intros Hr Hsep. pose proof (NewRequirement_norm r Hr) as Hnew.
  destruct (valid_req_inv r Hr) as (_ & _ & Hk & Hvs & _).
  assert (in_context Values (tok sep) = EndOfStringToken ∨ in_context Values (tok sep) = CommaToken) as Hs.
  { rewrite !elem_of_cons, elem_of_nil in Hsep. destruct Hsep as [->|[->|[]]]; auto. }
  destruct (valid_req_cases r Hr) as [[Hop Hv]|[[Hop [v Hv]]|[Hop Hv]]].
  - assert (strValues (norm_req r) = []) as Hn by (simpl; by rewrite Hv).
    unfold parseRequirement, mbind, Parser_bind.
    rewrite Hn in Hnew. unfold req_toks. rewrite !elem_of_cons, elem_of_nil in Hop.
    destruct Hop as [Hop|[Hop|[]]]; rewrite Hop in Hnew |- *; cbn [app].
    + rewrite parseKey_word, decide_True by done. by rewrite Hnew.
    + rewrite parseKey_not by done. by rewrite Hnew.
  - rewrite Hv in Hvs. apply Forall_cons in Hvs as [Hvv _].
    assert (req_toks r ++ sep :: ts =
            word (txt (key r)) :: op_sym (operator r) :: val_toks (txt v) ++ sep :: ts) as ->.
    { unfold req_toks. rewrite Hv. repeat (apply elem_of_cons in Hop as [->|Hop]; [done|]).
      by apply not_elem_of_nil in Hop. }
    rewrite (parseRequirement_op _ _ _ {[v]} (sep :: ts)); [|done|set_solver|].
    + cbn [norm_req strValues] in Hnew. rewrite Hv in Hnew. cbn [list_to_set] in Hnew.
      rewrite union_empty_r_L in Hnew. by rewrite Hnew.
    + rewrite <- (parseExactValue_printed v sep ts) by (done || by apply valid_value_ident).
      repeat (apply elem_of_cons in Hop as [->|Hop]; [done|]). by apply not_elem_of_nil in Hop.
  - assert (req_toks r ++ sep :: ts =
            word (txt (key r)) :: op_sym (operator r) :: sym OpenParToken "(" ::
              list_toks (print_values (strValues r)) ++ sym ClosedParToken ")" :: sep :: ts) as ->.
    { unfold req_toks. rewrite !elem_of_cons, elem_of_nil in Hop.
      destruct Hop as [->|[->|[]]]; cbn [app]; by rewrite <- app_assoc. }
    rewrite (parseRequirement_op _ _ _ (list_to_set (strValues r)) (sep :: ts));
      [|done|set_solver|].
    + change (sort_strings _) with (strValues (norm_req r)). by rewrite Hnew.
    + rewrite <- (parseValues_printed (strValues r) (sep :: ts));
        [|apply Hr|done|eapply Forall_impl; [done|]; apply valid_value_ident].
      rewrite !elem_of_cons, elem_of_nil in Hop. by destruct Hop as [->|[->|[]]].
Qed.

Fixpoint sel_toks (rs : list Requirement) : list ScannedItem :=
  match rs with
  | [] => [mkItem EndOfStringToken []]
  | [r] => req_toks r ++ [mkItem EndOfStringToken []]
  | r :: rs => req_toks r ++ sym CommaToken "," :: sel_toks rs
  end.

Lemma ends_symbol_req r rest :
  valid_req r → ends_symbol (txt ",") (Req_String r ++ rest).
Proof.
  intros Hr. destruct (valid_req_inv r Hr) as (Hk & Hne & _).
  assert (∀ l, ends_symbol (txt ",") (txt (key r) ++ l)) as Hkey.
  { intros l. destruct (txt (key r)) as [|c k]; [done|]. apply Forall_cons in Hk as [(H1 & H2 & H3) _].
    intros c' r' [= <- _]. split; [done|]. by rewrite H1. }
  unfold Req_String. destruct (operator r); rewrite ?app_nil_l, <- ?app_assoc; try apply Hkey.
  by apply ends_symbol_special.
Qed.

Lemma scan_sel rs :
  Forall valid_req rs → scan (join (txt ",") (Req_String <$> rs)) = sel_toks rs.
Proof.
  induction 1 as [|r rs Hr Hrs IH]; [done|]. destruct rs as [|r2 rs].
  - pose proof (scan_req r [] Hr (or_introl eq_refl)) as HS. by rewrite app_nil_r in HS.
  - change (join (txt ",") (Req_String <$> r :: r2 :: rs)) with
      (Req_String r ++ txt "," ++ join (txt ",") (Req_String <$> r2 :: rs)).
    rewrite scan_req; [|done|right; by eexists].
    change (sel_toks (r :: r2 :: rs)) with (req_toks r ++ sym CommaToken "," :: sel_toks (r2 :: rs)).
    f_equal. rewrite <- IH. apply scan_step; [|done]. apply Lex_symbol1; try done.
    apply Forall_cons in Hrs as [Hr2 _]. destruct rs as [|r3 rs].
    + pose proof (ends_symbol_req r2 [] Hr2) as HE. by rewrite app_nil_r in HE.
    + exact (ends_symbol_req r2 (txt "," ++ join (txt ",") (Req_String <$> r3 :: rs)) Hr2).
Qed.

Lemma req_toks_head r :
  valid_req r →
  ∃ it ts, req_toks r = it :: ts ∧
    (in_context Values (tok it) = IdentifierToken ∨ in_context Values (tok it) = DoesNotExistToken).
Proof.
  intros Hr. destruct (valid_req_inv r Hr) as (Hk & _). pose proof (ident_token _ Hk) as Ht.
  unfold req_toks. destruct (operator r); eexists _, _; (split; [reflexivity|]); auto.
Qed.

Lemma sel_toks_head rs :
  Forall valid_req rs → rs ≠ [] →
  ∃ it ts, sel_toks rs = it :: ts ∧
    (in_context Values (tok it) = IdentifierToken ∨ in_context Values (tok it) = DoesNotExistToken).
Proof.
  intros Hrs Hne. destruct Hrs as [|r rs Hr Hrs]; [done|].
  destruct (req_toks_head r Hr) as (it & ts & Heq & Ht).
  destruct rs as [|r2 rs]; cbn [sel_toks]; rewrite Heq; by eexists _, _.
Qed.

(** One round of the loop at the head of a requirement. *)
Lemma parse_loop_S fuel acc it ts :
  in_context Values (tok it) = IdentifierToken ∨ in_context Values (tok it) = DoesNotExistToken →
  parse_loop (S fuel) acc (it :: ts) =
    (r ← parseRequirement;
     '(t, _) ← consume Values;
     match t with
     | EndOfStringToken => mret (acc ++ [r])
     | CommaToken =>
         '(t2, _) ← lookahead Values;
         if decide (t2 ≠ IdentifierToken ∧ t2 ≠ DoesNotExistToken) then fail
         else parse_loop fuel (acc ++ [r])
     | _ => fail
     end) (it :: ts).
Proof. intros Ht. cbn [parse_loop]. unfold mbind at 1, Parser_bind at 1. cbn [lookahead]. by destruct Ht as [-> | ->]. Qed.

Lemma parse_loop_sel rs fuel acc :
  Forall valid_req rs → rs ≠ [] → (length rs ≤ fuel)%nat →
  ∃ ts, parse_loop fuel acc (sel_toks rs) = Ok (acc ++ (norm_req <$> rs), ts).
Proof.
  intros Hrs. revert fuel acc. induction Hrs as [|r rs Hr Hrs IH]; intros fuel acc Hne Hf; [done|].
  destruct fuel as [|fuel]; [simpl in Hf; lia|].
  destruct (req_toks_head r Hr) as (it & ts & Heq & Ht).
  destruct rs as [|r2 rs].
  - cbn [sel_toks]. rewrite Heq. cbn [app]. rewrite parse_loop_S by done.
    rewrite app_comm_cons, <- Heq. unfold mbind, Parser_bind.
    rewrite parseRequirement_req; [|done|set_solver]. by eexists.
  - change (sel_toks (r :: r2 :: rs)) with (req_toks r ++ sym CommaToken "," :: sel_toks (r2 :: rs)).
    rewrite Heq. cbn [app]. rewrite parse_loop_S by done. rewrite app_comm_cons, <- Heq.
    unfold mbind, Parser_bind. rewrite parseRequirement_req; [|done|set_solver].
    cbn [consume in_context tok sym literal].
    destruct (IH fuel (acc ++ [norm_req r])) as [ts' HI]; [done|simpl in *; lia|].
    destruct (sel_toks_head (r2 :: rs) Hrs) as (it2 & ts2 & Heq2 & Ht2); [done|].
    rewrite Heq2 in HI |- *. cbn [lookahead]. rewrite decide_False by naive_solver.
    exists ts'. rewrite HI. by rewrite <- app_assoc.
Qed.

Lemma sel_toks_length rs : (length rs ≤ length (sel_toks rs))%nat.
Proof.
  induction rs as [|r [|r2 rs] IH]; simpl in *; [lia|rewrite length_app; simpl; lia|].
  rewrite length_app. simpl. lia.
Qed.

Lemma parse_sel rs :
  Forall valid_req rs →
  Parse (Sel_String (internalSelector rs)) = Ok (internalSelector (sort_ByKey (norm_req <$> rs))).
Proof.
  intros Hrs. unfold Parse, parse. cbn [Sel_String]. rewrite scan_sel by done.
  destruct rs as [|r rs]; [done|].
  destruct (parse_loop_sel (r :: rs) (length (sel_toks (r :: rs))) []) as [ts HP];
    [done|done|apply sel_toks_length|]. by rewrite HP.
Qed.

Lemma Matches_perm rs rs' ls :
  rs ≡ₚ rs' → Matches (internalSelector rs) ls = Matches (internalSelector rs') ls.
Proof. apply forallb_perm. Qed.

Lemma Matches_sort rs ls :
  Matches (internalSelector (sort_ByKey rs)) ls = Matches (internalSelector rs) ls.
Proof. apply Matches_perm, merge_sort_Permutation. Qed.

Lemma norm_Matches_all rs ls :
  Forall valid_req rs → forallb (λ r, Req_Matches r ls) (norm_req <$> rs) = forallb (λ r, Req_Matches r ls) rs.
Proof. induction 1 as [|r rs Hr Hrs IH]; [done|].
  rewrite fmap_cons. cbn [forallb]. by rewrite norm_Matches, IH. Qed.

(** *** What the parser returns is valid *)

Lemma NewRequirement_valid k op vals r :
  NewRequirement k op vals = Some r → NoDup vals → valid_req r.
Proof.
  unfold valid_req. intros H. unfold NewRequirement in *. case_match eqn:Hc; [|done].
  simplify_eq. simpl. intros Hnd. by rewrite Hc.
Qed.

Lemma sort_strings_NoDup (s : gset string) : NoDup (sort_strings (elements s)).
Proof. unfold sort_strings. rewrite merge_sort_Permutation. apply NoDup_elements. Qed.

Lemma bind_Ok {A B} (m : Parser A) (f : A → Parser B) ts b ts' :
  (m ≫= f) ts = Ok (b, ts') → ∃ a ts1, m ts = Ok (a, ts1) ∧ f a ts1 = Ok (b, ts').
Proof. unfold mbind, Parser_bind. destruct (m ts) as [[a ts1]| | |]; naive_solver. Qed.

Lemma of_option_Ok {A} (o : option A) ts a ts' :
  of_option o ts = Ok (a, ts') → o = Some a ∧ ts' = ts.
Proof. destruct o; simpl; [|done]. unfold mret, Parser_ret. naive_solver. Qed.

Lemma parseRequirement_valid ts r ts' : parseRequirement ts = Ok (r, ts') → valid_req r.
Proof.
  unfold parseRequirement. intros ([k [op|]] & ts1 & _ & H)%bind_Ok.
  - apply of_option_Ok in H as [H _]. eapply NewRequirement_valid; [done|constructor].
  - apply bind_Ok in H as (op & ts2 & _ & H). apply bind_Ok in H as (vs & ts3 & _ & H).
    apply of_option_Ok in H as [H _]. eapply NewRequirement_valid; [done|apply sort_strings_NoDup].
Qed.

Lemma parse_loop_valid fuel acc ts rs ts' :
  Forall valid_req acc → parse_loop fuel acc ts = Ok (rs, ts') → Forall valid_req rs.
Proof.
  revert acc ts. induction fuel as [|fuel IH]; intros acc ts Hacc; [done|].
  cbn [parse_loop]. intros ([t lit] & ts1 & _ & H)%bind_Ok.
  assert (∀ m, (r ← parseRequirement; m r) ts1 = Ok (rs, ts') →
    ∃ r ts2, Forall valid_req (acc ++ [r]) ∧ m r ts2 = Ok (rs, ts')) as Hreq.
  { intros m (r & ts2 & Hr%parseRequirement_valid & Hm)%bind_Ok. exists r, ts2.
    split; [|done]. apply Forall_app. auto. }
  destruct t; try done; [unfold mret, Parser_ret in H; by simplify_eq| |].
  all: apply Hreq in H as (r & ts2 & Hr & H); apply bind_Ok in H as ([t3 ?] & ts3 & _ & H);
    destruct t3; try done; [unfold mret, Parser_ret in H; by simplify_eq|];
    apply bind_Ok in H as ([t4 ?] & ts4 & _ & H); case_decide; [done|]; by eapply IH.
Qed.

(** *** The conversion of the API's selectors *)

(** The documented meaning of an expression of a [LabelSelector]. *)
Definition expr_holds (ls : Labels) (e : LabelSelectorRequirement) : Prop :=
  match ls_Operator e with
  | LabelSelectorOpIn => ∃ v, ls !! ls_Key e = Some v ∧ v ∈ ls_Values e
  | LabelSelectorOpNotIn => ∀ v, ls !! ls_Key e = Some v → v ∉ ls_Values e
  | LabelSelectorOpExists => is_Some (ls !! ls_Key e)
  | LabelSelectorOpDoesNotExist => ls !! ls_Key e = None
  | LabelSelectorOpOther _ => False
  end.

Definition valid_expr (e : LabelSelectorRequirement) : Prop :=
  validateLabelKey (ls_Key e) = true ∧ Forall (λ v, validateLabelValue v = true) (ls_Values e) ∧
  match ls_Operator e with
  | LabelSelectorOpIn | LabelSelectorOpNotIn => ls_Values e ≠ []
  | LabelSelectorOpExists | LabelSelectorOpDoesNotExist => ls_Values e = []
  | LabelSelectorOpOther _ => False
  end.

Definition valid_label (kv : string * string) : Prop :=
  validateLabelKey kv.1 = true ∧ validateLabelValue kv.2 = true.

Definition valid_selector (p : LabelSelector) : Prop :=
  map_Forall (λ k v, valid_label (k, v)) (MatchLabels p) ∧ Forall valid_expr (MatchExpressions p).

Definition selector_holds (ls : Labels) (p : LabelSelector) : Prop :=
  MatchLabels p ⊆ ls ∧ Forall (expr_holds ls) (MatchExpressions p).

Lemma hasValue_elem r v : hasValue r v = true ↔ v ∈ strValues r.
Proof.
  unfold hasValue. rewrite existsb_exists. setoid_rewrite String.eqb_eq.
  setoid_rewrite <- list_elem_of_In. naive_solver.
Qed.

Definition expr_req (e : LabelSelectorRequirement) : option Requirement :=
  match convert_op (ls_Operator e) with
  | Some op => NewRequirement (ls_Key e) op (ls_Values e)
  | None => None
  end.

Definition label_req (kv : string * string) : option Requirement :=
  NewRequirement kv.1 Equals [kv.2].

Lemma NewRequirement_Some k op vals r :
  NewRequirement k op vals = Some r ↔
    r = mkReq k op vals ∧ validateLabelKey k = true ∧
    Forall (λ v, validateLabelValue v = true) vals ∧
    match op with
    | In | NotIn => vals ≠ []
    | Equals | DoubleEquals | NotEquals => length vals = 1%nat
    | Exists | DoesNotExist => vals = []
    | GreaterThan | LessThan => ∃ v, vals = [v] ∧ is_Some (ParseInt (txt v))
    | OpOther _ => False
    end.
Proof.
  unfold NewRequirement.
  assert (forallb validateLabelValue vals = true ↔ Forall (λ v, validateLabelValue v = true) vals) as Hf.
  { rewrite forallb_forall, Forall_forall. by setoid_rewrite list_elem_of_In. }
  rewrite <- Hf. destruct (validateLabelKey k); [|simpl; naive_solver].
  destruct (forallb validateLabelValue vals); [|rewrite andb_false_r; naive_solver].
  rewrite andb_true_r, andb_true_l.
  destruct op, vals as [|v [|v2 vals]]; simpl; rewrite ?andb_true_r; try naive_solver.
  all: case_bool_decide; naive_solver.
Qed.

Lemma label_req_spec kv :
  match label_req kv with
  | Some r => valid_label kv ∧ ∀ ls, Req_Matches r ls = true ↔ ls !! kv.1 = Some kv.2
  | None => ¬ valid_label kv
  end.
Proof.
  destruct kv as [k v]. unfold label_req, valid_label. simpl.
  destruct (NewRequirement k Equals [v]) as [r|] eqn:Hr.
  - apply NewRequirement_Some in Hr as (-> & Hk & [Hv _]%Forall_cons & _). split; [done|].
    intros ls. unfold Req_Matches, Has, Get. simpl.
    destruct (ls !! k) as [v'|]; simpl; [|by split].
    rewrite hasValue_elem. simpl. rewrite list_elem_of_singleton. naive_solver.
  - intros [Hk Hv]. eapply eq_None_not_Some in Hr. apply Hr. exists (mkReq k Equals [v]).
    apply NewRequirement_Some. by repeat constructor.
Qed.

Lemma expr_req_spec e :
  match expr_req e with
  | Some r => valid_expr e ∧ ∀ ls, Req_Matches r ls = true ↔ expr_holds ls e
  | None => ¬ valid_expr e
  end.
Proof.
  destruct e as [k op vs]. unfold expr_req, valid_expr, expr_holds. simpl.
  destruct (convert_op op) as [o|] eqn:Ho.
  2: { destruct op; try done. naive_solver. }
  destruct (NewRequirement k o vs) as [r|] eqn:Hr.
  - apply NewRequirement_Some in Hr as (-> & Hk & Hv & Hop).
    split; [by destruct op; simplify_eq/=|].
    intros ls. unfold Req_Matches, Has, Get.
    destruct op; simplify_eq/=; destruct (ls !! k) as [v'|]; simpl;
      rewrite ?negb_true_iff, <- ?not_true_iff_false, ?hasValue_elem; simpl; naive_solver.
  - intros (Hk & Hv & Hop). eapply eq_None_not_Some in Hr. apply Hr. exists (mkReq k o vs).
    apply NewRequirement_Some. by destruct op; simplify_eq/=.
Qed.

Section AddAll.
Context {A : Type} (req : A → option Requirement) (V : A → Prop) (H : Labels → A → Prop).
Hypothesis req_spec : ∀ x,
  match req x with
  | Some r => V x ∧ ∀ ls, Req_Matches r ls = true ↔ H ls x
  | None => ¬ V x
  end.

Lemma add_all_None l : foldl (λ sel x, add_requirement sel (req x)) None l = None.
Proof. by induction l. Qed.

Lemma add_all l rs :
  match foldl (λ sel x, add_requirement sel (req x)) (Some (internalSelector rs)) l with
  | Some (internalSelector rs') =>
      Forall V l ∧ ∀ ls, Matches (internalSelector rs') ls = true ↔
                         Matches (internalSelector rs) ls = true ∧ Forall (H ls) l
  | Some nothingSelector => False
  | None => ¬ Forall V l
  end.
Proof.
  revert rs. induction l as [|x l IH]; intros rs; simpl.
  { split; [done|]. intros ls. naive_solver. }
  pose proof (req_spec x) as Hx. destruct (req x) as [r|]; simpl.
  2: { rewrite add_all_None. by intros [? _]%Forall_cons. }
  destruct Hx as [HV HM]. specialize (IH (sort_ByKey (rs ++ [r]))).
  destruct (foldl _ _ l) as [[rs'|]|]; [|done|by intros [_ ?]%Forall_cons].
  destruct IH as [Hl Hm]. split; [by apply Forall_cons|]. intros ls.
  change (forallb (λ r, Req_Matches r ls) ?l) with (Matches (internalSelector l) ls).
  rewrite Hm, Matches_sort. cbn [Matches]. rewrite forallb_app, Forall_cons. simpl.
  rewrite andb_true_r, andb_true_iff, HM. tauto.
Qed.
End AddAll.

Lemma selector_holds_list ls p :
  selector_holds ls p ↔
    Forall (λ kv, ls !! kv.1 = Some kv.2) (map_to_list (MatchLabels p)) ∧
    Forall (expr_holds ls) (MatchExpressions p).
Proof.
  unfold selector_holds. apply and_iff_compat_r. rewrite Forall_forall, map_subseteq_spec. split.
  - intros Hs [k v] Hk%elem_of_map_to_list. by apply Hs.
  - intros Hf k v Hk. apply (Hf (k, v)), elem_of_map_to_list, Hk.
Qed.

Lemma valid_selector_list p :
  valid_selector p ↔
    Forall valid_label (map_to_list (MatchLabels p)) ∧ Forall valid_expr (MatchExpressions p).
Proof.
  unfold valid_selector. apply and_iff_compat_r. rewrite Forall_forall. split.
  - intros Hf [k v] Hk%elem_of_map_to_list. by apply Hf.
  - intros Hf k v Hk. apply Hf, elem_of_map_to_list, Hk.
Qed.

Lemma LabelSelectorAsSelector_spec ps :
  match LabelSelectorAsSelector ps with
  | Some sel =>
      (∀ p, ps = Some p → valid_selector p) ∧
      ∀ ls, Matches sel ls = true ↔ ∃ p, ps = Some p ∧ selector_holds ls p
  | None => ∃ p, ps = Some p ∧ ¬ valid_selector p
  end.
Proof.
  destruct ps as [p|]; simpl; [|by split; [|intros ls; split; [|intros (? & ? & _)]]].
  destruct (_ =? 0)%nat eqn:Hz.
  { apply Nat.eqb_eq in Hz. destruct (MatchExpressions p) as [|] eqn:He; [|simpl in Hz; lia].
    assert (MatchLabels p = ∅) as Hm by (apply map_size_empty_iff; lia).
    split; [intros ? [= <-]; apply valid_selector_list|intros ls; split; [|done]; intros _;
      exists p; split; [done|]; apply selector_holds_list];
      rewrite He, Hm, map_to_list_empty; by split. }
  pose proof (valid_selector_list p) as HV.
  pose proof (λ ls, selector_holds_list ls p) as HH.
  pose proof (add_all label_req _ _ label_req_spec (map_to_list (MatchLabels p)) []) as H1.
  unfold label_req in H1. unfold NewSelector.
  destruct (foldl _ (Some (internalSelector [])) _) as [[rs|]|]; [|done|].
  2: { pose proof (add_all_None expr_req (MatchExpressions p)) as H2. unfold expr_req in H2.
       rewrite H2. exists p. split; [done|]. rewrite HV. by intros [? _]. }
  destruct H1 as [Hv1 Hm1].
  pose proof (add_all expr_req _ _ expr_req_spec (MatchExpressions p) rs) as H2.
  unfold expr_req in H2. destruct (foldl _ (Some (internalSelector rs)) _) as [[rs'|]|]; [|done|].
  2: { exists p. split; [done|]. rewrite HV. by intros [_ ?]. }
  destruct H2 as [Hv2 Hm2]. split; [intros ? [= <-]; by apply HV|].
  intros ls. rewrite Hm2, Hm1. split.
  - intros [[_ ?] ?]. exists p. split; [done|]. by apply HH.
  - intros (? & [= <-] & [? ?]%HH). by split.
Qed.

(** C34. [LabelSelectorAsSelector] fails exactly on a selector with an invalid
    key, value or expression.  Otherwise the selector it builds matches a set
    of labels exactly when the API's selector says so: a nil one matches
    nothing, and another one the sets that contain every pair of
    [matchLabels] and satisfy every expression of [matchExpressions] (so the
    empty one matches everything). *)
Theorem label_selector_conversion ps :
  match LabelSelectorAsSelector ps with
  | Some sel =>
      (∀ p, ps = Some p → valid_selector p) ∧
      ∀ ls, Matches sel ls = true ↔ ∃ p, ps = Some p ∧ selector_holds ls p
  | None => ∃ p, ps = Some p ∧ ¬ valid_selector p
  end.
Proof. exact (LabelSelectorAsSelector_spec ps). Qed.

(** The selector parser is total and returns only valid selectors: on
    every text the lexer and the parser stay inside the text and the scanned
    items and stop within the fuel, and they return either an error or
    requirements sorted by key, each accepted by [NewRequirement] and without
    repeated values. *)
Lemma label_parser_total selector :
  match parse selector with
  | Ok reqs => Forall valid_req reqs ∧ Sorted ByKey_le reqs
  | Err => True
  | OutOfRange | OutOfFuel => False
  end.
Proof.
  unfold parse. pose proof (parse_loop_wp _ [] _ (scan_good selector) (le_n _)) as Hwp.
  pose proof (parse_loop_valid (length (scan selector)) [] (scan selector)) as Hv.
  unfold wp in Hwp. destruct (parse_loop _ _ _) as [[rs ts]| | |]; try done.
  specialize (Hv rs ts (Forall_nil_2 _) eq_refl). unfold sort_ByKey. split.
  - by rewrite merge_sort_Permutation.
  - apply Sorted_merge_sort. intros a b. apply string_le_total.
Qed.

(** C33. Printing and parsing a selector: the text of a list of valid
    requirements is parsed, without error, to the same requirements sorted by
    key with sorted values, and the selector read back matches the same sets
    of labels. *)
Theorem selector_text_roundtrip rs :
  Forall valid_req rs →
  Parse (Sel_String (internalSelector rs)) = Ok (internalSelector (sort_ByKey (norm_req <$> rs))) ∧
  ∀ ls, Matches (internalSelector (sort_ByKey (norm_req <$> rs))) ls = Matches (internalSelector rs) ls.
Proof.
  intros Hrs. split; [by apply parse_sel|]. intros ls. rewrite Matches_sort.
  by apply norm_Matches_all.
Qed.

Definition sample_reqs : list Requirement :=
  [mkReq "app.kubernetes.io/name" In ["web"; ""; "api"]; mkReq "in" DoesNotExist [];
   mkReq "tier" NotEquals [""]; mkReq "cores" GreaterThan ["4"]].

Lemma selector_text_roundtrip_witness :
  Forall valid_req sample_reqs ∧
  Parse (Sel_String (internalSelector sample_reqs)) =
    Ok (internalSelector (sort_ByKey (norm_req <$> sample_reqs))).
Proof.
  assert (Forall valid_req sample_reqs) as Hv.
  { repeat (apply Forall_cons_2; [split; [vm_compute; reflexivity|]|]); [..|by constructor];
      apply (bool_decide_unpack _); vm_compute; exact I. }
  split; [exact Hv|]. apply (selector_text_roundtrip sample_reqs Hv).
Defined.

(** The lexer takes a zero byte for the end of the text ([read] returns
    zero there), so a selector is cut at a zero byte that follows white space:
    the requirements after it are dropped without an error. *)
Theorem selector_nul_truncates rest :
  Parse (txt "a=b " ++ "000"%char :: rest) = Parse (txt "a=b").
Proof. reflexivity. Qed.
