(* ===== verification/ApiTypes.v ===== *)
(** * The API objects the scheduler reads: [api/core/v1]

    Pods, nodes and resource lists with the fields the modelled code uses, the
    classification of resource names of [pkg/apis/core/v1/helper] and the
    default requests of [pkg/scheduler/util/non_zero.go].  A nil slice and an
    empty one are the same list; a nil pointer is [None], and so is the zero
    time. *)

From S2P Require Import Prelude Strconv InfDec Quantity Labels.

(** ** Resource names *)

Abbreviation ResourceName := string (only parsing).

Definition ResourceCPU : ResourceName := "cpu".
Definition ResourceMemory : ResourceName := "memory".
Definition ResourceEphemeralStorage : ResourceName := "ephemeral-storage".
Definition ResourcePods : ResourceName := "pods".
Definition ResourceDefaultNamespacePrefix : string := "kubernetes.io/".
Definition ResourceHugePagesPrefix : string := "hugepages-".
Definition ResourceAttachableVolumesPrefix : string := "attachable-volumes-".
Definition DefaultResourceRequestsPrefix : string := "requests.".

Abbreviation ResourceList := (gmap ResourceName Quantity).

(** [ResourceList.Name] *)
Definition rl_Name (rl : ResourceList) (name : ResourceName) (defaultFormat : Format) : Quantity :=
  match rl !! name with
  | Some val => val
  | None => mkQuantity (mkAmount 0 0) None "" defaultFormat
  end.

Definition rl_Cpu (rl : ResourceList) : Quantity := rl_Name rl ResourceCPU DecimalSI.
Definition rl_Memory (rl : ResourceList) : Quantity := rl_Name rl ResourceMemory BinarySI.

(** [strings.HasPrefix] and [strings.Contains] *)
Definition HasPrefix (s prefix : string) : bool := String.prefix prefix s.

Fixpoint Contains (s sub : string) : bool :=
  HasPrefix s sub || match s with String _ s' => Contains s' sub | EmptyString => false end.

Definition IsPrefixedNativeResource (name : ResourceName) : bool :=
  Contains name ResourceDefaultNamespacePrefix.

Definition IsNativeResource (name : ResourceName) : bool :=
  negb (Contains name "/") || IsPrefixedNativeResource name.

Definition IsExtendedResourceName (name : ResourceName) : bool :=
  if IsNativeResource name || HasPrefix name DefaultResourceRequestsPrefix then false
  else
    let nameForQuota := (DefaultResourceRequestsPrefix ++ name)%string in
    IsQualifiedName (txt nameForQuota).

Definition IsHugePageResourceName (name : ResourceName) : bool :=
  HasPrefix name ResourceHugePagesPrefix.

Definition IsAttachableVolumeResourceName (name : ResourceName) : bool :=
  HasPrefix name ResourceAttachableVolumesPrefix.

(** [schedutil.IsScalarResourceName] *)
Definition IsScalarResourceName (name : ResourceName) : bool :=
  IsExtendedResourceName name || IsHugePageResourceName name ||
  IsPrefixedNativeResource name || IsAttachableVolumeResourceName name.

(** ** Pods *)

Record ContainerPort := mkPort { HostPort : Z; Protocol : string; HostIP : string }.

Record Container := mkContainer { Ports : list ContainerPort; Requests : ResourceList }.

Record PodAffinityTerm := mkPodAffinityTerm {
  pat_LabelSelector : option LabelSelector;
  pat_Namespaces : list string;
  pat_TopologyKey : string;
  pat_NamespaceSelector : option LabelSelector;
}.

Record WeightedPodAffinityTerm := mkWeightedPodAffinityTerm {
  wpat_Weight : Z; wpat_PodAffinityTerm : PodAffinityTerm;
}.

(** [PodAffinity] and [PodAntiAffinity] have the same two fields. *)
Record PodAffinity := mkPodAffinity {
  Required : list PodAffinityTerm;
  Preferred : list WeightedPodAffinityTerm;
}.

(** The operator is a string in the API, and so is the effect of a taint. *)
Record NodeSelectorRequirement := mkNodeSelectorRequirement {
  nsr_Key : string; nsr_Operator : string; nsr_Values : list string;
}.

Record NodeSelectorTerm := mkNodeSelectorTerm {
  MatchExpressions : list NodeSelectorRequirement;
  MatchFields : list NodeSelectorRequirement;
}.

Record PreferredSchedulingTerm := mkPreferredSchedulingTerm {
  pst_Weight : Z; pst_Preference : NodeSelectorTerm;
}.

(** The required part is a pointer to a list of terms. *)
Record NodeAffinity := mkNodeAffinity {
  na_Required : option (list NodeSelectorTerm);
  na_Preferred : list PreferredSchedulingTerm;
}.

Record Affinity := mkAffinity {
  aff_PodAffinity : option PodAffinity;
  aff_PodAntiAffinity : option PodAffinity;
  aff_NodeAffinity : option NodeAffinity;
}.

Record Toleration := mkToleration {
  tol_Key : string; tol_Operator : string; tol_Value : string; tol_Effect : string;
}.

Record PodCondition := mkPodCondition {
  pc_Type : string; pc_Status : string; pc_Reason : string; pc_Message : string;
  pc_LastTransitionTime : option Z;
}.

Record OwnerReference := mkOwnerReference {
  own_Kind : string; own_Name : string; own_UID : string; own_Controller : option bool;
}.

Record ContainerStatus := mkContainerStatus { RestartCount : Z }.

Record Pod := mkPod {
  pod_Name : string;
  pod_Namespace : string;
  pod_UID : string;
  pod_ResourceVersion : string;
  pod_Labels : Labels;
  pod_Containers : list Container;
  pod_InitContainers : list Container;
  pod_Overhead : option ResourceList;
  pod_NodeName : string;
  pod_Affinity : option Affinity;
  pod_Priority : option Z;
  pod_NominatedNodeName : string;
  pod_SchedulerName : string;
  pod_NodeSelector : Labels;
  pod_Tolerations : list Toleration;
  pod_Annotations : gmap string string;
  pod_ManagedFields : list string;
  pod_Finalizers : list string;
  pod_DeletionTimestamp : option Z;
  pod_Conditions : list PodCondition;
  pod_PreemptionPolicy : option string;
  pod_CreationTimestamp : option Z;
  pod_OwnerReferences : list OwnerReference;
  pod_Phase : string;
  pod_StartTime : option Z;
  pod_ContainerStatuses : list ContainerStatus;
}.

(** ** Nodes *)

Record ContainerImage := mkImage { img_Names : list string; img_SizeBytes : Z }.

Record Taint := mkTaint {
  taint_Key : string; taint_Value : string; taint_Effect : string; taint_TimeAdded : option Z;
}.

Record NodeCondition := mkNodeCondition { nc_Type : string; nc_Status : string }.

Record Node := mkNode {
  node_Name : string;
  node_Labels : Labels;
  node_Allocatable : ResourceList;
  node_Images : list ContainerImage;
  node_Unschedulable : bool;
  node_Taints : list Taint;
  node_Conditions : list NodeCondition;
}.

(** ** Default requests: [non_zero.go] *)

Definition DefaultMilliCPURequest : Z := 100.
Definition DefaultMemoryRequest : Z := 200 * 1024 * 1024.

Definition GetNonzeroRequestForResource (LocalStorageCapacityIsolation : bool)
    (resource : ResourceName) (requests : ResourceList) : Z :=
  if (resource =? ResourceCPU)%string then
    match requests !! ResourceCPU with
    | None => DefaultMilliCPURequest
    | Some _ => MilliValue (rl_Cpu requests)
    end
  else if (resource =? ResourceMemory)%string then
    match requests !! ResourceMemory with
    | None => DefaultMemoryRequest
    | Some _ => Value (rl_Memory requests)
    end
  else if (resource =? ResourceEphemeralStorage)%string then
    if negb LocalStorageCapacityIsolation then 0
    else match requests !! ResourceEphemeralStorage with None => 0 | Some quantity => Value quantity end
  else if IsScalarResourceName resource then
    match requests !! resource with None => 0 | Some quantity => Value quantity end
  else 0.

Definition GetNonzeroRequests (LocalStorageCapacityIsolation : bool) (requests : ResourceList)
    : Z * Z :=
  (GetNonzeroRequestForResource LocalStorageCapacityIsolation ResourceCPU requests,
   GetNonzeroRequestForResource LocalStorageCapacityIsolation ResourceMemory requests).

(** ** Equality of objects, as [reflect.DeepEqual] decides it *)

#[export] Instance LabelSelectorOperator_eq_dec : EqDecision LabelSelectorOperator.
Proof. solve_decision. Defined.
#[export] Instance LabelSelectorRequirement_eq_dec : EqDecision LabelSelectorRequirement.
Proof. solve_decision. Defined.
#[export] Instance LabelSelector_eq_dec : EqDecision LabelSelector.
Proof. solve_decision. Defined.
#[export] Instance PodAffinityTerm_eq_dec : EqDecision PodAffinityTerm.
Proof. solve_decision. Defined.
#[export] Instance WeightedPodAffinityTerm_eq_dec : EqDecision WeightedPodAffinityTerm.
Proof. solve_decision. Defined.
#[export] Instance PodAffinity_eq_dec : EqDecision PodAffinity.
Proof. solve_decision. Defined.
#[export] Instance NodeSelectorRequirement_eq_dec : EqDecision NodeSelectorRequirement.
Proof. solve_decision. Defined.
#[export] Instance NodeSelectorTerm_eq_dec : EqDecision NodeSelectorTerm.
Proof. solve_decision. Defined.
#[export] Instance PreferredSchedulingTerm_eq_dec : EqDecision PreferredSchedulingTerm.
Proof. solve_decision. Defined.
#[export] Instance NodeAffinity_eq_dec : EqDecision NodeAffinity.
Proof. solve_decision. Defined.
#[export] Instance Toleration_eq_dec : EqDecision Toleration.
Proof. solve_decision. Defined.
#[export] Instance PodCondition_eq_dec : EqDecision PodCondition.
Proof. solve_decision. Defined.
#[export] Instance OwnerReference_eq_dec : EqDecision OwnerReference.
Proof. solve_decision. Defined.
#[export] Instance ContainerStatus_eq_dec : EqDecision ContainerStatus.
Proof. solve_decision. Defined.
#[export] Instance Taint_eq_dec : EqDecision Taint.
Proof. solve_decision. Defined.
#[export] Instance Affinity_eq_dec : EqDecision Affinity.
Proof. solve_decision. Defined.
#[export] Instance ContainerPort_eq_dec : EqDecision ContainerPort.
Proof. solve_decision. Defined.
#[export] Instance Dec_eq_dec : EqDecision Dec.
Proof. solve_decision. Defined.
#[export] Instance int64Amount_eq_dec : EqDecision int64Amount.
Proof. solve_decision. Defined.
#[export] Instance Quantity_eq_dec : EqDecision Quantity.
Proof. pose proof (String.eq_dec : EqDecision Format). solve_decision. Defined.
#[export] Instance Container_eq_dec : EqDecision Container.
Proof. solve_decision. Defined.
#[export] Instance Pod_eq_dec : EqDecision Pod.
Proof. solve_decision. Defined.
