(* ===== verification/NodeInfo.v ===== *)
(** * Aggregated node information: [pkg/scheduler/framework/types.go]

    Resources, host ports, the pre-processed affinity terms of a pod, and
    [NodeInfo], the totals the scheduler keeps for every node.  The feature
    gates the code reads are booleans of the section.  [TransientInfo], which
    no code reads, is left out; the maps [ScalarResources] that are nil and
    those that are empty are the same map. *)

From S2P Require Import Prelude Strconv InfDec Quantity Labels ApiTypes.
#[local] Open Scope Z_scope.

(** ** Resources *)

Record Resource := mkResource {
  MilliCPU : Z;
  Memory : Z;
  EphemeralStorage : Z;
  AllowedPodNumber : Z;
  ScalarResources : gmap ResourceName Z;
}.

Definition zero_Resource : Resource := mkResource 0 0 0 0 ∅.

Definition scalar (r : Resource) (name : ResourceName) : Z := default 0 (ScalarResources r !! name).

Definition SetScalar (r : Resource) (name : ResourceName) (quantity : Z) : Resource :=
  mkResource (MilliCPU r) (Memory r) (EphemeralStorage r) (AllowedPodNumber r)
    (<[name := quantity]> (ScalarResources r)).

Definition AddScalar (r : Resource) (name : ResourceName) (quantity : Z) : Resource :=
  SetScalar r name (int64 (scalar r name + quantity)).

Definition set_MilliCPU (r : Resource) (v : Z) : Resource :=
  mkResource v (Memory r) (EphemeralStorage r) (AllowedPodNumber r) (ScalarResources r).
Definition set_Memory (r : Resource) (v : Z) : Resource :=
  mkResource (MilliCPU r) v (EphemeralStorage r) (AllowedPodNumber r) (ScalarResources r).
Definition set_EphemeralStorage (r : Resource) (v : Z) : Resource :=
  mkResource (MilliCPU r) (Memory r) v (AllowedPodNumber r) (ScalarResources r).
Definition set_AllowedPodNumber (r : Resource) (v : Z) : Resource :=
  mkResource (MilliCPU r) (Memory r) (EphemeralStorage r) v (ScalarResources r).

(** ** Host ports *)

Definition DefaultBindAllHostIP : string := "0.0.0.0".
Definition ProtocolTCP : string := "TCP".

Record ProtocolPort := mkProtocolPort { pp_Protocol : string; pp_Port : Z }.

#[export] Instance ProtocolPort_eq_dec : EqDecision ProtocolPort.
Proof. solve_decision. Defined.
#[export] Instance ProtocolPort_countable : Countable ProtocolPort.
Proof.
  apply (inj_countable' (λ p, (pp_Protocol p, pp_Port p)) (λ x, mkProtocolPort x.1 x.2)).
  by intros [].
Defined.

Definition NewProtocolPort (protocol : string) (port : Z) : ProtocolPort :=
  mkProtocolPort (if (String.length protocol =? 0)%nat then ProtocolTCP else protocol) port.

Abbreviation HostPortInfo := (gmap string (gset ProtocolPort)).

Definition sanitize (ip protocol : string) : string * string :=
  (if (String.length ip =? 0)%nat then DefaultBindAllHostIP else ip,
   if (String.length protocol =? 0)%nat then ProtocolTCP else protocol).

Definition hp_Add (h : HostPortInfo) (ip protocol : string) (port : Z) : HostPortInfo :=
  if port <=? 0 then h
  else
    let '(ip, protocol) := sanitize ip protocol in
    let pp := NewProtocolPort protocol port in
    match h !! ip with
    | None => <[ip := {[pp]}]> h
    | Some m => <[ip := {[pp]} ∪ m]> h
    end.

Definition hp_Remove (h : HostPortInfo) (ip protocol : string) (port : Z) : HostPortInfo :=
  if port <=? 0 then h
  else
    let '(ip, protocol) := sanitize ip protocol in
    let pp := NewProtocolPort protocol port in
    match h !! ip with
    | Some m =>
        let h := <[ip := m ∖ {[pp]}]> h in
        if (size (m ∖ {[pp]}) =? 0)%nat then delete ip h else h
    | None => h
    end.

Definition hp_Len (h : HostPortInfo) : Z :=
  foldl (λ length kv, int64 (length + Z.of_nat (size kv.2))) 0 (map_to_list h).

Definition CheckConflict (h : HostPortInfo) (ip protocol : string) (port : Z) : bool :=
  if port <=? 0 then false
  else
    let '(ip, protocol) := sanitize ip protocol in
    let pp := NewProtocolPort protocol port in
    if (ip =? DefaultBindAllHostIP)%string then
      existsb (λ kv, bool_decide (pp ∈ kv.2)) (map_to_list h)
    else
      existsb (λ key, match h !! key with Some m => bool_decide (pp ∈ m) | None => false end)
        [DefaultBindAllHostIP; ip].

(** ** Affinity terms *)

Record AffinityTerm := mkAffinityTerm {
  Namespaces : gset string;
  at_Selector : Selector;
  TopologyKey : string;
  NamespaceSelector : Selector;
}.

Definition at_Matches (at_ : AffinityTerm) (pod : Pod) (nsLabels : Labels)
    (nsSelectorEnabled : bool) : bool :=
  if bool_decide (pod_Namespace pod ∈ Namespaces at_) ||
     (nsSelectorEnabled && Labels.Matches (NamespaceSelector at_) nsLabels)
  then Labels.Matches (at_Selector at_) (pod_Labels pod)
  else false.

Record WeightedAffinityTerm := mkWeightedAffinityTerm { wat_Term : AffinityTerm; Weight : Z }.

Definition getNamespacesFromPodAffinityTerm (pod : Pod) (term : PodAffinityTerm) : gset string :=
  if (length (pat_Namespaces term) =? 0)%nat && bool_decide (pat_NamespaceSelector term = None)
  then {[pod_Namespace pod]}
  else list_to_set (pat_Namespaces term).

(** [None] for an error. *)
Definition newAffinityTerm (pod : Pod) (term : PodAffinityTerm) : option AffinityTerm :=
  selector ← LabelSelectorAsSelector (pat_LabelSelector term);
  let namespaces := getNamespacesFromPodAffinityTerm pod term in
  nsSelector ← LabelSelectorAsSelector (pat_NamespaceSelector term);
  Some (mkAffinityTerm namespaces selector (pat_TopologyKey term) nsSelector).

Fixpoint getAffinityTerms (pod : Pod) (v1Terms : list PodAffinityTerm) : option (list AffinityTerm) :=
  match v1Terms with
  | [] => Some []
  | term :: v1Terms =>
      t ← newAffinityTerm pod term; terms ← getAffinityTerms pod v1Terms; Some (t :: terms)
  end.

Fixpoint getWeightedAffinityTerms (pod : Pod) (v1Terms : list WeightedPodAffinityTerm)
    : option (list WeightedAffinityTerm) :=
  match v1Terms with
  | [] => Some []
  | term :: v1Terms =>
      t ← newAffinityTerm pod (wpat_PodAffinityTerm term);
      terms ← getWeightedAffinityTerms pod v1Terms;
      Some (mkWeightedAffinityTerm t (wpat_Weight term) :: terms)
  end.

Definition getPodAffinityTerms (affinity : option Affinity) : list PodAffinityTerm :=
  match affinity ≫= aff_PodAffinity with Some a => Required a | None => [] end.

Definition getPodAntiAffinityTerms (affinity : option Affinity) : list PodAffinityTerm :=
  match affinity ≫= aff_PodAntiAffinity with Some a => Required a | None => [] end.

(** [ParseError] as the list of the fields that could not be processed, empty
    for nil. *)
Record PodInfo := mkPodInfo {
  pi_Pod : Pod;
  RequiredAffinityTerms : list AffinityTerm;
  RequiredAntiAffinityTerms : list AffinityTerm;
  PreferredAffinityTerms : list WeightedAffinityTerm;
  PreferredAntiAffinityTerms : list WeightedAffinityTerm;
  ParseError : list string;
}.

Definition parse_err {A} (name : string) (o : option A) : list string :=
  match o with Some _ => [] | None => [name] end.

(** [Update]; a [PodInfo] whose [Pod] is nil is [None]. *)
Definition Update (pi : option PodInfo) (pod : Pod) : PodInfo :=
  let fresh :=
    let preferredAffinityTerms :=
      match pod_Affinity pod ≫= aff_PodAffinity with Some a => Preferred a | None => [] end in
    let preferredAntiAffinityTerms :=
      match pod_Affinity pod ≫= aff_PodAntiAffinity with Some a => Preferred a | None => [] end in
    let requiredAffinityTerms := getAffinityTerms pod (getPodAffinityTerms (pod_Affinity pod)) in
    let requiredAntiAffinityTerms := getAffinityTerms pod (getPodAntiAffinityTerms (pod_Affinity pod)) in
    let weightedAffinityTerms := getWeightedAffinityTerms pod preferredAffinityTerms in
    let weightedAntiAffinityTerms := getWeightedAffinityTerms pod preferredAntiAffinityTerms in
    mkPodInfo pod (default [] requiredAffinityTerms) (default [] requiredAntiAffinityTerms)
      (default [] weightedAffinityTerms) (default [] weightedAntiAffinityTerms)
      (parse_err "requiredAffinityTerms" requiredAffinityTerms ++
       parse_err "requiredAntiAffinityTerms" requiredAntiAffinityTerms ++
       parse_err "preferredAffinityTerms" weightedAffinityTerms ++
       parse_err "preferredAntiAffinityTerms" weightedAntiAffinityTerms) in
  match pi with
  | Some pi =>
      if (pod_UID (pi_Pod pi) =? pod_UID pod)%string then
        mkPodInfo pod (RequiredAffinityTerms pi) (RequiredAntiAffinityTerms pi)
          (PreferredAffinityTerms pi) (PreferredAntiAffinityTerms pi) (ParseError pi)
      else fresh
  | None => fresh
  end.

Definition NewPodInfo (pod : Pod) : PodInfo := Update None pod.

(** [None] for a pod without UID. *)
Definition GetPodKey (pod : Pod) : option string :=
  if (String.length (pod_UID pod) =? 0)%nat then None else Some (pod_UID pod).

Definition podWithAffinity (p : Pod) : bool :=
  match pod_Affinity p with
  | Some a => bool_decide (is_Some (aff_PodAffinity a)) || bool_decide (is_Some (aff_PodAntiAffinity a))
  | None => false
  end.

Definition podWithRequiredAntiAffinity (p : Pod) : bool :=
  match pod_Affinity p ≫= aff_PodAntiAffinity with
  | Some a => negb (length (Required a) =? 0)%nat
  | None => false
  end.

(** Deleting at an index by moving the last element there. *)
Definition delete_swap {A} (s : list A) (i : nat) : list A :=
  match last s with
  | Some x => take (length s - 1) (<[i := x]> s)
  | None => s
  end.

(** The first index of a pod with the key. *)
Definition find_key (s : list PodInfo) (k : string) : option nat :=
  fst <$> list_find (λ pi, GetPodKey (pi_Pod pi) = Some k) s.

Definition removeFromSlice (s : list PodInfo) (k : string) : list PodInfo :=
  match find_key s k with Some i => delete_swap s i | None => s end.

(** ** [NodeInfo] *)

Record ImageStateSummary := mkImageState { Size : Z; NumNodes : Z }.

Record NodeInfo := mkNodeInfo {
  node : option Node;
  Pods : list PodInfo;
  PodsWithAffinity : list PodInfo;
  PodsWithRequiredAntiAffinity : list PodInfo;
  UsedPorts : HostPortInfo;
  Requested : Resource;
  NonZeroRequested : Resource;
  Allocatable : Resource;
  ImageStates : gmap string ImageStateSummary;
  Generation : Z;
}.

(** The global counter [generation] is passed to and returned by the
    operations that take a number from it. *)
Definition nextGeneration (generation : Z) : Z := int64 (generation + 1).

Definition pod_ports (pod : Pod) : list ContainerPort := pod_Containers pod ≫= Ports.

Definition updateUsedPorts (h : HostPortInfo) (pod : Pod) (add : bool) : HostPortInfo :=
  foldl (λ h podPort,
    if add then hp_Add h (HostIP podPort) (Protocol podPort) (HostPort podPort)
    else hp_Remove h (HostIP podPort) (Protocol podPort) (HostPort podPort)) h (pod_ports pod).

Definition RemoveNode (n : NodeInfo) (generation : Z) : NodeInfo * Z :=
  let g := nextGeneration generation in
  (mkNodeInfo None (Pods n) (PodsWithAffinity n) (PodsWithRequiredAntiAffinity n) (UsedPorts n)
     (Requested n) (NonZeroRequested n) (Allocatable n) (ImageStates n) g, g).

Definition Resource_Clone (r : Resource) : Resource :=
  mkResource (MilliCPU r) (Memory r) (EphemeralStorage r) (AllowedPodNumber r)
    (map_fold (λ k v res, <[k := v]> res) ∅ (ScalarResources r)).

Definition copy_slice {A} (s : list A) : list A := if (0 <? length s)%nat then [] ++ s else [].

Definition Clone (n : NodeInfo) : NodeInfo :=
  mkNodeInfo (node n) (copy_slice (Pods n)) (copy_slice (PodsWithAffinity n))
    (copy_slice (PodsWithRequiredAntiAffinity n))
    (map_fold (λ ip portMap ports, <[ip := set_fold (λ pp m, {[pp]} ∪ m) ∅ portMap]> ports) ∅
       (UsedPorts n))
    (Resource_Clone (Requested n)) (Resource_Clone (NonZeroRequested n))
    (Resource_Clone (Allocatable n)) (ImageStates n) (Generation n).

Definition FilterOutPods (n : NodeInfo) (pods : list Pod) : list Pod :=
  match node n with
  | None => pods
  | Some node =>
      List.filter (λ p,
        if negb (pod_NodeName p =? node_Name node)%string then true
        else
          match GetPodKey p with
          | None => false
          | Some podKey =>
              existsb (λ np, (default "" (GetPodKey (pi_Pod np)) =? podKey)%string) (Pods n)
          end) pods
  end.

(** ** The operations that read feature gates *)

Section Gates.
Context (LocalStorageCapacityIsolation PodOverhead : bool).

Definition Add_one (rName : ResourceName) (rQuant : Quantity) (r : Resource) : Resource :=
  if (rName =? ResourceCPU)%string then set_MilliCPU r (int64 (MilliCPU r + MilliValue rQuant))
  else if (rName =? ResourceMemory)%string then set_Memory r (int64 (Memory r + Value rQuant))
  else if (rName =? ResourcePods)%string then
    set_AllowedPodNumber r (int64 (AllowedPodNumber r + Value rQuant))
  else if (rName =? ResourceEphemeralStorage)%string then
    if LocalStorageCapacityIsolation
    then set_EphemeralStorage r (int64 (EphemeralStorage r + Value rQuant)) else r
  else if IsScalarResourceName rName then AddScalar r rName (Value rQuant)
  else r.

(** The loop over the map; its order does not matter, see [Add_get]. *)
Definition Add (r : Resource) (rl : ResourceList) : Resource := map_fold Add_one r rl.

Definition NewResource (rl : ResourceList) : Resource := Add zero_Resource rl.

Definition SetMax_one (rName : ResourceName) (rQuantity : Quantity) (r : Resource) : Resource :=
  if (rName =? ResourceMemory)%string then
    let mem := Value rQuantity in if Memory r <? mem then set_Memory r mem else r
  else if (rName =? ResourceCPU)%string then
    let cpu := MilliValue rQuantity in if MilliCPU r <? cpu then set_MilliCPU r cpu else r
  else if (rName =? ResourceEphemeralStorage)%string then
    if LocalStorageCapacityIsolation then
      let ephemeralStorage := Value rQuantity in
      if EphemeralStorage r <? ephemeralStorage then set_EphemeralStorage r ephemeralStorage else r
    else r
  else if IsScalarResourceName rName then
    let value := Value rQuantity in if scalar r rName <? value then SetScalar r rName value else r
  else r.

Definition SetMaxResource (r : Resource) (rl : ResourceList) : Resource := map_fold SetMax_one r rl.

(** The resources and the non-zero requests of a pod. *)
Definition calculateResource (pod : Pod) : Resource * Z * Z :=
  let '(res, non0CPU, non0Mem) :=
    foldl (λ '(res, non0CPU, non0Mem) c,
      let '(non0CPUReq, non0MemReq) :=
        GetNonzeroRequests LocalStorageCapacityIsolation (Requests c) in
      (Add res (Requests c), int64 (non0CPU + non0CPUReq), int64 (non0Mem + non0MemReq)))
      (zero_Resource, 0, 0) (pod_Containers pod) in
  let '(res, non0CPU, non0Mem) :=
    foldl (λ '(res, non0CPU, non0Mem) ic,
      let '(non0CPUReq, non0MemReq) :=
        GetNonzeroRequests LocalStorageCapacityIsolation (Requests ic) in
      (SetMaxResource res (Requests ic),
       if non0CPU <? non0CPUReq then non0CPUReq else non0CPU,
       if non0Mem <? non0MemReq then non0MemReq else non0Mem))
      (res, non0CPU, non0Mem) (pod_InitContainers pod) in
  match pod_Overhead pod, PodOverhead with
  | Some overhead, true =>
      (Add res overhead,
       match overhead !! ResourceCPU with
       | Some _ => int64 (non0CPU + MilliValue (rl_Cpu overhead)) | None => non0CPU end,
       match overhead !! ResourceMemory with
       | Some _ => int64 (non0Mem + Value (rl_Memory overhead)) | None => non0Mem end)
  | _, _ => (res, non0CPU, non0Mem)
  end.

(** [n.Requested] plus or minus the resources of a pod; [AllowedPodNumber] is
    not touched. *)
Definition update_Requested (r res : Resource) (sign : Z) : Resource :=
  mkResource (int64 (MilliCPU r + sign * MilliCPU res)) (int64 (Memory r + sign * Memory res))
    (int64 (EphemeralStorage r + sign * EphemeralStorage res)) (AllowedPodNumber r)
    (map_fold (λ rName rQuant m, <[rName := int64 (default 0 (m !! rName) + sign * rQuant)]> m)
       (ScalarResources r) (ScalarResources res)).

Definition update_NonZero (r : Resource) (non0CPU non0Mem sign : Z) : Resource :=
  set_Memory (set_MilliCPU r (int64 (MilliCPU r + sign * non0CPU)))
    (int64 (Memory r + sign * non0Mem)).

Definition AddPodInfo (n : NodeInfo) (podInfo : PodInfo) (generation : Z) : NodeInfo * Z :=
  let pod := pi_Pod podInfo in
  let '(res, non0CPU, non0Mem) := calculateResource pod in
  let g := nextGeneration generation in
  (mkNodeInfo (node n) (Pods n ++ [podInfo])
     (if podWithAffinity pod then PodsWithAffinity n ++ [podInfo] else PodsWithAffinity n)
     (if podWithRequiredAntiAffinity pod then PodsWithRequiredAntiAffinity n ++ [podInfo]
      else PodsWithRequiredAntiAffinity n)
     (updateUsedPorts (UsedPorts n) pod true)
     (update_Requested (Requested n) res 1) (update_NonZero (NonZeroRequested n) non0CPU non0Mem 1)
     (Allocatable n) (ImageStates n) g, g).

Definition AddPod (n : NodeInfo) (pod : Pod) (generation : Z) : NodeInfo * Z :=
  AddPodInfo n (NewPodInfo pod) generation.

(** [true] for a nil error.  The message of the last error reads the name of
    the node, a nil dereference when there is none. *)
Definition RemovePod (n : NodeInfo) (pod : Pod) (generation : Z) : outcome (NodeInfo * Z * bool) :=
  match GetPodKey pod with
  | None => Ret (n, generation, false)
  | Some k =>
      let aff := if podWithAffinity pod then removeFromSlice (PodsWithAffinity n) k
                 else PodsWithAffinity n in
      let anti := if podWithRequiredAntiAffinity pod
                  then removeFromSlice (PodsWithRequiredAntiAffinity n) k
                  else PodsWithRequiredAntiAffinity n in
      match find_key (Pods n) k with
      | Some i =>
          let '(res, non0CPU, non0Mem) := calculateResource pod in
          let g := nextGeneration generation in
          Ret (mkNodeInfo (node n) (delete_swap (Pods n) i) aff anti
                 (updateUsedPorts (UsedPorts n) pod false)
                 (update_Requested (Requested n) res (-1))
                 (update_NonZero (NonZeroRequested n) non0CPU non0Mem (-1))
                 (Allocatable n) (ImageStates n) g, g, true)
      | None =>
          match node n with
          | None => Panic
          | Some _ =>
              Ret (mkNodeInfo (node n) (Pods n) aff anti (UsedPorts n) (Requested n)
                     (NonZeroRequested n) (Allocatable n) (ImageStates n) (Generation n),
                   generation, false)
          end
      end
  end.

Definition SetNode (n : NodeInfo) (nd : Node) (generation : Z) : NodeInfo * Z :=
  let g := nextGeneration generation in
  (mkNodeInfo (Some nd) (Pods n) (PodsWithAffinity n) (PodsWithRequiredAntiAffinity n) (UsedPorts n)
     (Requested n) (NonZeroRequested n) (NewResource (node_Allocatable nd)) (ImageStates n) g, g).

Definition NewNodeInfo (pods : list Pod) (generation : Z) : NodeInfo * Z :=
  let g := nextGeneration generation in
  foldl (λ '(ni, g) pod, AddPod ni pod g)
    (mkNodeInfo None [] [] [] ∅ zero_Resource zero_Resource zero_Resource ∅ g, g) pods.

End Gates.

(** ** Host ports as a set of triples *)

(** The addresses and ports in use. *)
Definition flat (h : HostPortInfo) : gset (string * ProtocolPort) :=
  map_fold (λ ip m acc, set_map (ip,.) m ∪ acc) ∅ h.

(** No address has an empty set of ports. *)
Definition hp_wf (h : HostPortInfo) : Prop := map_Forall (λ _ m, m ≠ ∅) h.

Lemma elem_of_flat h ip pp : (ip, pp) ∈ flat h ↔ ∃ m, h !! ip = Some m ∧ pp ∈ m.
Proof.
  unfold flat. revert h. refine (map_fold_weak_ind (λ acc h, (ip, pp) ∈ acc ↔ ∃ m, h !! ip = Some m ∧ pp ∈ m) _ _ _ _).
  - split; [set_solver|]. intros (m & Hm & _). by rewrite lookup_empty in Hm.
  - intros ip' m' h acc Hnone IH. rewrite elem_of_union, elem_of_map, IH. split.
    + intros [(x & [= -> ->] & Hx)|(m & Hm & Hp)].
      * exists m'. by rewrite lookup_insert_eq.
      * exists m. rewrite lookup_insert_ne; [done|]. intros ->. congruence.
    + intros (m & [[-> ->]|[Hne Hm]]%lookup_insert_Some & Hp); [left; by exists pp|right; by exists m].
Qed.

Lemma size_tagged (ip : string) (m : gset ProtocolPort) :
  size (set_map (ip,.) m : gset (string * ProtocolPort)) = size m.
Proof.
  induction m as [|pp m Hpp IH] using set_ind_L; [by rewrite set_map_empty|].
  rewrite set_map_union_L, set_map_singleton_L, !size_union by set_solver.
  by rewrite IH, !size_singleton.
Qed.

Lemma size_flat_fold h :
  foldr (λ kv a, Z.of_nat (size kv.2) + a) 0 (map_to_list h) = Z.of_nat (size (flat h)).
Proof.
  induction h as [|ip m h Hnone IH] using map_ind; [done|].
  assert (flat (<[ip := m]> h) = set_map (ip,.) m ∪ flat h) as ->.
  { apply set_eq. intros [ip' pp]. rewrite elem_of_union, elem_of_map, !elem_of_flat. split.
    - intros (m' & [[-> ->]|[Hne Hm]]%lookup_insert_Some & Hp); [left; by exists pp|right; by exists m'].
    - intros [(x & [= -> ->] & Hx)|(m' & Hm & Hp)].
      + exists m. by rewrite lookup_insert_eq.
      + exists m'. rewrite lookup_insert_ne; [done|]. intros ->. congruence. }
  rewrite size_union, size_tagged.
  - assert (∀ l k : list (string * gset ProtocolPort), l ≡ₚ k →
      foldr (λ kv a, Z.of_nat (size kv.2) + a) 0 l = foldr (λ kv a, Z.of_nat (size kv.2) + a) 0 k) as Hperm.
    { induction 1; simpl; lia. }
    rewrite (Hperm _ _ (map_to_list_insert h ip m Hnone)). simpl. rewrite IH. lia.
  - intros [ip' pp]. rewrite elem_of_map, elem_of_flat. intros (x & [= -> ->] & _) (m' & Hm & _). congruence.
Qed.

(** The triple a port of a container stands for. *)
Definition hp_key (ip protocol : string) (port : Z) : string * ProtocolPort :=
  let '(ip, protocol) := sanitize ip protocol in (ip, NewProtocolPort protocol port).

Lemma hp_Add_flat h ip protocol port :
  0 < port → flat (hp_Add h ip protocol port) = {[hp_key ip protocol port]} ∪ flat h.
Proof.
  intros Hp. unfold hp_Add, hp_key. rewrite (proj2 (Z.leb_gt _ _)) by lia.
  destruct (sanitize ip protocol) as [ip1 pr1]. set (pp := NewProtocolPort pr1 port).
  apply set_eq. intros [ip2 pp2]. rewrite elem_of_union, elem_of_singleton, elem_of_flat.
  destruct (h !! ip1) as [m|] eqn:Hm.
  - setoid_rewrite lookup_insert_Some. rewrite elem_of_flat. split.
    + intros (m2 & [[-> <-]|[Hne Hl]] & Hin); [|right; eauto].
      apply elem_of_union in Hin as [->%elem_of_singleton|Hin]; [by left|right; eauto].
    + intros [[= -> ->]|(m2 & Hl & Hin)]; [eexists; split; [by left|set_solver]|].
      destruct (decide (ip1 = ip2)) as [->|Hne]; [|eexists; by split; [right|]].
      rewrite Hm in Hl. simplify_eq. eexists; split; [by left|set_solver].
  - setoid_rewrite lookup_insert_Some. rewrite elem_of_flat. split.
    + intros (m2 & [[-> <-]|[Hne Hl]] & Hin); [|right; eauto].
      apply elem_of_singleton in Hin as ->. by left.
    + intros [[= -> ->]|(m2 & Hl & Hin)]; [eexists; split; [by left|set_solver]|].
      exists m2. split; [right; split; [congruence|done]|done].
Qed.

Lemma hp_Add_wf h ip protocol port : hp_wf h → hp_wf (hp_Add h ip protocol port).
Proof.
  intros Hwf. unfold hp_Add. case_match; [done|]. destruct (sanitize ip protocol) as [ip1 pr1].
  destruct (h !! ip1) as [m|]; (apply map_Forall_insert_2; [set_solver|done]).
Qed.

Lemma hp_Remove_lookup h ip protocol port ip2 m2 :
  0 < port →
  hp_Remove h ip protocol port !! ip2 = Some m2 ↔
    let '(ip1, pp) := hp_key ip protocol port in
    (ip2 ≠ ip1 ∧ h !! ip2 = Some m2) ∨
    (ip2 = ip1 ∧ ∃ m, h !! ip1 = Some m ∧ m2 = m ∖ {[pp]} ∧ m2 ≠ ∅).
Proof.
  intros Hp. unfold hp_Remove, hp_key. rewrite (proj2 (Z.leb_gt _ _)) by lia.
  destruct (sanitize ip protocol) as [ip1 pr1]. set (pp := NewProtocolPort pr1 port).
  destruct (h !! ip1) as [m|] eqn:Hm.
  - destruct (size (m ∖ {[pp]}) =? 0)%nat eqn:Hsz.
    + apply Nat.eqb_eq, size_empty_inv in Hsz. fold_leibniz.
      rewrite delete_insert_eq, lookup_delete_Some. naive_solver.
    + apply Nat.eqb_neq in Hsz. rewrite lookup_insert_Some.
      assert (m ∖ {[pp]} ≠ ∅) by (intros He; rewrite He in Hsz; by rewrite size_empty in Hsz).
      naive_solver.
  - split; [|naive_solver]. intros Hl. left. split; [congruence|done].
Qed.

Lemma hp_Remove_flat h ip protocol port :
  0 < port → flat (hp_Remove h ip protocol port) = flat h ∖ {[hp_key ip protocol port]}.
Proof.
  intros Hp. apply set_eq. intros [ip2 pp2].
  rewrite elem_of_difference, elem_of_singleton, !elem_of_flat.
  setoid_rewrite (λ m2, hp_Remove_lookup h ip protocol port ip2 m2 Hp). destruct (hp_key ip protocol port) as [ip1 pp]. split.
  - intros (m2 & [[Hne Hl]|[-> (m & Hm & -> & _)]] & Hin).
    + split; [eauto|congruence].
    + split; [exists m; set_solver|set_solver].
  - intros ((m & Hm & Hin) & Hne). destruct (decide (ip2 = ip1)) as [->|]; [|eauto].
    exists (m ∖ {[pp]}). assert (pp2 ∈ m ∖ {[pp]}) by set_solver. split; [|done].
    right. split; [done|]. exists m. set_solver.
Qed.

Lemma hp_Remove_wf h ip protocol port : hp_wf h → hp_wf (hp_Remove h ip protocol port).
Proof.
  intros Hwf. destruct (decide (0 < port)) as [Hp|Hp].
  - intros ip2 m2 Hl. apply hp_Remove_lookup in Hl; [|done].
    destruct (hp_key ip protocol port) as [ip1 pp].
    destruct Hl as [[_ Hl]|[_ (m & _ & _ & Hne)]]; [by apply (Hwf ip2)|done].
  - unfold hp_Remove. rewrite (proj2 (Z.leb_le _ _)) by lia. done.
Qed.

Lemma CheckConflict_flat h ip protocol port :
  0 < port →
  let '(ip1, pp) := hp_key ip protocol port in
  CheckConflict h ip protocol port = true ↔
    ∃ ip2, (ip2, pp) ∈ flat h ∧
      (ip1 = DefaultBindAllHostIP ∨ ip2 = DefaultBindAllHostIP ∨ ip2 = ip1).
Proof.
  intros Hp. unfold CheckConflict, hp_key. rewrite (proj2 (Z.leb_gt _ _)) by lia.
  destruct (sanitize ip protocol) as [ip1 pr1]. set (pp := NewProtocolPort pr1 port).
  setoid_rewrite elem_of_flat. destruct (ip1 =? DefaultBindAllHostIP)%string eqn:Hip.
  - apply String.eqb_eq in Hip as ->. rewrite existsb_exists. setoid_rewrite <- list_elem_of_In.
    split.
    + intros ([ip2 m] & Hin%elem_of_map_to_list & Hm%bool_decide_eq_true). exists ip2. eauto.
    + intros (ip2 & (m & Hm & Hin) & _). exists (ip2, m).
      split; [by apply elem_of_map_to_list|by apply bool_decide_eq_true].
  - apply String.eqb_neq in Hip. rewrite existsb_exists. split.
    + intros (k & Hk & Hm). case_match; [|done]. apply bool_decide_eq_true in Hm.
      exists k. split; [eauto|]. simpl in Hk. naive_solver.
    + intros (ip2 & (m & Hm & Hin) & Hor). exists ip2.
      split; [simpl; naive_solver|]. rewrite Hm. by apply bool_decide_eq_true.
Qed.

Lemma hp_Len_flat h : hp_Len h = int64 (Z.of_nat (size (flat h))).
Proof.
  unfold hp_Len. rewrite <- size_flat_fold. generalize (map_to_list h). intros l.
  assert (∀ a, foldl (λ length kv, int64 (length + Z.of_nat (size kv.2))) (int64 a) l =
    int64 (a + foldr (λ (kv : string * gset ProtocolPort) a, Z.of_nat (size kv.2) + a) 0 l)) as Hl.
  { induction l as [|kv l IH]; intros a; simpl; [f_equal; lia|].
    rewrite int64_add_l, IH. f_equal. lia. }
  apply (Hl 0).
Qed.

(** [HostPortInfo] is a set of (address, protocol, port) triples, with the
    empty address and protocol standing for 0.0.0.0 and TCP: [Add] and [Remove]
    add and remove the triple (and leave no empty entry behind), [Len] counts
    the triples, and [CheckConflict] finds exactly the triples with the same
    protocol and port whose address is equal or one of the two is 0.0.0.0.
    Ports that are not positive are ignored by all of them. *)
Lemma host_ports_refine h ip protocol port :
  hp_wf h →
  let '(ip1, pp) := hp_key ip protocol port in
  (port ≤ 0 → hp_Add h ip protocol port = h ∧ hp_Remove h ip protocol port = h ∧
              CheckConflict h ip protocol port = false) ∧
  (0 < port →
     flat (hp_Add h ip protocol port) = {[(ip1, pp)]} ∪ flat h ∧
     flat (hp_Remove h ip protocol port) = flat h ∖ {[(ip1, pp)]} ∧
     (CheckConflict h ip protocol port = true ↔
        ∃ ip2, (ip2, pp) ∈ flat h ∧
          (ip1 = DefaultBindAllHostIP ∨ ip2 = DefaultBindAllHostIP ∨ ip2 = ip1))) ∧
  hp_wf (hp_Add h ip protocol port) ∧ hp_wf (hp_Remove h ip protocol port) ∧
  hp_Len h = int64 (Z.of_nat (size (flat h))).
Proof.
  intros Hwf. pose proof (hp_Add_flat h ip protocol port) as HA.
  pose proof (hp_Remove_flat h ip protocol port) as HR.
  pose proof (CheckConflict_flat h ip protocol port) as HC.
  destruct (hp_key ip protocol port) as [ip1 pp]. split_and!.
  - intros Hp. unfold hp_Add, hp_Remove, CheckConflict. by rewrite (proj2 (Z.leb_le _ _)).
  - intros Hp. auto.
  - by apply hp_Add_wf.
  - by apply hp_Remove_wf.
  - apply hp_Len_flat.
Qed.

Lemma host_ports_refine_witness :
  let h := hp_Add (hp_Add ∅ "10.0.0.1" "" 80) "" "UDP" 53 in
  hp_wf h ∧ CheckConflict h "0.0.0.0" "TCP" 80 = true ∧
  hp_wf (hp_Remove h "10.0.0.1" "TCP" 80).
Proof.
  assert (hp_wf (hp_Add (hp_Add ∅ "10.0.0.1" "" 80) "" "UDP" 53)) as Hwf.
  { apply (bool_decide_unpack _). vm_compute. exact I. }
  split; [exact Hwf|]. split; [vm_compute; reflexivity|].
  apply (host_ports_refine _ "10.0.0.1" "TCP" 80 Hwf).
Defined.

(** ** Sums over the pods of a node *)

(** A dimension of a [Resource]. *)
Inductive dim := DCPU | DMemory | DEphemeralStorage | DScalar (name : ResourceName).

Definition get (d : dim) (r : Resource) : Z :=
  match d with
  | DCPU => MilliCPU r
  | DMemory => Memory r
  | DEphemeralStorage => EphemeralStorage r
  | DScalar name => scalar r name
  end.

(** Every stored number is a 64-bit one. *)
Definition res_wf (r : Resource) : Prop := ∀ d, in64 (get d r).

Lemma zero_get d : get d zero_Resource = 0.
Proof. by destruct d. Qed.

Lemma update_Requested_get r res sign d :
  in64 (get d r) →
  get d (update_Requested r res sign) = int64 (get d r + sign * get d res).
Proof.
  intros Hr. destruct d as [| | |name]; try done. simpl in *. unfold scalar, update_Requested in *. simpl.
  assert (∀ m, map_fold (λ rName rQuant m,
      <[rName := int64 (default 0 (m !! rName) + sign * rQuant)]> m) (ScalarResources r) m !! name =
    match m !! name with
    | Some q => Some (int64 (default 0 (ScalarResources r !! name) + sign * q))
    | None => ScalarResources r !! name
    end) as Hl.
  { refine (map_fold_weak_ind (λ (acc : gmap string Z) m, acc !! name = match m !! name with
      | Some q => Some (int64 (default 0 (ScalarResources r !! name) + sign * q))
      | None => ScalarResources r !! name end) _ _ _ _).
    - by rewrite lookup_empty.
    - intros i x m acc Hnone IH. destruct (decide (i = name)) as [->|Hne].
      + rewrite !lookup_insert_eq. by rewrite Hnone in IH; rewrite IH.
      + by rewrite !lookup_insert_ne. }
  rewrite Hl. destruct (ScalarResources res !! name) as [q|]; simpl; [done|].
  rewrite Z.mul_0_r, Z.add_0_r, int64_id; done.
Qed.

(** *** Deleting from a slice *)

Lemma delete_swap_perm {A} (s : list A) i x : s !! i = Some x → s ≡ₚ x :: delete_swap s i.
Proof.
  intros Hi. unfold delete_swap. destruct s as [|y s' _] using rev_ind; [done|].
  rewrite last_snoc, length_app, Nat.add_sub. pose proof (lookup_lt_Some _ _ _ Hi) as Hlt.
  rewrite length_app in Hlt. simpl in Hlt. destruct (decide (i = length s')) as [->|Hne].
  - rewrite list_lookup_middle in Hi by done. simplify_eq.
    rewrite take_insert_ge, take_app_length by lia. apply Permutation_sym, Permutation_cons_append.
  - rewrite lookup_app_l in Hi by lia. rewrite insert_app_l by lia.
    rewrite take_app_le, take_ge by (rewrite length_insert; lia).
    rewrite insert_take_drop by lia. rewrite <- (take_drop_middle s' i x Hi) at 1.
    rewrite <- app_assoc. simpl. rewrite <- !Permutation_middle, Permutation_app_comm.
    rewrite app_comm_cons. solve_Permutation.
Qed.

Lemma GetPodKey_Some pod k : GetPodKey pod = Some k ↔ k = pod_UID pod ∧ k ≠ EmptyString.
Proof. unfold GetPodKey. destruct (pod_UID pod) eqn:H; simpl; naive_solver. Qed.

Lemma find_key_Some s k i :
  find_key s k = Some i →
  ∃ pi, s !! i = Some pi ∧ GetPodKey (pi_Pod pi) = Some k ∧
        ∀ j pi', s !! j = Some pi' → (j < i)%nat → GetPodKey (pi_Pod pi') ≠ Some k.
Proof.
  unfold find_key. intros ([i' pi] & (H1 & H2 & H3)%list_find_Some & ->)%fmap_Some. eauto.
Qed.

Lemma find_key_None s k :
  find_key s k = None ↔ ∀ pi, pi ∈ s → GetPodKey (pi_Pod pi) ≠ Some k.
Proof.
  unfold find_key. rewrite fmap_None. etransitivity; [apply list_find_None|]. apply Forall_forall.
Qed.

Lemma removeFromSlice_spec s k :
  (∃ pi, GetPodKey (pi_Pod pi) = Some k ∧ s ≡ₚ pi :: removeFromSlice s k) ∨
  ((∀ pi, pi ∈ s → GetPodKey (pi_Pod pi) ≠ Some k) ∧ removeFromSlice s k = s).
Proof.
  unfold removeFromSlice. destruct (find_key s k) as [i|] eqn:Hf.
  - left. apply find_key_Some in Hf as (pi & Hi & Hk & _). exists pi.
    split; [done|by apply delete_swap_perm].
  - right. by rewrite <- find_key_None.
Qed.

(** ** The totals of a node *)

Definition node_pods (n : NodeInfo) : list Pod := pi_Pod <$> Pods n.

Section Accounting.
Context (LocalStorageCapacityIsolation PodOverhead : bool).
Local Abbreviation calculateResource := (calculateResource LocalStorageCapacityIsolation PodOverhead).
Local Abbreviation AddPodInfo := (AddPodInfo LocalStorageCapacityIsolation PodOverhead).
Local Abbreviation AddPod := (AddPod LocalStorageCapacityIsolation PodOverhead).
Local Abbreviation RemovePod := (RemovePod LocalStorageCapacityIsolation PodOverhead).
Local Abbreviation SetNode := (SetNode LocalStorageCapacityIsolation).
Local Abbreviation NewNodeInfo := (NewNodeInfo LocalStorageCapacityIsolation PodOverhead).

Definition pod_request (pod : Pod) : Resource := (calculateResource pod).1.1.
Definition pod_non0CPU (pod : Pod) : Z := (calculateResource pod).1.2.
Definition pod_non0Mem (pod : Pod) : Z := (calculateResource pod).2.

(** The UIDs of a list of pods. *)
Local Abbreviation uids l := (pod_UID <$> l).

(** The totals are the sums over the pods, in 64-bit arithmetic, and the two
    sublists hold the pods they are for. *)
Record ni_wf (n : NodeInfo) : Prop := {
  wf_requested d : get d (Requested n) = int64 (zsum (λ p, get d (pod_request p)) (node_pods n));
  wf_non0CPU : MilliCPU (NonZeroRequested n) = int64 (zsum pod_non0CPU (node_pods n));
  wf_non0Mem : Memory (NonZeroRequested n) = int64 (zsum pod_non0Mem (node_pods n));
  wf_affinity :
    uids (pi_Pod <$> PodsWithAffinity n) ≡ₚ uids (filter (λ p, podWithAffinity p = true) (node_pods n));
  wf_antiAffinity :
    uids (pi_Pod <$> PodsWithRequiredAntiAffinity n) ≡ₚ
      uids (filter (λ p, podWithRequiredAntiAffinity p = true) (node_pods n));
}.

(** Two versions of a pod with the same resources, ports and affinity, which
    do not change during its life. *)
Definition same_spec (p q : Pod) : Prop :=
  pod_Containers p = pod_Containers q ∧ pod_InitContainers p = pod_InitContainers q ∧
  pod_Overhead p = pod_Overhead q ∧ pod_Affinity p = pod_Affinity q.

Lemma same_spec_eq p q :
  same_spec p q →
  calculateResource p = calculateResource q ∧ podWithAffinity p = podWithAffinity q ∧
  podWithRequiredAntiAffinity p = podWithRequiredAntiAffinity q ∧ pod_ports p = pod_ports q.
Proof.
  intros (H1 & H2 & H3 & H4).
  unfold NodeInfo.calculateResource, podWithAffinity, podWithRequiredAntiAffinity, pod_ports.
  by rewrite H1, H2, H3, H4.
Qed.

(** The pods of the node with the UID of [pod] are versions of it. *)
Definition agrees (n : NodeInfo) (pod : Pod) : Prop :=
  ∀ p, p ∈ node_pods n → pod_UID p = pod_UID pod → same_spec p pod.

Lemma AddPodInfo_wf n pi g : ni_wf n → ni_wf (AddPodInfo n pi g).1.
Proof.
  intros [Hr Hc Hm Ha Haa]. unfold NodeInfo.AddPodInfo.
  pose proof (eq_refl : pod_request (pi_Pod pi) = (calculateResource (pi_Pod pi)).1.1) as Hreq.
  pose proof (eq_refl : pod_non0CPU (pi_Pod pi) = (calculateResource (pi_Pod pi)).1.2) as Hcpu.
  pose proof (eq_refl : pod_non0Mem (pi_Pod pi) = (calculateResource (pi_Pod pi)).2) as Hmem.
  destruct (calculateResource (pi_Pod pi)) as [[res c0] m0]. simpl in *. subst res c0 m0.
  split; unfold node_pods, update_NonZero, set_Memory, set_MilliCPU in *;
    cbn [fst Requested NonZeroRequested Pods PodsWithAffinity PodsWithRequiredAntiAffinity
         MilliCPU Memory]; rewrite ?fmap_app, ?zsum_app.
  - intros d. rewrite update_Requested_get by (rewrite Hr; apply int64_range).
    rewrite Hr, int64_add_l. f_equal. rewrite zsum_app. simpl. lia.
  - rewrite Hc, int64_add_l. f_equal. simpl. lia.
  - rewrite Hm, int64_add_l. f_equal. simpl. lia.
  - rewrite filter_app, fmap_cons, fmap_nil, filter_cons, filter_nil. destruct (podWithAffinity (pi_Pod pi)) eqn:Hp.
    + rewrite decide_True by done. by rewrite !fmap_app, Ha.
    + rewrite decide_False by congruence. by rewrite app_nil_r.
  - rewrite filter_app, fmap_cons, fmap_nil, filter_cons, filter_nil.
    destruct (podWithRequiredAntiAffinity (pi_Pod pi)) eqn:Hp.
    + rewrite decide_True by done. by rewrite !fmap_app, Haa.
    + rewrite decide_False by congruence. by rewrite app_nil_r.
Qed.
Lemma removeFromSlice_present s (l l' : list Pod) pod k :
  uids (pi_Pod <$> s) ≡ₚ uids l → uids l ≡ₚ k :: uids l' → GetPodKey pod = Some k →
  uids (pi_Pod <$> removeFromSlice s k) ≡ₚ uids l'.
Proof.
  intros Hs Hl Hk. apply GetPodKey_Some in Hk as [_ Hne].
  destruct (removeFromSlice_spec s k) as [(pi & Hpk & Hperm)|[Hno _]].
  - apply GetPodKey_Some in Hpk as [-> _]. rewrite Hperm, Hl in Hs. rewrite !fmap_cons in Hs.
    by apply (inj (cons (pod_UID (pi_Pod pi)))) in Hs.
  - assert (k ∈ uids (pi_Pod <$> s)) as Hin by (rewrite Hs, Hl; by left).
    apply list_elem_of_fmap in Hin as (p & -> & (pi & -> & Hin)%list_elem_of_fmap).
    destruct (Hno pi Hin). by apply GetPodKey_Some.
Qed.

Lemma removeFromSlice_absent (P : Pod → Prop) `{∀ p, Decision (P p)} s l pod k :
  uids (pi_Pod <$> s) ≡ₚ uids (filter P l) → GetPodKey pod = Some k →
  (∀ p, p ∈ l → pod_UID p ≠ pod_UID pod) → removeFromSlice s k = s.
Proof.
  intros Hs Hk Hno. destruct (removeFromSlice_spec s k) as [(pi & Hpk & Hperm)|[_ ?]]; [|done].
  assert (pod_UID (pi_Pod pi) ∈ uids (filter P l)) as (p & Hp & [_ Hin]%list_elem_of_filter)%list_elem_of_fmap.
  { rewrite <- Hs, Hperm. by left. }
  destruct (Hno _ Hin). apply GetPodKey_Some in Hk as [-> _]. apply GetPodKey_Some in Hpk as [Heq _].
  congruence.
Qed.

(** Removing a pod from a node, on every branch. *)
Lemma RemovePod_spec n pod g :
  ni_wf n → agrees n pod →
  match RemovePod n pod g with
  | Ret (n', g', true) =>
      ni_wf n' ∧ (∃ p, node_pods n ≡ₚ (p :: node_pods n') ∧ pod_UID p = pod_UID pod) ∧
      pod_UID pod ≠ EmptyString ∧ node n' = node n ∧ Allocatable n' = Allocatable n ∧ ImageStates n' = ImageStates n ∧
      UsedPorts n' = updateUsedPorts (UsedPorts n) pod false ∧
      g' = nextGeneration g ∧ Generation n' = g'
  | Ret (n', g', false) => n' = n ∧ g' = g ∧ (pod_UID pod = EmptyString ∨ pod_UID pod ∉ pod_UID <$> node_pods n)
  | Panic => (pod_UID pod ∉ pod_UID <$> node_pods n) ∧ pod_UID pod ≠ EmptyString ∧ node n = None
  end.
Proof.
  intros [Hr Hc Hm Ha Haa] Hag. unfold NodeInfo.RemovePod.
  destruct (GetPodKey pod) as [k|] eqn:Hk.
  2: { split_and!; [done|done|]. left. unfold GetPodKey in Hk. by destruct (pod_UID pod). }
  pose proof Hk as [-> Hne]%GetPodKey_Some.
  destruct (find_key (Pods n) (pod_UID pod)) as [i|] eqn:Hf.
  - apply find_key_Some in Hf as (pi & Hi & Hpk & _).
    assert (pod_UID (pi_Pod pi) = pod_UID pod) as Huid by (by apply GetPodKey_Some in Hpk as [<- _]).
    assert (node_pods n ≡ₚ (pi_Pod pi :: (pi_Pod <$> delete_swap (Pods n) i))) as Hperm.
    { unfold node_pods. by rewrite (delete_swap_perm _ _ _ Hi) at 1. }
    assert (same_spec (pi_Pod pi) pod) as (Hcalc & Haff & Hanti & Hports)%same_spec_eq.
    { apply Hag; [rewrite Hperm; by left|done]. }
    pose proof (eq_refl : pod_request (pi_Pod pi) = (calculateResource (pi_Pod pi)).1.1) as Hreq.
    pose proof (eq_refl : pod_non0CPU (pi_Pod pi) = (calculateResource (pi_Pod pi)).1.2) as Hcpu.
    pose proof (eq_refl : pod_non0Mem (pi_Pod pi) = (calculateResource (pi_Pod pi)).2) as Hmem.
    rewrite Hcalc in Hreq, Hcpu, Hmem.
    destruct (calculateResource pod) as [[res c0] m0]. simpl in Hreq, Hcpu, Hmem. subst res c0 m0.
    split_and!; try done; [|exists (pi_Pod pi); split; [done|by rewrite Huid]].
    split; unfold node_pods, update_NonZero, set_Memory, set_MilliCPU in *;
      cbn [fst Requested NonZeroRequested Pods PodsWithAffinity PodsWithRequiredAntiAffinity
           MilliCPU Memory].
    + intros d. rewrite update_Requested_get by (rewrite Hr; apply int64_range).
      rewrite Hr, int64_add_l, (zsum_perm _ _ _ Hperm). f_equal. simpl. lia.
    + rewrite Hc, int64_add_l, (zsum_perm _ _ _ Hperm). f_equal. simpl. lia.
    + rewrite Hm, int64_add_l, (zsum_perm _ _ _ Hperm). f_equal. simpl. lia.
    + rewrite <- Haff. destruct (podWithAffinity (pi_Pod pi)) eqn:Hp.
      * eapply removeFromSlice_present; [exact Ha| |exact Hk].
        by rewrite Hperm, filter_cons_True, fmap_cons, Huid.
      * by rewrite Ha, Hperm, filter_cons_False by congruence.
    + rewrite <- Hanti. destruct (podWithRequiredAntiAffinity (pi_Pod pi)) eqn:Hp.
      * eapply removeFromSlice_present; [exact Haa| |exact Hk].
        by rewrite Hperm, filter_cons_True, fmap_cons, Huid.
      * by rewrite Haa, Hperm, filter_cons_False by congruence.
  - assert (∀ p, p ∈ node_pods n → pod_UID p ≠ pod_UID pod) as Hno.
    { intros p (pi & -> & Hin)%list_elem_of_fmap Heq. rewrite find_key_None in Hf.
      apply (Hf pi Hin), GetPodKey_Some. by rewrite Heq. }
    assert (pod_UID pod ∉ uids (node_pods n)) as Hnot.
    { intros (p & Heq & Hin)%list_elem_of_fmap. by apply (Hno p). }
    rewrite !(removeFromSlice_absent _ _ _ _ _ Ha Hk Hno), !(removeFromSlice_absent _ _ _ _ _ Haa Hk Hno).
    rewrite !(Tauto.if_same). destruct (node n) as [nd|] eqn:Hn; [|done].
    split_and!; [|done|by right]. rewrite <- Hn. by destruct n.
Qed.

Lemma SetNode_wf n nd g : ni_wf n → ni_wf (SetNode n nd g).1.
Proof. intros []. by split. Qed.

Lemma RemoveNode_wf n g : ni_wf n → ni_wf (RemoveNode n g).1.
Proof. intros []. by split. Qed.

Lemma empty_wf g : ni_wf (NewNodeInfo [] g).1.
Proof. split; try done. intros d. simpl. by rewrite zero_get. Qed.

(** *** Histories of a node *)

Inductive ni_op :=
| OpAddPod (pi : PodInfo)
| OpRemovePod (pod : Pod)
| OpSetNode (nd : Node)
| OpRemoveNode.

Definition ni_exec (op : ni_op) (s : NodeInfo * Z) : outcome (NodeInfo * Z) :=
  match op with
  | OpAddPod pi => Ret (AddPodInfo s.1 pi s.2)
  | OpRemovePod pod =>
      match RemovePod s.1 pod s.2 with Ret (n, g, _) => Ret (n, g) | Panic => Panic end
  | OpSetNode nd => Ret (SetNode s.1 nd s.2)
  | OpRemoveNode => Ret (RemoveNode s.1 s.2)
  end.

Fixpoint ni_run (ops : list ni_op) (s : NodeInfo * Z) : outcome (NodeInfo * Z) :=
  match ops with
  | [] => Ret s
  | op :: ops => match ni_exec op s with Ret s => ni_run ops s | Panic => Panic end
  end.

Definition op_pod (op : ni_op) : option Pod :=
  match op with OpAddPod pi => Some (pi_Pod pi) | OpRemovePod pod => Some pod | _ => None end.

(** The pods of a history: those with the same UID are versions of one pod. *)
Definition identified (pod_of : string → Pod) (p : Pod) : Prop := same_spec p (pod_of (pod_UID p)).

Lemma ni_exec_wf pod_of op n g n' g' :
  (∀ p, op_pod op = Some p → identified pod_of p) →
  ni_wf n ∧ Forall (identified pod_of) (node_pods n) → ni_exec op (n, g) = Ret (n', g') →
  ni_wf n' ∧ Forall (identified pod_of) (node_pods n').
Proof.
  intros Hop [Hwf Hid] Hex. destruct op as [pi|pod|nd|]; simpl in *; simplify_eq.
  - pose proof (AddPodInfo_wf n pi g Hwf) as Hwf'.
    assert (node_pods (AddPodInfo n pi g).1 = node_pods n ++ [pi_Pod pi]) as Hpods.
    { unfold NodeInfo.AddPodInfo. destruct (calculateResource (pi_Pod pi)) as [[? ?] ?].
      unfold node_pods. cbn [fst Pods]. by rewrite fmap_app. }
    rewrite Hex in Hwf', Hpods. split; [done|]. simpl in Hpods. rewrite Hpods.
    apply Forall_app. split; [done|]. constructor; [by apply Hop|done].
  - pose proof (RemovePod_spec n pod g Hwf) as HR.
    assert (agrees n pod) as Hag.
    { intros p Hp Heq. rewrite Forall_forall in Hid. pose proof (Hid p Hp) as H1.
      pose proof (Hop pod eq_refl) as H2. unfold identified in *. rewrite Heq in H1.
      destruct H1 as (? & ? & ? & ?), H2 as (? & ? & ? & ?). split_and!; congruence. }
    specialize (HR Hag). destruct (RemovePod n pod g) as [[[n1 g1] []]|]; [| |done]; simplify_eq.
    + destruct HR as (Hwf' & (p & Hp & _) & _). split; [done|].
      rewrite Hp in Hid. by apply Forall_cons in Hid as [_ ?].
    + by destruct HR as (-> & _).
  - split; [by apply (SetNode_wf n nd g)|done].
  - split; [by apply (RemoveNode_wf n g)|done].
Qed.

Lemma ni_run_wf pod_of ops n g n' g' :
  (∀ op p, op ∈ ops → op_pod op = Some p → identified pod_of p) →
  ni_wf n ∧ Forall (identified pod_of) (node_pods n) → ni_run ops (n, g) = Ret (n', g') →
  ni_wf n'.
Proof.
  revert n g. induction ops as [|op ops IH]; intros n g Hops Hwf Hrun; simpl in Hrun.
  { by simplify_eq; apply Hwf. }
  destruct (ni_exec op (n, g)) as [[n1 g1]|] eqn:Hex; [|done].
  eapply IH; [| |exact Hrun]; [intros; eapply Hops; [by right|done]|].
  eapply ni_exec_wf; [|exact Hwf|exact Hex]. intros p. apply Hops. by left.
Qed.
End Accounting.

(** C39. The totals of a node are right after every history: when a fresh
    [NodeInfo] goes through any sequence of additions and removals of pods and
    of the node object, in which pods with the same UID have the same spec, every
    dimension of [Requested] (CPU, memory, ephemeral storage and each scalar
    resource) is the sum, in 64-bit arithmetic, of the requests of the pods it
    holds, [NonZeroRequested] likewise, and [PodsWithAffinity] and
    [PodsWithRequiredAntiAffinity] hold exactly those of its pods (by UID). *)
Theorem node_info_accounting lsci overhead pod_of ops g n g' :
  (∀ op p, op ∈ ops → op_pod op = Some p → identified pod_of p) →
  ni_run lsci overhead ops (NewNodeInfo lsci overhead [] g) = Ret (n, g') →
  ni_wf lsci overhead n.
Proof.
  intros Hops Hrun. eapply (ni_run_wf lsci overhead pod_of ops); [done| |].
  - split; [apply (empty_wf lsci overhead g)|constructor].
  - exact Hrun.
Qed.

(** [RemovePod] on every branch: it removes exactly one pod, one with the
    UID of the pod given, and keeps the totals right; it changes nothing when
    the pod has no UID or is not on the node; and it dereferences a nil node
    exactly when the pod is not there and the node object is missing too. *)
Theorem node_info_remove lsci overhead n pod g :
  ni_wf lsci overhead n → agrees n pod →
  match RemovePod lsci overhead n pod g with
  | Ret (n', g', true) =>
      ni_wf lsci overhead n' ∧ (∃ p, node_pods n ≡ₚ (p :: node_pods n') ∧ pod_UID p = pod_UID pod) ∧
      pod_UID pod ≠ EmptyString ∧ node n' = node n ∧ Allocatable n' = Allocatable n ∧ ImageStates n' = ImageStates n ∧
      UsedPorts n' = updateUsedPorts (UsedPorts n) pod false ∧
      g' = nextGeneration g ∧ Generation n' = g'
  | Ret (n', g', false) => n' = n ∧ g' = g ∧ (pod_UID pod = EmptyString ∨ pod_UID pod ∉ pod_UID <$> node_pods n)
  | Panic => (pod_UID pod ∉ pod_UID <$> node_pods n) ∧ pod_UID pod ≠ EmptyString ∧ node n = None
  end.
Proof. apply RemovePod_spec. Qed.

(** ** Adding and removing the same pod *)

Definition pod_keys (ports : list ContainerPort) : list (string * ProtocolPort) :=
  (λ p, hp_key (HostIP p) (Protocol p) (HostPort p)) <$> filter (λ p, 0 < HostPort p) ports.

Lemma pod_keys_cons p ports :
  pod_keys (p :: ports) =
    if decide (0 < HostPort p) then hp_key (HostIP p) (Protocol p) (HostPort p) :: pod_keys ports
    else pod_keys ports.
Proof. unfold pod_keys. rewrite filter_cons. by case_decide. Qed.

Lemma ports_add_flat ports h :
  hp_wf h →
  let h' := foldl (λ h p, hp_Add h (HostIP p) (Protocol p) (HostPort p)) h ports in
  hp_wf h' ∧ flat h' = list_to_set (pod_keys ports) ∪ flat h.
Proof.
  revert h. induction ports as [|p ports IH]; intros h Hwf; simpl; [split; [done|set_solver]|].
  rewrite pod_keys_cons. destruct (IH (hp_Add h (HostIP p) (Protocol p) (HostPort p))) as [H1 H2];
    [by apply hp_Add_wf|]. split; [done|]. rewrite H2. case_decide as Hp.
  - rewrite hp_Add_flat by done. set_solver.
  - unfold hp_Add. by rewrite (proj2 (Z.leb_le _ _)) by lia.
Qed.

Lemma ports_remove_flat ports h :
  hp_wf h →
  let h' := foldl (λ h p, hp_Remove h (HostIP p) (Protocol p) (HostPort p)) h ports in
  hp_wf h' ∧ flat h' = flat h ∖ list_to_set (pod_keys ports).
Proof.
  revert h. induction ports as [|p ports IH]; intros h Hwf; simpl; [split; [done|set_solver]|].
  rewrite pod_keys_cons. destruct (IH (hp_Remove h (HostIP p) (Protocol p) (HostPort p))) as [H1 H2];
    [by apply hp_Remove_wf|]. split; [done|]. rewrite H2. case_decide as Hp.
  - rewrite hp_Remove_flat by done. set_solver.
  - unfold hp_Remove. by rewrite (proj2 (Z.leb_le _ _)) by lia.
Qed.

(** A map without empty entries is determined by its triples. *)
Lemma flat_inj h1 h2 : hp_wf h1 → hp_wf h2 → flat h1 = flat h2 → h1 = h2.
Proof.
  intros Hwf1 Hwf2 Heq. apply map_eq. intros ip.
  assert (∀ pp, (∃ m, h1 !! ip = Some m ∧ pp ∈ m) ↔ (∃ m, h2 !! ip = Some m ∧ pp ∈ m)) as Hpp.
  { intros pp. by rewrite <- !elem_of_flat, Heq. }
  destruct (h1 !! ip) as [m1|] eqn:H1, (h2 !! ip) as [m2|] eqn:H2; [|..|done].
  - f_equal. apply set_eq. intros pp. specialize (Hpp pp). naive_solver.
  - destruct (set_choose_L m1 (Hwf1 ip m1 H1)) as [pp Hin]. specialize (Hpp pp). naive_solver.
  - destruct (set_choose_L m2 (Hwf2 ip m2 H2)) as [pp Hin]. specialize (Hpp pp). naive_solver.
Qed.

(** What the [NodePorts] filter checks before a pod is added. *)
Definition no_port_conflict (n : NodeInfo) (pod : Pod) : Prop :=
  Forall (λ p, CheckConflict (UsedPorts n) (HostIP p) (Protocol p) (HostPort p) = false) (pod_ports pod).

Lemma no_conflict_disjoint n pod :
  no_port_conflict n pod → list_to_set (pod_keys (pod_ports pod)) ## flat (UsedPorts n).
Proof.
  unfold no_port_conflict. rewrite Forall_forall. intros Hno x.
  rewrite elem_of_list_to_set. intros (p & -> & [Hp Hin]%list_elem_of_filter)%list_elem_of_fmap Hfl.
  specialize (Hno p Hin). pose proof (CheckConflict_flat (UsedPorts n) (HostIP p) (Protocol p) _ Hp) as HC.
  destruct (hp_key (HostIP p) (Protocol p) (HostPort p)) as [ip1 pp].
  assert (CheckConflict (UsedPorts n) (HostIP p) (Protocol p) (HostPort p) = true); [|congruence].
  apply HC. exists ip1. auto.
Qed.

Lemma ports_roundtrip n pod :
  hp_wf (UsedPorts n) → no_port_conflict n pod →
  updateUsedPorts (updateUsedPorts (UsedPorts n) pod true) pod false = UsedPorts n.
Proof.
  intros Hwf Hno%no_conflict_disjoint. unfold updateUsedPorts.
  destruct (ports_add_flat (pod_ports pod) (UsedPorts n) Hwf) as [H1 H2].
  destruct (ports_remove_flat (pod_ports pod) _ H1) as [H3 H4].
  apply flat_inj; [exact H3|done|]. etransitivity; [exact H4|]. rewrite H2. set_solver.
Qed.

Lemma delete_swap_last {A} (l : list A) x : delete_swap (l ++ [x]) (length l) = l.
Proof.
  unfold delete_swap. rewrite last_snoc, length_app, Nat.add_sub.
  by rewrite take_insert_ge, take_app_length.
Qed.

Lemma find_key_snoc s pi k :
  (∀ pi', pi' ∈ s → GetPodKey (pi_Pod pi') ≠ Some k) → GetPodKey (pi_Pod pi) = Some k →
  find_key (s ++ [pi]) k = Some (length s).
Proof.
  intros Hno Hk. apply fmap_Some. exists (length s, pi). split; [|done].
  apply list_find_app_Some. right. split; [done|]. split.
  - apply list_find_None, Forall_forall. exact Hno.
  - rewrite Nat.sub_diag. simpl. by rewrite decide_True.
Qed.

Lemma removeFromSlice_snoc s pi k :
  (∀ pi', pi' ∈ s → GetPodKey (pi_Pod pi') ≠ Some k) → GetPodKey (pi_Pod pi) = Some k →
  removeFromSlice (s ++ [pi]) k = s.
Proof.
  intros Hno Hk. unfold removeFromSlice. rewrite (find_key_snoc s pi k Hno Hk).
  apply delete_swap_last.
Qed.

(** Two nodes with the same pods in the same order and the same totals. *)
Record same_node (n n' : NodeInfo) : Prop := {
  same_node_obj : node n' = node n;
  same_Pods : Pods n' = Pods n;
  same_PodsWithAffinity : PodsWithAffinity n' = PodsWithAffinity n;
  same_PodsWithRequiredAntiAffinity : PodsWithRequiredAntiAffinity n' = PodsWithRequiredAntiAffinity n;
  same_UsedPorts : UsedPorts n' = UsedPorts n;
  same_Requested d : get d (Requested n') = get d (Requested n);
  same_non0CPU : MilliCPU (NonZeroRequested n') = MilliCPU (NonZeroRequested n);
  same_non0Mem : Memory (NonZeroRequested n') = Memory (NonZeroRequested n);
  same_Allocatable : Allocatable n' = Allocatable n;
}.

(** A sublist of the pods has no pod with a key that no pod of the node has. *)
Lemma sublist_no_key (P : Pod → Prop) `{∀ p, Decision (P p)} n s k :
  pod_UID <$> (pi_Pod <$> s) ≡ₚ pod_UID <$> filter P (node_pods n) →
  (∀ p, p ∈ node_pods n → GetPodKey p ≠ Some k) →
  ∀ pi, pi ∈ s → GetPodKey (pi_Pod pi) ≠ Some k.
Proof.
  intros Hs Hno pi Hin Hk. apply GetPodKey_Some in Hk as [-> Hne].
  assert (pod_UID (pi_Pod pi) ∈ pod_UID <$> filter P (node_pods n)) as
    (p & Heq & [_ Hp]%list_elem_of_filter)%list_elem_of_fmap.
  { rewrite <- Hs. by apply list_elem_of_fmap_2, list_elem_of_fmap_2. }
  apply (Hno p Hp), GetPodKey_Some. by rewrite Heq in *.
Qed.

Lemma int64_undo z c : int64 (int64 (int64 z + 1 * c) + -1 * c) = int64 z.
Proof. rewrite int64_add_l. rewrite <- (int64_idemp z) at 2. f_equal. lia. Qed.

Lemma undo_add r res d :
  in64 (get d r) → get d (update_Requested (update_Requested r res 1) res (-1)) = get d r.
Proof.
  intros Hr. rewrite update_Requested_get; [|rewrite update_Requested_get by done; apply int64_range].
  rewrite update_Requested_get by done. rewrite int64_add_l.
  etransitivity; [|apply int64_id, Hr]. f_equal. lia.
Qed.

(** Adding a pod to a node and removing it again restores the node, as the
    preemption simulation relies on: when no pod of the node has its UID and
    none of its host ports conflicts with the ports in use, the removal
    succeeds and the pods, their order, the two sublists, the ports in use and
    every total are what they were. *)
Lemma node_info_add_remove lsci overhead n pod g :
  ni_wf lsci overhead n → hp_wf (UsedPorts n) → pod_UID pod ≠ EmptyString →
  (∀ p, p ∈ node_pods n → pod_UID p ≠ pod_UID pod) → no_port_conflict n pod →
  let '(n1, g1) := AddPod lsci overhead n pod g in
  ∃ n2 g2, RemovePod lsci overhead n1 pod g1 = Ret (n2, g2, true) ∧ same_node n n2.
Proof.
  intros Hwf Hp Huid Hno Hports. pose proof Hwf as [Hr Hc Hm Ha Haa].
  assert (GetPodKey pod = Some (pod_UID pod)) as Hk by (by apply GetPodKey_Some).
  assert (∀ p, p ∈ node_pods n → GetPodKey p ≠ Some (pod_UID pod)) as Hnk.
  { intros p Hin [Heq _]%GetPodKey_Some. by apply (Hno p Hin). }
  assert (pi_Pod (NewPodInfo pod) = pod) as Hpi by done.
  assert (GetPodKey (pi_Pod (NewPodInfo pod)) = Some (pod_UID pod)) as Hk' by done.
  assert (∀ pi, pi ∈ Pods n → GetPodKey (pi_Pod pi) ≠ Some (pod_UID pod)) as Hnp.
  { intros pi Hin. apply Hnk. by apply list_elem_of_fmap_2. }
  pose proof (sublist_no_key _ n _ _ Ha Hnk) as Hna. pose proof (sublist_no_key _ n _ _ Haa Hnk) as Hnaa.
  unfold AddPod, AddPodInfo, RemovePod. rewrite Hpi, Hk. set (pi := NewPodInfo pod) in *. clearbody pi.
  destruct (calculateResource lsci overhead pod) as [[res c0] m0].
  cbn [Pods PodsWithAffinity PodsWithRequiredAntiAffinity node UsedPorts Requested NonZeroRequested
       Allocatable ImageStates].
  rewrite (find_key_snoc _ _ _ Hnp Hk'), delete_swap_last. eexists _, _. split; [reflexivity|].
  split; try done; cbn [PodsWithAffinity PodsWithRequiredAntiAffinity UsedPorts Requested NonZeroRequested].
  - destruct (podWithAffinity pod); [by apply removeFromSlice_snoc|done].
  - destruct (podWithRequiredAntiAffinity pod); [by apply removeFromSlice_snoc|done].
  - by apply ports_roundtrip.
  - intros d. apply undo_add. rewrite Hr. apply int64_range.
  - cbn [update_NonZero set_Memory set_MilliCPU MilliCPU]. rewrite Hc. apply int64_undo.
  - cbn [update_NonZero set_Memory set_MilliCPU Memory]. rewrite Hm. apply int64_undo.
Qed.

(** ** The request of a pod *)

Section Requests.
Context (LocalStorageCapacityIsolation PodOverhead : bool).
Local Abbreviation Add_one := (Add_one LocalStorageCapacityIsolation).
Local Abbreviation Add := (Add LocalStorageCapacityIsolation).
Local Abbreviation SetMax_one := (SetMax_one LocalStorageCapacityIsolation).
Local Abbreviation SetMaxResource := (SetMaxResource LocalStorageCapacityIsolation).
Local Abbreviation calculateResource := (calculateResource LocalStorageCapacityIsolation PodOverhead).

Definition dim_name (d : dim) : ResourceName :=
  match d with
  | DCPU => ResourceCPU
  | DMemory => ResourceMemory
  | DEphemeralStorage => ResourceEphemeralStorage
  | DScalar name => name
  end.

(** Whether the dimension is counted at all. *)
Definition dim_on (d : dim) : bool :=
  match d with
  | DCPU | DMemory => true
  | DEphemeralStorage => LocalStorageCapacityIsolation
  | DScalar name => IsScalarResourceName name
  end.

Definition amount (d : dim) (q : Quantity) : Z :=
  match d with DCPU => MilliValue q | _ => Value q end.

(** What a resource list asks for in a dimension. *)
Definition req_dim (d : dim) (rl : ResourceList) : Z :=
  if dim_on d then default 0 (amount d <$> rl !! dim_name d) else 0.

Lemma scalar_SetScalar r i v name :
  scalar (SetScalar r i v) name = if decide (i = name) then v else scalar r name.
Proof.
  unfold scalar. simpl. case_decide as Hi; [subst; by rewrite lookup_insert_eq|by rewrite lookup_insert_ne].
Qed.

Lemma Add_one_get d i x r :
  get d (Add_one i x r) =
    if decide (i = dim_name d) then if dim_on d then int64 (get d r + amount d x) else get d r
    else get d r.
Proof.
  unfold NodeInfo.Add_one.
  destruct (String.eqb_spec i ResourceCPU) as [->|Hc]; [by destruct d; simpl; try done; case_decide; subst|].
  destruct (String.eqb_spec i ResourceMemory) as [->|Hm]; [by destruct d; simpl; try done; case_decide; subst|].
  destruct (String.eqb_spec i ResourcePods) as [->|Hp]; [by destruct d; simpl; try done; case_decide; subst|].
  destruct (String.eqb_spec i ResourceEphemeralStorage) as [->|He].
  { destruct d; simpl; try (case_decide; subst); by destruct LocalStorageCapacityIsolation. }
  destruct d as [| | |name]; simpl; [| | |case_decide as Hi; [subst i|]];
    try (rewrite decide_False by done; by case_match).
  - case_match; [|done]. unfold AddScalar. simpl. by rewrite scalar_SetScalar, decide_True.
  - case_match; [|done]. unfold AddScalar. simpl. by rewrite scalar_SetScalar, decide_False.
Qed.

Lemma SetMax_one_get d i x r :
  get d (SetMax_one i x r) =
    if decide (i = dim_name d) then if dim_on d then Z.max (get d r) (amount d x) else get d r
    else get d r.
Proof.
  assert (∀ a b : Z, (if a <? b then b else a) = Z.max a b) as Hmax.
  { intros a b. destruct (Z.ltb_spec a b); lia. }
  unfold NodeInfo.SetMax_one.
  destruct (String.eqb_spec i ResourceMemory) as [->|Hm].
  { destruct d; simpl; try (by case_match); [|case_decide; [subst; by case_match|by case_match]].
    rewrite <- Hmax. by case_match. }
  destruct (String.eqb_spec i ResourceCPU) as [->|Hc].
  { destruct d; simpl; try (by case_match); [|case_decide; [subst; by case_match|by case_match]].
    rewrite <- Hmax. by case_match. }
  destruct (String.eqb_spec i ResourceEphemeralStorage) as [->|He].
  { destruct d; simpl; try (case_decide; subst); destruct LocalStorageCapacityIsolation; try done;
      rewrite <- ?Hmax; by case_match. }
  destruct d as [| | |name]; simpl; [| | |case_decide as Hi; [subst i|]];
    try (rewrite decide_False by done; by repeat case_match).
  - case_match; [|done]. rewrite <- Hmax. case_match; [|done]. by rewrite scalar_SetScalar, decide_True.
  - repeat (case_match; [|done]). by rewrite scalar_SetScalar, decide_False.
Qed.

(** The loops over the map, whatever their order. *)
Lemma Add_get d r rl : in64 (get d r) → get d (Add r rl) = int64 (get d r + req_dim d rl).
Proof.
  intros Hr. unfold NodeInfo.Add. revert rl.
  refine (map_fold_weak_ind (λ acc m, get d acc = int64 (get d r + req_dim d m)) _ _ _ _).
  - unfold req_dim. rewrite lookup_empty. simpl. destruct (dim_on d); by rewrite Z.add_0_r, int64_id.
  - intros i x m acc Hnone IH. rewrite Add_one_get, IH. unfold req_dim. case_decide as Hi.
    + subst i. rewrite Hnone, lookup_insert_eq. destruct (dim_on d); simpl; [|done].
      rewrite int64_add_l. f_equal. lia.
    + by rewrite lookup_insert_ne.
Qed.

Lemma SetMax_get d r rl :
  0 ≤ get d r → get d (SetMaxResource r rl) = Z.max (get d r) (req_dim d rl).
Proof.
  intros Hr. unfold NodeInfo.SetMaxResource. revert rl.
  refine (map_fold_weak_ind (λ acc m, get d acc = Z.max (get d r) (req_dim d m)) _ _ _ _).
  - unfold req_dim. rewrite lookup_empty. simpl. destruct (dim_on d); lia.
  - intros i x m acc Hnone IH. rewrite SetMax_one_get, IH. unfold req_dim. case_decide as Hi.
    + subst i. rewrite Hnone, lookup_insert_eq. destruct (dim_on d); simpl; lia.
    + by rewrite lookup_insert_ne.
Qed.
(** The resources of a pod, without the non-zero requests. *)
Definition sum_containers (pod : Pod) : Resource :=
  foldl (λ res c, Add res (Requests c)) zero_Resource (pod_Containers pod).

Definition max_init_containers (res : Resource) (pod : Pod) : Resource :=
  foldl (λ res ic, SetMaxResource res (Requests ic)) res (pod_InitContainers pod).

Lemma calculateResource_res pod :
  (calculateResource pod).1.1 =
    let res := max_init_containers (sum_containers pod) pod in
    match pod_Overhead pod, PodOverhead with
    | Some overhead, true => Add res overhead
    | _, _ => res
    end.
Proof.
  unfold NodeInfo.calculateResource, max_init_containers, sum_containers.
  assert (∀ cs r c0 m0, ∃ c1 m1,
    foldl (λ '(res, non0CPU, non0Mem) c,
      let '(non0CPUReq, non0MemReq) := GetNonzeroRequests LocalStorageCapacityIsolation (Requests c) in
      (Add res (Requests c), int64 (non0CPU + non0CPUReq), int64 (non0Mem + non0MemReq))) (r, c0, m0) cs =
    (foldl (λ res c, Add res (Requests c)) r cs, c1, m1)) as H1.
  { induction cs as [|c cs IH]; intros r c0 m0; [by eexists _, _|]. apply IH. }
  assert (∀ cs r c0 m0, ∃ c1 m1,
    foldl (λ '(res, non0CPU, non0Mem) ic,
      let '(non0CPUReq, non0MemReq) := GetNonzeroRequests LocalStorageCapacityIsolation (Requests ic) in
      (SetMaxResource res (Requests ic),
       if non0CPU <? non0CPUReq then non0CPUReq else non0CPU,
       if non0Mem <? non0MemReq then non0MemReq else non0Mem)) (r, c0, m0) cs =
    (foldl (λ res ic, SetMaxResource res (Requests ic)) r cs, c1, m1)) as H2.
  { induction cs as [|c cs IH]; intros r c0 m0; [by eexists _, _|]. apply IH. }
  destruct (H1 (pod_Containers pod) zero_Resource 0 0) as (c1 & m1 & ->).
  destruct (H2 (pod_InitContainers pod)
    (foldl (λ res c, Add res (Requests c)) zero_Resource (pod_Containers pod)) c1 m1) as (c2 & m2 & ->).
  destruct (pod_Overhead pod); [|done]. by destruct PodOverhead.
Qed.

Lemma foldl_Add_get d cs r :
  in64 (get d r) →
  get d (foldl (λ res c, Add res (Requests c)) r cs) =
    int64 (get d r + zsum (λ c, req_dim d (Requests c)) cs).
Proof.
  revert r. induction cs as [|c cs IH]; intros r Hr; simpl; [by rewrite Z.add_0_r, int64_id|].
  rewrite IH; rewrite Add_get by done; [|apply int64_range].
  rewrite int64_add_l. f_equal. lia.
Qed.

Definition max_request (d : dim) (cs : list Container) : Z :=
  foldr (λ c a, Z.max (req_dim d (Requests c)) a) 0 cs.

Lemma foldl_SetMax_get d cs r :
  0 ≤ get d r →
  get d (foldl (λ res c, SetMaxResource res (Requests c)) r cs) = Z.max (get d r) (max_request d cs).
Proof.
  revert r. induction cs as [|c cs IH]; intros r Hr; simpl; [lia|].
  rewrite IH; rewrite SetMax_get by done; lia.
Qed.

Definition overhead_request (d : dim) (pod : Pod) : Z :=
  match pod_Overhead pod, PodOverhead with Some overhead, true => req_dim d overhead | _, _ => 0 end.

(** max(sum of the containers, largest init container) + overhead *)
Definition ideal_request (d : dim) (pod : Pod) : Z :=
  Z.max (zsum (λ c, req_dim d (Requests c)) (pod_Containers pod))
    (max_request d (pod_InitContainers pod)) + overhead_request d pod.

Lemma pod_request_ideal d pod :
  Forall (λ c, 0 ≤ req_dim d (Requests c)) (pod_Containers pod) →
  0 ≤ overhead_request d pod → ideal_request d pod ≤ max_int64 →
  get d (pod_request LocalStorageCapacityIsolation PodOverhead pod) = ideal_request d pod.
Proof.
  intros Hc Ho Hmax. unfold pod_request. rewrite calculateResource_res. cbv zeta.
  unfold ideal_request in *. pose proof (zsum_nonneg _ _ Hc) as Hs.
  assert (get d (max_init_containers (sum_containers pod) pod) =
    Z.max (zsum (λ c, req_dim d (Requests c)) (pod_Containers pod))
      (max_request d (pod_InitContainers pod))) as Hres.
  { unfold max_init_containers, sum_containers.
    assert (get d (foldl (λ res c, Add res (Requests c)) zero_Resource (pod_Containers pod)) =
      zsum (λ c, req_dim d (Requests c)) (pod_Containers pod)) as Hsum.
    { rewrite foldl_Add_get by (rewrite zero_get; done). rewrite zero_get. apply int64_id.
      unfold min_int64, max_int64 in *. lia. }
    rewrite foldl_SetMax_get; rewrite Hsum; [done|lia]. }
  unfold overhead_request in *.
  destruct (pod_Overhead pod) as [o|]; [destruct PodOverhead|]; rewrite ?Hres; try lia.
  assert (in64 (Z.max (zsum (λ c, req_dim d (Requests c)) (pod_Containers pod))
      (max_request d (pod_InitContainers pod)))) by (unfold in64, min_int64, max_int64 in *; lia).
  rewrite Add_get; rewrite Hres; [|done]. apply int64_id. unfold min_int64, max_int64 in *. lia.
Qed.
End Requests.

(** What a pod is counted with, in every dimension: the larger of the sum
    of its containers and its largest init container, plus the overhead, as
    the comment of [calculateResource] says.  It holds when the containers and
    the overhead ask for no negative amount and the result fits in 64 bits; the
    order in which Go walks the resource maps does not matter. *)
Theorem pod_request_formula lsci overhead d pod :
  Forall (λ c, 0 ≤ req_dim lsci d (Requests c)) (pod_Containers pod) →
  0 ≤ overhead_request lsci overhead d pod → ideal_request lsci overhead d pod ≤ max_int64 →
  get d (calculateResource lsci overhead pod).1.1 =
    Z.max (zsum (λ c, req_dim lsci d (Requests c)) (pod_Containers pod))
      (max_request lsci d (pod_InitContainers pod)) + overhead_request lsci overhead d pod.
Proof. apply pod_request_ideal. Qed.

(** ** Affinity terms *)

(** The namespaces a term is about: those it lists, or the pod's own when it
    gives neither names nor a selector of namespaces. *)
Definition term_namespace (pod : Pod) (term : PodAffinityTerm) (ns : string) : Prop :=
  (pat_Namespaces term = [] ∧ pat_NamespaceSelector term = None ∧ ns = pod_Namespace pod) ∨
  ns ∈ pat_Namespaces term.

Lemma getNamespaces_spec pod term ns :
  ns ∈ getNamespacesFromPodAffinityTerm pod term ↔ term_namespace pod term ns.
Proof.
  unfold getNamespacesFromPodAffinityTerm, term_namespace.
  destruct (pat_Namespaces term) as [|n l] eqn:Hn; simpl.
  - case_bool_decide as Hs; [rewrite elem_of_singleton; set_solver|set_solver].
  - rewrite elem_of_union, elem_of_singleton, elem_of_list_to_set, elem_of_cons. naive_solver.
Qed.

(** Which pods an affinity term of a pod selects: the processed term exists
    exactly when both selectors of the term are valid, and it then matches the
    pods whose labels satisfy the label selector (none when it is missing) and
    whose namespace is one of the term's, or has labels the namespace selector
    accepts when that feature is enabled. *)
Theorem affinity_term_matches pod term :
  match newAffinityTerm pod term with
  | Some at_ =>
      ∀ target nsLabels enabled,
        at_Matches at_ target nsLabels enabled = true ↔
          (term_namespace pod term (pod_Namespace target) ∨
           (enabled = true ∧ ∃ s, pat_NamespaceSelector term = Some s ∧ selector_holds nsLabels s)) ∧
          ∃ s, pat_LabelSelector term = Some s ∧ selector_holds (pod_Labels target) s
  | None =>
      ∃ s, (pat_LabelSelector term = Some s ∨ pat_NamespaceSelector term = Some s) ∧
           ¬ valid_selector s
  end.
Proof.
  unfold newAffinityTerm.
  pose proof (LabelSelectorAsSelector_spec (pat_LabelSelector term)) as H1.
  pose proof (LabelSelectorAsSelector_spec (pat_NamespaceSelector term)) as H2.
  destruct (LabelSelectorAsSelector (pat_LabelSelector term)) as [sel|]; simpl; [|naive_solver].
  destruct (LabelSelectorAsSelector (pat_NamespaceSelector term)) as [nsSel|]; simpl; [|naive_solver].
  destruct H1 as [_ H1], H2 as [_ H2]. intros target nsLabels enabled. unfold at_Matches. simpl.
  rewrite <- getNamespaces_spec, <- H1, <- H2.
  case_bool_decide as Hn; destruct enabled; simpl; [naive_solver..| |naive_solver].
  destruct (Labels.Matches nsSel nsLabels); naive_solver.
Qed.

(** ** Clones *)

Lemma map_fold_copy {A} (m : gmap string A) : map_fold (λ k v res, <[k := v]> res) ∅ m = m.
Proof.
  refine (map_fold_weak_ind (λ acc m, acc = m) _ _ _ _ m); [done|]. by intros i x m' acc _ ->.
Qed.

Lemma Resource_Clone_id r : Resource_Clone r = r.
Proof. unfold Resource_Clone. rewrite map_fold_copy. by destruct r. Qed.

Lemma set_fold_copy (m : gset ProtocolPort) : set_fold (λ pp m, {[pp]} ∪ m) ∅ m = m.
Proof.
  refine (set_fold_ind_L (λ (acc m : gset ProtocolPort), acc = m) _ _ _ _ m); [done|].
  by intros pp m' acc _ ->.
Qed.

Lemma copy_slice_id {A} (s : list A) : copy_slice s = s.
Proof. by destruct s. Qed.

Lemma Clone_id n : Clone n = n.
Proof.
  unfold Clone. rewrite !copy_slice_id, !Resource_Clone_id.
  assert (∀ h : HostPortInfo,
    map_fold (λ ip portMap ports, <[ip := set_fold (λ pp m, {[pp]} ∪ m) ∅ portMap]> ports) ∅ h = h) as Hp.
  { intros h. refine (map_fold_weak_ind (λ acc h, acc = h) _ _ _ _ h); [done|].
    intros i x h' acc _ ->. by rewrite set_fold_copy. }
  rewrite Hp. by destruct n.
Qed.

(** ** Sample pods *)

Definition sample_requests (milli mem : Z) : ResourceList :=
  <["cpu" := NewMilliQuantity milli DecimalSI]> (<["memory" := NewQuantity mem BinarySI]> ∅).

Definition sample_anti : Affinity :=
  mkAffinity None (Some (mkPodAffinity
    [mkPodAffinityTerm (Some (mkLabelSelector (<["app" := "web"]> ∅) [])) [] "zone" None] [])) None.

Definition sample_pod (name uid : string) (milli mem port : Z) (aff : option Affinity) : Pod :=
  mkPod name "default" uid "1" ∅
    [mkContainer [mkPort port "TCP" ""] (sample_requests milli mem);
     mkContainer [] (sample_requests 100 1024)]
    [mkContainer [] (sample_requests 2000 512)] (Some (sample_requests 10 16)) "" aff None "" "" ∅ [] ∅ [] [] None [] None None [] "" None [].

Definition pod_a : Pod := sample_pod "a" "uid-a" 500 4096 8080 (Some sample_anti).
Definition pod_b : Pod := sample_pod "b" "uid-b" 250 2048 0 None.

Definition sample_ops : list ni_op :=
  [OpAddPod (NewPodInfo pod_a); OpAddPod (NewPodInfo pod_b);
   OpSetNode (mkNode "node-1" ∅ (sample_requests 4000 65536) [] false [] []); OpRemovePod pod_a].

Lemma node_info_accounting_witness :
  ∃ n g', ni_run true true sample_ops (NewNodeInfo true true [] 0) = Ret (n, g') ∧
          MilliCPU (Requested n) = 2010 ∧ ni_wf true true n.
Proof.
  destruct (ni_run true true sample_ops (NewNodeInfo true true [] 0)) as [[n g']|] eqn:Hrun;
    [|vm_compute in Hrun; discriminate].
  exists n, g'. split; [reflexivity|]. split.
  - vm_compute in Hrun. injection Hrun as <- _. reflexivity.
  - apply (node_info_accounting true true
      (λ uid, if (uid =? "uid-a")%string then pod_a else pod_b) sample_ops 0 n g'); [|exact Hrun].
    intros op p Hop. unfold sample_ops in Hop.
    repeat (apply elem_of_cons in Hop as [->|Hop]; [by intros [= <-]; repeat split|]).
    by apply not_elem_of_nil in Hop.
Defined.

Lemma sample_node_wf : ni_wf true true (NewNodeInfo true true [pod_b] 0).1.
Proof. apply (AddPodInfo_wf true true _ (NewPodInfo pod_b)), empty_wf. Qed.

Lemma node_info_remove_witness :
  match RemovePod true true (NewNodeInfo true true [pod_b] 0).1 pod_b 7 with
  | Ret (n', g', true) => ni_wf true true n' ∧ g' = 8
  | _ => False
  end.
Proof.
  pose proof (node_info_remove true true (NewNodeInfo true true [pod_b] 0).1 pod_b 7 sample_node_wf) as H.
  assert (agrees (NewNodeInfo true true [pod_b] 0).1 pod_b) as Hag.
  { intros p Hp _. vm_compute in Hp. by apply elem_of_cons in Hp as [->|Hp%not_elem_of_nil]. }
  specialize (H Hag).
  destruct (RemovePod true true (NewNodeInfo true true [pod_b] 0).1 pod_b 7) as [[[n' g'] []]|] eqn:HR;
    [|vm_compute in HR; discriminate..].
  split; [apply H|]. vm_compute in HR. by injection HR as _ <-.
Defined.

Lemma node_info_add_remove_witness :
  let '(n1, g1) := AddPod true true (NewNodeInfo true true [pod_b] 0).1 pod_a 7 in
  ∃ n2 g2, RemovePod true true n1 pod_a g1 = Ret (n2, g2, true) ∧
           same_node (NewNodeInfo true true [pod_b] 0).1 n2.
Proof.
  apply (node_info_add_remove true true (NewNodeInfo true true [pod_b] 0).1 pod_a 7).
  - exact sample_node_wf.
  - apply (bool_decide_unpack _). vm_compute. exact I.
  - discriminate.
  - intros p Hp. vm_compute in Hp. by apply elem_of_cons in Hp as [->|Hp%not_elem_of_nil].
  - repeat constructor.
Defined.

Lemma pod_request_formula_witness :
  get DCPU (calculateResource true true pod_a).1.1 = 2010 ∧
  ideal_request true true DCPU pod_a = 2010.
Proof.
  split; [|reflexivity]. etransitivity; [|exact (eq_refl : ideal_request true true DCPU pod_a = 2010)].
  apply (pod_request_formula true true DCPU pod_a); [|vm_compute; discriminate..].
  apply (bool_decide_unpack _). vm_compute. exact I.
Defined.
