(* ===== verification/FwkStatus.v ===== *)
(** * Statuses and the state of a cycle: [pkg/scheduler/framework/interface.go]
    and [cycle_state.go]

    What plugins return and how it is merged, and the data they share during a
    scheduling cycle.  A nil status is [None]. *)

From S2P Require Import Prelude.
#[local] Open Scope string_scope.
#[local] Open Scope Z_scope.

(** ** Statuses *)

Inductive Code := Success | Error | Unschedulable | UnschedulableAndUnresolvable | Wait | Skip.

#[export] Instance Code_eq_dec : EqDecision Code.
Proof. solve_decision. Defined.

Definition statusPrecedence (c : Code) : Z :=
  match c with
  | Error => 3
  | UnschedulableAndUnresolvable => 2
  | Unschedulable => 1
  | Success => -1
  | Wait | Skip => 0
  end.

(** An error is its text. *)
Record Status := mkStatus {
  code : Code;
  reasons : list string;
  err : option string;
  failedPlugin : string;
}.

Definition status_Code (s : option Status) : Code := match s with None => Success | Some s => code s end.
Definition Message (s : option Status) : string :=
  match s with None => "" | Some s => String.concat ", " (reasons s) end.
Definition SetFailedPlugin (s : Status) (plugin : string) : Status := mkStatus (code s) (reasons s) (err s) plugin.
Definition AppendReason (s : Status) (reason : string) : Status :=
  mkStatus (code s) (reasons s ++ [reason]) (err s) (failedPlugin s).
Definition IsSuccess (s : option Status) : bool := bool_decide (status_Code s = Success).
Definition IsUnschedulable (s : option Status) : bool :=
  bool_decide (status_Code s = Unschedulable) || bool_decide (status_Code s = UnschedulableAndUnresolvable).
Definition AsError (s : option Status) : option string :=
  if IsSuccess s then None
  else match s with
       | Some st => match err st with Some e => Some e | None => Some (Message s) end
       | None => None
       end.
Definition NewStatus (c : Code) (reasons : list string) : Status :=
  mkStatus c reasons (if bool_decide (c = Error) then Some (String.concat ", " reasons) else None) "".
Definition AsStatus (e : string) : Status := mkStatus Error [e] (Some e) "".

(** [%q] on the names of plugins. *)
Definition quoted (s : string) : string :=
  String (Ascii.ascii_of_nat 34) (s +:+ String (Ascii.ascii_of_nat 34) EmptyString).

(** ** Merging statuses *)

Abbreviation PluginToStatus := (gmap string Status).

Definition merge_one (finalStatus s : Status) : Status :=
  let f := if bool_decide (code s = Error)
           then mkStatus (code finalStatus) (reasons finalStatus) (AsError (Some s)) (failedPlugin finalStatus)
           else finalStatus in
  let f := if statusPrecedence (code f) <? statusPrecedence (code s)
           then mkStatus (code s) (reasons f) (err f) (failedPlugin s) else f in
  foldl AppendReason f (reasons s).

(** [range] is the order in which the map is walked. *)
Definition Merge (range : PluginToStatus → list string) (p : PluginToStatus) : option Status :=
  if (size p =? 0)%nat then None
  else Some (foldl (λ f name, match p !! name with Some s => merge_one f s | None => f end)
               (NewStatus Success []) (range p)).

(** ** The state of a cycle *)

Section CycleState.
Context {Data : Type} (clone : Data → Data).

Abbreviation CycleState := (gmap string Data).

Definition NewCycleState : CycleState := ∅.
Definition CycleState_Clone (c : CycleState) : CycleState := clone <$> c.
Definition CycleState_Read (c : CycleState) (key : string) : option Data := c !! key.
Definition CycleState_Write (c : CycleState) (key : string) (v : Data) : CycleState := <[key := v]> c.
Definition CycleState_Delete (c : CycleState) (key : string) : CycleState := delete key c.
End CycleState.

(** ** What merging keeps *)

Lemma IsSuccess_spec s : IsSuccess s = true ↔ status_Code s = Success.
Proof. apply bool_decide_eq_true. Qed.

Lemma append_reasons_code s l : code (foldl AppendReason s l) = code s ∧ failedPlugin (foldl AppendReason s l) = failedPlugin s.
Proof. revert s. induction l as [|x l IH]; intros s; [done|]. simpl. by destruct (IH (AppendReason s x)) as [-> ->]. Qed.

Lemma merge_one_code f s :
  (statusPrecedence (code f) < statusPrecedence (code s) ∧
    code (merge_one f s) = code s ∧ failedPlugin (merge_one f s) = failedPlugin s) ∨
  (statusPrecedence (code s) ≤ statusPrecedence (code f) ∧
    code (merge_one f s) = code f ∧ failedPlugin (merge_one f s) = failedPlugin f).
Proof.
  unfold merge_one. set (f1 := if bool_decide _ then _ else f).
  assert (code f1 = code f ∧ failedPlugin f1 = failedPlugin f) as [Hc Hf] by (unfold f1; by case_bool_decide).
  rewrite Hc. destruct (Z.ltb_spec (statusPrecedence (code f)) (statusPrecedence (code s))); [left|right];
    (split; [lia|]); by rewrite (proj1 (append_reasons_code _ _)), (proj2 (append_reasons_code _ _)).
Qed.

Section Merge.
Context (range : PluginToStatus → list string) (range_keys : ∀ m, range m ≡ₚ (map_to_list m).*1).

(** The status of an entry counts at least as much as that of any other. *)
Definition dominates (p : PluginToStatus) (names : list string) (st : Status) : Prop :=
  (∀ name s, name ∈ names → p !! name = Some s → statusPrecedence (code s) ≤ statusPrecedence (code st)) ∧
  (code st = Success ∨
   ∃ name s, name ∈ names ∧ p !! name = Some s ∧ code st = code s ∧ failedPlugin st = failedPlugin s).

Lemma merge_fold p names : ∀ visited f,
  dominates p visited f →
  dominates p (visited ++ names)%list
    (foldl (λ f name, match p !! name with Some s => merge_one f s | None => f end) f names).
Proof.
  induction names as [|x names IH]; intros visited f Hf; simpl; [by rewrite app_nil_r|].
  rewrite cons_middle, app_assoc. apply IH.
  destruct Hf as [Hle Hex]. destruct (p !! x) as [s|] eqn:Hx.
  - pose proof (merge_one_code f s) as Hm. split.
    + intros name s' Hin Hs'. apply elem_of_app in Hin as [Hin| ->%list_elem_of_singleton].
      * specialize (Hle name s' Hin Hs'). destruct Hm as [(? & -> & _)|(? & -> & _)]; lia.
      * rewrite Hx in Hs'. injection Hs' as <-. destruct Hm as [(? & -> & _)|(? & -> & _)]; lia.
    + destruct Hm as [(_ & -> & ->)|(_ & -> & ->)]; [right; exists x, s; set_solver|].
      destruct Hex as [?|(name & s' & ? & ?)]; [by left|right; exists name, s'; set_solver].
  - split.
    + intros name s' Hin Hs'. apply elem_of_app in Hin as [Hin| ->%list_elem_of_singleton]; [by eapply Hle|congruence].
    + destruct Hex as [?|(name & s' & ? & ?)]; [by left|right; exists name, s'; set_solver].
Qed.

(** The merged status is that of an entry of the highest precedence. *)
Lemma Merge_dominates p st :
  Merge range p = Some st →
  (∀ name s, p !! name = Some s → statusPrecedence (code s) ≤ statusPrecedence (code st)) ∧
  (code st = Success ∨ ∃ name s, p !! name = Some s ∧ code st = code s ∧ failedPlugin st = failedPlugin s).
Proof.
  unfold Merge. destruct (size p =? 0)%nat; [done|]. intros [= <-].
  destruct (merge_fold p (range p) [] (NewStatus Success [])) as [Hle Hex].
  { split; [by intros ? ? ?%not_elem_of_nil|by left]. }
  simpl in Hle, Hex. split.
  - intros name s Hs. apply (Hle name s); [|done]. rewrite range_keys. apply list_elem_of_fmap.
    exists (name, s). split; [done|]. by apply elem_of_map_to_list.
  - destruct Hex as [?|(name & s & _ & ?)]; [by left|right; eauto].
Qed.

(** Statuses that failed do not merge to a success. *)
Lemma Merge_success p :
  (∀ name s, p !! name = Some s → code s ≠ Success) → IsSuccess (Merge range p) = true ↔ p = ∅.
Proof.
  intros Hp. rewrite IsSuccess_spec. split; [|by intros ->].
  intros Hs. destruct (decide (p = ∅)) as [|Hne]; [done|]. exfalso.
  apply map_choose in Hne as (name & s & Hn). pose proof (Hp name s Hn) as Hc.
  destruct (Merge range p) as [st|] eqn:Hm.
  - simpl in Hs. destruct (Merge_dominates p st Hm) as [Hle _]. specialize (Hle name s Hn). rewrite Hs in Hle.
    destruct (code s); simpl in Hle; try lia. done.
  - unfold Merge in Hm. destruct (Nat.eqb_spec (size p) 0) as [H0|]; [|done].
    apply map_size_empty_inv in H0. by rewrite H0 in Hn.
Qed.
End Merge.
