(* ===== verification/WaitingPods.v ===== *)
(** * Pods that wait for a permit: [framework/runtime/waiting_pods_map.go]

    A pod some permit plugins want to wait for, with the timers of these
    plugins and the channel of one place its signal is sent to.  A timer fires
    at any time after its duration.  The pods are shared by pointers: the map
    of a framework, the timers, the plugins that give or refuse their permit
    and the goroutine that waits have the same object. *)

From S2P Require Import Prelude Labels ApiTypes FwkStatus.
#[local] Open Scope string_scope.
#[local] Open Scope Z_scope.

(** [t_fires] is [None] when the timer is stopped. *)
Record timer := mkTimer { t_wait : Z; t_fires : option Z }.

Record waitingPod := mkWaiting {
  wp_pod : Pod;
  pendingPlugins : gmap string timer;
  signal : option Status;
}.

(** The waiting pods of a framework: the pointers the map has under the UIDs,
    and the objects at their addresses.  An object that has left the map is
    still there for the goroutines and timers that have its pointer. *)
Record waitingPodsMap := mkWaitingPods {
  wpm_pods : gmap string nat;
  wpm_heap : gmap nat waitingPod;
}.

Definition newWaitingPodsMap : waitingPodsMap := mkWaitingPods ∅ ∅.

(** The object at [ref] is now [wp]. *)
Definition wpm_set (m : waitingPodsMap) (ref : nat) (wp : waitingPod) : waitingPodsMap :=
  mkWaitingPods (wpm_pods m) (<[ref := wp]> (wpm_heap m)).

(** The object is allocated where it is added. *)
Definition wpm_add (m : waitingPodsMap) (wp : waitingPod) : waitingPodsMap :=
  let ref := fresh (dom (wpm_heap m)) in
  mkWaitingPods (<[pod_UID (wp_pod wp) := ref]> (wpm_pods m)) (<[ref := wp]> (wpm_heap m)).
Definition wpm_remove (m : waitingPodsMap) (uid : string) : waitingPodsMap :=
  mkWaitingPods (delete uid (wpm_pods m)) (wpm_heap m).
Definition wpm_get (m : waitingPodsMap) (uid : string) : option nat := wpm_pods m !! uid.

Definition newWaitingPod (pod : Pod) (pluginsMaxWaitTime : gmap string Z) (now : Z) : waitingPod :=
  mkWaiting pod ((λ waitTime, mkTimer waitTime (Some (now + waitTime))) <$> pluginsMaxWaitTime) None.

(** A send that does not block. *)
Definition send (ch : option Status) (s : Status) : option Status := match ch with None => Some s | Some _ => ch end.

Definition Allow (w : waitingPod) (pluginName : string) : waitingPod :=
  let pending := delete pluginName (pendingPlugins w) in
  if negb (size pending =? 0)%nat then mkWaiting (wp_pod w) pending (signal w)
  else mkWaiting (wp_pod w) pending (send (signal w) (NewStatus Success [""])).

Definition Reject (w : waitingPod) (pluginName msg : string) : waitingPod :=
  mkWaiting (wp_pod w) ((λ t, mkTimer (t_wait t) None) <$> pendingPlugins w)
    (send (signal w) (SetFailedPlugin (NewStatus Unschedulable [msg]) pluginName)).

Definition RejectWaitingPod (m : waitingPodsMap) (uid : string) : waitingPodsMap :=
  match wpm_get m uid with
  | Some ref =>
      match wpm_heap m !! ref with
      | Some wp => wpm_set m ref (Reject wp "" "removed")
      | None => m
      end
  | None => m
  end.

(** The receive from the channel of the waiting pod at [ref]; [None] where it
    blocks. *)
Definition wpm_receive (m : waitingPodsMap) (ref : nat) : option (Status * waitingPodsMap) :=
  wp ← wpm_heap m !! ref;
  status ← signal wp;
  Some (status, wpm_set m ref (mkWaiting (wp_pod wp) (pendingPlugins wp) None)).

Section Waiting.
(** The text of a duration. *)
Context (duration : Z → string).

(** The function of a timer; [None] where the timer does not fire. *)
Definition fire (w : waitingPod) (plugin : string) (now : Z) : option waitingPod :=
  match pendingPlugins w !! plugin with
  | Some (mkTimer waitTime (Some at_)) =>
      if at_ <=? now
      then Some (Reject w plugin ("rejected due to timeout after waiting " +:+ duration waitTime +:+ " at plugin " +:+ plugin))
      else None
  | _ => None
  end.

(** ** Histories *)

Inductive wait_event := WAllow (plugin : string) | WReject (plugin msg : string) | WFire (plugin : string) (now : Z).

Definition wait_step (w : waitingPod) (e : wait_event) (w' : waitingPod) : Prop :=
  match e with
  | WAllow p => w' = Allow w p
  | WReject p msg => w' = Reject w p msg
  | WFire p now => fire w p now = Some w'
  end.

Definition rejects (e : wait_event) : bool := match e with WAllow _ => false | _ => true end.

(** The plugins of [ps] allow the pod, and nobody rejects it before. *)
Definition unanimous (ps : gset string) (es : list wait_event) : Prop :=
  ∃ es1 es2, es = (es1 ++ es2)%list ∧ (∀ e, e ∈ es1 → rejects e = false) ∧ ∀ p, p ∈ ps → WAllow p ∈ es1.

Lemma signal_stays w es w' s : trace wait_step w es w' → signal w = Some s → signal w' = Some s.
Proof.
  intros Ht. revert s. induction Ht as [w|w e w1 es w2 Hstep _ IH]; intros s Hs; [done|]. apply IH.
  assert (∀ p msg, signal (Reject w p msg) = Some s) as Hr by (intros; simpl; by rewrite Hs).
  destruct e as [p|p msg|p now]; simpl in Hstep; [| by subst |].
  - subst. unfold Allow. destruct (negb _); simpl; [done|by rewrite Hs].
  - unfold fire in Hstep. destruct (pendingPlugins w !! p) as [[d [a|]]|]; try done.
    destruct (a <=? now); [|done]. injection Hstep as <-. apply Hr.
Qed.

(** Nothing is decided yet: the plugins in [ps] are pending and their timers run. *)
Definition undecided (w : waitingPod) (waits : gmap string Z) (now : Z) : Prop :=
  signal w = None ∧ pendingPlugins w ≠ ∅ ∧
  ∀ p t, pendingPlugins w !! p = Some t → ∃ d, waits !! p = Some d ∧ t = mkTimer d (Some (now + d)).

Lemma unanimous_cons ps p es : unanimous (ps ∖ {[p]}) es → unanimous ps (WAllow p :: es).
Proof.
  intros (es1 & es2 & -> & Hno & Hall). exists (WAllow p :: es1), es2. split; [done|]. split.
  - intros e [->|He]%elem_of_cons; [done|by apply Hno].
  - intros q Hq. destruct (decide (q = p)) as [->|Hne]; [by left|]. right. apply Hall. set_solver.
Qed.

Lemma unanimous_inv ps e es :
  ps ≠ ∅ → unanimous ps (e :: es) → ∃ p, e = WAllow p ∧ unanimous (ps ∖ {[p]}) es.
Proof.
  intros Hps (es1 & es2 & He & Hno & Hall). destruct es1 as [|e1 es1].
  { apply set_choose_L in Hps as [q Hq]. by apply Hall, not_elem_of_nil in Hq. }
  injection He as <- ->. specialize (Hno e (list_elem_of_here _ _)) as Hr. destruct e as [p| |]; try done.
  exists p. split; [done|]. exists es1, es2. split; [done|]. split; [intros e He; apply Hno; by right|].
  intros q [Hq Hne]%elem_of_difference. apply Hall, elem_of_cons in Hq as [[= ->]|?]; [set_solver|done].
Qed.

(** What the channel holds after a history. *)
Definition decided (ps : gset string) (es : list wait_event) (s : Status) : Prop :=
  (code s = Success ∧ unanimous ps es) ∨
  (code s = Unschedulable ∧ ¬ unanimous ps es ∧
   ((∃ msg, WReject (failedPlugin s) msg ∈ es) ∨ ∃ now, WFire (failedPlugin s) now ∈ es)).

Lemma waiting_spec waits now w es w' :
  undecided w waits now → trace wait_step w es w' →
  match signal w' with
  | Some s => decided (dom (pendingPlugins w)) es s
  | None => undecided w' waits now ∧ ¬ unanimous (dom (pendingPlugins w)) es
  end.
Proof.
  intros Hu Ht. revert Hu. induction Ht as [w|w e w1 es w2 Hstep Ht IH]; intros (Hsig & Hne & Htm).
  { rewrite Hsig. split; [done|]. intros (es1 & es2 & He & _ & Hall). symmetry in He. apply app_nil in He as [-> ->].
    apply map_choose in Hne as (p & t & Hp). apply elem_of_dom_2, Hall in Hp. by apply not_elem_of_nil in Hp. }
  assert (dom (pendingPlugins w) ≠ ∅) as Hdom by by rewrite dom_empty_iff_L.
  assert (∀ p msg, w1 = Reject w p msg → rejects e = true → (e = WReject p msg ∨ ∃ t, e = WFire p t) →
    match signal w2 with Some s => decided (dom (pendingPlugins w)) (e :: es) s | None => False end) as Hrej.
  { intros p msg -> He Hor. assert (signal (Reject w p msg) = Some (SetFailedPlugin (NewStatus Unschedulable [msg]) p)) as Hs.
    { simpl. by rewrite Hsig. }
    rewrite (signal_stays _ _ _ _ Ht Hs). right. split; [done|]. split.
    - intros (q & -> & _)%unanimous_inv; done.
    - destruct Hor as [-> | [t ->]]; [left|right]; eexists; by left. }
  destruct e as [p|p msg|p t]; simpl in Hstep.
  - subst. unfold Allow in *. set (pend := delete p (pendingPlugins w)) in *.
    assert (dom (pendingPlugins w) ∖ {[p]} = dom pend) as Hd by (unfold pend; by rewrite dom_delete_L).
    destruct (decide (pend = ∅)) as [He|He].
    + rewrite He, map_size_empty in Ht. simpl in Ht. rewrite Hsig in Ht. rewrite (signal_stays _ _ _ _ Ht eq_refl).
      left. split; [done|]. apply unanimous_cons. rewrite Hd, He. exists [], es. set_solver.
    + assert ((size pend =? 0)%nat = false) as Hz by (apply Nat.eqb_neq; by rewrite map_size_empty_iff).
      rewrite Hz in *. cbn [negb] in *.
      assert (undecided (mkWaiting (wp_pod w) pend (signal w)) waits now) as Hu'.
      { split_and!; [done|done|]. simpl. intros q t' [_ Hq]%lookup_delete_Some. by apply Htm. }
      specialize (IH Hu'). cbn [pendingPlugins] in IH. rewrite <- Hd in IH.
      assert (unanimous (dom (pendingPlugins w)) (WAllow p :: es) ↔ unanimous (dom (pendingPlugins w) ∖ {[p]}) es) as Hiff.
      { split; [intros (q & [= <-] & ?)%unanimous_inv; done|apply unanimous_cons]. }
      destruct (signal w2) as [s|]; unfold decided in *; rewrite Hiff; [|done].
      destruct IH as [IH|(Hc & Hnu & Hor)]; [by left|right]. split_and!; [done|done|].
      destruct Hor as [[msg Hm]|[t' Hm]]; [left|right]; eexists; right; done.
  - specialize (Hrej p msg Hstep eq_refl (or_introl eq_refl)). by destruct (signal w2).
  - unfold fire in Hstep. destruct (pendingPlugins w !! p) as [[d [a|]]|]; try done.
    destruct (a <=? t); [|done]. injection Hstep as Hstep. symmetry in Hstep.
    specialize (Hrej p _ Hstep eq_refl (or_intror (ex_intro _ t eq_refl))). by destruct (signal w2).
Qed.

(** A waiting pod whose channel has a status or will get one: the timers of its
    pending plugins run. *)
Definition alive (w : waitingPod) : Prop :=
  is_Some (signal w) ∨
  (pendingPlugins w ≠ ∅ ∧ ∀ p t, pendingPlugins w !! p = Some t → ∃ at_, t_fires t = Some at_).

Lemma alive_new pod waits now : waits ≠ ∅ → alive (newWaitingPod pod waits now).
Proof.
  intros Hne. right. split; [by intros ?%fmap_empty_inv|]. simpl. intros p t (d & <- & _)%lookup_fmap_Some. by eexists.
Qed.

Lemma alive_reject w p msg : alive (Reject w p msg).
Proof. left. simpl. by destruct (signal w); eexists. Qed.

Lemma alive_step w e w' : wait_step w e w' → wp_pod w' = wp_pod w ∧ (alive w → alive w').
Proof.
  destruct e as [p|p msg|p now]; simpl.
  - intros ->. unfold Allow. destruct (negb _) eqn:Hs; (split; [done|]).
    + intros [?|[_ Ht]]; [by left|right]. apply negb_true_iff, Nat.eqb_neq in Hs. split.
      * intros He. simpl in He. by rewrite He in Hs.
      * simpl. intros q t [_ Hq]%lookup_delete_Some. by apply (Ht q).
    + left. simpl. by destruct (signal w); eexists.
  - intros ->. split; [done|intros _; apply alive_reject].
  - unfold fire. destruct (pendingPlugins w !! p) as [[d [a|]]|]; try done. destruct (a <=? now); [|done].
    intros [= <-]. split; [done|intros _; apply alive_reject].
Qed.

(** A timer of the pod fires once its time has come. *)
Lemma alive_fires w :
  alive w → signal w = None →
  ∃ p at_, ∀ now, at_ ≤ now → ∃ w' status, wait_step w (WFire p now) w' ∧ signal w' = Some status.
Proof.
  intros [[s Hs]|[Hne Ht]] Hn; [by rewrite Hn in Hs|]. apply map_choose in Hne as (p & [d f] & Hp).
  destruct (Ht p _ Hp) as [a Ha]. simpl in Ha. subst f. exists p, a. intros now Hle. simpl. unfold fire.
  rewrite Hp, (proj2 (Z.leb_le _ _) Hle). eexists _, _. split; [done|]. simpl. by rewrite Hn.
Qed.

(** C28. A pod gets its permit exactly if it is unanimous, and never waits
    forever.  Along any history of approvals, rejections and timeouts of a new
    waiting pod, the channel holds a success exactly if all the plugins that
    asked to wait have allowed the pod before any rejection or timeout;
    otherwise it holds the first rejection or timeout, with the name of its
    plugin; what it holds does not change; and while it holds nothing, some
    plugin is pending whose timer fires after its duration and gives a signal. *)
Theorem permit_unanimous pod waits now es w :
  waits ≠ ∅ → trace wait_step (newWaitingPod pod waits now) es w →
  match signal w with
  | Some s =>
      decided (dom waits) es s ∧ ∀ es' w', trace wait_step w es' w' → signal w' = Some s
  | None =>
      ¬ unanimous (dom waits) es ∧
      ∃ p d, waits !! p = Some d ∧ ∀ t, now + d ≤ t → ∃ w' s, wait_step w (WFire p t) w' ∧ signal w' = Some s ∧ failedPlugin s = p
  end.
Proof.
  intros Hne Ht. assert (undecided (newWaitingPod pod waits now) waits now) as Hu.
  { split_and!; [done|by intros ?%fmap_empty_inv|]. simpl. intros p t (d & <- & Hd)%lookup_fmap_Some. by exists d. }
  pose proof (waiting_spec _ _ _ _ _ Hu Ht) as Hw. simpl in Hw. rewrite dom_fmap_L in Hw.
  destruct (signal w) as [s|] eqn:Hs.
  - split; [done|]. intros es' w' Ht'. by eapply signal_stays.
  - destruct Hw as [(_ & Hp & Htm) Hnu]. split; [done|]. apply map_choose in Hp as (p & t & Hp).
    destruct (Htm p t Hp) as (d & Hd & ->). exists p, d. split; [done|]. intros t Hdt. eexists _, _. simpl.
    unfold fire. rewrite Hp, (proj2 (Z.leb_le _ _) Hdt). split; [done|]. simpl. by rewrite Hs.
Qed.
End Waiting.

(** ** A witness *)

Definition sample_waiting_pod : Pod :=
  mkPod "w" "ns" "uid-w" "1" ∅ [] [] None "n" None None "" "default-scheduler" ∅ [] ∅ [] [] None [] None None [] "" None [].

Lemma permit_unanimous_witness :
  let w := newWaitingPod sample_waiting_pod {["a" := 10; "b" := 20]} 5 in
  decided (dom ({["a" := 10; "b" := 20]} : gmap string Z)) [WAllow "b"; WAllow "a"] (NewStatus Success [""]).
Proof.
  intros w. apply (permit_unanimous (λ _, "") sample_waiting_pod {["a" := 10; "b" := 20]} 5 [WAllow "b"; WAllow "a"]
    (Allow (Allow w "b") "a")); [done|].
  econstructor; [done|]. econstructor; [done|]. constructor.
Defined.
