(* ===== verification/NodeResourcesFit.v ===== *)
(** * The resource filter: [pkg/scheduler/framework/plugins/noderesources/fit.go]

    The request of a pod as the plugin computes it, and the check of a node
    against it.  What the filter accepts does not overcommit the node, as long
    as the sums of the request stay in 64 bits. *)

From S2P Require Import Prelude Strconv InfDec Quantity Labels ApiTypes NodeInfo FwkStatus.
#[local] Open Scope Z_scope.

Record InsufficientResource := mkInsufficient {
  ir_ResourceName : ResourceName;
  Reason : string;
  ir_Requested : Z;
  Used : Z;
  Capacity : Z;
}.

(** The check of one scalar resource; the empty sets stand for nil ones. *)
Definition scalar_ignored (ignoredExtendedResources ignoredResourceGroups : gset string)
    (rName : ResourceName) : bool :=
  if IsExtendedResourceName rName then
    let rNamePrefix :=
      if (0 <? size ignoredResourceGroups)%nat
      then of_text (default [] (head (split_on "/" (txt rName)))) else "" in
    bool_decide (rName ∈ ignoredExtendedResources) ||
    bool_decide (rNamePrefix ∈ ignoredResourceGroups)
  else false.

Definition fitsRequest (podRequest : Resource) (nodeInfo : NodeInfo)
    (ignoredExtendedResources ignoredResourceGroups : gset string) : list InsufficientResource :=
  let allowedPodNumber := AllowedPodNumber (Allocatable nodeInfo) in
  let len := Z.of_nat (length (Pods nodeInfo)) in
  let insufficientResources :=
    if allowedPodNumber <? int64 (len + 1)
    then [mkInsufficient ResourcePods "Too many pods" 1 len allowedPodNumber] else [] in
  if (MilliCPU podRequest =? 0) && (Memory podRequest =? 0) &&
     (EphemeralStorage podRequest =? 0) && (size (ScalarResources podRequest) =? 0)%nat
  then insufficientResources
  else
    let check name reason (d : dim) :=
      if int64 (get d (Allocatable nodeInfo) - get d (Requested nodeInfo)) <? get d podRequest
      then [mkInsufficient name reason (get d podRequest) (get d (Requested nodeInfo))
              (get d (Allocatable nodeInfo))] else [] in
    insufficientResources ++ check ResourceCPU "Insufficient cpu" DCPU ++
    check ResourceMemory "Insufficient memory" DMemory ++
    check ResourceEphemeralStorage "Insufficient ephemeral-storage" DEphemeralStorage ++
    (map_to_list (ScalarResources podRequest) ≫= λ '(rName, rQuant),
       if scalar_ignored ignoredExtendedResources ignoredResourceGroups rName then []
       else check rName ("Insufficient " ++ rName)%string (DScalar rName)).

Section Gates.
Context (LocalStorageCapacityIsolation PodOverhead : bool).
Local Abbreviation Add := (Add LocalStorageCapacityIsolation).
Local Abbreviation SetMaxResource := (SetMaxResource LocalStorageCapacityIsolation).

Definition computePodResourceRequest (pod : Pod) : Resource :=
  let result := foldl (λ result container, Add result (Requests container)) zero_Resource
                  (pod_Containers pod) in
  let result := foldl (λ result container, SetMaxResource result (Requests container)) result
                  (pod_InitContainers pod) in
  match pod_Overhead pod, PodOverhead with
  | Some overhead, true => Add result overhead
  | _, _ => result
  end.

Definition Fits (pod : Pod) (nodeInfo : NodeInfo) : list InsufficientResource :=
  fitsRequest (computePodResourceRequest pod) nodeInfo ∅ ∅.

(** The data of a cycle as an interface value: [wrap] is the conversion of the
    plugin's state, [unwrap] the type assertion, [show] the format [%+v]. *)
Section Plugin.
Context {Data : Type} (wrap : Resource → Data) (unwrap : Data → option Resource) (show : Data → string).
Local Open Scope string_scope.

Definition preFilterStateKey : string := "PreFilterNodeResourcesFit".

Definition PreFilter (cycleState : gmap string Data) (pod : Pod) : gmap string Data * option Status :=
  (CycleState_Write cycleState preFilterStateKey (wrap (computePodResourceRequest pod)), None).

Definition getPreFilterState (cycleState : gmap string Data) : Resource + string :=
  match CycleState_Read cycleState preFilterStateKey with
  | None => inr ("error reading " +:+ quoted preFilterStateKey +:+ " from cycleState: not found")
  | Some c =>
      match unwrap c with
      | None => inr (show c +:+ "  convert to NodeResourcesFit.preFilterState error")
      | Some s => inl s
      end
  end.

Definition Filter (ignoredResources ignoredResourceGroups : gset string)
    (cycleState : gmap string Data) (nodeInfo : NodeInfo) : option Status :=
  match getPreFilterState cycleState with
  | inr e => Some (AsStatus e)
  | inl s =>
      let insufficientResources := fitsRequest s nodeInfo ignoredResources ignoredResourceGroups in
      if negb (length insufficientResources =? 0)%nat
      then Some (NewStatus Unschedulable (Reason <$> insufficientResources)) else None
  end.
End Plugin.
End Gates.

(** ** What the filter accepts *)

(** The plugin and the node count a pod with the same resources. *)
Lemma computePodResourceRequest_eq lsci overhead pod :
  computePodResourceRequest lsci overhead pod = pod_request lsci overhead pod.
Proof. unfold pod_request. by rewrite calculateResource_res. Qed.

Definition zero_request (r : Resource) : Prop :=
  MilliCPU r = 0 ∧ Memory r = 0 ∧ EphemeralStorage r = 0 ∧ ScalarResources r = ∅.

(** The dimensions the filter looks at. *)
Definition checked_dim (r : Resource) (ign grp : gset string) (d : dim) : Prop :=
  match d with
  | DScalar name => is_Some (ScalarResources r !! name) ∧ scalar_ignored ign grp name = false
  | _ => True
  end.

Lemma zero_request_dec r :
  (MilliCPU r =? 0) && (Memory r =? 0) && (EphemeralStorage r =? 0) &&
  (size (ScalarResources r) =? 0)%nat = true ↔ zero_request r.
Proof.
  unfold zero_request. rewrite !andb_true_iff, !Z.eqb_eq, Nat.eqb_eq, map_size_empty_iff. tauto.
Qed.

Lemma if_nil (c : bool) (x : InsufficientResource) : (if c then [x] else []) = [] ↔ c = false.
Proof. by destruct c. Qed.

Lemma bind_nil {A B} (f : A → list B) (l : list A) : l ≫= f = [] ↔ Forall (λ x, f x = []) l.
Proof.
  induction l as [|x l IH]; simpl; [by split|]. rewrite app_nil, IH. by rewrite Forall_cons.
Qed.

Lemma fitsRequest_nil r n ign grp :
  fitsRequest r n ign grp = [] ↔
    int64 (Z.of_nat (length (Pods n)) + 1) ≤ AllowedPodNumber (Allocatable n) ∧
    (zero_request r ∨
     ∀ d, checked_dim r ign grp d →
       get d r ≤ int64 (get d (Allocatable n) - get d (Requested n))).
Proof.
  unfold fitsRequest. destruct (_ && _) eqn:Hz.
  { apply zero_request_dec in Hz. rewrite if_nil, Z.ltb_ge. naive_solver. }
  assert (¬ zero_request r) as Hnz by (rewrite <- zero_request_dec, Hz; done).
  rewrite !app_nil, !if_nil, !Z.ltb_ge.
  assert ((map_to_list (ScalarResources r) ≫= λ '(rName, rQuant),
     if scalar_ignored ign grp rName then []
     else if int64 (get (DScalar rName) (Allocatable n) - get (DScalar rName) (Requested n)) <?
             get (DScalar rName) r
          then [mkInsufficient rName ("Insufficient " ++ rName)%string (get (DScalar rName) r)
                  (get (DScalar rName) (Requested n)) (get (DScalar rName) (Allocatable n))] else []) = []
    ↔ ∀ name, checked_dim r ign grp (DScalar name) →
        get (DScalar name) r ≤ int64 (get (DScalar name) (Allocatable n) - get (DScalar name) (Requested n))) as Hs.
  { rewrite bind_nil, Forall_forall. split.
    - intros H name [[q Hq] Hi]. specialize (H (name, q)). simpl in H. rewrite Hi, if_nil, Z.ltb_ge in H.
      by apply H, elem_of_map_to_list.
    - intros H [name q] Hin%elem_of_map_to_list. destruct (scalar_ignored ign grp name) eqn:Hi; [done|].
      rewrite if_nil, Z.ltb_ge. by apply H. }
  rewrite Hs. split.
  - intros (H1 & H2 & H3 & H4 & H5). split; [done|]. right. intros [| | |name] Hd; [done..|by apply H5].
  - intros [H1 [H2|H2]]; [done|].
    split_and!; [done|apply (H2 DCPU)|apply (H2 DMemory)|apply (H2 DEphemeralStorage)|]; try done.
    intros name. apply H2.
Qed.

(** Every objection is about a dimension that lacks room. *)
Lemma fitsRequest_elem r n ign grp x :
  x ∈ fitsRequest r n ign grp →
  AllowedPodNumber (Allocatable n) < int64 (Z.of_nat (length (Pods n)) + 1) ∨
  ∃ d, checked_dim r ign grp d ∧ int64 (get d (Allocatable n) - get d (Requested n)) < get d r.
Proof.
  assert (∀ (c : bool) (y : InsufficientResource), x ∈ (if c then [y] else []) → c = true) as Hif.
  { intros [] y; [done|]. by intros ?%not_elem_of_nil. }
  unfold fitsRequest. destruct (_ && _); [intros Hx%Hif%Z.ltb_lt; by left|].
  rewrite !elem_of_app. intros [Hx%Hif%Z.ltb_lt|[Hx%Hif%Z.ltb_lt|[Hx%Hif%Z.ltb_lt|[Hx%Hif%Z.ltb_lt|Hx]]]];
    [by left|right; by exists DCPU|right; by exists DMemory|right; by exists DEphemeralStorage|].
  apply list_elem_of_bind in Hx as ([name q] & Hx & Hin%elem_of_map_to_list). right.
  exists (DScalar name). destruct (scalar_ignored ign grp name) eqn:Hi; [by apply not_elem_of_nil in Hx|].
  apply Hif, Z.ltb_lt in Hx. simpl. rewrite Hin. eauto.
Qed.

(** A node whose requests are within what it can allocate. *)
Definition within (n : NodeInfo) : Prop :=
  ∀ d, 0 ≤ get d (Requested n) ≤ get d (Allocatable n) ∧ get d (Allocatable n) ≤ max_int64.

Lemma fit_step lsci overhead pod n g d :
  within n → 0 ≤ get d (pod_request lsci overhead pod) → Fits lsci overhead pod n = [] →
  let n' := (AddPod lsci overhead n pod g).1 in
  0 ≤ get d (Requested n') ≤ get d (Allocatable n').
Proof.
  intros Hw Hr Hfit. unfold Fits in Hfit. rewrite computePodResourceRequest_eq in Hfit.
  destruct (Hw d) as [Hd Hmax]. apply fitsRequest_nil in Hfit as [_ Hfit].
  assert (get d (pod_request lsci overhead pod) ≤ get d (Allocatable n) - get d (Requested n)) as Hle.
  { assert (get d (pod_request lsci overhead pod) = 0 ∨
      get d (pod_request lsci overhead pod) ≤ int64 (get d (Allocatable n) - get d (Requested n))) as Hor.
    { destruct Hfit as [(H1 & H2 & H3 & H4)|Hfit].
      - left. destruct d as [| | |name]; simpl; [done..|]. unfold scalar. by rewrite H4, lookup_empty.
      - destruct d as [| | |name]; [right; by apply Hfit..|]. simpl.
        destruct (ScalarResources (pod_request lsci overhead pod) !! name) eqn:Hn.
        + right. apply (Hfit (DScalar name)). simpl. rewrite Hn. split; [done|].
          unfold scalar_ignored. by case_match.
        + left. unfold scalar. by rewrite Hn. }
    rewrite int64_id in Hor by (unfold min_int64, max_int64 in *; lia). lia. }
  unfold AddPod, AddPodInfo. cbn [pi_Pod NewPodInfo Update].
  pose proof (eq_refl : pod_request lsci overhead pod = (calculateResource lsci overhead pod).1.1) as Hreq.
  destruct (calculateResource lsci overhead pod) as [[res c0] m0]. simpl in Hreq. subst res.
  cbv zeta. cbn [fst Requested Allocatable].
  assert (in64 (get d (Requested n))) by (unfold in64, min_int64, max_int64 in *; lia).
  rewrite update_Requested_get by done. rewrite int64_id; [lia|].
  unfold min_int64, max_int64 in *. lia.
Qed.

(** The resource filter does not overcommit: when the requests of a node
    are within what it can allocate and [Fits] has no objection to a pod whose
    computed request is not negative in any dimension, the node still holds no
    more than its allowed number of pods and requests no more than it can
    allocate, in every dimension, once the pod is added. *)
Lemma fit_no_overcommit lsci overhead pod n g :
  within n → (∀ d, 0 ≤ get d (calculateResource lsci overhead pod).1.1) →
  Z.of_nat (length (Pods n)) < max_int64 → Fits lsci overhead pod n = [] →
  let n' := (AddPod lsci overhead n pod g).1 in
  within n' ∧ Z.of_nat (length (Pods n')) ≤ AllowedPodNumber (Allocatable n').
Proof.
  intros Hw Hr Hlen Hfit n'.
  assert (Allocatable n' = Allocatable n ∧ length (Pods n') = S (length (Pods n))) as [Ha Hp].
  { unfold n', AddPod, AddPodInfo. destruct (calculateResource _ _ _) as [[? ?] ?]. simpl.
    rewrite length_app. simpl. split; [done|lia]. }
  split.
  - intros d. split; [by apply fit_step|]. rewrite Ha. apply Hw.
  - apply fitsRequest_nil in Hfit as [Hfit _]. rewrite int64_id in Hfit; [rewrite Ha, Hp; lia|].
    unfold min_int64, max_int64 in *. lia.
Qed.

(** The filter rejects exactly the nodes that lack room: it succeeds when
    the node may hold one more pod and either the pod asks for nothing or, in
    every dimension it asks for that is not configured to be ignored, the
    request is at most what is left; otherwise it is unschedulable with a
    reason. *)
Lemma fit_filter_exact {Data} (unwrap : Data → option Resource) show ign grp cycleState n r :
  getPreFilterState unwrap show cycleState = inl r →
  match Filter unwrap show ign grp cycleState n with
  | None =>
      int64 (Z.of_nat (length (Pods n)) + 1) ≤ AllowedPodNumber (Allocatable n) ∧
      (zero_request r ∨
       ∀ d, checked_dim r ign grp d →
         get d r ≤ int64 (get d (Allocatable n) - get d (Requested n)))
  | Some st =>
      code st = Unschedulable ∧ reasons st ≠ [] ∧
      (AllowedPodNumber (Allocatable n) < int64 (Z.of_nat (length (Pods n)) + 1) ∨
       ∃ d, checked_dim r ign grp d ∧
         int64 (get d (Allocatable n) - get d (Requested n)) < get d r)
  end.
Proof.
  unfold Filter. intros ->.
  pose proof (fitsRequest_nil r n ign grp) as Hnil. pose proof (fitsRequest_elem r n ign grp) as Hel.
  destruct (fitsRequest r n ign grp) as [|x l]; simpl.
  - by apply Hnil.
  - split; [done|]. split; [done|]. apply (Hel x). by left.
Qed.

(** A pod whose two containers each ask for 4Ei of memory. *)
Definition huge_pod : Pod :=
  let c := mkContainer [] (<["memory" := NewQuantity (2 ^ 62) BinarySI]> ∅) in
  mkPod "huge" "default" "uid-huge" "1" ∅ [c; c] [] None "" None None "" "" ∅ [] ∅ [] [] None [] None None [] "" None [].

(** The sum of the requests of a pod can overflow, and the filter then
    accepts it: a pod with two containers of 4Ei, which asks for 2^63 bytes, is
    counted with -2^63 bytes and fits every node that may hold one more pod and
    is not out of CPU or ephemeral storage, whatever its memory. *)
Lemma fit_overflow lsci overhead n :
  int64 (Z.of_nat (length (Pods n)) + 1) ≤ AllowedPodNumber (Allocatable n) →
  0 ≤ int64 (MilliCPU (Allocatable n) - MilliCPU (Requested n)) →
  0 ≤ int64 (EphemeralStorage (Allocatable n) - EphemeralStorage (Requested n)) →
  ideal_request lsci overhead DMemory huge_pod = 2 ^ 63 ∧
  Memory (computePodResourceRequest lsci overhead huge_pod) = - 2 ^ 63 ∧
  Fits lsci overhead huge_pod n = [].
Proof.
  intros Hp Hc He.
  assert (computePodResourceRequest lsci overhead huge_pod = mkResource 0 (- 2 ^ 63) 0 0 ∅) as Hreq.
  { destruct lsci, overhead; vm_compute; reflexivity. }
  split; [destruct lsci, overhead; vm_compute; reflexivity|]. rewrite Hreq. split; [reflexivity|]. unfold Fits. rewrite Hreq. clear Hreq.
  apply fitsRequest_nil. split; [done|]. right. intros [| | |name] Hd; cbn [get MilliCPU Memory EphemeralStorage]; [exact Hc| |exact He|].
  - apply int64_range.
  - destruct Hd as [Hd _]. by apply is_Some_None in Hd.
Qed.

(** ** Witnesses *)

Definition fit_node : NodeInfo :=
  (SetNode true (NewNodeInfo true true [pod_b] 0).1
     (mkNode "node-1" ∅ (<["pods" := NewQuantity 110 DecimalSI]> (sample_requests 8000 (2 ^ 30))) [] false [] []) 2).1.

Lemma fit_node_within : within fit_node.
Proof.
  intros [| | |name]; [vm_compute; split; [split|]; discriminate..|].
  assert (ScalarResources (Requested fit_node) = ∅ ∧ ScalarResources (Allocatable fit_node) = ∅) as [H1 H2]
    by (split; vm_compute; reflexivity).
  unfold get, scalar. rewrite H1, H2, lookup_empty. simpl. unfold max_int64. lia.
Qed.

Lemma fit_overflow_witness :
  Memory (computePodResourceRequest true true huge_pod) = - 2 ^ 63 ∧
  Fits true true huge_pod fit_node = [].
Proof. apply (fit_overflow true true fit_node); vm_compute; discriminate. Defined.
