(* ===== verification/NodeAffinity.v ===== *)
(** * Node selectors and affinity:
    [component-helpers/scheduling/corev1/nodeaffinity] and the plugin
    [pkg/scheduler/framework/plugins/nodeaffinity]

    Selector terms over the labels and the name of a node, parsed once and
    matched against nodes, and what the filter and the score of the plugin make
    of them.  A parse error is the requirement it is about. *)

From S2P Require Import Prelude Strconv Labels ApiTypes NodeInfo FwkStatus.
#[local] Open Scope string_scope.
#[local] Open Scope Z_scope.
#[local] Open Scope list_scope.

(** ** Field selectors: [apimachinery/pkg/fields/selector.go] *)

Inductive field_term := hasTerm (field value : string) | notHasTerm (field value : string).

Definition field_Matches (t : field_term) (ls : gmap string string) : bool :=
  match t with
  | hasTerm field value => (default "" (ls !! field) =? value)%string
  | notHasTerm field value => negb (default "" (ls !! field) =? value)%string
  end.

Definition and_Matches (ts : list field_term) (ls : gmap string string) : bool := forallb (λ t, field_Matches t ls) ts.

(** ** Terms *)

Definition isEmptyNodeSelectorTerm (term : NodeSelectorTerm) : bool :=
  (length (MatchExpressions term) =? 0)%nat && (length (MatchFields term) =? 0)%nat.

Definition extractNodeFields (n : Node) : gmap string string :=
  if (0 <? String.length (node_Name n))%nat then {["metadata.name" := node_Name n]} else ∅.

Definition node_operator (op : string) : option Operator :=
  if (op =? "In")%string then Some In
  else if (op =? "NotIn")%string then Some NotIn
  else if (op =? "Exists")%string then Some Exists
  else if (op =? "DoesNotExist")%string then Some DoesNotExist
  else if (op =? "Gt")%string then Some GreaterThan
  else if (op =? "Lt")%string then Some LessThan
  else None.

Definition requirement_of (expr : NodeSelectorRequirement) : option Requirement :=
  op ← node_operator (nsr_Operator expr); NewRequirement (nsr_Key expr) op (nsr_Values expr).

(** The selector, or the errors. *)
Definition nodeSelectorRequirementsAsSelector (nsm : list NodeSelectorRequirement)
    : Selector + list NodeSelectorRequirement :=
  if (length nsm =? 0)%nat then inl Nothing
  else
    let '(selector, errs) := foldl (λ '(selector, errs) expr,
      match requirement_of expr with
      | None => (selector, errs ++ [expr])
      | Some r => (Labels.Add selector [r], errs)
      end) (NewSelector, []) nsm in
    if negb (length errs =? 0)%nat then inr errs else inl selector.

Definition field_term_of (expr : NodeSelectorRequirement) : option field_term :=
  match nsr_Values expr with
  | [v] =>
      if (nsr_Operator expr =? "In")%string then Some (hasTerm (nsr_Key expr) v)
      else if (nsr_Operator expr =? "NotIn")%string then Some (notHasTerm (nsr_Key expr) v)
      else None
  | _ => None
  end.

(** The selector matches all fields when it has no terms, and nothing when
    there are no requirements: [None]. *)
Definition nodeSelectorRequirementsAsFieldSelector (nsr : list NodeSelectorRequirement)
    : option (list field_term) + list NodeSelectorRequirement :=
  if (length nsr =? 0)%nat then inl None
  else
    let '(selectors, errs) := foldl (λ '(selectors, errs) expr,
      match field_term_of expr with
      | None => (selectors, errs ++ [expr])
      | Some t => (selectors ++ [t], errs)
      end) ([], []) nsr in
    if negb (length errs =? 0)%nat then inr errs else inl (Some selectors).

Record nodeSelectorTerm := mkTerm {
  matchLabels : option Selector;
  matchFields : option (option (list field_term));
  parseErrs : list NodeSelectorRequirement;
}.

Definition newNodeSelectorTerm (term : NodeSelectorTerm) : nodeSelectorTerm :=
  let '(labels, errs) :=
    if negb (length (MatchExpressions term) =? 0)%nat then
      match nodeSelectorRequirementsAsSelector (MatchExpressions term) with
      | inl s => (Some s, [])
      | inr errs => (None, errs)
      end
    else (None, []) in
  let '(fields, errs) :=
    if negb (length (MatchFields term) =? 0)%nat then
      match nodeSelectorRequirementsAsFieldSelector (MatchFields term) with
      | inl s => (Some s, errs)
      | inr errs' => (None, errs ++ errs')
      end
    else (None, errs) in
  mkTerm labels fields errs.

Definition term_match (t : nodeSelectorTerm) (nodeLabels : Labels) (nodeFields : gmap string string)
    : bool * list NodeSelectorRequirement :=
  if negb (length (parseErrs t) =? 0)%nat then (false, parseErrs t)
  else if match matchLabels t with Some s => negb (Matches s nodeLabels) | None => false end then (false, [])
  else if match matchFields t with
          | Some s => (0 <? size nodeFields)%nat &&
              negb (match s with Some ts => and_Matches ts nodeFields | None => false end)
          | None => false
          end then (false, [])
  else (true, []).

(** ** Selectors *)

Definition NewLazyErrorNodeSelector (terms : list NodeSelectorTerm) : list nodeSelectorTerm :=
  newNodeSelectorTerm <$> filter (λ t, isEmptyNodeSelectorTerm t = false) terms.

Fixpoint lazy_loop (terms : list nodeSelectorTerm) (nodeLabels : Labels) (nodeFields : gmap string string)
    (errs : list NodeSelectorRequirement) : bool * list NodeSelectorRequirement :=
  match terms with
  | [] => (false, errs)
  | term :: terms =>
      let '(match_, tErrs) := term_match term nodeLabels nodeFields in
      if negb (length tErrs =? 0)%nat then lazy_loop terms nodeLabels nodeFields (errs ++ tErrs)
      else if match_ then (true, [])
      else lazy_loop terms nodeLabels nodeFields errs
  end.

(** [LazyErrorNodeSelector.Match] on a node that is not nil. *)
Definition Lazy_Match (ns : list nodeSelectorTerm) (n : Node) : bool * list NodeSelectorRequirement :=
  lazy_loop ns (node_Labels n) (extractNodeFields n) [].

(** The terms, or the errors. *)
Definition NewNodeSelector (terms : list NodeSelectorTerm) : list nodeSelectorTerm + list NodeSelectorRequirement :=
  let lazy := NewLazyErrorNodeSelector terms in
  let errs := lazy ≫= parseErrs in
  if negb (length errs =? 0)%nat then inr errs else inl lazy.

Definition NodeSelector_Match (ns : list nodeSelectorTerm) (n : Node) : bool := (Lazy_Match ns n).1.

Definition NewPreferredSchedulingTerms (terms : list PreferredSchedulingTerm)
    : list (nodeSelectorTerm * Z) + list NodeSelectorRequirement :=
  let '(parsed, errs) := foldl (λ '(parsed, errs) term,
    if (pst_Weight term =? 0) || isEmptyNodeSelectorTerm (pst_Preference term) then (parsed, errs)
    else
      let parsedTerm := newNodeSelectorTerm (pst_Preference term) in
      if negb (length (parseErrs parsedTerm) =? 0)%nat then (parsed, errs ++ parseErrs parsedTerm)
      else (parsed ++ [(parsedTerm, pst_Weight term)], errs)) ([], []) terms in
  if negb (length errs =? 0)%nat then inr errs else inl parsed.

Definition Preferred_Score (terms : list (nodeSelectorTerm * Z)) (n : Node) : Z :=
  foldl (λ score '(term, weight),
    if (term_match term (node_Labels n) (extractNodeFields n)).1 then int64 (score + weight) else score) 0 terms.

Record RequiredNodeAffinity := mkRequired {
  labelSelector : option Selector;
  nodeSelector : option (list nodeSelectorTerm);
}.

Definition GetRequiredNodeAffinity (pod : Pod) : RequiredNodeAffinity :=
  mkRequired
    (if (0 <? size (pod_NodeSelector pod))%nat then Some (SelectorFromValidatedSet (pod_NodeSelector pod)) else None)
    (a ← pod_Affinity pod; na ← aff_NodeAffinity a; terms ← na_Required na; Some (NewLazyErrorNodeSelector terms)).

Definition Required_Match (s : RequiredNodeAffinity) (n : Node) : bool * list NodeSelectorRequirement :=
  if match labelSelector s with Some sel => negb (Matches sel (node_Labels n)) | None => false end then (false, [])
  else match nodeSelector s with Some ns => Lazy_Match ns n | None => (true, []) end.

(** ** The plugin *)

Section Plugin.
Context {Data : Type} (wrap : RequiredNodeAffinity → Data) (unwrap : Data → option RequiredNodeAffinity).
Context (wrap_score : option (list (nodeSelectorTerm * Z)) → Data).
Context (unwrap_score : Data → option (option (list (nodeSelectorTerm * Z)))).
(** The affinity of the plugin's configuration; the text of parse errors. *)
Context (addedNodeSelector : option (list nodeSelectorTerm)) (addedPrefSchedTerms : option (list (nodeSelectorTerm * Z))).
Context (show_errors : list NodeSelectorRequirement → string).

Definition affinity_preFilterStateKey : string := "PreFilterNodeAffinity".
Definition affinity_preScoreStateKey : string := "PreScoreNodeAffinity".

Definition affinity_PreFilter (cycleState : gmap string Data) (pod : Pod) : gmap string Data * option Status :=
  (CycleState_Write cycleState affinity_preFilterStateKey (wrap (GetRequiredNodeAffinity pod)), None).

Definition affinity_getPreFilterState (cycleState : gmap string Data) : option RequiredNodeAffinity :=
  CycleState_Read cycleState affinity_preFilterStateKey ≫= unwrap.

Definition affinity_Filter (state : gmap string Data) (pod : Pod) (nodeInfo : NodeInfo) : option Status :=
  match node nodeInfo with
  | None => Some (NewStatus Error ["node not found"])
  | Some n =>
      if match addedNodeSelector with Some ns => negb (NodeSelector_Match ns n) | None => false end then
        Some (NewStatus UnschedulableAndUnresolvable ["node(s) didn't match scheduler-enforced node affinity"])
      else
        let s := default (GetRequiredNodeAffinity pod) (affinity_getPreFilterState state) in
        let '(match_, _) := Required_Match s n in
        if negb match_
        then Some (NewStatus UnschedulableAndUnresolvable ["node(s) didn't match Pod's node affinity/selector"])
        else None
  end.

(** A nil list of preferred terms is the empty list here: it has no terms to
    score with either way. *)
Definition getPodPreferredNodeAffinity (pod : Pod)
    : option (list (nodeSelectorTerm * Z)) + list NodeSelectorRequirement :=
  match (a ← pod_Affinity pod; na ← aff_NodeAffinity a; Some (na_Preferred na)) with
  | Some terms => match NewPreferredSchedulingTerms terms with inl t => inl (Some t) | inr errs => inr errs end
  | None => inl None
  end.

Definition affinity_PreScore (cycleState : gmap string Data) (pod : Pod) (nodes : list Node)
    : gmap string Data * option Status :=
  if (length nodes =? 0)%nat then (cycleState, None)
  else
    match getPodPreferredNodeAffinity pod with
    | inr errs => (cycleState, Some (AsStatus (show_errors errs)))
    | inl preferred => (CycleState_Write cycleState affinity_preScoreStateKey (wrap_score preferred), None)
    end.

(** [get] is the snapshot's lookup, with the text of its error; [%w] of a nil
    error prints a note about it. *)
Definition affinity_Score (get : string → NodeInfo + string) (state : gmap string Data) (pod : Pod) (nodeName : string)
    : Z * option Status :=
  let failed e := (0, Some (AsStatus ("getting node " +:+ quoted nodeName +:+ " from Snapshot: " +:+ e))) in
  match (match get nodeName with inl ni => inl (node ni) | inr e => inr e end) with
  | inr e => failed e
  | inl None => failed "%!w(<nil>)"
  | inl (Some n) =>
      let count := match addedPrefSchedTerms with Some t => Preferred_Score t n | None => 0 end in
      let s := match CycleState_Read state affinity_preScoreStateKey ≫= unwrap_score with
               | Some s => inl s
               | None => getPodPreferredNodeAffinity pod
               end in
      match s with
      | inr errs => (0, Some (AsStatus (show_errors errs)))
      | inl None => (count, None)
      | inl (Some t) => (int64 (count + Preferred_Score t n), None)
      end
  end.
End Plugin.

(** ** What the terms mean *)

(** A requirement on the labels. *)
Definition expr_holds (e : NodeSelectorRequirement) (ls : Labels) : Prop :=
  let v := ls !! nsr_Key e in
  match node_operator (nsr_Operator e) with
  | Some In => ∃ x, v = Some x ∧ x ∈ nsr_Values e
  | Some NotIn => ∀ x, v = Some x → x ∉ nsr_Values e
  | Some Exists => is_Some v
  | Some DoesNotExist => v = None
  | Some GreaterThan => ∃ x a y b, v = Some x ∧ ParseInt (txt x) = Some a ∧ nsr_Values e = [y] ∧ ParseInt (txt y) = Some b ∧ b < a
  | Some LessThan => ∃ x a y b, v = Some x ∧ ParseInt (txt x) = Some a ∧ nsr_Values e = [y] ∧ ParseInt (txt y) = Some b ∧ a < b
  | _ => False
  end.

(** A requirement on the fields, of which the name is the only one. *)
Definition field_holds (e : NodeSelectorRequirement) (n : Node) : Prop :=
  let v := if (nsr_Key e =? "metadata.name")%string then node_Name n else "" in
  if (nsr_Operator e =? "In")%string then nsr_Values e = [v] else nsr_Values e ≠ [v].

(** A term that is not empty, without errors, all of whose requirements hold. *)
Definition term_holds (t : NodeSelectorTerm) (n : Node) : Prop :=
  isEmptyNodeSelectorTerm t = false ∧
  (∀ e, e ∈ MatchExpressions t → is_Some (requirement_of e) ∧ expr_holds e (node_Labels n)) ∧
  (∀ e, e ∈ MatchFields t → is_Some (field_term_of e) ∧ (node_Name n ≠ "" → field_holds e n)).

Lemma requirement_holds e r ls : requirement_of e = Some r → (Req_Matches r ls = true ↔ expr_holds e ls).
Proof.
  unfold requirement_of, expr_holds. destruct (node_operator (nsr_Operator e)) as [op|] eqn:Hop; [|done].
  cbn [mbind option_bind]. unfold NewRequirement. destruct (_ && _) eqn:Hv; [|done]. intros [= <-].
  unfold Req_Matches, Has, Labels.Get. cbn [operator key strValues].
  assert (op ≠ Equals ∧ op ≠ DoubleEquals ∧ op ≠ NotEquals ∧ ∀ x, op ≠ OpOther x) as (N1 & N2 & N3 & N4).
  { unfold node_operator in Hop. repeat case_match; simplify_eq; done. }
  assert (∀ x, hasValue (mkReq (nsr_Key e) op (nsr_Values e)) x = true ↔ x ∈ nsr_Values e) as Hhas.
  { intros x. unfold hasValue. rewrite existsb_exists. cbn [strValues]. setoid_rewrite String.eqb_eq. setoid_rewrite <- list_elem_of_In.
    split; [by intros (y & Hy & ->)|by exists x]. }
  assert (∀ (P : Z → Z → bool) (Q : Z → Z → Prop), (∀ a b, P a b = true ↔ Q a b) → ∀ v,
    match ParseInt (txt v) with
    | None => false
    | Some a => match nsr_Values e with [y] => match ParseInt (txt y) with None => false | Some b => P a b end | _ => false end
    end = true ↔
    ∃ x a y b, Some v = Some x ∧ ParseInt (txt x) = Some a ∧ nsr_Values e = [y] ∧ ParseInt (txt y) = Some b ∧ Q a b) as Hcmp.
  { intros P Q HPQ v. split.
    - destruct (ParseInt (txt v)) as [a|] eqn:Ha; [|done]. destruct (nsr_Values e) as [|y [|? ?]]; try done.
      destruct (ParseInt (txt y)) as [b|] eqn:Hb; [|done]. intros H. exists v, a, y, b. by rewrite <- HPQ.
    - intros (x & a & y & b & [= <-] & -> & -> & -> & H). by apply HPQ. }
  destruct (ls !! nsr_Key e) as [v|] eqn:Hl; cbn [default from_option].
  - rewrite bool_decide_true by eauto. cbn [negb]. destruct op; try done.
    + rewrite Hhas. split; [intros H; by exists v|by intros (x & [= <-] & H)].
    + rewrite negb_true_iff, <- not_true_iff_false, Hhas. split; [by intros H x [= <-]|intros H; by apply H].
    + apply (Hcmp (λ a b, bool_decide (GreaterThan = GreaterThan) && (b <? a) || bool_decide (GreaterThan = LessThan) && (a <? b))).
      intros a b. rewrite bool_decide_true, bool_decide_false by done. cbn [andb]. rewrite orb_false_r. apply Z.ltb_lt.
    + apply (Hcmp (λ a b, bool_decide (LessThan = GreaterThan) && (b <? a) || bool_decide (LessThan = LessThan) && (a <? b))).
      intros a b. rewrite bool_decide_false, bool_decide_true by done. apply Z.ltb_lt.
  - rewrite bool_decide_false by (by intros [? ?]). cbn [negb]. destruct op; try done.
    + split; [done|by intros (? & ? & _)].
    + split; [done|by intros (? & ? & ? & ? & ? & _)].
    + split; [done|by intros (? & ? & ? & ? & ? & _)].
Qed.

Lemma field_term_holds e t n :
  field_term_of e = Some t → (field_Matches t {["metadata.name" := node_Name n]} = true ↔ field_holds e n).
Proof.
  unfold field_term_of, field_holds. destruct (nsr_Values e) as [|v [|? ?]]; try done.
  assert (default "" (({["metadata.name" := node_Name n]} : gmap string string) !! nsr_Key e) =
    if (nsr_Key e =? "metadata.name")%string then node_Name n else "") as Hv.
  { destruct (String.eqb_spec (nsr_Key e) "metadata.name") as [->|Hne]; [by rewrite lookup_singleton_eq|].
    by rewrite lookup_singleton_ne. }
  cbv zeta. set (x := if (nsr_Key e =? _)%string then _ else _) in *. clearbody x.
  destruct (nsr_Operator e =? "In")%string.
  - intros [= <-]. cbn [field_Matches]. rewrite Hv, String.eqb_eq. split; [by intros ->|by intros [= ->]].
  - destruct (nsr_Operator e =? "NotIn")%string; [|done]. intros [= <-]. cbn [field_Matches].
    rewrite Hv, negb_true_iff, String.eqb_neq. split; [by intros H [= ->]|intros H ->; by apply H].
Qed.

Lemma nonempty_eqb {A} (l : list A) : l ≠ [] → (length l =? 0)%nat = false.
Proof. by destruct l. Qed.

(** A loop that collects what it can read and the errors. *)
Lemma collect_spec {A B C} (f : A → option B) (add : C → B → C) (l : list A) : ∀ c errs,
  let r := foldl (λ '(c, errs) x, match f x with None => (c, errs ++ [x]) | Some y => (add c y, errs) end) (c, errs) l in
  (r.2 = [] ↔ errs = [] ∧ ∀ x, x ∈ l → is_Some (f x)) ∧
  ((∀ x, x ∈ l → is_Some (f x)) → r.1 = foldl add c (omap f l)).
Proof.
  induction l as [|x l IH]; intros c errs; simpl.
  { split; [|done]. split; [|by intros [? _]]. intros ->. split; [done|by intros x ?%not_elem_of_nil]. }
  destruct (f x) as [y|] eqn:Hx.
  - destruct (IH (add c y) errs) as [H1 H2]. split.
    + rewrite H1. split; [intros [H3 H4]; split; [done|]; intros z [->|Hz]%elem_of_cons; eauto|].
      intros [H3 H4]. split; [done|]. intros z Hz. apply H4. by right.
    + intros Hall. apply H2. intros z Hz. apply Hall. by right.
  - destruct (IH c (errs ++ [x])) as [H1 _]. split.
    + rewrite H1. split; [intros [[_ ?]%app_nil _]; done|]. intros [_ H]. destruct (H x (list_elem_of_here _ _)). congruence.
    + intros Hall. destruct (Hall x (list_elem_of_here _ _)). congruence.
Qed.

Lemma add_Matches rs : ∀ l ls,
  Matches (foldl (λ s r, Labels.Add s [r]) (internalSelector l) rs) ls =
  forallb (λ r, Req_Matches r ls) l && forallb (λ r, Req_Matches r ls) rs.
Proof.
  induction rs as [|r rs IH]; intros l ls; cbn [foldl]; [by rewrite andb_true_r|]. cbn [Labels.Add]. rewrite IH.
  change (forallb (λ r, Req_Matches r ls) (sort_ByKey (l ++ [r]))) with (Matches (internalSelector (sort_ByKey (l ++ [r]))) ls).
  rewrite Matches_sort. cbn [Matches]. rewrite forallb_app. cbn [forallb]. by rewrite andb_true_r, andb_assoc.
Qed.

Lemma omap_forallb {A B} (f : A → option B) (P : B → bool) (l : list A) :
  forallb P (omap f l) = true ↔ ∀ x y, x ∈ l → f x = Some y → P y = true.
Proof.
  rewrite forallb_forall. setoid_rewrite <- list_elem_of_In. setoid_rewrite list_elem_of_omap. naive_solver.
Qed.

Lemma labels_selector exprs ls :
  exprs ≠ [] →
  match nodeSelectorRequirementsAsSelector exprs with
  | inl s => (∀ e, e ∈ exprs → is_Some (requirement_of e)) ∧ (Matches s ls = true ↔ ∀ e, e ∈ exprs → expr_holds e ls)
  | inr errs => errs ≠ [] ∧ ¬ ∀ e, e ∈ exprs → is_Some (requirement_of e)
  end.
Proof.
  intros Hne. unfold nodeSelectorRequirementsAsSelector.
  rewrite (nonempty_eqb exprs Hne).
  destruct (collect_spec requirement_of (λ s r, Labels.Add s [r]) exprs NewSelector []) as [H1 H2]. cbv zeta in H1, H2.
  destruct (foldl _ _ exprs) as [s errs]. cbn [fst snd] in *. destruct errs as [|x errs]; cbn [length Nat.eqb negb].
  - destruct (proj1 H1 eq_refl) as [_ Hall]. split; [done|]. rewrite (H2 Hall). unfold NewSelector. rewrite add_Matches.
    cbn [forallb andb]. rewrite omap_forallb. split.
    + intros H e Hin. destruct (Hall e Hin) as [r Hr]. apply (requirement_holds e r ls Hr). by eapply H.
    + intros H e r Hin Hr. apply (requirement_holds e r ls Hr). by apply H.
  - split; [done|]. intros Hall. discriminate (proj2 H1 (conj eq_refl Hall)).
Qed.

Lemma fields_selector exprs n :
  exprs ≠ [] →
  match nodeSelectorRequirementsAsFieldSelector exprs with
  | inl s => (∀ e, e ∈ exprs → is_Some (field_term_of e)) ∧ ∃ ts, s = Some ts ∧
      (and_Matches ts {["metadata.name" := node_Name n]} = true ↔ ∀ e, e ∈ exprs → field_holds e n)
  | inr errs => errs ≠ [] ∧ ¬ ∀ e, e ∈ exprs → is_Some (field_term_of e)
  end.
Proof.
  intros Hne. unfold nodeSelectorRequirementsAsFieldSelector. rewrite (nonempty_eqb exprs Hne).
  destruct (collect_spec field_term_of (λ s t, s ++ [t]) exprs [] []) as [H1 H2]. cbv zeta in H1, H2.
  destruct (foldl _ _ exprs) as [s errs]. cbn [fst snd] in *. destruct errs as [|x errs]; cbn [length Nat.eqb negb].
  - destruct (proj1 H1 eq_refl) as [_ Hall]. split; [done|]. exists s. split; [done|].
    assert (s = omap field_term_of exprs) as ->.
    { rewrite (H2 Hall). clear. generalize (omap field_term_of exprs). intros l.
      assert (∀ acc, foldl (λ s t, s ++ [t]) acc l = acc ++ l) as H; [|apply H].
      induction l as [|t l IH]; intros acc; simpl; [by rewrite app_nil_r|]. by rewrite IH, <- app_assoc. }
    unfold and_Matches. rewrite omap_forallb. split.
    + intros H e Hin. destruct (Hall e Hin) as [t Ht]. apply (field_term_holds e t n Ht). by eapply H.
    + intros H e t Hin Ht. apply (field_term_holds e t n Ht). by apply H.
  - split; [done|]. intros Hall. discriminate (proj2 H1 (conj eq_refl Hall)).
Qed.

(** A term without errors. *)
Definition term_parses (t : NodeSelectorTerm) : Prop :=
  (∀ e, e ∈ MatchExpressions t → is_Some (requirement_of e)) ∧ (∀ e, e ∈ MatchFields t → is_Some (field_term_of e)).

Lemma fields_of n : node_Name n ≠ "" → extractNodeFields n = {["metadata.name" := node_Name n]}.
Proof. unfold extractNodeFields. by destruct (node_Name n). Qed.

Lemma labels_part exprs ls :
  let '(l, errs) :=
    if negb (length exprs =? 0)%nat then
      match nodeSelectorRequirementsAsSelector exprs with inl s => (Some s, []) | inr errs => (None, errs) end
    else (None, []) in
  (errs = [] ↔ ∀ e, e ∈ exprs → is_Some (requirement_of e)) ∧
  (errs = [] → match l with Some s => negb (Matches s ls) | None => false end = false ↔ ∀ e, e ∈ exprs → expr_holds e ls).
Proof.
  destruct (decide (exprs = [])) as [->|Hne].
  { split; split; try done; intros _ e He; by apply not_elem_of_nil in He. }
  rewrite (nonempty_eqb _ Hne). cbn [negb]. pose proof (labels_selector exprs ls Hne) as H.
  destruct (nodeSelectorRequirementsAsSelector exprs) as [s|errs]; [|naive_solver].
  destruct H as [Hall Hm]. split; [done|]. intros _. by rewrite negb_false_iff.
Qed.

Lemma fields_part exprs n (errs0 : list NodeSelectorRequirement) :
  let '(f, errs) :=
    if negb (length exprs =? 0)%nat then
      match nodeSelectorRequirementsAsFieldSelector exprs with inl s => (Some s, errs0) | inr errs => (None, errs0 ++ errs) end
    else (None, errs0) in
  (errs = [] ↔ errs0 = [] ∧ ∀ e, e ∈ exprs → is_Some (field_term_of e)) ∧
  (errs = [] →
   match f with
   | Some s => (0 <? size (extractNodeFields n))%nat &&
       negb (match s with Some ts => and_Matches ts (extractNodeFields n) | None => false end)
   | None => false
   end = false ↔ (node_Name n ≠ "" → ∀ e, e ∈ exprs → field_holds e n)).
Proof.
  destruct (decide (exprs = [])) as [->|Hne].
  { split; split; try done; [intros ->; split; [done|]|by intros [? _]|]; intros; by edestruct @not_elem_of_nil. }
  rewrite (nonempty_eqb _ Hne). cbn [negb]. pose proof (fields_selector exprs n Hne) as H.
  destruct (nodeSelectorRequirementsAsFieldSelector exprs) as [s|errs].
  - destruct H as [Hall (ts & -> & Hm)]. split; [naive_solver|]. intros _.
    destruct (decide (node_Name n = "")) as [Hn|Hn].
    { unfold extractNodeFields. rewrite Hn. cbn. by split. }
    rewrite (fields_of n Hn), map_size_singleton. cbn [Nat.ltb Nat.leb andb]. rewrite negb_false_iff, Hm. naive_solver.
  - destruct H as [Herr Hnot]. assert (errs0 ++ errs ≠ []) by (by intros [_ ?]%app_nil). naive_solver.
Qed.

Lemma term_match_spec t n :
  (parseErrs (newNodeSelectorTerm t) = [] ↔ term_parses t) ∧
  (term_match (newNodeSelectorTerm t) (node_Labels n) (extractNodeFields n)).2 = parseErrs (newNodeSelectorTerm t) ∧
  (isEmptyNodeSelectorTerm t = false →
   (term_match (newNodeSelectorTerm t) (node_Labels n) (extractNodeFields n)).1 = true ↔ term_holds t n).
Proof.
  unfold newNodeSelectorTerm, term_parses, term_holds, term_match.
  pose proof (labels_part (MatchExpressions t) (node_Labels n)) as H1. destruct (if negb _ then _ else _) as [l errs0] in *.
  pose proof (fields_part (MatchFields t) n errs0) as H2. destruct (if negb _ then _ else _) as [f errs] in *.
  destruct H1 as [E1 M1], H2 as [E2 M2]. cbn [parseErrs matchLabels matchFields].
  split; [rewrite E2, E1; done|]. destruct (decide (errs = [])) as [->|Hne].
  - cbn [length Nat.eqb negb]. destruct (proj1 E2 eq_refl) as [He0 Hf]. specialize (M1 He0). specialize (M2 eq_refl).
    pose proof (proj1 E1 He0) as Hl. clear He0 E1 E2.
    destruct (match l with Some s => _ | None => _ end).
    { split; [done|]. intros _. split; [done|]. intros (_ & H & _). symmetry. apply M1. intros e He. by apply H. }
    destruct (match f with Some s => _ | None => _ end); (split; [done|]); intros Hempty; split; try done.
    + intros (_ & _ & H). symmetry. apply M2. intros Hn e He. by apply H.
    + intros _. split; [done|]. split; [intros e He; split; [by apply Hl|by apply M1]|].
      intros e He. split; [by apply Hf|]. intros Hn. by apply M2.
  - rewrite (nonempty_eqb _ Hne). cbn [negb fst snd]. split; [done|]. intros _. split; [done|].
    intros (_ & H1 & H2). destruct Hne. apply E2. split; [apply E1|]; naive_solver.
Qed.

(** Errors of terms do not hide the terms that match. *)
Lemma lazy_loop_spec (ts : list NodeSelectorTerm) n : ∀ errs,
  Forall (λ t, isEmptyNodeSelectorTerm t = false) ts →
  (lazy_loop (newNodeSelectorTerm <$> ts) (node_Labels n) (extractNodeFields n) errs).1 = true ↔ ∃ t, t ∈ ts ∧ term_holds t n.
Proof.
  induction ts as [|t ts IH]; intros errs Hall.
  { split; [done|]. by intros (t & ?%not_elem_of_nil & _). }
  apply Forall_cons in Hall as [Ht Hts]. cbn [fmap list_fmap lazy_loop].
  destruct (term_match_spec t n) as (Hp & He & Hm). specialize (Hm Ht). destruct (term_match _ _ _) as [b errs'] eqn:Htm. simpl in *.
  assert (b = true → errs' = []) as Hb.
  { intros ->. unfold term_match in Htm. repeat case_match; naive_solver. }
  setoid_rewrite elem_of_cons. destruct errs' as [|x errs']; cbn [length Nat.eqb negb].
  - destruct b; [naive_solver|]. rewrite (IH errs Hts). naive_solver.
  - rewrite (IH _ Hts). naive_solver.
Qed.

Lemma Lazy_Match_spec terms n : (Lazy_Match (NewLazyErrorNodeSelector terms) n).1 = true ↔ ∃ t, t ∈ terms ∧ term_holds t n.
Proof.
  unfold Lazy_Match, NewLazyErrorNodeSelector. rewrite lazy_loop_spec.
  - setoid_rewrite list_elem_of_filter. split; [naive_solver|]. intros (t & Hin & Ht). exists t. split; [split; [apply Ht|done]|done].
  - apply Forall_forall. intros t [Ht _]%list_elem_of_filter. done.
Qed.

(** The node selector of a pod: its labels are labels of the node. *)
Lemma equals_Matches k v (ls : Labels) : Req_Matches (mkReq k Equals [v]) ls = true ↔ ls !! k = Some v.
Proof.
  unfold Req_Matches, Has, Labels.Get, hasValue. cbn [operator key strValues existsb].
  destruct (ls !! k) as [v'|] eqn:Hl; [|by cbn]. rewrite bool_decide_true by eauto. cbn [negb default from_option].
  rewrite orb_false_r, String.eqb_eq. naive_solver.
Qed.

Lemma selector_from_set (sel ls : gmap string string) : Matches (SelectorFromValidatedSet sel) ls = true ↔ sel ⊆ ls.
Proof.
  unfold SelectorFromValidatedSet. rewrite Matches_sort. cbn [Matches]. rewrite forallb_forall, map_subseteq_spec.
  setoid_rewrite <- list_elem_of_In. setoid_rewrite list_elem_of_fmap. split.
  - intros H k v Hk. apply (equals_Matches k v ls), H. exists (k, v). split; [done|]. by apply (elem_of_map_to_list (M := gmap string)).
  - intros H r ([k v] & -> & Hk%(elem_of_map_to_list (M := gmap string))). apply equals_Matches. by apply H.
Qed.

(** ** The filter *)

(** What the pod asks of a node. *)
Definition pod_selects (pod : Pod) (n : Node) : Prop :=
  (pod_NodeSelector pod : gmap string string) ⊆ node_Labels n ∧
  match (a ← pod_Affinity pod; na ← aff_NodeAffinity a; na_Required na) with
  | Some terms => ∃ t, t ∈ terms ∧ term_holds t n
  | None => True
  end.

Lemma Required_Match_spec pod n : (Required_Match (GetRequiredNodeAffinity pod) n).1 = true ↔ pod_selects pod n.
Proof.
  unfold Required_Match, GetRequiredNodeAffinity, pod_selects. cbn [labelSelector nodeSelector].
  assert (match (if (0 <? size (pod_NodeSelector pod))%nat then Some (SelectorFromValidatedSet (pod_NodeSelector pod)) else None)
    with Some sel => negb (Matches sel (node_Labels n)) | None => false end = false ↔
    (pod_NodeSelector pod : gmap string string) ⊆ node_Labels n) as Hsel.
  { destruct (0 <? size (pod_NodeSelector pod))%nat eqn:Hz.
    - rewrite negb_false_iff. apply selector_from_set.
    - apply Nat.ltb_ge in Hz. assert ((pod_NodeSelector pod : gmap string string) = ∅) as ->; [|by split; intros; [apply map_empty_subseteq|]].
      apply map_size_empty_inv. by apply Nat.le_0_r. }
  lazymatch type of Hsel with ?b = false ↔ _ => destruct b end.
  { split; [done|]. intros [H _]. symmetry. by apply Hsel. }
  assert (∀ P : Prop, (pod_NodeSelector pod : gmap string string) ⊆ node_Labels n ∧ P ↔ P) as -> by naive_solver.
  destruct (pod_Affinity pod) as [a|]; [|done]. cbn [mbind option_bind]. destruct (aff_NodeAffinity a) as [na|]; [|done].
  cbn [mbind option_bind]. destruct (na_Required na) as [terms|]; [|done]. apply Lazy_Match_spec.
Qed.

(** The filter of the node affinity plugin, on a node and in a cycle whose
    state is empty or was written by the plugin's pre-filter for the same pod:
    it accepts exactly the nodes that satisfy the affinity of the plugin's
    configuration (one of its terms holds), whose labels include the pod's node
    selector, and on which one of the terms of the pod's required affinity
    holds, if the pod has one.  A term holds when it is not empty, has no
    error and all its requirements on labels and fields hold; a term with an
    error does not keep the others from matching.  Every refusal is
    unresolvable: preempting other pods cannot help. *)
Lemma node_affinity_filter {Data} (wrap : RequiredNodeAffinity → Data) unwrap (added : option (list NodeSelectorTerm))
    (state : gmap string Data) pod ni n :
  (∀ r, unwrap (wrap r) = Some r) →
  node ni = Some n →
  state !! affinity_preFilterStateKey = None ∨ (∃ state', state = (affinity_PreFilter wrap state' pod).1) →
  let verdict := affinity_Filter unwrap (NewLazyErrorNodeSelector <$> added) state pod ni in
  (verdict = None ↔
    match added with Some terms => ∃ t, t ∈ terms ∧ term_holds t n | None => True end ∧ pod_selects pod n) ∧
  (verdict = None ∨ ∃ reasons, verdict = Some (NewStatus UnschedulableAndUnresolvable reasons)).
Proof.
  intros Hun Hn Hst. assert (default (GetRequiredNodeAffinity pod) (affinity_getPreFilterState unwrap state) = GetRequiredNodeAffinity pod) as Hs.
  { unfold affinity_getPreFilterState, CycleState_Read. destruct Hst as [->|[state' ->]]; [done|].
    cbn. unfold CycleState_Write. rewrite lookup_insert_eq. cbn. by rewrite Hun. }
  unfold affinity_Filter. rewrite Hn, Hs. cbv zeta.
  assert (match NewLazyErrorNodeSelector <$> added with Some ns => negb (NodeSelector_Match ns n) | None => false end = false ↔
    match added with Some terms => ∃ t, t ∈ terms ∧ term_holds t n | None => True end) as Hadd.
  { destruct added as [terms|]; [|done]. cbn. rewrite negb_false_iff. apply Lazy_Match_spec. }
  pose proof (Required_Match_spec pod n) as Hreq. destruct (Required_Match _ n) as [b errs]. cbn [fst] in Hreq.
  destruct (match NewLazyErrorNodeSelector <$> added with Some ns => _ | None => _ end); [|destruct b]; cbn [negb].
  - split; [|eauto]. split; [done|]. intros [H _]. by apply Hadd in H.
  - split; [|eauto]. rewrite <- Hadd, <- Hreq. done.
  - split; [|eauto]. rewrite <- Hreq. split; [done|by intros [_ ?]].
Qed.

(** A pod with a node selector and two required terms, the first of which has
    an unknown operator, and a node it selects. *)
Definition affinity_pod : Pod :=
  mkPod "a" "ns" "uid-a" "1" ∅ [] [] None "" (Some (mkAffinity None None (Some (mkNodeAffinity (Some [
      mkNodeSelectorTerm [mkNodeSelectorRequirement "cores" "Above" ["8"]] [];
      mkNodeSelectorTerm [mkNodeSelectorRequirement "cores" "Gt" ["8"]] [mkNodeSelectorRequirement "metadata.name" "NotIn" ["m"]]])
    [])))) None "" "" {["disk" := "ssd"]} [] ∅ [] [] None [] None None [] "" None [].
Definition affinity_node (cores : string) : Node :=
  mkNode "n" (<["cores" := cores]> {["disk" := "ssd"]}) ∅ [] false [] [].
Definition affinity_info (cores : string) : NodeInfo :=
  mkNodeInfo (Some (affinity_node cores)) [] [] [] ∅
    (mkResource 0 0 0 0 ∅) (mkResource 0 0 0 0 ∅) (mkResource 0 0 0 0 ∅) ∅ 0.
