(* ===== verification/Parallelizer.v ===== *)
(** * Work in parallel: [client-go/util/workqueue/parallelizer.go] and
    [pkg/scheduler/internal/parallelize]

    [ParallelizeUntil] as the interleavings of its goroutines: a schedule is a
    list of the goroutines that take the next step.  A piece of work is a
    sequence of atomic actions on the shared state. *)

From S2P Require Import Prelude.

Definition ceilDiv (a b : nat) : nat := (a + b - 1) / b.

(** [math.Sqrt] is exact on the numbers of pieces below 2^52. *)
Definition chunkSizeFor (n parallelism : nat) : nat :=
  let s := Nat.sqrt n in
  let r := (n / parallelism + 1)%nat in
  if (r <? s)%nat then r else if (s <? 1)%nat then 1%nat else s.

(** The chunk size [ParallelizeUntil] works with. *)
Definition effective_chunk (chunkSize : nat) : nat := if (chunkSize <? 1)%nat then 1%nat else chunkSize.

(** ** The goroutines *)

Section Parallelize.
(** [work] does the next atomic action of a piece; [None] when it is done. *)
Context {Sh Act : Type} (stopped : Sh → bool) (begin : nat → Act) (work : Act → Sh → Sh * option Act).
Context (chunkSize pieces : nat).

Inductive goroutine :=
| Fetch
| InChunk (p last : nat)
| Working (a : Act) (p last : nat)
| Returned.

(** [finished] and [skipped] are the pieces that were done and those that were
    dropped by a goroutine that saw the stop signal. *)
Record pool := mkPool {
  shared : Sh;
  toProcess : list nat;
  goroutines : list goroutine;
  finished : list nat;
  skipped : list nat;
}.

Definition chunk_end (chunk : nat) : nat := Nat.min (chunk * chunkSize + chunkSize) pieces.

(** The next step of goroutine [i]. *)
Definition advance (i : nat) (st : pool) : option pool :=
  match goroutines st !! i with
  | None | Some Returned => None
  | Some Fetch =>
      match toProcess st with
      | [] => Some (mkPool (shared st) [] (<[i := Returned]> (goroutines st)) (finished st) (skipped st))
      | chunk :: chunks =>
          Some (mkPool (shared st) chunks (<[i := InChunk (chunk * chunkSize) (chunk_end chunk)]> (goroutines st))
                  (finished st) (skipped st))
      end
  | Some (InChunk p last) =>
      if (p <? last)%nat then
        if stopped (shared st) then
          Some (mkPool (shared st) (toProcess st) (<[i := Returned]> (goroutines st)) (finished st)
                  (skipped st ++ seq p (last - p)))
        else Some (mkPool (shared st) (toProcess st) (<[i := Working (begin p) p last]> (goroutines st))
                     (finished st) (skipped st))
      else Some (mkPool (shared st) (toProcess st) (<[i := Fetch]> (goroutines st)) (finished st) (skipped st))
  | Some (Working a p last) =>
      match work a (shared st) with
      | (s, Some a) =>
          Some (mkPool s (toProcess st) (<[i := Working a p last]> (goroutines st)) (finished st) (skipped st))
      | (s, None) =>
          Some (mkPool s (toProcess st) (<[i := InChunk (S p) last]> (goroutines st)) (finished st ++ [p]) (skipped st))
      end
  end.

Definition ParallelizeUntil (workers : nat) (s : Sh) : pool :=
  if (pieces =? 0)%nat then mkPool s [] [] [] []
  else
    let chunks := ceilDiv pieces chunkSize in
    let workers := if (chunks <? workers)%nat then chunks else workers in
    mkPool s (seq 0 chunks) (replicate workers Fetch) [] [].

Definition pool_step (st : pool) (i : nat) (st' : pool) : Prop := advance i st = Some st'.

(** [wg.Wait] returns. *)
Definition all_returned (st : pool) : Prop := Forall (λ g, g = Returned) (goroutines st).

#[export] Instance returned_dec (g : goroutine) : Decision (g = Returned).
Proof. destruct g; [by right..|by left]. Defined.
#[export] Instance all_returned_dec (st : pool) : Decision (all_returned st).
Proof. unfold all_returned. apply _. Defined.
End Parallelize.
Arguments goroutine : clear implicits.
Arguments pool : clear implicits.

(** ** Every piece is done once *)

Section Coverage.
Context {Sh Act : Type} (stopped : Sh → bool) (begin : nat → Act) (work : Act → Sh → Sh * option Act).
Context (chunkSize pieces : nat) (chunk_pos : (0 < chunkSize)%nat).
Context (stop_stays : ∀ a s, stopped s = true → stopped (work a s).1 = true).
Implicit Types (st : pool Sh Act) (g : goroutine Act).
Local Abbreviation advance := (advance stopped begin work chunkSize pieces).

(** The pieces a goroutine has still to do, the one it is at, those of a chunk. *)
Definition ahead g : list nat :=
  match g with
  | InChunk p last => seq p (last - p)
  | Working _ p last => seq (S p) (last - S p)
  | Fetch | Returned => []
  end.
Definition current g : list nat := match g with Working _ p _ => [p] | _ => [] end.
Definition chunk_pieces (chunk : nat) : list nat :=
  seq (chunk * chunkSize) (chunk_end chunkSize pieces chunk - chunk * chunkSize).

Definition all_pieces st : list nat :=
  finished st ++ skipped st ++ (goroutines st ≫= λ g, current g ++ ahead g) ++ (toProcess st ≫= chunk_pieces).

Lemma insert_split {A} (l : list A) i x :
  l !! i = Some x → ∃ l1 l2, l = l1 ++ x :: l2 ∧ ∀ y, <[i := y]> l = l1 ++ y :: l2.
Proof.
  intros Hi. exists (take i l), (drop (S i) l). split; [by rewrite take_drop_middle|].
  intros y. by rewrite insert_take_drop by by eapply lookup_lt_Some.
Qed.

(** A step moves pieces around. *)
Lemma advance_pieces i st st' : advance i st = Some st' → all_pieces st' ≡ₚ all_pieces st.
Proof.
  unfold Parallelizer.advance, all_pieces. destruct (goroutines st !! i) as [g|] eqn:Hg; [|done].
  destruct (insert_split _ _ _ Hg) as (l1 & l2 & -> & Hins).
  destruct g as [|p last|a p last|]; [| | |done].
  - destruct (toProcess st) as [|c cs]; intros [= <-]; simpl; rewrite !Hins, !bind_app; simpl; [solve_Permutation|].
    fold (chunk_pieces c). solve_Permutation.
  - destruct (Nat.ltb_spec p last) as [Hlt|Hge].
    + assert (seq p (last - p) = p :: seq (S p) (last - S p)) as Hseq.
      { replace (last - p)%nat with (S (last - S p)) by lia. done. }
      destruct (stopped (shared st)); intros [= <-]; simpl; rewrite !Hins, !bind_app; simpl; rewrite ?Hseq;
        solve_Permutation.
    + intros [= <-]. simpl. rewrite !Hins, !bind_app. simpl. replace (last - p)%nat with 0%nat by lia. done.
  - destruct (work a (shared st)) as [s [a'|]]; intros [= <-]; simpl; rewrite !Hins, !bind_app; simpl; solve_Permutation.
Qed.

(** A goroutine returns early only when it has seen the stop signal. *)
Definition early_stop st : Prop :=
  (skipped st ≠ [] ∨ (∃ i, goroutines st !! i = Some Returned) ∧ toProcess st ≠ []) → stopped (shared st) = true.

Lemma advance_early i st st' : advance i st = Some st' → early_stop st → early_stop st'.
Proof.
  unfold Parallelizer.advance, early_stop. destruct (goroutines st !! i) as [g|] eqn:Hg; [|done].
  assert (∀ y j, y ≠ Returned → <[i := y]> (goroutines st) !! j = Some Returned → ∃ j, goroutines st !! j = Some Returned)
    as Hret.
  { intros y j Hy Hj. destruct (decide (i = j)) as [->|]; [|rewrite list_lookup_insert_ne in Hj by done; eauto].
    rewrite list_lookup_insert_eq in Hj by (by eapply lookup_lt_Some). congruence. }
  destruct g as [|p last|a p last|]; [| | |done].
  - destruct (toProcess st) as [|c cs] eqn:Hc; intros [= <-]; simpl;
      [intros He [Hs|[_ ?]]; [apply He; by left|done]|].
    intros He [Hs|[[j Hj] Hcs]]; apply He; [by left|]. right. split; [by eapply Hret; [|exact Hj]|done].
  - destruct (p <? last)%nat; [destruct (stopped (shared st)) eqn:Hst; [by intros [= <-]|]|]; intros [= <-]; simpl;
      (intros He [Hs|[[j Hj] Hcs]]; rewrite ?Hst; apply He; [by left|right; split; [by eapply Hret; [|exact Hj]|done]]).
  - destruct (work a (shared st)) as [s o] eqn:Hw. assert (stopped (shared st) = true → stopped s = true) as Hstay.
    { intros Hs. pose proof (stop_stays a _ Hs) as H. by rewrite Hw in H. }
    destruct o as [a'|]; intros [= <-]; simpl; intros He [Hs|[[j Hj] Hcs]]; apply Hstay, He;
      first [by left|right; split; [by eapply Hret; [|exact Hj]|done]].
Qed.

Lemma chunks_cover k : (seq 0 k ≫= chunk_pieces) = seq 0 (Nat.min (k * chunkSize) pieces).
Proof.
  induction k as [|k IH]; [done|]. rewrite seq_S, bind_app, IH. simpl. rewrite app_nil_r.
  unfold chunk_pieces, chunk_end. destruct (decide (k * chunkSize ≤ pieces)%nat) as [Hle|Hgt].
  - rewrite (Nat.min_l (k * chunkSize)) by done.
    replace (chunkSize + k * chunkSize)%nat with (k * chunkSize + chunkSize)%nat by lia.
    set (e := Nat.min (k * chunkSize + chunkSize) pieces).
    replace e with (k * chunkSize + (e - k * chunkSize))%nat at 2 by lia. by rewrite seq_app.
  - rewrite (Nat.min_r (k * chunkSize)) by lia. rewrite !Nat.min_r by lia.
    replace (pieces - k * chunkSize)%nat with 0%nat by lia. by rewrite app_nil_r.
Qed.

Lemma ceilDiv_enough : (pieces ≤ ceilDiv pieces chunkSize * chunkSize)%nat.
Proof.
  unfold ceilDiv. pose proof (Nat.div_mod (pieces + chunkSize - 1) chunkSize). pose proof (Nat.mod_upper_bound (pieces + chunkSize - 1) chunkSize). lia.
Qed.

Lemma start_pieces workers s :
  all_pieces (ParallelizeUntil chunkSize pieces workers s) ≡ₚ seq 0 pieces.
Proof.
  unfold ParallelizeUntil, all_pieces. destruct (Nat.eqb_spec pieces 0) as [->|Hp]; [done|]. simpl.
  assert (∀ n, (replicate n (Fetch : goroutine Act) ≫= λ g, current g ++ ahead g) = []) as Hnil.
  { intros n. induction n; [done|]. simpl. done. }
  rewrite Hnil, chunks_cover, Nat.min_r by apply ceilDiv_enough. done.
Qed.

Lemma advance_length i st st' : advance i st = Some st' → length (goroutines st') = length (goroutines st).
Proof.
  unfold Parallelizer.advance. destruct (goroutines st !! i) as [[|p last|a p last|]|]; [| | |done..].
  - destruct (toProcess st); intros [= <-]; apply length_insert.
  - destruct (p <? last)%nat; [destruct (stopped (shared st))|]; intros [= <-]; apply length_insert.
  - destruct (work a (shared st)) as [s []]; intros [= <-]; apply length_insert.
Qed.

(** What holds in every state of a run. *)
Record pool_inv st : Prop := {
  po_pieces : all_pieces st ≡ₚ seq 0 pieces;
  po_early : early_stop st;
  po_some : (0 < pieces)%nat → (0 < length (goroutines st))%nat;
}.

Lemma start_inv workers s : (0 < workers)%nat → pool_inv (ParallelizeUntil chunkSize pieces workers s).
Proof.
  intros Hw. split; [apply start_pieces| |]; unfold ParallelizeUntil; destruct (Nat.eqb_spec pieces 0) as [Hp|Hp]; simpl.
  - intros [?|[[i ?] ?]]; done.
  - intros [?|[[i Hi] _]]; [done|]. apply lookup_replicate in Hi as [Hi _]. done.
  - lia.
  - intros _. rewrite length_replicate. pose proof ceilDiv_enough. destruct (Nat.ltb_spec (ceilDiv pieces chunkSize) workers); nia.
Qed.

Lemma advance_inv i st st' : advance i st = Some st' → pool_inv st → pool_inv st'.
Proof.
  intros Ha [H1 H2 H3]. split.
  - by rewrite (advance_pieces i st st' Ha).
  - by eapply advance_early.
  - by rewrite (advance_length i st st' Ha).
Qed.

Lemma pieces_nodup st : pool_inv st → NoDup (all_pieces st).
Proof. intros H. rewrite (po_pieces _ H). apply NoDup_seq. Qed.

Lemma nodup_bind_unique {A B} (f : A → list B) (l : list A) i j x y z :
  NoDup (l ≫= f) → l !! i = Some x → l !! j = Some y → z ∈ f x → z ∈ f y → i = j.
Proof.
  revert i j. induction l as [|a l IH]; intros i j Hnd Hi Hj Hx Hy; [done|].
  simpl in Hnd. apply NoDup_app in Hnd as (_ & Hdis & Hnd).
  destruct i as [|i], j as [|j]; simpl in Hi, Hj; simplify_eq; [done| | |f_equal; by eapply IH]; exfalso.
  - apply (Hdis z Hx). apply list_elem_of_bind. exists y. split; [done|]. by eapply list_elem_of_lookup_2.
  - apply (Hdis z Hy). apply list_elem_of_bind. exists x. split; [done|]. by eapply list_elem_of_lookup_2.
Qed.

(** The goroutines work on different pieces, which are not finished. *)
Lemma working_once st i j a b p last last' :
  pool_inv st → goroutines st !! i = Some (Working a p last) → goroutines st !! j = Some (Working b p last') → i = j.
Proof.
  intros Hi Ha Hb. apply pieces_nodup in Hi. unfold all_pieces in Hi.
  apply NoDup_app in Hi as (_ & _ & (_ & _ & (Hi & _)%NoDup_app)%NoDup_app).
  eapply (nodup_bind_unique _ _ i j _ _ p Hi Ha Hb); simpl; by left.
Qed.

Lemma working_unfinished st i a p last :
  pool_inv st → goroutines st !! i = Some (Working a p last) →
  (p ∉ finished st) ∧ (p < pieces)%nat.
Proof.
  intros Hi Ha. assert (p ∈ (goroutines st ≫= λ g, current g ++ ahead g)) as Hin.
  { apply list_elem_of_bind. exists (Working a p last). split; [by left|by eapply list_elem_of_lookup_2]. }
  split.
  - intros Hf. apply pieces_nodup, NoDup_app in Hi as (_ & Hdis & _). apply (Hdis p Hf). clear -Hin. set_solver.
  - assert (p ∈ seq 0 pieces) as Hp; [|apply elem_of_seq in Hp; lia].
    rewrite <- (po_pieces _ Hi). unfold all_pieces. clear -Hin. set_solver.
Qed.

Lemma finished_ok st : pool_inv st → NoDup (finished st) ∧ ∀ p, p ∈ finished st → (p < pieces)%nat.
Proof.
  intros Hi. split; [apply pieces_nodup, NoDup_app in Hi; by destruct Hi|]. intros p Hp.
  assert (p ∈ seq 0 pieces) as Hs; [|apply elem_of_seq in Hs; lia].
  rewrite <- (po_pieces _ Hi). unfold all_pieces. clear -Hp. set_solver.
Qed.

(** When all goroutines have returned every piece is done, once, unless the
    stop signal was given. *)
Lemma returned_done st :
  pool_inv st → all_returned st → stopped (shared st) = true ∨ finished st ≡ₚ seq 0 pieces.
Proof.
  intros Hi Hr. destruct (stopped (shared st)) eqn:Hst; [by left|]. right.
  assert (skipped st = []) as Hs.
  { destruct (skipped st) eqn:Hs; [done|]. pose proof (po_early _ Hi) as He. unfold early_stop in He. rewrite Hs, Hst in He.
    discriminate He. by left. }
  assert ((toProcess st ≫= chunk_pieces) = []) as Hc.
  { destruct (toProcess st) as [|c cs] eqn:Hc; [done|]. destruct (decide (0 < pieces)%nat) as [Hp|Hp].
    - apply (po_some _ Hi) in Hp. destruct (lookup_lt_is_Some_2 (goroutines st) 0 Hp) as [g Hg].
      pose proof (Forall_lookup_1 _ _ _ _ Hr Hg) as ->. pose proof (po_early _ Hi) as He. unfold early_stop in He. rewrite Hc, Hst in He.
      discriminate He. right. split; [by exists 0%nat|done].
    - assert (∀ l, (l ≫= chunk_pieces) = []) as Hnil; [|apply Hnil]. intros l. induction l as [|x l IH]; [done|].
      change (chunk_pieces x ++ (l ≫= chunk_pieces) = []). rewrite IH, app_nil_r.
      unfold chunk_pieces, chunk_end. replace (_ - _)%nat with 0%nat by lia. done. }
  rewrite <- (po_pieces _ Hi). unfold all_pieces. rewrite Hs, Hc.
  assert ((goroutines st ≫= λ g, current g ++ ahead g) = []) as ->; [|by rewrite !app_nil_r].
  unfold all_returned in Hr. induction Hr as [|g l -> _ IH]; [done|]. simpl. done.
Qed.

(** ** What the pieces of work see *)

(** The action some goroutine is at in the piece [p], and the sum of a
    function of the actions of all goroutines. *)
Definition at_work st (a : Act) (p : nat) : Prop := ∃ i last, goroutines st !! i = Some (Working a p last).
Definition tally (f : Act → nat) st : nat :=
  sum_list_with (λ g, match g with Working a _ _ => f a | _ => 0 end) (goroutines st).

Lemma at_work_insert i g x st st' :
  pool_inv st → goroutines st !! i = Some x → goroutines st' = <[i := g]> (goroutines st) →
  ∀ a p, at_work st' a p ↔ (∃ last, g = Working a p last) ∨ (at_work st a p ∧ ∀ b last, x ≠ Working b p last).
Proof.
  intros Hinv Hx Hg a p. assert (i < length (goroutines st))%nat as Hi by by eapply lookup_lt_Some.
  unfold at_work. rewrite Hg. split.
  - intros (j & last & Hj). destruct (decide (i = j)) as [->|Hne].
    + rewrite list_lookup_insert_eq in Hj by done. injection Hj as ->. left. eauto.
    + rewrite list_lookup_insert_ne in Hj by done. right. split; [eauto|]. intros b last' ->.
      apply Hne. by eapply working_once.
  - intros [(last & ->)|((j & last & Hj) & Hne)].
    + exists i, last. by apply list_lookup_insert_eq.
    + exists j, last. rewrite list_lookup_insert_ne; [done|]. intros ->. rewrite Hx in Hj. injection Hj as ->. by eapply Hne.
Qed.

Lemma tally_insert f i g x st st' :
  goroutines st !! i = Some x → goroutines st' = <[i := g]> (goroutines st) →
  let v g := match g with Working a _ _ => f a | _ => 0%nat end in
  (tally f st' + v x = tally f st + v g)%nat.
Proof.
  intros Hx Hg. unfold tally. rewrite Hg. destruct (insert_split _ _ _ Hx) as (l1 & l2 & -> & Hins). rewrite Hins.
  rewrite !sum_list_with_app. simpl. lia.
Qed.

(** A step of a goroutine changes nothing, begins a piece, or does the next
    action of a piece. *)
Inductive pool_move st st' : Prop :=
| MoveNothing :
    shared st' = shared st → finished st' = finished st → (∀ a p, at_work st' a p ↔ at_work st a p) →
    (∀ f, tally f st' = tally f st) → pool_move st st'
| MoveBegin (p : nat) :
    stopped (shared st) = false → shared st' = shared st → finished st' = finished st → (p < pieces)%nat →
    (∀ a q, at_work st' a q ↔ (q = p ∧ a = begin p) ∨ (q ≠ p ∧ at_work st a q)) → (∀ a, ¬ at_work st a p) →
    p ∉ finished st → (∀ f, tally f st' = (tally f st + f (begin p))%nat) → pool_move st st'
| MoveWork (a : Act) (p : nat) (s : Sh) (o : option Act) :
    at_work st a p → work a (shared st) = (s, o) → shared st' = s →
    finished st' = finished st ++ match o with Some _ => [] | None => [p] end →
    (∀ b q, at_work st' b q ↔ (q = p ∧ o = Some b) ∨ (q ≠ p ∧ at_work st b q)) → p ∉ finished st → (p < pieces)%nat →
    (∀ f, (tally f st' + f a)%nat = (tally f st + from_option f 0 o)%nat) → pool_move st st'.

Lemma move_begin i st st' p last :
  pool_inv st → pool_inv st' → goroutines st !! i = Some (InChunk p last) → stopped (shared st) = false →
  st' = mkPool (shared st) (toProcess st) (<[i := Working (begin p) p last]> (goroutines st)) (finished st) (skipped st) →
  pool_move st st'.
Proof.
  intros Hinv Hinv' Hg Hst ->. set (st' := mkPool _ _ _ _ _).
  assert (goroutines st' !! i = Some (Working (begin p) p last)) as Hg'.
  { apply list_lookup_insert_eq. by eapply lookup_lt_Some. }
  assert (∀ a, ¬ at_work st a p) as Hnone.
  { intros a (j & last' & Hj). assert (i ≠ j) as Hne by (intros ->; congruence).
    apply Hne, (working_once st' i j (begin p) a p last last' Hinv' Hg'). simpl. by rewrite list_lookup_insert_ne. }
  destruct (working_unfinished st' i (begin p) p last Hinv' Hg') as [Hf Hp].
  apply (MoveBegin _ _ p); try done.
  - intros a q. rewrite (at_work_insert i _ _ st st' Hinv Hg eq_refl). split.
    + intros [(? & [= -> -> ->])|[Hat _]]; [by left|]. right. split; [|done]. by intros ->; eapply Hnone.
    + intros [[-> ->]|[Hne Hat]]; [left; eauto|right; done].
  - intros f. pose proof (tally_insert f i _ _ st st' Hg eq_refl) as Ht. simpl in Ht. lia.
Qed.

Lemma advance_move i st st' : pool_inv st → advance i st = Some st' → pool_move st st'.
Proof.
  intros Hinv Ha. pose proof (advance_inv i st st' Ha Hinv) as Hinv'. revert Ha.
  unfold Parallelizer.advance. destruct (goroutines st !! i) as [g|] eqn:Hg; [|done].
  assert (∀ x g st', pool_inv st → goroutines st !! i = Some x → (∀ a p l, x ≠ Working a p l) → (∀ a p l, g ≠ Working a p l) →
    shared st' = shared st → finished st' = finished st → goroutines st' = <[i := g]> (goroutines st) → pool_move st st') as Hno.
  { intros x g' st1 Hi Hx Hx1 Hg1 H1 H2 H3. apply MoveNothing; [done|done| |].
    - intros a p. rewrite (at_work_insert i _ _ st st1 Hi Hx H3).
      split; [by intros [(l & Hw)|[? _]]; [destruct (Hg1 _ _ _ Hw)|]|]. intros Hat. right. split; [done|]. intros b l. apply Hx1.
    - intros f. pose proof (tally_insert f i _ _ st st1 Hx H3) as Ht. 
      destruct x; [..|by destruct (Hx1 _ _ _ eq_refl)|]; (destruct g'; [..|by destruct (Hg1 _ _ _ eq_refl)|]); simpl in Ht; lia. }
  destruct g as [|p last|a p last|]; [| | |done].
  - destruct (toProcess st); intros [= <-]; (eapply (Hno _ _ _ Hinv Hg); [done| |reflexivity|reflexivity|reflexivity]; done).
  - destruct (p <? last)%nat; [destruct (stopped (shared st)) eqn:Hst|]; intros [= Heq];
      [subst; (eapply (Hno _ _ _ Hinv Hg); [done| |reflexivity|reflexivity|reflexivity]; done)| |subst; (eapply (Hno _ _ _ Hinv Hg); [done| |reflexivity|reflexivity|reflexivity]; done)].
    by eapply (move_begin i).
  - destruct (working_unfinished st i a p last Hinv Hg) as [Hf Hp].
    destruct (work a (shared st)) as [s o] eqn:Hw. intros Hst'.
    assert (shared st' = s ∧ finished st' = finished st ++ match o with Some _ => [] | None => [p] end ∧
      ∃ g, goroutines st' = <[i := g]> (goroutines st) ∧ (∀ b q, (∃ l, g = Working b q l) ↔ q = p ∧ o = Some b) ∧
        ∀ f, match g with Working a _ _ => f a | _ => 0%nat end = from_option f 0%nat o) as (H1 & H2 & g & H3 & H4 & H5).
    { destruct o as [a'|]; injection Hst' as <-; simpl; rewrite ?app_nil_r; (split; [done|]; split; [done|]; eexists; split; [done|]).
      - split; [|done]. intros b q. split; [by intros (? & [= -> -> ->])|]. intros [-> [= ->]]. eauto.
      - split; [|done]. intros b q. split; [by intros (? & ?)|by intros [_ ?]]. }
    apply (MoveWork _ _ a p s o); try done.
    + by exists i, last.
    + intros b q. rewrite (at_work_insert i _ _ st st' Hinv Hg H3), H4. split.
      * intros [?|[Hat Hne]]; [by left|]. right. split; [|done]. intros ->. by eapply Hne.
      * intros [?|[Hne Hat]]; [by left|]. right. split; [done|]. by intros ? ? [= _ -> _].
    + intros f. pose proof (tally_insert f i _ _ st st' Hg H3) as Ht. simpl in Ht. by rewrite H5 in Ht.
Qed.

(** ** Every run ends *)

Context (rank : Act → nat) (bound : nat).
Context (rank_begin : ∀ p, (rank (begin p) ≤ bound)%nat).
Context (rank_work : ∀ a s s' a', work a s = (s', Some a') → (rank a' < rank a)%nat).

Definition weight g : nat :=
  match g with
  | Returned => 0
  | Fetch => 1
  | InChunk p last => (last - p) * (bound + 2) + 2
  | Working a p last => rank a + (last - S p) * (bound + 2) + 3
  end.
Definition chunk_weight (chunk : nat) : nat :=
  (chunk_end chunkSize pieces chunk - chunk * chunkSize) * (bound + 2) + 2.
Definition total_weight st : nat := sum_list_with weight (goroutines st) + sum_list_with chunk_weight (toProcess st).

Lemma advance_weight i st st' : advance i st = Some st' → (total_weight st' < total_weight st)%nat.
Proof.
  unfold Parallelizer.advance, total_weight. destruct (goroutines st !! i) as [g|] eqn:Hg; [|done].
  destruct (insert_split _ _ _ Hg) as (l1 & l2 & -> & Hins).
  destruct g as [|p last|a p last|]; [| | |done].
  - destruct (toProcess st) as [|c cs]; intros [= <-]; simpl; rewrite ?Hins, ?sum_list_with_app; simpl; unfold chunk_weight; lia.
  - destruct (Nat.ltb_spec p last) as [Hlt|Hge]; [destruct (stopped (shared st))|]; intros [= <-]; simpl;
      rewrite ?Hins, ?sum_list_with_app; simpl;
      [generalize ((last - p) * (bound + 2))%nat; lia| |generalize ((last - p) * (bound + 2))%nat; lia].
    specialize (rank_begin p). replace (last - p)%nat with (S (last - S p)) by lia. lia.
  - destruct (work a (shared st)) as [s [a'|]] eqn:Hw; intros [= <-]; simpl;
      rewrite ?Hins, ?sum_list_with_app; simpl; [apply rank_work in Hw|]; lia.
Qed.

Local Abbreviation steps := (pool_step stopped begin work chunkSize pieces).

Lemma steps_inv workers s order st :
  (0 < workers)%nat → trace steps (ParallelizeUntil chunkSize pieces workers s) order st → pool_inv st.
Proof.
  intros Hw Ht. eapply (trace_invariant _ pool_inv); [|exact Ht|by apply start_inv].
  intros st1 i st2 Hi Hs. by eapply advance_inv.
Qed.

Lemma steps_bounded st order st' : trace steps st order st' → (length order + total_weight st' ≤ total_weight st)%nat.
Proof. induction 1 as [|st i st1 order st2 Hs _ IH]; simpl; [lia|]. apply advance_weight in Hs. lia. Qed.

Lemma can_advance st : ¬ all_returned st → ∃ i st', advance i st = Some st'.
Proof.
  intros Hn. assert (∃ i g, goroutines st !! i = Some g ∧ g ≠ Returned) as (i & g & Hi & Hg).
  { unfold all_returned in Hn. revert Hn. induction (goroutines st) as [|g l IH]; intros Hn; [by destruct Hn|].
    destruct g; [by eexists 0%nat, _..|]. destruct IH as (i & g & Hi & Hg); [by contradict Hn; constructor|].
    by exists (S i), g. }
  exists i. unfold Parallelizer.advance. rewrite Hi. destruct g; [| | |done].
  - destruct (toProcess st); eauto.
  - destruct (_ <? _)%nat; [destruct (stopped _)|]; eauto.
  - destruct (work a _) as [? []]; eauto.
Qed.

(** Every run can be completed. *)
Lemma complete_run st : ∃ order st', trace steps st order st' ∧ all_returned st'.
Proof.
  remember (total_weight st) as n eqn:Hn. revert st Hn. induction (lt_wf n) as [n _ IH]. intros st ->.
  destruct (decide (all_returned st)) as [Hr|Hr]; [exists [], st; split; [constructor|done]|].
  destruct (can_advance st Hr) as (i & st1 & Hi).
  destruct (IH (total_weight st1) (advance_weight i st st1 Hi) st1 eq_refl) as (order & st' & Ht & Hr').
  exists (i :: order), st'. split; [by econstructor|done].
Qed.
End Coverage.

(** [ParallelizeUntil] does every piece of work once: however its goroutines
    take turns, it ends (no run is longer than a bound and a goroutine that has
    not returned can go on), no piece is done twice, and when all goroutines
    have returned every piece is done unless the stop signal was given. *)
Lemma parallelize_once {Sh Act : Type} (stopped : Sh → bool) (begin : nat → Act)
    (work : Act → Sh → Sh * option Act) (rank : Act → nat) (bound chunkSize pieces workers : nat) (s : Sh) order st :
  (∀ a s, stopped s = true → stopped (work a s).1 = true) →
  (∀ p, (rank (begin p) ≤ bound)%nat) →
  (∀ a s s' a', work a s = (s', Some a') → (rank a' < rank a)%nat) →
  (0 < workers)%nat →
  let size := effective_chunk chunkSize in
  let start := ParallelizeUntil size pieces workers s in
  trace (pool_step stopped begin work size pieces) start order st →
  (length order ≤ total_weight size pieces rank bound start)%nat ∧
  (all_returned st ∨ ∃ i st', pool_step stopped begin work size pieces st i st') ∧
  NoDup (finished st) ∧ (∀ p, p ∈ finished st → (p < pieces)%nat) ∧
  (all_returned st → stopped (shared st) = true ∨ finished st ≡ₚ seq 0 pieces).
Proof.
  intros Hstop Hbegin Hwork Hw size start Ht.
  assert (0 < size)%nat as Hsize by (unfold size, effective_chunk; destruct (Nat.ltb_spec chunkSize 1); lia).
  pose proof (steps_inv stopped begin work size pieces Hsize Hstop workers s order st Hw Ht) as Hi.
  pose proof (steps_bounded stopped begin work size pieces Hsize rank bound Hbegin Hwork _ _ _ Ht).
  destruct (finished_ok stopped size pieces Hsize st Hi) as [Hnd Hlt]. split; [lia|]. split; [|split; [done|split; [done|]]].
  - destruct (decide (all_returned st)) as [Hr|Hr]; [by left|right]. by apply can_advance.
  - by eapply returned_done.
Qed.

(** ** A witness *)

(** A run of the goroutines in the given order. *)
Lemma run_pool_trace {Sh Act} (adv : nat → pool Sh Act → option (pool Sh Act)) order : ∀ st st',
  foldl (λ o i, o ≫= adv i) (Some st) order = Some st' → trace (λ st i st', adv i st = Some st') st order st'.
Proof.
  induction order as [|i order IH]; intros st st'; cbn [foldl mbind option_bind]; [intros [= ->]; constructor|].
  destruct (adv i st) as [st1|] eqn:Hi.
  - intros Hr. econstructor; [done|]. by apply IH.
  - intros Hr. exfalso. clear IH. induction order; simpl in *; [done|auto].
Qed.

(** Two goroutines sum up five numbers, in chunks of two. *)
Local Abbreviation sum_advance :=
  (advance (λ _ : nat, false) id (λ a s, ((a + s)%nat, @None nat)) (effective_chunk 2) 5).
Definition sum_order : list nat := [0; 1; 0; 1; 0; 1; 0; 1; 0; 1; 0; 1; 0; 1; 0; 0; 0; 0]%nat.
Definition sum_pool : pool nat nat :=
  default (ParallelizeUntil (effective_chunk 2) 5 2 0%nat)
    (foldl (λ o i, o ≫= sum_advance i) (Some (ParallelizeUntil (effective_chunk 2) 5 2 0%nat)) sum_order).

Lemma parallelize_once_witness : all_returned sum_pool ∧ finished sum_pool ≡ₚ seq 0 5.
Proof.
  assert (all_returned sum_pool) as Hr by (vm_compute; repeat constructor). split; [exact Hr|].
  destruct (parallelize_once (λ _, false) id (λ a s, ((a + s)%nat, None)) (λ _, 0%nat) 0 2 5 2 0%nat sum_order sum_pool)
    as (_ & _ & _ & _ & H).
  - done.
  - done.
  - done.
  - lia.
  - apply run_pool_trace. vm_compute. reflexivity.
  - by destruct (H Hr).
Defined.
