(* ===== verification/FeasibleSearch.v ===== *)
(** * The search for feasible nodes: [findNodesThatPassFilters] of
    [pkg/scheduler/core/generic_scheduler.go]

    The goroutines that check nodes in parallel, as pieces of work of
    [Parallelizer]: the atomic actions of [checkNode] on the counter, the list
    of feasible nodes, the diagnosis, the error channel and the context.
    Whatever their interleaving, the search finds as many nodes as there are,
    up to the number asked for. *)

From S2P Require Import Prelude FwkStatus Parallelizer.
#[local] Open Scope Z_scope.

(** What the goroutines share; [crashed] records an index out of range. *)
Record search {Nd : Type} : Type := mkSearch {
  feasibleNodesLen : Z;
  feasibleNodes : list (option Nd);
  NodeToStatusMap : gmap string Status;
  UnschedulablePlugins : gset string;
  errCh : option string;
  canceled : bool;
  crashed : bool;
}.
Arguments search : clear implicits.
Arguments mkSearch {Nd}.

(** Where a goroutine is in [checkNode]. *)
Inductive action :=
| CheckNode (i : nat)
| CountNode (i : nat)
| CancelSearch
| UncountNode
| PlaceNode (i : nat) (length : Z)
| SendError (e : string)
| CancelError
| NoteStatus (i : nat) (status : Status).

Section Search.
Context {Nd : Type}.
(** The node of a piece, its name, and what the filters say of it. *)
Context (node_at : nat → Nd) (name_at : nat → string) (status_at : nat → option Status).
Context (numNodesToFind : nat).
Implicit Types s : search Nd.

Definition set_len s (x : Z) : search Nd :=
  mkSearch x (feasibleNodes s) (NodeToStatusMap s) (UnschedulablePlugins s) (errCh s) (canceled s) (crashed s).
Definition cancel s : search Nd :=
  mkSearch (feasibleNodesLen s) (feasibleNodes s) (NodeToStatusMap s) (UnschedulablePlugins s) (errCh s) true (crashed s).
Definition place s (i : nat) (x : Nd) : search Nd :=
  mkSearch (feasibleNodesLen s) (<[i := Some x]> (feasibleNodes s)) (NodeToStatusMap s) (UnschedulablePlugins s) (errCh s)
    (canceled s) (crashed s).
Definition crash s : search Nd :=
  mkSearch (feasibleNodesLen s) (feasibleNodes s) (NodeToStatusMap s) (UnschedulablePlugins s) (errCh s) (canceled s) true.
Definition send s (e : string) : search Nd :=
  mkSearch (feasibleNodesLen s) (feasibleNodes s) (NodeToStatusMap s) (UnschedulablePlugins s)
    (match errCh s with None => Some e | Some e' => Some e' end) (canceled s) (crashed s).
Definition note s (name : string) (st : Status) : search Nd :=
  mkSearch (feasibleNodesLen s) (feasibleNodes s) (<[name := st]> (NodeToStatusMap s))
    ({[failedPlugin st]} ∪ UnschedulablePlugins s) (errCh s) (canceled s) (crashed s).

Definition checkNode (a : action) (s : search Nd) : search Nd * option action :=
  match a with
  | CheckNode i =>
      let status := status_at i in
      if bool_decide (status_Code status = Error) then (s, Some (SendError (default EmptyString (AsError status))))
      else if IsSuccess status then (s, Some (CountNode i))
      else match status with Some st => (s, Some (NoteStatus i st)) | None => (s, None) end
  | CountNode i =>
      let length := int32 (feasibleNodesLen s + 1) in
      let s := set_len s length in
      if Z.of_nat numNodesToFind <? length then (s, Some CancelSearch) else (s, Some (PlaceNode i length))
  | CancelSearch => (cancel s, Some UncountNode)
  | UncountNode => (set_len s (int32 (feasibleNodesLen s - 1)), None)
  | PlaceNode i length =>
      if bool_decide (0 ≤ length - 1 < Z.of_nat (List.length (feasibleNodes s)))
      then (place s (Z.to_nat (length - 1)) (node_at i), None) else (crash s, None)
  | SendError e => (send s e, Some CancelError)
  | CancelError => (cancel s, None)
  | NoteStatus i st => (note s (name_at i) st, None)
  end.

Definition action_rank (a : action) : nat :=
  match a with CheckNode _ => 3 | CountNode _ => 2 | CancelSearch | SendError _ => 1 | _ => 0 end.

Lemma checkNode_rank a s s' a' : checkNode a s = (s', Some a') → (action_rank a' < action_rank a)%nat.
Proof.
  destruct a as [i|i| | |i len|e| |i st]; simpl; try (by intros [= <- <-]; simpl; lia); try (repeat case_match; done).
  - case_bool_decide; [intros [= <- <-]; simpl; lia|]. destruct (IsSuccess (status_at i)); [intros [= <- <-]; simpl; lia|].
    destruct (status_at i); [|done]. intros [= <- <-]; simpl; lia.
  - destruct (_ <? _); intros [= <- <-]; simpl; lia.
Qed.

Lemma cancel_stays a s : canceled s = true → canceled (checkNode a s).1 = true.
Proof. destruct a; simpl; repeat case_match; done. Qed.

(** The shared variables before the first check. *)
Definition start_search (statuses : gmap string Status) (plugins : gset string) : search Nd :=
  mkSearch 0 (replicate numNodesToFind None) statuses plugins None false false.

(** ** The invariant *)

Context (pieces workers : nat) (statuses0 : gmap string Status) (plugins0 : gset string).
Context (width : Z.of_nat numNodesToFind + Z.of_nat workers + 1 < 2 ^ 31).
Context (names : ∀ i j, (i < pieces)%nat → (j < pieces)%nat → name_at i = name_at j → i = j).
Implicit Types (st : pool (search Nd) action) (taken : list nat).

Definition success (i : nat) : Prop := status_Code (status_at i) = Success.
Definition failure (i : nat) (st : Status) : Prop := status_at i = Some st ∧ code st ≠ Success ∧ code st ≠ Error.

(** The goroutines that have counted one node too many. *)
Definition too_many (a : action) : nat := match a with CancelSearch | UncountNode => 1 | _ => 0 end.

Definition action_ok s taken (a : action) (p : nat) : Prop :=
  match a with
  | CheckNode i => i = p
  | CountNode i => i = p ∧ success p ∧ p ∉ taken
  | CancelSearch => success p
  | UncountNode => success p ∧ canceled s = true
  | PlaceNode i len => i = p ∧ ∃ k, len = Z.of_nat k + 1 ∧ taken !! k = Some i
  | SendError e => status_Code (status_at p) = Error ∧ AsError (status_at p) = Some e
  | CancelError => is_Some (errCh s) ∧ status_Code (status_at p) = Error
  | NoteStatus i st => i = p ∧ failure p st
  end.

(** [taken] are the nodes that have a place in the list of feasible nodes, in
    the order of their places. *)
Record search_inv st taken : Prop := {
  se_len : feasibleNodesLen (shared st) = Z.of_nat (length taken) + Z.of_nat (tally too_many st);
  se_max : (length taken ≤ numNodesToFind)%nat;
  se_over : (0 < tally too_many st)%nat → length taken = numNodesToFind;
  se_nodup : NoDup taken;
  se_taken i : i ∈ taken → (i < pieces)%nat ∧ success i ∧ (i ∈ finished st ∨ ∃ len, at_work st (PlaceNode i len) i);
  se_size : length (feasibleNodes (shared st)) = numNodesToFind;
  se_place k x : feasibleNodes (shared st) !! k = Some (Some x) → ∃ i, taken !! k = Some i ∧ x = node_at i;
  se_filled k i : taken !! k = Some i →
    feasibleNodes (shared st) !! k = Some (Some (node_at i)) ∨ at_work st (PlaceNode i (Z.of_nat k + 1)) i;
  se_work a p : at_work st a p → action_ok (shared st) taken a p;
  se_success i : i ∈ finished st → success i → i ∈ taken ∨ canceled (shared st) = true ∧ length taken = numNodesToFind;
  se_error i : i ∈ finished st → status_Code (status_at i) = Error → is_Some (errCh (shared st)) ∧ canceled (shared st) = true;
  se_failure i f : i ∈ finished st → failure i f →
    NodeToStatusMap (shared st) !! name_at i = Some f ∧ failedPlugin f ∈ UnschedulablePlugins (shared st);
  se_status x f : NodeToStatusMap (shared st) !! x = Some f →
    statuses0 !! x = Some f ∨ ∃ i, (i < pieces)%nat ∧ i ∈ finished st ∧ name_at i = x ∧ failure i f;
  se_kept x : is_Some (statuses0 !! x) → is_Some (NodeToStatusMap (shared st) !! x);
  se_plugins x : x ∈ UnschedulablePlugins (shared st) ↔
    x ∈ plugins0 ∨ ∃ i f, i ∈ finished st ∧ failure i f ∧ failedPlugin f = x;
  se_sent e : errCh (shared st) = Some e → ∃ i, (i < pieces)%nat ∧ status_Code (status_at i) = Error ∧ AsError (status_at i) = Some e;
  se_cancel : canceled (shared st) = true → length taken = numNodesToFind ∨ is_Some (errCh (shared st));
  se_safe : crashed (shared st) = false;
}.

Lemma inv_nothing st st' taken :
  shared st' = shared st → finished st' = finished st → (∀ a p, at_work st' a p ↔ at_work st a p) →
  (∀ f, tally f st' = tally f st) → search_inv st taken → search_inv st' taken.
Proof.
  intros Hs Hf Hw Ht []. split; rewrite ?Hs, ?Hf, ?Ht; try done; setoid_rewrite Hw; done.
Qed.

Lemma inv_begin st st' taken p :
  shared st' = shared st → finished st' = finished st → (p < pieces)%nat →
  (∀ a q, at_work st' a q ↔ (q = p ∧ a = CheckNode p) ∨ (q ≠ p ∧ at_work st a q)) → (∀ a, ¬ at_work st a p) →
  (∀ f, tally f st' = (tally f st + f (CheckNode p))%nat) → search_inv st taken → search_inv st' taken.
Proof.
  intros Hs Hf Hp Hw Hnone Ht [].
  assert (∀ a q, at_work st a q → at_work st' a q) as Hmono.
  { intros a q Hat. apply Hw. right. split; [|done]. intros ->. by eapply Hnone. }
  split; rewrite ?Hs, ?Hf, ?Ht, ?Nat.add_0_r; try done.
  - intros i Hi. destruct (se_taken0 i Hi) as (? & ? & [?|[len ?]]); eauto 6.
  - intros k i Hk. destruct (se_filled0 k i Hk) as [?|?]; eauto.
  - intros a q [[-> ->]|[_ Hat]]%Hw; [done|by apply se_work0].
Qed.

(** *** The actions of a piece *)

Section Act.
Context (st st' : pool (search Nd) action) (taken : list nat) (a : action) (p : nat) (s' : search Nd) (o : option action).
Context (Hat : at_work st a p) (Huniq : ∀ b, at_work st b p → b = a).
Context (Hwork : checkNode a (shared st) = (s', o)) (Hshared : shared st' = s').
Context (Hfin : finished st' = finished st ++ match o with Some _ => [] | None => [p] end).
Context (Hw : ∀ b q, at_work st' b q ↔ (q = p ∧ o = Some b) ∨ (q ≠ p ∧ at_work st b q)).
Context (Hnf : p ∉ finished st) (Hp : (p < pieces)%nat) (Hbound : ∀ i, i ∈ finished st → (i < pieces)%nat).
Context (Htally : (tally too_many st' + too_many a)%nat = (tally too_many st + from_option too_many 0%nat o)%nat).
Context (Hfew : (tally too_many st ≤ workers)%nat).
Context (Hinv : search_inv st taken).

Lemma tally_pos (b : action) (q : nat) : at_work st b q → (too_many b ≤ tally too_many st)%nat.
Proof.
  intros (i & last & Hi). unfold tally. apply list_elem_of_lookup_2 in Hi.
  by apply (sum_list_with_in _ (λ g, match g with Working a _ _ => too_many a | _ => 0%nat end)) in Hi.
Qed.

Lemma fin_mono i : i ∈ finished st → i ∈ finished st'.
Proof. rewrite Hfin. intros. apply elem_of_app. by left. Qed.

Lemma fin_inv i : i ∈ finished st' → i ∈ finished st ∨ i = p ∧ o = None.
Proof.
  rewrite Hfin. intros [?|Hi]%elem_of_app; [by left|right]. destruct o; [by apply not_elem_of_nil in Hi|].
  by apply list_elem_of_singleton in Hi.
Qed.

(** A node that is being placed stays so, unless it is this one. *)
Lemma place_mono i len : (∀ i len, a ≠ PlaceNode i len) → at_work st (PlaceNode i len) i → at_work st' (PlaceNode i len) i.
Proof.
  intros Ha Hpl. apply Hw. right. split; [|done]. intros ->. apply Huniq in Hpl. by eapply Ha.
Qed.

Lemma taken_mono : (∀ i len, a ≠ PlaceNode i len) → ∀ i, i ∈ taken →
  (i < pieces)%nat ∧ success i ∧ (i ∈ finished st' ∨ ∃ len, at_work st' (PlaceNode i len) i).
Proof.
  intros Ha i Hi. destruct (se_taken _ _ Hinv i Hi) as (? & ? & [?|[len ?]]).
  - split_and!; [done..|]. left. by apply fin_mono.
  - split_and!; [done..|]. right. exists len. by apply place_mono.
Qed.

(** What the others are at stays right. *)
Lemma others_ok s'' taken'' :
  (∀ k i, taken !! k = Some i → taken'' !! k = Some i) → (∀ q, q ≠ p → q ∉ taken → q ∉ taken'') →
  (canceled (shared st) = true → canceled s'' = true) → (is_Some (errCh (shared st)) → is_Some (errCh s'')) →
  (∀ b, o = Some b → action_ok s'' taken'' b p) →
  ∀ b q, at_work st' b q → action_ok s'' taken'' b q.
Proof.
  intros Ht Hn Hc He Hb b q [[-> Ho]|[Hq Hold]]%Hw; [by apply Hb|]. pose proof (se_work _ _ Hinv b q Hold) as Hok.
  destruct b; simpl in *; try done; [naive_solver..|destruct Hok; split; auto].
Qed.

Lemma act_quiet b :
  s' = shared st → o = Some b → too_many a = 0%nat → too_many b = 0%nat → (∀ i len, a ≠ PlaceNode i len) →
  action_ok (shared st) taken b p → search_inv st' taken.
Proof.
  intros Hs Ho Ha Hb Hnp Hok.
  assert (tally too_many st' = tally too_many st) as Ht by (pose proof Htally as Htl; rewrite Ho in Htl; simpl in Htl; lia).
  assert (finished st' = finished st) as Hf by (rewrite Hfin, Ho; apply app_nil_r).
  pose proof (taken_mono Hnp) as Htk. pose proof (others_ok (shared st) taken) as Hoth. pose proof place_mono as Hpm.
  destruct Hinv. split; rewrite ?Hshared, ?Hs, ?Hf, ?Ht; try done.
  - by rewrite <- Hf.
  - intros k i Hk. destruct (se_filled0 k i Hk) as [?|?]; [by left|right]. by apply Hpm.
  - apply Hoth; try done. intros b' Hb'. rewrite Ho in Hb'. by injection Hb' as <-.
Qed.

Lemma act_check i : a = CheckNode i → search_inv st' taken.
Proof.
  intros Ha. pose proof (se_work _ _ Hinv a p Hat) as Hok. rewrite Ha in Hok. simpl in Hok. subst i.
  pose proof Hwork as Hwk. rewrite Ha in Hwk. simpl in Hwk.
  assert (∀ b, checkNode a (shared st) = (shared st, Some b) → too_many b = 0%nat → action_ok (shared st) taken b p →
    search_inv st' taken) as Hq.
  { intros b Hwb Hb Hok. rewrite Ha in Hwb. simpl in Hwb. rewrite Hwk in Hwb. injection Hwb as Hs Ho.
    apply (act_quiet b); try done; rewrite Ha; done. }
  rewrite Ha in Hq. simpl in Hq. unfold success, failure in *. destruct (decide (status_Code (status_at p) = Error)) as [He|He].
  - rewrite bool_decide_true in Hq by done. apply (Hq _ eq_refl eq_refl). split; [done|].
    unfold AsError, IsSuccess. rewrite bool_decide_false by congruence. destruct (status_at p) as [f|]; [|done].
    by destruct (err f).
  - rewrite bool_decide_false in Hq by done. unfold IsSuccess in Hq. case_bool_decide as Hs.
    + apply (Hq _ eq_refl eq_refl). split_and!; [done|done|]. intros Hin.
      destruct (se_taken _ _ Hinv p Hin) as (_ & _ & [?|[len Hpl]]); [done|]. apply Huniq in Hpl. congruence.
    + destruct (status_at p) as [f|] eqn:Hf; [|done]. apply (Hq _ eq_refl eq_refl). done.
Qed.

Lemma act_send e : a = SendError e → search_inv st' taken.
Proof.
  intros Ha. pose proof (se_work _ _ Hinv a p Hat) as Hok. rewrite Ha in Hok. destruct Hok as [He He'].
  pose proof Hwork as Hwk. rewrite Ha in Hwk. injection Hwk as Hs Ho.
  assert (tally too_many st' = tally too_many st) as Ht by (pose proof Htally as Htl; rewrite <- Ho, Ha in Htl; simpl in Htl; lia).
  assert (finished st' = finished st) as Hf by (rewrite Hfin, <- Ho; apply app_nil_r).
  assert (∀ i len, a ≠ PlaceNode i len) as Hnp by (by rewrite Ha).
  assert (is_Some (errCh s')) as Herr by (rewrite <- Hs; simpl; destruct (errCh (shared st)); by eexists).
  pose proof (taken_mono Hnp) as Htk. pose proof (others_ok s' taken) as Hoth. pose proof place_mono as Hpm.
  destruct Hinv. split; rewrite ?Hshared, ?Hf, ?Ht; try (by rewrite <- Hs); try done.
  - by rewrite <- Hf.
  - intros k i Hk. destruct (se_filled0 k i Hk) as [?|?]; [left; by rewrite <- Hs|right]. by apply Hpm.
  - apply Hoth; try done; [by rewrite <- Hs|]. intros b Hb. rewrite <- Ho in Hb. by injection Hb as <-.
  - intros i Hi Hie. split; [done|]. rewrite <- Hs. by apply (se_error0 i).
  - intros e'. rewrite <- Hs. simpl. destruct (errCh (shared st)) eqn:E; [intros [= <-]; by apply se_sent0|].
    intros [= <-]. by exists p.
  - intros _. by right.
Qed.

Lemma act_over : a = CancelSearch → search_inv st' taken.
Proof.
  intros Ha. pose proof (se_work _ _ Hinv a p Hat) as Hok. rewrite Ha in Hok. simpl in Hok.
  pose proof Hwork as Hwk. rewrite Ha in Hwk. injection Hwk as Hs Ho.
  assert (tally too_many st' = tally too_many st) as Ht by (pose proof Htally as Htl; rewrite <- Ho, Ha in Htl; simpl in Htl; lia).
  assert (finished st' = finished st) as Hf by (rewrite Hfin, <- Ho; apply app_nil_r).
  assert (∀ i len, a ≠ PlaceNode i len) as Hnp by (by rewrite Ha).
  assert (length taken = numNodesToFind) as Hfull.
  { apply (se_over _ _ Hinv). pose proof (tally_pos a p Hat) as Hpos. rewrite Ha in Hpos. simpl in Hpos. lia. }
  pose proof (taken_mono Hnp) as Htk. pose proof (others_ok s' taken) as Hoth. pose proof place_mono as Hpm.
  destruct Hinv. split; rewrite ?Hshared, ?Hf, ?Ht; try (by rewrite <- Hs); try done.
  - by rewrite <- Hf.
  - intros k i Hk. destruct (se_filled0 k i Hk) as [?|?]; [left; by rewrite <- Hs|right]. by apply Hpm.
  - apply Hoth; try done; try (by rewrite <- Hs). intros b Hb. rewrite <- Ho in Hb. injection Hb as <-.
    rewrite <- Hs. done.
  - intros i Hi Hsu. destruct (se_success0 i Hi Hsu) as [?|?]; [by left|right]. by rewrite <- Hs.
  - intros i Hi Hie. rewrite <- Hs. split; [|done]. by apply (se_error0 i).
  - intros _. by left.
Qed.

(** Counting a node too many, or taking the next place. *)
Lemma act_count_over i : a = CountNode i → Z.of_nat numNodesToFind < feasibleNodesLen (shared st) + 1 → search_inv st' taken.
Proof.
  intros Ha Hover. pose proof (se_work _ _ Hinv a p Hat) as Hok. rewrite Ha in Hok. destruct Hok as (-> & Hsu & Hnt).
  pose proof (se_len _ _ Hinv) as Hlen. pose proof (se_max _ _ Hinv) as Hmax. pose proof (se_over _ _ Hinv) as Hov.
  assert (int32 (feasibleNodesLen (shared st) + 1) = feasibleNodesLen (shared st) + 1) as H32 by (apply int32_id; lia).
  pose proof Hwork as Hwk. rewrite Ha in Hwk. simpl in Hwk. rewrite H32 in Hwk.
  destruct (Z.ltb_spec (Z.of_nat numNodesToFind) (feasibleNodesLen (shared st) + 1)) as [_|?]; [|lia]. injection Hwk as Hs Ho.
  assert (tally too_many st' = S (tally too_many st)) as Ht by (pose proof Htally as Htl; rewrite <- Ho, Ha in Htl; simpl in Htl; lia).
  assert (finished st' = finished st) as Hf by (rewrite Hfin, <- Ho; apply app_nil_r).
  assert (∀ i len, a ≠ PlaceNode i len) as Hnp by (by rewrite Ha).
  assert (length taken = numNodesToFind) as Hfull by (destruct (decide (0 < tally too_many st)%nat); [auto|lia]).
  pose proof (taken_mono Hnp) as Htk. pose proof (others_ok s' taken) as Hoth. pose proof place_mono as Hpm.
  destruct Hinv. split; rewrite ?Hshared, ?Hf, ?Ht; try (by rewrite <- Hs); try done.
  - rewrite <- Hs. simpl. lia.
  - by rewrite <- Hf.
  - intros k j Hk. destruct (se_filled0 k j Hk) as [?|?]; [left; by rewrite <- Hs|right]. by apply Hpm.
  - apply Hoth; try done; try (by rewrite <- Hs). intros b Hb. rewrite <- Ho in Hb. by injection Hb as <-.
Qed.

Lemma act_count_place i : a = CountNode i → feasibleNodesLen (shared st) + 1 ≤ Z.of_nat numNodesToFind →
  search_inv st' (taken ++ [p]).
Proof.
  intros Ha Hroom. pose proof (se_work _ _ Hinv a p Hat) as Hok. rewrite Ha in Hok. destruct Hok as (-> & Hsu & Hnt).
  pose proof (se_len _ _ Hinv) as Hlen. pose proof (se_max _ _ Hinv) as Hmax. pose proof (se_over _ _ Hinv) as Hov.
  assert (int32 (feasibleNodesLen (shared st) + 1) = feasibleNodesLen (shared st) + 1) as H32 by (apply int32_id; lia).
  assert (tally too_many st = 0%nat) as H0 by (destruct (decide (0 < tally too_many st)%nat); [specialize (Hov l); lia|lia]).
  pose proof Hwork as Hwk. rewrite Ha in Hwk. simpl in Hwk. rewrite H32 in Hwk.
  destruct (Z.ltb_spec (Z.of_nat numNodesToFind) (feasibleNodesLen (shared st) + 1)) as [?|_]; [lia|]. injection Hwk as Hs Ho.
  assert (tally too_many st' = 0%nat) as Ht by (pose proof Htally as Htl; rewrite <- Ho, Ha in Htl; simpl in Htl; lia).
  assert (finished st' = finished st) as Hf by (rewrite Hfin, <- Ho; apply app_nil_r).
  assert (∀ i len, a ≠ PlaceNode i len) as Hnp by (by rewrite Ha).
  assert (at_work st' (PlaceNode p (Z.of_nat (length taken) + 1)) p) as Hnew.
  { apply Hw. left. split; [done|]. rewrite <- Ho. do 2 f_equal. lia. }
  pose proof (taken_mono Hnp) as Htk. pose proof (others_ok s' (taken ++ [p])) as Hoth. pose proof place_mono as Hpm.
  destruct Hinv. split; rewrite ?Hshared, ?Hf, ?Ht; try (by rewrite <- Hs); try done; rewrite ?length_app; simpl.
  - rewrite <- Hs. simpl. lia.
  - lia.
  - lia.
  - apply NoDup_app. split_and!; [done|by intros x Hx ->%list_elem_of_singleton|apply NoDup_singleton].
  - intros j [Hj| ->%list_elem_of_singleton]%elem_of_app; [rewrite <- Hf; by apply Htk|]. split_and!; [done|done|eauto].
  - intros k x. rewrite <- Hs. intros (j & Hj & Hx)%se_place0. exists j. split; [by apply lookup_app_l_Some|done].
  - intros k j [Hk|[Hge Hk]]%lookup_app_Some.
    + destruct (se_filled0 k j Hk) as [?|?]; [left; by rewrite <- Hs|right]. by apply Hpm.
    + apply list_lookup_singleton_Some in Hk as [Hk <-]. right. replace k with (length taken) by lia. done.
  - apply Hoth; try (by rewrite <- Hs).
    + intros k j Hk. by apply lookup_app_l_Some.
    + intros q Hq Hqt [?|?%list_elem_of_singleton]%elem_of_app; done.
    + intros b Hb. rewrite <- Ho in Hb. injection Hb as <-. split; [done|]. exists (length taken). split; [lia|].
      rewrite lookup_app_r by lia. by rewrite Nat.sub_diag.
  - intros j Hj Hsj. destruct (se_success0 j Hj Hsj) as [?|[_ ?]]; [left; set_solver|lia].
  - rewrite <- Hs. intros [?|?]%se_cancel0; [lia|by right].
Qed.

(** The last action of a piece. *)
Lemma fin_last : o = None → p ∈ finished st'.
Proof. intros Ho. rewrite Hfin, Ho. apply elem_of_app. right. by apply list_elem_of_singleton. Qed.

Lemma act_uncount : a = UncountNode → search_inv st' taken.
Proof.
  intros Ha. pose proof (se_work _ _ Hinv a p Hat) as Hok. rewrite Ha in Hok. destruct Hok as [Hsu Hcan].
  pose proof (tally_pos a p Hat) as Hpos. rewrite Ha in Hpos. simpl in Hpos.
  pose proof (se_len _ _ Hinv) as Hlen. pose proof (se_max _ _ Hinv) as Hmax.
  assert (int32 (feasibleNodesLen (shared st) - 1) = feasibleNodesLen (shared st) - 1) as H32 by (apply int32_id; lia).
  pose proof Hwork as Hwk. rewrite Ha in Hwk. simpl in Hwk. rewrite H32 in Hwk. injection Hwk as Hs Ho.
  assert (S (tally too_many st') = tally too_many st) as Ht by (pose proof Htally as Htl; rewrite <- Ho, Ha in Htl; simpl in Htl; lia).
  assert (∀ i len, a ≠ PlaceNode i len) as Hnp by (by rewrite Ha).
  assert (length taken = numNodesToFind) as Hfull by (apply (se_over _ _ Hinv); lia).
  assert (∀ i f, i ∈ finished st' → failure i f → i ∈ finished st) as Hff.
  { intros i f [?|[-> _]]%fin_inv Hfi; [done|]. destruct Hfi as (Hst & Hns & _). unfold success in Hsu. by rewrite Hst in Hsu. }
  pose proof (taken_mono Hnp) as Htk. pose proof (others_ok s' taken) as Hoth. pose proof place_mono as Hpm.
  pose proof fin_mono as Hfm. pose proof fin_inv as Hfi.
  destruct Hinv. split; rewrite ?Hshared; try (by rewrite <- Hs); try done.
  - rewrite <- Hs. simpl. lia.
  - intros k j Hk. destruct (se_filled0 k j Hk) as [?|?]; [left; by rewrite <- Hs|right]. by apply Hpm.
  - apply Hoth; try done; try (by rewrite <- Hs). intros b Hb. by rewrite <- Ho in Hb.
  - intros j [Hj|[-> _]]%Hfi Hsj; rewrite <- Hs; [by apply se_success0|]. by right.
  - intros j [Hj|[-> _]]%Hfi Hje; rewrite <- Hs; [by apply (se_error0 j)|]. unfold success in Hsu. congruence.
  - intros j f Hj Hf. rewrite <- Hs. apply se_failure0; [by eapply Hff|done].
  - intros x f. rewrite <- Hs. intros [?|(i & ? & ? & ? & ?)]%se_status0; [by left|right; eauto 8].
  - intros x. rewrite <- Hs, (se_plugins0 x). split; (intros [?|(i & f & ? & ? & ?)]; [by left|right; exists i, f; eauto]).
Qed.

Lemma act_cancel_error : a = CancelError → search_inv st' taken.
Proof.
  intros Ha. pose proof (se_work _ _ Hinv a p Hat) as Hok. rewrite Ha in Hok. destruct Hok as [Herr Hie].
  pose proof Hwork as Hwk. rewrite Ha in Hwk. simpl in Hwk. injection Hwk as Hs Ho.
  assert (tally too_many st' = tally too_many st) as Ht by (pose proof Htally as Htl; rewrite <- Ho, Ha in Htl; simpl in Htl; lia).
  assert (∀ i len, a ≠ PlaceNode i len) as Hnp by (by rewrite Ha).
  assert (∀ i f, i ∈ finished st' → failure i f → i ∈ finished st) as Hff.
  { intros i f [?|[-> _]]%fin_inv Hfi; [done|]. destruct Hfi as (Hst & _ & Hne). by rewrite Hst in Hie. }
  pose proof (taken_mono Hnp) as Htk. pose proof (others_ok s' taken) as Hoth. pose proof place_mono as Hpm.
  pose proof fin_mono as Hfm. pose proof fin_inv as Hfi.
  destruct Hinv. split; rewrite ?Hshared, ?Ht; try (by rewrite <- Hs); try done.
  - intros k j Hk. destruct (se_filled0 k j Hk) as [?|?]; [left; by rewrite <- Hs|right]. by apply Hpm.
  - apply Hoth; try done; try (by rewrite <- Hs). intros b Hb. by rewrite <- Ho in Hb.
  - intros j [Hj|[-> _]]%Hfi Hsj; rewrite <- Hs; [|unfold success in Hsj; congruence].
    destruct (se_success0 j Hj Hsj) as [?|[_ ?]]; [by left|by right].
  - intros j f Hj Hf. rewrite <- Hs. apply se_failure0; [by eapply Hff|done].
  - intros x f. rewrite <- Hs. intros [?|(i & ? & ? & ? & ?)]%se_status0; [by left|right; eauto 8].
  - intros x. rewrite <- Hs, (se_plugins0 x). split; (intros [?|(i & f & ? & ? & ?)]; [by left|right; exists i, f; eauto]).
  - intros _. right. rewrite <- Hs. exact Herr.
Qed.

Lemma act_place i len : a = PlaceNode i len → search_inv st' taken.
Proof.
  intros Ha. pose proof (se_work _ _ Hinv a p Hat) as Hok. rewrite Ha in Hok. destruct Hok as (-> & k & -> & Hk).
  pose proof (lookup_lt_Some _ _ _ Hk) as Hlt. pose proof (se_max _ _ Hinv) as Hmax. pose proof (se_size _ _ Hinv) as Hsz.
  pose proof Hwork as Hwk. rewrite Ha in Hwk. simpl in Hwk. rewrite bool_decide_true in Hwk by lia.
  replace (Z.to_nat (Z.of_nat k + 1 - 1)) with k in Hwk by lia. injection Hwk as Hs Ho.
  assert (tally too_many st' = tally too_many st) as Ht by (pose proof Htally as Htl; rewrite <- Ho, Ha in Htl; simpl in Htl; lia).
  assert (∀ j n, j ≠ p → at_work st (PlaceNode j n) j → at_work st' (PlaceNode j n) j) as Hpm.
  { intros j n Hj Hold. apply Hw. by right. }
  assert (success p) as Hsu by (by apply (se_taken _ _ Hinv p); eapply list_elem_of_lookup_2).
  assert (∀ i f, i ∈ finished st' → failure i f → i ∈ finished st) as Hff.
  { intros i f [?|[-> _]]%fin_inv Hfi; [done|]. destruct Hfi as (Hst & Hns & _). unfold success in Hsu. by rewrite Hst in Hsu. }
  pose proof (others_ok s' taken) as Hoth. pose proof fin_mono as Hfm. pose proof fin_inv as Hfi. pose proof fin_last as Hlast.
  destruct Hinv. split; rewrite ?Hshared, ?Ht; try (by rewrite <- Hs); try done.
  - intros j Hj. destruct (se_taken0 j Hj) as (? & ? & Hwh). split_and!; [done..|].
    destruct (decide (j = p)) as [->|Hne]; [left; by apply Hlast|]. destruct Hwh as [?|[n ?]]; [left; auto|right; exists n; auto].
  - rewrite <- Hs. simpl. by rewrite length_insert.
  - intros k' x. rewrite <- Hs. simpl. intros [(<- & [= <-] & _)|[Hne Hx]]%list_lookup_insert_Some; [eauto|by apply se_place0].
  - intros k' j Hj. rewrite <- Hs. simpl. destruct (decide (k' = k)) as [->|Hne].
    + left. rewrite list_lookup_insert_eq by lia. congruence.
    + assert (j ≠ p) as Hjp by (intros ->; apply Hne; by eapply NoDup_lookup).
      rewrite list_lookup_insert_ne by done. destruct (se_filled0 k' j Hj) as [?|?]; [by left|right; auto].
  - apply Hoth; try done; try (by rewrite <- Hs). intros b Hb. by rewrite <- Ho in Hb.
  - intros j [Hj|[-> _]]%Hfi Hsj; rewrite <- Hs; [by apply se_success0|]. left. by eapply list_elem_of_lookup_2.
  - intros j [Hj|[-> _]]%Hfi Hje; rewrite <- Hs; [by apply (se_error0 j)|]. unfold success in Hsu. congruence.
  - intros j f Hj Hf. rewrite <- Hs. apply se_failure0; [by eapply Hff|done].
  - intros x f. rewrite <- Hs. intros [?|(i & ? & ? & ? & ?)]%se_status0; [by left|right; eauto 8].
  - intros x. rewrite <- Hs. simpl. rewrite (se_plugins0 x). split; (intros [?|(i & f & ? & ? & ?)]; [by left|right; exists i, f; eauto]).
Qed.

Lemma act_note i f : a = NoteStatus i f → search_inv st' taken.
Proof.
  intros Ha. pose proof (se_work _ _ Hinv a p Hat) as Hok. rewrite Ha in Hok. destruct Hok as (-> & Hfail).
  pose proof Hwork as Hwk. rewrite Ha in Hwk. simpl in Hwk. injection Hwk as Hs Ho.
  assert (tally too_many st' = tally too_many st) as Ht by (pose proof Htally as Htl; rewrite <- Ho, Ha in Htl; simpl in Htl; lia).
  assert (∀ i len, a ≠ PlaceNode i len) as Hnp by (by rewrite Ha).
  pose proof Hfail as (Hst & Hns & Hne).
  assert (∀ i, i ∈ finished st → name_at i ≠ name_at p) as Hnm.
  { intros i Hi He. apply names in He; [|auto..]. congruence. }
  pose proof (taken_mono Hnp) as Htk. pose proof (others_ok s' taken) as Hoth. pose proof place_mono as Hpm.
  pose proof fin_mono as Hfm. pose proof fin_inv as Hfi. pose proof fin_last as Hlast.
  destruct Hinv. split; rewrite ?Hshared, ?Ht; try (by rewrite <- Hs); try done.
  - intros k j Hk. destruct (se_filled0 k j Hk) as [?|?]; [left; by rewrite <- Hs|right]. by apply Hpm.
  - apply Hoth; try done; try (by rewrite <- Hs). intros b Hb. by rewrite <- Ho in Hb.
  - intros j [Hj|[-> _]]%Hfi Hsj; rewrite <- Hs; [by apply se_success0|]. unfold success in Hsj. by rewrite Hst in Hsj.
  - intros j [Hj|[-> _]]%Hfi Hje; rewrite <- Hs; [by apply (se_error0 j)|]. by rewrite Hst in Hje.
  - intros j f' Hj Hf'. rewrite <- Hs. simpl. apply Hfi in Hj as [Hj|[-> _]].
    + rewrite lookup_insert_ne by (apply not_eq_sym; auto). destruct (se_failure0 j f' Hj Hf'). set_solver.
    + destruct Hf' as (Hf' & _). assert (f' = f) as -> by congruence. rewrite lookup_insert_eq. set_solver.
  - intros x f'. rewrite <- Hs. simpl. intros [[<- <-]|[_ Hx]]%lookup_insert_Some.
    + right. exists p. split_and!; try done. by apply Hlast.
    + destruct (se_status0 x f' Hx) as [?|(i & ? & ? & ? & ?)]; [by left|right; eauto 8].
  - intros x Hx. rewrite <- Hs. simpl. destruct (decide (x = name_at p)) as [->|]; [rewrite lookup_insert_eq; eauto|].
    rewrite lookup_insert_ne by done. auto.
  - intros x. rewrite <- Hs. simpl. rewrite elem_of_union, elem_of_singleton, (se_plugins0 x). split.
    + intros [->|[?|(i & g & ? & ? & ?)]]; [right; exists p, f; auto|by left|right; exists i, g; auto].
    + intros [?|(i & g & [Hi|[-> _]]%Hfi & Hg & <-)]; [by right; left|right; right; eauto|left].
      destruct Hg as (Hg & _). congruence.
Qed.

Lemma act_any : ∃ taken', search_inv st' taken'.
Proof.
  assert (∃ b, a = b) as [b Ha] by eauto. destruct b as [i|i| | |i len|e| |i f].
  - exists taken. by apply (act_check i).
  - destruct (decide (feasibleNodesLen (shared st) + 1 ≤ Z.of_nat numNodesToFind)).
    + exists (taken ++ [p]). by apply (act_count_place i).
    + exists taken. apply (act_count_over i); [done|lia].
  - exists taken. by apply act_over.
  - exists taken. by apply act_uncount.
  - exists taken. by apply (act_place i len).
  - exists taken. by apply (act_send e).
  - exists taken. by apply act_cancel_error.
  - exists taken. by apply (act_note i f).
Qed.
End Act.

(** *** Every interleaving *)

Context (chunkSize : nat) (chunk_pos : (0 < chunkSize)%nat).
Local Abbreviation pool_inv := (pool_inv canceled chunkSize pieces).
Local Abbreviation steps := (pool_step canceled CheckNode checkNode chunkSize pieces).

Lemma tally_few st : (tally too_many st ≤ length (goroutines st))%nat.
Proof.
  unfold tally. induction (goroutines st) as [|g l IH]; simpl; [done|].
  destruct g as [| |[]|]; simpl; lia.
Qed.

Lemma search_step i st st' taken :
  pool_inv st → (length (goroutines st) ≤ workers)%nat → search_inv st taken → steps st i st' →
  ∃ taken', search_inv st' taken'.
Proof.
  intros Hpool Hlen Hs Hst. assert (∀ j, j ∈ finished st → (j < pieces)%nat) as Hfin.
  { by apply (finished_ok _ _ _ chunk_pos st Hpool). }
  pose proof (tally_few st).
  destruct (advance_move _ _ _ _ _ chunk_pos cancel_stays i st st' Hpool Hst)
    as [H1 H2 H3 H4|p H1 H2 H3 H4 H5 H6 H7 H8|a p s o H1 H2 H3 H4 H5 H6 H7 H8].
  - exists taken. by eapply inv_nothing.
  - exists taken. by eapply (inv_begin st st' taken p).
  - eapply (act_any st st' taken a p s o); try done; [|lia].
    intros b (j & last & Hj). destruct H1 as (j' & last' & Hj').
    assert (j = j') as -> by (by eapply working_once). congruence.
Qed.

Lemma start_search_inv : search_inv (ParallelizeUntil chunkSize pieces workers (start_search statuses0 plugins0)) [].
Proof.
  set (st := ParallelizeUntil _ _ _ _).
  assert (shared st = start_search statuses0 plugins0 ∧ finished st = [] ∧ ∀ j g, goroutines st !! j = Some g → g = Fetch)
    as (Hs & Hf & Hg).
  { unfold st, ParallelizeUntil. destruct (pieces =? 0)%nat; [done|]. split_and!; [done|done|].
    intros j g Hj. simpl in Hj. by apply lookup_replicate in Hj as [-> _]. }
  assert (∀ a p, ¬ at_work st a p) as Hn by (intros a p (j & last & Hj); by apply Hg in Hj).
  assert (tally too_many st = 0%nat) as Ht.
  { unfold tally. clear Hn Hs Hf. induction (goroutines st) as [|g l IH]; [done|]. simpl.
    rewrite (Hg 0%nat g eq_refl). apply IH. intros j g' Hj. by apply (Hg (S j)). }
  split; rewrite ?Hs, ?Hf, ?Ht; simpl; try done; try lia; try (by intros ? ?%not_elem_of_nil); try (by intros ? ? ?%not_elem_of_nil).
  - constructor.
  - apply length_replicate.
  - intros k x Hk. by apply lookup_replicate in Hk as [? _].
  - intros a p Hat. by destruct (Hn a p).
  - intros x f Hx. by left.
  - intros x. split; [by left|]. by intros [?|(? & ? & ?%not_elem_of_nil & _)].
Qed.

Lemma search_trace order st :
  (0 < workers)%nat →
  trace steps (ParallelizeUntil chunkSize pieces workers (start_search statuses0 plugins0)) order st →
  pool_inv st ∧ ∃ taken, search_inv st taken.
Proof.
  intros Hw Ht. enough (pool_inv st ∧ (length (goroutines st) ≤ workers)%nat ∧ ∃ taken, search_inv st taken) by naive_solver.
  eapply (trace_invariant _ (λ st, pool_inv st ∧ (length (goroutines st) ≤ workers)%nat ∧ ∃ taken, search_inv st taken));
    [|exact Ht|].
  - intros st1 i st2 (H1 & H2 & taken & H3) Hst. split; [eapply advance_inv; first [exact Hst|exact chunk_pos|exact cancel_stays|done]|].
    rewrite (advance_length _ _ _ _ _ i st1 st2 Hst). split; [done|]. by eapply search_step.
  - split; [by apply start_inv|]. split; [|exists []; apply start_search_inv].
    unfold ParallelizeUntil. destruct (pieces =? 0)%nat; simpl; [lia|]. rewrite length_replicate.
    destruct (Nat.ltb_spec (ceilDiv pieces chunkSize) workers); lia.
Qed.

#[export] Instance success_dec i : Decision (success i).
Proof. unfold success. apply _. Defined.

(** What is in the shared variables when all goroutines have returned. *)
Record found s (taken : list nat) : Prop := {
  fo_nodup : NoDup taken;
  fo_pass i : i ∈ taken → (i < pieces)%nat ∧ success i;
  fo_len : feasibleNodesLen s = Z.of_nat (length taken);
  fo_nodes : take (length taken) (feasibleNodes s) = (λ i, Some (node_at i)) <$> taken;
  fo_count : errCh s = None → length taken = Nat.min numNodesToFind (length (filter success (seq 0 pieces)));
  fo_all : errCh s = None → (length taken < numNodesToFind)%nat →
    (∀ i, (i < pieces)%nat → success i ∧ i ∈ taken ∨ ∃ f, failure i f ∧ NodeToStatusMap s !! name_at i = Some f);
  fo_status x f : NodeToStatusMap s !! x = Some f →
    statuses0 !! x = Some f ∨ ∃ i, (i < pieces)%nat ∧ name_at i = x ∧ failure i f;
  fo_kept x : is_Some (statuses0 !! x) → is_Some (NodeToStatusMap s !! x);
  fo_error e : errCh s = Some e → ∃ i, (i < pieces)%nat ∧ status_Code (status_at i) = Error ∧ AsError (status_at i) = Some e;
}.

Lemma returned_idle st : all_returned st → (∀ a p, ¬ at_work st a p) ∧ tally too_many st = 0%nat.
Proof.
  unfold all_returned, at_work, tally. intros Hr. split.
  - intros a p (i & last & Hi). by apply (Forall_lookup_1 _ _ _ _ Hr) in Hi.
  - induction Hr as [|g l -> _ IH]; done.
Qed.

Lemma status_cases i : success i ∨ status_Code (status_at i) = Error ∨ ∃ f, failure i f.
Proof.
  unfold success, failure. destruct (status_at i) as [f|]; simpl; [|by left].
  destruct (decide (code f = Success)); [by left|]. destruct (decide (code f = Error)); [by right; left|]. right. right. eauto.
Qed.

Lemma taken_count st taken :
  search_inv st taken → all_returned st → (canceled (shared st) = true ∨ finished st ≡ₚ seq 0 pieces) →
  errCh (shared st) = None → length taken = Nat.min numNodesToFind (length (filter success (seq 0 pieces))).
Proof.
  intros Hs Hr Hdone He. pose proof (se_max _ _ Hs) as Hmax. destruct (returned_idle st Hr) as [Hidle _].
  assert (length taken ≤ length (filter success (seq 0 pieces)))%nat as Hle.
  { apply submseteq_length, NoDup_submseteq; [apply Hs|]. intros i Hi. destruct (se_taken _ _ Hs i Hi) as (? & ? & _).
    apply list_elem_of_filter. split; [done|]. apply elem_of_seq. lia. }
  destruct (decide (length taken = numNodesToFind)) as [|Hlt]; [lia|].
  destruct Hdone as [Hc|Hall]; [destruct (se_cancel _ _ Hs Hc) as [?|[e ?]]; [done|congruence]|].
  assert (length (filter success (seq 0 pieces)) ≤ length taken)%nat; [|lia].
  apply submseteq_length, NoDup_submseteq; [apply NoDup_filter, NoDup_seq|].
  intros i [Hsu Hi]%list_elem_of_filter. rewrite <- Hall in Hi. destruct (se_success _ _ Hs i Hi Hsu) as [?|[_ ?]]; done.
Qed.

Lemma search_found st taken :
  search_inv st taken → all_returned st → (canceled (shared st) = true ∨ finished st ≡ₚ seq 0 pieces) →
  found (shared st) taken.
Proof.
  intros Hs Hr Hdone. pose proof (taken_count st taken Hs Hr Hdone) as Hcount. destruct (returned_idle st Hr) as [Hidle Ht].
  assert (∀ k i, taken !! k = Some i → feasibleNodes (shared st) !! k = Some (Some (node_at i))) as Hfilled.
  { intros k i Hk. destruct (se_filled _ _ Hs k i Hk) as [?|Hat]; [done|]. by apply Hidle in Hat. }
  destruct Hs. split; try done.
  - intros i Hi. by destruct (se_taken0 i Hi) as (? & ? & _).
  - rewrite se_len0, Ht. lia.
  - apply list_eq. intros k. rewrite list_lookup_fmap. destruct (taken !! k) as [i|] eqn:Hk; simpl.
    + rewrite lookup_take_lt by (by eapply lookup_lt_Some). by apply Hfilled.
    + apply lookup_ge_None in Hk. by rewrite lookup_take_ge.
  - intros He Hlt i Hi.
    assert (i ∈ finished st) as Hf.
    { destruct Hdone as [[?|[e ?]]%se_cancel0|Hall]; [lia|congruence|]. rewrite Hall. apply elem_of_seq. lia. }
    destruct (status_cases i) as [Hsu|[Herr|[f Hfail]]].
    + left. destruct (se_success0 i Hf Hsu) as [?|[_ ?]]; [done|lia].
    + destruct (se_error0 i Hf Herr) as [[e ?] _]. congruence.
    + right. exists f. split; [done|]. by apply se_failure0.
  - intros x f [?|(i & ? & _ & ? & ?)]%se_status0; [by left|right; eauto].
Qed.
End Search.

(** C14. The parallel search for feasible nodes is exact: however the goroutines
    that check nodes interleave, the search ends, no access is out of range, and
    at the end the list holds different nodes that pass the filters, without
    gaps; if no filter failed with an error they are as many as there are such
    nodes, up to the number asked for, and when they are fewer, every other node
    has its status in the diagnosis.  An error that is reported is that of a node. *)
Theorem search_finds {Nd : Type} (node_at : nat → Nd) (name_at : nat → string) (status_at : nat → option Status)
    (numNodesToFind pieces parallelism : nat) (statuses : gmap string Status) (plugins : gset string) order st :
  (0 < parallelism)%nat → Z.of_nat numNodesToFind + Z.of_nat parallelism + 1 < 2 ^ 31 →
  (∀ i j, (i < pieces)%nat → (j < pieces)%nat → name_at i = name_at j → i = j) →
  let size := effective_chunk (chunkSizeFor pieces parallelism) in
  let start := ParallelizeUntil size pieces parallelism (start_search numNodesToFind statuses plugins) in
  let step := pool_step canceled CheckNode (checkNode node_at name_at status_at numNodesToFind) size pieces in
  trace step start order st →
  (length order ≤ total_weight size pieces action_rank 3 start)%nat ∧
  (all_returned st ∨ ∃ i st', step st i st') ∧
  crashed (shared st) = false ∧
  (all_returned st →
     ∃ taken, found node_at name_at status_at numNodesToFind pieces statuses (shared st) taken).
Proof.
  intros Hpar Hwidth Hnames size start step Ht.
  assert (0 < size)%nat as Hsize by (unfold size, effective_chunk; destruct (Nat.ltb_spec (chunkSizeFor pieces parallelism) 1); lia).
  destruct (search_trace node_at name_at status_at numNodesToFind pieces parallelism statuses plugins Hwidth Hnames size
    Hsize order st Hpar Ht) as [Hpool [taken Hs]].
  split; [|split; [|split]].
  - pose proof (steps_bounded canceled CheckNode (checkNode node_at name_at status_at numNodesToFind) size pieces Hsize
      action_rank 3 ltac:(done) (checkNode_rank _ _ _ _) _ _ _ Ht). lia.
  - destruct (decide (all_returned st)) as [Hr|Hr]; [by left|right]. by apply can_advance.
  - apply (se_safe _ _ _ _ _ _ _ _ _ Hs).
  - intros Hr. exists taken. apply (search_found _ _ _ _ _ parallelism _ plugins size Hsize st taken Hs Hr).
    by apply (returned_done _ _ _ Hsize).
Qed.

(** ** A witness *)

(** Three nodes, of which the second does not fit; two are wanted. *)
Definition sample_status (i : nat) : option Status :=
  if (i =? 1)%nat then Some (NewStatus Unschedulable ["Too many pods"%string]) else None.
Definition sample_name (i : nat) : string := match i with 0%nat => "a" | 1%nat => "b" | _ => "c" end.

Local Abbreviation sample_start :=
  (ParallelizeUntil (effective_chunk (chunkSizeFor 3 2)) 3 2 (start_search (Nd := nat) 2 ∅ ∅)).
Local Abbreviation sample_advance :=
  (advance canceled CheckNode (checkNode id sample_name sample_status 2) (effective_chunk (chunkSizeFor 3 2)) 3).
Definition search_order : list nat := [0; 1; 0; 1; 0; 1; 0; 1; 0; 1; 0; 1; 0; 1; 1; 1; 1; 1; 1]%nat.
Definition search_pool : pool (search nat) action :=
  default sample_start (foldl (λ o i, o ≫= sample_advance i) (Some sample_start) search_order).

Lemma search_finds_witness :
  all_returned search_pool ∧ ∃ taken, found id sample_name sample_status 2 3 ∅ (shared search_pool) taken.
Proof.
  assert (all_returned search_pool) as Hr by (vm_compute; repeat constructor). split; [exact Hr|].
  destruct (search_finds id sample_name sample_status 2 3 2 ∅ ∅ search_order search_pool) as (_ & _ & _ & H).
  - lia.
  - lia.
  - intros i j Hi Hj. destruct i as [|[|[|i]]], j as [|[|[|j]]]; try done; lia.
  - apply run_pool_trace. vm_compute. reflexivity.
  - by apply H.
Defined.
