(* ===== verification/NodeTree.v ===== *)
(** * The node tree: [pkg/scheduler/internal/cache/node_tree.go]

    The names of the nodes grouped by zone, and the order in which the
    scheduler visits them: round robin over the zones.  [GetZoneKey] is
    [component-helpers/node/topology/helpers.go].  A count of list elements
    cannot overflow, so [numNodes] is an unbounded integer. *)

From S2P Require Import Prelude Strconv Quantity Labels ApiTypes.
#[local] Open Scope Z_scope.

Definition LabelTopologyZone : string := "topology.kubernetes.io/zone".
Definition LabelTopologyRegion : string := "topology.kubernetes.io/region".
Definition LabelFailureDomainBetaZone : string := "failure-domain.beta.kubernetes.io/zone".
Definition LabelFailureDomainBetaRegion : string := "failure-domain.beta.kubernetes.io/region".

(** The region and the zone around a colon, a zero byte and a colon. *)
Definition zone_separator : string := String ":" (String "000" (String ":" EmptyString)).

Definition GetZoneKey (nd : Node) : string :=
  let labels := node_Labels nd in
  let zone :=
    match labels !! LabelFailureDomainBetaZone with
    | Some z => z | None => default "" (labels !! LabelTopologyZone) end in
  let region :=
    match labels !! LabelFailureDomainBetaRegion with
    | Some r => r | None => default "" (labels !! LabelTopologyRegion) end in
  if (region =? "")%string && (zone =? "")%string then ""
  else (region ++ zone_separator ++ zone)%string.

Record nodeTree := mkTree {
  tree : gmap string (list string);
  zones : list string;
  numNodes : Z;
}.

Definition addNode (nt : nodeTree) (n : Node) : nodeTree :=
  let zone := GetZoneKey n in
  match tree nt !! zone with
  | Some na =>
      if existsb (λ nodeName, (nodeName =? node_Name n)%string) na then nt
      else mkTree (<[zone := na ++ [node_Name n]]> (tree nt)) (zones nt) (numNodes nt + 1)
  | None =>
      mkTree (<[zone := [node_Name n]]> (tree nt)) (zones nt ++ [zone]) (numNodes nt + 1)
  end.

Definition newNodeTree (nodes : list Node) : nodeTree := foldl addNode (mkTree ∅ [] 0) nodes.

(** Removing the first occurrence of a string from a slice. *)
Fixpoint remove_first (x : string) (l : list string) : list string :=
  match l with
  | [] => []
  | y :: l => if (y =? x)%string then l else y :: remove_first x l
  end.

Definition removeZone (nt : nodeTree) (zone : string) : nodeTree :=
  mkTree (delete zone (tree nt)) (remove_first zone (zones nt)) (numNodes nt).

(** [false] for the error. *)
Definition removeNode (nt : nodeTree) (n : Node) : nodeTree * bool :=
  let zone := GetZoneKey n in
  match tree nt !! zone with
  | Some na =>
      if existsb (λ nodeName, (nodeName =? node_Name n)%string) na then
        let na' := remove_first (node_Name n) na in
        let nt := mkTree (<[zone := na']> (tree nt)) (zones nt) (numNodes nt) in
        let nt := if (length na' =? 0)%nat then removeZone nt zone else nt in
        (mkTree (tree nt) (zones nt) (numNodes nt - 1), true)
      else (nt, false)
  | None => (nt, false)
  end.

(** Removing a nil node reads its labels. *)
Definition updateNode (nt : nodeTree) (old : option Node) (new : Node) : outcome nodeTree :=
  let oldZone := match old with Some old => GetZoneKey old | None => "" end in
  let newZone := GetZoneKey new in
  if (oldZone =? newZone)%string then Ret nt
  else
    match old with
    | Some old => Ret (addNode (removeNode nt old).1 new)
    | None => Panic
    end.

(** ** [list] *)

Definition zone_nodes (nt : nodeTree) (zone : string) : list string := default [] (tree nt !! zone).

(** The loop over the zones at one [nodeIndex]. *)
Fixpoint list_zones (nt : nodeTree) (zs : list string) (nodeIndex : nat)
    (nodesList : list string) (numExhaustedZones : nat) : list string * nat :=
  match zs with
  | [] => (nodesList, numExhaustedZones)
  | z :: zs =>
      match zone_nodes nt z !! nodeIndex with
      | None =>
          list_zones nt zs nodeIndex nodesList
            (if (nodeIndex =? length (zone_nodes nt z))%nat then S numExhaustedZones
             else numExhaustedZones)
      | Some name => list_zones nt zs nodeIndex (nodesList ++ [name]) numExhaustedZones
      end
  end.

(** [None] when the fuel runs out; the flag is [false] for the error. *)
Fixpoint list_loop (fuel : nat) (nt : nodeTree) (nodesList : list string)
    (numExhaustedZones nodeIndex : nat) : option (list string * bool) :=
  match fuel with
  | O => None
  | S fuel =>
      if Z.of_nat (length nodesList) <? numNodes nt then
        if (length (zones nt) <=? numExhaustedZones)%nat then Some (nodesList, false)
        else
          let '(nodesList, numExhaustedZones) :=
            list_zones nt (zones nt) nodeIndex nodesList numExhaustedZones in
          list_loop fuel nt nodesList numExhaustedZones (S nodeIndex)
      else Some (nodesList, true)
  end.

(** The longest zone. *)
Definition max_len (nt : nodeTree) : nat :=
  foldr (λ z m, Nat.max (length (zone_nodes nt z)) m) 0%nat (zones nt).

Definition nt_list (nt : nodeTree) : option (list string * bool) :=
  if (length (zones nt) =? 0)%nat then Some ([], true)
  else list_loop (max_len nt + 3) nt [] 0 0.

(** ** The invariant *)

(** The names of the nodes, zone by zone. *)
Definition nt_names (nt : nodeTree) : list string := zones nt ≫= zone_nodes nt.

Definition nt_has (nt : nodeTree) (zone name : string) : Prop := name ∈ zone_nodes nt zone.

(** The zones are the keys of the map, once each; no zone is empty or holds a
    name twice; [numNodes] counts the names. *)
Record nt_wf (nt : nodeTree) : Prop := {
  wf_zones_nodup : NoDup (zones nt);
  wf_zones z : z ∈ zones nt ↔ is_Some (tree nt !! z);
  wf_zone z l : tree nt !! z = Some l → l ≠ [] ∧ NoDup l;
  wf_numNodes : numNodes nt = Z.of_nat (length (nt_names nt));
}.

Lemma existsb_name l x : existsb (λ y, (y =? x)%string) l = true ↔ x ∈ l.
Proof.
  rewrite existsb_exists. setoid_rewrite String.eqb_eq. setoid_rewrite <- list_elem_of_In. naive_solver.
Qed.

Lemma remove_first_perm x l : x ∈ l → l ≡ₚ x :: remove_first x l.
Proof.
  induction l as [|y l IH]; simpl; [by intros ?%not_elem_of_nil|].
  destruct (String.eqb_spec y x) as [->|Hne]; [done|].
  intros [?|Hin]%elem_of_cons; [done|]. rewrite (IH Hin) at 1. apply Permutation_swap.
Qed.

Lemma remove_first_notin x l : x ∉ l → remove_first x l = l.
Proof.
  induction l as [|y l IH]; simpl; [done|]. intros [Hne Hn]%not_elem_of_cons.
  destruct (String.eqb_spec y x) as [->|]; [done|]. by rewrite IH.
Qed.

(** The names when one zone changes. *)
Lemma bind_change (f g : string → list string) l z :
  NoDup l → z ∈ l → (∀ x, x ≠ z → f x = g x) →
  ∃ r, l ≫= f ≡ₚ f z ++ r ∧ l ≫= g ≡ₚ g z ++ r.
Proof.
  intros Hnd (l1 & l2 & ->)%list_elem_of_split Hfg.
  apply NoDup_app in Hnd as (H1 & H2 & [Hz H3]%NoDup_cons).
  assert (∀ k, z ∉ k → k ≫= f = k ≫= g) as Heq.
  { intros k. induction k as [|x k IH]; [done|]. intros [? ?]%not_elem_of_cons.
    by rewrite !bind_cons, Hfg, IH by done. }
  exists ((l1 ≫= g) ++ (l2 ≫= g)). rewrite !bind_app, !bind_cons.
  rewrite (Heq l1), (Heq l2) by set_solver. split; solve_Permutation.
Qed.

Lemma empty_tree_wf : nt_wf (mkTree ∅ [] 0).
Proof.
  split; simpl; [constructor| |done|done]. intros z. rewrite lookup_empty, is_Some_alt. set_solver.
Qed.

Lemma nt_names_has nt x : nt_wf nt → x ∈ nt_names nt ↔ ∃ z, nt_has nt z x.
Proof.
  intros Hwf. unfold nt_names, nt_has. rewrite list_elem_of_bind. split.
  - intros (z & Hx & _). eauto.
  - intros (z & Hx). exists z. split; [done|]. apply (wf_zones _ Hwf).
    unfold zone_nodes in Hx. destruct (tree nt !! z); [done|]. by apply not_elem_of_nil in Hx.
Qed.

Lemma zone_nodes_insert t zs k z l x :
  zone_nodes (mkTree (<[z := l]> t) zs k) x = if decide (x = z) then l else default [] (t !! x).
Proof.
  unfold zone_nodes. simpl. case_decide as Hx; [subst; by rewrite lookup_insert_eq|].
  by rewrite lookup_insert_ne.
Qed.

Lemma bind_ext_notin (f g : string → list string) l z :
  z ∉ l → (∀ x, x ≠ z → f x = g x) → l ≫= f = l ≫= g.
Proof.
  intros Hz Hfg. induction l as [|x l IH]; [done|]. apply not_elem_of_cons in Hz as [Hx Hz].
  by rewrite !bind_cons, IH, Hfg by done.
Qed.

(** The names when a zone gets another list, is new, or is deleted. *)
Lemma names_update t zs k k' z l :
  NoDup zs → z ∈ zs →
  ∃ r, nt_names (mkTree t zs k) ≡ₚ default [] (t !! z) ++ r ∧
       nt_names (mkTree (<[z := l]> t) zs k') ≡ₚ l ++ r.
Proof.
  intros Hnd Hz.
  destruct (bind_change (zone_nodes (mkTree t zs k)) (zone_nodes (mkTree (<[z := l]> t) zs k')) zs z Hnd Hz)
    as (r & Hr1 & Hr2).
  - intros x Hx. by rewrite zone_nodes_insert, decide_False.
  - exists r. split; [done|]. rewrite zone_nodes_insert, decide_True in Hr2 by done. done.
Qed.

Lemma names_snoc t zs k k' z l :
  z ∉ zs → nt_names (mkTree (<[z := l]> t) (zs ++ [z]) k') ≡ₚ l ++ nt_names (mkTree t zs k).
Proof.
  intros Hz. unfold nt_names. simpl.
  rewrite bind_app, bind_singleton, zone_nodes_insert, decide_True by done.
  rewrite (bind_ext_notin _ (zone_nodes (mkTree t zs k)) _ z Hz); [apply Permutation_app_comm|].
  intros x Hx. by rewrite zone_nodes_insert, decide_False.
Qed.

Lemma bind_remove_first (f : string → list string) l z :
  z ∈ l → l ≫= f ≡ₚ f z ++ (remove_first z l ≫= f).
Proof.
  induction l as [|y l IH]; [by intros ?%not_elem_of_nil|]. simpl remove_first.
  destruct (String.eqb_spec y z) as [->|Hne]; [done|].
  intros [?|Hin]%elem_of_cons; [done|]. rewrite !bind_cons, (IH Hin).
  rewrite !app_assoc. by rewrite (Permutation_app_comm (f y)).
Qed.

Lemma names_delete t zs k k' z :
  NoDup zs → z ∈ zs →
  nt_names (mkTree t zs k) ≡ₚ default [] (t !! z) ++ nt_names (mkTree (delete z t) (remove_first z zs) k').
Proof.
  intros Hnd Hz. unfold nt_names. simpl. etransitivity; [apply (bind_remove_first _ zs z Hz)|].
  apply Permutation_app_head.
  rewrite (bind_ext_notin _ (zone_nodes (mkTree (delete z t) (remove_first z zs) k')) _ z); [done| |].
  - rewrite (remove_first_perm z zs Hz) in Hnd. by apply NoDup_cons in Hnd as [? _].
  - intros x Hx. unfold zone_nodes. simpl. by rewrite lookup_delete_ne.
Qed.

(** Giving an existing zone another list. *)
Lemma update_zone_wf nt z l :
  nt_wf nt → is_Some (tree nt !! z) → l ≠ [] → NoDup l →
  let nt' := mkTree (<[z := l]> (tree nt)) (zones nt)
               (numNodes nt - Z.of_nat (length (zone_nodes nt z)) + Z.of_nat (length l)) in
  nt_wf nt' ∧ ∃ r, nt_names nt ≡ₚ zone_nodes nt z ++ r ∧ nt_names nt' ≡ₚ l ++ r.
Proof.
  intros [H1 H2 H3 H4] Hz Hl Hnd nt'.
  destruct (names_update (tree nt) (zones nt) (numNodes nt) (numNodes nt') z l H1) as (r & Hr1 & Hr2);
    [by apply H2|].
  assert (mkTree (tree nt) (zones nt) (numNodes nt) = nt) as Hnt by (by destruct nt).
  rewrite Hnt in Hr1. split; [|by exists r]. split; simpl; [done| | |].
  - intros x. rewrite H2, lookup_insert_is_Some'. naive_solver.
  - intros x l' [[<- <-]|[_ Hl']]%lookup_insert_Some; [done|by apply (H3 x)].
  - apply Permutation_length in Hr1, Hr2. rewrite length_app in Hr1, Hr2.
    change (mkTree _ _ (numNodes nt')) with nt' in Hr2. rewrite Hr2, H4, Hr1. unfold zone_nodes. lia.
Qed.

(** [addNode] adds the name to its zone unless it is there. *)
Lemma addNode_spec nt n :
  nt_wf nt →
  nt_wf (addNode nt n) ∧
  (∀ z x, nt_has (addNode nt n) z x ↔ nt_has nt z x ∨ (z = GetZoneKey n ∧ x = node_Name n)) ∧
  (nt_has nt (GetZoneKey n) (node_Name n) → addNode nt n = nt) ∧
  (¬ nt_has nt (GetZoneKey n) (node_Name n) → nt_names (addNode nt n) ≡ₚ node_Name n :: nt_names nt).
Proof.
  intros Hwf. pose proof Hwf as [H1 H2 H3 H4]. unfold addNode, nt_has.
  set (z0 := GetZoneKey n). set (x0 := node_Name n).
  destruct (tree nt !! z0) as [na|] eqn:Hz.
  - assert (zone_nodes nt z0 = na) as Hzn by (unfold zone_nodes; by rewrite Hz).
    destruct (existsb _ na) eqn:He.
    { apply existsb_name in He. split_and!; [done|set_solver|done|]. by rewrite Hzn. }
    assert (x0 ∉ na) as Hni by (rewrite <- existsb_name, He; done).
    destruct (update_zone_wf nt z0 (na ++ [x0]) Hwf) as [Hwf' (r & Hr1 & Hr2)];
      [by rewrite Hz|by destruct na|apply NoDup_app; split_and!; [by apply (H3 z0)|set_solver|apply NoDup_singleton]|].
    rewrite Hzn, length_app in *. simpl in *.
    replace (numNodes nt - Z.of_nat (length na) + Z.of_nat (length na + 1)) with (numNodes nt + 1) in * by lia.
    split_and!; [done| |done|].
    + intros z x. rewrite zone_nodes_insert. case_decide; [subst z; rewrite Hzn; set_solver|].
      unfold zone_nodes. naive_solver.
    + intros _. rewrite Hr2, Hr1, <- app_assoc. symmetry. apply Permutation_middle.
  - assert (zone_nodes nt z0 = []) as Hzn by (unfold zone_nodes; by rewrite Hz).
    assert (z0 ∉ zones nt) as Hzni by (rewrite H2, Hz; by intros [? ?]).
    pose proof (names_snoc (tree nt) (zones nt) (numNodes nt) (numNodes nt + 1) z0 [x0] Hzni) as Hnames.
    replace (mkTree (tree nt) (zones nt) (numNodes nt)) with nt in Hnames by (by destruct nt).
    split_and!; [split; simpl| | |]; try done.
    + apply NoDup_app. split_and!; [done|set_solver|apply NoDup_singleton].
    + intros z. rewrite elem_of_app, H2, lookup_insert_is_Some', list_elem_of_singleton. naive_solver.
    + intros z l [[<- <-]|[_ Hl]]%lookup_insert_Some; [|by apply (H3 z)].
      split; [done|apply NoDup_singleton].
    + rewrite (Permutation_length Hnames), H4. simpl. lia.
    + intros z x. rewrite zone_nodes_insert. case_decide as Hzz; [subst z; rewrite Hzn; set_solver|].
      unfold zone_nodes. naive_solver.
    + rewrite Hzn. by intros ?%not_elem_of_nil.
Qed.

(** [removeNode] removes the name from its zone, and the zone with its last
    name; it fails when the name is not there. *)
Lemma removeNode_spec nt n :
  nt_wf nt →
  match removeNode nt n with
  | (nt', true) =>
      nt_has nt (GetZoneKey n) (node_Name n) ∧ nt_wf nt' ∧
      (∀ z x, nt_has nt' z x ↔ nt_has nt z x ∧ ¬ (z = GetZoneKey n ∧ x = node_Name n)) ∧
      nt_names nt ≡ₚ node_Name n :: nt_names nt'
  | (nt', false) => nt' = nt ∧ ¬ nt_has nt (GetZoneKey n) (node_Name n)
  end.
Proof.
  intros Hwf. pose proof Hwf as [H1 H2 H3 H4]. unfold removeNode, nt_has.
  set (z0 := GetZoneKey n). set (x0 := node_Name n).
  destruct (tree nt !! z0) as [na|] eqn:Hz.
  2: { split; [done|]. unfold zone_nodes. rewrite Hz. by intros ?%not_elem_of_nil. }
  assert (zone_nodes nt z0 = na) as Hzn by (unfold zone_nodes; by rewrite Hz). rewrite !Hzn.
  destruct (existsb _ na) eqn:He; [apply existsb_name in He|by rewrite <- existsb_name, He].
  destruct (H3 z0 na Hz) as [Hne Hnd]. pose proof (remove_first_perm x0 na He) as Hp.
  rewrite Hp in Hnd. apply NoDup_cons in Hnd as [Hx0 Hnd].
  destruct (remove_first x0 na) as [|y na'] eqn:Hr; simpl.
  - assert (z0 ∈ zones nt) as Hz0 by (apply H2; by rewrite Hz).
    pose proof (names_delete (tree nt) (zones nt) (numNodes nt) (numNodes nt - 1) z0 H1 Hz0) as Hnames.
    replace (mkTree (tree nt) (zones nt) (numNodes nt)) with nt in Hnames by (by destruct nt).
    rewrite Hz in Hnames. simpl in Hnames. rewrite Hp in Hnames. simpl in Hnames.
    rewrite delete_insert_eq. split_and!; [done|split; simpl| |done].
    + rewrite (remove_first_perm z0 _ Hz0) in H1. by apply NoDup_cons in H1 as [_ ?].
    + intros z. pose proof (H2 z) as H2z. rewrite (remove_first_perm z0 _ Hz0) in H1, H2z.
      apply NoDup_cons in H1 as [Hn _]. rewrite lookup_delete_is_Some, <- H2z. set_solver.
    + intros z l [_ Hl]%lookup_delete_Some. by apply (H3 z).
    + apply Permutation_length in Hnames. simpl in Hnames. lia.
    + intros z x. unfold zone_nodes. simpl. destruct (decide (z = z0)) as [->|Hzz].
      * rewrite lookup_delete_eq, Hz. simpl. rewrite Hp. set_solver.
      * rewrite lookup_delete_ne by done. naive_solver.
  - destruct (update_zone_wf nt z0 (y :: na') Hwf) as [Hwf' (r & Hr1 & Hr2)]; [by rewrite Hz|done|done|].
    assert (numNodes nt - Z.of_nat (length (zone_nodes nt z0)) + Z.of_nat (length (y :: na')) =
            numNodes nt - 1) as Hnum by (rewrite Hzn, (Permutation_length Hp); simpl; lia).
    rewrite Hnum in *. split_and!; [done|done| |rewrite Hr1, Hr2, Hzn, Hp; done].
    intros z x. rewrite zone_nodes_insert. case_decide as Hzz; [subst z|unfold zone_nodes; naive_solver].
    rewrite Hzn, Hp. set_solver.
Qed.

(** ** Round robin *)

(** The names at one index, and those below it. *)
Definition row (nt : nodeTree) (i : nat) : list string := omap (λ z, zone_nodes nt z !! i) (zones nt).
Definition rows (nt : nodeTree) (k : nat) : list string := seq 0 k ≫= row nt.

(** The reference order: the first name of every zone, then the second ones,
    and so on. *)
Definition round_robin (nt : nodeTree) : list string := rows nt (max_len nt).

Definition exhausted (nt : nodeTree) (k : nat) : nat :=
  length (filter (λ z, (length (zone_nodes nt z) < k)%nat) (zones nt)).

Lemma list_zones_spec nt zs i acc ex :
  list_zones nt zs i acc ex =
    (acc ++ omap (λ z, zone_nodes nt z !! i) zs,
     (ex + length (filter (λ z, length (zone_nodes nt z) = i) zs))%nat).
Proof.
  revert acc ex. induction zs as [|z zs IH]; intros acc ex; [simpl; by rewrite app_nil_r, Nat.add_0_r|].
  cbn [list_zones omap list_omap]. rewrite filter_cons.
  destruct (zone_nodes nt z !! i) as [name|] eqn:Hi.
  - rewrite decide_False by (apply lookup_lt_Some in Hi; lia). by rewrite IH, <- app_assoc.
  - destruct (Nat.eqb_spec i (length (zone_nodes nt z))) as [He|He].
    + rewrite decide_True by done. rewrite IH. simpl. f_equal. lia.
    + rewrite decide_False by done. apply IH.
Qed.

Lemma exhausted_S nt k :
  exhausted nt (S k) = (exhausted nt k + length (filter (λ z, length (zone_nodes nt z) = k) (zones nt)))%nat.
Proof.
  unfold exhausted. induction (zones nt) as [|z zs IH]; [done|]. rewrite !filter_cons.
  repeat case_decide; simpl; lia.
Qed.

Lemma rows_S nt k : rows nt (S k) = rows nt k ++ row nt k.
Proof. unfold rows. by rewrite seq_S, bind_app, bind_singleton. Qed.

Lemma rows_perm nt k : rows nt k ≡ₚ zones nt ≫= λ z, take k (zone_nodes nt z).
Proof.
  induction k as [|k IH].
  { unfold rows. simpl. induction (zones nt) as [|z zs IH]; [done|]. by rewrite bind_cons, <- IH. }
  rewrite rows_S, IH. unfold row. generalize (zones nt). intros zs. clear IH.
  induction zs as [|z zs IH]; [done|]. rewrite !bind_cons.
  destruct (zone_nodes nt z !! k) as [name|] eqn:Hk; cbn [omap list_omap]; rewrite Hk.
  - rewrite (take_S_r _ _ _ Hk), <- IH. solve_Permutation.
  - rewrite !take_ge by (apply lookup_ge_None in Hk; lia). by rewrite <- IH, app_assoc.
Qed.

Lemma max_len_ge nt z : z ∈ zones nt → (length (zone_nodes nt z) ≤ max_len nt)%nat.
Proof.
  unfold max_len. induction (zones nt) as [|y zs IH]; [by intros ?%not_elem_of_nil|].
  intros [->|Hz]%elem_of_cons; simpl; [lia|]. specialize (IH Hz). lia.
Qed.

Lemma max_len_gt nt k :
  (k < max_len nt)%nat → ∃ z, z ∈ zones nt ∧ (k < length (zone_nodes nt z))%nat.
Proof.
  unfold max_len. induction (zones nt) as [|y zs IH]; simpl; [lia|]. intros Hk.
  destruct (decide (k < length (zone_nodes nt y))%nat); [exists y; split; [by left|done]|].
  destruct IH as (z & ? & ?); [lia|]. exists z. split; [by right|done].
Qed.

Lemma rows_all nt k : (max_len nt ≤ k)%nat → rows nt k ≡ₚ nt_names nt.
Proof.
  intros Hk. rewrite rows_perm. unfold nt_names.
  pose proof (max_len_ge nt) as Hm. induction (zones nt) as [|z zs IH]; [done|].
  rewrite !bind_cons, IH by (intros; apply Hm; by right).
  rewrite take_ge; [done|]. etransitivity; [apply Hm; by left|done].
Qed.

(** Below the longest zone, names are missing and a zone is not exhausted. *)
Lemma rows_short nt k :
  (k < max_len nt)%nat →
  (length (rows nt k) < length (nt_names nt))%nat ∧ (exhausted nt k < length (zones nt))%nat.
Proof.
  intros (z & Hz & Hlen)%max_len_gt. split.
  - rewrite (Permutation_length (rows_perm nt k)). unfold nt_names.
    apply list_elem_of_split in Hz as (l1 & l2 & ->).
    assert (∀ l, (length (l ≫= λ z, take k (zone_nodes nt z)) ≤ length (l ≫= zone_nodes nt))%nat) as Hle.
    { induction l as [|y l IH]; [done|]. rewrite !bind_cons, !length_app, length_take. lia. }
    rewrite !bind_app, !bind_cons, !length_app, length_take.
    pose proof (Hle l1). pose proof (Hle l2). lia.
  - unfold exhausted. apply list_elem_of_split in Hz as (l1 & l2 & ->).
    rewrite filter_app, filter_cons, decide_False, !length_app by lia. simpl.
    pose proof (length_filter (λ z, (length (zone_nodes nt z) < k)%nat) l1).
    pose proof (length_filter (λ z, (length (zone_nodes nt z) < k)%nat) l2). lia.
Qed.

Lemma list_loop_wf nt fuel k :
  nt_wf nt → (k ≤ max_len nt)%nat → (max_len nt - k < fuel)%nat →
  list_loop fuel nt (rows nt k) (exhausted nt k) k = Some (round_robin nt, true).
Proof.
  intros Hwf. pose proof (wf_numNodes _ Hwf) as Hnum. revert k.
  induction fuel as [|fuel IH]; intros k Hk Hf; [lia|]. simpl. rewrite Hnum.
  destruct (decide (k = max_len nt)) as [->|Hne].
  - rewrite (Permutation_length (rows_all nt (max_len nt) (le_n _))).
    by rewrite (proj2 (Z.ltb_ge _ _)) by lia.
  - destruct (rows_short nt k) as [H1 H2]; [lia|].
    rewrite (proj2 (Z.ltb_lt _ _)), (proj2 (Nat.leb_gt _ _)) by lia.
    rewrite list_zones_spec. fold (row nt k). rewrite <- rows_S, <- exhausted_S. apply IH; lia.
Qed.

(** The loop stops on every tree: past the longest zone all are exhausted. *)
Lemma list_loop_total nt fuel k l :
  (k ≤ S (max_len nt))%nat → (S (max_len nt) - k < fuel)%nat →
  is_Some (list_loop fuel nt l (exhausted nt k) k).
Proof.
  revert k l. induction fuel as [|fuel IH]; intros k l Hk Hf; [lia|]. simpl.
  case_match; [|done]. case_match eqn:Hex; [done|]. apply Nat.leb_gt in Hex.
  assert (k ≠ S (max_len nt)) as Hne; [|rewrite list_zones_spec, <- exhausted_S; apply IH; lia].
  intros ->. assert (exhausted nt (S (max_len nt)) = length (zones nt)) as He; [|lia].
  unfold exhausted. f_equal. pose proof (max_len_ge nt) as Hm. clear Hk Hf IH Hex.
  revert Hm. generalize (max_len nt) as m. intros m Hm.
  induction (zones nt) as [|z zs IHz]; [done|]. rewrite filter_cons, decide_True.
  - f_equal. apply IHz. intros x Hx. apply Hm. by right.
  - pose proof (Hm z ltac:(by left)). lia.
Qed.

Lemma exhausted_0 nt : exhausted nt 0 = 0%nat.
Proof.
  unfold exhausted. induction (zones nt) as [|z zs IH]; [done|].
  by rewrite filter_cons, decide_False by lia.
Qed.

Lemma nt_list_spec nt :
  is_Some (nt_list nt) ∧
  (nt_wf nt → nt_list nt = Some (round_robin nt, true) ∧ round_robin nt ≡ₚ nt_names nt).
Proof.
  unfold nt_list. destruct (zones nt) as [|z zs] eqn:Hz; simpl length.
  - split; [by eexists|]. intros Hwf. unfold round_robin, nt_names, max_len. by rewrite Hz.
  - pose proof (list_loop_total nt (max_len nt + 3) 0 [] ltac:(lia) ltac:(lia)) as HT.
    rewrite exhausted_0 in HT. split; [exact HT|]. intros Hwf. split; [|by apply rows_all].
    pose proof (list_loop_wf nt (max_len nt + 3) 0 Hwf ltac:(lia) ltac:(lia)) as HL.
    rewrite exhausted_0 in HL. exact HL.
Qed.

(** The order of the nodes: [list] returns on every tree, and on a
    well-formed one it returns, without the error, the round robin over the
    zones, which holds every node of the tree exactly once. *)
Lemma node_tree_list nt :
  is_Some (nt_list nt) ∧
  (nt_wf nt → nt_list nt = Some (round_robin nt, true) ∧ round_robin nt ≡ₚ nt_names nt).
Proof. apply nt_list_spec. Qed.

Lemma updateNode_spec nt n old :
  nt_wf nt → node_Name old = node_Name n → nt_has nt (GetZoneKey old) (node_Name n) →
  ∃ nt', updateNode nt (Some old) n = Ret nt' ∧ nt_wf nt' ∧
    ∀ z x, nt_has nt' z x ↔
      (nt_has nt z x ∧ ¬ (z = GetZoneKey old ∧ x = node_Name n)) ∨ (z = GetZoneKey n ∧ x = node_Name n).
Proof.
  intros Hwf Hname Hhas. unfold updateNode.
  destruct (String.eqb_spec (GetZoneKey old) (GetZoneKey n)) as [Hz|Hz].
  { exists nt. split_and!; [done|done|]. intros z x. rewrite <- Hz.
    split; [|naive_solver]. intros Hx.
    destruct (decide (z = GetZoneKey old ∧ x = node_Name n)); naive_solver. }
  eexists. split; [done|]. pose proof (removeNode_spec nt old Hwf) as HO. rewrite Hname in HO.
  destruct (removeNode nt old) as [nt1 []]; [|naive_solver]. destruct HO as (_ & H1 & H2 & _). simpl.
  destruct (addNode_spec nt1 n H1) as (H3 & H4 & _). split; [done|]. intros z x. by rewrite H4, H2.
Qed.

(** The tree keeps its invariant (the zones are the keys of the map, no
    zone is empty or repeats a name, [numNodes] counts the names) and does to
    its set of (zone, name) pairs what the operation says: [addNode] adds the
    node's pair; [removeNode] removes it and fails exactly when it is not
    there; [updateNode] of a node with the same name leaves it in the zone of
    the new labels only. *)
Lemma node_tree_invariant nt n old :
  nt_wf nt →
  (nt_wf (addNode nt n) ∧
   ∀ z x, nt_has (addNode nt n) z x ↔ nt_has nt z x ∨ (z = GetZoneKey n ∧ x = node_Name n)) ∧
  (nt_wf (removeNode nt n).1 ∧
   ((removeNode nt n).2 = true ↔ nt_has nt (GetZoneKey n) (node_Name n)) ∧
   ∀ z x, nt_has (removeNode nt n).1 z x ↔ nt_has nt z x ∧ ¬ (z = GetZoneKey n ∧ x = node_Name n)) ∧
  (node_Name old = node_Name n → nt_has nt (GetZoneKey old) (node_Name n) →
   ∃ nt', updateNode nt (Some old) n = Ret nt' ∧ nt_wf nt' ∧
     ∀ z x, nt_has nt' z x ↔
       (nt_has nt z x ∧ ¬ (z = GetZoneKey old ∧ x = node_Name n)) ∨
       (z = GetZoneKey n ∧ x = node_Name n)).
Proof.
  intros Hwf. destruct (addNode_spec nt n Hwf) as (Ha1 & Ha2 & _). split; [done|].
  pose proof (removeNode_spec nt n Hwf) as HR. split.
  { destruct (removeNode nt n) as [nt1 []]; simpl.
    - by destruct HR as (H1 & H2 & H3 & _).
    - destruct HR as [-> Hno]. split_and!; [done|done|naive_solver]. }
  by apply updateNode_spec.
Qed.

Definition sample_node (name zone : string) : Node :=
  mkNode name (<[LabelTopologyZone := zone]> ∅) ∅ [] false [] [].

Lemma node_tree_invariant_witness :
  let nt := newNodeTree [sample_node "a" "z1"; sample_node "b" "z1"; sample_node "c" "z2"] in
  nt_wf nt ∧ nt_list nt = Some (["a"; "c"; "b"], true) ∧
  nt_wf (removeNode nt (sample_node "c" "z2")).1.
Proof.
  assert (nt_wf (newNodeTree [sample_node "a" "z1"; sample_node "b" "z1"; sample_node "c" "z2"])) as Hwf.
  { unfold newNodeTree. simpl. repeat apply addNode_spec. apply empty_tree_wf. }
  split; [exact Hwf|]. split; [vm_compute; reflexivity|].
  apply (node_tree_invariant _ (sample_node "c" "z2") (sample_node "c" "z2") Hwf).
Defined.

Lemma node_tree_list_witness :
  nt_list (newNodeTree [sample_node "a" "z1"; sample_node "b" "z1"; sample_node "c" "z2"]) =
    Some (["a"; "c"; "b"], true).
Proof.
  assert (nt_wf (newNodeTree [sample_node "a" "z1"; sample_node "b" "z1"; sample_node "c" "z2"])) as Hwf.
  { unfold newNodeTree. simpl. repeat apply addNode_spec. apply empty_tree_wf. }
  destruct (node_tree_list (newNodeTree
    [sample_node "a" "z1"; sample_node "b" "z1"; sample_node "c" "z2"])) as [_ H].
  destruct (H Hwf) as [-> _]. vm_compute. reflexivity.
Defined.
