(* ===== verification/SchedCache.v ===== *)
(** * The scheduler cache: [pkg/scheduler/internal/cache/cache.go]

    The pods the scheduler has assumed or observed, the aggregated information
    of their nodes in a doubly linked list ordered by the time of the last
    change, the node tree and the image states.  Every operation runs under the
    cache's lock, so it is one step.  An item of the list is addressed by the
    name of its node, its key in [nodes]; the global counter of
    [framework.nextGeneration] is the field [generation]; [klog.Fatal] is a
    panic; times are integers. *)

From S2P Require Import Prelude ApiTypes NodeInfo NodeTree.
#[local] Open Scope Z_scope.

Record podState := mkPodState {
  ps_pod : Pod;
  deadline : option Z;
  bindingFinished : bool;
}.

Record imageState := mkImgState { img_size : Z; img_nodes : gset string }.

Record nodeInfoListItem := mkItem {
  info : NodeInfo;
  next : option string;
  prev : option string;
}.

Record schedulerCache := mkCache {
  assumedPods : gset string;
  podStates : gmap string podState;
  nodes : gmap string nodeInfoListItem;
  headNode : option string;
  ctree : nodeTree;
  imageStates : gmap string imageState;
  generation : Z;
}.

Definition newSchedulerCache (generation : Z) : schedulerCache :=
  mkCache ∅ ∅ ∅ None (newNodeTree []) ∅ generation.

Definition set_nodes (c : schedulerCache) (ns : gmap string nodeInfoListItem) (h : option string)
    : schedulerCache :=
  mkCache (assumedPods c) (podStates c) ns h (ctree c) (imageStates c) (generation c).

Definition set_pods (c : schedulerCache) (a : gset string) (p : gmap string podState)
    : schedulerCache :=
  mkCache a p (nodes c) (headNode c) (ctree c) (imageStates c) (generation c).

Definition set_tree (c : schedulerCache) (t : nodeTree) : schedulerCache :=
  mkCache (assumedPods c) (podStates c) (nodes c) (headNode c) t (imageStates c) (generation c).

Definition set_images (c : schedulerCache) (i : gmap string imageState) : schedulerCache :=
  mkCache (assumedPods c) (podStates c) (nodes c) (headNode c) (ctree c) i (generation c).

(** Writing through the pointer [n.info], with the counter it leaves. *)
Definition set_info (c : schedulerCache) (name : string) (r : NodeInfo * Z) : schedulerCache :=
  mkCache (assumedPods c) (podStates c)
    (alter (λ it, mkItem r.1 (next it) (prev it)) name (nodes c)) (headNode c) (ctree c)
    (imageStates c) r.2.

(** ** The linked list *)

Definition set_next (v : option string) (it : nodeInfoListItem) : nodeInfoListItem :=
  mkItem (info it) v (prev it).
Definition set_prev (v : option string) (it : nodeInfoListItem) : nodeInfoListItem :=
  mkItem (info it) (next it) v.

(** Writing through a pointer, if it is not nil. *)
Definition write (p : option string) (f : nodeInfoListItem → nodeInfoListItem)
    (ns : gmap string nodeInfoListItem) : gmap string nodeInfoListItem :=
  match p with Some x => alter f x ns | None => ns end.

Definition moveNodeInfoToHead (c : schedulerCache) (name : string) : schedulerCache :=
  match nodes c !! name with
  | None => c
  | Some ni =>
      if decide (headNode c = Some name) then c
      else
        let ns := write (prev ni) (set_next (next ni)) (nodes c) in
        let ns := write (next ni) (set_prev (prev ni)) ns in
        let ns := write (headNode c) (set_prev (Some name)) ns in
        let ns := alter (λ it, mkItem (info it) (headNode c) None) name ns in
        set_nodes c ns (Some name)
  end.

Definition removeNodeInfoFromList (c : schedulerCache) (name : string) : schedulerCache :=
  match nodes c !! name with
  | None => c
  | Some ni =>
      let ns := write (prev ni) (set_next (next ni)) (nodes c) in
      let ns := write (next ni) (set_prev (prev ni)) ns in
      let h := if decide (headNode c = Some name) then next ni else headNode c in
      set_nodes c (delete name ns) h
  end.

(** ** Images *)

Definition createImageStateSummary (state : imageState) : ImageStateSummary :=
  mkImageState (img_size state) (Z.of_nat (size (img_nodes state))).

(** The names of a node's images with their sizes, in the order of the loops. *)
Definition image_names (nd : Node) : list (string * Z) :=
  node_Images nd ≫= λ image, (λ name, (name, img_SizeBytes image)) <$> img_Names image.

Definition addImage (nodeName : string)
    (s : gmap string imageState * gmap string ImageStateSummary) (image : string * Z)
    : gmap string imageState * gmap string ImageStateSummary :=
  let '(imageStates, newSum) := s in
  let '(name, size) := image in
  let state :=
    match imageStates !! name with
    | None => mkImgState size {[nodeName]}
    | Some state => mkImgState (img_size state) ({[nodeName]} ∪ img_nodes state)
    end in
  (<[name := state]> imageStates,
   match newSum !! name with
   | None => <[name := createImageStateSummary state]> newSum
   | Some _ => newSum
   end).

Definition set_ImageStates (n : NodeInfo) (s : gmap string ImageStateSummary) : NodeInfo :=
  mkNodeInfo (node n) (Pods n) (PodsWithAffinity n) (PodsWithRequiredAntiAffinity n) (UsedPorts n)
    (Requested n) (NonZeroRequested n) (Allocatable n) s (Generation n).

(** The information of a node is [nodes[name].info]. *)
Definition addNodeImageStates (c : schedulerCache) (nd : Node) : schedulerCache :=
  let '(images, newSum) := foldl (addImage (node_Name nd)) (imageStates c, ∅) (image_names nd) in
  let c := set_images c images in
  match nodes c !! node_Name nd with
  | Some it => set_info c (node_Name nd) (set_ImageStates (info it) newSum, generation c)
  | None => c
  end.

Definition removeImage (nodeName : string) (imageStates : gmap string imageState)
    (image : string * Z) : gmap string imageState :=
  match imageStates !! image.1 with
  | Some state =>
      let state := mkImgState (img_size state) (img_nodes state ∖ {[nodeName]}) in
      if (size (img_nodes state) =? 0)%nat then delete image.1 imageStates
      else <[image.1 := state]> imageStates
  | None => imageStates
  end.

Definition removeNodeImageStates (c : schedulerCache) (nd : option Node) : schedulerCache :=
  match nd with
  | None => c
  | Some nd => set_images c (foldl (removeImage (node_Name nd)) (imageStates c) (image_names nd))
  end.

(** ** Pods *)

Section Gates.
Context (LocalStorageCapacityIsolation PodOverhead : bool) (ttl : Z).
Local Abbreviation ni_AddPod := (NodeInfo.AddPod LocalStorageCapacityIsolation PodOverhead).
Local Abbreviation ni_RemovePod := (NodeInfo.RemovePod LocalStorageCapacityIsolation PodOverhead).
Local Abbreviation ni_SetNode := (NodeInfo.SetNode LocalStorageCapacityIsolation).
Local Abbreviation ni_New := (NodeInfo.NewNodeInfo LocalStorageCapacityIsolation PodOverhead).

(** [cache.nodes[name]], created when it is missing. *)
Definition ensure_node (c : schedulerCache) (name : string) : schedulerCache :=
  match nodes c !! name with
  | Some _ => c
  | None =>
      let '(ni, g) := ni_New [] (generation c) in
      mkCache (assumedPods c) (podStates c) (<[name := mkItem ni None None]> (nodes c)) (headNode c)
        (ctree c) (imageStates c) g
  end.

Definition addPod (c : schedulerCache) (pod : Pod) : schedulerCache :=
  let c := ensure_node c (pod_NodeName pod) in
  match nodes c !! pod_NodeName pod with
  | Some n =>
      moveNodeInfoToHead (set_info c (pod_NodeName pod) (ni_AddPod (info n) pod (generation c)))
        (pod_NodeName pod)
  | None => c
  end.

(** The flag is [true] for a nil error, here and below. *)
Definition removePod (c : schedulerCache) (pod : Pod) : outcome (schedulerCache * bool) :=
  match nodes c !! pod_NodeName pod with
  | None => Ret (c, true)
  | Some n =>
      match ni_RemovePod (info n) pod (generation c) with
      | Panic => Panic
      | Ret (ni, g, ok) =>
          let c := set_info c (pod_NodeName pod) (ni, g) in
          if ok then
            if (length (Pods ni) =? 0)%nat && bool_decide (node ni = None)
            then Ret (removeNodeInfoFromList c (pod_NodeName pod), true)
            else Ret (moveNodeInfoToHead c (pod_NodeName pod), true)
          else Ret (c, false)
      end
  end.

Definition updatePod (c : schedulerCache) (oldPod newPod : Pod) : outcome (schedulerCache * bool) :=
  match removePod c oldPod with
  | Ret (c, true) => Ret (addPod c newPod, true)
  | r => r
  end.

Definition AssumePod (c : schedulerCache) (pod : Pod) : schedulerCache * bool :=
  match GetPodKey pod with
  | None => (c, false)
  | Some key =>
      match podStates c !! key with
      | Some _ => (c, false)
      | None =>
          let c := addPod c pod in
          let ps := mkPodState pod None false in
          (set_pods c ({[key]} ∪ assumedPods c) (<[key := ps]> (podStates c)), true)
      end
  end.

Definition finishBinding (c : schedulerCache) (pod : Pod) (now : Z) : schedulerCache * bool :=
  match GetPodKey pod with
  | None => (c, false)
  | Some key =>
      match podStates c !! key with
      | Some currState =>
          if bool_decide (key ∈ assumedPods c) then
            let dl := now + ttl in
            (set_pods c (assumedPods c)
               (<[key := mkPodState (ps_pod currState) (Some dl) true]> (podStates c)), true)
          else (c, true)
      | None => (c, true)
      end
  end.

Definition ForgetPod (c : schedulerCache) (pod : Pod) : outcome (schedulerCache * bool) :=
  match GetPodKey pod with
  | None => Ret (c, false)
  | Some key =>
      match podStates c !! key with
      | Some currState =>
          if negb (pod_NodeName (ps_pod currState) =? pod_NodeName pod)%string then Ret (c, false)
          else if bool_decide (key ∈ assumedPods c) then
            match removePod c pod with
            | Ret (c, true) => Ret (set_pods c (assumedPods c ∖ {[key]}) (delete key (podStates c)), true)
            | r => r
            end
          else Ret (c, false)
      | None => Ret (c, false)
      end
  end.

(** A failed removal of the assumed pod from the other node is only logged. *)
Definition AddPod (c : schedulerCache) (pod : Pod) : outcome (schedulerCache * bool) :=
  match GetPodKey pod with
  | None => Ret (c, false)
  | Some key =>
      match podStates c !! key with
      | Some currState =>
          if bool_decide (key ∈ assumedPods c) then
            let moved :=
              if negb (pod_NodeName (ps_pod currState) =? pod_NodeName pod)%string then
                match removePod c (ps_pod currState) with
                | Ret (c, _) => Ret (addPod c pod)
                | Panic => Panic
                end
              else Ret c in
            match moved with
            | Ret c =>
                Ret (set_pods c (assumedPods c ∖ {[key]})
                       (<[key := mkPodState pod None (bindingFinished currState)]> (podStates c)), true)
            | Panic => Panic
            end
          else Ret (c, false)
      | None =>
          let c := addPod c pod in
          Ret (set_pods c (assumedPods c) (<[key := mkPodState pod None false]> (podStates c)), true)
      end
  end.

Definition UpdatePod (c : schedulerCache) (oldPod newPod : Pod) : outcome (schedulerCache * bool) :=
  match GetPodKey oldPod with
  | None => Ret (c, false)
  | Some key =>
      match podStates c !! key with
      | Some currState =>
          if bool_decide (key ∈ assumedPods c) then Ret (c, false)
          else if negb (pod_NodeName (ps_pod currState) =? pod_NodeName newPod)%string then Panic
          else
            match updatePod c oldPod newPod with
            | Ret (c, true) =>
                Ret (set_pods c (assumedPods c)
                       (<[key := mkPodState newPod (deadline currState) (bindingFinished currState)]>
                          (podStates c)), true)
            | r => r
            end
      | None => Ret (c, false)
      end
  end.

Definition RemovePod (c : schedulerCache) (pod : Pod) : outcome (schedulerCache * bool) :=
  match GetPodKey pod with
  | None => Ret (c, false)
  | Some key =>
      match podStates c !! key with
      | Some currState =>
          if bool_decide (key ∈ assumedPods c) then Ret (c, false)
          else if negb (pod_NodeName (ps_pod currState) =? pod_NodeName pod)%string then Panic
          else
            match removePod c (ps_pod currState) with
            | Ret (c, true) => Ret (set_pods c (assumedPods c) (delete key (podStates c)), true)
            | r => r
            end
      | None => Ret (c, false)
      end
  end.

(** [None] for an error. *)
Definition IsAssumedPod (c : schedulerCache) (pod : Pod) : option bool :=
  key ← GetPodKey pod; Some (bool_decide (key ∈ assumedPods c)).

Definition GetPod (c : schedulerCache) (pod : Pod) : option Pod :=
  key ← GetPodKey pod; ps_pod <$> podStates c !! key.

Definition expirePod (c : schedulerCache) (key : string) (ps : podState)
    : outcome (schedulerCache * bool) :=
  match removePod c (ps_pod ps) with
  | Ret (c, true) => Ret (set_pods c (assumedPods c ∖ {[key]}) (delete key (podStates c)), true)
  | r => r
  end.

Definition cleanup_one (now : Z) (c : schedulerCache) (key : string) : outcome schedulerCache :=
  match podStates c !! key with
  | None => Panic
  | Some ps =>
      if negb (bindingFinished ps) then Ret c
      else
        match deadline ps with
        | None => Panic
        | Some d =>
            if d <? now then
              match expirePod c key ps with Ret (c, _) => Ret c | Panic => Panic end
            else Ret c
        end
  end.

(** The keys of the assumed pods in the order [keys] the loop meets them. *)
Fixpoint cleanup_keys (now : Z) (c : schedulerCache) (keys : list string) : outcome schedulerCache :=
  match keys with
  | [] => Ret c
  | key :: keys =>
      match cleanup_one now c key with Ret c => cleanup_keys now c keys | Panic => Panic end
  end.

Definition cleanupAssumedPods (c : schedulerCache) (now : Z) : outcome schedulerCache :=
  cleanup_keys now c (elements (assumedPods c)).

(** ** Nodes *)

Definition node_of (c : schedulerCache) (name : string) : option Node :=
  match nodes c !! name with Some it => node (info it) | None => None end.

Definition set_node (c : schedulerCache) (nd : Node) : schedulerCache :=
  match nodes c !! node_Name nd with
  | Some it => set_info c (node_Name nd) (ni_SetNode (info it) nd (generation c))
  | None => c
  end.

Definition AddNode (c : schedulerCache) (nd : Node) : schedulerCache :=
  let c :=
    match nodes c !! node_Name nd with
    | None => ensure_node c (node_Name nd)
    | Some n => removeNodeImageStates c (node (info n))
    end in
  let c := moveNodeInfoToHead c (node_Name nd) in
  let c := set_tree c (addNode (ctree c) nd) in
  let c := addNodeImageStates c nd in
  set_node c nd.

Definition UpdateNode (c : schedulerCache) (oldNode newNode : Node) : outcome schedulerCache :=
  let c :=
    match nodes c !! node_Name newNode with
    | None =>
        let c := ensure_node c (node_Name newNode) in set_tree c (addNode (ctree c) newNode)
    | Some n => removeNodeImageStates c (node (info n))
    end in
  let c := moveNodeInfoToHead c (node_Name newNode) in
  match updateNode (ctree c) (Some oldNode) newNode with
  | Panic => Panic
  | Ret t => let c := addNodeImageStates (set_tree c t) newNode in Ret (set_node c newNode)
  end.

Definition RemoveNode (c : schedulerCache) (nd : Node) : schedulerCache * bool :=
  match nodes c !! node_Name nd with
  | None => (c, false)
  | Some n =>
      let c := set_info c (node_Name nd) (NodeInfo.RemoveNode (info n) (generation c)) in
      let c := if (length (Pods (info n)) =? 0)%nat then removeNodeInfoFromList c (node_Name nd)
               else moveNodeInfoToHead c (node_Name nd) in
      match removeNode (ctree c) nd with
      | (_, false) => (c, false)
      | (t, true) => (removeNodeImageStates (set_tree c t) (Some nd), true)
      end
  end.
End Gates.

Definition NodeCount (c : schedulerCache) : Z := Z.of_nat (size (nodes c)).

Definition PodCount (c : schedulerCache) : Z :=
  foldl (λ count kv, int64 (count + Z.of_nat (length (Pods (info kv.2))))) 0 (map_to_list (nodes c)).

Definition Dump (c : schedulerCache) : gmap string NodeInfo * gset string :=
  ((λ it, Clone (info it)) <$> nodes c, assumedPods c).

(** ** The linked list as a list of names *)

Definition hd_or (l : list string) (q : option string) : option string :=
  match l with [] => q | x :: _ => Some x end.

(** The items of [l] are linked in this order between [p] and [q]. *)
Fixpoint dseg (ns : gmap string nodeInfoListItem) (p : option string) (l : list string)
    (q : option string) : Prop :=
  match l with
  | [] => True
  | x :: r =>
      (∃ it, ns !! x = Some it ∧ prev it = p ∧ next it = hd_or r q) ∧ dseg ns (Some x) r q
  end.

Definition last_or (p : option string) (l : list string) : option string :=
  match last l with Some x => Some x | None => p end.

Lemma last_or_cons p x l : last_or p (x :: l) = last_or (Some x) l.
Proof. unfold last_or. rewrite last_cons. by destruct (last l). Qed.

Lemma hd_or_app l1 l2 q : hd_or (l1 ++ l2) q = hd_or l1 (hd_or l2 q).
Proof. by destruct l1. Qed.

Lemma dseg_app ns p l1 l2 q :
  dseg ns p (l1 ++ l2) q ↔ dseg ns p l1 (hd_or l2 q) ∧ dseg ns (last_or p l1) l2 q.
Proof.
  revert p. induction l1 as [|x l1 IH]; intros p; simpl; [tauto|].
  rewrite IH, hd_or_app, last_or_cons. tauto.
Qed.

(** Links depend on the items of the segment only. *)
Lemma dseg_ext ns ns' p l q :
  (∀ x it, x ∈ l → ns !! x = Some it →
    ∃ it', ns' !! x = Some it' ∧ prev it' = prev it ∧ next it' = next it) →
  dseg ns p l q → dseg ns' p l q.
Proof.
  revert p. induction l as [|x l IH]; intros p Hext; simpl; [done|].
  intros [(it & Hx & Hp & Hn) Hl]. split.
  - destruct (Hext x it) as (it' & H1 & H2 & H3); [by left|done|]. exists it'. by rewrite H2, H3.
  - apply IH; [|done]. intros y it' Hy. apply Hext. by right.
Qed.

Lemma dseg_alter ns f x p l q : x ∉ l → dseg ns p l q → dseg (alter f x ns) p l q.
Proof.
  intros Hx. apply dseg_ext. intros y it Hy Hit. exists it. split; [|done].
  rewrite lookup_alter_ne; [done|]. by intros ->.
Qed.

Lemma dseg_write ns f r p l q : (∀ x, r = Some x → x ∉ l) → dseg ns p l q → dseg (write r f ns) p l q.
Proof. intros Hr. destruct r as [x|]; [|done]. by apply dseg_alter, Hr. Qed.

(** Redirecting the end or the start of a segment. *)
Lemma dseg_set_last ns p l q q' :
  NoDup l → dseg ns p l q → dseg (write (last l) (set_next q') ns) p l q'.
Proof.
  destruct l as [|x l _] using rev_ind; [done|]. rewrite last_snoc. simpl.
  intros (Hnd & Hx & _)%NoDup_app. rewrite !dseg_app. simpl. intros [H1 [(it & Hit & Hp & Hn) _]].
  split; [apply dseg_alter; [set_solver|done]|]. split; [|done].
  exists (set_next q' it). rewrite lookup_alter_eq, Hit. done.
Qed.

Lemma dseg_set_first ns p p' l q :
  NoDup l → dseg ns p l q → dseg (write (head l) (set_prev p') ns) p' l q.
Proof.
  destruct l as [|x l]; [done|]. intros [Hx Hnd]%NoDup_cons. simpl. intros [(it & Hit & Hp & Hn) Hl].
  split; [|by apply dseg_alter]. exists (set_prev p' it). rewrite lookup_alter_eq, Hit. done.
Qed.

Lemma hd_or_None l : hd_or l None = head l.
Proof. by destruct l. Qed.

Lemma last_or_None l : last_or None l = last l.
Proof. unfold last_or. by destruct (last l). Qed.

Lemma head_elem_of (l : list string) x : head l = Some x → x ∈ l.
Proof. destruct l; [done|]. intros [= ->]. by left. Qed.

(** Unlinking an item. *)
Lemma dseg_unlink ns l1 x l2 ni :
  NoDup (l1 ++ x :: l2) → dseg ns None (l1 ++ x :: l2) None → ns !! x = Some ni →
  prev ni = last l1 ∧ next ni = head l2 ∧
  dseg (write (next ni) (set_prev (prev ni)) (write (prev ni) (set_next (next ni)) ns)) None (l1 ++ l2) None.
Proof.
  intros (Hn1 & Hd & [Hx Hn2]%NoDup_cons)%NoDup_app. rewrite dseg_app. simpl.
  intros [H1 [(it & Hit & Hp & Hn) H2]] Hni. rewrite Hni in Hit. simplify_eq.
  rewrite last_or_None in Hp. rewrite hd_or_None in Hn. split; [done|]. split; [done|].
  rewrite Hp, Hn. rewrite dseg_app, last_or_None, hd_or_None. split.
  - apply dseg_write; [intros y Hy%head_elem_of; set_solver|]. eapply dseg_set_last; done.
  - eapply dseg_set_first; [done|]. apply dseg_write; [|done].
    intros y Hy%last_Some_elem_of. set_solver.
Qed.

(** Linking an item in front. *)
Lemma dseg_push ns l x f :
  NoDup l → x ∉ l → is_Some (ns !! x) → dseg ns None l None →
  (∀ it, prev (f it) = None ∧ next (f it) = head l) →
  dseg (alter f x (write (head l) (set_prev (Some x)) ns)) None (x :: l) None.
Proof.
  intros Hnd Hx [it Hit] Hl Hf. simpl. split.
  - exists (f it). rewrite lookup_alter_eq.
    assert (write (head l) (set_prev (Some x)) ns !! x = Some it) as ->.
    { destruct (head l) as [y|] eqn:Hy; [|done]. simpl. rewrite lookup_alter_ne; [done|].
      intros ->. by apply Hx, head_elem_of. }
    simpl. rewrite hd_or_None. split; [done|]. apply Hf.
  - apply dseg_alter; [done|]. by eapply dseg_set_first.
Qed.

Definition infos (c : schedulerCache) : gmap string NodeInfo := info <$> nodes c.

Lemma infos_lookup c x ni : infos c !! x = Some ni ↔ ∃ it, nodes c !! x = Some it ∧ info it = ni.
Proof. unfold infos. rewrite lookup_fmap, fmap_Some. naive_solver. Qed.

(** The links of the cache are those of the list of names [l], and the items
    are those of [ns]. *)
Record links (c : schedulerCache) (l : list string) : Prop := {
  links_head : headNode c = head l;
  links_nodup : NoDup l;
  links_seg : dseg (nodes c) None l None;
}.

Definition dll (c : schedulerCache) (l : list string) : Prop :=
  links c l ∧ ∀ x, x ∈ l ↔ is_Some (nodes c !! x).

(** All items but a new one are linked. *)
Definition dll_new (c : schedulerCache) (l : list string) (name : string) : Prop :=
  links c l ∧ (name ∉ l) ∧ (∃ ni, nodes c !! name = Some (mkItem ni None None)) ∧
  ∀ x, x = name ∨ x ∈ l ↔ is_Some (nodes c !! x).

(** Everything but the list and the information of the nodes. *)
Definition same_rest (c c' : schedulerCache) : Prop :=
  assumedPods c' = assumedPods c ∧ podStates c' = podStates c ∧ ctree c' = ctree c ∧
  imageStates c' = imageStates c ∧ generation c' = generation c.

Lemma info_alter f x (ns : gmap string nodeInfoListItem) :
  (∀ it, info (f it) = info it) → info <$> alter f x ns = info <$> ns.
Proof.
  intros Hf. apply map_eq. intros y. rewrite !lookup_fmap.
  destruct (decide (x = y)) as [->|Hne]; [|by rewrite lookup_alter_ne].
  rewrite lookup_alter_eq. destruct (ns !! y); simpl; [by rewrite Hf|done].
Qed.

Lemma info_write p f (ns : gmap string nodeInfoListItem) :
  (∀ it, info (f it) = info it) → info <$> write p f ns = info <$> ns.
Proof. destruct p; [by apply info_alter|done]. Qed.

Lemma write_is_Some p f (ns : gmap string nodeInfoListItem) x :
  is_Some (write p f ns !! x) ↔ is_Some (ns !! x).
Proof. destruct p; [apply lookup_alter_is_Some|done]. Qed.

Lemma filter_notin (l : list string) x : x ∉ l → filter (λ y, y ≠ x) l = l.
Proof.
  induction l as [|y l IH]; [done|]. intros [? ?]%not_elem_of_cons.
  rewrite filter_cons_True by done. by rewrite IH.
Qed.

Lemma filter_split (l1 l2 : list string) x :
  NoDup (l1 ++ x :: l2) → filter (λ y, y ≠ x) (l1 ++ x :: l2) = l1 ++ l2.
Proof.
  intros (_ & Hd & [Hx _]%NoDup_cons)%NoDup_app.
  rewrite filter_app, filter_cons_False by auto. rewrite !filter_notin; [done|done|].
  intros Hin. apply (Hd x Hin). by left.
Qed.

(** Moving a linked item to the head. *)
Lemma move_spec c l name :
  dll c l → name ∈ l →
  let c' := moveNodeInfoToHead c name in
  dll c' (name :: filter (λ y, y ≠ name) l) ∧ infos c' = infos c ∧ same_rest c c'.
Proof.
  intros [[Hh Hnd Hs] Hdom] Hin. unfold moveNodeInfoToHead.
  destruct (nodes c !! name) as [ni|] eqn:Hni; [|by apply Hdom in Hin; rewrite Hni in Hin; destruct Hin].
  apply list_elem_of_split in Hin as (l1 & l2 & ->). rewrite filter_split by done.
  case_decide as Hhead.
  { rewrite Hh in Hhead. destruct l1 as [|y l1]; [by split_and!|]. simplify_eq/=.
    exfalso. apply NoDup_cons in Hnd as [Hy _]. set_solver. }
  destruct (dseg_unlink (nodes c) l1 name l2 ni Hnd Hs Hni) as (Hp & Hn & Hs').
  assert (head (l1 ++ l2) = headNode c) as Hh2.
  { rewrite Hh in Hhead |- *. by destruct l1. }
  assert ((name ∉ l1 ++ l2) ∧ NoDup (l1 ++ l2)) as [Hni2 Hnd2].
  { apply NoDup_app in Hnd as (? & Hd & [? ?]%NoDup_cons). split; [set_solver|].
    apply NoDup_app. split_and!; [done| |done]. set_solver. }
  cbv zeta. split_and!; try done.
  - split; [split; simpl; [done|by apply NoDup_cons|]|].
    + rewrite <- Hh2. apply dseg_push; try done.
      * rewrite !write_is_Some. by rewrite Hni.
    + intros x. simpl. rewrite lookup_alter_is_Some, !write_is_Some, <- Hdom. set_solver.
  - unfold infos. simpl. rewrite info_alter, !info_write; done.
Qed.

Lemma move_new_spec c l name :
  dll_new c l name →
  let c' := moveNodeInfoToHead c name in
  dll c' (name :: l) ∧ infos c' = infos c ∧ same_rest c c'.
Proof.
  intros ([Hh Hnd Hs] & Hni & [ni Hit] & Hdom). unfold moveNodeInfoToHead. rewrite Hit.
  rewrite decide_False by (rewrite Hh; by intros ?%head_elem_of). simpl. split_and!; try done.
  - split; [split; simpl; [done|by apply NoDup_cons|]|].
    + rewrite Hh. apply dseg_push; try done.
    + intros x. simpl. rewrite lookup_alter_is_Some, !write_is_Some, <- Hdom. set_solver.
  - unfold infos. simpl. rewrite info_alter, !info_write; done.
Qed.

Lemma remove_list_spec c l name :
  dll c l → name ∈ l →
  let c' := removeNodeInfoFromList c name in
  dll c' (filter (λ y, y ≠ name) l) ∧ infos c' = delete name (infos c) ∧ same_rest c c'.
Proof.
  intros [[Hh Hnd Hs] Hdom] Hin. unfold removeNodeInfoFromList.
  destruct (nodes c !! name) as [ni|] eqn:Hni; [|by apply Hdom in Hin; rewrite Hni in Hin; destruct Hin].
  apply list_elem_of_split in Hin as (l1 & l2 & ->). rewrite filter_split by done.
  destruct (dseg_unlink (nodes c) l1 name l2 ni Hnd Hs Hni) as (Hp & Hn & Hs').
  assert ((name ∉ l1 ++ l2) ∧ NoDup (l1 ++ l2)) as [Hni2 Hnd2].
  { apply NoDup_app in Hnd as (? & Hd & [? ?]%NoDup_cons). split; [set_solver|].
    apply NoDup_app. split_and!; [done| |done]. set_solver. }
  cbv zeta. split_and!; try done.
  - split; [split; simpl; [|done|]|].
    + rewrite Hh. destruct l1 as [|y l1]; simpl; [by rewrite decide_True|]. rewrite decide_False; [done|].
      intros [= ->]. set_solver.
    + eapply dseg_ext; [|exact Hs']. intros x it Hx Hit. exists it. split; [|done].
      rewrite lookup_delete_ne; [done|]. intros ->. done.
    + intros x. simpl. rewrite lookup_delete_is_Some, !write_is_Some, <- Hdom. set_solver.
  - unfold infos. simpl. rewrite fmap_delete, !info_write; done.
Qed.

Lemma set_info_spec c l name r :
  dll c l →
  dll (set_info c name r) l ∧ infos (set_info c name r) = alter (λ _, r.1) name (infos c) ∧
  generation (set_info c name r) = r.2.
Proof.
  intros [[Hh Hnd Hs] Hdom]. split_and!; [|..|done].
  - split; [split; simpl; [done|done|]|].
    + eapply dseg_ext; [|exact Hs]. intros x it Hx Hit. destruct (decide (name = x)) as [->|Hne].
      * exists (mkItem r.1 (next it) (prev it)). by rewrite lookup_alter_eq, Hit.
      * exists it. by rewrite lookup_alter_ne.
    + intros x. simpl. by rewrite lookup_alter_is_Some.
  - unfold infos. simpl. apply map_eq. intros x. rewrite lookup_fmap.
    destruct (decide (name = x)) as [->|Hne].
    + rewrite !lookup_alter_eq, lookup_fmap. by destruct (nodes c !! x).
    + by rewrite !lookup_alter_ne, lookup_fmap.
Qed.

(** ** Generations *)

(** The list is ordered by generation, the newest first, and no generation is
    above the counter. *)
Definition newer (inf : gmap string NodeInfo) (x y : string) : Prop :=
  ∃ nx ny, inf !! x = Some nx ∧ inf !! y = Some ny ∧ Generation ny < Generation nx.

Record struct_inv (c : schedulerCache) (l : list string) : Prop := {
  si_dll : dll c l;
  si_sorted : StronglySorted (newer (infos c)) l;
  si_bound x ni : infos c !! x = Some ni → Generation ni ≤ generation c;
}.

(** What is not the same as before has a newer generation. *)
Definition evolves (c c' : schedulerCache) : Prop :=
  generation c ≤ generation c' ∧
  ∀ x ni, infos c' !! x = Some ni → infos c !! x = Some ni ∨ generation c < Generation ni.

#[export] Instance evolves_preorder : PreOrder evolves.
Proof.
  split.
  - intros c. split; [lia|auto].
  - intros c1 c2 c3 [H1 H2] [H3 H4]. split; [lia|]. intros x ni Hx.
    destruct (H4 x ni Hx) as [Hx2|?]; [|right; lia]. destruct (H2 x ni Hx2); auto.
Qed.

Lemma infos_dom c l x : dll c l → x ∈ l ↔ is_Some (infos c !! x).
Proof. intros [_ Hdom]. unfold infos. by rewrite Hdom, lookup_fmap, fmap_is_Some. Qed.

Lemma newer_ext inf inf' l :
  (∀ x, x ∈ l → inf' !! x = inf !! x) → StronglySorted (newer inf) l → StronglySorted (newer inf') l.
Proof.
  intros Hext. induction 1 as [|x l Hl IH Hx]; [constructor|]. constructor.
  - apply IH. intros y Hy. apply Hext. by right.
  - rewrite Forall_forall in Hx |- *. intros y Hy. destruct (Hx y Hy) as (nx & ny & H1 & H2 & H3).
    exists nx, ny. rewrite !Hext; [done|by right|by left].
Qed.

Lemma StronglySorted_filter_neq (R : string → string → Prop) l x :
  StronglySorted R l → StronglySorted R (filter (λ y, y ≠ x) l).
Proof.
  induction 1 as [|y l Hl IH Hy]; [constructor|]. rewrite filter_cons. case_decide; [|done].
  constructor; [done|]. rewrite Forall_forall in Hy |- *. intros z [_ Hz]%list_elem_of_filter. auto.
Qed.

(** A node gets a new generation and goes to the head. *)
Lemma touch_inv c c' l name ni' :
  struct_inv c l → dll c' (name :: filter (λ y, y ≠ name) l) →
  infos c' = <[name := ni']> (infos c) → generation c < Generation ni' → Generation ni' = generation c' →
  struct_inv c' (name :: filter (λ y, y ≠ name) l) ∧ evolves c c'.
Proof.
  intros [Hd Hs Hb] Hd' Hinf Hlt Hg. split.
  - split; [done| |].
    + constructor.
      * eapply newer_ext; [|by apply StronglySorted_filter_neq].
        intros x [Hx _]%list_elem_of_filter. by rewrite Hinf, lookup_insert_ne.
      * apply Forall_forall. intros y [Hy Hin]%list_elem_of_filter.
        apply (infos_dom c l y Hd) in Hin as [ny Hny]. exists ni', ny.
        rewrite Hinf, lookup_insert_eq, lookup_insert_ne by done. split_and!; [done|done|].
        specialize (Hb y ny Hny). lia.
    + intros x ni. rewrite Hinf. intros [[_ <-]|[_ Hx]]%lookup_insert_Some; [lia|].
      specialize (Hb x ni Hx). lia.
  - split; [lia|]. intros x ni. rewrite Hinf. intros [[_ <-]|[_ Hx]]%lookup_insert_Some; auto.
Qed.

(** A node goes away. *)
Lemma drop_inv c c' l name :
  struct_inv c l → dll c' (filter (λ y, y ≠ name) l) → infos c' = delete name (infos c) →
  generation c ≤ generation c' → struct_inv c' (filter (λ y, y ≠ name) l) ∧ evolves c c'.
Proof.
  intros [Hd Hs Hb] Hd' Hinf Hg. split.
  - split; [done| |].
    + eapply newer_ext; [|by apply StronglySorted_filter_neq].
      intros x [Hx _]%list_elem_of_filter. by rewrite Hinf, lookup_delete_ne.
    + intros x ni. rewrite Hinf. intros [_ Hx]%lookup_delete_Some. specialize (Hb x ni Hx). lia.
  - split; [done|]. intros x ni. rewrite Hinf. intros [_ Hx]%lookup_delete_Some. auto.
Qed.

Lemma nextGeneration_succ g : 0 ≤ g < max_int64 → nextGeneration g = g + 1.
Proof. intros H. apply int64_id. unfold min_int64, max_int64 in *. lia. Qed.

(** An item that is linked, or new. *)
Definition linkable (c : schedulerCache) (l : list string) (name : string) : Prop :=
  (dll c l ∧ name ∈ l) ∨ dll_new c l name.

Lemma move_linkable c l name :
  linkable c l name →
  let c' := moveNodeInfoToHead c name in
  dll c' (name :: filter (λ y, y ≠ name) l) ∧ infos c' = infos c ∧ same_rest c c'.
Proof.
  intros [[Hd Hin]|Hnew]; [by apply move_spec|].
  pose proof Hnew as (_ & Hni & _). rewrite (filter_notin l name Hni). by apply move_new_spec.
Qed.

Lemma linkable_infos c l name : linkable c l name → is_Some (infos c !! name).
Proof.
  unfold infos. rewrite lookup_fmap, fmap_is_Some.
  intros [[[_ Hd] Hin]|(_ & _ & (ni & Hni) & _)]; [by apply Hd|by rewrite Hni].
Qed.

(** [linkable] is about the links only. *)
Lemma linkable_ext c c' l name :
  nodes c' = nodes c → headNode c' = headNode c → linkable c l name → linkable c' l name.
Proof.
  intros Hn Hh. unfold linkable, dll, dll_new. rewrite Hn.
  intros [[[[H1 H2 H3] H4] H5]|([H1 H2 H3] & H4)].
  - left. split; [split; [split; congruence|done]|done].
  - right. split; [split; congruence|done].
Qed.

Lemma set_info_linkable c l name r :
  linkable c l name →
  linkable (set_info c name r) l name ∧ infos (set_info c name r) = <[name := r.1]> (infos c) ∧
  generation (set_info c name r) = r.2.
Proof.
  intros Hl. pose proof (linkable_infos c l name Hl) as [ni Hni].
  assert (infos (set_info c name r) = <[name := r.1]> (infos c)) as Hinf.
  { unfold infos. simpl. apply map_eq. intros x. rewrite lookup_fmap.
    apply infos_lookup in Hni as (it & Hit & _). destruct (decide (name = x)) as [->|Hne].
    - by rewrite lookup_alter_eq, lookup_insert_eq, Hit.
    - by rewrite lookup_alter_ne, lookup_insert_ne, lookup_fmap. }
  split; [|done]. destruct Hl as [[Hd Hin]|([Hh Hnd Hs] & Hno & (n0 & Hn0) & Hdom)].
  - left. split; [|done]. by apply (set_info_spec c l name r).
  - right. split; [split; simpl; [done|done|by apply dseg_alter]|]. split; [done|]. split.
    + exists r.1. simpl. by rewrite lookup_alter_eq, Hn0.
    + intros x. simpl. by rewrite lookup_alter_is_Some, Hdom.
Qed.

Section CacheOps.
Context (lsci overhead : bool) (ttl : Z).
Local Abbreviation ni_AddPod := (NodeInfo.AddPod lsci overhead).
Local Abbreviation ni_RemovePod := (NodeInfo.RemovePod lsci overhead).
Local Abbreviation ni_New := (NodeInfo.NewNodeInfo lsci overhead).
Local Abbreviation ensure_node := (ensure_node lsci overhead).
Local Abbreviation addPod := (addPod lsci overhead).
Local Abbreviation removePod := (removePod lsci overhead).

(** The information of a node, or that of a new one. *)
Definition info_or_new (c : schedulerCache) (name : string) : NodeInfo :=
  default (ni_New [] (generation c)).1 (infos c !! name).

Lemma ensure_linkable c l name :
  dll c l → 0 ≤ generation c < max_int64 →
  linkable (ensure_node c name) l name ∧
  infos (ensure_node c name) = <[name := info_or_new c name]> (infos c) ∧
  generation c ≤ generation (ensure_node c name) ≤ generation c + 1 ∧
  assumedPods (ensure_node c name) = assumedPods c ∧ podStates (ensure_node c name) = podStates c ∧
  ctree (ensure_node c name) = ctree c ∧ imageStates (ensure_node c name) = imageStates c.
Proof.
  intros Hd Hg. unfold SchedCache.ensure_node, info_or_new, infos. rewrite lookup_fmap.
  destruct (nodes c !! name) as [it|] eqn:Hit; simpl.
  - split_and!; try lia; try done.
    + left. split; [done|]. apply Hd. by rewrite Hit.
    + rewrite insert_id; [done|]. by rewrite lookup_fmap, Hit.
  - destruct Hd as [[Hh Hnd Hs] Hdom]. rewrite nextGeneration_succ by lia.
    assert (name ∉ l) as Hni by (rewrite Hdom, Hit; by intros [? ?]).
    split_and!; try lia; try done.
    + right. split; [split; simpl; [done|done|]|].
      * eapply dseg_ext; [|exact Hs]. intros x it Hx Hxt. exists it. split; [|done].
        rewrite lookup_insert_ne; [done|]. by intros ->.
      * split; [done|]. split; [eexists; simpl; apply lookup_insert_eq|].
        intros x. simpl. rewrite lookup_insert_is_Some', <- Hdom. naive_solver.
    + by rewrite fmap_insert.
Qed.

(** Adding a pod to its node. *)
Lemma addPod_spec c l pod :
  struct_inv c l → 0 ≤ generation c → generation c + 2 ≤ max_int64 →
  let name := pod_NodeName pod in
  let c' := addPod c pod in
  ∃ g ni', (ni', generation c') = ni_AddPod (info_or_new c name) pod g ∧
    infos c' = <[name := ni']> (infos c) ∧ struct_inv c' (name :: filter (λ y, y ≠ name) l) ∧
    evolves c c' ∧ generation c' ≤ generation c + 2 ∧
    assumedPods c' = assumedPods c ∧ podStates c' = podStates c ∧ ctree c' = ctree c ∧
    imageStates c' = imageStates c.
Proof.
  intros Hsi H0 Hg name c'. unfold c', SchedCache.addPod. fold name. clear c'.
  destruct (ensure_linkable c l name (si_dll _ _ Hsi)) as (Hl & Hinf & Hg1 & Ha & Hp & Ht & Hi); [lia|].
  set (c1 := ensure_node c name) in *.
  destruct (nodes c1 !! name) as [n|] eqn:Hn.
  2: { apply linkable_infos in Hl. unfold infos in Hl. rewrite lookup_fmap, Hn in Hl. by destruct Hl. }
  assert (info n = info_or_new c name) as Hinfo.
  { assert (infos c1 !! name = Some (info n)) as H by (apply infos_lookup; eauto).
    rewrite Hinf, lookup_insert_eq in H. congruence. }
  destruct (ni_AddPod (info n) pod (generation c1)) as [ni' g'] eqn:Hadd.
  assert (g' = generation c1 + 1 ∧ Generation ni' = g') as [Hg' Hgen].
  { unfold NodeInfo.AddPod, NodeInfo.AddPodInfo in Hadd. destruct (calculateResource _ _ _) as [[? ?] ?].
    simplify_eq/=. split; [|done]. apply nextGeneration_succ. lia. }
  destruct (set_info_linkable c1 l name (ni', g') Hl) as (Hl2 & Hinf2 & Hg2).
  destruct (move_linkable _ l name Hl2) as (Hd & Hinf3 & Hr1 & Hr2 & Hr3 & Hr4 & Hr5).
  set (c2 := moveNodeInfoToHead (set_info c1 name (ni', g')) name) in *. simpl in *.
  assert (infos c2 = <[name := ni']> (infos c)) as Hinf4.
  { by rewrite Hinf3, Hinf2, Hinf, insert_insert_eq. }
  destruct (touch_inv c c2 l name ni' Hsi Hd Hinf4) as [Hsi' Hev]; [lia|lia|].
  exists (generation c1), ni'. rewrite <- Hinfo, Hadd, Hr5. split_and!; try done; try lia; congruence.
Qed.
(** The nodes after the information of one of them is replaced by [ni]: the
    node is dropped when nothing is left of it. *)
Definition put_info (inf : gmap string NodeInfo) (name : string) (ni : NodeInfo) : gmap string NodeInfo :=
  if (length (Pods ni) =? 0)%nat && bool_decide (node ni = None) then delete name inf
  else <[name := ni]> inf.

(** Removing a pod from a node that has it. *)
Lemma removePod_spec c l pod n :
  struct_inv c l → 0 ≤ generation c < max_int64 → infos c !! pod_NodeName pod = Some n →
  ni_wf lsci overhead n → agrees n pod → pod_UID pod ∈ pod_UID <$> node_pods n →
  pod_UID pod ≠ EmptyString →
  ∃ c' ni' p l', removePod c pod = Ret (c', true) ∧ ni_wf lsci overhead ni' ∧
    node_pods n ≡ₚ p :: node_pods ni' ∧ pod_UID p = pod_UID pod ∧ node ni' = node n ∧
    infos c' = put_info (infos c) (pod_NodeName pod) ni' ∧ struct_inv c' l' ∧ evolves c c' ∧
    generation c' ≤ generation c + 1 ∧ assumedPods c' = assumedPods c ∧
    podStates c' = podStates c ∧ ctree c' = ctree c ∧ imageStates c' = imageStates c.
Proof.
  intros Hsi Hg Hn Hwf Hag Huid Hne. unfold SchedCache.removePod. set (name := pod_NodeName pod) in *.
  pose proof Hn as (it & Hit & Hinfo)%infos_lookup. rewrite Hit, Hinfo.
  pose proof (RemovePod_spec lsci overhead n pod (generation c) Hwf Hag) as HR.
  destruct (ni_RemovePod n pod (generation c)) as [[[ni' g'] []]|]; [|naive_solver..].
  destruct HR as (Hwf' & (p & Hp & Hpu) & _ & Hnode & _ & _ & _ & Hg' & Hgen).
  rewrite nextGeneration_succ in Hg' by lia.
  pose proof (si_dll _ _ Hsi) as Hd. assert (name ∈ l) as Hin by (apply (infos_dom c l name Hd); by rewrite Hn).
  destruct (set_info_spec c l name (ni', g') Hd) as (Hd1 & Hinf1 & Hgen1).
  assert (alter (λ _, ni') name (infos c) = <[name := ni']> (infos c)) as Halt.
  { apply map_eq. intros x. destruct (decide (name = x)) as [->|Hnx].
    - by rewrite lookup_alter_eq, lookup_insert_eq, Hn.
    - by rewrite lookup_alter_ne, lookup_insert_ne. }
  simpl in Hinf1, Hgen1. rewrite Halt in Hinf1. destruct (_ && _) eqn:Hb.
  - destruct (remove_list_spec _ l name Hd1 Hin) as (Hd2 & Hinf2 & Hr1 & Hr2 & Hr3 & Hr4 & Hr5).
    rewrite Hinf1, delete_insert_eq in Hinf2.
    destruct (drop_inv c _ l name Hsi Hd2 Hinf2) as [Hsi' Hev]; [rewrite Hr5; simpl; lia|].
    eexists _, ni', p, _. split_and!; try done; [unfold put_info; by rewrite Hb|rewrite Hr5; simpl; lia].
  - destruct (move_spec _ l name Hd1 Hin) as (Hd2 & Hinf2 & Hr1 & Hr2 & Hr3 & Hr4 & Hr5).
    rewrite Hinf1 in Hinf2.
    destruct (touch_inv c _ l name ni' Hsi Hd2 Hinf2) as [Hsi' Hev]; [lia|rewrite Hr5; done|].
    eexists _, ni', p, _. split_and!; try done; [unfold put_info; by rewrite Hb|rewrite Hr5; simpl; lia].
Qed.
(** ** The pods of the cache and of its nodes *)

(** Every pod of the cache is once on its node, in a version with the same
    spec; the nodes hold no other pods and have the right totals; a node
    without node object has pods. *)
Record pods_inv (inf : gmap string NodeInfo) (ps : gmap string podState) : Prop := {
  pi_key k s : ps !! k = Some s → k = pod_UID (ps_pod s) ∧ k ≠ EmptyString;
  pi_node k s : ps !! k = Some s →
    ∃ n p, inf !! pod_NodeName (ps_pod s) = Some n ∧ p ∈ node_pods n ∧ pod_UID p = k ∧
           same_spec p (ps_pod s);
  pi_back x n p : inf !! x = Some n → p ∈ node_pods n →
    ∃ s, ps !! pod_UID p = Some s ∧ pod_NodeName (ps_pod s) = x;
  pi_nodup x n : inf !! x = Some n → NoDup (pod_UID <$> node_pods n);
  pi_wf x n : inf !! x = Some n → ni_wf lsci overhead n;
  pi_ghost x n : inf !! x = Some n → node n = None → Pods n ≠ [];
}.

Lemma same_spec_sym p q : same_spec p q → same_spec q p.
Proof. unfold same_spec. naive_solver. Qed.

Lemma same_spec_trans p q r : same_spec p q → same_spec q r → same_spec p r.
Proof. intros (?&?&?&?) (?&?&?&?). split_and!; congruence. Qed.

Lemma NoDup_fmap_inj {A B} (f : A → B) l x y :
  NoDup (f <$> l) → x ∈ l → y ∈ l → f x = f y → x = y.
Proof.
  intros Hnd (i & Hi)%list_elem_of_lookup (j & Hj)%list_elem_of_lookup Hf.
  assert (i = j) as ->; [|congruence].
  eapply (NoDup_lookup _ i j (f x) Hnd); rewrite list_lookup_fmap; [by rewrite Hi|by rewrite Hj, Hf].
Qed.

(** A version of a pod of the cache agrees with what its node holds. *)
Lemma pods_inv_agrees inf ps k s pod :
  pods_inv inf ps → ps !! k = Some s → pod_UID pod = k → same_spec pod (ps_pod s) →
  ∃ n, inf !! pod_NodeName (ps_pod s) = Some n ∧ agrees n pod ∧ pod_UID pod ∈ pod_UID <$> node_pods n ∧
       pod_UID pod ≠ EmptyString.
Proof.
  intros Hinv Hs Hk Hspec. destruct (pi_node _ _ Hinv k s Hs) as (n & p & Hn & Hp & Hpk & Hps).
  exists n. split_and!; [done| | |].
  - intros p' Hp' Hk'. assert (p' = p) as ->.
    { eapply (NoDup_fmap_inj pod_UID); [by eapply pi_nodup|done|done|congruence]. }
    eapply same_spec_trans; [done|]. by apply same_spec_sym.
  - apply list_elem_of_fmap. exists p. split; [congruence|done].
  - rewrite Hk. by apply (pi_key _ _ Hinv k s).
Qed.

Lemma pods_inv_add inf ps pod s n n' :
  pods_inv inf ps → ps !! pod_UID pod = None → pod_UID pod ≠ EmptyString → ps_pod s = pod →
  (inf !! pod_NodeName pod = Some n ∨ (inf !! pod_NodeName pod = None ∧ node_pods n = [])) →
  node_pods n' = node_pods n ++ [pod] → ni_wf lsci overhead n' →
  pods_inv (<[pod_NodeName pod := n']> inf) (<[pod_UID pod := s]> ps).
Proof.
  intros Hinv Hnone Hne Hs Hn Hpods Hwf. set (x := pod_NodeName pod) in *. set (k := pod_UID pod) in *.
  assert (∀ p, p ∈ node_pods n → ∃ s, ps !! pod_UID p = Some s ∧ pod_NodeName (ps_pod s) = x) as Hold.
  { intros p Hp. destruct Hn as [Hn|[_ Hnil]]; [by eapply pi_back|].
    rewrite Hnil in Hp. by apply not_elem_of_nil in Hp. }
  assert (k ∉ pod_UID <$> node_pods n) as Hk.
  { intros (p & Heq & Hp)%list_elem_of_fmap. destruct (Hold p Hp) as (s' & Hs' & _). congruence. }
  split.
  - intros k' s' [[<- <-]|[_ Hs']]%lookup_insert_Some; [by rewrite Hs|by eapply pi_key].
  - intros k' s' [[<- <-]|[Hk' Hs']]%lookup_insert_Some.
    + exists n', pod. rewrite Hs. fold x. rewrite lookup_insert_eq, Hpods. split_and!; try done. set_solver.
    + destruct (pi_node _ _ Hinv k' s' Hs') as (m & p & Hm & Hp & Hpk & Hspec).
      destruct (decide (pod_NodeName (ps_pod s') = x)) as [Hx|Hx].
      * exists n', p. rewrite Hx, lookup_insert_eq, Hpods. split_and!; try done.
        rewrite Hx in Hm. destruct Hn as [Hn|[Hn _]]; [|congruence]. simplify_eq. set_solver.
      * exists m, p. by rewrite lookup_insert_ne.
  - intros y m p [[<- <-]|[Hy Hm]]%lookup_insert_Some Hp.
    + rewrite Hpods in Hp. apply elem_of_app in Hp as [Hp|Hp%list_elem_of_singleton].
      * destruct (Hold p Hp) as (s' & Hs' & Hx). exists s'. split; [|done].
        rewrite lookup_insert_ne; [done|]. intros Heq. congruence.
      * subst p. exists s. rewrite lookup_insert_eq, Hs. done.
    + destruct (pi_back _ _ Hinv y m p Hm Hp) as (s' & Hs' & Hx). exists s'. split; [|done].
      rewrite lookup_insert_ne; [done|]. intros Heq. congruence.
  - intros y m [[<- <-]|[Hy Hm]]%lookup_insert_Some; [|by eapply pi_nodup].
    rewrite Hpods, fmap_app. apply NoDup_app. split_and!; [|set_solver|apply NoDup_singleton].
    destruct Hn as [Hn|[_ ->]]; [by eapply pi_nodup|constructor].
  - intros y m [[<- <-]|[Hy Hm]]%lookup_insert_Some; [done|by eapply pi_wf].
  - intros y m [[<- <-]|[Hy Hm]]%lookup_insert_Some Hnode Hnil; [|by eapply (pi_ghost _ _ Hinv y m)].
    unfold node_pods in Hpods. rewrite Hnil in Hpods. by destruct (pi_Pod <$> Pods n).
Qed.
Lemma put_info_Some inf x n' y m :
  put_info inf x n' !! y = Some m →
  (y ≠ x ∧ inf !! y = Some m) ∨ (y = x ∧ m = n' ∧ (node n' = None → Pods n' ≠ [])).
Proof.
  unfold put_info. destruct (_ && _) eqn:Hb.
  - intros [Hy Hm]%lookup_delete_Some. naive_solver.
  - intros [[<- <-]|[Hy Hm]]%lookup_insert_Some; [right|naive_solver]. split_and!; [done|done|].
    intros Hnode Hnil. rewrite Hnil, bool_decide_true in Hb by done. done.
Qed.

Lemma put_info_has inf x n' p :
  p ∈ node_pods n' → put_info inf x n' !! x = Some n'.
Proof.
  intros Hp. unfold put_info, node_pods in *.
  destruct (Pods n') as [|q l]; [by apply not_elem_of_nil in Hp|]. simpl. apply lookup_insert_eq.
Qed.

Lemma put_info_ne inf x n' y : y ≠ x → put_info inf x n' !! y = inf !! y.
Proof. intros Hy. unfold put_info. case_match; [by apply lookup_delete_ne|by apply lookup_insert_ne]. Qed.

Lemma pods_inv_remove inf ps k s n n' p :
  pods_inv inf ps → ps !! k = Some s → inf !! pod_NodeName (ps_pod s) = Some n →
  node_pods n ≡ₚ p :: node_pods n' → pod_UID p = k → ni_wf lsci overhead n' →
  pods_inv (put_info inf (pod_NodeName (ps_pod s)) n') (delete k ps).
Proof.
  intros Hinv Hs Hn Hpods Hpk Hwf. set (x := pod_NodeName (ps_pod s)) in *.
  pose proof (pi_nodup _ _ Hinv x n Hn) as Hnd. rewrite Hpods in Hnd. simpl in Hnd.
  apply NoDup_cons in Hnd as [Hk Hnd]. rewrite Hpk in Hk.
  assert (∀ q, q ∈ node_pods n' → q ∈ node_pods n ∧ pod_UID q ≠ k) as Hsub.
  { intros q Hq. split; [rewrite Hpods; by right|]. intros Heq. apply Hk. rewrite <- Heq.
    by apply list_elem_of_fmap_2. }
  split.
  - intros k' s' [_ Hs']%lookup_delete_Some. by eapply pi_key.
  - intros k' s' [Hk' Hs']%lookup_delete_Some.
    destruct (pi_node _ _ Hinv k' s' Hs') as (m & q & Hm & Hq & Hqk & Hspec).
    destruct (decide (pod_NodeName (ps_pod s') = x)) as [Hx|Hx].
    + rewrite Hx in Hm |- *. rewrite Hn in Hm. simplify_eq. rewrite Hpods in Hq.
      apply elem_of_cons in Hq as [->|Hq]; [done|]. exists n', q. split_and!; try done.
      by eapply put_info_has.
    + exists m, q. by rewrite put_info_ne.
  - intros y m q [[Hy Hm]|(-> & -> & _)]%put_info_Some Hq.
    + destruct (pi_back _ _ Hinv y m q Hm Hq) as (s' & Hs' & Hx). exists s'. split; [|done].
      rewrite lookup_delete_ne; [done|]. intros Heq. rewrite <- Heq, Hs in Hs'. by simplify_eq.
    + destruct (Hsub q Hq) as [Hq' Hne]. destruct (pi_back _ _ Hinv x n q Hn Hq') as (s' & Hs' & Hx).
      exists s'. split; [|done]. by rewrite lookup_delete_ne.
  - intros y m [[Hy Hm]|(-> & -> & _)]%put_info_Some; [by eapply pi_nodup|done].
  - intros y m [[Hy Hm]|(-> & -> & _)]%put_info_Some; [by eapply pi_wf|done].
  - intros y m [[Hy Hm]|(-> & -> & Hg)]%put_info_Some; [by eapply pi_ghost|done].
Qed.

(** Another version of a pod on the same node. *)
Lemma pods_inv_replace inf ps k s s' :
  pods_inv inf ps → ps !! k = Some s → pod_UID (ps_pod s') = k →
  pod_NodeName (ps_pod s') = pod_NodeName (ps_pod s) → same_spec (ps_pod s) (ps_pod s') →
  pods_inv inf (<[k := s']> ps).
Proof.
  intros Hinv Hs Hk Hx Hspec. split; [..|apply Hinv|apply Hinv|apply Hinv].
  - intros k' t [[<- <-]|[_ Ht]]%lookup_insert_Some; [|by eapply pi_key].
    split; [done|]. by apply (pi_key _ _ Hinv k s).
  - intros k' t [[<- <-]|[_ Ht]]%lookup_insert_Some; [|by eapply pi_node].
    destruct (pi_node _ _ Hinv k s Hs) as (n & p & Hn & Hp & Hpk & Hps).
    exists n, p. rewrite Hx. split_and!; try done. by eapply same_spec_trans.
  - intros x n p Hn Hp. destruct (pi_back _ _ Hinv x n p Hn Hp) as (t & Ht & Htx).
    destruct (decide (pod_UID p = k)) as [Heq|Hne].
    + exists s'. rewrite Heq in Ht |- *. rewrite lookup_insert_eq. split; [done|]. congruence.
    + exists t. by rewrite lookup_insert_ne.
Qed.

(** Setting a node object, on an existing node or a new one. *)
Lemma pods_inv_node inf ps x n n' :
  pods_inv inf ps →
  (inf !! x = Some n ∨ (inf !! x = None ∧ node_pods n = [])) →
  node_pods n' = node_pods n → ni_wf lsci overhead n' → (node n' = None → Pods n' ≠ []) →
  pods_inv (<[x := n']> inf) ps.
Proof.
  intros Hinv Hn Hpods Hwf Hg. split; [apply Hinv|..].
  - intros k s Hs. destruct (pi_node _ _ Hinv k s Hs) as (m & p & Hm & Hp & Hpk & Hps).
    destruct (decide (pod_NodeName (ps_pod s) = x)) as [Hx|Hx].
    + exists n', p. rewrite Hx in Hm |- *. rewrite lookup_insert_eq, Hpods.
      destruct Hn as [Hn|[Hn _]]; [|congruence]. by simplify_eq.
    + exists m, p. by rewrite lookup_insert_ne.
  - intros y m p [[<- <-]|[_ Hm]]%lookup_insert_Some Hp; [|by eapply pi_back].
    rewrite Hpods in Hp. destruct Hn as [Hn|[_ Hnil]]; [by eapply pi_back|].
    rewrite Hnil in Hp. by apply not_elem_of_nil in Hp.
  - intros y m [[<- <-]|[_ Hm]]%lookup_insert_Some; [|by eapply pi_nodup].
    rewrite Hpods. destruct Hn as [Hn|[_ ->]]; [by eapply pi_nodup|constructor].
  - intros y m [[<- <-]|[_ Hm]]%lookup_insert_Some; [done|by eapply pi_wf].
  - intros y m [[<- <-]|[_ Hm]]%lookup_insert_Some; [done|by eapply pi_ghost].
Qed.

Lemma pods_inv_drop inf ps x n :
  pods_inv inf ps → inf !! x = Some n → Pods n = [] → pods_inv (delete x inf) ps.
Proof.
  intros Hinv Hn Hnil. split; [apply Hinv|..].
  - intros k s Hs. destruct (pi_node _ _ Hinv k s Hs) as (m & p & Hm & Hp & Hpk & Hps).
    exists m, p. rewrite lookup_delete_ne; [done|]. intros ->. rewrite Hn in Hm. simplify_eq.
    unfold node_pods in Hp. rewrite Hnil in Hp. by apply not_elem_of_nil in Hp.
  - intros y m p [_ Hm]%lookup_delete_Some Hp. by eapply pi_back.
  - intros y m [_ Hm]%lookup_delete_Some. by eapply pi_nodup.
  - intros y m [_ Hm]%lookup_delete_Some. by eapply pi_wf.
  - intros y m [_ Hm]%lookup_delete_Some. by eapply pi_ghost.
Qed.
(** ** The node tree *)

(** The node objects of the cache. *)
Definition live (inf : gmap string NodeInfo) (x : string) : option Node := inf !! x ≫= node.

(** The tree holds the names of the nodes with a node object, in their zones. *)
Record tree_inv (inf : gmap string NodeInfo) (t : nodeTree) : Prop := {
  ti_wf : nt_wf t;
  ti_live x nd : live inf x = Some nd → node_Name nd = x ∧ nt_has t (GetZoneKey nd) x;
  ti_tree z x : nt_has t z x → ∃ nd, live inf x = Some nd ∧ GetZoneKey nd = z;
}.

Lemma tree_inv_ext inf inf' t :
  (∀ x, live inf' x = live inf x) → tree_inv inf t → tree_inv inf' t.
Proof.
  intros Hext [H1 H2 H3]. split; [done|..].
  - intros x nd. rewrite Hext. apply H2.
  - intros z x. setoid_rewrite Hext. apply H3.
Qed.

Lemma live_insert inf x n y :
  live (<[x := n]> inf) y = if decide (y = x) then node n else live inf y.
Proof.
  unfold live. case_decide as Hy; [subst; by rewrite lookup_insert_eq|by rewrite lookup_insert_ne].
Qed.

Lemma live_put_info inf x n n' y :
  inf !! x = Some n → node n' = node n → live (put_info inf x n') y = live inf y.
Proof.
  intros Hn Hnode. destruct (decide (y = x)) as [->|Hy]; [|unfold live; by rewrite put_info_ne].
  unfold put_info. destruct (_ && _) eqn:Hb.
  - apply andb_true_iff in Hb as [_ Hb%bool_decide_eq_true]. unfold live.
    rewrite lookup_delete_eq, Hn. simpl. congruence.
  - rewrite live_insert, decide_True by done. unfold live. by rewrite Hn.
Qed.

Lemma tree_inv_add inf t nd n :
  tree_inv inf t → live inf (node_Name nd) = None → node n = Some nd →
  tree_inv (<[node_Name nd := n]> inf) (addNode t nd).
Proof.
  intros [H1 H2 H3] Hnone Hn. destruct (addNode_spec t nd H1) as (Hwf & Hhas & _). split; [done|..].
  - intros x nd'. rewrite live_insert, Hn. case_decide as Hx.
    + intros [= <-]. split; [done|]. rewrite Hhas. auto.
    + intros Hl. destruct (H2 x nd' Hl). split; [done|]. rewrite Hhas. auto.
  - intros z x [Hx|[-> ->]]%Hhas.
    + destruct (H3 z x Hx) as (nd' & Hl & Hz). exists nd'. split; [|done]. rewrite live_insert.
      rewrite decide_False; [done|]. intros ->. congruence.
    + exists nd. by rewrite live_insert, decide_True.
Qed.

Lemma tree_inv_update inf t old nd n t' :
  tree_inv inf t → live inf (node_Name nd) = Some old → node n = Some nd →
  updateNode t (Some old) nd = Ret t' → tree_inv (<[node_Name nd := n]> inf) t'.
Proof.
  intros [H1 H2 H3] Hold Hn Hup. destruct (H2 _ _ Hold) as [Hname Hhas0].
  destruct (updateNode_spec t nd old H1 Hname Hhas0) as (t1 & Ht1 & Hwf & Hhas).
  rewrite Hup in Ht1. simplify_eq. split; [done|..].
  - intros x nd'. rewrite live_insert, Hn, Hhas. case_decide as Hx; [naive_solver|].
    intros Hl. destruct (H2 x nd' Hl). naive_solver.
  - intros z x [[Hx Hne]|[-> ->]]%Hhas; [|exists nd; by rewrite live_insert, decide_True].
    destruct (H3 z x Hx) as (nd' & Hl & Hz). exists nd'. split; [|done]. rewrite live_insert.
    rewrite decide_False; [done|]. intros ->. simplify_eq. by destruct Hne.
Qed.

Lemma tree_inv_remove inf inf' t nd :
  tree_inv inf t → live inf (node_Name nd) = Some nd →
  (∀ y, live inf' y = if decide (y = node_Name nd) then None else live inf y) →
  ∃ t', removeNode t nd = (t', true) ∧ tree_inv inf' t'.
Proof.
  intros [H1 H2 H3] Hl Hl'. destruct (H2 _ _ Hl) as [_ Hhas0].
  pose proof (removeNode_spec t nd H1) as HR. destruct (removeNode t nd) as [t' []]; [|naive_solver].
  destruct HR as (_ & Hwf & Hhas & _). exists t'. split; [done|]. split; [done|..].
  - intros x nd'. rewrite Hl', Hhas. case_decide; [done|]. intros Hx. destruct (H2 x nd' Hx). naive_solver.
  - intros z x [Hx Hne]%Hhas. destruct (H3 z x Hx) as (nd' & Hx' & Hz). exists nd'. split; [|done].
    rewrite Hl', decide_False; [done|]. intros ->. simplify_eq. by destruct Hne.
Qed.
(** ** Nodes *)

Local Abbreviation set_node := (set_node lsci).

(** Everything but the links, the nodes and the counter is kept. *)
Lemma dll_ext c c' l : nodes c' = nodes c → headNode c' = headNode c → dll c l → dll c' l.
Proof.
  intros Hn Hh [[H1 H2 H3] H4]. split; [split; congruence|]. by rewrite Hn.
Qed.

(** The images and the node object are set on the node at the head. *)
Lemma set_node_spec c c1 l nd n0 :
  struct_inv c l → dll c1 (node_Name nd :: filter (λ y, y ≠ node_Name nd) l) →
  infos c1 = <[node_Name nd := n0]> (infos c) →
  0 ≤ generation c → generation c ≤ generation c1 < max_int64 →
  let c' := set_node (addNodeImageStates c1 nd) nd in
  ∃ ni', infos c' = <[node_Name nd := ni']> (infos c) ∧
    struct_inv c' (node_Name nd :: filter (λ y, y ≠ node_Name nd) l) ∧ evolves c c' ∧
    node ni' = Some nd ∧ node_pods ni' = node_pods n0 ∧
    (ni_wf lsci overhead n0 → ni_wf lsci overhead ni') ∧
    generation c' = generation c1 + 1 ∧ assumedPods c' = assumedPods c1 ∧
    podStates c' = podStates c1 ∧ ctree c' = ctree c1.
Proof.
  intros Hsi Hd Hinf H0 Hg. unfold addNodeImageStates. set (name := node_Name nd) in *.
  set (l1 := name :: filter (λ y, y ≠ name) l) in *.
  destruct (foldl _ _ _) as [images newSum].
  assert (infos c1 !! name = Some n0) as (it & Hit & Hinfo)%infos_lookup
    by (rewrite Hinf; apply lookup_insert_eq).
  simpl nodes. rewrite Hit, Hinfo.
  set (c2 := set_images c1 images). assert (dll c2 l1) as Hd2 by (by apply (dll_ext c1)).
  destruct (set_info_spec c2 l1 name (set_ImageStates n0 newSum, generation c2) Hd2) as (Hd3 & Hinf3 & _).
  set (c3 := set_info c2 name _) in *.
  assert (infos c2 = infos c1) as Hi2 by done. rewrite Hi2, Hinf in Hinf3. simpl in Hinf3.
  rewrite alter_insert_eq in Hinf3.
  assert (infos c3 !! name = Some (set_ImageStates n0 newSum)) as (it3 & Hit3 & Hinfo3)%infos_lookup
    by (rewrite Hinf3; apply lookup_insert_eq).
  unfold SchedCache.set_node. fold name. rewrite Hit3, Hinfo3.
  destruct (set_info_spec c3 l1 name
    (NodeInfo.SetNode lsci (set_ImageStates n0 newSum) nd (generation c3)) Hd3) as (Hd4 & Hinf4 & Hg4).
  set (c4 := set_info c3 name _) in *. rewrite Hinf3, alter_insert_eq in Hinf4.
  assert (generation c3 = generation c1) as Hg3 by done.
  cbn [fst snd NodeInfo.SetNode] in Hinf4, Hg4. rewrite Hg3, nextGeneration_succ in Hinf4, Hg4 by lia.
  destruct (touch_inv c c4 l name _ Hsi Hd4 Hinf4) as [Hsi' Hev]; [simpl; lia|by rewrite Hg4|].
  eexists. split; [exact Hinf4|]. split_and!; try done.
  intros []. by split.
Qed.

Lemma AddNode_spec c l nd :
  struct_inv c l → 0 ≤ generation c → generation c + 2 ≤ max_int64 →
  live (infos c) (node_Name nd) = None →
  let c' := AddNode lsci overhead c nd in
  ∃ ni' l', infos c' = <[node_Name nd := ni']> (infos c) ∧ struct_inv c' l' ∧ evolves c c' ∧
    node ni' = Some nd ∧ node_pods ni' = node_pods (info_or_new c (node_Name nd)) ∧
    (ni_wf lsci overhead (info_or_new c (node_Name nd)) → ni_wf lsci overhead ni') ∧
    generation c' ≤ generation c + 2 ∧ assumedPods c' = assumedPods c ∧
    podStates c' = podStates c ∧ ctree c' = addNode (ctree c) nd.
Proof.
  intros Hsi H0 Hg Hlive. unfold AddNode. set (name := node_Name nd) in *.
  assert (match nodes c !! name with
          | None => ensure_node c name
          | Some n => removeNodeImageStates c (node (info n))
          end = ensure_node c name) as ->.
  { unfold SchedCache.ensure_node. destruct (nodes c !! name) as [it|] eqn:Hit; [|done].
    unfold live, infos in Hlive. rewrite lookup_fmap, Hit in Hlive. simpl in Hlive. by rewrite Hlive. }
  destruct (ensure_linkable c l name (si_dll _ _ Hsi)) as (Hl & Hinf & Hg1 & Ha & Hp & Ht & Hi); [lia|].
  destruct (move_linkable _ l name Hl) as (Hd & Hinf2 & Hr1 & Hr2 & Hr3 & Hr4 & Hr5).
  set (c1 := moveNodeInfoToHead (ensure_node c name) name) in *.
  destruct (set_node_spec c (set_tree c1 (addNode (ctree c1) nd)) l nd (info_or_new c name))
    as (ni' & H1 & H2 & H3 & H4 & H5 & H6 & H7 & H8 & H9 & H10); try done.
  - by apply (dll_ext c1).
  - transitivity (infos (ensure_node c name)); [exact Hinf2|exact Hinf].
  - cbn [set_tree generation]. lia.
  - cbn [set_tree generation assumedPods podStates ctree] in *. eexists ni', _.
    split_and!; try done; [lia|congruence|congruence|]. by rewrite H10, Hr3, Ht.
Qed.

Lemma UpdateNode_spec c l old nd :
  struct_inv c l → 0 ≤ generation c < max_int64 → tree_inv (infos c) (ctree c) →
  live (infos c) (node_Name nd) = Some old →
  ∃ c' n ni' l' t, UpdateNode lsci overhead c old nd = Ret c' ∧ infos c !! node_Name nd = Some n ∧
    infos c' = <[node_Name nd := ni']> (infos c) ∧ struct_inv c' l' ∧ evolves c c' ∧
    node ni' = Some nd ∧ node_pods ni' = node_pods n ∧
    (ni_wf lsci overhead n → ni_wf lsci overhead ni') ∧ generation c' ≤ generation c + 1 ∧
    assumedPods c' = assumedPods c ∧ podStates c' = podStates c ∧
    updateNode (ctree c) (Some old) nd = Ret t ∧ ctree c' = t.
Proof.
  intros Hsi Hg Hti Hlive. unfold UpdateNode. set (name := node_Name nd) in *.
  unfold live in Hlive. destruct (infos c !! name) as [n|] eqn:Hn; [|done]. simpl in Hlive.
  pose proof Hn as (it & Hit & Hinfo)%infos_lookup. rewrite Hit, Hinfo, Hlive.
  pose proof (si_dll _ _ Hsi) as Hd. assert (name ∈ l) as Hin by (apply (infos_dom c l name Hd); by rewrite Hn).
  set (c1 := removeNodeImageStates c (Some old)). assert (dll c1 l) as Hd1 by (by apply (dll_ext c)).
  destruct (move_spec c1 l name Hd1 Hin) as (Hd2 & Hinf2 & Hr1 & Hr2 & Hr3 & Hr4 & Hr5).
  set (c2 := moveNodeInfoToHead c1 name) in *. change (infos c1) with (infos c) in Hinf2.
  change (ctree c1) with (ctree c) in Hr3. change (generation c1) with (generation c) in Hr5.
  destruct (ti_live _ _ Hti name old) as [Hname Hhas]; [unfold live; by rewrite Hn|].
  destruct (updateNode_spec (ctree c) nd old (ti_wf _ _ Hti) Hname Hhas) as (t & Ht & _). rewrite Hr3, Ht.
  destruct (set_node_spec c (set_tree c2 t) l nd n)
    as (ni' & H1 & H2 & H3 & H4 & H5 & H6 & H7 & H8 & H9 & H10); try done.
  - by apply (dll_ext c2).
  - change (infos (set_tree c2 _)) with (infos c2). rewrite Hinf2, insert_id; done.
  - lia.
  - cbn [set_tree generation]. lia.
  - cbn [set_tree generation assumedPods podStates ctree] in *. eexists _, n, ni', _, t.
    split_and!; try done; [lia|by rewrite H8, Hr1|by rewrite H9, Hr2].
Qed.
Lemma RemoveNode_spec c l nd n :
  struct_inv c l → 0 ≤ generation c < max_int64 → tree_inv (infos c) (ctree c) →
  infos c !! node_Name nd = Some n → node n = Some nd →
  ∃ c' l', RemoveNode c nd = (c', true) ∧
    infos c' = put_info (infos c) (node_Name nd) (NodeInfo.RemoveNode n (generation c)).1 ∧
    struct_inv c' l' ∧ evolves c c' ∧ generation c' = generation c + 1 ∧
    assumedPods c' = assumedPods c ∧ podStates c' = podStates c ∧ tree_inv (infos c') (ctree c').
Proof.
  intros Hsi Hg Hti Hn Hnode. unfold RemoveNode. set (name := node_Name nd) in *.
  pose proof Hn as (it & Hit & Hinfo)%infos_lookup. rewrite Hit, Hinfo.
  pose proof (si_dll _ _ Hsi) as Hd. assert (name ∈ l) as Hin by (apply (infos_dom c l name Hd); by rewrite Hn).
  set (r := NodeInfo.RemoveNode n (generation c)).
  destruct (set_info_spec c l name r Hd) as (Hd1 & Hinf1 & Hg1).
  assert (r.2 = generation c + 1 ∧ Generation r.1 = r.2) as [Hr2 Hr1].
  { unfold r, NodeInfo.RemoveNode. simpl. split; [|done]. apply nextGeneration_succ. lia. }
  assert (alter (λ _, r.1) name (infos c) = <[name := r.1]> (infos c)) as Halt.
  { apply map_eq. intros x. destruct (decide (name = x)) as [->|Hnx].
    - by rewrite lookup_alter_eq, lookup_insert_eq, Hn.
    - by rewrite lookup_alter_ne, lookup_insert_ne. }
  rewrite Halt in Hinf1.
  assert (∃ c2 l2, (if (length (Pods n) =? 0)%nat then removeNodeInfoFromList (set_info c name r) name
     else moveNodeInfoToHead (set_info c name r) name) = c2 ∧ infos c2 = put_info (infos c) name r.1 ∧
     struct_inv c2 l2 ∧ evolves c c2 ∧ same_rest (set_info c name r) c2)
    as (c2 & l2 & -> & Hinf2 & Hsi2 & Hev & Hrest).
  { unfold put_info. change (Pods r.1) with (Pods n). change (node r.1) with (@None Node).
    rewrite bool_decide_true, andb_true_r by done. destruct (length (Pods n) =? 0)%nat.
    - destruct (remove_list_spec _ l name Hd1 Hin) as (Hd2 & Hinf2 & Hrest).
      rewrite Hinf1, delete_insert_eq in Hinf2. pose proof Hrest as (_ & _ & _ & _ & Hg2).
      destruct (drop_inv c _ l name Hsi Hd2 Hinf2); [rewrite Hg2, Hg1; lia|]. by eexists _, _.
    - destruct (move_spec _ l name Hd1 Hin) as (Hd2 & Hinf2 & Hrest).
      rewrite Hinf1 in Hinf2. pose proof Hrest as (_ & _ & _ & _ & Hg2).
      destruct (touch_inv c _ l name r.1 Hsi Hd2 Hinf2); [lia|by rewrite Hg2, Hg1|]. by eexists _, _. }
  destruct Hrest as (Ha & Hp & Ht & Hi & Hg2). rewrite Ht. change (ctree (set_info c name r)) with (ctree c).
  destruct (tree_inv_remove (infos c) (infos c2) (ctree c) nd Hti) as (t' & -> & Hti').
  { unfold live. fold name. by rewrite Hn. }
  { intros y. rewrite Hinf2. case_decide as Hy; [|unfold live; by rewrite put_info_ne].
    unfold put_info, live. case_match; [by rewrite Hy, lookup_delete_eq|by rewrite Hy, lookup_insert_eq]. }
  set (c3 := removeNodeImageStates (set_tree c2 t') (Some nd)).
  exists c3, l2. split_and!; try done.
  - destruct Hsi2 as [H1 H2 H3]. split; [by apply (dll_ext c2)|done|done].
  - change (generation c3) with (generation c2). by rewrite Hg2, Hg1.
Qed.
End CacheOps.
