(* ===== verification/CacheEvents.v ===== *)
(** * Histories of the scheduler cache

    The events the scheduler's informers, its binding goroutines and its
    clean-up loop send to the cache of [SchedCache], the invariant of the cache
    along histories of them, and the state machine of a pod that
    [pkg/scheduler/internal/cache/interface.go] documents, which the cache
    refines. *)

From S2P Require Import Prelude ApiTypes NodeInfo NodeTree SchedCache.
#[local] Open Scope Z_scope.

(** ** Images *)

Definition has_image (im : gmap string imageState) (name x : string) : Prop :=
  ∃ st, im !! name = Some st ∧ x ∈ img_nodes st.

Definition img_used (im : gmap string imageState) : Prop :=
  ∀ name st, im !! name = Some st → img_nodes st ≠ ∅.

(** An image state lists exactly the nodes whose object has the image, and an
    image of no node has no state. *)
Record img_inv (inf : gmap string NodeInfo) (im : gmap string imageState) : Prop := {
  im_used : img_used im;
  im_nodes name x : has_image im name x ↔ ∃ nd, live inf x = Some nd ∧ name ∈ (image_names nd).*1;
}.

Lemma addImage_has x s image name y :
  has_image (addImage x s image).1 name y ↔ has_image s.1 name y ∨ (y = x ∧ name = image.1).
Proof.
  destruct s as [im sum], image as [i sz]. unfold has_image. simpl.
  destruct (decide (i = name)) as [->|Hi].
  - rewrite lookup_insert_eq. destruct (im !! name) as [st|]; split.
    + intros (? & [= <-] & Hy). simpl in Hy. set_solver.
    + intros [(? & [= <-] & Hy)|[-> _]]; (eexists; split; [done|]; simpl; set_solver).
    + intros (? & [= <-] & Hy). simpl in Hy. set_solver.
    + intros [(? & ? & _)|[-> _]]; [done|]. eexists; split; [done|]; simpl; set_solver.
  - rewrite lookup_insert_ne by done. naive_solver.
Qed.

Lemma addImage_used x s image : img_used s.1 → img_used (addImage x s image).1.
Proof.
  destruct s as [im sum], image as [i sz]. simpl. intros H name st [[_ <-]|[_ Hst]]%lookup_insert_Some.
  - destruct (im !! i); simpl; set_solver.
  - by apply (H name).
Qed.

Lemma addImages x images s :
  (∀ name y, has_image (foldl (addImage x) s images).1 name y ↔
     has_image s.1 name y ∨ (y = x ∧ name ∈ images.*1)) ∧
  (img_used s.1 → img_used (foldl (addImage x) s images).1).
Proof.
  revert s. induction images as [|image images IH]; intros s; cbn [foldl fmap list_fmap].
  - split; [|done]. intros name y. rewrite elem_of_nil. tauto.
  - destruct (IH (addImage x s image)) as [H1 H2]. split.
    + intros name y. rewrite H1, addImage_has, elem_of_cons. tauto.
    + intros H. by apply H2, addImage_used.
Qed.

Lemma removeImage_has x im image name y :
  has_image (removeImage x im image) name y ↔ has_image im name y ∧ ¬ (y = x ∧ name = image.1).
Proof.
  destruct image as [i sz]. unfold removeImage, has_image. simpl.
  destruct (im !! i) as [st|] eqn:Hi; [|naive_solver].
  destruct (Nat.eqb_spec (size (img_nodes st ∖ {[x]})) 0) as [H0|H0].
  - apply size_empty_inv in H0. destruct (decide (i = name)) as [->|Hn].
    + rewrite lookup_delete_eq. split; [naive_solver|]. intros [(st' & Hst & Hy) Hne].
      rewrite Hi in Hst. simplify_eq. assert (y ≠ x) by tauto. set_solver.
    + rewrite lookup_delete_ne by done. naive_solver.
  - destruct (decide (i = name)) as [->|Hn].
    + rewrite lookup_insert_eq, Hi. split.
      * intros (? & [= <-] & Hy). simpl in Hy. split; [exists st; set_solver|set_solver].
      * intros [(? & [= <-] & Hy) Hne]. eexists. split; [done|]. simpl. assert (y ≠ x) by tauto. set_solver.
    + rewrite lookup_insert_ne by done. naive_solver.
Qed.

Lemma removeImage_used x im image : img_used im → img_used (removeImage x im image).
Proof.
  destruct image as [i sz]. unfold removeImage. simpl. intros H. destruct (im !! i) as [st|]; [|done].
  destruct (Nat.eqb_spec (size (img_nodes st ∖ {[x]})) 0) as [H0|H0]; intros name st' Hst.
  - apply lookup_delete_Some in Hst as [_ Hst]. by apply (H name).
  - apply lookup_insert_Some in Hst as [[_ <-]|[_ Hst]]; [|by apply (H name)].
    simpl. intros He. rewrite He, size_empty in H0. done.
Qed.

Lemma removeImages x images im :
  (∀ name y, has_image (foldl (removeImage x) im images) name y ↔
     has_image im name y ∧ ¬ (y = x ∧ name ∈ images.*1)) ∧
  (img_used im → img_used (foldl (removeImage x) im images)).
Proof.
  revert im. induction images as [|image images IH]; intros im; cbn [foldl fmap list_fmap].
  - split; [|done]. intros name y. rewrite elem_of_nil. tauto.
  - destruct (IH (removeImage x im image)) as [H1 H2]. split.
    + intros name y. rewrite H1, removeImage_has, elem_of_cons. tauto.
    + intros H. by apply H2, removeImage_used.
Qed.

Lemma move_images c x : imageStates (moveNodeInfoToHead c x) = imageStates c.
Proof. unfold moveNodeInfoToHead. destruct (nodes c !! x); [|done]. by case_decide. Qed.

Lemma add_images c nd :
  imageStates (addNodeImageStates c nd) =
  (foldl (addImage (node_Name nd)) (imageStates c, ∅) (image_names nd)).1.
Proof. unfold addNodeImageStates. destruct (foldl _ _ _). by case_match. Qed.

Lemma set_node_images lsci c nd : imageStates (set_node lsci c nd) = imageStates c.
Proof. unfold set_node. by case_match. Qed.

Lemma img_inv_ext inf inf' im :
  (∀ x, live inf' x = live inf x) → img_inv inf im → img_inv inf' im.
Proof.
  intros Hext [H1 H2]. split; [done|]. intros name x. rewrite H2. by setoid_rewrite Hext.
Qed.

(** The object of a node is replaced, or set, or removed. *)
Lemma img_inv_remove inf im x nd :
  img_inv inf im → live inf x = Some nd → node_Name nd = x →
  img_used (foldl (removeImage (node_Name nd)) im (image_names nd)) ∧
  ∀ name y, has_image (foldl (removeImage (node_Name nd)) im (image_names nd)) name y ↔
    y ≠ x ∧ ∃ nd', live inf y = Some nd' ∧ name ∈ (image_names nd').*1.
Proof.
  intros [H1 H2] Hl Hx. destruct (removeImages (node_Name nd) (image_names nd) im) as [H3 H4].
  split; [auto|]. intros name y. rewrite H3, H2, Hx. naive_solver.
Qed.

Lemma img_inv_add inf im nd inf' :
  img_used im →
  (∀ name y, has_image im name y ↔
     y ≠ node_Name nd ∧ ∃ nd', live inf y = Some nd' ∧ name ∈ (image_names nd').*1) →
  (∀ y, live inf' y = if decide (y = node_Name nd) then Some nd else live inf y) →
  img_inv inf' (foldl (addImage (node_Name nd)) (im, ∅) (image_names nd)).1.
Proof.
  intros Hu Hh Hl. destruct (addImages (node_Name nd) (image_names nd) (im, ∅)) as [H3 H4].
  split; [auto|]. intros name y. rewrite H3, Hl. simpl. rewrite Hh. case_decide; naive_solver.
Qed.

(** ** The invariant *)

Section Events.
Context (lsci overhead : bool) (ttl : Z).
Local Abbreviation addPod := (addPod lsci overhead).
Local Abbreviation removePod := (removePod lsci overhead).
Local Abbreviation pods_inv := (pods_inv lsci overhead).

(** The nodes hold the pods of [ps]. *)
Definition core (c : schedulerCache) (ps : gmap string podState) : Prop :=
  (∃ l, struct_inv c l) ∧ pods_inv (infos c) ps ∧ tree_inv (infos c) (ctree c) ∧
  img_inv (infos c) (imageStates c) ∧ 0 ≤ generation c.

(** An assumed pod has a state, with a deadline once its binding is finished. *)
Definition assumed_inv (a : gset string) (ps : gmap string podState) : Prop :=
  ∀ k, k ∈ a → ∃ s, ps !! k = Some s ∧ (bindingFinished s = true → is_Some (deadline s)).

Definition cache_inv (c : schedulerCache) : Prop :=
  core c (podStates c) ∧ assumed_inv (assumedPods c) (podStates c).

(** A step of at most [d] generations that leaves the pod states and the
    node objects alone, and one that changes the object of the node [x] to [v]. *)
Definition moves (d : Z) (c c' : schedulerCache) : Prop :=
  evolves c c' ∧ generation c' ≤ generation c + d ∧ assumedPods c' = assumedPods c ∧
  podStates c' = podStates c ∧ ∀ y, live (infos c') y = live (infos c) y.

Definition moves_node (d : Z) (x : string) (v : option Node) (c c' : schedulerCache) : Prop :=
  evolves c c' ∧ generation c' ≤ generation c + d ∧ assumedPods c' = assumedPods c ∧
  podStates c' = podStates c ∧
  ∀ y, live (infos c') y = if decide (y = x) then v else live (infos c) y.

Lemma moves_trans d1 d2 c1 c2 c3 : moves d1 c1 c2 → moves d2 c2 c3 → moves (d1 + d2) c1 c3.
Proof.
  intros (E1 & G1 & A1 & P1 & L1) (E2 & G2 & A2 & P2 & L2).
  split_and!; [by etrans|lia|congruence|congruence|]. intros y. by rewrite L2.
Qed.

Lemma core_pods c a ps ps' : core c ps' → core (set_pods c a ps) ps'.
Proof. intros ([l [H1 H2 H3]] & H). split; [|done]. exists l. split; [by apply (dll_ext c)|done|done]. Qed.

Lemma core_remove c ps k s pod :
  core c ps → ps !! k = Some s → pod_UID pod = k → same_spec pod (ps_pod s) →
  pod_NodeName pod = pod_NodeName (ps_pod s) → generation c < max_int64 →
  ∃ c', removePod c pod = Ret (c', true) ∧ core c' (delete k ps) ∧ moves 1 c c'.
Proof.
  intros ([l Hsi] & Hpi & Hti & Him & H0) Hs Hk Hspec Hx Hg.
  destruct (pods_inv_agrees lsci overhead _ _ k s pod Hpi Hs Hk Hspec) as (n & Hn & Hag & Hin & Hne).
  destruct (removePod_spec lsci overhead c l pod n Hsi) as
    (c' & ni' & p & l' & Hr & Hwf & Hp & Hpu & Hnode & Hinf & Hsi' & Hev & Hg' & Ha & Hps & Ht & Hi);
    [lia|by rewrite Hx|by eapply pi_wf|done..|].
  rewrite Hx in Hinf. assert (∀ y, live (infos c') y = live (infos c) y) as Hlive.
  { intros y. rewrite Hinf. by eapply live_put_info. }
  exists c'. split; [done|]. split; [|done]. split_and!.
  - by exists l'.
  - rewrite Hinf. eapply pods_inv_remove; try done. congruence.
  - rewrite Ht. by eapply tree_inv_ext.
  - rewrite Hi. by eapply img_inv_ext.
  - destruct Hev. lia.
Qed.

Lemma info_or_new_spec c ps x :
  pods_inv (infos c) ps →
  (infos c !! x = Some (info_or_new lsci overhead c x) ∨
    infos c !! x = None ∧ node_pods (info_or_new lsci overhead c x) = []) ∧
  ni_wf lsci overhead (info_or_new lsci overhead c x) ∧
  node (info_or_new lsci overhead c x) = live (infos c) x.
Proof.
  intros Hpi. unfold info_or_new, live. destruct (infos c !! x) as [n|] eqn:Hn; simpl.
  - split_and!; [auto| |done]. by eapply pi_wf.
  - split_and!; [by right| |done]. apply (empty_wf lsci overhead (generation c)).
Qed.

Lemma core_add c ps s pod :
  core c ps → ps !! pod_UID pod = None → pod_UID pod ≠ EmptyString → ps_pod s = pod →
  generation c + 2 ≤ max_int64 →
  core (addPod c pod) (<[pod_UID pod := s]> ps) ∧ moves 2 c (addPod c pod).
Proof.
  intros ([l Hsi] & Hpi & Hti & Him & H0) Hnone Hne Hs Hg.
  destruct (addPod_spec lsci overhead c l pod Hsi H0 Hg) as
    (g & ni' & Hadd & Hinf & Hsi' & Hev & Hg' & Ha & Hps & Ht & Hi).
  destruct (info_or_new_spec c ps (pod_NodeName pod) Hpi) as (Hn & Hwf & Hnode).
  set (n := info_or_new lsci overhead c (pod_NodeName pod)) in *.
  assert (node_pods ni' = node_pods n ++ [pod] ∧ node ni' = node n ∧ ni_wf lsci overhead ni')
    as (Hpods & Hnode' & Hwf').
  { assert (ni' = (NodeInfo.AddPod lsci overhead n pod g).1) as -> by (by rewrite <- Hadd).
    split_and!; [..|by apply AddPodInfo_wf]; unfold NodeInfo.AddPod, NodeInfo.AddPodInfo;
      destruct (calculateResource _ _ _) as [[? ?] ?]; [|done].
    unfold node_pods. simpl. by rewrite fmap_app. }
  assert (∀ y, live (infos (addPod c pod)) y = live (infos c) y) as Hlive.
  { intros y. rewrite Hinf, live_insert. case_decide; subst; [congruence|done]. }
  split; [|done]. split_and!.
  - eauto.
  - rewrite Hinf. by eapply pods_inv_add.
  - rewrite Ht. by eapply tree_inv_ext.
  - rewrite Hi. by eapply img_inv_ext.
  - destruct Hev. lia.
Qed.

(** The node events, on coherent objects. *)
Lemma core_AddNode c ps nd :
  core c ps → live (infos c) (node_Name nd) = None → generation c + 2 ≤ max_int64 →
  core (AddNode lsci overhead c nd) ps ∧ moves_node 2 (node_Name nd) (Some nd) c (AddNode lsci overhead c nd).
Proof.
  intros ([l Hsi] & Hpi & Hti & Him & H0) Hl Hg.
  destruct (AddNode_spec lsci overhead c l nd Hsi H0 Hg Hl) as
    (ni' & l' & Hinf & Hsi' & Hev & Hnode & Hpods & Hwf & Hg' & Ha & Hps & Ht).
  destruct (info_or_new_spec c ps (node_Name nd) Hpi) as (Hn & Hwf0 & _).
  split; [|by split_and!; [..|intros y; rewrite Hinf, live_insert, Hnode]]. split_and!.
  - by exists l'.
  - rewrite Hinf. eapply pods_inv_node; eauto. by rewrite Hnode.
  - rewrite Hinf, Ht. by eapply tree_inv_add.
  - rewrite Hinf. unfold AddNode. rewrite set_node_images, add_images. simpl. rewrite move_images.
    assert (imageStates match nodes c !! node_Name nd with
      | Some n => removeNodeImageStates c (node (info n))
      | None => ensure_node lsci overhead c (node_Name nd) end = imageStates c) as ->.
    { unfold ensure_node. destruct (nodes c !! node_Name nd) as [it|] eqn:Hit; [|done].
      unfold live, infos in Hl. rewrite lookup_fmap, Hit in Hl. simpl in Hl. by rewrite Hl. }
    eapply img_inv_add; [apply Him| |intros y; by rewrite live_insert, Hnode].
    intros name y. rewrite (im_nodes _ _ Him). naive_solver.
  - destruct Hev. lia.
Qed.

Lemma core_UpdateNode c ps old nd :
  core c ps → live (infos c) (node_Name nd) = Some old → generation c < max_int64 →
  ∃ c', UpdateNode lsci overhead c old nd = Ret c' ∧ core c' ps ∧ moves_node 1 (node_Name nd) (Some nd) c c'.
Proof.
  intros ([l Hsi] & Hpi & Hti & Him & H0) Hl Hg.
  destruct (UpdateNode_spec lsci overhead c l old nd Hsi) as
    (c' & n & ni' & l' & t & Hup & Hn & Hinf & Hsi' & Hev & Hnode & Hpods & Hwf & Hg' & Ha & Hps & Ht & Ht');
    [lia|done..|].
  exists c'. split; [done|]. split; [|by split_and!; [..|intros y; rewrite Hinf, live_insert, Hnode]]. split_and!.
  - by exists l'.
  - rewrite Hinf. eapply pods_inv_node; eauto; [by eapply Hwf, pi_wf|by rewrite Hnode].
  - rewrite Hinf, Ht'. by eapply tree_inv_update.
  - rewrite Hinf. unfold live in Hl. rewrite Hn in Hl. simpl in Hl.
    pose proof Hn as (it & Hit & Hinfo)%infos_lookup.
    revert Hup. unfold UpdateNode. rewrite Hit, Hinfo, Hl. case_match; [|done]. intros [= <-].
    rewrite set_node_images, add_images. simpl. rewrite move_images. simpl.
    assert (live (infos c) (node_Name nd) = Some old) as Hl' by (unfold live; by rewrite Hn).
    destruct (img_inv_remove _ _ _ _ Him Hl') as [Hu Hh]; [by apply (ti_live _ _ Hti)|].
    by eapply img_inv_add; [..|intros y; rewrite live_insert, Hnode].
  - destruct Hev. lia.
Qed.

Lemma core_RemoveNode c ps nd :
  core c ps → live (infos c) (node_Name nd) = Some nd → generation c < max_int64 →
  ∃ c', RemoveNode c nd = (c', true) ∧ core c' ps ∧ moves_node 1 (node_Name nd) None c c'.
Proof.
  intros ([l Hsi] & Hpi & Hti & Him & H0) Hl Hg.
  pose proof Hl as Hl'. unfold live in Hl'.
  destruct (infos c !! node_Name nd) as [n|] eqn:Hn; [|done]. simpl in Hl'.
  destruct (RemoveNode_spec c l nd n Hsi) as
    (c' & l' & Hrm & Hinf & Hsi' & Hev & Hg' & Ha & Hps & Hti'); [lia|done..|].
  assert (∀ y, live (infos c') y = if decide (y = node_Name nd) then None else live (infos c) y) as Hlv.
  { intros y. rewrite Hinf. case_decide as Hy; [|unfold live; by rewrite put_info_ne].
    unfold put_info, live. case_match; [by rewrite Hy, lookup_delete_eq|by rewrite Hy, lookup_insert_eq]. }
  exists c'. split; [done|]. split; [|split_and!; [done|lia|done|done|done]]. split_and!.
  - by exists l'.
  - rewrite Hinf. unfold put_info. destruct (_ && _) eqn:Hb.
    + apply andb_true_iff in Hb as [Hb%Nat.eqb_eq _]. simpl in Hb.
      eapply pods_inv_drop; [done..|]. by apply length_zero_iff_nil.
    + eapply pods_inv_node; [done|by left|done|by apply RemoveNode_wf; eapply pi_wf|].
      intros _ Hnil. cbn [NodeInfo.RemoveNode fst Pods node] in Hnil, Hb. by rewrite Hnil in Hb.
  - done.
  - destruct (img_inv_remove _ _ _ _ Him Hl eq_refl) as [Hu Hh].
    assert (imageStates c' = foldl (removeImage (node_Name nd)) (imageStates c) (image_names nd)) as ->.
    { revert Hrm. unfold RemoveNode. pose proof Hn as (it & Hit & _)%infos_lookup. rewrite Hit.
      destruct (removeNode _ _) as [t []]; [|done]. intros [= <-]. simpl. f_equal.
      destruct (length (Pods (info it)) =? 0)%nat; [|by rewrite move_images].
      unfold removeNodeInfoFromList. by case_match. }
    split; [done|]. intros name y. rewrite Hh, Hlv. case_decide; naive_solver.
  - destruct Hev. lia.
Qed.

(** ** Events *)

Inductive event :=
| EvAssume (pod : Pod)
| EvFinish (pod : Pod) (now : Z)
| EvForget (pod : Pod)
| EvAdd (pod : Pod)
| EvUpdate (oldPod newPod : Pod)
| EvRemove (pod : Pod)
| EvCleanup (now : Z) (keys : list string)
| EvAddNode (nd : Node)
| EvUpdateNode (oldNode newNode : Node)
| EvRemoveNode (nd : Node)
| EvTick (n : nat).

(** The counter of the generations is shared: others may call [nextGeneration]. *)
Definition tick (n : nat) (c : schedulerCache) : schedulerCache :=
  mkCache (assumedPods c) (podStates c) (nodes c) (headNode c) (ctree c) (imageStates c)
    (int64 (generation c + Z.of_nat n)).

(** An event runs one operation of the cache; the flag is [true] for a nil
    error.  The keys of [EvCleanup] are in the order the loop meets them. *)
Definition exec (ev : event) (c : schedulerCache) : outcome (schedulerCache * bool) :=
  match ev with
  | EvAssume pod => Ret (AssumePod lsci overhead c pod)
  | EvFinish pod now => Ret (finishBinding ttl c pod now)
  | EvForget pod => ForgetPod lsci overhead c pod
  | EvAdd pod => AddPod lsci overhead c pod
  | EvUpdate oldPod newPod => UpdatePod lsci overhead c oldPod newPod
  | EvRemove pod => RemovePod lsci overhead c pod
  | EvCleanup now keys =>
      match cleanup_keys lsci overhead now c keys with Ret c => Ret (c, true) | Panic => Panic end
  | EvAddNode nd => Ret (AddNode lsci overhead c nd, true)
  | EvUpdateNode oldNode newNode =>
      match UpdateNode lsci overhead c oldNode newNode with Ret c => Ret (c, true) | Panic => Panic end
  | EvRemoveNode nd => Ret (RemoveNode c nd)
  | EvTick n => Ret (tick n c, true)
  end.

(** The versions of a pod share its UID, their spec does not change but for
    the node name, which does not change once the pod is added; the objects of
    a node come in the order add, updates from the last object, remove. *)
Definition coherent (c : schedulerCache) (ev : event) : Prop :=
  match ev with
  | EvAssume _ | EvFinish _ _ | EvTick _ => True
  | EvForget pod | EvAdd pod =>
      ∀ s, podStates c !! pod_UID pod = Some s → same_spec pod (ps_pod s)
  | EvUpdate oldPod newPod =>
      ∀ s, podStates c !! pod_UID oldPod = Some s → pod_UID oldPod ∉ assumedPods c →
        pod_UID newPod = pod_UID oldPod ∧ same_spec oldPod (ps_pod s) ∧
        pod_NodeName oldPod = pod_NodeName (ps_pod s) ∧ pod_NodeName newPod = pod_NodeName (ps_pod s)
  | EvRemove pod =>
      ∀ s, podStates c !! pod_UID pod = Some s → pod_UID pod ∉ assumedPods c →
        pod_NodeName pod = pod_NodeName (ps_pod s)
  | EvCleanup _ keys => keys ≡ₚ elements (assumedPods c)
  | EvAddNode nd => live (infos c) (node_Name nd) = None
  | EvUpdateNode oldNode newNode => live (infos c) (node_Name newNode) = Some oldNode
  | EvRemoveNode nd => live (infos c) (node_Name nd) = Some nd
  end.

(** The counter of the generations is far from its maximum. *)
Definition cost (ev : event) : Z :=
  match ev with EvCleanup _ keys => Z.of_nat (length keys) | EvTick n => Z.of_nat n | _ => 3 end.

Definition headroom (c : schedulerCache) (ev : event) : Prop := generation c + cost ev ≤ max_int64.

(** ** The state machine of a pod *)

Inductive phase :=
| Assumed (expires : option Z)
| Added.

(** The pods that are neither initial, expired nor deleted. *)
Local Abbreviation pod_map := (gmap string (Pod * phase)).

Definition phase_of (a : gset string) (k : string) (s : podState) : phase :=
  if bool_decide (k ∈ a) then Assumed (if bindingFinished s then deadline s else None) else Added.

Definition abs (c : schedulerCache) : pod_map :=
  map_imap (λ k s, Some (ps_pod s, phase_of (assumedPods c) k s)) (podStates c).

Definition expired (now : Z) (v : Pod * phase) : Prop :=
  match v.2 with Assumed (Some d) => d < now | _ => False end.
#[global] Instance expired_dec now v : Decision (expired now v).
Proof. destruct v as [p [[d|]|]]; unfold expired; simpl; apply _. Defined.

(** What an event does to the pods, with the flag for a nil error. *)
Definition spec_step (ev : event) (m : pod_map) : pod_map * bool :=
  match ev with
  | EvAssume pod =>
      match GetPodKey pod with
      | Some k => match m !! k with None => (<[k := (pod, Assumed None)]> m, true) | Some _ => (m, false) end
      | None => (m, false)
      end
  | EvFinish pod now =>
      match GetPodKey pod with
      | Some k =>
          match m !! k with
          | Some (q, Assumed _) => (<[k := (q, Assumed (Some (now + ttl)))]> m, true)
          | _ => (m, true)
          end
      | None => (m, false)
      end
  | EvForget pod =>
      match GetPodKey pod with
      | Some k =>
          match m !! k with
          | Some (q, Assumed _) =>
              if bool_decide (pod_NodeName q = pod_NodeName pod) then (delete k m, true) else (m, false)
          | _ => (m, false)
          end
      | None => (m, false)
      end
  | EvAdd pod =>
      match GetPodKey pod with
      | Some k =>
          match m !! k with
          | Some (_, Added) => (m, false)
          | _ => (<[k := (pod, Added)]> m, true)
          end
      | None => (m, false)
      end
  | EvUpdate oldPod newPod =>
      match GetPodKey oldPod with
      | Some k => match m !! k with Some (_, Added) => (<[k := (newPod, Added)]> m, true) | _ => (m, false) end
      | None => (m, false)
      end
  | EvRemove pod =>
      match GetPodKey pod with
      | Some k => match m !! k with Some (_, Added) => (delete k m, true) | _ => (m, false) end
      | None => (m, false)
      end
  | EvCleanup now _ => (filter (λ kv, ¬ expired now kv.2) m, true)
  | EvAddNode _ | EvUpdateNode _ _ | EvRemoveNode _ | EvTick _ => (m, true)
  end.

(** ** Every event is a step of the state machine and keeps the invariant *)

(** The node objects after an event: a node event sets or clears the object
    of its node, and no other event touches them. *)
Definition nodes_after (ev : event) (m : string → option Node) (y : string) : option Node :=
  match ev with
  | EvAddNode nd | EvUpdateNode _ nd => if decide (y = node_Name nd) then Some nd else m y
  | EvRemoveNode nd => if decide (y = node_Name nd) then None else m y
  | _ => m y
  end.

Definition pod_event (ev : event) : Prop :=
  match ev with EvAddNode _ | EvUpdateNode _ _ | EvRemoveNode _ => False | _ => True end.

Lemma nodes_after_pod ev m y : pod_event ev → nodes_after ev m y = m y.
Proof. by destruct ev. Qed.

Definition good_step (ev : event) (c : schedulerCache) : Prop :=
  ∃ c' ok, exec ev c = Ret (c', ok) ∧ cache_inv c' ∧ spec_step ev (abs c) = (abs c', ok) ∧
    (∀ y, live (infos c') y = nodes_after ev (live (infos c)) y) ∧
    evolves c c' ∧ generation c' ≤ generation c + cost ev.

Lemma abs_lookup c k :
  abs c !! k = (λ s, (ps_pod s, phase_of (assumedPods c) k s)) <$> podStates c !! k.
Proof. unfold abs. rewrite map_lookup_imap. by destruct (podStates c !! k). Qed.

(** The pods after the state of [k] changes. *)
Lemma abs_change c c' k v :
  (∀ k', k' ≠ k → podStates c' !! k' = podStates c !! k' ∧ (k' ∈ assumedPods c' ↔ k' ∈ assumedPods c)) →
  (λ s, (ps_pod s, phase_of (assumedPods c') k s)) <$> podStates c' !! k = v →
  abs c' = partial_alter (λ _, v) k (abs c).
Proof.
  intros Hne Hk. apply map_eq. intros k'. rewrite abs_lookup. destruct (decide (k' = k)) as [->|Hk'].
  - by rewrite lookup_partial_alter_eq.
  - rewrite lookup_partial_alter_ne, abs_lookup by done. destruct (Hne k' Hk') as [-> Ha].
    destruct (podStates c !! k'); simpl; [|done]. unfold phase_of. do 3 f_equal.
    by rewrite (bool_decide_ext _ _ Ha).
Qed.

Lemma GetPodKey_spec pod :
  match GetPodKey pod with Some k => k = pod_UID pod ∧ k ≠ EmptyString | None => True end.
Proof. unfold GetPodKey. by destruct (pod_UID pod). Qed.

Lemma good_stay ev c ok :
  cache_inv c → exec ev c = Ret (c, ok) → pod_event ev → spec_step ev (abs c) = (abs c, ok) → good_step ev c.
Proof.
  intros Hinv He Hp Hs. exists c, ok. split_and!; try done; [|destruct ev; simpl; lia].
  intros y. by rewrite nodes_after_pod.
Qed.

(** The nodes change to those of [c1], and the state of the pod [k] changes. *)
Lemma good_change ev c d c1 a ps k ok :
  cache_inv c → pod_event ev → moves d c c1 → d ≤ cost ev → core c1 ps →
  (∀ k', k' ≠ k → ps !! k' = podStates c !! k' ∧ (k' ∈ a ↔ k' ∈ assumedPods c)) →
  (k ∈ a → ∃ s, ps !! k = Some s ∧ (bindingFinished s = true → is_Some (deadline s))) →
  exec ev c = Ret (set_pods c1 a ps, ok) →
  spec_step ev (abs c) =
    (partial_alter (λ _, (λ s, (ps_pod s, phase_of a k s)) <$> ps !! k) k (abs c), ok) →
  good_step ev c.
Proof.
  intros [Hcore Has] Hpe (Hev & Hg & Ha & Hp & Hl) Hd Hc1 Hother Hk He Hs.
  exists (set_pods c1 a ps), ok. split_and!; [done| | | |done|simpl; lia].
  - split; [by apply core_pods|]. intros k' Hk'. destruct (decide (k' = k)) as [->|Hne]; [auto|].
    destruct (Hother k' Hne) as [Hps Hin]. simpl in Hk' |- *. rewrite Hps. by apply Has, Hin.
  - rewrite Hs. f_equal. symmetry. by apply abs_change.
  - intros y. rewrite nodes_after_pod by done. apply Hl.
Qed.

Lemma moves_refl d c : 0 ≤ d → moves d c c.
Proof. intros. by split_and!; [|lia|..]. Qed.

Lemma phase_in a k s : k ∈ a → phase_of a k s = Assumed (if bindingFinished s then deadline s else None).
Proof. intros. unfold phase_of. by rewrite bool_decide_true. Qed.

Lemma phase_out a k s : k ∉ a → phase_of a k s = Added.
Proof. intros. unfold phase_of. by rewrite bool_decide_false. Qed.

(** Nothing happens: the operation [op] and the state machine return at once. *)
Ltac stay ok op :=
  apply (good_stay _ _ ok); [done|..]; simpl; unfold op;
  repeat match goal with
  | H : GetPodKey _ = _ |- _ => rewrite H
  | H : podStates _ !! _ = _ |- _ => rewrite H
  | H : ?k ∈ assumedPods ?c |- context [bool_decide (?k ∈ assumedPods ?c)] => rewrite bool_decide_true by done
  | H : ?k ∉ assumedPods ?c |- context [bool_decide (?k ∈ assumedPods ?c)] => rewrite bool_decide_false by done
  | _ => rewrite abs_lookup
  | _ => rewrite phase_out by done
  | _ => rewrite phase_in by done
  | _ => progress simpl
  end; try done.

Lemma assumed_fresh c k : cache_inv c → podStates c !! k = None → k ∉ assumedPods c.
Proof. intros [_ Has] Hn Hk. destruct (Has k Hk) as (s & Hs & _). congruence. Qed.

Lemma core_replace c ps k s s' :
  core c ps → ps !! k = Some s → pod_UID (ps_pod s') = k →
  pod_NodeName (ps_pod s') = pod_NodeName (ps_pod s) → same_spec (ps_pod s) (ps_pod s') →
  core c (<[k := s']> ps).
Proof. intros (H1 & H2 & H3) Hs Hk Hx Hspec. split; [done|]. split; [|done]. by eapply pods_inv_replace. Qed.

Lemma core_key c ps k s : core c ps → ps !! k = Some s → pod_UID (ps_pod s) = k ∧ k ≠ EmptyString.
Proof. intros (_ & H & _) Hs. by destruct (pi_key _ _ _ _ H k s Hs) as [-> ?]. Qed.

Lemma same_spec_refl p : same_spec p p.
Proof. done. Qed.

Lemma step_assume c pod : cache_inv c → headroom c (EvAssume pod) → good_step (EvAssume pod) c.
Proof.
  intros Hinv Hg. unfold headroom in Hg. simpl in Hg.
  pose proof (GetPodKey_spec pod) as Hkey. destruct (GetPodKey pod) as [k|] eqn:Hk.
  2: stay false AssumePod.
  destruct Hkey as [-> Hne]. destruct (podStates c !! pod_UID pod) as [s|] eqn:Hs.
  { stay false AssumePod. }
  destruct (core_add c (podStates c) (mkPodState pod None false) pod (proj1 Hinv)) as [Hc1 Hm];
    [done|done|done|lia|].
  pose proof Hm as (_ & _ & Ha & Hp & _).
  eapply good_change with (k := pod_UID pod) (ok := true); [done|done|exact Hm|simpl; lia|exact Hc1| | | |].
  2: intros _; eexists; rewrite lookup_insert_eq; split; [done|done].
  2: simpl; unfold AssumePod; rewrite Hk, Hs, Hp; reflexivity.
  - intros k' Hk'. rewrite lookup_insert_ne, Ha by done. set_solver.
  - simpl. rewrite Hk, abs_lookup, Hs. simpl. rewrite lookup_insert_eq. simpl.
    rewrite phase_in by set_solver. done.
Qed.

Lemma step_finish c pod now : cache_inv c → good_step (EvFinish pod now) c.
Proof.
  intros Hinv. pose proof (GetPodKey_spec pod) as Hkey. destruct (GetPodKey pod) as [k|] eqn:Hk.
  2: stay false finishBinding.
  destruct Hkey as [-> Hne]. destruct (podStates c !! pod_UID pod) as [s|] eqn:Hs.
  2: stay true finishBinding.
  destruct (decide (pod_UID pod ∈ assumedPods c)) as [Hin|Hout].
  2: stay true finishBinding.
  destruct (core_key c _ _ _ (proj1 Hinv) Hs) as [Huid _].
  eapply good_change with (d := 0) (k := pod_UID pod) (ok := true);
    [done|done|by apply moves_refl|done| | | | |].
  4: simpl; unfold finishBinding; rewrite Hk, Hs, bool_decide_true by done; reflexivity.
  - by eapply core_replace; [apply Hinv|..].
  - intros k' Hk'. by rewrite lookup_insert_ne.
  - intros _. eexists. rewrite lookup_insert_eq. split; [done|]. simpl. eauto.
  - simpl. rewrite Hk, abs_lookup, Hs. simpl. rewrite lookup_insert_eq. simpl. rewrite !phase_in by done. done.
Qed.

Lemma step_forget c pod :
  cache_inv c → coherent c (EvForget pod) → headroom c (EvForget pod) → good_step (EvForget pod) c.
Proof.
  intros Hinv Hcoh Hg. unfold headroom in Hg. simpl in Hg, Hcoh.
  pose proof (GetPodKey_spec pod) as Hkey. destruct (GetPodKey pod) as [k|] eqn:Hk.
  2: stay false ForgetPod.
  destruct Hkey as [-> Hne]. destruct (podStates c !! pod_UID pod) as [s|] eqn:Hs.
  2: stay false ForgetPod.
  destruct (decide (pod_UID pod ∈ assumedPods c)) as [Hin|Hout].
  2: { stay false ForgetPod. by destruct (_ =? _)%string. }
  destruct (String.eqb_spec (pod_NodeName (ps_pod s)) (pod_NodeName pod)) as [Hx|Hx].
  2: { stay false ForgetPod; [by rewrite (proj2 (String.eqb_neq _ _) Hx)|by rewrite bool_decide_false]. }
  destruct (core_remove c (podStates c) (pod_UID pod) s pod) as (c' & Hr & Hc' & Hm);
    [apply Hinv|done|done|by apply Hcoh|done|lia|].
  pose proof Hm as (_ & _ & Ha & Hp & _).
  eapply good_change with (k := pod_UID pod) (ok := true); [done|done|exact Hm|simpl; lia|exact Hc'| | | |].
  3: { simpl. unfold ForgetPod. rewrite Hk, Hs, Hx, String.eqb_refl, bool_decide_true by done. simpl.
       rewrite Hr, Hp. reflexivity. }
  - intros k' Hk'. rewrite lookup_delete_ne, Ha by done. set_solver.
  - set_solver.
  - simpl. rewrite Hk, abs_lookup, Hs. simpl. rewrite phase_in, bool_decide_true by done.
    by rewrite lookup_delete_eq.
Qed.

(** A pod the cache does not know is added. *)
Lemma step_add_new c pod :
  cache_inv c → headroom c (EvAdd pod) → pod_UID pod ≠ EmptyString → GetPodKey pod = Some (pod_UID pod) →
  podStates c !! pod_UID pod = None → good_step (EvAdd pod) c.
Proof.
  intros Hinv Hg Hne Hk Hs. unfold headroom in Hg. simpl in Hg.
  destruct (core_add c (podStates c) (mkPodState pod None false) pod (proj1 Hinv)) as [Hc1 Hm];
    [done|done|done|lia|].
  pose proof Hm as (_ & _ & Ha & Hp & _). pose proof (assumed_fresh c _ Hinv Hs) as Hout.
  eapply good_change with (k := pod_UID pod) (ok := true); [done|done|exact Hm|simpl; lia|exact Hc1| | | |].
  3: simpl; unfold AddPod; rewrite Hk, Hs, Ha, Hp; reflexivity.
  - intros k' Hk'. by rewrite lookup_insert_ne.
  - done.
  - simpl. rewrite Hk, abs_lookup, Hs. simpl. rewrite lookup_insert_eq. simpl. by rewrite phase_out.
Qed.

(** An assumed pod is confirmed, on its node or on another one. *)
Lemma step_add_assumed c pod s :
  cache_inv c → headroom c (EvAdd pod) → pod_UID pod ≠ EmptyString → GetPodKey pod = Some (pod_UID pod) →
  podStates c !! pod_UID pod = Some s → pod_UID pod ∈ assumedPods c → same_spec pod (ps_pod s) →
  good_step (EvAdd pod) c.
Proof.
  intros Hinv Hg Hne Hk Hs Hin Hspec. unfold headroom in Hg. simpl in Hg.
  destruct (core_key c _ _ _ (proj1 Hinv) Hs) as [Huid _].
  set (s' := mkPodState pod None (bindingFinished s)).
  assert (∃ c1, core c1 (<[pod_UID pod := s']> (podStates c)) ∧ moves 3 c c1 ∧
    AddPod lsci overhead c pod =
      Ret (set_pods c1 (assumedPods c ∖ {[pod_UID pod]}) (<[pod_UID pod := s']> (podStates c)), true))
    as (c1 & Hc1 & Hm & He).
  { unfold AddPod. rewrite Hk, Hs, bool_decide_true by done.
    destruct (String.eqb_spec (pod_NodeName (ps_pod s)) (pod_NodeName pod)) as [Hx|Hx]; cbn [negb].
    - exists c. split_and!; [|by apply moves_refl|done].
      eapply core_replace; [apply Hinv|done|done|done|]. by apply same_spec_sym.
    - destruct (core_remove c (podStates c) (pod_UID pod) s (ps_pod s)) as (c0 & Hr & Hc0 & Hm0);
        [apply Hinv|done..|lia|].
      destruct (core_add c0 _ s' pod Hc0) as [Hc1 Hm1];
        [apply lookup_delete_eq|done|done|destruct Hm0 as (_ & ? & _); lia|].
      pose proof (moves_trans _ _ _ _ _ Hm0 Hm1) as Hm. pose proof Hm as (_ & _ & Ha & Hp & _).
      rewrite Hr. exists (SchedCache.addPod lsci overhead c0 pod). rewrite Ha, Hp, insert_delete_eq in *. done. }
  eapply good_change with (k := pod_UID pod) (ok := true); [done|done|exact Hm|simpl; lia|exact Hc1| | |exact He|].
  - intros k' Hk'. rewrite lookup_insert_ne by done. set_solver.
  - set_solver.
  - simpl. rewrite Hk, abs_lookup, Hs. simpl. rewrite lookup_insert_eq. simpl.
    rewrite phase_in, phase_out by set_solver. done.
Qed.

Lemma step_add c pod :
  cache_inv c → coherent c (EvAdd pod) → headroom c (EvAdd pod) → good_step (EvAdd pod) c.
Proof.
  intros Hinv Hcoh Hg. simpl in Hcoh.
  pose proof (GetPodKey_spec pod) as Hkey. destruct (GetPodKey pod) as [k|] eqn:Hk; [|stay false AddPod].
  destruct Hkey as [-> Hne]. destruct (podStates c !! pod_UID pod) as [s|] eqn:Hs; [|by apply step_add_new].
  destruct (decide (pod_UID pod ∈ assumedPods c)) as [Hin|Hout]; [|stay false AddPod].
  eapply step_add_assumed; eauto.
Qed.

Lemma step_update c oldPod newPod :
  cache_inv c → coherent c (EvUpdate oldPod newPod) → headroom c (EvUpdate oldPod newPod) →
  good_step (EvUpdate oldPod newPod) c.
Proof.
  intros Hinv Hcoh Hg. unfold headroom in Hg. simpl in Hg, Hcoh.
  pose proof (GetPodKey_spec oldPod) as Hkey. destruct (GetPodKey oldPod) as [k|] eqn:Hk; [|stay false UpdatePod].
  destruct Hkey as [-> Hne].
  destruct (podStates c !! pod_UID oldPod) as [s|] eqn:Hs; [|stay false UpdatePod].
  destruct (decide (pod_UID oldPod ∈ assumedPods c)) as [Hin|Hout]; [stay false UpdatePod|].
  destruct (Hcoh s eq_refl Hout) as (Huid & Hspec & Hx & Hx').
  destruct (core_remove c (podStates c) (pod_UID oldPod) s oldPod) as (c0 & Hr & Hc0 & Hm0);
    [apply Hinv|done..|lia|].
  set (s' := mkPodState newPod (deadline s) (bindingFinished s)).
  destruct (core_add c0 _ s' newPod Hc0) as [Hc1 Hm1];
    [rewrite Huid; apply lookup_delete_eq|by rewrite Huid|done|destruct Hm0 as (_ & ? & _); lia|].
  rewrite Huid, insert_delete_eq in Hc1.
  pose proof (moves_trans _ _ _ _ _ Hm0 Hm1) as Hm. pose proof Hm as (_ & _ & Ha & Hp & _).
  eapply good_change with (k := pod_UID oldPod) (ok := true); [done|done|exact Hm|simpl; lia|exact Hc1| | | |].
  3: { simpl. unfold UpdatePod, updatePod.
       rewrite Hk, Hs, bool_decide_false, Hx', String.eqb_refl, Hr, Ha, Hp by done. reflexivity. }
  - intros k' Hk'. by rewrite lookup_insert_ne.
  - done.
  - simpl. rewrite Hk, abs_lookup, Hs. simpl. rewrite lookup_insert_eq. simpl. rewrite !phase_out by done. done.
Qed.

Lemma step_remove c pod :
  cache_inv c → coherent c (EvRemove pod) → headroom c (EvRemove pod) → good_step (EvRemove pod) c.
Proof.
  intros Hinv Hcoh Hg. unfold headroom in Hg. simpl in Hg, Hcoh.
  pose proof (GetPodKey_spec pod) as Hkey. destruct (GetPodKey pod) as [k|] eqn:Hk; [|stay false RemovePod].
  destruct Hkey as [-> Hne].
  destruct (podStates c !! pod_UID pod) as [s|] eqn:Hs; [|stay false RemovePod].
  destruct (decide (pod_UID pod ∈ assumedPods c)) as [Hin|Hout]; [stay false RemovePod|].
  pose proof (Hcoh s eq_refl Hout) as Hx. destruct (core_key c _ _ _ (proj1 Hinv) Hs) as [Huid _].
  destruct (core_remove c (podStates c) (pod_UID pod) s (ps_pod s)) as (c' & Hr & Hc' & Hm);
    [apply Hinv|done..|lia|].
  pose proof Hm as (_ & _ & Ha & Hp & _).
  eapply good_change with (k := pod_UID pod) (ok := true); [done|done|exact Hm|simpl; lia|exact Hc'| | | |].
  3: { simpl. unfold RemovePod.
       rewrite Hk, Hs, bool_decide_false, Hx, String.eqb_refl, Hr, Ha, Hp by done. reflexivity. }
  - intros k' Hk'. by rewrite lookup_delete_ne.
  - done.
  - simpl. rewrite Hk, abs_lookup, Hs. simpl. rewrite phase_out by done. by rewrite lookup_delete_eq.
Qed.

(** ** The clean-up of the expired pods *)

Lemma cleanup_one_spec now c k :
  cache_inv c → k ∈ assumedPods c → generation c < max_int64 →
  ∃ c', cleanup_one lsci overhead now c k = Ret c' ∧ cache_inv c' ∧ evolves c c' ∧
    generation c' ≤ generation c + 1 ∧
    abs c' = filter (λ kv, ¬ (kv.1 = k ∧ expired now kv.2)) (abs c) ∧
    (∀ y, live (infos c') y = live (infos c) y) ∧
    ∀ k', k' ≠ k → k' ∈ assumedPods c' ↔ k' ∈ assumedPods c.
Proof.
  intros Hinv Hin Hg. destruct (proj2 Hinv k Hin) as (s & Hs & Hd).
  assert (abs c !! k = Some (ps_pod s, Assumed (if bindingFinished s then deadline s else None))) as Habs.
  { by rewrite abs_lookup, Hs, <- (phase_in _ _ _ Hin). }
  assert (¬ expired now (ps_pod s, Assumed (if bindingFinished s then deadline s else None)) →
    abs c = filter (λ kv, ¬ (kv.1 = k ∧ expired now kv.2)) (abs c)) as Hkeep.
  { intros He. symmetry. apply map_filter_id. intros k' v Hv [Hk' ?]. simpl in *. subst k'. congruence. }
  unfold cleanup_one. rewrite Hs. destruct (bindingFinished s); simpl.
  2: { exists c. split_and!; [done|done|done|lia|apply Hkeep; unfold expired; simpl; tauto|done|done]. }
  destruct (Hd eq_refl) as [d Hdl]. rewrite Hdl in *. destruct (Z.ltb_spec d now) as [Hlt|Hge].
  2: { exists c. split_and!; [done|done|done|lia|apply Hkeep; unfold expired; simpl; lia|done|done]. }
  destruct (core_key c _ _ _ (proj1 Hinv) Hs) as [Huid _].
  destruct (core_remove c (podStates c) k s (ps_pod s)) as (c' & Hr & Hc' & Hev & Hg' & Ha & Hp & Hl);
    [apply Hinv|done..|].
  unfold expirePod. rewrite Hr, Ha, Hp. eexists. split_and!; [done| |done|simpl; lia| |exact Hl|
    intros k' Hk'; simpl; set_solver].
  - split; [by apply core_pods|]. intros k' [Hk' Hne]%elem_of_difference. rewrite elem_of_singleton in Hne.
    simpl. rewrite lookup_delete_ne by done. by apply Hinv.
  - rewrite (abs_change c _ k None); [|intros k' Hk'; simpl; rewrite lookup_delete_ne by done; set_solver|by simpl; rewrite lookup_delete_eq].
    apply map_eq. intros k'. symmetry. destruct (decide (k' = k)) as [->|Hne].
    + rewrite lookup_partial_alter_eq. apply map_lookup_filter_None. right. intros v Hv Hn. apply Hn.
      rewrite Habs in Hv. by simplify_eq.
    + rewrite lookup_partial_alter_ne by done. destruct (abs c !! k') as [v|] eqn:Hv.
      * apply map_lookup_filter_Some. split; [done|]. simpl. naive_solver.
      * apply map_lookup_filter_None. by left.
Qed.

Lemma cleanup_keys_spec now keys c :
  cache_inv c → NoDup keys → (∀ k, k ∈ keys → k ∈ assumedPods c) →
  generation c + Z.of_nat (length keys) ≤ max_int64 →
  ∃ c', cleanup_keys lsci overhead now c keys = Ret c' ∧ cache_inv c' ∧ evolves c c' ∧
    generation c' ≤ generation c + Z.of_nat (length keys) ∧
    abs c' = filter (λ kv, ¬ (kv.1 ∈ keys ∧ expired now kv.2)) (abs c) ∧
    (∀ y, live (infos c') y = live (infos c) y).
Proof.
  revert c. induction keys as [|k keys IH]; intros c Hinv Hnd Hin Hg; cbn [cleanup_keys length] in *.
  - exists c. split_and!; [done|done|done|lia| |done]. symmetry. apply map_filter_id.
    intros k v _ [Hk _]. by apply not_elem_of_nil in Hk.
  - apply NoDup_cons in Hnd as [Hk Hnd].
    destruct (cleanup_one_spec now c k Hinv) as (c1 & -> & Hinv1 & Hev1 & Hg1 & Habs1 & Hl1 & Hin1);
      [apply Hin; by left|lia|].
    destruct (IH c1 Hinv1 Hnd) as (c' & -> & Hinv' & Hev' & Hg' & Habs' & Hl'); [|lia|].
    { intros k' Hk'. apply Hin1; [by intros ->|]. apply Hin. by right. }
    exists c'. split_and!; [done|done|by etrans|lia| |intros y; by rewrite Hl']. rewrite Habs', Habs1, map_filter_filter.
    apply map_filter_ext. intros k' v _. simpl. rewrite elem_of_cons. tauto.
Qed.

Lemma step_cleanup c now keys :
  cache_inv c → coherent c (EvCleanup now keys) → headroom c (EvCleanup now keys) →
  good_step (EvCleanup now keys) c.
Proof.
  intros Hinv Hcoh Hg. unfold headroom in Hg. simpl in Hg, Hcoh.
  destruct (cleanup_keys_spec now keys c Hinv) as (c' & He & Hinv' & Hev & Hg' & Habs & Hl); [| |done|].
  - rewrite Hcoh. apply NoDup_elements.
  - intros k. by rewrite Hcoh, elem_of_elements.
  - exists c', true. simpl. rewrite He. split_and!; [done|done| |done|done|done].
    f_equal. rewrite Habs. apply map_filter_ext. intros k v Hv. simpl. rewrite Hcoh, elem_of_elements.
    rewrite abs_lookup in Hv. apply fmap_Some in Hv as (s & Hs & ->).
    destruct (decide (k ∈ assumedPods c)) as [Hk|Hk]; [tauto|].
    rewrite phase_out by done. unfold expired. simpl. tauto.
Qed.

(** ** Histories *)

Lemma step_node ev c c' d x v :
  cache_inv c → exec ev c = Ret (c', true) → spec_step ev (abs c) = (abs c, true) →
  core c' (podStates c) → moves_node d x v c c' → d ≤ cost ev →
  (∀ m y, nodes_after ev m y = if decide (y = x) then v else m y) → good_step ev c.
Proof.
  intros [Hcore Has] He Hs Hc' (Hev & Hg & Ha & Hp & Hl) Hd Hn. exists c', true.
  split_and!; [done| | |intros y; by rewrite Hl, Hn|done|lia].
  - split; [by rewrite Hp|]. by rewrite Ha, Hp.
  - rewrite Hs. unfold abs. by rewrite Ha, Hp.
Qed.

(** Every coherent event is a step of the state machine. *)
Lemma step_tick c n : cache_inv c → headroom c (EvTick n) → good_step (EvTick n) c.
Proof.
  intros [([l Hsi] & H1 & H2 & H3 & H4) Has] Hg. unfold headroom in Hg. simpl in Hg.
  assert (generation (tick n c) = generation c + Z.of_nat n) as Hgen.
  { simpl. apply int64_id. unfold min_int64. lia. }
  exists (tick n c), true. split; [done|]. split; [|split; [done|]; split; [done|]; split].
  - split; [|exact Has]. split_and!; [|done|done|done|lia]. exists l. destruct Hsi as [Hd Hs Hb]. split; [destruct Hd as [[] ?]; by split; [split|]|exact Hs|].
    intros x ni Hx. rewrite Hgen. specialize (Hb x ni Hx). lia.
  - split; [lia|]. intros x ni Hx. by left.
  - rewrite Hgen. simpl. lia.
Qed.

Lemma event_step c ev : cache_inv c → coherent c ev → headroom c ev → good_step ev c.
Proof.
  intros Hinv Hcoh Hg. destruct ev.
  - by apply step_assume.
  - by apply step_finish.
  - by apply step_forget.
  - by apply step_add.
  - by apply step_update.
  - by apply step_remove.
  - by apply step_cleanup.
  - unfold headroom in Hg. simpl in Hg, Hcoh. destruct (core_AddNode c _ nd (proj1 Hinv) Hcoh) as [H1 H2]; [lia|].
    by eapply (step_node _ c _ _ _ _ Hinv); [..|exact H2| |].
  - unfold headroom in Hg. simpl in Hg, Hcoh.
    destruct (core_UpdateNode c _ _ _ (proj1 Hinv) Hcoh) as (c' & He & H1 & H2); [lia|].
    eapply (step_node _ c c' _ _ _ Hinv); [simpl; by rewrite He|done|exact H1|exact H2|done|done].
  - unfold headroom in Hg. simpl in Hg, Hcoh.
    destruct (core_RemoveNode c _ nd (proj1 Hinv) Hcoh) as (c' & He & H1 & H2); [lia|].
    eapply (step_node _ c c' _ _ _ Hinv); [simpl; by rewrite He|done|exact H1|exact H2|done|done].
  - by apply step_tick.
Qed.

Lemma new_inv g : 0 ≤ g → cache_inv (newSchedulerCache g).
Proof.
  intros Hg. split; [|by intros k Hk%not_elem_of_empty]. split_and!; [|..|done].
  - exists []. split; [|constructor|done]. split; [split; [done|constructor|done]|].
    intros x. simpl. rewrite lookup_empty. split; [by intros ?%not_elem_of_nil|by intros [? ?]].
  - split; simpl; intros *; rewrite ?lookup_empty; done.
  - split; [apply empty_tree_wf|done|]. intros z x. unfold nt_has, zone_nodes. simpl. rewrite lookup_empty. by intros ?%not_elem_of_nil.
  - split; [done|]. intros name x. unfold has_image, live. simpl. rewrite !lookup_empty. naive_solver.
Qed.

(** A step of the cache, labelled with its event and its flag. *)
Definition cache_step (c : schedulerCache) (e : event * bool) (c' : schedulerCache) : Prop :=
  coherent c e.1 ∧ headroom c e.1 ∧ exec e.1 c = Ret (c', e.2).

(** A step of the state machine. *)
Definition pod_step (m : pod_map) (e : event * bool) (m' : pod_map) : Prop :=
  spec_step e.1 m = (m', e.2).

Lemma cache_step_good c e c' :
  cache_step c e c' → cache_inv c → cache_inv c' ∧ pod_step (abs c) e (abs c') ∧ evolves c c' ∧
    ∀ y, live (infos c') y = nodes_after e.1 (live (infos c)) y.
Proof.
  intros (Hcoh & Hg & He) Hinv. destruct (event_step c e.1 Hinv Hcoh Hg) as (c1 & ok & He1 & H1 & H2 & H3 & H4 & _).
  rewrite He in He1. simplify_eq. done.
Qed.

Lemma cache_trace_inv c es c' : trace cache_step c es c' → cache_inv c → cache_inv c'.
Proof. apply trace_invariant. intros s e s' Hstep Hinv. by apply (cache_step_good s e s'). Qed.

Lemma cache_trace_evolves c es c' : trace cache_step c es c' → cache_inv c → evolves c c'.
Proof.
  induction 1 as [|s e s' es s'' Hstep _ IH]; [done|]. intros Hinv.
  destruct (cache_step_good s e s' Hstep Hinv) as (Hinv' & _ & Hev & _). etrans; [done|]. by apply IH.
Qed.

Lemma cache_trace_sim c es c' :
  trace cache_step c es c' → cache_inv c → trace pod_step (abs c) es (abs c').
Proof.
  induction 1 as [|s e s' es s'' Hstep _ IH]; intros Hinv; [constructor|].
  destruct (cache_step_good s e s' Hstep Hinv) as (Hinv' & Hp & _). econstructor; [done|]. by apply IH.
Qed.

(** The node objects after a history: those of the node events. *)
Definition nodes_of (es : list (event * bool)) (m : string → option Node) : string → option Node :=
  foldl (λ m e, nodes_after e.1 m) m es.

Lemma nodes_of_ext es m1 m2 : (∀ y, m1 y = m2 y) → ∀ y, nodes_of es m1 y = nodes_of es m2 y.
Proof.
  revert m1 m2. induction es as [|e es IH]; intros m1 m2 H y; simpl; [done|].
  apply IH. intros z. destruct e as [[] ?]; simpl; by rewrite ?H.
Qed.

Lemma cache_trace_nodes c es c' :
  trace cache_step c es c' → cache_inv c → ∀ y, live (infos c') y = nodes_of es (live (infos c)) y.
Proof.
  induction 1 as [|s e s' es s'' Hstep _ IH]; intros Hinv y; [done|].
  destruct (cache_step_good s e s' Hstep Hinv) as (Hinv' & _ & _ & Hl). rewrite IH by done. simpl.
  by apply nodes_of_ext.
Qed.
End Events.

(** C3. Along any history of coherent events on a new scheduler cache, with
    the generation counter away from its maximum, the invariant holds: the
    items are linked in one doubly linked list in decreasing order of their
    generations; every pod with a state is once on the node it names and the
    nodes hold no other pods, with exactly their totals; a node without node
    object has pods; the node tree holds the names of the node objects in
    their zones; the image states list the nodes of each image; every assumed
    pod has a state.  The next coherent event does not end the process with
    [klog.Fatal] or a nil dereference, whatever it is. *)
Theorem cache_invariant lsci overhead ttl g es c :
  0 ≤ g → trace (cache_step lsci overhead ttl) (newSchedulerCache g) es c →
  cache_inv lsci overhead c ∧
  ∀ ev, coherent c ev → headroom c ev →
    ∃ c' ok, exec lsci overhead ttl ev c = Ret (c', ok) ∧ cache_inv lsci overhead c'.
Proof.
  intros Hg Htr. pose proof (cache_trace_inv _ _ _ _ _ _ Htr (new_inv lsci overhead g Hg)) as Hinv.
  split; [done|]. intros ev Hcoh Hh.
  destruct (event_step lsci overhead ttl c ev Hinv Hcoh Hh) as (c' & ok & He & Hinv' & _). eauto.
Qed.

(** C19. The cache refines the state machine of a pod its interface documents:
    along any history of coherent events the states of the pods are those the
    machine goes through (assume, finish the binding, forget, add, update,
    remove, expire after the deadline), with an error exactly where the
    machine has no transition, and the node objects are those the node events
    left. *)
Theorem cache_pod_lifecycle lsci overhead ttl g es c :
  0 ≤ g → trace (cache_step lsci overhead ttl) (newSchedulerCache g) es c →
  trace (pod_step ttl) ∅ es (abs c) ∧ ∀ y, live (infos c) y = nodes_of es (λ _, None) y.
Proof.
  intros Hg Htr. pose proof (new_inv lsci overhead g Hg) as H0.
  split; [by apply (cache_trace_sim lsci overhead ttl _ _ _ Htr)|]. intros y.
  rewrite (cache_trace_nodes lsci overhead ttl _ _ _ Htr H0). apply nodes_of_ext. done.
Qed.

(** ** An example: a pod is assumed, confirmed, and another one expires *)

Definition sample_pod (uid node : string) : Pod :=
  mkPod uid "ns" uid "1" ∅ [mkContainer [mkPort 80 "" ""] ∅] [] None node None None EmptyString "" ∅ [] ∅ [] [] None [] None None [] "" None [].

Definition sample_events : list (event * bool) :=
  [(EvAddNode (sample_node "a" "z1"), true);
   (EvAssume (sample_pod "p" "a"), true);
   (EvFinish (sample_pod "p" "a") 100, true);
   (EvAssume (sample_pod "q" "b"), true);
   (EvFinish (sample_pod "q" "b") 100, true);
   (EvAdd (sample_pod "p" "a"), true);
   (EvAssume (sample_pod "p" "a"), false);
   (EvCleanup 131 ["q"], true)].

Definition next_state (e : event * bool) (c : schedulerCache) : schedulerCache :=
  match exec true true 30 e.1 c with Ret (c', _) => c' | Panic => c end.

Definition sample_state (n : nat) : schedulerCache :=
  foldl (λ c e, next_state e c) (newSchedulerCache 0) (take n sample_events).

Lemma sample_step n e :
  sample_events !! n = Some e → cache_step true true 30 (sample_state n) e (sample_state (S n)).
Proof.
  intros He. destruct n as [|[|[|[|[|[|[|[|n]]]]]]]]; [..|discriminate];
    (injection He as <-; split; [|split; [vm_compute; discriminate|vm_compute; reflexivity]];
     cbn [fst coherent]).
  all: first [exact I|intros s Hs; vm_compute in Hs; injection Hs as <-; apply same_spec_refl
    |vm_compute; reflexivity].
Qed.

Lemma sample_trace : trace (cache_step true true 30) (newSchedulerCache 0) sample_events (sample_state 8).
Proof.
  change (newSchedulerCache 0) with (sample_state 0).
  do 8 (eapply trace_cons; [apply sample_step; reflexivity|]). constructor.
Qed.

Lemma cache_invariant_witness :
  cache_inv true true (sample_state 8) ∧ podStates (sample_state 8) !! "q" = None ∧
  is_Some (podStates (sample_state 8) !! "p").
Proof.
  split; [|split; [vm_compute; reflexivity|vm_compute; eauto]].
  apply (cache_invariant true true 30 0 sample_events); [lia|apply sample_trace].
Defined.

Lemma cache_pod_lifecycle_witness :
  trace (pod_step 30) ∅ sample_events (abs (sample_state 8)) ∧
  abs (sample_state 8) = {["p" := (sample_pod "p" "a", Added)]}.
Proof.
  split; [|vm_compute; reflexivity].
  refine (proj1 (cache_pod_lifecycle true true 30 0 sample_events _ _ _)); [lia|apply sample_trace].
Defined.
