(* ===== verification/Snapshot.v ===== *)
(** * Snapshots of the scheduler cache

    [pkg/scheduler/internal/cache/snapshot.go] and the functions of
    [pkg/scheduler/internal/cache/cache.go] that bring a snapshot up to date.
    The map and the lists of a snapshot share pointers to its [NodeInfo]s, which
    an update writes through, so the objects are in a store of the snapshot and
    the fields hold their locations.  The order in which Go's [range] meets the
    keys of a map is a parameter. *)

From S2P Require Import Prelude ApiTypes NodeInfo NodeTree SchedCache CacheEvents.
#[local] Open Scope Z_scope.

Record Snapshot := mkSnapshot {
  nodeInfoMap : gmap string nat;
  nodeInfoList : list nat;
  havePodsWithAffinityNodeInfoList : list nat;
  havePodsWithRequiredAntiAffinityNodeInfoList : list nat;
  snap_generation : Z;
  store : gmap nat NodeInfo;
}.

Definition NewEmptySnapshot : Snapshot := mkSnapshot ∅ [] [] [] 0 ∅.

(** [&framework.NodeInfo{}]. *)
Definition zero_NodeInfo : NodeInfo :=
  mkNodeInfo None [] [] [] ∅ zero_Resource zero_Resource zero_Resource ∅ 0.

Definition deref (s : Snapshot) (l : nat) : NodeInfo := default zero_NodeInfo (store s !! l).

Definition hasAffinity (ni : NodeInfo) : bool := (0 <? length (PodsWithAffinity ni))%nat.
Definition hasAntiAffinity (ni : NodeInfo) : bool := (0 <? length (PodsWithRequiredAntiAffinity ni))%nat.

Definition set_lists (s : Snapshot) (l a aa : list nat) : Snapshot :=
  mkSnapshot (nodeInfoMap s) l a aa (snap_generation s) (store s).

Definition set_map (s : Snapshot) (m : gmap string nat) : Snapshot :=
  mkSnapshot m (nodeInfoList s) (havePodsWithAffinityNodeInfoList s)
    (havePodsWithRequiredAntiAffinityNodeInfoList s) (snap_generation s) (store s).

Definition set_store (s : Snapshot) (st : gmap nat NodeInfo) : Snapshot :=
  mkSnapshot (nodeInfoMap s) (nodeInfoList s) (havePodsWithAffinityNodeInfoList s)
    (havePodsWithRequiredAntiAffinityNodeInfoList s) (snap_generation s) st.

Definition set_generation (s : Snapshot) (g : Z) : Snapshot :=
  mkSnapshot (nodeInfoMap s) (nodeInfoList s) (havePodsWithAffinityNodeInfoList s)
    (havePodsWithRequiredAntiAffinityNodeInfoList s) g (store s).

(** ** Bringing a snapshot up to date *)

(** [updateAllLists], [updateNodesHavePodsWithAffinity] and
    [updateNodesHavePodsWithRequiredAntiAffinity]. *)
Record flags := mkFlags { f_all : bool; f_affinity : bool; f_anti : bool }.

(** The body of the loop for a node with a newer generation. *)
Definition snap_node (s : Snapshot) (f : flags) (ni : NodeInfo) : Snapshot * flags :=
  match node ni with
  | None => (s, f)
  | Some np =>
      let '(s, existing, all) :=
        match nodeInfoMap s !! node_Name np with
        | Some l => (s, l, f_all f)
        | None =>
            let l := fresh (dom (store s)) in
            (set_store (set_map s (<[node_Name np := l]> (nodeInfoMap s)))
               (<[l := zero_NodeInfo]> (store s)), l, true)
        end in
      let clone := Clone ni in
      let aff := if negb (eqb (hasAffinity (deref s existing)) (hasAffinity clone)) then true
                 else f_affinity f in
      let anti := if negb (eqb (hasAntiAffinity (deref s existing)) (hasAntiAffinity clone)) then true
                  else f_anti f in
      (set_store s (<[existing := clone]> (store s)), mkFlags all aff anti)
  end.

(** The loop over the linked list from [p]; [None] when the fuel runs out. *)
Fixpoint snap_walk (fuel : nat) (c : schedulerCache) (snapshotGeneration : Z) (p : option string)
    (s : Snapshot) (f : flags) : option (Snapshot * flags) :=
  match fuel with
  | O => None
  | S fuel =>
      match p ≫= λ x, nodes c !! x with
      | None => Some (s, f)
      | Some it =>
          if Generation (info it) <=? snapshotGeneration then Some (s, f)
          else
            let '(s, f) := snap_node s f (info it) in
            snap_walk fuel c snapshotGeneration (next it) s f
      end
  end.

Definition updateNodeInfoSnapshotList (c : schedulerCache) (s : Snapshot) (updateAll : bool) : Snapshot :=
  let l :=
    if updateAll then
      let nodesList := match nt_list (ctree c) with Some (l, _) => l | None => [] end in
      omap (λ nodeName, nodeInfoMap s !! nodeName) nodesList
    else nodeInfoList s in
  set_lists s l (filter (λ p, hasAffinity (deref s p) = true) l)
    (filter (λ p, hasAntiAffinity (deref s p) = true) l).

(** The loop over the keys of the map. *)
Fixpoint remove_deleted (c : schedulerCache) (keys : list string) (toDelete : Z)
    (m : gmap string nat) : gmap string nat :=
  match keys with
  | [] => m
  | name :: keys =>
      if toDelete <=? 0 then m
      else
        match node_of c name with
        | None => remove_deleted c keys (toDelete - 1) (delete name m)
        | Some _ => remove_deleted c keys toDelete m
        end
  end.

Section Range.
Context (range : gmap string nat → list string).

Definition removeDeletedNodesFromSnapshot (c : schedulerCache) (s : Snapshot) : Snapshot :=
  let toDelete := Z.of_nat (size (nodeInfoMap s)) - numNodes (ctree c) in
  set_map s (remove_deleted c (range (nodeInfoMap s)) toDelete (nodeInfoMap s)).

(** The flag is [true] for a nil error. *)
Definition UpdateSnapshot (c : schedulerCache) (s : Snapshot) : option (Snapshot * bool) :=
  '(s, f) ← snap_walk (size (nodes c) + 1) c (snap_generation s) (headNode c) s (mkFlags false false false);
  let s :=
    match headNode c ≫= λ x, nodes c !! x with
    | Some it => set_generation s (Generation (info it))
    | None => s
    end in
  let '(s, all) :=
    if numNodes (ctree c) <? Z.of_nat (size (nodeInfoMap s))
    then (removeDeletedNodesFromSnapshot c s, true) else (s, f_all f) in
  let s := if all || f_affinity f || f_anti f then updateNodeInfoSnapshotList c s all else s in
  Some (if Z.of_nat (length (nodeInfoList s)) =? numNodes (ctree c) then (s, true)
        else (updateNodeInfoSnapshotList c s true, false)).
End Range.

Definition NumNodes (s : Snapshot) : Z := Z.of_nat (length (nodeInfoList s)).
Definition List_ (s : Snapshot) : list NodeInfo := deref s <$> nodeInfoList s.
Definition HavePodsWithAffinityList (s : Snapshot) : list NodeInfo :=
  deref s <$> havePodsWithAffinityNodeInfoList s.
Definition HavePodsWithRequiredAntiAffinityList (s : Snapshot) : list NodeInfo :=
  deref s <$> havePodsWithRequiredAntiAffinityNodeInfoList s.

(** [None] for the error. *)
Definition Get (s : Snapshot) (nodeName : string) : option NodeInfo :=
  match nodeInfoMap s !! nodeName with
  | Some l => if bool_decide (node (deref s l) = None) then None else Some (deref s l)
  | None => None
  end.

(** ** A snapshot of given pods and nodes *)

Definition createImageExistenceMap (nodes : list Node) : gmap string (gset string) :=
  foldl (λ m nd,
      foldl (λ m image,
          match m !! image.1 with
          | None => <[image.1 := {[node_Name nd]}]> m
          | Some s => <[image.1 := {[node_Name nd]} ∪ s]> m
          end) m (image_names nd)) ∅ nodes.

Definition getNodeImageStates (nd : Node) (imageExistenceMap : gmap string (gset string))
    : gmap string ImageStateSummary :=
  foldl (λ imageStates image,
      <[image.1 := mkImageState image.2 (Z.of_nat (size (default ∅ (imageExistenceMap !! image.1))))]>
        imageStates) ∅ (image_names nd).

Section New.
Context (lsci overhead : bool).

(** [nodeNameToInfo[name]], created when it is missing. *)
Definition info_for (m : gmap string NodeInfo) (name : string) (g : Z) : NodeInfo * Z :=
  match m !! name with Some ni => (ni, g) | None => NewNodeInfo lsci overhead [] g end.

Definition put_pod (st : gmap string NodeInfo * Z) (pod : Pod) : gmap string NodeInfo * Z :=
  let '(m, g) := st in
  let '(ni, g) := info_for m (pod_NodeName pod) g in
  let '(ni, g) := NodeInfo.AddPod lsci overhead ni pod g in
  (<[pod_NodeName pod := ni]> m, g).

Definition put_node (imageExistenceMap : gmap string (gset string)) (st : gmap string NodeInfo * Z)
    (nd : Node) : gmap string NodeInfo * Z :=
  let '(m, g) := st in
  let '(ni, g) := info_for m (node_Name nd) g in
  let '(ni, g) := NodeInfo.SetNode lsci ni nd g in
  (<[node_Name nd := set_ImageStates ni (getNodeImageStates nd imageExistenceMap)]> m, g).

Definition createNodeInfoMap (pods : list Pod) (nodes : list Node) (generation : Z)
    : gmap string NodeInfo * Z :=
  let st := foldl put_pod (∅, generation) pods in
  foldl (put_node (createImageExistenceMap nodes)) st nodes.

(** The objects get their locations in the order the map is ranged over. *)
Definition NewSnapshot (range : gmap string NodeInfo → list string) (pods : list Pod) (nodes : list Node)
    (generation : Z) : Snapshot :=
  let infos := (createNodeInfoMap pods nodes generation).1 in
  let names := range infos in
  let objects := imap (λ i name, (i, default zero_NodeInfo (infos !! name))) names in
  let aff := filter (λ o, hasAffinity o.2 = true) objects in
  let anti := filter (λ o, hasAntiAffinity o.2 = true) objects in
  mkSnapshot (list_to_map (imap (λ i name, (name, i)) names)) objects.*1 aff.*1 anti.*1 0
    (list_to_map objects).
End New.

(** ** What a snapshot holds *)

Definition live_infos (c : schedulerCache) : gmap string NodeInfo :=
  filter (λ kv, is_Some (node kv.2)) (infos c).

Definition view (s : Snapshot) : gmap string NodeInfo := deref s <$> nodeInfoMap s.

(** The pointers of the map are allocated and distinct. *)
Definition snap_ok (s : Snapshot) : Prop :=
  (∀ x l, nodeInfoMap s !! x = Some l → is_Some (store s !! l)) ∧
  (∀ x y l, nodeInfoMap s !! x = Some l → nodeInfoMap s !! y = Some l → x = y).

(** The snapshot has exactly the nodes of [c] with a node object, its lists
    are the pointers of the map and those with the pods in question, and its
    generation separates what [c] has from what comes later. *)
Record synced (c : schedulerCache) (s : Snapshot) : Prop := {
  sy_ok : snap_ok s;
  sy_view : view s = live_infos c;
  sy_list : nodeInfoList s ≡ₚ (map_to_list (nodeInfoMap s)).*2;
  sy_aff : havePodsWithAffinityNodeInfoList s = filter (λ p, hasAffinity (deref s p) = true) (nodeInfoList s);
  sy_anti : havePodsWithRequiredAntiAffinityNodeInfoList s =
    filter (λ p, hasAntiAffinity (deref s p) = true) (nodeInfoList s);
  sy_gen x ni : infos c !! x = Some ni → Generation ni ≤ snap_generation s;
  sy_le : snap_generation s ≤ generation c;
}.

Lemma live_infos_lookup c x ni :
  live_infos c !! x = Some ni ↔ infos c !! x = Some ni ∧ is_Some (node ni).
Proof. unfold live_infos. by rewrite map_lookup_filter_Some. Qed.

Lemma live_infos_live c x : is_Some (live_infos c !! x) ↔ is_Some (live (infos c) x).
Proof.
  unfold live. split.
  - intros [ni [Hx [nd Hn]]%live_infos_lookup]. rewrite Hx. simpl. rewrite Hn. eauto.
  - intros [nd Hl]. destruct (infos c !! x) as [ni|] eqn:Hx; [|done]. simpl in Hl.
    exists ni. apply live_infos_lookup. eauto.
Qed.

(** ** The loop over the changed nodes *)

(** What the loop keeps, and what its flags tell. *)
Record snap_ext (s : Snapshot) (f : flags) (s' : Snapshot) (f' : flags) : Prop := {
  se_map : nodeInfoMap s ⊆ nodeInfoMap s';
  se_list : nodeInfoList s' = nodeInfoList s;
  se_aff : havePodsWithAffinityNodeInfoList s' = havePodsWithAffinityNodeInfoList s;
  se_anti : havePodsWithRequiredAntiAffinityNodeInfoList s' = havePodsWithRequiredAntiAffinityNodeInfoList s;
  se_gen : snap_generation s' = snap_generation s;
  se_fall : f_all f' = false → f_all f = false ∧ nodeInfoMap s' = nodeInfoMap s;
  se_faff : f_affinity f' = false → f_affinity f = false ∧
    ∀ x p, nodeInfoMap s !! x = Some p → hasAffinity (deref s' p) = hasAffinity (deref s p);
  se_fanti : f_anti f' = false → f_anti f = false ∧
    ∀ x p, nodeInfoMap s !! x = Some p → hasAntiAffinity (deref s' p) = hasAntiAffinity (deref s p);
}.

Lemma snap_ext_refl s f : snap_ext s f s f.
Proof. by split. Qed.

Lemma snap_ext_trans s1 f1 s2 f2 s3 f3 :
  snap_ext s1 f1 s2 f2 → snap_ext s2 f2 s3 f3 → snap_ext s1 f1 s3 f3.
Proof.
  intros [A1 A2 A3 A4 A5 A6 A7 A8] [B1 B2 B3 B4 B5 B6 B7 B8]. split; try congruence.
  - by etrans.
  - intros H. destruct (B6 H) as [H1 H2], (A6 H1). split; congruence.
  - intros H. destruct (B7 H) as [H1 H2]. destruct (A7 H1) as [H3 H4]. split; [done|].
    intros x p Hp. rewrite (H2 x p), (H4 x p); [done|done|]. by eapply lookup_weaken.
  - intros H. destruct (B8 H) as [H1 H2]. destruct (A8 H1) as [H3 H4]. split; [done|].
    intros x p Hp. rewrite (H2 x p), (H4 x p); [done|done|]. by eapply lookup_weaken.
Qed.

Lemma deref_write s l ni p :
  deref (set_store s (<[l := ni]> (store s))) p = if decide (p = l) then ni else deref s p.
Proof.
  unfold deref. simpl. case_decide as H; [subst; by rewrite lookup_insert_eq|].
  by rewrite lookup_insert_ne.
Qed.

(** A node that is not in the map yet gets a pointer to a zero value. *)
Lemma snap_alloc s f x :
  let l := fresh (dom (store s)) in
  let s' := set_store (set_map s (<[x := l]> (nodeInfoMap s))) (<[l := zero_NodeInfo]> (store s)) in
  snap_ok s → nodeInfoMap s !! x = None →
  snap_ok s' ∧ snap_ext s f s' (mkFlags true (f_affinity f) (f_anti f)) ∧
  ∀ y, y ≠ x → view s' !! y = view s !! y.
Proof.
  intros l s' [Hal Hinj] Hx.
  assert (l ∉ dom (store s)) as Hl by apply is_fresh. rewrite not_elem_of_dom in Hl.
  assert (∀ y p, nodeInfoMap s !! y = Some p → p ≠ l ∧ deref s' p = deref s p) as Hold.
  { intros y p Hp. assert (p ≠ l) as Hne by (intros ->; destruct (Hal y l Hp); congruence).
    split; [done|]. unfold deref. simpl. by rewrite lookup_insert_ne. }
  split; [|split].
  - split.
    + intros y p Hp. simpl in Hp |- *. apply lookup_insert_Some in Hp as [[_ <-]|[_ Hp]].
      * rewrite lookup_insert_eq. eauto.
      * rewrite lookup_insert_ne; [by eapply Hal|]. by destruct (Hold y p Hp) as [? _].
    + intros y z p Hy Hz. simpl in Hy, Hz.
      apply lookup_insert_Some in Hz as [[<- Heq]|[Hz1 Hz2]];
        apply lookup_insert_Some in Hy as [[<- Heq']|[Hy1 Hy2]];
        [done| | |by eapply Hinj].
      * subst p. by destruct (Hold y l Hy2).
      * subst p. by destruct (Hold z l Hz2).
  - split; try done; simpl; [by apply insert_subseteq|..].
    + intros H. split; [done|]. intros y p Hp. by destruct (Hold y p Hp) as [_ ->].
    + intros H. split; [done|]. intros y p Hp. by destruct (Hold y p Hp) as [_ ->].
  - intros y Hy. unfold view. rewrite !lookup_fmap. simpl. rewrite lookup_insert_ne by done.
    destruct (nodeInfoMap s !! y) as [p|] eqn:Hp; simpl; [|done]. by destruct (Hold y p Hp) as [_ ->].
Qed.

(** The object of a known node is overwritten. *)
Lemma snap_write s f x l ni :
  let s' := set_store s (<[l := ni]> (store s)) in
  snap_ok s → nodeInfoMap s !! x = Some l →
  snap_ok s' ∧ view s' = <[x := ni]> (view s) ∧
  snap_ext s f s'
    (mkFlags (f_all f) (if negb (eqb (hasAffinity (deref s l)) (hasAffinity ni)) then true else f_affinity f)
       (if negb (eqb (hasAntiAffinity (deref s l)) (hasAntiAffinity ni)) then true else f_anti f)).
Proof.
  intros s' [Hal Hinj] Hx. split; [|split].
  - split; [|done]. intros y p Hp. simpl in Hp |- *. rewrite lookup_insert_is_Some'. right. by eapply Hal.
  - apply map_eq. intros y. unfold view. rewrite lookup_fmap. change (nodeInfoMap s') with (nodeInfoMap s).
    destruct (decide (y = x)) as [->|Hy].
    + rewrite lookup_insert_eq, Hx. simpl. unfold s'. by rewrite deref_write, decide_True.
    + rewrite lookup_insert_ne, lookup_fmap by done. destruct (nodeInfoMap s !! y) as [p|] eqn:Hp; [|done].
      simpl. unfold s'. rewrite deref_write, decide_False; [done|]. intros ->. apply Hy. by eapply Hinj.
  - split; try done; simpl.
    + destruct (eqb_spec (hasAffinity (deref s l)) (hasAffinity ni)) as [He|]; simpl; [|done].
      intros H. split; [done|]. intros y p _. unfold s'. rewrite deref_write. case_decide; by subst.
    + destruct (eqb_spec (hasAntiAffinity (deref s l)) (hasAntiAffinity ni)) as [He|]; simpl; [|done].
      intros H. split; [done|]. intros y p _. unfold s'. rewrite deref_write. case_decide; by subst.
Qed.

(** The map of contents after a node with newer information is met. *)
Definition view_node (v : gmap string NodeInfo) (ni : NodeInfo) : gmap string NodeInfo :=
  match node ni with Some np => <[node_Name np := ni]> v | None => v end.

Lemma snap_node_spec s f ni :
  snap_ok s →
  let r := snap_node s f ni in
  snap_ok r.1 ∧ view r.1 = view_node (view s) ni ∧ snap_ext s f r.1 r.2.
Proof.
  intros Hok. unfold snap_node, view_node. rewrite Clone_id.
  destruct (node ni) as [np|]; simpl; [|split_and!; [done|done|apply snap_ext_refl]].
  destruct (nodeInfoMap s !! node_Name np) as [l|] eqn:Hx; simpl.
  - destruct (snap_write s f _ l ni Hok Hx) as (H1 & H2 & H3). done.
  - destruct (snap_alloc s f _ Hok Hx) as (H1 & H2 & H3).
    set (l := fresh (dom (store s))) in *.
    set (s1 := set_store _ _) in H1, H2, H3. fold s1.
    destruct (snap_write s1 (mkFlags true (f_affinity f) (f_anti f)) (node_Name np) l ni H1)
      as (H4 & H5 & H6); [apply lookup_insert_eq|].
    split_and!; [exact H4| |by eapply snap_ext_trans].
    transitivity (<[node_Name np := ni]> (view s1)); [exact H5|]. apply map_eq. intros y.
    destruct (decide (y = node_Name np)) as [->|Hy]; [by rewrite !lookup_insert_eq|].
    by rewrite !lookup_insert_ne, H3 by done.
Qed.

(** The loop handles the nodes of the list up to the first old one. *)
Lemma snap_walk_spec c sg l p q : ∀ fuel s f,
  dseg (nodes c) p l q → q = None → (length l < fuel)%nat → snap_ok s →
  ∃ l1 l2 s' f', l = l1 ++ l2 ∧ snap_walk fuel c sg (hd_or l q) s f = Some (s', f') ∧
    snap_ok s' ∧ snap_ext s f s' f' ∧
    view s' = foldl view_node (view s) (omap (λ x, infos c !! x) l1) ∧
    match l2 with [] => True | x :: _ => ∃ ni, infos c !! x = Some ni ∧ Generation ni ≤ sg end.
Proof.
  revert p. induction l as [|x l IH]; intros p fuel s f Hseg -> Hfuel Hok.
  - destruct fuel as [|fuel]; simpl in Hfuel; [lia|]. exists [], [], s, f. simpl.
    split_and!; try done.
  - destruct fuel as [|fuel]; simpl in Hfuel; [lia|]. destruct Hseg as [(it & Hit & _ & Hnext) Hseg].
    assert (infos c !! x = Some (info it)) as Hinf by (apply infos_lookup; eauto).
    cbn [hd_or snap_walk mbind option_bind]. rewrite Hit.
    destruct (Z.leb_spec (Generation (info it)) sg) as [Hle|Hgt].
    { exists [], (x :: l), s, f. split_and!; try done; eauto. }
    destruct (snap_node_spec s f (info it) Hok) as (H1 & H2 & H3).
    destruct (snap_node s f (info it)) as [s1 f1]. simpl in H1, H2, H3. rewrite Hnext.
    destruct (IH (Some x) fuel s1 f1 Hseg eq_refl) as (l1 & l2 & s' & f' & -> & Hw & H4 & H5 & H6 & H7);
      [lia|done|].
    exists (x :: l1), l2, s', f'. split_and!; [done|done|done|by eapply snap_ext_trans| |done].
    rewrite H6. cbn [omap list_omap]. by rewrite Hinf, H2.
Qed.

(** What the loop leaves for one name. *)
Lemma view_walk c l v x :
  NoDup l → (∀ y nd, live (infos c) y = Some nd → node_Name nd = y) →
  foldl view_node v (omap (λ x, infos c !! x) l) !! x =
    if decide (x ∈ l ∧ is_Some (live_infos c !! x)) then live_infos c !! x else v !! x.
Proof.
  intros Hnd Hname. revert v. induction l as [|y l IH]; intros v.
  - cbn [omap list_omap foldl]. rewrite decide_False; [done|]. intros [Hx _]. by apply not_elem_of_nil in Hx.
  - apply NoDup_cons in Hnd as [Hy Hnd]. cbn [omap list_omap].
    destruct (infos c !! y) as [ni|] eqn:Hni; cbn [foldl].
    + rewrite (IH Hnd). unfold view_node. destruct (node ni) as [np|] eqn:Hn.
      * assert (node_Name np = y) as Hnp by (apply Hname; unfold live; by rewrite Hni).
        assert (live_infos c !! y = Some ni) as Hl by (apply live_infos_lookup; eauto). rewrite Hnp.
        destruct (decide (x = y)) as [->|Hxy].
        { rewrite decide_False by (by intros [? _]). rewrite decide_True; [|split; [by left|eauto]].
          by rewrite lookup_insert_eq. }
        rewrite lookup_insert_ne by done. apply decide_ext. set_solver.
      * apply decide_ext. rewrite elem_of_cons. split; [naive_solver|]. intros [[->|Hx] [ni' Hl]]; [|eauto].
        apply live_infos_lookup in Hl as [Hl [? Hl']]. naive_solver.
    + rewrite (IH Hnd). apply decide_ext. rewrite elem_of_cons. split; [naive_solver|].
      intros [[->|Hx] [ni' Hl]]; [|eauto]. apply live_infos_lookup in Hl as [Hl _]. congruence.
Qed.

(** ** The nodes that are gone *)

Definition dead (c : schedulerCache) (x : string) : Prop := node_of c x = None.
#[global] Instance dead_dec c x : Decision (dead c x).
Proof. unfold dead. apply _. Defined.

Lemma node_of_live c x : node_of c x = live (infos c) x.
Proof. unfold node_of, live, infos. rewrite lookup_fmap. by destruct (nodes c !! x). Qed.

Lemma remove_deleted_spec c keys m x :
  remove_deleted c keys (Z.of_nat (length (filter (dead c) keys))) m !! x =
    if decide (x ∈ keys ∧ dead c x) then None else m !! x.
Proof.
  revert m. induction keys as [|k keys IH]; intros m; cbn [remove_deleted].
  - rewrite decide_False; [done|]. intros [H _]. by apply not_elem_of_nil in H.
  - destruct (Z.leb_spec (Z.of_nat (length (filter (dead c) (k :: keys)))) 0) as [Hz|Hz].
    + rewrite decide_False; [done|]. intros Hx. assert (x ∈ filter (dead c) (k :: keys)) as Hf
        by (apply list_elem_of_filter; naive_solver).
      destruct (filter (dead c) (k :: keys)); [by apply not_elem_of_nil in Hf|simpl in Hz; lia].
    + rewrite filter_cons. destruct (node_of c k) as [nd|] eqn:Hk.
      * rewrite decide_False by (unfold dead; congruence). rewrite IH. apply decide_ext.
        rewrite elem_of_cons. unfold dead. naive_solver.
      * rewrite decide_True by done. cbn [length].
        replace (Z.of_nat (S (length (filter (dead c) keys))) - 1)
          with (Z.of_nat (length (filter (dead c) keys))) by lia.
        rewrite IH. destruct (decide (x = k)) as [->|Hne].
        -- rewrite lookup_delete_eq. do 2 case_decide; set_solver.
        -- rewrite lookup_delete_ne by done. apply decide_ext. rewrite elem_of_cons. naive_solver.
Qed.

(** ** The node tree and the live nodes *)

Lemma tree_names c :
  tree_inv (infos c) (ctree c) →
  NoDup (nt_names (ctree c)) ∧ (∀ x, x ∈ nt_names (ctree c) ↔ is_Some (live_infos c !! x)) ∧
  numNodes (ctree c) = Z.of_nat (size (live_infos c)).
Proof.
  intros [Hwf Hlive Htree].
  assert (NoDup (nt_names (ctree c))) as Hnd.
  { apply NoDup_bind; [| |apply Hwf].
    - intros z1 z2 x _ _ H1 H2. destruct (Htree z1 x H1) as (? & ? & <-), (Htree z2 x H2) as (? & ? & <-).
      congruence.
    - intros z _. unfold zone_nodes. destruct (tree (ctree c) !! z) as [l|] eqn:Hz; simpl; [|constructor].
      by apply (wf_zone _ Hwf z). }
  assert (∀ x, x ∈ nt_names (ctree c) ↔ is_Some (live_infos c !! x)) as Hin.
  { intros x. rewrite nt_names_has, live_infos_live by done. split.
    - intros [z Hz]. destruct (Htree z x Hz) as (nd & -> & _). eauto.
    - intros [nd Hl]. exists (GetZoneKey nd). by apply Hlive. }
  split_and!; [done|done|]. rewrite (wf_numNodes _ Hwf), <- size_dom.
  assert (nt_names (ctree c) ≡ₚ elements (dom (live_infos c))) as ->; [|done].
  apply NoDup_Permutation; [done|apply NoDup_elements|]. intros x. by rewrite elem_of_elements, elem_of_dom.
Qed.

(** ** The parts of an update *)

Lemma sorted_le c l1 l2 sg :
  StronglySorted (newer (infos c)) (l1 ++ l2) →
  match l2 with [] => True | x :: _ => ∃ ni, infos c !! x = Some ni ∧ Generation ni ≤ sg end →
  ∀ x ni, x ∈ l2 → infos c !! x = Some ni → Generation ni ≤ sg.
Proof.
  intros Hs Hhd x ni Hx Hni. destruct l2 as [|y l2]; [by apply not_elem_of_nil in Hx|].
  destruct Hhd as (ny & Hny & Hle). apply StronglySorted_app in Hs as (_ & _ & Hs).
  apply StronglySorted_inv in Hs as [_ Hall]. apply elem_of_cons in Hx as [->|Hx]; [by simplify_eq|].
  rewrite Forall_forall in Hall. destruct (Hall x Hx) as (ny' & ni' & H1 & H2 & H3). simplify_eq. lia.
Qed.

(** After the loop the snapshot has what the live nodes have. *)
Lemma walk_spec c0 c l s :
  synced c0 s → evolves c0 c → struct_inv c l → tree_inv (infos c) (ctree c) →
  ∃ s1 f, snap_walk (size (nodes c) + 1) c (snap_generation s) (headNode c) s (mkFlags false false false)
      = Some (s1, f) ∧
    snap_ok s1 ∧ snap_ext s (mkFlags false false false) s1 f ∧ live_infos c ⊆ view s1.
Proof.
  intros Hsy [Hgen Hev] Hsi Hti. destruct Hsi as [[[Hh Hnd Hseg] Hdom] Hsort Hb].
  assert (length l = size (nodes c)) as Hlen.
  { rewrite <- (size_dom (D := gset string)), <- (size_list_to_set (C := gset string) l Hnd). f_equal.
    apply set_eq. intros x. by rewrite elem_of_list_to_set, elem_of_dom. }
  destruct (snap_walk_spec c (snap_generation s) l None None (size (nodes c) + 1) s
    (mkFlags false false false) Hseg eq_refl) as (l1 & l2 & s1 & f & -> & Hw & Hok & Hext & Hv & Hl2);
    [lia|apply Hsy|].
  rewrite hd_or_None, <- Hh in Hw. exists s1, f. split_and!; [done|done|done|].
  apply map_subseteq_spec. intros x ni Hx. rewrite Hv, view_walk; [|by apply NoDup_app in Hnd as [? _]|].
  2: { intros y nd Hy. by apply (ti_live _ _ Hti). }
  case_decide as Hd; [done|]. rewrite (sy_view _ _ Hsy).
  apply live_infos_lookup in Hx as [Hx Hn]. apply live_infos_lookup. split; [|done].
  destruct (Hev x ni Hx) as [?|Hlt]; [done|]. exfalso.
  assert (x ∈ l1 ++ l2) as [Hin|Hin]%elem_of_app.
  { rewrite Hdom. apply infos_lookup in Hx as (it & Hit & _). eauto. }
  - apply Hd. split; [done|]. exists ni. by apply live_infos_lookup.
  - pose proof (sorted_le c l1 l2 _ Hsort Hl2 x ni Hin Hx). pose proof (sy_le _ _ Hsy). lia.
Qed.

Lemma size_view s : size (view s) = size (nodeInfoMap s).
Proof. unfold view. apply map_size_fmap. Qed.

Section Update.
Context (range : gmap string nat → list string).
Hypothesis range_keys : ∀ m, range m ≡ₚ (map_to_list m).*1.

(** The number of the nodes to delete is that of the dead ones. *)
Lemma dead_count c s :
  live_infos c ⊆ view s →
  (size (live_infos c) + length (filter (dead c) (range (nodeInfoMap s))))%nat = size (nodeInfoMap s).
Proof.
  intros Hsub. rewrite (range_keys (nodeInfoMap s)), <- size_view.
  assert ((map_to_list (nodeInfoMap s)).*1 ≡ₚ elements (dom (view s))) as ->.
  { apply NoDup_Permutation; [apply NoDup_fst_map_to_list|apply NoDup_elements|].
    intros x. rewrite elem_of_elements. unfold view. rewrite dom_fmap, elem_of_dom, list_elem_of_fmap. split.
    - intros ([y l] & -> & Hy%elem_of_map_to_list). simpl. eauto.
    - intros [l Hl]. exists (x, l). by rewrite elem_of_map_to_list. }
  rewrite <- (size_dom (D := gset string) (live_infos c)), <- (size_dom (D := gset string) (view s)).
  assert (elements (dom (live_infos c)) ≡ₚ filter (λ x, ¬ dead c x) (elements (dom (view s)))) as Hl.
  { apply NoDup_Permutation; [apply NoDup_elements|apply NoDup_filter, NoDup_elements|].
    intros x. rewrite list_elem_of_filter, !elem_of_elements, !elem_of_dom, live_infos_live.
    unfold dead. rewrite node_of_live, <- not_eq_None_Some.
    split; [|tauto]. intros Hx. split; [done|].
    apply not_eq_None_Some, live_infos_live in Hx as [ni Hx]. exists ni. by eapply lookup_weaken. }
  unfold size, set_size. simpl. rewrite (Permutation_length Hl).
  generalize (elements (dom (view s))). clear. induction l as [|x xs IH]; [done|]. rewrite !filter_cons.
  destruct (decide (dead c x)); [rewrite decide_False by tauto|rewrite decide_True by done]; simpl; lia.
Qed.

(** The nodes without object leave the map, if there are any. *)
Definition drop (c : schedulerCache) (s : Snapshot) : Snapshot :=
  if numNodes (ctree c) <? Z.of_nat (size (nodeInfoMap s))
  then removeDeletedNodesFromSnapshot range c s else s.

Lemma drop_map c s x :
  tree_inv (infos c) (ctree c) → live_infos c ⊆ view s →
  nodeInfoMap (drop c s) !! x = if decide (dead c x) then None else nodeInfoMap s !! x.
Proof.
  intros Hti Hsub. destruct (tree_names c Hti) as (_ & _ & Hnum).
  pose proof (dead_count c s Hsub) as Hcount. unfold drop.
  destruct (Z.ltb_spec (numNodes (ctree c)) (Z.of_nat (size (nodeInfoMap s)))) as [Hlt|Hge].
  - unfold removeDeletedNodesFromSnapshot. simpl.
    replace (Z.of_nat (size (nodeInfoMap s)) - numNodes (ctree c))
      with (Z.of_nat (length (filter (dead c) (range (nodeInfoMap s))))) by lia.
    rewrite remove_deleted_spec. destruct (decide (dead c x)) as [Hd|Hd]; [|by rewrite decide_False by tauto].
    case_decide as Hin; [done|]. destruct (nodeInfoMap s !! x) as [l|] eqn:Hl; [|done].
    destruct Hin. split; [|done]. rewrite range_keys. apply list_elem_of_fmap.
    exists (x, l). by rewrite elem_of_map_to_list.
  - case_decide as Hd; [|done].
    assert (live_infos c = view s) as Heq by (apply map_subseteq_size_eq; [done|]; rewrite size_view; lia).
    destruct (nodeInfoMap s !! x) as [l|] eqn:Hl; [|done].
    assert (is_Some (live_infos c !! x)) as Hs by (rewrite Heq; unfold view; rewrite lookup_fmap, Hl; eauto).
    rewrite live_infos_live, <- node_of_live, Hd in Hs. by destruct Hs.
Qed.

Lemma drop_spec c s :
  tree_inv (infos c) (ctree c) → snap_ok s → live_infos c ⊆ view s →
  snap_ok (drop c s) ∧ view (drop c s) = live_infos c ∧ store (drop c s) = store s.
Proof.
  intros Hti Hok Hsub. pose proof (λ x, drop_map c s x Hti Hsub) as Hmap.
  assert (store (drop c s) = store s) as Hst by (unfold drop; by case_match).
  assert (nodeInfoMap (drop c s) ⊆ nodeInfoMap s) as Hm.
  { apply map_subseteq_spec. intros x l. rewrite Hmap. by case_decide. }
  split_and!; [split| |done].
  - intros x l Hl. rewrite Hst. eapply Hok. by eapply lookup_weaken.
  - intros x y l Hx Hy. eapply Hok; by eapply lookup_weaken.
  - apply map_eq. intros x. unfold view. rewrite lookup_fmap, Hmap. unfold deref. rewrite Hst.
    destruct (live_infos c !! x) as [ni|] eqn:Hni.
    + pose proof (lookup_weaken _ _ _ _ Hni Hsub) as Hv. unfold view in Hv. rewrite lookup_fmap in Hv.
      rewrite decide_False; [done|]. unfold dead. rewrite node_of_live.
      apply not_eq_None_Some, live_infos_live. eauto.
    + rewrite decide_True; [done|]. unfold dead. rewrite node_of_live.
      apply eq_None_not_Some. rewrite <- live_infos_live, Hni. by intros [? ?].
Qed.

(** ** The lists *)

Lemma omap_map_values (m : gmap string nat) names :
  names ≡ₚ (map_to_list m).*1 → omap (λ x, m !! x) names ≡ₚ (map_to_list m).*2.
Proof.
  intros ->. assert (∀ k, (∀ p, p ∈ k → m !! p.1 = Some p.2) → omap (λ x, m !! x) k.*1 = k.*2) as H.
  { induction k as [|[x l] k IH]; intros Hk; [done|]. cbn [fmap list_fmap omap list_omap fst snd].
    pose proof (Hk (x, l) ltac:(by left)) as Hx. simpl in Hx. rewrite Hx, IH; [done|]. intros p Hp. apply Hk. by right. }
  rewrite H; [done|]. intros [x l] Hp. by apply elem_of_map_to_list.
Qed.

Lemma all_lists c s :
  tree_inv (infos c) (ctree c) → view s = live_infos c →
  nodeInfoList (updateNodeInfoSnapshotList c s true) ≡ₚ (map_to_list (nodeInfoMap s)).*2.
Proof.
  intros Hti Hv. destruct (tree_names c Hti) as (Hnd & Hin & _). simpl.
  destruct (nt_list_spec (ctree c)) as [_ Hl]. destruct (Hl (ti_wf _ _ Hti)) as [-> Hrr].
  apply omap_map_values. rewrite Hrr. apply NoDup_Permutation; [done|apply NoDup_fst_map_to_list|].
  intros x. rewrite Hin, <- Hv. unfold view. rewrite lookup_fmap, fmap_is_Some, list_elem_of_fmap. split.
  - intros [l Hx]. exists (x, l). by rewrite elem_of_map_to_list.
  - intros ([y l] & -> & Hy%elem_of_map_to_list). eauto.
Qed.

Lemma filter_same (P Q : nat → bool) (l : list nat) :
  (∀ p, p ∈ l → P p = Q p) → filter (λ p, P p = true) l = filter (λ p, Q p = true) l.
Proof.
  induction l as [|p l IH]; [done|]. intros H. rewrite !filter_cons, (H p) by (by left).
  rewrite IH; [done|]. intros q Hq. apply H. by right.
Qed.

(** ** An update *)

Lemma set_generation_ok s g :
  (snap_ok s → snap_ok (set_generation s g)) ∧ view (set_generation s g) = view s.
Proof. done. Qed.

(** The generation of the head, the newest one. *)
Definition take_generation (c : schedulerCache) (s : Snapshot) : Snapshot :=
  match headNode c ≫= λ x, nodes c !! x with
  | Some it => set_generation s (Generation (info it))
  | None => s
  end.

Lemma take_generation_spec c l s :
  struct_inv c l → snap_generation s ≤ generation c →
  snap_generation (take_generation c s) ≤ generation c ∧
  ∀ x ni, infos c !! x = Some ni → Generation ni ≤ snap_generation (take_generation c s).
Proof.
  intros [[[Hh Hnd Hseg] Hdom] Hsort Hb] Hle. unfold take_generation. rewrite Hh.
  destruct l as [|y l]; simpl.
  - split; [done|]. intros x ni (it & Hit & _)%infos_lookup.
    assert (x ∈ []) as Hx by (apply Hdom; eauto). by apply not_elem_of_nil in Hx.
  - destruct Hseg as [(it & Hit & _) _]. rewrite Hit. simpl.
    assert (infos c !! y = Some (info it)) as Hy by (apply infos_lookup; eauto).
    split; [by eapply Hb|]. intros x ni Hx. apply (sorted_le c [] (y :: l) _ Hsort) with (x := x); [|  |done].
    + exists (info it). split; [done|lia].
    + apply Hdom. apply infos_lookup in Hx as (it' & Hit' & _). eauto.
Qed.

Lemma lists_synced c s all :
  snap_ok s → view s = live_infos c → tree_inv (infos c) (ctree c) →
  (all = false → nodeInfoList s ≡ₚ (map_to_list (nodeInfoMap s)).*2) →
  (∀ x ni, infos c !! x = Some ni → Generation ni ≤ snap_generation s) → snap_generation s ≤ generation c →
  synced c (updateNodeInfoSnapshotList c s all).
Proof.
  intros Hok Hv Hti Hl Hg Hle. split; try done.
  destruct all; [exact (all_lists c s Hti Hv)|by apply Hl].
Qed.

Lemma synced_length c s :
  synced c s → tree_inv (infos c) (ctree c) → Z.of_nat (length (nodeInfoList s)) = numNodes (ctree c).
Proof.
  intros Hsy Hti. destruct (tree_names c Hti) as (_ & _ & ->).
  by rewrite (sy_list _ _ Hsy), length_fmap, length_map_to_list, <- size_view, (sy_view _ _ Hsy).
Qed.

(** Without a change of the map or of the flags the lists are right already. *)
Lemma same_lists c0 c s s' f :
  synced c0 s → snap_ext s (mkFlags false false false) s' f → snap_ok s' → view s' = live_infos c →
  f_all f = false → f_affinity f = false → f_anti f = false →
  (∀ x ni, infos c !! x = Some ni → Generation ni ≤ snap_generation (take_generation c s')) →
  snap_generation (take_generation c s') ≤ generation c →
  synced c (take_generation c s').
Proof.
  intros Hsy Hext Hok Hv Hall Haff Hanti Hg Hle.
  destruct (se_fall _ _ _ _ Hext Hall) as [_ Hm], (se_faff _ _ _ _ Hext Haff) as [_ Ha],
    (se_fanti _ _ _ _ Hext Hanti) as [_ Haa].
  assert (∀ p, p ∈ nodeInfoList s → ∃ x, nodeInfoMap s !! x = Some p) as Hin.
  { intros p. rewrite (sy_list _ _ Hsy), list_elem_of_fmap.
    intros ([x l] & -> & Hx%elem_of_map_to_list). eauto. }
  revert Hg Hle. unfold take_generation. destruct (headNode c ≫= _); intros Hg Hle; split; try done; simpl;
    rewrite ?(se_list _ _ _ _ Hext), ?Hm, ?(se_aff _ _ _ _ Hext), ?(se_anti _ _ _ _ Hext); try apply Hsy.
  all: rewrite ?(sy_aff _ _ Hsy), ?(sy_anti _ _ Hsy); apply filter_same; intros p [x Hx]%Hin; symmetry; eauto.
Qed.

Lemma UpdateSnapshot_spec c0 c l s :
  synced c0 s → evolves c0 c → struct_inv c l → tree_inv (infos c) (ctree c) →
  ∃ s', UpdateSnapshot range c s = Some (s', true) ∧ synced c s'.
Proof.
  intros Hsy Hev Hsi Hti. destruct (walk_spec c0 c l s Hsy Hev Hsi Hti) as (s1 & f & Hw & Hok & Hext & Hsub).
  unfold UpdateSnapshot. rewrite Hw. cbn [mbind option_bind].
  change (match headNode c ≫= λ x, nodes c !! x with
          | Some it => set_generation s1 (Generation (info it)) | None => s1 end) with (take_generation c s1).
  set (s2 := take_generation c s1).
  assert (nodeInfoMap s2 = nodeInfoMap s1 ∧ store s2 = store s1) as [Hm2 Hst2]
    by (unfold s2, take_generation; by case_match).
  assert (snap_ok s2 ∧ live_infos c ⊆ view s2) as [Hok2 Hsub2].
  { unfold snap_ok, view, deref. by rewrite Hm2, Hst2. }
  destruct (take_generation_spec c l s1 Hsi) as [Hle Hgen].
  { rewrite (se_gen _ _ _ _ Hext). destruct Hev. pose proof (sy_le _ _ Hsy). lia. }
  fold s2 in Hle, Hgen.
  destruct (drop_spec c s2 Hti Hok2 Hsub2) as (Hok3 & Hv3 & _).
  assert (∀ s', synced c s' →
    (if Z.of_nat (length (nodeInfoList s')) =? numNodes (ctree c) then (s', true)
     else (updateNodeInfoSnapshotList c s' true, false)) = (s', true)) as Hfin.
  { intros s' Hs'. by rewrite (synced_length c s' Hs' Hti), Z.eqb_refl. }
  unfold drop in Hok3, Hv3. destruct (numNodes (ctree c) <? Z.of_nat (size (nodeInfoMap s2))).
  - cbn [orb]. assert (synced c (updateNodeInfoSnapshotList c (removeDeletedNodesFromSnapshot range c s2) true))
      as Hs' by (by apply lists_synced).
    eexists. rewrite (Hfin _ Hs'). done.
  - destruct (f_all f || f_affinity f || f_anti f) eqn:Hf.
    + assert (synced c (updateNodeInfoSnapshotList c s2 (f_all f))) as Hs'.
      { apply lists_synced; try done. intros Hall. destruct (se_fall _ _ _ _ Hext Hall) as [_ Hm].
        rewrite Hm2, Hm. assert (nodeInfoList s2 = nodeInfoList s) as ->; [|apply Hsy].
        rewrite <- (se_list _ _ _ _ Hext). unfold s2, take_generation. by case_match. }
      eexists. rewrite (Hfin _ Hs'). done.
    + apply orb_false_iff in Hf as [[Hf1 Hf2]%orb_false_iff Hf3].
      assert (synced c s2) as Hs'.
      { eapply same_lists; try done. unfold view, deref in *. by rewrite <- Hm2, <- Hst2. }
      eexists. rewrite (Hfin _ Hs'). done.
Qed.
End Update.

(** ** What the scheduling cycle reads *)

Lemma synced_Get c s x : synced c s → Get s x = live_infos c !! x.
Proof.
  intros Hsy. rewrite <- (sy_view _ _ Hsy). unfold Get, view. rewrite lookup_fmap.
  destruct (nodeInfoMap s !! x) as [l|] eqn:Hl; simpl; [|done].
  assert (live_infos c !! x = Some (deref s l)) as [_ Hn]%live_infos_lookup.
  { rewrite <- (sy_view _ _ Hsy). unfold view. by rewrite lookup_fmap, Hl. }
  rewrite bool_decide_false; [done|]. by apply not_eq_None_Some.
Qed.

Lemma synced_List c s : synced c s → List_ s ≡ₚ (map_to_list (live_infos c)).*2.
Proof.
  intros Hsy. unfold List_. rewrite (sy_list _ _ Hsy), <- (sy_view _ _ Hsy). unfold view.
  rewrite map_to_list_fmap, <- !list_fmap_compose. done.
Qed.

Lemma filter_deref (P : NodeInfo → bool) s (l : list nat) :
  deref s <$> filter (λ p, P (deref s p) = true) l = filter (λ ni, P ni = true) (deref s <$> l).
Proof.
  induction l as [|p l IH]; [done|]. cbn [fmap list_fmap]. rewrite !filter_cons.
  case_decide; cbn [fmap list_fmap]; [f_equal|]; exact IH.
Qed.

Lemma empty_synced g : 0 ≤ g → synced (newSchedulerCache g) NewEmptySnapshot.
Proof.
  intros Hg. by split.
Qed.

Section Histories.
Context (lsci overhead : bool) (ttl : Z) (range : gmap string nat → list string).

(** The cache and the snapshot of the scheduler: events of the cache, and the
    update at the start of a scheduling cycle with its flag. *)
Inductive sys_event := SysCache (e : event * bool) | SysSnapshot (ok : bool).

Definition sys_step (st : schedulerCache * Snapshot) (e : sys_event) (st' : schedulerCache * Snapshot)
    : Prop :=
  match e with
  | SysCache e => cache_step lsci overhead ttl st.1 e st'.1 ∧ st'.2 = st.2
  | SysSnapshot ok => st'.1 = st.1 ∧ UpdateSnapshot range st.1 st.2 = Some (st'.2, ok)
  end.

(** The snapshot has the content of the cache at an earlier time, and what has
    changed since then has a newer generation. *)
Definition sys_inv (g : Z) (st : schedulerCache * Snapshot) : Prop :=
  cache_inv lsci overhead st.1 ∧ evolves (newSchedulerCache g) st.1 ∧
  ∃ c0, synced c0 st.2 ∧ evolves c0 st.1.

Hypothesis range_keys : ∀ m, range m ≡ₚ (map_to_list m).*1.

Lemma sys_update c0 c s :
  cache_inv lsci overhead c → synced c0 s → evolves c0 c →
  ∃ s', UpdateSnapshot range c s = Some (s', true) ∧ synced c s'.
Proof.
  intros [([l Hsi] & _ & Hti & _) _] Hsy Hev. by apply (UpdateSnapshot_spec range range_keys c0 c l).
Qed.

Lemma sys_step_inv g st e st' : sys_step st e st' → sys_inv g st → sys_inv g st'.
Proof.
  destruct st as [c s], st' as [c' s'], e as [e|ok]; simpl.
  - intros [Hstep ->] (Hinv & Hg & c0 & Hsy & Hev).
    destruct (cache_step_good _ _ _ c e c' Hstep Hinv) as (Hinv' & _ & Hev' & _).
    split_and!; [done|by etrans|]. exists c0. split; [done|by etrans].
  - intros [-> Hup] (Hinv & Hg & c0 & Hsy & Hev). simpl in *.
    destruct (sys_update c0 c s Hinv Hsy Hev) as (s1 & Hup1 & Hsy1). rewrite Hup in Hup1. simplify_eq.
    split_and!; [done|done|]. exists c. done.
Qed.

Lemma sys_trace g es c s :
  0 ≤ g → trace sys_step (newSchedulerCache g, NewEmptySnapshot) es (c, s) → sys_inv g (c, s).
Proof.
  intros Hg Htr. apply (trace_invariant sys_step (sys_inv g)) with (2 := Htr); [intros st e st' Hi Hst; by apply (sys_step_inv g st e st')|].
  split_and!; [by apply new_inv|done|]. exists (newSchedulerCache g). split; [by apply empty_synced|done].
Qed.

(** C11. At the start of any scheduling cycle, after any history of coherent
    events of the cache and earlier cycles, the incremental [UpdateSnapshot]
    returns without error and leaves what a snapshot taken from scratch would
    have: [Get] finds exactly the nodes with a node object, with the cache's
    current information, the list holds each of them once, and the two affinity
    lists are its nodes with such pods, although only the nodes newer than the
    last snapshot were copied and the lists are rebuilt only when a node came,
    went or changed its kind of pods. *)
Theorem snapshot_incremental g es c s :
  0 ≤ g → trace sys_step (newSchedulerCache g, NewEmptySnapshot) es (c, s) →
  ∃ s' s0, UpdateSnapshot range c s = Some (s', true) ∧
    UpdateSnapshot range c NewEmptySnapshot = Some (s0, true) ∧
    (∀ x, Get s' x = live_infos c !! x ∧ Get s0 x = live_infos c !! x) ∧
    List_ s' ≡ₚ (map_to_list (live_infos c)).*2 ∧ List_ s' ≡ₚ List_ s0 ∧
    HavePodsWithAffinityList s' = filter (λ ni, hasAffinity ni = true) (List_ s') ∧
    HavePodsWithRequiredAntiAffinityList s' = filter (λ ni, hasAntiAffinity ni = true) (List_ s').
Proof.
  intros Hg Htr. destruct (sys_trace g es c s Hg Htr) as (Hinv & Hev0 & c0 & Hsy & Hev).
  destruct (sys_update c0 c s Hinv Hsy Hev) as (s' & Hup & Hs').
  destruct (sys_update _ c NewEmptySnapshot Hinv (empty_synced g Hg) Hev0) as (s0 & Hup0 & Hs0).
  exists s', s0. split_and!; [done|done|..].
  - intros x. by rewrite (synced_Get c s'), (synced_Get c s0).
  - by apply synced_List.
  - by rewrite (synced_List c s'), (synced_List c s0).
  - unfold HavePodsWithAffinityList. rewrite (sy_aff _ _ Hs'). apply filter_deref.
  - unfold HavePodsWithRequiredAntiAffinityList. rewrite (sy_anti _ _ Hs'). apply filter_deref.
Qed.
End Histories.

(** ** The snapshot of given pods and nodes *)

Section NewProofs.
Context (lsci overhead : bool).

Definition on_node (x : string) (pods : list Pod) : list Pod := filter (λ p, pod_NodeName p = x) pods.
Definition named (x : string) (nodes : list Node) : list Node := filter (λ nd, node_Name nd = x) nodes.

Lemma info_for_spec m x g ni g' :
  info_for lsci overhead m x g = (ni, g') →
  m !! x = Some ni ∨ m !! x = None ∧ node_pods ni = [] ∧ node ni = None ∧ ni_wf lsci overhead ni.
Proof.
  unfold info_for. destruct (m !! x); intros H; [left; congruence|right].
  assert (ni = (NewNodeInfo lsci overhead [] g).1) as -> by (by rewrite H).
  split_and!; [done|done|done|apply empty_wf].
Qed.

(** What the map holds for [x] after the pods [pods] and the nodes [nodes]. *)
Definition holds_for (m : gmap string NodeInfo) (x : string) (pods : list Pod) (nodes : list Node) : Prop :=
  match m !! x with
  | None => on_node x pods = [] ∧ named x nodes = []
  | Some ni => node_pods ni = on_node x pods ∧ node ni = last (named x nodes) ∧ ni_wf lsci overhead ni ∧
      (on_node x pods ≠ [] ∨ named x nodes ≠ [])
  end.

Lemma put_pod_holds st pods pod x :
  holds_for st.1 x pods [] → holds_for (put_pod lsci overhead st pod).1 x (pods ++ [pod]) [].
Proof.
  destruct st as [m g]. unfold holds_for, put_pod, on_node. simpl. rewrite filter_app, filter_cons, filter_nil.
  destruct (info_for lsci overhead m (pod_NodeName pod) g) as [ni g1] eqn:Hi. apply info_for_spec in Hi.
  assert (∀ n, let r := NodeInfo.AddPod lsci overhead n pod g1 in
    node_pods r.1 = node_pods n ++ [pod] ∧ node r.1 = node n ∧ (ni_wf lsci overhead n → ni_wf lsci overhead r.1))
    as Hadd.
  { intros n. split_and!; [..|by apply AddPodInfo_wf]; unfold NodeInfo.AddPod, NodeInfo.AddPodInfo;
      destruct (calculateResource _ _ _) as [[? ?] ?]; [|done].
    unfold node_pods. simpl. by rewrite fmap_app. }
  specialize (Hadd ni). destruct (NodeInfo.AddPod lsci overhead ni pod g1) as [ni' g2]. simpl in *.
  destruct Hadd as (Hp & Hn & Hw). destruct (decide (pod_NodeName pod = x)) as [Hx|Hx].
  - rewrite Hx, lookup_insert_eq in *. destruct Hi as [->|(-> & Hp0 & Hn' & Hw')].
    + intros (H1 & H2 & H3 & H4). rewrite Hp, Hn, H1. split_and!; auto. left. by destruct (filter _ pods).
    + intros [-> _]. rewrite Hp, Hn, Hp0, Hn'. split_and!; auto.
  - by rewrite lookup_insert_ne, app_nil_r.
Qed.

Lemma put_node_holds im st pods nodes nd x :
  holds_for st.1 x pods nodes → holds_for (put_node lsci overhead im st nd).1 x pods (nodes ++ [nd]).
Proof.
  destruct st as [m g]. unfold holds_for, put_node, named. cbn [fst]. rewrite filter_app, filter_cons, filter_nil.
  destruct (info_for lsci overhead m (node_Name nd) g) as [ni g1] eqn:Hi. apply info_for_spec in Hi.
  assert (∀ n, let r := NodeInfo.SetNode lsci n nd g1 in ∀ im', node_pods (set_ImageStates r.1 im') = node_pods n ∧
    node (set_ImageStates r.1 im') = Some nd ∧
    (ni_wf lsci overhead n → ni_wf lsci overhead (set_ImageStates r.1 im'))) as Hset.
  { intros n r im'. split_and!; [done|done|]. intros []. by split. }
  specialize (Hset ni). destruct (NodeInfo.SetNode lsci ni nd g1) as [ni' g2]. cbn [fst] in *.
  destruct (Hset (getNodeImageStates nd im)) as (Hp & Hn & Hw).
  destruct (decide (node_Name nd = x)) as [Hx|Hx]; [|by rewrite lookup_insert_ne, app_nil_r].
  rewrite Hx, lookup_insert_eq in *. cbv beta iota. rewrite last_snoc, Hp, Hn.
  assert (filter (λ nd', node_Name nd' = x) nodes ++ [nd] ≠ []) as Hne by (by destruct (filter _ nodes)).
  destruct Hi as [->|(-> & Hp0 & _ & Hw0)].
  - intros (H1 & H2 & H3 & H4). auto.
  - intros [H1 _]. rewrite Hp0, H1. auto.
Qed.

Lemma createNodeInfoMap_holds pods nodes g x :
  holds_for (createNodeInfoMap lsci overhead pods nodes g).1 x pods nodes.
Proof.
  unfold createNodeInfoMap. generalize (createImageExistenceMap nodes) as im. intros im.
  induction nodes as [|nd nodes IH] using rev_ind; simpl.
  - induction pods as [|pod pods IH] using rev_ind; simpl; [done|].
    rewrite foldl_app. by apply put_pod_holds.
  - rewrite foldl_app. by apply put_node_holds.
Qed.

(** The map and the store of a new snapshot. *)
Lemma new_snapshot_lookup (infos : gmap string NodeInfo) names x :
  NoDup names →
  let objects := imap (λ i name, (i, default zero_NodeInfo (infos !! name))) names in
  let locs : gmap string nat := list_to_map (imap (λ i name, (name, i)) names) in
  let objs : gmap nat NodeInfo := list_to_map objects in
  match locs !! x with
  | Some l => x ∈ names ∧ objs !! l = Some (default zero_NodeInfo (infos !! x))
  | None => x ∉ names
  end.
Proof.
  intros Hnd objects locs objs.
  assert (NoDup (imap (λ i name, (name, i)) names).*1) as Hnd1.
  { rewrite fmap_imap. simpl. replace (imap _ names) with names; [done|].
    clear. induction names as [|y names IH]; simpl; [done|]. f_equal. exact IH. }
  assert (NoDup objects.*1) as Hnd2.
  { unfold objects. rewrite fmap_imap. simpl. replace (imap _ names) with (seq 0 (length names)); [apply NoDup_seq|].
    apply list_eq. intros i. rewrite list_lookup_imap. destruct (decide (i < length names)%nat) as [Hi|Hi].
    - rewrite lookup_seq_lt by done. destruct (lookup_lt_is_Some_2 names i Hi) as [y ->]. done.
    - rewrite lookup_seq_ge, lookup_ge_None_2 by lia. done. }
  destruct (locs !! x) as [l|] eqn:Hl.
  - apply elem_of_list_to_map_2, elem_of_lookup_imap in Hl as (i & y & [= -> ->] & Hi).
    split; [by eapply list_elem_of_lookup_2|]. apply elem_of_list_to_map_1; [done|].
    apply elem_of_lookup_imap. eauto.
  - intros (i & Hi)%list_elem_of_lookup. apply not_elem_of_list_to_map_2 in Hl. apply Hl.
    apply list_elem_of_fmap. exists (x, i). split; [done|]. apply elem_of_lookup_imap. eauto.
Qed.

(** The snapshot of given pods and nodes has, for every node name with a
    node object, the last such object, exactly the pods that name it in their
    order with the right totals; nothing is found for other names. *)
Theorem new_snapshot_content range pods nodes g x :
  (∀ m, range m ≡ₚ (map_to_list m).*1) →
  match Get (NewSnapshot lsci overhead range pods nodes g) x with
  | Some ni => node ni = last (named x nodes) ∧ named x nodes ≠ [] ∧ node_pods ni = on_node x pods ∧
      ni_wf lsci overhead ni
  | None => named x nodes = []
  end.
Proof.
  intros Hrange. pose proof (createNodeInfoMap_holds pods nodes g x) as Hh.
  set (infos := (createNodeInfoMap lsci overhead pods nodes g).1) in *.
  assert (NoDup (range infos)) as Hnd by (rewrite Hrange; apply NoDup_fst_map_to_list).
  pose proof (new_snapshot_lookup infos (range infos) x Hnd) as Hl.
  unfold Get, NewSnapshot. fold infos. cbn [nodeInfoMap store] in *. cbv zeta in Hl.
  unfold holds_for in Hh. destruct (list_to_map _ !! x) as [l|].
  - destruct Hl as [Hx Hl]. unfold deref. cbn [store]. rewrite Hl. cbn [default from_option].
    rewrite Hrange in Hx. apply list_elem_of_fmap in Hx as ([y ni] & -> & Hy%elem_of_map_to_list).
    cbn [fst] in *. rewrite Hy in *. destruct Hh as (H1 & H2 & H3 & H4). simpl.
    case_bool_decide as Hn; [by apply last_None; rewrite <- H2|]. split_and!; try done.
    intros He. rewrite He in H2. done.
  - assert (infos !! x = None) as Hx.
    { apply eq_None_not_Some. intros [ni Hni]. apply Hl. rewrite Hrange. apply list_elem_of_fmap.
      exists (x, ni). by rewrite elem_of_map_to_list. }
    rewrite Hx in Hh. by destruct Hh.
Qed.
End NewProofs.

(** ** Examples *)

Definition sample_range (m : gmap string nat) : list string := (map_to_list m).*1.

Definition update_or (c : schedulerCache) (s : Snapshot) : Snapshot :=
  match UpdateSnapshot sample_range c s with Some (s', _) => s' | None => s end.

Definition sample_snapshot : Snapshot := update_or (sample_state 2) NewEmptySnapshot.

Lemma snapshot_incremental_witness :
  ∃ s', UpdateSnapshot sample_range (sample_state 4) sample_snapshot = Some (s', true) ∧
    Get s' "a" = infos (sample_state 4) !! "a" ∧ Get s' "b" = None.
Proof.
  assert (trace (sys_step true true 30 sample_range) (newSchedulerCache 0, NewEmptySnapshot)
    [SysCache (EvAddNode (sample_node "a" "z1"), true); SysCache (EvAssume (sample_pod "p" "a"), true);
     SysSnapshot true; SysCache (EvFinish (sample_pod "p" "a") 100, true);
     SysCache (EvAssume (sample_pod "q" "b"), true)] (sample_state 4, sample_snapshot)) as Htr.
  { apply trace_cons with (sample_state 1, NewEmptySnapshot); [exact (conj (sample_step 0 _ eq_refl) eq_refl)|].
    apply trace_cons with (sample_state 2, NewEmptySnapshot); [exact (conj (sample_step 1 _ eq_refl) eq_refl)|].
    apply trace_cons with (sample_state 2, sample_snapshot); [unfold sys_step; cbn [fst snd]; split; [reflexivity|vm_compute; reflexivity]|].
    apply trace_cons with (sample_state 3, sample_snapshot); [exact (conj (sample_step 2 _ eq_refl) eq_refl)|].
    apply trace_cons with (sample_state 4, sample_snapshot); [exact (conj (sample_step 3 _ eq_refl) eq_refl)|].
    apply trace_nil. }
  destruct (snapshot_incremental true true 30 sample_range (λ m, Permutation_refl _) 0 _ _ _
    ltac:(lia) Htr) as (s' & s0 & Hup & _ & Hget & _).
  exists s'. split; [exact Hup|]. destruct (Hget "a") as [-> _], (Hget "b") as [-> _].
  split; vm_compute; reflexivity.
Defined.

(** Three nodes in two zones, then one of them moves to a third zone. *)
Definition zone_state : schedulerCache :=
  foldl (λ c nd, AddNode true true c nd) (newSchedulerCache 0)
    [sample_node "a" "z1"; sample_node "b" "z1"; sample_node "c" "z2"].

Definition moved_state : schedulerCache :=
  match UpdateNode true true zone_state (sample_node "a" "z1") (sample_node "a" "z3") with
  | Ret c => c
  | Panic => zone_state
  end.

(** A node that moves to another zone changes the order of the node tree
    but not that of the snapshot: the map, the affinity and the number of nodes
    stay the same, so the next [UpdateSnapshot] does not rebuild the list, and
    the list is no longer ordered as in the tree. *)
Theorem snapshot_order_stale :
  let s := update_or zone_state NewEmptySnapshot in
  let s' := update_or moved_state s in
  (node_Name <$> omap node (List_ s)) = ["a"; "c"; "b"] ∧
  nt_list (ctree zone_state) = Some (["a"; "c"; "b"], true) ∧
  (node_Name <$> omap node (List_ s')) = ["a"; "c"; "b"] ∧
  nt_list (ctree moved_state) = Some (["b"; "c"; "a"], true) ∧
  UpdateSnapshot sample_range moved_state s = Some (s', true).
Proof. vm_compute. repeat split. Qed.

Lemma new_snapshot_content_witness :
  let s := NewSnapshot true true (λ m, (map_to_list m).*1) [sample_pod "p" "a"; sample_pod "q" "b"]
    [sample_node "a" "z1"] 0 in
  named "b" [sample_node "a" "z1"] = [] ∧ Get s "b" = None ∧
  match Get s "a" with Some ni => node_pods ni = [sample_pod "p" "a"] | None => False end.
Proof.
  intros s. split; [reflexivity|]. split; [vm_compute; reflexivity|].
  pose proof (new_snapshot_content true true (λ m, (map_to_list m).*1)
    [sample_pod "p" "a"; sample_pod "q" "b"] [sample_node "a" "z1"] 0 "a" (λ m, Permutation_refl _)) as H.
  fold s in H. destruct (Get s "a") as [ni|]; [|discriminate H].
  destruct H as (_ & _ & H & _). rewrite H. reflexivity.
Defined.
