(* ===== verification/SchedQueue.v ===== *)
(** * The scheduling queue: [pkg/scheduler/internal/queue/scheduling_queue.go]

    The pods that wait to be scheduled, in three sub-queues: [activeQ] and
    [podBackoffQ], which are heaps of [SchedHeap], and the map
    [unschedulableQ]; and the pods nominated to nodes.  Every operation runs
    under the queue's lock, so it is one step; times are integers in
    nanoseconds and the clock is an argument.

    A [QueuedPodInfo] points to its [PodInfo], which the lists of the nominator
    share and [updatePod] writes through.  [qpi_ref] is the address of the object,
    and writing it changes the copies with that address ([write_ref]); the address
    of a new object is an argument.  The order
    in which Go's [range] meets the keys of a map is a parameter. *)

From S2P Require Import Prelude GoHeap SchedHeap Labels ApiTypes NodeInfo.
#[local] Open Scope Z_scope.

(** ** Cluster events: [framework/types.go] and [queue/events.go] *)

Definition at_Add : Z := Z.shiftl 1 0.
Definition at_Delete : Z := Z.shiftl 1 1.
Definition at_UpdateNodeAllocatable : Z := Z.shiftl 1 2.
Definition at_UpdateNodeLabel : Z := Z.shiftl 1 3.
Definition at_UpdateNodeTaint : Z := Z.shiftl 1 4.
Definition at_UpdateNodeCondition : Z := Z.shiftl 1 5.
Definition at_All : Z := Z.shiftl 1 6 - 1.
Definition at_Update : Z :=
  Z.lor (Z.lor (Z.lor at_UpdateNodeAllocatable at_UpdateNodeLabel) at_UpdateNodeTaint)
    at_UpdateNodeCondition.

Record ClusterEvent := mkClusterEvent { ce_Resource : string; ce_ActionType : Z }.
#[export] Instance ClusterEvent_eq_dec : EqDecision ClusterEvent.
Proof. solve_decision. Defined.

Definition WildCardEvent : ClusterEvent := mkClusterEvent "*" at_All.

Definition clusterEventReg : gmap string ClusterEvent :=
  list_to_map
    [("AssignedPodAdd", mkClusterEvent "Pod" at_Add);
     ("AssignedPodUpdate", mkClusterEvent "Pod" at_Update);
     ("AssignedPodDelete", mkClusterEvent "Pod" at_Delete);
     ("NodeAdd", mkClusterEvent "Node" at_Add);
     ("NodeSpecUnschedulableChange", mkClusterEvent "Node" at_UpdateNodeTaint);
     ("NodeAllocatableChange", mkClusterEvent "Node" at_UpdateNodeAllocatable);
     ("NodeLabelChange", mkClusterEvent "Node" at_UpdateNodeLabel);
     ("NodeTaintChange", mkClusterEvent "Node" at_UpdateNodeTaint);
     ("NodeConditionChange", mkClusterEvent "Node" at_UpdateNodeCondition);
     ("PvAdd", mkClusterEvent "PersistentVolume" at_Add);
     ("PvUpdate", mkClusterEvent "PersistentVolume" at_Update);
     ("PvcAdd", mkClusterEvent "PersistentVolumeClaim" at_Add);
     ("PvcUpdate", mkClusterEvent "PersistentVolumeClaim" at_Update);
     ("StorageClassAdd", mkClusterEvent "storage.k8s.io/StorageClass" at_Add);
     ("CSINodeAdd", mkClusterEvent "storage.k8s.io/CSINode" at_Add);
     ("CSINodeUpdate", mkClusterEvent "storage.k8s.io/CSINode" at_Update);
     ("ServiceAdd", mkClusterEvent "Service" at_Add);
     ("ServiceUpdate", mkClusterEvent "Service" at_Update);
     ("ServiceDelete", mkClusterEvent "Service" at_Delete);
     ("UnschedulableTimeout", WildCardEvent)].

(** ** Pods in the queue *)

Record QueuedPodInfo := mkQPI {
  qpi_ref : nat;
  qpi_PodInfo : PodInfo;
  Timestamp : Z;
  Attempts : Z;
  InitialAttemptTimestamp : Z;
  UnschedulablePlugins : gset string;
}.

Definition qpi_Pod (q : QueuedPodInfo) : Pod := pi_Pod (qpi_PodInfo q).

Definition MetaNamespaceKeyFunc (pod : Pod) : string :=
  if (0 <? String.length (pod_Namespace pod))%nat
  then pod_Namespace pod +:+ "/" +:+ pod_Name pod else pod_Name pod.

Definition podInfoKeyFunc (q : QueuedPodInfo) : option string := Some (MetaNamespaceKeyFunc (qpi_Pod q)).

Definition GetPodFullName (pod : Pod) : string := pod_Name pod +:+ "_" +:+ pod_Namespace pod.

(** [PrioritySort.Less], the order of the default profile. *)
Definition PodPriority (pod : Pod) : Z := default 0 (pod_Priority pod).

Definition PrioritySort_Less (pInfo1 pInfo2 : QueuedPodInfo) : bool :=
  let p1 := PodPriority (qpi_Pod pInfo1) in
  let p2 := PodPriority (qpi_Pod pInfo2) in
  (p2 <? p1) || ((p1 =? p2) && (Timestamp pInfo1 <? Timestamp pInfo2)).

(** Only the pod is set. *)
Definition newQueuedPodInfoForLookup (pod : Pod) : QueuedPodInfo :=
  mkQPI 0 (mkPodInfo pod [] [] [] [] []) 0 0 0 ∅.

(** ** Nominated pods *)

Record nominatedPodMap := mkNPM {
  nominatedPods : gmap string (list (nat * PodInfo));
  nominatedPodToNode : gmap string string;
}.

Definition NewPodNominator : nominatedPodMap := mkNPM ∅ ∅.

Definition np_list (npm : nominatedPodMap) (nnn : string) : list (nat * PodInfo) :=
  default [] (nominatedPods npm !! nnn).

(** The first pod of the list with this UID goes. *)
Fixpoint remove_uid (uid : string) (l : list (nat * PodInfo)) : list (nat * PodInfo) :=
  match l with
  | [] => []
  | np :: l => if (pod_UID (pi_Pod np.2) =? uid)%string then l else np :: remove_uid uid l
  end.

Definition has_uid (uid : string) (l : list (nat * PodInfo)) : bool :=
  existsb (λ np, (pod_UID (pi_Pod np.2) =? uid)%string) l.

Definition npm_delete (npm : nominatedPodMap) (p : Pod) : nominatedPodMap :=
  match nominatedPodToNode npm !! pod_UID p with
  | None => npm
  | Some nnn =>
      let l := np_list npm nnn in
      let pods :=
        if has_uid (pod_UID p) l then
          let l := remove_uid (pod_UID p) l in
          if (length l =? 0)%nat then delete nnn (nominatedPods npm)
          else <[nnn := l]> (nominatedPods npm)
        else nominatedPods npm in
      mkNPM pods (delete (pod_UID p) (nominatedPodToNode npm))
  end.

Definition NominatedNodeName (pod : Pod) : string := pod_NominatedNodeName pod.

Definition npm_add (npm : nominatedPodMap) (pi : nat * PodInfo) (nodeName : string) : nominatedPodMap :=
  let npm := npm_delete npm (pi_Pod pi.2) in
  let nnn := if (String.length nodeName =? 0)%nat then NominatedNodeName (pi_Pod pi.2) else nodeName in
  if (String.length nnn =? 0)%nat then npm
  else
    let uid := pod_UID (pi_Pod pi.2) in
    let npm := mkNPM (nominatedPods npm) (<[uid := nnn]> (nominatedPodToNode npm)) in
    if has_uid uid (np_list npm nnn) then npm
    else mkNPM (<[nnn := np_list npm nnn ++ [pi]]> (nominatedPods npm)) (nominatedPodToNode npm).

Definition AddNominatedPod (npm : nominatedPodMap) (pi : nat * PodInfo) (nodeName : string)
    : nominatedPodMap := npm_add npm pi nodeName.

Definition DeleteNominatedPodIfExists (npm : nominatedPodMap) (pod : Pod) : nominatedPodMap :=
  npm_delete npm pod.

Definition NominatedPodsForNode (npm : nominatedPodMap) (nodeName : string) : list PodInfo :=
  snd <$> np_list npm nodeName.

Definition UpdateNominatedPod (npm : nominatedPodMap) (oldPod : Pod) (newPodInfo : nat * PodInfo)
    : nominatedPodMap :=
  let nodeName :=
    if (NominatedNodeName oldPod =? EmptyString)%string &&
       (NominatedNodeName (pi_Pod newPodInfo.2) =? EmptyString)%string
    then default EmptyString (nominatedPodToNode npm !! pod_UID oldPod) else EmptyString in
  npm_add (npm_delete npm oldPod) newPodInfo nodeName.

(** A write to the object [ref], seen through the lists. *)
Definition write_entry (ref : nat) (pi : PodInfo) (np : nat * PodInfo) : nat * PodInfo :=
  if (np.1 =? ref)%nat then (np.1, pi) else np.

Definition write_ref (npm : nominatedPodMap) (ref : nat) (pi : PodInfo) : nominatedPodMap :=
  mkNPM (map (write_entry ref pi) <$> nominatedPods npm) (nominatedPodToNode npm).

(** ** [UnschedulablePodsMap] *)

Record UnschedulablePodsMap := mkUPM {
  podInfoMap : gmap string QueuedPodInfo;
  us_metric : option Z;
}.

Definition newUnschedulablePodsMap (metricRecorder : option Z) : UnschedulablePodsMap :=
  mkUPM ∅ metricRecorder.

Definition us_addOrUpdate (u : UnschedulablePodsMap) (pInfo : QueuedPodInfo) : UnschedulablePodsMap :=
  let podID := GetPodFullName (qpi_Pod pInfo) in
  mkUPM (<[podID := pInfo]> (podInfoMap u))
    (match podInfoMap u !! podID with None => metric_Inc (us_metric u) | Some _ => us_metric u end).

Definition us_delete (u : UnschedulablePodsMap) (pod : Pod) : UnschedulablePodsMap :=
  let podID := GetPodFullName pod in
  mkUPM (delete podID (podInfoMap u))
    (match podInfoMap u !! podID with Some _ => metric_Dec (us_metric u) | None => us_metric u end).

Definition us_get (u : UnschedulablePodsMap) (pod : Pod) : option QueuedPodInfo :=
  podInfoMap u !! GetPodFullName pod.

(** The gauge of the recorder goes to zero. *)
Definition us_clear (u : UnschedulablePodsMap) : UnschedulablePodsMap :=
  mkUPM ∅ ((λ _, 0) <$> us_metric u).

(** ** Updates that may make a pod schedulable *)

(** The generation of the metadata is not part of [Pod]. *)
Definition strip (pod : Pod) : Pod :=
  mkPod (pod_Name pod) (pod_Namespace pod) (pod_UID pod) EmptyString (pod_Labels pod)
    (pod_Containers pod) (pod_InitContainers pod) (pod_Overhead pod) (pod_NodeName pod)
    (pod_Affinity pod) (pod_Priority pod) EmptyString (pod_SchedulerName pod) (pod_NodeSelector pod)
    (pod_Tolerations pod) (pod_Annotations pod) (pod_ManagedFields pod) (pod_Finalizers pod)
    (pod_DeletionTimestamp pod) [] (pod_PreemptionPolicy pod) (pod_CreationTimestamp pod) (pod_OwnerReferences pod)
    EmptyString None [].

Definition isPodUpdated (oldPod newPod : Pod) : bool := negb (bool_decide (strip oldPod = strip newPod)).

(** ** The queue *)

Record PriorityQueue := mkPQ {
  activeQ : Heap QueuedPodInfo;
  podBackoffQ : Heap QueuedPodInfo;
  unschedulableQ : UnschedulablePodsMap;
  schedulingCycle : Z;
  moveRequestCycle : Z;
  closed : bool;
  pcond : Cond;
  nominator : nominatedPodMap;
}.

Definition set_activeQ (p : PriorityQueue) (h : Heap QueuedPodInfo) : PriorityQueue :=
  mkPQ h (podBackoffQ p) (unschedulableQ p) (schedulingCycle p) (moveRequestCycle p) (closed p)
    (pcond p) (nominator p).
Definition set_backoffQ (p : PriorityQueue) (h : Heap QueuedPodInfo) : PriorityQueue :=
  mkPQ (activeQ p) h (unschedulableQ p) (schedulingCycle p) (moveRequestCycle p) (closed p)
    (pcond p) (nominator p).
Definition set_unschedulableQ (p : PriorityQueue) (u : UnschedulablePodsMap) : PriorityQueue :=
  mkPQ (activeQ p) (podBackoffQ p) u (schedulingCycle p) (moveRequestCycle p) (closed p)
    (pcond p) (nominator p).
Definition set_nominator (p : PriorityQueue) (n : nominatedPodMap) : PriorityQueue :=
  mkPQ (activeQ p) (podBackoffQ p) (unschedulableQ p) (schedulingCycle p) (moveRequestCycle p)
    (closed p) (pcond p) n.
Definition set_cond (p : PriorityQueue) (c : Cond) : PriorityQueue :=
  mkPQ (activeQ p) (podBackoffQ p) (unschedulableQ p) (schedulingCycle p) (moveRequestCycle p)
    (closed p) c (nominator p).
Definition set_moveRequestCycle (p : PriorityQueue) (c : Z) : PriorityQueue :=
  mkPQ (activeQ p) (podBackoffQ p) (unschedulableQ p) (schedulingCycle p) c (closed p) (pcond p)
    (nominator p).
Definition Broadcast (p : PriorityQueue) : PriorityQueue := set_cond p (cond_Broadcast (pcond p)).

(** The plugin's order, the configured durations and plugin events, the gate
    of the namespace selectors with the labels of a namespace, and the order of
    Go's [range]. *)
Section Queue.
Context (lessFn : QueuedPodInfo → QueuedPodInfo → bool).
Context (podInitialBackoffDuration podMaxBackoffDuration : Z).
Context (clusterEventMap : list (ClusterEvent * gset string)).
Context (nsSelectorEnabled : bool) (namespaceLabels : string → Labels).
Context (range : gmap string QueuedPodInfo → list string).

(** The loop of [calculateBackoffDuration] with [n] iterations left. *)
Fixpoint backoff_loop (n : nat) (duration : Z) : Z :=
  match n with
  | O => duration
  | S n =>
      let duration := int64 (duration * 2) in
      if podMaxBackoffDuration <? duration then podMaxBackoffDuration else backoff_loop n duration
  end.

Definition calculateBackoffDuration (podInfo : QueuedPodInfo) : Z :=
  backoff_loop (Z.to_nat (Attempts podInfo - 1)) podInitialBackoffDuration.

Definition getBackoffTime (podInfo : QueuedPodInfo) : Z :=
  Timestamp podInfo + calculateBackoffDuration podInfo.

Definition podsCompareBackoffCompleted (pInfo1 pInfo2 : QueuedPodInfo) : bool :=
  getBackoffTime pInfo1 <? getBackoffTime pInfo2.

Local Abbreviation a_Add := (SchedHeap.Add podInfoKeyFunc lessFn).
Local Abbreviation a_Update := (SchedHeap.Update podInfoKeyFunc lessFn).
Local Abbreviation a_Delete := (SchedHeap.Delete podInfoKeyFunc lessFn).
Local Abbreviation a_Get := (SchedHeap.Get podInfoKeyFunc).
Local Abbreviation b_Add := (SchedHeap.Add podInfoKeyFunc podsCompareBackoffCompleted).
Local Abbreviation b_Update := (SchedHeap.Update podInfoKeyFunc podsCompareBackoffCompleted).
Local Abbreviation b_Delete := (SchedHeap.Delete podInfoKeyFunc podsCompareBackoffCompleted).

(** The recorders' gauges. *)
Definition NewPriorityQueue (active backoff unschedulable : option Z) : PriorityQueue :=
  mkPQ (NewWithRecorder active) (NewWithRecorder backoff) (newUnschedulablePodsMap unschedulable)
    0 (-1) false (mkCond 0 0) NewPodNominator.

(** A new object at the address [ref]. *)
Definition newQueuedPodInfo (ref : nat) (pod : Pod) (now : Z) : QueuedPodInfo :=
  mkQPI ref (NewPodInfo pod) now 0 now ∅.

Definition nominate (p : PriorityQueue) (pInfo : QueuedPodInfo) (nodeName : string) : PriorityQueue :=
  set_nominator p (AddNominatedPod (nominator p) (qpi_ref pInfo, qpi_PodInfo pInfo) nodeName).

(** The flag is [true] for a nil error, here and below. *)
Definition Add (p : PriorityQueue) (pod : Pod) (now : Z) (ref : nat) : outcome (PriorityQueue * bool) :=
  let pInfo := newQueuedPodInfo ref pod now in
  let '(h, e) := a_Add (activeQ p) pInfo in
  match e with
  | Some _ => Ret (set_activeQ p h, false)
  | None =>
      let p := set_activeQ p h in
      let p :=
        match us_get (unschedulableQ p) pod with
        | Some _ => set_unschedulableQ p (us_delete (unschedulableQ p) pod)
        | None => p
        end in
      match b_Delete (podBackoffQ p) pInfo with
      | Panic => Panic
      | Ret (b, _) => Ret (Broadcast (nominate (set_backoffQ p b) pInfo EmptyString), true)
      end
  end.

Definition isPodBackingoff (podInfo : QueuedPodInfo) (now : Z) : bool := now <? getBackoffTime podInfo.

Definition SchedulingCycle (p : PriorityQueue) : Z := schedulingCycle p.

Definition exists_in (h : Heap QueuedPodInfo) (pInfo : QueuedPodInfo) : bool :=
  match a_Get h pInfo with inl (Some _) => true | _ => false end.

Definition set_Timestamp (q : QueuedPodInfo) (now : Z) : QueuedPodInfo :=
  mkQPI (qpi_ref q) (qpi_PodInfo q) now (Attempts q) (InitialAttemptTimestamp q) (UnschedulablePlugins q).

Definition AddUnschedulableIfNotPresent (p : PriorityQueue) (pInfo : QueuedPodInfo)
    (podSchedulingCycle now : Z) : PriorityQueue * bool :=
  let pod := qpi_Pod pInfo in
  if bool_decide (is_Some (us_get (unschedulableQ p) pod)) then (p, false)
  else if exists_in (activeQ p) pInfo then (p, false)
  else if exists_in (podBackoffQ p) pInfo then (p, false)
  else
    let pInfo := set_Timestamp pInfo now in
    if podSchedulingCycle <=? moveRequestCycle p then
      match b_Add (podBackoffQ p) pInfo with
      | (b, Some _) => (set_backoffQ p b, false)
      | (b, None) => (nominate (set_backoffQ p b) pInfo EmptyString, true)
      end
    else (nominate (set_unschedulableQ p (us_addOrUpdate (unschedulableQ p) pInfo)) pInfo EmptyString, true).

(** One step of the loop for each pod of the heap, and one to stop. *)
Fixpoint flush_loop (fuel : nat) (p : PriorityQueue) (now : Z) (moved : bool)
    : option (outcome (PriorityQueue * bool)) :=
  match fuel with
  | O => None
  | S fuel =>
      match Peek (podBackoffQ p) with
      | None => Some (Ret (p, moved))
      | Some pInfo =>
          if isPodBackingoff pInfo now then Some (Ret (p, moved))
          else
            match SchedHeap.Pop podsCompareBackoffCompleted (podBackoffQ p) with
            | Panic => Some Panic
            | Ret (b, inr _) => Some (Ret (set_backoffQ p b, moved))
            | Ret (b, inl _) =>
                let p := set_backoffQ p b in
                flush_loop fuel (set_activeQ p (a_Add (activeQ p) pInfo).1) now true
            end
      end
  end.

(** The deferred broadcasts run at the end. *)
Definition flushBackoffQCompleted (p : PriorityQueue) (now : Z) : option (outcome PriorityQueue) :=
  match flush_loop (Len (podBackoffQ p) + 1) p now false with
  | None => None
  | Some Panic => Some Panic
  | Some (Ret (p, moved)) => Some (Ret (if moved then Broadcast p else p))
  end.

(** ** Moving pods *)

Definition intersect (x y : gset string) : bool :=
  let '(x, y) := if (size y <? size x)%nat then (y, x) else (x, y) in
  existsb (λ v, bool_decide (v ∈ y)) (elements x).

Definition podMatchesEvent (podInfo : QueuedPodInfo) (event : string) : bool :=
  match clusterEventReg !! event with
  | None => false
  | Some clusterEvent =>
      if bool_decide (clusterEvent = WildCardEvent) then true
      else
        existsb (λ en : ClusterEvent * gset string,
            let evt := en.1 in
            let evtMatch :=
              bool_decide (evt = WildCardEvent) ||
              ((ce_Resource evt =? ce_Resource clusterEvent)%string &&
               negb (Z.land (ce_ActionType evt) (ce_ActionType clusterEvent) =? 0)) in
            evtMatch && intersect en.2 (UnschedulablePlugins podInfo)) clusterEventMap
  end.

(** The body of the loop, with [moved]. *)
Definition move_pod (event : string) (now : Z) (st : PriorityQueue * bool) (pInfo : QueuedPodInfo)
    : PriorityQueue * bool :=
  let '(p, moved) := st in
  if negb (size (UnschedulablePlugins pInfo) =? 0)%nat && negb (podMatchesEvent pInfo event)
  then (p, moved)
  else
    let pod := qpi_Pod pInfo in
    if isPodBackingoff pInfo now then
      match b_Add (podBackoffQ p) pInfo with
      | (b, Some _) => (set_backoffQ p b, true)
      | (b, None) => let p := set_backoffQ p b in (set_unschedulableQ p (us_delete (unschedulableQ p) pod), true)
      end
    else
      match a_Add (activeQ p) pInfo with
      | (h, Some _) => (set_activeQ p h, true)
      | (h, None) => let p := set_activeQ p h in (set_unschedulableQ p (us_delete (unschedulableQ p) pod), true)
      end.

Definition movePodsToActiveOrBackoffQueue (p : PriorityQueue) (podInfoList : list QueuedPodInfo)
    (event : string) (now : Z) : PriorityQueue :=
  let '(p, moved) := foldl (move_pod event now) (p, false) podInfoList in
  let p := set_moveRequestCycle p (schedulingCycle p) in
  if moved then Broadcast p else p.

(** The pods of [unschedulableQ] in the order of the range. *)
Definition unschedulable_pods (p : PriorityQueue) : list QueuedPodInfo :=
  omap (λ k, podInfoMap (unschedulableQ p) !! k) (range (podInfoMap (unschedulableQ p))).

Definition MoveAllToActiveOrBackoffQueue (p : PriorityQueue) (event : string) (now : Z) : PriorityQueue :=
  movePodsToActiveOrBackoffQueue p (unschedulable_pods p) event now.

Definition unschedulableQTimeInterval : Z := 60 * 1000000000.

Definition flushUnschedulableQLeftover (p : PriorityQueue) (now : Z) : PriorityQueue :=
  let podsToMove :=
    filter (λ pInfo : QueuedPodInfo, (unschedulableQTimeInterval <? now - Timestamp pInfo) = true) (unschedulable_pods p) in
  if (0 <? length podsToMove)%nat
  then movePodsToActiveOrBackoffQueue p podsToMove "UnschedulableTimeout" now else p.

Definition getUnschedulablePodsWithMatchingAffinityTerm (p : PriorityQueue) (pod : Pod)
    : list QueuedPodInfo :=
  let nsLabels := if nsSelectorEnabled then namespaceLabels (pod_Namespace pod) else ∅ in
  filter (λ pInfo : QueuedPodInfo, existsb (λ term, at_Matches term pod nsLabels nsSelectorEnabled)
    (RequiredAffinityTerms (qpi_PodInfo pInfo)) = true) (unschedulable_pods p).

Definition AssignedPodAdded (p : PriorityQueue) (pod : Pod) (now : Z) : PriorityQueue :=
  movePodsToActiveOrBackoffQueue p (getUnschedulablePodsWithMatchingAffinityTerm p pod) "AssignedPodAdd" now.

Definition AssignedPodUpdated (p : PriorityQueue) (pod : Pod) (now : Z) : PriorityQueue :=
  movePodsToActiveOrBackoffQueue p (getUnschedulablePodsWithMatchingAffinityTerm p pod)
    "AssignedPodUpdate" now.

(** ** Pop, Update, Delete, Close *)

Inductive pop_result := PopWait | PopClosed | PopErr | PopItem (pInfo : QueuedPodInfo).

Definition incr_Attempts (q : QueuedPodInfo) : QueuedPodInfo :=
  mkQPI (qpi_ref q) (qpi_PodInfo q) (Timestamp q) (int64 (Attempts q + 1)) (InitialAttemptTimestamp q)
    (UnschedulablePlugins q).

(** Up to the return or to [cond.Wait]; a goroutine that resumes runs it again. *)
Definition Pop (p : PriorityQueue) : outcome (PriorityQueue * pop_result) :=
  if (Len (activeQ p) =? 0)%nat then
    if closed p then Ret (p, PopClosed) else Ret (set_cond p (cond_Wait (pcond p)), PopWait)
  else
    match SchedHeap.Pop lessFn (activeQ p) with
    | Panic => Panic
    | Ret (h, inr _) => Ret (set_activeQ p h, PopErr)
    | Ret (h, inl pInfo) =>
        Ret (mkPQ h (podBackoffQ p) (unschedulableQ p) (int64 (schedulingCycle p + 1))
               (moveRequestCycle p) (closed p) (pcond p) (nominator p),
             PopItem (incr_Attempts pInfo))
    end.

Definition Resume (p : PriorityQueue) : PriorityQueue := set_cond p (cond_Resume (pcond p)).

(** [pInfo.Update(newPod)] writes to the object that the nominator shares. *)
Definition updatePod (p : PriorityQueue) (q : QueuedPodInfo) (newPod : Pod)
    : PriorityQueue * QueuedPodInfo :=
  let pi := NodeInfo.Update (Some (qpi_PodInfo q)) newPod in
  (set_nominator p (write_ref (nominator p) (qpi_ref q) pi),
   mkQPI (qpi_ref q) pi (Timestamp q) (Attempts q) (InitialAttemptTimestamp q) (UnschedulablePlugins q)).

Definition update_nominated (p : PriorityQueue) (oldPod : Pod) (pInfo : QueuedPodInfo) : PriorityQueue :=
  set_nominator p (UpdateNominatedPod (nominator p) oldPod (qpi_ref pInfo, qpi_PodInfo pInfo)).

(** The part of [Update] after the active and the backoff queue. *)
Definition update_unschedulable (p : PriorityQueue) (oldPod : option Pod) (newPod : Pod) (now : Z)
    (ref : nat) : outcome (PriorityQueue * bool) :=
  match us_get (unschedulableQ p) newPod with
  | Some usPodInfo =>
      match oldPod with
      | None => Panic
      | Some oldPod =>
          let '(p, pInfo) := updatePod p usPodInfo newPod in
          let p := set_unschedulableQ p
            (mkUPM (<[GetPodFullName newPod := pInfo]> (podInfoMap (unschedulableQ p)))
               (us_metric (unschedulableQ p))) in
          let p := update_nominated p oldPod pInfo in
          if isPodUpdated oldPod newPod then
            if isPodBackingoff pInfo now then
              match b_Add (podBackoffQ p) pInfo with
              | (b, Some _) => Ret (set_backoffQ p b, false)
              | (b, None) =>
                  let p := set_backoffQ p b in
                  Ret (set_unschedulableQ p (us_delete (unschedulableQ p) (qpi_Pod pInfo)), true)
              end
            else
              match a_Add (activeQ p) pInfo with
              | (h, Some _) => Ret (set_activeQ p h, false)
              | (h, None) =>
                  let p := set_activeQ p h in
                  Ret (Broadcast (set_unschedulableQ p (us_delete (unschedulableQ p) (qpi_Pod pInfo))), true)
              end
          else Ret (set_unschedulableQ p (us_addOrUpdate (unschedulableQ p) pInfo), true)
      end
  | None =>
      let pInfo := newQueuedPodInfo ref newPod now in
      match a_Add (activeQ p) pInfo with
      | (h, Some _) => Ret (set_activeQ p h, false)
      | (h, None) => Ret (Broadcast (nominate (set_activeQ p h) pInfo EmptyString), true)
      end
  end.

Definition Update (p : PriorityQueue) (oldPod : option Pod) (newPod : Pod) (now : Z) (ref : nat)
    : outcome (PriorityQueue * bool) :=
  match oldPod with
  | Some old =>
      let lookup := newQueuedPodInfoForLookup old in
      match a_Get (activeQ p) lookup with
      | inl (Some oldPodInfo) =>
          let '(p, pInfo) := updatePod p oldPodInfo newPod in
          let p := update_nominated p old pInfo in
          let '(h, e) := a_Update (activeQ p) pInfo in
          Ret (set_activeQ p h, bool_decide (e = None))
      | _ =>
          match a_Get (podBackoffQ p) lookup with
          | inl (Some oldPodInfo) =>
              let '(p, pInfo) := updatePod p oldPodInfo newPod in
              let p := update_nominated p old pInfo in
              let '(b, e) := b_Update (podBackoffQ p) pInfo in
              Ret (set_backoffQ p b, bool_decide (e = None))
          | _ => update_unschedulable p oldPod newPod now ref
          end
      end
  | None => update_unschedulable p oldPod newPod now ref
  end.

Definition Delete (p : PriorityQueue) (pod : Pod) : outcome PriorityQueue :=
  let p := set_nominator p (DeleteNominatedPodIfExists (nominator p) pod) in
  let lookup := newQueuedPodInfoForLookup pod in
  match a_Delete (activeQ p) lookup with
  | Panic => Panic
  | Ret (h, None) => Ret (set_activeQ p h)
  | Ret (h, Some _) =>
      let p := set_activeQ p h in
      match b_Delete (podBackoffQ p) lookup with
      | Panic => Panic
      | Ret (b, _) =>
          let p := set_backoffQ p b in
          Ret (set_unschedulableQ p (us_delete (unschedulableQ p) pod))
      end
  end.

Definition PendingPods (p : PriorityQueue) : list Pod :=
  (qpi_Pod <$> SchedHeap.List (activeQ p)) ++ (qpi_Pod <$> SchedHeap.List (podBackoffQ p)) ++
  (qpi_Pod <$> unschedulable_pods p).

(** [Panic] where the channel is closed twice. *)
Definition Close (p : PriorityQueue) : outcome PriorityQueue :=
  if closed p then Panic
  else Ret (Broadcast (mkPQ (activeQ p) (podBackoffQ p) (unschedulableQ p) (schedulingCycle p)
              (moveRequestCycle p) true (pcond p) (nominator p))).

Definition NumUnschedulablePods (p : PriorityQueue) : Z := Z.of_nat (size (podInfoMap (unschedulableQ p))).
End Queue.
