(* ===== verification/QueueInv.v ===== *)
(** * Invariants of the scheduling queue

    What every operation of [SchedQueue] does to the three sub-queues, to the
    nominated pods and to the goroutines that wait in [Pop]; the invariant
    along histories of the queue and the set of pending pods it refines. *)

From Stdlib Require Import Ascii.
From S2P Require Import Prelude GoHeap SchedHeap Labels ApiTypes NodeInfo SchedQueue.
#[local] Open Scope Z_scope.

(** ** Names

    The heaps know a pod as [namespace/name], [unschedulableQ] as
    [name_namespace]; neither separator is allowed in names. *)

Fixpoint free_of (c : Ascii.ascii) (s : string) : bool :=
  match s with
  | EmptyString => true
  | String d s => negb (Ascii.eqb c d) && free_of c s
  end.

Definition name_ok (x : Pod) : Prop :=
  free_of "/"%char (pod_Namespace x) = true ∧ free_of "/"%char (pod_Name x) = true ∧
  free_of "_"%char (pod_Namespace x) = true ∧ free_of "_"%char (pod_Name x) = true.

Definition same (x y : Pod) : Prop := pod_Namespace x = pod_Namespace y ∧ pod_Name x = pod_Name y.
#[global] Instance same_dec x y : Decision (same x y).
Proof. unfold same. apply _. Defined.

Lemma split_at c a b x y :
  free_of c a = true → free_of c b = true → a +:+ String c x = b +:+ String c y → a = b ∧ x = y.
Proof.
  revert b. induction a as [|d a IH]; intros [|e b] Ha Hb Heq; simpl in *.
  - by simplify_eq.
  - injection Heq as -> _. by rewrite Ascii.eqb_refl in Hb.
  - injection Heq as -> _. by rewrite Ascii.eqb_refl in Ha.
  - injection Heq as -> Heq. apply andb_true_iff in Ha as [_ Ha], Hb as [_ Hb].
    by destruct (IH b Ha Hb Heq) as [-> ->].
Qed.

Lemma free_of_app c a x : free_of c (a +:+ String c x) = false.
Proof. induction a as [|d a IH]; simpl; [by rewrite Ascii.eqb_refl|]. by rewrite IH, andb_false_r. Qed.

Lemma key_same x y :
  name_ok x → name_ok y → MetaNamespaceKeyFunc x = MetaNamespaceKeyFunc y ↔ same x y.
Proof.
  intros (Hx1 & Hx2 & _) (Hy1 & Hy2 & _). unfold MetaNamespaceKeyFunc, same. split; [|by intros [-> ->]].
  destruct (pod_Namespace x) as [|cx nx] eqn:Ex, (pod_Namespace y) as [|cy ny] eqn:Ey; simpl; intros Heq.
  - done.
  - assert (free_of "/" (String cy ny +:+ "/" +:+ pod_Name y) = false) as Hf by apply free_of_app.
    rewrite <- Heq in Hf. congruence.
  - assert (free_of "/" (String cx nx +:+ "/" +:+ pod_Name x) = false) as Hf by apply free_of_app.
    rewrite Heq in Hf. congruence.
  - by apply (split_at "/"%char (String cx nx) (String cy ny)).
Qed.

Lemma full_name_same x y : name_ok x → name_ok y → GetPodFullName x = GetPodFullName y ↔ same x y.
Proof.
  intros (_ & _ & _ & Hx) (_ & _ & _ & Hy). unfold GetPodFullName, same. split; [|by intros [-> ->]].
  intros Heq. by destruct (split_at "_"%char _ _ _ _ Hx Hy Heq) as [-> ->].
Qed.

(** ** Where a pod is *)

Abbreviation active p := (contents (hdata (activeQ p))).
Abbreviation backoff p := (contents (hdata (podBackoffQ p))).
Abbreviation unsched p := (podInfoMap (unschedulableQ p)).

Inductive place := Active | Backoff | Unschedulable.
#[global] Instance place_eq_dec : EqDecision place.
Proof. solve_decision. Defined.

Definition place_of (p : PriorityQueue) (x : Pod) : option (place * QueuedPodInfo) :=
  match active p !! MetaNamespaceKeyFunc x with
  | Some q => Some (Active, q)
  | None =>
      match backoff p !! MetaNamespaceKeyFunc x with
      | Some q => Some (Backoff, q)
      | None => (λ q, (Unschedulable, q)) <$> unsched p !! GetPodFullName x
      end
  end.

(** Lookups by name after an update of one of the maps. *)
Lemma insert_key (m : gmap string QueuedPodInfo) q x y :
  name_ok x → name_ok y →
  <[MetaNamespaceKeyFunc y := q]> m !! MetaNamespaceKeyFunc x =
    if decide (same x y) then Some q else m !! MetaNamespaceKeyFunc x.
Proof.
  intros Hx Hy. case_decide as H.
  - apply (key_same x y Hx Hy) in H as ->. apply lookup_insert_eq.
  - apply lookup_insert_ne. intros Heq. by apply H, key_same.
Qed.

Lemma delete_key (m : gmap string QueuedPodInfo) x y :
  name_ok x → name_ok y →
  delete (MetaNamespaceKeyFunc y) m !! MetaNamespaceKeyFunc x =
    if decide (same x y) then None else m !! MetaNamespaceKeyFunc x.
Proof.
  intros Hx Hy. case_decide as H.
  - apply (key_same x y Hx Hy) in H as ->. apply lookup_delete_eq.
  - apply lookup_delete_ne. intros Heq. by apply H, key_same.
Qed.

Lemma insert_full (m : gmap string QueuedPodInfo) q x y :
  name_ok x → name_ok y →
  <[GetPodFullName y := q]> m !! GetPodFullName x = if decide (same x y) then Some q else m !! GetPodFullName x.
Proof.
  intros Hx Hy. case_decide as H.
  - apply (full_name_same x y Hx Hy) in H as ->. apply lookup_insert_eq.
  - apply lookup_insert_ne. intros Heq. by apply H, full_name_same.
Qed.

Lemma delete_full (m : gmap string QueuedPodInfo) x y :
  name_ok x → name_ok y →
  delete (GetPodFullName y) m !! GetPodFullName x = if decide (same x y) then None else m !! GetPodFullName x.
Proof.
  intros Hx Hy. case_decide as H.
  - apply (full_name_same x y Hx Hy) in H as ->. apply lookup_delete_eq.
  - apply lookup_delete_ne. intros Heq. by apply H, full_name_same.
Qed.

(** ** The nominated pods *)

(** A UID is nominated to the node whose list has it, once; no list is empty. *)
Record npm_wf (n : nominatedPodMap) : Prop := {
  nw_node uid x : nominatedPodToNode n !! uid = Some x → ∃ np, np ∈ np_list n x ∧ pod_UID (pi_Pod np.2) = uid;
  nw_list x l np : nominatedPods n !! x = Some l → np ∈ l →
    nominatedPodToNode n !! pod_UID (pi_Pod np.2) = Some x;
  nw_nodup x l : nominatedPods n !! x = Some l → NoDup ((λ np, pod_UID (pi_Pod np.2)) <$> l) ∧ l ≠ [];
}.

Abbreviation np_uid := (λ np : nat * PodInfo, pod_UID (pi_Pod np.2)).

Lemma has_uid_spec uid l : has_uid uid l = true ↔ uid ∈ np_uid <$> l.
Proof.
  unfold has_uid. rewrite existsb_exists, list_elem_of_fmap. setoid_rewrite String.eqb_eq.
  setoid_rewrite <- list_elem_of_In. naive_solver.
Qed.

Lemma remove_uid_perm uid l :
  uid ∈ np_uid <$> l → ∃ np, np_uid np = uid ∧ l ≡ₚ np :: remove_uid uid l.
Proof.
  induction l as [|np l IH]; simpl; [by intros ?%not_elem_of_nil|].
  destruct (String.eqb_spec (np_uid np) uid) as [He|Hne]; [by exists np|].
  intros [?|Hin]%elem_of_cons; [done|]. destruct (IH Hin) as (np' & Hu & Hp). exists np'. split; [done|].
  rewrite Hp at 1. apply Permutation_swap.
Qed.

Lemma npm_delete_wf n pod :
  npm_wf n →
  npm_wf (npm_delete n pod) ∧
  nominatedPodToNode (npm_delete n pod) = delete (pod_UID pod) (nominatedPodToNode n) ∧
  ∀ x np, np ∈ np_list (npm_delete n pod) x ↔ np ∈ np_list n x ∧ np_uid np ≠ pod_UID pod.
Proof.
  intros [Hnode Hlist Hnd]. unfold npm_delete.
  destruct (nominatedPodToNode n !! pod_UID pod) as [nnn|] eqn:Hto.
  2: { split_and!; [by split|by rewrite delete_id|]. intros x np. split; [|tauto]. intros Hin.
       split; [done|]. intros Heq. unfold np_list in Hin.
       destruct (nominatedPods n !! x) as [l|] eqn:Hl; [|by apply not_elem_of_nil in Hin].
       simpl in Hin. specialize (Hlist x l np Hl Hin). congruence. }
  destruct (Hnode _ _ Hto) as (np0 & Hin0 & Hu0). unfold np_list in Hin0 |- *.
  destruct (nominatedPods n !! nnn) as [l|] eqn:Hl; [|by apply not_elem_of_nil in Hin0]. simpl in Hin0 |- *.
  assert (pod_UID pod ∈ np_uid <$> l) as Hin by (apply list_elem_of_fmap; eauto).
  rewrite (proj2 (has_uid_spec _ l) Hin). destruct (remove_uid_perm _ l Hin) as (np1 & Hu1 & Hperm).
  destruct (Hnd nnn l Hl) as [Hnd1 _]. rewrite Hperm in Hnd1. simpl in Hnd1. apply NoDup_cons in Hnd1 as [Hni Hnd1].
  set (l' := remove_uid (pod_UID pod) l) in *.
  set (pods := if (length l' =? 0)%nat then delete nnn (nominatedPods n) else <[nnn := l']> (nominatedPods n)).
  assert (∀ x l0, pods !! x = Some l0 → (x = nnn ∧ l0 = l' ∧ l' ≠ []) ∨ (x ≠ nnn ∧ nominatedPods n !! x = Some l0)) as Hpods.
  { intros x l0. unfold pods. destruct l' as [|a l'']; simpl.
    - intros [? ?]%lookup_delete_Some. auto.
    - intros [[<- <-]|[? ?]]%lookup_insert_Some; auto. }
  assert (∀ x np, np ∈ default [] (pods !! x) ↔ np ∈ default [] (nominatedPods n !! x) ∧ np_uid np ≠ pod_UID pod) as Hmem.
  { intros x np. destruct (decide (x = nnn)) as [->|Hx].
    - rewrite Hl. simpl. rewrite Hperm, elem_of_cons. unfold pods.
      assert (np ∈ l' → np_uid np ≠ pod_UID pod).
      { intros Hnp Heq. apply Hni. rewrite Hu1, <- Heq. by apply (list_elem_of_fmap_2 np_uid). }
      destruct (Nat.eqb_spec (length l') 0) as [H0|H0].
      + apply length_zero_iff_nil in H0. rewrite lookup_delete_eq. simpl. rewrite H0 in *.
        rewrite elem_of_nil. naive_solver.
      + rewrite lookup_insert_eq. simpl. naive_solver.
    - assert (pods !! x = nominatedPods n !! x) as ->.
      { unfold pods. case_match; [by rewrite lookup_delete_ne|by rewrite lookup_insert_ne]. }
      split; [|tauto]. intros Hnp. split; [done|]. intros Heq. destruct (nominatedPods n !! x) as [l0|] eqn:Hl0.
      + specialize (Hlist x l0 np Hl0 Hnp). congruence.
      + by apply not_elem_of_nil in Hnp. }
  split_and!; [split| |exact Hmem].
  - simpl. intros uid x [Hne Hx]%lookup_delete_Some. destruct (Hnode uid x Hx) as (np & Hnp & Hu).
    exists np. split; [|done]. apply Hmem. split; [done|congruence].
  - simpl. intros x l0 np Hx Hnp. assert (np ∈ default [] (pods !! x)) as [Hold Hne]%Hmem by (by rewrite Hx).
    rewrite lookup_delete_ne by done. destruct (nominatedPods n !! x) as [l1|] eqn:Hl1; [by eapply Hlist|].
    by apply not_elem_of_nil in Hold.
  - simpl. intros x l0 [(-> & -> & Hne)|[_ Hx]]%Hpods; [done|by eapply Hnd].
  - done.
Qed.

(** The node a pod is nominated to by [npm_add], if any. *)
Definition add_target (pi : PodInfo) (nodeName : string) : string :=
  if (String.length nodeName =? 0)%nat then NominatedNodeName (pi_Pod pi) else nodeName.

Lemma npm_add_wf n pi nodeName :
  npm_wf n →
  npm_wf (npm_add n pi nodeName) ∧
  ∀ x np, np ∈ np_list (npm_add n pi nodeName) x ↔
    (np ∈ np_list n x ∧ np_uid np ≠ np_uid pi) ∨
    (np = pi ∧ x = add_target pi.2 nodeName ∧ x ≠ EmptyString).
Proof.
  intros Hwf. destruct (npm_delete_wf n (pi_Pod pi.2) Hwf) as (Hd & Hto & Hmem). unfold npm_add.
  set (d := npm_delete n (pi_Pod pi.2)) in *. fold (add_target pi.2 nodeName).
  set (nnn := add_target pi.2 nodeName).
  destruct (Nat.eqb_spec (String.length nnn) 0) as [H0|H0].
  { assert (nnn = EmptyString) as Hn by (by destruct nnn). split; [done|]. intros x np. rewrite Hmem, Hn.
    naive_solver. }
  assert (nnn ≠ EmptyString) as Hn by (by intros ->). change (np_list (mkNPM (nominatedPods d) _) nnn) with (np_list d nnn).
  destruct (has_uid (np_uid pi) (np_list d nnn)) eqn:Hu.
  { apply has_uid_spec, list_elem_of_fmap in Hu as (np & Hu & Hnp). apply Hmem in Hnp as [_ Hne]. by destruct Hne. }
  assert (np_uid pi ∉ np_uid <$> np_list d nnn) as Hni by (rewrite <- has_uid_spec; congruence). clear Hu.
  assert (∀ x np, np ∈ default [] (<[nnn := np_list d nnn ++ [pi]]> (nominatedPods d) !! x) ↔
    np ∈ np_list d x ∨ (np = pi ∧ x = nnn)) as Hmem2.
  { intros x np. destruct (decide (x = nnn)) as [->|Hx].
    - rewrite lookup_insert_eq. simpl. rewrite elem_of_app, list_elem_of_singleton. tauto.
    - rewrite lookup_insert_ne by done. unfold np_list. tauto. }
  split; [split|].
  - simpl. intros uid x [[<- <-]|[Hne Hx]]%lookup_insert_Some.
    + exists pi. split; [|done]. apply Hmem2. auto.
    + destruct (nw_node _ Hd uid x Hx) as (np & Hnp & Hu). exists np. split; [|done]. apply Hmem2. auto.
  - simpl. intros x l np Hx Hnp. assert (np ∈ default [] (<[nnn := np_list d nnn ++ [pi]]> (nominatedPods d) !! x))
      as [Hold|[-> ->]]%Hmem2 by (by rewrite Hx); [|apply lookup_insert_eq].
    pose proof Hold as [_ Hne]%Hmem. rewrite lookup_insert_ne by done. unfold np_list in Hold.
    destruct (nominatedPods d !! x) as [l'|] eqn:Hl'; [by eapply nw_list|by apply not_elem_of_nil in Hold].
  - simpl. intros x l [[<- <-]|[Hne Hx]]%lookup_insert_Some; [|by eapply nw_nodup].
    split; [|by destruct (np_list d nnn)]. rewrite fmap_app. apply NoDup_app. split_and!.
    + unfold np_list. destruct (nominatedPods d !! nnn) as [l|] eqn:Hl; [|constructor].
      by apply (nw_nodup _ Hd nnn).
    + intros u Hin ->%list_elem_of_singleton. done.
    + apply NoDup_singleton.
  - intros x np. unfold np_list at 1. simpl. rewrite Hmem2, Hmem. naive_solver.
Qed.

Lemma write_ref_list n r pi x : np_list (write_ref n r pi) x = write_entry r pi <$> np_list n x.
Proof. unfold np_list, write_ref. simpl. rewrite lookup_fmap. by destruct (nominatedPods n !! x). Qed.

(** Writing another version of the same pod. *)
Lemma write_ref_wf n r pi :
  npm_wf n → (∀ x np, np ∈ np_list n x → np.1 = r → np_uid np = pod_UID (pi_Pod pi)) →
  npm_wf (write_ref n r pi) ∧
  ∀ x, np_uid <$> np_list (write_ref n r pi) x = np_uid <$> np_list n x.
Proof.
  intros [Hnode Hlist Hnd] Hr.
  assert (∀ l : list (nat * PodInfo), (∀ np, np ∈ l → np.1 = r → np_uid np = pod_UID (pi_Pod pi)) →
    np_uid <$> (write_entry r pi <$> l) = np_uid <$> l) as Huids.
  { induction l as [|np l IH]; intros Hl; [done|]. cbn [fmap list_fmap].
    rewrite IH by (intros; apply Hl; [by right|done]).
    f_equal. unfold write_entry. destruct (Nat.eqb_spec np.1 r) as [He|]; [|done].
    simpl. symmetry. apply Hl; [by left|done]. }
  assert (∀ x, np_uid <$> np_list (write_ref n r pi) x = np_uid <$> np_list n x) as Hall.
  { intros x. rewrite write_ref_list. apply Huids. intros np. apply Hr. }
  split; [split|done].
  - intros uid x Hx. destruct (Hnode uid x Hx) as (np & Hnp & <-).
    assert (np_uid np ∈ np_uid <$> np_list (write_ref n r pi) x) as Hin
      by (rewrite Hall; by apply (list_elem_of_fmap_2 np_uid)).
    apply list_elem_of_fmap in Hin as (np' & Hu & Hnp'). eauto.
  - intros x l np Hx Hnp. simpl in Hx |- *. rewrite lookup_fmap in Hx. apply fmap_Some in Hx as (l0 & Hl0 & ->).
    assert (np_uid np ∈ np_uid <$> l0) as (np0 & Hu & Hnp0)%list_elem_of_fmap.
    { specialize (Hall x). unfold np_list, write_ref in Hall. simpl in Hall. rewrite lookup_fmap, Hl0 in Hall.
      simpl in Hall. rewrite <- Hall. by apply (list_elem_of_fmap_2 np_uid). }
    rewrite Hu. by eapply Hlist.
  - intros x l Hx. simpl in Hx. rewrite lookup_fmap in Hx. apply fmap_Some in Hx as (l0 & Hl0 & ->).
    destruct (Hnd x l0 Hl0) as [H1 H2]. specialize (Hall x). unfold np_list, write_ref in Hall. simpl in Hall.
    rewrite lookup_fmap, Hl0 in Hall. simpl in Hall.
    split; [|by destruct l0]. by rewrite Hall.
Qed.

(** ** The three maps *)

Abbreviation pod_map := (gmap string QueuedPodInfo).

(** Every pod is in at most one of them, under its key. *)
Record maps_inv (a b u : pod_map) : Prop := {
  mi_disj x : name_ok x →
    (is_Some (a !! MetaNamespaceKeyFunc x) →
       b !! MetaNamespaceKeyFunc x = None ∧ u !! GetPodFullName x = None) ∧
    (is_Some (b !! MetaNamespaceKeyFunc x) → u !! GetPodFullName x = None);
  mi_names k q : a !! k = Some q ∨ b !! k = Some q ∨ u !! k = Some q → name_ok (qpi_Pod q);
  mi_keyed k q : u !! k = Some q → k = GetPodFullName (qpi_Pod q);
}.

Lemma maps_inv_sub a b u a' b' u' :
  maps_inv a b u → a' ⊆ a → b' ⊆ b → u' ⊆ u → maps_inv a' b' u'.
Proof.
  intros [H1 H2 H3] Ha Hb Hu. split.
  - intros x Hx. destruct (H1 x Hx) as [H4 H5]. split.
    + intros [q Hq]. destruct H4 as [H6 H7]; [by exists q; eapply lookup_weaken|].
      split; by eapply lookup_weaken_None.
    + intros [q Hq]. eapply lookup_weaken_None; [|done]. apply H5. exists q. by eapply lookup_weaken.
  - intros k q [Hq|[Hq|Hq]]; eapply H2; eauto using lookup_weaken.
  - intros k q Hq. eapply H3. by eapply lookup_weaken.
Qed.

Lemma maps_inv_active a b u q :
  let y := qpi_Pod q in
  maps_inv a b u → name_ok y → b !! MetaNamespaceKeyFunc y = None → u !! GetPodFullName y = None →
  maps_inv (<[MetaNamespaceKeyFunc y := q]> a) b u.
Proof.
  intros y [H1 H2 H3] Hy Hb Hu. split; [| |done].
  - intros x Hx. rewrite insert_key by done. split; [|by apply H1]. case_decide as Hs; [|by apply H1].
    intros _. apply (key_same x y Hx Hy) in Hs as Hk. apply (full_name_same x y Hx Hy) in Hs as ->.
    by rewrite Hk.
  - intros k q' [[[_ <-]|[_ Hq]]%lookup_insert_Some|Hq]; [done|eauto..].
Qed.

Lemma maps_inv_backoff a b u q :
  let y := qpi_Pod q in
  maps_inv a b u → name_ok y → a !! MetaNamespaceKeyFunc y = None → u !! GetPodFullName y = None →
  maps_inv a (<[MetaNamespaceKeyFunc y := q]> b) u.
Proof.
  intros y [H1 H2 H3] Hy Ha Hu. split; [| |done].
  - intros x Hx. rewrite insert_key by done. destruct (decide (same x y)) as [Hs|Hs]; [|by apply H1].
    apply (key_same x y Hx Hy) in Hs as Hk. apply (full_name_same x y Hx Hy) in Hs as ->. rewrite Hk, Ha.
    split; [by intros [? ?]|done].
  - intros k q' [Hq|[[[_ <-]|[_ Hq]]%lookup_insert_Some|Hq]]; [eauto|done|eauto..].
Qed.

Lemma maps_inv_unsched a b u q :
  let y := qpi_Pod q in
  maps_inv a b u → name_ok y → a !! MetaNamespaceKeyFunc y = None → b !! MetaNamespaceKeyFunc y = None →
  maps_inv a b (<[GetPodFullName y := q]> u).
Proof.
  intros y [H1 H2 H3] Hy Ha Hb. split.
  - intros x Hx. rewrite insert_full by done. destruct (decide (same x y)) as [Hs|Hs]; [|by apply H1].
    apply (key_same x y Hx Hy) in Hs as ->. rewrite Ha, Hb. split; by intros [? ?].
  - intros k q' [Hq|[Hq|[[_ <-]|[_ Hq]]%lookup_insert_Some]]; [eauto..|done|eauto].
  - intros k q' [[<- <-]|[_ Hq]]%lookup_insert_Some; [done|eauto].
Qed.

(** ** The copies of the objects *)

Definition copy_in (m : pod_map) (r : nat) (uid : string) : Prop :=
  ∃ k q, m !! k = Some q ∧ qpi_ref q = r ∧ pod_UID (qpi_Pod q) = uid.

Definition nom_copy (n : nominatedPodMap) (r : nat) (uid : string) : Prop :=
  ∃ x np, np ∈ np_list n x ∧ np.1 = r ∧ np_uid np = uid.

Definition has_copy (p : PriorityQueue) (r : nat) (uid : string) : Prop :=
  copy_in (active p) r uid ∨ copy_in (backoff p) r uid ∨ copy_in (unsched p) r uid ∨
  nom_copy (nominator p) r uid.

(** All the copies of an object are of one pod. *)
Definition refs_inv (p : PriorityQueue) : Prop :=
  ∀ r u1 u2, has_copy p r u1 → has_copy p r u2 → u1 = u2.

Definition ref_ok (p : PriorityQueue) (q : QueuedPodInfo) : Prop :=
  ∀ uid, has_copy p (qpi_ref q) uid → uid = pod_UID (qpi_Pod q).

Lemma refs_inv_step p p' r0 u0 :
  refs_inv p → (∀ u, has_copy p r0 u → u = u0) →
  (∀ r u, has_copy p' r u → has_copy p r u ∨ (r = r0 ∧ u = u0)) → refs_inv p'.
Proof.
  intros Hr H0 Hstep r u1 u2 H1 H2.
  apply Hstep in H1 as [H1|[Hr1 Hu1]]; apply Hstep in H2 as [H2|[Hr2 Hu2]]; subst; eauto.
  symmetry. eauto.
Qed.

Lemma copy_insert m k q r uid :
  copy_in (<[k := q]> m) r uid → copy_in m r uid ∨ (r = qpi_ref q ∧ uid = pod_UID (qpi_Pod q)).
Proof. intros (k' & q' & [[_ <-]|[_ Hq]]%lookup_insert_Some & <- & <-); [by right|left]. by exists k', q'. Qed.

Lemma copy_sub m m' r uid : m' ⊆ m → copy_in m' r uid → copy_in m r uid.
Proof. intros Hm (k & q & Hq & <- & <-). exists k, q. split; [|done]. by eapply lookup_weaken. Qed.

Lemma copy_delete m k r uid : copy_in (delete k m) r uid → copy_in m r uid.
Proof. apply copy_sub, delete_subseteq. Qed.

Lemma nom_delete n pod r uid : npm_wf n → nom_copy (npm_delete n pod) r uid → nom_copy n r uid.
Proof.
  intros Hwf (x & np & Hnp & <- & <-). apply npm_delete_wf in Hnp as [Hnp _]; [|done]. by exists x, np.
Qed.

Lemma nom_add n pi node r uid :
  npm_wf n → nom_copy (npm_add n pi node) r uid → nom_copy n r uid ∨ (r = pi.1 ∧ uid = np_uid pi).
Proof.
  intros Hwf (x & np & Hnp & <- & <-). apply npm_add_wf in Hnp as [[Hnp _]|(-> & _)]; [left|by right|done].
  by exists x, np.
Qed.

Lemma nom_write n r0 pi r uid :
  nom_copy (write_ref n r0 pi) r uid → nom_copy n r uid ∨ (r = r0 ∧ uid = pod_UID (pi_Pod pi)).
Proof.
  intros (x & np & Hnp & <- & <-). rewrite write_ref_list in Hnp.
  apply list_elem_of_fmap in Hnp as (np0 & -> & Hnp0). unfold write_entry.
  destruct (Nat.eqb_spec np0.1 r0); [by right|left]. by exists x, np0.
Qed.

(** ** The invariant *)

Section Ops.
Context (lessFn : QueuedPodInfo → QueuedPodInfo → bool) `{!StrictWeakOrder lessFn}.
Context (initial maximum : Z) (clusterEventMap : list (ClusterEvent * gset string)).
Context (nsSelectorEnabled : bool) (namespaceLabels : string → Labels).
Context (range : gmap string QueuedPodInfo → list string).
Context (ra rb ru : option Z).

Local Abbreviation cmp := (podsCompareBackoffCompleted initial maximum).
Local Abbreviation K := MetaNamespaceKeyFunc.
Local Abbreviation F := GetPodFullName.

#[local] Instance cmp_swo : StrictWeakOrder cmp.
Proof.
  split; unfold podsCompareBackoffCompleted; intros *; rewrite ?Z.ltb_lt, ?Z.ltb_ge; lia.
Qed.

(** The gauge of the recorder counts the pods. *)
Definition metric_ok (u : UnschedulablePodsMap) : Prop :=
  us_metric u = (λ r, r + Z.of_nat (size (podInfoMap u))) <$> ru.

(** No goroutine sleeps while there is a pod to pop or the queue is closed. *)
Definition cond_ok (p : PriorityQueue) : Prop :=
  (0 < waiting (pcond p))%nat → active p = ∅ ∧ closed p = false.

Definition cycle_ok (p : PriorityQueue) : Prop :=
  moveRequestCycle p ≤ schedulingCycle p ∧ 0 ≤ schedulingCycle p.

(** What holds also between the parts of an operation. *)
Record queue_core (p : PriorityQueue) : Prop := {
  qi_active : heap_wf podInfoKeyFunc lessFn ra (activeQ p);
  qi_backoff : heap_wf podInfoKeyFunc cmp rb (podBackoffQ p);
  qi_maps : maps_inv (active p) (backoff p) (unsched p);
  qi_metric : metric_ok (unschedulableQ p);
  qi_cycle : cycle_ok p;
  qi_npm : npm_wf (nominator p);
  qi_refs : refs_inv p;
}.

Definition queue_inv (p : PriorityQueue) : Prop := queue_core p ∧ cond_ok p.

Lemma us_add_metric u q : metric_ok u → metric_ok (us_addOrUpdate u q).
Proof.
  unfold metric_ok, us_addOrUpdate. simpl. intros ->. destruct (podInfoMap u !! F (qpi_Pod q)) eqn:He.
  - by rewrite map_size_insert_Some.
  - rewrite map_size_insert_None by done. destruct ru; simpl; [|done]. f_equal. lia.
Qed.

Lemma us_delete_metric u pod : metric_ok u → metric_ok (us_delete u pod).
Proof.
  unfold metric_ok, us_delete. simpl. intros ->. destruct (podInfoMap u !! F pod) eqn:He.
  - pose proof (map_size_delete_Some (F pod) (podInfoMap u) ltac:(eauto)) as Hs.
    assert (0 < size (podInfoMap u))%nat.
    { destruct (size (podInfoMap u)) eqn:H0; [|lia]. apply map_size_empty_inv in H0.
      rewrite H0 in He. done. }
    rewrite Hs. destruct ru; simpl; [|done]. f_equal. lia.
  - by rewrite delete_id.
Qed.

Lemma active_Add h q :
  heap_wf podInfoKeyFunc lessFn ra h →
  ∃ h', SchedHeap.Add podInfoKeyFunc lessFn h q = (h', None) ∧ heap_wf podInfoKeyFunc lessFn ra h' ∧
    contents (hdata h') = <[K (qpi_Pod q) := q]> (contents (hdata h)).
Proof. intros Hh. by apply (Add_spec podInfoKeyFunc lessFn ra h q). Qed.

Lemma backoff_Add h q :
  heap_wf podInfoKeyFunc cmp rb h →
  ∃ h', SchedHeap.Add podInfoKeyFunc cmp h q = (h', None) ∧ heap_wf podInfoKeyFunc cmp rb h' ∧
    contents (hdata h') = <[K (qpi_Pod q) := q]> (contents (hdata h)).
Proof. intros Hh. by apply (Add_spec podInfoKeyFunc cmp rb h q). Qed.

Lemma us_get_delete u pod :
  podInfoMap (match us_get u pod with Some _ => us_delete u pod | None => u end) = delete (F pod) (podInfoMap u) ∧
  (metric_ok u → metric_ok (match us_get u pod with Some _ => us_delete u pod | None => u end)).
Proof.
  unfold us_get. destruct (podInfoMap u !! F pod) eqn:He; simpl.
  - split; [done|apply us_delete_metric].
  - by rewrite delete_id.
Qed.

(** The fields after an operation. *)
Tactic Notation "qsimpl" :=
  cbn [Broadcast nominate update_nominated set_cond set_nominator set_backoffQ set_unschedulableQ
    set_activeQ set_moveRequestCycle activeQ podBackoffQ unschedulableQ schedulingCycle
    moveRequestCycle closed pcond nominator].
Tactic Notation "qsimpl" "in" hyp(H) :=
  cbn [Broadcast nominate update_nominated set_cond set_nominator set_backoffQ set_unschedulableQ
    set_activeQ set_moveRequestCycle activeQ podBackoffQ unschedulableQ schedulingCycle
    moveRequestCycle closed pcond nominator] in H.

(** ** [Add] *)

Lemma drop_unsched p pod :
  match us_get (unschedulableQ p) pod with
  | Some _ => set_unschedulableQ p (us_delete (unschedulableQ p) pod)
  | None => p
  end =
  set_unschedulableQ p
    (match us_get (unschedulableQ p) pod with
     | Some _ => us_delete (unschedulableQ p) pod
     | None => unschedulableQ p
     end).
Proof. destruct (us_get (unschedulableQ p) pod); [done|]. by destruct p. Qed.

(** The copies of an operation that adds those of [q]. *)
Ltac solve_copies :=
  let r := fresh "r" in let uid := fresh "uid" in let H := fresh "H" in
  intros r uid; unfold has_copy; qsimpl;
  unfold AddNominatedPod, UpdateNominatedPod, DeleteNominatedPodIfExists, us_addOrUpdate, us_delete;
  cbn [podInfoMap];
  repeat match goal with E : contents (hdata _) = _ |- _ => rewrite E end;
  repeat match goal with E : podInfoMap _ = _ |- _ => rewrite E end;
  intros [H|[H|[H|H]]];
  repeat match type of H with
  | copy_in (<[_ := _]> _) _ _ => apply copy_insert in H as [H|H]
  | copy_in (delete _ _) _ _ => apply copy_delete in H
  | nom_copy (npm_add _ _ _) _ _ => apply nom_add in H as [H|H]; [..|done]
  | nom_copy (npm_delete _ _) _ _ => apply nom_delete in H; [..|done]
  | nom_copy (write_ref _ _ _) _ _ => apply nom_write in H as [H|H]
  end; auto 7.

Lemma Add_inv p pod now ref :
  let q := newQueuedPodInfo ref pod now in
  queue_core p → name_ok pod → ref_ok p q →
  ∃ p', Add lessFn initial maximum p pod now ref = Ret (p', true) ∧ queue_inv p' ∧
    active p' = <[K pod := q]> (active p) ∧ backoff p' = delete (K pod) (backoff p) ∧
    unsched p' = delete (F pod) (unsched p) ∧
    schedulingCycle p' = schedulingCycle p ∧ moveRequestCycle p' = moveRequestCycle p ∧ closed p' = closed p.
Proof.
  intros q [Ha Hb Hm Hmet Hcy Hn Hr] Hok Href. unfold Add. fold q.
  destruct (active_Add (activeQ p) q Ha) as (h' & -> & Ha' & Hca).
  rewrite drop_unsched. qsimpl. destruct (us_get_delete (unschedulableQ p) pod) as [Hu Hmet'].
  set (u' := match us_get (unschedulableQ p) pod with
             | Some _ => us_delete (unschedulableQ p) pod | None => unschedulableQ p end) in *.
  destruct (Delete_spec podInfoKeyFunc cmp rb (podBackoffQ p) q (K pod) Hb eq_refl) as (b' & e & -> & Hb' & Hcb & _).
  eexists. split; [done|]. qsimpl.
  destruct (npm_add_wf (nominator p) (ref, NewPodInfo pod) EmptyString Hn) as [Hn' _].
  split; [|by rewrite Hca, Hcb, Hu]. split; [|intros Hw; simpl in Hw; lia].
  split; qsimpl; [done|done| |by apply Hmet'|done|done|].
  - rewrite Hca, Hcb, Hu. apply (maps_inv_active _ _ _ q); [|done|apply lookup_delete_eq..].
    eapply maps_inv_sub; [done|done|apply delete_subseteq..].
  - eapply (refs_inv_step p); [done|exact Href|]. solve_copies.
Qed.

(** ** [AddUnschedulableIfNotPresent] *)

Lemma exists_in_spec h q :
  exists_in h q = bool_decide (is_Some (contents (hdata h) !! K (qpi_Pod q))).
Proof.
  unfold exists_in, SchedHeap.Get. simpl. rewrite GetByKey_contents.
  by destruct (contents (hdata h) !! _); [rewrite bool_decide_true|rewrite bool_decide_false by (by intros [? ?])].
Qed.

Lemma place_of_None p x :
  place_of p x = None ↔ active p !! K x = None ∧ backoff p !! K x = None ∧ unsched p !! F x = None.
Proof.
  unfold place_of. destruct (active p !! K x), (backoff p !! K x), (unsched p !! F x); simpl; naive_solver.
Qed.

Lemma AddUnschedulable_inv p q cycle now :
  let q' := set_Timestamp q now in
  queue_inv p → name_ok (qpi_Pod q) → ref_ok p q →
  ∃ p' ok, AddUnschedulableIfNotPresent initial maximum p q cycle now = (p', ok) ∧ queue_inv p' ∧
    (ok = true ↔ place_of p (qpi_Pod q) = None) ∧ (ok = false → p' = p) ∧
    active p' = active p ∧
    (ok = true →
      backoff p' = (if cycle <=? moveRequestCycle p then <[K (qpi_Pod q) := q']> (backoff p) else backoff p) ∧
      unsched p' = (if cycle <=? moveRequestCycle p then unsched p else <[F (qpi_Pod q) := q']> (unsched p))) ∧
    schedulingCycle p' = schedulingCycle p ∧ moveRequestCycle p' = moveRequestCycle p ∧ closed p' = closed p.
Proof.
  intros q' [[Ha Hb Hm Hmet Hcy Hn Hr] Hc] Hok Href. unfold AddUnschedulableIfNotPresent, us_get.
  rewrite !exists_in_spec. pose proof (place_of_None p (qpi_Pod q)) as Hpl.
  destruct (decide (place_of p (qpi_Pod q) = None)) as [Hnone|Hsome].
  2: { exists p, false. split; [|by split_and!]. repeat case_bool_decide; try done. exfalso.
       apply Hsome, Hpl. split_and!; by apply eq_None_not_Some. }
  pose proof Hnone as (H1 & H2 & H3)%Hpl. clear Hpl. rewrite H1, H2, H3.
  rewrite !bool_decide_false by (by intros [? ?]).
  destruct (npm_add_wf (nominator p) (qpi_ref q, qpi_PodInfo q) EmptyString Hn) as [Hn' _].
  destruct (Z.leb_spec cycle (moveRequestCycle p)).
  - fold q'. destruct (backoff_Add (podBackoffQ p) q' Hb) as (b' & -> & Hb' & Hcb).
    eexists _, true. split; [done|]. qsimpl. split; [split; [split; qsimpl|]; try done|by split_and!].
    + rewrite Hcb. by apply (maps_inv_backoff _ _ _ q').
    + eapply (refs_inv_step p); [done|exact Href|]. solve_copies.
  - eexists _, true. split; [done|]. qsimpl. split; [split; [split; qsimpl|]; try done|by split_and!].
    + by apply (maps_inv_unsched _ _ _ q').
    + by apply us_add_metric.
    + eapply (refs_inv_step p); [done|exact Href|]. solve_copies.
Qed.

(** ** Moving pods *)

Definition movable (event : string) (q : QueuedPodInfo) : bool :=
  (size (UnschedulablePlugins q) =? 0)%nat || podMatchesEvent clusterEventMap q event.

Definition target (now : Z) (q : QueuedPodInfo) : place :=
  if isPodBackingoff initial maximum q now then Backoff else Active.

(** The other fields. *)
Definition same_rest (p p' : PriorityQueue) : Prop :=
  schedulingCycle p' = schedulingCycle p ∧ moveRequestCycle p' = moveRequestCycle p ∧
  closed p' = closed p ∧ pcond p' = pcond p ∧ nominator p' = nominator p.

Lemma move_pod_spec event now p moved q :
  queue_core p → unsched p !! F (qpi_Pod q) = Some q →
  let '(p', moved') := move_pod lessFn initial maximum clusterEventMap event now (p, moved) q in
  queue_core p' ∧ same_rest p p' ∧ moved' = moved || movable event q ∧
  unsched p' = (if movable event q then delete (F (qpi_Pod q)) (unsched p) else unsched p) ∧
  (movable event q = false → p' = p) ∧
  ∀ x, name_ok x → place_of p' x =
    if decide (same x (qpi_Pod q)) then Some (if movable event q then target now q else Unschedulable, q)
    else place_of p x.
Proof.
  intros [Ha Hb Hm Hmet Hcy Hn Hr] Hq. pose proof (mi_names _ _ _ Hm _ q (or_intror (or_intror Hq))) as Hok.
  assert (active p !! K (qpi_Pod q) = None ∧ backoff p !! K (qpi_Pod q) = None) as [Hqa Hqb].
  { destruct (mi_disj _ _ _ Hm (qpi_Pod q) Hok) as [H1 H2].
    split; apply eq_None_not_Some; intros Hs; [apply H1 in Hs as [_ Hs]|apply H2 in Hs]; congruence. }
  assert (maps_inv (active p) (backoff p) (delete (F (qpi_Pod q)) (unsched p))) as Hm'.
  { eapply maps_inv_sub; [done|done|done|apply delete_subseteq]. }
  assert (∀ x, name_ok x → same x (qpi_Pod q) → K x = K (qpi_Pod q) ∧ F x = F (qpi_Pod q)) as Hsame.
  { intros x Hx Hs. split; [by apply key_same|by apply full_name_same]. }
  unfold move_pod. replace (negb (size (UnschedulablePlugins q) =? 0)%nat && negb (podMatchesEvent clusterEventMap q event))
    with (negb (movable event q)) by (unfold movable; by rewrite negb_orb).
  destruct (movable event q); simpl negb; cbv iota.
  2: { rewrite orb_false_r. split_and!; try done. intros x Hx. case_decide as Hs; [|done].
       destruct (Hsame x Hx Hs) as [H1 H2]. unfold place_of. by rewrite H1, H2, Hqa, Hqb, Hq. }
  rewrite orb_true_r. unfold target. destruct (isPodBackingoff initial maximum q now).
  - destruct (backoff_Add (podBackoffQ p) q Hb) as (b' & -> & Hb' & Hcb). qsimpl.
    split; [split; qsimpl; try done|split_and!; try done].
    + rewrite Hcb. apply (maps_inv_backoff _ _ _ q); [done|done|done|apply lookup_delete_eq].
    + by apply us_delete_metric.
    + eapply (refs_inv_step p _ (qpi_ref q) (pod_UID (qpi_Pod q))); [done| |solve_copies].
      intros u Hu. eapply Hr; [exact Hu|]. right. right. left. by exists (F (qpi_Pod q)), q.
    + intros x Hx. unfold place_of. qsimpl. rewrite Hcb, insert_key by done. cbn [us_delete podInfoMap].
      rewrite delete_full by done. destruct (decide (same x (qpi_Pod q))) as [Hs|Hs]; [|done].
      destruct (Hsame x Hx Hs) as [H1 H2]. by rewrite H1, Hqa.
  - destruct (active_Add (activeQ p) q Ha) as (h' & -> & Ha' & Hca). qsimpl.
    split; [split; qsimpl; try done|split_and!; try done].
    + rewrite Hca. apply (maps_inv_active _ _ _ q); [done|done|done|apply lookup_delete_eq].
    + by apply us_delete_metric.
    + eapply (refs_inv_step p _ (qpi_ref q) (pod_UID (qpi_Pod q))); [done| |solve_copies].
      intros u Hu. eapply Hr; [exact Hu|]. right. right. left. by exists (F (qpi_Pod q)), q.
    + intros x Hx. unfold place_of. qsimpl. rewrite Hca, insert_key by done. cbn [us_delete podInfoMap].
      rewrite delete_full by done. by destruct (decide (same x (qpi_Pod q))).
Qed.

(** The pod of that name in a list. *)
Definition find_pod (x : Pod) (l : list QueuedPodInfo) : option QueuedPodInfo :=
  List.find (λ q, bool_decide (same x (qpi_Pod q))) l.

Lemma find_pod_cons x q l :
  find_pod x (q :: l) = if decide (same x (qpi_Pod q)) then Some q else find_pod x l.
Proof. unfold find_pod. simpl. case_decide; [by rewrite bool_decide_true|by rewrite bool_decide_false]. Qed.

Lemma find_pod_None x l : (∀ q, q ∈ l → ¬ same x (qpi_Pod q)) → find_pod x l = None.
Proof.
  induction l as [|q l IH]; intros H; [done|]. rewrite find_pod_cons, decide_False by (apply H; by left).
  apply IH. intros q' Hq'. apply H. by right.
Qed.

Lemma same_rest_trans p1 p2 p3 : same_rest p1 p2 → same_rest p2 p3 → same_rest p1 p3.
Proof. unfold same_rest. intros (?&?&?&?&?) (?&?&?&?&?). split_and!; congruence. Qed.

Lemma move_list_spec event now l p moved :
  queue_core p → NoDup ((λ q, F (qpi_Pod q)) <$> l) → (∀ q, q ∈ l → unsched p !! F (qpi_Pod q) = Some q) →
  let '(p', moved') := foldl (move_pod lessFn initial maximum clusterEventMap event now) (p, moved) l in
  queue_core p' ∧ same_rest p p' ∧ moved' = moved || existsb (movable event) l ∧
  (existsb (movable event) l = false → p' = p) ∧
  ∀ x, name_ok x → place_of p' x =
    match find_pod x l with
    | Some q => Some (if movable event q then target now q else Unschedulable, q)
    | None => place_of p x
    end.
Proof.
  revert p moved. induction l as [|q l IH]; intros p moved Hp Hnd Hin; cbn [foldl existsb].
  { rewrite orb_false_r. by split_and!. }
  cbn [fmap list_fmap] in Hnd. apply NoDup_cons in Hnd as [Hq Hnd].
  pose proof (move_pod_spec event now p moved q Hp (Hin q ltac:(by left))) as Hone.
  destruct (move_pod _ _ _ _ _ _ _ q) as [p1 m1]. destruct Hone as (Hp1 & Hr1 & Hm1 & Hu1 & Hs1 & Hpl1).
  specialize (IH p1 m1 Hp1 Hnd). destruct (foldl _ (p1, m1) l) as [p' m'].
  destruct IH as (Hp' & Hr' & Hm' & Hs' & Hpl').
  { intros q' Hq'. rewrite Hu1. destruct (movable event q); [|apply Hin; by right].
    rewrite lookup_delete_ne; [apply Hin; by right|]. intros Heq. apply Hq. rewrite Heq.
    by apply (list_elem_of_fmap_2 (λ q, F (qpi_Pod q))). }
  split_and!; [done|by eapply same_rest_trans| | |].
  - by rewrite Hm', Hm1, orb_assoc.
  - intros [H1 H2]%orb_false_iff. rewrite (Hs' H2). by apply Hs1.
  - intros x Hx. rewrite (Hpl' x Hx), (Hpl1 x Hx), find_pod_cons. case_decide as Hs; [|done].
    rewrite find_pod_None; [done|]. intros q' Hq' Hs'2. apply Hq.
    assert (F (qpi_Pod q) = F (qpi_Pod q')) as ->.
    { assert (name_ok (qpi_Pod q)) by (eapply (mi_names _ _ _ (qi_maps _ Hp)); right; right; apply Hin; by left).
      assert (name_ok (qpi_Pod q')) by (eapply (mi_names _ _ _ (qi_maps _ Hp)); right; right; apply Hin; by right).
      apply full_name_same; [done|done|]. destruct Hs, Hs'2. split; congruence. }
    by apply (list_elem_of_fmap_2 (λ q, F (qpi_Pod q))).
Qed.

Lemma move_request p : queue_core p → queue_core (set_moveRequestCycle p (schedulingCycle p)).
Proof. intros [Ha Hb Hm Hmet Hcy Hn Hr]. split; try done. destruct Hcy. split; qsimpl; [lia|done]. Qed.

Lemma movePods_inv event now l p :
  queue_inv p → NoDup ((λ q, F (qpi_Pod q)) <$> l) → (∀ q, q ∈ l → unsched p !! F (qpi_Pod q) = Some q) →
  let p' := movePodsToActiveOrBackoffQueue lessFn initial maximum clusterEventMap p l event now in
  queue_inv p' ∧ schedulingCycle p' = schedulingCycle p ∧ moveRequestCycle p' = schedulingCycle p ∧
  closed p' = closed p ∧ nominator p' = nominator p ∧
  ∀ x, name_ok x → place_of p' x =
    match find_pod x l with
    | Some q => Some (if movable event q then target now q else Unschedulable, q)
    | None => place_of p x
    end.
Proof.
  intros [Hp Hc] Hnd Hin. unfold movePodsToActiveOrBackoffQueue.
  pose proof (move_list_spec event now l p false Hp Hnd Hin) as H.
  destruct (foldl _ _ l) as [p1 moved]. destruct H as (Hp1 & (H1 & H2 & H3 & H4 & H5) & Hm & Hs & Hpl).
  pose proof (move_request p1 Hp1) as Hp2. simpl in Hm. destruct moved.
  - split; [|split_and!; done || (simpl; congruence)]. split; [by destruct Hp2; split|]. intros Hw. simpl in Hw. lia.
  - symmetry in Hm. rewrite (Hs Hm) in *. split; [|by split_and!]. split; [done|]. exact Hc.
Qed.

Hypothesis range_keys : ∀ m, range m ≡ₚ (map_to_list m).*1.

Lemma unschedulable_pods_spec p :
  queue_core p →
  NoDup ((λ q, F (qpi_Pod q)) <$> unschedulable_pods range p) ∧
  (∀ q, q ∈ unschedulable_pods range p ↔ unsched p !! F (qpi_Pod q) = Some q).
Proof.
  intros Hp. unfold unschedulable_pods.
  assert (∀ l : list string, (∀ k, k ∈ l → is_Some (unsched p !! k)) →
    (λ q, F (qpi_Pod q)) <$> omap (λ k, unsched p !! k) l = l) as Hkeys.
  { induction l as [|k l IH]; intros Hl; [done|]. cbn [omap list_omap].
    destruct (Hl k ltac:(by left)) as [q Hq]. rewrite Hq. cbn [fmap list_fmap].
    rewrite <- (mi_keyed _ _ _ (qi_maps _ Hp) k q Hq). f_equal. apply IH. intros k' Hk'. apply Hl. by right. }
  assert (∀ k, k ∈ range (unsched p) ↔ is_Some (unsched p !! k)) as Hrange.
  { intros k. rewrite range_keys, list_elem_of_fmap. split.
    - intros ([k' q] & -> & Hq%elem_of_map_to_list). eauto.
    - intros [q Hq]. exists (k, q). by rewrite elem_of_map_to_list. }
  split.
  - rewrite Hkeys by (intros k; apply Hrange). rewrite range_keys. apply NoDup_fst_map_to_list.
  - intros q. rewrite list_elem_of_omap. split.
    + intros (k & _ & Hq). by rewrite <- (mi_keyed _ _ _ (qi_maps _ Hp) k q Hq).
    + intros Hq. exists (F (qpi_Pod q)). rewrite Hrange. eauto.
Qed.

(** The pods to move are some of [unschedulableQ]. *)
Lemma movable_list (P : QueuedPodInfo → Prop) `{!∀ q, Decision (P q)} p :
  queue_core p →
  let l := filter P (unschedulable_pods range p) in
  NoDup ((λ q, F (qpi_Pod q)) <$> l) ∧ (∀ q, q ∈ l → unsched p !! F (qpi_Pod q) = Some q) ∧
  ∀ x, name_ok x → find_pod x l =
    match unsched p !! F x with Some q => if decide (P q) then Some q else None | None => None end.
Proof.
  intros Hp l. destruct (unschedulable_pods_spec p Hp) as [Hnd Hin].
  assert (∀ q, q ∈ l ↔ P q ∧ unsched p !! F (qpi_Pod q) = Some q) as Hl.
  { intros q. unfold l. by rewrite list_elem_of_filter, Hin. }
  split_and!.
  - unfold l. clear -Hnd. induction (unschedulable_pods range p) as [|q qs IH]; [constructor|].
    cbn [fmap list_fmap] in Hnd. apply NoDup_cons in Hnd as [Hq Hnd]. rewrite filter_cons.
    case_decide; [|by apply IH]. cbn [fmap list_fmap]. apply NoDup_cons. split; [|by apply IH].
    intros (q' & Heq & [_ Hq']%list_elem_of_filter)%list_elem_of_fmap. apply Hq. rewrite Heq.
    by apply (list_elem_of_fmap_2 (λ q, F (qpi_Pod q))).
  - intros q Hq. by apply Hl.
  - intros x Hx. destruct (find_pod x l) as [q|] eqn:Hf.
    + apply List.find_some in Hf as [Hq%list_elem_of_In Hs%bool_decide_eq_true]. apply Hl in Hq as [HP Hq].
      assert (name_ok (qpi_Pod q)) as Hok by (eapply (mi_names _ _ _ (qi_maps _ Hp)); eauto).
      apply (full_name_same x _ Hx Hok) in Hs as ->. by rewrite Hq, decide_True.
    + destruct (unsched p !! F x) as [q|] eqn:Hq; [|done]. case_decide as HP; [|done]. exfalso.
      pose proof (mi_keyed _ _ _ (qi_maps _ Hp) _ q Hq) as Hk.
      assert (q ∈ l) as Hql by (apply Hl; split; [done|]; by rewrite <- Hk).
      assert (name_ok (qpi_Pod q)) as Hok by (eapply (mi_names _ _ _ (qi_maps _ Hp)); eauto).
      pose proof (List.find_none _ _ Hf q (proj1 (list_elem_of_In _ _) Hql)) as Hno.
      rewrite bool_decide_eq_false in Hno. apply Hno. by apply full_name_same.
Qed.

Lemma place_unsched p x :
  queue_core p → name_ok x →
  place_of p x = match unsched p !! F x with Some q => Some (Unschedulable, q) | None => place_of p x end.
Proof.
  intros Hp Hx. destruct (unsched p !! F x) as [q|] eqn:Hq; [|done].
  destruct (mi_disj _ _ _ (qi_maps _ Hp) x Hx) as [H1 H2]. unfold place_of.
  destruct (active p !! K x) eqn:Ea; [destruct H1; [by eauto|congruence]|].
  destruct (backoff p !! K x) eqn:Eb; [rewrite H2 in Hq by eauto; congruence|]. by rewrite Hq.
Qed.

Lemma place_of_unsched p x q : place_of p x = Some (Unschedulable, q) → unsched p !! F x = Some q.
Proof. unfold place_of. repeat case_match; try done. destruct (unsched p !! F x); simpl; congruence. Qed.

(** Moving the pods of [unschedulableQ] that satisfy [P]. *)
Lemma move_inv (P : QueuedPodInfo → Prop) `{!∀ q, Decision (P q)} event now p :
  queue_inv p →
  let p' := movePodsToActiveOrBackoffQueue lessFn initial maximum clusterEventMap p
              (filter P (unschedulable_pods range p)) event now in
  queue_inv p' ∧ schedulingCycle p' = schedulingCycle p ∧ moveRequestCycle p' = schedulingCycle p ∧
  closed p' = closed p ∧ nominator p' = nominator p ∧
  ∀ x, name_ok x → place_of p' x =
    match place_of p x with
    | Some (Unschedulable, q) =>
        Some (if bool_decide (P q) && movable event q then target now q else Unschedulable, q)
    | o => o
    end.
Proof.
  intros Hinv. destruct (movable_list P p (proj1 Hinv)) as (Hnd & Hin & Hfind).
  destruct (movePods_inv event now _ p Hinv Hnd Hin) as (H1 & H2 & H3 & H4 & H5 & H6).
  split_and!; try done. intros x Hx. rewrite (H6 x Hx), (Hfind x Hx).
  rewrite (place_unsched p x (proj1 Hinv) Hx). destruct (unsched p !! F x) as [q|] eqn:Hq.
  - destruct (decide (P q)); [by rewrite bool_decide_true|by rewrite bool_decide_false].
  - destruct (place_of p x) as [[[] q]|] eqn:Hpl; try done. apply place_of_unsched in Hpl. congruence.
Qed.

Lemma filter_all {A} (l : list A) : filter (λ _, true = true) l = l.
Proof. induction l as [|a l IH]; [done|]. rewrite filter_cons, decide_True by done. by f_equal. Qed.

(** ** [flushBackoffQCompleted] *)

Definition flushed (now : Z) (o : option (place * QueuedPodInfo)) : option (place * QueuedPodInfo) :=
  match o with
  | Some (Backoff, q) => Some (if isPodBackingoff initial maximum q now then Backoff else Active, q)
  | o => o
  end.

(** The first pod of the heap goes to the active queue. *)
Lemma flush_one p q now :
  queue_core p → Peek (podBackoffQ p) = Some q → isPodBackingoff initial maximum q now = false →
  ∃ b h, SchedHeap.Pop cmp (podBackoffQ p) = Ret (b, inl q) ∧
    SchedHeap.Add podInfoKeyFunc lessFn (activeQ p) q = (h, None) ∧
    let p' := set_activeQ (set_backoffQ p b) h in
    queue_core p' ∧ (Len b < Len (podBackoffQ p))%nat ∧
    ∀ x, name_ok x → flushed now (place_of p' x) = flushed now (place_of p x).
Proof.
  intros [Ha Hb Hm Hmet Hcy Hn Hr] Hpk Hbo.
  destruct (Pop_spec podInfoKeyFunc cmp rb (podBackoffQ p) q Hb Hpk) as (b & k & -> & Hb' & [= <-] & Hcb & Hq & _).
  destruct (active_Add (activeQ p) q Ha) as (h & Hadd & Ha' & Hca). exists b, h. split; [done|]. split; [done|].
  intros p'. assert (name_ok (qpi_Pod q)) as Hok by (eapply (mi_names _ _ _ Hm); eauto).
  assert (active p !! K (qpi_Pod q) = None ∧ unsched p !! F (qpi_Pod q) = None) as [Hqa Hqu].
  { destruct (mi_disj _ _ _ Hm (qpi_Pod q) Hok) as [H1 H2]. split; [|apply H2; eauto].
    apply eq_None_not_Some. intros Hs. apply H1 in Hs as [Hs _]. discriminate (eq_trans (eq_sym Hq) Hs). }
  split_and!.
  - unfold p'. split; qsimpl; try done.
    + rewrite Hca, Hcb. apply (maps_inv_active _ _ _ q); [|done|apply lookup_delete_eq|done].
      eapply maps_inv_sub; [done|done|apply delete_subseteq|done].
    + eapply (refs_inv_step p _ (qpi_ref q) (pod_UID (qpi_Pod q))); [done| |solve_copies].
      intros u Hu. eapply Hr; [exact Hu|]. right. left. by exists (K (qpi_Pod q)), q.
  - rewrite (Len_contents _ _ _ _ Hb'), (Len_contents _ _ _ _ Hb), Hcb.
    rewrite (map_size_delete_Some (K (qpi_Pod q))) by eauto.
    destruct (size (backoff p)) eqn:H0; [|lia]. apply map_size_empty_inv in H0. rewrite H0 in Hq. done.
  - intros x Hx. unfold place_of, p'. qsimpl. rewrite Hca, Hcb, insert_key, delete_key by done.
    case_decide as Hs; [|done]. assert (K x = K (qpi_Pod q)) as -> by (by apply key_same).
    rewrite Hqa, Hq. simpl. by rewrite Hbo.
Qed.

Lemma flush_loop_spec now : ∀ fuel p moved,
  queue_core p → (Len (podBackoffQ p) < fuel)%nat →
  ∃ p' moved', flush_loop lessFn initial maximum fuel p now moved = Some (Ret (p', moved')) ∧
    queue_core p' ∧ same_rest p p' ∧ (moved' = false → p' = p ∧ moved = false) ∧
    ∀ x, name_ok x → place_of p' x = flushed now (place_of p x).
Proof.
  induction fuel as [|fuel IH]; intros p moved Hp Hlen; [lia|]. cbn [flush_loop].
  pose proof (Peek_spec podInfoKeyFunc cmp rb (podBackoffQ p) (qi_backoff _ Hp)) as Hpk.
  destruct (Peek (podBackoffQ p)) as [q|] eqn:Hpeek.
  2: { exists p, moved. split_and!; try done. intros x Hx. unfold flushed, place_of. rewrite Hpk.
       rewrite lookup_empty. by destruct (active p !! K x), (unsched p !! F x). }
  destruct Hpk as (k & Hk & _ & Hmin). destruct (isPodBackingoff initial maximum q now) eqn:Hbo.
  - exists p, moved. split_and!; try done. intros x Hx. unfold flushed.
    destruct (place_of p x) as [[[] q']|] eqn:Hpl; try done.
    assert (backoff p !! K x = Some q') as Hq'.
    { revert Hpl. unfold place_of. repeat case_match; try congruence. by destruct (unsched p !! F x). }
    specialize (Hmin _ q' Hq'). unfold podsCompareBackoffCompleted, isPodBackingoff in *.
    apply Z.ltb_ge in Hmin. apply Z.ltb_lt in Hbo. by rewrite (proj2 (Z.ltb_lt _ _)) by lia.
  - destruct (flush_one p q now Hp Hpeek Hbo) as (b & h & -> & Hadd & Hp1 & Hl1 & Hpl1). qsimpl. rewrite Hadd.
    cbn [fst]. set (p1 := set_activeQ (set_backoffQ p b) h) in *.
    destruct (IH p1 true Hp1) as (p' & moved' & -> & Hp' & Hr' & Hmv & Hpl'); [unfold p1; qsimpl; lia|].
    exists p', moved'. split_and!; try done.
    + intros Hf. destruct (Hmv Hf). done.
    + intros x Hx. rewrite (Hpl' x Hx). by apply Hpl1.
Qed.

Lemma flush_inv p now :
  queue_inv p →
  ∃ p', flushBackoffQCompleted lessFn initial maximum p now = Some (Ret p') ∧ queue_inv p' ∧
    schedulingCycle p' = schedulingCycle p ∧ moveRequestCycle p' = moveRequestCycle p ∧
    closed p' = closed p ∧ nominator p' = nominator p ∧
    ∀ x, name_ok x → place_of p' x = flushed now (place_of p x).
Proof.
  intros [Hp Hc]. unfold flushBackoffQCompleted.
  destruct (flush_loop_spec now (Len (podBackoffQ p) + 1) p false Hp) as
    (p' & moved & -> & Hp' & (H1 & H2 & H3 & H4 & H5) & Hmv & Hpl); [lia|].
  eexists. split; [done|]. destruct moved.
  - split; [|by split_and!]. split; [by destruct Hp'; split|]. intros Hw. simpl in Hw. lia.
  - destruct (Hmv eq_refl) as [-> _]. by split_and!.
Qed.

(** ** [Pop], [Resume] and [Close] *)

Lemma place_active p x q : active p !! K x = Some q → place_of p x = Some (Active, q).
Proof. unfold place_of. by intros ->. Qed.

Lemma place_drop_active p h q :
  queue_core p → active p !! K (qpi_Pod q) = Some q →
  contents (hdata h) = delete (K (qpi_Pod q)) (active p) →
  ∀ x, name_ok x → place_of (set_activeQ p h) x = if decide (same x (qpi_Pod q)) then None else place_of p x.
Proof.
  intros Hp Hq Hh x Hx. unfold place_of. qsimpl. rewrite Hh.
  assert (name_ok (qpi_Pod q)) as Hok by (eapply (mi_names _ _ _ (qi_maps _ Hp)); eauto).
  rewrite delete_key by done. case_decide as Hs; [|done].
  destruct (mi_disj _ _ _ (qi_maps _ Hp) (qpi_Pod q) Hok) as [H1 _]. destruct H1 as [H1 H2]; [by eauto|].
  rewrite (proj2 (key_same x _ Hx Hok) Hs), (proj2 (full_name_same x _ Hx Hok) Hs). by rewrite H1, H2.
Qed.

Lemma refs_inv_sub p p' : refs_inv p → (∀ r u, has_copy p' r u → has_copy p r u) → refs_inv p'.
Proof. intros Hr Hs r u1 u2 H1 H2. eapply Hr; eauto. Qed.

Lemma core_drop_active p h k :
  queue_core p → heap_wf podInfoKeyFunc lessFn ra h → contents (hdata h) = delete k (active p) →
  queue_core (set_activeQ p h).
Proof.
  intros [Ha Hb Hm Hmet Hcy Hn Hr] Hh Hc. split; qsimpl; try done.
  - rewrite Hc. eapply maps_inv_sub; [done|apply delete_subseteq|done|done].
  - eapply refs_inv_sub; [done|solve_copies].
Qed.

Lemma Pop_inv p :
  queue_inv p → schedulingCycle p < max_int64 →
  ∃ p' r, Pop lessFn p = Ret (p', r) ∧ queue_inv p' ∧ moveRequestCycle p' = moveRequestCycle p ∧
    closed p' = closed p ∧ nominator p' = nominator p ∧
    match r with
    | PopWait => active p = ∅ ∧ closed p = false ∧ p' = set_cond p (cond_Wait (pcond p))
    | PopClosed => active p = ∅ ∧ closed p = true ∧ p' = p
    | PopErr => False
    | PopItem q' => ∃ q, q' = incr_Attempts q ∧ active p !! K (qpi_Pod q) = Some q ∧
        (∀ k q2, active p !! k = Some q2 → lessFn q2 q = false) ∧
        schedulingCycle p' = schedulingCycle p + 1 ∧
        ∀ x, name_ok x → place_of p' x = if decide (same x (qpi_Pod q)) then None else place_of p x
    end.
Proof.
  intros [Hp Hc] Hcyc. unfold Pop. pose proof (qi_active _ Hp) as Ha.
  rewrite (Len_contents _ _ _ _ Ha). pose proof (Peek_spec podInfoKeyFunc lessFn ra _ Ha) as Hpk.
  destruct (Peek (activeQ p)) as [q|] eqn:Hpeek.
  - destruct Hpk as (k & Hk & _). destruct (Nat.eqb_spec (size (active p)) 0) as [H0|_].
    { apply map_size_empty_inv in H0. rewrite H0 in Hk. done. }
    destruct (Pop_spec podInfoKeyFunc lessFn ra _ q Ha Hpeek) as (h & k' & -> & Hh & [= <-] & Hch & Hq & Hmin).
    eexists _, _. split; [done|]. qsimpl.
    pose proof (core_drop_active p h _ Hp Hh Hch) as Hp'. destruct (qi_cycle _ Hp) as [Hc1 Hc2].
    assert (int64 (schedulingCycle p + 1) = schedulingCycle p + 1) as Hint.
    { apply int64_id. unfold min_int64. lia. }
    split; [split|].
    + destruct Hp' as [Ha' Hb' Hm' Hmet' Hcy' Hn' Hr']. split; try done. unfold cycle_ok. qsimpl. lia.
    + intros Hw. destruct (Hc Hw) as [He _]. rewrite He in Hk. done.
    + split_and!; try done. exists q. split_and!; try done. exact (place_drop_active p h q Hp Hq Hch).
  - rewrite Hpk, map_size_empty. simpl. destruct (closed p) eqn:Hcl.
    + exists p, PopClosed. by split_and!.
    + eexists _, PopWait. split; [done|]. split; [|by split_and!]. split; [by destruct Hp; split|].
      intros _. by rewrite <- Hpk.
Qed.

Lemma Resume_inv p : queue_inv p → queue_inv (Resume p).
Proof. intros [[] Hc]. split; [by split|exact Hc]. Qed.

Lemma Close_inv p :
  queue_inv p → closed p = false →
  ∃ p', Close p = Ret p' ∧ queue_inv p' ∧ closed p' = true ∧ schedulingCycle p' = schedulingCycle p ∧
    moveRequestCycle p' = moveRequestCycle p ∧ nominator p' = nominator p ∧ ∀ x, place_of p' x = place_of p x.
Proof.
  intros [[] Hc] Hcl. unfold Close. rewrite Hcl. eexists. split; [done|]. split; [|by split_and!].
  split; [by split|]. intros Hw. simpl in Hw. lia.
Qed.

(** ** [Delete] *)

Lemma Delete_inv p pod :
  queue_inv p → name_ok pod →
  ∃ p', Delete lessFn initial maximum p pod = Ret p' ∧ queue_inv p' ∧
    schedulingCycle p' = schedulingCycle p ∧ moveRequestCycle p' = moveRequestCycle p ∧
    closed p' = closed p ∧ nominator p' = npm_delete (nominator p) pod ∧
    ∀ x, name_ok x → place_of p' x = if decide (same x pod) then None else place_of p x.
Proof.
  intros [[Ha Hb Hm Hmet Hcy Hn Hr] Hc] Hok. unfold Delete. qsimpl.
  set (lk := newQueuedPodInfoForLookup pod).
  destruct (npm_delete_wf (nominator p) pod Hn) as [Hn' _].
  destruct (Delete_spec podInfoKeyFunc lessFn ra (activeQ p) lk (K pod) Ha eq_refl) as (h & e & -> & Hh & Hch & ->).
  assert (∀ x, name_ok x → same x pod → K x = K pod ∧ F x = F pod) as Hsame.
  { intros x Hx Hs. split; [by apply key_same|by apply full_name_same]. }
  destruct (active p !! K pod) as [q|] eqn:Hq.
  - eexists. split; [done|]. qsimpl. split; [|split_and!; try done].
    + split; [split; qsimpl; try done|].
      * rewrite Hch. eapply maps_inv_sub; [done|apply delete_subseteq|done|done].
      * eapply refs_inv_sub; [done|]. solve_copies.
      * intros Hw. destruct (Hc Hw) as [He _]. rewrite He in Hq. done.
    + intros x Hx. unfold place_of. qsimpl. rewrite Hch, delete_key by done. case_decide as Hs; [|done].
      destruct (mi_disj _ _ _ Hm pod Hok) as [H1 _]. destruct H1 as [H1 H2]; [by eauto|].
      destruct (Hsame x Hx Hs) as [-> ->]. by rewrite H1, H2.
  - destruct (Delete_spec podInfoKeyFunc cmp rb (podBackoffQ p) lk (K pod) Hb eq_refl) as (b & e & Hdel & Hb' & Hcb & _).
    qsimpl. rewrite Hdel. eexists. split; [done|]. qsimpl.
    rewrite delete_id in Hch by done. split; [|split_and!; try done].
    + split; [split; qsimpl; try done|].
      * rewrite Hch, Hcb. eapply maps_inv_sub; [done|done|apply delete_subseteq..].
      * by apply us_delete_metric.
      * eapply refs_inv_sub; [done|]. solve_copies.
      * intros Hw. qsimpl. rewrite Hch. by apply Hc.
    + intros x Hx. unfold place_of. qsimpl. rewrite Hch, Hcb, delete_key by done. cbn [us_delete podInfoMap].
      rewrite delete_full by done. case_decide as Hs; [|done].
      destruct (Hsame x Hx Hs) as [-> _]. by rewrite Hq.
Qed.

(** ** [Update] *)

(** The queued pod after [pInfo.Update(newPod)]. *)
Definition updated (q : QueuedPodInfo) (newPod : Pod) : QueuedPodInfo :=
  mkQPI (qpi_ref q) (NodeInfo.Update (Some (qpi_PodInfo q)) newPod) (Timestamp q) (Attempts q)
    (InitialAttemptTimestamp q) (UnschedulablePlugins q).

Lemma updated_Pod q newPod : qpi_Pod (updated q newPod) = newPod.
Proof. unfold qpi_Pod, updated, NodeInfo.Update. simpl. by case_match. Qed.

(** The nominator after the write through the shared object. *)
Definition renominated (n : nominatedPodMap) (q : QueuedPodInfo) (old newPod : Pod) : nominatedPodMap :=
  UpdateNominatedPod (write_ref n (qpi_ref q) (qpi_PodInfo (updated q newPod))) old
    (qpi_ref q, qpi_PodInfo (updated q newPod)).

Lemma update_ref p q newPod old :
  queue_core p → has_copy p (qpi_ref q) (pod_UID (qpi_Pod q)) → pod_UID (qpi_Pod q) = pod_UID newPod →
  npm_wf (renominated (nominator p) q old newPod) ∧
  (∀ u, has_copy p (qpi_ref q) u → u = pod_UID newPod) ∧
  ∀ r u, nom_copy (renominated (nominator p) q old newPod) r u →
    nom_copy (nominator p) r u ∨ (r = qpi_ref q ∧ u = pod_UID newPod).
Proof.
  intros Hp Hcopy Huid. pose proof (updated_Pod q newPod) as Hup. unfold qpi_Pod in Hup.
  assert (∀ u, has_copy p (qpi_ref q) u → u = pod_UID newPod) as Hu.
  { intros u H. rewrite <- Huid. by eapply (qi_refs _ Hp). }
  destruct (write_ref_wf (nominator p) (qpi_ref q) (qpi_PodInfo (updated q newPod)) (qi_npm _ Hp)) as [Hw _].
  { intros x np Hnp Hr. rewrite Hup. apply Hu. do 3 right. by exists x, np. }
  pose proof (npm_delete_wf _ old Hw) as [Hd _].
  split; [|split; [done|]].
  - by apply npm_add_wf.
  - intros r u H. unfold renominated, UpdateNominatedPod in H.
    apply nom_add in H as [H|[-> ->]]; [|right; exact (conj eq_refl (f_equal pod_UID Hup))|done].
    apply nom_delete in H; [|done]. apply nom_write in H as [H|[-> ->]]; [by left|right; exact (conj eq_refl (f_equal pod_UID Hup))].
Qed.

(** The place of a pod whose entry in one of the maps is replaced. *)
Lemma place_has_copy p x pl q : place_of p x = Some (pl, q) → has_copy p (qpi_ref q) (pod_UID (qpi_Pod q)).
Proof.
  unfold place_of, has_copy. intros H. destruct (active p !! K x) as [q'|] eqn:Ha.
  { simplify_eq. left. by exists (K x), q. }
  destruct (backoff p !! K x) as [q'|] eqn:Hb.
  { simplify_eq. right. left. by exists (K x), q. }
  destruct (unsched p !! F x) as [q'|] eqn:Hu; simplify_eq/=. right. right. left. by exists (F x), q.
Qed.

Definition coherent_update (p : PriorityQueue) (old newPod : Pod) : Prop :=
  name_ok newPod ∧ same old newPod ∧
  ∀ pl q, place_of p newPod = Some (pl, q) → pod_UID (qpi_Pod q) = pod_UID newPod.

Definition update_place (old newPod : Pod) (now : Z) (pl : place) (q : QueuedPodInfo) : place :=
  match pl with
  | Unschedulable => if isPodUpdated old newPod then target now q else Unschedulable
  | _ => pl
  end.

(** The state after the entry of the pod of [q] becomes [q] in one of the maps. *)
Record put (p p' : PriorityQueue) (q : QueuedPodInfo) : Prop := {
  put_core : queue_core p;
  put_name : name_ok (qpi_Pod q);
  put_active : heap_wf podInfoKeyFunc lessFn ra (activeQ p');
  put_backoff : heap_wf podInfoKeyFunc cmp rb (podBackoffQ p');
  put_metric : metric_ok (unschedulableQ p');
  put_cycles : schedulingCycle p' = schedulingCycle p ∧ moveRequestCycle p' = moveRequestCycle p;
  put_npm : npm_wf (nominator p');
  put_ref : ∀ u, has_copy p (qpi_ref q) u → u = pod_UID (qpi_Pod q);
  put_nom : ∀ r u, nom_copy (nominator p') r u →
    nom_copy (nominator p) r u ∨ (r = qpi_ref q ∧ u = pod_UID (qpi_Pod q));
}.

Ltac put_refs :=
  match goal with
  | H : put ?p _ ?q |- _ =>
      eapply (refs_inv_step p _ (qpi_ref q) (pod_UID (qpi_Pod q)));
      [apply qi_refs, (put_core _ _ _ H)|apply (put_ref _ _ _ H)|];
      let r := fresh in let uid := fresh in
      intros r uid [C|[C|[C|C]]];
      [..|apply (put_nom _ _ _ H) in C as [C|C]; unfold has_copy; auto 7];
      repeat match goal with E : contents (hdata _) = _ |- _ => rewrite E in C end;
      repeat match goal with E : podInfoMap _ = _ |- _ => rewrite E in C end;
      repeat match type of C with
      | copy_in (<[_ := _]> _) _ _ => apply copy_insert in C as [C|C]
      | copy_in (delete _ _) _ _ => apply copy_delete in C
      end; unfold has_copy; auto 7
  end.

Lemma put_queue_core p p' q :
  put p p' q → maps_inv (active p') (backoff p') (unsched p') → refs_inv p' → queue_core p'.
Proof.
  intros H Hm Hr. destruct (put_core _ _ _ H) as [_ _ _ _ Hcy _ _], (put_cycles _ _ _ H) as [Ec1 Ec2].
  split; [by destruct H..| |by destruct H|done]. unfold cycle_ok. by rewrite Ec1, Ec2.
Qed.

Lemma put_in_active p p' q :
  put p p' q → active p' = <[K (qpi_Pod q) := q]> (active p) → backoff p' = backoff p →
  unsched p' = delete (F (qpi_Pod q)) (unsched p) → backoff p !! K (qpi_Pod q) = None →
  queue_core p' ∧
  ∀ x, name_ok x → place_of p' x = if decide (same x (qpi_Pod q)) then Some (Active, q) else place_of p x.
Proof.
  intros H Ea Eb Eu Hb. pose proof (put_name _ _ _ H) as Hok. pose proof (qi_maps _ (put_core _ _ _ H)) as Hm.
  split; [apply (put_queue_core _ _ _ H)|].
  - rewrite Ea, Eb, Eu. apply maps_inv_active; [|done|done|apply lookup_delete_eq].
    eapply maps_inv_sub; [done|done|done|apply delete_subseteq].
  - put_refs.
  - intros x Hx. unfold place_of. rewrite Ea, Eb, Eu, insert_key, delete_full by done. by case_decide.
Qed.

Lemma put_in_backoff p p' q :
  put p p' q → active p' = active p → backoff p' = <[K (qpi_Pod q) := q]> (backoff p) →
  unsched p' = delete (F (qpi_Pod q)) (unsched p) → active p !! K (qpi_Pod q) = None →
  queue_core p' ∧
  ∀ x, name_ok x → place_of p' x = if decide (same x (qpi_Pod q)) then Some (Backoff, q) else place_of p x.
Proof.
  intros H Ea Eb Eu Ha. pose proof (put_name _ _ _ H) as Hok. pose proof (qi_maps _ (put_core _ _ _ H)) as Hm.
  split; [apply (put_queue_core _ _ _ H)|].
  - rewrite Ea, Eb, Eu. apply maps_inv_backoff; [|done|done|apply lookup_delete_eq].
    eapply maps_inv_sub; [done|done|done|apply delete_subseteq].
  - put_refs.
  - intros x Hx. unfold place_of. rewrite Ea, Eb, Eu, insert_key, delete_full by done.
    case_decide as Hs; [|done]. by rewrite (proj2 (key_same x _ Hx Hok) Hs), Ha.
Qed.

Lemma put_in_unsched p p' q :
  put p p' q → active p' = active p → backoff p' = backoff p →
  unsched p' = <[F (qpi_Pod q) := q]> (unsched p) →
  active p !! K (qpi_Pod q) = None → backoff p !! K (qpi_Pod q) = None →
  queue_core p' ∧
  ∀ x, name_ok x → place_of p' x =
    if decide (same x (qpi_Pod q)) then Some (Unschedulable, q) else place_of p x.
Proof.
  intros H Ea Eb Eu Ha Hb. pose proof (put_name _ _ _ H) as Hok. pose proof (qi_maps _ (put_core _ _ _ H)) as Hm.
  split; [apply (put_queue_core _ _ _ H)|].
  - rewrite Ea, Eb, Eu. by apply maps_inv_unsched.
  - put_refs.
  - intros x Hx. unfold place_of. rewrite Ea, Eb, Eu, insert_full by done.
    case_decide as Hs; [|done]. by rewrite (proj2 (key_same x _ Hx Hok) Hs), Ha, Hb.
Qed.

Lemma name_same x y : name_ok x → same y x → name_ok y.
Proof. unfold name_ok. by intros H [-> ->]. Qed.

Lemma Update_heaps p old newPod now ref pl q :
  queue_inv p → coherent_update p old newPod → place_of p newPod = Some (pl, q) → pl ≠ Unschedulable →
  ∃ p', Update lessFn initial maximum p (Some old) newPod now ref = Ret (p', true) ∧ queue_inv p' ∧
    schedulingCycle p' = schedulingCycle p ∧ moveRequestCycle p' = moveRequestCycle p ∧
    closed p' = closed p ∧
    ∀ x, name_ok x → place_of p' x =
      if decide (same x newPod) then Some (pl, updated q newPod) else place_of p x.
Proof.
  intros [Hp Hc] (Hok & Hs & Huid) Hpl Hne.
  destruct (update_ref p q newPod old Hp (place_has_copy _ _ _ _ Hpl) (Huid _ _ Hpl)) as (Hn' & Href & Hnom).
  assert (K old = K newPod) as HK by (unfold K; by destruct Hs as [-> ->]).
  pose proof (updated_Pod q newPod) as Hup.
  destruct (mi_disj _ _ _ (qi_maps _ Hp) newPod Hok) as [Hd1 Hd2].
  unfold Update, SchedHeap.Get. cbn [podInfoKeyFunc qpi_Pod newQueuedPodInfoForLookup qpi_PodInfo pi_Pod].
  rewrite HK, !GetByKey_contents. unfold place_of in Hpl.
  destruct (active p !! K newPod) as [q'|] eqn:Hqa; simplify_eq.
  - destruct (Hd1 ltac:(eauto)) as [H1 H2]. unfold updatePod. fold (updated q newPod). qsimpl.
    unfold SchedHeap.Update. destruct (active_Add (activeQ p) (updated q newPod) (qi_active _ Hp)) as (h & -> & Hh & Hch).
    eexists. split; [done|]. match goal with |- queue_inv ?s ∧ _ => set (p' := s) end.
    destruct (put_in_active p p' (updated q newPod)) as [Hp' Hpl'].
    { destruct Hp. split; try done; rewrite ?Hup; done. }
    { done. } { done. } { rewrite Hup. by rewrite delete_id. } { by rewrite Hup. }
    rewrite Hup in Hpl'. split; [|by split_and!]. split; [done|]. intros Hw. destruct (Hc Hw) as [He _].
    rewrite He in Hqa. done.
  - destruct (backoff p !! K newPod) as [q'|] eqn:Hqb; simplify_eq; [|by destruct (unsched p !! F newPod); simplify_eq/=].
    specialize (Hd2 ltac:(eauto)). unfold updatePod. fold (updated q newPod). qsimpl.
    unfold SchedHeap.Update. destruct (backoff_Add (podBackoffQ p) (updated q newPod) (qi_backoff _ Hp)) as (b & -> & Hb & Hcb).
    eexists. split; [done|]. match goal with |- queue_inv ?s ∧ _ => set (p' := s) end.
    destruct (put_in_backoff p p' (updated q newPod)) as [Hp' Hpl'].
    { destruct Hp. split; try done; rewrite ?Hup; done. }
    { done. } { done. } { rewrite Hup. by rewrite delete_id. } { by rewrite Hup. }
    rewrite Hup in Hpl'. split; [|by split_and!]. split; [done|exact Hc].
Qed.

Lemma Update_unsched p old newPod now ref q :
  queue_inv p → coherent_update p old newPod → place_of p newPod = Some (Unschedulable, q) →
  ∃ p', Update lessFn initial maximum p (Some old) newPod now ref = Ret (p', true) ∧ queue_inv p' ∧
    schedulingCycle p' = schedulingCycle p ∧ moveRequestCycle p' = moveRequestCycle p ∧
    closed p' = closed p ∧
    ∀ x, name_ok x → place_of p' x =
      if decide (same x newPod)
      then Some (update_place old newPod now Unschedulable q, updated q newPod) else place_of p x.
Proof.
  intros [Hp Hc] (Hok & Hs & Huid) Hpl.
  destruct (update_ref p q newPod old Hp (place_has_copy _ _ _ _ Hpl) (Huid _ _ Hpl)) as (Hn' & Href & Hnom).
  assert (K old = K newPod) as HK by (unfold K; by destruct Hs as [-> ->]).
  pose proof (updated_Pod q newPod) as Hup. pose proof (place_of_unsched _ _ _ Hpl) as Hq.
  unfold Update, SchedHeap.Get. cbn [podInfoKeyFunc qpi_Pod newQueuedPodInfoForLookup qpi_PodInfo pi_Pod].
  rewrite HK, !GetByKey_contents. unfold place_of in Hpl.
  destruct (active p !! K newPod) as [q'|] eqn:Hqa; [done|].
  destruct (backoff p !! K newPod) as [q'|] eqn:Hqb; [done|]. clear Hpl.
  unfold update_unschedulable, us_get. rewrite Hq. unfold updatePod. fold (updated q newPod). qsimpl.
  assert (metric_ok (mkUPM (<[F newPod := updated q newPod]> (unsched p)) (us_metric (unschedulableQ p)))) as Hmet.
  { pose proof (qi_metric _ Hp) as Hmet. unfold metric_ok in Hmet |- *. cbn [us_metric podInfoMap]. rewrite Hmet.
    by rewrite map_size_insert_Some by eauto. }
  assert (isPodBackingoff initial maximum (updated q newPod) now = isPodBackingoff initial maximum q now) as -> by done.
  unfold update_place, target. destruct (isPodUpdated old newPod); [destruct (isPodBackingoff _ _ q now)|].
  - destruct (backoff_Add (podBackoffQ p) (updated q newPod) (qi_backoff _ Hp)) as (b & -> & Hb & Hcb).
    eexists. split; [done|]. match goal with |- queue_inv ?s ∧ _ => set (p' := s) end.
    destruct (put_in_backoff p p' (updated q newPod)) as [Hp' Hpl'].
    { destruct Hp. split; try done; rewrite ?Hup; try done. by apply us_delete_metric. }
    { done. } { done. } { unfold p'. qsimpl. cbn [us_delete podInfoMap]. by rewrite !Hup, delete_insert_eq. } { by rewrite Hup. }
    rewrite Hup in Hpl'. split; [|by split_and!]. split; [done|exact Hc].
  - destruct (active_Add (activeQ p) (updated q newPod) (qi_active _ Hp)) as (h & -> & Hh & Hch).
    eexists. split; [done|]. match goal with |- queue_inv ?s ∧ _ => set (p' := s) end.
    destruct (put_in_active p p' (updated q newPod)) as [Hp' Hpl'].
    { destruct Hp. split; try done; rewrite ?Hup; try done. by apply us_delete_metric. }
    { done. } { done. } { unfold p'. qsimpl. cbn [us_delete podInfoMap]. by rewrite !Hup, delete_insert_eq. } { by rewrite Hup. }
    rewrite Hup in Hpl'. split; [|by split_and!]. split; [done|]. intros Hw. simpl in Hw. lia.
  - eexists. split; [done|]. match goal with |- queue_inv ?s ∧ _ => set (p' := s) end.
    destruct (put_in_unsched p p' (updated q newPod)) as [Hp' Hpl'].
    { destruct Hp. split; try done; rewrite ?Hup; try done. by apply us_add_metric. }
    { done. } { done. } { unfold p'. qsimpl. cbn [us_addOrUpdate podInfoMap]. by rewrite !Hup, insert_insert_eq. } { by rewrite Hup. } { by rewrite Hup. }
    rewrite Hup in Hpl'. split; [|by split_and!]. split; [done|exact Hc].
Qed.

Lemma Update_absent p old newPod now ref :
  let q := newQueuedPodInfo ref newPod now in
  queue_inv p → coherent_update p old newPod → place_of p newPod = None → ref_ok p q →
  ∃ p', Update lessFn initial maximum p (Some old) newPod now ref = Ret (p', true) ∧ queue_inv p' ∧
    schedulingCycle p' = schedulingCycle p ∧ moveRequestCycle p' = moveRequestCycle p ∧
    closed p' = closed p ∧
    ∀ x, name_ok x → place_of p' x = if decide (same x newPod) then Some (Active, q) else place_of p x.
Proof.
  intros q [Hp Hc] (Hok & Hs & _) (H1 & H2 & H3)%place_of_None Href.
  assert (K old = K newPod) as HK by (unfold K; by destruct Hs as [-> ->]).
  unfold Update, SchedHeap.Get. cbn [podInfoKeyFunc qpi_Pod newQueuedPodInfoForLookup qpi_PodInfo pi_Pod].
  rewrite HK, !GetByKey_contents, H1, H2. unfold update_unschedulable, us_get. rewrite H3. fold q.
  destruct (active_Add (activeQ p) q (qi_active _ Hp)) as (h & -> & Hh & Hch).
  eexists. split; [done|]. match goal with |- queue_inv ?s ∧ _ => set (p' := s) end.
  destruct (put_in_active p p' q) as [Hp' Hpl'].
  - destruct Hp. split; try done; [by apply npm_add_wf|].
    intros r u H. by apply nom_add in H.
  - done.
  - done.
  - by rewrite delete_id.
  - done.
  - split; [|by split_and!]. split; [done|]. intros Hw. simpl in Hw. lia.
Qed.

Lemma Update_inv p old newPod now ref :
  queue_inv p → coherent_update p old newPod →
  (place_of p newPod = None → ref_ok p (newQueuedPodInfo ref newPod now)) →
  ∃ p', Update lessFn initial maximum p (Some old) newPod now ref = Ret (p', true) ∧ queue_inv p' ∧
    schedulingCycle p' = schedulingCycle p ∧ moveRequestCycle p' = moveRequestCycle p ∧
    closed p' = closed p ∧
    ∀ x, name_ok x → place_of p' x =
      if decide (same x newPod) then
        Some (match place_of p newPod with
              | Some (pl, q) => (update_place old newPod now pl q, updated q newPod)
              | None => (Active, newQueuedPodInfo ref newPod now)
              end)
      else place_of p x.
Proof.
  intros Hp Hco Href. destruct (place_of p newPod) as [[pl q]|] eqn:Hpl.
  - destruct (decide (pl = Unschedulable)) as [->|Hne]; [by apply Update_unsched|].
    destruct (Update_heaps p old newPod now ref pl q) as (p' & He & H); try done.
    exists p'. split; [done|]. by destruct pl.
  - apply Update_absent; auto.
Qed.

(** ** The rest in terms of places *)

Lemma Add_place p pod now ref :
  queue_inv p → name_ok pod → ref_ok p (newQueuedPodInfo ref pod now) →
  ∃ p', Add lessFn initial maximum p pod now ref = Ret (p', true) ∧ queue_inv p' ∧
    schedulingCycle p' = schedulingCycle p ∧ moveRequestCycle p' = moveRequestCycle p ∧
    closed p' = closed p ∧
    ∀ x, name_ok x → place_of p' x =
      if decide (same x pod) then Some (Active, newQueuedPodInfo ref pod now) else place_of p x.
Proof.
  intros [Hp _] Hok Href. destruct (Add_inv p pod now ref Hp Hok Href) as (p' & He & Hp' & H1 & H2 & H3 & H4 & H5 & H6).
  exists p'. split_and!; try done. intros x Hx. unfold place_of.
  rewrite H1, H2, H3, insert_key, delete_key, delete_full by done. by case_decide.
Qed.

Lemma AddUnschedulable_place p q cycle now :
  queue_inv p → name_ok (qpi_Pod q) → ref_ok p q →
  ∃ p' ok, AddUnschedulableIfNotPresent initial maximum p q cycle now = (p', ok) ∧ queue_inv p' ∧
    (ok = true ↔ place_of p (qpi_Pod q) = None) ∧
    schedulingCycle p' = schedulingCycle p ∧ moveRequestCycle p' = moveRequestCycle p ∧
    closed p' = closed p ∧
    ∀ x, name_ok x → place_of p' x =
      if decide (same x (qpi_Pod q)) then
        match place_of p x with
        | None => Some (if cycle <=? moveRequestCycle p then Backoff else Unschedulable, set_Timestamp q now)
        | o => o
        end
      else place_of p x.
Proof.
  intros Hp Hok Href. destruct (AddUnschedulable_inv p q cycle now Hp Hok Href) as
    (p' & ok & He & Hp' & Hiff & Hid & Ha & Hbu & H4 & H5 & H6).
  exists p', ok. split_and!; try done. intros x Hx.
  assert (∀ (m : pod_map) (s : same x (qpi_Pod q)), m !! K x = m !! K (qpi_Pod q) ∧ m !! F x = m !! F (qpi_Pod q)) as Hsm.
  { intros m Hs. by rewrite (proj2 (key_same x _ Hx Hok) Hs), (proj2 (full_name_same x _ Hx Hok) Hs). }
  destruct ok.
  - destruct (Hbu eq_refl) as [Hb Hu]. pose proof (proj1 Hiff eq_refl) as (H1 & H2 & H3)%place_of_None.
    unfold place_of. rewrite Ha, Hb, Hu.
    destruct (cycle <=? moveRequestCycle p); rewrite ?insert_key, ?insert_full by done;
      (destruct (decide (same x (qpi_Pod q))) as [Hs|Hs]; [|done]);
      by rewrite (proj2 (key_same x _ Hx Hok) Hs), H1, ?H2, (proj2 (full_name_same x _ Hx Hok) Hs), H3.
  - rewrite (Hid eq_refl). case_decide as Hs; [|done]. destruct (place_of p x) eqn:Hpl; [done|].
    apply place_of_None in Hpl as (H1 & H2 & H3). exfalso.
    assert (place_of p (qpi_Pod q) = None) as Hn; [|by apply Hiff in Hn].
    apply place_of_None. destruct (Hsm (active p) Hs), (Hsm (backoff p) Hs), (Hsm (unsched p) Hs). split_and!; congruence.
Qed.

Lemma nominate_inv p np node :
  queue_inv p → (∀ u, has_copy p np.1 u → u = np_uid np) →
  queue_inv (set_nominator p (AddNominatedPod (nominator p) np node)).
Proof.
  intros [[Ha Hb Hm Hmet Hcy Hn Hr] Hc] Href. split; [|exact Hc]. split; qsimpl; try done.
  - by apply npm_add_wf.
  - eapply (refs_inv_step p); [done|exact Href|solve_copies].
Qed.

Lemma denominate_inv p pod :
  queue_inv p → queue_inv (set_nominator p (DeleteNominatedPodIfExists (nominator p) pod)).
Proof.
  intros [[Ha Hb Hm Hmet Hcy Hn Hr] Hc]. split; [|exact Hc]. split; qsimpl; try done.
  - by apply npm_delete_wf.
  - eapply refs_inv_sub; [done|solve_copies].
Qed.

Lemma new_queue_inv : queue_inv (NewPriorityQueue ra rb ru).
Proof.
  split; [split|].
  - apply NewWithRecorder_wf.
  - apply NewWithRecorder_wf.
  - split; [intros x _; split; by intros [? ?]|intros k q [?|[?|?]]; done|done].
  - unfold metric_ok. simpl. destruct ru; simpl; [|done]. by rewrite map_size_empty, Z.add_0_r.
  - unfold cycle_ok. simpl. lia.
  - split; done.
  - intros r u1 u2 [(?&?&?&_)|[(?&?&?&_)|[(?&?&?&_)|(?&?&H&_)]]]; try done. by apply not_elem_of_nil in H.
  - intros H. simpl in H. lia.
Qed.

End Ops.
