(* ===== verification/QueueEvents.v ===== *)
(** * Histories of the scheduling queue

    The operations of [SchedQueue] as events, the view of the queue that its
    clients have (where each pod is, the cycles, whether it is closed), and
    what holds along histories: the invariant of [QueueInv], the refinement of
    the abstract machine on views, and that pods are not lost or stuck. *)

From S2P Require Import Prelude GoHeap SchedHeap Labels ApiTypes NodeInfo SchedQueue QueueInv.
#[local] Open Scope Z_scope.

Inductive event :=
| EAdd (pod : Pod) (now : Z) (ref : nat)
| EAddUnschedulable (q : QueuedPodInfo) (cycle now : Z)
| EFlushBackoff (now : Z)
| EFlushLeftover (now : Z)
| EMoveAll (ev : string) (now : Z)
| EAssignedAdd (pod : Pod) (now : Z)
| EAssignedUpdate (pod : Pod) (now : Z)
| EPop
| EResume
| EUpdate (old newPod : Pod) (now : Z) (ref : nat)
| EDelete (pod : Pod)
| ENominate (np : nat * PodInfo) (node : string)
| EDenominate (pod : Pod)
| EClose.

(** The flag is [false] for an error. *)
Inductive answer := ADone (ok : bool) | APop (r : pop_result).

(** What a client of the queue sees. *)
Record view := mkView {
  v_place : Pod → option (place * QueuedPodInfo);
  v_cycle : Z;
  v_move : Z;
  v_closed : bool;
}.

Definition view_of (p : PriorityQueue) : view :=
  mkView (place_of p) (schedulingCycle p) (moveRequestCycle p) (closed p).

Section Events.
Context (lessFn : QueuedPodInfo → QueuedPodInfo → bool) `{!StrictWeakOrder lessFn}.
Context (initial maximum : Z) (clusterEventMap : list (ClusterEvent * gset string)).
Context (nsSelectorEnabled : bool) (namespaceLabels : string → Labels).
Context (range : gmap string QueuedPodInfo → list string).
Context (ra rb ru : option Z).
Context (range_keys : ∀ m, range m ≡ₚ (map_to_list m).*1).

Local Abbreviation queue_inv := (queue_inv lessFn initial maximum ra rb ru).
Local Abbreviation flag x := (match x with Ret (p, ok) => Some (Ret (p, ADone ok)) | Panic => Some Panic end).
Local Abbreviation ret x := (Some (Ret (x, ADone true))).

(** [None] where the fuel runs out. *)
Definition exec (e : event) (p : PriorityQueue) : option (outcome (PriorityQueue * answer)) :=
  match e with
  | EAdd pod now ref => flag (Add lessFn initial maximum p pod now ref)
  | EAddUnschedulable q cycle now =>
      let '(p, ok) := AddUnschedulableIfNotPresent initial maximum p q cycle now in Some (Ret (p, ADone ok))
  | EFlushBackoff now =>
      match flushBackoffQCompleted lessFn initial maximum p now with
      | None => None
      | Some Panic => Some Panic
      | Some (Ret p) => ret p
      end
  | EFlushLeftover now => ret (flushUnschedulableQLeftover lessFn initial maximum clusterEventMap range p now)
  | EMoveAll ev now => ret (MoveAllToActiveOrBackoffQueue lessFn initial maximum clusterEventMap range p ev now)
  | EAssignedAdd pod now =>
      ret (AssignedPodAdded lessFn initial maximum clusterEventMap nsSelectorEnabled namespaceLabels range p pod now)
  | EAssignedUpdate pod now =>
      ret (AssignedPodUpdated lessFn initial maximum clusterEventMap nsSelectorEnabled namespaceLabels range p pod now)
  | EPop => match Pop lessFn p with Ret (p, r) => Some (Ret (p, APop r)) | Panic => Some Panic end
  | EResume => ret (Resume p)
  | EUpdate old newPod now ref => flag (Update lessFn initial maximum p (Some old) newPod now ref)
  | EDelete pod =>
      match Delete lessFn initial maximum p pod with Ret p => ret p | Panic => Some Panic end
  | ENominate np node => ret (set_nominator p (AddNominatedPod (nominator p) np node))
  | EDenominate pod => ret (set_nominator p (DeleteNominatedPodIfExists (nominator p) pod))
  | EClose => match Close p with Ret p => ret p | Panic => Some Panic end
  end.

(** The clients' side: valid names, new objects at unused addresses or of the
    same pod, updates of the pod that is queued, a queue closed once, and fewer
    than 2^63 scheduling cycles. *)
Definition coherent (p : PriorityQueue) (e : event) : Prop :=
  match e with
  | EAdd pod now ref => name_ok pod ∧ ref_ok p (newQueuedPodInfo ref pod now)
  | EAddUnschedulable q cycle now => name_ok (qpi_Pod q) ∧ ref_ok p q
  | EUpdate old newPod now ref =>
      coherent_update p old newPod ∧
      (place_of p newPod = None → ref_ok p (newQueuedPodInfo ref newPod now))
  | EPop => schedulingCycle p < max_int64
  | EResume => (0 < woken (pcond p))%nat
  | EDelete pod => name_ok pod
  | ENominate np node => ∀ u, has_copy p np.1 u → u = pod_UID (pi_Pod np.2)
  | EClose => closed p = false
  | _ => True
  end.

(** ** The abstract machine *)

Definition timed_out (now : Z) (q : QueuedPodInfo) : bool :=
  unschedulableQTimeInterval <? now - Timestamp q.

(** A required affinity term of the queued pod matches [pod]. *)
Definition attracted (pod : Pod) (q : QueuedPodInfo) : bool :=
  existsb (λ term, at_Matches term pod
    (if nsSelectorEnabled then namespaceLabels (pod_Namespace pod) else ∅) nsSelectorEnabled)
    (RequiredAffinityTerms (qpi_PodInfo q)).

Definition moved (P : QueuedPodInfo → bool) (ev : string) (now : Z)
    (o : option (place * QueuedPodInfo)) : option (place * QueuedPodInfo) :=
  match o with
  | Some (Unschedulable, q) =>
      Some (if P q && movable clusterEventMap ev q then target initial maximum now q
            else Unschedulable, q)
  | o => o
  end.

(** Where the pod named like [x] is after the event. *)
Definition spec_place (v : view) (e : event) (a : answer) (x : Pod) : option (place * QueuedPodInfo) :=
  let o := v_place v x in
  match e with
  | EAdd pod now ref => if decide (same x pod) then Some (Active, newQueuedPodInfo ref pod now) else o
  | EAddUnschedulable q cycle now =>
      if decide (same x (qpi_Pod q)) then
        match o with
        | None => Some (if cycle <=? v_move v then Backoff else Unschedulable, set_Timestamp q now)
        | Some there => Some there
        end
      else o
  | EFlushBackoff now => flushed initial maximum now o
  | EFlushLeftover now => moved (timed_out now) "UnschedulableTimeout" now o
  | EMoveAll ev now => moved (λ _, true) ev now o
  | EAssignedAdd pod now => moved (attracted pod) "AssignedPodAdd" now o
  | EAssignedUpdate pod now => moved (attracted pod) "AssignedPodUpdate" now o
  | EPop =>
      match a with
      | APop (PopItem q) => if decide (same x (qpi_Pod q)) then None else o
      | _ => o
      end
  | EUpdate old newPod now ref =>
      if decide (same x newPod) then
        Some (match v_place v newPod with
              | Some (pl, q) => (update_place initial maximum old newPod now pl q, updated q newPod)
              | None => (Active, newQueuedPodInfo ref newPod now)
              end)
      else o
  | EDelete pod => if decide (same x pod) then None else o
  | _ => o
  end.

Definition is_active (v : view) (q : QueuedPodInfo) : Prop :=
  name_ok (qpi_Pod q) ∧ v_place v (qpi_Pod q) = Some (Active, q).

(** The answer of an event. *)
Definition spec_answer (v : view) (e : event) (a : answer) : Prop :=
  match e, a with
  | EAddUnschedulable q _ _, ADone ok => ok = true ↔ v_place v (qpi_Pod q) = None
  | EPop, APop PopWait => (∀ q, ¬ is_active v q) ∧ v_closed v = false
  | EPop, APop PopClosed => (∀ q, ¬ is_active v q) ∧ v_closed v = true
  | EPop, APop (PopItem q') =>
      ∃ q, q' = incr_Attempts q ∧ is_active v q ∧ ∀ q2, is_active v q2 → lessFn q2 q = false
  | EPop, _ | _, APop _ => False
  | _, ADone ok => ok = true
  end.

Definition spec_cycle (v : view) (e : event) (a : answer) : Z :=
  match e, a with EPop, APop (PopItem _) => v_cycle v + 1 | _, _ => v_cycle v end.

(** The leftover flush that moves no pod is not a move request. *)
Definition spec_move (v v' : view) (e : event) : Prop :=
  match e with
  | EMoveAll _ _ | EAssignedAdd _ _ | EAssignedUpdate _ _ => v_move v' = v_cycle v
  | EFlushLeftover now =>
      v_move v' = v_cycle v ∨
      (v_move v' = v_move v ∧ ∀ x q, name_ok x → v_place v x = Some (Unschedulable, q) → timed_out now q = false)
  | _ => v_move v' = v_move v
  end.

Definition spec_step (v : view) (ea : event * answer) (v' : view) : Prop :=
  (∀ x, name_ok x → v_place v' x = spec_place v ea.1 ea.2 x) ∧
  spec_answer v ea.1 ea.2 ∧ v_cycle v' = spec_cycle v ea.1 ea.2 ∧ spec_move v v' ea.1 ∧
  v_closed v' = match ea.1 with EClose => true | _ => v_closed v end.

(** ** Each event *)

Lemma moved_step (P : QueuedPodInfo → bool) ev now p :
  queue_inv p →
  let p' := movePodsToActiveOrBackoffQueue lessFn initial maximum clusterEventMap p
              (filter (λ q, P q = true) (unschedulable_pods range p)) ev now in
  queue_inv p' ∧ schedulingCycle p' = schedulingCycle p ∧ moveRequestCycle p' = schedulingCycle p ∧
  closed p' = closed p ∧ ∀ x, name_ok x → place_of p' x = moved P ev now (place_of p x).
Proof.
  intros Hp. destruct (move_inv lessFn initial maximum clusterEventMap range ra rb ru range_keys
    (λ q, P q = true) ev now p Hp) as (H1 & H2 & H3 & H4 & _ & H6).
  split_and!; try done. intros x Hx. rewrite (H6 x Hx). destruct (place_of p x) as [[[] q]|]; try done.
  simpl. destruct (P q); [by rewrite bool_decide_true|by rewrite bool_decide_false].
Qed.

Lemma leftover_step p now :
  queue_inv p →
  let p' := flushUnschedulableQLeftover lessFn initial maximum clusterEventMap range p now in
  queue_inv p' ∧ schedulingCycle p' = schedulingCycle p ∧ spec_move (view_of p) (view_of p') (EFlushLeftover now) ∧
  closed p' = closed p ∧
  ∀ x, name_ok x → place_of p' x = moved (timed_out now) "UnschedulableTimeout" now (place_of p x).
Proof.
  intros Hp. unfold flushUnschedulableQLeftover.
  destruct (moved_step (timed_out now) "UnschedulableTimeout" now p Hp) as (H1 & H2 & H3 & H4 & H6).
  destruct (movable_list lessFn initial maximum range ra rb ru range_keys
    (λ q, timed_out now q = true) p (proj1 Hp)) as (_ & _ & Hfind).
  unfold timed_out in *. set (l := filter _ _) in *. destruct (Nat.ltb_spec 0 (length l)) as [Hl|Hl].
  - split_and!; try done. by left.
  - assert (l = []) as Hnil by (apply length_zero_iff_nil; lia). rewrite Hnil in Hfind.
    assert (∀ x q, name_ok x → place_of p x = Some (Unschedulable, q) →
      (unschedulableQTimeInterval <? now - Timestamp q) = false) as Hno.
    { intros x q Hx Hpl%place_of_unsched. specialize (Hfind x Hx). rewrite Hpl in Hfind. simpl in Hfind.
      case_decide as Hd; [done|]. by apply not_true_is_false. }
    split_and!; try done; [by right|]. intros x Hx.
    destruct (place_of p x) as [[[] q]|] eqn:Hpl; try done. simpl. by rewrite (Hno x q Hx Hpl).
Qed.

(** The pods of the active heap are those whose place is [Active]. *)
Lemma is_active_spec p q :
  queue_inv p → is_active (view_of p) q ↔ active p !! MetaNamespaceKeyFunc (qpi_Pod q) = Some q.
Proof.
  intros [Hp _]. unfold is_active. simpl. split.
  - intros [Hx Hpl]. revert Hpl. unfold place_of. repeat case_match; try congruence.
    by destruct (unsched p !! GetPodFullName (qpi_Pod q)).
  - intros Hq. split; [eapply (mi_names _ _ _ (qi_maps _ _ _ _ _ _ _ Hp)); eauto|]. by apply place_active.
Qed.

Lemma pop_step p :
  queue_inv p → schedulingCycle p < max_int64 →
  ∃ p' r, Pop lessFn p = Ret (p', r) ∧ queue_inv p' ∧ spec_step (view_of p) (EPop, APop r) (view_of p').
Proof.
  intros Hp Hcyc. destruct (Pop_inv lessFn initial maximum ra rb ru p Hp Hcyc) as (p' & r & He & Hp' & H1 & H2 & _ & Hr).
  exists p', r. split; [done|]. split; [done|]. unfold spec_step. cbn [fst snd spec_answer spec_place spec_cycle spec_move].
  assert (active p = ∅ → ∀ q, ¬ is_active (view_of p) q) as Hempty.
  { intros Hem q Hq%is_active_spec; [|done]. by rewrite Hem in Hq. }
  destruct r as [| | |q'].
  - destruct Hr as (Hem & Hcl & ->). split_and!; try done. by apply Hempty.
  - destruct Hr as (Hem & Hcl & ->). split_and!; try done. by apply Hempty.
  - done.
  - destruct Hr as (q & -> & Hq & Hmin & Hc & Hpl). split_and!; try done.
    exists q. split; [done|]. split; [by apply is_active_spec|]. intros q2 Hq2%is_active_spec; [|done]. by eapply Hmin.
Qed.

Lemma queue_event_step p e :
  queue_inv p → coherent p e →
  ∃ p' a, exec e p = Some (Ret (p', a)) ∧ queue_inv p' ∧ spec_step (view_of p) (e, a) (view_of p').
Proof.
  intros Hp Hco. destruct e as [pod now ref|q cycle now|now|now|ev now|pod now|pod now| | |old newPod now ref|pod|np node|pod|];
    cbn [exec coherent] in *.
  - destruct Hco as [Hok Href].
    destruct (Add_place lessFn initial maximum ra rb ru p pod now ref Hp Hok Href) as (p' & -> & Hp' & H).
    exists p', (ADone true). split_and!; try done. by destruct H as (?&?&?&?).
  - destruct Hco as [Hok Href].
    destruct (AddUnschedulable_place lessFn initial maximum ra rb ru p q cycle now Hp Hok Href)
      as (p' & ok & -> & Hp' & Hiff & H1 & H2 & H3 & H4). exists p', (ADone ok). split; [done|]. split; [done|].
    exact (conj H4 (conj Hiff (conj H1 (conj H2 H3)))).
  - destruct (flush_inv lessFn initial maximum ra rb ru p now Hp) as (p' & -> & Hp' & H1 & H2 & H3 & H4 & H5).
    exists p', (ADone true). by split_and!.
  - destruct (leftover_step p now Hp) as (Hp' & H1 & H2 & H3 & H4). eexists _, _. split; [done|]. by split_and!.
  - unfold MoveAllToActiveOrBackoffQueue. destruct (moved_step (λ _, true) ev now p Hp) as (Hp' & H1 & H2 & H3 & H4).
    rewrite filter_all in Hp', H1, H2, H3, H4. eexists _, _. split; [done|]. by split_and!.
  - unfold AssignedPodAdded, getUnschedulablePodsWithMatchingAffinityTerm.
    destruct (moved_step (attracted pod) "AssignedPodAdd" now p Hp) as (Hp' & H1 & H2 & H3 & H4).
    eexists _, _. split; [done|]. by split_and!.
  - unfold AssignedPodUpdated, getUnschedulablePodsWithMatchingAffinityTerm.
    destruct (moved_step (attracted pod) "AssignedPodUpdate" now p Hp) as (Hp' & H1 & H2 & H3 & H4).
    eexists _, _. split; [done|]. by split_and!.
  - destruct (pop_step p Hp Hco) as (p' & r & -> & Hp' & H). by exists p', (APop r).
  - eexists _, _. split; [done|]. split; [by apply Resume_inv|]. by split_and!.
  - destruct Hco as [Hu Href].
    destruct (Update_inv lessFn initial maximum ra rb ru p old newPod now ref Hp Hu Href) as (p' & -> & Hp' & H1 & H2 & H3 & H4).
    exists p', (ADone true). by split_and!.
  - destruct (Delete_inv lessFn initial maximum ra rb ru p pod Hp Hco) as (p' & -> & Hp' & H1 & H2 & H3 & _ & H4).
    exists p', (ADone true). by split_and!.
  - eexists _, _. split; [done|]. split; [by apply nominate_inv|]. by split_and!.
  - eexists _, _. split; [done|]. split; [by apply denominate_inv|]. by split_and!.
  - destruct (Close_inv lessFn initial maximum ra rb ru p Hp Hco) as (p' & -> & Hp' & H1 & H2 & H3 & _ & H4).
    exists p', (ADone true). split; [done|]. split; [done|].
    exact (conj (λ x _, H4 x) (conj eq_refl (conj H2 (conj H3 H1)))).
Qed.

(** ** Histories *)

Definition queue_step (p : PriorityQueue) (ea : event * answer) (p' : PriorityQueue) : Prop :=
  coherent p ea.1 ∧ exec ea.1 p = Some (Ret (p', ea.2)).

Lemma queue_step_good p ea p' :
  queue_step p ea p' → queue_inv p → queue_inv p' ∧ spec_step (view_of p) ea (view_of p').
Proof.
  destruct ea as [e a]. intros [Hco He] Hp. cbn [fst snd] in *.
  destruct (queue_event_step p e Hp Hco) as (p1 & a1 & He1 & H). rewrite He in He1. by simplify_eq.
Qed.

Lemma queue_trace_inv p es p' : trace queue_step p es p' → queue_inv p → queue_inv p'.
Proof. apply trace_invariant. intros s e s' Hinv Hstep. by apply (queue_step_good s e s'). Qed.

Lemma queue_trace_sim p es p' :
  trace queue_step p es p' → queue_inv p → trace spec_step (view_of p) es (view_of p').
Proof.
  induction 1 as [|s e s' es s'' Hstep _ IH]; intros Hinv; [constructor|].
  destruct (queue_step_good s e s' Hstep Hinv) as [Hinv' Hs]. econstructor; [done|]. by apply IH.
Qed.

(** *** Pods are not lost *)

(** The event ends the wait of the pod named like [x]. *)
Definition takes (x : Pod) (ea : event * answer) : bool :=
  match ea with
  | (EPop, APop (PopItem q)) => bool_decide (same x (qpi_Pod q))
  | (EDelete pod, _) => bool_decide (same x pod)
  | _ => false
  end.

Lemma spec_pending v ea v' x :
  spec_step v ea v' → name_ok x → takes x ea = false → is_Some (v_place v x) → is_Some (v_place v' x).
Proof.
  intros (Hpl & _) Hx Ht Hs. rewrite (Hpl x Hx). destruct ea as [e a].
  destruct e; cbn [spec_place fst snd takes] in *; try done.
  - by case_decide.
  - case_decide; [|done]. by destruct Hs as [? ->].
  - destruct Hs as [[[] ?] ->]; done.
  - destruct Hs as [[[] ?] ->]; done.
  - destruct Hs as [[[] ?] ->]; done.
  - destruct Hs as [[[] ?] ->]; done.
  - destruct Hs as [[[] ?] ->]; done.
  - repeat case_match; try done. by apply bool_decide_eq_false in Ht.
  - by case_decide.
  - case_decide; [|done]. by apply bool_decide_eq_false in Ht.
Qed.

Lemma trace_pending v es v' x :
  trace spec_step v es v' → name_ok x → existsb (takes x) es = false →
  is_Some (v_place v x) → is_Some (v_place v' x).
Proof.
  induction 1 as [|s e s' es s'' Hstep _ IH]; [done|]. intros Hx [H1 H2]%orb_false_iff Hs.
  apply IH; try done. by eapply spec_pending.
Qed.

(** *** Pods are not stuck *)

(** The event writes another version of the pod. *)
Definition renews (x : Pod) (ea : event * answer) : bool :=
  match ea.1 with
  | EAdd pod _ _ => bool_decide (same x pod)
  | EUpdate _ newPod _ _ => bool_decide (same x newPod)
  | _ => false
  end.

(** Places only improve. *)
Definition rank (pl : place) : nat := match pl with Active => 2 | Backoff => 1 | Unschedulable => 0 end.

Lemma spec_rank v ea v' x pl q :
  spec_step v ea v' → name_ok x → takes x ea = false → renews x ea = false → v_place v x = Some (pl, q) →
  ∃ pl', v_place v' x = Some (pl', q) ∧ (rank pl ≤ rank pl')%nat.
Proof.
  intros (Hpl & _) Hx Ht Hr Hs. rewrite (Hpl x Hx). destruct ea as [e a]. unfold renews in Hr.
  assert (∀ P ev now, ∃ pl', moved P ev now (Some (pl, q)) = Some (pl', q) ∧ (rank pl ≤ rank pl')%nat) as Hmv.
  { intros P ev now. destruct pl; cbn [moved]; try by eexists. eexists. split; [done|]. simpl. lia. }
  destruct e; cbn [spec_place fst snd takes] in *; rewrite ?Hs; try by eexists.
  - rewrite decide_False by (by apply bool_decide_eq_false in Hr). by eexists.
  - case_decide; by eexists.
  - destruct pl; cbn [flushed]; try by eexists. eexists. split; [done|]. case_match; simpl; lia.
  - apply Hmv.
  - apply Hmv.
  - apply Hmv.
  - apply Hmv.
  - repeat case_match; try by eexists. by apply bool_decide_eq_false in Ht.
  - rewrite decide_False by (by apply bool_decide_eq_false in Hr). by eexists.
  - rewrite decide_False by (by apply bool_decide_eq_false in Ht). by eexists.
Qed.

Lemma trace_rank v es v' x pl q :
  trace spec_step v es v' → name_ok x → existsb (takes x) es = false → existsb (renews x) es = false →
  v_place v x = Some (pl, q) → ∃ pl', v_place v' x = Some (pl', q) ∧ (rank pl ≤ rank pl')%nat.
Proof.
  intros Htr Hx. revert pl. induction Htr as [|s e s' es s'' Hstep _ IH]; intros pl; [by eexists|].
  intros [H1 H2]%orb_false_iff [H3 H4]%orb_false_iff Hs.
  destruct (spec_rank _ _ _ _ _ _ Hstep Hx H1 H3 Hs) as (pl1 & Hs1 & Hr1).
  destruct (IH pl1 H2 H4 Hs1) as (pl2 & Hs2 & Hr2). exists pl2. split; [done|lia].
Qed.

(** *** Cycles *)

Lemma spec_cycles v ea v' :
  spec_step v ea v' → v_move v ≤ v_cycle v →
  v_move v' ≤ v_cycle v' ∧ v_cycle v ≤ v_cycle v' ∧ v_move v ≤ v_move v'.
Proof.
  destruct ea as [e a]. intros (_ & _ & Hc & Hm & _) Hle. cbn [fst snd] in *.
  assert (v_cycle v ≤ v_cycle v') by (rewrite Hc; destruct e, a as [|[]]; simpl; lia).
  destruct e; cbn [spec_move] in Hm; lia.
Qed.

Lemma trace_cycles v es v' :
  trace spec_step v es v' → v_move v ≤ v_cycle v →
  v_move v' ≤ v_cycle v' ∧ v_cycle v ≤ v_cycle v' ∧ v_move v ≤ v_move v'.
Proof.
  induction 1 as [|s e s' es s'' Hstep _ IH]; intros Hle; [lia|].
  destruct (spec_cycles _ _ _ Hstep Hle) as (H1 & H2 & H3). destruct (IH H1) as (H4 & H5 & H6). lia.
Qed.

(** *** Progress *)

Lemma timeout_movable q : movable clusterEventMap "UnschedulableTimeout" q = true.
Proof.
  unfold movable, podMatchesEvent. assert (clusterEventReg !! "UnschedulableTimeout" = Some WildCardEvent) as ->
    by (vm_compute; reflexivity). rewrite bool_decide_true by done. apply orb_true_r.
Qed.

Lemma leftover_rank v t a v' x pl q :
  spec_step v (EFlushLeftover t, a) v' → name_ok x → v_place v x = Some (pl, q) →
  unschedulableQTimeInterval < t - Timestamp q → ∃ pl', v_place v' x = Some (pl', q) ∧ (1 ≤ rank pl')%nat.
Proof.
  intros (Hpl & _) Hx Hs Ht. rewrite (Hpl x Hx). cbn [spec_place fst snd]. rewrite Hs. unfold moved, timed_out.
  rewrite (proj2 (Z.ltb_lt _ _) Ht), timeout_movable. destruct pl; [by (eexists; split; [done|simpl; lia])..|].
  eexists. split; [done|]. simpl. unfold target. case_match; simpl; lia.
Qed.

Lemma flush_rank v t a v' x pl q :
  spec_step v (EFlushBackoff t, a) v' → name_ok x → v_place v x = Some (pl, q) → (1 ≤ rank pl)%nat →
  getBackoffTime initial maximum q ≤ t → v_place v' x = Some (Active, q).
Proof.
  intros (Hpl & _) Hx Hs Hr Ht. rewrite (Hpl x Hx). cbn [spec_place fst snd]. rewrite Hs.
  destruct pl; simpl in *; [done| |lia]. unfold isPodBackingoff. by rewrite (proj2 (Z.ltb_ge _ _) Ht).
Qed.

Lemma spec_progress v es1 t1 a1 es2 t2 a2 es3 v' x pl q :
  let es := es1 ++ (EFlushLeftover t1, a1) :: es2 ++ (EFlushBackoff t2, a2) :: es3 in
  trace spec_step v es v' → name_ok x → v_place v x = Some (pl, q) →
  existsb (takes x) es = false → existsb (renews x) es = false →
  unschedulableQTimeInterval < t1 - Timestamp q → getBackoffTime initial maximum q ≤ t2 →
  v_place v' x = Some (Active, q).
Proof.
  intros es Htr Hx Hs Ht Hr H1 H2. unfold es in *. clear es.
  rewrite existsb_app in Ht, Hr. apply orb_false_iff in Ht as [Ht1 Ht], Hr as [Hr1 Hr].
  simpl in Ht, Hr. rewrite existsb_app in Ht, Hr. apply orb_false_iff in Ht as [Ht2 Ht], Hr as [Hr2 Hr].
  simpl in Ht, Hr.
  apply trace_app_inv in Htr as (w1 & Htr1 & (w2 & Hst2 & Htr)%trace_cons_inv).
  apply trace_app_inv in Htr as (w3 & Htr3 & (w4 & Hst4 & Htr5)%trace_cons_inv).
  destruct (trace_rank _ _ _ _ _ _ Htr1 Hx Ht1 Hr1 Hs) as (pl1 & Hs1 & _).
  destruct (leftover_rank _ _ _ _ _ _ _ Hst2 Hx Hs1 H1) as (pl2 & Hs2 & Hk2).
  destruct (trace_rank _ _ _ _ _ _ Htr3 Hx Ht2 Hr2 Hs2) as (pl3 & Hs3 & Hk3).
  assert (1 ≤ rank pl3)%nat as Hk by lia. pose proof (flush_rank _ _ _ _ _ _ _ Hst4 Hx Hs3 Hk H2) as Hs4.
  destruct (trace_rank _ _ _ _ _ _ Htr5 Hx Ht Hr Hs4) as (pl5 & Hs5 & Hk5).
  destruct pl5; simpl in Hk5; [done|lia..].
Qed.

(** *** Move requests *)

Lemma spec_move_request v es v' ev now a c :
  trace spec_step v es v' → v_move v ≤ v_cycle v → c ≤ v_cycle v → (EMoveAll ev now, a) ∈ es → c ≤ v_move v'.
Proof.
  intros Htr Hle Hc (es1 & es2 & ->)%list_elem_of_split.
  apply trace_app_inv in Htr as (w1 & Htr1 & (w2 & Hst2 & Htr3)%trace_cons_inv).
  destruct (trace_cycles _ _ _ Htr1 Hle) as (H1 & H2 & H3).
  destruct (spec_cycles _ _ _ Hst2 H1) as (H4 & H5 & H6).
  destruct (trace_cycles _ _ _ Htr3 H4) as (H7 & H8 & H9).
  destruct Hst2 as (_ & _ & _ & Hm & _). cbn in Hm. lia.
Qed.

(** ** Running a history *)

(** The addresses of the copies with the UIDs. *)
Definition copies (p : PriorityQueue) : list (nat * string) :=
  let of_map (m : gmap string QueuedPodInfo) := (λ kq, (qpi_ref kq.2, pod_UID (qpi_Pod kq.2))) <$> map_to_list m in
  of_map (active p) ++ of_map (backoff p) ++ of_map (unsched p) ++
  (map_to_list (nominatedPods (nominator p)) ≫= λ xl, (λ np, (np.1, pod_UID (pi_Pod np.2))) <$> xl.2).

Lemma has_copy_copies p r u : has_copy p r u → (r, u) ∈ copies p.
Proof.
  unfold copies. rewrite !elem_of_app, !list_elem_of_fmap.
  intros [(k & q & Hq & <- & <-)|[(k & q & Hq & <- & <-)|[(k & q & Hq & <- & <-)|(x & np & Hnp & <- & <-)]]].
  - left. exists (k, q). by rewrite elem_of_map_to_list.
  - right. left. exists (k, q). by rewrite elem_of_map_to_list.
  - right. right. left. exists (k, q). by rewrite elem_of_map_to_list.
  - do 3 right. unfold np_list in Hnp. destruct (nominatedPods (nominator p) !! x) as [l|] eqn:Hl; [|by apply not_elem_of_nil in Hnp].
    apply list_elem_of_bind. exists (x, l). split; [|by apply elem_of_map_to_list].
    apply list_elem_of_fmap. by exists np.
Qed.

Definition unused (p : PriorityQueue) (r : nat) (uid : string) : bool :=
  forallb (λ ru, negb (ru.1 =? r)%nat || (ru.2 =? uid)%string) (copies p).

Lemma unused_spec p r uid : unused p r uid = true → ∀ u, has_copy p r u → u = uid.
Proof.
  unfold unused. rewrite forallb_forall. intros Hall u Hc%has_copy_copies%list_elem_of_In.
  specialize (Hall _ Hc). simpl in Hall. rewrite Nat.eqb_refl in Hall. by apply String.eqb_eq.
Qed.

Definition coherentb (p : PriorityQueue) (e : event) : bool :=
  match e with
  | EAdd pod now ref => bool_decide (name_ok pod) && unused p ref (pod_UID pod)
  | EAddUnschedulable q cycle now => bool_decide (name_ok (qpi_Pod q)) && unused p (qpi_ref q) (pod_UID (qpi_Pod q))
  | EUpdate old newPod now ref =>
      bool_decide (name_ok newPod) && bool_decide (same old newPod) &&
      match place_of p newPod with
      | Some (_, q) => bool_decide (pod_UID (qpi_Pod q) = pod_UID newPod)
      | None => unused p ref (pod_UID newPod)
      end
  | EPop => schedulingCycle p <? max_int64
  | EResume => (0 <? woken (pcond p))%nat
  | EDelete pod => bool_decide (name_ok pod)
  | ENominate np node => unused p np.1 (pod_UID (pi_Pod np.2))
  | EClose => negb (closed p)
  | _ => true
  end.

Lemma coherentb_spec p e : coherentb p e = true → coherent p e.
Proof.
  destruct e; cbn [coherentb coherent]; try done.
  - intros [H1%bool_decide_eq_true H2]%andb_true_iff. split; [done|]. exact (unused_spec _ _ _ H2).
  - intros [H1%bool_decide_eq_true H2]%andb_true_iff. split; [done|]. exact (unused_spec _ _ _ H2).
  - intros H. by apply Z.ltb_lt.
  - intros H. by apply Nat.ltb_lt.
  - intros [[H1%bool_decide_eq_true H2%bool_decide_eq_true]%andb_true_iff H3]%andb_true_iff.
    destruct (place_of p newPod) as [[pl q]|] eqn:Hpl.
    + apply bool_decide_eq_true in H3. split; [|done]. split_and!; [done..|].
      intros pl' q' Hq. rewrite Hpl in Hq. by simplify_eq.
    + split; [|intros _; exact (unused_spec _ _ _ H3)]. split_and!; [done..|]. intros pl' q' Hq. by rewrite Hpl in Hq.
  - intros H. by apply bool_decide_eq_true in H.
  - apply unused_spec.
  - apply negb_true_iff.
Qed.

(** The answers and the final state of a coherent history. *)
Fixpoint run (es : list event) (p : PriorityQueue) : option (list (event * answer) * PriorityQueue) :=
  match es with
  | [] => Some ([], p)
  | e :: es =>
      if coherentb p e then
        match exec e p with
        | Some (Ret (p, a)) => match run es p with Some (eas, p) => Some ((e, a) :: eas, p) | None => None end
        | _ => None
        end
      else None
  end.

Lemma run_trace es p eas p' : run es p = Some (eas, p') → trace queue_step p eas p'.
Proof.
  revert p eas. induction es as [|e es IH]; intros p eas; simpl; [intros; simplify_eq; constructor|].
  destruct (coherentb p e) eqn:Hco; [|done]. destruct (exec e p) as [[[p1 a]|]|] eqn:He; try done.
  destruct (run es p1) as [[eas1 p2]|] eqn:Hr; [|done]. intros. simplify_eq.
  econstructor; [|by apply IH]. split; [by apply coherentb_spec|done].
Qed.

End Events.

(** ** Properties *)

#[export] Instance PrioritySort_swo : StrictWeakOrder PrioritySort_Less.
Proof.
  split; unfold PrioritySort_Less; intros *;
    rewrite ?orb_true_iff, ?orb_false_iff, ?andb_true_iff, ?andb_false_iff, ?Z.ltb_lt, ?Z.ltb_ge, ?Z.eqb_eq, ?Z.eqb_neq; lia.
Qed.

Section Properties.
Context (lessFn : QueuedPodInfo → QueuedPodInfo → bool) `{!StrictWeakOrder lessFn}.
Context (initial maximum : Z) (clusterEventMap : list (ClusterEvent * gset string)).
Context (nsSelectorEnabled : bool) (namespaceLabels : string → Labels).
Context (range : gmap string QueuedPodInfo → list string).
Context (ra rb ru : option Z).
Context (range_keys : ∀ m, range m ≡ₚ (map_to_list m).*1).

Local Abbreviation step :=
  (queue_step lessFn initial maximum clusterEventMap nsSelectorEnabled namespaceLabels range).
Local Abbreviation machine := (spec_step lessFn initial maximum clusterEventMap nsSelectorEnabled namespaceLabels).
Local Abbreviation new := (NewPriorityQueue ra rb ru).

Lemma reachable_inv es p : trace step new es p → queue_inv lessFn initial maximum ra rb ru p.
Proof. intros Htr. by eapply queue_trace_inv, new_queue_inv. Qed.

Lemma reachable_sim es p es' p' :
  trace step new es p → trace step p es' p' → trace machine (view_of p) es' (view_of p').
Proof. intros H1 H2. eapply queue_trace_sim; [done..|by eapply reachable_inv]. Qed.

(** C21. Along any history of coherent operations on a new scheduling queue the
    invariant holds: [activeQ] and [podBackoffQ] are heaps with their metrics,
    every pod is in at most one of the three sub-queues and under its key, the
    metric of [unschedulableQ] counts its pods, the move request cycle is at most
    the scheduling cycle, a pod is nominated to the one node whose list has
    it, and no goroutine sleeps in [Pop] while a pod is active or the queue is closed.  The
    next coherent operation returns (the flush loop ends, nothing panics)
    and preserves it, whatever it is. *)
Theorem queue_invariant es p :
  trace step new es p →
  queue_inv lessFn initial maximum ra rb ru p ∧
  ∀ e, coherent p e →
    ∃ p' a, exec lessFn initial maximum clusterEventMap nsSelectorEnabled namespaceLabels range e p =
              Some (Ret (p', a)) ∧ queue_inv lessFn initial maximum ra rb ru p'.
Proof.
  intros Htr. pose proof (reachable_inv _ _ Htr) as Hp. split; [done|]. intros e Hco.
  destruct (queue_event_step lessFn initial maximum clusterEventMap nsSelectorEnabled namespaceLabels range ra rb ru
    range_keys p e Hp Hco) as (p' & a & He & Hp' & _). eauto.
Qed.

(** C4. The queue refines the abstract machine on views: along any history the
    place of every pod (active, backing off, unschedulable or absent, with its
    information), the answers, the cycles and the closed flag are those of the
    machine; [Pop] answers with a least active pod of the plugin's order, sleeps when there is
    none, and reports a closed queue. *)
Theorem queue_refines es p : trace step new es p → trace machine (view_of new) es (view_of p).
Proof. intros Htr. apply (reachable_sim [] new es p); [constructor|done]. Qed.

(** C23. No pod is lost: a pod given to [Add] is in the queue until a [Pop]
    returns it or a [Delete] names it, whatever happens in between. *)
Theorem queue_pod_not_lost es p pod now ref a p1 es' p2 :
  trace step new es p → step p (EAdd pod now ref, a) p1 → trace step p1 es' p2 →
  existsb (takes pod) es' = false → is_Some (place_of p2 pod).
Proof.
  intros H0 H1 H2 Ht. pose proof H1 as [[Hx _] _].
  assert (trace step new (es ++ [(EAdd pod now ref, a)]) p1) as H01.
  { eapply trace_app; [done|]. econstructor; [done|constructor]. }
  pose proof (reachable_sim _ _ _ _ H01 H2) as Hsim.
  apply (trace_pending _ _ _ _ _ _ _ _ _ pod Hsim Hx Ht). simpl.
  destruct (queue_step_good _ _ _ _ _ _ _ ra rb ru range_keys _ _ _ H1 (reachable_inv _ _ H0)) as [_ (Hpl & _)].
  change (place_of p1 pod) with (v_place (view_of p1) pod). rewrite (Hpl pod Hx). cbn.
  by rewrite decide_True.
Qed.

(** C22. No pod is stuck: once [flushUnschedulableQLeftover] has run a minute
    after the timestamp of a pending pod and [flushBackoffQCompleted] after
    the end of its backoff, the pod is in [activeQ], whatever other operations
    are interleaved, unless it was popped, deleted or replaced by a newer version. *)
Theorem queue_progress es p x pl q es1 t1 a1 es2 t2 a2 es3 p' :
  let es' := es1 ++ (EFlushLeftover t1, a1) :: es2 ++ (EFlushBackoff t2, a2) :: es3 in
  trace step new es p → name_ok x → place_of p x = Some (pl, q) → trace step p es' p' →
  existsb (takes x) es' = false → existsb (renews x) es' = false →
  unschedulableQTimeInterval < t1 - Timestamp q → getBackoffTime initial maximum q ≤ t2 →
  place_of p' x = Some (Active, q).
Proof.
  intros es' H0 Hx Hpl Htr Ht Hr H1 H2. pose proof (reachable_sim _ _ _ _ H0 Htr) as Hsim.
  exact (spec_progress _ _ _ _ _ _ _ _ _ _ _ _ _ _ _ _ _ _ Hsim Hx Hpl Ht Hr H1 H2).
Qed.

(** A move request that arrives while a pod is being scheduled is not missed:
    when the pod comes back with the cycle it was popped in, it backs off
    instead of waiting in [unschedulableQ] for an event that is already past. *)
Lemma queue_move_request es p q0 p1 es' p2 ev t a q now p3 :
  trace step new es p → step p (EPop, APop (PopItem q0)) p1 → trace step p1 es' p2 →
  (EMoveAll ev t, a) ∈ es' →
  step p2 (EAddUnschedulable q (SchedulingCycle p1) now, ADone true) p3 →
  place_of p3 (qpi_Pod q) = Some (Backoff, set_Timestamp q now).
Proof.
  intros H0 H1 H2 Hev H3. assert (trace step new (es ++ [(EPop, APop (PopItem q0))]) p1) as H01.
  { eapply trace_app; [done|]. econstructor; [done|constructor]. }
  pose proof (trace_app _ _ _ _ _ _ H01 H2) as H02.
  destruct (qi_cycle _ _ _ _ _ _ _ (proj1 (reachable_inv _ _ H01))) as [Hc _].
  pose proof (spec_move_request _ _ _ _ _ _ _ _ _ _ _ _ (schedulingCycle p1) (reachable_sim _ _ _ _ H01 H2) Hc
    ltac:(simpl; lia) Hev) as Hm. simpl in Hm.
  destruct (queue_step_good _ _ _ _ _ _ _ ra rb ru range_keys _ _ _ H3 (reachable_inv _ _ H02)) as [_ (Hpl & Hans & _)].
  pose proof H3 as [[Hx _] _]. cbn in Hans. pose proof (proj1 Hans eq_refl) as Hnone.
  change (place_of p3 (qpi_Pod q)) with (v_place (view_of p3) (qpi_Pod q)). rewrite (Hpl _ Hx).
  cbn -[Z.leb]. rewrite decide_True by done. rewrite Hnone. unfold SchedulingCycle.
  by rewrite (proj2 (Z.leb_le _ _) Hm).
Qed.
End Properties.

Definition pops_before (q q2 : QueuedPodInfo) : Prop :=
  PodPriority (qpi_Pod q2) < PodPriority (qpi_Pod q) ∨
  (PodPriority (qpi_Pod q2) = PodPriority (qpi_Pod q) ∧ Timestamp q ≤ Timestamp q2).

(** With the default [PrioritySort] plugin, [Pop] on a reachable queue with
    active pods returns one of the highest priority and, among those, of the
    oldest timestamp; its attempts and the scheduling cycle go up by one and
    it leaves the queue. *)
Lemma queue_pop_order initial maximum cem nsSel nsLabels range ra rb ru es p q1 :
  (∀ m, range m ≡ₚ (map_to_list m).*1) →
  trace (queue_step PrioritySort_Less initial maximum cem nsSel nsLabels range) (NewPriorityQueue ra rb ru) es p →
  schedulingCycle p < max_int64 → is_active (view_of p) q1 →
  ∃ p' q, Pop PrioritySort_Less p = Ret (p', PopItem (incr_Attempts q)) ∧ is_active (view_of p) q ∧
    schedulingCycle p' = schedulingCycle p + 1 ∧ place_of p' (qpi_Pod q) = None ∧
    ∀ q2, is_active (view_of p) q2 → pops_before q q2.
Proof.
  intros Hrange Htr Hc Hq1. pose proof (reachable_inv _ _ _ _ _ _ _ ra rb ru Hrange _ _ Htr) as Hp.
  destruct (pop_step _ _ _ cem nsSel nsLabels ra rb ru p Hp Hc) as (p' & r & He & Hp' & Hpl & Hans & Hcy & _).
  cbn [fst snd spec_answer] in Hans.
  destruct r as [| | |q']; [by destruct (proj1 Hans q1)|by destruct (proj1 Hans q1)|done|].
  destruct Hans as (q & -> & Hq & Hmin). exists p', q. split_and!; try done.
  - change (v_place (view_of p') (qpi_Pod q) = None). rewrite (Hpl _ (proj1 Hq)). cbn [spec_place fst snd].
    by rewrite decide_True.
  - intros q2 Hq2%Hmin. revert Hq2. unfold PrioritySort_Less, pops_before.
    rewrite orb_false_iff, andb_false_iff, !Z.ltb_ge, Z.eqb_neq. lia.
Qed.

(** ** Backoff *)

Lemma backoff_loop_formula maximum n d :
  0 ≤ d ≤ maximum → maximum < 2 ^ 62 →
  backoff_loop maximum n d = Z.min (d * 2 ^ Z.of_nat n) maximum.
Proof.
  revert d. induction n as [|n IH]; intros d Hd Hm; cbn [backoff_loop].
  { change (2 ^ Z.of_nat 0) with 1. lia. }
  rewrite int64_id by (unfold min_int64, max_int64; lia).
  rewrite Nat2Z.inj_succ, Z.pow_succ_r by lia. pose proof (Z.pow_pos_nonneg 2 (Z.of_nat n) ltac:(lia) ltac:(lia)).
  destruct (Z.ltb_spec maximum (d * 2)).
  - rewrite Z.min_r; [done|]. nia.
  - rewrite IH by lia. f_equal. ring.
Qed.

(** The backoff of a pod doubles with every attempt from the initial to the
    maximal duration, without overflow while the maximum is below 2^62 ns
    (146 years): after [n] attempts it is [initial * 2^(n-1)] or the maximum,
    so between the two and never shorter after more attempts. *)
Lemma backoff_duration initial maximum q :
  0 ≤ initial ≤ maximum → maximum < 2 ^ 62 → 1 ≤ Attempts q →
  calculateBackoffDuration initial maximum q = Z.min (initial * 2 ^ (Attempts q - 1)) maximum ∧
  initial ≤ calculateBackoffDuration initial maximum q ≤ maximum ∧
  ∀ q2, Attempts q ≤ Attempts q2 →
    calculateBackoffDuration initial maximum q ≤ calculateBackoffDuration initial maximum q2.
Proof.
  intros Hi Hm Ha. unfold calculateBackoffDuration. rewrite backoff_loop_formula, Z2Nat.id by lia.
  pose proof (Z.pow_pos_nonneg 2 (Attempts q - 1) ltac:(lia) ltac:(lia)).
  split; [done|]. split; [nia|]. intros q2 Hq2. rewrite backoff_loop_formula, Z2Nat.id by lia.
  pose proof (Z.pow_le_mono_r 2 (Attempts q - 1) (Attempts q2 - 1) ltac:(lia) ltac:(lia)). nia.
Qed.

(** ** A pod deleted and created again under its name *)

Lemma has_uid_written uid r pi l :
  (∀ np, np ∈ l → pod_UID (pi_Pod np.2) = uid → np.1 = r) → pod_UID (pi_Pod pi) ≠ uid →
  has_uid uid (map (write_entry r pi) l) = false.
Proof.
  intros Hl Hne. unfold has_uid. apply not_true_is_false. rewrite existsb_exists.
  intros (np & (np0 & <- & Hin)%in_map_iff & Hu%String.eqb_eq). apply list_elem_of_In in Hin.
  unfold write_entry in Hu. destruct (Nat.eqb_spec np0.1 r) as [|Hr]; [done|]. by apply Hr, Hl.
Qed.

Lemma stale_nomination n q old newPod node :
  nominatedPodToNode n !! pod_UID old = Some node →
  (∀ np, np ∈ np_list n node → pod_UID (pi_Pod np.2) = pod_UID old → np.1 = qpi_ref q) →
  nominatedPodToNode n !! pod_UID newPod = None → pod_UID old ≠ pod_UID newPod →
  pod_NominatedNodeName old ≠ EmptyString → pod_NominatedNodeName newPod = EmptyString →
  renominated n q old newPod =
    mkNPM (nominatedPods (write_ref n (qpi_ref q) (qpi_PodInfo (updated q newPod))))
      (delete (pod_UID old) (nominatedPodToNode n)).
Proof.
  intros Hto Hl Hno Hne Hold Hnew. unfold renominated, UpdateNominatedPod.
  pose proof (updated_Pod q newPod) as Hup. unfold qpi_Pod in Hup.
  set (pi := qpi_PodInfo (updated q newPod)) in *. unfold NominatedNodeName.
  rewrite (proj2 (String.eqb_neq _ _) Hold). cbn [andb snd].
  unfold npm_delete. cbn [write_ref nominatedPodToNode]. rewrite Hto.
  fold (write_ref n (qpi_ref q) pi).
  assert (has_uid (pod_UID old) (np_list (write_ref n (qpi_ref q) pi) node) = false) as ->.
  { rewrite write_ref_list. apply has_uid_written; [done|]. rewrite Hup. done. }
  unfold npm_add, npm_delete, NominatedNodeName. cbn [snd nominatedPodToNode]. rewrite Hup.
  rewrite lookup_delete_ne, Hno, Hnew by done. done.
Qed.

Lemma npm_entry n node np np2 :
  npm_wf n → np ∈ np_list n node → np2 ∈ np_list n node → pod_UID (pi_Pod np2.2) = pod_UID (pi_Pod np.2) →
  np2 = np ∧ nominatedPodToNode n !! pod_UID (pi_Pod np.2) = Some node.
Proof.
  intros Hwf Hin Hin2 Hu. unfold np_list in *.
  destruct (nominatedPods n !! node) as [l|] eqn:Hl; [|by apply not_elem_of_nil in Hin].
  simpl in *. split; [|by eapply nw_list]. destruct (nw_nodup _ Hwf node l Hl) as [Hnd _].
  apply list_elem_of_lookup in Hin as [i Hi], Hin2 as [j Hj].
  assert (j = i) as ->; [|congruence]. eapply NoDup_lookup; [exact Hnd|rewrite list_lookup_fmap, Hj; done|].
  rewrite list_lookup_fmap, Hi. simpl. by rewrite Hu.
Qed.

(** The nominated pods go wrong when a pod is deleted and created again
    under its name and the informer merges the two into one update, which the event
    handlers say can happen: the entry of the old pod is overwritten in place with the new
    pod before it is searched by the old UID, so the new pod stays in the
    list of the old pod's node without a node of its own, and deleting it
    from the queue does not remove it. *)
Lemma queue_update_stale_nomination lessFn `{!StrictWeakOrder lessFn} initial maximum ra rb ru p q old newPod now ref node :
  queue_inv lessFn initial maximum ra rb ru p →
  name_ok newPod → same old newPod → active p !! MetaNamespaceKeyFunc old = Some q → qpi_Pod q = old →
  (qpi_ref q, qpi_PodInfo q) ∈ np_list (nominator p) node →
  pod_UID old ≠ pod_UID newPod → nominatedPodToNode (nominator p) !! pod_UID newPod = None →
  pod_NominatedNodeName old ≠ EmptyString → pod_NominatedNodeName newPod = EmptyString →
  ∃ p' p'', Update lessFn initial maximum p (Some old) newPod now ref = Ret (p', true) ∧
    Delete lessFn initial maximum p' newPod = Ret p'' ∧ place_of p'' newPod = None ∧
    nominatedPodToNode (nominator p'') !! pod_UID newPod = None ∧
    newPod ∈ pi_Pod <$> NominatedPodsForNode (nominator p'') node.
Proof.
  intros [[Ha Hb Hm _ _ Hn _] _] Hok Hs Hq Hqp Hin Hne Hno Ho Hnn.
  destruct (npm_entry _ _ _ _ Hn Hin Hin eq_refl) as [_ Hto]. cbn [snd] in Hto.
  fold (qpi_Pod q) in Hto. rewrite Hqp in Hto.
  pose proof (stale_nomination (nominator p) q old newPod node Hto) as Hst.
  assert (MetaNamespaceKeyFunc old = MetaNamespaceKeyFunc newPod) as HK
    by (unfold MetaNamespaceKeyFunc; by destruct Hs as [-> ->]).
  destruct (mi_disj _ _ _ Hm newPod Hok) as [Hd _]. rewrite <- HK in Hd. destruct (Hd (mk_is_Some _ _ Hq)) as [Hd1 Hd2].
  unfold Update, SchedHeap.Get. cbn [podInfoKeyFunc qpi_Pod newQueuedPodInfoForLookup qpi_PodInfo pi_Pod].
  rewrite GetByKey_contents, Hq. unfold updatePod. fold (updated q newPod). unfold SchedHeap.Update.
  cbn [set_nominator update_nominated activeQ].
  destruct (active_Add lessFn ra (activeQ p) (updated q newPod) Ha) as (h & -> & Hh & Hch).
  rewrite updated_Pod in Hch.
  destruct (Delete_spec podInfoKeyFunc lessFn ra h (newQueuedPodInfoForLookup newPod) (MetaNamespaceKeyFunc newPod) Hh eq_refl)
    as (h2 & e & Hdel & _ & Hch2 & ->).
  eexists _, _. split; [done|]. unfold Delete.
  cbn [set_nominator set_activeQ activeQ nominator update_nominated DeleteNominatedPodIfExists podBackoffQ].
  match goal with |- context [UpdateNominatedPod ?a ?b ?c] =>
    change (UpdateNominatedPod a b c) with (renominated (nominator p) q old newPod) end.
  rewrite Hst; [|intros np Hnp Hu|done..].
  2: { by destruct (npm_entry _ _ _ _ Hn Hin Hnp ltac:(cbn [snd]; fold (qpi_Pod q); congruence)) as [-> _]. }
  rewrite Hdel, Hch, lookup_insert_eq. split; [done|].
  unfold DeleteNominatedPodIfExists, npm_delete. cbn [nominatedPodToNode nominatedPods nominator set_activeQ set_nominator].
  rewrite lookup_delete_ne, Hno by done. cbn [nominatedPodToNode nominatedPods]. split_and!.
  - apply place_of_None. cbn [activeQ podBackoffQ unschedulableQ set_activeQ]. rewrite Hch2, lookup_delete_eq, <- HK.
    done.
  - by rewrite lookup_delete_ne.
  - unfold NominatedPodsForNode. rewrite <- list_fmap_compose. apply list_elem_of_fmap.
    exists (qpi_ref q, qpi_PodInfo (updated q newPod)). split; [symmetry; apply updated_Pod|].
    unfold np_list. cbn [nominatedPods write_ref]. rewrite lookup_fmap. unfold np_list in Hin.
    destruct (nominatedPods (nominator p) !! node) as [l|]; [|by apply not_elem_of_nil in Hin].
    apply list_elem_of_fmap. exists (qpi_ref q, qpi_PodInfo q). split; [|done].
    unfold write_entry. cbn [fst]. by rewrite Nat.eqb_refl.
Qed.

(** ** An example

    Two pods are added and popped in the order of their priorities; the first
    one comes back after a move request, the second one without; the
    flushes make both active again. *)

Definition queue_pod (name uid : string) (priority : Z) (nominated : string) : Pod :=
  mkPod name "ns" uid "1" ∅ [] [] None EmptyString None (Some priority) nominated "" ∅ [] ∅ [] [] None [] None None [] "" None [].

Definition sample_range (m : gmap string QueuedPodInfo) : list string := (map_to_list m).*1.

Definition sample_low : QueuedPodInfo := incr_Attempts (newQueuedPodInfo 1 (queue_pod "low" "u1" 1 "") 0).
Definition sample_high : QueuedPodInfo := incr_Attempts (newQueuedPodInfo 2 (queue_pod "high" "u2" 5 "") 0).

Definition seconds (n : Z) : Z := n * 1000000000.

Definition sample_history : list event :=
  [EAdd (queue_pod "low" "u1" 1 "") 0 1; EAdd (queue_pod "high" "u2" 5 "") 0 2; EPop;
   EMoveAll "NodeAdd" (seconds 1); EAddUnschedulable sample_high 1 (seconds 2); EPop;
   EAddUnschedulable sample_low 2 (seconds 3);
   EFlushLeftover (seconds 100); EFlushBackoff (seconds 110); EPop; EPop; EPop; EDelete (queue_pod "low" "u1" 1 "")].

Local Abbreviation sample_run := (run PrioritySort_Less (seconds 1) (seconds 10) [] false (λ _, ∅) sample_range).
Local Abbreviation sample_steps := (queue_step PrioritySort_Less (seconds 1) (seconds 10) [] false (λ _, ∅) sample_range).
Local Abbreviation sample_new := (NewPriorityQueue (Some 0) (Some 0) (Some 0)).

(** The state after [n] events, and the log of the events [i] to [j]. *)
Definition sample_queue (n : nat) : PriorityQueue :=
  default (sample_new) (snd <$> sample_run (take n sample_history) sample_new).
Definition sample_log (i j : nat) : list (event * answer) :=
  default [] (fst <$> sample_run (drop i (take j sample_history)) (sample_queue i)).

Lemma sample_range_keys m : sample_range m ≡ₚ (map_to_list m).*1.
Proof. done. Qed.

Lemma sample_prefix n :
  is_Some (sample_run (take n sample_history) sample_new) →
  trace sample_steps sample_new (sample_log 0 n) (sample_queue n).
Proof.
  unfold sample_log, sample_queue at 2. rewrite drop_0. change (sample_queue 0) with sample_new.
  intros [[eas p] Hr]. rewrite Hr. simpl. by eapply run_trace.
Qed.

Ltac run_sample := vm_compute; eexists; reflexivity.

Lemma queue_invariant_witness :
  queue_inv PrioritySort_Less (seconds 1) (seconds 10) (Some 0) (Some 0) (Some 0) (sample_queue 12) ∧
  waiting (pcond (sample_queue 12)) = 1%nat.
Proof.
  split; [|vm_compute; reflexivity].
  apply (queue_invariant PrioritySort_Less (seconds 1) (seconds 10) [] false (λ _, ∅) sample_range (Some 0) (Some 0) (Some 0)
    sample_range_keys (sample_log 0 12)).
  apply sample_prefix. run_sample.
Defined.

Lemma sample_segment i j :
  sample_run (drop i (take j sample_history)) (sample_queue i) = Some (sample_log i j, sample_queue j) →
  trace sample_steps (sample_queue i) (sample_log i j) (sample_queue j).
Proof. apply run_trace. Qed.

Lemma sample_one n e a :
  coherentb (sample_queue n) e = true →
  exec PrioritySort_Less (seconds 1) (seconds 10) [] false (λ _, ∅) sample_range e (sample_queue n) =
    Some (Ret (sample_queue (S n), a)) →
  sample_steps (sample_queue n) (e, a) (sample_queue (S n)).
Proof. intros Hco He. split; [by apply coherentb_spec|done]. Qed.

Ltac compute_sample := vm_compute; reflexivity.

Lemma queue_refines_witness :
  trace (spec_step PrioritySort_Less (seconds 1) (seconds 10) [] false (λ _, ∅)) (view_of sample_new)
    (sample_log 0 12) (view_of (sample_queue 12)) ∧ length (sample_log 0 12) = 12%nat.
Proof.
  split; [|compute_sample]. apply (queue_refines _ _ _ _ _ _ _ _ _ _ sample_range_keys).
  apply sample_prefix. run_sample.
Defined.

Lemma queue_pod_not_lost_witness : is_Some (place_of (sample_queue 5) (queue_pod "low" "u1" 1 "")).
Proof.
  refine (queue_pod_not_lost PrioritySort_Less (seconds 1) (seconds 10) [] false (λ _, ∅) sample_range (Some 0) (Some 0)
    (Some 0) sample_range_keys [] (sample_queue 0) _ 0 1 (ADone true) (sample_queue 1) (sample_log 1 5) _ _ _ _ _).
  - apply trace_nil.
  - apply sample_one; compute_sample.
  - apply sample_segment. compute_sample.
  - compute_sample.
Defined.

Lemma queue_progress_witness :
  place_of (sample_queue 7) (queue_pod "low" "u1" 1 "") = Some (Unschedulable, set_Timestamp sample_low (seconds 3)) ∧
  place_of (sample_queue 9) (queue_pod "low" "u1" 1 "") = Some (Active, set_Timestamp sample_low (seconds 3)).
Proof.
  split; [compute_sample|].
  refine (queue_progress PrioritySort_Less (seconds 1) (seconds 10) [] false (λ _, ∅) sample_range (Some 0) (Some 0)
    (Some 0) sample_range_keys (sample_log 0 7) (sample_queue 7) _ Unschedulable _ [] (seconds 100) (ADone true) []
    (seconds 110) (ADone true) [] (sample_queue 9) _ _ _ _ _ _ _ _).
  - apply sample_prefix. run_sample.
  - by vm_compute.
  - compute_sample.
  - apply (sample_segment 7 9). compute_sample.
  - compute_sample.
  - compute_sample.
  - compute_sample.
  - by vm_compute.
Defined.

Lemma queue_move_request_witness :
  place_of (sample_queue 5) (queue_pod "high" "u2" 5 "") = Some (Backoff, set_Timestamp sample_high (seconds 2)).
Proof.
  refine (queue_move_request PrioritySort_Less (seconds 1) (seconds 10) [] false (λ _, ∅) sample_range (Some 0) (Some 0)
    (Some 0) sample_range_keys (sample_log 0 2) (sample_queue 2) sample_high (sample_queue 3) (sample_log 3 4) (sample_queue 4)
    "NodeAdd" (seconds 1) (ADone true) sample_high (seconds 2) (sample_queue 5) _ _ _ _ _).
  - apply sample_prefix. run_sample.
  - apply sample_one; compute_sample.
  - apply (sample_segment 3 4). compute_sample.
  - vm_compute. left.
  - apply sample_one; compute_sample.
Defined.

Lemma queue_pop_order_witness :
  ∃ p' q, Pop PrioritySort_Less (sample_queue 2) = Ret (p', PopItem (incr_Attempts q)) ∧
    is_active (view_of (sample_queue 2)) q ∧ schedulingCycle p' = schedulingCycle (sample_queue 2) + 1 ∧
    place_of p' (qpi_Pod q) = None ∧ ∀ q2, is_active (view_of (sample_queue 2)) q2 → pops_before q q2.
Proof.
  apply (queue_pop_order (seconds 1) (seconds 10) [] false (λ _, ∅) sample_range (Some 0) (Some 0) (Some 0)
    (sample_log 0 2) (sample_queue 2) (newQueuedPodInfo 1 (queue_pod "low" "u1" 1 "") 0) sample_range_keys).
  - apply sample_prefix. run_sample.
  - compute_sample.
  - by vm_compute.
Defined.

Lemma backoff_duration_witness :
  calculateBackoffDuration (seconds 1) (seconds 10) (incr_Attempts (incr_Attempts sample_low)) = seconds 4.
Proof.
  rewrite (proj1 (backoff_duration (seconds 1) (seconds 10) (incr_Attempts (incr_Attempts sample_low))
    ltac:(unfold seconds; lia) ltac:(unfold seconds; lia) ltac:(by vm_compute))). compute_sample.
Defined.

Definition nominated_queue : PriorityQueue :=
  default sample_new (snd <$> sample_run [EAdd (queue_pod "x" "u1" 0 "n1") 0 1] sample_new).

Lemma nominated_queue_inv :
  queue_inv PrioritySort_Less (seconds 1) (seconds 10) (Some 0) (Some 0) (Some 0) nominated_queue.
Proof.
  refine (reachable_inv _ _ _ [] false (λ _, ∅) _ _ _ _ sample_range_keys
    [(EAdd (queue_pod "x" "u1" 0 "n1") 0 1, ADone true)] nominated_queue _).
  apply run_trace with (es := [EAdd (queue_pod "x" "u1" 0 "n1") 0 1]). compute_sample.
Qed.

Lemma queue_update_stale_nomination_witness :
  ∃ p' p'',
    Update PrioritySort_Less (seconds 1) (seconds 10) nominated_queue (Some (queue_pod "x" "u1" 0 "n1"))
      (queue_pod "x" "u2" 0 "") 5 2 = Ret (p', true) ∧
    Delete PrioritySort_Less (seconds 1) (seconds 10) p' (queue_pod "x" "u2" 0 "") = Ret p'' ∧
    place_of p'' (queue_pod "x" "u2" 0 "") = None ∧
    nominatedPodToNode (nominator p'') !! "u2" = None ∧
    queue_pod "x" "u2" 0 "" ∈ pi_Pod <$> NominatedPodsForNode (nominator p'') "n1".
Proof.
  apply (queue_update_stale_nomination PrioritySort_Less (seconds 1) (seconds 10) (Some 0) (Some 0) (Some 0) nominated_queue
    (newQueuedPodInfo 1 (queue_pod "x" "u1" 0 "n1") 0) (queue_pod "x" "u1" 0 "n1") (queue_pod "x" "u2" 0 "") 5 2 "n1").
  - apply nominated_queue_inv.
  - by vm_compute.
  - by vm_compute.
  - compute_sample.
  - done.
  - vm_compute. left.
  - by vm_compute.
  - compute_sample.
  - by vm_compute.
  - done.
Defined.
