(* ===== verification/Framework.v ===== *)
(** * The framework runtime: [pkg/scheduler/framework/runtime/framework.go]

    The runners of the plugins.  A plugin is a record of its functions, with
    the cycle state passed explicitly where they may write to it; filters run
    concurrently and only read it.  Contexts and metrics are left out. *)

From S2P Require Import Prelude Labels ApiTypes NodeInfo FwkStatus WaitingPods SchedQueue.
#[local] Open Scope string_scope.
#[local] Open Scope Z_scope.

Record NodeScore := mkScore { ns_Name : string; Score : Z }.
Definition MaxNodeScore : Z := 100.
Definition MinNodeScore : Z := 0.
Definition MaxTotalScore : Z := max_int64.

(** 15 minutes. *)
Definition maxTimeout : Z := 15 * 60 * 10 ^ 9.

Section Framework.
Context {Data : Type} (clone : Data → Data).
Context (LocalStorageCapacityIsolation PodOverhead : bool).
Local Abbreviation State := (gmap string Data).
Implicit Types (state : gmap string Data) (pod : Pod).

(** ** Plugins *)

Record PreFilterExtensions := mkExtensions {
  ext_AddPod : State → Pod → PodInfo → NodeInfo → State * option Status;
  ext_RemovePod : State → Pod → PodInfo → NodeInfo → State * option Status;
}.

Record PreFilterPlugin := mkPreFilter {
  pre_Name : string;
  pre_PreFilter : State → Pod → State * option Status;
  pre_Extensions : option PreFilterExtensions;
}.

Record FilterPlugin := mkFilter {
  fil_Name : string;
  fil_Filter : State → Pod → NodeInfo → option Status;
}.

Record PreScorePlugin := mkPreScore {
  psc_Name : string;
  psc_PreScore : State → Pod → list Node → State * option Status;
}.

Record ScorePlugin := mkScorePlugin {
  sc_Name : string;
  sc_Score : State → Pod → string → Z * option Status;
  sc_Normalize : option (State → Pod → list NodeScore → list NodeScore * option Status);
}.

(** The result is the name of the nominated node. *)
Record PostFilterPlugin := mkPostFilter {
  pof_Name : string;
  pof_PostFilter : State → Pod → gmap string Status → State * option string * option Status;
}.

Record ReservePlugin := mkReserve {
  rsv_Name : string;
  rsv_Reserve : State → Pod → string → State * option Status;
  rsv_Unreserve : State → Pod → string → State;
}.

Record PermitPlugin := mkPermit {
  pmt_Name : string;
  pmt_Permit : State → Pod → string → State * option Status * Z;
}.

(** A plugin of the binding cycle: what it does outside the cycle state is
    behind its status. *)
Record BindingPlugin := mkBinding {
  bnd_Name : string;
  bnd_Run : State → Pod → string → State * option Status;
}.

Record frameworkImpl := mkFramework {
  preFilterPlugins : list PreFilterPlugin;
  filterPlugins : list FilterPlugin;
  postFilterPlugins : list PostFilterPlugin;
  preScorePlugins : list PreScorePlugin;
  scorePlugins : list ScorePlugin;
  reservePlugins : list ReservePlugin;
  permitPlugins : list PermitPlugin;
  preBindPlugins : list BindingPlugin;
  bindPlugins : list BindingPlugin;
  pluginNameToWeightMap : gmap string Z;
  runAllFilters : bool;
}.
Implicit Types f : frameworkImpl.

Definition HasFilterPlugins f : bool := (0 <? length (filterPlugins f))%nat.
Definition HasPostFilterPlugins f : bool := (0 <? length (postFilterPlugins f))%nat.
Definition HasScorePlugins f : bool := (0 <? length (scorePlugins f))%nat.

(** ** PreFilter *)

Fixpoint pre_filter_loop (plugins : list PreFilterPlugin) state pod : State * option Status :=
  match plugins with
  | [] => (state, None)
  | pl :: plugins =>
      let '(state, status) := pre_PreFilter pl state pod in
      match status with
      | None => pre_filter_loop plugins state pod
      | Some st =>
          if IsSuccess status then pre_filter_loop plugins state pod
          else if IsUnschedulable status then (state, Some (SetFailedPlugin st (pre_Name pl)))
          else (state, Some (SetFailedPlugin
                  (AsStatus ("running PreFilter plugin " +:+ quoted (pre_Name pl) +:+ ": " +:+ default "" (AsError status)))
                  (pre_Name pl)))
      end
  end.

Definition RunPreFilterPlugins f state pod : State * option Status := pre_filter_loop (preFilterPlugins f) state pod.

Fixpoint add_pod_loop (plugins : list PreFilterPlugin) state (podToSchedule : Pod) (podInfoToAdd : PodInfo)
    (nodeInfo : NodeInfo) : State * option Status :=
  match plugins with
  | [] => (state, None)
  | pl :: plugins =>
      match pre_Extensions pl with
      | None => add_pod_loop plugins state podToSchedule podInfoToAdd nodeInfo
      | Some ext =>
          let '(state, status) := ext_AddPod ext state podToSchedule podInfoToAdd nodeInfo in
          if IsSuccess status then add_pod_loop plugins state podToSchedule podInfoToAdd nodeInfo
          else (state, Some (AsStatus ("running AddPod on PreFilter plugin " +:+ quoted (pre_Name pl) +:+ ": " +:+
                                         default "" (AsError status))))
      end
  end.

Definition RunPreFilterExtensionAddPod f state (podToSchedule : Pod) (podInfoToAdd : PodInfo) (nodeInfo : NodeInfo)
    : State * option Status :=
  add_pod_loop (preFilterPlugins f) state podToSchedule podInfoToAdd nodeInfo.

Fixpoint remove_pod_loop (plugins : list PreFilterPlugin) state (podToSchedule : Pod) (podInfoToRemove : PodInfo)
    (nodeInfo : NodeInfo) : State * option Status :=
  match plugins with
  | [] => (state, None)
  | pl :: plugins =>
      match pre_Extensions pl with
      | None => remove_pod_loop plugins state podToSchedule podInfoToRemove nodeInfo
      | Some ext =>
          let '(state, status) := ext_RemovePod ext state podToSchedule podInfoToRemove nodeInfo in
          if IsSuccess status then remove_pod_loop plugins state podToSchedule podInfoToRemove nodeInfo
          else (state, Some (AsStatus ("running RemovePod on PreFilter plugin " +:+ quoted (pre_Name pl) +:+ ": " +:+
                                         default "" (AsError status))))
      end
  end.

Definition RunPreFilterExtensionRemovePod f state (podToSchedule : Pod) (podInfoToRemove : PodInfo) (nodeInfo : NodeInfo)
    : State * option Status :=
  remove_pod_loop (preFilterPlugins f) state podToSchedule podInfoToRemove nodeInfo.

(** ** Filter *)

Fixpoint filter_loop (all : bool) (plugins : list FilterPlugin) state pod (nodeInfo : NodeInfo)
    (statuses : PluginToStatus) : PluginToStatus :=
  match plugins with
  | [] => statuses
  | pl :: plugins =>
      let pluginStatus := fil_Filter pl state pod nodeInfo in
      match pluginStatus with
      | None => filter_loop all plugins state pod nodeInfo statuses
      | Some st =>
          if IsSuccess pluginStatus then filter_loop all plugins state pod nodeInfo statuses
          else if negb (IsUnschedulable pluginStatus) then
            let errStatus := SetFailedPlugin
              (AsStatus ("running " +:+ quoted (fil_Name pl) +:+ " filter plugin: " +:+ default "" (AsError pluginStatus)))
              (fil_Name pl) in
            {[ fil_Name pl := errStatus ]}
          else
            let statuses := <[fil_Name pl := SetFailedPlugin st (fil_Name pl)]> statuses in
            if negb all then statuses else filter_loop all plugins state pod nodeInfo statuses
      end
  end.

Definition RunFilterPlugins f state pod (nodeInfo : NodeInfo) : PluginToStatus :=
  filter_loop (runAllFilters f) (filterPlugins f) state pod nodeInfo ∅.

(** The pods nominated to a node, as the nominator of the queue knows them;
    [g] is the generation counter. *)
Context (nominated : string → list PodInfo) (range : PluginToStatus → list string).

Definition addNominated_step f pod (acc : (bool * State * NodeInfo * Z) + string) (pi : PodInfo)
    : (bool * State * NodeInfo * Z) + string :=
  match acc with
  | inr e => inr e
  | inl (podsAdded, stateOut, nodeInfoOut, g) =>
      if (PodPriority pod <=? PodPriority (pi_Pod pi)) && negb (pod_UID (pi_Pod pi) =? pod_UID pod)%string then
        let '(nodeInfoOut, g) := AddPodInfo LocalStorageCapacityIsolation PodOverhead nodeInfoOut pi g in
        let '(stateOut, status) := RunPreFilterExtensionAddPod f stateOut pod pi nodeInfoOut in
        if negb (IsSuccess status) then inr (default "" (AsError status))
        else inl (true, stateOut, nodeInfoOut, g)
      else inl (podsAdded, stateOut, nodeInfoOut, g)
  end.

Definition addNominatedPods f pod state (nodeInfo : NodeInfo) (g : Z) : (bool * State * NodeInfo) + string :=
  match node nodeInfo with
  | None => inl (false, state, nodeInfo)
  | Some nd =>
      let nominatedPodInfos := nominated (node_Name nd) in
      if (length nominatedPodInfos =? 0)%nat then inl (false, state, nodeInfo)
      else
        match foldl (addNominated_step f pod) (inl (false, CycleState_Clone clone state, Clone nodeInfo, g))
                nominatedPodInfos with
        | inr e => inr e
        | inl (podsAdded, stateOut, nodeInfoOut, _) => inl (podsAdded, stateOut, nodeInfoOut)
        end
  end.

Definition RunFilterPluginsWithNominatedPods f state pod (info : NodeInfo) (g : Z) : option Status :=
  match addNominatedPods f pod state info g with
  | inr e => Some (AsStatus e)
  | inl (podsAdded, stateToUse, nodeInfoToUse) =>
      let status := Merge range (RunFilterPlugins f stateToUse pod nodeInfoToUse) in
      if negb (IsSuccess status) && negb (IsUnschedulable status) then status
      else if negb podsAdded || negb (IsSuccess status) then status
      else Merge range (RunFilterPlugins f state pod info)
  end.

(** ** PostFilter *)

Fixpoint post_filter_loop (plugins : list PostFilterPlugin) state pod (filteredNodeStatusMap : gmap string Status)
    (statuses : PluginToStatus) : State * option string * option Status :=
  match plugins with
  | [] => (state, None, Merge range statuses)
  | pl :: plugins =>
      let '(state, r, s) := pof_PostFilter pl state pod filteredNodeStatusMap in
      if IsSuccess s then (state, r, s)
      else if negb (IsUnschedulable s) then (state, None, Some (AsStatus (default "" (AsError s))))
      else
        match s with
        | Some st => post_filter_loop plugins state pod filteredNodeStatusMap (<[pof_Name pl := st]> statuses)
        | None => (state, r, s)
        end
  end.

Definition RunPostFilterPlugins f state pod (filteredNodeStatusMap : gmap string Status)
    : State * option string * option Status :=
  post_filter_loop (postFilterPlugins f) state pod filteredNodeStatusMap ∅.

(** ** Score *)

Fixpoint pre_score_loop (plugins : list PreScorePlugin) state pod (nodes : list Node) : State * option Status :=
  match plugins with
  | [] => (state, None)
  | pl :: plugins =>
      let '(state, status) := psc_PreScore pl state pod nodes in
      if IsSuccess status then pre_score_loop plugins state pod nodes
      else (state, Some (AsStatus ("running PreScore plugin " +:+ quoted (psc_Name pl) +:+ ": " +:+
                                     default "" (AsError status))))
  end.

Definition RunPreScorePlugins f state pod (nodes : list Node) : State * option Status :=
  pre_score_loop (preScorePlugins f) state pod nodes.

(** What the goroutines of [RunScorePlugins] write for one plugin: they fill
    different places.  [None] for an error, which cancels the others. *)
Definition score_nodes (pl : ScorePlugin) state pod (nodes : list Node) : option (list NodeScore) :=
  mapM (λ nd, let '(s, status) := sc_Score pl state pod (node_Name nd) in
              if IsSuccess status then Some (mkScore (node_Name nd) s) else None) nodes.

Definition normalize (pl : ScorePlugin) state pod (scores : list NodeScore) : option (list NodeScore) :=
  match sc_Normalize pl with
  | None => Some scores
  | Some NormalizeScore =>
      let '(scores, status) := NormalizeScore state pod scores in
      if IsSuccess status then Some scores else None
  end.

Definition apply_weight (weight : Z) (scores : list NodeScore) : option (list NodeScore) :=
  mapM (λ nodeScore,
    if (MaxNodeScore <? Score nodeScore) || (Score nodeScore <? MinNodeScore) then None
    else Some (mkScore (ns_Name nodeScore) (int64 (Score nodeScore * int64 weight)))) scores.

(** The map [PluginToNodeScores], in the order of the plugins. *)
Definition RunScorePlugins f state pod (nodes : list Node) : option (list (string * list NodeScore)) :=
  scored ← mapM (λ pl, scores ← score_nodes pl state pod nodes; Some (pl, scores)) (scorePlugins f);
  normalized ← mapM (λ '(pl, scores), scores ← normalize pl state pod scores; Some (pl, scores)) scored;
  mapM (λ '(pl, scores),
    scores ← apply_weight (default 0 (pluginNameToWeightMap f !! sc_Name pl)) scores;
    Some (sc_Name pl, scores)) normalized.

(** The weights [NewFramework] accepts. *)
Fixpoint check_weights (weights : list (string * Z)) (totalPriority : Z) (m : gmap string Z) : option (gmap string Z) :=
  match weights with
  | [] => Some m
  | (name, weight) :: weights =>
      let weight := if weight =? 0 then 1 else weight in
      if int64 (MaxTotalScore - totalPriority) <? int64 (weight * MaxNodeScore) then None
      else check_weights weights (int64 (totalPriority + int64 (weight * MaxNodeScore))) (<[name := weight]> m)
  end.

(** ** Reserve and Permit *)

Fixpoint reserve_loop (plugins : list ReservePlugin) state pod (nodeName : string) : State * option Status :=
  match plugins with
  | [] => (state, None)
  | pl :: plugins =>
      let '(state, status) := rsv_Reserve pl state pod nodeName in
      if IsSuccess status then reserve_loop plugins state pod nodeName
      else (state, Some (AsStatus ("running Reserve plugin " +:+ quoted (rsv_Name pl) +:+ ": " +:+
                                     default "" (AsError status))))
  end.

Definition RunReservePluginsReserve f state pod (nodeName : string) : State * option Status :=
  reserve_loop (reservePlugins f) state pod nodeName.

Definition RunReservePluginsUnreserve f state pod (nodeName : string) : State :=
  foldr (λ pl state, rsv_Unreserve pl state pod nodeName) state (reservePlugins f).

Fixpoint permit_loop (plugins : list PermitPlugin) state pod (nodeName : string) (pluginsWaitTime : gmap string Z)
    : State * (gmap string Z + Status) :=
  match plugins with
  | [] => (state, inl pluginsWaitTime)
  | pl :: plugins =>
      let '(state, status, timeout) := pmt_Permit pl state pod nodeName in
      match status with
      | None => permit_loop plugins state pod nodeName pluginsWaitTime
      | Some st =>
          if IsSuccess status then permit_loop plugins state pod nodeName pluginsWaitTime
          else if IsUnschedulable status then (state, inr (SetFailedPlugin st (pmt_Name pl)))
          else if bool_decide (code st = Wait) then
            let timeout := if maxTimeout <? timeout then maxTimeout else timeout in
            permit_loop plugins state pod nodeName (<[pmt_Name pl := timeout]> pluginsWaitTime)
          else (state, inr (SetFailedPlugin
                  (AsStatus ("running Permit plugin " +:+ quoted (pmt_Name pl) +:+ ": " +:+ default "" (AsError status)))
                  (pmt_Name pl)))
      end
  end.

Definition RunPermitPlugins f state pod (nodeName : string) (waitingPods : waitingPodsMap) (now : Z)
    : State * waitingPodsMap * option Status :=
  let '(state, r) := permit_loop (permitPlugins f) state pod nodeName ∅ in
  match r with
  | inr st => (state, waitingPods, Some st)
  | inl pluginsWaitTime =>
      if (size pluginsWaitTime =? 0)%nat then (state, waitingPods, None)
      else (state, wpm_add waitingPods (newWaitingPod pod pluginsWaitTime now),
            Some (NewStatus Wait ["one or more plugins asked to wait and no plugin rejected pod " +:+ quoted (pod_Name pod)]))
  end.

(** What [WaitOnPermit] makes of the signal it has received. *)
Definition WaitOnPermit (s : Status) : option Status :=
  if IsSuccess (Some s) then None
  else if IsUnschedulable (Some s) then Some s
  else Some (SetFailedPlugin (AsStatus ("waiting on permit for pod: " +:+ default "" (AsError (Some s)))) (failedPlugin s)).

(** ** Bind *)

Fixpoint pre_bind_loop (plugins : list BindingPlugin) state pod (nodeName : string) : State * option Status :=
  match plugins with
  | [] => (state, None)
  | pl :: plugins =>
      let '(state, status) := bnd_Run pl state pod nodeName in
      if IsSuccess status then pre_bind_loop plugins state pod nodeName
      else (state, Some (AsStatus ("running PreBind plugin " +:+ quoted (bnd_Name pl) +:+ ": " +:+
                                     default "" (AsError status))))
  end.

Definition RunPreBindPlugins f state pod (nodeName : string) : State * option Status :=
  pre_bind_loop (preBindPlugins f) state pod nodeName.

Fixpoint bind_loop (plugins : list BindingPlugin) state pod (nodeName : string) (last : option Status)
    : State * option Status :=
  match plugins with
  | [] => (state, last)
  | pl :: plugins =>
      let '(state, status) := bnd_Run pl state pod nodeName in
      if bool_decide (status_Code status = Skip) then bind_loop plugins state pod nodeName status
      else if negb (IsSuccess status) then
        (state, Some (AsStatus ("running Bind plugin " +:+ quoted (bnd_Name pl) +:+ ": " +:+ default "" (AsError status))))
      else (state, status)
  end.

Definition RunBindPlugins f state pod (nodeName : string) : State * option Status :=
  if (length (bindPlugins f) =? 0)%nat then (state, Some (NewStatus Skip [""]))
  else bind_loop (bindPlugins f) state pod nodeName None.

(** ** What the filters accept *)

Context (range_keys : ∀ m, range m ≡ₚ (map_to_list m).*1).

Definition passes f state pod (nodeInfo : NodeInfo) : Prop :=
  Forall (λ pl, IsSuccess (fil_Filter pl state pod nodeInfo) = true) (filterPlugins f).

Definition failures (p : PluginToStatus) : Prop := ∀ name s, p !! name = Some s → code s ≠ Success.

Lemma filter_loop_failures all plugins state pod info : ∀ p,
  failures p → failures (filter_loop all plugins state pod info p).
Proof.
  induction plugins as [|pl plugins IH]; intros p Hp; simpl; [done|].
  destruct (fil_Filter pl state pod info) as [st|] eqn:Hst; [|by apply IH].
  destruct (IsSuccess (Some st)) eqn:Hs; [by apply IH|]. destruct (IsUnschedulable (Some st)); simpl.
  - assert (failures (<[fil_Name pl := SetFailedPlugin st (fil_Name pl)]> p)) as Hp'.
    { intros name s [[_ <-]|[_ Hn]]%lookup_insert_Some; [|by eapply Hp]. simpl. by apply bool_decide_eq_false in Hs. }
    destruct all; simpl; [by apply IH|done].
  - intros name s [_ <-]%lookup_singleton_Some. done.
Qed.

Lemma filter_loop_empty all plugins state pod info : ∀ p,
  filter_loop all plugins state pod info p = ∅ ↔
  p = ∅ ∧ Forall (λ pl, IsSuccess (fil_Filter pl state pod info) = true) plugins.
Proof.
  induction plugins as [|pl plugins IH]; intros p; simpl; [by split; [|intros []]|]. rewrite Forall_cons.
  destruct (fil_Filter pl state pod info) as [st|] eqn:Hst; [|rewrite IH; tauto].
  destruct (IsSuccess (Some st)) eqn:Hs; [rewrite IH; tauto|]. destruct (IsUnschedulable (Some st)); simpl.
  - split; [|by intros (_ & ? & _)]. intros He. exfalso.
    destruct all; simpl in He; [apply IH in He as [He _]|]; by apply insert_non_empty in He.
  - split; [|by intros (_ & ? & _)]. by intros ?%map_non_empty_singleton.
Qed.

(** The filters of a node merge to a success exactly if all of them succeed. *)
Lemma filters_success f state pod info :
  IsSuccess (Merge range (RunFilterPlugins f state pod info)) = true ↔ passes f state pod info.
Proof.
  unfold RunFilterPlugins. rewrite Merge_success; [|done|by apply filter_loop_failures].
  rewrite filter_loop_empty. unfold passes. tauto.
Qed.

(** The extensions of the pre-filters leave the key alone. *)
Definition untouched f (key : string) : Prop :=
  ∀ pl ext, pl ∈ preFilterPlugins f → pre_Extensions pl = Some ext → ∀ (state : State) pod pi ni,
    (ext_AddPod ext state pod pi ni).1 !! key = state !! key ∧ (ext_RemovePod ext state pod pi ni).1 !! key = state !! key.

Lemma extension_keeps f key state pod pi ni :
  untouched f key →
  (RunPreFilterExtensionAddPod f state pod pi ni).1 !! key = state !! key ∧
  (RunPreFilterExtensionRemovePod f state pod pi ni).1 !! key = state !! key.
Proof.
  unfold RunPreFilterExtensionAddPod, RunPreFilterExtensionRemovePod, untouched. intros Hk.
  split; revert state; induction (preFilterPlugins f) as [|pl pls IH]; intros state; try done;
    cbn [add_pod_loop remove_pod_loop];
    (assert (∀ pl' ext, pl' ∈ pls → pre_Extensions pl' = Some ext → ∀ (state : State) pod pi ni,
      (ext_AddPod ext state pod pi ni).1 !! key = state !! key ∧ (ext_RemovePod ext state pod pi ni).1 !! key = state !! key)
      as Hk' by (intros pl' ext Hin; apply Hk; by right));
    (destruct (pre_Extensions pl) as [ext|] eqn:He; [|by apply IH]);
    destruct (Hk pl ext (list_elem_of_here _ _) He state pod pi ni) as [Ha Hr].
  - destruct (ext_AddPod ext state pod pi ni) as [state' st]. cbn [fst] in Ha. rewrite <- Ha.
    destruct (IsSuccess st); [by apply IH|done].
  - destruct (ext_RemovePod ext state pod pi ni) as [state' st]. cbn [fst] in Hr. rewrite <- Hr.
    destruct (IsSuccess st); [by apply IH|done].
Qed.

(** The pods that count as running in the first pass. *)
Definition counted pod (pi : PodInfo) : bool :=
  (PodPriority pod <=? PodPriority (pi_Pod pi)) && negb (pod_UID (pi_Pod pi) =? pod_UID pod)%string.

Lemma nominated_pods f pod pis : ∀ podsAdded state info g podsAdded' state' info' g',
  foldl (addNominated_step f pod) (inl (podsAdded, state, info, g)) pis = inl (podsAdded', state', info', g') →
  node_pods info' = (node_pods info ++ (pi_Pod <$> filter (λ pi, counted pod pi = true) pis))%list ∧
  node info' = node info ∧ Allocatable info' = Allocatable info ∧
  (podsAdded' = false → podsAdded = false ∧ state' = state ∧ info' = info) ∧
  (∀ key, untouched f key → state' !! key = state !! key).
Proof.
  induction pis as [|pi pis IH]; intros b s n g b' s' n' g' He; cbn [foldl] in He.
  { injection He as <- <- <- <-. by rewrite app_nil_r. }
  assert (∀ e, foldl (addNominated_step f pod) (inr e) pis = inr e) as Hinr by (clear; induction pis; done).
  unfold addNominated_step in He at 2. fold (counted pod pi) in He. rewrite filter_cons.
  destruct (counted pod pi) eqn:Hc; [rewrite decide_True by done|rewrite decide_False by done; by apply IH in He].
  destruct (AddPodInfo _ _ n pi g) as [n1 g1] eqn:Hadd.
  pose proof (λ key Hu, proj1 (extension_keeps f key s pod pi n1 Hu)) as Hkeep.
  destruct (RunPreFilterExtensionAddPod f s pod pi n1) as [s1 st]. destruct (IsSuccess st); simpl in He; [|by rewrite Hinr in He].
  apply IH in He as (Hp & Hn & Ha & Hb & Hk). unfold AddPodInfo in Hadd.
  destruct (calculateResource _ _ _) as [[? ?] ?]. injection Hadd as <- _. simpl in *.
  split_and!; [|done|done|by intros [? _]%Hb|intros key Hu; by rewrite (Hk key Hu), (Hkeep key Hu)]. rewrite Hp. unfold node_pods. simpl. rewrite fmap_app, <- app_assoc. done.
Qed.

Context (clone_id : ∀ d, clone d = d).

Lemma CycleState_Clone_id state : CycleState_Clone clone state = state.
Proof.
  unfold CycleState_Clone. apply map_eq. intros k. rewrite lookup_fmap. destruct (state !! k); [|done]. simpl. by rewrite clone_id.
Qed.

Lemma both_passes (st st' : option Status) (b : bool) :
  IsSuccess (if negb (IsSuccess st) && negb (IsUnschedulable st) then st
             else if negb b || negb (IsSuccess st) then st else st') = true →
  IsSuccess st = true ∧ (b = true → IsSuccess st' = true).
Proof.
  destruct (IsSuccess st) eqn:E; simpl.
  - intros Hs. split; [done|]. by intros ->.
  - rewrite orb_true_r. destruct (negb (IsUnschedulable st)); congruence.
Qed.

(** A node is accepted only if every filter accepts it as it is, and every
    filter accepts it with the nominated pods of the same or a higher priority
    on it, in a state that differs at most in the keys the extensions change. *)
Lemma nominated_conservative f state pod info g nd :
  node info = Some nd →
  IsSuccess (RunFilterPluginsWithNominatedPods f state pod info g) = true →
  passes f state pod info ∧
  ∃ state' info', passes f state' pod info' ∧ node info' = Some nd ∧ Allocatable info' = Allocatable info ∧
    node_pods info' = (node_pods info ++ (pi_Pod <$> filter (λ pi, counted pod pi = true) (nominated (node_Name nd))))%list ∧
    ∀ key, untouched f key → state' !! key = state !! key.
Proof.
  intros Hnd. unfold RunFilterPluginsWithNominatedPods, addNominatedPods. rewrite Hnd.
  destruct (nominated (node_Name nd)) as [|pi pis] eqn:Hnom; cbn [length Nat.eqb].
  { intros [Hp%filters_success _]%both_passes. split; [done|]. exists state, info. by rewrite app_nil_r. }
  destruct (foldl _ _ _) as [[[[b s'] n'] g']|e] eqn:Hf; [|done].
  apply nominated_pods in Hf as (Hpods & Hn & Ha & Hb & Hk). rewrite Clone_id in *. rewrite CycleState_Clone_id in *.
  intros [H1 H2]%both_passes. rewrite !filters_success in *.
  split; [|exists s', n'; split; [done|]; split; [congruence|done]]. destruct b; [by apply H2|].
  destruct (Hb eq_refl) as (_ & -> & ->). done.
Qed.

(** ** What the pre-filters leave in the state *)

(** A key that the pre-filters leave alone or set to a value of the pod. *)
Definition prefilter_key (f : frameworkImpl) (key : string) (value : Pod → Data) : Prop :=
  ∀ pl, pl ∈ preFilterPlugins f →
    (∀ state pod, (pre_PreFilter pl state pod).1 !! key = Some (value pod)) ∨
    (∀ state pod, (pre_PreFilter pl state pod).1 !! key = state !! key).

Lemma prefilter_key_kept f key value state pod :
  prefilter_key f key value →
  state !! key = None ∨ state !! key = Some (value pod) →
  let state' := (RunPreFilterPlugins f state pod).1 in state' !! key = None ∨ state' !! key = Some (value pod).
Proof.
  unfold prefilter_key, RunPreFilterPlugins. intros Hkey. cbv zeta. revert state.
  induction (preFilterPlugins f) as [|pl pls IH]; intros state Hst; [done|]. cbn [pre_filter_loop].
  assert ((pre_PreFilter pl state pod).1 !! key = None ∨ (pre_PreFilter pl state pod).1 !! key = Some (value pod)) as Hst1.
  { destruct (Hkey pl (list_elem_of_here _ _)) as [->| ->]; [by right|done]. }
  assert (∀ state, state !! key = None ∨ state !! key = Some (value pod) →
    (pre_filter_loop pls state pod).1 !! key = None ∨ (pre_filter_loop pls state pod).1 !! key = Some (value pod)) as IH'.
  { apply IH. intros pl' Hpl. apply Hkey. by right. }
  destruct (pre_PreFilter pl state pod) as [state1 [st|]]; cbn [fst] in Hst1; [|by apply IH'].
  destruct (IsSuccess (Some st)); [by apply IH'|]. by destruct (IsUnschedulable (Some st)).
Qed.

(** A filter that is one of the framework's. *)
Definition filters_with (f : frameworkImpl) (filter : State → Pod → NodeInfo → option Status) : Prop :=
  ∃ pl, pl ∈ filterPlugins f ∧ ∀ state pod info, fil_Filter pl state pod info = filter state pod info.

Lemma passes_with f filter state pod info :
  filters_with f filter → passes f state pod info → IsSuccess (filter state pod info) = true.
Proof.
  intros (pl & Hpl & Hf) Hp. unfold passes in Hp. rewrite Forall_forall in Hp. specialize (Hp pl Hpl). by rewrite Hf in Hp.
Qed.
End Framework.
Arguments PreFilterExtensions : clear implicits.
Arguments PreFilterPlugin : clear implicits.
Arguments FilterPlugin : clear implicits.
Arguments PreScorePlugin : clear implicits.
Arguments ScorePlugin : clear implicits.
Arguments PostFilterPlugin : clear implicits.
Arguments ReservePlugin : clear implicits.
Arguments PermitPlugin : clear implicits.
Arguments BindingPlugin : clear implicits.
Arguments frameworkImpl : clear implicits.
