(* ===== verification/Preemption.v ===== *)
(** * Preemption: [pkg/scheduler/framework/plugins/defaultpreemption] and the
    helpers of [pkg/scheduler/util/utils.go] it calls

    The victims of one node, the choice among the nodes and what is done with
    the choice.  The dry runs of the nodes, which go on in parallel, are in
    [DryRun].  [clock n] is what the [n]-th reading of the clock returns; the
    number of readings so far is passed along.  [sort.Slice] is not stable and
    [MoreImportantPod] reads the clock, so the sorted list is a parameter. *)

From S2P Require Import Prelude Strconv Labels ApiTypes NodeInfo FwkStatus SchedQueue Framework.
#[local] Open Scope string_scope.
#[local] Open Scope Z_scope.
#[local] Open Scope list_scope.

(** ** Start times and importance *)

Definition GetPodStartTime (clock : nat → Z) (reads : nat) (pod : Pod) : Z * nat :=
  match pod_StartTime pod with
  | Some t => (t, reads)
  | None => (clock reads, S reads)
  end.

Record Victims := mkVictims { v_Pods : list Pod; NumPDBViolations : Z }.

#[export] Instance Victims_eq_dec : EqDecision Victims.
Proof. solve_decision. Defined.

(** One pod of the loop: [earliest] is the earliest start time so far, of the
    pods with the highest priority so far. *)
Definition earliest_step (clock : nat → Z) (acc : Z * Z * nat) (pod : Pod) : Z * Z * nat :=
  let '(earliest, maxPriority, reads) := acc in
  if PodPriority pod =? maxPriority then
    let '(t, reads) := GetPodStartTime clock reads pod in
    if t <? earliest then
      let '(t, reads) := GetPodStartTime clock reads pod in (t, maxPriority, reads)
    else (earliest, maxPriority, reads)
  else if maxPriority <? PodPriority pod then
    let '(t, reads) := GetPodStartTime clock reads pod in (t, PodPriority pod, reads)
  else acc.

Definition GetEarliestPodStartTime (clock : nat → Z) (reads : nat) (victims : Victims) : option Z * nat :=
  match v_Pods victims with
  | [] => (None, reads)
  | pod0 :: _ =>
      let '(t, reads) := GetPodStartTime clock reads pod0 in
      let '(earliest, _, reads) := foldl (earliest_step clock) (t, PodPriority pod0, reads) (v_Pods victims) in
      (Some earliest, reads)
  end.

Definition MoreImportantPod (clock : nat → Z) (reads : nat) (pod1 pod2 : Pod) : bool * nat :=
  let p1 := PodPriority pod1 in
  let p2 := PodPriority pod2 in
  if negb (p1 =? p2) then (p2 <? p1, reads)
  else
    let '(t1, reads) := GetPodStartTime clock reads pod1 in
    let '(t2, reads) := GetPodStartTime clock reads pod2 in
    (t1 <? t2, reads).

(** ** Disruption budgets *)

Record PodDisruptionBudget := mkPDB {
  pdb_Namespace : string;
  pdb_Selector : option LabelSelector;
  DisruptionsAllowed : Z;
  DisruptedPods : gmap string Z;
}.

(** Whether the loop over the budgets decrements that of [pdb] for [pod]. *)
Definition pdb_counts (pdb : PodDisruptionBudget) (pod : Pod) : bool :=
  if negb (pdb_Namespace pdb =? pod_Namespace pod)%string then false
  else
    match LabelSelectorAsSelector (pdb_Selector pdb) with
    | None => false
    | Some selector =>
        if Labels.Empty selector || negb (Labels.Matches selector (pod_Labels pod)) then false
        else negb (bool_decide (is_Some (DisruptedPods pdb !! pod_Name pod)))
    end.

Fixpoint pdb_loop (pod : Pod) (pdbs : list PodDisruptionBudget) (pdbsAllowed : list Z) : list Z * bool :=
  match pdbs, pdbsAllowed with
  | pdb :: pdbs, allowed :: pdbsAllowed =>
      let '(rest, violated) := pdb_loop pod pdbs pdbsAllowed in
      if pdb_counts pdb pod then
        let allowed := int32 (allowed - 1) in (allowed :: rest, (allowed <? 0) || violated)
      else (allowed :: rest, violated)
  | _, _ => (pdbsAllowed, false)
  end.

Fixpoint pdb_groups (pdbs : list PodDisruptionBudget) (pdbsAllowed : list Z) (podInfos : list PodInfo)
    : list PodInfo * list PodInfo :=
  match podInfos with
  | [] => ([], [])
  | podInfo :: podInfos =>
      let pod := pi_Pod podInfo in
      let '(pdbsAllowed, pdbForPodIsViolated) :=
        if negb (size (pod_Labels pod : gmap string string) =? 0)%nat then pdb_loop pod pdbs pdbsAllowed
        else (pdbsAllowed, false) in
      let '(violatingPodInfos, nonViolatingPodInfos) := pdb_groups pdbs pdbsAllowed podInfos in
      if pdbForPodIsViolated then (podInfo :: violatingPodInfos, nonViolatingPodInfos)
      else (violatingPodInfos, podInfo :: nonViolatingPodInfos)
  end.

Definition filterPodsWithPDBViolation (podInfos : list PodInfo) (pdbs : list PodDisruptionBudget)
    : list PodInfo * list PodInfo :=
  pdb_groups pdbs (DisruptionsAllowed <$> pdbs) podInfos.

(** ** The victims of a node *)

Section Select.
Context {Data : Type} (clone : Data → Data) (lsci overhead : bool).
Context (nominated : string → list PodInfo) (range : PluginToStatus → list string).
Context (sortVictims : list PodInfo → list PodInfo).
Context (fwk : frameworkImpl Data).
Local Abbreviation State := (gmap string Data).

(** What the dry run of a node works on: its copies of the cycle state and of
    the node, and the generation counter. *)
Record config := mkConfig { cf_state : State; cf_node : NodeInfo; cf_gen : Z }.

(** The texts of the errors of [NodeInfo.RemovePod]. *)
Definition remove_error (n : NodeInfo) (pod : Pod) : string :=
  match GetPodKey pod with
  | None => "Cannot get cache key for pod with empty UID"
  | Some _ => "no corresponding pod " +:+ pod_Name pod +:+ " in pods of node " +:+ from_option node_Name "" (node n)
  end.

(** The error is [None] for nil. *)
Definition removePod (pod : Pod) (c : config) (rpi : PodInfo) : outcome (config * option string) :=
  '(n, g, ok) ← RemovePod lsci overhead (cf_node c) (pi_Pod rpi) (cf_gen c);
  if (ok : bool) then
    let '(state, status) := RunPreFilterExtensionRemovePod fwk (cf_state c) pod rpi n in
    Ret (mkConfig state n g, AsError status)
  else Ret (mkConfig (cf_state c) n g, Some (remove_error (cf_node c) (pi_Pod rpi))).

Definition addPod (pod : Pod) (c : config) (api : PodInfo) : config * option string :=
  let '(n, g) := AddPodInfo lsci overhead (cf_node c) api (cf_gen c) in
  let '(state, status) := RunPreFilterExtensionAddPod fwk (cf_state c) pod api n in
  (mkConfig state n g, AsError status).

(** The array under a slice whose first elements are now [s]. *)
Definition under {A} (s array : list A) : list A := s ++ drop (length s) array.

(** The loop over [nodeInfo.Pods].  It ranges over the slice as it was at its
    start, and [RemovePod] writes to the array the slice shares. *)
Fixpoint remove_loop (pod : Pod) (todo i : nat) (array : list PodInfo) (c : config) (potentialVictims : list PodInfo)
    : outcome (config * list PodInfo * option string) :=
  match todo with
  | O => Ret (c, potentialVictims, None)
  | S todo =>
      match array !! i with
      | None => Panic
      | Some pi =>
          if PodPriority (pi_Pod pi) <? PodPriority pod then
            '(c, err) ← removePod pod c pi;
            match err with
            | Some e => Ret (c, potentialVictims ++ [pi], Some e)
            | None => remove_loop pod todo (S i) (under (Pods (cf_node c)) array) c (potentialVictims ++ [pi])
            end
          else remove_loop pod todo (S i) array c potentialVictims
      end
  end.

Definition fits (pod : Pod) (c : config) : option Status :=
  RunFilterPluginsWithNominatedPods clone lsci overhead nominated range fwk (cf_state c) pod (cf_node c) (cf_gen c).

(** Whether the pod fits with [pi] back on the node, and the error. *)
Definition reprievePod (pod : Pod) (c : config) (victims : list Pod) (pi : PodInfo)
    : outcome (config * list Pod * (bool + string)) :=
  let '(c, err) := addPod pod c pi in
  match err with
  | Some e => Ret (c, victims, inr e)
  | None =>
      if IsSuccess (fits pod c) then Ret (c, victims, inl true)
      else
        '(c, err) ← removePod pod c pi;
        match err with
        | Some e => Ret (c, victims, inr e)
        | None => Ret (c, victims ++ [pi_Pod pi], inl false)
        end
  end.

(** The pods that are not reprieved are counted. *)
Fixpoint reprieve_loop (pod : Pod) (c : config) (victims : list Pod) (num : Z) (pis : list PodInfo)
    : outcome (config * list Pod * (Z + string)) :=
  match pis with
  | [] => Ret (c, victims, inl num)
  | pi :: pis =>
      '(c, victims, r) ← reprievePod pod c victims pi;
      match (r : bool + string) with
      | inr e => Ret (c, victims, inr e)
      | inl b => reprieve_loop pod c victims (if b then num else num + 1) pis
      end
  end.

Definition selectVictimsOnNode (pod : Pod) (c : config) (pdbs : list PodDisruptionBudget)
    : outcome (config * list Pod * Z * option Status) :=
  '(c, potentialVictims, err) ← remove_loop pod (length (Pods (cf_node c))) 0 (Pods (cf_node c)) c [];
  match (err : option string) with
  | Some e => Ret (c, [], 0, Some (AsStatus e))
  | None =>
      if (length potentialVictims =? 0)%nat then
        match node (cf_node c) with
        | None => Panic
        | Some nd =>
            Ret (c, [], 0, Some (NewStatus UnschedulableAndUnresolvable
              ["No victims found on node " +:+ node_Name nd +:+ " for preemptor pod " +:+ pod_Name pod]))
        end
      else if negb (IsSuccess (fits pod c)) then Ret (c, [], 0, fits pod c)
      else
        let '(violatingVictims, nonViolatingVictims) :=
          filterPodsWithPDBViolation (sortVictims potentialVictims) pdbs in
        '(c, victims, r) ← reprieve_loop pod c [] 0 violatingVictims;
        match (r : Z + string) with
        | inr e => Ret (c, [], 0, Some (AsStatus e))
        | inl numViolatingVictim =>
            '(c, victims, r) ← reprieve_loop pod c victims 0 nonViolatingVictims;
            match (r : Z + string) with
            | inr e => Ret (c, [], 0, Some (AsStatus e))
            | inl _ => Ret (c, victims, numViolatingVictim, Some (NewStatus Success []))
            end
        end
  end.
End Select.
Arguments config : clear implicits.

(** ** The choice of a node *)

(** The loops of [pickOneNodeForPreemption] that keep the nodes with the least
    value, in the order they come. *)
Definition min_step {A} (key : A → outcome Z) (acc : outcome (Z * list A)) (node : A) : outcome (Z * list A) :=
  '(least, nodes) ← acc;
  k ← key node;
  let '(least, nodes) := if k <? least then (k, []) else (least, nodes) in
  Ret (least, if k =? least then nodes ++ [node] else nodes).

Definition min_nodes {A} (key : A → outcome Z) (start : Z) (nodes : list A) : outcome (list A) :=
  '(_, nodes) ← foldl (min_step key) (Ret (start, [])) nodes; Ret nodes.

Definition MaxInt32 : Z := 2 ^ 31 - 1.

Definition victims_of (nodesToVictims : gmap string Victims) (node : string) : Victims :=
  default (mkVictims [] 0) (nodesToVictims !! node).

Definition highest_priority (m : gmap string Victims) (node : string) : outcome Z :=
  match v_Pods (victims_of m node) with [] => Panic | pod :: _ => Ret (PodPriority pod) end.

Definition sum_priorities (m : gmap string Victims) (node : string) : Z :=
  foldl (λ s pod, int64 (s + int64 (PodPriority pod + (MaxInt32 + 1)))) 0 (v_Pods (victims_of m node)).

(** The loop over the nodes after the first. *)
Definition latest_step (clock : nat → Z) (m : gmap string Victims) (acc : string * Z * nat) (node : string)
    : string * Z * nat :=
  let '(nodeToReturn, latestStartTime, reads) := acc in
  let '(earliestStartTimeOnNode, reads) := GetEarliestPodStartTime clock reads (victims_of m node) in
  match earliestStartTimeOnNode with
  | None => (nodeToReturn, latestStartTime, reads)
  | Some t => if latestStartTime <? t then (node, t, reads) else (nodeToReturn, latestStartTime, reads)
  end.

(** [range] is the order in which the map is walked. *)
Definition pickOneNodeForPreemption (clock : nat → Z) (reads : nat) (range : gmap string Victims → list string)
    (nodesToVictims : gmap string Victims) : outcome string :=
  let m := nodesToVictims in
  if (size m =? 0)%nat then Ret EmptyString
  else
    minNodes1 ← min_nodes (λ node, Ret (NumPDBViolations (victims_of m node))) MaxInt32 (range m);
    match minNodes1 with
    | [node] => Ret node
    | _ =>
        minNodes2 ← min_nodes (highest_priority m) MaxInt32 minNodes1;
        match minNodes2 with
        | [node] => Ret node
        | _ =>
            minNodes1 ← min_nodes (λ node, Ret (sum_priorities m node)) max_int64 minNodes2;
            match minNodes1 with
            | [node] => Ret node
            | _ =>
                minNodes2 ← min_nodes (λ node, Ret (Z.of_nat (length (v_Pods (victims_of m node))))) MaxInt32 minNodes1;
                match minNodes2 with
                | [] => Panic
                | [node] => Ret node
                | node0 :: nodes =>
                    let '(latestStartTime, reads) := GetEarliestPodStartTime clock reads (victims_of m node0) in
                    match latestStartTime with
                    | None => Ret node0
                    | Some t => Ret (foldl (latest_step clock m) (node0, t, reads) nodes).1.1
                    end
                end
            end
        end
    end.

Record candidate := mkCandidate { c_victims : Victims; c_name : string }.

#[export] Instance candidate_eq_dec : EqDecision candidate.
Proof. solve_decision. Defined.

Definition candidatesToVictimsMap (candidates : list candidate) : gmap string Victims :=
  foldl (λ m c, <[c_name c := c_victims c]> m) ∅ candidates.

Definition SelectCandidate (clock : nat → Z) (reads : nat) (range : gmap string Victims → list string)
    (candidates : list candidate) : outcome (option candidate) :=
  match candidates with
  | [] => Ret None
  | [c] => Ret (Some c)
  | c0 :: _ =>
      let victimsMap := candidatesToVictimsMap candidates in
      candidateNode ← pickOneNodeForPreemption clock reads range victimsMap;
      match victimsMap !! candidateNode with
      | Some victims => Ret (Some (mkCandidate victims candidateNode))
      | None => Ret (Some c0)
      end
  end.

(** ** Extenders *)

(** [framework.Extender]; [inr] for an error. *)
Record Extender := mkExtender {
  SupportsPreemption : bool;
  IsInterested : Pod → bool;
  IsIgnorable : bool;
  ProcessPreemption : Pod → gmap string Victims → gmap string Victims + string;
}.

Fixpoint extenders_loop (extenders : list Extender) (pod : Pod) (victimsMap : gmap string Victims)
    : gmap string Victims + string :=
  match extenders with
  | [] => inl victimsMap
  | extender :: extenders =>
      if negb (SupportsPreemption extender) || negb (IsInterested extender pod)
      then extenders_loop extenders pod victimsMap
      else
        match ProcessPreemption extender pod victimsMap with
        | inr e => if IsIgnorable extender then extenders_loop extenders pod victimsMap else inr e
        | inl victimsMap =>
            if (size victimsMap =? 0)%nat then inl victimsMap else extenders_loop extenders pod victimsMap
        end
  end.

Definition CallExtenders (range : gmap string Victims → list string) (extenders : list Extender) (pod : Pod)
    (candidates : list candidate) : list candidate * option Status :=
  if (length extenders =? 0)%nat then (candidates, None)
  else
    let victimsMap := candidatesToVictimsMap candidates in
    if (size victimsMap =? 0)%nat then (candidates, None)
    else
      match extenders_loop extenders pod victimsMap with
      | inr e => ([], Some (AsStatus e))
      | inl victimsMap => ((λ nodeName, mkCandidate (victims_of victimsMap nodeName) nodeName) <$> range victimsMap, None)
      end.

(** ** The preemption *)

(** What the plugin asks of the API server and of the framework. *)
Inductive effect :=
| DeletePod (pod : Pod)
| RejectWaiting (uid : string)
| Preempted (victim : Pod) (node : string)
| ClearNomination (pod : Pod).

Definition ClearNominatedNodeName (pods : list Pod) : list effect :=
  ClearNomination <$> List.filter (λ p, negb (String.length (pod_NominatedNodeName p) =? 0)%nat) pods.

Definition getLowerPriorityNominatedPods (nominated : string → list PodInfo) (pod : Pod) (nodeName : string) : list Pod :=
  List.filter (λ p, PodPriority p <? PodPriority pod) (pi_Pod <$> nominated nodeName).

(** [delete_error] is what the API server answers; [waiting] tells the pods
    that wait for a permit. *)
Fixpoint evict_loop (delete_error : Pod → option string) (waiting : string → bool) (name : string) (victims : list Pod)
    : list effect * option string :=
  match victims with
  | [] => ([], None)
  | victim :: victims =>
      match delete_error victim with
      | Some e => ([DeletePod victim], Some e)
      | None =>
          let '(effects, err) := evict_loop delete_error waiting name victims in
          (DeletePod victim :: (if waiting (pod_UID victim) then [RejectWaiting (pod_UID victim)] else []) ++
             Preempted victim name :: effects, err)
      end
  end.

Definition PrepareCandidate (delete_error : Pod → option string) (waiting : string → bool)
    (nominated : string → list PodInfo) (c : candidate) (pod : Pod) : list effect * option Status :=
  let '(effects, err) := evict_loop delete_error waiting (c_name c) (v_Pods (c_victims c)) in
  match err with
  | Some e => (effects, Some (AsStatus e))
  | None => (effects ++ ClearNominatedNodeName (getLowerPriorityNominatedPods nominated pod (c_name c)), None)
  end.

Definition PodEligibleToPreemptOthers (pod : Pod) (nodeInfos : string → option NodeInfo)
    (nominatedNodeStatus : option Status) : bool :=
  if bool_decide (pod_PreemptionPolicy pod = Some "Never") then false
  else if (0 <? String.length (pod_NominatedNodeName pod))%nat then
    if bool_decide (status_Code nominatedNodeStatus = UnschedulableAndUnresolvable) then true
    else
      match nodeInfos (pod_NominatedNodeName pod) with
      | Some nodeInfo =>
          negb (existsb (λ p, bool_decide (is_Some (pod_DeletionTimestamp (pi_Pod p))) &&
                              (PodPriority (pi_Pod p) <? PodPriority pod)) (Pods nodeInfo))
      | None => true
      end
  else true.

(** A node of the snapshot always has its object; [Panic] if it has not. *)
Fixpoint nodesWherePreemptionMightHelp (nodes : list NodeInfo) (m : gmap string Status)
    : outcome (list NodeInfo * gmap string Status) :=
  match nodes with
  | [] => Ret ([], ∅)
  | ni :: nodes =>
      match node ni with
      | None => Panic
      | Some nd =>
          '(potentialNodes, nodeStatuses) ← nodesWherePreemptionMightHelp nodes m;
          if bool_decide (status_Code (m !! node_Name nd) = UnschedulableAndUnresolvable) then
            Ret (potentialNodes, <[node_Name nd := NewStatus UnschedulableAndUnresolvable
                                     ["Preemption is not helpful for scheduling"]]> nodeStatuses)
          else Ret (ni :: potentialNodes, nodeStatuses)
      end
  end.

(** [framework.FitError.Error]: how often each reason occurs, in the order of
    the texts. *)
Definition decimal (n : Z) : string := String.string_of_list_ascii (print_Z n).

Definition FitError_Error (NumAllNodes : Z) (NodeToStatusMap : gmap string Status) : string :=
  let reasons := map_fold (λ _ status r, foldl (λ r reason, <[reason := default 0 (r !! reason) + 1]> r) r (reasons status))
                   (∅ : gmap string Z) NodeToStatusMap in
  let histogram := sort_strings ((λ kv, decimal kv.2 +:+ " " +:+ kv.1) <$> map_to_list reasons) in
  "0/" +:+ decimal NumAllNodes +:+ " nodes are available: " +:+ String.concat ", " histogram +:+ ".".

Section Preempt.
(** The arguments of the plugin and what it asks its handle: the pods of the
    lister, the nodes of the snapshot, the budgets ([None] without the feature),
    the extenders. *)
Context (MinCandidateNodesPercentage MinCandidateNodesAbsolute : Z).
Context (podLister : string → string → Pod + string).
Context (nodeLister : list NodeInfo) (nodeInfos : string → option NodeInfo).
Context (pdbLister : option (list PodDisruptionBudget + string)).
Context (extenders : list Extender).
Context (delete_error : Pod → option string) (waiting : string → bool) (nominated : string → list PodInfo).
(** The random offset, the readings of the clock, the order in which a map of
    victims is walked, and how the dry runs end. *)
Context (offset : Z) (clock : nat → Z) (range : gmap string Victims → list string).
Context (dryRun : Pod → list NodeInfo → list PodDisruptionBudget → Z → Z → outcome (list candidate * gmap string Status)).

Definition calculateNumCandidates (numNodes : Z) : Z :=
  let n := Z.quot (int32 (numNodes * MinCandidateNodesPercentage)) 100 in
  let n := if n <? MinCandidateNodesAbsolute then MinCandidateNodesAbsolute else n in
  if numNodes <? n then numNodes else n.

Definition getOffsetAndNumCandidates (numNodes : Z) : outcome (Z * Z) :=
  if numNodes <=? 0 then Panic else Ret (offset, calculateNumCandidates numNodes).

Definition getPodDisruptionBudgets : list PodDisruptionBudget + string :=
  match pdbLister with Some r => r | None => inl [] end.

Definition FindCandidates (pod : Pod) (m : gmap string Status)
    : outcome (list effect * list candidate * gmap string Status * option Status) :=
  if (length nodeLister =? 0)%nat then Ret ([], [], ∅, Some (NewStatus Error ["no nodes available"]))
  else
    '(potentialNodes, unschedulableNodeStatus) ← nodesWherePreemptionMightHelp nodeLister m;
    if (length potentialNodes =? 0)%nat then
      Ret (ClearNominatedNodeName [pod], [], unschedulableNodeStatus, None)
    else
      match getPodDisruptionBudgets with
      | inr e => Ret ([], [], ∅, Some (AsStatus e))
      | inl pdbs =>
          '(offset, numCandidates) ← getOffsetAndNumCandidates (int32 (Z.of_nat (length potentialNodes)));
          '(candidates, nodeStatuses) ← dryRun pod potentialNodes pdbs offset numCandidates;
          Ret ([], candidates, unschedulableNodeStatus ∪ nodeStatuses, None)
      end.

Definition preempt (pod : Pod) (m : gmap string Status) : outcome (list effect * string * option Status) :=
  match podLister (pod_Namespace pod) (pod_Name pod) with
  | inr e => Ret ([], EmptyString, Some (AsStatus e))
  | inl pod =>
      if negb (PodEligibleToPreemptOthers pod nodeInfos (m !! pod_NominatedNodeName pod)) then Ret ([], EmptyString, None)
      else
        '(effects, candidates, nodeToStatusMap, status) ← FindCandidates pod m;
        if negb (IsSuccess status) then Ret (effects, EmptyString, status)
        else if (length candidates =? 0)%nat then
          Ret (effects, EmptyString, Some (NewStatus Unschedulable
            [FitError_Error (Z.of_nat (size nodeToStatusMap)) nodeToStatusMap]))
        else
          let '(candidates, status) := CallExtenders range extenders pod candidates in
          if negb (IsSuccess status) then Ret (effects, EmptyString, status)
          else
            bestCandidate ← SelectCandidate clock 0 range candidates;
            match bestCandidate with
            | None => Ret (effects, EmptyString, None)
            | Some best =>
                if (String.length (c_name best) =? 0)%nat then Ret (effects, EmptyString, None)
                else
                  let '(effects', status) := PrepareCandidate delete_error waiting nominated best pod in
                  if negb (IsSuccess status) then Ret (effects ++ effects', EmptyString, status)
                  else Ret (effects ++ effects', c_name best, None)
            end
  end.

(** The result is the name of the nominated node. *)
Definition PostFilter (pod : Pod) (m : gmap string Status) : outcome (list effect * option string * option Status) :=
  '(effects, nnn, status) ← preempt pod m;
  if negb (IsSuccess status) then Ret (effects, None, status)
  else if (nnn =? EmptyString)%string then Ret (effects, None, Some (NewStatus Unschedulable []))
  else Ret (effects, Some nnn, Some (NewStatus Success [])).
End Preempt.
