(* ===== verification/Victims.v ===== *)
(** * The victims of a node: [selectVictimsOnNode]

    Whom the dry run of a node evicts and whom it spares. *)

From S2P Require Import Prelude Quantity Labels ApiTypes NodeInfo FwkStatus NodeResourcesFit SchedQueue Framework Preemption.
#[local] Open Scope Z_scope.

(** ** The loop over the pods of the node *)

(** Deleting from a slice leaves the array behind the place alone. *)
Lemma under_delete {A} (s array : list A) (i j : nat) x :
  under s array = array → s !! j = Some x → (j ≤ i)%nat →
  let array' := under (delete_swap s j) array in
  under (delete_swap s j) array' = array' ∧ length array' = length array ∧ drop (S i) array' = drop (S i) array.
Proof.
  intros Hu Hj Hji array'. assert (j < length s)%nat as Hlt by by eapply lookup_lt_Some.
  assert (length (delete_swap s j) = length s - 1)%nat as Hlen.
  { pose proof (delete_swap_perm s j x Hj) as Hp. apply Permutation_length in Hp. simpl in Hp. lia. }
  assert (length s ≤ length array)%nat as Hle.
  { apply (f_equal length) in Hu. unfold under in Hu. rewrite length_app, length_drop in Hu. lia. }
  assert (length array' = length array) as Hla.
  { unfold array', under. rewrite length_app, length_drop. lia. }
  split_and!; [|done|].
  - unfold array', under. f_equal. rewrite drop_app_ge by lia. replace (_ - _)%nat with 0%nat by lia. by rewrite drop_0.
  - apply list_eq. intros k. rewrite !lookup_drop. unfold array', under.
    destruct (decide (S i + k < length (delete_swap s j))%nat) as [Hk|Hk].
    + rewrite lookup_app_l by done. rewrite <- Hu. unfold under. rewrite lookup_app_l by lia.
      unfold delete_swap in *. destruct (last s) as [y|] eqn:Hy; [|done].
      rewrite lookup_take_lt by lia. apply list_lookup_insert_ne. lia.
    + rewrite lookup_app_r by lia. rewrite lookup_drop. f_equal. lia.
Qed.

Section Victims.
Context {Data : Type} (clone : Data → Data) (lsci overhead : bool).
Context (nominated : string → list PodInfo) (range : PluginToStatus → list string).
Context (fwk : frameworkImpl Data).
Local Abbreviation removePod := (removePod lsci overhead fwk).
Local Abbreviation addPod := (addPod lsci overhead fwk).
Local Abbreviation remove_loop := (remove_loop lsci overhead fwk).
Local Abbreviation fits := (fits clone lsci overhead nominated range fwk).
Implicit Types (pod : Pod) (c : config Data) (pi : PodInfo).

Lemma removePod_slice pod c pi c' :
  removePod pod c pi = Ret (c', None) →
  ∃ j x, Pods (cf_node c) !! j = Some x ∧ Pods (cf_node c') = delete_swap (Pods (cf_node c)) j ∧
    pod_UID (pi_Pod x) = pod_UID (pi_Pod pi) ∧
    (∀ i, Pods (cf_node c) !! i = Some pi → (j ≤ i)%nat).
Proof.
  unfold Preemption.removePod, RemovePod. destruct (GetPodKey (pi_Pod pi)) as [k|] eqn:Hk; [|done].
  destruct (find_key (Pods (cf_node c)) k) as [j|] eqn:Hj; [|by destruct (node (cf_node c))].
  destruct (calculateResource _ _ _) as [[? ?] ?]. cbn -[RunPreFilterExtensionRemovePod].
  destruct (RunPreFilterExtensionRemovePod _ _ _ _ _) as [state st]. intros [= <- _].
  apply find_key_Some in Hj as (x & Hx & Hxk & Hfirst). exists j, x. split_and!; [done|done| |].
  - apply GetPodKey_Some in Hxk as [<- _]. by apply GetPodKey_Some in Hk as [<- _].
  - intros i Hi. destruct (decide (j ≤ i)%nat); [done|]. exfalso. eapply Hfirst; [exact Hi| |exact Hk]. lia.
Qed.

(** The loop visits the pods the node had at its start, in their order. *)
Fixpoint remove_all pod (pis : list PodInfo) c (potentialVictims : list PodInfo)
    : outcome (config Data * list PodInfo * option string) :=
  match pis with
  | [] => Ret (c, potentialVictims, None)
  | pi :: pis =>
      if PodPriority (pi_Pod pi) <? PodPriority pod then
        '(c, err) ← removePod pod c pi;
        match (err : option string) with
        | Some e => Ret (c, potentialVictims ++ [pi], Some e)
        | None => remove_all pod pis c (potentialVictims ++ [pi])
        end
      else remove_all pod pis c potentialVictims
  end.

Lemma remove_loop_visits pod todo : ∀ i array c pv,
  under (Pods (cf_node c)) array = array → length array = (i + todo)%nat →
  remove_loop pod todo i array c pv = remove_all pod (drop i array) c pv.
Proof.
  induction todo as [|todo IH]; intros i array c pv Hu Hlen.
  { simpl. by rewrite drop_ge by lia. }
  cbn [Preemption.remove_loop]. destruct (lookup_lt_is_Some_2 array i) as [pi Hpi]; [lia|]. rewrite Hpi.
  rewrite (drop_S _ _ _ Hpi). cbn [remove_all].
  destruct (PodPriority (pi_Pod pi) <? PodPriority pod); [|apply IH; [done|lia]].
  destruct (removePod pod c pi) as [[c' [e|]]|] eqn:Hr; [done| |done]. cbn [mbind outcome_bind].
  apply removePod_slice in Hr as (j & x & Hj & Hp & _ & Hfirst).
  assert (j ≤ i)%nat as Hji.
  { destruct (decide (i < length (Pods (cf_node c)))%nat).
    - apply Hfirst. rewrite <- Hu in Hpi. unfold under in Hpi. by rewrite lookup_app_l in Hpi.
    - apply lookup_lt_Some in Hj. lia. }
  destruct (under_delete _ _ i j x Hu Hj Hji) as (H1 & H2 & H3). rewrite Hp, IH, H3; [done|by rewrite Hp|lia].
Qed.

(** ** What a configuration holds *)

(** The node holds the pods of [pis] and its totals are right; [c0] is where
    the dry run has started. *)
Record holds (c0 : config Data) (pis : list PodInfo) c : Prop := {
  ho_wf : ni_wf lsci overhead (cf_node c);
  ho_pods : Pods (cf_node c) ≡ₚ pis;
  ho_node : node (cf_node c) = node (cf_node c0);
  ho_alloc : Allocatable (cf_node c) = Allocatable (cf_node c0);
  ho_state key : untouched fwk key → cf_state c !! key = cf_state c0 !! key;
}.

Local Abbreviation uids pis := ((λ pi, pod_UID (pi_Pod pi)) <$> pis).

Lemma holds_perm c0 pis pis' c : pis ≡ₚ pis' → holds c0 pis c → holds c0 pis' c.
Proof. intros Hp []. split; [done|by rewrite <- Hp|done..]. Qed.

Lemma uids_unique (pis : list PodInfo) pi pi' :
  NoDup (uids pis) → pi ∈ pis → pi' ∈ pis → pod_UID (pi_Pod pi) = pod_UID (pi_Pod pi') → pi = pi'.
Proof.
  intros Hnd [i Hi]%list_elem_of_lookup [j Hj]%list_elem_of_lookup Heq.
  assert (i = j) as ->; [|congruence]. eapply (NoDup_lookup _ _ _ (pod_UID (pi_Pod pi)) Hnd).
  - by rewrite list_lookup_fmap, Hi.
  - by rewrite list_lookup_fmap, Hj, Heq.
Qed.

Lemma unique_agrees n pi : NoDup (uids (Pods n)) → pi ∈ Pods n → agrees n (pi_Pod pi).
Proof.
  intros Hnd Hin p (pi' & -> & Hin')%list_elem_of_fmap Heq. by rewrite (uids_unique _ _ _ Hnd Hin' Hin Heq).
Qed.

Lemma removePod_holds c0 pod pis c pi c' :
  NoDup (uids (pi :: pis)) → holds c0 (pi :: pis) c → removePod pod c pi = Ret (c', None) → holds c0 pis c'.
Proof.
  intros Hnd [Hwf Hp Hn Ha Hk] Hr. assert (pi ∈ Pods (cf_node c)) as Hin by (rewrite Hp; by left).
  assert (NoDup (uids (Pods (cf_node c)))) as Hnd' by by rewrite Hp.
  pose proof (removePod_slice _ _ _ _ Hr) as (j & x & Hj & Hp' & Hx & _).
  pose proof (RemovePod_spec lsci overhead _ _ (cf_gen c) Hwf (unique_agrees _ _ Hnd' Hin)) as Hspec.
  unfold Preemption.removePod in Hr. destruct (RemovePod _ _ _ _ _) as [[[n' g'] [|]]|]; [|done|done].
  cbn [mbind outcome_bind] in Hr.
  pose proof (λ key Hu, proj2 (extension_keeps fwk key (cf_state c) pod pi n' Hu)) as Hkeep.
  destruct (RunPreFilterExtensionRemovePod _ _ _ _ _) as [state st].
  injection Hr as <- _. cbn [cf_node cf_state fst] in *. destruct Hspec as (Hwf' & _ & _ & Hn' & Ha' & _).
  split; cbn [cf_node cf_state]; [done| |congruence|congruence|intros key Hu; by rewrite Hkeep, Hk].
  rewrite Hp'. apply (Permutation_cons_inv (a := pi)). rewrite <- Hp.
  assert (x = pi) as -> by (apply (uids_unique _ _ _ Hnd'); [by eapply list_elem_of_lookup_2|done..]).
  symmetry. by apply delete_swap_perm.
Qed.

Lemma addPod_holds c0 pod pis c pi c' e :
  holds c0 pis c → addPod pod c pi = (c', e) → holds c0 (pis ++ [pi]) c'.
Proof.
  intros [Hwf Hp Hn Ha Hk]. unfold Preemption.addPod.
  pose proof (AddPodInfo_wf lsci overhead _ pi (cf_gen c) Hwf) as Hwf'. unfold AddPodInfo in *.
  destruct (calculateResource _ _ _) as [[? ?] ?]. set (n' := mkNodeInfo _ _ _ _ _ _ _ _ _ _) in *.
  pose proof (λ key Hu, proj1 (extension_keeps fwk key (cf_state c) pod pi n' Hu)) as Hkeep.
  destruct (RunPreFilterExtensionAddPod _ _ _ _ _) as [state st].
  intros [= <- _]. split; cbn [cf_node cf_state fst] in *; [done|by rewrite <- Hp|done|done|intros key Hu; by rewrite Hkeep, Hk].
Qed.

(** The pods that may be evicted, and the others. *)
Definition lower pod pi : Prop := PodPriority (pi_Pod pi) < PodPriority pod.
#[export] Instance lower_dec pod pi : Decision (lower pod pi).
Proof. unfold lower. apply _. Defined.

Definition low pod (pis : list PodInfo) : list PodInfo := filter (lower pod) pis.
Definition high pod (pis : list PodInfo) : list PodInfo := filter (λ pi, ¬ lower pod pi) pis.

Lemma low_high pod pis : pis ≡ₚ high pod pis ++ low pod pis.
Proof.
  unfold low, high. induction pis as [|pi pis IH]; [done|]. rewrite !filter_cons.
  destruct (decide (lower pod pi)), (decide (¬ lower pod pi)); try done; simpl.
  - by rewrite <- Permutation_middle, <- IH.
  - by rewrite <- IH.
Qed.

Lemma remove_all_holds c0 pod pis : ∀ rest c pv c' pv',
  NoDup (uids (rest ++ pis)) → holds c0 (rest ++ pis) c → remove_all pod pis c pv = Ret (c', pv', None) →
  pv' = pv ++ low pod pis ∧ holds c0 (rest ++ high pod pis) c'.
Proof.
  unfold low, high. induction pis as [|pi pis IH]; intros rest c pv c' pv' Hnd Hc Hr.
  { injection Hr as <- <-. by rewrite app_nil_r. }
  cbn [remove_all] in Hr. rewrite !filter_cons. unfold lower in *.
  destruct (Z.ltb_spec (PodPriority (pi_Pod pi)) (PodPriority pod)).
  - rewrite decide_True, decide_False by lia. destruct (removePod pod c pi) as [[c1 [e|]]|] eqn:Hr1; [done| |done].
    cbn [mbind outcome_bind] in Hr. rewrite <- Permutation_middle in Hnd.
    apply (removePod_holds c0 pod (rest ++ pis)) in Hr1; [|done|eapply holds_perm; [|exact Hc]; by rewrite Permutation_middle].
    apply (IH rest) in Hr as [-> ?]; [|by apply NoDup_cons in Hnd as [_ ?]|done]. by rewrite <- app_assoc.
  - rewrite decide_False, decide_True by lia. apply (IH (rest ++ [pi])) in Hr as [-> ?]; rewrite <- ?app_assoc; try done.
    by rewrite <- app_assoc in *.
Qed.

(** ** Who is spared *)

(** [spare] tells by UID whether a pod is spared. *)
Definition spared (spare : string → bool) (pis : list PodInfo) : list PodInfo :=
  filter (λ pi, spare (pod_UID (pi_Pod pi)) = true) pis.
Definition evicted (spare : string → bool) (pis : list PodInfo) : list PodInfo :=
  filter (λ pi, spare (pod_UID (pi_Pod pi)) = false) pis.

Lemma spared_evicted spare pis : pis ≡ₚ spared spare pis ++ evicted spare pis.
Proof.
  unfold spared, evicted. induction pis as [|pi pis IH]; [done|]. rewrite !filter_cons.
  destruct (spare (pod_UID (pi_Pod pi))); simpl; [by rewrite <- IH|by rewrite <- Permutation_middle, <- IH].
Qed.

Lemma spare_ext spare spare' pis :
  (∀ pi, pi ∈ pis → spare (pod_UID (pi_Pod pi)) = spare' (pod_UID (pi_Pod pi))) →
  spared spare pis = spared spare' pis ∧ evicted spare pis = evicted spare' pis.
Proof.
  unfold spared, evicted. induction pis as [|pi pis IH]; intros Heq; [done|]. rewrite !filter_cons, (Heq pi) by by left.
  destruct IH as [-> ->]; [|done]. intros pi' Hpi'. apply Heq. by right.
Qed.

(** The pod fits with the pods of [base] and the spared ones, and it does not
    fit with any of the others beside those spared before it. *)
Record reprieved (c0 : config Data) pod (base pis : list PodInfo) (spare : string → bool) : Prop := {
  rp_fits : ∃ c, holds c0 (base ++ spared spare pis) c ∧ IsSuccess (fits pod c) = true;
  rp_needed l1 pi l2 : pis = l1 ++ pi :: l2 → spare (pod_UID (pi_Pod pi)) = false →
    ∃ c, holds c0 (base ++ spared spare l1 ++ [pi]) c ∧ IsSuccess (fits pod c) = false;
}.

Definition decide_spare (uid : string) (b : bool) (spare : string → bool) (u : string) : bool :=
  if (u =? uid)%string then b else spare u.

Lemma decide_spare_head uid b spare : decide_spare uid b spare uid = b.
Proof. unfold decide_spare. by rewrite String.eqb_refl. Qed.

Lemma decide_spare_tail pi pis b spare :
  NoDup (uids (pi :: pis)) → ∀ l, l ⊆ pis →
  spared (decide_spare (pod_UID (pi_Pod pi)) b spare) l = spared spare l ∧
  evicted (decide_spare (pod_UID (pi_Pod pi)) b spare) l = evicted spare l.
Proof.
  intros [Hnot _]%NoDup_cons l Hl. apply spare_ext. intros pi' Hin. unfold decide_spare.
  destruct (String.eqb_spec (pod_UID (pi_Pod pi')) (pod_UID (pi_Pod pi))) as [He|]; [|done].
  destruct Hnot. rewrite <- He. apply (list_elem_of_fmap_2 (λ pi, pod_UID (pi_Pod pi))), Hl, Hin.
Qed.

(** Deciding about one more pod in front of the others. *)
Lemma reprieved_cons c0 pod base pi pis spare (b : bool) :
  NoDup (uids (pi :: pis)) →
  (b = false → ∃ c, holds c0 (base ++ [pi]) c ∧ IsSuccess (fits pod c) = false) →
  reprieved c0 pod (base ++ if b then [pi] else []) pis spare →
  reprieved c0 pod base (pi :: pis) (decide_spare (pod_UID (pi_Pod pi)) b spare).
Proof.
  intros Hnd Hb [Hfits Hneed]. set (spare' := decide_spare _ b spare).
  assert (spared spare' [pi] = if b then [pi] else []) as Hhead.
  { unfold spared. rewrite filter_cons. unfold spare'. rewrite decide_spare_head. by destruct b. }
  assert (∀ l, l ⊆ pis → base ++ spared spare' (pi :: l) = (base ++ if b then [pi] else []) ++ spared spare l) as Htail.
  { intros l Hl. rewrite <- app_assoc, <- Hhead. f_equal. unfold spare'.
    rewrite <- (proj1 (decide_spare_tail pi pis b spare Hnd l Hl)). unfold spared. by rewrite <- filter_app. }
  split; [by rewrite Htail|]. intros [|pi' l1] x l2 Heq Hx.
  - injection Heq as <- <-. unfold spare' in Hx. rewrite decide_spare_head in Hx. by apply Hb.
  - injection Heq as <- Heq. assert (l1 ⊆ pis ∧ x ∈ pis) as [Hl1 Hxin] by (rewrite Heq; split; set_solver).
    rewrite app_assoc, Htail, <- app_assoc by done. apply (Hneed l1 x l2 Heq).
    unfold spare', decide_spare in Hx. destruct (String.eqb_spec (pod_UID (pi_Pod x)) (pod_UID (pi_Pod pi))) as [He|]; [|done].
    apply NoDup_cons in Hnd as [[] _]. rewrite <- He. by apply (list_elem_of_fmap_2 (λ pi, pod_UID (pi_Pod pi))).
Qed.

Local Abbreviation reprieve_loop := (reprieve_loop clone lsci overhead nominated range fwk).

Lemma reprieve_loop_spec c0 pod pis : ∀ base c victims num c' victims' num',
  NoDup (uids (base ++ pis)) → holds c0 base c →
  (∃ cok, holds c0 base cok ∧ IsSuccess (fits pod cok) = true) →
  reprieve_loop pod c victims num pis = Ret (c', victims', inl num') →
  ∃ spare, reprieved c0 pod base pis spare ∧ holds c0 (base ++ spared spare pis) c' ∧
    victims' = victims ++ (pi_Pod <$> evicted spare pis) ∧ num' = num + Z.of_nat (length (evicted spare pis)).
Proof.
  induction pis as [|pi pis IH]; intros base c victims num c' victims' num' Hnd Hc Hok Hr.
  { injection Hr as <- <- <-. exists (λ _, true). rewrite !app_nil_r. simpl. split_and!; [|done|done|lia].
    split; [by rewrite app_nil_r|]. intros [|? ?]; done. }
  assert (NoDup (uids (pi :: pis))) as Hndp by (rewrite fmap_app in Hnd; by apply NoDup_app in Hnd as (_ & _ & ?)).
  cbn [Preemption.reprieve_loop] in Hr. unfold reprievePod in Hr.
  destruct (addPod pod c pi) as [c1 [e|]] eqn:Hadd; [done|]. apply (addPod_holds c0 _ base) in Hadd; [|done].
  destruct (IsSuccess (fits pod c1)) eqn:Hf; cbn [mbind outcome_bind] in Hr.
  - apply (IH (base ++ [pi])) in Hr as (spare & Hsp & Hc' & -> & ->); [|by rewrite <- app_assoc|done|by exists c1].
    exists (decide_spare (pod_UID (pi_Pod pi)) true spare).
    destruct (decide_spare_tail pi pis true spare Hndp pis) as [H1 H2]; [done|].
    split; [by apply reprieved_cons|]. unfold spared, evicted in *. rewrite !filter_cons, decide_spare_head, H1, H2.
    rewrite <- app_assoc in Hc'. done.
  - destruct (removePod pod c1 pi) as [[c2 [e|]]|] eqn:Hrem; [done| |done]. cbn [mbind outcome_bind] in Hr.
    pose proof Hnd as Hnd'. rewrite <- Permutation_middle in Hnd'. apply (removePod_holds c0 _ base) in Hrem.
    2: { rewrite app_comm_cons, fmap_app in Hnd'. by apply NoDup_app in Hnd' as (? & _). }
    2: { eapply holds_perm; [|exact Hadd]. by rewrite Permutation_app_comm. }
    apply (IH base) in Hr as (spare & Hsp & Hc' & -> & ->); [|by apply NoDup_cons in Hnd' as [_ ?]|done|done].
    exists (decide_spare (pod_UID (pi_Pod pi)) false spare).
    destruct (decide_spare_tail pi pis false spare Hndp pis) as [H1 H2]; [done|].
    split; [apply reprieved_cons; [done|eauto|by rewrite app_nil_r]|].
    unfold spared, evicted in *. rewrite !filter_cons, decide_spare_head, H1, H2.
    rewrite (decide_False (P := false = true)), (decide_True (P := false = false)) by done.
    split_and!; [done|by rewrite <- app_assoc|]. cbn [length]. lia.
Qed.

Lemma reprieved_ext c0 pod base pis spare spare' :
  (∀ pi, pi ∈ pis → spare (pod_UID (pi_Pod pi)) = spare' (pod_UID (pi_Pod pi))) →
  reprieved c0 pod base pis spare → reprieved c0 pod base pis spare'.
Proof.
  intros Heq [Hf Hn]. split.
  - by rewrite <- (proj1 (spare_ext spare spare' pis Heq)).
  - intros l1 pi l2 Hpis Hpi. rewrite <- (proj1 (spare_ext spare spare' l1 ltac:(intros; apply Heq; set_solver))).
    apply (Hn l1 pi l2 Hpis). rewrite Heq; [done|set_solver].
Qed.

Lemma reprieved_app c0 pod base l1 l2 spare :
  reprieved c0 pod base l1 spare → reprieved c0 pod (base ++ spared spare l1) l2 spare →
  reprieved c0 pod base (l1 ++ l2) spare.
Proof.
  intros [Hf1 Hn1] [Hf2 Hn2]. split; unfold spared in *.
  - by rewrite filter_app, app_assoc.
  - intros k1 pi k2 Heq Hpi. apply app_eq_app in Heq as (l & [[-> Heq]|[-> ->]]).
    + destruct l as [|x l]; simpl in Heq.
      * destruct (Hn2 [] pi k2 (eq_sym Heq) Hpi) as (c & Hc & ?). exists c. split; [|done].
        by rewrite app_nil_r, <- app_assoc in Hc.
      * injection Heq as <- ->. by apply (Hn1 k1 pi l).
    + destruct (Hn2 l pi k2 eq_refl Hpi) as (c & Hc & ?). exists c. split; [|done].
      rewrite filter_app, <- !app_assoc in *. done.
Qed.

(** Two rounds decide like one. *)
Lemma reprieved_join c0 pod base l1 l2 spare1 spare2 :
  NoDup (uids (l1 ++ l2)) →
  reprieved c0 pod base l1 spare1 → reprieved c0 pod (base ++ spared spare1 l1) l2 spare2 →
  ∃ spare, reprieved c0 pod base (l1 ++ l2) spare ∧
    spared spare l1 = spared spare1 l1 ∧ evicted spare l1 = evicted spare1 l1 ∧
    spared spare l2 = spared spare2 l2 ∧ evicted spare l2 = evicted spare2 l2.
Proof.
  intros Hnd H1 H2. rewrite fmap_app in Hnd. apply NoDup_app in Hnd as (_ & Hdis & _).
  set (spare u := if bool_decide (u ∈ uids l1) then spare1 u else spare2 u).
  assert (∀ pi, pi ∈ l1 → spare1 (pod_UID (pi_Pod pi)) = spare (pod_UID (pi_Pod pi))) as E1.
  { intros pi Hpi. unfold spare. rewrite bool_decide_true; [done|]. by apply (list_elem_of_fmap_2 (λ pi, pod_UID (pi_Pod pi))). }
  assert (∀ pi, pi ∈ l2 → spare2 (pod_UID (pi_Pod pi)) = spare (pod_UID (pi_Pod pi))) as E2.
  { intros pi Hpi. unfold spare. rewrite bool_decide_false; [done|]. intros Hin. apply (Hdis _ Hin).
    by apply (list_elem_of_fmap_2 (λ pi, pod_UID (pi_Pod pi))). }
  destruct (spare_ext _ _ _ E1) as [S1 V1], (spare_ext _ _ _ E2) as [S2 V2].
  exists spare. split; [|done]. apply reprieved_app; [by eapply reprieved_ext|]. rewrite <- S1. by eapply reprieved_ext.
Qed.
End Victims.

(** ** Disruption budgets *)

(** The budgets look at a pod only if it has labels. *)
Definition covered (pdb : PodDisruptionBudget) (pod : Pod) : bool :=
  negb (size (pod_Labels pod : gmap string string) =? 0)%nat && pdb_counts pdb pod.

(** The pods of a list a budget covers. *)
Definition cover (pdb : PodDisruptionBudget) (pis : list PodInfo) : list PodInfo :=
  filter (λ pi, covered pdb (pi_Pod pi) = true) pis.

(** Some budget allows fewer disruptions than evicting the pods of [before] and
    then [pi] makes. *)
Definition violates (pdbs : list PodDisruptionBudget) (before : list PodInfo) (pi : PodInfo) : Prop :=
  ∃ pdb, pdb ∈ pdbs ∧ covered pdb (pi_Pod pi) = true ∧
    DisruptionsAllowed pdb < Z.of_nat (length (cover pdb (before ++ [pi]))).

#[export] Instance violates_dec pdbs before pi : Decision (violates pdbs before pi).
Proof.
  destruct (decide (List.Exists (λ pdb, covered pdb (pi_Pod pi) = true ∧
    DisruptionsAllowed pdb < Z.of_nat (length (cover pdb (before ++ [pi])))) pdbs)) as [H|H];
    [left|right]; unfold violates; rewrite Exists_exists in H; done.
Defined.

(** The two groups by the budgets alone. *)
Fixpoint pdb_split (pdbs : list PodDisruptionBudget) (before pis : list PodInfo) : list PodInfo * list PodInfo :=
  match pis with
  | [] => ([], [])
  | pi :: pis =>
      let '(v, n) := pdb_split pdbs (before ++ [pi]) pis in
      if decide (violates pdbs before pi) then (pi :: v, n) else (v, pi :: n)
  end.

Lemma pdb_loop_spec pod pdbs : ∀ allowed,
  length allowed = length pdbs →
  (pdb_loop pod pdbs allowed).1 = zip_with (λ pdb a, if pdb_counts pdb pod then int32 (a - 1) else a) pdbs allowed ∧
  ((pdb_loop pod pdbs allowed).2 = true ↔
     ∃ i pdb a, pdbs !! i = Some pdb ∧ allowed !! i = Some a ∧ pdb_counts pdb pod = true ∧ int32 (a - 1) < 0).
Proof.
  induction pdbs as [|pdb pdbs IH]; intros [|a allowed] Hlen; try done.
  { split; [done|]. split; [done|]. by intros ([|i] & ? & ? & ? & _). }
  simpl in Hlen. injection Hlen as Hlen. destruct (IH allowed Hlen) as [H1 H2]. cbn [pdb_loop].
  destruct (pdb_loop pod pdbs allowed) as [rest violated]. simpl in H1, H2. subst rest.
  destruct (pdb_counts pdb pod) eqn:Hc; simpl; rewrite Hc; (split; [done|]); rewrite ?orb_true_iff, H2, ?Z.ltb_lt; split.
  - intros [?|(i & p & b & ?)]; [by exists 0%nat, pdb, a|by exists (S i), p, b].
  - intros ([|i] & p & b & H); [destruct H as ([= <-] & [= <-] & _ & ?); by left|right; by exists i, p, b].
  - intros (i & p & b & ?); by exists (S i), p, b.
  - intros ([|i] & p & b & H); [destruct H as ([= <-] & _ & ? & _); congruence|by exists i, p, b].
Qed.

Lemma cover_snoc pdb before pi :
  length (cover pdb (before ++ [pi])) = (length (cover pdb before) + if covered pdb (pi_Pod pi) then 1 else 0)%nat.
Proof.
  unfold cover. rewrite filter_app, length_app, filter_cons, filter_nil. destruct (covered pdb (pi_Pod pi)); done.
Qed.

(** What is left of the budgets after the evictions of [before]. *)
Definition left_of (pdbs : list PodDisruptionBudget) (before : list PodInfo) : list Z :=
  (λ pdb, DisruptionsAllowed pdb - Z.of_nat (length (cover pdb before))) <$> pdbs.

Section Budgets.
Context (pdbs : list PodDisruptionBudget) (most : nat).
Context (allowed : Forall (λ pdb, Z.of_nat most - 2 ^ 31 ≤ DisruptionsAllowed pdb < 2 ^ 31) pdbs).

Lemma left_width pdb before pi :
  (length (before ++ [pi]) ≤ most)%nat → pdb ∈ pdbs →
  int32 (DisruptionsAllowed pdb - Z.of_nat (length (cover pdb before)) - 1) =
  DisruptionsAllowed pdb - Z.of_nat (length (cover pdb before)) - 1.
Proof.
  intros Hl Hp. rewrite Forall_forall in allowed. specialize (allowed pdb Hp).
  assert (length (cover pdb before) ≤ length before)%nat by apply length_filter. rewrite length_app in Hl. simpl in Hl.
  apply int32_id. lia.
Qed.

Lemma pdb_step before pi :
  (length (before ++ [pi]) ≤ most)%nat →
  let r := if negb (size (pod_Labels (pi_Pod pi) : gmap string string) =? 0)%nat
           then pdb_loop (pi_Pod pi) pdbs (left_of pdbs before) else (left_of pdbs before, false) in
  r.1 = left_of pdbs (before ++ [pi]) ∧ (r.2 = true ↔ violates pdbs before pi).
Proof.
  intros Hl. unfold violates. setoid_rewrite cover_snoc.
  assert (∀ pdb, covered pdb (pi_Pod pi) = (negb (size (pod_Labels (pi_Pod pi) : gmap string string) =? 0)%nat && pdb_counts pdb (pi_Pod pi))) as Hcov by done.
  unfold left_of at 3. setoid_rewrite cover_snoc. setoid_rewrite Hcov.
  destruct (negb _) eqn:Hlab; cbn [andb].
  2: { split; [apply list_fmap_ext; intros; lia|]. split; [done|]. by intros (? & _ & ? & _). }
  destruct (pdb_loop_spec (pi_Pod pi) pdbs (left_of pdbs before)) as [-> ->]; [apply length_fmap|].
  unfold left_of. split.
  - rewrite zip_with_fmap_r, zip_with_diag. apply list_fmap_ext. intros i pdb Hi%list_elem_of_lookup_2.
    destruct (pdb_counts pdb (pi_Pod pi)); [rewrite (left_width pdb before pi) by done|]; lia.
  - split.
    + intros (i & pdb & a & Hi & Ha & Hc & Hlt). rewrite list_lookup_fmap, Hi in Ha. injection Ha as <-.
      exists pdb. apply list_elem_of_lookup_2 in Hi. rewrite (left_width pdb before pi) in Hlt by done. rewrite Hc. split_and!; [done..|lia].
    + intros (pdb & [i Hi]%list_elem_of_lookup & Hc & Hlt). rewrite Hc in Hlt.
      exists i, pdb, (DisruptionsAllowed pdb - Z.of_nat (length (cover pdb before))).
      rewrite list_lookup_fmap, Hi. split_and!; [done..|]. rewrite (left_width pdb before pi) by (done || by eapply list_elem_of_lookup_2). lia.
Qed.

Lemma pdb_groups_split pis : ∀ before,
  (length (before ++ pis) ≤ most)%nat → pdb_groups pdbs (left_of pdbs before) pis = pdb_split pdbs before pis.
Proof.
  induction pis as [|pi pis IH]; intros before Hl; [done|]. cbn [pdb_groups pdb_split].
  assert (length ((before ++ [pi]) ++ pis) ≤ most)%nat as Hl' by by rewrite <- app_assoc.
  destruct (pdb_step before pi) as [H1 H2]; [rewrite !length_app in *; simpl in *; lia|].
  destruct (if negb _ then _ else _) as [rest violated]. simpl in H1, H2. subst rest. rewrite IH by done.
  destruct (pdb_split pdbs (before ++ [pi]) pis) as [v n]. destruct violated.
  - by rewrite decide_True by by apply H2.
  - by rewrite decide_False by (by intros ?%H2).
Qed.

Lemma filterPods_split pis : (length pis ≤ most)%nat → filterPodsWithPDBViolation pis pdbs = pdb_split pdbs [] pis.
Proof.
  intros Hl. rewrite <- pdb_groups_split by done. unfold filterPodsWithPDBViolation, left_of. f_equal.
  apply list_fmap_ext. intros. simpl. lia.
Qed.
End Budgets.

Lemma pdb_groups_perm pdbs pis : ∀ allowed,
  (pdb_groups pdbs allowed pis).1 ++ (pdb_groups pdbs allowed pis).2 ≡ₚ pis ∧
  (pdb_groups pdbs allowed pis).1 `sublist_of` pis ∧ (pdb_groups pdbs allowed pis).2 `sublist_of` pis.
Proof.
  induction pis as [|pi pis IH]; intros allowed; [done|]. cbn [pdb_groups].
  destruct (if negb _ then _ else _) as [rest violated]. destruct (IH rest) as (H1 & H2 & H3).
  destruct (pdb_groups pdbs rest pis) as [v n]. simpl in *. destruct violated; simpl; split_and!;
    [by rewrite H1|by constructor|by constructor|by rewrite <- Permutation_middle, H1|by constructor..].
Qed.

(** ** The dry run of a node *)

Section DryRun.
Context {Data : Type} (clone : Data → Data) (lsci overhead : bool).
Context (nominated : string → list PodInfo) (range : PluginToStatus → list string).
Context (sortVictims : list PodInfo → list PodInfo) (sort_perm : ∀ l, sortVictims l ≡ₚ l).
Context (fwk : frameworkImpl Data).
Local Abbreviation removePod := (removePod lsci overhead fwk).
Local Abbreviation addPod := (addPod lsci overhead fwk).
Local Abbreviation fits := (fits clone lsci overhead nominated range fwk).
Local Abbreviation holds := (holds lsci overhead fwk).
Local Abbreviation reprieved := (reprieved clone lsci overhead nominated range fwk).
Local Abbreviation selectVictimsOnNode := (selectVictimsOnNode clone lsci overhead nominated range sortVictims fwk).
Local Abbreviation uids pis := ((λ pi, pod_UID (pi_Pod pi)) <$> pis).
Implicit Types (pod : Pod) (c : config Data) (pi : PodInfo).

Lemma self_holds c : ni_wf lsci overhead (cf_node c) → holds c (Pods (cf_node c)) c.
Proof. by split. Qed.

Lemma remove_loop_start pod c :
  Preemption.remove_loop lsci overhead fwk pod (length (Pods (cf_node c))) 0 (Pods (cf_node c)) c [] =
  remove_all lsci overhead fwk pod (Pods (cf_node c)) c [].
Proof. rewrite remove_loop_visits; [by rewrite drop_0| |done]. unfold under. by rewrite drop_all, app_nil_r. Qed.

Lemma unspared_nodup base v n spare :
  NoDup (uids (base ++ v ++ n)) → NoDup (uids ((base ++ spared spare v) ++ n)).
Proof.
  intros Hnd. eapply sublist_NoDup; [exact Hnd|]. apply fmap_sublist. rewrite <- app_assoc. apply sublist_app; [done|].
  apply sublist_app; [apply sublist_filter|done].
Qed.

Lemma select_spec pod c pdbs c' victims num st :
  ni_wf lsci overhead (cf_node c) → NoDup (uids (Pods (cf_node c))) →
  selectVictimsOnNode pod c pdbs = Ret (c', victims, num, st) → IsSuccess st = true →
  let pods := Pods (cf_node c) in
  let groups := filterPodsWithPDBViolation (sortVictims (low pod pods)) pdbs in
  low pod pods ≠ [] ∧ groups.1 ++ groups.2 ≡ₚ low pod pods ∧
  ∃ spare, reprieved c pod (high pod pods) (groups.1 ++ groups.2) spare ∧
    victims = pi_Pod <$> evicted spare (groups.1 ++ groups.2) ∧ num = Z.of_nat (length (evicted spare groups.1)).
Proof.
  intros Hwf Hnd. unfold Preemption.selectVictimsOnNode. rewrite remove_loop_start.
  destruct (remove_all _ _ _ _ _ _ _) as [[[c1 pv] [e|]]|] eqn:Hr; [by intros [= <- <- <- <-]| |done].
  apply (remove_all_holds _ _ _ c pod _ []) in Hr as [-> Hc1]; [|done|by apply self_holds].
  cbn [mbind outcome_bind app]. set (l := low pod (Pods (cf_node c))).
  destruct (Nat.eqb_spec (length l) 0) as [Hl|Hl].
  { destruct (node (cf_node c1)); [|done]. by intros [= <- <- <- <-]. }
  destruct (IsSuccess (fits pod c1)) eqn:Hf; cbn [negb]; [|intros [= <- <- <- <-]; congruence].
  pose proof (proj1 (pdb_groups_perm pdbs (sortVictims l) (DisruptionsAllowed <$> pdbs))) as Hperm.
  change (pdb_groups pdbs _ _) with (filterPodsWithPDBViolation (sortVictims l) pdbs) in Hperm.
  destruct (filterPodsWithPDBViolation _ _) as [v n] eqn:Hg. cbn [fst snd] in Hperm. rewrite sort_perm in Hperm.
  assert (NoDup (uids (high pod (Pods (cf_node c)) ++ (v ++ n)))) as Hnd' by (rewrite Hperm; unfold l; by rewrite <- low_high).
  pose proof Hnd' as Hnd1. rewrite app_assoc, fmap_app in Hnd1. apply NoDup_app in Hnd1 as (Hnd1 & _ & _).
  destruct (reprieve_loop _ _ _ _ _ _ pod c1 [] 0 v) as [[[c2 vs1] [num1|e]]|] eqn:H1; cbn [mbind outcome_bind];
    [|by intros [= <- <- <- <-]|done].
  apply (reprieve_loop_spec _ _ _ _ _ _ c _ v _ _ _ _ _ _ _ Hnd1 Hc1) in H1 as (s1 & Hs1 & Hc2 & -> & ->); [|by exists c1].
  destruct (reprieve_loop _ _ _ _ _ _ pod c2 _ 0 n) as [[[c3 vs2] [num2|e]]|] eqn:H2; cbn [mbind outcome_bind];
    [|by intros [= <- <- <- <-]|done].
  apply (reprieve_loop_spec _ _ _ _ _ _ c _ n (high pod (Pods (cf_node c)) ++ spared s1 v)) in H2 as (s2 & Hs2 & _ & -> & _);
    [| |done|by apply Hs1].
  2: by apply unspared_nodup.
  intros [= <- <- <- <-] _. cbn [fst snd]. split; [by intros E; rewrite E in Hl|]. split; [done|].
  destruct (reprieved_join clone lsci overhead nominated range fwk c pod (high pod (Pods (cf_node c))) v n s1 s2) as (spare & Hsp & _ & E1 & _ & E2); [|done..|].
  { rewrite fmap_app in Hnd'. by apply NoDup_app in Hnd' as (_ & _ & ?). }
  exists spare. split; [done|]. unfold evicted in *. rewrite filter_app, E1, E2, fmap_app. split; [done|]. by rewrite Z.add_0_l.
Qed.

(** *** The dry run returns *)

(** The extensions of the pre-filters do not fail. *)
Definition extensions_succeed : Prop :=
  ∀ pl ext, pl ∈ preFilterPlugins fwk → pre_Extensions pl = Some ext → ∀ state pod pi ni,
    IsSuccess (ext_AddPod ext state pod pi ni).2 = true ∧ IsSuccess (ext_RemovePod ext state pod pi ni).2 = true.

Context (ext_ok : extensions_succeed).

Lemma extension_add state pod pi ni : AsError (RunPreFilterExtensionAddPod fwk state pod pi ni).2 = None.
Proof.
  unfold RunPreFilterExtensionAddPod. unfold extensions_succeed in ext_ok. revert state.
  induction (preFilterPlugins fwk) as [|pl pls IH]; intros state; [done|]. cbn [add_pod_loop].
  assert (∀ state, AsError (add_pod_loop pls state pod pi ni).2 = None) as IH'
    by (apply IH; intros pl' ext Hin; apply ext_ok; by right).
  destruct (pre_Extensions pl) as [ext|] eqn:He; [|apply IH'].
  destruct (ext_ok pl ext (list_elem_of_here _ _) He state pod pi ni) as [Ha _].
  destruct (ext_AddPod ext state pod pi ni) as [state' st]. cbn [snd] in Ha. rewrite Ha. apply IH'.
Qed.

Lemma extension_remove state pod pi ni : AsError (RunPreFilterExtensionRemovePod fwk state pod pi ni).2 = None.
Proof.
  unfold RunPreFilterExtensionRemovePod. unfold extensions_succeed in ext_ok. revert state.
  induction (preFilterPlugins fwk) as [|pl pls IH]; intros state; [done|]. cbn [remove_pod_loop].
  assert (∀ state, AsError (remove_pod_loop pls state pod pi ni).2 = None) as IH'
    by (apply IH; intros pl' ext Hin; apply ext_ok; by right).
  destruct (pre_Extensions pl) as [ext|] eqn:He; [|apply IH'].
  destruct (ext_ok pl ext (list_elem_of_here _ _) He state pod pi ni) as [_ Hr].
  destruct (ext_RemovePod ext state pod pi ni) as [state' st]. cbn [snd] in Hr. rewrite Hr. apply IH'.
Qed.

Lemma removePod_total pod c pi :
  pi ∈ Pods (cf_node c) → pod_UID (pi_Pod pi) ≠ EmptyString → ∃ c', removePod pod c pi = Ret (c', None).
Proof.
  intros Hin Hne. unfold Preemption.removePod, RemovePod.
  assert (GetPodKey (pi_Pod pi) = Some (pod_UID (pi_Pod pi))) as Hk by by apply GetPodKey_Some. rewrite Hk.
  destruct (find_key (Pods (cf_node c)) (pod_UID (pi_Pod pi))) as [i|] eqn:Hf.
  - destruct (calculateResource _ _ _) as [[? ?] ?]. cbn -[RunPreFilterExtensionRemovePod].
    match goal with |- context [RunPreFilterExtensionRemovePod fwk ?s pod pi ?n] =>
      pose proof (extension_remove s pod pi n) as He; destruct (RunPreFilterExtensionRemovePod fwk s pod pi n) as [state st] end.
    cbn [snd] in He. rewrite He. by eexists.
  - exfalso. rewrite find_key_None in Hf. by apply (Hf pi Hin).
Qed.

Lemma addPod_total pod c pi : ∃ c', addPod pod c pi = (c', None).
Proof.
  unfold Preemption.addPod. destruct (AddPodInfo _ _ _ _ _) as [n g]. pose proof (extension_add (cf_state c) pod pi n) as He.
  destruct (RunPreFilterExtensionAddPod _ _ _ _ _) as [state st]. cbn [snd] in He. rewrite He. by eexists.
Qed.

Local Abbreviation named pis := (Forall (λ pi, pod_UID (pi_Pod pi) ≠ EmptyString) pis).

Lemma remove_all_total c0 pod pis : ∀ rest c pv,
  NoDup (uids (rest ++ pis)) → named pis → holds c0 (rest ++ pis) c →
  ∃ c' pv', remove_all lsci overhead fwk pod pis c pv = Ret (c', pv', None).
Proof.
  induction pis as [|pi pis IH]; intros rest c pv Hnd Hnes Hc; [by do 2 eexists|].
  apply Forall_cons in Hnes as [Hne Hnes]. cbn [remove_all].
  destruct (PodPriority (pi_Pod pi) <? PodPriority pod).
  - destruct (removePod_total pod c pi) as [c1 Hc1]; [rewrite (ho_pods _ _ _ _ _ _ Hc); set_solver|done|].
    rewrite Hc1. cbn [mbind outcome_bind]. rewrite <- Permutation_middle in Hnd.
    apply (IH rest); [by apply NoDup_cons in Hnd as [_ ?]|done|].
    eapply removePod_holds; [exact Hnd| |exact Hc1]. eapply holds_perm; [|exact Hc]. by rewrite Permutation_middle.
  - apply (IH (rest ++ [pi])); rewrite <- ?app_assoc; done.
Qed.

Lemma reprieve_total c0 pod pis : ∀ base c victims num,
  NoDup (uids (base ++ pis)) → named pis → holds c0 base c →
  ∃ c' victims' num', reprieve_loop clone lsci overhead nominated range fwk pod c victims num pis = Ret (c', victims', inl num').
Proof.
  induction pis as [|pi pis IH]; intros base c victims num Hnd Hnes Hc; [by do 3 eexists|].
  apply Forall_cons in Hnes as [Hne Hnes].
  cbn [reprieve_loop]. unfold reprievePod. destruct (addPod_total pod c pi) as [c1 Hc1]. rewrite Hc1.
  pose proof (addPod_holds _ _ _ _ _ _ _ _ _ _ Hc Hc1) as Hh1.
  destruct (IsSuccess (fits pod c1)); cbn [mbind outcome_bind].
  - apply (IH (base ++ [pi])); [by rewrite <- app_assoc|done..].
  - destruct (removePod_total pod c1 pi) as [c2 Hc2]; [rewrite (ho_pods _ _ _ _ _ _ Hh1); set_solver|done|].
    rewrite Hc2. cbn [mbind outcome_bind]. rewrite <- Permutation_middle in Hnd.
    apply (IH base); [by apply NoDup_cons in Hnd as [_ ?]|done|].
    eapply removePod_holds; [|eapply holds_perm; [|exact Hh1]; symmetry; apply Permutation_cons_append|exact Hc2].
    rewrite app_comm_cons, fmap_app in Hnd. by apply NoDup_app in Hnd as (? & _).
Qed.

Lemma select_total pod c pdbs nd :
  ni_wf lsci overhead (cf_node c) → NoDup (uids (Pods (cf_node c))) → named (Pods (cf_node c)) → node (cf_node c) = Some nd →
  ∃ c' victims num st, selectVictimsOnNode pod c pdbs = Ret (c', victims, num, st) ∧
    ((low pod (Pods (cf_node c)) = [] ∧ status_Code st = UnschedulableAndUnresolvable) ∨
     (low pod (Pods (cf_node c)) ≠ [] ∧
      ∃ c1, holds c (high pod (Pods (cf_node c))) c1 ∧
        if IsSuccess (fits pod c1) then IsSuccess st = true else st = fits pod c1)).
Proof.
  intros Hwf Hnd Hne Hnode. unfold Preemption.selectVictimsOnNode. rewrite remove_loop_start.
  destruct (remove_all_total c pod (Pods (cf_node c)) [] c [] Hnd Hne (self_holds c Hwf)) as (c1 & pv & Hr).
  rewrite Hr. apply (remove_all_holds _ _ _ c pod _ []) in Hr as [-> Hc1]; [|done|by apply self_holds].
  cbn [mbind outcome_bind app] in *. set (l := low pod (Pods (cf_node c))) in *.
  destruct (Nat.eqb_spec (length l) 0) as [Hl%length_zero_iff_nil|Hl].
  { rewrite (ho_node _ _ _ _ _ _ Hc1), Hnode. do 4 eexists. split; [done|]. left. by rewrite Hl. }
  assert (l ≠ []) as Hl' by (by intros E; rewrite E in Hl).
  destruct (IsSuccess (fits pod c1)) eqn:Hf; cbn [negb].
  2: { do 4 eexists. split; [done|]. right. split; [done|]. exists c1. by rewrite Hf. }
  destruct (filterPodsWithPDBViolation (sortVictims l) pdbs) as [v n] eqn:Hg.
  pose proof (proj1 (pdb_groups_perm pdbs (sortVictims l) (DisruptionsAllowed <$> pdbs))) as Hperm.
  change (pdb_groups pdbs _ _) with (filterPodsWithPDBViolation (sortVictims l) pdbs) in Hperm.
  rewrite Hg in Hperm. cbn [fst snd] in Hperm. rewrite sort_perm in Hperm.
  assert (NoDup (uids (high pod (Pods (cf_node c)) ++ (v ++ n)))) as Hnd' by (rewrite Hperm; unfold l; by rewrite <- low_high).
  assert (named (v ++ n)) as [Hnv Hnn]%Forall_app.
  { rewrite Hperm. unfold l, low. rewrite Forall_forall in *. intros x [_ Hx]%list_elem_of_filter. by apply Hne. }
  pose proof Hnd' as Hnd1. rewrite app_assoc, fmap_app in Hnd1. apply NoDup_app in Hnd1 as (Hnd1 & _ & _).
  destruct (reprieve_total c pod v _ c1 [] 0 Hnd1 Hnv Hc1) as (c2 & vs & num & Hr1). rewrite Hr1. cbn [mbind outcome_bind].
  apply (reprieve_loop_spec _ _ _ _ _ _ c _ v _ _ _ _ _ _ _ Hnd1 Hc1) in Hr1 as (s1 & Hs1 & Hc2 & -> & ->); [|by exists c1].
  destruct (reprieve_total c pod n (high pod (Pods (cf_node c)) ++ spared s1 v) c2 ([] ++ (pi_Pod <$> evicted s1 v)) 0)
    as (c3 & vs2 & num2 & Hr2); [by apply unspared_nodup|done|done|].
  rewrite Hr2. cbn [mbind outcome_bind]. do 4 eexists. split; [done|]. right. split; [done|]. exists c1. by rewrite Hf.
Qed.
End DryRun.

(** The order of importance, as far as it does not depend on the clock. *)
Definition by_priority (a b : PodInfo) : Prop := PodPriority (pi_Pod b) ≤ PodPriority (pi_Pod a).
#[export] Instance by_priority_dec a b : Decision (by_priority a b).
Proof. unfold by_priority. apply _. Defined.

Lemma sorted_sublist {A} (R : relation A) (l k : list A) : l `sublist_of` k → StronglySorted R k → StronglySorted R l.
Proof.
  induction 1 as [|x l k Hs IH|x l k Hs IH]; intros Hk; [constructor|..]; apply StronglySorted_inv in Hk as [Hk Hx].
  - constructor; [by apply IH|]. rewrite Forall_forall in *. intros y Hy. apply Hx. by eapply sublist_subseteq.
  - by apply IH.
Qed.

(** C16. The victims of a node are the right ones.  Take a node whose totals are
    right, with at most 2^31 pods of different UIDs, budgets whose allowed
    disruptions are not negative, and a sort by decreasing priority.  When the
    dry run of the node succeeds, its candidates for eviction are exactly the
    pods of a lower priority; they are considered in two groups, first those
    whose eviction, on top of that of the more important ones, would exceed a
    disruption budget, then the others, each from the highest priority down.
    The pod passes the filters on a node with the pods that are not victims, and
    every victim was found in the way: with it beside the pods of no lower
    priority and those spared before it, the pod does not pass them.  The number
    returned is that of the victims of the first group. *)
Theorem victims_exact {Data : Type} (clone : Data → Data) lsci overhead nominated range sortVictims
    (fwk : frameworkImpl Data) pod (c : config Data) pdbs c' victims num st :
  (∀ l, sortVictims l ≡ₚ l) → (∀ l, StronglySorted by_priority (sortVictims l)) →
  Forall (λ pdb, 0 ≤ DisruptionsAllowed pdb < 2 ^ 31) pdbs → Z.of_nat (length (Pods (cf_node c))) ≤ 2 ^ 31 →
  ni_wf lsci overhead (cf_node c) → NoDup (pod_UID <$> node_pods (cf_node c)) →
  selectVictimsOnNode clone lsci overhead nominated range sortVictims fwk pod c pdbs = Ret (c', victims, num, st) →
  IsSuccess st = true →
  let pods := Pods (cf_node c) in
  ∃ viol nonviol spare,
    pdb_split pdbs [] (sortVictims (low pod pods)) = (viol, nonviol) ∧ viol ++ nonviol ≡ₚ low pod pods ∧
    StronglySorted by_priority viol ∧ StronglySorted by_priority nonviol ∧
    reprieved clone lsci overhead nominated range fwk c pod (high pod pods) (viol ++ nonviol) spare ∧
    victims = pi_Pod <$> evicted spare (viol ++ nonviol) ∧ num = Z.of_nat (length (evicted spare viol)).
Proof.
  intros Hperm Hsort Hpdb Hlen Hwf Hnd Hsel Hst pods. unfold node_pods in Hnd. rewrite <- list_fmap_compose in Hnd.
  destruct (select_spec clone lsci overhead nominated range sortVictims Hperm fwk pod c pdbs c' victims num st Hwf Hnd Hsel Hst)
    as (_ & Hg & spare & Hsp & Hv & Hn).
  exists (filterPodsWithPDBViolation (sortVictims (low pod pods)) pdbs).1,
    (filterPodsWithPDBViolation (sortVictims (low pod pods)) pdbs).2, spare.
  destruct (pdb_groups_perm pdbs (sortVictims (low pod pods)) (DisruptionsAllowed <$> pdbs)) as (_ & H1 & H2).
  split_and!; try done; [|by eapply sorted_sublist..].
  rewrite <- surjective_pairing. symmetry. apply (filterPods_split pdbs (length pods)).
  - eapply Forall_impl; [exact Hpdb|]. cbv beta. intros pdb Hb. subst pods. lia.
  - rewrite (Permutation_length (Hperm _)). apply length_filter.
Qed.

(** The dry run of a node returns: with pods that have distinct non-empty
    UIDs and extensions of the pre-filters that do not fail, it does not panic
    and reports no error of its own.  It says that preemption cannot help if no
    pod has a lower priority; otherwise it succeeds if and only if the pod passes
    the filters on a node with just the pods of no lower priority, and if it does
    not, returns what the filters said. *)
Lemma victims_total {Data : Type} (clone : Data → Data) lsci overhead nominated range sortVictims
    (fwk : frameworkImpl Data) pod (c : config Data) pdbs nd :
  (∀ l, sortVictims l ≡ₚ l) → extensions_succeed fwk → ni_wf lsci overhead (cf_node c) → node (cf_node c) = Some nd →
  NoDup (pod_UID <$> node_pods (cf_node c)) → Forall (λ p, pod_UID p ≠ EmptyString) (node_pods (cf_node c)) →
  ∃ c' victims num st,
    selectVictimsOnNode clone lsci overhead nominated range sortVictims fwk pod c pdbs = Ret (c', victims, num, st) ∧
    ((low pod (Pods (cf_node c)) = [] ∧ status_Code st = UnschedulableAndUnresolvable) ∨
     (low pod (Pods (cf_node c)) ≠ [] ∧
      ∃ c1, holds lsci overhead fwk c (high pod (Pods (cf_node c))) c1 ∧
        let s1 := fits clone lsci overhead nominated range fwk pod c1 in
        if IsSuccess s1 then IsSuccess st = true else st = s1)).
Proof.
  intros Hperm Hext Hwf Hnode Hnd Hne. unfold node_pods in *. rewrite <- list_fmap_compose in Hnd. rewrite Forall_fmap in Hne.
  by apply (select_total clone lsci overhead nominated range sortVictims Hperm fwk Hext pod c pdbs nd).
Qed.

(** ** A node to run on *)

Definition victim_pod (name : string) (priority milli : Z) (labels : Labels) : Pod :=
  mkPod name "ns" ("uid-" +:+ name) "1" labels [mkContainer [] (sample_requests milli 16)] [] None "n" None (Some priority)
    "" "" ∅ [] ∅ [] [] None [] None None [] "" (Some priority) [].

Definition preemptor : Pod := victim_pod "pre" 10 600 ∅.

(** The database pod may not be disrupted; the lowest is not in the way of the
    others but of the preemptor. *)
Definition victim_node : NodeInfo :=
  (SetNode true (NewNodeInfo true true
     [victim_pod "low" 0 200 ∅; victim_pod "db" 1 500 {["app" := "db"]}; victim_pod "web" 3 300 ∅] 0).1
     (mkNode "n" ∅ (<["pods" := NewQuantity 110 DecimalSI]> (sample_requests 1000 (2 ^ 30))) [] false [] []) 4).1.

Definition db_budget : PodDisruptionBudget := mkPDB "ns" (Some (mkLabelSelector {["app" := "db"]} [])) 0 ∅.

Definition victim_framework : frameworkImpl Resource :=
  mkFramework [mkPreFilter "NodeResourcesFit" (NodeResourcesFit.PreFilter true true id) None]
    [mkFilter "NodeResourcesFit" (λ state _ ni, NodeResourcesFit.Filter Some (λ _, EmptyString) ∅ ∅ state ni)]
    [] [] [] [] [] [] [] ∅ false.

Definition victim_config : config Resource :=
  mkConfig (RunPreFilterPlugins victim_framework ∅ preemptor).1 victim_node 5.

Definition sort_priority : list PodInfo → list PodInfo := merge_sort by_priority.

Local Abbreviation victim_run :=
  (selectVictimsOnNode id true true (λ _, []) (λ m, (map_to_list m).*1) sort_priority victim_framework preemptor victim_config
    [db_budget]).

Definition run_victims : list string :=
  match victim_run with Ret (_, vs, _, _) => pod_Name <$> vs | Panic => [] end.

Lemma NewNodeInfo_wf lsci overhead pods g : ni_wf lsci overhead (NewNodeInfo lsci overhead pods g).1.
Proof.
  unfold NewNodeInfo. pose proof (empty_wf lsci overhead g) as Hwf. unfold NewNodeInfo in Hwf. cbn [foldl] in Hwf.
  set (start := (_, nextGeneration g)) in *. clearbody start. revert start Hwf.
  induction pods as [|pod pods IH]; intros [n g'] Hwf; [done|]. cbn [foldl]. apply IH. by apply AddPodInfo_wf.
Qed.

Lemma victim_node_wf : ni_wf true true victim_node.
Proof. apply SetNode_wf, NewNodeInfo_wf. Qed.

Lemma sort_priority_sorted l : StronglySorted by_priority (sort_priority l).
Proof. apply StronglySorted_merge_sort; unfold by_priority; [intros x y z; lia|intros x y; lia]. Qed.

Lemma victims_exact_witness :
  run_victims = ["db"; "low"] ∧
  ∃ spare, reprieved id true true (λ _, []) (λ m, (map_to_list m).*1) victim_framework victim_config preemptor []
    (NewPodInfo <$> [victim_pod "db" 1 500 {["app" := "db"]}; victim_pod "web" 3 300 ∅; victim_pod "low" 0 200 ∅]) spare.
Proof.
  split; [vm_compute; reflexivity|].
  assert (match victim_run with Ret (_, _, _, st) => IsSuccess st | Panic => false end = true) as Hok by (vm_compute; reflexivity).
  destruct victim_run as [[[[c' vs] num] st]|] eqn:Hrun; [|discriminate Hok].
  destruct (victims_exact id true true (λ _, []) (λ m, (map_to_list m).*1) sort_priority victim_framework preemptor
    victim_config [db_budget] c' vs num st) as (viol & nonviol & spare & Hs & _ & _ & _ & Hr & _).
  - intros l. apply merge_sort_Permutation.
  - apply sort_priority_sorted.
  - repeat constructor; vm_compute; congruence.
  - vm_compute. discriminate.
  - apply victim_node_wf.
  - apply (bool_decide_eq_true_1 _). vm_compute. reflexivity.
  - exact Hrun.
  - exact Hok.
  - assert (pdb_split [db_budget] [] (sort_priority (low preemptor (Pods victim_node))) =
      (NewPodInfo <$> [victim_pod "db" 1 500 {["app" := "db"]}], NewPodInfo <$> [victim_pod "web" 3 300 ∅; victim_pod "low" 0 200 ∅]))
      as E by (vm_compute; reflexivity).
    assert (high preemptor (Pods victim_node) = []) as Eh by (vm_compute; reflexivity).
    cbn [cf_node victim_config] in Hs, Hr. rewrite E in Hs. injection Hs as <- <-. rewrite Eh in Hr. by exists spare.
Defined.

Lemma victims_total_witness :
  ∃ c' victims num st,
    selectVictimsOnNode id true true (λ _, []) (λ m, (map_to_list m).*1) sort_priority victim_framework preemptor victim_config
      [db_budget] = Ret (c', victims, num, st) ∧ low preemptor (Pods victim_node) ≠ [].
Proof.
  destruct (victims_total id true true (λ _, []) (λ m, (map_to_list m).*1) sort_priority victim_framework preemptor
    victim_config [db_budget] (mkNode "n" ∅ (<["pods" := NewQuantity 110 DecimalSI]> (sample_requests 1000 (2 ^ 30))) [] false [] []))
    as (c' & vs & num & st & Hrun & _).
  - intros l. apply merge_sort_Permutation.
  - intros pl ext Hpl. apply list_elem_of_singleton in Hpl as ->. discriminate.
  - apply victim_node_wf.
  - reflexivity.
  - apply (bool_decide_eq_true_1 _). vm_compute. reflexivity.
  - apply (bool_decide_eq_true_1 _). vm_compute. reflexivity.
  - exists c', vs, num, st. split; [exact Hrun|]. vm_compute. discriminate.
Defined.
