(* ===== verification/DryRun.v ===== *)
(** * The dry runs of the nodes: [dryRunPreemption]

    The goroutines that look for candidates, as pieces of work of
    [Parallelizer]: the atomic actions of [checkNode] on the two lists of
    candidates, the statuses and the context.  What the dry run of one node
    returns does not depend on the others. *)

From S2P Require Import Prelude ApiTypes NodeInfo FwkStatus Parallelizer Framework Preemption.
#[local] Open Scope Z_scope.

(** ** Lists of candidates *)

Record candidateList := mkCL { cl_idx : Z; cl_items : list (option candidate) }.

(** [make] panics on a negative size. *)
Definition newCandidateList (size : Z) : outcome candidateList :=
  if size <? 0 then Panic else Ret (mkCL (-1) (replicate (Z.to_nat size) None)).

Definition cl_size (cl : candidateList) : Z :=
  let n := int32 (cl_idx cl + 1) in
  let len := int32 (Z.of_nat (length (cl_items cl))) in
  if len <=? n then len else n.

Definition cl_get (cl : candidateList) : list (option candidate) := take (Z.to_nat (cl_size cl)) (cl_items cl).

(** ** The goroutines *)

(** What the goroutines share; [dr_crashed] records an index out of range. *)
Record dry := mkDry {
  nonViolatingCandidates : candidateList;
  violatingCandidates : candidateList;
  nodeStatuses : gmap string Status;
  dr_canceled : bool;
  dr_crashed : bool;
}.

Definition list_of (s : dry) (v : bool) : candidateList := if v then violatingCandidates s else nonViolatingCandidates s.
Definition set_list (s : dry) (v : bool) (cl : candidateList) : dry :=
  if v then mkDry (nonViolatingCandidates s) cl (nodeStatuses s) (dr_canceled s) (dr_crashed s)
  else mkDry cl (violatingCandidates s) (nodeStatuses s) (dr_canceled s) (dr_crashed s).

(** Where a goroutine is in [checkNode]: before the dry run, in [add] of a list
    before and after its counter is raised, at the two sizes, at [cancel], or
    before the status is stored. *)
Inductive dry_action :=
| DCheck (i : nat)
| DAdd (v : bool) (i : nat)
| DStore (v : bool) (i : nat) (idx : Z)
| DSizeN
| DSizeV (nvcSize : Z)
| DCancel
| DNote (i : nat) (status : Status).

Section Dry.
(** The name of the node of a piece, and what its dry run returns. *)
Context (name_at : nat → string) (result_at : nat → list Pod * Z * option Status).
Context (numCandidates : nat).
Implicit Types s : dry.

Definition cand_at (i : nat) : candidate :=
  mkCandidate (mkVictims (result_at i).1.1 (result_at i).1.2) (name_at i).

Definition checkNode (a : dry_action) (s : dry) : dry * option dry_action :=
  match a with
  | DCheck i =>
      let '(_, numPDBViolations, status) := result_at i in
      if IsSuccess status then (s, Some (DAdd (negb (numPDBViolations =? 0)) i))
      else match status with Some st => (s, Some (DNote i st)) | None => (s, None) end
  | DAdd v i =>
      let cl := list_of s v in
      let idx := int32 (cl_idx cl + 1) in
      let s := set_list s v (mkCL idx (cl_items cl)) in
      if idx <? int32 (Z.of_nat (length (cl_items cl))) then (s, Some (DStore v i idx)) else (s, Some DSizeN)
  | DStore v i idx =>
      let cl := list_of s v in
      if bool_decide (0 ≤ idx < Z.of_nat (length (cl_items cl)))
      then (set_list s v (mkCL (cl_idx cl) (<[Z.to_nat idx := Some (cand_at i)]> (cl_items cl))), Some DSizeN)
      else (mkDry (nonViolatingCandidates s) (violatingCandidates s) (nodeStatuses s) (dr_canceled s) true, None)
  | DSizeN => (s, Some (DSizeV (cl_size (nonViolatingCandidates s))))
  | DSizeV nvcSize =>
      let vcSize := cl_size (violatingCandidates s) in
      if (0 <? nvcSize) && (Z.of_nat numCandidates <=? int32 (nvcSize + vcSize)) then (s, Some DCancel) else (s, None)
  | DCancel =>
      (mkDry (nonViolatingCandidates s) (violatingCandidates s) (nodeStatuses s) true (dr_crashed s), None)
  | DNote i st =>
      (mkDry (nonViolatingCandidates s) (violatingCandidates s) (<[name_at i := st]> (nodeStatuses s)) (dr_canceled s)
         (dr_crashed s), None)
  end.

Definition dry_rank (a : dry_action) : nat :=
  match a with DCheck _ => 5 | DAdd _ _ => 4 | DStore _ _ _ => 3 | DSizeN => 2 | DSizeV _ => 1 | _ => 0 end.

Lemma dry_rank_falls a s s' a' : checkNode a s = (s', Some a') → (dry_rank a' < dry_rank a)%nat.
Proof.
  destruct a as [i|v i|v i idx| |n| |i st]; simpl; try (by intros [= <- <-]; simpl; lia).
  - destruct (result_at i) as [[? ?] st]. destruct (IsSuccess st); [intros [= <- <-]; simpl; lia|].
    destruct st; [|done]. intros [= <- <-]; simpl; lia.
  - destruct (_ <? _); intros [= <- <-]; simpl; lia.
  - case_bool_decide; [intros [= <- <-]; simpl; lia|done].
  - destruct (_ && _); [intros [= <- <-]; simpl; lia|done].
Qed.

Lemma dry_cancel_stays a s : dr_canceled s = true → dr_canceled (checkNode a s).1 = true.
Proof. destruct a as [|[] ?|[] ? ?| | | |]; simpl; repeat case_match; done. Qed.

(** The shared variables before the first dry run. *)
Definition start_dry : dry :=
  mkDry (mkCL (-1) (replicate numCandidates None)) (mkCL (-1) (replicate numCandidates None)) ∅ false false.

(** What [dryRunPreemption] returns. *)
Definition dry_result (s : dry) : list (option candidate) * gmap string Status :=
  (cl_get (nonViolatingCandidates s) ++ cl_get (violatingCandidates s), nodeStatuses s).

(** ** The invariant *)

Context (pieces : nat) (width : 2 * Z.of_nat numCandidates + Z.of_nat pieces < 2 ^ 31).
Context (names : ∀ i j, (i < pieces)%nat → (j < pieces)%nat → name_at i = name_at j → i = j).
Implicit Types (st : pool dry dry_action) (added : bool → list nat).

Definition dry_success (i : nat) : Prop := status_Code (result_at i).2 = Success.
Definition dry_violating (i : nat) : bool := negb ((result_at i).1.2 =? 0).
Definition dry_failure (i : nat) (f : Status) : Prop := (result_at i).2 = Some f ∧ code f ≠ Success.

#[export] Instance dry_success_dec i : Decision (dry_success i).
Proof. unfold dry_success. apply _. Defined.

(** How many candidates a list holds once [added] are in it. *)
Definition held added (v : bool) : nat := Nat.min numCandidates (length (added v)).
Definition enough added : Prop := (0 < held added false)%nat ∧ (numCandidates ≤ held added false + held added true)%nat.

Definition dry_ok added (a : dry_action) (p : nat) : Prop :=
  match a with
  | DCheck i => i = p
  | DAdd v i => i = p ∧ dry_success p ∧ dry_violating p = v
  | DStore v i idx => i = p ∧ dry_success p ∧ ∃ k, idx = Z.of_nat k ∧ (k < numCandidates)%nat ∧ added v !! k = Some p
  | DSizeN => dry_success p ∧ p ∈ added (dry_violating p)
  | DSizeV n => dry_success p ∧ p ∈ added (dry_violating p) ∧ 0 ≤ n ≤ Z.of_nat (held added false)
  | DCancel => dry_success p ∧ p ∈ added (dry_violating p) ∧ enough added
  | DNote i f => i = p ∧ dry_failure p f
  end.

Definition is_late (a : dry_action) : bool := match a with DCheck _ | DAdd _ _ | DNote _ _ => false | _ => true end.

(** [added v] are the nodes that have raised the counter of the list, in their
    order. *)
Record dry_inv st added : Prop := {
  di_idx v : cl_idx (list_of (shared st) v) = Z.of_nat (length (added v)) - 1;
  di_len v : length (cl_items (list_of (shared st) v)) = numCandidates;
  di_nodup v : NoDup (added v);
  di_added v i : i ∈ added v → (i < pieces)%nat ∧ dry_success i ∧ dry_violating i = v ∧
    (i ∈ finished st ∨ ∃ a, at_work st a i ∧ is_late a = true);
  di_item v k x : cl_items (list_of (shared st) v) !! k = Some (Some x) → ∃ i, added v !! k = Some i ∧ x = cand_at i;
  di_filled v k i : added v !! k = Some i → (k < numCandidates)%nat →
    cl_items (list_of (shared st) v) !! k = Some (Some (cand_at i)) ∨ at_work st (DStore v i (Z.of_nat k)) i;
  di_work a p : at_work st a p → dry_ok added a p;
  di_success i : i ∈ finished st → dry_success i → i ∈ added (dry_violating i);
  di_failure i f : i ∈ finished st → dry_failure i f → nodeStatuses (shared st) !! name_at i = Some f;
  di_status x f : nodeStatuses (shared st) !! x = Some f →
    ∃ i, (i < pieces)%nat ∧ i ∈ finished st ∧ name_at i = x ∧ dry_failure i f;
  di_cancel : dr_canceled (shared st) = true → enough added;
  di_safe : dr_crashed (shared st) = false;
}.

Lemma list_of_set s v cl w : list_of (set_list s v cl) w = if Bool.eqb v w then cl else list_of s w.
Proof. by destruct v, w. Qed.

Lemma set_list_other s v cl :
  nodeStatuses (set_list s v cl) = nodeStatuses s ∧ dr_canceled (set_list s v cl) = dr_canceled s ∧
  dr_crashed (set_list s v cl) = dr_crashed s.
Proof. by destruct v. Qed.

Lemma ok_mono added added' a p :
  (∀ v, added v `prefix_of` added' v) → dry_ok added a p → dry_ok added' a p.
Proof.
  intros Hpre. assert (∀ v i, i ∈ added v → i ∈ added' v) as Hel by (intros v i; destruct (Hpre v) as [k ->]; set_solver).
  assert (∀ v, (held added v ≤ held added' v)%nat) as Hheld.
  { intros v. unfold held. pose proof (prefix_length _ _ (Hpre v)). lia. }
  assert (enough added → enough added') as Hen.
  { unfold enough. intros [? ?]. pose proof (Hheld false). pose proof (Hheld true). lia. }
  destruct a as [i|v i|v i idx| |n| |i f]; simpl; try done.
  - intros (-> & ? & k & -> & ? & Hk). split_and!; [done..|]. exists k. split_and!; [done..|]. by eapply prefix_lookup_Some.
  - intros [? ?]. split; [done|]. by apply Hel.
  - intros (? & ? & ?). split_and!; [done|by apply Hel|lia|]. pose proof (Hheld false). lia.
  - intros (? & ? & ?). split_and!; [done|by apply Hel|by apply Hen].
Qed.

Lemma size_held st added v : dry_inv st added → (length (added v) ≤ pieces)%nat →
  cl_size (list_of (shared st) v) = Z.of_nat (held added v).
Proof.
  intros Hi Hl. unfold cl_size. rewrite (di_idx _ _ Hi v), (di_len _ _ Hi v), !int32_id by lia. unfold held.
  destruct (Z.leb_spec (Z.of_nat numCandidates) (Z.of_nat (length (added v)) - 1 + 1)); lia.
Qed.

Lemma added_few st added v : dry_inv st added → (length (added v) ≤ pieces)%nat.
Proof.
  intros Hi. rewrite <- (length_seq pieces 0). apply submseteq_length, NoDup_submseteq; [apply Hi|].
  intros i Hin. apply (di_added _ _ Hi) in Hin as [? _]. apply elem_of_seq. lia.
Qed.

Lemma dry_nothing st st' added :
  shared st' = shared st → finished st' = finished st → (∀ a p, at_work st' a p ↔ at_work st a p) →
  dry_inv st added → dry_inv st' added.
Proof.
  intros Hs Hf Hw []. split; rewrite ?Hs, ?Hf; try done; setoid_rewrite Hw; done.
Qed.

Lemma dry_begin st st' added p :
  shared st' = shared st → finished st' = finished st →
  (∀ a q, at_work st' a q ↔ (q = p ∧ a = DCheck p) ∨ (q ≠ p ∧ at_work st a q)) → (∀ a, ¬ at_work st a p) →
  dry_inv st added → dry_inv st' added.
Proof.
  intros Hs Hf Hw Hnone [].
  assert (∀ a q, at_work st a q → at_work st' a q) as Hmono.
  { intros a q Hat. apply Hw. right. split; [|done]. intros ->. by eapply Hnone. }
  split; rewrite ?Hs, ?Hf; try done.
  - intros v i Hi. destruct (di_added0 v i Hi) as (? & ? & ? & [?|(a & ? & ?)]); eauto 8.
  - intros v k i Hk Hlt. destruct (di_filled0 v k i Hk Hlt) as [?|?]; eauto.
  - intros a q [[-> ->]|[_ Hat]]%Hw; [done|by apply di_work0].
Qed.

(** *** The actions of a piece *)

Section Act.
Context (st st' : pool dry dry_action) (added : bool → list nat) (a : dry_action) (p : nat) (s' : dry) (o : option dry_action).
Context (Hat : at_work st a p) (Huniq : ∀ b, at_work st b p → b = a).
Context (Hwork : checkNode a (shared st) = (s', o)) (Hshared : shared st' = s').
Context (Hfin : finished st' = finished st ++ match o with Some _ => [] | None => [p] end).
Context (Hw : ∀ b q, at_work st' b q ↔ (q = p ∧ o = Some b) ∨ (q ≠ p ∧ at_work st b q)).
Context (Hnf : p ∉ finished st) (Hp : (p < pieces)%nat) (Hbound : ∀ i, i ∈ finished st → (i < pieces)%nat).
Context (Hinv : dry_inv st added).

Lemma dry_fin_inv i : i ∈ finished st' → i ∈ finished st ∨ i = p ∧ o = None.
Proof.
  rewrite Hfin. intros [?|Hi]%elem_of_app; [by left|right]. destruct o; [by apply not_elem_of_nil in Hi|].
  by apply list_elem_of_singleton in Hi.
Qed.

(** A piece that is past its addition, or has just come there, stays so. *)
Lemma dry_late_mono i :
  (i = p → o = None ∨ ∃ b, o = Some b ∧ is_late b = true) →
  (i ∈ finished st ∨ ∃ b, at_work st b i ∧ is_late b = true) →
  i ∈ finished st' ∨ ∃ b, at_work st' b i ∧ is_late b = true.
Proof.
  intros Hip [Hi|(b & Hb & Hl)]; [left; rewrite Hfin; apply elem_of_app; by left|].
  destruct (decide (i = p)) as [->|Hne]; [|right; exists b; split; [apply Hw; by right|done]].
  destruct (Hip eq_refl) as [Ho|(b' & Ho & ?)]; [left; rewrite Hfin, Ho; set_solver|right].
  exists b'. split; [apply Hw; by left|done].
Qed.

(** What the others are at stays right when the lists only grow. *)
Lemma dry_others added' :
  (∀ v, added v `prefix_of` added' v) → (∀ b, o = Some b → dry_ok added' b p) →
  ∀ b q, at_work st' b q → dry_ok added' b q.
Proof.
  intros Hpre Hb b q [[-> Ho]|[_ Hold]]%Hw; [by apply Hb|]. by eapply ok_mono, (di_work _ _ Hinv).
Qed.

(** A store that is under way stays so, unless it is this one. *)
Lemma dry_store_mono v i idx : (∀ v i idx, a ≠ DStore v i idx) → at_work st (DStore v i idx) i → at_work st' (DStore v i idx) i.
Proof. intros Ha Hst. apply Hw. right. split; [|done]. intros ->. apply Huniq in Hst. by eapply Ha. Qed.

(** An action that changes neither the lists nor the statuses; [o] is [None]
    only behind an addition. *)
Lemma dry_quiet :
  (∀ v, list_of s' v = list_of (shared st) v) → nodeStatuses s' = nodeStatuses (shared st) →
  dr_crashed s' = dr_crashed (shared st) → (dr_canceled s' = true → enough added) →
  (∀ v i idx, a ≠ DStore v i idx) → (is_late a = true → ∀ b, o = Some b → is_late b = true) →
  (∀ b, o = Some b → dry_ok added b p) → (o = None → dry_success p ∧ p ∈ added (dry_violating p)) → dry_inv st' added.
Proof.
  intros Hl Hn Hc Hca Hst Hlate Hok Hnone.
  pose proof dry_late_mono as Hlm. pose proof (dry_others added ltac:(done) Hok) as Hoth. pose proof dry_store_mono as Hsm.
  pose proof dry_fin_inv as Hfi.
  assert (∀ i, i ∈ finished st → i ∈ finished st') as Hfm by (intros i Hi; rewrite Hfin; apply elem_of_app; by left).
  destruct Hinv. split; rewrite ?Hshared; try setoid_rewrite Hl; rewrite ?Hn, ?Hc; try done.
  - intros v i Hi. destruct (di_added0 v i Hi) as (? & ? & ? & Hs). split_and!; [done..|]. apply Hlm; [|done].
    intros ->. destruct o as [b|] eqn:Ho; [right|by left]. exists b. split; [done|]. apply Hlate; [|done].
    destruct Hs as [?|(c & ->%Huniq & ?)]; done.
  - intros v k i Hk Hlt. destruct (di_filled0 v k i Hk Hlt) as [?|?]; [by left|right]. by apply Hsm.
  - intros i [Hi|[-> Ho]]%Hfi Hs; [by apply di_success0|]. by apply Hnone.
  - intros i f [Hi|[-> Ho]]%Hfi Hf; [by apply di_failure0|]. destruct (Hnone Ho) as [Hs _].
    destruct Hf as [Hf1 Hf2]. unfold dry_success in Hs. by rewrite Hf1 in Hs.
  - intros x f (i & ? & ? & ? & ?)%di_status0. exists i. auto.
Qed.

Lemma dry_act_check i : a = DCheck i → dry_inv st' added.
Proof.
  intros Ha. pose proof (di_work _ _ Hinv a p Hat) as Hok. rewrite Ha in Hok. simpl in Hok. subst i.
  pose proof Hwork as Hwk. rewrite Ha in Hwk. simpl in Hwk.
  destruct (result_at p) as [[pods num] status] eqn:Hr.
  assert (s' = shared st ∧ ∃ b, o = Some b ∧ dry_ok added b p) as (Hs & b & Ho & Hb).
  { destruct (IsSuccess status) eqn:Hs.
    - injection Hwk as <- <-. split; [done|]. eexists. split; [done|]. simpl. unfold dry_success, dry_violating. rewrite Hr.
      by apply IsSuccess_spec in Hs.
    - destruct status as [f|]; [|done]. injection Hwk as <- <-. split; [done|]. eexists. split; [done|]. split; [done|].
      unfold dry_failure. rewrite Hr. split; [done|]. by apply bool_decide_eq_false in Hs. }
  apply dry_quiet; rewrite ?Hs, ?Ho; try done; [apply Hinv|by rewrite Ha|by rewrite Ha|by intros b' [= <-]].
Qed.

Lemma dry_act_size : a = DSizeN → dry_inv st' added.
Proof.
  intros Ha. pose proof (di_work _ _ Hinv a p Hat) as Hok. rewrite Ha in Hok.
  pose proof Hwork as Hwk. rewrite Ha in Hwk. injection Hwk as Hs Ho.
  pose proof (size_held st added false Hinv (added_few st added false Hinv)) as Hsz. cbn [list_of] in Hsz.
  apply dry_quiet; rewrite <- ?Hs, <- ?Ho; try done; [apply Hinv|by rewrite Ha|by intros _ b [= <-]|].
  intros b [= <-]. destruct Hok as [? ?]. split_and!; [done|done|rewrite Hsz; lia..].
Qed.

Lemma dry_act_sizes n : a = DSizeV n → dry_inv st' added.
Proof.
  intros Ha. pose proof (di_work _ _ Hinv a p Hat) as Hok. rewrite Ha in Hok. destruct Hok as (Hsu & Hin & Hn).
  pose proof Hwork as Hwk. rewrite Ha in Hwk. simpl in Hwk.
  pose proof (size_held st added true Hinv (added_few st added true Hinv)) as Hsz. cbn [list_of] in Hsz. rewrite Hsz in Hwk.
  assert (s' = shared st ∧ (o = None ∨ o = Some DCancel ∧ enough added)) as [Hs Ho].
  { rewrite int32_id in Hwk by (unfold held in *; lia).
    destruct (Z.ltb_spec 0 n), (Z.leb_spec (Z.of_nat numCandidates) (n + Z.of_nat (held added true))); simpl in Hwk;
      injection Hwk as <- <-; (split; [done|]); [right|by left..]. split; [done|]. unfold enough. lia. }
  apply dry_quiet; rewrite ?Hs; try done; [apply Hinv|by rewrite Ha|..].
  - intros _ b Hb. destruct Ho as [Ho|[Ho _]]; rewrite Ho in Hb; [done|by injection Hb as <-].
  - intros b Hb. destruct Ho as [Ho|[Ho ?]]; rewrite Ho in Hb; [done|by injection Hb as <-].
Qed.

Lemma dry_act_cancel : a = DCancel → dry_inv st' added.
Proof.
  intros Ha. pose proof (di_work _ _ Hinv a p Hat) as Hok. rewrite Ha in Hok. destruct Hok as (Hsu & Hin & Hen).
  pose proof Hwork as Hwk. rewrite Ha in Hwk. injection Hwk as Hs Ho.
  apply dry_quiet; rewrite <- ?Hs, <- ?Ho; try done. by rewrite Ha.
Qed.

Lemma dry_act_note i f : a = DNote i f → dry_inv st' added.
Proof.
  intros Ha. pose proof (di_work _ _ Hinv a p Hat) as Hok. rewrite Ha in Hok. destruct Hok as (-> & Hfail).
  pose proof Hwork as Hwk. rewrite Ha in Hwk. simpl in Hwk. injection Hwk as Hs Ho.
  assert (∀ i, i ∈ finished st → name_at i ≠ name_at p) as Hnm by (intros i Hi He; apply names in He; [congruence|auto..]).
  assert (p ∈ finished st') as Hpf by (rewrite Hfin, <- Ho; set_solver).
  assert (∀ v, list_of s' v = list_of (shared st) v) as Hl by (by rewrite <- Hs).
  pose proof dry_late_mono as Hlm. pose proof (dry_others added ltac:(done)) as Hoth. pose proof dry_store_mono as Hsm.
  pose proof dry_fin_inv as Hfi.
  assert (∀ i, i ∈ finished st → i ∈ finished st') as Hfm by (intros j Hj; rewrite Hfin; apply elem_of_app; by left).
  destruct Hinv. split; rewrite ?Hshared; try setoid_rewrite Hl; try (by rewrite <- Hs); try done.
  - intros v i Hi. destruct (di_added0 v i Hi) as (? & ? & ? & Hs'). split_and!; [done..|]. apply Hlm; [|done]. intros _. by left.
  - intros v k i Hk Hlt. destruct (di_filled0 v k i Hk Hlt) as [?|?]; [by left|right]. apply Hsm; [by rewrite Ha|done].
  - apply Hoth. intros b Hb. by rewrite <- Ho in Hb.
  - intros i [Hi|[-> _]]%Hfi Hsu; [by apply di_success0|]. destruct Hfail as [Hf1 Hf2]. unfold dry_success in Hsu. by rewrite Hf1 in Hsu.
  - intros i f' Hi Hf'. rewrite <- Hs. simpl. apply Hfi in Hi as [Hi|[-> _]].
    + rewrite lookup_insert_ne by (apply not_eq_sym; auto). by apply di_failure0.
    + destruct Hf' as [Hf' _], Hfail as [Hf _]. rewrite lookup_insert_eq. congruence.
  - intros x f'. rewrite <- Hs. simpl. intros [[<- <-]|[_ Hx]]%lookup_insert_Some; [by exists p|].
    destruct (di_status0 x f' Hx) as (i & ? & ? & ? & ?). exists i. auto.
Qed.

Lemma dry_act_store v i idx : a = DStore v i idx → dry_inv st' added.
Proof.
  intros Ha. pose proof (di_work _ _ Hinv a p Hat) as Hok. rewrite Ha in Hok. destruct Hok as (-> & Hsu & k & -> & Hk & Hadd).
  pose proof Hwork as Hwk. rewrite Ha in Hwk. simpl in Hwk. rewrite (di_len _ _ Hinv v) in Hwk.
  rewrite bool_decide_true in Hwk by lia. rewrite Nat2Z.id in Hwk. injection Hwk as Hs Ho.
  destruct (set_list_other (shared st) v (mkCL (cl_idx (list_of (shared st) v))
    (<[k := Some (cand_at p)]> (cl_items (list_of (shared st) v))))) as (Hn & Hca & Hcr). rewrite Hs in Hn, Hca, Hcr.
  assert (∀ w, list_of s' w = if Bool.eqb v w then mkCL (cl_idx (list_of (shared st) v))
    (<[k := Some (cand_at p)]> (cl_items (list_of (shared st) v))) else list_of (shared st) w) as Hl
    by (intros w; rewrite <- Hs; apply list_of_set).
  assert (dry_violating p = v) as Hv.
  { apply list_elem_of_lookup_2 in Hadd. by apply (di_added _ _ Hinv) in Hadd as (_ & _ & ? & _). }
  pose proof dry_late_mono as Hlm. pose proof (dry_others added ltac:(done)) as Hoth.
  assert (finished st' = finished st) as Hf by (rewrite Hfin, <- Ho; apply app_nil_r).
  destruct Hinv. split; rewrite ?Hshared, ?Hf, ?Hn, ?Hca, ?Hcr; try done.
  - intros w. rewrite Hl. destruct (Bool.eqb v w) eqn:E; [apply Bool.eqb_prop in E as <-; simpl|]; apply di_idx0.
  - intros w. rewrite Hl. destruct (Bool.eqb v w) eqn:E; [apply Bool.eqb_prop in E as <-; simpl; rewrite length_insert|]; apply di_len0.
  - intros w i Hi. destruct (di_added0 w i Hi) as (? & ? & ? & Hs'). split_and!; [done..|]. rewrite <- Hf. apply Hlm; [|done].
    intros _. right. by exists DSizeN.
  - intros w j x. rewrite Hl. destruct (Bool.eqb v w) eqn:E; [apply Bool.eqb_prop in E as <-; simpl|apply di_item0].
    intros [(<- & [= <-] & _)|[_ ?]]%list_lookup_insert_Some; [by exists p|by apply di_item0].
  - intros w j i Hj Hlt. rewrite Hl. destruct (decide (i = p)) as [->|Hne].
    + assert (w = v) as -> by (apply list_elem_of_lookup_2, di_added0 in Hj as (_ & _ & <- & _); done).
      assert (j = k) as -> by (eapply NoDup_lookup; [apply di_nodup0|done..]).
      rewrite Bool.eqb_reflx. left. simpl. apply list_lookup_insert_eq. by rewrite di_len0.
    + destruct (di_filled0 w j i Hj Hlt) as [Hit|Hw']; [left|right; apply Hw; by right].
      destruct (Bool.eqb v w) eqn:E; [apply Bool.eqb_prop in E as <-; simpl|done]. rewrite list_lookup_insert_ne; [done|].
      intros ->. congruence.
  - apply Hoth. intros b Hb. rewrite <- Ho in Hb. injection Hb as <-. split; [done|]. rewrite Hv. by eapply list_elem_of_lookup_2.
Qed.

Definition raise (v : bool) : bool → list nat := λ w, if Bool.eqb v w then added v ++ [p] else added w.

Lemma dry_act_add v i : a = DAdd v i → dry_inv st' (raise v).
Proof.
  intros Ha. pose proof (di_work _ _ Hinv a p Hat) as Hok. rewrite Ha in Hok. destruct Hok as (-> & Hsu & Hv).
  pose proof Hwork as Hwk. rewrite Ha in Hwk. simpl in Hwk.
  assert (p ∉ added v) as Hnot.
  { intros Hin. apply (di_added _ _ Hinv) in Hin as (_ & _ & _ & [?|(b & ->%Huniq & Hl)]); [done|by rewrite Ha in Hl]. }
  pose proof (added_few st added v Hinv) as Hfew.
  rewrite (di_idx _ _ Hinv v), (di_len _ _ Hinv v), !int32_id in Hwk by lia.
  set (cl := mkCL (Z.of_nat (length (added v)) - 1 + 1) (cl_items (list_of (shared st) v))) in Hwk.
  assert (s' = set_list (shared st) v cl ∧ ∃ b, o = Some b ∧ is_late b = true ∧ dry_ok (raise v) b p ∧
    ((length (added v) < numCandidates)%nat → b = DStore v p (Z.of_nat (length (added v))))) as (Hs & b & Ho & Hlb & Hb & Hst).
  { destruct (Z.ltb_spec (Z.of_nat (length (added v)) - 1 + 1) (Z.of_nat numCandidates)) as [Hlt|Hge]; injection Hwk as <- <-;
      (split; [done|]); eexists; (split; [done|]); (split; [done|]); unfold raise; simpl; rewrite ?Hv, Bool.eqb_reflx.
    - split; [|intros _; f_equal; lia]. split_and!; [done|done|]. exists (length (added v)). split_and!; [lia|lia|]. by apply list_lookup_middle.
    - split; [|lia]. split; [done|]. set_solver. }
  destruct (set_list_other (shared st) v cl) as (Hn & Hca & Hcr). rewrite <- Hs in Hn, Hca, Hcr.
  assert (∀ w, list_of s' w = if Bool.eqb v w then cl else list_of (shared st) w) as Hl by (intros w; rewrite Hs; apply list_of_set).
  assert (∀ w, added w `prefix_of` raise v w) as Hpre.
  { intros w. unfold raise. destruct (Bool.eqb v w) eqn:E; [apply Bool.eqb_prop in E as <-; by eexists|done]. }
  pose proof dry_late_mono as Hlm. pose proof (dry_others (raise v) Hpre) as Hoth. pose proof dry_store_mono as Hsm.
  assert (finished st' = finished st) as Hf by (rewrite Hfin, Ho; apply app_nil_r).
  assert (at_work st' b p) as Hbp by (apply Hw; by left).
  destruct Hinv. split; rewrite ?Hshared, ?Hf, ?Hn, ?Hca, ?Hcr; try done.
  - intros w. rewrite Hl. unfold raise. destruct (Bool.eqb v w) eqn:E; [simpl; rewrite length_app; simpl; lia|apply di_idx0].
  - intros w. rewrite Hl. destruct (Bool.eqb v w) eqn:E; [apply di_len0|apply di_len0].
  - intros w. unfold raise. destruct (Bool.eqb v w) eqn:E; [|done]. apply NoDup_app. split_and!; [done| |apply NoDup_singleton].
    intros x Hx ->%list_elem_of_singleton. done.
  - intros w i Hi. unfold raise in Hi. rewrite <- Hf.
    assert (i ∈ added w ∨ i = p ∧ w = v) as [Hi'|[-> ->]].
    { destruct (Bool.eqb v w) eqn:E; [apply Bool.eqb_prop in E as <-|by left]. apply elem_of_app in Hi as [?|Hi]; [by left|].
      apply list_elem_of_singleton in Hi. by right. }
    + destruct (di_added0 w i Hi') as (? & ? & ? & Hs'). split_and!; [done..|]. apply Hlm; [|done]. intros _. right. by exists b.
    + split_and!; [done..|]. right. by exists b.
  - intros w k x. rewrite Hl. unfold raise. destruct (Bool.eqb v w) eqn:E; [apply Bool.eqb_prop in E as <-; simpl|apply di_item0].
    intros (i & Hk & ->)%di_item0. exists i. split; [by apply lookup_app_l_Some|done].
  - intros w k i Hk Hlt. rewrite Hl. unfold raise in Hk.
    assert (added w !! k = Some i ∨ w = v ∧ k = length (added v) ∧ i = p) as [Hk'|(-> & -> & ->)].
    { destruct (Bool.eqb v w) eqn:E; [apply Bool.eqb_prop in E as <-|by left].
      apply lookup_app_Some in Hk as [?|[? Hk]]; [by left|right]. apply list_lookup_singleton_Some in Hk as [? ->].
      split_and!; [done|lia|done]. }
    + destruct (di_filled0 w k i Hk' Hlt) as [Hit|Hw']; [left|right; apply Hsm; [by rewrite Ha|done]].
      destruct (Bool.eqb v w) eqn:E; [apply Bool.eqb_prop in E as <-|]; done.
    + right. by rewrite <- Hst.
  - apply Hoth. intros b' Hb'. rewrite Ho in Hb'. by injection Hb' as <-.
  - intros i Hi Hs'. apply (di_success0 i) in Hs'; [|done]. destruct (Hpre (dry_violating i)) as [k ->]. set_solver.
  - intros [? ?]%di_cancel0. unfold enough, held in *. pose proof (prefix_length _ _ (Hpre false)).
    pose proof (prefix_length _ _ (Hpre true)). lia.
Qed.

Lemma dry_act_any : ∃ added', dry_inv st' added'.
Proof.
  assert (∃ b, a = b) as [b Ha] by eauto. destruct b as [i|v i|v i idx| |n| |i f].
  - exists added. by apply (dry_act_check i).
  - exists (raise v). by apply (dry_act_add v i).
  - exists added. by apply (dry_act_store v i idx).
  - exists added. by apply dry_act_size.
  - exists added. by apply (dry_act_sizes n).
  - exists added. by apply dry_act_cancel.
  - exists added. by apply (dry_act_note i f).
Qed.
End Act.

(** *** Every interleaving *)

Context (chunkSize : nat) (chunk_pos : (0 < chunkSize)%nat).
Local Abbreviation pool_inv := (pool_inv dr_canceled chunkSize pieces).
Local Abbreviation steps := (pool_step dr_canceled DCheck checkNode chunkSize pieces).

Lemma dry_step i st st' added : pool_inv st → dry_inv st added → steps st i st' → ∃ added', dry_inv st' added'.
Proof.
  intros Hpool Hs Hst. assert (∀ j, j ∈ finished st → (j < pieces)%nat) as Hfin.
  { by apply (finished_ok _ _ _ chunk_pos st Hpool). }
  destruct (advance_move _ _ _ _ _ chunk_pos dry_cancel_stays i st st' Hpool Hst)
    as [H1 H2 H3 H4|p H1 H2 H3 H4 H5 H6 H7 H8|a p s o H1 H2 H3 H4 H5 H6 H7 H8].
  - exists added. by eapply dry_nothing.
  - exists added. by eapply (dry_begin st st' added p).
  - eapply (dry_act_any st st' added a p s o); try done.
    intros b (j & last & Hj). destruct H1 as (j' & last' & Hj').
    assert (j = j') as -> by (by eapply working_once). congruence.
Qed.

Lemma start_dry_inv workers : dry_inv (ParallelizeUntil chunkSize pieces workers start_dry) (λ _, []).
Proof.
  set (st := ParallelizeUntil _ _ _ _).
  assert (shared st = start_dry ∧ finished st = [] ∧ ∀ j g, goroutines st !! j = Some g → g = Fetch) as (Hs & Hf & Hg).
  { unfold st, ParallelizeUntil. destruct (pieces =? 0)%nat; [done|]. split_and!; [done|done|].
    intros j g Hj. simpl in Hj. by apply lookup_replicate in Hj as [-> _]. }
  assert (∀ a p, ¬ at_work st a p) as Hn by (intros a p (j & last & Hj); by apply Hg in Hj).
  split; rewrite ?Hs, ?Hf; simpl; try done; try (by intros ? ?%not_elem_of_nil); try (by intros ? ? ?%not_elem_of_nil).
  - by intros [].
  - intros []; simpl; apply length_replicate.
  - constructor.
  - intros [] k x Hk; simpl in Hk; by apply lookup_replicate in Hk as [? _].
  - intros a p Hat. by destruct (Hn a p).
Qed.

Lemma dry_trace workers order st :
  (0 < workers)%nat → trace steps (ParallelizeUntil chunkSize pieces workers start_dry) order st →
  pool_inv st ∧ ∃ added, dry_inv st added.
Proof.
  intros Hw Ht. eapply (trace_invariant _ (λ st, pool_inv st ∧ ∃ added, dry_inv st added)); [|exact Ht|].
  - intros st1 i st2 (H1 & added & H3) Hst. split; [|by eapply dry_step].
    eapply advance_inv; first [exact Hst|exact chunk_pos|exact dry_cancel_stays|done].
  - split; [by apply start_inv|]. exists (λ _, []). apply start_dry_inv.
Qed.

(** What is returned: the candidates of the nodes of [clean], which violate no
    budget, then those of [dirty]. *)
Record candidates_found (s : dry) (clean dirty : list nat) : Prop := {
  ca_result : (dry_result s).1 = (λ i, Some (cand_at i)) <$> (clean ++ dirty);
  ca_nodup : NoDup (clean ++ dirty);
  ca_clean i : i ∈ clean → (i < pieces)%nat ∧ dry_success i ∧ (result_at i).1.2 = 0;
  ca_dirty i : i ∈ dirty → (i < pieces)%nat ∧ dry_success i ∧ (result_at i).1.2 ≠ 0;
  ca_status x f : nodeStatuses s !! x = Some f → ∃ i, (i < pieces)%nat ∧ name_at i = x ∧ dry_failure i f;
  ca_prefers i : (0 < numCandidates)%nat → (i < pieces)%nat → dry_success i → (result_at i).1.2 = 0 → clean ≠ [];
  ca_all i : (length (clean ++ dirty) < numCandidates)%nat → (i < pieces)%nat →
    dry_success i ∧ i ∈ clean ++ dirty ∨ ∃ f, dry_failure i f ∧ nodeStatuses s !! name_at i = Some f;
}.

Lemma list_held st added v :
  dry_inv st added → all_returned st →
  cl_get (list_of (shared st) v) = (λ i, Some (cand_at i)) <$> take numCandidates (added v).
Proof.
  intros Hi Hr. unfold cl_get. rewrite (size_held st added v Hi (added_few st added v Hi)), Nat2Z.id.
  apply list_eq. intros k. rewrite list_lookup_fmap. unfold held.
  destruct (decide (k < numCandidates)%nat) as [Hk|Hk]; [|by rewrite !lookup_take_ge by lia].
  rewrite (lookup_take_lt (added v)) by done. destruct (added v !! k) as [i|] eqn:Ha; simpl.
  - apply lookup_lt_Some in Ha as Hlt. rewrite lookup_take_lt by lia.
    destruct (di_filled _ _ Hi v k i Ha Hk) as [?|(j & last & Hj)]; [done|]. by apply (Forall_lookup_1 _ _ _ _ Hr) in Hj.
  - apply lookup_ge_None in Ha. by rewrite lookup_take_ge by lia.
Qed.

Lemma dry_found st added :
  dry_inv st added → all_returned st → (dr_canceled (shared st) = true ∨ finished st ≡ₚ seq 0 pieces) →
  candidates_found (shared st) (take numCandidates (added false)) (take numCandidates (added true)).
Proof.
  intros Hi Hr Hdone.
  assert (∀ v i, i ∈ take numCandidates (added v) → (i < pieces)%nat ∧ dry_success i ∧ dry_violating i = v) as Hin.
  { intros v i Hx. apply list_elem_of_lookup in Hx as [k [Hx _]%lookup_take_Some]. apply list_elem_of_lookup_2 in Hx.
    by destruct (di_added _ _ Hi v i Hx) as (? & ? & ? & _). }
  assert (∀ i, (i < pieces)%nat → ¬ enough added → i ∈ finished st) as Hfin.
  { intros i Hlt Hen. destruct Hdone as [Hc|Hall]; [by apply (di_cancel _ _ Hi) in Hc|]. rewrite Hall. apply elem_of_seq. lia. }
  assert (∀ v, (0 < numCandidates)%nat → take numCandidates (added v) = [] → added v = []) as Htake.
  { intros v Hnum H. destruct (added v); [done|]. by destruct numCandidates; [lia|]. }
  split.
  - unfold dry_result. cbn [fst]. rewrite fmap_app, <- (list_held st added false), <- (list_held st added true) by done. done.
  - apply NoDup_app. split_and!; [|intros i Ha Hb|];
      [|apply Hin in Ha as (_ & _ & ?), Hb as (_ & _ & ?); congruence|];
      (eapply sublist_NoDup; [apply (di_nodup _ _ Hi)|apply sublist_take]).
  - intros i (? & ? & Hv)%Hin. split_and!; [done..|]. unfold dry_violating in Hv. by apply negb_false_iff, Z.eqb_eq in Hv.
  - intros i (? & ? & Hv)%Hin. split_and!; [done..|]. unfold dry_violating in Hv. by apply negb_true_iff, Z.eqb_neq in Hv.
  - intros x f (i & ? & _ & ? & ?)%(di_status _ _ Hi). eauto.
  - intros i Hnum Hlt Hsu Hz Hnil. apply Htake in Hnil; [|done].
    assert (dry_violating i = false) as Hv by (unfold dry_violating; by rewrite Hz).
    assert (i ∈ added false) as Hia; [|rewrite Hnil in Hia; by apply not_elem_of_nil in Hia].
    rewrite <- Hv. apply (di_success _ _ Hi); [|done]. apply Hfin; [done|]. unfold enough, held. rewrite Hnil. simpl. lia.
  - intros i Hlen Hlt. rewrite length_app, !length_take in Hlen.
    assert (i ∈ finished st) as Hf by (apply Hfin; [done|]; unfold enough, held; lia).
    destruct (decide (dry_success i)) as [Hsu|Hsu].
    + left. split; [done|]. apply (di_success _ _ Hi i Hf) in Hsu. rewrite !take_ge by lia.
      apply elem_of_app. destruct (dry_violating i); [by right|by left].
    + right. unfold dry_success in Hsu. destruct ((result_at i).2) as [f|] eqn:Hst; [|done]. exists f.
      assert (dry_failure i f) as Hfa by (by split). split; [done|]. by apply (di_failure _ _ Hi).
Qed.
End Dry.

(** What [dryRunPreemption] may return on [pieces] nodes: the outcome of a
    complete run of its goroutines. *)
Definition dryRunPreemption_returns (name_at : nat → string) (result_at : nat → list Pod * Z * option Status)
    (numCandidates pieces parallelism : nat) (candidates : list (option candidate)) (statuses : gmap string Status) : Prop :=
  let size := effective_chunk (chunkSizeFor pieces parallelism) in
  ∃ order st,
    trace (pool_step dr_canceled DCheck (checkNode name_at result_at numCandidates) size pieces)
      (ParallelizeUntil size pieces parallelism (start_dry numCandidates)) order st ∧
    all_returned st ∧ (candidates, statuses) = dry_result (shared st).

(** What [dryRunPreemption] may return: the node of piece [i] is that at index
    [(offset + i) % len(potentialNodes)], and its dry run works on copies of the
    node and of the cycle state; [gen i] is the generation counter at its start. *)
Definition dryRunPreemption {Data : Type} (clone : Data → Data) (lsci overhead : bool) (nominated : string → list PodInfo)
    (range : PluginToStatus → list string) (sortVictims : list PodInfo → list PodInfo) (fwk : frameworkImpl Data)
    (parallelism : nat) (state : gmap string Data) (pod : Pod) (potentialNodes : list NodeInfo)
    (pdbs : list PodDisruptionBudget) (offset numCandidates : Z)
    (candidates : list (option candidate)) (statuses : gmap string Status) : Prop :=
  0 ≤ offset ∧ 0 ≤ numCandidates ∧ ∃ gen name_at result_at,
    (∀ i, (i < length potentialNodes)%nat → ∃ ni nd c,
       potentialNodes !! ((Z.to_nat offset + i) mod length potentialNodes)%nat = Some ni ∧
       node ni = Some nd ∧ name_at i = node_Name nd ∧
       selectVictimsOnNode clone lsci overhead nominated range sortVictims fwk pod
         (mkConfig (CycleState_Clone clone state) (Clone ni) (gen i)) pdbs =
         Ret (c, (result_at i).1.1, (result_at i).1.2, (result_at i).2)) ∧
    dryRunPreemption_returns name_at result_at (Z.to_nat numCandidates) (length potentialNodes) parallelism candidates statuses.

Lemma rotation_injective (n off i j : nat) :
  (i < n)%nat → (j < n)%nat → ((off + i) mod n = (off + j) mod n)%nat → i = j.
Proof.
  intros Hi Hj He. pose proof (Nat.div_mod (off + i) n ltac:(lia)). pose proof (Nat.div_mod (off + j) n ltac:(lia)).
  destruct (decide ((off + i) / n = (off + j) / n)%nat); nia.
Qed.

Lemma dry_returns name_at result_at numCandidates pieces parallelism candidates statuses :
  (0 < parallelism)%nat → 2 * Z.of_nat numCandidates + Z.of_nat pieces < 2 ^ 31 →
  (∀ i j, (i < pieces)%nat → (j < pieces)%nat → name_at i = name_at j → i = j) →
  dryRunPreemption_returns name_at result_at numCandidates pieces parallelism candidates statuses →
  ∃ s clean dirty, candidates_found name_at result_at numCandidates pieces s clean dirty ∧
    (candidates, statuses) = dry_result s.
Proof.
  intros Hpar Hwidth Hnames (order & st & Ht & Hr & Heq).
  assert (0 < effective_chunk (chunkSizeFor pieces parallelism))%nat as Hsize
    by (unfold effective_chunk; destruct (Nat.ltb_spec (chunkSizeFor pieces parallelism) 1); lia).
  destruct (dry_trace name_at result_at numCandidates pieces Hwidth Hnames _ Hsize parallelism order st Hpar Ht)
    as [Hpool [added Hi]].
  exists (shared st). do 2 eexists. split; [|exact Heq].
  apply (dry_found name_at result_at numCandidates pieces Hwidth _ Hsize st added Hi Hr).
  by apply (returned_done _ _ _ Hsize).
Qed.

(** The parallel dry runs are exact: however the goroutines interleave, the
    search ends, no access is out of range, and what is returned has no gaps: the
    candidates of different nodes whose dry run succeeded, first those that
    violate no disruption budget.  If some node can be freed without a violation
    there is a candidate without one, and if fewer candidates are returned than
    asked for, every node whose dry run succeeds is among them and the others have
    their statuses. *)
Lemma dry_run_candidates (name_at : nat → string) (result_at : nat → list Pod * Z * option Status)
    (numCandidates pieces parallelism : nat) order st :
  (0 < parallelism)%nat → 2 * Z.of_nat numCandidates + Z.of_nat pieces < 2 ^ 31 →
  (∀ i j, (i < pieces)%nat → (j < pieces)%nat → name_at i = name_at j → i = j) →
  let size := effective_chunk (chunkSizeFor pieces parallelism) in
  let start := ParallelizeUntil size pieces parallelism (start_dry numCandidates) in
  let step := pool_step dr_canceled DCheck (checkNode name_at result_at numCandidates) size pieces in
  trace step start order st →
  (length order ≤ total_weight size pieces dry_rank 5 start)%nat ∧
  (all_returned st ∨ ∃ i st', step st i st') ∧
  dr_crashed (shared st) = false ∧
  (all_returned st → ∃ clean dirty, candidates_found name_at result_at numCandidates pieces (shared st) clean dirty).
Proof.
  intros Hpar Hwidth Hnames size start step Ht.
  assert (0 < size)%nat as Hsize by (unfold size, effective_chunk; destruct (Nat.ltb_spec (chunkSizeFor pieces parallelism) 1); lia).
  destruct (dry_trace name_at result_at numCandidates pieces Hwidth Hnames size Hsize parallelism order st Hpar Ht)
    as [Hpool [added Hi]].
  split; [|split; [|split]].
  - pose proof (steps_bounded dr_canceled DCheck (checkNode name_at result_at numCandidates) size pieces Hsize
      dry_rank 5 ltac:(done) (dry_rank_falls _ _ _) _ _ _ Ht). lia.
  - destruct (decide (all_returned st)) as [Hr|Hr]; [by left|right]. by apply can_advance.
  - apply (di_safe _ _ _ _ _ _ Hi).
  - intros Hr. do 2 eexists. apply (dry_found name_at result_at numCandidates pieces Hwidth size Hsize st added Hi Hr).
    by apply (returned_done _ _ _ Hsize).
Qed.

(** Three nodes: one can be freed with a violation, one without, the last not. *)
Definition dry_sample (i : nat) : list Pod * Z * option Status :=
  match i with
  | 0%nat => ([], 1, None) | 1%nat => ([], 0, None) | _ => ([], 0, Some (NewStatus Unschedulable ["Insufficient cpu"%string]))
  end.
Definition dry_name (i : nat) : string := match i with 0%nat => "a" | 1%nat => "b" | _ => "c" end.

Local Abbreviation dry_size := (effective_chunk (chunkSizeFor 3 2)).
Definition dry_start : pool dry dry_action := ParallelizeUntil dry_size 3 2 (start_dry 2).
Definition dry_order : list nat := [0; 1; 0; 1; 0; 1; 0; 1; 0; 1; 0; 1; 0; 1; 0; 1; 0; 1; 0; 0; 1]%nat.
Definition dry_pool : pool dry dry_action :=
  default dry_start (foldl (λ o i, o ≫= advance dr_canceled DCheck (checkNode dry_name dry_sample 2) dry_size 3 i)
                       (Some dry_start) dry_order).


Lemma dry_run_candidates_witness :
  all_returned dry_pool ∧ (dry_result (shared dry_pool)).1 = [Some (cand_at dry_name dry_sample 1); Some (cand_at dry_name dry_sample 0)] ∧
  ∃ clean dirty, candidates_found dry_name dry_sample 2 3 (shared dry_pool) clean dirty.
Proof.
  assert (all_returned dry_pool) as Hr by (vm_compute; repeat constructor). split; [exact Hr|].
  split; [vm_compute; reflexivity|].
  destruct (dry_run_candidates dry_name dry_sample 2 3 2 dry_order dry_pool) as (_ & _ & _ & H).
  - lia.
  - lia.
  - intros i j Hi Hj. destruct i as [|[|[|i]]], j as [|[|[|j]]]; try done; lia.
  - apply run_pool_trace. vm_compute. reflexivity.
  - by apply H.
Defined.

(** ** A scheduler to run with *)

(** The first goroutine that can take a step takes it. *)
Fixpoint run_first {Sh Act} (adv : nat → pool Sh Act → option (pool Sh Act)) (workers fuel : nat) (st : pool Sh Act)
    : pool Sh Act :=
  match fuel with
  | O => st
  | S fuel =>
      match list_find (λ i, is_Some (adv i st)) (seq 0 workers) with
      | Some (_, i) => run_first adv workers fuel (default st (adv i st))
      | None => st
      end
  end.

Lemma run_first_trace {Sh Act} (adv : nat → pool Sh Act → option (pool Sh Act)) workers fuel : ∀ st,
  ∃ order, trace (λ st i st', adv i st = Some st') st order (run_first adv workers fuel st).
Proof.
  induction fuel as [|fuel IH]; intros st; cbn [run_first]; [exists []; constructor|].
  destruct (list_find _ _) as [[k i]|] eqn:Hf; [|exists []; constructor].
  apply list_find_Some in Hf as (_ & [st' Hst'] & _). rewrite Hst'. simpl.
  destruct (IH st') as [order Ho]. exists (i :: order). by econstructor.
Qed.

Section Exec.
Context {Data : Type} (clone : Data → Data) (lsci overhead : bool) (nominated : string → list PodInfo).
Context (range : PluginToStatus → list string) (sortVictims : list PodInfo → list PodInfo) (fwk : frameworkImpl Data).
Context (parallelism : nat) (state : gmap string Data) (gen : Z).

Definition select_at (pod : Pod) (nodes : list NodeInfo) (pdbs : list PodDisruptionBudget) (offset : nat) (i : nat)
    : option (string * (list Pod * Z * option Status)) :=
  ni ← nodes !! ((offset + i) mod length nodes)%nat;
  nd ← node ni;
  match selectVictimsOnNode clone lsci overhead nominated range sortVictims fwk pod
          (mkConfig (CycleState_Clone clone state) (Clone ni) gen) pdbs with
  | Ret (_, victims, num, st) => Some (node_Name nd, (victims, num, st))
  | Panic => None
  end.

Definition dryRun_first (pod : Pod) (nodes : list NodeInfo) (pdbs : list PodDisruptionBudget) (offset num : Z)
    : outcome (list candidate * gmap string Status) :=
  let results := select_at pod nodes pdbs (Z.to_nat offset) <$> seq 0 (length nodes) in
  if bool_decide (0 ≤ offset) && bool_decide (0 ≤ num) && bool_decide (Forall is_Some results) then
    let name_at i := from_option fst EmptyString (mjoin (results !! i)) in
    let result_at i := from_option snd ([], 0, None) (mjoin (results !! i)) in
    let size := effective_chunk (chunkSizeFor (length nodes) parallelism) in
    let adv := advance dr_canceled DCheck (checkNode name_at result_at (Z.to_nat num)) size (length nodes) in
    let start := ParallelizeUntil size (length nodes) parallelism (start_dry (Z.to_nat num)) in
    let st := run_first adv parallelism (total_weight size (length nodes) dry_rank 5 start) start in
    match mapM id (dry_result (shared st)).1 with
    | Some candidates =>
        if bool_decide (all_returned st) then Ret (candidates, nodeStatuses (shared st)) else Panic
    | None => Panic
    end
  else Panic.

Lemma mapM_id_Some {A} (l : list (option A)) k : mapM id l = Some k → l = Some <$> k.
Proof.
  revert k. induction l as [|[a|] l IH]; intros k; simpl; [by intros [= <-]| |done].
  destruct (mapM id l) as [k'|]; [|done]. simpl. intros [= <-]. rewrite fmap_cons. f_equal. by apply IH.
Qed.

Lemma dryRun_first_returns pod nodes pdbs offset num candidates statuses :
  dryRun_first pod nodes pdbs offset num = Ret (candidates, statuses) →
  dryRunPreemption clone lsci overhead nominated range sortVictims fwk parallelism state pod nodes pdbs offset num
    (Some <$> candidates) statuses.
Proof.
  unfold dryRun_first. set (results := select_at pod nodes pdbs _ <$> _).
  do 3 (case_bool_decide; cbn [andb]; [|done]). set (st := run_first _ _ _ _).
  destruct (mapM id _) as [k|] eqn:Hm; [|done]. case_bool_decide as Hr; [|done]. intros [= -> <-].
  apply mapM_id_Some in Hm.
  split; [done|]. split; [done|]. exists (λ _, gen). do 2 eexists. split.
  2: { destruct (run_first_trace _ _ _ _ : ∃ order, trace _ _ order st) as [order Ho]. exists order, st.
       split; [exact Ho|]. split; [done|]. by rewrite <- Hm. }
  intros i Hi. destruct (results !! i) as [r|] eqn:Hri.
  2: { apply lookup_ge_None in Hri. unfold results in Hri. rewrite length_fmap, length_seq in Hri. lia. }
  destruct (Forall_lookup_1 _ _ _ _ H1 Hri) as [[name res] ->]. rewrite Hri. simpl.
  unfold results in Hri. rewrite list_lookup_fmap, lookup_seq_lt in Hri by done. simpl in Hri. injection Hri as Hsel.
  unfold select_at in Hsel. destruct (nodes !! _) as [ni|]; [|done]. simpl in Hsel. destruct (node ni) as [nd|] eqn:Hnd; [|done].
  simpl in Hsel. destruct (selectVictimsOnNode _ _ _ _ _ _ _ _ _ _) as [[[[c vs] n] s]|] eqn:Hs; [|done]. injection Hsel as <- <-.
  by exists ni, nd, c.
Qed.
End Exec.
