(* ===== verification/PickNode.v ===== *)
(** * The choice of the node to preempt on: [pickOneNodeForPreemption]

    The chosen node is the best one in the lexicographic order of the criteria
    the code goes through. *)

From S2P Require Import Prelude ApiTypes NodeInfo SchedQueue Preemption Victims.
#[local] Open Scope Z_scope.
#[local] Open Scope list_scope.

(** ** Least values *)

Section Least.
Context {A : Type}.
Implicit Types (k : A → Z) (ks : list (A → Z)) (l : list A) (x y : A).

(** [l'] are the elements of [l] with the least value of [k], and there are
    some. *)
Definition least_by k l l' : Prop :=
  l' ≠ [] ∧ ∀ x, x ∈ l' ↔ x ∈ l ∧ ∀ y, y ∈ l → k x ≤ k y.

Lemma min_step_fold (key : A → outcome Z) k l : ∀ least acc seen,
  (∀ x, x ∈ l → key x = Ret (k x)) →
  (∀ x, x ∈ acc ↔ x ∈ seen ∧ k x = least) → (∀ x, x ∈ seen → least ≤ k x) →
  ∃ least' acc', foldl (min_step key) (Ret (least, acc)) l = Ret (least', acc') ∧ (least' = least ∨ ∃ x, x ∈ l ∧ k x = least') ∧
    (∀ x, x ∈ acc' ↔ x ∈ seen ++ l ∧ k x = least') ∧ (∀ x, x ∈ seen ++ l → least' ≤ k x).
Proof.
  induction l as [|a l IH]; intros least acc seen Hkey Hacc Hle.
  { exists least, acc. rewrite app_nil_r. split_and!; [done|by left|done..]. }
  cbn [foldl]. unfold min_step at 2. cbn [mbind outcome_bind]. rewrite (Hkey a) by by left. cbn [mbind outcome_bind].
  assert (∀ x, x ∈ l → key x = Ret (k x)) as Hkey' by (intros x Hx; apply Hkey; by right).
  rewrite (cons_middle a), app_assoc. destruct (Z.ltb_spec (k a) least) as [Hlt|Hge].
  - rewrite Z.eqb_refl. destruct (IH (k a) ([] ++ [a]) (seen ++ [a]) Hkey') as (least' & acc' & H1 & H2 & H3 & H4).
    + intros x. simpl. rewrite list_elem_of_singleton, elem_of_app, list_elem_of_singleton. split; [intros ->; by split; [right|]|].
      intros [[Hx| ->] He]; [specialize (Hle x Hx); lia|done].
    + intros x [Hx| ->%list_elem_of_singleton]%elem_of_app; [specialize (Hle x Hx); lia|lia].
    + exists least', acc'. split_and!; [done| |done..]. right.
      destruct H2 as [->|(x & ? & ?)]; [exists a; split; [by left|done]|exists x; split; [by right|done]].
  - destruct (IH least (if k a =? least then acc ++ [a] else acc) (seen ++ [a]) Hkey') as (least' & acc' & H1 & H2 & H3 & H4).
    + intros x. destruct (Z.eqb_spec (k a) least) as [He|Hne]; rewrite !elem_of_app, !list_elem_of_singleton, Hacc.
      * split; [intros [[? ?]| ->]; by split; auto|]. intros [[?| ->] ?]; [by left|by right].
      * split; [intros [? ?]; by split; [left|]|]. intros [[?| ->] ?]; [done|lia].
    + intros x [Hx| ->%list_elem_of_singleton]%elem_of_app; [by apply Hle|lia].
    + exists least', acc'. split_and!; [done| |done..]. destruct H2 as [?|(x & ? & ?)]; [by left|right]. exists x. split; [by right|done].
Qed.

Lemma min_nodes_least (key : A → outcome Z) k start l :
  l ≠ [] → (∀ x, x ∈ l → key x = Ret (k x) ∧ k x ≤ start) → ∃ l', min_nodes key start l = Ret l' ∧ least_by k l l'.
Proof.
  intros Hne Hk. unfold min_nodes.
  destruct (min_step_fold key k l start [] []) as (least & acc & -> & Hls & Hacc & Hle); [by intros x []%Hk|set_solver|set_solver|].
  cbn [mbind outcome_bind]. exists acc. split; [done|]. simpl in Hacc, Hle.
  assert (∃ x, x ∈ l ∧ k x = least) as (x0 & Hx0 & Hk0).
  { destruct Hls as [->|?]; [|done]. destruct l as [|x l]; [done|]. exists x. split; [by left|].
    destruct (Hk x) as [_ ?]; [by left|]. specialize (Hle x (list_elem_of_here _ _)). lia. }
  split; [intros ->; by apply (not_elem_of_nil x0), Hacc|].
  intros x. rewrite Hacc. split.
  - intros [Hx Hkx]. split; [done|]. intros y Hy. rewrite Hkx. by apply Hle.
  - intros [Hx Hmin]. split; [done|]. specialize (Hmin x0 Hx0). specialize (Hle x Hx). lia.
Qed.

(** The lexicographic order of a list of criteria. *)
Fixpoint lex ks x y : Prop :=
  match ks with
  | [] => True
  | k :: ks => k x < k y ∨ k x = k y ∧ lex ks x y
  end.

Definition ties ks x y : Prop := Forall (λ k, k x = k y) ks.

Lemma lex_refl ks x : lex ks x x.
Proof. induction ks as [|k ks IH]; [done|]. by right. Qed.

Lemma lex_app ks ks' x y : lex ks x y → (ties ks x y → lex ks' x y) → lex (ks ++ ks') x y.
Proof.
  induction ks as [|k ks IH]; simpl; intros Hl Ht; [by apply Ht; constructor|].
  destruct Hl as [?|[He Hl]]; [by left|right]. split; [done|]. apply IH; [done|]. intros Hti. apply Ht. by constructor.
Qed.

(** [l] are the best elements of [l0] by the criteria [ks]. *)
Definition optimal ks l0 l : Prop :=
  l ≠ [] ∧ ∀ x, x ∈ l → x ∈ l0 ∧ ∀ y, y ∈ l0 → lex ks x y ∧ (ties ks x y → y ∈ l).

Lemma optimal_start l0 : l0 ≠ [] → optimal [] l0 l0.
Proof. done. Qed.

Lemma optimal_step ks k l0 l l' : optimal ks l0 l → least_by k l l' → optimal (ks ++ [k]) l0 l'.
Proof.
  intros [_ Hopt] [Hne Hl']. split; [done|]. intros x [Hx Hmin]%Hl'. destruct (Hopt x Hx) as [Hx0 Hlex]. split; [done|].
  intros y Hy. destruct (Hlex y Hy) as [Hl Ht]. split.
  - apply lex_app; [done|]. intros Hti. specialize (Hmin y (Ht Hti)). simpl. lia.
  - intros [Hti [Hk _]%Forall_cons]%Forall_app. cbv beta in Hk. apply Hl'. split; [by apply Ht|]. intros z Hz.
    rewrite <- Hk. by apply Hmin.
Qed.

(** A single best element stays so by any further criteria. *)
Lemma optimal_single ks l0 x : optimal ks l0 [x] → x ∈ l0 ∧ ∀ ks' y, y ∈ l0 → lex (ks ++ ks') x y ∧ (ties ks x y → y = x).
Proof.
  intros [_ Hopt]. destruct (Hopt x) as [Hx Hlex]; [by left|]. split; [done|]. intros ks' y Hy. destruct (Hlex y Hy) as [Hl Ht].
  assert (ties ks x y → y = x) as Ht' by (intros Hti; by apply list_elem_of_singleton, Ht).
  split; [|done]. apply lex_app; [done|]. intros ->%Ht'. apply lex_refl.
Qed.
End Least.

(** ** Start times *)

Definition started (pods : list Pod) : Prop := Forall (λ pod, is_Some (pod_StartTime pod)) pods.

(** [t] is the earliest start of the pods with the highest priority. *)
Definition earliest_start (pods : list Pod) (t : Z) : Prop :=
  ∃ pod, pod ∈ pods ∧ pod_StartTime pod = Some t ∧
    ∀ q, q ∈ pods → PodPriority q ≤ PodPriority pod ∧
      (PodPriority q = PodPriority pod → ∀ t', pod_StartTime q = Some t' → t ≤ t').

Lemma earliest_fold clock reads pods : ∀ seen t prio,
  started pods → (∃ pod, pod ∈ seen ∧ pod_StartTime pod = Some t ∧ PodPriority pod = prio) →
  (∀ q, q ∈ seen → PodPriority q ≤ prio ∧ (PodPriority q = prio → ∀ t', pod_StartTime q = Some t' → t ≤ t')) →
  ∃ t' prio', foldl (earliest_step clock) (t, prio, reads) pods = (t', prio', reads) ∧ earliest_start (seen ++ pods) t'.
Proof.
  induction pods as [|p pods IH]; intros seen t prio Hst (pod & Hin & Ht & Hp) Hall.
  { exists t, prio. rewrite app_nil_r. split; [done|]. exists pod. rewrite Hp. done. }
  apply Forall_cons in Hst as [[tp Htp] Hst]. cbn [foldl]. rewrite (cons_middle p), app_assoc.
  assert (∀ t0 prio0, (∃ pod, pod ∈ seen ++ [p] ∧ pod_StartTime pod = Some t0 ∧ PodPriority pod = prio0) →
    (∀ q, q ∈ seen ++ [p] → PodPriority q ≤ prio0 ∧ (PodPriority q = prio0 → ∀ t', pod_StartTime q = Some t' → t0 ≤ t')) →
    earliest_step clock (t, prio, reads) p = (t0, prio0, reads) →
    ∃ t' prio', foldl (earliest_step clock) (earliest_step clock (t, prio, reads) p) pods = (t', prio', reads) ∧
      earliest_start ((seen ++ [p]) ++ pods) t') as Hnext by (intros t0 prio0 H1 H2 ->; by apply IH).
  assert (∀ t0 prio0, (∀ q, q ∈ seen → PodPriority q ≤ prio0 ∧ (PodPriority q = prio0 → ∀ t', pod_StartTime q = Some t' → t0 ≤ t')) →
    PodPriority p ≤ prio0 → (PodPriority p = prio0 → t0 ≤ tp) →
    ∀ q, q ∈ seen ++ [p] → PodPriority q ≤ prio0 ∧ (PodPriority q = prio0 → ∀ t', pod_StartTime q = Some t' → t0 ≤ t')) as Hext.
  { intros t0 prio0 H1 H2 H3 q [Hq| ->%list_elem_of_singleton]%elem_of_app; [by apply H1|]. split; [done|].
    intros He t' Ht'. rewrite Htp in Ht'. injection Ht' as <-. by apply H3. }
  unfold earliest_step, GetPodStartTime in Hnext |- *. rewrite Htp in Hnext |- *.
  destruct (Z.eqb_spec (PodPriority p) prio) as [He|Hne]; [destruct (Z.ltb_spec tp t)|destruct (Z.ltb_spec prio (PodPriority p))];
    eapply Hnext; try done.
  - exists p. set_solver.
  - apply Hext; [|lia|lia]. intros q Hq. destruct (Hall q Hq) as [? Hq']. split; [done|]. intros E t' Ht'. specialize (Hq' E t' Ht'). lia.
  - exists pod. set_solver.
  - by apply Hext; [|lia|lia].
  - exists p. set_solver.
  - apply Hext; [|lia|lia]. intros q Hq. destruct (Hall q Hq) as [? _]. split; lia.
  - exists pod. set_solver.
  - by apply Hext; [|lia|lia].
Qed.

Lemma earliest_spec clock reads v :
  v_Pods v ≠ [] → started (v_Pods v) →
  ∃ t, GetEarliestPodStartTime clock reads v = (Some t, reads) ∧ earliest_start (v_Pods v) t.
Proof.
  unfold GetEarliestPodStartTime. destruct (v_Pods v) as [|pod pods]; [done|]. intros _ Hst.
  pose proof Hst as [[t Ht] _]%Forall_cons. unfold GetPodStartTime at 1. rewrite Ht.
  destruct (earliest_fold clock reads (pod :: pods) [pod] t (PodPriority pod)) as (t' & prio & -> & He); [done|..].
  - exists pod. set_solver.
  - intros q ->%list_elem_of_singleton. split; [lia|]. intros _ t' Ht'. rewrite Ht in Ht'. injection Ht' as <-. lia.
  - exists t'. split; [done|]. destruct He as (p & Hp & Hpt & Hq). exists p. split_and!; [set_solver|done|].
    intros q Hin. apply Hq. set_solver.
Qed.

Lemma earliest_unique pods t t' : earliest_start pods t → earliest_start pods t' → t = t'.
Proof.
  intros (p & Hp & Ht & Hall) (p' & Hp' & Ht' & Hall').
  destruct (Hall p' Hp') as [H1 H2], (Hall' p Hp) as [H3 H4].
  assert (PodPriority p = PodPriority p') as He by lia. specialize (H2 ltac:(lia) t' Ht'). specialize (H4 He t Ht). lia.
Qed.

(** ** The criteria *)

Definition first_priority (v : Victims) : Z := from_option PodPriority 0 (head (v_Pods v)).

(** All priorities are made non-negative before they are added. *)
Definition priority_sum (v : Victims) : Z := zsum (λ pod, PodPriority pod + 2 ^ 31) (v_Pods v).

Definition criteria (m : gmap string Victims) : list (string → Z) :=
  [λ n, NumPDBViolations (victims_of m n); λ n, first_priority (victims_of m n); λ n, priority_sum (victims_of m n);
   λ n, Z.of_nat (length (v_Pods (victims_of m n)))].

(** There is a victim, and the numbers are those of 32-bit integers. *)
Definition victims_fine (v : Victims) : Prop :=
  v_Pods v ≠ [] ∧ 0 ≤ NumPDBViolations v ≤ MaxInt32 ∧ Z.of_nat (length (v_Pods v)) ≤ MaxInt32 ∧
  Forall (λ pod, - 2 ^ 31 ≤ PodPriority pod ≤ MaxInt32) (v_Pods v).

Lemma sum_priorities_exact m n :
  victims_fine (victims_of m n) →
  sum_priorities m n = priority_sum (victims_of m n) ∧ priority_sum (victims_of m n) ≤ max_int64.
Proof.
  intros (_ & _ & Hlen & Hpr). unfold sum_priorities, priority_sum.
  assert (∀ l acc, Forall (λ pod, - 2 ^ 31 ≤ PodPriority pod ≤ MaxInt32) l → 0 ≤ acc →
    acc + Z.of_nat (length l) * (2 ^ 32 - 1) ≤ max_int64 →
    foldl (λ s pod, int64 (s + int64 (PodPriority pod + (MaxInt32 + 1)))) acc l = acc + zsum (λ pod, PodPriority pod + 2 ^ 31) l ∧
    acc + zsum (λ pod, PodPriority pod + 2 ^ 31) l ≤ max_int64) as Hgen.
  { clear. induction l as [|p l IH]; intros acc Hl H0 Hb; cbn [foldl zsum foldr length] in *; [unfold zsum; simpl; lia|].
    apply Forall_cons in Hl as [Hp Hl]. unfold MaxInt32 in *.
    assert (int64 (acc + int64 (PodPriority p + (2 ^ 31 - 1 + 1))) = acc + (PodPriority p + 2 ^ 31)) as ->.
    { rewrite (int64_id (PodPriority p + _)) by (unfold in64, min_int64, max_int64 in *; lia).
      rewrite int64_id by (unfold in64, min_int64, max_int64 in *; lia). lia. }
    destruct (IH (acc + (PodPriority p + 2 ^ 31))) as [-> H]; [done|lia|lia|]. unfold zsum in *. cbn [foldr]. lia. }
  destruct (Hgen (v_Pods (victims_of m n)) 0 Hpr) as [-> H]; [lia| |lia]. unfold MaxInt32, max_int64 in *. lia.
Qed.

Section Pick.
Context (clock : nat → Z) (reads : nat) (range : gmap string Victims → list string).
Context (m : gmap string Victims) (range_keys : range m ≡ₚ (map_to_list m).*1) (some : m ≠ ∅).
Context (fine : ∀ n v, m !! n = Some v → victims_fine v).

Lemma in_range n : n ∈ range m ↔ is_Some (m !! n).
Proof.
  rewrite range_keys, list_elem_of_fmap. split.
  - intros ([n' v] & -> & Hin%elem_of_map_to_list). by exists v.
  - intros [v Hv]. exists (n, v). split; [done|]. by apply elem_of_map_to_list.
Qed.

Lemma range_fine n : n ∈ range m → victims_fine (victims_of m n).
Proof. rewrite in_range. intros [v Hv]. unfold victims_of. rewrite Hv. by apply (fine n). Qed.

Lemma range_some : range m ≠ [].
Proof.
  intros Hr. apply some, map_eq. intros n. rewrite lookup_empty. destruct (m !! n) eqn:Hn; [|done]. exfalso.
  apply (not_elem_of_nil n). rewrite <- Hr. apply in_range. by eexists.
Qed.

(** The nodes left after a round. *)
Lemma round (key : string → outcome Z) k start ks l :
  optimal ks (range m) l → (∀ n, n ∈ range m → key n = Ret (k n) ∧ k n ≤ start) →
  ∃ l', min_nodes key start l = Ret l' ∧ optimal (ks ++ [k]) (range m) l'.
Proof.
  intros Hopt Hk. destruct (min_nodes_least key k start l) as (l' & H1 & H2).
  - apply Hopt.
  - intros n Hn. apply Hk. by apply Hopt.
  - exists l'. split; [done|]. by eapply optimal_step.
Qed.

(** The last round: the latest of the earliest start times. *)
Lemma latest_fold nodes : ∀ n t,
  (∀ x, x ∈ nodes → v_Pods (victims_of m x) ≠ [] ∧ started (v_Pods (victims_of m x))) →
  earliest_start (v_Pods (victims_of m n)) t →
  ∃ n' t', foldl (latest_step clock m) (n, t, reads) nodes = (n', t', reads) ∧ n' ∈ n :: nodes ∧
    earliest_start (v_Pods (victims_of m n')) t' ∧ t ≤ t' ∧
    ∀ x tx, x ∈ nodes → earliest_start (v_Pods (victims_of m x)) tx → tx ≤ t'.
Proof.
  induction nodes as [|x nodes IH]; intros n t Hst Ht; [exists n, t; split_and!; [done|by left|done|done|]; set_solver|].
  cbn [foldl]. unfold latest_step at 2. destruct (Hst x) as [Hx1 Hx2]; [by left|].
  destruct (earliest_spec clock reads (victims_of m x) Hx1 Hx2) as (tx & -> & Htx).
  assert (∀ y, y ∈ nodes → v_Pods (victims_of m y) ≠ [] ∧ started (v_Pods (victims_of m y))) as Hst' by set_solver.
  assert (∀ ty, earliest_start (v_Pods (victims_of m x)) ty → ty = tx) as Hxu by (intros; by eapply earliest_unique).
  destruct (Z.ltb_spec t tx) as [Hlt|Hge].
  - destruct (IH x tx Hst' Htx) as (n' & t' & H1 & H2 & H3 & H4 & H5). exists n', t'. split_and!; [done|by right|done|lia|].
    intros y ty Hy Hty. apply elem_of_cons in Hy as [->|Hy]; [apply Hxu in Hty; lia|by eapply H5].
  - destruct (IH n t Hst' Ht) as (n' & t' & H1 & H2 & H3 & H4 & H5). exists n', t'. split_and!; [done|set_solver|done|lia|].
    intros y ty Hy Hty. apply elem_of_cons in Hy as [->|Hy]; [apply Hxu in Hty; lia|by eapply H5].
Qed.

(** [n] is a best choice. *)
Definition best_choice (n : string) : Prop :=
  n ∈ range m ∧ ∀ y, y ∈ range m → lex (criteria m) n y ∧
    (ties (criteria m) n y → (∀ x, x ∈ range m → started (v_Pods (victims_of m x))) →
     ∀ t t', earliest_start (v_Pods (victims_of m n)) t → earliest_start (v_Pods (victims_of m y)) t' → t' ≤ t).

Lemma single_best ks ks' n : criteria m = ks ++ ks' → optimal ks (range m) [n] → best_choice n.
Proof.
  intros Hc [Hn Hbest]%optimal_single. split; [done|]. intros y Hy. destruct (Hbest ks' y Hy) as [Hl Ht]. rewrite Hc.
  split; [done|]. intros [Hti _]%Forall_app _ t t' He He'. rewrite (Ht Hti) in He'. by rewrite (earliest_unique _ _ _ He He').
Qed.

Lemma several_best (n0 : string) nodes :
  optimal (criteria m) (range m) (n0 :: nodes) → (∀ x, x ∈ range m → v_Pods (victims_of m x) ≠ []) →
  ∃ n, match GetEarliestPodStartTime clock reads (victims_of m n0) with
       | (None, _) => n0
       | (Some t, reads) => (foldl (latest_step clock m) (n0, t, reads) nodes).1.1
       end = n ∧ best_choice n.
Proof.
  intros [_ Hopt] Hne. eexists. split; [done|].
  set (n := match GetEarliestPodStartTime _ _ _ with (_, _) => _ end).
  assert (∀ (acc : string * Z * nat) l, acc.1.1 ∈ n0 :: nodes → l ⊆ nodes → (foldl (latest_step clock m) acc l).1.1 ∈ n0 :: nodes) as Hfold.
  { intros acc l. revert acc. induction l as [|x l IH]; intros [[k t] r] Hacc Hl; [done|]. cbn [foldl]. apply IH; [|set_solver].
    unfold latest_step. destruct (GetEarliestPodStartTime clock r (victims_of m x)) as [[tx|] r']; [|exact Hacc]. destruct (_ <? _); [|exact Hacc].
    simpl. right. apply Hl. by left. }
  assert (n ∈ n0 :: nodes) as Hn.
  { unfold n. destruct (GetEarliestPodStartTime _ _ _) as [[t|] r]; [|by left]. by apply Hfold; [left|]. }
  destruct (Hopt n Hn) as [Hnr Hbest]. split; [done|]. intros y Hy. destruct (Hbest y Hy) as [Hl Ht]. split; [done|].
  intros Hti Hst t t' He He'. specialize (Ht Hti).
  destruct (earliest_spec clock reads (victims_of m n0)) as (t0 & Hg & Ht0); [apply Hne|apply Hst|]; [apply Hopt; by left..|].
  destruct (latest_fold nodes n0 t0) as (n' & tn & Hf & _ & Hen & Hge & Hmax); [|done|].
  { intros x Hx. split; [apply Hne|apply Hst]; apply Hopt; by right. }
  assert (n = n') as <- by (unfold n; by rewrite Hg, Hf). rewrite (earliest_unique _ _ _ He Hen).
  apply elem_of_cons in Ht as [->|Hin]; [rewrite (earliest_unique _ _ _ He' Ht0); lia|by eapply Hmax].
Qed.

Lemma pick_spec : ∃ n, pickOneNodeForPreemption clock reads range m = Ret n ∧ best_choice n.
Proof.
  assert (∀ x, x ∈ range m → v_Pods (victims_of m x) ≠ []) as Hne by (intros x Hx; by apply range_fine).
  unfold pickOneNodeForPreemption. rewrite (proj2 (Nat.eqb_neq _ _)) by (intros E; by apply some, map_size_empty_inv).
  destruct (round (λ n, Ret (NumPDBViolations (victims_of m n))) (λ n, NumPDBViolations (victims_of m n)) MaxInt32 [] (range m))
    as (l1 & -> & H1); [by apply optimal_start, range_some|intros n Hn; split; [done|]; by apply range_fine|].
  cbn [mbind outcome_bind app] in *. set (k1 := λ n, NumPDBViolations _) in *.
  destruct (round (highest_priority m) (λ n, first_priority (victims_of m n)) MaxInt32 [k1] l1) as (l2 & E2 & H2); [done| |].
  { intros n Hn. destruct (range_fine n Hn) as (Hp & _ & _ & Hpr). unfold highest_priority, first_priority.
    destruct (v_Pods (victims_of m n)) as [|pod pods]; [done|]. split; [done|]. by apply Forall_cons in Hpr as [[_ ?] _]. }
  destruct (round (λ n, Ret (sum_priorities m n)) (λ n, priority_sum (victims_of m n)) max_int64 _ l2 H2) as (l3 & E3 & H3).
  { intros n Hn. destruct (sum_priorities_exact m n (range_fine n Hn)) as [-> ?]. done. }
  destruct (round (λ n, Ret (Z.of_nat (length (v_Pods (victims_of m n))))) (λ n, Z.of_nat (length (v_Pods (victims_of m n)))) MaxInt32
    _ l3 H3) as (l4 & E4 & H4); [intros n Hn; split; [done|]; by apply range_fine|].
  cbn [app] in *.
  destruct l1 as [|n1 [|? ?]]; [by destruct H1|exists n1; split; [done|]; by refine (single_best _ (drop 1 (criteria m)) n1 _ H1)|].
  rewrite E2. cbn [mbind outcome_bind].
  destruct l2 as [|n2 [|? ?]]; [by destruct H2|exists n2; split; [done|]; by refine (single_best _ (drop 2 (criteria m)) n2 _ H2)|].
  rewrite E3. cbn [mbind outcome_bind].
  destruct l3 as [|n3 [|? ?]]; [by destruct H3|exists n3; split; [done|]; by refine (single_best _ (drop 3 (criteria m)) n3 _ H3)|].
  rewrite E4. cbn [mbind outcome_bind].
  destruct l4 as [|n4 [|n5 l4]]; [by destruct H4|exists n4; split; [done|]; by refine (single_best _ [] n4 _ H4)|].
  destruct (several_best n4 (n5 :: l4) H4 Hne) as (n & Heq & Hbest). exists n. split; [|done]. rewrite <- Heq.
  by destruct (GetEarliestPodStartTime _ _ _) as [[t|] r].
Qed.
End Pick.

(** C25. Preemption chooses the best node.  Among nodes with at least one victim
    each, and with numbers of violations and victims and priorities of 32 bits,
    the choice terminates without a panic, whatever the order in which the map
    is walked, in a node of the map that comes first in the lexicographic order
    of the number of budget violations, the priority of the first victim, the
    sum of the priorities of the victims (each raised by 2^31) and their number;
    and among nodes that tie in all of these the choice is one whose most
    important victims have started last, if all victims have started. *)
Theorem pick_best clock reads (range : gmap string Victims → list string) m :
  range m ≡ₚ (map_to_list m).*1 → m ≠ ∅ → (∀ n v, m !! n = Some v → victims_fine v) →
  ∃ n, pickOneNodeForPreemption clock reads range m = Ret n ∧ is_Some (m !! n) ∧
    ∀ y, is_Some (m !! y) → lex (criteria m) n y ∧
      (ties (criteria m) n y → (∀ x v, m !! x = Some v → started (v_Pods v)) →
       ∀ t t', earliest_start (v_Pods (victims_of m n)) t → earliest_start (v_Pods (victims_of m y)) t' → t' ≤ t).
Proof.
  intros Hr Hm Hf. destruct (pick_spec clock reads range m Hr Hm Hf) as (n & Hp & Hn & Hb). exists n.
  split; [done|]. split; [by apply (in_range range m Hr)|]. intros y Hy%(in_range range m Hr). destruct (Hb y Hy) as [? Ht].
  split; [done|]. intros Hti Hst. apply Ht; [done|]. intros x [v Hv]%(in_range range m Hr). unfold victims_of. rewrite Hv.
  by apply (Hst x).
Qed.

(** Two nodes without a violation; the victim of the second is less important. *)
Definition pick_sample : gmap string Victims :=
  {["a" := mkVictims [victim_pod "web" 3 300 ∅; victim_pod "low" 0 200 ∅] 0;
    "b" := mkVictims [victim_pod "batch" 2 900 ∅] 0; "c" := mkVictims [victim_pod "db" 1 500 ∅] 1]}.

Definition sample_keys (m : gmap string Victims) : list string := (map_to_list m).*1.

Lemma pick_best_witness :
  pickOneNodeForPreemption (λ _, 0) 0 sample_keys pick_sample = Ret "b"%string ∧ lex (criteria pick_sample) "b"%string "a"%string.
Proof.
  assert (pickOneNodeForPreemption (λ _, 0) 0 sample_keys pick_sample = Ret "b"%string) as Hb by (vm_compute; reflexivity).
  split; [exact Hb|].
  destruct (pick_best (λ _, 0) 0 sample_keys pick_sample) as (n & Hp & _ & H).
  - reflexivity.
  - intros E. assert (pick_sample !! "a"%string = None) as H by (by rewrite E). vm_compute in H. discriminate H.
  - intros n v Hv. assert (victims_fine v ∧ True) as [? _]; [|done]. revert Hv. unfold pick_sample.
    intros [[_ <-]|[_ [[_ <-]|[_ [_ <-]%lookup_singleton_Some]]%lookup_insert_Some]]%lookup_insert_Some;
      (split; [|done]); (split; [discriminate|]); (split; [vm_compute; split; discriminate|]);
      (split; [vm_compute; discriminate|]); repeat constructor; vm_compute; discriminate.
  - assert (n = "b"%string) as -> by congruence. apply H. by eexists.
Defined.

(** A candidate without victims, which the dry run of a node yields where the pod
    fits by now, makes the choice panic if the number of violations does not decide. *)
Lemma pick_without_victims clock reads (range : gmap string Victims → list string) m n l :
  range m ≡ₚ (map_to_list m).*1 → m ≠ ∅ →
  min_nodes (λ node, Ret (NumPDBViolations (victims_of m node))) MaxInt32 (range m) = Ret l →
  (1 < length l)%nat → n ∈ l → v_Pods (victims_of m n) = [] → pickOneNodeForPreemption clock reads range m = Panic.
Proof.
  intros _ Hm Hl Hlen Hn Hv. unfold pickOneNodeForPreemption.
  rewrite (proj2 (Nat.eqb_neq _ _)) by (intros E; by apply Hm, map_size_empty_inv). rewrite Hl. cbn [mbind outcome_bind].
  assert (min_nodes (highest_priority m) MaxInt32 l = Panic) as ->; [|by destruct l as [|? [|? ?]]; simpl in Hlen; [lia|lia|]].
  unfold min_nodes. assert (∀ acc, foldl (min_step (highest_priority m)) acc l = Panic) as Hp; [|by rewrite Hp].
  clear Hl Hlen. assert (∀ k, foldl (min_step (highest_priority m)) Panic k = Panic) as Hpanic by (intros k; induction k; done).
  induction Hn as [l|x y l Hn IH]; intros acc; cbn [foldl]; [|by apply IH].
  destruct acc as [[least ns]|]; [|apply Hpanic]. unfold min_step at 2. cbn [mbind outcome_bind]. unfold highest_priority at 2.
  rewrite Hv. apply Hpanic.
Qed.

(** The victims of a node come with the violating ones first, so the priority of
    the first victim need not be the highest: of these two nodes, with one
    violation each, the one with the more important victim is chosen. *)
Lemma pick_misled :
  pickOneNodeForPreemption (λ _, 0) 0 sample_keys
    {["a" := mkVictims [victim_pod "db" 1 100 ∅; victim_pod "prod" 100 100 ∅] 1;
      "b" := mkVictims [victim_pod "db2" 2 100 ∅; victim_pod "dev" 3 100 ∅] 1]} = Ret "a"%string.
Proof. vm_compute. reflexivity. Qed.
