(* ===== verification/PreemptionProps.v ===== *)
(** * What preemption does: [PostFilter] of [DefaultPreemption]

    The dry runs, the choice and the evictions together. *)

From S2P Require Import Prelude Quantity Labels ApiTypes NodeInfo FwkStatus NodeResourcesFit Parallelizer SchedQueue Framework Preemption Victims.
From S2P Require Import DryRun PickNode.
#[local] Open Scope Z_scope.
#[local] Open Scope list_scope.

(** ** From the candidates to the choice *)

Lemma victims_map_in candidates : ∀ (m : gmap string Victims) n v,
  foldl (λ m c, <[c_name c := c_victims c]> m) m candidates !! n = Some v → m !! n = Some v ∨ mkCandidate v n ∈ candidates.
Proof.
  induction candidates as [|c cs IH]; intros m n v H; [by left|]. cbn [foldl] in H.
  apply IH in H as [[[<- <-]|[_ ?]]%lookup_insert_Some|?]; [right; destruct c; by left|by left|by right; right].
Qed.

Lemma candidatesToVictimsMap_in candidates n v :
  candidatesToVictimsMap candidates !! n = Some v → mkCandidate v n ∈ candidates.
Proof. intros [?|?]%victims_map_in; done. Qed.

(** The choice is one of the candidates. *)
Lemma SelectCandidate_in clock reads range candidates c :
  SelectCandidate clock reads range candidates = Ret (Some c) → c ∈ candidates.
Proof.
  destruct candidates as [|c0 [|c1 cs]]; simpl; [done|intros [= ->]; by left|].
  change (foldl _ _ _) with (candidatesToVictimsMap (c0 :: c1 :: cs)).
  destruct (pickOneNodeForPreemption _ _ _ _) as [n|]; [|done]. cbn [mbind outcome_bind].
  destruct (candidatesToVictimsMap _ !! n) as [v|] eqn:Hv; intros [= <-]; [|by left].
  by apply candidatesToVictimsMap_in.
Qed.

(** An extender only takes candidates away. *)
Definition narrows (e : Extender) : Prop := ∀ pod m m', ProcessPreemption e pod m = inl m' → m' ⊆ m.

Lemma extenders_narrow es pod : ∀ m m',
  Forall narrows es → extenders_loop es pod m = inl m' → m' ⊆ m.
Proof.
  induction es as [|e es IH]; intros m m' Hn; simpl; [by intros [= ->]|]. apply Forall_cons in Hn as [He Hn].
  destruct (_ || _); [by apply IH|]. destruct (ProcessPreemption e pod m) as [m1|err] eqn:Hp.
  - apply He in Hp. destruct (_ =? _)%nat; [by intros [= ->]|]. intros H. etrans; [by apply (IH m1)|done].
  - destruct (IsIgnorable e); [by apply IH|done].
Qed.

Lemma CallExtenders_in range es pod cs cs' st c :
  (∀ m, range m ≡ₚ (map_to_list m).*1) → Forall narrows es →
  CallExtenders range es pod cs = (cs', st) → c ∈ cs' → c ∈ cs.
Proof.
  intros Hr Hn. unfold CallExtenders. destruct (_ =? _)%nat; [by intros [= -> _]|]. destruct (_ =? _)%nat; [by intros [= -> _]|].
  destruct (extenders_loop es pod _) as [m'|e] eqn:He; intros [= <- _]; [|by intros ?%not_elem_of_nil].
  apply extenders_narrow in He; [|done]. intros (n & -> & Hin)%list_elem_of_fmap. rewrite Hr in Hin.
  apply list_elem_of_fmap in Hin as ([n' v] & -> & Hin%elem_of_map_to_list). simpl. unfold victims_of. rewrite Hin. simpl.
  apply candidatesToVictimsMap_in. by eapply lookup_weaken.
Qed.

(** ** Evictions *)

Definition deleted (effects : list effect) : list Pod :=
  omap (λ e, match e with DeletePod p => Some p | _ => None end) effects.

Lemma deleted_clear pods : deleted (ClearNominatedNodeName pods) = [].
Proof. unfold deleted, ClearNominatedNodeName. induction (List.filter _ pods); done. Qed.

Lemma deleted_app e1 e2 : deleted (e1 ++ e2) = deleted e1 ++ deleted e2.
Proof. apply omap_app. Qed.

Lemma evict_deleted delete_error waiting name victims effects err :
  evict_loop delete_error waiting name victims = (effects, err) →
  deleted effects `prefix_of` victims ∧ (err = None → deleted effects = victims).
Proof.
  revert effects. induction victims as [|v vs IH]; intros effects; simpl; [by intros [= <- _]|].
  destruct (delete_error v) as [e|]; [intros [= <- <-]; split; [by exists vs|done]|].
  destruct (evict_loop _ _ _ vs) as [effs err'] eqn:He. intros [= <- <-]. destruct (IH effs eq_refl) as [Hp Hn].
  assert (deleted (DeletePod v :: (if waiting (pod_UID v) then [RejectWaiting (pod_UID v)] else []) ++ Preempted v name :: effs) =
    v :: deleted effs) as ->. { by destruct (waiting (pod_UID v)). }
  split; [by apply prefix_cons|]. intros ->. by rewrite Hn.
Qed.

Lemma prepare_deleted delete_error waiting nominated c pod effects st :
  PrepareCandidate delete_error waiting nominated c pod = (effects, st) →
  deleted effects `prefix_of` v_Pods (c_victims c) ∧ (IsSuccess st = true → deleted effects = v_Pods (c_victims c)).
Proof.
  unfold PrepareCandidate. destruct (evict_loop _ _ _ _) as [effs [e|]] eqn:He; apply evict_deleted in He as [Hp Hn]; intros [= <- <-].
  - by split.
  - rewrite deleted_app, deleted_clear, app_nil_r. by split; [|intros _; apply Hn].
Qed.

(** ** The preemption *)

(** The filters of a framework accept [pod] on a node that differs from [ni] in
    that the pods of [gone] are not on it, with the pods nominated to the node of
    no lower priority and without them, in cycle states that satisfy [keeps]. *)
Definition fits_without {Data} lsci overhead (nominated : string → list PodInfo) (fwk : frameworkImpl Data)
    (keeps : gmap string Data → Prop) (pod : Pod) (ni : NodeInfo) (gone : list Pod) : Prop :=
  ∃ ni' state ni'' state'', keeps state ∧ passes fwk state pod ni' ∧ ni_wf lsci overhead ni' ∧ node ni' = node ni ∧
    Allocatable ni' = Allocatable ni ∧ node_pods ni ≡ₚ gone ++ node_pods ni' ∧
    keeps state'' ∧ passes fwk state'' pod ni'' ∧ node ni'' = node ni ∧ Allocatable ni'' = Allocatable ni ∧
    node_pods ni'' = node_pods ni' ++
      (pi_Pod <$> filter (λ pi, counted pod pi = true) (nominated (from_option node_Name EmptyString (node ni)))).

Section Sound.
Context {Data : Type} (clone : Data → Data) (clone_id : ∀ d, clone d = d) (lsci overhead : bool).
Context (nominated : string → list PodInfo).
Context (status_range : PluginToStatus → list string) (status_keys : ∀ m, status_range m ≡ₚ (map_to_list m).*1).
Context (sortVictims : list PodInfo → list PodInfo) (sort_perm : ∀ l, sortVictims l ≡ₚ l).
Context (fwk : frameworkImpl Data) (parallelism : nat) (par_pos : (0 < parallelism)%nat).
Context (MinCandidateNodesPercentage MinCandidateNodesAbsolute : Z).
Context (podLister : string → string → Pod + string).
Context (nodeLister : list NodeInfo) (nodeInfos : string → option NodeInfo).
Context (pdbLister : option (list PodDisruptionBudget + string)).
Context (extenders : list Extender) (ext_narrow : Forall narrows extenders).
Context (delete_error : Pod → option string) (waiting : string → bool).
Context (offset : Z) (clock : nat → Z).
Context (range : gmap string Victims → list string) (range_keys : ∀ m, range m ≡ₚ (map_to_list m).*1).
Context (state : gmap string Data).
Context (dryRun : Pod → list NodeInfo → list PodDisruptionBudget → Z → Z → outcome (list candidate * gmap string Status)).
Context (dry_runs : ∀ pod nodes pdbs off num cands sts, dryRun pod nodes pdbs off num = Ret (cands, sts) →
  dryRunPreemption clone lsci overhead nominated status_range sortVictims fwk parallelism state pod nodes pdbs off num
    (Some <$> cands) sts).
(** The nodes of the snapshot. *)
Context (few : 3 * Z.of_nat (length nodeLister) < 2 ^ 31).
Context (distinct : NoDup ((λ ni, node_Name <$> node ni) <$> nodeLister)).
Context (nodes_wf : ∀ ni, ni ∈ nodeLister → ni_wf lsci overhead ni ∧ NoDup (pod_UID <$> node_pods ni)).

(** The cycle state of a dry run agrees with that of the cycle on the keys the
    extensions leave alone. *)
Definition keeps_state (s : gmap string Data) : Prop := ∀ key, untouched fwk key → s !! key = state !! key.

Lemma might_help nodes m : ∀ potential sts,
  nodesWherePreemptionMightHelp nodes m = Ret (potential, sts) →
  potential `sublist_of` nodes ∧
  ∀ ni, ni ∈ potential → ∃ nd, node ni = Some nd ∧ status_Code (m !! node_Name nd) ≠ UnschedulableAndUnresolvable.
Proof.
  induction nodes as [|ni nodes IH]; intros potential sts H; simpl in H.
  { injection H as <- <-. split; [done|]. by intros ? ?%not_elem_of_nil. }
  destruct (node ni) as [nd|] eqn:Hn; [|done].
  destruct (nodesWherePreemptionMightHelp nodes m) as [[p s]|]; [|done]. cbn [mbind outcome_bind] in H.
  destruct (IH p s eq_refl) as [Hs Hp]. case_bool_decide as Hd; injection H as <- <-.
  - split; [by constructor|done].
  - split; [by constructor|]. intros x [->|Hx]%elem_of_cons; [by exists nd|by apply Hp].
Qed.

(** What the dry run of a node that becomes a candidate has found. *)
Lemma victims_fit pod ni nd gen c victims num st pdbs :
  ni ∈ nodeLister → node ni = Some nd →
  selectVictimsOnNode clone lsci overhead nominated status_range sortVictims fwk pod
    (mkConfig (CycleState_Clone clone state) (Clone ni) gen) pdbs = Ret (c, victims, num, st) → IsSuccess st = true →
  Forall (λ v, v ∈ node_pods ni ∧ PodPriority v < PodPriority pod) victims ∧
  fits_without lsci overhead nominated fwk keeps_state pod ni victims.
Proof.
  intros Hin Hnode. rewrite Clone_id, CycleState_Clone_id by done. intros Hsel Hst.
  destruct (nodes_wf ni Hin) as [Hwf Hnd]. unfold node_pods in Hnd. rewrite <- list_fmap_compose in Hnd.
  apply (select_spec clone lsci overhead nominated status_range sortVictims sort_perm fwk) in Hsel as (_ & Hperm & spare & Hrp & -> & _);
    [|done|done|done]. cbn [cf_node] in *.
  set (groups := filterPodsWithPDBViolation _ _) in *. set (l := groups.1 ++ groups.2) in *.
  split.
  - rewrite Forall_fmap, Forall_forall. intros pi [_ Hpi]%list_elem_of_filter. rewrite Hperm in Hpi.
    apply list_elem_of_filter in Hpi as [Hlow Hpi]. split; [|exact Hlow]. by apply list_elem_of_fmap_2.
  - destruct (rp_fits _ _ _ _ _ _ _ _ _ _ _ Hrp) as (c1 & [H1 H2 H3 H4 H5] & Hfit). cbn [cf_node cf_state] in *.
    unfold fits in Hfit. apply (nominated_conservative _ _ _ _ _ status_keys clone_id _ _ _ _ _ nd) in Hfit as (Hp & s2 & n2 & Hp2 & Hn2 & Ha2 & Hnp2 & Hk2);
      [|congruence].
    exists (cf_node c1), (cf_state c1), n2, s2. rewrite Hnode. split_and!; try done; try congruence.
    2: { intros key Hu. by rewrite (Hk2 key Hu), (H5 key Hu). }
    unfold node_pods. rewrite H2, (low_high pod (Pods ni)), <- Hperm, (spared_evicted spare l) at 1.
    rewrite !fmap_app. solve_Permutation.
Qed.

(** A candidate: a node of the snapshot where preemption may help, and pods of a
    lower priority without which the pod fits. *)
Definition sound_candidate (pod : Pod) (m : gmap string Status) (c : candidate) : Prop :=
  ∃ ni nd, ni ∈ nodeLister ∧ node ni = Some nd ∧ c_name c = node_Name nd ∧
    status_Code (m !! node_Name nd) ≠ UnschedulableAndUnresolvable ∧
    Forall (λ v, v ∈ node_pods ni ∧ PodPriority v < PodPriority pod) (v_Pods (c_victims c)) ∧
    fits_without lsci overhead nominated fwk keeps_state pod ni (v_Pods (c_victims c)).

Lemma num_candidates_few n : 0 ≤ n → calculateNumCandidates MinCandidateNodesPercentage MinCandidateNodesAbsolute n ≤ n.
Proof. intros Hn. unfold calculateNumCandidates. match goal with |- (if n <? ?k then _ else _) ≤ _ => destruct (Z.ltb_spec n k) end; lia. Qed.

Lemma FindCandidates_sound pod m effects candidates sts st :
  FindCandidates MinCandidateNodesPercentage MinCandidateNodesAbsolute nodeLister pdbLister offset dryRun pod m =
    Ret (effects, candidates, sts, st) →
  deleted effects = [] ∧ Forall (sound_candidate pod m) candidates.
Proof.
  unfold FindCandidates. destruct (_ =? _)%nat; [by intros [= <- <- _ _]|].
  destruct (nodesWherePreemptionMightHelp nodeLister m) as [[potential un]|] eqn:Hm; [|done]. cbn [mbind outcome_bind].
  apply might_help in Hm as [Hsub Hhelp].
  destruct (Nat.eqb_spec (length potential) 0) as [|Hne]; [intros [= <- <- _ _]; by rewrite deleted_clear|].
  destruct (getPodDisruptionBudgets pdbLister) as [pdbs|e]; [|by intros [= <- <- _ _]].
  pose proof (sublist_length _ _ Hsub) as Hlen.
  unfold getOffsetAndNumCandidates. rewrite int32_id by lia.
  destruct (Z.leb_spec (Z.of_nat (length potential)) 0); [lia|]. cbn [mbind outcome_bind].
  set (num := calculateNumCandidates _ _ _). destruct (dryRun pod potential pdbs offset num) as [[cands nsts]|] eqn:Hdry; [|done].
  cbn [mbind outcome_bind]. intros [= <- <- _ _]. split; [done|].
  apply dry_runs in Hdry as (Hoff & Hnum & gen & name_at & result_at & Hres & Hret).
  pose proof (num_candidates_few (Z.of_nat (length potential)) ltac:(lia)) as Hfew. fold num in Hfew.
  apply dry_returns in Hret as (s & clean & dirty & Hfound & Heq); [|done|lia|].
  2: { intros i j Hi Hj Hname. apply (rotation_injective (length potential) (Z.to_nat offset)); [done..|].
       destruct (Hres i Hi) as (ni & nd & _ & Hni & Hnd & Hn & _), (Hres j Hj) as (nj & nd' & _ & Hnj & Hnd' & Hn' & _).
       assert (NoDup ((λ ni, node_Name <$> node ni) <$> potential)) as Hd.
       { eapply sublist_NoDup; [exact distinct|]. by apply fmap_sublist. }
       eapply (NoDup_lookup _ _ _ (Some (name_at i)) Hd); rewrite list_lookup_fmap, ?Hni, ?Hnj; simpl; rewrite ?Hnd, ?Hnd'; simpl; congruence. }
  injection Heq as Heq _. pose proof (ca_result _ _ _ _ _ _ _ Hfound) as Hlist. unfold dry_result in Hlist. cbn [fst] in Hlist.
  rewrite <- Heq in Hlist. apply Forall_forall. intros c Hc.
  assert (Some c ∈ Some <$> cands) as Hc' by by apply list_elem_of_fmap_2. rewrite Hlist in Hc'.
  apply list_elem_of_fmap in Hc' as (i & [= ->] & Hi).
  assert ((i < length potential)%nat ∧ dry_success result_at i) as [Hlt Hsu].
  { apply elem_of_app in Hi as [Hi|Hi]; [apply (ca_clean _ _ _ _ _ _ _ Hfound) in Hi|apply (ca_dirty _ _ _ _ _ _ _ Hfound) in Hi];
      by destruct Hi as (? & ? & _). }
  destruct (Hres i Hlt) as (ni & nd & c' & Hni & Hnd & Hname & Hsel). apply list_elem_of_lookup_2 in Hni as Hin.
  assert (ni ∈ nodeLister) as Hin' by by eapply sublist_subseteq.
  destruct (Hhelp ni Hin) as (nd' & Hnd' & Hst). assert (nd' = nd) as -> by congruence.
  exists ni, nd. split_and!; try done; simpl.
  - by eapply victims_fit; [..|apply IsSuccess_spec].
  - by eapply victims_fit; [..|apply IsSuccess_spec].
Qed.

Lemma preempt_spec pod m effects nnn st :
  preempt MinCandidateNodesPercentage MinCandidateNodesAbsolute podLister nodeLister nodeInfos pdbLister extenders delete_error
    waiting nominated offset clock range dryRun pod m = Ret (effects, nnn, st) →
  (deleted effects = [] ∧ nnn = EmptyString) ∨
  ∃ pod' c, podLister (pod_Namespace pod) (pod_Name pod) = inl pod' ∧ pod_PreemptionPolicy pod' ≠ Some "Never" ∧
    sound_candidate pod' m c ∧ deleted effects `prefix_of` v_Pods (c_victims c) ∧
    (nnn ≠ EmptyString → nnn = c_name c ∧ deleted effects = v_Pods (c_victims c)).
Proof.
  unfold preempt. destruct (podLister _ _) as [pod'|e]; [|intros [= <- <- _]; by left].
  destruct (PodEligibleToPreemptOthers _ _ _) eqn:Hel; cbn [negb]; [|intros [= <- <- _]; by left].
  destruct (FindCandidates _ _ _ _ _ _ pod' m) as [[[[effs cands] sts] fst]|] eqn:Hf; [|done]. cbn [mbind outcome_bind].
  apply FindCandidates_sound in Hf as [Hdel Hsound].
  destruct (IsSuccess fst); cbn [negb]; [|intros [= <- <- _]; by left].
  destruct (_ =? _)%nat; [intros [= <- <- _]; by left|].
  destruct (CallExtenders range extenders pod' cands) as [cands' est] eqn:Hext.
  destruct (IsSuccess est); cbn [negb]; [|intros [= <- <- _]; by left].
  destruct (SelectCandidate clock 0 range cands') as [[best|]|] eqn:Hsel; [| |done]; cbn [mbind outcome_bind];
    [|intros [= <- <- _]; by left].
  destruct (Nat.eqb_spec (String.length (c_name best)) 0); [intros [= <- <- _]; by left|].
  assert (sound_candidate pod' m best) as Hbest.
  { rewrite Forall_forall in Hsound. apply Hsound. eapply CallExtenders_in; [done|done|exact Hext|]. by eapply SelectCandidate_in. }
  assert (pod_PreemptionPolicy pod' ≠ Some "Never") as Hpol.
  { unfold PodEligibleToPreemptOthers in Hel. by case_bool_decide. }
  destruct (PrepareCandidate _ _ _ _ _) as [effs' pst] eqn:Hprep. apply prepare_deleted in Hprep as [Hpre Hall].
  destruct (IsSuccess pst); cbn [negb]; intros [= <- <- _]; right; exists pod', best; rewrite deleted_app, Hdel; split_and!; try done.
  intros _. split; [done|]. by apply Hall.
Qed.

Local Abbreviation PostFilter := (PostFilter MinCandidateNodesPercentage MinCandidateNodesAbsolute podLister nodeLister
  nodeInfos pdbLister extenders delete_error waiting nominated offset clock range dryRun).

Lemma PostFilter_spec pod m effects r st :
  PostFilter pod m = Ret (effects, r, st) →
  (deleted effects = [] ∧ r = None) ∨
  ∃ pod' ni nd victims, podLister (pod_Namespace pod) (pod_Name pod) = inl pod' ∧ pod_PreemptionPolicy pod' ≠ Some "Never" ∧
    ni ∈ nodeLister ∧ node ni = Some nd ∧ status_Code (m !! node_Name nd) ≠ UnschedulableAndUnresolvable ∧
    Forall (λ v, v ∈ node_pods ni ∧ PodPriority v < PodPriority pod') victims ∧
    fits_without lsci overhead nominated fwk keeps_state pod' ni victims ∧
    deleted effects `prefix_of` victims ∧ ∀ nnn, r = Some nnn → nnn = node_Name nd ∧ deleted effects = victims.
Proof.
  unfold Preemption.PostFilter. destruct (preempt _ _ _ _ _ _ _ _ _ _ _ _ _ _ pod m) as [[[effs nnn] pst]|] eqn:Hp; [|done].
  cbn [mbind outcome_bind]. apply preempt_spec in Hp as [[Hd ->]|(pod' & c & Hl & Hpol & (ni & nd & H1 & H2 & H3 & H4 & H5 & H6) & Hpre & Hall)].
  - destruct (IsSuccess pst); cbn [negb]; intros [= <- <- _]; by left.
  - intros Hr. right. exists pod', ni, nd, (v_Pods (c_victims c)).
    assert (effs = effects ∧ ∀ x, r = Some x → nnn ≠ EmptyString ∧ x = nnn) as [-> Hnnn].
    { destruct (IsSuccess pst); cbn [negb] in Hr; [|by injection Hr as <- <- _].
      destruct (String.eqb_spec nnn EmptyString); injection Hr as <- <- _; [done|]. by split; [|intros x [= <-]]. }
    split_and!; try done. intros x [Hne ->]%Hnnn. destruct (Hall Hne) as [-> ?]. done.
Qed.

(** C9. Preemption is sound.  Take a snapshot of fewer than 2^31 / 3 nodes with
    different names, whose totals are right and whose pods have different UIDs,
    plugins whose state is cloned as it is, a sort of the victims that loses
    none, any order in which the goroutines of the dry run finish, and extenders
    that only take candidates away.  If [PostFilter] returns, every
    pod it has deleted, on whatever path, was on one node of the snapshot, and
    has a lower priority than the preempting pod, whose preemption policy is not
    Never; that node was not ruled out by the filters of the cycle as one where
    preemption cannot help; and without the chosen victims the node passes all
    filters for the pod, both as it is and with the pods nominated to it that
    are at least as important, in cycle states that agree with that of the cycle
    on the keys the extensions of the pre-filters leave alone.  When a node is
    nominated it is that one, and all the victims have been deleted. *)
Theorem preemption_sound pod m effects r st :
  PostFilter pod m = Ret (effects, r, st) →
  (deleted effects = [] ∧ r = None) ∨
  ∃ pod' ni nd victims, podLister (pod_Namespace pod) (pod_Name pod) = inl pod' ∧ pod_PreemptionPolicy pod' ≠ Some "Never" ∧
    ni ∈ nodeLister ∧ node ni = Some nd ∧ status_Code (m !! node_Name nd) ≠ UnschedulableAndUnresolvable ∧
    Forall (λ v, v ∈ node_pods ni ∧ PodPriority v < PodPriority pod') victims ∧
    fits_without lsci overhead nominated fwk keeps_state pod' ni victims ∧
    deleted effects `prefix_of` victims ∧ ∀ nnn, r = Some nnn → nnn = node_Name nd ∧ deleted effects = victims.
Proof. apply PostFilter_spec. Qed.

(** *** Room for the pod *)

Section Room.
Context (wrap : Resource → Data) (unwrap : Data → option Resource) (show : Data → string).
Context (unwrap_wrap : ∀ r, unwrap (wrap r) = Some r).
Context (fit_filter : filters_with fwk (λ state _ ni, NodeResourcesFit.Filter unwrap show ∅ ∅ state ni)).
Context (fit_key : untouched fwk preFilterStateKey).
Context (nodes_within : ∀ ni, ni ∈ nodeLister → within ni ∧ Z.of_nat (length (Pods ni)) < max_int64 ∧
  ∀ d, zsum (λ p, get d (pod_request lsci overhead p)) (node_pods ni) ≤ max_int64 ∧
       Forall (λ p, 0 ≤ get d (pod_request lsci overhead p)) (node_pods ni)).

(** Fewer pods request less. *)
Lemma within_rest ni ni' gone :
  ni ∈ nodeLister → ni_wf lsci overhead ni' → Allocatable ni' = Allocatable ni → node_pods ni ≡ₚ gone ++ node_pods ni' →
  within ni' ∧ Z.of_nat (length (Pods ni')) < max_int64.
Proof.
  intros Hin Hwf Ha Hp. destruct (nodes_within ni Hin) as (Hw & Hlen & Hsum). split.
  - intros d. destruct (Hw d) as [[_ Hle] Hmax]. destruct (Hsum d) as [Hs Hpos].
    rewrite (wf_requested _ _ _ (proj1 (nodes_wf ni Hin)) d) in Hle. rewrite (wf_requested _ _ _ Hwf d), Ha.
    rewrite Hp in Hpos. apply Forall_app in Hpos as [Hpg Hpr]. rewrite (zsum_perm _ _ _ Hp), zsum_app in Hs, Hle.
    pose proof (zsum_nonneg _ _ Hpg). pose proof (zsum_nonneg _ _ Hpr).
    rewrite !int64_id in * by (unfold min_int64, max_int64 in *; lia). lia.
  - apply Permutation_length in Hp. unfold node_pods in Hp. rewrite length_app, !length_fmap in Hp. lia.
Qed.

Lemma room pod ni victims :
  state !! preFilterStateKey = Some (wrap (computePodResourceRequest lsci overhead pod)) →
  (∀ d, 0 ≤ get d (calculateResource lsci overhead pod).1.1) → ni ∈ nodeLister →
  fits_without lsci overhead nominated fwk keeps_state pod ni victims →
  ∃ ni', node_pods ni ≡ₚ victims ++ node_pods ni' ∧ Allocatable ni' = Allocatable ni ∧
    ∀ g, let ni'' := (AddPod lsci overhead ni' pod g).1 in
      within ni'' ∧ Z.of_nat (length (Pods ni'')) ≤ AllowedPodNumber (Allocatable ni'').
Proof.
  intros Hst Hpos Hin (ni' & s' & _ & _ & Hk & Hp & Hwf & _ & Ha & Hperm & _). exists ni'. split; [done|]. split; [done|].
  destruct (within_rest ni ni' victims Hin Hwf Ha Hperm) as [Hw Hl]. intros g. apply fit_no_overcommit; try done.
  apply (passes_with _ _ _ _ _ fit_filter) in Hp. unfold NodeResourcesFit.Filter, getPreFilterState, CycleState_Read in Hp.
  rewrite (Hk _ fit_key), Hst, unwrap_wrap in Hp. unfold Fits. destruct (fitsRequest _ _ _ _); done.
Qed.

(** Preemption makes room.  Where the resource filter is one of the filters,
    if on every node of the snapshot the requests are within what it can allocate
    and no request is negative, then on the node that preemption nominates the pod
    fits once the deleted pods are gone: with the remaining pods and the preempting
    pod, the node requests no more than it can allocate in any dimension, and holds
    no more pods than it allows. *)
Lemma preemption_room pod m effects nnn st pod' :
  podLister (pod_Namespace pod) (pod_Name pod) = inl pod' →
  state !! preFilterStateKey = Some (wrap (computePodResourceRequest lsci overhead pod')) →
  (∀ d, 0 ≤ get d (calculateResource lsci overhead pod').1.1) →
  PostFilter pod m = Ret (effects, Some nnn, st) →
  ∃ ni nd ni', ni ∈ nodeLister ∧ node ni = Some nd ∧ node_Name nd = nnn ∧
    node_pods ni ≡ₚ deleted effects ++ node_pods ni' ∧ Allocatable ni' = Allocatable ni ∧
    ∀ g, let ni'' := (AddPod lsci overhead ni' pod' g).1 in
      within ni'' ∧ Z.of_nat (length (Pods ni'')) ≤ AllowedPodNumber (Allocatable ni'').
Proof.
  intros Hl Hst Hpos Hp. apply PostFilter_spec in Hp as [[_ ?]|(pod1 & ni & nd & victims & Hl1 & _ & Hin & Hnd & _ & _ & Hfit & _ & Hn)]; [done|].
  rewrite Hl in Hl1. injection Hl1 as <-. destruct (Hn nnn eq_refl) as [-> ->].
  destruct (room pod' ni victims Hst Hpos Hin Hfit) as (ni' & H1 & H2 & H3). by exists ni, nd, ni'.
Qed.
End Room.
End Sound.

(** ** Two nodes to choose from *)

(** On the second node one pod, without a budget, is in the way. *)
Definition other_node : NodeInfo :=
  (SetNode true (NewNodeInfo true true [victim_pod "batch" 2 900 ∅] 10).1
     (mkNode "m" ∅ (<["pods" := NewQuantity 110 DecimalSI]> (sample_requests 1000 (2 ^ 30))) [] false [] []) 12).1.

Definition two_nodes : list NodeInfo := [victim_node; other_node].
Definition cycle_statuses : gmap string Status :=
  {["n" := NewStatus Unschedulable ["Insufficient cpu"%string]; "m" := NewStatus Unschedulable ["Insufficient cpu"%string]]}.
Definition pre_state : gmap string Resource := (RunPreFilterPlugins victim_framework ∅ preemptor).1.
Definition keys_of {A} (m : gmap string A) : list string := (map_to_list m).*1.

Local Abbreviation sample_PostFilter :=
  (PostFilter 10 100 (λ _ _, inl preemptor) two_nodes (λ _, None) (Some (inl [db_budget])) [] (λ _, None) (λ _, false) (λ _, [])
    1 (λ _, 0) keys_of (dryRun_first id true true (λ _, []) keys_of sort_priority victim_framework 2 pre_state 20)
    preemptor cycle_statuses).

Definition preempted_names : list string * option string :=
  match sample_PostFilter with Ret (effects, r, _) => (pod_Name <$> deleted effects, r) | Panic => ([], None) end.

Lemma keys_of_keys {A} (m : gmap string A) : keys_of m ≡ₚ (map_to_list m).*1.
Proof. done. Qed.

Lemma two_nodes_wf ni : ni ∈ two_nodes → ni_wf true true ni ∧ NoDup (pod_UID <$> node_pods ni).
Proof.
  unfold two_nodes. rewrite !elem_of_cons, elem_of_nil. intros [->|[->|[]]]; (split; [apply SetNode_wf, NewNodeInfo_wf|]);
    apply (bool_decide_eq_true_1 _); vm_compute; reflexivity.
Qed.

Lemma two_nodes_within ni : ni ∈ two_nodes → within ni ∧ Z.of_nat (length (Pods ni)) < max_int64 ∧
  ∀ d, zsum (λ p, get d (pod_request true true p)) (node_pods ni) ≤ max_int64 ∧
       Forall (λ p, 0 ≤ get d (pod_request true true p)) (node_pods ni).
Proof.
  assert (∀ ni, ScalarResources (Requested ni) = ∅ → ScalarResources (Allocatable ni) = ∅ →
    Forall (λ p, ScalarResources (pod_request true true p) = ∅) (node_pods ni) → ∀ name,
    (0 ≤ get (DScalar name) (Requested ni) ≤ get (DScalar name) (Allocatable ni) ∧ get (DScalar name) (Allocatable ni) ≤ max_int64) ∧
    zsum (λ p, get (DScalar name) (pod_request true true p)) (node_pods ni) ≤ max_int64 ∧
    Forall (λ p, 0 ≤ get (DScalar name) (pod_request true true p)) (node_pods ni)) as Hsc.
  { intros x H1 H2 H3 name. unfold get, scalar. rewrite H1, H2, lookup_empty. simpl. split; [unfold max_int64; lia|].
    induction H3 as [|p l Hp _ [IH1 IH2]]; [split; [done|constructor]|]. cbn [zsum foldr] in *.
    rewrite Hp, lookup_empty. simpl. split; [unfold zsum in IH1; lia|]. constructor; [by rewrite Hp, lookup_empty|done]. }
  unfold two_nodes. rewrite !elem_of_cons, elem_of_nil. intros [->|[->|[]]].
  - specialize (Hsc victim_node ltac:(vm_compute; reflexivity) ltac:(vm_compute; reflexivity)
      ltac:(repeat constructor; vm_compute; reflexivity)).
    split; [intros [| | |name]; [vm_compute; split; [split|]; discriminate..|apply Hsc]|]. split; [vm_compute; reflexivity|].
    intros [| | |name]; [split; [vm_compute; discriminate|repeat constructor; vm_compute; discriminate]..|apply Hsc].
  - specialize (Hsc other_node ltac:(vm_compute; reflexivity) ltac:(vm_compute; reflexivity)
      ltac:(repeat constructor; vm_compute; reflexivity)).
    split; [intros [| | |name]; [vm_compute; split; [split|]; discriminate..|apply Hsc]|]. split; [vm_compute; reflexivity|].
    intros [| | |name]; [split; [vm_compute; discriminate|repeat constructor; vm_compute; discriminate]..|apply Hsc].
Qed.

Lemma two_nodes_distinct : NoDup ((λ ni, node_Name <$> node ni) <$> two_nodes).
Proof. apply (bool_decide_eq_true_1 _). vm_compute. reflexivity. Qed.

Lemma victim_framework_untouched key : untouched victim_framework key.
Proof. intros pl ext Hpl. apply list_elem_of_singleton in Hpl as ->. discriminate. Qed.

Lemma sample_preempts : ∃ effects st, sample_PostFilter = Ret (effects, Some "m", st) ∧ (pod_Name <$> deleted effects) = ["batch"].
Proof.
  assert (preempted_names = (["batch"], Some "m")) as H by (vm_compute; reflexivity). unfold preempted_names in H.
  destruct sample_PostFilter as [[[effects r] st]|]; [|discriminate H]. injection H as H1 ->. by exists effects, st.
Qed.

Lemma preemption_sound_witness :
  ∃ ni victims, ni ∈ two_nodes ∧ pod_Name <$> victims = ["batch"%string] ∧
    Forall (λ v, v ∈ node_pods ni ∧ PodPriority v < PodPriority preemptor) victims.
Proof.
  destruct sample_preempts as (effects & st & Hrun & Hdel).
  destruct (preemption_sound id (λ _, eq_refl) true true (λ _, []) keys_of keys_of_keys sort_priority
    (merge_sort_Permutation by_priority) victim_framework 2 ltac:(lia) 10 100 (λ _ _, inl preemptor) two_nodes (λ _, None)
    (Some (inl [db_budget])) [] (Forall_nil_2 _) (λ _, None) (λ _, false) 1 (λ _, 0) keys_of keys_of_keys pre_state
    (dryRun_first id true true (λ _, []) keys_of sort_priority victim_framework 2 pre_state 20)
    (dryRun_first_returns id true true (λ _, []) keys_of sort_priority victim_framework 2 pre_state 20)
    ltac:(vm_compute; reflexivity) two_nodes_distinct two_nodes_wf preemptor cycle_statuses effects (Some "m"%string) st Hrun)
    as [[_ H]|(pod' & ni & nd & victims & H1 & _ & H2 & _ & _ & H3 & _ & _ & H4)]; [discriminate H|].
  injection H1 as <-. exists ni, victims. destruct (H4 "m"%string eq_refl) as [_ <-]. by split_and!.
Defined.

Lemma preemption_room_witness :
  ∃ ni ni', ni ∈ two_nodes ∧ within (AddPod true true ni' preemptor 30).1 ∧ length (node_pods ni) = S (length (node_pods ni')).
Proof.
  destruct sample_preempts as (effects & st & Hrun & Hdel).
  destruct (preemption_room id (λ _, eq_refl) true true (λ _, []) keys_of keys_of_keys sort_priority
    (merge_sort_Permutation by_priority) victim_framework 2 ltac:(lia) 10 100 (λ _ _, inl preemptor) two_nodes (λ _, None)
    (Some (inl [db_budget])) [] (Forall_nil_2 _) (λ _, None) (λ _, false) 1 (λ _, 0) keys_of keys_of_keys pre_state
    (dryRun_first id true true (λ _, []) keys_of sort_priority victim_framework 2 pre_state 20)
    (dryRun_first_returns id true true (λ _, []) keys_of sort_priority victim_framework 2 pre_state 20)
    ltac:(vm_compute; reflexivity) two_nodes_distinct two_nodes_wf id Some (λ _, EmptyString) (λ _, eq_refl)
    ltac:(eexists; split; [by left|reflexivity]) (victim_framework_untouched _) two_nodes_within preemptor cycle_statuses
    effects "m"%string st preemptor eq_refl)
    as (ni & nd & ni' & H1 & _ & _ & H2 & _ & H3).
  - vm_compute. reflexivity.
  - intros [| | |name]; [vm_compute; discriminate..|].
    assert (ScalarResources (calculateResource true true preemptor).1.1 = ∅) as E by (vm_compute; reflexivity).
    unfold get, scalar. rewrite E, lookup_empty. simpl. lia.
  - exact Hrun.
  - exists ni, ni'. split; [exact H1|]. destruct (H3 30) as [H _]. split; [exact H|].
    apply Permutation_length in H2. rewrite length_app in H2. apply (f_equal length) in Hdel. rewrite length_fmap in Hdel.
    simpl in Hdel. lia.
Defined.
