(* ===== verification/NodeFilters.v ===== *)
(** * The small filter plugins: [pkg/scheduler/framework/plugins]

    [nodename], [nodeunschedulable], [tainttoleration] and [nodeports], with
    the tolerations of [api/core/v1/toleration.go] and
    [component-helpers/scheduling/corev1/helpers.go], and the normalization of
    scores they share with the node affinity ([plugins/helper]).  A framework
    in which they are enabled only lets a pod through to the nodes it may run
    on. *)

From S2P Require Import Prelude Labels ApiTypes NodeInfo FwkStatus NodeAffinity Framework.
#[local] Open Scope string_scope.
#[local] Open Scope Z_scope.
#[local] Open Scope list_scope.

(** ** Tolerations *)

Definition ToleratesTaint (t : Toleration) (taint : Taint) : bool :=
  if (0 <? String.length (tol_Effect t))%nat && negb (tol_Effect t =? taint_Effect taint)%string then false
  else if (0 <? String.length (tol_Key t))%nat && negb (tol_Key t =? taint_Key taint)%string then false
  else if (tol_Operator t =? "")%string || (tol_Operator t =? "Equal")%string then (tol_Value t =? taint_Value taint)%string
  else if (tol_Operator t =? "Exists")%string then true
  else false.

Fixpoint TolerationsTolerateTaint (tolerations : list Toleration) (taint : Taint) : bool :=
  match tolerations with
  | [] => false
  | t :: tolerations => if ToleratesTaint t taint then true else TolerationsTolerateTaint tolerations taint
  end.

Fixpoint getFilteredTaints (taints : list Taint) (inclusionFilter : Taint → bool) : list Taint :=
  match taints with
  | [] => []
  | taint :: taints =>
      if negb (inclusionFilter taint) then getFilteredTaints taints inclusionFilter
      else taint :: getFilteredTaints taints inclusionFilter
  end.

Definition FindMatchingUntoleratedTaint (taints : list Taint) (tolerations : list Toleration)
    (inclusionFilter : Taint → bool) : option Taint :=
  (fix loop ts := match ts with
     | [] => None
     | taint :: ts => if negb (TolerationsTolerateTaint tolerations taint) then Some taint else loop ts
     end) (getFilteredTaints taints inclusionFilter).

(** ** Plugins without a state *)

Definition nodename_Fits (pod : Pod) (n : Node) : bool :=
  (String.length (pod_NodeName pod) =? 0)%nat || (pod_NodeName pod =? node_Name n)%string.

Definition nodename_Filter (pod : Pod) (nodeInfo : NodeInfo) : option Status :=
  match node nodeInfo with
  | None => Some (NewStatus Error ["node not found"])
  | Some n =>
      if negb (nodename_Fits pod n)
      then Some (NewStatus UnschedulableAndUnresolvable ["node(s) didn't match the requested node name"])
      else None
  end.

Definition unschedulable_taint : Taint := mkTaint "node.kubernetes.io/unschedulable" "" "NoSchedule" None.

Definition unschedulable_Filter (pod : Pod) (nodeInfo : NodeInfo) : option Status :=
  match node nodeInfo with
  | None => Some (NewStatus UnschedulableAndUnresolvable ["node(s) had unknown conditions"])
  | Some n =>
      let podToleratesUnschedulable := TolerationsTolerateTaint (pod_Tolerations pod) unschedulable_taint in
      if node_Unschedulable n && negb podToleratesUnschedulable
      then Some (NewStatus UnschedulableAndUnresolvable ["node(s) were unschedulable"])
      else None
  end.

Definition taint_filterPredicate (t : Taint) : bool :=
  (taint_Effect t =? "NoSchedule")%string || (taint_Effect t =? "NoExecute")%string.

Definition taint_Filter (pod : Pod) (nodeInfo : NodeInfo) : option Status :=
  match node nodeInfo with
  | None => Some (AsStatus "invalid nodeInfo")
  | Some n =>
      match FindMatchingUntoleratedTaint (node_Taints n) (pod_Tolerations pod) taint_filterPredicate with
      | None => None
      | Some taint =>
          Some (NewStatus UnschedulableAndUnresolvable
            ["node(s) had taint {" +:+ taint_Key taint +:+ ": " +:+ taint_Value taint +:+ "}, that the pod didn't tolerate"])
      end
  end.

(** ** Host ports *)

Definition getContainerPorts (pods : list Pod) : list ContainerPort := pods ≫= (λ pod, pod_Containers pod ≫= Ports).

Definition fitsPorts (wantPorts : list ContainerPort) (nodeInfo : NodeInfo) : bool :=
  forallb (λ cp, negb (CheckConflict (UsedPorts nodeInfo) (HostIP cp) (Protocol cp) (HostPort cp))) wantPorts.

Definition ports_Fits (pod : Pod) (nodeInfo : NodeInfo) : bool := fitsPorts (getContainerPorts [pod]) nodeInfo.

Section Ports.
Context {Data : Type} (wrap : list ContainerPort → Data) (unwrap : Data → option (list ContainerPort)) (show : Data → string).

Definition ports_preFilterStateKey : string := "PreFilterNodePorts".

Definition ports_PreFilter (cycleState : gmap string Data) (pod : Pod) : gmap string Data * option Status :=
  (CycleState_Write cycleState ports_preFilterStateKey (wrap (getContainerPorts [pod])), None).

Definition ports_getPreFilterState (cycleState : gmap string Data) : list ContainerPort + string :=
  match CycleState_Read cycleState ports_preFilterStateKey with
  | None => inr ("reading " +:+ quoted ports_preFilterStateKey +:+ " from cycleState: not found")
  | Some c =>
      match unwrap c with
      | None => inr (show c +:+ "  convert to nodeports.preFilterState error")
      | Some s => inl s
      end
  end.

Definition ports_Filter (cycleState : gmap string Data) (nodeInfo : NodeInfo) : option Status :=
  match ports_getPreFilterState cycleState with
  | inr e => Some (AsStatus e)
  | inl wantPorts =>
      if negb (fitsPorts wantPorts nodeInfo)
      then Some (NewStatus Unschedulable ["node(s) didn't have free ports for the requested pod ports"])
      else None
  end.
End Ports.

(** ** Scores *)

Definition DefaultNormalizeScore (maxPriority : Z) (reverse : bool) (scores : list NodeScore) : list NodeScore * option Status :=
  let maxCount := foldl (λ maxCount s, if maxCount <? Score s then Score s else maxCount) 0 scores in
  if maxCount =? 0 then
    (if reverse then (λ s, mkScore (ns_Name s) maxPriority) <$> scores else scores, None)
  else
    ((λ s,
       let score := int64 (Z.quot (int64 (maxPriority * Score s)) maxCount) in
       mkScore (ns_Name s) (if reverse then int64 (maxPriority - score) else score)) <$> scores, None).

Definition affinity_NormalizeScore (scores : list NodeScore) : list NodeScore * option Status :=
  DefaultNormalizeScore MaxNodeScore false scores.

Section TaintScore.
Context {Data : Type} (wrap : list Toleration → Data) (unwrap : Data → option (list Toleration)) (show : Data → string).

Definition taint_preScoreStateKey : string := "PreScoreTaintToleration".

Definition getAllTolerationPreferNoSchedule (tolerations : list Toleration) : list Toleration :=
  List.filter (λ t, (String.length (tol_Effect t) =? 0)%nat || (tol_Effect t =? "PreferNoSchedule")%string) tolerations.

Definition taint_PreScore (cycleState : gmap string Data) (pod : Pod) (nodes : list Node) : gmap string Data * option Status :=
  if (length nodes =? 0)%nat then (cycleState, None)
  else (CycleState_Write cycleState taint_preScoreStateKey
          (wrap (getAllTolerationPreferNoSchedule (pod_Tolerations pod))), None).

Definition taint_getPreScoreState (cycleState : gmap string Data) : list Toleration + string :=
  match CycleState_Read cycleState taint_preScoreStateKey with
  | None => inr ("failed to read " +:+ quoted taint_preScoreStateKey +:+ " from cycleState: not found")
  | Some c =>
      match unwrap c with
      | None => inr (show c +:+ " convert to tainttoleration.preScoreState error")
      | Some s => inl s
      end
  end.

Definition countIntolerableTaintsPreferNoSchedule (taints : list Taint) (tolerations : list Toleration) : Z :=
  foldl (λ intolerableTaints taint,
    if negb (taint_Effect taint =? "PreferNoSchedule")%string then intolerableTaints
    else if negb (TolerationsTolerateTaint tolerations taint) then int64 (intolerableTaints + 1)
    else intolerableTaints) 0 taints.

(** [get] is the snapshot's lookup, with the text of its error; [%w] of a nil
    error prints a note about it. *)
Definition taint_Score (get : string → NodeInfo + string) (state : gmap string Data) (nodeName : string) : Z * option Status :=
  let failed e := (0, Some (AsStatus ("getting node " +:+ quoted nodeName +:+ " from Snapshot: " +:+ e))) in
  match get nodeName with
  | inr e => failed e
  | inl nodeInfo =>
      match node nodeInfo with
      | None => failed "%!w(<nil>)"
      | Some n =>
          match taint_getPreScoreState state with
          | inr e => (0, Some (AsStatus e))
          | inl s => (countIntolerableTaintsPreferNoSchedule (node_Taints n) s, None)
          end
      end
  end.

Definition taint_NormalizeScore (scores : list NodeScore) : list NodeScore * option Status :=
  DefaultNormalizeScore MaxNodeScore true scores.
End TaintScore.

(** ** What the filters accept *)

Definition tolerates (tol : Toleration) (t : Taint) : Prop :=
  (tol_Effect tol = "" ∨ tol_Effect tol = taint_Effect t) ∧ (tol_Key tol = "" ∨ tol_Key tol = taint_Key t) ∧
  (tol_Operator tol = "Exists" ∨ (tol_Operator tol = "" ∨ tol_Operator tol = "Equal") ∧ tol_Value tol = taint_Value t).

Definition tolerated (pod : Pod) (t : Taint) : Prop := ∃ tol, tol ∈ pod_Tolerations pod ∧ tolerates tol t.

(** The pod may run on the node as it is. *)
Record may_run (added : option (list NodeSelectorTerm)) (pod : Pod) (ni : NodeInfo) (n : Node) : Prop := {
  mr_name : pod_NodeName pod = "" ∨ pod_NodeName pod = node_Name n;
  mr_schedulable : node_Unschedulable n = true → tolerated pod unschedulable_taint;
  mr_taints t : t ∈ node_Taints n → taint_Effect t = "NoSchedule" ∨ taint_Effect t = "NoExecute" → tolerated pod t;
  mr_added : match added with Some terms => ∃ t, t ∈ terms ∧ term_holds t n | None => True end;
  mr_selects : pod_selects pod n;
  mr_ports : no_port_conflict ni pod;
}.

(** An optional field: empty stands for any value. *)
Lemma optional_mismatch (a b : string) : (0 <? String.length a)%nat && negb (a =? b)%string = false ↔ a = "" ∨ a = b.
Proof.
  rewrite andb_false_iff, negb_false_iff, String.eqb_eq. destruct a; cbn; naive_solver.
Qed.

Lemma ToleratesTaint_spec tol t : ToleratesTaint tol t = true ↔ tolerates tol t.
Proof.
  unfold ToleratesTaint, tolerates. rewrite <- (optional_mismatch (tol_Effect tol)), <- (optional_mismatch (tol_Key tol)).
  destruct (_ && _); [naive_solver|]. destruct (_ && _); [naive_solver|].
  destruct (String.eqb_spec (tol_Operator tol) "") as [->|H1]; [cbn; rewrite String.eqb_eq; naive_solver|].
  destruct (String.eqb_spec (tol_Operator tol) "Equal") as [->|H2]; [cbn; rewrite String.eqb_eq; naive_solver|].
  cbn [orb]. destruct (String.eqb_spec (tol_Operator tol) "Exists"); naive_solver.
Qed.

Lemma TolerationsTolerateTaint_spec pod t : TolerationsTolerateTaint (pod_Tolerations pod) t = true ↔ tolerated pod t.
Proof.
  unfold tolerated. induction (pod_Tolerations pod) as [|tol tols IH]; cbn [TolerationsTolerateTaint].
  - split; [done|]. by intros (tol & ?%not_elem_of_nil & _).
  - setoid_rewrite elem_of_cons. setoid_rewrite <- ToleratesTaint_spec in IH. setoid_rewrite <- ToleratesTaint_spec.
    destruct (ToleratesTaint tol t) eqn:Ht; [split; [|done]; intros _; exists tol; auto|].
    rewrite IH. split; intros (x & Hx & Hxt); exists x; (split; [|done]); [by right|]. destruct Hx as [->|Hx]; [congruence|done].
Qed.

Lemma FindMatchingUntoleratedTaint_spec taints pod f :
  FindMatchingUntoleratedTaint taints (pod_Tolerations pod) f = None ↔ ∀ t, t ∈ taints → f t = true → tolerated pod t.
Proof.
  unfold FindMatchingUntoleratedTaint. induction taints as [|t taints IH]; cbn [getFilteredTaints].
  - split; [|done]. by intros _ t ?%not_elem_of_nil.
  - assert ((∀ x, x ∈ t :: taints → f x = true → tolerated pod x) ↔
      (f t = true → tolerated pod t) ∧ ∀ x, x ∈ taints → f x = true → tolerated pod x) as ->.
    { setoid_rewrite elem_of_cons. split; [intros H; split; [|intros x Hx]; apply H; auto|]. intros [H1 H2] x [->|Hx]; auto. }
    destruct (f t) eqn:Hf; cbn [negb]; [|rewrite IH; by split; [|intros [_ ?]]].
    rewrite <- (TolerationsTolerateTaint_spec pod t). destruct (TolerationsTolerateTaint _ t); cbn [negb].
    + rewrite IH. by split; [|intros [_ ?]].
    + split; [done|]. intros [H _]. by specialize (H eq_refl).
Qed.

Section Exact.
Context (pod : Pod) (ni : NodeInfo) (n : Node) (Hn : node ni = Some n).

Lemma nodename_exact : nodename_Filter pod ni = None ↔ pod_NodeName pod = "" ∨ pod_NodeName pod = node_Name n.
Proof.
  unfold nodename_Filter, nodename_Fits. rewrite Hn, <- (String.eqb_eq _ (node_Name n)).
  destruct (pod_NodeName pod =? node_Name n)%string; [by rewrite orb_true_r; split; [right|]|].
  rewrite orb_false_r. destruct (pod_NodeName pod); cbn; [by split; [left|]|]. by split; [|intros [?|?]].
Qed.

Lemma unschedulable_exact :
  unschedulable_Filter pod ni = None ↔ (node_Unschedulable n = true → tolerated pod unschedulable_taint).
Proof.
  unfold unschedulable_Filter. rewrite Hn, <- TolerationsTolerateTaint_spec.
  destruct (node_Unschedulable n), (TolerationsTolerateTaint _ _); split; try done. intros H. by specialize (H eq_refl).
Qed.

Lemma taint_exact :
  taint_Filter pod ni = None ↔
  ∀ t, t ∈ node_Taints n → taint_Effect t = "NoSchedule" ∨ taint_Effect t = "NoExecute" → tolerated pod t.
Proof.
  unfold taint_Filter. rewrite Hn. pose proof (FindMatchingUntoleratedTaint_spec (node_Taints n) pod taint_filterPredicate) as H.
  unfold taint_filterPredicate at 2 in H. setoid_rewrite orb_true_iff in H. setoid_rewrite String.eqb_eq in H. rewrite <- H.
  by destruct (FindMatchingUntoleratedTaint _ _ _).
Qed.

Lemma ports_exact {Data} (wrap : list ContainerPort → Data) unwrap show (state : gmap string Data) :
  (∀ l, unwrap (wrap l) = Some l) → state !! ports_preFilterStateKey = Some (wrap (getContainerPorts [pod])) →
  ports_Filter unwrap show state ni = None ↔ no_port_conflict ni pod.
Proof.
  intros Hun Hst. unfold ports_Filter, ports_getPreFilterState, CycleState_Read. rewrite Hst, Hun.
  unfold no_port_conflict, fitsPorts, getContainerPorts. cbn [mbind list_bind]. rewrite app_nil_r.
  change (mbind Ports (pod_Containers pod)) with (pod_ports pod).
  rewrite Forall_forall. setoid_rewrite <- negb_true_iff. setoid_rewrite list_elem_of_In. rewrite <- forallb_forall.
  by destruct (forallb _ _).
Qed.
End Exact.

(** C29. The five filters together accept exactly the nodes a pod may run on:
    those with the name the pod asks for, which are schedulable or whose being
    unschedulable the pod tolerates, without an untolerated taint that keeps
    pods away, that satisfy the affinity of the configuration and the pod's
    node selector and required affinity, and on which the pod's host ports are
    free.  A refusal is unresolvable, except that of the ports: only those can
    be freed by preempting pods. *)
Theorem node_filters_exact {Data} (wrapA : RequiredNodeAffinity → Data) unwrapA (wrapP : list ContainerPort → Data) unwrapP show
    added (state : gmap string Data) pod ni n :
  (∀ r, unwrapA (wrapA r) = Some r) → (∀ l, unwrapP (wrapP l) = Some l) → node ni = Some n →
  let state := (ports_PreFilter wrapP (affinity_PreFilter wrapA state pod).1 pod).1 in
  let resolved := [nodename_Filter pod ni; unschedulable_Filter pod ni; taint_Filter pod ni;
                   affinity_Filter unwrapA (NewLazyErrorNodeSelector <$> added) state pod ni] in
  let ports := ports_Filter unwrapP show state ni in
  (Forall (λ v, v = None) (ports :: resolved) ↔ may_run added pod ni n) ∧
  Forall (λ v, v = None ∨ status_Code v = UnschedulableAndUnresolvable) resolved ∧
  (ports = None ∨ status_Code ports = Unschedulable).
Proof.
  intros HA HP Hn state1. cbv zeta.
  assert (state1 !! ports_preFilterStateKey = Some (wrapP (getContainerPorts [pod]))) as Hports by apply lookup_insert_eq.
  pose proof (ports_exact pod ni wrapP unwrapP show state1 HP Hports) as Hpe.
  assert (state1 !! affinity_preFilterStateKey = None ∨ ∃ s, state1 = (affinity_PreFilter wrapA s pod).1) as Haff.
  { right. exists (ports_PreFilter wrapP state pod).1. unfold state1, ports_PreFilter, affinity_PreFilter, CycleState_Write. cbn [fst].
    by apply insert_insert_ne. }
  destruct (node_affinity_filter wrapA unwrapA added state1 pod ni n HA Hn Haff) as [Hae Hac].
  split; [|rewrite !Forall_cons; split_and!].
  - rewrite !Forall_cons, Hpe, Hae, (nodename_exact pod ni n Hn), (unschedulable_exact pod ni n Hn), (taint_exact pod ni n Hn).
    split; [intros (? & ? & ? & ? & [? ?] & _); constructor; assumption|]. intros []. repeat (assumption || constructor).
  - unfold nodename_Filter. rewrite Hn. destruct (nodename_Fits pod n); [by left|by right].
  - unfold unschedulable_Filter. rewrite Hn. cbv zeta. destruct (node_Unschedulable n && _); [by right|by left].
  - unfold taint_Filter. rewrite Hn. destruct (FindMatchingUntoleratedTaint _ _ _); [by right|by left].
  - destruct Hac as [->|[rs ->]]; [by left|by right].
  - constructor.
  - unfold ports_Filter, ports_getPreFilterState, CycleState_Read. rewrite Hports, HP. destruct (fitsPorts _ _); [by left|by right].
Qed.

(** A pod that tolerates the taint of a cordoned node and uses a port, and the
    node with another pod on that port at another address. *)
Definition constrained_pod (ip : string) : Pod :=
  mkPod "a" "ns" "uid-a" "1" ∅ [mkContainer [mkPort 80 "" ip] ∅] [] None "" (pod_Affinity affinity_pod) None "" ""
    {["disk" := "ssd"]} [mkToleration "node.kubernetes.io/unschedulable" "Exists" "" ""] ∅ [] [] None [] None None [] "" None [].
Definition cordoned_node : Node :=
  mkNode "n" (<["cores" := "16"]> {["disk" := "ssd"]}) ∅ [] true [unschedulable_taint; mkTaint "spot" "yes" "PreferNoSchedule" None] [].
Definition cordoned_info : NodeInfo :=
  mkNodeInfo (Some cordoned_node) [] [] [] (hp_Add ∅ "10.0.0.1" "TCP" 80)
    (mkResource 0 0 0 0 ∅) (mkResource 0 0 0 0 ∅) (mkResource 0 0 0 0 ∅) ∅ 0.

Lemma node_filters_exact_witness :
  may_run None (constrained_pod "10.0.0.2") cordoned_info cordoned_node ∧
  ¬ may_run None (constrained_pod "") cordoned_info cordoned_node.
Proof.
  split.
  - apply (node_filters_exact (Data := RequiredNodeAffinity + list ContainerPort) inl (λ d, match d with inl r => Some r | _ => None end)
      inr (λ d, match d with inr l => Some l | _ => None end) (λ _, "") None ∅ (constrained_pod "10.0.0.2") cordoned_info cordoned_node);
      [done|done|reflexivity|]. repeat constructor.
  - intros H.
    apply (node_filters_exact (Data := RequiredNodeAffinity + list ContainerPort) inl (λ d, match d with inl r => Some r | _ => None end)
      inr (λ d, match d with inr l => Some l | _ => None end) (λ _, "") None ∅ (constrained_pod "") cordoned_info cordoned_node) in H;
      [|done|done|reflexivity]. apply Forall_inv in H. vm_compute in H. discriminate.
Defined.

(** ** Normalized scores *)

Lemma max_count_spec scores :
  let maxCount := foldl (λ maxCount s, if maxCount <? Score s then Score s else maxCount) 0 scores in
  0 ≤ maxCount ∧ (∀ s, s ∈ scores → Score s ≤ maxCount) ∧ (maxCount = 0 ∨ ∃ s, s ∈ scores ∧ Score s = maxCount).
Proof.
  induction scores as [|s scores IH] using rev_ind; [split; [done|]; split; [by intros s ?%not_elem_of_nil|by left]|].
  cbv zeta in *. rewrite foldl_app. cbn [foldl]. set (m := foldl _ _ scores) in *. clearbody m. destruct IH as (H0 & Hle & Hex).
  setoid_rewrite elem_of_app. setoid_rewrite list_elem_of_singleton. destruct (Z.ltb_spec m (Score s)).
  - split; [lia|]. split; [intros x [Hx| ->]; [specialize (Hle x Hx); lia|lia]|]. right. exists s. auto.
  - split; [done|]. split; [intros x [Hx| ->]; [by apply Hle|done]|]. destruct Hex as [?|(x & Hx & Heq)]; [by left|right; exists x; auto].
Qed.

(** Normalization brings scores into the range the framework demands.  For
    scores that are not negative and whose products with the maximal score fit
    64 bits, every result is between 0 and the maximum, each node keeps its
    place, and the order of the scores is kept, or reversed when the plugin
    asks for it; so the framework's check never fails on them. *)
Lemma normalize_score_range reverse scores :
  (∀ s, s ∈ scores → 0 ≤ Score s ∧ MaxNodeScore * Score s ≤ max_int64) →
  let '(r, status) := DefaultNormalizeScore MaxNodeScore reverse scores in
  status = None ∧ ns_Name <$> r = ns_Name <$> scores ∧
  (∀ s, s ∈ r → MinNodeScore ≤ Score s ≤ MaxNodeScore) ∧
  (∀ i j a b a' b', scores !! i = Some a → scores !! j = Some b → r !! i = Some a' → r !! j = Some b' →
    Score a ≤ Score b → if reverse then Score b' ≤ Score a' else Score a' ≤ Score b').
Proof.
  intros Hs. unfold DefaultNormalizeScore. destruct (max_count_spec scores) as (H0 & Hle & Hex). cbv zeta in *.
  set (m := foldl _ _ scores) in *. clearbody m. destruct (Z.eqb_spec m 0) as [->|Hm].
  { assert (∀ s, s ∈ scores → Score s = 0) as Hz by (intros s Hin; specialize (Hle s Hin); destruct (Hs s Hin); lia).
    split; [done|]. destruct reverse.
    - split; [by rewrite <- list_fmap_compose|]. split.
      + intros s (s' & -> & _)%list_elem_of_fmap. cbn. unfold MaxNodeScore, MinNodeScore. lia.
      + intros i j a b a' b' _ _ Ha Hb _. apply list_lookup_fmap_Some in Ha as (? & -> & _), Hb as (? & -> & _). done.
    - split; [done|]. split; [intros s Hin; rewrite (Hz s Hin); unfold MinNodeScore, MaxNodeScore; lia|]. intros. simplify_eq. lia. }
  assert (0 < m) as Hpos by lia.
  assert (∀ s, s ∈ scores → int64 (Z.quot (int64 (MaxNodeScore * Score s)) m) = MaxNodeScore * Score s / m ∧
    0 ≤ MaxNodeScore * Score s / m ≤ MaxNodeScore) as Hq.
  { intros s Hin. destruct (Hs s Hin) as [H1 H2]. specialize (Hle s Hin). unfold MaxNodeScore in *.
    assert (0 ≤ 100 * Score s / m ≤ 100) as Hr.
    { split; [apply Z.div_pos; lia|]. apply Z.div_le_upper_bound; lia. }
    split; [|done]. rewrite (int64_id (100 * Score s)) by (unfold min_int64; lia). rewrite Z.quot_div_nonneg by lia.
    apply int64_id. unfold min_int64, max_int64. lia. }
  assert (∀ s, s ∈ scores → int64 (MaxNodeScore - MaxNodeScore * Score s / m) = MaxNodeScore - MaxNodeScore * Score s / m) as Hr.
  { intros s Hin. apply Hq in Hin as [_ Hin]. apply int64_id. unfold MaxNodeScore, min_int64, max_int64 in *. lia. }
  split; [done|]. split; [by rewrite <- list_fmap_compose|]. split.
  - intros s (s' & -> & Hin)%list_elem_of_fmap. cbn [Score]. destruct (Hq s' Hin) as [-> ?]. unfold MinNodeScore.
    destruct reverse; [rewrite (Hr s' Hin)|]; lia.
  - intros i j a b a' b' Ha Hb Ha' Hb' Hab. rewrite list_lookup_fmap, Ha in Ha'. rewrite list_lookup_fmap, Hb in Hb'.
    injection Ha' as <-. injection Hb' as <-. cbn [Score]. apply list_elem_of_lookup_2 in Ha, Hb.
    rewrite (proj1 (Hq a Ha)), (proj1 (Hq b Hb)), (Hr a Ha), (Hr b Hb).
    assert (MaxNodeScore * Score a / m ≤ MaxNodeScore * Score b / m) by (apply Z.div_le_mono; unfold MaxNodeScore; lia).
    destruct reverse; lia.
Qed.

Lemma normalize_score_range_witness :
  (DefaultNormalizeScore MaxNodeScore true [mkScore "a" 3; mkScore "b" 0]).1 = [mkScore "a" 0; mkScore "b" 100] ∧
  ∀ s, s ∈ (DefaultNormalizeScore MaxNodeScore true [mkScore "a" 3; mkScore "b" 0]).1 → MinNodeScore ≤ Score s ≤ MaxNodeScore.
Proof.
  split; [reflexivity|].
  pose proof (normalize_score_range true [mkScore "a" 3; mkScore "b" 0]) as H.
  destruct (DefaultNormalizeScore MaxNodeScore true [mkScore "a" 3; mkScore "b" 0]) as [r st].
  apply H. intros s Hs. repeat (apply elem_of_cons in Hs as [->|Hs]; [vm_compute; split; discriminate|]). by apply not_elem_of_nil in Hs.
Defined.
