(* ===== verification/GenericScheduler.v ===== *)
(** * The scheduling algorithm: [pkg/scheduler/core/generic_scheduler.go]

    [Schedule] and what it calls.  The parallel search of the nodes takes the
    order in which its goroutines take turns as an argument, and the choice
    among the best nodes the numbers [rand.Intn] draws; extenders are records
    of their functions. *)

From S2P Require Import Prelude Labels ApiTypes NodeInfo FwkStatus Parallelizer FeasibleSearch NodeTree SchedCache Snapshot.
From S2P Require Import SchedQueue Framework.
#[local] Open Scope Z_scope.

Definition minFeasibleNodesToFind : Z := 100.
Definition minFeasibleNodesPercentageToFind : Z := 5.

(** The external process behind the interface [framework.Extender]: [inr] and
    [None] are errors, of [ext_Bind] it is success. *)
Record Extender := mkExtender {
  IsInterested : Pod → bool;
  IsIgnorable : bool;
  ext_Filter : Pod → list Node → (list Node * gmap string string * gmap string string) + string;
  ext_Prioritize : Pod → list Node → option (list (string * Z) * Z);
  IsBinder : bool;
  ext_Bind : Pod → string → option string;
}.

Record genericScheduler := mkGeneric {
  extenders : list Extender;
  nodeInfoSnapshot : Snapshot;
  percentageOfNodesToScore : Z;
  nextStartNodeIndex : nat;
}.

Definition set_index (g : genericScheduler) (i : nat) : genericScheduler :=
  mkGeneric (extenders g) (nodeInfoSnapshot g) (percentageOfNodesToScore g) i.
Definition set_snapshot (g : genericScheduler) (s : Snapshot) : genericScheduler :=
  mkGeneric (extenders g) s (percentageOfNodesToScore g) (nextStartNodeIndex g).

Record Diagnosis := mkDiagnosis { dg_statuses : gmap string Status; dg_plugins : gset string }.

Record ScheduleResult := mkResult { SuggestedHost : string; EvaluatedNodes : nat; FeasibleNodes : nat }.

Inductive schedule_outcome :=
| Suggested (r : ScheduleResult)
| ErrNoNodesAvailable
| FitError (NumAllNodes : Z) (diagnosis : Diagnosis)
| ScheduleError.

(** ** How many nodes to look for *)

Definition numFeasibleNodesToFind (percentage numAllNodes : Z) : Z :=
  if (numAllNodes <? minFeasibleNodesToFind) || (100 <=? percentage) then numAllNodes
  else
    let adaptivePercentage :=
      if percentage <=? 0 then
        let p := int32 (50 - Z.quot numAllNodes 125) in
        if p <? minFeasibleNodesPercentageToFind then minFeasibleNodesPercentageToFind else p
      else percentage in
    let numNodes := Z.quot (int32 (numAllNodes * adaptivePercentage)) 100 in
    if numNodes <? minFeasibleNodesToFind then minFeasibleNodesToFind else numNodes.

(** ** The choice of the host *)

(** [draw] is what [rand.Intn] returns for the bound it is given; one number of
    [draws] is used per call. *)
Fixpoint select_loop (draws : list nat) (l : list NodeScore) (maxScore : Z) (selected : string) (cntOfMaxScore : nat)
    : string :=
  match l with
  | [] => selected
  | ns :: l =>
      if maxScore <? Score ns then select_loop draws l (Score ns) (ns_Name ns) 1
      else if Score ns =? maxScore then
        let cntOfMaxScore := S cntOfMaxScore in
        let '(d, draws) := match draws with d :: draws => (d mod cntOfMaxScore, draws)%nat | [] => (0%nat, []) end in
        select_loop draws l maxScore (if (d =? 0)%nat then ns_Name ns else selected) cntOfMaxScore
      else select_loop draws l maxScore selected cntOfMaxScore
  end.

(** [None] for the error. *)
Definition selectHost (draws : list nat) (nodeScoreList : list NodeScore) : option string :=
  match nodeScoreList with
  | [] => None
  | ns :: l => Some (select_loop draws l (Score ns) (ns_Name ns) 1)
  end.

(** ** Extenders *)

Definition note_unresolvable (statuses : gmap string Status) (failed : string * string) : gmap string Status :=
  let '(failedNodeName, failedMsg) := failed in
  let aggregatedReasons := match statuses !! failedNodeName with Some s => reasons s | None => [] end in
  <[failedNodeName := NewStatus UnschedulableAndUnresolvable (aggregatedReasons ++ [failedMsg])]> statuses.

Definition note_failed (failedAndUnresolvable : gmap string string) (statuses : gmap string Status)
    (failed : string * string) : gmap string Status :=
  let '(failedNodeName, failedMsg) := failed in
  match failedAndUnresolvable !! failedNodeName with
  | Some _ => statuses
  | None =>
      match statuses !! failedNodeName with
      | None => <[failedNodeName := NewStatus Unschedulable [failedMsg]]> statuses
      | Some s => <[failedNodeName := AppendReason s failedMsg]> statuses
      end
  end.

(** The entries of the two maps are handled one by one; the order does not
    matter, as each entry touches its own node. *)
Fixpoint findNodesThatPassExtenders (exts : list Extender) (pod : Pod) (feasibleNodes : list Node)
    (statuses : gmap string Status) : (list Node + string) * gmap string Status :=
  match exts with
  | [] => (inl feasibleNodes, statuses)
  | extender :: exts =>
      if (length feasibleNodes =? 0)%nat then (inl feasibleNodes, statuses)
      else if negb (IsInterested extender pod) then findNodesThatPassExtenders exts pod feasibleNodes statuses
      else
        match ext_Filter extender pod feasibleNodes with
        | inr e =>
            if IsIgnorable extender then findNodesThatPassExtenders exts pod feasibleNodes statuses
            else (inr e, statuses)
        | inl (feasibleList, failedMap, failedAndUnresolvableMap) =>
            let statuses := foldl note_unresolvable statuses (map_to_list failedAndUnresolvableMap) in
            let statuses := foldl (note_failed failedAndUnresolvableMap) statuses (map_to_list failedMap) in
            findNodesThatPassExtenders exts pod feasibleList statuses
        end
  end.

Section Generic.
Context {Data : Type} (clone : Data → Data) (LocalStorageCapacityIsolation PodOverhead : bool).
Context (nominated : string → list PodInfo) (range : PluginToStatus → list string) (counter : Z).
Context (PreferNominatedNode : bool) (parallelism : nat).
Local Abbreviation State := (gmap string Data).
Local Abbreviation Framework := (frameworkImpl Data).
Implicit Types (fwk : frameworkImpl Data) (state : gmap string Data) (pod : Pod) (g : genericScheduler).

Local Abbreviation filters :=
  (RunFilterPluginsWithNominatedPods clone LocalStorageCapacityIsolation PodOverhead nominated range).

(** ** The search *)

(** A run of the goroutines in the given order, to the end. *)
Definition run_search {Nd} (node_at : nat → Nd) name_at status_at numNodesToFind pieces (d : Diagnosis) (order : list nat)
    : option (search Nd) :=
  let size := effective_chunk (chunkSizeFor pieces parallelism) in
  let start := ParallelizeUntil size pieces parallelism (start_search numNodesToFind (dg_statuses d) (dg_plugins d)) in
  st ← foldl (λ o i, o ≫= advance canceled CheckNode (checkNode node_at name_at status_at numNodesToFind) size pieces i)
         (Some start) order;
  if decide (all_returned st) then Some (shared st) else None.

Definition node_name (ni : NodeInfo) : string := match node ni with Some nd => node_Name nd | None => EmptyString end.

(** [None] when the order is not one of a complete run. *)
Definition findNodesThatPassFilters g fwk state pod (d : Diagnosis) (nodes : list NodeInfo) (order : list nat)
    : option (genericScheduler * Diagnosis * (list (option Node) + string)) :=
  let numNodesToFind := Z.to_nat (numFeasibleNodesToFind (percentageOfNodesToScore g) (int32 (Z.of_nat (length nodes)))) in
  let info_at (i : nat) := nth ((nextStartNodeIndex g + i) mod length nodes) nodes zero_NodeInfo in
  if negb (HasFilterPlugins fwk) then
    let feasibleNodes := (λ i, node (info_at i)) <$> seq 0 numNodesToFind in
    Some (set_index g ((nextStartNodeIndex g + length feasibleNodes) mod length nodes), d, inl feasibleNodes)
  else
    s ← run_search (λ i, node (info_at i)) (λ i, node_name (info_at i)) (λ i, filters fwk state pod (info_at i) counter)
          numNodesToFind (length nodes) d order;
    let processedNodes := (Z.to_nat (feasibleNodesLen s) + size (NodeToStatusMap s))%nat in
    let g := set_index g ((nextStartNodeIndex g + processedNodes) mod length nodes) in
    let d := mkDiagnosis (NodeToStatusMap s) (FeasibleSearch.UnschedulablePlugins s) in
    Some (g, d, match errCh s with
                | Some e => inr e
                | None => inl (from_option id None <$> take (Z.to_nat (feasibleNodesLen s)) (feasibleNodes s))
                end).

(** The nodes of the list; the search leaves no nil in it. *)
Definition node_objects (l : list (option Node)) : list Node := omap id l.

(** The error of the evaluation is only logged; the diagnosis is shared. *)
Definition evaluateNominatedNode g fwk state pod (d : Diagnosis) (order : list nat)
    : option (genericScheduler * Diagnosis * list Node) :=
  match Snapshot.Get (nodeInfoSnapshot g) (pod_NominatedNodeName pod) with
  | None => Some (g, d, [])
  | Some nodeInfo =>
      '(g, d, r) ← findNodesThatPassFilters g fwk state pod d [nodeInfo] order;
      match r with
      | inr _ => Some (g, d, [])
      | inl feasible =>
          let '(r, statuses) :=
            findNodesThatPassExtenders (extenders g) pod (node_objects feasible) (dg_statuses d) in
          Some (g, mkDiagnosis statuses (dg_plugins d), match r with inl feasible => feasible | inr _ => [] end)
      end
  end.

(** The search of all nodes. *)
Definition find_in_all g fwk state pod (d : Diagnosis) (allNodes : list NodeInfo) (order : list nat)
    : option (genericScheduler * Diagnosis * (list Node + string)) :=
  '(g, d, r) ← findNodesThatPassFilters g fwk state pod d allNodes order;
  match r with
  | inr e => Some (g, d, inr e)
  | inl feasible =>
      let '(r, statuses) :=
        findNodesThatPassExtenders (extenders g) pod (node_objects feasible) (dg_statuses d) in
      Some (g, mkDiagnosis statuses (dg_plugins d), r)
  end.

Definition findNodesThatFitPod g fwk state pod (order1 order2 : list nat)
    : option (genericScheduler * State * Diagnosis * (list Node + string)) :=
  let d := mkDiagnosis ∅ ∅ in
  let '(state, s) := RunPreFilterPlugins fwk state pod in
  let allNodes := List_ (nodeInfoSnapshot g) in
  if negb (IsSuccess s) then
    if negb (IsUnschedulable s) then Some (g, state, d, inr (default EmptyString (AsError s)))
    else
      match s with
      | None => None
      | Some st =>
          Some (g, state,
            mkDiagnosis (foldl (λ m n, <[node_name n := st]> m) ∅ allNodes) {[failedPlugin st]}, inl [])
      end
  else
    '(g, d, feasible) ←
      (if (0 <? String.length (pod_NominatedNodeName pod))%nat && PreferNominatedNode
       then evaluateNominatedNode g fwk state pod d order1 else Some (g, d, []));
    if negb (length feasible =? 0)%nat then Some (g, state, d, inl feasible)
    else
      '(g, d, r) ← find_in_all g fwk state pod d allNodes order2;
      Some (g, state, d, r).

(** ** Scores *)

Definition MaxExtenderPriority : Z := 10.

(** The goroutines of the extenders add under a lock; the sums do not depend on
    their order. *)
Definition extender_scores (exts : list Extender) pod (nodes : list Node) : gmap string Z :=
  foldl (λ combinedScores ext,
    if negb (IsInterested ext pod) then combinedScores
    else match ext_Prioritize ext pod nodes with
         | None => combinedScores
         | Some (prioritizedList, weight) =>
             foldl (λ m '(host, score), <[host := int64 (default 0 (m !! host) + int64 (score * weight))]> m)
               combinedScores prioritizedList
         end) ∅ exts.

Definition sum_scores (scoresMap : list (string * list NodeScore)) (i : nat) : Z :=
  foldl (λ acc '(_, scores), match scores !! i with Some ns => int64 (acc + Score ns) | None => acc end) 0 scoresMap.

Definition prioritizeNodes g fwk state pod (nodes : list Node) : State * option (list NodeScore) :=
  if (length (extenders g) =? 0)%nat && negb (HasScorePlugins fwk) then
    (state, Some ((λ nd, mkScore (node_Name nd) 1) <$> nodes))
  else
    let '(state, preScoreStatus) := RunPreScorePlugins fwk state pod nodes in
    if negb (IsSuccess preScoreStatus) then (state, None)
    else
      match RunScorePlugins fwk state pod nodes with
      | None => (state, None)
      | Some scoresMap =>
          let result := imap (λ i nd, mkScore (node_Name nd) (sum_scores scoresMap i)) nodes in
          (state, Some
            (if (length (extenders g) =? 0)%nat then result
             else
               let combinedScores := extender_scores (extenders g) pod nodes in
               (λ ns, mkScore (ns_Name ns)
                        (int64 (Score ns + int64 (default 0 (combinedScores !! ns_Name ns) *
                                                    Z.quot MaxNodeScore MaxExtenderPriority)))) <$> result))
      end.

(** ** [Schedule] *)

(** What one run of [Schedule] is given by its environment: the orders of the
    goroutines of the two searches, the numbers drawn, and the order in which
    the snapshot walks its map. *)
Record choices := mkChoices { ch_order1 : list nat; ch_order2 : list nat; ch_draws : list nat }.

Definition Schedule (snapshot_range : gmap string nat → list string) (cache : schedulerCache) g fwk state pod (ch : choices)
    : option (genericScheduler * State * schedule_outcome) :=
  '(s, ok) ← UpdateSnapshot snapshot_range cache (nodeInfoSnapshot g);
  let g := set_snapshot g s in
  if negb ok then Some (g, state, ScheduleError)
  else if NumNodes s =? 0 then Some (g, state, ErrNoNodesAvailable)
  else
    '(g, state, diagnosis, r) ← findNodesThatFitPod g fwk state pod (ch_order1 ch) (ch_order2 ch);
    match r with
    | inr _ => Some (g, state, ScheduleError)
    | inl [] => Some (g, state, FitError (NumNodes s) diagnosis)
    | inl [nd] => Some (g, state, Suggested (mkResult (node_Name nd) (1 + size (dg_statuses diagnosis)) 1))
    | inl feasibleNodes =>
        let '(state, priorityList) := prioritizeNodes g fwk state pod feasibleNodes in
        match priorityList with
        | None => Some (g, state, ScheduleError)
        | Some priorityList =>
            match selectHost (ch_draws ch) priorityList with
            | None => Some (g, state, ScheduleError)
            | Some host =>
                Some (g, state, Suggested (mkResult host (length feasibleNodes + size (dg_statuses diagnosis))
                                             (length feasibleNodes)))
            end
        end
    end.
End Generic.
