(* ===== verification/Scores.v ===== *)
(** * The sums of the scores

    [NewFramework] refuses weights whose total could overflow; with the weights
    it accepts, [prioritizeNodes] adds up the weighted scores exactly. *)

From S2P Require Import Prelude Labels ApiTypes NodeInfo FwkStatus Parallelizer FeasibleSearch NodeTree SchedCache Snapshot.
From S2P Require Import SchedQueue Framework GenericScheduler.
#[local] Open Scope Z_scope.

(** The weight a plugin gets. *)
Definition effective (weight : Z) : Z := if weight =? 0 then 1 else weight.

(** The weights of a configuration: 32-bit numbers that are not negative, one
    per plugin. *)
Definition valid_weights (weights : list (string * Z)) : Prop :=
  NoDup weights.*1 ∧ ∀ name w, (name, w) ∈ weights → 0 ≤ w < 2 ^ 31.

Lemma effective_bounds w : 0 ≤ w < 2 ^ 31 → 1 ≤ effective w < 2 ^ 31.
Proof. unfold effective. destruct (Z.eqb_spec w 0); lia. Qed.

Lemma check_weights_spec weights : ∀ total m m',
  valid_weights weights → 0 ≤ total ≤ MaxTotalScore → check_weights weights total m = Some m' →
  total + zsum (λ nw, effective nw.2 * MaxNodeScore) weights ≤ MaxTotalScore ∧
  (∀ name w, (name, w) ∈ weights → m' !! name = Some (effective w)) ∧
  ∀ name, name ∉ weights.*1 → m' !! name = m !! name.
Proof.
  induction weights as [|[name w] weights IH]; intros total m m' [Hnd Hb] Ht; simpl.
  { intros [= <-]. split_and!; [lia| |done]. by intros ? ? ?%not_elem_of_nil. }
  fold (effective w). pose proof (effective_bounds w (Hb name w (list_elem_of_here _ _))) as He.
  assert (int64 (effective w * MaxNodeScore) = effective w * MaxNodeScore) as ->.
  { apply int64_id. unfold MaxNodeScore, min_int64, max_int64. lia. }
  rewrite int64_id by (unfold MaxTotalScore, min_int64, max_int64 in *; lia).
  destruct (Z.ltb_spec (MaxTotalScore - total) (effective w * MaxNodeScore)) as [|Hle]; [done|].
  rewrite int64_id by (unfold MaxTotalScore, MaxNodeScore, min_int64, max_int64 in *; lia).
  apply NoDup_cons in Hnd as [Hname Hnd]. intros Hc. apply IH in Hc as (H1 & H2 & H3).
  - split_and!; [simpl; lia| |].
    + intros n' w' [[= -> ->]|Hin]%elem_of_cons; [rewrite H3 by done; apply lookup_insert_eq|by apply H2].
    + intros n' Hn'. apply not_elem_of_cons in Hn' as [Hne Hn']. rewrite H3 by done. by apply lookup_insert_ne.
  - split; [done|]. intros n' w' Hin. apply (Hb n'). by right.
  - unfold MaxNodeScore in *. lia.
Qed.

Lemma zsum_submseteq {A} (f : A → Z) l k : (∀ x, x ∈ k → 0 ≤ f x) → l ⊆+ k → zsum f l ≤ zsum f k.
Proof.
  intros Hf [r Hp]%submseteq_Permutation. rewrite (zsum_perm _ _ _ Hp), zsum_app.
  assert (0 ≤ zsum f r); [|lia]. apply zsum_nonneg, Forall_forall. intros x Hx. apply Hf. rewrite Hp.
  apply elem_of_app. by right.
Qed.

Section Sums.
Context {Data : Type} (f : frameworkImpl Data) (weights : list (string * Z)).
Context (valid : valid_weights weights).
Context (accepted : check_weights weights 0 ∅ = Some (pluginNameToWeightMap f)).
Context (names : NoDup (sc_Name <$> scorePlugins f)).
Context (configured : ∀ pl, pl ∈ scorePlugins f → sc_Name pl ∈ weights.*1).

Definition weight_of (name : string) : Z := default 0 (pluginNameToWeightMap f !! name).

Lemma weight_spec pl : pl ∈ scorePlugins f → 1 ≤ weight_of (sc_Name pl) < 2 ^ 31.
Proof.
  intros Hpl%configured. apply list_elem_of_fmap in Hpl as ([n w] & Hn & Hin). simpl in Hn. rewrite Hn.
  apply check_weights_spec in accepted as (_ & H & _); [|done|unfold MaxTotalScore, max_int64; lia].
  unfold weight_of. rewrite (H n w Hin). simpl. apply effective_bounds. by eapply valid.
Qed.

Lemma weights_total : zsum (λ pl, weight_of (sc_Name pl) * MaxNodeScore) (scorePlugins f) ≤ MaxTotalScore.
Proof.
  pose proof accepted as Hacc. apply check_weights_spec in Hacc as (Ht & H & _); [|done|unfold MaxTotalScore, max_int64; lia].
  change (zsum ((λ n, weight_of n * MaxNodeScore) ∘ sc_Name) (scorePlugins f) ≤ MaxTotalScore). rewrite <- zsum_fmap.
  assert (zsum (λ n, weight_of n * MaxNodeScore) weights.*1 = zsum (λ nw, effective nw.2 * MaxNodeScore) weights) as Heq.
  { rewrite zsum_fmap. clear -H. induction weights as [|[n w] l IH]; [done|]. simpl. rewrite IH by (intros; apply H; by right).
    unfold compose, weight_of. simpl. by rewrite (H n w (list_elem_of_here _ _)). }
  rewrite <- Heq in Ht. etrans; [apply (zsum_submseteq _ _ weights.*1)|lia].
  - intros n Hn. apply list_elem_of_fmap in Hn as ([n' w] & -> & Hin). unfold weight_of. simpl. rewrite (H n' w Hin). simpl.
    pose proof (effective_bounds w (proj2 valid n' w Hin)). unfold MaxNodeScore. lia.
  - apply NoDup_submseteq; [done|]. intros n Hn. apply list_elem_of_fmap in Hn as (pl & -> & Hpl). by apply configured.
Qed.

(** The score a plugin gives to node number [i]: what its [Score] returns for
    the nodes, normalized if the plugin does so. *)
Definition plugin_scores (pl : ScorePlugin Data) (state : gmap string Data) (pod : Pod) (nodes : list Node) : list NodeScore :=
  let scores := (λ nd, mkScore (node_Name nd) (sc_Score pl state pod (node_Name nd)).1) <$> nodes in
  match sc_Normalize pl with
  | None => scores
  | Some NormalizeScore => (NormalizeScore state pod scores).1
  end.

Definition plugin_score (pl : ScorePlugin Data) (state : gmap string Data) (pod : Pod) (nodes : list Node) (i : nat) : Z :=
  default 0 (Score <$> plugin_scores pl state pod nodes !! i).

Lemma score_nodes_spec pl state pod nodes l l' :
  score_nodes pl state pod nodes = Some l → normalize pl state pod l = Some l' → l' = plugin_scores pl state pod nodes.
Proof.
  intros Hs Hn. assert (l = (λ nd, mkScore (node_Name nd) (sc_Score pl state pod (node_Name nd)).1) <$> nodes) as ->.
  { clear Hn. apply mapM_Some in Hs. induction Hs as [|nd ns nodes l Hnd _ IH]; [done|].
    rewrite IH, fmap_cons. f_equal. simpl in Hnd. destruct (sc_Score _ _ _ _) as [x st]. destruct (IsSuccess st); [|done].
    by injection Hnd as <-. }
  unfold normalize in Hn. unfold plugin_scores. destruct (sc_Normalize pl) as [N|]; [|congruence].
  destruct (N state pod _) as [l1 st]. destruct (IsSuccess st); [|done]. by injection Hn as <-.
Qed.

Lemma apply_weight_spec w scores l i :
  0 ≤ w < 2 ^ 31 → apply_weight w scores = Some l →
  let x := default 0 (Score <$> scores !! i) in
  MinNodeScore ≤ x ≤ MaxNodeScore ∧ default 0 (Score <$> l !! i) = w * x.
Proof.
  intros Hw Hm. apply mapM_Some in Hm. destruct (scores !! i) as [ns0|] eqn:Hi.
  - destruct (Forall2_lookup_l _ _ _ _ _ Hm Hi) as (ns & Hns & Hs). rewrite Hns. simpl.
    destruct (Z.ltb_spec MaxNodeScore (Score ns0)), (Z.ltb_spec (Score ns0) MinNodeScore); try done.
    injection Hs as <-. split; [lia|]. simpl.
    unfold MaxNodeScore, MinNodeScore in *. rewrite (int64_id w), int64_id; unfold min_int64, max_int64; [ring|nia|lia].
  - apply lookup_ge_None in Hi. rewrite (Forall2_length _ _ _ Hm) in Hi. rewrite (lookup_ge_None_2 l i Hi).
    unfold MinNodeScore, MaxNodeScore. simpl. lia.
Qed.

(** The entry of a plugin: its score for a node, times its weight. *)
Definition weighted state pod nodes i (pl : ScorePlugin Data) (entry : string * list NodeScore) : Prop :=
  MinNodeScore ≤ plugin_score pl state pod nodes i ≤ MaxNodeScore ∧
  default 0 (Score <$> entry.2 !! i) = weight_of (sc_Name pl) * plugin_score pl state pod nodes i.

Lemma RunScorePlugins_weighted state pod nodes i m :
  RunScorePlugins f state pod nodes = Some m → Forall2 (weighted state pod nodes i) (scorePlugins f) m.
Proof.
  unfold RunScorePlugins. destruct (mapM _ (scorePlugins f)) as [scored|] eqn:H1; [|done]. cbn [mbind option_bind].
  destruct (mapM _ scored) as [normalized|] eqn:H2; [|done]. cbn [mbind option_bind]. intros H3.
  apply mapM_Some in H1, H2, H3.
  apply Forall2_same_length_lookup_2.
  { rewrite (Forall2_length _ _ _ H1), (Forall2_length _ _ _ H2). by eapply Forall2_length. }
  intros j pl entry Hpl He. destruct (Forall2_lookup_r _ _ _ _ _ H3 He) as ([pl2 l2] & Hl2 & Hw).
  destruct (Forall2_lookup_r _ _ _ _ _ H2 Hl2) as ([pl1 l1] & Hl1 & Hn).
  pose proof (Forall2_lookup_lr _ _ _ _ _ _ H1 Hpl Hl1) as Hs. simpl in Hs, Hn.
  destruct (score_nodes _ _ _ _) as [l|] eqn:Hscore; [|done]. simpl in Hs. injection Hs as <- <-.
  destruct (normalize _ _ _ _) as [l'|] eqn:Hnorm; [|done]. simpl in Hn. injection Hn as <- <-.
  fold (weight_of (sc_Name pl)) in Hw. destruct (apply_weight _ _) as [lw|] eqn:Ha; [|done]. injection Hw as <-.
  rewrite (score_nodes_spec _ _ _ _ _ _ Hscore Hnorm) in Ha.
  assert (pl ∈ scorePlugins f) as Hin by by eapply list_elem_of_lookup_2. pose proof (weight_spec pl Hin).
  apply (apply_weight_spec _ _ _ i) in Ha; [done|lia].
Qed.

(** One node: the exact sum, which stays below the bound. *)
Lemma sum_exact state pod nodes i plugins m acc :
  Forall2 (weighted state pod nodes i) plugins m → (∀ pl, pl ∈ plugins → pl ∈ scorePlugins f) → 0 ≤ acc →
  acc + zsum (λ pl, weight_of (sc_Name pl) * MaxNodeScore) plugins ≤ MaxTotalScore →
  let total := acc + zsum (λ pl, weight_of (sc_Name pl) * plugin_score pl state pod nodes i) plugins in
  foldl (λ acc '(_, scores), match scores !! i with Some ns => int64 (acc + Score ns) | None => acc end) acc m = total ∧
  acc ≤ total ≤ MaxTotalScore.
Proof.
  intros Hf. revert acc. induction Hf as [|pl [n l] plugins m [Hx Hw] Hf IH]; intros acc Hin H0 Hmax; simpl in *; [lia|].
  pose proof (weight_spec pl (Hin pl (list_elem_of_here _ _))) as Hwb. set (x := plugin_score pl state pod nodes i) in *.
  assert (0 ≤ zsum (λ pl, weight_of (sc_Name pl) * MaxNodeScore) plugins) as Hnn.
  { apply zsum_nonneg, Forall_forall. intros pl' Hpl'. pose proof (weight_spec pl' (Hin pl' ltac:(by right))).
    unfold MaxNodeScore. lia. }
  assert (match l !! i with Some ns => int64 (acc + Score ns) | None => acc end = acc + weight_of (sc_Name pl) * x) as ->.
  { destruct (l !! i) as [ns|]; simpl in Hw; [rewrite Hw|lia].
    apply int64_id. unfold MinNodeScore, MaxNodeScore, MaxTotalScore, min_int64, max_int64 in *. nia. }
  destruct (IH (acc + weight_of (sc_Name pl) * x)) as [Heq Hb].
  - intros pl' Hpl'. apply Hin. by right.
  - unfold MinNodeScore in Hx. nia.
  - unfold MinNodeScore, MaxNodeScore in *. nia.
  - rewrite Heq. unfold MinNodeScore in Hx. split; [lia|nia].
Qed.
End Sums.


(** ** A witness *)

Section Sample.
Local Open Scope string_scope.

(** Two plugins: one gives every node 100, the other 40. *)
Definition score_framework : frameworkImpl unit :=
  mkFramework [] [] [] []
    [mkScorePlugin "most" (λ _ _ _, (100, None)) None; mkScorePlugin "some" (λ _ _ _, (40, None)) None]
    [] [] [] [] (<["some" := 1]> (<["most" := 3]> ∅)) false.

Definition score_pod : Pod := mkPod "p" "ns" "u" "1" ∅ [] [] None "" None None "" "" ∅ [] ∅ [] [] None [] None None [] "" None [].

End Sample.
