(* ===== verification/GenericProps.v ===== *)
(** * What the scheduling algorithm guarantees

    The nodes [Schedule] of [GenericScheduler] suggests, and when it finds
    none. *)

From S2P Require Import Prelude Labels ApiTypes NodeInfo FwkStatus NodeResourcesFit Parallelizer FeasibleSearch.
From S2P Require Import NodeTree SchedCache CacheEvents Snapshot SchedQueue Framework GenericScheduler.
#[local] Open Scope Z_scope.

(** ** How many nodes *)

Lemma numFeasible_bounds percentage numAllNodes :
  0 ≤ numAllNodes ≤ 21474836 →
  Z.min numAllNodes minFeasibleNodesToFind ≤ numFeasibleNodesToFind percentage numAllNodes ≤ numAllNodes.
Proof.
  intros Hn. unfold numFeasibleNodesToFind, minFeasibleNodesToFind, minFeasibleNodesPercentageToFind.
  destruct (Z.ltb_spec numAllNodes 100); simpl; [lia|]. destruct (Z.leb_spec 100 percentage); [lia|].
  assert (0 ≤ Z.quot numAllNodes 125 ≤ numAllNodes) as Hq.
  { rewrite Z.quot_div_nonneg by lia. split; [apply Z.div_pos; lia|]. apply Z.div_le_upper_bound; lia. }
  rewrite (int32_id (50 - _)) by lia. set (p := if percentage <=? 0 then _ else _).
  assert (1 ≤ p ≤ 99) as Hp.
  { unfold p. destruct (Z.leb_spec percentage 0); [|lia]. destruct (Z.ltb_spec (50 - Z.quot numAllNodes 125) 5); lia. }
  rewrite int32_id by nia. rewrite Z.quot_div_nonneg by nia.
  assert (numAllNodes * p / 100 ≤ numAllNodes) by (apply Z.div_le_upper_bound; nia).
  destruct (Z.ltb_spec (numAllNodes * p / 100) 100); lia.
Qed.

(** ** The host *)

Lemma select_loop_spec l : ∀ draws maxScore selected cnt (seen : list NodeScore),
  (∃ ns, ns ∈ seen ∧ ns_Name ns = selected ∧ Score ns = maxScore) → (∀ ns, ns ∈ seen → Score ns ≤ maxScore) →
  ∃ ns, ns ∈ seen ++ l ∧ ns_Name ns = select_loop draws l maxScore selected cnt ∧
    ∀ ns', ns' ∈ seen ++ l → Score ns' ≤ Score ns.
Proof.
  induction l as [|x l IH]; intros draws mx sel cnt seen (ns & Hin & Hn & Hs) Hle; cbn [select_loop].
  { exists ns. rewrite app_nil_r. split_and!; [done|done|]. intros. rewrite Hs. by apply Hle. }
  rewrite cons_middle, app_assoc.
  assert (∀ y, y ∈ seen ++ [x] → y ∈ seen ∨ y = x) as Hcases by (intros y; rewrite elem_of_app, list_elem_of_singleton; tauto).
  assert (∀ mx', mx ≤ mx' → Score x ≤ mx' → ∀ y, y ∈ seen ++ [x] → Score y ≤ mx') as Hle'.
  { intros mx' H1 H2 y [Hy| ->]%Hcases; [apply Hle in Hy; lia|done]. }
  assert (x ∈ seen ++ [x] ∧ ns ∈ seen ++ [x]) as [Hx Hns] by set_solver.
  destruct (Z.ltb_spec mx (Score x)); [apply IH; [by exists x|apply Hle'; lia]|].
  destruct (Z.eqb_spec (Score x) mx) as [Heq|]; [|apply IH; [by exists ns|apply Hle'; lia]].
  set (pr := match draws with [] => _ | _ => _ end). destruct pr as [d draws'].
  apply IH; [destruct (d =? 0)%nat; [by exists x|by exists ns]|apply Hle'; lia].
Qed.

(** The host is one of the nodes with the highest score. *)
Lemma selectHost_spec draws l host :
  selectHost draws l = Some host → ∃ ns, ns ∈ l ∧ ns_Name ns = host ∧ ∀ ns', ns' ∈ l → Score ns' ≤ Score ns.
Proof.
  destruct l as [|x l]; [done|]. intros [= <-].
  destruct (select_loop_spec l draws (Score x) (ns_Name x) 1 [x]) as (ns & ? & ? & ?); [exists x; set_solver| |by exists ns].
  by intros ns ->%list_elem_of_singleton.
Qed.

(** ** The search *)

Section Rotation.
Context {A : Type} (l : list A) (d : A) (start : nat).
Local Abbreviation index i := ((start + i) mod length l)%nat.

Lemma index_lt i : l ≠ [] → (index i < length l)%nat.
Proof. intros Hl. apply Nat.mod_upper_bound. by destruct l. Qed.

Lemma index_inj i j : (i < length l)%nat → (j < length l)%nat → index i = index j → i = j.
Proof.
  intros Hi Hj He. assert (length l ≠ 0)%nat as Hl by lia.
  pose proof (Nat.div_mod (start + i) (length l) Hl) as H1. pose proof (Nat.div_mod (start + j) (length l) Hl) as H2.
  rewrite He in H1. set (n := length l) in *. set (r := index j) in *.
  destruct (Nat.lt_trichotomy ((start + i) / n) ((start + j) / n)) as [?|[Hq|?]]; [nia| |nia]. rewrite Hq in H1. lia.
Qed.

Lemma rotated : (λ i, nth (index i) l d) <$> seq 0 (length l) ≡ₚ l.
Proof.
  destruct (decide (l = [])) as [->|Hl]; [done|].
  assert ((λ i, index i) <$> seq 0 (length l) ≡ₚ seq 0 (length l)) as Hp.
  { apply submseteq_length_Permutation; [|by rewrite length_fmap]. apply NoDup_submseteq.
    - apply NoDup_fmap_2_strong; [|apply NoDup_seq]. intros i j Hi%elem_of_seq Hj%elem_of_seq. apply index_inj; lia.
    - intros x (i & -> & _)%list_elem_of_fmap. apply elem_of_seq. pose proof (index_lt i Hl). lia. }
  assert ((λ i, nth i l d) <$> seq 0 (length l) = l) as Hn.
  { clear. apply list_eq. intros i. rewrite list_lookup_fmap. destruct (decide (i < length l)%nat) as [Hi|Hi].
    - rewrite lookup_seq_lt by done. simpl. destruct (nth_lookup_or_length l i d) as [->|]; [done|lia].
    - rewrite lookup_seq_ge, (lookup_ge_None_2 l) by lia. done. }
  transitivity ((λ i, nth i l d) <$> ((λ i, index i) <$> seq 0 (length l))).
  - by rewrite <- list_fmap_compose.
  - rewrite Hp. by rewrite Hn.
Qed.
End Rotation.

Lemma filter_fmap_length {A B} (f : A → B) (P : B → Prop) `{!∀ x, Decision (P x)} (l : list A) :
  length (filter P (f <$> l)) = length (filter (λ x, P (f x)) l).
Proof.
  induction l as [|x l IH]; [done|]. rewrite fmap_cons, !filter_cons. simpl.
  destruct (decide (P (f x))); simpl; by rewrite IH.
Qed.

Section Props.
Context {Data : Type} (clone : Data → Data) (lsci overhead : bool).
Context (nominated : string → list PodInfo) (range : PluginToStatus → list string) (counter : Z).
Context (PreferNominatedNode : bool) (parallelism : nat).
Context (range_keys : ∀ m, range m ≡ₚ (map_to_list m).*1) (clone_id : ∀ d, clone d = d).
Context (par : (0 < parallelism)%nat ∧ Z.of_nat parallelism ≤ 2 ^ 20).
Implicit Types (fwk : frameworkImpl Data) (state : gmap string Data) (pod : Pod) (g : genericScheduler).

Local Abbreviation filters := (RunFilterPluginsWithNominatedPods clone lsci overhead nominated range).
Local Abbreviation pass_filters :=
  (findNodesThatPassFilters clone lsci overhead nominated range counter parallelism).

(** The filters accept the node, without and with the nominated pods. *)
Definition accepted fwk state pod (ni : NodeInfo) : Prop :=
  HasFilterPlugins fwk = false ∨ IsSuccess (filters fwk state pod ni counter) = true.

#[local] Instance accepted_dec fwk state pod ni : Decision (accepted fwk state pod ni).
Proof. unfold accepted. apply _. Defined.

(** Nodes of a snapshot: with node objects, of different names, not too many. *)
Record node_list (nodes : list NodeInfo) : Prop := {
  nl_node ni : ni ∈ nodes → is_Some (node ni);
  nl_names : NoDup (node_name <$> nodes);
  nl_length : Z.of_nat (length nodes) ≤ 21474836;
}.

Lemma trace_run_pool {Sh Act} (adv : nat → pool Sh Act → option (pool Sh Act)) st order st' :
  trace (λ st i st', adv i st = Some st') st order st' → foldl (λ o i, o ≫= adv i) (Some st) order = Some st'.
Proof. induction 1 as [|st i st1 order st2 Hs _ IH]; [done|]. simpl. by rewrite Hs. Qed.

Lemma run_search_exists {Nd} (node_at : nat → Nd) name_at status_at N pieces d :
  ∃ order s, run_search parallelism node_at name_at status_at N pieces d order = Some s.
Proof.
  unfold run_search. set (start := ParallelizeUntil _ _ _ _). set (size := effective_chunk _) in *.
  assert (0 < size)%nat as Hsize by (unfold size, effective_chunk; destruct (Nat.ltb_spec (chunkSizeFor pieces parallelism) 1); lia).
  destruct (complete_run canceled CheckNode (checkNode node_at name_at status_at N) size pieces Hsize
    action_rank 3 ltac:(done) (checkNode_rank _ _ _ _) start) as (order & st & Ht & Hr).
  exists order, (shared st). rewrite (trace_run_pool _ _ _ _ Ht). cbn [mbind option_bind]. by rewrite decide_True.
Qed.

Lemma run_search_found {Nd} (node_at : nat → Nd) name_at status_at N pieces d order s :
  Z.of_nat N + Z.of_nat parallelism + 1 < 2 ^ 31 →
  (∀ i j, (i < pieces)%nat → (j < pieces)%nat → name_at i = name_at j → i = j) →
  run_search parallelism node_at name_at status_at N pieces d order = Some s →
  ∃ taken, found node_at name_at status_at N pieces (dg_statuses d) s taken.
Proof.
  intros Hw Hn. unfold run_search. set (start := ParallelizeUntil _ _ _ _). set (size := effective_chunk _).
  destruct (foldl _ _ _) as [st|] eqn:Hf; [|done]. cbn [mbind option_bind]. case_decide as Hr; [|done]. intros [= <-].
  apply run_pool_trace in Hf.
  assert (0 < size)%nat as Hsize by (unfold size, effective_chunk; destruct (Nat.ltb_spec (chunkSizeFor pieces parallelism) 1); lia).
  destruct (search_trace node_at name_at status_at N pieces parallelism (dg_statuses d) (dg_plugins d) Hw Hn size
    Hsize order st (proj1 par) Hf) as [Hpool [taken Hs]].
  exists taken. apply (search_found _ _ _ _ _ parallelism _ (dg_plugins d) size Hsize st taken Hs Hr).
  by apply (returned_done _ _ _ Hsize).
Qed.

(** How many nodes are looked for. *)
Definition wanted g (nodes : list NodeInfo) : nat :=
  Z.to_nat (numFeasibleNodesToFind (percentageOfNodesToScore g) (int32 (Z.of_nat (length nodes)))).

Lemma wanted_bounds g nodes :
  node_list nodes → (Nat.min (length nodes) 100 ≤ wanted g nodes ≤ length nodes)%nat.
Proof.
  intros Hn. pose proof (numFeasible_bounds (percentageOfNodesToScore g) (Z.of_nat (length nodes))) as Hb.
  unfold wanted, minFeasibleNodesToFind in *. pose proof (nl_length _ Hn). rewrite int32_id by lia. lia.
Qed.

(** A selection of the nodes: different ones, all accepted, as many as wanted. *)
Definition selection fwk state pod (nodes sel : list NodeInfo) (n : nat) : Prop :=
  NoDup (node_name <$> sel) ∧ (∀ ni, ni ∈ sel → ni ∈ nodes ∧ accepted fwk state pod ni) ∧
  length sel = Nat.min n (length (filter (accepted fwk state pod) nodes)).

Lemma names_inj (nodes : list NodeInfo) start i j :
  node_list nodes → (i < length nodes)%nat → (j < length nodes)%nat →
  node_name (nth ((start + i) mod length nodes) nodes zero_NodeInfo) =
    node_name (nth ((start + j) mod length nodes) nodes zero_NodeInfo) → i = j.
Proof.
  intros Hn Hi Hj He. apply (index_inj nodes start); [done..|].
  assert (∀ k, ∃ x, nodes !! ((start + k) mod length nodes)%nat = Some x ∧
    nth ((start + k) mod length nodes) nodes zero_NodeInfo = x) as Hx.
  { intros k. pose proof (index_lt nodes start k) as Hlt. destruct nodes as [|a l]; [simpl in Hi; lia|].
    destruct (lookup_lt_is_Some_2 (a :: l) ((start + k) mod length (a :: l)) (Hlt ltac:(done))) as [x Hx].
    exists x. split; [done|]. by apply nth_lookup_Some. }
  destruct (Hx i) as (x & Hxi & Hni), (Hx j) as (y & Hyj & Hnj). rewrite Hni, Hnj in He.
  eapply (NoDup_lookup (node_name <$> nodes)); [apply Hn| |]; rewrite list_lookup_fmap; [by rewrite Hxi|rewrite Hyj; simpl; by rewrite He].
Qed.

Lemma pass_filters_none g fwk state pod d nodes order :
  node_list nodes → nodes ≠ [] → HasFilterPlugins fwk = false →
  ∃ g' sel, pass_filters g fwk state pod d nodes order = Some (g', d, inl (node <$> sel)) ∧
    selection fwk state pod nodes sel (wanted g nodes) ∧
    extenders g' = extenders g ∧ nodeInfoSnapshot g' = nodeInfoSnapshot g ∧
    percentageOfNodesToScore g' = percentageOfNodesToScore g.
Proof.
  intros Hn Hne Hf. unfold findNodesThatPassFilters. rewrite Hf. simpl. fold (wanted g nodes).
  set (info_at := λ i, nth ((nextStartNodeIndex g + i) mod length nodes) nodes zero_NodeInfo).
  exists (set_index g ((nextStartNodeIndex g + length ((λ i, node (info_at i)) <$> seq 0 (wanted g nodes))) mod length nodes)).
  exists (info_at <$> seq 0 (wanted g nodes)).
  rewrite <- (list_fmap_compose info_at node). split; [done|]. split; [|done]. pose proof (wanted_bounds g nodes Hn) as Hw.
  split_and!.
  - rewrite <- list_fmap_compose. apply NoDup_fmap_2_strong; [|apply NoDup_seq].
    intros i j Hi%elem_of_seq Hj%elem_of_seq. apply names_inj; [done|lia..].
  - intros ni (i & -> & Hi)%list_elem_of_fmap. split; [|by left].
    unfold info_at. apply (list_elem_of_lookup_2 _ ((nextStartNodeIndex g + i) mod length nodes)).
    destruct (nth_lookup_or_length nodes ((nextStartNodeIndex g + i) mod length nodes) zero_NodeInfo) as [?|Hge]; [done|].
    pose proof (index_lt nodes (nextStartNodeIndex g) i Hne). lia.
  - rewrite length_fmap, length_seq. assert (filter (accepted fwk state pod) nodes = nodes) as ->; [|lia].
    clear -Hf. induction nodes as [|x l IH]; [done|]. rewrite filter_cons, decide_True by (by left). by rewrite IH.
Qed.

Lemma pass_filters_spec g fwk state pod d nodes order g' d' r :
  node_list nodes → nodes ≠ [] → pass_filters g fwk state pod d nodes order = Some (g', d', r) →
  extenders g' = extenders g ∧ nodeInfoSnapshot g' = nodeInfoSnapshot g ∧
  percentageOfNodesToScore g' = percentageOfNodesToScore g ∧
  match r with
  | inl l => ∃ sel, l = node <$> sel ∧ selection fwk state pod nodes sel (wanted g nodes)
  | inr e => ∃ ni, ni ∈ nodes ∧ status_Code (filters fwk state pod ni counter) = Error
  end.
Proof.
  intros Hn Hne. destruct (HasFilterPlugins fwk) eqn:Hf.
  2: { destruct (pass_filters_none g fwk state pod d nodes order Hn Hne Hf) as (g1 & sel & -> & Hsel & H1 & H2 & H3).
    intros [= <- <- <-]. split_and!; try done. by exists sel. }
  unfold findNodesThatPassFilters. rewrite Hf. cbn [negb]. fold (wanted g nodes).
  set (info_at := λ i, nth ((nextStartNodeIndex g + i) mod length nodes) nodes zero_NodeInfo).
  destruct (run_search _ _ _ _ _ _ _ _) as [s|] eqn:Hs; [|done]. cbn [mbind option_bind]. intros [= <- <- <-].
  split; [done|]. split; [done|]. split; [done|]. pose proof (wanted_bounds g nodes Hn) as Hw. pose proof (nl_length _ Hn) as Hlen.
  assert (Z.of_nat (wanted g nodes) + Z.of_nat parallelism + 1 < 2 ^ 31) as Hwidth by lia.
  destruct (run_search_found _ _ _ _ _ _ _ _ Hwidth
    (λ i j, names_inj nodes (nextStartNodeIndex g) i j Hn) Hs) as [taken Hfo].
  assert (∀ i, info_at i ∈ nodes) as Hin.
  { intros i. unfold info_at. apply (list_elem_of_lookup_2 _ ((nextStartNodeIndex g + i) mod length nodes)).
    destruct (nth_lookup_or_length nodes ((nextStartNodeIndex g + i) mod length nodes) zero_NodeInfo) as [?|Hge]; [done|].
    pose proof (index_lt nodes (nextStartNodeIndex g) i Hne). lia. }
  assert (∀ i, success (λ i, filters fwk state pod (info_at i) counter) i ↔ accepted fwk state pod (info_at i)) as Hacc.
  { intros i. unfold success, accepted. rewrite <- IsSuccess_spec, Hf. naive_solver. }
  destruct (errCh s) as [e|] eqn:He.
  - destruct (fo_error _ _ _ _ _ _ _ _ Hfo e He) as (i & _ & Hi & _). by exists (info_at i).
  - exists (info_at <$> taken). rewrite (fo_len _ _ _ _ _ _ _ _ Hfo), Nat2Z.id, (fo_nodes _ _ _ _ _ _ _ _ Hfo).
    split; [by rewrite <- !list_fmap_compose|]. split_and!.
    + rewrite <- list_fmap_compose. apply NoDup_fmap_2_strong; [|apply Hfo].
      intros i j [Hi _]%(fo_pass _ _ _ _ _ _ _ _ Hfo) [Hj _]%(fo_pass _ _ _ _ _ _ _ _ Hfo). by apply names_inj.
    + intros ni (i & -> & [_ Hi]%(fo_pass _ _ _ _ _ _ _ _ Hfo))%list_elem_of_fmap. split; [done|by apply Hacc].
    + rewrite length_fmap, (fo_count _ _ _ _ _ _ _ _ Hfo He). f_equal.
      rewrite <- (rotated nodes zero_NodeInfo (nextStartNodeIndex g)) at 2. rewrite filter_fmap_length. f_equal.
      apply list_filter_iff. intros i. apply Hacc.
Qed.

(** ** The nodes that fit *)

(** "The filtered list is expected to be a subset of the supplied list." *)
Definition extenders_filter (exts : list Extender) : Prop :=
  ∀ ext pod l l' failed unresolvable, ext ∈ exts → ext_Filter ext pod l = inl (l', failed, unresolvable) →
    ∀ nd, nd ∈ l' → nd ∈ l.

Lemma pass_extenders exts pod : ∀ l statuses l' statuses',
  extenders_filter exts → findNodesThatPassExtenders exts pod l statuses = (inl l', statuses') →
  (∀ nd, nd ∈ l' → nd ∈ l) ∧ (exts = [] → l' = l).
Proof.
  induction exts as [|ext exts IH]; intros l st l' st' Hsub; simpl; [by intros [= <- <-]|].
  assert (extenders_filter exts) as Hsub' by (intros e p' ? ? ? ? He; apply Hsub; by right).
  destruct (length l =? 0)%nat; [by intros [= <- <-]|]. destruct (IsInterested ext pod); simpl.
  2: { intros [H _]%IH; done. }
  destruct (ext_Filter ext pod l) as [[[l1 failed] unres]|e] eqn:Hf.
  - intros [H _]%IH; [|done]. split; [|done]. intros nd Hnd%H. by eapply Hsub; [by left|..].
  - destruct (IsIgnorable ext); [|done]. intros [H _]%IH; done.
Qed.

Lemma node_objects_spec (sel : list NodeInfo) nd :
  nd ∈ node_objects (node <$> sel) → ∃ ni, ni ∈ sel ∧ node ni = Some nd.
Proof.
  intros (o & Ho & Hid)%list_elem_of_omap. apply list_elem_of_fmap in Ho as (ni & -> & Hni). by exists ni.
Qed.

(** What the two searches give. *)
Definition fitting fwk state pod (nodes : list NodeInfo) (l : list Node) : Prop :=
  ∀ nd, nd ∈ l → ∃ ni, ni ∈ nodes ∧ node ni = Some nd ∧ accepted fwk state pod ni.

Definition same_scheduler g g' : Prop :=
  extenders g' = extenders g ∧ nodeInfoSnapshot g' = nodeInfoSnapshot g ∧
  percentageOfNodesToScore g' = percentageOfNodesToScore g.

Lemma selection_fitting fwk state pod nodes sel n l :
  selection fwk state pod nodes sel n → (∀ nd, nd ∈ l → nd ∈ node_objects (node <$> sel)) → fitting fwk state pod nodes l.
Proof.
  intros (_ & Hsel & _) Hl nd Hnd%Hl. apply node_objects_spec in Hnd as (ni & Hni & Hn).
  apply Hsel in Hni as [? ?]. by exists ni.
Qed.

Local Abbreviation evaluate := (evaluateNominatedNode clone lsci overhead nominated range counter parallelism).
Local Abbreviation find_all := (find_in_all clone lsci overhead nominated range counter parallelism).
Local Abbreviation fit_pod :=
  (findNodesThatFitPod clone lsci overhead nominated range counter PreferNominatedNode parallelism).

Lemma find_all_spec g fwk state pod d nodes order g' d' r :
  node_list nodes → nodes ≠ [] → extenders_filter (extenders g) →
  find_all g fwk state pod d nodes order = Some (g', d', r) →
  same_scheduler g g' ∧
  match r with
  | inl l => fitting fwk state pod nodes l ∧
      (l = [] → extenders g = [] → ∀ ni, ni ∈ nodes → ¬ accepted fwk state pod ni)
  | inr _ => True
  end.
Proof.
  intros Hn Hne Hext. unfold find_in_all. destruct (pass_filters g fwk state pod d nodes order) as [[[g1 d1] r1]|] eqn:Hp; [|done].
  apply pass_filters_spec in Hp as (H1 & H2 & H3 & Hr); [|done..]. cbn [mbind option_bind].
  assert (same_scheduler g g1) as Hss by (by unfold same_scheduler).
  destruct r1 as [l1|e]; [|by intros [= <- <- <-]]. destruct Hr as (sel & -> & Hsel). rewrite H1.
  destruct (findNodesThatPassExtenders _ _ _ _) as [r2 statuses] eqn:He. intros [= <- <- <-]. split; [done|].
  destruct r2 as [l2|e]; [|done]. apply pass_extenders in He as [Hsub Hnil]; [|done].
  split; [by eapply selection_fitting|]. intros -> Hex ni Hni Hac. specialize (Hnil Hex).
  destruct Hsel as (_ & Hsel & Hlen). pose proof (wanted_bounds g nodes Hn) as Hw.
  assert (sel = []) as ->.
  { destruct sel as [|x sel]; [done|]. destruct (Hsel x) as [Hx _]; [by left|]. destruct (nl_node _ Hn x Hx) as [nd Hnd].
    simpl in Hnil. unfold node_objects in Hnil. simpl in Hnil. by rewrite Hnd in Hnil. }
  assert (ni ∈ filter (accepted fwk state pod) nodes) as Hf by (by apply list_elem_of_filter).
  destruct (filter (accepted fwk state pod) nodes) as [|y l]; [by apply not_elem_of_nil in Hf|].
  destruct nodes as [|z nodes]; [done|]. simpl in Hlen, Hw. lia.
Qed.

Lemma evaluate_spec g fwk state pod d order g' d' l :
  (∀ x ni, Snapshot.Get (nodeInfoSnapshot g) x = Some ni → ni ∈ List_ (nodeInfoSnapshot g) ∧ is_Some (node ni)) →
  extenders_filter (extenders g) → evaluate g fwk state pod d order = Some (g', d', l) →
  same_scheduler g g' ∧ fitting fwk state pod (List_ (nodeInfoSnapshot g)) l.
Proof.
  intros Hget Hext. unfold evaluateNominatedNode.
  destruct (Snapshot.Get _ _) as [ni|] eqn:Hg; [|intros [= <- <- <-]; split; [done|by intros nd ?%not_elem_of_nil]].
  destruct (Hget _ _ Hg) as [Hin Hnode].
  assert (node_list [ni]) as Hn.
  { split; [by intros ? ->%list_elem_of_singleton|apply NoDup_singleton|simpl; lia]. }
  destruct (pass_filters g fwk state pod d [ni] order) as [[[g1 d1] r1]|] eqn:Hp; [|done].
  apply pass_filters_spec in Hp as (H1 & H2 & H3 & Hr); [|done..]. cbn [mbind option_bind].
  assert (same_scheduler g g1) as Hss by (by unfold same_scheduler).
  destruct r1 as [l1|e]; [|intros [= <- <- <-]; split; [done|by intros nd ?%not_elem_of_nil]]. destruct Hr as (sel & -> & Hsel). rewrite H1.
  destruct (findNodesThatPassExtenders _ _ _ _) as [r2 statuses] eqn:He. intros [= <- <- <-]. split; [done|].
  destruct r2 as [l2|e]; [|by intros nd ?%not_elem_of_nil]. apply pass_extenders in He as [Hsub _]; [|done].
  intros nd Hnd. destruct (selection_fitting _ _ _ _ _ _ l2 Hsel Hsub nd Hnd) as (ni' & ->%list_elem_of_singleton & ? & ?). eauto.
Qed.

Lemma fit_pod_spec g fwk state pod o1 o2 g' state' d r :
  let nodes := List_ (nodeInfoSnapshot g) in
  node_list nodes → nodes ≠ [] → extenders_filter (extenders g) →
  (∀ x ni, Snapshot.Get (nodeInfoSnapshot g) x = Some ni → ni ∈ nodes ∧ is_Some (node ni)) →
  fit_pod g fwk state pod o1 o2 = Some (g', state', d, r) →
  state' = (RunPreFilterPlugins fwk state pod).1 ∧ same_scheduler g g' ∧
  match r with
  | inl l => fitting fwk state' pod nodes l ∧
      (l = [] → extenders g = [] → IsSuccess (RunPreFilterPlugins fwk state pod).2 = true →
       ∀ ni, ni ∈ nodes → ¬ accepted fwk state' pod ni)
  | inr _ => True
  end.
Proof.
  intros nodes Hn Hne Hext Hget. unfold findNodesThatFitPod. fold nodes.
  destruct (RunPreFilterPlugins fwk state pod) as [state1 s] eqn:Hpre. cbn [fst snd].
  assert (∀ nds, fitting fwk state1 pod nds []) as Hnil by (by intros nds nd ?%not_elem_of_nil).
  destruct (IsSuccess s) eqn:Hs; cbn [negb].
  2: { destruct (IsUnschedulable s); cbn [negb].
    - destruct s as [st|]; [|done]. intros [= <- <- <- <-]. split_and!; done.
    - intros [= <- <- <- <-]. split_and!; done. }
  destruct (if _ && PreferNominatedNode then _ else _) as [[[g1 d1] l1]|] eqn:He; [|done]. cbn [mbind option_bind].
  assert (same_scheduler g g1 ∧ fitting fwk state1 pod nodes l1) as [Hss Hfit].
  { destruct (_ && _); [by apply evaluate_spec in He|]. by injection He as <- _ <-. }
  destruct (length l1 =? 0)%nat eqn:Hl; cbn [negb].
  2: { intros [= <- <- <- <-]. split; [done|]. split; [done|]. split; [done|]. by intros ->. }
  destruct (find_all g1 fwk state1 pod d1 nodes o2) as [[[g2 d2] r2]|] eqn:Hf; [|done]. cbn [mbind option_bind].
  intros [= <- <- <- <-]. destruct Hss as (E1 & E2 & E3).
  apply find_all_spec in Hf as [(F1 & F2 & F3) Hr]; [|done|done|by rewrite E1].
  split; [done|]. split; [unfold same_scheduler; split_and!; congruence|].
  destruct r2 as [l2|e]; [|done]. destruct Hr as [Hfit2 Hnone]. split; [done|]. intros -> Hex _. apply Hnone; [done|congruence].
Qed.

(** ** [Schedule] *)

Context (snapshot_range : gmap string nat → list string).
Context (snapshot_keys : ∀ m, snapshot_range m ≡ₚ (map_to_list m).*1).
Local Abbreviation schedule := (Schedule clone lsci overhead nominated range counter PreferNominatedNode parallelism snapshot_range).

(** The scheduler between two cycles: its snapshot is one of an earlier state
    of the cache. *)
Definition ready (c : schedulerCache) g : Prop :=
  cache_inv lsci overhead c ∧ (∃ c0, synced c0 (nodeInfoSnapshot g) ∧ evolves c0 c) ∧ extenders_filter (extenders g) ∧
  Z.of_nat (size (live_infos c)) ≤ 21474836.

Lemma live_name c x ni : cache_inv lsci overhead c → live_infos c !! x = Some ni → node_name ni = x.
Proof.
  intros [(_ & _ & Hti & _) _] [Hx [nd Hnd]]%live_infos_lookup. unfold node_name. rewrite Hnd.
  apply (ti_live _ _ Hti x nd). unfold live. by rewrite Hx.
Qed.

Lemma snapshot_nodes c s :
  cache_inv lsci overhead c → synced c s → Z.of_nat (size (live_infos c)) ≤ 21474836 →
  node_list (List_ s) ∧ (∀ x ni, Snapshot.Get s x = Some ni → ni ∈ List_ s ∧ is_Some (node ni)) ∧
  ∀ ni, ni ∈ List_ s ↔ live_infos c !! node_name ni = Some ni.
Proof.
  intros Hinv Hsy Hsize. pose proof (synced_List c s Hsy) as Hl. pose proof (λ x ni, live_name c x ni Hinv) as Hname.
  assert (∀ ni, ni ∈ List_ s ↔ live_infos c !! node_name ni = Some ni) as Hel.
  { intros ni. rewrite Hl, list_elem_of_fmap. split.
    - intros ([x ni'] & -> & Hx%elem_of_map_to_list). simpl. by rewrite (Hname x ni' Hx).
    - intros Hx. exists (node_name ni, ni). split; [done|]. by apply elem_of_map_to_list. }
  split; [split|split; [|done]].
  - intros ni [_ ?]%Hel%live_infos_lookup. done.
  - rewrite Hl, <- list_fmap_compose.
    assert (node_name ∘ snd <$> map_to_list (live_infos c) = (map_to_list (live_infos c)).*1) as ->; [|apply NoDup_fst_map_to_list].
    apply list_fmap_ext. intros i [x ni] Hx%list_elem_of_lookup_2%elem_of_map_to_list. simpl. by apply Hname.
  - rewrite Hl, length_fmap, length_map_to_list. done.
  - intros x ni Hx. rewrite (synced_Get c s x Hsy) in Hx. split; [apply Hel; by rewrite (Hname x ni Hx)|].
    by apply live_infos_lookup in Hx as [_ ?].
Qed.

Lemma prioritize_names g fwk state pod nodes state' l :
  prioritizeNodes g fwk state pod nodes = (state', Some l) → ns_Name <$> l = node_Name <$> nodes.
Proof.
  unfold prioritizeNodes. destruct (_ && _).
  { intros [= _ <-]. rewrite <- list_fmap_compose. done. }
  destruct (RunPreScorePlugins fwk state pod nodes) as [state1 st]. destruct (IsSuccess st); [|done]. cbn [negb].
  destruct (RunScorePlugins fwk state1 pod nodes) as [m|]; [|done]. intros [= _ <-].
  assert (ns_Name <$> imap (λ i nd, mkScore (node_Name nd) (sum_scores m i)) nodes = node_Name <$> nodes) as Himap.
  { rewrite fmap_imap. apply list_eq. intros i. rewrite list_lookup_imap, list_lookup_fmap. done. }
  destruct (length (extenders g) =? 0)%nat; [done|]. rewrite <- list_fmap_compose. done.
Qed.

(** The suggested host: one of the nodes found, the only one or one with the
    highest score. *)
Definition best_of fwk state pod g (feasible : list Node) (host : string) : Prop :=
  ∃ nd, nd ∈ feasible ∧ node_Name nd = host ∧
    (feasible = [nd] ∨
     ∃ state' scores ns, prioritizeNodes g fwk state pod feasible = (state', Some scores) ∧ ns ∈ scores ∧ ns_Name ns = host ∧
       ∀ ns', ns' ∈ scores → Score ns' ≤ Score ns).

Definition outcome_ok (c : schedulerCache) g fwk state pod (out : schedule_outcome) : Prop :=
  let '(state1, pre) := RunPreFilterPlugins fwk state pod in
  match out with
  | Suggested r =>
      ∃ feasible g1, FeasibleNodes r = length feasible ∧ fitting fwk state1 pod ((map_to_list (live_infos c)).*2) feasible ∧
        same_scheduler g g1 ∧ best_of fwk state1 pod g1 feasible (SuggestedHost r)
  | ErrNoNodesAvailable => live_infos c = ∅
  | FitError n _ =>
      n = Z.of_nat (size (live_infos c)) ∧
      (extenders g = [] → IsSuccess pre = true → ∀ x ni, live_infos c !! x = Some ni → ¬ accepted fwk state1 pod ni)
  | ScheduleError => True
  end.

Lemma best_of_selected fwk state pod g nodes state' scores draws host :
  prioritizeNodes g fwk state pod nodes = (state', Some scores) → selectHost draws scores = Some host →
  best_of fwk state pod g nodes host.
Proof.
  intros Hp (ns & Hin & Hname & Hmax)%selectHost_spec. pose proof (prioritize_names _ _ _ _ _ _ _ Hp) as Hnames.
  assert (host ∈ node_Name <$> nodes) as (nd & -> & Hnd)%list_elem_of_fmap.
  { rewrite <- Hnames, <- Hname. by apply list_elem_of_fmap_2. }
  exists nd. split_and!; [done|done|]. right. by exists state', scores, ns.
Qed.

Lemma schedule_spec c g fwk state pod ch g' state' out :
  ready c g → schedule c g fwk state pod ch = Some (g', state', out) →
  synced c (nodeInfoSnapshot g') ∧ extenders g' = extenders g ∧
  outcome_ok c (set_snapshot g (nodeInfoSnapshot g')) fwk state pod out.
Proof.
  intros (Hinv & (c0 & Hsy & Hev) & Hext & Hsize). unfold Schedule.
  destruct (sys_update lsci overhead snapshot_range snapshot_keys c0 c _ Hinv Hsy Hev) as (s & -> & Hs). cbn [mbind option_bind negb].
  destruct (snapshot_nodes c s Hinv Hs Hsize) as (Hn & Hget & Hel). pose proof (synced_List c s Hs) as Hl.
  assert (NumNodes s = Z.of_nat (size (live_infos c))) as Hnum.
  { unfold NumNodes. rewrite <- length_map_to_list, <- (length_fmap snd), <- Hl. unfold List_. by rewrite length_fmap. }
  unfold outcome_ok. destruct (RunPreFilterPlugins fwk state pod) as [state1 pre] eqn:Hpre.
  destruct (Z.eqb_spec (NumNodes s) 0) as [H0|H0].
  { intros [= <- <- <-]. simpl. split_and!; [done|done|]. rewrite Hnum in H0. apply map_size_empty_inv. lia. }
  assert (List_ s ≠ []) as Hne.
  { intros He. apply H0. unfold NumNodes. unfold List_ in He. by apply fmap_nil_inv in He as ->. }
  destruct (fit_pod (set_snapshot g s) fwk state pod _ _) as [[[[g1 state2] d] r]|] eqn:Hfit; [|done]. cbn [mbind option_bind].
  apply fit_pod_spec in Hfit as (-> & (E1 & E2 & E3) & Hr); [|done..]. rewrite Hpre in *. cbn [fst snd nodeInfoSnapshot extenders percentageOfNodesToScore set_snapshot] in *.
  assert (∀ l, fitting fwk state1 pod (List_ s) l → fitting fwk state1 pod ((map_to_list (live_infos c)).*2) l) as Hperm.
  { intros l Hfl nd (ni & Hni & ?)%Hfl. exists ni. by rewrite <- Hl. }
  assert (∀ g2, g2 = g1 → synced c (nodeInfoSnapshot g2) ∧ extenders g2 = extenders g ∧
    same_scheduler (set_snapshot g (nodeInfoSnapshot g2)) g1) as Hg2.
  { intros g2 ->. rewrite E2. split_and!; [done|done|]. split_and!; simpl; congruence. }
  destruct r as [[|nd [|nd2 l]]|e].
  - intros [= <- <- <-]. destruct (Hg2 g1 eq_refl) as (H1 & H2 & _). split_and!; [done|done|done|].
    intros Hex Hsu x ni Hx. destruct Hr as [_ Hr]. apply Hr; try done. apply Hel.
    by rewrite (live_name c x ni Hinv Hx).
  - intros [= <- <- <-]. destruct (Hg2 g1 eq_refl) as (H1 & H2 & H3). split_and!; [done|done|].
    exists [nd], g1. split; [done|]. split; [by apply Hperm, Hr|]. split; [done|]. exists nd. split; [by left|]. split; [done|by left].
  - destruct (prioritizeNodes g1 fwk state1 pod (nd :: nd2 :: l)) as [state3 [scores|]] eqn:Hp; cbn [fst snd].
    2: { intros [= <- <- <-]. by destruct (Hg2 g1 eq_refl) as (H1 & H2 & _). }
    destruct (selectHost (ch_draws ch) scores) as [host|] eqn:Hsel.
    2: { intros [= <- <- <-]. by destruct (Hg2 g1 eq_refl) as (H1 & H2 & _). }
    intros [= <- <- <-]. destruct (Hg2 g1 eq_refl) as (H1 & H2 & H3). split_and!; [done|done|].
    exists (nd :: nd2 :: l), g1. split; [done|]. split; [by apply Hperm, Hr|]. split; [done|].
    by eapply best_of_selected.
  - intros [= <- <- <-]. by destruct (Hg2 g1 eq_refl) as (H1 & H2 & _).
Qed.

(** ** Every cycle ends *)

Lemma pass_filters_exists g fwk state pod d nodes :
  ∃ order res, pass_filters g fwk state pod d nodes order = Some res.
Proof.
  unfold findNodesThatPassFilters. destruct (HasFilterPlugins fwk); cbn [negb]; [|by eexists [], _].
  match goal with |- context [run_search _ ?a ?b ?c ?n ?m ?d] =>
    destruct (run_search_exists a b c n m d) as (order & s & Hs) end.
  exists order. rewrite Hs. by eexists.
Qed.

Lemma find_all_exists g fwk state pod d nodes : ∃ order res, find_all g fwk state pod d nodes order = Some res.
Proof.
  destruct (pass_filters_exists g fwk state pod d nodes) as (order & [[g1 d1] r] & Hr). exists order.
  unfold find_in_all. rewrite Hr. cbn [mbind option_bind]. destruct r; [|by eexists].
  destruct (findNodesThatPassExtenders _ _ _ _). by eexists.
Qed.

Lemma evaluate_exists g fwk state pod d : ∃ order res, evaluate g fwk state pod d order = Some res.
Proof.
  unfold evaluateNominatedNode. destruct (Snapshot.Get _ _) as [ni|]; [|by eexists [], _].
  destruct (pass_filters_exists g fwk state pod d [ni]) as (order & [[g1 d1] r] & Hr). exists order.
  rewrite Hr. cbn [mbind option_bind]. destruct r; [|by eexists]. destruct (findNodesThatPassExtenders _ _ _ _). by eexists.
Qed.

Lemma fit_pod_exists g fwk state pod : ∃ o1 o2 res, fit_pod g fwk state pod o1 o2 = Some res.
Proof.
  unfold findNodesThatFitPod. destruct (RunPreFilterPlugins fwk state pod) as [state1 s].
  destruct (IsSuccess s) eqn:Hs; cbn [negb].
  2: { exists [], []. destruct (IsUnschedulable s); cbn [negb]; [|by eexists]. destruct s; [by eexists|done]. }
  assert (∃ o1 res, (if (0 <? String.length (pod_NominatedNodeName pod))%nat && PreferNominatedNode
    then evaluate g fwk state1 pod (mkDiagnosis ∅ ∅) o1 else Some (g, mkDiagnosis ∅ ∅, [])) = Some res) as (o1 & [[g1 d1] l1] & H1).
  { destruct (_ && _); [apply evaluate_exists|by eexists [], _]. }
  destruct (find_all_exists g1 fwk state1 pod d1 (List_ (nodeInfoSnapshot g))) as (o2 & [[g2 d2] r2] & H2).
  exists o1, o2. rewrite H1. cbn [mbind option_bind]. destruct (negb _); [by eexists|]. rewrite H2. by eexists.
Qed.

Lemma schedule_exists c g fwk state pod draws :
  ready c g → ∃ o1 o2 res, schedule c g fwk state pod (mkChoices o1 o2 draws) = Some res.
Proof.
  intros (Hinv & (c0 & Hsy & Hev) & _). unfold Schedule.
  destruct (sys_update lsci overhead snapshot_range snapshot_keys c0 c _ Hinv Hsy Hev) as (s & -> & Hs). cbn [mbind option_bind negb].
  destruct (NumNodes s =? 0); [by eexists [], [], _|].
  destruct (fit_pod_exists (set_snapshot g s) fwk state pod) as (o1 & o2 & [[[g1 state1] d] r] & Hf). exists o1, o2.
  cbn [ch_order1 ch_order2 ch_draws]. rewrite Hf. cbn [mbind option_bind].
  destruct r as [[|nd [|nd2 l]]|e]; try by eexists. destruct (prioritizeNodes _ _ _ _ _) as [state3 [scores|]]; [|by eexists].
  destruct (selectHost draws scores); by eexists.
Qed.

(** *** What a suggestion is worth *)

Lemma accepted_passes fwk state pod ni : is_Some (node ni) → accepted fwk state pod ni → passes fwk state pod ni.
Proof.
  intros [nd Hnd] [Hf|Hs].
  - unfold HasFilterPlugins in Hf. unfold passes. destruct (filterPlugins fwk); [constructor|done].
  - by eapply nominated_conservative in Hs as [? _].
Qed.

Lemma suggested_node c g fwk state pod r :
  cache_inv lsci overhead c → outcome_ok c g fwk state pod (Suggested r) →
  let state1 := (RunPreFilterPlugins fwk state pod).1 in
  ∃ ni, live_infos c !! SuggestedHost r = Some ni ∧ accepted fwk state1 pod ni ∧ passes fwk state1 pod ni.
Proof.
  unfold outcome_ok. destruct (RunPreFilterPlugins fwk state pod) as [state1 pre]. cbn [fst].
  intros Hinv (feasible & g1 & _ & Hfit & _ & nd & Hnd & <- & _). apply Hfit in Hnd as (ni & Hni & Hn & Hacc).
  apply list_elem_of_fmap in Hni as ([x ni'] & -> & Hx%elem_of_map_to_list). cbn [snd] in *. exists ni'.
  pose proof (live_name c x ni' Hinv Hx) as Hname. unfold node_name in Hname. rewrite Hn in Hname. rewrite Hname.
  split; [done|]. split; [done|]. apply accepted_passes; [by exists nd|done].
Qed.

(** C8. A scheduling decision is sound and always made.  Let the cache have at
    most 21474836 nodes and let the extenders filter what they are given.
    Whatever the filters, the scores, the numbers drawn and the pods nominated,
    the parallel search has an
    order in which its goroutines finish; and when they finish, in any order,
    with a host, a fit error or another error, the snapshot is that of the
    cache; a suggested host is a node of the cache that every filter accepts, as
    it is and with the pods nominated to it, and has the highest score of the
    nodes found.  The decision is complete without extenders: a fit error then
    means, if the plugins that run before the filters succeed, that there is no
    node the filters accept. *)
Theorem schedule_sound c g fwk state pod :
  ready c g →
  (∀ draws, ∃ o1 o2 res, schedule c g fwk state pod (mkChoices o1 o2 draws) = Some res) ∧
  ∀ ch g' state' out, schedule c g fwk state pod ch = Some (g', state', out) →
    ready c g' ∧ synced c (nodeInfoSnapshot g') ∧ outcome_ok c (set_snapshot g (nodeInfoSnapshot g')) fwk state pod out ∧
    ∀ r, out = Suggested r → ∃ ni, live_infos c !! SuggestedHost r = Some ni ∧
      passes fwk (RunPreFilterPlugins fwk state pod).1 pod ni.
Proof.
  intros Hready. split; [intros draws; by apply schedule_exists|]. intros ch g' state' out Hs.
  destruct (schedule_spec _ _ _ _ _ _ _ _ _ Hready Hs) as (Hsy & Hex & Hout).
  destruct Hready as (Hinv & _ & Hext & Hsize). split_and!; [|done|done|].
  - split_and!; [done| |by rewrite Hex|done]. exists c. by split.
  - intros r ->. destruct (suggested_node _ _ _ _ _ _ Hinv Hout) as (ni & Hni & _ & Hp). by exists ni.
Qed.
End Props.
