(* ===== verification/ThreadSafeStore.v ===== *)
(** * The indexed store of informers: [client-go/tools/cache/thread_safe_store.go]

    A map from keys to objects with named indices, each the sets of keys by
    indexed value.  Every operation runs under the store's lock; an error of
    an index function panics.  Ranges over Go maps have no fixed order:
    [map_to_list] picks one. *)

From S2P Require Import Prelude.

Section Store.
Context {Obj : Type}.

(** [None] for an error. *)
Definition IndexFunc : Type := Obj → option (list string).
Abbreviation Index_ := (gmap string (gset string)).
Abbreviation Indices := (gmap string Index_).
Abbreviation Indexers := (gmap string IndexFunc).

Record threadSafeMap := mkTSM {
  items : gmap string Obj;
  indexers : Indexers;
  indices : Indices;
}.

Definition NewThreadSafeStore (indexers : Indexers) (indices : Indices) : threadSafeMap :=
  mkTSM ∅ indexers indices.

(** The key goes into the set of the value. *)
Definition index_insert (key : string) (index : Index_) (indexValue : string) : Index_ :=
  <[indexValue := {[key]} ∪ default ∅ (index !! indexValue)]> index.

(** The key goes out of the set, and an empty set out of the index. *)
Definition index_delete (key : string) (index : Index_) (indexValue : string) : Index_ :=
  match index !! indexValue with
  | None => index
  | Some set =>
      let set := set ∖ {[key]} in
      if (size set =? 0)%nat then delete indexValue index else <[indexValue := set]> index
  end.

Fixpoint delete_loop (obj : Obj) (key : string) (l : list (string * IndexFunc)) (ind : Indices)
    : outcome Indices :=
  match l with
  | [] => Ret ind
  | (name, indexFunc) :: l =>
      match indexFunc obj with
      | None => Panic
      | Some indexValues =>
          match ind !! name with
          | None => delete_loop obj key l ind
          | Some index => delete_loop obj key l (<[name := foldl (index_delete key) index indexValues]> ind)
          end
      end
  end.

Definition deleteFromIndices (c : threadSafeMap) (obj : Obj) (key : string) : outcome threadSafeMap :=
  match delete_loop obj key (map_to_list (indexers c)) (indices c) with
  | Ret ind => Ret (mkTSM (items c) (indexers c) ind)
  | Panic => Panic
  end.

Fixpoint update_loop (obj : Obj) (key : string) (l : list (string * IndexFunc)) (ind : Indices)
    : outcome Indices :=
  match l with
  | [] => Ret ind
  | (name, indexFunc) :: l =>
      match indexFunc obj with
      | None => Panic
      | Some indexValues =>
          update_loop obj key l
            (<[name := foldl (index_insert key) (default ∅ (ind !! name)) indexValues]> ind)
      end
  end.

Definition updateIndices (c : threadSafeMap) (oldObj : option Obj) (newObj : Obj) (key : string)
    : outcome threadSafeMap :=
  match (match oldObj with Some o => deleteFromIndices c o key | None => Ret c end) with
  | Panic => Panic
  | Ret c =>
      match update_loop newObj key (map_to_list (indexers c)) (indices c) with
      | Ret ind => Ret (mkTSM (items c) (indexers c) ind)
      | Panic => Panic
      end
  end.

Definition Add (c : threadSafeMap) (key : string) (obj : Obj) : outcome threadSafeMap :=
  let oldObject := items c !! key in
  updateIndices (mkTSM (<[key := obj]> (items c)) (indexers c) (indices c)) oldObject obj key.

Definition Update (c : threadSafeMap) (key : string) (obj : Obj) : outcome threadSafeMap :=
  let oldObject := items c !! key in
  updateIndices (mkTSM (<[key := obj]> (items c)) (indexers c) (indices c)) oldObject obj key.

Definition Delete (c : threadSafeMap) (key : string) : outcome threadSafeMap :=
  match items c !! key with
  | None => Ret c
  | Some obj =>
      match deleteFromIndices c obj key with
      | Ret c => Ret (mkTSM (delete key (items c)) (indexers c) (indices c))
      | Panic => Panic
      end
  end.

Definition Get (c : threadSafeMap) (key : string) : option Obj := items c !! key.
Definition List_ (c : threadSafeMap) : list Obj := (map_to_list (items c)).*2.
Definition ListKeys (c : threadSafeMap) : list string := (map_to_list (items c)).*1.

Fixpoint replace_loop (l : list (string * Obj)) (c : threadSafeMap) : outcome threadSafeMap :=
  match l with
  | [] => Ret c
  | (key, item) :: l =>
      match updateIndices c None item key with
      | Ret c => replace_loop l c
      | Panic => Panic
      end
  end.

Definition Replace (c : threadSafeMap) (items : gmap string Obj) : outcome threadSafeMap :=
  replace_loop (map_to_list items) (mkTSM items (indexers c) ∅).

(** [None] for an error. *)
Definition Index (c : threadSafeMap) (indexName : string) (obj : Obj) : option (list Obj) :=
  indexFunc ← indexers c !! indexName;
  indexedValues ← indexFunc obj;
  let index := default ∅ (indices c !! indexName) in
  let storeKeySet :=
    match indexedValues with
    | [v] => default ∅ (index !! v)
    | _ => foldl (λ s v, s ∪ default ∅ (index !! v)) ∅ indexedValues
    end in
  Some (omap (λ k, items c !! k) (elements storeKeySet)).

Definition ByIndex (c : threadSafeMap) (indexName indexedValue : string) : option (list Obj) :=
  _ ← indexers c !! indexName;
  let set := default ∅ (default ∅ (indices c !! indexName) !! indexedValue) in
  Some (omap (λ k, items c !! k) (elements set)).

(** [set.List()] is sorted. *)
Definition IndexKeys (c : threadSafeMap) (indexName indexedValue : string) : option (list string) :=
  _ ← indexers c !! indexName;
  Some (merge_sort String.le (elements (default ∅ (default ∅ (indices c !! indexName) !! indexedValue)))).

Definition ListIndexFuncValues (c : threadSafeMap) (indexName : string) : list string :=
  (map_to_list (default ∅ (indices c !! indexName))).*1.

Definition GetIndexers (c : threadSafeMap) : Indexers := indexers c.

(** The flag is [false] for an error. *)
Definition AddIndexers (c : threadSafeMap) (newIndexers : Indexers) : threadSafeMap * bool :=
  if (0 <? size (items c))%nat then (c, false)
  else if decide ((dom (indexers c) : gset string) ## dom newIndexers)
  then (mkTSM (items c) (newIndexers ∪ indexers c) (indices c), true)
  else (c, false).
End Store.
Arguments threadSafeMap : clear implicits.
Arguments IndexFunc : clear implicits.

(** ** One index *)

Abbreviation look index v := (default ∅ ((index : gmap string (gset string)) !! v)).

Definition no_empty (index : gmap string (gset string)) : Prop := ∀ v, index !! v ≠ Some ∅.

Lemma look_insert key index v w :
  look (index_insert key index v) w = if decide (w = v) then {[key]} ∪ look index w else look index w.
Proof.
  unfold index_insert. case_decide as H; [subst; by rewrite lookup_insert_eq|by rewrite lookup_insert_ne].
Qed.

Lemma look_delete key index v w :
  look (index_delete key index v) w = if decide (w = v) then look index w ∖ {[key]} else look index w.
Proof.
  unfold index_delete. destruct (index !! v) as [s|] eqn:Hs.
  - destruct (Nat.eqb_spec (size (s ∖ {[key]})) 0) as [H0|H0]; case_decide as H; subst.
    + apply size_empty_inv in H0. rewrite lookup_delete_eq, Hs. simpl. set_solver.
    + by rewrite lookup_delete_ne.
    + by rewrite lookup_insert_eq, Hs.
    + by rewrite lookup_insert_ne.
  - case_decide as H; [|done]. subst. rewrite Hs. simpl. set_solver.
Qed.

Lemma no_empty_insert key index v : no_empty index → no_empty (index_insert key index v).
Proof.
  intros Hne w. unfold index_insert. intros [[-> Hs]|[_ Hs]]%lookup_insert_Some; [set_solver|by apply (Hne w)].
Qed.

Lemma no_empty_delete key index v : no_empty index → no_empty (index_delete key index v).
Proof.
  intros Hne w. unfold index_delete. destruct (index !! v) as [s|]; [|apply Hne].
  destruct (Nat.eqb_spec (size (s ∖ {[key]})) 0) as [H0|H0].
  - intros [_ Hs]%lookup_delete_Some. by apply (Hne w).
  - intros [[-> Hs]|[_ Hs]]%lookup_insert_Some; [|by apply (Hne w)]. by rewrite Hs, size_empty in H0.
Qed.

Lemma look_insert_all key vs index w :
  look (foldl (index_insert key) index vs) w = if decide (w ∈ vs) then {[key]} ∪ look index w else look index w.
Proof.
  revert index. induction vs as [|v vs IH]; intros index; simpl; [done|].
  rewrite IH, look_insert. repeat case_decide; set_solver.
Qed.

Lemma look_delete_all key vs index w :
  look (foldl (index_delete key) index vs) w = if decide (w ∈ vs) then look index w ∖ {[key]} else look index w.
Proof.
  revert index. induction vs as [|v vs IH]; intros index; simpl; [done|].
  rewrite IH, look_delete. repeat case_decide; set_solver.
Qed.

Lemma no_empty_insert_all key vs index : no_empty index → no_empty (foldl (index_insert key) index vs).
Proof. revert index. induction vs; simpl; auto using no_empty_insert. Qed.

Lemma no_empty_delete_all key vs index : no_empty index → no_empty (foldl (index_delete key) index vs).
Proof. revert index. induction vs; simpl; auto using no_empty_delete. Qed.

(** ** The invariant of the indices *)

Section Invariant.
Context {Obj : Type}.
Implicit Types (m : gmap string Obj) (ixs : gmap string (IndexFunc Obj)) (ind : gmap string (gmap string (gset string))).

(** The index functions accept the object. *)
Definition accepted ixs (obj : Obj) : Prop := ∀ name f, ixs !! name = Some f → is_Some (f obj).

Lemma delete_loop_ok (obj : Obj) key l ind :
  NoDup l.*1 → (∀ name f, (name, f) ∈ l → is_Some (f obj)) →
  ∃ ind', delete_loop obj key l ind = Ret ind' ∧
    (∀ name f vs, (name, f) ∈ l → f obj = Some vs →
       ind' !! name = (λ index, foldl (index_delete key) index vs) <$> ind !! name) ∧
    (∀ name, name ∉ l.*1 → ind' !! name = ind !! name).
Proof.
  revert ind. induction l as [|[n g] l IH]; intros ind Hnd Hok; simpl.
  { exists ind. split_and!; try done. intros ? ? ? ?%not_elem_of_nil. done. }
  apply NoDup_cons in Hnd as [Hn Hnd]. destruct (Hok n g ltac:(by left)) as [vs Hvs]. rewrite Hvs.
  assert (∀ name f, (name, f) ∈ l → is_Some (f obj)) as Hok' by (intros; eapply Hok; by right).
  set (ind1 := match ind !! n with Some index => <[n := foldl (index_delete key) index vs]> ind | None => ind end).
  destruct (IH ind1 Hnd Hok') as (ind' & He & H1 & H2). exists ind'. split_and!.
  - unfold ind1 in He. by destruct (ind !! n).
  - assert (∀ name, name ≠ n → ind1 !! name = ind !! name) as Hne.
    { intros name Hname. unfold ind1. destruct (ind !! n); [by rewrite lookup_insert_ne|done]. }
    intros name f ws [[= -> ->]|Hin]%elem_of_cons Hws.
    + simplify_eq. rewrite (H2 n Hn). unfold ind1. destruct (ind !! n) eqn:Hi; [apply lookup_insert_eq|done].
    + rewrite (H1 name f ws Hin Hws), Hne; [done|]. intros ->. apply Hn, list_elem_of_fmap. by exists (n, f).
  - intros name [Hname Hl]%not_elem_of_cons. rewrite (H2 name Hl). unfold ind1.
    destruct (ind !! n); [by rewrite lookup_insert_ne|done].
Qed.

Lemma update_loop_ok (obj : Obj) key l ind :
  NoDup l.*1 → (∀ name f, (name, f) ∈ l → is_Some (f obj)) →
  ∃ ind', update_loop obj key l ind = Ret ind' ∧
    (∀ name f vs, (name, f) ∈ l → f obj = Some vs →
       ind' !! name = Some (foldl (index_insert key) (default ∅ (ind !! name)) vs)) ∧
    (∀ name, name ∉ l.*1 → ind' !! name = ind !! name).
Proof.
  revert ind. induction l as [|[n g] l IH]; intros ind Hnd Hok; simpl.
  { exists ind. split_and!; try done. intros ? ? ? ?%not_elem_of_nil. done. }
  apply NoDup_cons in Hnd as [Hn Hnd]. destruct (Hok n g ltac:(by left)) as [vs Hvs]. rewrite Hvs.
  assert (∀ name f, (name, f) ∈ l → is_Some (f obj)) as Hok' by (intros; eapply Hok; by right).
  destruct (IH (<[n := foldl (index_insert key) (default ∅ (ind !! n)) vs]> ind) Hnd Hok') as (ind' & He & H1 & H2).
  exists ind'. split_and!; [done| |].
  - intros name f ws [[= -> ->]|Hin]%elem_of_cons Hws.
    + simplify_eq. rewrite (H2 n Hn). apply lookup_insert_eq.
    + rewrite (H1 name f ws Hin Hws), lookup_insert_ne; [done|]. intros ->. apply Hn, list_elem_of_fmap. by exists (name, f).
  - intros name [Hname Hl]%not_elem_of_cons. by rewrite (H2 name Hl), lookup_insert_ne.
Qed.

Lemma update_loop_panic (obj : Obj) key l ind name f :
  (name, f) ∈ l → f obj = None → update_loop obj key l ind = Panic.
Proof.
  revert ind. induction l as [|[n g] l IH]; intros ind Hin Hf; [by apply not_elem_of_nil in Hin|].
  simpl. apply elem_of_cons in Hin as [[= <- <-]|Hin]; [by rewrite Hf|]. destruct (g obj); [by apply IH|done].
Qed.

(** The sets of an index are those of the objects, without empty ones. *)
Record idx_inv m ixs ind : Prop := {
  ii_accepted k o : m !! k = Some o → accepted ixs o;
  ii_sets name f v k : ixs !! name = Some f →
    k ∈ look (default ∅ (ind !! name)) v ↔ ∃ o vs, m !! k = Some o ∧ f o = Some vs ∧ v ∈ vs;
  ii_no_empty name index : ind !! name = Some index → no_empty index;
  ii_names name : is_Some (ind !! name) → is_Some (ixs !! name);
}.

Lemma named ixs name (f : IndexFunc Obj) : (name, f) ∈ map_to_list ixs ↔ ixs !! name = Some f.
Proof. apply elem_of_map_to_list. Qed.

Lemma unnamed ixs name : name ∉ (map_to_list ixs).*1 ↔ ixs !! name = None.
Proof.
  rewrite eq_None_not_Some, list_elem_of_fmap. split.
  - intros Hn [f Hf]. apply Hn. exists (name, f). by rewrite named.
  - intros Hn ([name' f] & -> & Hf%named). apply Hn. by exists f.
Qed.

Lemma idx_inv_delete m ixs ind key o :
  idx_inv m ixs ind → m !! key = Some o →
  ∃ ind', delete_loop o key (map_to_list ixs) ind = Ret ind' ∧ idx_inv (delete key m) ixs ind'.
Proof.
  intros [Hacc Hsets Hne Hnames] Ho.
  destruct (delete_loop_ok o key (map_to_list ixs) ind (NoDup_fst_map_to_list _)) as (ind' & He & H1 & H2).
  { intros name f Hf%named. by eapply Hacc. }
  exists ind'. split; [done|]. split.
  - intros k o' [_ Hk]%lookup_delete_Some. by eapply Hacc.
  - intros name f v k Hf. destruct (Hacc key o Ho name f Hf) as [vs Hvs]. apply named in Hf as Hin.
    rewrite (H1 name f vs Hin Hvs). specialize (Hsets name f v).
    assert (look (default ∅ ((λ index, foldl (index_delete key) index vs) <$> ind !! name)) v =
            if decide (v ∈ vs) then look (default ∅ (ind !! name)) v ∖ {[key]} else look (default ∅ (ind !! name)) v) as ->.
    { destruct (ind !! name) as [index|]; simpl; [apply look_delete_all|].
      rewrite lookup_empty. case_decide; set_solver. }
    setoid_rewrite lookup_delete_Some. case_decide as Hv.
    + rewrite elem_of_difference, elem_of_singleton, Hsets by done. naive_solver.
    + rewrite Hsets by done. split; [|naive_solver]. intros (o' & ws & Hk & Hws & Hvw). exists o', ws.
      split; [|done]. split; [|done]. intros ->. by simplify_eq.
  - intros name index Hi. destruct (ixs !! name) as [f|] eqn:Hf.
    + destruct (Hacc key o Ho name f Hf) as [vs Hvs]. apply named in Hf. rewrite (H1 name f vs Hf Hvs) in Hi.
      apply fmap_Some in Hi as (index0 & Hi & ->). by eapply no_empty_delete_all, Hne.
    + rewrite (H2 name) in Hi by (by apply unnamed). by eapply Hne.
  - intros name. destruct (ixs !! name) as [f|] eqn:Hf; [done|]. rewrite (H2 name) by (by apply unnamed).
    rewrite <- Hf. apply Hnames.
Qed.

Lemma idx_inv_update m ixs ind key o :
  idx_inv m ixs ind → m !! key = None → accepted ixs o →
  ∃ ind', update_loop o key (map_to_list ixs) ind = Ret ind' ∧ idx_inv (<[key := o]> m) ixs ind'.
Proof.
  intros [Hacc Hsets Hne Hnames] Hk0 Ho.
  destruct (update_loop_ok o key (map_to_list ixs) ind (NoDup_fst_map_to_list _)) as (ind' & He & H1 & H2).
  { intros name f Hf%named. by eapply Ho. }
  exists ind'. split; [done|]. split.
  - intros k o' [[_ <-]|[_ Hk]]%lookup_insert_Some; [done|by eapply Hacc].
  - intros name f v k Hf. destruct (Ho name f Hf) as [vs Hvs]. apply named in Hf as Hin.
    rewrite (H1 name f vs Hin Hvs). cbn [from_option id]. rewrite look_insert_all. specialize (Hsets name f v).
    setoid_rewrite lookup_insert_Some. case_decide as Hv.
    + rewrite elem_of_union, elem_of_singleton, Hsets by done. split.
      * intros [->|(o' & ws & Hk & Hws)]; [naive_solver|]. exists o', ws. split; [|done]. right.
        split; [|done]. intros ->. congruence.
      * intros (o' & ws & [[<- <-]|[_ Hk]] & Hws); [by left|right]. eauto.
    + rewrite Hsets by done. split.
      * intros (o' & ws & Hk & Hws). exists o', ws. split; [|done]. right. split; [|done]. intros ->. congruence.
      * intros (o' & ws & [[<- <-]|[_ Hk]] & Hws & Hvw); [|eauto]. by simplify_eq.
  - intros name index Hi. destruct (ixs !! name) as [f|] eqn:Hf.
    + destruct (Ho name f Hf) as [vs Hvs]. apply named in Hf. rewrite (H1 name f vs Hf Hvs) in Hi.
      injection Hi as <-. apply no_empty_insert_all. destruct (ind !! name) as [index|] eqn:Hi; [by eapply Hne|].
      intros v. simpl. by rewrite lookup_empty.
    + rewrite (H2 name) in Hi by (by apply unnamed). by eapply Hne.
  - intros name. destruct (ixs !! name) as [f|] eqn:Hf; [done|]. rewrite (H2 name) by (by apply unnamed).
    rewrite <- Hf. apply Hnames.
Qed.

Definition store_inv (c : threadSafeMap Obj) : Prop := idx_inv (items c) (indexers c) (indices c).

(** ** The operations *)

Lemma new_store_inv ixs : store_inv (NewThreadSafeStore ixs ∅).
Proof.
  split; simpl.
  - intros k o Hk. by rewrite lookup_empty in Hk.
  - intros name f v k _. rewrite lookup_empty. simpl. rewrite lookup_empty. simpl. split; [set_solver|].
    intros (o & _ & Ho & _). by rewrite lookup_empty in Ho.
  - intros name index Hi. by rewrite lookup_empty in Hi.
  - intros name [index Hi]. by rewrite lookup_empty in Hi.
Qed.

Lemma updateIndices_spec (c : threadSafeMap Obj) m key obj :
  idx_inv m (indexers c) (indices c) →
  (accepted (indexers c) obj →
     ∃ ind, updateIndices c (m !! key) obj key = Ret (mkTSM (items c) (indexers c) ind) ∧
       idx_inv (<[key := obj]> m) (indexers c) ind) ∧
  (∀ name f, indexers c !! name = Some f → f obj = None → updateIndices c (m !! key) obj key = Panic).
Proof.
  intros Hinv. unfold updateIndices, deleteFromIndices.
  assert (∃ ind0, match m !! key with
      | Some o => match delete_loop o key (map_to_list (indexers c)) (indices c) with
                  | Ret ind => Ret (mkTSM (items c) (indexers c) ind) | Panic => Panic end
      | None => Ret c end = Ret (mkTSM (items c) (indexers c) ind0) ∧ idx_inv (delete key m) (indexers c) ind0)
    as (ind0 & -> & Hinv0).
  { destruct (m !! key) as [o|] eqn:Ho.
    - destruct (idx_inv_delete m _ _ key o Hinv Ho) as (ind & -> & Hi). eauto.
    - exists (indices c). split; [by destruct c|]. by rewrite delete_id. }
  cbn [indexers indices items]. split.
  - intros Hacc. destruct (idx_inv_update _ _ _ key obj Hinv0 (lookup_delete_eq _ _) Hacc) as (ind & -> & Hi).
    exists ind. split; [done|]. by rewrite insert_delete_eq in Hi.
  - intros name f Hf%named Hn. by rewrite (update_loop_panic obj key _ ind0 name f Hf Hn).
Qed.

Lemma store_Add_spec (c : threadSafeMap Obj) key obj :
  store_inv c →
  (accepted (indexers c) obj →
     ∃ c', Add c key obj = Ret c' ∧ store_inv c' ∧ items c' = <[key := obj]> (items c) ∧ indexers c' = indexers c) ∧
  (∀ name f, indexers c !! name = Some f → f obj = None → Add c key obj = Panic).
Proof.
  intros Hinv. unfold Add.
  destruct (updateIndices_spec (mkTSM (<[key := obj]> (items c)) (indexers c) (indices c)) (items c) key obj Hinv) as [H1 H2].
  split; [|done]. intros Hacc. destruct (H1 Hacc) as (ind & -> & Hi). eexists. by split_and!.
Qed.

Lemma store_Delete_spec (c : threadSafeMap Obj) key :
  store_inv c →
  ∃ c', Delete c key = Ret c' ∧ store_inv c' ∧ items c' = delete key (items c) ∧ indexers c' = indexers c.
Proof.
  intros Hinv. unfold Delete, deleteFromIndices. destruct (items c !! key) as [o|] eqn:Ho.
  - destruct (idx_inv_delete _ _ _ key o Hinv Ho) as (ind & -> & Hi). eexists. by split_and!.
  - exists c. by rewrite delete_id.
Qed.

Lemma replace_loop_ok (l : list (string * Obj)) m (c : threadSafeMap Obj) :
  idx_inv m (indexers c) (indices c) → NoDup l.*1 → (∀ k o, (k, o) ∈ l → m !! k = None) →
  (∀ k o, (k, o) ∈ l → accepted (indexers c) o) →
  ∃ c', replace_loop l c = Ret c' ∧ idx_inv (list_to_map l ∪ m) (indexers c) (indices c') ∧
    items c' = items c ∧ indexers c' = indexers c.
Proof.
  revert m c. induction l as [|[key obj] l IH]; intros m c Hinv Hnd Hfresh Hacc; simpl.
  { exists c. split_and!; try done. by rewrite map_empty_union. }
  apply NoDup_cons in Hnd as [Hkey Hnd].
  destruct (updateIndices_spec c m key obj Hinv) as [Hok _]. rewrite (Hfresh key obj) in Hok by (by left).
  destruct (Hok (Hacc key obj ltac:(by left))) as (ind & -> & Hi).
  destruct (IH (<[key := obj]> m) (mkTSM (items c) (indexers c) ind) Hi Hnd) as (c' & He & Hi' & H1 & H2).
  - intros k o Hin. rewrite lookup_insert_ne; [apply (Hfresh k o); by right|].
    intros ->. apply Hkey, list_elem_of_fmap. by exists (k, o).
  - intros k o Hin. apply (Hacc k o). by right.
  - exists c'. split_and!; try done. rewrite <- insert_union_r in Hi' by (by apply not_elem_of_list_to_map_1).
    by rewrite <- insert_union_l.
Qed.

Lemma replace_loop_panic (l : list (string * Obj)) (c : threadSafeMap Obj) k o name f :
  (k, o) ∈ l → indexers c !! name = Some f → f o = None → replace_loop l c = Panic.
Proof.
  revert c. induction l as [|[key obj] l IH]; intros c Hin Hf Hn; [by apply not_elem_of_nil in Hin|].
  simpl. unfold updateIndices. apply elem_of_cons in Hin as [[= <- <-]|Hin].
  - apply named in Hf. by rewrite (update_loop_panic _ _ _ _ name f Hf Hn).
  - destruct (update_loop obj key (map_to_list (indexers c)) (indices c)); [by apply IH|done].
Qed.

Lemma store_Replace_spec (c : threadSafeMap Obj) m :
  ((∀ k o, m !! k = Some o → accepted (indexers c) o) →
     ∃ c', Replace c m = Ret c' ∧ store_inv c' ∧ items c' = m ∧ indexers c' = indexers c) ∧
  (∀ k o name f, m !! k = Some o → indexers c !! name = Some f → f o = None → Replace c m = Panic).
Proof.
  unfold Replace. split.
  - intros Hacc. destruct (replace_loop_ok (map_to_list m) ∅ (mkTSM m (indexers c) ∅)) as (c' & He & Hi & H1 & H2).
    + apply (new_store_inv (indexers c)).
    + apply NoDup_fst_map_to_list.
    + intros k o _. apply lookup_empty.
    + intros k o Hko%elem_of_map_to_list. by eapply Hacc.
    + exists c'. split_and!; try done. unfold store_inv. rewrite H1, H2.
      by rewrite map_union_empty, list_to_map_to_list in Hi.
  - intros k o name f Hk Hf Hn. apply elem_of_map_to_list in Hk. by eapply replace_loop_panic.
Qed.

Lemma AddIndexers_spec (c : threadSafeMap Obj) ixs :
  store_inv c →
  let '(c', ok) := AddIndexers c ixs in
  store_inv c' ∧ items c' = items c ∧
  ((ok = true ∧ items c = ∅ ∧ indexers c ##ₘ ixs ∧ indexers c' = ixs ∪ indexers c) ∨
   (ok = false ∧ c' = c ∧ (items c ≠ ∅ ∨ ¬ indexers c ##ₘ ixs))).
Proof.
  intros Hinv. unfold AddIndexers. destruct (Nat.ltb_spec 0 (size (items c))) as [H0|H0].
  { split_and!; try done. right. split_and!; try done. left. intros Hem. rewrite Hem, map_size_empty in H0. lia. }
  assert (items c = ∅) as Hem by (apply map_size_empty_inv; lia).
  case_decide as Hd; rewrite !(map_disjoint_dom (D := gset string)).
  2: { split; [done|]. split; [done|]. right. split; [done|]. split; [done|]. by right. }
  split; [|split; [done|]; left; by split_and!]. destruct Hinv as [Hacc Hsets Hne Hnames]. split; simpl; rewrite ?Hem in *.
  - intros k o Hk. by rewrite lookup_empty in Hk.
  - intros name f v k [Hf|[Hnone Hf]]%lookup_union_Some_raw.
    + assert (indices c !! name = None) as ->.
      { apply eq_None_not_Some. intros Hs%Hnames. apply (Hd name); by apply elem_of_dom. }
      simpl. rewrite lookup_empty. simpl. split; [set_solver|]. intros (o & _ & Ho & _). by rewrite lookup_empty in Ho.
    + by apply Hsets.
  - done.
  - intros name Hs%Hnames. apply lookup_union_is_Some. by right.
Qed.

(** ** The queries *)

(** The reference: a scan of all the objects. *)
Definition has_value (f : IndexFunc Obj) (v : string) (ko : string * Obj) : bool :=
  match f ko.2 with Some vs => bool_decide (v ∈ vs) | None => false end.

Definition scan (P : string * Obj → bool) m : list (string * Obj) :=
  filter (λ ko, P ko = true) (map_to_list m).

Lemma has_value_spec f v ko : has_value f v ko = true ↔ ∃ vs, f ko.2 = Some vs ∧ v ∈ vs.
Proof. unfold has_value. destruct (f ko.2); [rewrite bool_decide_eq_true|]; naive_solver. Qed.

Lemma scan_keys (P : string * Obj → bool) m (s : gset string) :
  (∀ k, k ∈ s ↔ ∃ o, m !! k = Some o ∧ P (k, o) = true) →
  elements s ≡ₚ (scan P m).*1 ∧ omap (λ k, m !! k) (elements s) ≡ₚ (scan P m).*2.
Proof.
  intros Hs. assert (elements s ≡ₚ (scan P m).*1) as Hp.
  { apply NoDup_Permutation; [apply NoDup_elements| |].
    - eapply sublist_NoDup; [apply (NoDup_fst_map_to_list m)|apply fmap_sublist, sublist_filter].
    - intros k. rewrite elem_of_elements, Hs, list_elem_of_fmap. unfold scan.
      setoid_rewrite list_elem_of_filter. split.
      + intros (o & Hk & HP). exists (k, o). by rewrite elem_of_map_to_list.
      + intros ([k' o] & -> & HP & Hk%elem_of_map_to_list). eauto. }
  split; [done|]. rewrite Hp. assert (∀ ko, ko ∈ scan P m → m !! ko.1 = Some ko.2) as Hin.
  { intros [k o] [_ Hk]%list_elem_of_filter. by apply elem_of_map_to_list. }
  clear Hp. induction (scan P m) as [|ko l IH]; [done|]. cbn [fmap list_fmap omap list_omap].
  rewrite (Hin ko) by (by left). f_equiv. apply IH. intros ko' Hko'. apply Hin. by right.
Qed.

Lemma index_set_spec (c : threadSafeMap Obj) name f v k :
  store_inv c → indexers c !! name = Some f →
  k ∈ look (default ∅ (indices c !! name)) v ↔ ∃ o, items c !! k = Some o ∧ has_value f v (k, o) = true.
Proof.
  intros Hinv Hf. rewrite (ii_sets _ _ _ Hinv name f v k Hf). setoid_rewrite has_value_spec. naive_solver.
Qed.

Lemma union_sets (index : gmap string (gset string)) vs k s :
  k ∈ foldl (λ s v, s ∪ look index v) s vs ↔ k ∈ s ∨ ∃ v, v ∈ vs ∧ k ∈ look index v.
Proof.
  revert s. induction vs as [|v vs IH]; intros s; simpl; [set_solver|]. rewrite IH. set_solver.
Qed.

(** The values an object shares with another one. *)
Definition shares (vs : list string) (f : IndexFunc Obj) (ko : string * Obj) : bool :=
  existsb (λ v, has_value f v ko) vs.

Lemma shares_spec vs f ko : shares vs f ko = true ↔ ∃ v, v ∈ vs ∧ has_value f v ko = true.
Proof.
  unfold shares. rewrite existsb_exists. setoid_rewrite <- list_elem_of_In. done.
Qed.

Lemma index_keys_set (c : threadSafeMap Obj) name f vs k :
  store_inv c → indexers c !! name = Some f →
  let index := default ∅ (indices c !! name) in
  k ∈ match vs with [v] => look index v | _ => foldl (λ s v, s ∪ look index v) ∅ vs end ↔
  ∃ o, items c !! k = Some o ∧ shares vs f (k, o) = true.
Proof.
  intros Hinv Hf index. trans (∃ v, v ∈ vs ∧ k ∈ look index v).
  - assert (k ∈ foldl (λ s v, s ∪ look index v) ∅ vs ↔ ∃ v, v ∈ vs ∧ k ∈ look index v) as Hu.
    { rewrite union_sets. set_solver. }
    destruct vs as [|v [|v2 vs]]; [exact Hu| |exact Hu]. set_solver.
  - unfold index. setoid_rewrite (index_set_spec c name f _ k Hinv Hf). setoid_rewrite shares_spec. naive_solver.
Qed.

(** ** Histories *)

Inductive op :=
| OAdd (key : string) (obj : Obj)
| OUpdate (key : string) (obj : Obj)
| ODelete (key : string)
| OReplace (m : gmap string Obj)
| OAddIndexers (ixs : gmap string (IndexFunc Obj)).

Definition run (c : threadSafeMap Obj) (o : op) : outcome (threadSafeMap Obj) :=
  match o with
  | OAdd key obj => Add c key obj
  | OUpdate key obj => Update c key obj
  | ODelete key => Delete c key
  | OReplace m => Replace c m
  | OAddIndexers ixs => Ret (AddIndexers c ixs).1
  end.

(** The map of the contents after an operation. *)
Definition run_items m (o : op) : gmap string Obj :=
  match o with
  | OAdd key obj | OUpdate key obj => <[key := obj]> m
  | ODelete key => delete key m
  | OReplace m => m
  | OAddIndexers _ => m
  end.

(** The objects an operation brings. *)
Definition new_object (o : op) (obj : Obj) : Prop :=
  match o with
  | OAdd _ x | OUpdate _ x => obj = x
  | OReplace m => ∃ k, m !! k = Some obj
  | _ => False
  end.

Definition step (c : threadSafeMap Obj) (o : op) (c' : threadSafeMap Obj) : Prop := run c o = Ret c'.

Lemma run_spec (c : threadSafeMap Obj) o :
  store_inv c →
  ((∀ obj, new_object o obj → accepted (indexers c) obj) →
     ∃ c', run c o = Ret c' ∧ store_inv c' ∧ items c' = run_items (items c) o) ∧
  (∀ obj name f, new_object o obj → indexers c !! name = Some f → f obj = None → run c o = Panic).
Proof.
  intros Hinv. destruct o as [key obj|key obj|key|m|ixs]; simpl.
  - destruct (store_Add_spec c key obj Hinv) as [H1 H2]. split; [|naive_solver].
    intros Hacc. destruct (H1 (Hacc obj eq_refl)) as (c' & He & Hi & Hit & _). eauto.
  - destruct (store_Add_spec c key obj Hinv) as [H1 H2]. unfold Update. split; [|naive_solver].
    intros Hacc. destruct (H1 (Hacc obj eq_refl)) as (c' & He & Hi & Hit & _). eauto.
  - destruct (store_Delete_spec c key Hinv) as (c' & He & Hi & Hit & _). split; [eauto|done].
  - destruct (store_Replace_spec c m) as [H1 H2]. split.
    + intros Hacc. destruct H1 as (c' & He & Hi & Hit & _); [naive_solver|eauto].
    + intros obj name f [k Hk]. by eapply H2.
  - pose proof (AddIndexers_spec c ixs Hinv) as H. destruct (AddIndexers c ixs) as [c' ok].
    destruct H as (Hi & Hit & _). split; [eauto|done].
Qed.

(** The new objects of a step that returns are accepted. *)
Lemma run_accepted (c : threadSafeMap Obj) o c' :
  store_inv c → run c o = Ret c' → ∀ obj, new_object o obj → accepted (indexers c) obj.
Proof.
  intros Hinv Hr obj Hobj name f Hf. destruct (f obj) eqn:Hn; [done|].
  destruct (run_spec c o Hinv) as [_ H]. rewrite (H obj name f Hobj Hf Hn) in Hr. done.
Qed.

Lemma step_inv (c : threadSafeMap Obj) o c' :
  store_inv c → step c o c' → store_inv c' ∧ items c' = run_items (items c) o.
Proof.
  intros Hinv Hs. destruct (run_spec c o Hinv) as [H _].
  destruct H as (c1 & He & H1 & H2); [by eapply run_accepted|]. unfold step in Hs. rewrite He in Hs. by simplify_eq.
Qed.

Lemma trace_store ixs os c :
  trace step (NewThreadSafeStore ixs ∅) os c → store_inv c ∧ items c = foldl run_items ∅ os.
Proof.
  assert (∀ c0 os c, trace step c0 os c → store_inv c0 → store_inv c ∧ items c = foldl run_items (items c0) os) as Hgen.
  { clear. induction 1 as [|s o s' os s'' Hstep _ IH]; intros Hinv; [done|].
    destruct (step_inv s o s' Hinv Hstep) as [Hi Hit]. destruct (IH Hi) as [H1 H2]. split; [done|]. by rewrite H2, Hit. }
  intros Htr. by apply (Hgen _ _ _ Htr (new_store_inv ixs)).
Qed.
End Invariant.

(** ** Properties *)

(** C26. The indices of the store are equivalent to a scan of its objects: after
    any history of additions, updates, deletions, replacements and new
    indexers, the contents are those of a plain map, [IndexKeys], [ByIndex] and [Index]
    return exactly the keys or objects a scan by the index function finds (the keys
    sorted), [ListIndexFuncValues] exactly the values that occur, and an unknown
    index is an error.  An operation panics where an index function fails on a
    new object, and only there. *)
Theorem store_indices {Obj : Type} ixs os (c : threadSafeMap Obj) :
  trace step (NewThreadSafeStore ixs ∅) os c →
  items c = foldl run_items ∅ os ∧
  (∀ name f, indexers c !! name = Some f →
     (∀ v, ∃ ks l, IndexKeys c name v = Some ks ∧ Sorted String.le ks ∧ ks ≡ₚ (scan (has_value f v) (items c)).*1 ∧
        ByIndex c name v = Some l ∧ l ≡ₚ (scan (has_value f v) (items c)).*2 ∧
        (v ∈ ListIndexFuncValues c name ↔ scan (has_value f v) (items c) ≠ [])) ∧
     (∀ obj vs, f obj = Some vs →
        ∃ l, Index c name obj = Some l ∧ l ≡ₚ (scan (shares vs f) (items c)).*2)) ∧
  (∀ name v obj, indexers c !! name = None →
     IndexKeys c name v = None ∧ ByIndex c name v = None ∧ Index c name obj = None) ∧
  (∀ o, ((∀ obj, new_object o obj → accepted (indexers c) obj) → ∃ c', run c o = Ret c') ∧
        (∀ obj name f, new_object o obj → indexers c !! name = Some f → f obj = None → run c o = Panic)).
Proof.
  intros Htr. destruct (trace_store ixs os c Htr) as [Hinv Hit]. split_and!; [done| | |].
  - intros name f Hf. split.
    + intros v. destruct (scan_keys (has_value f v) (items c) (look (default ∅ (indices c !! name)) v)) as [H1 H2].
      { intros k. by apply index_set_spec. }
      unfold IndexKeys, ByIndex. rewrite Hf. cbn [mbind option_bind]. do 2 eexists. split_and!; [done| | |done|done|].
      * apply Sorted_merge_sort. intros x y. apply String.le_total.
      * by rewrite merge_sort_Permutation.
      * unfold ListIndexFuncValues. rewrite list_elem_of_fmap. split.
        -- intros ([v' s] & -> & Hs%elem_of_map_to_list) Hnil. simpl in *. rewrite Hs, Hnil in H1. simpl in H1.
           apply Permutation_nil_r, elements_empty_inv, leibniz_equiv in H1.
           destruct (indices c !! name) as [index|] eqn:Hi; simpl in Hs; [|by rewrite lookup_empty in Hs].
           apply (ii_no_empty _ _ _ Hinv name index Hi v'). by rewrite Hs, H1.
        -- intros Hne. destruct (default ∅ (indices c !! name) !! v) as [s|] eqn:Hs.
           ++ exists (v, s). by rewrite elem_of_map_to_list.
           ++ simpl in H1. rewrite elements_empty in H1. symmetry in H1. apply Permutation_nil_r, fmap_nil_inv in H1. done.
    + intros obj vs Hvs. unfold Index. unfold IndexFunc in *. rewrite Hf. cbn [mbind option_bind]. rewrite Hvs. cbn [mbind option_bind].
      eexists. split; [done|]. apply scan_keys. intros k. by apply index_keys_set.
  - intros name v obj Hn. unfold IndexKeys, ByIndex, Index. unfold IndexFunc in *. by rewrite Hn.
  - intros o. destruct (run_spec c o Hinv) as [H1 H2]. split; [|done]. intros Hacc. destruct (H1 Hacc) as (c' & He & _). eauto.
Qed.

(** An example: objects are their lists of values. *)
Definition sample_ops : list (op (Obj := list string)) :=
  [OAdd "a" ["x"; "y"]; OAdd "b" ["y"]; OUpdate "a" ["z"]; OAdd "c" ["y"; "z"]; ODelete "b"].

Definition sample_store (n : nat) : threadSafeMap (list string) :=
  foldl (λ c o, match run c o with Ret c => c | Panic => c end)
    (NewThreadSafeStore {["values" := Some]} ∅) (take n sample_ops).

Lemma sample_store_step n o :
  sample_ops !! n = Some o → step (sample_store n) o (sample_store (S n)).
Proof.
  intros Ho. destruct n as [|[|[|[|[|n]]]]]; [..|discriminate]; injection Ho as <-; vm_compute; reflexivity.
Qed.

Lemma store_indices_witness :
  ∃ ks, IndexKeys (sample_store 5) "values" "z" = Some ks ∧
    ks ≡ₚ (scan (has_value Some "z") (items (sample_store 5))).*1 ∧ ks = ["a"; "c"].
Proof.
  destruct (store_indices {["values" := Some]} sample_ops (sample_store 5)) as (_ & Hq & _).
  - change (NewThreadSafeStore {["values" := Some]} ∅) with (sample_store 0).
    do 5 (eapply trace_cons; [apply sample_store_step; reflexivity|]). constructor.
  - assert (indexers (sample_store 5) !! "values" = Some Some) as Hv by (vm_compute; reflexivity).
    destruct (proj1 (Hq "values" Some Hv) "z") as (ks & l & Hks & _ & Hp & _).
    exists ks. split; [exact Hks|]. split; [exact Hp|]. vm_compute in Hks. by injection Hks as <-.
Defined.
