(* ===== verification/DeltaFIFO.v ===== *)
(** * The queue of changes of an informer: [client-go/tools/cache/delta_fifo.go]

    A reflector puts in the changes it sees, by key; the informer pops all the
    changes of one key at a time and applies them to its store.  Objects and
    their key function are parameters.  Every operation runs under the lock,
    and so does the function that processes what [Pop] takes. *)

From S2P Require Import Prelude.
#[local] Open Scope Z_scope.

Inductive DeltaType := Added | Updated | Deleted | Replaced | Sync.
#[export] Instance DeltaType_eq_dec : EqDecision DeltaType.
Proof. solve_decision. Defined.

Section FIFO.
Context {Obj : Type} (keyFunc : Obj → option string).

(** An object, or [DeletedFinalStateUnknown{Key, Obj}]. *)
Inductive dobj := Live (o : Obj) | DeletedFinalStateUnknown (Key : string) (obj : option dobj).

Record Delta := mkDelta { Type_ : DeltaType; Object : dobj }.

Definition Oldest (d : list Delta) : option Delta := head d.
Definition Newest (d : list Delta) : option Delta := last d.

(** What is known to exist; [GetByKey] is [None] for an error. *)
Record KeyListerGetter := mkKLG {
  kl_ListKeys : list string;
  kl_GetByKey : string → option (option dobj);
}.

Record DeltaFIFO := mkFIFO {
  items : gmap string (list Delta);
  queue : list string;
  populated : bool;
  initialPopulationCount : Z;
  closed : bool;
  fcond : Cond;
}.

Definition NewDeltaFIFOWithOptions : DeltaFIFO := mkFIFO ∅ [] false 0 false (mkCond 0 0).

Definition set_populated (f : DeltaFIFO) : DeltaFIFO :=
  mkFIFO (items f) (queue f) true (initialPopulationCount f) (closed f) (fcond f).

Definition Close (f : DeltaFIFO) : DeltaFIFO :=
  mkFIFO (items f) (queue f) (populated f) (initialPopulationCount f) true (cond_Broadcast (fcond f)).

Definition IsClosed (f : DeltaFIFO) : bool := closed f.

(** Of an object, or of a [Deltas]. *)
Definition KeyOf_obj (obj : dobj) : option string :=
  match obj with
  | DeletedFinalStateUnknown key _ => Some key
  | Live o => keyFunc o
  end.

Definition KeyOf (obj : dobj + list Delta) : option string :=
  match obj with
  | inl obj => KeyOf_obj obj
  | inr d => match Newest d with None => None | Some n => KeyOf_obj (Object n) end
  end.

Definition HasSynced (f : DeltaFIFO) : bool := populated f && (initialPopulationCount f =? 0).

Definition isDeletionDup (a b : Delta) : option Delta :=
  if negb (bool_decide (Type_ b = Deleted)) || negb (bool_decide (Type_ a = Deleted)) then None
  else match Object b with DeletedFinalStateUnknown _ _ => Some a | Live _ => Some b end.

Definition isDup (a b : Delta) : option Delta :=
  match isDeletionDup a b with Some out => Some out | None => None end.

Definition dedupDeltas (deltas : list Delta) : list Delta :=
  let n := length deltas in
  if (n <? 2)%nat then deltas
  else
    match deltas !! (n - 1)%nat, deltas !! (n - 2)%nat with
    | Some a, Some b =>
        match isDup a b with
        | Some out => take (n - 2) deltas ++ [out]
        | None => deltas
        end
    | _, _ => deltas
    end.

(** The flag is [false] for an error, here and below. *)
Definition queueActionLocked (f : DeltaFIFO) (actionType : DeltaType) (obj : dobj) : DeltaFIFO * bool :=
  match KeyOf_obj obj with
  | None => (f, false)
  | Some id =>
      let oldDeltas := items f !! id in
      let newDeltas := dedupDeltas (default [] oldDeltas ++ [mkDelta actionType obj]) in
      if (0 <? length newDeltas)%nat then
        let queue' := match oldDeltas with None => queue f ++ [id] | Some _ => queue f end in
        (mkFIFO (<[id := newDeltas]> (items f)) queue' (populated f) (initialPopulationCount f) (closed f)
           (cond_Broadcast (fcond f)), true)
      else
        match oldDeltas with
        | None => (f, true)
        | Some _ =>
            (mkFIFO (<[id := newDeltas]> (items f)) (queue f) (populated f) (initialPopulationCount f)
               (closed f) (fcond f), false)
        end
  end.

Definition Add (f : DeltaFIFO) (obj : dobj) : DeltaFIFO * bool := queueActionLocked (set_populated f) Added obj.
Definition Update (f : DeltaFIFO) (obj : dobj) : DeltaFIFO * bool :=
  queueActionLocked (set_populated f) Updated obj.

Definition Delete (known : option KeyListerGetter) (f : DeltaFIFO) (obj : dobj) : DeltaFIFO * bool :=
  match KeyOf_obj obj with
  | None => (f, false)
  | Some id =>
      let f := set_populated f in
      let skip :=
        match known with
        | None => bool_decide (items f !! id = None)
        | Some kl =>
            match kl_GetByKey kl id with
            | Some None => bool_decide (items f !! id = None)
            | _ => false
            end
        end in
      if skip then (f, true) else queueActionLocked f Deleted obj
  end.

Definition addIfNotPresent (f : DeltaFIFO) (id : string) (deltas : list Delta) : DeltaFIFO :=
  let f := set_populated f in
  match items f !! id with
  | Some _ => f
  | None =>
      mkFIFO (<[id := deltas]> (items f)) (queue f ++ [id]) (populated f) (initialPopulationCount f) (closed f)
        (cond_Broadcast (fcond f))
  end.

(** [Newest] of no deltas is nil, and dereferenced. *)
Definition AddIfNotPresent (f : DeltaFIFO) (deltas : list Delta) : outcome (DeltaFIFO * bool) :=
  match Newest deltas with
  | None => Panic
  | Some n =>
      match KeyOf_obj (Object n) with
      | None => Ret (f, false)
      | Some id => Ret (addIfNotPresent f id deltas, true)
      end
  end.

(** The order of a range over the items is a parameter. *)
Context (range : gmap string (list Delta) → list string).

Definition List_ (f : DeltaFIFO) : list dobj :=
  omap (λ k, d ← items f !! k; Object <$> Newest d) (range (items f)).
Definition ListKeys (f : DeltaFIFO) : list string := range (items f).
Definition GetByKey (f : DeltaFIFO) (key : string) : option (list Delta) := items f !! key.
Definition Get (f : DeltaFIFO) (obj : dobj + list Delta) : option (option (list Delta)) :=
  key ← KeyOf obj; Some (GetByKey f key).

(** The error of the process function: none, some, or [ErrRequeue]. *)
Inductive process_result := ProcessOk | ProcessErr | ProcessRequeue.

Inductive pop_result := PopWait | PopClosed | Popped (item : list Delta) (ok : bool).

(** [Pop] up to its return or to [cond.Wait]; the process function changes
    the consumer's state [σ].  A key without item is skipped. *)
Section Pop.
Context {Σ : Type} (process : Σ → list Delta → outcome (Σ * process_result)).

Fixpoint pop_loop (q : list string) (f : DeltaFIFO) (σ : Σ) : outcome (DeltaFIFO * Σ * pop_result) :=
  match q with
  | [] =>
      if closed f then Ret (mkFIFO (items f) [] (populated f) (initialPopulationCount f) (closed f) (fcond f), σ, PopClosed)
      else Ret (mkFIFO (items f) [] (populated f) (initialPopulationCount f) (closed f) (cond_Wait (fcond f)), σ, PopWait)
  | id :: q =>
      let ipc := initialPopulationCount f in
      let ipc := if 0 <? ipc then ipc - 1 else ipc in
      match items f !! id with
      | None => pop_loop q (mkFIFO (items f) q (populated f) ipc (closed f) (fcond f)) σ
      | Some item =>
          let f := mkFIFO (delete id (items f)) q (populated f) ipc (closed f) (fcond f) in
          match process σ item with
          | Panic => Panic
          | Ret (σ, r) =>
              let f := match r with ProcessRequeue => addIfNotPresent f id item | _ => f end in
              Ret (f, σ, Popped item (match r with ProcessOk => true | _ => false end))
          end
      end
  end.

Definition Pop (f : DeltaFIFO) (σ : Σ) : outcome (DeltaFIFO * Σ * pop_result) := pop_loop (queue f) f σ.
End Pop.

Definition Resume (f : DeltaFIFO) : DeltaFIFO :=
  mkFIFO (items f) (queue f) (populated f) (initialPopulationCount f) (closed f) (cond_Resume (fcond f)).

(** The loop of [Replace] over the list, with the keys. *)
Fixpoint replace_list (action : DeltaType) (l : list dobj) (keys : gset string) (f : DeltaFIFO)
    : DeltaFIFO * gset string * bool :=
  match l with
  | [] => (f, keys, true)
  | item :: l =>
      match KeyOf_obj item with
      | None => (f, keys, false)
      | Some key =>
          let keys := {[key]} ∪ keys in
          let '(f, ok) := queueActionLocked f action item in
          if ok then replace_list action l keys f else (f, keys, false)
      end
  end.

(** The loop over the keys that exist; [object_of] is the object of a key. *)
Fixpoint replace_deletions (keys : gset string) (object_of : DeltaFIFO → string → option dobj)
    (l : list string) (queuedDeletions : Z) (f : DeltaFIFO) : DeltaFIFO * Z * bool :=
  match l with
  | [] => (f, queuedDeletions, true)
  | k :: l =>
      if bool_decide (k ∈ keys) then replace_deletions keys object_of l queuedDeletions f
      else
        let '(f', ok) := queueActionLocked f Deleted (DeletedFinalStateUnknown k (object_of f k)) in
        if ok then replace_deletions keys object_of l (queuedDeletions + 1) f'
        else (f', queuedDeletions + 1, false)
  end.

Definition newest_object (f : DeltaFIFO) (k : string) : option dobj :=
  d ← items f !! k; Object <$> Newest d.

Definition known_object (kl : KeyListerGetter) (f : DeltaFIFO) (k : string) : option dobj :=
  match kl_GetByKey kl k with Some o => o | None => None end.

Definition Replace (emitDeltaTypeReplaced : bool) (known : option KeyListerGetter) (f : DeltaFIFO)
    (l : list dobj) : DeltaFIFO * bool :=
  let action := if emitDeltaTypeReplaced then Replaced else Sync in
  let '(f, keys, ok) := replace_list action l ∅ f in
  if negb ok then (f, false)
  else
    let '(f, queuedDeletions, ok) :=
      match known with
      | None => replace_deletions keys newest_object (range (items f)) 0 f
      | Some kl => replace_deletions keys (known_object kl) (kl_ListKeys kl) 0 f
      end in
    if negb ok then (f, false)
    else
      ((if populated f then f
        else mkFIFO (items f) (queue f) true (Z.of_nat (size keys) + queuedDeletions) (closed f) (fcond f)), true).

Definition syncKeyLocked (kl : KeyListerGetter) (f : DeltaFIFO) (key : string) : DeltaFIFO * bool :=
  match kl_GetByKey kl key with
  | None | Some None => (f, true)
  | Some (Some obj) =>
      match KeyOf_obj obj with
      | None => (f, false)
      | Some id =>
          if (0 <? length (default [] (items f !! id)))%nat then (f, true)
          else queueActionLocked f Sync obj
      end
  end.

Fixpoint resync_loop (kl : KeyListerGetter) (l : list string) (f : DeltaFIFO) : DeltaFIFO * bool :=
  match l with
  | [] => (f, true)
  | k :: l =>
      let '(f, ok) := syncKeyLocked kl f k in
      if ok then resync_loop kl l f else (f, false)
  end.

Definition Resync (known : option KeyListerGetter) (f : DeltaFIFO) : DeltaFIFO * bool :=
  match known with None => (f, true) | Some kl => resync_loop kl (kl_ListKeys kl) f end.
End FIFO.
Arguments dobj : clear implicits.
Arguments Delta : clear implicits.
Arguments DeltaFIFO : clear implicits.
Arguments KeyListerGetter : clear implicits.
Arguments pop_result : clear implicits.

(** ** Deltas of one key *)

Section Laws.
Context {Obj : Type} (keyFunc : Obj → option string) (range : gmap string (list (Delta Obj)) → list string).
Implicit Types (d : Delta Obj) (ds : list (Delta Obj)) (f : DeltaFIFO Obj) (o : option (dobj Obj)).

Local Abbreviation KeyOf_obj := (KeyOf_obj keyFunc).
Local Abbreviation queueActionLocked := (queueActionLocked keyFunc).

(** What a change makes of the object of the key. *)
Definition apply_delta o d : option (dobj Obj) := if decide (Type_ d = Deleted) then None else Some (Object d).
Definition apply_all ds o : option (dobj Obj) := foldl apply_delta o ds.

(** A deletion finds an object, and a resync the object it carries. *)
Definition delta_ok o d : Prop :=
  (Type_ d = Deleted → is_Some o) ∧ (Type_ d = Sync → o = Some (Object d)).

Fixpoint deltas_ok o ds : Prop :=
  match ds with
  | [] => True
  | d :: ds => delta_ok o d ∧ deltas_ok (apply_delta o d) ds
  end.

Definition push ds d : list (Delta Obj) := dedupDeltas (ds ++ [d]).

Lemma push_nil d : push [] d = [d].
Proof. done. Qed.

Lemma push_snoc ds b d :
  push (ds ++ [b]) d =
    if decide (Type_ b = Deleted ∧ Type_ d = Deleted)
    then ds ++ [match Object b with DeletedFinalStateUnknown _ _ => d | Live _ => b end]
    else ds ++ [b; d].
Proof.
  unfold push, dedupDeltas. rewrite !length_app. simpl. destruct (Nat.ltb_spec (length ds + 1 + 1) 2) as [|_]; [lia|].
  replace (length ds + 1 + 1 - 1)%nat with (length (ds ++ [b]) + 0)%nat by (rewrite length_app; simpl; lia).
  rewrite lookup_app_r, Nat.add_comm, Nat.add_sub by lia.
  replace (length ds + 1 + 1 - 2)%nat with (length ds) by lia.
  rewrite <- app_assoc. rewrite lookup_app_r, Nat.sub_diag by lia. simpl.
  unfold isDup, isDeletionDup. rewrite take_app_length by done.
  case_decide as H; [destruct H as [-> ->]; simpl; by destruct (Object b)|].
  repeat case_bool_decide; simpl; try done. naive_solver.
Qed.

Lemma push_nonempty ds d : push ds d ≠ [].
Proof.
  destruct ds as [|b ds _] using rev_ind; [done|]. rewrite push_snoc. case_decide; by destruct ds.
Qed.

Lemma apply_all_snoc ds d o : apply_all (ds ++ [d]) o = apply_delta (apply_all ds o) d.
Proof. unfold apply_all. by rewrite foldl_app. Qed.

Lemma apply_push ds d o : apply_all (push ds d) o = apply_delta (apply_all ds o) d.
Proof.
  destruct ds as [|b ds _] using rev_ind; [done|]. rewrite push_snoc. case_decide as H.
  - destruct H as [Hb Hd]. rewrite !apply_all_snoc. unfold apply_delta.
    rewrite (decide_True (P := Type_ d = Deleted)) by done. destruct (Object b); by rewrite decide_True.
  - change [b; d] with ([b] ++ [d]). by rewrite app_assoc, !apply_all_snoc.
Qed.

Lemma deltas_ok_snoc ds d o :
  deltas_ok o (ds ++ [d]) ↔ deltas_ok o ds ∧ delta_ok (apply_all ds o) d.
Proof.
  revert o. induction ds as [|b ds IH]; intros o; simpl; [tauto|]. rewrite IH. tauto.
Qed.

(** A deletion is fine after a deletion, with which it is merged. *)
Lemma deltas_ok_push ds d o :
  deltas_ok o ds → (Type_ d = Deleted → ds = [] → is_Some o) → (Type_ d = Sync → apply_all ds o = Some (Object d)) →
  deltas_ok o (push ds d).
Proof.
  destruct ds as [|b ds _] using rev_ind; [simpl; unfold delta_ok; naive_solver|]. intros Hb _ Hsync. rewrite push_snoc.
  pose proof Hb as [Hds [Hdel _]]%deltas_ok_snoc. case_decide as H.
  - destruct H as [Hbd Hdd]. apply deltas_ok_snoc. split; [done|]. split; [intros _; by apply Hdel|].
    destruct (Object b); congruence.
  - change [b; d] with ([b] ++ [d]). rewrite app_assoc. apply deltas_ok_snoc. split; [done|]. split; [|done].
    intros Hd. rewrite apply_all_snoc. unfold apply_delta. rewrite decide_False; [by eexists|]. tauto.
Qed.

Lemma push_Forall (P : Delta Obj → Prop) ds d : Forall P ds → P d → Forall P (push ds d).
Proof.
  destruct ds as [|b ds _] using rev_ind; intros Hds Hd; [by repeat constructor|]. rewrite push_snoc.
  apply Forall_app in Hds as [Hds [Hb _]%Forall_cons]. case_decide; apply Forall_app; split; try done.
  - destruct (Object b); by repeat constructor.
  - by repeat constructor.
Qed.

(** ** The queue *)

(** The keys of the queue are those of the items, once; the deltas of a key
    have its key; no goroutine sleeps while there is a key or after [Close]. *)
Definition is_live (x : dobj Obj) : bool := match x with Live _ => true | DeletedFinalStateUnknown _ _ => false end.

(** Only a deletion carries a [DeletedFinalStateUnknown]. *)
Definition delta_keyed (k : string) d : Prop :=
  KeyOf_obj (Object d) = Some k ∧ (Type_ d = Deleted ∨ is_live (Object d) = true).

Record fifo_core f : Prop := {
  fi_nodup : NoDup (queue f);
  fi_queue k : k ∈ queue f ↔ is_Some (items f !! k);
  fi_deltas k ds : items f !! k = Some ds → ds ≠ [] ∧ Forall (delta_keyed k) ds;
  fi_cond : (0 < waiting (fcond f))%nat → queue f = [] ∧ closed f = false;
}.

(** The first keys of the queue are what is left of the initial batch. *)
Definition ipc_ok f : Prop :=
  0 ≤ initialPopulationCount f ≤ Z.of_nat (length (queue f)) ∧ (populated f = false → queue f = []).

Definition fifo_inv f : Prop := fifo_core f ∧ ipc_ok f.

(** The object of a key after the changes that wait, over the store [σ]. *)
Definition pending_view f (σ : gmap string (dobj Obj)) (k : string) : option (dobj Obj) :=
  apply_all (default [] (items f !! k)) (σ !! k).

Lemma queue_items_size f : fifo_core f → length (queue f) = size (items f).
Proof.
  intros Hf. rewrite <- (size_dom (D := gset string)), <- (size_list_to_set (C := gset string)) by apply (fi_nodup _ Hf).
  f_equal. apply set_eq. intros k. by rewrite elem_of_list_to_set, elem_of_dom, (fi_queue _ Hf).
Qed.

Definition enqueued f (t : DeltaType) (obj : dobj Obj) (id : string) : DeltaFIFO Obj :=
  mkFIFO (<[id := push (default [] (items f !! id)) (mkDelta t obj)]> (items f))
    (match items f !! id with None => queue f ++ [id] | Some _ => queue f end)
    (populated f) (initialPopulationCount f) (closed f) (cond_Broadcast (fcond f)).

Lemma queueAction_enqueued f t obj id :
  KeyOf_obj obj = Some id → queueActionLocked f t obj = (enqueued f t obj id, true).
Proof.
  intros Hid. unfold DeltaFIFO.queueActionLocked. rewrite Hid. fold (push (default [] (items f !! id)) (mkDelta t obj)).
  destruct (Nat.ltb_spec 0 (length (push (default [] (items f !! id)) (mkDelta t obj)))) as [|Hn]; [done|].
  destruct (push_nonempty (default [] (items f !! id)) (mkDelta t obj)). apply length_zero_iff_nil. lia.
Qed.

Lemma enqueued_core f t obj id :
  fifo_core f → delta_keyed id (mkDelta t obj) → fifo_core (enqueued f t obj id).
Proof.
  intros [Hnd Hq Hd Hc] Hid. split; simpl.
  - destruct (items f !! id) eqn:Hi; [done|]. apply NoDup_app. split_and!; [done| |apply NoDup_singleton].
    intros k Hk ->%list_elem_of_singleton. apply Hq in Hk as [? ?]. congruence.
  - intros k. rewrite lookup_insert_is_Some. destruct (items f !! id) eqn:Hi.
    + rewrite Hq. destruct (decide (id = k)) as [<-|]; [|tauto]. rewrite Hi. split; [by left|by eexists].
    + rewrite elem_of_app, list_elem_of_singleton, Hq. destruct (decide (id = k)) as [<-|]; [naive_solver|].
      split; [|naive_solver]. intros [?| ->]; [by right|done].
  - intros k ds [[<- <-]|[_ Hk]]%lookup_insert_Some; [|by apply Hd]. split; [apply push_nonempty|].
    apply push_Forall; [|done]. destruct (items f !! id) as [ds|] eqn:Hi; [by apply Hd|constructor].
  - lia.
Qed.

Lemma enqueued_view f t obj id σ k :
  pending_view (enqueued f t obj id) σ k =
    if decide (k = id) then apply_delta (pending_view f σ id) (mkDelta t obj) else pending_view f σ k.
Proof.
  unfold pending_view. simpl. case_decide as H; [subst; by rewrite lookup_insert_eq; simpl; rewrite apply_push|].
  by rewrite lookup_insert_ne.
Qed.

Lemma enqueued_ipc f t obj id :
  0 ≤ initialPopulationCount f ≤ Z.of_nat (length (queue f)) →
  0 ≤ initialPopulationCount (enqueued f t obj id) ≤ Z.of_nat (length (queue (enqueued f t obj id))).
Proof. simpl. destruct (items f !! id); rewrite ?length_app; simpl; lia. Qed.

Lemma enqueued_prefix f t obj id : queue f `prefix_of` queue (enqueued f t obj id).
Proof. simpl. destruct (items f !! id); [done|]. by exists [id]. Qed.

Lemma set_populated_core f : fifo_core f → fifo_core (set_populated f).
Proof. by intros []; split. Qed.

(** ** The operations over a store *)

Implicit Types (σ : gmap string (dobj Obj)) (kl : KeyListerGetter Obj).

(** What a store promises to the queue it is the known objects of. *)
Record known_ok σ kl : Prop := {
  ko_nodup : NoDup (kl_ListKeys kl);
  ko_keys k : k ∈ kl_ListKeys kl ↔ is_Some (σ !! k);
  ko_get k : kl_GetByKey kl k = Some (σ !! k);
}.

Definition store_keyed σ : Prop := ∀ k x, σ !! k = Some x → KeyOf_obj x = Some k ∧ is_live x = true.

Record pipe_core f σ : Prop := {
  pc_core : fifo_core f;
  pc_ipc : 0 ≤ initialPopulationCount f ≤ Z.of_nat (length (queue f));
  pc_deltas k ds : items f !! k = Some ds → deltas_ok (σ !! k) ds;
}.

Lemma enqueued_pipe f σ t obj id :
  pipe_core f σ → delta_keyed id (mkDelta t obj) → (t = Deleted → items f !! id = None → is_Some (σ !! id)) →
  (t = Sync → pending_view f σ id = Some obj) →
  pipe_core (enqueued f t obj id) σ.
Proof.
  intros [Hc Hi Hd] Hid Hdel Hsync. split; [by apply enqueued_core|by apply enqueued_ipc|].
  simpl. intros k ds [[<- <-]|[_ Hk]]%lookup_insert_Some; [|by apply Hd].
  unfold pending_view in Hsync. destruct (items f !! id) as [ds|] eqn:Hit.
  - apply deltas_ok_push; [by apply Hd| |done]. intros _ Hnil. by destruct (fi_deltas _ Hc id ds Hit).
  - apply deltas_ok_push; [done|naive_solver|done].
Qed.

(** What the list of a [Replace] says of a key: its last object. *)
Definition list_view (l : list (dobj Obj)) o (k : string) : option (dobj Obj) :=
  foldl (λ o obj, if decide (KeyOf_obj obj = Some k) then Some obj else o) o l.

Definition keyed_list (l : list (dobj Obj)) : Prop := ∀ obj, obj ∈ l → is_Some (KeyOf_obj obj) ∧ is_live obj = true.

Definition list_keys (l : list (dobj Obj)) : gset string := list_to_set (omap KeyOf_obj l).

Lemma replace_list_spec t l : ∀ keys f σ,
  t ≠ Deleted → t ≠ Sync → keyed_list l → pipe_core f σ →
  ∃ f', replace_list keyFunc t l keys f = (f', list_keys l ∪ keys, true) ∧ pipe_core f' σ ∧
    populated f' = populated f ∧ initialPopulationCount f' = initialPopulationCount f ∧ closed f' = closed f ∧
    dom (items f') = dom (items f) ∪ list_keys l ∧ queue f `prefix_of` queue f' ∧
    ∀ k, pending_view f' σ k = list_view l (pending_view f σ k) k.
Proof.
  induction l as [|obj l IH]; intros keys f σ Ht Hts Hl Hp; simpl.
  { exists f. unfold list_keys. simpl. split_and!; try done; [do 2 f_equal; set_solver|set_solver]. }
  destruct (Hl obj ltac:(by left)) as [[id Hid] Hlive]. rewrite Hid. rewrite (queueAction_enqueued f t obj id Hid).
  destruct (IH ({[id]} ∪ keys) (enqueued f t obj id) σ) as (f' & -> & Hp' & H1 & H2 & H3 & H4 & H5 & H6); [done|done| | |].
  { intros x Hx. apply Hl. by right. }
  { apply enqueued_pipe; try done. split; [done|by right]. }
  exists f'. assert (list_keys (obj :: l) = {[id]} ∪ list_keys l) as Hkeys by (unfold list_keys; simpl; by rewrite Hid).
  split_and!; try done.
  - do 2 f_equal. rewrite Hkeys. set_solver.
  - rewrite H4, Hkeys. simpl. rewrite dom_insert_L. set_solver.
  - etrans; [apply enqueued_prefix|done].
  - intros k. rewrite H6, enqueued_view. unfold list_view. simpl. f_equal. destruct (decide (k = id)) as [->|].
    + rewrite (decide_True (P := Some id = Some id)) by done. unfold apply_delta. by rewrite decide_False.
    + by rewrite decide_False by naive_solver.
Qed.

Lemma replace_deletions_spec keys object_of l : ∀ n f σ,
  NoDup l → (∀ k, k ∈ l → k ∉ keys → is_Some (items f !! k) ∨ is_Some (σ !! k)) → pipe_core f σ →
  ∃ f', replace_deletions keyFunc keys object_of l n f =
      (f', n + Z.of_nat (length (filter (λ k, k ∉ keys) l)), true) ∧ pipe_core f' σ ∧
    populated f' = populated f ∧ initialPopulationCount f' = initialPopulationCount f ∧ closed f' = closed f ∧
    dom (items f') = dom (items f) ∪ list_to_set (filter (λ k, k ∉ keys) l) ∧ queue f `prefix_of` queue f' ∧
    ∀ k, pending_view f' σ k = if decide (k ∈ l ∧ k ∉ keys) then None else pending_view f σ k.
Proof.
  induction l as [|k l IH]; intros n f σ Hnd Hex Hp; cbn [replace_deletions].
  { exists f. split; [do 2 f_equal; simpl; lia|]. do 4 (split; [done|]). split; [set_solver|]. split; [done|].
    intros k. rewrite decide_False; [done|].
    intros [?%not_elem_of_nil _]. done. }
  apply NoDup_cons in Hnd as [Hk Hnd]. rewrite filter_cons. case_bool_decide as Hkeys.
  - rewrite decide_False by tauto. destruct (IH n f σ Hnd) as (f' & -> & Hp' & H1 & H2 & H3 & H4 & H5 & H6); [|done|].
    { intros k' Hk'. apply Hex. by right. }
    exists f'. split_and!; try done. intros k'. rewrite H6.
    destruct (decide (k' = k)) as [->|]; [rewrite !decide_False by tauto; done|].
    repeat case_decide; set_solver.
  - rewrite decide_True by done.
    set (obj := DeletedFinalStateUnknown k (object_of f k)).
    rewrite (queueAction_enqueued f Deleted obj k eq_refl).
    destruct (IH (n + 1) (enqueued f Deleted obj k) σ Hnd) as (f' & -> & Hp' & H1 & H2 & H3 & H4 & H5 & H6).
    { intros k' Hk' Hn. simpl. destruct (Hex k' ltac:(by right) Hn); [left|by right].
      apply lookup_insert_is_Some. destruct (decide (k = k')); auto. }
    { apply enqueued_pipe; [done|by split; auto| |done]. intros _ Hno. destruct (Hex k ltac:(by left) Hkeys) as [[? ?]|]; congruence || done. }
    exists f'. split_and!; try done.
    + do 2 f_equal. simpl. lia.
    + rewrite H4. simpl. rewrite dom_insert_L. set_solver.
    + etrans; [apply enqueued_prefix|done].
    + intros k'. rewrite H6, enqueued_view. destruct (decide (k' = k)) as [->|Hne].
      * rewrite (decide_True (P := k ∈ k :: l ∧ k ∉ keys)) by (split; [by left|done]).
        rewrite decide_False by tauto. done.
      * destruct (decide (k' ∈ l ∧ k' ∉ keys)); [rewrite decide_True; set_solver|rewrite decide_False; set_solver].
Qed.

Record pipe_inv f σ : Prop := {
  pi_core : pipe_core f σ;
  pi_populated : populated f = false → queue f = [];
  pi_keyed : store_keyed σ;
}.

Lemma set_populated_pipe f σ : pipe_core f σ → pipe_core (set_populated f) σ.
Proof. intros [[] Hi Hd]. by split. Qed.

(** [Add] and [Update]. *)
Lemma put_pipe f σ t obj id :
  pipe_inv f σ → t ≠ Deleted → t ≠ Sync → KeyOf_obj obj = Some id → is_live obj = true →
  ∃ f', queueActionLocked (set_populated f) t obj = (f', true) ∧ pipe_inv f' σ ∧
    populated f' = true ∧ initialPopulationCount f' = initialPopulationCount f ∧ closed f' = closed f ∧
    queue f `prefix_of` queue f' ∧
    ∀ k, pending_view f' σ k = if decide (k = id) then Some obj else pending_view f σ k.
Proof.
  intros [Hc Hp Hk] Ht Hts Hid Hlive. rewrite (queueAction_enqueued _ t obj id Hid). eexists. split; [done|].
  split; [split; [|done|done]|].
  { apply enqueued_pipe; [by apply set_populated_pipe|by split; auto|done..]. }
  split_and!; try done; [apply (enqueued_prefix (set_populated f))|].
  intros k. rewrite enqueued_view. case_decide; [|done]. unfold apply_delta. by rewrite decide_False.
Qed.

Lemma Delete_pipe f σ kl obj id :
  pipe_inv f σ → known_ok σ kl → KeyOf_obj obj = Some id →
  ∃ f', Delete keyFunc (Some kl) f obj = (f', true) ∧ pipe_inv f' σ ∧
    populated f' = true ∧ initialPopulationCount f' = initialPopulationCount f ∧ closed f' = closed f ∧
    queue f `prefix_of` queue f' ∧
    ∀ k, pending_view f' σ k = if decide (k = id) then None else pending_view f σ k.
Proof.
  intros [Hc Hp Hk] Hkl Hid. unfold Delete. rewrite Hid, (ko_get _ _ Hkl id).
  destruct (σ !! id) as [o|] eqn:Ho; [|case_bool_decide as Hi].
  1,3: rewrite (queueAction_enqueued _ Deleted obj id Hid); eexists; split; [done|].
  1,2: split; [split; [|done|done]|split_and!; try done; [apply (enqueued_prefix (set_populated f))|]].
  - apply enqueued_pipe; [by apply set_populated_pipe|by split; auto| |done]. intros _ _. by rewrite Ho.
  - intros k. rewrite enqueued_view. case_decide; done.
  - apply enqueued_pipe; [by apply set_populated_pipe|by split; auto| |done]. intros _ Hi2. by destruct Hi.
  - intros k. rewrite enqueued_view. case_decide; done.
  - eexists. split; [done|]. split; [split; [by apply set_populated_pipe|done|done]|]. split_and!; try done.
    intros k. case_decide as Hki; [|done]. subst. unfold pending_view. simpl in *. by rewrite Hi, Ho.
Qed.

Lemma empty_items f : fifo_core f → queue f = [] → items f = ∅.
Proof. intros Hf Hq. apply map_size_empty_inv. rewrite <- queue_items_size by done. by rewrite Hq. Qed.

Lemma Replace_pipe f σ kl l :
  pipe_inv f σ → known_ok σ kl → keyed_list l →
  ∃ f', Replace keyFunc range true (Some kl) f l = (f', true) ∧ pipe_inv f' σ ∧ populated f' = true ∧
    initialPopulationCount f' =
      (if populated f then initialPopulationCount f else Z.of_nat (length (queue f'))) ∧
    closed f' = closed f ∧ queue f `prefix_of` queue f' ∧
    (∀ k, k ∈ queue f' ↔ k ∈ queue f ∨ k ∈ list_keys l ∨ is_Some (σ !! k)) ∧
    ∀ k, pending_view f' σ k =
      if decide (is_Some (σ !! k) ∧ k ∉ list_keys l) then None else list_view l (pending_view f σ k) k.
Proof.
  intros [Hc Hp Hk] Hkl Hl. unfold Replace.
  destruct (replace_list_spec Replaced l ∅ f σ ltac:(done) ltac:(done) Hl Hc) as (f1 & -> & Hc1 & P1 & I1 & C1 & D1 & Q1 & V1). cbn [negb].
  assert (list_keys l ∪ ∅ = list_keys l) as -> by set_solver.
  destruct (replace_deletions_spec (list_keys l) (known_object kl) (kl_ListKeys kl) 0 f1 σ) as
    (f2 & -> & Hc2 & P2 & I2 & C2 & D2 & Q2 & V2); [apply (ko_nodup _ _ Hkl)| |done|].
  { intros k Hin _. right. by apply (ko_keys _ _ Hkl). }
  cbn [negb].
  assert (∀ k, pending_view f2 σ k =
    if decide (is_Some (σ !! k) ∧ k ∉ list_keys l) then None else list_view l (pending_view f σ k) k) as V.
  { intros k. rewrite V2, V1. repeat case_decide; try done; rewrite (ko_keys _ _ Hkl) in *; tauto. }
  assert (queue f `prefix_of` queue f2) as Q by (by etrans).
  assert (∀ k, k ∈ queue f2 ↔ k ∈ queue f ∨ k ∈ list_keys l ∨ is_Some (σ !! k)) as K.
  { intros k. rewrite (fi_queue _ (pc_core _ _ Hc2)), (fi_queue _ (pc_core _ _ Hc)), <- !elem_of_dom, D2, D1.
    rewrite !elem_of_union, elem_of_list_to_set, list_elem_of_filter, (ko_keys _ _ Hkl).
    rewrite !elem_of_dom. destruct (decide (k ∈ list_keys l)); tauto. }
  destruct (populated f) eqn:Hpop.
  - rewrite P2, P1. exists f2. split; [done|]. split; [split; [done|congruence|done]|]. split_and!; congruence || done.
  - rewrite P2, P1. eexists. split; [done|]. cbn [initialPopulationCount queue populated closed items].
    assert (Z.of_nat (size (list_keys l)) + (0 + Z.of_nat (length (filter (λ k, k ∉ list_keys l) (kl_ListKeys kl)))) =
            Z.of_nat (length (queue f2))) as Hlen.
    { rewrite (queue_items_size f2 (pc_core _ _ Hc2)), <- (size_dom (D := gset string)), D2, D1.
      rewrite (empty_items f (pc_core _ _ Hc) (Hp eq_refl)), dom_empty_L, union_empty_l_L.
      rewrite size_union, size_list_to_set; [lia|apply NoDup_filter, (ko_nodup _ _ Hkl)|].
      intros k Hk1 [Hk2 _]%elem_of_list_to_set%list_elem_of_filter. done. }
    split; [|split_and!; congruence || done]. split; [|done|done]. destruct Hc2 as [[] Hi2 Hd2].
    split; [by split| |done]. cbn [initialPopulationCount queue]. rewrite Hlen. lia.
Qed.

Lemma resync_loop_pipe kl σ l : ∀ f,
  known_ok σ kl → store_keyed σ → pipe_core f σ →
  ∃ f', resync_loop keyFunc kl l f = (f', true) ∧ pipe_core f' σ ∧ populated f' = populated f ∧
    initialPopulationCount f' = initialPopulationCount f ∧ closed f' = closed f ∧ queue f `prefix_of` queue f' ∧
    ∀ k, pending_view f' σ k = pending_view f σ k.
Proof.
  induction l as [|key l IH]; intros f Hkl Hk Hp; cbn [resync_loop]; [by exists f|].
  unfold syncKeyLocked. rewrite (ko_get _ _ Hkl key). destruct (σ !! key) as [o|] eqn:Ho; [|by apply IH].
  destruct (Hk key o Ho) as [Hkey Hlive]. rewrite Hkey. destruct (items f !! key) as [ds|] eqn:Hi.
  { destruct (fi_deltas _ (pc_core _ _ Hp) key ds Hi) as [Hne _]. simpl. destruct ds; [done|]. simpl. by apply IH. }
  simpl. rewrite (queueAction_enqueued f Sync o key Hkey).
  destruct (IH (enqueued f Sync o key) Hkl Hk) as (f' & -> & Hp' & H1 & H2 & H3 & H4 & H5).
  { apply enqueued_pipe; [done|by split; auto|done|]. intros _. unfold pending_view. by rewrite Hi, Ho. }
  exists f'. split_and!; try done; [etrans; [apply enqueued_prefix|done]|].
  intros k. rewrite H5, enqueued_view. case_decide; [|done]. subst. unfold pending_view. rewrite Hi, Ho. done.
Qed.

Lemma Resync_pipe f σ kl :
  pipe_inv f σ → known_ok σ kl → populated f = true →
  ∃ f', Resync keyFunc (Some kl) f = (f', true) ∧ pipe_inv f' σ ∧ populated f' = true ∧
    initialPopulationCount f' = initialPopulationCount f ∧ closed f' = closed f ∧ queue f `prefix_of` queue f' ∧
    ∀ k, pending_view f' σ k = pending_view f σ k.
Proof.
  intros [Hc Hp Hk] Hkl Hpop.
  destruct (resync_loop_pipe kl σ (kl_ListKeys kl) f Hkl Hk Hc) as (f' & He & Hc' & H1 & H2 & H3 & H4 & H5).
  exists f'. split; [done|]. split; [split; [done|congruence|done]|]. split_and!; congruence || done.
Qed.

(** ** [Pop] *)

(** The queue without its first key. *)
Definition popped f (id : string) (q : list string) : DeltaFIFO Obj :=
  mkFIFO (delete id (items f)) q (populated f)
    (if 0 <? initialPopulationCount f then initialPopulationCount f - 1 else initialPopulationCount f)
    (closed f) (fcond f).

Lemma Pop_head {Σ} (process : Σ → list (Delta Obj) → outcome (Σ * process_result)) f s id q :
  fifo_core f → queue f = id :: q →
  ∃ ds, items f !! id = Some ds ∧
    Pop process f s =
      match process s ds with
      | Panic => Panic
      | Ret (s, r) =>
          Ret (match r with ProcessRequeue => addIfNotPresent (popped f id q) id ds | _ => popped f id q end, s,
               Popped ds (match r with ProcessOk => true | _ => false end))
      end.
Proof.
  intros Hf Hq. assert (is_Some (items f !! id)) as [ds Hds] by (apply (fi_queue _ Hf); rewrite Hq; by left).
  exists ds. split; [done|]. unfold Pop. rewrite Hq. simpl. by rewrite Hds.
Qed.

Lemma popped_pipe f σ id q ds :
  pipe_core f σ → store_keyed σ → queue f = id :: q → items f !! id = Some ds →
  let σ' := partial_alter (λ _, apply_all ds (σ !! id)) id σ in
  pipe_core (popped f id q) σ' ∧ store_keyed σ' ∧
  ∀ k, pending_view (popped f id q) σ' k = pending_view f σ k.
Proof.
  intros [[Hnd Hq Hd Hc] Hi Hdel] Hk Hf Hds σ'. rewrite Hf in Hnd. apply NoDup_cons in Hnd as [Hid Hnd].
  assert (∀ k, k ≠ id → σ' !! k = σ !! k) as Hne by (intros k Hki; by apply lookup_partial_alter_ne).
  split; [split; [split|..]|split]; simpl.
  - done.
  - intros k. rewrite lookup_delete_is_Some, <- Hq, Hf, elem_of_cons. naive_solver.
  - intros k ds' [_ Hk']%lookup_delete_Some. by apply Hd.
  - intros Hw. destruct (Hc Hw) as [He _]. congruence.
  - rewrite Hf in Hi. simpl in Hi. destruct (Z.ltb_spec 0 (initialPopulationCount f)); lia.
  - intros k ds' [Hki Hk']%lookup_delete_Some. rewrite Hne by done. by apply Hdel.
  - intros k x. destruct (decide (k = id)) as [->|Hki]; [|rewrite Hne by done; apply Hk].
    unfold σ'. rewrite lookup_partial_alter_eq. destruct (Hd id ds Hds) as [_ Hall]. revert Hall.
    destruct ds as [|d ds' _] using rev_ind; [intros _; apply Hk|]. rewrite apply_all_snoc.
    intros [_ [[Hd' Hlive] _]%Forall_cons]%Forall_app. unfold apply_delta. case_decide; [done|]. intros [= <-].
    split; [done|]. by destruct Hlive.
  - intros k. unfold pending_view. simpl. destruct (decide (k = id)) as [->|Hki].
    + rewrite lookup_delete_eq, Hds. unfold σ'. by rewrite lookup_partial_alter_eq.
    + by rewrite lookup_delete_ne, Hne.
Qed.
End Laws.
