(* ===== verification/RingGrowing.v ===== *)
(** * The growing ring buffer: [vendor/k8s.io/utils/buffer/ring_growing.go]

    The buffer of the notifications a listener has not handled yet.  A slot is
    [None] when it is nil; indexing and the remainder panic as in Go. *)

From S2P Require Import Prelude.

Section Ring.
Context {A : Type}.

Record RingGrowing := mkRing {
  data : list (option A);
  rn : nat;
  beg : nat;
  readable : nat;
}.

Definition NewRingGrowing (initialSize : nat) : RingGrowing :=
  mkRing (replicate initialSize None) initialSize 0 0.

(** The item that is read, [None] for [(nil, false)]. *)
Definition ReadOne (r : RingGrowing) : outcome (RingGrowing * option (option A)) :=
  if readable r =? 0 then Ret (r, None)
  else
    match data r !! beg r with
    | None => Panic
    | Some element =>
        let data' := <[beg r := None]> (data r) in
        let beg' := if beg r =? rn r - 1 then 0 else beg r + 1 in
        Ret (mkRing data' (rn r) beg' (readable r - 1), Some element)
    end.

(** [copy(dst[at:], src)] *)
Definition copy_at (dst : list (option A)) (at_ : nat) (src : list (option A)) : list (option A) :=
  let src := take (length dst - at_) src in
  take at_ dst ++ src ++ drop (at_ + length src) dst.

Definition grow (r : RingGrowing) : outcome RingGrowing :=
  let newN := rn r * 2 in
  let newData := replicate newN None in
  let to := beg r + readable r in
  if to <=? rn r then
    Ret (mkRing (copy_at newData 0 (take (to - beg r) (drop (beg r) (data r)))) newN 0 (readable r))
  else
    let first := drop (beg r) (data r) in
    let copied := Nat.min (length newData) (length first) in
    if rn r =? 0 then Panic
    else
      Ret (mkRing (copy_at (copy_at newData 0 first) copied (take (to mod rn r) (data r))) newN 0 (readable r)).

Definition WriteOne (r : RingGrowing) (x : A) : outcome RingGrowing :=
  match (if readable r =? rn r then grow r else Ret r) with
  | Panic => Panic
  | Ret r =>
      if rn r =? 0 then Panic
      else
        let i := (readable r + beg r) mod rn r in
        if i <? length (data r) then
          Ret (mkRing (<[i := Some x]> (data r)) (rn r) (beg r) (S (readable r)))
        else Panic
  end.

(** ** The buffer is a queue *)

(** The buffer holds [l], oldest first. *)
Record holds (r : RingGrowing) (l : list A) : Prop := {
  h_length : length (data r) = rn r;
  h_size : 0 < rn r;
  h_beg : beg r < rn r;
  h_readable : readable r = length l;
  h_fits : length l ≤ rn r;
  h_items i x : l !! i = Some x → data r !! ((beg r + i) mod rn r) = Some (Some x);
}.

Lemma new_holds n : 0 < n → holds (NewRingGrowing n) [].
Proof. intros Hn. split; simpl; try lia; [apply length_replicate|]. intros i x Hi. done. Qed.

Lemma wrap a i n : a < n → i < n → (a + i) mod n = if decide (a + i < n) then a + i else a + i - n.
Proof.
  intros Ha Hi. case_decide; [by apply Nat.mod_small|].
  symmetry. apply (Nat.mod_unique _ _ 1); lia.
Qed.

Lemma ReadOne_empty r : holds r [] → ReadOne r = Ret (r, None).
Proof. intros H. unfold ReadOne. by rewrite (h_readable _ _ H). Qed.

Lemma ReadOne_holds r x l :
  holds r (x :: l) → ∃ r', ReadOne r = Ret (r', Some (Some x)) ∧ holds r' l.
Proof.
  intros [Hlen Hn Hb Hr Hf Hi]. unfold ReadOne. rewrite Hr. simpl in *.
  pose proof (Hi 0 x eq_refl) as H0. rewrite Nat.add_0_r, Nat.mod_small in H0 by done. rewrite H0.
  eexists. split; [done|]. split; simpl; try lia.
  - by rewrite length_insert.
  - destruct (Nat.eqb_spec (beg r) (rn r - 1)); lia.
  - intros i y Hy. pose proof (lookup_lt_Some _ _ _ Hy) as Hlt. specialize (Hi (S i) y Hy).
    assert (((if beg r =? rn r - 1 then 0 else beg r + 1) + i) mod rn r = (beg r + S i) mod rn r) as ->.
    { rewrite (wrap (beg r) (S i)) by lia.
      destruct (Nat.eqb_spec (beg r) (rn r - 1)); rewrite wrap by lia; repeat case_decide; lia. }
    rewrite list_lookup_insert_ne; [done|]. rewrite wrap by lia. case_decide; lia.
Qed.

Lemma copy_at_zero n src : length src ≤ n → copy_at (replicate n None) 0 src = src ++ replicate (n - length src) None.
Proof.
  intros Hle. unfold copy_at. rewrite length_replicate, Nat.sub_0_r, (take_ge src) by done. simpl.
  by rewrite drop_replicate.
Qed.

Lemma copy_at_next a b src :
  length src ≤ b → copy_at (a ++ replicate b None) (length a) src = a ++ src ++ replicate (b - length src) None.
Proof.
  intros Hle. unfold copy_at. rewrite length_app, length_replicate.
  rewrite (take_ge src) by lia. rewrite take_app_length, drop_app_ge by lia. f_equal. f_equal.
  replace (length a + length src - length a) with (length src) by lia. by rewrite drop_replicate.
Qed.

(** The full buffer in order, then free slots. *)
Lemma grow_holds r l : holds r l → readable r = rn r → ∃ r', grow r = Ret r' ∧ holds r' l ∧ readable r' < rn r'.
Proof.
  intros [Hlen Hn Hb Hr Hf Hi] Hfull. unfold grow.
  set (inorder := drop (beg r) (data r) ++ take (beg r) (data r)).
  assert (∃ r', grow r = Ret r' ∧ r' = mkRing (inorder ++ replicate (rn r) None) (rn r * 2) 0 (readable r)) as (r' & Hg & Hr').
  { eexists. split; [|done]. unfold grow. rewrite Hfull. destruct (Nat.leb_spec (beg r + rn r) (rn r)) as [Hz|Hz].
    - assert (beg r = 0) as H0 by lia. unfold inorder. rewrite H0, drop_0, take_0, app_nil_r. simpl.
      rewrite (take_ge (data r)) by lia. rewrite copy_at_zero by lia. rewrite Hlen.
      replace (rn r * 2 - rn r) with (rn r) by lia. done.
    - destruct (Nat.eqb_spec (rn r) 0) as [|_]; [lia|].
      assert (length (drop (beg r) (data r)) = rn r - beg r) as Hd by (by rewrite length_drop, Hlen).
      rewrite copy_at_zero by lia. rewrite length_replicate, Hd.
      replace (Nat.min (rn r * 2) (rn r - beg r)) with (length (drop (beg r) (data r))) by lia.
      assert ((beg r + rn r) mod rn r = beg r) as ->.
      { symmetry. apply (Nat.mod_unique _ _ 1); lia. }
      rewrite copy_at_next by (rewrite length_take; lia). unfold inorder. rewrite <- app_assoc. do 4 f_equal.
      rewrite length_take. f_equal. lia. }
  exists r'. rewrite Hr' in *. split; [exact Hg|]. split; [|simpl; lia].
  assert (length inorder = rn r) as Hil.
  { unfold inorder. rewrite length_app, length_drop, length_take. lia. }
  split; simpl; try lia.
  - rewrite length_app, length_replicate. lia.
  - intros i x Hx. pose proof (lookup_lt_Some _ _ _ Hx) as Hlt. rewrite Nat.mod_small by lia.
    rewrite lookup_app_l by lia. specialize (Hi i x Hx). rewrite wrap in Hi by lia. unfold inorder.
    case_decide as Hw.
    + rewrite lookup_app_l by (rewrite length_drop; lia). by rewrite lookup_drop.
    + rewrite lookup_app_r by (rewrite length_drop; lia). rewrite length_drop, lookup_take_lt by lia.
      rewrite <- Hi. f_equal. lia.
Qed.

Lemma WriteOne_holds r l x : holds r l → ∃ r', WriteOne r x = Ret r' ∧ holds r' (l ++ [x]).
Proof.
  intros H. unfold WriteOne.
  assert (∃ r1, (if readable r =? rn r then grow r else Ret r) = Ret r1 ∧ holds r1 l ∧ readable r1 < rn r1)
    as (r1 & -> & [Hlen Hn Hb Hr Hf Hi] & Hlt).
  { destruct (Nat.eqb_spec (readable r) (rn r)) as [He|He]; [by apply grow_holds|].
    exists r. split; [done|]. split; [done|]. destruct H. lia. }
  destruct (Nat.eqb_spec (rn r1) 0) as [|_]; [lia|]. rewrite (Nat.add_comm (readable r1)).
  assert ((beg r1 + readable r1) mod rn r1 < rn r1) as Hin by (apply Nat.mod_upper_bound; lia).
  destruct (Nat.ltb_spec ((beg r1 + readable r1) mod rn r1) (length (data r1))) as [_|]; [|lia].
  eexists. split; [done|]. split; simpl; try lia.
  - by rewrite length_insert.
  - rewrite length_app. simpl. lia.
  - rewrite length_app. simpl. lia.
  - intros i y Hy. rewrite Hr in *. destruct (decide (i = length l)) as [->|Hne].
    + rewrite list_lookup_insert_eq by lia. rewrite lookup_app_r, Nat.sub_diag in Hy by lia. by injection Hy as ->.
    + pose proof (lookup_lt_Some _ _ _ Hy) as Hil. rewrite length_app in Hil. simpl in Hil.
      rewrite lookup_app_l in Hy by lia. rewrite list_lookup_insert_ne; [by apply Hi|].
      rewrite !wrap by lia. repeat case_decide; lia.
Qed.
End Ring.
Arguments RingGrowing : clear implicits.
