(* ===== verification/Informer.v ===== *)
(** * Shared informers: [client-go/tools/cache/shared_informer.go]

    The consumer of the [DeltaFIFO]: it keeps the indexer (the store of
    [ThreadSafeStore] with a key function, [store.go]) and distributes a notification of every
    change to its listeners.  A listener's [pop] goroutine takes what
    [add] sends and hands it on to the handler through a ring buffer; taking
    and handing on are separate steps, in any order.  Listeners are known by
    their position.  The mutation detector has no effect and is left out. *)

From S2P Require Import Prelude ThreadSafeStore DeltaFIFO RingGrowing.
#[local] Open Scope Z_scope.

Section Informer.
Context {Obj : Type} (keyFunc : Obj → option string) (resourceVersion : Obj → string).

(** ** The indexer: [store.go] *)

(** [DeletionHandlingMetaNamespaceKeyFunc] *)
Definition DeletionHandlingKeyFunc (obj : dobj Obj) : option string :=
  match obj with DeletedFinalStateUnknown key _ => Some key | Live o => keyFunc o end.

(** The flag is [false] for an error of the key function. *)
Definition cache_Add (c : threadSafeMap (dobj Obj)) (obj : dobj Obj) : outcome (threadSafeMap (dobj Obj) * bool) :=
  match DeletionHandlingKeyFunc obj with
  | None => Ret (c, false)
  | Some key => c ← ThreadSafeStore.Add c key obj; Ret (c, true)
  end.

Definition cache_Update (c : threadSafeMap (dobj Obj)) (obj : dobj Obj) : outcome (threadSafeMap (dobj Obj) * bool) :=
  match DeletionHandlingKeyFunc obj with
  | None => Ret (c, false)
  | Some key => c ← ThreadSafeStore.Update c key obj; Ret (c, true)
  end.

Definition cache_Delete (c : threadSafeMap (dobj Obj)) (obj : dobj Obj) : outcome (threadSafeMap (dobj Obj) * bool) :=
  match DeletionHandlingKeyFunc obj with
  | None => Ret (c, false)
  | Some key => c ← ThreadSafeStore.Delete c key; Ret (c, true)
  end.

Definition cache_GetByKey (c : threadSafeMap (dobj Obj)) (key : string) : option (option (dobj Obj)) :=
  Some (ThreadSafeStore.Get c key).

Definition cache_Get (c : threadSafeMap (dobj Obj)) (obj : dobj Obj) : option (option (dobj Obj)) :=
  key ← DeletionHandlingKeyFunc obj; cache_GetByKey c key.

Definition cache_ListKeys (c : threadSafeMap (dobj Obj)) : list string := ThreadSafeStore.ListKeys c.

Definition NewIndexer (indexers : gmap string (IndexFunc (dobj Obj))) : threadSafeMap (dobj Obj) :=
  NewThreadSafeStore indexers ∅.

(** The indexer as the known objects of the queue. *)
Definition known (c : threadSafeMap (dobj Obj)) : KeyListerGetter Obj :=
  mkKLG (cache_ListKeys c) (cache_GetByKey c).

(** ** Listeners *)

Inductive notification :=
| updateNotification (oldObj newObj : dobj Obj)
| addNotification (newObj : dobj Obj)
| deleteNotification (oldObj : dobj Obj).

(** [pl_notification] is the one [pop] offers, [pl_delivered] what the handler got. *)
Record processorListener := mkListener {
  pl_notification : option notification;
  pendingNotifications : RingGrowing notification;
  pl_delivered : list notification;
  requestedResyncPeriod : Z;
  resyncPeriod : Z;
  nextResync : Z;
}.

Definition initialBufferSize : nat := 1024.

Definition determineNextResync (p : processorListener) (now : Z) : processorListener :=
  mkListener (pl_notification p) (pendingNotifications p) (pl_delivered p) (requestedResyncPeriod p)
    (resyncPeriod p) (now + resyncPeriod p).

Definition newProcessListener (requested period now : Z) (bufferSize : nat) : processorListener :=
  determineNextResync (mkListener None (NewRingGrowing bufferSize) [] requested period 0) now.

(** [add], with the case of [pop] that takes it. *)
Definition listener_add (p : processorListener) (n : notification) : outcome processorListener :=
  match pl_notification p with
  | None =>
      Ret (mkListener (Some n) (pendingNotifications p) (pl_delivered p) (requestedResyncPeriod p)
             (resyncPeriod p) (nextResync p))
  | Some _ =>
      r ← WriteOne (pendingNotifications p) n;
      Ret (mkListener (pl_notification p) r (pl_delivered p) (requestedResyncPeriod p) (resyncPeriod p)
             (nextResync p))
  end.

(** The other case of [pop]: [run] takes the notification and calls the handler. *)
Definition listener_dispatch (p : processorListener) : outcome processorListener :=
  match pl_notification p with
  | None => Ret p
  | Some n =>
      '(r, next) ← ReadOne (pendingNotifications p);
      Ret (mkListener (match next with Some n => n | None => None end) r (pl_delivered p ++ [n])
             (requestedResyncPeriod p) (resyncPeriod p) (nextResync p))
  end.

Definition listener_shouldResync (p : processorListener) (now : Z) : bool :=
  if resyncPeriod p =? 0 then false else (nextResync p <? now) || (now =? nextResync p).

Definition setResyncPeriod (p : processorListener) (period : Z) : processorListener :=
  mkListener (pl_notification p) (pendingNotifications p) (pl_delivered p) (requestedResyncPeriod p) period
    (nextResync p).

(** ** The processor *)

Record sharedProcessor := mkProcessor {
  listeners : list processorListener;
  syncingListeners : list nat;
}.

Definition addListener (p : sharedProcessor) (l : processorListener) : sharedProcessor :=
  mkProcessor (listeners p ++ [l]) (syncingListeners p ++ [length (listeners p)]).

Fixpoint distribute_loop (n : notification) (idx : list nat) (ls : list processorListener)
    : outcome (list processorListener) :=
  match idx with
  | [] => Ret ls
  | i :: idx =>
      match ls !! i with
      | None => Panic
      | Some l => l ← listener_add l n; distribute_loop n idx (<[i := l]> ls)
      end
  end.

Definition distribute (p : sharedProcessor) (n : notification) (sync : bool) : outcome sharedProcessor :=
  let idx := if sync then syncingListeners p else seq 0 (length (listeners p)) in
  ls ← distribute_loop n idx (listeners p);
  Ret (mkProcessor ls (syncingListeners p)).

Fixpoint shouldResync_loop (now : Z) (i : nat) (ls : list processorListener)
    : list processorListener * list nat :=
  match ls with
  | [] => ([], [])
  | l :: ls =>
      let '(ls, idx) := shouldResync_loop now (S i) ls in
      if listener_shouldResync l now then (determineNextResync l now :: ls, i :: idx) else (l :: ls, idx)
  end.

Definition shouldResync (p : sharedProcessor) (now : Z) : sharedProcessor * bool :=
  let '(ls, idx) := shouldResync_loop now 0 (listeners p) in
  (mkProcessor ls idx, negb (length idx =? 0)%nat).

Definition determineResyncPeriod (desired check : Z) : Z :=
  if desired =? 0 then desired else if check =? 0 then 0 else if desired <? check then check else desired.

Definition resyncCheckPeriodChanged (p : sharedProcessor) (period : Z) : sharedProcessor :=
  mkProcessor ((λ l, setResyncPeriod l (determineResyncPeriod (requestedResyncPeriod l) period)) <$> listeners p)
    (syncingListeners p).

(** ** The informer *)

Record sharedIndexInformer := mkInformer {
  indexer : threadSafeMap (dobj Obj);
  processor : sharedProcessor;
  fifo : DeltaFIFO Obj;
  resyncCheckPeriod : Z;
  started : bool;
  stopped : bool;
}.

Definition NewSharedIndexInformer (period : Z) (indexers : gmap string (IndexFunc (dobj Obj))) : sharedIndexInformer :=
  mkInformer (NewIndexer indexers) (mkProcessor [] []) NewDeltaFIFOWithOptions period false false.

Definition minimumResyncPeriod : Z := 1000000000.

Fixpoint add_all (l : processorListener) (objs : list (dobj Obj)) : outcome processorListener :=
  match objs with
  | [] => Ret l
  | item :: objs => l ← listener_add l (addNotification item); add_all l objs
  end.

(** The listener sees the contents of a started informer as additions. *)
Definition AddEventHandlerWithResyncPeriod (s : sharedIndexInformer) (period now : Z) : outcome sharedIndexInformer :=
  if stopped s then Ret s
  else
    let period := if (0 <? period) && (period <? minimumResyncPeriod) then minimumResyncPeriod else period in
    let '(period, check, proc) :=
      if (0 <? period) && (period <? resyncCheckPeriod s) then
        if started s then (resyncCheckPeriod s, resyncCheckPeriod s, processor s)
        else (period, period, resyncCheckPeriodChanged (processor s) period)
      else (period, resyncCheckPeriod s, processor s) in
    let listener := newProcessListener period (determineResyncPeriod period check) now initialBufferSize in
    listener ← (if started s then add_all listener (ThreadSafeStore.List_ (indexer s)) else Ret listener);
    Ret (mkInformer (indexer s) (addListener proc listener) (fifo s) check (started s) (stopped s)).

(** The resource versions of the two objects are equal. *)
Definition same_version (a b : dobj Obj) : bool :=
  match a, b with Live x, Live y => (resourceVersion x =? resourceVersion y)%string | _, _ => false end.

(** One delta; the flag is [false] for an error. *)
Definition handle_delta (c : threadSafeMap (dobj Obj)) (p : sharedProcessor) (d : Delta Obj)
    : outcome (threadSafeMap (dobj Obj) * sharedProcessor * bool) :=
  match Type_ d with
  | Deleted =>
      '(c, ok) ← cache_Delete c (Object d);
      if negb ok then Ret (c, p, false)
      else p ← distribute p (deleteNotification (Object d)) false; Ret (c, p, true)
  | _ =>
      match cache_Get c (Object d) with
      | Some (Some old) =>
          '(c, ok) ← cache_Update c (Object d);
          if negb ok then Ret (c, p, false)
          else
            let isSync :=
              match Type_ d with
              | Sync => true
              | Replaced => same_version (Object d) old
              | _ => false
              end in
            p ← distribute p (updateNotification old (Object d)) isSync; Ret (c, p, true)
      | _ =>
          '(c, ok) ← cache_Add c (Object d);
          if negb ok then Ret (c, p, false)
          else p ← distribute p (addNotification (Object d)) false; Ret (c, p, true)
      end
  end.

Fixpoint handle_loop (c : threadSafeMap (dobj Obj)) (p : sharedProcessor) (ds : list (Delta Obj))
    : outcome (threadSafeMap (dobj Obj) * sharedProcessor * bool) :=
  match ds with
  | [] => Ret (c, p, true)
  | d :: ds =>
      match handle_delta c p d with
      | Ret (c, p, true) => handle_loop c p ds
      | r => r
      end
  end.

(** As the process function of [Pop], on the indexer and the processor. *)
Definition HandleDeltas (st : threadSafeMap (dobj Obj) * sharedProcessor) (ds : list (Delta Obj))
    : outcome ((threadSafeMap (dobj Obj) * sharedProcessor) * process_result) :=
  match handle_loop st.1 st.2 ds with
  | Ret (c, p, ok) => Ret ((c, p), if ok then ProcessOk else ProcessErr)
  | Panic => Panic
  end.

(** ** The run of the informer *)

(** Up to the call of the controller's [Run]. *)
Definition informer_Run (s : sharedIndexInformer) : sharedIndexInformer :=
  mkInformer (indexer s) (processor s) NewDeltaFIFOWithOptions (resyncCheckPeriod s) true (stopped s).

(** After the controller's [Run] returned. *)
Definition informer_stop (s : sharedIndexInformer) : sharedIndexInformer :=
  mkInformer (indexer s) (processor s) (fifo s) (resyncCheckPeriod s) (started s) true.

(** There is no controller before [Run]. *)
Definition informer_HasSynced (s : sharedIndexInformer) : bool := if started s then HasSynced (fifo s) else false.

Definition informer_AddIndexers (s : sharedIndexInformer) (ixs : gmap string (IndexFunc (dobj Obj)))
    : sharedIndexInformer * bool :=
  if started s then (s, false)
  else
    let '(c, ok) := ThreadSafeStore.AddIndexers (indexer s) ixs in
    (mkInformer c (processor s) (fifo s) (resyncCheckPeriod s) (started s) (stopped s), ok).

(** One turn of the controller's [processLoop]; the informer does not retry. *)
Definition processLoop (s : sharedIndexInformer) : outcome (sharedIndexInformer * pop_result Obj) :=
  match Pop HandleDeltas (fifo s) (indexer s, processor s) with
  | Panic => Panic
  | Ret (f, st, r) => Ret (mkInformer st.1 st.2 f (resyncCheckPeriod s) (started s) (stopped s), r)
  end.

Definition with_fifo (s : sharedIndexInformer) (f : DeltaFIFO Obj) : sharedIndexInformer :=
  mkInformer (indexer s) (processor s) f (resyncCheckPeriod s) (started s) (stopped s).

Definition with_processor (s : sharedIndexInformer) (p : sharedProcessor) : sharedIndexInformer :=
  mkInformer (indexer s) p (fifo s) (resyncCheckPeriod s) (started s) (stopped s).
End Informer.
