(* ===== verification/InformerInv.v ===== *)
(** * What informers promise to their handlers

    The notifications of a listener, replayed, give the contents of the
    indexer; the indexer follows what the reflector put into the queue. *)

From S2P Require Import Prelude ThreadSafeStore DeltaFIFO RingGrowing Informer.
#[local] Open Scope Z_scope.

Section Laws.
Context {Obj : Type} (keyFunc : Obj → option string) (resourceVersion : Obj → string).
Context (range : gmap string (list (Delta Obj)) → list string).
Implicit Types (n : notification (Obj := Obj)) (s : list (notification (Obj := Obj))) (l : processorListener (Obj := Obj)).
Implicit Types (m σ : gmap string (dobj Obj)) (p : sharedProcessor (Obj := Obj)) (c : threadSafeMap (dobj Obj)).
Implicit Types (d : Delta Obj) (ds : list (Delta Obj)) (ss : nat → list (notification (Obj := Obj))).

Local Abbreviation KeyOf := (KeyOf_obj keyFunc).
Local Abbreviation contents := ThreadSafeStore.items.
Local Abbreviation same_version := (same_version resourceVersion).

Lemma DeletionHandlingKeyFunc_KeyOf (x : dobj Obj) : DeletionHandlingKeyFunc keyFunc x = KeyOf x.
Proof. by destruct x. Qed.

(** ** One listener *)

(** All that was sent to the listener: handled, offered, buffered. *)
Definition listener_has l s : Prop :=
  ∃ pend, holds (pendingNotifications l) pend ∧ (pl_notification l = None → pend = []) ∧
    s = pl_delivered l ++ option_list (pl_notification l) ++ pend.

Lemma new_listener_has requested period now : listener_has (newProcessListener requested period now initialBufferSize) [].
Proof. exists []. split_and!; try done. apply new_holds. unfold initialBufferSize. lia. Qed.

Lemma listener_add_has l s n : listener_has l s → ∃ l', listener_add l n = Ret l' ∧ listener_has l' (s ++ [n]).
Proof.
  intros (pend & Hr & Hnone & ->). unfold listener_add. destruct (pl_notification l) as [n0|] eqn:Hn.
  - destruct (WriteOne_holds _ _ n Hr) as (r & -> & Hr'). simpl. eexists. split; [done|].
    exists (pend ++ [n]). split_and!; try done. simpl. by rewrite <- !app_assoc.
  - eexists. split; [done|]. exists []. rewrite (Hnone eq_refl) in *. split_and!; try done. simpl. by rewrite app_nil_r.
Qed.

Lemma listener_dispatch_has l s :
  listener_has l s →
  ∃ l', listener_dispatch l = Ret l' ∧ listener_has l' s ∧
    pl_delivered l' = take (S (length (pl_delivered l))) s.
Proof.
  intros (pend & Hr & Hnone & ->). unfold listener_dispatch. destruct (pl_notification l) as [n0|] eqn:Hn; simpl.
  - assert (∃ r' nx, ReadOne (pendingNotifications l) = Ret (r', nx) ∧ holds r' (tail pend) ∧
      match nx with Some x => x | None => None end = head pend) as (r' & nx & -> & Hr' & Hnx).
    { destruct pend as [|x pend]; [by rewrite (ReadOne_empty _ Hr); eauto|].
      destruct (ReadOne_holds _ _ _ Hr) as (r' & -> & Hr'). eauto. }
    eexists. split; [done|]. split.
    + exists (tail pend). cbn [pendingNotifications pl_notification pl_delivered]. rewrite Hnx. split_and!; [done| |].
      * by destruct pend.
      * rewrite <- app_assoc. simpl. by destruct pend.
    + simpl. rewrite take_app_ge by lia. replace (S (length (pl_delivered l)) - length (pl_delivered l))%nat with 1%nat by lia.
      done.
  - exists l. rewrite (Hnone eq_refl), app_nil_r. split; [done|]. split; [|by rewrite take_ge by lia].
    exists []. rewrite Hn. rewrite (Hnone eq_refl) in Hr. simpl. rewrite app_nil_r. by split_and!.
Qed.

(** ** The processor *)

(** [ss i] is all that was sent to the listener [i]. *)
Definition listeners_have (ls : list (processorListener (Obj := Obj))) (ss : nat → list (notification (Obj := Obj))) : Prop :=
  ∀ i l, ls !! i = Some l → listener_has l (ss i).

Definition processor_has p ss : Prop :=
  listeners_have (listeners p) ss ∧ NoDup (syncingListeners p) ∧
  ∀ i, i ∈ syncingListeners p → (i < length (listeners p))%nat.

(** The streams after a notification to some of the listeners. *)
Definition sent n (targets : list nat) (ss : nat → list (notification (Obj := Obj))) (i : nat) : list notification :=
  if bool_decide (i ∈ targets) then ss i ++ [n] else ss i.

Lemma distribute_loop_has n targets : ∀ ls ss,
  NoDup targets → (∀ i, i ∈ targets → (i < length ls)%nat) → listeners_have ls ss →
  ∃ ls', distribute_loop n targets ls = Ret ls' ∧ listeners_have ls' (sent n targets ss) ∧ length ls' = length ls.
Proof.
  induction targets as [|i targets IH]; intros ls ss Hnd Hlt Hls; cbn [distribute_loop]; [by exists ls|].
  apply NoDup_cons in Hnd as [Hi Hnd]. destruct (lookup_lt_is_Some_2 ls i ltac:(apply Hlt; by left)) as [l Hl]. rewrite Hl.
  destruct (listener_add_has l (ss i) n (Hls i l Hl)) as (l' & -> & Hl'). cbn [mbind outcome_bind].
  destruct (IH (<[i := l']> ls) (λ j, if bool_decide (j = i) then ss i ++ [n] else ss j) Hnd) as (ls' & He & Hls' & Hlen).
  - intros j Hj. rewrite length_insert. apply Hlt. by right.
  - intros j lj [(-> & <- & _)|[Hne Hj]]%list_lookup_insert_Some; [by rewrite bool_decide_true|].
    rewrite bool_decide_false by congruence. by apply Hls.
  - exists ls'. split; [done|]. split; [|by rewrite Hlen, length_insert]. intros j lj Hj. specialize (Hls' j lj Hj).
    revert Hls'. unfold sent. repeat case_bool_decide; subst; try done; set_solver.
Qed.

Definition targets p (sync : bool) : list nat :=
  if sync then syncingListeners p else seq 0 (length (listeners p)).

Lemma distribute_has p ss n sync :
  processor_has p ss →
  ∃ p', distribute p n sync = Ret p' ∧ processor_has p' (sent n (targets p sync) ss) ∧
    length (listeners p') = length (listeners p) ∧ syncingListeners p' = syncingListeners p.
Proof.
  intros (Hls & Hnd & Hlt). unfold distribute. fold (targets p sync).
  destruct (distribute_loop_has n (targets p sync) (listeners p) ss) as (ls' & -> & Hls' & Hlen).
  - unfold targets. destruct sync; [done|apply NoDup_seq].
  - intros i. unfold targets. destruct sync; [apply Hlt|]. intros [_ ?]%elem_of_seq. lia.
  - done.
  - eexists. split; [done|]. split; [|done]. split_and!; try done. simpl. intros i Hi. rewrite Hlen. by apply Hlt.
Qed.

(** ** Replaying a stream *)

Definition apply_notification m n : gmap string (dobj Obj) :=
  match n with
  | addNotification x | updateNotification _ x =>
      match KeyOf x with Some k => <[k := x]> m | None => m end
  | deleteNotification x => match KeyOf x with Some k => delete k m | None => m end
  end.

Definition replay s : gmap string (dobj Obj) := foldl apply_notification ∅ s.

(** Equal, or of the same resource version. *)
Definition similar (x y : dobj Obj) : Prop := x = y ∨ same_version x y = true.

(** Additions are of new keys, updates start from what is there, deletions
    are of keys that are there; only deletions may lack the object. *)
Definition stored (k : string) (x : dobj Obj) : Prop := KeyOf x = Some k ∧ is_live x = true.

Definition notification_ok m n : Prop :=
  match n with
  | addNotification x => ∃ k, stored k x ∧ m !! k = None
  | updateNotification old x => ∃ k y, stored k x ∧ stored k old ∧ m !! k = Some y ∧ similar y old
  | deleteNotification x => ∃ k, KeyOf x = Some k ∧ is_Some (m !! k)
  end.

Fixpoint stream_ok m s : Prop :=
  match s with
  | [] => True
  | n :: s => notification_ok m n ∧ stream_ok (apply_notification m n) s
  end.

Lemma stream_ok_snoc m s n :
  stream_ok m (s ++ [n]) ↔ stream_ok m s ∧ notification_ok (foldl apply_notification m s) n.
Proof. revert m. induction s as [|n0 s IH]; intros m; simpl; [tauto|]. rewrite IH. tauto. Qed.

Lemma replay_snoc s n : replay (s ++ [n]) = apply_notification (replay s) n.
Proof. unfold replay. by rewrite foldl_app. Qed.

(** The listener's state is that of the store, up to resource versions. *)
Definition agrees m σ : Prop :=
  ∀ k, match m !! k, σ !! k with
       | Some x, Some y => similar x y
       | None, None => True
       | _, _ => False
       end.

Definition listener_view s σ : Prop := stream_ok ∅ s ∧ agrees (replay s) σ.

Lemma similar_trans x y z : similar x y → similar y z → similar x z.
Proof.
  unfold similar, Informer.same_version. intros [->|H1] [->|H2]; auto. right.
  destruct x, y, z; try done. apply String.eqb_eq in H1 as ->. done.
Qed.

Lemma similar_sym x y : similar x y → similar y x.
Proof.
  unfold similar, Informer.same_version. intros [->|H]; [auto|]. right. destruct x, y; try done.
  apply String.eqb_eq in H as ->. apply String.eqb_refl.
Qed.

Lemma agrees_insert m σ k x : agrees m σ → agrees (<[k := x]> m) (<[k := x]> σ).
Proof.
  intros Ha k'. destruct (decide (k' = k)) as [->|Hne]; [rewrite !lookup_insert_eq; by left|].
  rewrite !lookup_insert_ne by done. apply Ha.
Qed.

Lemma agrees_delete m σ k : agrees m σ → agrees (delete k m) (delete k σ).
Proof.
  intros Ha k'. destruct (decide (k' = k)) as [->|Hne]; [by rewrite !lookup_delete_eq|].
  rewrite !lookup_delete_ne by done. apply Ha.
Qed.

(** A listener that does not see a resync. *)
Lemma agrees_similar m σ k x y : agrees m σ → σ !! k = Some y → similar y x → agrees m (<[k := x]> σ).
Proof.
  intros Ha Hy Hs k'. specialize (Ha k'). destruct (decide (k' = k)) as [->|Hne]; [|by rewrite lookup_insert_ne].
  rewrite lookup_insert_eq. rewrite Hy in Ha. destruct (m !! k); [by eapply similar_trans|done].
Qed.

Lemma view_add s σ k x :
  listener_view s σ → stored k x → σ !! k = None → listener_view (s ++ [addNotification x]) (<[k := x]> σ).
Proof.
  intros [Hs Ha] Hk Hn. split.
  - apply stream_ok_snoc. split; [done|]. exists k. split; [done|]. specialize (Ha k). rewrite Hn in Ha.
    unfold replay in Ha. by destruct (foldl apply_notification ∅ s !! k).
  - rewrite replay_snoc. simpl. rewrite (proj1 Hk). by apply agrees_insert.
Qed.

Lemma view_update s σ k old x :
  listener_view s σ → stored k x → stored k old → σ !! k = Some old →
  listener_view (s ++ [updateNotification old x]) (<[k := x]> σ).
Proof.
  intros [Hs Ha] Hk Hko Hold. split.
  - apply stream_ok_snoc. split; [done|]. specialize (Ha k). rewrite Hold in Ha. unfold replay in Ha.
    destruct (foldl apply_notification ∅ s !! k) as [y|] eqn:Hy; [|done]. by exists k, y.
  - rewrite replay_snoc. simpl. rewrite (proj1 Hk). by apply agrees_insert.
Qed.

Lemma view_delete s σ k x :
  listener_view s σ → KeyOf x = Some k → is_Some (σ !! k) → listener_view (s ++ [deleteNotification x]) (delete k σ).
Proof.
  intros [Hs Ha] Hk [y Hy]. split.
  - apply stream_ok_snoc. split; [done|]. exists k. split; [done|]. specialize (Ha k). rewrite Hy in Ha.
    unfold replay in Ha. by destruct (foldl apply_notification ∅ s !! k).
  - rewrite replay_snoc. simpl. rewrite Hk. by apply agrees_delete.
Qed.

(** ** [HandleDeltas] *)

(** The index functions take every object. *)
Definition total c : Prop := ∀ name f o, indexers c !! name = Some f → is_Some (f (Live o)).

Lemma total_accepted c x : total c → is_live x = true → accepted (indexers c) x.
Proof. intros Ht Hx name f Hf. destruct x; [|done]. by eapply Ht. Qed.

(** Every listener has seen the contents of the store. *)
Definition views p ss σ : Prop :=
  processor_has p ss ∧ ∀ i, (i < length (listeners p))%nat → listener_view (ss i) σ.

Lemma views_sent p ss σ σ' n sync :
  views p ss σ →
  (∀ s, listener_view s σ → listener_view (s ++ [n]) σ') →
  (sync = true → ∀ s, listener_view s σ → listener_view s σ') →
  ∃ p', distribute p n sync = Ret p' ∧ views p' (sent n (targets p sync) ss) σ' ∧
    length (listeners p') = length (listeners p) ∧ syncingListeners p' = syncingListeners p.
Proof.
  intros [Hp Hv] Hsent Hnot. destruct (distribute_has p ss n sync Hp) as (p' & He & Hp' & Hlen & Hsy).
  exists p'. split; [done|]. split; [|done]. split; [done|]. intros i Hi. rewrite Hlen in Hi. specialize (Hv i Hi).
  unfold sent. case_bool_decide as Hin; [by apply Hsent|]. destruct sync; [by apply Hnot|].
  exfalso. apply Hin. unfold targets. apply elem_of_seq. lia.
Qed.

Definition set_key σ (k : string) (o : option (dobj Obj)) : gmap string (dobj Obj) := partial_alter (λ _, o) k σ.

Lemma set_key_Some σ k x : set_key σ k (Some x) = <[k := x]> σ.
Proof. done. Qed.

Lemma set_key_None σ k : set_key σ k None = delete k σ.
Proof. done. Qed.

Lemma set_key_twice σ k o o' : set_key (set_key σ k o) k o' = set_key σ k o'.
Proof.
  unfold set_key. apply map_eq. intros k'. destruct (decide (k = k')) as [->|];
    [by rewrite !lookup_partial_alter_eq|by rewrite !lookup_partial_alter_ne].
Qed.

Lemma set_key_same σ k : set_key σ k (σ !! k) = σ.
Proof.
  unfold set_key. apply map_eq. intros k'. destruct (decide (k = k')) as [->|];
    [by rewrite !lookup_partial_alter_eq|by rewrite !lookup_partial_alter_ne].
Qed.

Lemma set_key_lookup σ k o : set_key σ k o !! k = o.
Proof. apply lookup_partial_alter_eq. Qed.

Lemma cache_put_ok c x k :
  store_inv c → total c → KeyOf x = Some k → is_live x = true →
  ∃ c', cache_Add keyFunc c x = Ret (c', true) ∧ cache_Update keyFunc c x = Ret (c', true) ∧ store_inv c' ∧
    indexers c' = indexers c ∧ contents c' = <[k := x]> (contents c).
Proof.
  intros Hc Ht Hk Hx. unfold cache_Add, cache_Update. rewrite DeletionHandlingKeyFunc_KeyOf, Hk.
  destruct (store_Add_spec c k x Hc) as [Hadd _]. destruct (Hadd (total_accepted c x Ht Hx)) as (c' & He & Hc' & Hi & Hix).
  exists c'. unfold ThreadSafeStore.Update. unfold ThreadSafeStore.Add in *. rewrite He. by split_and!.
Qed.

(** What one delta does, with the notification it sends. *)
Definition handled c p ss d (k : string) : Prop :=
  ∃ c' p' ss', handle_delta keyFunc resourceVersion c p d = Ret (c', p', true) ∧ store_inv c' ∧
    indexers c' = indexers c ∧ contents c' = set_key (contents c) k (apply_delta (contents c !! k) d) ∧
    views p' ss' (contents c') ∧ length (listeners p') = length (listeners p) ∧
    syncingListeners p' = syncingListeners p.

Lemma handle_deleted c p ss d k :
  store_inv c → views p ss (contents c) → KeyOf (Object d) = Some k → is_Some (contents c !! k) →
  Type_ d = Deleted → handled c p ss d k.
Proof.
  intros Hc Hv Hk Hs Hd. unfold handled, handle_delta, cache_Delete.
  rewrite Hd, DeletionHandlingKeyFunc_KeyOf, Hk.
  destruct (store_Delete_spec c k Hc) as (c' & -> & Hc' & Hi & Hx). cbn [mbind outcome_bind negb].
  destruct (views_sent p ss (contents c) (contents c') (deleteNotification (Object d)) false Hv)
    as (p' & -> & Hv' & Hlen); [|done|].
  { intros s Hs'. rewrite Hi. by apply view_delete. }
  eexists c', p', _. split; [done|]. split_and!; try done; [|apply Hlen..].
  rewrite Hi. unfold apply_delta. by rewrite decide_True.
Qed.

Lemma handle_new c p ss d k :
  store_inv c → total c → views p ss (contents c) → delta_keyed keyFunc k d → contents c !! k = None →
  Type_ d ≠ Deleted → handled c p ss d k.
Proof.
  intros Hc Ht Hv [Hk [?|Hl]] Hn Hd; [done|]. destruct (cache_put_ok c (Object d) k Hc Ht Hk Hl) as (c' & Ha & _ & Hc' & Hx & Hi).
  destruct (views_sent p ss (contents c) (contents c') (addNotification (Object d)) false Hv)
    as (p' & He & Hv' & Hlen); [|done|].
  { intros s Hs'. rewrite Hi. by apply view_add. }
  eexists c', p', _. split_and!; try done; [| |apply Hlen..].
  - unfold handle_delta, cache_Get, cache_GetByKey, ThreadSafeStore.Get. rewrite DeletionHandlingKeyFunc_KeyOf, Hk.
    cbn [mbind option_bind]. rewrite Hn. destruct (Type_ d); try done; rewrite Ha; cbn [mbind outcome_bind negb]; by rewrite He.
  - rewrite Hi. unfold apply_delta. by rewrite decide_False.
Qed.

Lemma handle_existing c p ss d k old :
  store_inv c → total c → views p ss (contents c) → delta_keyed keyFunc k d → contents c !! k = Some old →
  stored k old → Type_ d ≠ Deleted → (Type_ d = Sync → old = Object d) → handled c p ss d k.
Proof.
  intros Hc Ht Hv [Hk [?|Hl]] Ho Hko Hd Hs; [done|]. destruct (cache_put_ok c (Object d) k Hc Ht Hk Hl) as (c' & _ & Hu & Hc' & Hx & Hi).
  set (isSync := match Type_ d with Sync => true | Replaced => same_version (Object d) old | _ => false end).
  destruct (views_sent p ss (contents c) (contents c') (updateNotification old (Object d)) isSync Hv)
    as (p' & He & Hv' & Hlen).
  { intros s Hs'. rewrite Hi. by apply view_update. }
  { intros Hsync s [Hs1 Hs2]. rewrite Hi. split; [done|]. eapply agrees_similar; [done|done|]. apply similar_sym.
    unfold isSync in Hsync. destruct (Type_ d); try done; [by right|]. left. symmetry. by apply Hs. }
  eexists c', p', _. split_and!; try done; [| |apply Hlen..].
  - unfold handle_delta, cache_Get, cache_GetByKey, ThreadSafeStore.Get. rewrite DeletionHandlingKeyFunc_KeyOf, Hk.
    cbn [mbind option_bind]. rewrite Ho. revert He. unfold isSync.
    destruct (Type_ d); try done; intros He; rewrite Hu; cbn [mbind outcome_bind negb]; by rewrite He.
  - rewrite Hi. unfold apply_delta. by rewrite decide_False.
Qed.

Lemma handle_delta_ok c p ss d k :
  store_inv c → total c → views p ss (contents c) → delta_keyed keyFunc k d → delta_ok (contents c !! k) d →
  (∀ old, contents c !! k = Some old → stored k old) → handled c p ss d k.
Proof.
  intros Hc Ht Hv Hk [Hdel Hsync] Hst. destruct (decide (Type_ d = Deleted)) as [Hd|Hd]; [destruct Hk; by apply handle_deleted; auto|].
  destruct (contents c !! k) as [old|] eqn:Ho; [|by apply handle_new].
  eapply handle_existing; try done; [by apply Hst|]. intros Hs. apply Hsync in Hs. by simplify_eq.
Qed.

Lemma handle_loop_ok k ds : ∀ c p ss,
  store_inv c → total c → views p ss (contents c) → Forall (delta_keyed keyFunc k) ds →
  deltas_ok (contents c !! k) ds → (∀ old, contents c !! k = Some old → stored k old) →
  ∃ c' p' ss', handle_loop keyFunc resourceVersion c p ds = Ret (c', p', true) ∧ store_inv c' ∧
    indexers c' = indexers c ∧ contents c' = set_key (contents c) k (apply_all ds (contents c !! k)) ∧
    views p' ss' (contents c') ∧ length (listeners p') = length (listeners p) ∧
    syncingListeners p' = syncingListeners p.
Proof.
  induction ds as [|d ds IH]; intros c p ss Hc Ht Hv Hk Hok Hst; cbn [handle_loop].
  { exists c, p, ss. simpl. by rewrite set_key_same. }
  apply Forall_cons in Hk as [Hkd Hk]. destruct Hok as [Hd Hok].
  destruct (handle_delta_ok c p ss d k Hc Ht Hv Hkd Hd Hst) as (c1 & p1 & ss1 & -> & Hc1 & Hx1 & Hi1 & Hv1 & Hl1 & Hs1).
  assert (total c1) as Ht1 by (unfold total; by rewrite Hx1).
  destruct (IH c1 p1 ss1 Hc1 Ht1 Hv1 Hk) as (c2 & p2 & ss2 & He & Hc2 & Hx2 & Hi2 & Hv2 & Hl2 & Hs2).
  { by rewrite Hi1, set_key_lookup. }
  { intros old. rewrite Hi1, set_key_lookup. unfold apply_delta. case_decide; [done|]. intros [= <-].
    destruct Hkd as [? [?|?]]; done. }
  exists c2, p2, ss2. split_and!; try done; [congruence| |congruence..].
  rewrite Hi2, Hi1, set_key_lookup, set_key_twice. done.
Qed.

Lemma HandleDeltas_ok k ds c p ss :
  store_inv c → total c → views p ss (contents c) → Forall (delta_keyed keyFunc k) ds → deltas_ok (contents c !! k) ds →
  (∀ old, contents c !! k = Some old → stored k old) →
  ∃ c' p' ss', HandleDeltas keyFunc resourceVersion (c, p) ds = Ret ((c', p'), ProcessOk) ∧ store_inv c' ∧
    indexers c' = indexers c ∧ contents c' = set_key (contents c) k (apply_all ds (contents c !! k)) ∧
    views p' ss' (contents c').
Proof.
  intros Hc Ht Hv Hk Hok Hst.
  destruct (handle_loop_ok k ds c p ss Hc Ht Hv Hk Hok Hst) as (c' & p' & ss' & He & Hc' & Hx & Hi & Hv' & _).
  exists c', p', ss'. unfold HandleDeltas. cbn [fst snd]. rewrite He. by split_and!.
Qed.

(** ** New listeners *)

Lemma view_all σ : store_keyed keyFunc σ → listener_view (addNotification <$> (map_to_list σ).*2) σ.
Proof.
  intros Hk. rewrite <- (list_to_map_to_list σ) at 2. pose proof (NoDup_fst_map_to_list σ) as Hnd.
  assert (∀ k x, (k, x) ∈ map_to_list σ → stored k x) as Hl.
  { intros k x Hin%elem_of_map_to_list. by apply (Hk k x). }
  revert Hnd Hl. generalize (map_to_list σ). intros l. induction l as [|[k x] l IH] using rev_ind; intros Hnd Hl.
  { split; [done|]. intros k. unfold replay. simpl. by rewrite !lookup_empty. }
  rewrite !fmap_app in *. simpl. apply NoDup_app in Hnd as (Hnd & Hdis & _).
  assert (k ∉ l.*1) as Hnk by (intros Hin; apply (Hdis k Hin); simpl; by left).
  rewrite list_to_map_snoc by done. apply view_add; [apply IH; [done|]|apply Hl|by apply not_elem_of_list_to_map_1].
  - intros k' x' Hin. apply Hl. apply elem_of_app. by left.
  - apply elem_of_app. right. by left.
Qed.

Lemma add_all_has objs : ∀ l s,
  listener_has l s → ∃ l', add_all l objs = Ret l' ∧ listener_has l' (s ++ (addNotification <$> objs)).
Proof.
  induction objs as [|x objs IH]; intros l s Hl; cbn [add_all]; [by exists l; rewrite app_nil_r|].
  destruct (listener_add_has l s (addNotification x) Hl) as (l1 & -> & H1). cbn [mbind outcome_bind].
  destruct (IH l1 _ H1) as (l' & He & Hl'). exists l'. split; [done|]. by rewrite <- app_assoc in Hl'.
Qed.

Lemma views_addListener p ss σ l s :
  views p ss σ → listener_has l s → listener_view s σ →
  ∃ ss', views (addListener p l) ss' σ.
Proof.
  intros [(Hls & Hnd & Hlt) Hv] Hl Hs.
  exists (λ i, if bool_decide (i = length (listeners p)) then s else ss i). split; [split; [|split]|]; simpl.
  - intros i li Hi. apply lookup_app_Some in Hi as [Hi|[Hge Hi]].
    + pose proof (lookup_lt_Some _ _ _ Hi). rewrite bool_decide_false by lia. by apply Hls.
    + apply list_lookup_singleton_Some in Hi as [Hi <-]. by rewrite bool_decide_true by lia.
  - apply NoDup_app. split_and!; [done| |apply NoDup_singleton]. intros i Hi ->%list_elem_of_singleton.
    apply Hlt in Hi. lia.
  - intros i [Hi| ->%list_elem_of_singleton]%elem_of_app; rewrite length_app; simpl; [apply Hlt in Hi|]; lia.
  - intros i Hi. rewrite length_app in Hi. simpl in Hi. case_bool_decide; [done|]. apply Hv. lia.
Qed.

(** What the listeners have does not depend on their resync times. *)
Definition same_stream l l' : Prop :=
  pl_notification l' = pl_notification l ∧ pendingNotifications l' = pendingNotifications l ∧
  pl_delivered l' = pl_delivered l.

Lemma listener_has_same l l' s : same_stream l l' → listener_has l s → listener_has l' s.
Proof. intros (H1 & H2 & H3) (pend & H). exists pend. by rewrite H1, H2, H3. Qed.

Lemma views_same p ss σ ls idx :
  views p ss σ → Forall2 same_stream (listeners p) ls → NoDup idx → (∀ i, i ∈ idx → (i < length ls)%nat) →
  views (mkProcessor ls idx) ss σ.
Proof.
  intros [(Hls & _ & _) Hv] Hf Hnd Hlt. split; [split; [|done]|]; simpl.
  - intros i l' Hl'. destruct (Forall2_lookup_r _ _ _ i l' Hf Hl') as (l & Hl & Hs).
    eapply listener_has_same; [done|]. by apply Hls.
  - intros i Hi. apply Hv. by rewrite (Forall2_length _ _ _ Hf).
Qed.

Lemma shouldResync_loop_same now ls : ∀ i,
  let '(ls', idx) := shouldResync_loop now i ls in
  Forall2 same_stream ls ls' ∧ NoDup idx ∧ ∀ j, j ∈ idx → (i ≤ j < i + length ls)%nat.
Proof.
  induction ls as [|l ls IH]; intros i; cbn [shouldResync_loop].
  { split_and!; [constructor|constructor|]. by intros j ?%not_elem_of_nil. }
  specialize (IH (S i)). destruct (shouldResync_loop now (S i) ls) as [ls' idx]. destruct IH as (Hf & Hnd & Hj).
  assert (same_stream l l) by done. destruct (listener_shouldResync l now); (split; [by constructor|split]).
  - constructor; [|done]. intros Hi%Hj. lia.
  - intros j [->|Hi%Hj]%elem_of_cons; simpl; lia.
  - done.
  - intros j Hi%Hj. simpl. lia.
Qed.

Lemma views_shouldResync p ss σ now : views p ss σ → views (shouldResync p now).1 ss σ.
Proof.
  intros Hv. unfold shouldResync. pose proof (shouldResync_loop_same now (listeners p) 0) as H.
  destruct (shouldResync_loop now 0 (listeners p)) as [ls idx]. destruct H as (Hf & Hnd & Hj). simpl.
  eapply views_same; [done..|]. intros i Hi%Hj. rewrite <- (Forall2_length _ _ _ Hf). lia.
Qed.

Lemma views_resyncCheckPeriodChanged p ss σ period : views p ss σ → views (resyncCheckPeriodChanged p period) ss σ.
Proof.
  intros Hv. pose proof Hv as [(_ & Hnd & Hlt) _]. eapply views_same; [done| |done|].
  - apply Forall2_fmap_r, Forall_Forall2_diag, Forall_forall. by intros l _.
  - intros i Hi. rewrite length_fmap. by apply Hlt.
Qed.

Lemma views_dispatch p ss σ i l l' :
  views p ss σ → listeners p !! i = Some l → listener_dispatch l = Ret l' →
  views (mkProcessor (<[i := l']> (listeners p)) (syncingListeners p)) ss σ.
Proof.
  intros [(Hls & Hnd & Hlt) Hv] Hl Hd. destruct (listener_dispatch_has l (ss i) (Hls i l Hl)) as (l1 & He & Hl1 & _).
  assert (l1 = l') as -> by congruence. split; [split; [|split]|]; simpl.
  - intros j lj [(-> & <- & _)|[Hne Hj]]%list_lookup_insert_Some; [done|by apply Hls].
  - done.
  - intros j. rewrite length_insert. apply Hlt.
  - intros j. rewrite length_insert. apply Hv.
Qed.
End Laws.
