(* ===== verification/InformerEvents.v ===== *)
(** * Histories of an informer

    The goroutines of a shared informer take turns: the reflector puts changes
    and lists into the queue, [processLoop] pops them, each listener hands its
    notifications to its handler, handlers and indexers are added, the informer
    is started and stopped.  A history keeps beside the informer what the
    reflector said last of every key. *)

From S2P Require Import Prelude ThreadSafeStore DeltaFIFO RingGrowing Informer InformerInv.
#[local] Open Scope Z_scope.

Section Events.
Context {Obj : Type} (keyFunc : Obj → option string) (resourceVersion : Obj → string).
Context (range : gmap string (list (Delta Obj)) → list string).

Local Abbreviation informer := (sharedIndexInformer (Obj := Obj)).
Local Abbreviation contents := ThreadSafeStore.items.

Inductive event :=
| EAdd (o : Obj)
| EUpdate (o : Obj)
| EDelete (o : Obj)
| EReplace (l : list Obj)
| EShouldResync (now : Z)
| EResync
| EPop
| EResume
| EDispatch (i : nat)
| EAddHandler (period now : Z)
| EAddIndexers (ixs : gmap string (IndexFunc (dobj Obj)))
| ERun
| EClose
| EStopped.

(** The step of the code; the last component of its operations' results is an
    error that is only logged. *)
Definition exec (s : informer) (e : event) : outcome informer :=
  let kl := Some (known (indexer s)) in
  match e with
  | EAdd o => Ret (with_fifo s (DeltaFIFO.Add keyFunc (fifo s) (Live o)).1)
  | EUpdate o => Ret (with_fifo s (DeltaFIFO.Update keyFunc (fifo s) (Live o)).1)
  | EDelete o => Ret (with_fifo s (DeltaFIFO.Delete keyFunc kl (fifo s) (Live o)).1)
  | EReplace l => Ret (with_fifo s (DeltaFIFO.Replace keyFunc range true kl (fifo s) (Live <$> l)).1)
  | EShouldResync now => Ret (with_processor s (shouldResync (processor s) now).1)
  | EResync => Ret (with_fifo s (DeltaFIFO.Resync keyFunc kl (fifo s)).1)
  | EPop => '(s, _) ← processLoop keyFunc resourceVersion s; Ret s
  | EResume => Ret (with_fifo s (DeltaFIFO.Resume (fifo s)))
  | EDispatch i =>
      match listeners (processor s) !! i with
      | None => Ret s
      | Some l =>
          l ← listener_dispatch l;
          Ret (with_processor s (mkProcessor (<[i := l]> (listeners (processor s))) (syncingListeners (processor s))))
      end
  | EAddHandler period now => AddEventHandlerWithResyncPeriod s period now
  | EAddIndexers ixs => Ret (informer_AddIndexers s ixs).1
  | ERun => Ret (informer_Run s)
  | EClose => Ret (with_fifo s (DeltaFIFO.Close (fifo s)))
  | EStopped => Ret (informer_stop s)
  end.

(** The reflector and [processLoop] belong to a started informer, which is
    started once; the objects that are listed have keys, and the index
    functions take every object. *)
Definition keyed (l : list Obj) : Prop := Forall (λ o, is_Some (keyFunc o)) l.
Definition takes_all (ixs : gmap string (IndexFunc (dobj Obj))) : Prop :=
  ∀ name f o, ixs !! name = Some f → is_Some (f (Live o)).

Definition allowed (s : informer) (e : event) : Prop :=
  match e with
  | EReplace l => started s = true ∧ keyed l
  | EAdd _ | EUpdate _ | EDelete _ | EResync | EPop | EResume | EClose => started s = true
  | EAddIndexers ixs => takes_all ixs
  | ERun => started s = false
  | EShouldResync _ | EDispatch _ | EAddHandler _ _ | EStopped => True
  end.

(** ** What a history remembers *)

(** [truth]: the objects, as the reflector knows them.  [ghosts]: keys the
    last list did not name, with changes in the queue but no object in the
    store.  [popped]: the keys popped, [listed]: the keys of the first list, if
    anything was put into the queue. *)
Record history := mkHistory {
  h_inf : informer;
  h_truth : gmap string (dobj Obj);
  h_ghosts : gset string;
  h_popped : list string;
  h_listed : option (gset string);
}.

Definition set_object (m : gmap string (dobj Obj)) (o : Obj) : gmap string (dobj Obj) :=
  match keyFunc o with Some k => <[k := Live o]> m | None => m end.

Definition drop_object (m : gmap string (dobj Obj)) (o : Obj) : gmap string (dobj Obj) :=
  match keyFunc o with Some k => delete k m | None => m end.

Definition listed_map (l : list Obj) : gmap string (dobj Obj) := foldl set_object ∅ l.

Definition truth_after (m : gmap string (dobj Obj)) (e : event) : gmap string (dobj Obj) :=
  match e with
  | EAdd o | EUpdate o => set_object m o
  | EDelete o => drop_object m o
  | EReplace l => listed_map l
  | _ => m
  end.

Definition key_set (o : Obj) : gset string := match keyFunc o with Some k => {[k]} | None => ∅ end.

(** In the queue only, with an object. *)
Definition unknown (s : informer) (k : string) : bool :=
  bool_decide (contents (indexer s) !! k = None) &&
  bool_decide (is_Some (pending_view (fifo s) (contents (indexer s)) k)).

Definition ghosts_after (s : informer) (g : gset string) (e : event) : gset string :=
  match e with
  | EAdd o | EUpdate o | EDelete o => g ∖ key_set o
  | EReplace l =>
      list_to_set (filter (λ k, unknown s k = true ∧ listed_map l !! k = None) (queue (fifo s)))
  | _ => g
  end.

Definition popped_after (s : informer) (p : list string) (e : event) : list string :=
  match e with EPop => p ++ option_list (head (queue (fifo s))) | _ => p end.

(** An error of the key function ends [Delete] before it marks the queue as populated. *)
Definition listed_after (o : option (gset string)) (e : event) : option (gset string) :=
  match e with
  | EReplace l => Some (default (dom (listed_map l)) o)
  | EAdd _ | EUpdate _ => Some (default ∅ o)
  | EDelete x => match keyFunc x with Some _ => Some (default ∅ o) | None => o end
  | _ => o
  end.

Definition h_exec (h : history) (e : event) : outcome history :=
  let s := h_inf h in
  s' ← exec s e;
  Ret (mkHistory s' (truth_after (h_truth h) e) (ghosts_after s (h_ghosts h) e) (popped_after s (h_popped h) e)
         (listed_after (h_listed h) e)).

Definition h_step (h : history) (e : event) (h' : history) : Prop :=
  allowed (h_inf h) e ∧ h_exec h e = Ret h'.

Definition new_history (period : Z) (ixs : gmap string (IndexFunc (dobj Obj))) : history :=
  mkHistory (NewSharedIndexInformer period ixs) ∅ ∅ [] None.
End Events.

(** ** The invariant *)

Section Laws.
Context {Obj : Type} (keyFunc : Obj → option string) (resourceVersion : Obj → string).
Context (range : gmap string (list (Delta Obj)) → list string).
Implicit Types (f : DeltaFIFO Obj) (h : history (Obj := Obj)) (s : sharedIndexInformer (Obj := Obj)) (l : list Obj).
Implicit Types (σ : gmap string (dobj Obj)).

Local Abbreviation contents := ThreadSafeStore.items.
Local Abbreviation pipe_inv := (pipe_inv keyFunc).
Local Abbreviation listed_map := (listed_map keyFunc).
Local Abbreviation views := (views keyFunc resourceVersion).

Lemma known_indexer (c : threadSafeMap (dobj Obj)) : known_ok (contents c) (known c).
Proof.
  split; [apply NoDup_fst_map_to_list| |done]. intros k. simpl. unfold cache_ListKeys, ThreadSafeStore.ListKeys.
  rewrite list_elem_of_fmap. split.
  - intros ([k' x] & -> & Hin%elem_of_map_to_list). by exists x.
  - intros [x Hx]. exists (k, x). split; [done|]. by apply elem_of_map_to_list.
Qed.

Lemma listed_map_snoc l o : listed_map (l ++ [o]) = set_object keyFunc (listed_map l) o.
Proof. unfold InformerEvents.listed_map. by rewrite foldl_app. Qed.

Lemma list_view_map l o k :
  list_view keyFunc (Live <$> l) o k = match listed_map l !! k with Some x => Some x | None => o end.
Proof.
  induction l as [|x l IH] using rev_ind; [done|]. unfold list_view in *. rewrite fmap_app, foldl_app, listed_map_snoc, IH.
  simpl. unfold set_object. destruct (keyFunc x) as [k'|]; [|by rewrite decide_False].
  destruct (decide (k' = k)) as [->|]; [by rewrite decide_True, lookup_insert_eq|].
  by rewrite decide_False, lookup_insert_ne by congruence.
Qed.

Lemma list_keys_map l k : k ∈ list_keys keyFunc (Live <$> l) ↔ is_Some (listed_map l !! k).
Proof.
  unfold list_keys. rewrite elem_of_list_to_set, list_elem_of_omap. setoid_rewrite list_elem_of_fmap.
  induction l as [|x l IH] using rev_ind; [unfold InformerEvents.listed_map; simpl; rewrite lookup_empty|].
  { split; [intros (? & (? & _ & []%not_elem_of_nil) & _)|by intros [? ?]]. }
  rewrite listed_map_snoc. unfold set_object. setoid_rewrite elem_of_app. setoid_rewrite list_elem_of_singleton.
  transitivity (is_Some (listed_map l !! k) ∨ keyFunc x = Some k).
  - rewrite <- IH. split.
    + intros (y & (z & -> & [Hz| ->]) & Hk); [left; eauto|by right].
    + intros [(y & (z & -> & Hz) & Hk)|Hk]; eauto 10.
  - destruct (keyFunc x) as [k'|]; [rewrite lookup_insert_is_Some'|]; naive_solver.
Qed.

Lemma keyed_live l : keyed keyFunc l → keyed_list keyFunc (Live <$> l).
Proof. intros Hl x (o & -> & Ho)%list_elem_of_fmap. split; [|done]. by eapply Forall_forall in Hl. Qed.

(** The keys of the first list are first in the queue, and counted. *)
Definition synced f (pops : list string) (listed : option (gset string)) : Prop :=
  match listed with
  | None => populated f = false ∧ pops = []
  | Some L =>
      populated f = true ∧
      ∃ ks, NoDup ks ∧ (∀ k, k ∈ ks ↔ k ∈ L) ∧ ks `prefix_of` pops ++ queue f ∧
        initialPopulationCount f = Z.of_nat (length ks - length pops)
  end.

Record inf_inv h : Prop := {
  hi_store : store_inv (indexer (h_inf h));
  hi_total : total (indexer (h_inf h));
  hi_pipe : pipe_inv (fifo (h_inf h)) (contents (indexer (h_inf h)));
  hi_views : ∃ ss, views (processor (h_inf h)) ss (contents (indexer (h_inf h)));
  hi_truth k : k ∉ h_ghosts h → pending_view (fifo (h_inf h)) (contents (indexer (h_inf h))) k = h_truth h !! k;
  hi_synced : synced (fifo (h_inf h)) (h_popped h) (h_listed h);
  hi_empty : h_listed h = None → contents (indexer (h_inf h)) = ∅;
  hi_started : started (h_inf h) = false → h_listed h = None;
}.

Lemma synced_keep f f' pops listed :
  synced f pops listed → queue f `prefix_of` queue f' → populated f' = populated f →
  initialPopulationCount f' = initialPopulationCount f → synced f' pops listed.
Proof.
  unfold synced. intros Hs Hq Hp Hi. destruct listed as [L|]; [|by rewrite Hp]. destruct Hs as (Hp' & ks & Hnd & Hk & Hpre & Hn).
  rewrite Hp, Hi. split; [done|]. exists ks. split_and!; try done; [by apply Hk..|].
  etrans; [done|]. by apply prefix_app.
Qed.

Lemma synced_put f f' σ pops listed :
  pipe_inv f σ → synced f pops listed → queue f `prefix_of` queue f' → populated f' = true →
  initialPopulationCount f' = initialPopulationCount f → synced f' pops (Some (default ∅ listed)).
Proof.
  intros [[_ Hi _] Hq _] Hs Hpre Hp Hipc. destruct listed as [L|]; simpl.
  - eapply (synced_keep _ _ _ (Some L)); try done. destruct Hs as [-> _]. done.
  - destruct Hs as [Hpf ->]. rewrite (Hq Hpf) in Hi. simpl in Hi. split; [done|]. exists []. split_and!; simpl.
    + constructor.
    + intros k. split; [by intros ?%not_elem_of_nil|set_solver].
    + apply prefix_nil.
    + lia.
Qed.

Lemma synced_pop f id q pops listed :
  synced f pops listed → queue f = id :: q → (populated f = false → queue f = []) →
  synced (popped f id q) (pops ++ [id]) listed.
Proof.
  intros Hs Hq Hp. destruct listed as [L|]; [|destruct Hs as [Hpf _]; by rewrite Hp in Hq].
  destruct Hs as (Hpt & ks & Hnd & Hk & Hpre & Hn). split; [done|]. exists ks. split; [done|]. split; [done|]. simpl.
  rewrite Hq in Hpre. rewrite <- app_assoc. split; [done|]. rewrite length_app. simpl.
  destruct (Z.ltb_spec 0 (initialPopulationCount f)); lia.
Qed.

Lemma synced_iff f pops L :
  synced f pops (Some L) → HasSynced f = true ↔ ∀ k, k ∈ L → k ∈ pops.
Proof.
  intros (Hpop & ks & Hnd & Hk & [q Hpre] & Hn). unfold HasSynced. rewrite Hpop, Hn. simpl. rewrite Z.eqb_eq.
  setoid_rewrite <- Hk. symmetry in Hpre. apply app_eq_inv in Hpre as [(r & -> & _)|(r & -> & _)].
  - rewrite length_app. apply NoDup_app in Hnd as (_ & Hdis & _). destruct r as [|x r]; simpl.
    + split; [intros _ k; by rewrite app_nil_r|lia].
    + split; [lia|]. intros Hin. destruct (Hdis x); [|by left]. apply Hin, elem_of_app. right. by left.
  - rewrite length_app. split; [|lia]. intros _ k Hin. apply elem_of_app. by left.
Qed.

Lemma new_history_inv period ixs : takes_all ixs → inf_inv (new_history period ixs).
Proof.
  intros Hix. split; simpl.
  - apply new_store_inv.
  - done.
  - split; [split; [split|..]|..]; simpl; try done; try lia.
    + apply NoDup_nil_2.
    + intros k. split; [by intros ?%not_elem_of_nil|]. by rewrite lookup_empty; intros [? ?].
  - exists (λ _, []). split; [split; [by intros i l ?|split; [constructor|by intros i ?%not_elem_of_nil]]|simpl; lia].
  - intros k _. unfold pending_view. simpl. by rewrite !lookup_empty.
  - done.
  - done.
  - done.
Qed.

(** ** The steps keep the invariant *)

Lemma fifo_event h f' T g listed :
  inf_inv h → started (h_inf h) = true → pipe_inv f' (contents (indexer (h_inf h))) →
  (∀ k, k ∉ g → pending_view f' (contents (indexer (h_inf h))) k = T !! k) →
  synced f' (h_popped h) listed → (listed = None → h_listed h = None) →
  inf_inv (mkHistory (with_fifo (h_inf h) f') T g (h_popped h) listed).
Proof. intros [] Hst Hp Ht Hs Hl. split; simpl; auto. congruence. Qed.

Lemma synced_event h f' :
  inf_inv h → queue (fifo (h_inf h)) `prefix_of` queue f' → populated f' = true →
  initialPopulationCount f' = initialPopulationCount (fifo (h_inf h)) →
  synced f' (h_popped h) (Some (default ∅ (h_listed h))).
Proof. intros Hh. apply (synced_put (fifo (h_inf h)) f' _ _ _ (hi_pipe _ Hh) (hi_synced _ Hh)). Qed.

Lemma set_populated_inv f σ : pipe_inv f σ → pipe_inv (set_populated f) σ.
Proof. intros [Hc _ Hk]. split; [by apply set_populated_pipe|done|done]. Qed.

Lemma put_event h t (o : Obj) :
  t ≠ Deleted → t ≠ Sync → inf_inv h → started (h_inf h) = true →
  inf_inv (mkHistory
    (with_fifo (h_inf h) (queueActionLocked keyFunc (set_populated (fifo (h_inf h))) t (Live o)).1)
    (set_object keyFunc (h_truth h) o) (h_ghosts h ∖ key_set keyFunc o) (h_popped h) (Some (default ∅ (h_listed h)))).
Proof.
  intros Ht Hts Hh Hst. unfold set_object, key_set. destruct (keyFunc o) as [id|] eqn:Hid.
  - destruct (put_pipe keyFunc (fifo (h_inf h)) _ t (Live o) id (hi_pipe _ Hh) Ht Hts Hid eq_refl)
      as (f' & -> & Hp & P1 & P2 & P3 & P4 & V).
    apply fifo_event; try done; [|by apply synced_event].
    intros k Hk. rewrite V. case_decide as Hki; [subst; by rewrite lookup_insert_eq|].
    rewrite lookup_insert_ne by done. apply (hi_truth _ Hh). set_solver.
  - unfold queueActionLocked. simpl KeyOf_obj. rewrite Hid. apply fifo_event; try done.
    + apply set_populated_inv, Hh.
    + intros k Hk. apply (hi_truth _ Hh). set_solver.
    + by apply synced_event.
Qed.

Lemma delete_event h (o : Obj) :
  inf_inv h → started (h_inf h) = true →
  inf_inv (mkHistory
    (with_fifo (h_inf h) (DeltaFIFO.Delete keyFunc (Some (known (indexer (h_inf h)))) (fifo (h_inf h)) (Live o)).1)
    (drop_object keyFunc (h_truth h) o) (h_ghosts h ∖ key_set keyFunc o) (h_popped h)
    (listed_after keyFunc (h_listed h) (EDelete o))).
Proof.
  intros Hh Hst. unfold drop_object, key_set, listed_after. destruct (keyFunc o) as [id|] eqn:Hid.
  - destruct (Delete_pipe keyFunc (fifo (h_inf h)) _ (known (indexer (h_inf h))) (Live o) id (hi_pipe _ Hh) (known_indexer _) Hid)
      as (f' & -> & Hp & P1 & P2 & P3 & P4 & V).
    apply fifo_event; try done; [|by apply synced_event].
    intros k Hk. rewrite V. case_decide as Hki; [subst; by rewrite lookup_delete_eq|].
    rewrite lookup_delete_ne by done. apply (hi_truth _ Hh). set_solver.
  - unfold DeltaFIFO.Delete. simpl KeyOf_obj. rewrite Hid.
    apply fifo_event; try done; try apply Hh. intros k Hk. apply (hi_truth _ Hh). set_solver.
Qed.

Lemma replace_truth s f' l k :
  pipe_inv (fifo s) (contents (indexer s)) →
  pending_view f' (contents (indexer s)) k =
    (if decide (is_Some (contents (indexer s) !! k) ∧ k ∉ list_keys keyFunc (Live <$> l)) then None
     else list_view keyFunc (Live <$> l) (pending_view (fifo s) (contents (indexer s)) k) k) →
  k ∉ ghosts_after keyFunc s ∅ (EReplace l) → pending_view f' (contents (indexer s)) k = listed_map l !! k.
Proof.
  intros Hp -> Hk. rewrite list_view_map. pose proof (list_keys_map l k) as Hkeys.
  destruct (listed_map l !! k) as [x|] eqn:Hx.
  { rewrite decide_False; [done|]. intros [_ Hn]. by apply Hn, Hkeys. }
  case_decide as Hd; [done|]. apply eq_None_not_Some. intros Hs. apply Hk. simpl.
  rewrite elem_of_list_to_set, list_elem_of_filter. assert (contents (indexer s) !! k = None) as Hn.
  { apply eq_None_not_Some. intros Hsome. apply Hd. split; [done|]. by intros [? ?]%Hkeys. }
  split; [split; [|done]|].
  - unfold unknown. by rewrite !bool_decide_true.
  - apply (fi_queue _ _ (pc_core _ _ _ (pi_core _ _ _ Hp))). apply not_eq_None_Some. intros Hi.
    unfold pending_view in Hs. rewrite Hi, Hn in Hs. by destruct Hs.
Qed.

Lemma replace_event h l :
  inf_inv h → started (h_inf h) = true → keyed keyFunc l →
  inf_inv (mkHistory
    (with_fifo (h_inf h)
       (DeltaFIFO.Replace keyFunc range true (Some (known (indexer (h_inf h)))) (fifo (h_inf h)) (Live <$> l)).1)
    (listed_map l) (ghosts_after keyFunc (h_inf h) (h_ghosts h) (EReplace l)) (h_popped h)
    (listed_after keyFunc (h_listed h) (EReplace l))).
Proof.
  intros Hh Hst Hl. destruct (Replace_pipe keyFunc range (fifo (h_inf h)) _ (known (indexer (h_inf h))) (Live <$> l)
    (hi_pipe _ Hh) (known_indexer _) (keyed_live l Hl)) as (f' & -> & Hp & P1 & P2 & P3 & P4 & K & V).
  apply fifo_event; try done.
  - intros k Hk. by apply replace_truth; try done; apply Hh.
  - pose proof (hi_synced _ Hh) as Hs. cbn [listed_after].
    destruct (h_listed h) as [L|] eqn:Hlist; cbn [default from_option id].
    + destruct Hs as [Hpop Hs]. rewrite Hpop in P2.
      apply (synced_keep (fifo (h_inf h)) f' _ (Some L)); [by split|done|congruence|done].
    + destruct Hs as [Hpop ->]. rewrite Hpop in P2. split; [done|]. exists (queue f'). simpl.
      split; [apply (fi_nodup _ _ (pc_core _ _ _ (pi_core _ _ _ Hp)))|]. split; [|split; [done|lia]].
      intros k. rewrite K, (pi_populated _ _ _ (hi_pipe _ Hh) Hpop), (hi_empty _ Hh Hlist), lookup_empty, list_keys_map.
      rewrite elem_of_dom. split; [intros [?%not_elem_of_nil|[?|[? ?]]]|]; done || auto.
Qed.

Lemma resync_event h :
  inf_inv h → started (h_inf h) = true →
  inf_inv (mkHistory
    (with_fifo (h_inf h) (DeltaFIFO.Resync keyFunc (Some (known (indexer (h_inf h)))) (fifo (h_inf h))).1)
    (h_truth h) (h_ghosts h) (h_popped h) (h_listed h)).
Proof.
  intros Hh Hst. destruct (populated (fifo (h_inf h))) eqn:Hpop.
  - destruct (Resync_pipe keyFunc (fifo (h_inf h)) _ (known (indexer (h_inf h))) (hi_pipe _ Hh) (known_indexer _) Hpop)
      as (f' & -> & Hp & P1 & P2 & P3 & P4 & V).
    apply fifo_event; try done; [intros k Hk; rewrite V; by apply Hh|].
    apply (synced_keep (fifo (h_inf h))); [apply Hh|done|simpl; congruence|done].
  - assert (h_listed h = None) as Hl.
    { pose proof (hi_synced _ Hh) as Hs. destruct (h_listed h); [|done]. destruct Hs. congruence. }
    unfold DeltaFIFO.Resync. simpl. unfold cache_ListKeys, ThreadSafeStore.ListKeys.
    rewrite (hi_empty _ Hh Hl), map_to_list_empty. simpl. apply fifo_event; try done; apply Hh.
Qed.

(** Waiting, waking up and closing change nothing else. *)
Lemma cond_inv f σ q b cd :
  pipe_inv f σ → q = queue f → ((0 < waiting cd)%nat → queue f = [] ∧ b = false) →
  pipe_inv (mkFIFO (DeltaFIFO.items f) q (populated f) (initialPopulationCount f) b cd) σ.
Proof. intros [[[] Hi Hd] Hp Hk] -> Hcd. split; [split; [split|..]|..]; done. Qed.

Lemma cond_event h q b cd :
  inf_inv h → started (h_inf h) = true → q = queue (fifo (h_inf h)) →
  ((0 < waiting cd)%nat → queue (fifo (h_inf h)) = [] ∧ b = false) →
  let f := fifo (h_inf h) in
  inf_inv (mkHistory (with_fifo (h_inf h) (mkFIFO (DeltaFIFO.items f) q (populated f) (initialPopulationCount f) b cd))
    (h_truth h) (h_ghosts h) (h_popped h) (h_listed h)).
Proof.
  intros Hh Hst -> Hcd f. apply fifo_event; try done.
  - apply cond_inv; [apply Hh|done|done].
  - apply Hh.
  - by apply (synced_keep (fifo (h_inf h))); [apply Hh|..].
Qed.

Lemma processLoop_head h id q :
  inf_inv h → queue (fifo (h_inf h)) = id :: q →
  ∃ c' p' ds, processLoop keyFunc resourceVersion (h_inf h) =
      Ret (mkInformer c' p' (popped (fifo (h_inf h)) id q) (resyncCheckPeriod (h_inf h)) (started (h_inf h))
             (stopped (h_inf h)), Popped ds true) ∧
    inf_inv (mkHistory
      (mkInformer c' p' (popped (fifo (h_inf h)) id q) (resyncCheckPeriod (h_inf h)) (started (h_inf h))
         (stopped (h_inf h))) (h_truth h) (h_ghosts h) (h_popped h ++ [id]) (h_listed h)) ∧
    ∀ k, pending_view (popped (fifo (h_inf h)) id q) (contents c') k =
         pending_view (fifo (h_inf h)) (contents (indexer (h_inf h))) k.
Proof.
  intros Hh Hq. pose proof (hi_pipe _ Hh) as [Hc Hp Hk]. destruct (hi_views _ Hh) as [ss Hv].
  destruct (Pop_head keyFunc (HandleDeltas keyFunc resourceVersion) (fifo (h_inf h))
    (indexer (h_inf h), processor (h_inf h)) id q (pc_core _ _ _ Hc) Hq) as (ds & Hds & He).
  destruct (fi_deltas _ _ (pc_core _ _ _ Hc) id ds Hds) as [_ Hkeyed].
  destruct (HandleDeltas_ok keyFunc resourceVersion id ds _ _ ss (hi_store _ Hh) (hi_total _ Hh) Hv Hkeyed
    (pc_deltas _ _ _ Hc id ds Hds) (Hk id)) as (c' & p' & ss' & Hd & Hc' & Hx & Hi & Hv').
  rewrite Hd in He. exists c', p', ds. unfold processLoop. rewrite He. split; [done|].
  destruct (popped_pipe keyFunc (fifo (h_inf h)) _ id q ds Hc Hk Hq Hds) as (Hpp & Hpk & Hview).
  fold (set_key (contents (indexer (h_inf h))) id (apply_all ds (contents (indexer (h_inf h)) !! id))) in *.
  rewrite <- Hi in *. assert (populated (fifo (h_inf h)) = true) as Hpop.
  { destruct (populated (fifo (h_inf h))); [done|]. by rewrite Hp in Hq. }
  split; [|done]. split; simpl; [done| | | | | | |apply Hh].
  - intros name g o Hg. rewrite Hx in Hg. by eapply (hi_total _ Hh).
  - split; [done| |done]. simpl. congruence.
  - by exists ss'.
  - intros k Hg. rewrite Hview. by apply Hh.
  - by apply synced_pop; [apply Hh|..].
  - intros Hl. pose proof (hi_synced _ Hh) as Hs. rewrite Hl in Hs. destruct Hs. congruence.
Qed.

Lemma pop_event h :
  inf_inv h → started (h_inf h) = true → ∃ h', h_exec keyFunc resourceVersion range h EPop = Ret h' ∧ inf_inv h'.
Proof.
  intros Hh Hst. unfold h_exec, exec, popped_after. destruct (queue (fifo (h_inf h))) as [|id q] eqn:Hq.
  - unfold processLoop, Pop. rewrite Hq. simpl. rewrite app_nil_r.
    destruct (closed (fifo (h_inf h))) eqn:Hcl; simpl; (eexists; split; [done|]); apply cond_event; try done.
    rewrite <- Hcl. apply Hh.
  - destruct (processLoop_head h id q Hh Hq) as (c' & p' & ds & -> & Hh' & _). by eexists.
Qed.

Lemma processor_event h p :
  inf_inv h → (∃ ss, views p ss (contents (indexer (h_inf h)))) →
  inf_inv (mkHistory (with_processor (h_inf h) p) (h_truth h) (h_ghosts h) (h_popped h) (h_listed h)).
Proof. intros [] Hv. by split. Qed.

Lemma dispatch_event h i :
  inf_inv h → ∃ h', h_exec keyFunc resourceVersion range h (EDispatch i) = Ret h' ∧ inf_inv h'.
Proof.
  intros Hh. destruct (hi_views _ Hh) as [ss Hv]. unfold h_exec, exec.
  destruct (listeners (processor (h_inf h)) !! i) as [l|] eqn:Hl; [|by exists h; destruct h].
  pose proof Hv as [(Hls & _) _]. destruct (listener_dispatch_has l (ss i) (Hls i l Hl)) as (l' & Hd & _).
  rewrite Hd. eexists. split; [done|]. apply processor_event; [done|]. exists ss. by eapply views_dispatch.
Qed.

Lemma handler_event h period now :
  inf_inv h → ∃ h', h_exec keyFunc resourceVersion range h (EAddHandler period now) = Ret h' ∧ inf_inv h'.
Proof.
  intros Hh. destruct (hi_views _ Hh) as [ss Hv]. unfold h_exec, exec, AddEventHandlerWithResyncPeriod.
  destruct (stopped (h_inf h)) eqn:Hstop; [by exists h; destruct h|].
  set (period' := if _ && _ then minimumResyncPeriod else period).
  set (chosen := if _ && _ then _ else (period', resyncCheckPeriod (h_inf h), processor (h_inf h))).
  assert (views chosen.2 ss (contents (indexer (h_inf h)))) as Hv'.
  { unfold chosen. repeat case_match; simpl; try done. by apply views_resyncCheckPeriodChanged. }
  destruct chosen as [[period'' check] proc]. simpl in Hv'.
  set (l := newProcessListener _ _ _ _).
  assert (listener_has l []) as Hl by apply new_listener_has.
  assert (∃ pl str, (if started (h_inf h) then add_all l (ThreadSafeStore.List_ (indexer (h_inf h))) else Ret l) = Ret pl ∧
    listener_has pl str ∧ listener_view keyFunc resourceVersion str (contents (indexer (h_inf h)))) as (pl & str & -> & Hl' & Hs).
  { destruct (started (h_inf h)) eqn:Hst.
    - destruct (add_all_has (ThreadSafeStore.List_ (indexer (h_inf h))) l [] Hl) as (l' & He & Hl').
      exists l', (addNotification <$> ThreadSafeStore.List_ (indexer (h_inf h))). split; [done|]. split; [done|].
      apply view_all, (pi_keyed _ _ _ (hi_pipe _ Hh)).
    - exists l, []. split; [done|]. split; [done|]. rewrite (hi_empty _ Hh (hi_started _ Hh Hst)).
      split; [done|]. intros k. unfold replay. simpl. by rewrite !lookup_empty. }
  eexists. split; [done|]. destruct (views_addListener keyFunc resourceVersion proc ss _ pl str Hv' Hl' Hs) as [ss' Hss'].
  destruct Hh. split; simpl; try done. by exists ss'.
Qed.

Lemma indexers_event h ixs :
  inf_inv h → takes_all ixs →
  inf_inv (mkHistory (informer_AddIndexers (h_inf h) ixs).1 (h_truth h) (h_ghosts h) (h_popped h) (h_listed h)).
Proof.
  intros Hh Hix. unfold informer_AddIndexers. destruct (started (h_inf h)) eqn:Hst; [by destruct h|].
  pose proof (AddIndexers_spec (indexer (h_inf h)) ixs (hi_store _ Hh)) as Ha.
  destruct (ThreadSafeStore.AddIndexers (indexer (h_inf h)) ixs) as [c ok]. destruct Ha as (Hc & Hi & Hix').
  destruct Hh. split; simpl; rewrite ?Hi; try done; [|by intros _; auto].
  destruct Hix' as [(_ & _ & _ & Hix')|(_ & -> & _)]; [|done]. intros name g o. rewrite Hix', lookup_union_Some_raw.
  intros [Hg|[_ Hg]]; [by eapply Hix|by eapply hi_total0].
Qed.

Lemma run_event h :
  inf_inv h → started (h_inf h) = false →
  inf_inv (mkHistory (informer_Run (h_inf h)) (h_truth h) (h_ghosts h) (h_popped h) (h_listed h)).
Proof.
  intros Hh Hst. pose proof (hi_started _ Hh Hst) as Hl. pose proof (hi_empty _ Hh Hl) as He.
  pose proof (hi_synced _ Hh) as Hs. rewrite Hl in Hs. destruct Hs as [Hpop Hp].
  pose proof (new_history_inv 0 (indexers (indexer (h_inf h))) (hi_total _ Hh)) as Hn.
  split; simpl; try apply Hh.
  - rewrite He. apply (hi_pipe _ Hn).
  - intros k Hk. rewrite <- (hi_truth _ Hh k Hk). unfold pending_view. simpl. rewrite lookup_empty.
    pose proof (hi_pipe _ Hh) as [Hc Hq _]. by rewrite (empty_items keyFunc _ (pc_core _ _ _ Hc) (Hq Hpop)), lookup_empty.
  - by rewrite Hl.
  - done.
Qed.

Lemma exec_inv h e :
  inf_inv h → allowed keyFunc (h_inf h) e → ∃ h', h_exec keyFunc resourceVersion range h e = Ret h' ∧ inf_inv h'.
Proof.
  intros Hh Ha.
  destruct e; [| | | | | |by apply pop_event| |by apply dispatch_event|by apply handler_event| | | |];
    (eexists; split; [done|]); simpl.
  - by apply (put_event h Added).
  - by apply (put_event h Updated).
  - by apply delete_event.
  - destruct Ha. by apply replace_event.
  - apply processor_event; [done|]. destruct (hi_views _ Hh) as [ss Hv]. exists ss. by apply views_shouldResync.
  - by apply resync_event.
  - apply cond_event; try done. apply (fi_cond _ _ (pc_core _ _ _ (pi_core _ _ _ (hi_pipe _ Hh)))).
  - by apply indexers_event.
  - by apply run_event.
  - apply cond_event; try done. simpl. lia.
  - destruct Hh. by split.
Qed.

Lemma step_inf_inv h e h' : inf_inv h → h_step keyFunc resourceVersion range h e h' → inf_inv h'.
Proof. intros Hh [Ha He]. destruct (exec_inv h e Hh Ha) as (h1 & H1 & Hi). by assert (h1 = h') as <- by congruence. Qed.

Lemma history_inv period ixs es h :
  takes_all ixs → trace (h_step keyFunc resourceVersion range) (new_history period ixs) es h → inf_inv h.
Proof.
  intros Hix Ht. eapply trace_invariant; [|done|by apply new_history_inv]. intros ???. apply step_inf_inv.
Qed.

(** ** Draining *)

Fixpoint h_run h (es : list event) : outcome history :=
  match es with
  | [] => Ret h
  | e :: es => h ← h_exec keyFunc resourceVersion range h e; h_run h es
  end.

Lemma drain_queue q : ∀ h,
  inf_inv h → queue (fifo (h_inf h)) = q →
  ∃ h', h_run h (repeat EPop (length q)) = Ret h' ∧ inf_inv h' ∧ queue (fifo (h_inf h')) = [] ∧
    ∀ k, contents (indexer (h_inf h')) !! k = pending_view (fifo (h_inf h)) (contents (indexer (h_inf h))) k.
Proof.
  induction q as [|id q IH]; intros h Hh Hq; simpl.
  { exists h. split; [done|]. split; [done|]. split; [done|]. intros k. pose proof (hi_pipe _ Hh) as [Hc _ _].
    unfold pending_view. by rewrite (empty_items keyFunc _ (pc_core _ _ _ Hc) Hq), lookup_empty. }
  destruct (processLoop_head h id q Hh Hq) as (c' & p' & ds & He & Hh' & Hview).
  unfold h_exec, exec, popped_after. rewrite He, Hq. cbn [mbind outcome_bind head option_list truth_after ghosts_after listed_after].
  destruct (IH _ Hh' eq_refl) as (h' & Hr & Hi & Hq' & Hv). exists h'. split; [done|]. split; [done|]. split; [done|].
  intros k. rewrite Hv. apply Hview.
Qed.

Lemma dispatch_all n : ∀ h i (pl : processorListener (Obj := Obj)) ss,
  views (processor (h_inf h)) ss (contents (indexer (h_inf h))) → listeners (processor (h_inf h)) !! i = Some pl →
  ∃ h' pl', h_run h (repeat (EDispatch i) n) = Ret h' ∧ indexer (h_inf h') = indexer (h_inf h) ∧
    listeners (processor (h_inf h')) !! i = Some pl' ∧
    take (length (pl_delivered pl) + n) (ss i) `prefix_of` pl_delivered pl' ∧ pl_delivered pl' `prefix_of` ss i.
Proof.
  induction n as [|n IH]; intros h i l ss Hv Hl; simpl.
  all: pose proof Hv as [(Hls & _) _]; pose proof (Hls i l Hl) as Hhas.
  - exists h, l. split_and!; try done; destruct Hhas as (pend & _ & _ & ->); [|by eexists].
    by rewrite Nat.add_0_r, take_app_length.
  - destruct (listener_dispatch_has l (ss i) Hhas) as (l1 & Hd & Hl1 & Hdel).
    unfold h_exec, exec. rewrite Hl, Hd. cbn [mbind outcome_bind].
    pose proof (views_dispatch keyFunc resourceVersion _ ss _ i l l1 Hv Hl Hd) as Hv1.
    set (h1 := mkHistory _ _ _ _ _). destruct (IH h1 i l1 ss Hv1) as (h' & l' & Hr & Hi & Hl' & Hp1 & Hp2).
    { simpl. apply list_lookup_insert_eq. by eapply lookup_lt_Some. }
    exists h', l'. split_and!; try done. etrans; [|done]. rewrite Hdel, length_take.
    destruct (decide (S (length (pl_delivered l)) ≤ length (ss i))%nat).
    + rewrite Nat.min_l by lia. by rewrite Nat.add_succ_comm.
    + rewrite !take_ge by lia. done.
Qed.

Lemma deliver_all h i (l : processorListener (Obj := Obj)) :
  inf_inv h → listeners (processor (h_inf h)) !! i = Some l →
  ∃ n h' (pl : processorListener (Obj := Obj)), h_run h (repeat (EDispatch i) n) = Ret h' ∧ listeners (processor (h_inf h')) !! i = Some pl ∧
    indexer (h_inf h') = indexer (h_inf h) ∧
    listener_view keyFunc resourceVersion (pl_delivered pl) (contents (indexer (h_inf h'))).
Proof.
  intros Hh Hl. destruct (hi_views _ Hh) as [ss Hv].
  destruct (dispatch_all (length (ss i)) h i l ss Hv Hl) as (h' & l' & Hr & Hi & Hl' & Hp1 & Hp2).
  exists (length (ss i)), h', l'. split_and!; try done. rewrite take_ge in Hp1 by lia.
  assert (pl_delivered l' = ss i) as -> by (by apply (anti_symm prefix)). rewrite Hi. apply Hv. by eapply lookup_lt_Some.
Qed.

(** ** Checked histories *)

Definition allowedb s (e : event (Obj := Obj)) : bool :=
  match e with
  | EReplace l => started s && forallb (λ o, bool_decide (is_Some (keyFunc o))) l
  | EAdd _ | EUpdate _ | EDelete _ | EResync | EPop | EResume | EClose => started s
  | EAddIndexers _ => false
  | ERun => negb (started s)
  | EShouldResync _ | EDispatch _ | EAddHandler _ _ | EStopped => true
  end.

Lemma allowedb_ok s e : allowedb s e = true → allowed keyFunc s e.
Proof.
  destruct e; simpl; try done; [|by destruct (started s)].
  intros [Hs Hl]%andb_true_iff. split; [done|]. apply Forall_forall. intros o Ho%list_elem_of_In.
  rewrite forallb_forall in Hl. specialize (Hl o Ho). by apply bool_decide_eq_true in Hl.
Qed.

Fixpoint h_check h (es : list event) : option history :=
  match es with
  | [] => Some h
  | e :: es =>
      if allowedb (h_inf h) e then
        match h_exec keyFunc resourceVersion range h e with Ret h => h_check h es | Panic => None end
      else None
  end.

Lemma h_check_trace es : ∀ h h', h_check h es = Some h' → trace (h_step keyFunc resourceVersion range) h es h'.
Proof.
  induction es as [|e es IH]; intros h h' H; simpl in H; [simplify_eq; constructor|].
  destruct (allowedb (h_inf h) e) eqn:Ha; [|done]. destruct (h_exec keyFunc resourceVersion range h e) as [h1|] eqn:He; [|done].
  econstructor; [split; [by apply allowedb_ok|done]|by apply IH].
Qed.
End Laws.
