(* ===== verification/InformerProps.v ===== *)
(** * What a shared informer guarantees

    Theorems on every history of [InformerEvents], with a history on concrete
    objects as their witness. *)

From S2P Require Import Prelude ThreadSafeStore DeltaFIFO RingGrowing Informer InformerInv InformerEvents.
#[local] Open Scope Z_scope.

(** ** A sample *)

Section Sample.
Local Open Scope string_scope.

(** Objects are a name and a resource version. *)
Definition sample_key (o : string * string) : option string := Some o.1.
Definition sample_range (m : gmap string (list (Delta (string * string)))) : list string := (map_to_list m).*1.

(** An index function that fails on a [DeletedFinalStateUnknown]. *)
Definition sample_indexers : gmap string (IndexFunc (dobj (string * string))) :=
  {[ "version" := λ x, match x with Live o => Some [o.2] | DeletedFinalStateUnknown _ _ => None end ]}.

Lemma sample_takes_all : takes_all sample_indexers.
Proof. unfold sample_indexers. by intros name f o [_ <-]%lookup_singleton_Some. Qed.

Definition sample_start : history := new_history 0 sample_indexers.

(** Two objects are listed and seen by a handler; one changes, one goes away
    while the watch is down, another handler joins. *)
Definition sample_events : list event :=
  [EAddHandler 0 0; ERun; EReplace [("a", "1"); ("b", "1")]; EPop; EPop; EDispatch 0; EUpdate ("a", "2"); EPop;
   EAddHandler 0 5; EReplace [("a", "2"); ("c", "3")]; EPop; EDispatch 1; EResync; EPop].

Definition sample_end : option history :=
  h_check sample_key snd sample_range sample_start sample_events.
End Sample.

Section Guarantees.
Context {Obj : Type} (keyFunc : Obj → option string) (resourceVersion : Obj → string).
Context (range : gmap string (list (Delta Obj)) → list string).
Local Abbreviation contents := ThreadSafeStore.items.
Local Abbreviation reaches := (trace (h_step keyFunc resourceVersion range)).
Local Abbreviation run := (h_run keyFunc resourceVersion range).

(** C6. At any point of any history of a shared informer, let [processLoop]
    handle what is queued: the indexer then holds, for every key, exactly the
    object of the reflector's last list and the watch events since (keys of
    [h_ghosts] excepted), and once a listener's notifications are handed to
    its handler, the notifications the handler has seen replay to the contents
    of the indexer, up to changes that keep the resource version. *)
Theorem informer_converges period ixs es h :
  takes_all ixs → reaches (new_history period ixs) es h →
  ∃ h1, run h (repeat EPop (length (queue (fifo (h_inf h))))) = Ret h1 ∧
    (∀ k, k ∉ h_ghosts h → contents (indexer (h_inf h1)) !! k = h_truth h !! k) ∧
    ∀ i l, listeners (processor (h_inf h1)) !! i = Some l →
      ∃ n h2 l2, run h1 (repeat (EDispatch i) n) = Ret h2 ∧ listeners (processor (h_inf h2)) !! i = Some l2 ∧
        indexer (h_inf h2) = indexer (h_inf h1) ∧
        agrees resourceVersion (replay keyFunc (pl_delivered l2)) (contents (indexer (h_inf h1))).
Proof.
  intros Hix Ht. pose proof (history_inv _ _ _ _ _ _ _ Hix Ht) as Hh.
  destruct (drain_queue keyFunc resourceVersion range _ h Hh eq_refl) as (h1 & Hr & H1 & _ & Hv).
  exists h1. split; [done|]. split; [intros k Hk; rewrite Hv; by apply (hi_truth _ _ _ Hh)|].
  intros i l Hl. destruct (deliver_all keyFunc resourceVersion range h1 i l H1 Hl) as (n & h2 & l2 & H2 & Hl2 & Hi & _ & Ha).
  exists n, h2, l2. by rewrite <- Hi.
Qed.

(** C18. What a handler sees is consistent at every point: its notifications
    come in an order in which additions are of new keys, updates start from the
    object the handler has (up to the resource version) and deletions are of
    keys it has; they are a prefix of what was sent, and all that was sent
    replays to the contents of the indexer, also for handlers that join late. *)
Theorem informer_listeners period ixs es h i l :
  takes_all ixs → reaches (new_history period ixs) es h → listeners (processor (h_inf h)) !! i = Some l →
  ∃ s, listener_has l s ∧ pl_delivered l `prefix_of` s ∧ stream_ok keyFunc resourceVersion ∅ s ∧
    agrees resourceVersion (replay keyFunc s) (contents (indexer (h_inf h))).
Proof.
  intros Hix Ht Hl. destruct (hi_views _ _ _ (history_inv _ _ _ _ _ _ _ Hix Ht)) as [ss [(Hls & _) Hv]].
  pose proof (Hls i l Hl) as Hhas. exists (ss i). split; [done|]. split.
  - destruct Hhas as (pend & _ & _ & ->). by eexists.
  - apply Hv. by eapply lookup_lt_Some.
Qed.

(** [HasSynced] is exact: it answers true if and only if something was put
    into the queue of the started informer and every key of its first list has
    been popped (an informer whose first change is not a list has none). *)
Lemma informer_synced period ixs es h :
  takes_all ixs → reaches (new_history period ixs) es h →
  informer_HasSynced (h_inf h) = true ↔ ∃ L, h_listed h = Some L ∧ ∀ k, k ∈ L → k ∈ h_popped h.
Proof.
  intros Hix Ht. pose proof (history_inv _ _ _ _ _ _ _ Hix Ht) as Hh. pose proof (hi_synced _ _ _ Hh) as Hs.
  unfold informer_HasSynced. destruct (h_listed h) as [L|] eqn:Hl.
  - destruct (started (h_inf h)) eqn:Hst; [|pose proof (hi_started _ _ _ Hh Hst); congruence].
    rewrite (synced_iff _ _ _ Hs). split; [by exists L|by intros (? & [= <-] & ?)].
  - destruct Hs as [Hp _]. unfold HasSynced. rewrite Hp. split; [by destruct (started (h_inf h))|by intros (? & ? & _)].
Qed.

(** C27. No step of an informer panics: in any history every event that can
    occur completes (the ring buffers, the index functions and the positions of
    the listeners are used within their bounds). *)
Theorem informer_never_panics period ixs es h e :
  takes_all ixs → reaches (new_history period ixs) es h → allowed keyFunc (h_inf h) e →
  ∃ s', exec keyFunc resourceVersion range (h_inf h) e = Ret s'.
Proof.
  intros Hix Ht Ha. pose proof (history_inv _ _ _ _ _ _ _ Hix Ht) as Hh.
  destruct (exec_inv keyFunc resourceVersion range h e Hh Ha) as (h' & He & _). unfold h_exec in He.
  destruct (exec keyFunc resourceVersion range (h_inf h) e) as [s'|]; [by exists s'|done].
Qed.

(** C40. A list can fail to remove an object: one that is in the queue only,
    not yet in the indexer, and that a new list does not name gets no deletion,
    so the indexer ends up with it although the reflector knows it is gone. *)
Theorem informer_ghost period ixs es h l k :
  takes_all ixs → reaches (new_history period ixs) es h → started (h_inf h) = true → keyed keyFunc l →
  unknown (h_inf h) k = true → listed_map keyFunc l !! k = None →
  ∃ h1 h2, h_exec keyFunc resourceVersion range h (EReplace l) = Ret h1 ∧ h_truth h1 !! k = None ∧
    run h1 (repeat EPop (length (queue (fifo (h_inf h1))))) = Ret h2 ∧ queue (fifo (h_inf h2)) = [] ∧
    is_Some (contents (indexer (h_inf h2)) !! k).
Proof.
  intros Hix Ht Hst Hk [Hun Hp]%andb_true_iff Hl. pose proof (history_inv _ _ _ _ _ _ _ Hix Ht) as Hh.
  apply bool_decide_eq_true in Hun, Hp.
  pose proof (replace_event keyFunc resourceVersion range h l Hh Hst Hk) as H1.
  pose proof (Replace_pipe keyFunc range (fifo (h_inf h)) _ (known (indexer (h_inf h))) (Live <$> l)
    (hi_pipe _ _ _ Hh) (known_indexer _) (keyed_live keyFunc l Hk)) as (f' & He & _ & _ & _ & _ & _ & _ & V).
  rewrite He in H1. cbn [fst] in H1.
  destruct (drain_queue keyFunc resourceVersion range _ _ H1 eq_refl) as (h2 & Hr & _ & Hq & Hv).
  eexists _, h2. split; [unfold h_exec, exec; rewrite He; done|]. split; [done|]. split; [done|]. split; [done|].
  rewrite Hv. simpl. rewrite V, decide_False, list_view_map, Hl; [done|]. rewrite Hun. by intros [[? ?] _].
Qed.
End Guarantees.

(** ** Witnesses *)

Section Witnesses.
Local Open Scope string_scope.
Local Abbreviation contents := ThreadSafeStore.items.

Definition sample_history : history := default sample_start sample_end.

Lemma sample_informer_trace : trace (h_step sample_key snd sample_range) sample_start sample_events sample_history.
Proof.
  assert (bool_decide (is_Some sample_end) = true) as H by (vm_compute; reflexivity).
  apply bool_decide_eq_true in H as [h He]. unfold sample_history. rewrite He. exact (h_check_trace _ _ _ _ _ _ He).
Qed.

Lemma informer_converges_witness :
  ∃ h1, h_run sample_key snd sample_range sample_history (repeat EPop (length (queue (fifo (h_inf sample_history))))) = Ret h1 ∧
    contents (indexer (h_inf h1)) !! "a" = Some (Live ("a", "2")) ∧ contents (indexer (h_inf h1)) !! "b" = None ∧
    contents (indexer (h_inf h1)) !! "c" = Some (Live ("c", "3")).
Proof.
  destruct (informer_converges sample_key snd sample_range 0 sample_indexers sample_events sample_history
    sample_takes_all sample_informer_trace) as (h1 & Hr & Hv & _).
  assert (h_ghosts sample_history = ∅) as Hg by (vm_compute; reflexivity).
  exists h1. split; [exact Hr|]. rewrite !Hv by (rewrite Hg; apply not_elem_of_empty). vm_compute. repeat split.
Defined.

Lemma informer_listeners_witness :
  ∃ s, [addNotification (Live ("a", "2"))] `prefix_of` s ∧
    agrees snd (replay sample_key s) (contents (indexer (h_inf sample_history))).
Proof.
  set (l := listeners (processor (h_inf sample_history)) !! 1%nat).
  assert (pl_delivered <$> l = Some [addNotification (Live ("a", "2"))]) as Hd by (vm_compute; reflexivity).
  destruct l as [l1|] eqn:Hl; [|discriminate Hd]. injection Hd as Hd.
  destruct (informer_listeners sample_key snd sample_range 0 sample_indexers sample_events sample_history 1 l1
    sample_takes_all sample_informer_trace Hl) as (s & _ & Hp & _ & Ha).
  exists s. rewrite <- Hd. exact (conj Hp Ha).
Defined.

Lemma informer_synced_witness : informer_HasSynced (h_inf sample_history) = true.
Proof.
  apply (informer_synced sample_key snd sample_range 0 sample_indexers sample_events sample_history
    sample_takes_all sample_informer_trace).
  exists {["a"; "b"]}. split; [vm_compute; reflexivity|]. assert (h_popped sample_history = ["a"; "b"; "a"; "a"; "c"]) as ->
    by (vm_compute; reflexivity). set_solver.
Defined.

Lemma informer_never_panics_witness : ∃ s', exec sample_key snd sample_range (h_inf sample_history) EPop = Ret s'.
Proof.
  apply (informer_never_panics sample_key snd sample_range 0 sample_indexers sample_events sample_history EPop
    sample_takes_all sample_informer_trace). vm_compute. reflexivity.
Defined.

(** An object added by the watch, still in the queue when the next list comes. *)
Definition ghost_events : list event := [ERun; EReplace []; EAdd ("x", "1")].
Definition ghost_history : history :=
  default sample_start (h_check sample_key snd sample_range sample_start ghost_events).

Lemma ghost_trace : trace (h_step sample_key snd sample_range) sample_start ghost_events ghost_history.
Proof. apply h_check_trace. vm_compute. reflexivity. Qed.

Lemma informer_ghost_witness :
  ∃ h1 h2, h_exec sample_key snd sample_range ghost_history (EReplace []) = Ret h1 ∧ h_truth h1 !! "x" = None ∧
    h_run sample_key snd sample_range h1 (repeat EPop (length (queue (fifo (h_inf h1))))) = Ret h2 ∧
    queue (fifo (h_inf h2)) = [] ∧ is_Some (contents (indexer (h_inf h2)) !! "x").
Proof.
  apply (informer_ghost sample_key snd sample_range 0 sample_indexers ghost_events ghost_history [] "x").
  - apply sample_takes_all.
  - apply ghost_trace.
  - vm_compute. reflexivity.
  - constructor.
  - vm_compute. reflexivity.
  - vm_compute. reflexivity.
Defined.
End Witnesses.
