(* ===== verification/EventHandlers.v ===== *)
(** * The event handlers of the scheduler: [pkg/scheduler/eventhandlers.go]

    What the notifications of the informers do to the cache and to the
    scheduling queue, through the filtering handlers of
    [client-go/tools/cache/controller.go].  A handler is given the time and the
    address of the object it may allocate.  A profile is the map of its waiting
    pods.  A handler is one step: what it does to the cache and then to the
    queue, and the two calls of [updatePodInCache] and of
    [updatePodInSchedulingQueue], are separate critical sections in the code. *)

From S2P Require Import Prelude GoHeap SchedHeap Labels ApiTypes NodeInfo FwkStatus WaitingPods NodeTree SchedCache SchedQueue.
From S2P Require Import DeltaFIFO RingGrowing Informer.
#[local] Open Scope Z_scope.

(** ** Handlers and filters: [controller.go] *)

Section Handlers.
Context {Obj St : Type}.

Record ResourceEventHandler := mkHandler {
  OnAdd : dobj Obj → St → outcome St;
  OnUpdate : dobj Obj → dobj Obj → St → outcome St;
  OnDelete : dobj Obj → St → outcome St;
}.

Definition Filtering_OnUpdate (FilterFunc : dobj Obj → bool) (Handler : ResourceEventHandler)
    (oldObj newObj : dobj Obj) (st : St) : outcome St :=
  let newer := FilterFunc newObj in
  let older := FilterFunc oldObj in
  if newer && older then OnUpdate Handler oldObj newObj st
  else if newer && negb older then OnAdd Handler newObj st
  else if negb newer && older then OnDelete Handler oldObj st
  else Ret st.

Definition FilteringResourceEventHandler (FilterFunc : dobj Obj → bool) (Handler : ResourceEventHandler)
    : ResourceEventHandler :=
  mkHandler (λ obj st, if negb (FilterFunc obj) then Ret st else OnAdd Handler obj st)
    (Filtering_OnUpdate FilterFunc Handler)
    (λ obj st, if negb (FilterFunc obj) then Ret st else OnDelete Handler obj st).

(** What a listener's [run] does with a notification. *)
Definition handle (h : ResourceEventHandler) (n : notification (Obj := Obj)) (st : St) : outcome St :=
  match n with
  | updateNotification oldObj newObj => OnUpdate h oldObj newObj st
  | addNotification newObj => OnAdd h newObj st
  | deleteNotification oldObj => OnDelete h oldObj st
  end.
End Handlers.
Arguments ResourceEventHandler : clear implicits.

(** ** The scheduler *)

Record Scheduler := mkScheduler {
  SchedulerCache : schedulerCache;
  SchedulingQueue : PriorityQueue;
  Profiles : gmap string waitingPodsMap;
}.

Definition set_cache (s : Scheduler) (c : schedulerCache) : Scheduler :=
  mkScheduler c (SchedulingQueue s) (Profiles s).
Definition set_queue (s : Scheduler) (q : PriorityQueue) : Scheduler :=
  mkScheduler (SchedulerCache s) q (Profiles s).

Definition assignedPod (pod : Pod) : bool := negb (String.length (pod_NodeName pod) =? 0)%nat.

Definition responsibleForPod (pod : Pod) (profiles : gmap string waitingPodsMap) : bool :=
  bool_decide (is_Some (profiles !! pod_SchedulerName pod)).

(** The conversion [obj.(T)], also of the object of a [DeletedFinalStateUnknown]. *)
Definition live_object {Obj} (obj : dobj Obj) : option Obj :=
  match obj with Live o => Some o | DeletedFinalStateUnknown _ _ => None end.

Definition final_object {Obj} (obj : dobj Obj) : option Obj :=
  match obj with
  | Live o => Some o
  | DeletedFinalStateUnknown _ (Some (Live o)) => Some o
  | DeletedFinalStateUnknown _ _ => None
  end.

Section Scheduler.
Context (lsci overhead : bool).
Context (lessFn : QueuedPodInfo → QueuedPodInfo → bool) (initial maximum : Z).
Context (clusterEventMap : list (ClusterEvent * gset string)).
Context (nsSelectorEnabled : bool) (namespaceLabels : string → Labels).
Context (range : gmap string QueuedPodInfo → list string).

Local Abbreviation MoveAll := (MoveAllToActiveOrBackoffQueue lessFn initial maximum clusterEventMap range).

(** *** Volumes, services, CSI nodes *)

Inductive other_event :=
| PvAdd | PvUpdate | PvcAdd | PvcUpdate | StorageClassAdd (VolumeBindingMode : option string)
| ServiceAdd | ServiceUpdate | ServiceDelete | CSINodeAdd | CSINodeUpdate.

Definition other_name (e : other_event) : option string :=
  match e with
  | PvAdd => Some "PvAdd"
  | PvUpdate => Some "PvUpdate"
  | PvcAdd => Some "PvcAdd"
  | PvcUpdate => Some "PvcUpdate"
  | StorageClassAdd mode =>
      if bool_decide (mode = Some "WaitForFirstConsumer") then Some "StorageClassAdd" else None
  | ServiceAdd => Some "ServiceAdd"
  | ServiceUpdate => Some "ServiceUpdate"
  | ServiceDelete => Some "ServiceDelete"
  | CSINodeAdd => Some "CSINodeAdd"
  | CSINodeUpdate => Some "CSINodeUpdate"
  end.

Definition onOther (e : other_event) (now : Z) (s : Scheduler) : Scheduler :=
  match other_name e with
  | Some ev => set_queue s (MoveAll (SchedulingQueue s) ev now)
  | None => s
  end.

(** *** Nodes *)

Definition addNodeToCache (now : Z) (obj : dobj Node) (s : Scheduler) : outcome Scheduler :=
  match live_object obj with
  | None => Ret s
  | Some node =>
      let s := set_cache s (AddNode lsci overhead (SchedulerCache s) node) in
      Ret (set_queue s (MoveAll (SchedulingQueue s) "NodeAdd" now))
  end.

Definition nodeSpecUnschedulableChanged (newNode oldNode : Node) : bool :=
  negb (Bool.eqb (node_Unschedulable newNode) (node_Unschedulable oldNode)) && negb (node_Unschedulable newNode).
Definition nodeAllocatableChanged (newNode oldNode : Node) : bool :=
  negb (bool_decide (node_Allocatable oldNode = node_Allocatable newNode)).
Definition nodeLabelsChanged (newNode oldNode : Node) : bool :=
  negb (bool_decide (node_Labels oldNode = node_Labels newNode)).
Definition nodeTaintsChanged (newNode oldNode : Node) : bool :=
  negb (bool_decide (node_Taints newNode = node_Taints oldNode)).

(** The statuses by type; the last condition of a type counts. *)
Definition condition_statuses (conditions : list NodeCondition) : gmap string string :=
  foldl (λ m c, <[nc_Type c := nc_Status c]> m) ∅ conditions.
Definition nodeConditionsChanged (newNode oldNode : Node) : bool :=
  negb (bool_decide (condition_statuses (node_Conditions oldNode) = condition_statuses (node_Conditions newNode))).

Definition nodeSchedulingPropertiesChange (newNode oldNode : Node) : string :=
  if nodeSpecUnschedulableChanged newNode oldNode then "NodeSpecUnschedulableChange"
  else if nodeAllocatableChanged newNode oldNode then "NodeAllocatableChange"
  else if nodeLabelsChanged newNode oldNode then "NodeLabelChange"
  else if nodeTaintsChanged newNode oldNode then "NodeTaintChange"
  else if nodeConditionsChanged newNode oldNode then "NodeConditionChange"
  else EmptyString.

Definition updateNodeInCache (now : Z) (oldObj newObj : dobj Node) (s : Scheduler) : outcome Scheduler :=
  match live_object oldObj, live_object newObj with
  | Some oldNode, Some newNode =>
      c ← UpdateNode lsci overhead (SchedulerCache s) oldNode newNode;
      let s := set_cache s c in
      let event := nodeSchedulingPropertiesChange newNode oldNode in
      if (event =? EmptyString)%string then Ret s
      else Ret (set_queue s (MoveAll (SchedulingQueue s) event now))
  | _, _ => Ret s
  end.

Definition deleteNodeFromCache (obj : dobj Node) (s : Scheduler) : outcome Scheduler :=
  match final_object obj with
  | None => Ret s
  | Some node => Ret (set_cache s (RemoveNode (SchedulerCache s) node).1)
  end.

Definition nodeHandler (now : Z) : ResourceEventHandler Node Scheduler :=
  mkHandler (addNodeToCache now) (updateNodeInCache now) deleteNodeFromCache.

(** *** Assigned pods *)

Local Abbreviation PodAdded :=
  (AssignedPodAdded lessFn initial maximum clusterEventMap nsSelectorEnabled namespaceLabels range).
Local Abbreviation PodUpdated :=
  (AssignedPodUpdated lessFn initial maximum clusterEventMap nsSelectorEnabled namespaceLabels range).

Definition addPodToCache (now : Z) (obj : dobj Pod) (s : Scheduler) : outcome Scheduler :=
  match live_object obj with
  | None => Ret s
  | Some pod =>
      '(c, _) ← AddPod lsci overhead (SchedulerCache s) pod;
      Ret (set_queue (set_cache s c) (PodAdded (SchedulingQueue s) pod now))
  end.

Definition deletePodFromCache (now : Z) (obj : dobj Pod) (s : Scheduler) : outcome Scheduler :=
  match final_object obj with
  | None => Ret s
  | Some pod =>
      '(c, _) ← RemovePod lsci overhead (SchedulerCache s) pod;
      Ret (set_queue (set_cache s c) (MoveAll (SchedulingQueue s) "AssignedPodDelete" now))
  end.

Definition updatePodInCache (now : Z) (oldObj newObj : dobj Pod) (s : Scheduler) : outcome Scheduler :=
  match live_object oldObj, live_object newObj with
  | Some oldPod, Some newPod =>
      if negb (pod_UID oldPod =? pod_UID newPod)%string then
        s ← deletePodFromCache now oldObj s;
        addPodToCache now newObj s
      else
        '(c, _) ← UpdatePod lsci overhead (SchedulerCache s) oldPod newPod;
        Ret (set_queue (set_cache s c) (PodUpdated (SchedulingQueue s) newPod now))
  | _, _ => Ret s
  end.

(** *** Pods to schedule *)

(** What [skipPodUpdate] compares. *)
Definition without_ignored (pod : Pod) : Pod :=
  mkPod (pod_Name pod) (pod_Namespace pod) (pod_UID pod) EmptyString (pod_Labels pod)
    (pod_Containers pod) (pod_InitContainers pod) (pod_Overhead pod) EmptyString
    (pod_Affinity pod) (pod_Priority pod) (pod_NominatedNodeName pod) (pod_SchedulerName pod)
    (pod_NodeSelector pod) (pod_Tolerations pod) ∅ [] [] (pod_DeletionTimestamp pod) []
    (pod_PreemptionPolicy pod) (pod_CreationTimestamp pod) (pod_OwnerReferences pod) (pod_Phase pod) (pod_StartTime pod)
    (pod_ContainerStatuses pod).

Definition skipPodUpdate (s : Scheduler) (pod : Pod) : bool :=
  match IsAssumedPod (SchedulerCache s) pod with
  | Some true =>
      match GetPod (SchedulerCache s) pod with
      | None => false
      | Some assumedPod => bool_decide (without_ignored assumedPod = without_ignored pod)
      end
  | _ => false
  end.

Definition addPodToSchedulingQueue (now : Z) (ref : nat) (obj : dobj Pod) (s : Scheduler) : outcome Scheduler :=
  match live_object obj with
  | None => Panic
  | Some pod =>
      '(q, _) ← SchedQueue.Add lessFn initial maximum (SchedulingQueue s) pod now ref;
      Ret (set_queue s q)
  end.

Definition updatePodInSchedulingQueue (now : Z) (ref : nat) (oldObj newObj : dobj Pod) (s : Scheduler)
    : outcome Scheduler :=
  match live_object oldObj, live_object newObj with
  | Some oldPod, Some newPod =>
      if (pod_ResourceVersion oldPod =? pod_ResourceVersion newPod)%string then Ret s
      else if skipPodUpdate s newPod then Ret s
      else
        '(q, _) ← SchedQueue.Update lessFn initial maximum (SchedulingQueue s) (Some oldPod) newPod now ref;
        Ret (set_queue s q)
  | _, _ => Panic
  end.

Definition deletePodFromSchedulingQueue (obj : dobj Pod) (s : Scheduler) : outcome Scheduler :=
  match final_object obj with
  | None => Ret s
  | Some pod =>
      q ← SchedQueue.Delete lessFn initial maximum (SchedulingQueue s) pod;
      let s := set_queue s q in
      match Profiles s !! pod_SchedulerName pod with
      | None => Ret s
      | Some waiting =>
          Ret (mkScheduler (SchedulerCache s) (SchedulingQueue s)
                 (<[pod_SchedulerName pod := RejectWaitingPod waiting (pod_UID pod)]> (Profiles s)))
      end
  end.

(** *** The handlers [addAllEventHandlers] registers for pods *)

Definition scheduled_filter (obj : dobj Pod) : bool :=
  match final_object obj with Some pod => assignedPod pod | None => false end.

Definition unscheduled_filter (profiles : gmap string waitingPodsMap) (obj : dobj Pod) : bool :=
  match final_object obj with
  | Some pod => negb (assignedPod pod) && responsibleForPod pod profiles
  | None => false
  end.

Definition cachePodHandler (now : Z) : ResourceEventHandler Pod Scheduler :=
  FilteringResourceEventHandler scheduled_filter
    (mkHandler (addPodToCache now) (updatePodInCache now) (deletePodFromCache now)).

Definition queuePodHandler (profiles : gmap string waitingPodsMap) (now : Z) (ref : nat)
    : ResourceEventHandler Pod Scheduler :=
  FilteringResourceEventHandler (unscheduled_filter profiles)
    (mkHandler (addPodToSchedulingQueue now ref) (updatePodInSchedulingQueue now ref) deletePodFromSchedulingQueue).
End Scheduler.
