(* ===== verification/SchedulerEvents.v ===== *)
(** * Histories of the scheduler's cache and queue behind their informers

    The handlers of [EventHandlers] fed with streams of notifications,
    interleaved with the scheduling cycle's own operations on the cache and
    the queue.  The cache mirrors what the streams say: the pods it counts as
    added are the assigned pods, and its node objects are the nodes. *)

From S2P Require Import Prelude GoHeap SchedHeap Labels ApiTypes NodeInfo FwkStatus WaitingPods NodeTree SchedCache.
From S2P Require Import ThreadSafeStore DeltaFIFO RingGrowing Informer InformerInv InformerEvents.
From S2P Require Import CacheEvents SchedQueue QueueInv QueueEvents EventHandlers.
#[local] Open Scope Z_scope.

(** ** Streams *)

Section Exact.
Context {Obj : Type} (key : Obj → string) (fresh : Obj → Obj → Prop).
Implicit Types (m : gmap string (dobj Obj)) (n : notification (Obj := Obj)).

Definition key_of (o : Obj) : option string := Some (key o).

(** What the notification says of the object the stream has left under its
    key: an addition is of a new key, an update starts from the object that is
    there, the final state of a deletion is as good as the object that is there. *)
Definition exact m n : Prop :=
  match n with
  | addNotification x => ∃ o, x = Live o ∧ m !! key o = None
  | updateNotification x y => ∃ o o', x = Live o ∧ y = Live o' ∧ key o' = key o ∧ m !! key o = Some (Live o)
  | deleteNotification x =>
      ∃ o o', final_object x = Some o' ∧ KeyOf_obj key_of x = Some (key o) ∧ m !! key o = Some (Live o) ∧ fresh o o'
  end.

Fixpoint exact_stream m (s : list notification) : Prop :=
  match s with
  | [] => True
  | n :: s => exact m n ∧ exact_stream (apply_notification key_of m n) s
  end.

Lemma exact_app m s1 s2 :
  exact_stream m (s1 ++ s2) ↔ exact_stream m s1 ∧ exact_stream (foldl (apply_notification key_of) m s1) s2.
Proof. revert m. induction s1 as [|n s1 IH]; intros m; simpl; [tauto|]. rewrite IH. tauto. Qed.

(** The objects of a notification. *)
Definition mentions n (o : Obj) : Prop :=
  match n with
  | addNotification x => x = Live o
  | updateNotification x y => x = Live o ∨ y = Live o
  | deleteNotification x => final_object x = Some o
  end.

(** A deletion that names its object is exact if it is fresh. *)
Definition fresh_deletion m n : Prop :=
  match n with
  | deleteNotification x =>
      ∀ k o, KeyOf_obj key_of x = Some k → m !! k = Some (Live o) → ∃ o', final_object x = Some o' ∧ fresh o o'
  | _ => True
  end.

Fixpoint fresh_deletions m (s : list notification) : Prop :=
  match s with
  | [] => True
  | n :: s => fresh_deletion m n ∧ fresh_deletions (apply_notification key_of m n) s
  end.

Context (resourceVersion : Obj → string) (api : Obj → Prop).

(** A resource version is the version of one state of an object. *)
Definition versioned : Prop :=
  ∀ o o', api o → api o' → key o = key o' → resourceVersion o = resourceVersion o' → o = o'.

Definition view_ok m : Prop := ∀ k x, m !! k = Some x → ∃ o, x = Live o ∧ key o = k ∧ api o.

Lemma view_ok_apply m n :
  view_ok m → (∀ o, mentions n o → api o) → exact m n → view_ok (apply_notification key_of m n).
Proof.
  intros Hm Ha. destruct n as [x y|x|x]; simpl.
  - intros (o & o' & -> & -> & Hk & _). simpl. intros k z [[<- <-]|[_ Hz]]%lookup_insert_Some; [|by apply Hm].
    exists o'. split_and!; try done. apply Ha. by right.
  - intros (o & -> & _). simpl. intros k z [[<- <-]|[_ Hz]]%lookup_insert_Some; [|by apply Hm].
    exists o. split_and!; try done. by apply Ha.
  - intros (o & o' & _ & -> & _). intros k z [_ Hz]%lookup_delete_Some. by apply Hm.
Qed.

Lemma view_ok_stream s : ∀ m,
  view_ok m → (∀ n o, n ∈ s → mentions n o → api o) → exact_stream m s →
  view_ok (foldl (apply_notification key_of) m s).
Proof.
  induction s as [|n s IH]; intros m Hm Ha He; [done|]. destruct He as [Hn He]. simpl. apply IH; [|..|done].
  - apply view_ok_apply; [done| |done]. intros o. apply Ha. by left.
  - intros n' o Hin. apply Ha. by right.
Qed.

Lemma similar_eq k x y o :
  versioned → x = Live o → key o = k → api o → stored key_of k y → (∀ o', y = Live o' → api o') →
  similar resourceVersion x y → y = Live o.
Proof.
  intros Hv -> Hk Ho [Hky Hl] Ha [<-|Hs]; [done|]. destruct y as [o'|? ?]; [|done]. simpl in Hs, Hky.
  apply String.eqb_eq in Hs. f_equal. symmetry. apply Hv; auto. injection Hky. congruence.
Qed.

(** What an informer sends is exact, on versioned objects and where the
    deletions are fresh. *)
Lemma stream_exact s : ∀ m,
  versioned → view_ok m → (∀ n o, n ∈ s → mentions n o → api o) →
  stream_ok key_of resourceVersion m s → fresh_deletions m s → exact_stream m s.
Proof.
  induction s as [|n s IH]; intros m Hv Hm Ha Hs Hf; [done|]. destruct Hs as [Hn Hs], Hf as [Hfn Hf].
  assert (exact m n) as He.
  { assert (∀ o, mentions n o → api o) as Han by (intros o; apply Ha; by left).
    destruct n as [x y|x|x]; simpl in Hn, Hfn, Han |- *.
    - destruct Hn as (k & z & [Hy Hly] & Hx & Hz & Hsim). destruct y as [o'|? ?]; [|done]. injection Hy as Hy.
      destruct (Hm k z Hz) as (o & Hzo & Hko & Ho).
      assert (x = Live o) as ->. { eapply (similar_eq k z); try done. intros o1 ->. apply Han. by left. }
      exists o, o'. split_and!; [done|done|congruence|by rewrite Hko, Hz, Hzo].
    - destruct Hn as (k & [Hx Hl] & Hk). destruct x as [o|? ?]; [|done]. injection Hx as <-. by exists o.
    - destruct Hn as (k & Hx & [z Hz]). destruct (Hm k z Hz) as (o & -> & <- & Ho).
      destruct (Hfn _ _ Hx Hz) as (o' & Ho' & Hfr). by exists o, o'. }
  split; [done|]. apply IH; try done.
  - apply view_ok_apply; [done| |done]. intros o. apply Ha. by left.
  - intros n' o Hin. apply Ha. by right.
Qed.
End Exact.

(** ** Events *)

Definition fresh_pod (p p' : Pod) : Prop := pod_UID p' = pod_UID p ∧ pod_NodeName p' = pod_NodeName p.

Local Abbreviation pod_note := (notification (Obj := Pod)).
Local Abbreviation node_note := (notification (Obj := Node)).

Inductive sched_event :=
| SPod (n : pod_note) (now : Z)
| SNode (n : node_note) (now : Z)
| SQueuePod (n : pod_note) (now : Z) (ref : nat)
| SOther (e : other_event) (now : Z)
| SCache (ev : CacheEvents.event)
| SQueue (e : QueueEvents.event).

(** The notifications the two listeners of the cache have handled. *)
Definition pod_notes : list sched_event → list pod_note :=
  omap (λ e, match e with SPod n _ => Some n | _ => None end).
Definition node_notes : list sched_event → list node_note :=
  omap (λ e, match e with SNode n _ => Some n | _ => None end).

(** What the handlers do to the cache and to the queue. *)
Definition pod_cache_events (n : pod_note) : list CacheEvents.event :=
  match n with
  | addNotification (Live p) => if assignedPod p then [EvAdd p] else []
  | updateNotification (Live p) (Live p') =>
      match assignedPod p', assignedPod p with
      | true, true => if (pod_UID p =? pod_UID p')%string then [EvUpdate p p'] else [EvRemove p; EvAdd p']
      | true, false => [EvAdd p']
      | false, true => [EvRemove p]
      | false, false => []
      end
  | deleteNotification x =>
      match final_object x with Some p => if assignedPod p then [EvRemove p] else [] | None => [] end
  | _ => []
  end.

Definition pod_queue_events (n : pod_note) (now : Z) : list QueueEvents.event :=
  match n with
  | addNotification (Live p) => if assignedPod p then [EAssignedAdd p now] else []
  | updateNotification (Live p) (Live p') =>
      match assignedPod p', assignedPod p with
      | true, true => if (pod_UID p =? pod_UID p')%string then [EAssignedUpdate p' now]
                      else [EMoveAll "AssignedPodDelete" now; EAssignedAdd p' now]
      | true, false => [EAssignedAdd p' now]
      | false, true => [EMoveAll "AssignedPodDelete" now]
      | false, false => []
      end
  | deleteNotification x =>
      match final_object x with
      | Some p => if assignedPod p then [EMoveAll "AssignedPodDelete" now] else []
      | None => []
      end
  | _ => []
  end.

Definition node_cache_events (n : node_note) : list CacheEvents.event :=
  match n with
  | addNotification (Live x) => [EvAddNode x]
  | updateNotification (Live x) (Live x') => [EvUpdateNode x x']
  | deleteNotification x => match final_object x with Some x => [EvRemoveNode x] | None => [] end
  | _ => []
  end.

Definition node_queue_events (n : node_note) (now : Z) : list QueueEvents.event :=
  match n with
  | addNotification (Live x) => [EMoveAll "NodeAdd" now]
  | updateNotification (Live x) (Live x') =>
      let event := nodeSchedulingPropertiesChange x' x in
      if (event =? EmptyString)%string then [] else [EMoveAll event now]
  | _ => []
  end.

(** ** The mirror *)

(** What the API server guarantees of the pods it serves: UIDs are unique and
    never reused, the resources, ports, overhead and affinity of a pod do not
    change, and a pod is bound once. *)
Class PodApi (api : Pod → Prop) : Prop := {
  api_uid p : api p → pod_UID p ≠ EmptyString;
  api_key p q : api p → api q → pod_UID p = pod_UID q → MetaNamespaceKeyFunc p = MetaNamespaceKeyFunc q;
  api_spec p q : api p → api q → pod_UID p = pod_UID q → same_spec p q;
  api_node p q : api p → api q → pod_UID p = pod_UID q →
    assignedPod p = true → assignedPod q = true → pod_NodeName p = pod_NodeName q;
}.

(** The added pods are the assigned pods of the stream. *)
Definition mirrors (A : gmap string (Pod * phase)) (m : gmap string (dobj Pod)) : Prop :=
  ∀ uid p, A !! uid = Some (p, Added) ↔
    pod_UID p = uid ∧ assignedPod p = true ∧ m !! MetaNamespaceKeyFunc p = Some (Live p).

Section Mirror.
Context (api : Pod → Prop) `{!PodApi api}.
Implicit Types (A : gmap string (Pod * phase)) (m : gmap string (dobj Pod)) (p o : Pod).
Local Abbreviation podKey := MetaNamespaceKeyFunc.

(** A pod the cache knows is, but for its node, one the API server has served. *)
Definition served (p : Pod) : Prop := ∃ a, api a ∧ pod_UID a = pod_UID p ∧ same_spec p a.
Definition all_served A : Prop := ∀ uid v, A !! uid = Some v → pod_UID v.1 = uid ∧ served v.1.

Lemma served_api p : api p → served p.
Proof. intros. by exists p. Qed.

Lemma served_same p q : served p → served q → pod_UID p = pod_UID q → same_spec p q.
Proof.
  intros (a & Ha & Hu & Hs) (b & Hb & Hv & Ht) He.
  assert (same_spec a b) by (apply api_spec; congruence). unfold same_spec in *. naive_solver congruence.
Qed.

Lemma view_live m o p : m !! podKey o = Some (Live o) → podKey p = podKey o → m !! podKey p = Some (Live p) → p = o.
Proof. intros Ho -> Hp. rewrite Ho in Hp. by injection Hp. Qed.

Lemma view_api m p : view_ok podKey api m → m !! podKey p = Some (Live p) → api p.
Proof. intros Hm Hp. destruct (Hm _ _ Hp) as (o & [= <-] & _ & Ho). done. Qed.

Lemma mirror_there A m o :
  mirrors A m → m !! podKey o = Some (Live o) → assignedPod o = true → A !! pod_UID o = Some (o, Added).
Proof. intros HA Ho Ha. by apply HA. Qed.

Lemma mirror_new A m p q :
  mirrors A m → view_ok podKey api m → api p → m !! podKey p = None → A !! pod_UID p ≠ Some (q, Added).
Proof.
  intros HA Hm Hp Hn (Hu & _ & Hq)%HA. pose proof (view_api _ _ Hm Hq) as Hapi.
  rewrite (api_key q p) in Hq; congruence.
Qed.

Lemma mirror_remove A m o :
  mirrors A m → view_ok podKey api m → m !! podKey o = Some (Live o) →
  mirrors (delete (pod_UID o) A) (delete (podKey o) m).
Proof.
  intros HA Hm Ho uid p. rewrite !lookup_delete_Some, (HA uid p). split.
  - intros [Hne (Hu & Ha & Hp)]. split_and!; try done. intros He. apply Hne. rewrite <- Hu.
    by rewrite (view_live m o p Ho).
  - intros (Hu & Ha & Hne & Hp). split; [|done]. intros <-. apply Hne.
    apply api_key; [by eapply view_api..|done].
Qed.

Lemma mirror_drop A m o :
  mirrors A m → m !! podKey o = Some (Live o) → assignedPod o = false → mirrors A (delete (podKey o) m).
Proof.
  intros HA Ho Hun uid p. rewrite (HA uid p), lookup_delete_Some. split; [|tauto].
  intros (Hu & Ha & Hp). split_and!; try done. intros He. assert (p = o) by by eapply view_live. congruence.
Qed.

Lemma mirror_add A m p :
  mirrors A m → view_ok podKey api m → api p → assignedPod p = true → m !! podKey p = None →
  mirrors (<[pod_UID p := (p, Added)]> A) (<[podKey p := Live p]> m).
Proof.
  intros HA Hm Hp Ha Hn uid q. rewrite !lookup_insert_Some. split.
  - intros [[<- [= <-]]|[Hne (Hu & Hq & Hmq)%HA]]; [by split_and!; auto|].
    split_and!; try done. right. split; [congruence|done].
  - intros (Hu & Hq & [[Hk [= <-]]|[Hk Hmq]]); [by left|]. right. split; [|by apply HA].
    intros <-. apply Hk. apply api_key; [done|by eapply view_api|done].
Qed.

Lemma mirror_skip A m p :
  mirrors A m → assignedPod p = false → m !! podKey p = None → mirrors A (<[podKey p := Live p]> m).
Proof.
  intros HA Ha Hn uid q. rewrite (HA uid q), lookup_insert_Some. split.
  - intros (Hu & Hq & Hmq). split_and!; try done. right. split; [congruence|done].
  - intros (Hu & Hq & [[_ [= <-]]|[_ Hmq]]); [congruence|done].
Qed.

(** The scheduling cycle's operations on the cache leave the added pods alone. *)
Definition cycle_event (ev : CacheEvents.event) : Prop :=
  match ev with
  | EvAssume pod | EvForget pod => served pod
  | EvFinish _ _ | EvCleanup _ _ | EvTick _ => True
  | _ => False
  end.

Lemma cycle_added ttl ev A uid p :
  cycle_event ev → (CacheEvents.spec_step ttl ev A).1 !! uid = Some (p, Added) ↔ A !! uid = Some (p, Added).
Proof.
  intros Hev. destruct ev as [pod|pod now|pod| | | |now keys| | | |n]; try done; simpl.
  - destruct (GetPodKey pod) as [k|]; [|done]. destruct (A !! k) as [v|] eqn:Hk; [done|]. simpl.
    destruct (decide (uid = k)) as [->|Hne]; [rewrite lookup_insert_eq; naive_solver|by rewrite lookup_insert_ne].
  - destruct (GetPodKey pod) as [k|]; [|done]. destruct (A !! k) as [[q []]|] eqn:Hk; try done. simpl.
    destruct (decide (uid = k)) as [->|Hne]; [rewrite lookup_insert_eq; naive_solver|by rewrite lookup_insert_ne].
  - destruct (GetPodKey pod) as [k|]; [|done]. destruct (A !! k) as [[q []]|] eqn:Hk; try done.
    case_bool_decide; [|done]. simpl.
    destruct (decide (uid = k)) as [->|Hne]; [rewrite lookup_delete_eq; naive_solver|by rewrite lookup_delete_ne].
  - rewrite map_lookup_filter_Some. simpl. unfold expired. simpl. tauto.
Qed.

Lemma cycle_served ttl ev A : cycle_event ev → all_served A → all_served (CacheEvents.spec_step ttl ev A).1.
Proof.
  intros Hev HA. destruct ev as [pod|pod now|pod| | | |now keys| | | |n]; try done; simpl.
  - pose proof (GetPodKey_spec pod) as Hk. destruct (GetPodKey pod) as [k|]; [|done]. destruct Hk as [-> _].
    destruct (A !! pod_UID pod) as [v|]; [done|]. cbn [fst]. intros uid v [[<- <-]|[_ Hv]]%lookup_insert_Some; [done|by apply HA].
  - destruct (GetPodKey pod) as [k|]; [|done]. destruct (A !! k) as [[q []]|] eqn:Hk; try done.
    cbn [fst]. intros uid v [[<- <-]|[_ Hv]]%lookup_insert_Some; [by apply HA in Hk|by apply HA].
  - destruct (GetPodKey pod) as [k|]; [|done]. destruct (A !! k) as [[q []]|] eqn:Hk; try done.
    case_bool_decide; [|done]. cbn [fst]; intros uid v [_ Hv]%lookup_delete_Some. by apply HA.
  - intros uid v [Hv _]%map_lookup_filter_Some. by apply HA.
Qed.
End Mirror.

(** No pod becomes assumed. *)
Definition follows (c c' : schedulerCache) : Prop :=
  evolves c c' ∧
  ∀ uid p, abs c' !! uid = Some (p, Assumed None) → abs c !! uid = Some (p, Assumed None).

#[export] Instance follows_preorder : PreOrder follows.
Proof.
  split; [intros c; split; [reflexivity|done]|]. intros c1 c2 c3 [H1 H2] [H3 H4]. split; [by etrans|eauto].
Qed.

Definition assumes (ev : CacheEvents.event) : bool := match ev with EvAssume _ => true | _ => false end.

Lemma spec_assumed ttl ev A uid p :
  assumes ev = false → (CacheEvents.spec_step ttl ev A).1 !! uid = Some (p, Assumed None) →
  A !! uid = Some (p, Assumed None).
Proof.
  intros Hev. destruct ev; try done; simpl.
  - destruct (GetPodKey pod) as [k|]; [|done]. destruct (A !! k) as [[q []]|]; try done. simpl.
    intros [[_ [=]]|[_ ?]]%lookup_insert_Some. done.
  - destruct (GetPodKey pod) as [k|]; [|done]. destruct (A !! k) as [[q []]|]; try done. case_bool_decide; [|done].
    simpl. by intros [_ ?]%lookup_delete_Some.
  - destruct (GetPodKey pod) as [k|]; [|done].
    destruct (A !! k) as [[q []]|]; try done; simpl; intros [[_ [=]]|[_ ?]]%lookup_insert_Some; done.
  - destruct (GetPodKey oldPod) as [k|]; [|done]. destruct (A !! k) as [[q []]|]; try done. simpl.
    intros [[_ [=]]|[_ ?]]%lookup_insert_Some. done.
  - destruct (GetPodKey pod) as [k|]; [|done]. destruct (A !! k) as [[q []]|]; try done. simpl.
    by intros [_ ?]%lookup_delete_Some.
  - by intros [? _]%map_lookup_filter_Some.
Qed.

Section Events.
Context (lsci overhead : bool) (ttl : Z).
Context (lessFn : QueuedPodInfo → QueuedPodInfo → bool) `{!StrictWeakOrder lessFn}.
Context (initial maximum : Z) (clusterEventMap : list (ClusterEvent * gset string)).
Context (nsSelectorEnabled : bool) (namespaceLabels : string → Labels).
Context (range : gmap string QueuedPodInfo → list string).
Context (ra rb ru : option Z).
Context (range_keys : ∀ m, range m ≡ₚ (map_to_list m).*1).
Context (api : Pod → Prop) `{!PodApi api}.

Local Abbreviation cache_exec := (CacheEvents.exec lsci overhead ttl).
Local Abbreviation queue_exec :=
  (QueueEvents.exec lessFn initial maximum clusterEventMap nsSelectorEnabled namespaceLabels range).
Local Abbreviation queue_inv := (queue_inv lessFn initial maximum ra rb ru).
Local Abbreviation podHandler :=
  (cachePodHandler lsci overhead lessFn initial maximum clusterEventMap nsSelectorEnabled namespaceLabels range).
Local Abbreviation nodeHandler := (nodeHandler lsci overhead lessFn initial maximum clusterEventMap range).
Local Abbreviation queueHandler := (queuePodHandler lessFn initial maximum).

(** [None] where the fuel of the queue's flush loop runs out. *)
Definition sched_exec (e : sched_event) (s : Scheduler) : option (outcome Scheduler) :=
  match e with
  | SPod n now => Some (handle (podHandler now) n s)
  | SNode n now => Some (handle (nodeHandler now) n s)
  | SQueuePod n now ref => Some (handle (queueHandler (Profiles s) now ref) n s)
  | SOther o now => Some (Ret (onOther lessFn initial maximum clusterEventMap range o now s))
  | SCache ev => Some ('(c, _) ← cache_exec ev (SchedulerCache s); Ret (set_cache s c))
  | SQueue e =>
      match queue_exec e (SchedulingQueue s) with
      | None => None
      | Some r => Some ('(q, _) ← r; Ret (set_queue s q))
      end
  end.

(** Sequences of events of the two parts. *)
Fixpoint cache_run (evs : list CacheEvents.event) (c : schedulerCache) : outcome schedulerCache :=
  match evs with
  | [] => Ret c
  | ev :: evs => '(c, _) ← cache_exec ev c; cache_run evs c
  end.

Definition queue_moves (e : QueueEvents.event) : bool :=
  match e with EMoveAll _ _ | EAssignedAdd _ _ | EAssignedUpdate _ _ => true | _ => false end.

Definition queue_run (es : list QueueEvents.event) (q : PriorityQueue) : PriorityQueue :=
  foldl (λ q e, match queue_exec e q with Some (Ret (q', _)) => q' | _ => q end) q es.

Lemma queue_run_inv es : ∀ q, forallb queue_moves es = true → queue_inv q → queue_inv (queue_run es q).
Proof.
  induction es as [|e es IH]; intros q He Hq; [done|]. apply andb_true_iff in He as [He Hes]. simpl.
  assert (QueueEvents.coherent q e) as Hco by by destruct e.
  destruct (queue_event_step lessFn initial maximum clusterEventMap nsSelectorEnabled namespaceLabels range ra rb ru
    range_keys q e Hq Hco) as (q' & a & -> & Hq' & _). by apply IH.
Qed.

Lemma pod_queue_moves n now : forallb queue_moves (pod_queue_events n now) = true.
Proof. destruct n as [[] []|[]|x]; simpl; try done; repeat case_match; done. Qed.

Lemma node_queue_moves n now : forallb queue_moves (node_queue_events n now) = true.
Proof. destruct n as [[] []|[]|x]; simpl; try done; repeat case_match; done. Qed.

(** Only deletions may lack the object. *)
Definition live_note {Obj} (n : notification (Obj := Obj)) : bool :=
  match n with
  | addNotification x => is_live x
  | updateNotification x y => is_live x && is_live y
  | deleteNotification _ => true
  end.

Lemma exact_live {Obj} key (fresh : Obj → Obj → Prop) m n : exact key fresh m n → live_note n = true.
Proof. destruct n; simpl; [by intros (? & ? & -> & -> & _)|by intros (? & -> & _)|done]. Qed.

Definition run_both (evs : list CacheEvents.event) (es : list QueueEvents.event) (s : Scheduler) : outcome Scheduler :=
  c ← cache_run evs (SchedulerCache s);
  Ret (mkScheduler c (queue_run es (SchedulingQueue s)) (Profiles s)).

Lemma run_both_nil s : Ret s = run_both [] [] s.
Proof. by destruct s. Qed.

(** The handler of the pods is these events. *)
Lemma podHandler_runs n now s :
  live_note n = true → handle (podHandler now) n s = run_both (pod_cache_events n) (pod_queue_events n now) s.
Proof.
  unfold run_both. destruct n as [[p|] [p'|]|[p|]|x]; simpl; intros Hl; try done.
  - unfold Filtering_OnUpdate, scheduled_filter. simpl.
    destruct (assignedPod p'), (assignedPod p); simpl; [|..|apply run_both_nil].
    + unfold updatePodInCache, deletePodFromCache, addPodToCache. simpl. destruct (String.eqb_spec (pod_UID p) (pod_UID p')) as [Hu|Hu]; simpl.
      * by destruct (UpdatePod _ _ _ _ _) as [[c ok]|].
      * destruct (RemovePod _ _ _ _) as [[c ok]|]; [|done]. simpl. by destruct (AddPod _ _ _ _) as [[c' ok']|].
    + unfold addPodToCache. simpl. by destruct (AddPod _ _ _ _) as [[c' ok']|].
    + unfold deletePodFromCache. simpl. by destruct (RemovePod _ _ _ _) as [[c' ok']|].
  - unfold scheduled_filter. simpl. destruct (assignedPod p); simpl; [|apply run_both_nil].
    unfold addPodToCache. simpl. by destruct (AddPod _ _ _ _) as [[c' ok']|].
  - unfold scheduled_filter, deletePodFromCache. destruct (final_object x) as [p|]; [|apply run_both_nil].
    destruct (assignedPod p); simpl; [|apply run_both_nil]. by destruct (RemovePod _ _ _ _) as [[c' ok']|].
Qed.

Lemma nodeHandler_runs n now s :
  live_note n = true → handle (nodeHandler now) n s = run_both (node_cache_events n) (node_queue_events n now) s.
Proof.
  unfold run_both. destruct n as [[p|] [p'|]|[p|]|x]; simpl; intros Hl; try done.
  - unfold updateNodeInCache. simpl. destruct (UpdateNode _ _ _ _ _) as [c|]; [|done]. simpl.
    by destruct (_ =? _)%string.
  - unfold deleteNodeFromCache. destruct (final_object x) as [o|]; [|apply run_both_nil]. simpl.
    by destruct (RemoveNode _ _) as [c ok].
Qed.

(** The queue's handler is at most one event of the queue, and a signal to a
    waiting pod. *)
Definition queue_pod_event (s : Scheduler) (n : pod_note) (now : Z) (ref : nat) : option QueueEvents.event :=
  match n with
  | addNotification x =>
      if unscheduled_filter (Profiles s) x then (λ p, EAdd p now ref) <$> live_object x else None
  | updateNotification x y =>
      match unscheduled_filter (Profiles s) y, unscheduled_filter (Profiles s) x with
      | true, true =>
          p ← live_object x; p' ← live_object y;
          if (pod_ResourceVersion p =? pod_ResourceVersion p')%string || skipPodUpdate s p' then None
          else Some (EUpdate p p' now ref)
      | true, false => (λ p, EAdd p now ref) <$> live_object y
      | false, true => EDelete <$> final_object x
      | false, false => None
      end
  | deleteNotification x => if unscheduled_filter (Profiles s) x then EDelete <$> final_object x else None
  end.

Lemma queueHandler_runs n now ref s :
  live_note n = true →
  match queue_pod_event s n now ref with
  | None => handle (queueHandler (Profiles s) now ref) n s = Ret s
  | Some e =>
      ∀ q a, queue_exec e (SchedulingQueue s) = Some (Ret (q, a)) →
        ∃ profiles, handle (queueHandler (Profiles s) now ref) n s = Ret (mkScheduler (SchedulerCache s) q profiles)
  end.
Proof.
  assert (∀ x p q a, final_object x = Some p → queue_exec (EDelete p) (SchedulingQueue s) = Some (Ret (q, a)) →
    ∃ profiles, deletePodFromSchedulingQueue lessFn initial maximum x s =
      Ret (mkScheduler (SchedulerCache s) q profiles)) as Hdel.
  { intros x p q a Hx. unfold deletePodFromSchedulingQueue. rewrite Hx. simpl.
    destruct (SchedQueue.Delete _ _ _ _ _) as [q'|]; intros [= <- <-]. simpl.
    destruct (Profiles s !! pod_SchedulerName p); by eexists. }
  assert (∀ p q a, queue_exec (EAdd p now ref) (SchedulingQueue s) = Some (Ret (q, a)) →
    ∃ profiles, addPodToSchedulingQueue lessFn initial maximum now ref (Live p) s =
      Ret (mkScheduler (SchedulerCache s) q profiles)) as Hadd.
  { intros p q a. unfold addPodToSchedulingQueue. simpl.
    destruct (SchedQueue.Add _ _ _ _ _ _) as [[q' ok]|]; intros [= <- <-]. by eexists. }
  destruct n as [[p|] [p'|]|[p|]|x]; intros Hl; try done; cbn [queue_pod_event handle queuePodHandler
    FilteringResourceEventHandler OnAdd OnUpdate OnDelete].
  - unfold Filtering_OnUpdate. destruct (unscheduled_filter _ (Live p')), (unscheduled_filter _ (Live p)); simpl; eauto.
    unfold updatePodInSchedulingQueue. cbn [live_object mbind option_bind]. destruct (_ =? _)%string; cbn [orb]; [done|].
    destruct (skipPodUpdate s p'); [done|]. intros q a. cbn [QueueEvents.exec].
    destruct (SchedQueue.Update _ _ _ _ _ _ _ _) as [[q' ok]|]; intros [= <- <-]. by eexists.
  - destruct (unscheduled_filter _ _); simpl; eauto.
  - destruct (unscheduled_filter _ x) eqn:Hu; simpl; [|done]. unfold unscheduled_filter in Hu.
    destruct (final_object x) as [p|] eqn:Hx; [|done]. simpl. eauto.
Qed.

(** ** The pods' listener *)

Local Abbreviation podKey := MetaNamespaceKeyFunc.

Definition good (c : schedulerCache) (m : gmap string (dobj Pod)) : Prop :=
  cache_inv lsci overhead c ∧ all_served api (abs c) ∧ mirrors (abs c) m.

(** The events lead from [c] to a cache that mirrors [m]. *)
Definition leads (c : schedulerCache) (evs : list CacheEvents.event) (m : gmap string (dobj Pod)) : Prop :=
  ∃ c', cache_run evs c = Ret c' ∧ good c' m ∧ generation c' ≤ generation c + 3 * Z.of_nat (length evs) ∧
    (∀ y, live (infos c') y = live (infos c) y) ∧ follows c c'.

Lemma leads_nil c m : good c m → leads c [] m.
Proof. intros. exists c. split_and!; [done|done|simpl; lia|done|done]. Qed.

Lemma follows_step c ev c' ok :
  evolves c c' → CacheEvents.spec_step ttl ev (abs c) = (abs c', ok) → assumes ev = false → follows c c'.
Proof.
  intros Hev Hst Has. split; [done|]. intros uid p Hp. apply (spec_assumed ttl ev); [done|]. by rewrite Hst.
Qed.

Lemma leads_one ev c m :
  cache_inv lsci overhead c → CacheEvents.coherent c ev → headroom c ev → pod_event ev → assumes ev = false → cost ev = 3 →
  all_served api (CacheEvents.spec_step ttl ev (abs c)).1 → mirrors (CacheEvents.spec_step ttl ev (abs c)).1 m →
  leads c [ev] m.
Proof.
  intros Hinv Hco Hh Hp Has Hcost Hs Hm.
  destruct (event_step lsci overhead ttl c ev Hinv Hco Hh) as (c' & ok & He & Hinv' & Hst & Hl & Hev & Hg).
  pose proof (follows_step _ _ _ _ Hev Hst Has) as Hf.
  rewrite Hst in Hs, Hm. exists c'. simpl. rewrite He. split; [done|]. split; [done|]. split; [simpl; lia|]. split; [|done].
  intros y. by rewrite Hl, nodes_after_pod.
Qed.

Lemma leads_app c evs1 evs2 m1 m2 :
  leads c evs1 m1 →
  (∀ c1, good c1 m1 → generation c1 ≤ generation c + 3 * Z.of_nat (length evs1) → leads c1 evs2 m2) →
  leads c (evs1 ++ evs2) m2.
Proof.
  intros (c1 & He1 & H1 & Hg1 & Hl1 & Hv1) H2. destruct (H2 c1 H1 Hg1) as (c2 & He2 & Hgood & Hg2 & Hl2 & Hv2).
  exists c2. split; [|split; [done|]; split; [rewrite length_app; lia|]; split; [intros y; by rewrite Hl2|by etrans]].
  clear -He1 He2. revert c He1. induction evs1 as [|ev evs1 IH]; intros c He1; simpl in *; [by injection He1 as ->|].
  destruct (cache_exec ev c) as [[c' ok]|]; [|done]. simpl in *. by apply IH.
Qed.

Lemma GetPodKey_uid p : pod_UID p ≠ EmptyString → GetPodKey p = Some (pod_UID p).
Proof. unfold GetPodKey. by destruct (pod_UID p). Qed.

Lemma abs_added c k s : podStates c !! k = Some s → k ∉ assumedPods c → abs c !! k = Some (ps_pod s, Added).
Proof. intros Hs Hk. by rewrite abs_lookup, Hs, <- (phase_out _ _ s Hk). Qed.

Lemma abs_known c k s : podStates c !! k = Some s → ∃ ph, abs c !! k = Some (ps_pod s, ph).
Proof. intros Hs. rewrite abs_lookup, Hs. by eexists. Qed.

Lemma leads_add c m p :
  good c m → view_ok podKey api m → api p → assignedPod p = true → m !! podKey p = None →
  generation c + 3 ≤ max_int64 → leads c [EvAdd p] (<[podKey p := Live p]> m).
Proof.
  intros (Hinv & HA & Hmir) Hm Hp Ha Hn Hg.
  assert (CacheEvents.spec_step ttl (EvAdd p) (abs c) = (<[pod_UID p := (p, Added)]> (abs c), true)) as Hst.
  { simpl. rewrite GetPodKey_uid by (by apply (api_uid p)).
    destruct (abs c !! pod_UID p) as [[q []]|] eqn:Hq; try done. by apply (mirror_new api _ m) in Hq. }
  apply leads_one; try done; [|rewrite Hst; simpl..].
  - simpl. intros s (ph & Hs)%abs_known. apply HA in Hs as [Hu Hs]. simpl in *.
    apply (served_same api); [by apply served_api|done|done].
  - intros uid v [[<- <-]|[_ Hv]]%lookup_insert_Some; [split; [done|by apply served_api]|by apply HA].
  - by apply (mirror_add api).
Qed.

Lemma leads_remove c m o p :
  good c m → view_ok podKey api m → m !! podKey o = Some (Live o) → assignedPod o = true → fresh_pod o p →
  generation c + 3 ≤ max_int64 → leads c [EvRemove p] (delete (podKey o) m).
Proof.
  intros (Hinv & HA & Hmir) Hm Ho Ha [Hu Hx] Hg.
  pose proof (mirror_there _ _ _ Hmir Ho Ha) as Hthere. pose proof (view_api api _ _ Hm Ho) as Hapi.
  assert (CacheEvents.spec_step ttl (EvRemove p) (abs c) = (delete (pod_UID o) (abs c), true)) as Hst.
  { simpl. rewrite GetPodKey_uid, Hu, Hthere by (rewrite Hu; by apply (api_uid o)). done. }
  apply leads_one; try done; [|rewrite Hst; simpl..].
  - simpl. intros s Hs Hk. apply (abs_added _ _ _ Hs) in Hk. rewrite Hu, Hthere in Hk. injection Hk as <-. done.
  - intros uid v [_ Hv]%lookup_delete_Some. by apply HA.
  - by apply (mirror_remove api).
Qed.

Lemma leads_update c m o p :
  good c m → view_ok podKey api m → m !! podKey o = Some (Live o) → podKey p = podKey o → api p →
  assignedPod o = true → assignedPod p = true → pod_UID o = pod_UID p →
  generation c + 3 ≤ max_int64 → leads c [EvUpdate o p] (<[podKey p := Live p]> m).
Proof.
  intros (Hinv & HA & Hmir) Hm Ho Hk Hp Hao Hap Hu Hg.
  pose proof (mirror_there _ _ _ Hmir Ho Hao) as Hthere. pose proof (view_api api _ _ Hm Ho) as Hapi.
  assert (CacheEvents.spec_step ttl (EvUpdate o p) (abs c) = (<[pod_UID p := (p, Added)]> (abs c), true)) as Hst.
  { simpl. rewrite GetPodKey_uid, Hthere by (by apply (api_uid o)). by rewrite Hu. }
  apply leads_one; try done; [|rewrite Hst; simpl..].
  - simpl. intros s Hs Hks. apply (abs_added _ _ _ Hs) in Hks. rewrite Hthere in Hks. injection Hks as Heq.
    rewrite <- Heq. split_and!; try done. by apply (api_node p o).
  - intros uid v [[<- <-]|[_ Hv]]%lookup_insert_Some; [split; [done|by apply served_api]|by apply HA].
  - rewrite <- insert_delete_eq, <- (insert_delete_eq m). apply (mirror_add api); try done.
    + rewrite Hk, <- Hu. by apply (mirror_remove api).
    + intros k x [_ Hx]%lookup_delete_Some. by apply Hm.
    + apply lookup_delete_eq.
Qed.

Lemma view_ok_delete m k : view_ok podKey api m → view_ok podKey api (delete k m).
Proof. intros Hm k' x [_ Hx]%lookup_delete_Some. by apply Hm. Qed.

Lemma leads_replace c m o p :
  good c m → view_ok podKey api m → m !! podKey o = Some (Live o) → podKey p = podKey o → api p →
  generation c + 6 ≤ max_int64 →
  leads c (pod_cache_events (updateNotification (Live o) (Live p))) (<[podKey p := Live p]> m).
Proof.
  intros Hc Hm Ho Hk Hp Hg. pose proof (view_ok_delete m (podKey p) Hm) as Hm'.
  assert (delete (podKey p) m !! podKey p = None) as Hn by apply lookup_delete_eq.
  assert (assignedPod o = false → good c (delete (podKey p) m)) as Hdrop.
  { intros Ha. destruct Hc as (H1 & H2 & H3). split_and!; [done|done|]. rewrite Hk. by apply mirror_drop. }
  simpl. rewrite <- insert_delete_eq. destruct (assignedPod p) eqn:Hap, (assignedPod o) eqn:Hao; simpl.
  - destruct (String.eqb_spec (pod_UID o) (pod_UID p)) as [Hu|Hu].
    { rewrite insert_delete_eq. apply (leads_update c m o p); try done. lia. }
    apply (leads_app c [EvRemove o] [EvAdd p] (delete (podKey p) m)).
    + rewrite Hk. apply leads_remove; try done. lia.
    + intros c1 H1 Hg1. simpl in Hg1. apply leads_add; try done. lia.
  - apply leads_add; try done; [by apply Hdrop|lia].
  - apply (leads_app c [EvRemove o] [] (delete (podKey p) m)).
    + rewrite Hk. apply leads_remove; try done. lia.
    + intros c1 (H1 & H2 & H3) _. apply leads_nil. split_and!; [done|done|by apply mirror_skip].
  - destruct (Hdrop eq_refl) as (H1 & H2 & H3). apply leads_nil. split_and!; [done|done|by apply mirror_skip].
Qed.

(** The cache follows the stream. *)
Lemma leads_note c m n :
  good c m → view_ok podKey api m → exact podKey fresh_pod m n → (∀ o, mentions n o → api o) →
  generation c + 6 ≤ max_int64 → leads c (pod_cache_events n) (apply_notification (key_of podKey) m n).
Proof.
  intros Hc Hm Hn Ha Hg. destruct n as [x y|x|x]; simpl in Hn, Ha.
  - destruct Hn as (o & p & -> & -> & Hk & Ho). apply (leads_replace c m o p); try done. apply Ha. by right.
  - destruct Hn as (p & -> & Hn). simpl. destruct (assignedPod p) eqn:Hap.
    + apply leads_add; try done; [by apply Ha|lia].
    + destruct Hc as (H1 & H2 & H3). apply leads_nil. split_and!; [done|done|by apply mirror_skip].
  - destruct Hn as (o & p & Hx & Hk & Ho & Hf). simpl. rewrite Hx, Hk. destruct Hf as [Hu Hnode].
    assert (assignedPod p = assignedPod o) as -> by (unfold assignedPod; by rewrite Hnode).
    destruct (assignedPod o) eqn:Hao; [apply leads_remove; try done; lia|].
    destruct Hc as (H1 & H2 & H3). apply leads_nil. split_and!; [done|done|by apply mirror_drop].
Qed.

(** ** The nodes' listener *)

Definition node_view (c : schedulerCache) (m : gmap string (dobj Node)) : Prop :=
  ∀ x, live (infos c) x = m !! x ≫= live_object.

Lemma node_note_step c m mn n :
  good c m → node_view c mn → exact node_Name (λ o o', o' = o) mn n → generation c + 3 ≤ max_int64 →
  ∃ c', cache_run (node_cache_events n) c = Ret c' ∧ good c' m ∧
    node_view c' (apply_notification (key_of node_Name) mn n) ∧ follows c c'.
Proof.
  intros (Hinv & HA & Hm) Hv Hn Hg.
  assert (∃ ev, node_cache_events n = [ev] ∧ CacheEvents.coherent c ev ∧ cost ev = 3 ∧ assumes ev = false ∧
    (∀ A, CacheEvents.spec_step ttl ev A = (A, true)) ∧
    ∀ x, nodes_after ev (live (infos c)) x = apply_notification (key_of node_Name) mn n !! x ≫= live_object)
    as (ev & -> & Hco & Hcost & Has & Hst & Hafter).
  { destruct n as [x y|x|x]; simpl in Hn.
    - destruct Hn as (o & p & -> & -> & Hk & Ho). exists (EvUpdateNode o p). split_and!; try done; simpl.
      + by rewrite Hv, Hk, Ho.
      + intros x. case_decide as Hx; [by rewrite Hx, lookup_insert_eq|by rewrite lookup_insert_ne, Hv by done].
    - destruct Hn as (p & -> & Hn). exists (EvAddNode p). split_and!; try done; simpl.
      + by rewrite Hv, Hn.
      + intros x. case_decide as Hx; [by rewrite Hx, lookup_insert_eq|by rewrite lookup_insert_ne, Hv by done].
    - destruct Hn as (o & p & Hx & Hk & Ho & ->). exists (EvRemoveNode o). simpl. rewrite Hx, Hk.
      split_and!; try done; simpl; [by rewrite Hv, Ho|].
      intros y. case_decide as Hy; [by rewrite Hy, lookup_delete_eq|by rewrite lookup_delete_ne, Hv by done]. }
  destruct (event_step lsci overhead ttl c ev Hinv Hco) as (c' & ok & He & Hinv' & Hst' & Hl & Hev & _); [unfold headroom; lia|].
  pose proof (follows_step _ _ _ _ Hev Hst' Has) as Hf.
  rewrite Hst in Hst'. injection Hst' as Habs _. exists c'. simpl. rewrite He. split; [done|].
  split; [by unfold good; rewrite <- Habs|]. split; [|done]. intros x. by rewrite Hl, Hafter.
Qed.

(** ** The scheduler *)

Local Abbreviation pods_after := (foldl (apply_notification (key_of podKey))).
Local Abbreviation nodes_seen := (foldl (apply_notification (key_of node_Name))).

(** The clients' side: objects the API server serves, coherent operations on
    the queue, and a generation counter away from its maximum. *)
Definition allowed (s : Scheduler) (e : sched_event) : Prop :=
  match e with
  | SPod n _ => generation (SchedulerCache s) + 6 ≤ max_int64 ∧ ∀ o, mentions n o → api o
  | SNode n _ => generation (SchedulerCache s) + 3 ≤ max_int64
  | SQueuePod n now ref =>
      live_note n = true ∧
      match queue_pod_event s n now ref with
      | Some e => QueueEvents.coherent (SchedulingQueue s) e
      | None => True
      end
  | SOther _ _ => True
  | SCache ev =>
      cycle_event api ev ∧ headroom (SchedulerCache s) ev ∧
      match ev with EvCleanup _ keys => keys ≡ₚ elements (assumedPods (SchedulerCache s)) | _ => True end
  | SQueue e => QueueEvents.coherent (SchedulingQueue s) e
  end.

Definition sched_step (s : Scheduler) (e : sched_event) (s' : Scheduler) : Prop :=
  allowed s e ∧ sched_exec e s = Some (Ret s').

Record sched_inv (s : Scheduler) (mp : gmap string (dobj Pod)) (mn : gmap string (dobj Node)) : Prop := {
  si_good : good (SchedulerCache s) mp;
  si_pods : view_ok podKey api mp;
  si_nodes : node_view (SchedulerCache s) mn;
  si_queue : queue_inv (SchedulingQueue s);
}.

Local Abbreviation exact_pods := (exact_stream podKey fresh_pod).
Local Abbreviation exact_nodes := (exact_stream node_Name (λ o o', o' = o)).

Lemma queue_only s mp mn q profiles :
  sched_inv s mp mn → queue_inv q → sched_inv (mkScheduler (SchedulerCache s) q profiles) mp mn.
Proof. intros [] Hq. by split. Qed.

Lemma cycle_step s mp mn ev :
  sched_inv s mp mn → allowed s (SCache ev) →
  ∃ c' ok, cache_exec ev (SchedulerCache s) = Ret (c', ok) ∧ sched_inv (set_cache s c') mp mn ∧
    evolves (SchedulerCache s) c' ∧ CacheEvents.spec_step ttl ev (abs (SchedulerCache s)) = (abs c', ok).
Proof.
  intros [(Hinv & HA & Hm) Hp Hn Hq] (Hev & Hh & Hk).
  assert (CacheEvents.coherent (SchedulerCache s) ev) as Hco.
  { destruct ev; try done. simpl in *. intros st (ph & [Hu Hs]%HA)%abs_known. by apply (served_same api). }
  destruct (event_step lsci overhead ttl _ ev Hinv Hco Hh) as (c' & ok & He & Hinv' & Hst & Hl & Hevo & _).
  exists c', ok. split; [done|]. split; [|done]. split; try done; simpl.
  - assert (abs c' = (CacheEvents.spec_step ttl ev (abs (SchedulerCache s))).1) as Habs by by rewrite Hst.
    split_and!; [done|rewrite Habs; by apply (cycle_served api)|]. intros uid p.
    rewrite Habs, (cycle_added api) by done. apply Hm.
  - intros x. rewrite Hl, nodes_after_pod; [done|]. by destruct ev.
Qed.

Lemma queue_step_inv s mp mn e :
  sched_inv s mp mn → QueueEvents.coherent (SchedulingQueue s) e →
  ∃ q a, queue_exec e (SchedulingQueue s) = Some (Ret (q, a)) ∧ queue_inv q ∧
    QueueEvents.spec_step lessFn initial maximum clusterEventMap nsSelectorEnabled namespaceLabels
      (view_of (SchedulingQueue s)) (e, a) (view_of q).
Proof.
  intros Hs Hco. destruct (queue_event_step lessFn initial maximum clusterEventMap nsSelectorEnabled namespaceLabels range ra rb ru
    range_keys _ e (si_queue _ _ _ Hs) Hco) as (q' & a & He & Hq' & Hst). by exists q', a.
Qed.

(** Every event returns and keeps the invariant. *)
Lemma sched_event_step s mp mn e :
  sched_inv s mp mn → allowed s e → exact_pods mp (pod_notes [e]) → exact_nodes mn (node_notes [e]) →
  ∃ s', sched_exec e s = Some (Ret s') ∧ sched_inv s' (pods_after mp (pod_notes [e])) (nodes_seen mn (node_notes [e])) ∧
    evolves (SchedulerCache s) (SchedulerCache s') ∧
    ((∀ ev, e = SCache ev → assumes ev = false) → follows (SchedulerCache s) (SchedulerCache s')).
Proof.
  intros Hs Hal Hep Hen. destruct e as [n now|n now|n now ref|o now|ev|e];
    cbn [pod_notes node_notes omap list_omap foldl] in *.
  - destruct Hal as [Hg Ha], Hep as [Hep _]. simpl. rewrite podHandler_runs by by eapply exact_live.
    destruct (leads_note _ _ n (si_good _ _ _ Hs) (si_pods _ _ _ Hs) Hep Ha Hg) as (c' & Hr & Hgood & _ & Hl & Hev).
    unfold run_both. rewrite Hr. eexists. split; [done|]. split; [|split; [apply Hev|done]]. split; simpl; [done| | |].
    + by eapply view_ok_apply; [apply Hs|..].
    + intros x. rewrite Hl. apply Hs.
    + apply queue_run_inv; [apply pod_queue_moves|apply Hs].
  - destruct Hen as [Hen _]. simpl. rewrite nodeHandler_runs by by eapply exact_live.
    destruct (node_note_step _ _ _ n (si_good _ _ _ Hs) (si_nodes _ _ _ Hs) Hen Hal) as (c' & Hr & Hgood & Hv & Hev).
    unfold run_both. rewrite Hr. eexists. split; [done|]. split; [|split; [apply Hev|done]]. split; simpl; [done|apply Hs|done|].
    apply queue_run_inv; [apply node_queue_moves|apply Hs].
  - destruct Hal as [Hl Hco]. pose proof (queueHandler_runs n now ref s Hl) as Hr. simpl.
    destruct (queue_pod_event s n now ref) as [e|]; [|rewrite Hr; by eexists].
    destruct (queue_step_inv s mp mn e Hs Hco) as (q & a & He & Hq & _). destruct (Hr q a He) as [profiles ->].
    eexists. split; [done|]. split; [by apply queue_only|done].
  - eexists. split; [done|]. unfold onOther. destruct (other_name o) as [ev|]; [|done]. split; [|done]. apply queue_only; [done|].
    pose proof (queue_run_inv [EMoveAll ev now] (SchedulingQueue s) eq_refl (si_queue _ _ _ Hs)) as Hq. exact Hq.
  - destruct (cycle_step s mp mn ev Hs Hal) as (c' & ok & He & Hs' & Hev & Hst). simpl. rewrite He. eexists. split; [done|].
    split; [done|]. split; [done|]. intros Has. apply (follows_step _ ev _ ok); [done|done|by apply Has].
  - destruct (queue_step_inv s mp mn e Hs Hal) as (q & a & He & Hq & _). simpl. rewrite He.
    eexists. split; [done|]. split; [by apply queue_only|done].
Qed.

Lemma notes_cons e es :
  pod_notes (e :: es) = pod_notes [e] ++ pod_notes es ∧ node_notes (e :: es) = node_notes [e] ++ node_notes es.
Proof. unfold pod_notes, node_notes. by destruct e. Qed.

Lemma sched_trace_inv s es s' : trace sched_step s es s' → ∀ mp mn,
  sched_inv s mp mn → exact_pods mp (pod_notes es) → exact_nodes mn (node_notes es) →
  sched_inv s' (pods_after mp (pod_notes es)) (nodes_seen mn (node_notes es)).
Proof.
  induction 1 as [|s e s1 es s2 [Hal He] _ IH]; intros mp mn Hs Hp Hn; [done|].
  destruct (notes_cons e es) as [Ep En]. rewrite Ep, En in *. apply exact_app in Hp as [Hp1 Hp2], Hn as [Hn1 Hn2].
  destruct (sched_event_step s mp mn e Hs Hal Hp1 Hn1) as (s1' & He' & Hs1 & _).
  rewrite He in He'. injection He' as <-. rewrite !foldl_app. by apply IH.
Qed.

Definition new_scheduler (g : Z) (profiles : gmap string waitingPodsMap) : Scheduler :=
  mkScheduler (newSchedulerCache g) (NewPriorityQueue ra rb ru) profiles.

Lemma new_scheduler_inv g profiles : 0 ≤ g → sched_inv (new_scheduler g profiles) ∅ ∅.
Proof.
  intros Hg. split; simpl.
  - assert (abs (newSchedulerCache g) = ∅) as Habs by done.
    split_and!; [by apply new_inv|rewrite Habs; by intros uid v ?%lookup_empty_Some|].
    intros uid p. rewrite Habs, !lookup_empty. naive_solver.
  - by intros k x ?%lookup_empty_Some.
  - intros x. by rewrite lookup_empty.
  - apply new_queue_inv.
Qed.
End Events.
