(* ===== verification/SchedulerProps.v ===== *)
(** * The scheduler's cache and the API server

    What [SchedulerEvents] gives: the cache follows its listeners' streams, and
    behind an informer it converges to the assigned pods of the API server,
    unless the final state of a deletion is stale. *)

From S2P Require Import Prelude GoHeap SchedHeap Labels ApiTypes NodeInfo WaitingPods NodeTree SchedCache.
From S2P Require Import ThreadSafeStore DeltaFIFO RingGrowing Informer InformerInv InformerEvents.
From S2P Require Import CacheEvents SchedQueue QueueInv QueueEvents EventHandlers SchedulerEvents.
#[local] Open Scope Z_scope.

Section Guarantees.
Context (lsci overhead : bool) (ttl : Z).
Context (lessFn : QueuedPodInfo → QueuedPodInfo → bool) `{!StrictWeakOrder lessFn}.
Context (initial maximum : Z) (clusterEventMap : list (ClusterEvent * gset string)).
Context (nsSelectorEnabled : bool) (namespaceLabels : string → Labels).
Context (range : gmap string QueuedPodInfo → list string).
Context (ra rb ru : option Z).
Context (range_keys : ∀ m, range m ≡ₚ (map_to_list m).*1).
Context (api : Pod → Prop) `{!PodApi api}.

Local Abbreviation sched_steps := (sched_step lsci overhead ttl lessFn initial maximum clusterEventMap
  nsSelectorEnabled namespaceLabels range api).
Local Abbreviation execute := (sched_exec lsci overhead ttl lessFn initial maximum clusterEventMap
  nsSelectorEnabled namespaceLabels range).
Local Abbreviation new := (new_scheduler ra rb ru).
Local Abbreviation podKey := MetaNamespaceKeyFunc.
Local Abbreviation exact_pods := (exact_stream podKey fresh_pod ∅).
Local Abbreviation exact_nodes := (exact_stream node_Name (λ o o', o' = o) ∅).
Local Abbreviation contents := ThreadSafeStore.items.

Lemma reachable_sched_inv g profiles es s :
  0 ≤ g → exact_pods (pod_notes es) → exact_nodes (node_notes es) → trace sched_steps (new g profiles) es s →
  sched_inv lsci overhead lessFn initial maximum ra rb ru api s
    (replay (key_of podKey) (pod_notes es)) (replay (key_of node_Name) (node_notes es)).
Proof.
  intros Hg Hp Hn Ht. eapply sched_trace_inv; try done. by apply new_scheduler_inv.
Qed.


Lemma trace_mentions es : ∀ s s' n o, trace sched_steps s es s' → n ∈ pod_notes es → mentions n o → api o.
Proof.
  induction es as [|e es IH]; intros s s' n o Ht Hn Ho; [by apply not_elem_of_nil in Hn|].
  apply trace_cons_inv in Ht as (s1 & [Hal _] & Ht). rewrite (proj1 (notes_cons e es)) in Hn.
  apply elem_of_app in Hn as [Hn|Hn]; [|by eapply IH]. destruct e; cbn in Hn; try by apply not_elem_of_nil in Hn.
  apply list_elem_of_singleton in Hn as ->. by apply Hal.
Qed.

(** The listener of the pods' informer that feeds the cache has nothing to
    hand on, and the informer nothing to process. *)
Definition quiet (h : history (Obj := Pod)) (l : processorListener (Obj := Pod)) : Prop :=
  queue (fifo (h_inf h)) = [] ∧ h_ghosts h = ∅ ∧ pl_notification l = None.

Context (informer_range : gmap string (list (Delta Pod)) → list string).
Local Abbreviation informer_steps := (h_step (key_of podKey) pod_ResourceVersion informer_range).

(** What a quiet listener has handed on replays to the reflector's objects. *)
Lemma quiet_view period ixs ies h i l :
  takes_all ixs → trace informer_steps (new_history period ixs) ies h →
  listeners (processor (h_inf h)) !! i = Some l → quiet h l →
  stream_ok (key_of podKey) pod_ResourceVersion ∅ (pl_delivered l) ∧
  agrees pod_ResourceVersion (replay (key_of podKey) (pl_delivered l)) (h_truth h).
Proof.
  intros Hix Ht Hl (Hq & Hgh & Hn). pose proof (history_inv _ _ _ _ _ _ _ Hix Ht) as Hh.
  destruct (hi_views _ _ _ Hh) as [ss [(Hls & _) Hv]]. destruct (Hls i l Hl) as (pend & _ & Hp & Hs).
  rewrite Hn in Hs. rewrite Hp in Hs by done. simpl in Hs. rewrite app_nil_r in Hs.
  destruct (Hv i) as [Hok Hag]; [by eapply lookup_lt_Some|]. rewrite Hs in *. split; [done|].
  assert (contents (indexer (h_inf h)) = h_truth h) as <-; [|done]. apply map_eq. intros k.
  rewrite <- (hi_truth _ _ _ Hh k) by set_solver. unfold pending_view.
  pose proof (hi_pipe _ _ _ Hh) as [Hc _ _]. by rewrite (empty_items _ _ (pc_core _ _ _ Hc) Hq), lookup_empty.
Qed.

(** C20. The cache converges to the API server.  Suppose that a resource version
    is the version of one state of an object, that the deletions the listener of
    the cache got carried the node and the UID of the pods they deleted, and
    that the stream of the nodes is exact.  When the pods' informer has nothing
    to process, the listener of the cache nothing to hand on, and there is no
    ghost (a pod that was missing from the last list while it had changes in
    the queue but no object in the store), the pods the cache counts as added
    are exactly the assigned pods of the reflector's last list and the watch
    events since, whatever the scheduling cycle has done. *)
Theorem scheduler_cache_converges period ixs ies h i l g profiles es s :
  takes_all ixs → trace informer_steps (new_history period ixs) ies h →
  listeners (processor (h_inf h)) !! i = Some l → quiet h l →
  versioned podKey pod_ResourceVersion api → (∀ k p, h_truth h !! k = Some (Live p) → api p) →
  fresh_deletions podKey fresh_pod ∅ (pl_delivered l) →
  0 ≤ g → trace sched_steps (new g profiles) es s → pod_notes es = pl_delivered l → exact_nodes (node_notes es) →
  ∀ uid p, abs (SchedulerCache s) !! uid = Some (p, Added) ↔
    pod_UID p = uid ∧ assignedPod p = true ∧ h_truth h !! podKey p = Some (Live p).
Proof.
  intros Hix Ht Hl Hquiet Hver Hapi Hfr Hg Hts Hnotes Hn uid p.
  destruct (quiet_view period ixs ies h i l Hix Ht Hl Hquiet) as [Hok Hag].
  assert (∀ n o, n ∈ pl_delivered l → mentions n o → api o) as Hment.
  { intros n o Hin. rewrite <- Hnotes in Hin. by eapply trace_mentions. }
  assert (exact_pods (pl_delivered l)) as Hex.
  { by eapply stream_exact. }
  assert (view_ok podKey api (replay (key_of podKey) (pl_delivered l))) as Hvok.
  { by eapply view_ok_stream. }
  rewrite <- Hnotes in *. pose proof (reachable_sched_inv g profiles es s Hg Hex Hn Hts) as [(_ & _ & Hm) _ _ _].
  rewrite (Hm uid p). specialize (Hag (podKey p)). set (k := podKey p) in *.
  destruct (replay (key_of podKey) (pod_notes es) !! k) as [x|] eqn:Hx, (h_truth h !! k) as [y|] eqn:Hy; try done.
  destruct (Hvok _ _ Hx) as (o & -> & Hko & Ho).
  assert (y = Live o) as ->; [|done]. destruct Hag as [<-|Hsv]; [done|]. destruct y as [o'|]; [|done]. simpl in Hsv.
  apply String.eqb_eq in Hsv. f_equal. symmetry. apply Hver; try done; [by eapply Hapi|].
  pose proof (history_inv _ _ _ _ _ _ _ Hix Ht) as Hh. rewrite Hko. destruct Hquiet as (Hq & Hgh & _).
  rewrite <- (hi_truth _ _ _ Hh k) in Hy by set_solver. unfold pending_view in Hy.
  pose proof (hi_pipe _ _ _ Hh) as [Hc _ Hkeyed]. rewrite (empty_items _ _ (pc_core _ _ _ Hc) Hq), lookup_empty in Hy.
  destruct (Hkeyed _ _ Hy) as [Hk' _]. injection Hk'. done.
Qed.
End Guarantees.

(** ** Examples *)

Section Sample.
Local Open Scope string_scope.

Definition sample_api_pod (name version node : string) : Pod :=
  mkPod name "ns" ("uid-" +:+ name) version ∅ [mkContainer [mkPort 80 "" ""] ∅] [] None node None None EmptyString
    "default-scheduler" ∅ [] ∅ [] [] None [] None None [] "" None [].

(** Two pods, one before and after its binding. *)
Definition sample_a1 : Pod := sample_api_pod "a" "1" "".
Definition sample_a2 : Pod := sample_api_pod "a" "2" "n".
Definition sample_b : Pod := sample_api_pod "b" "3" "n".
Definition sample_api (p : Pod) : Prop := p ∈ [sample_a1; sample_a2; sample_b].

Lemma sample_api_cases p : sample_api p → p = sample_a1 ∨ p = sample_a2 ∨ p = sample_b.
Proof. unfold sample_api. rewrite !elem_of_cons, elem_of_nil. tauto. Qed.

#[local] Instance sample_PodApi : PodApi sample_api.
Proof.
  split; [intros p [-> | [-> | ->]]%sample_api_cases; done|..];
    intros p q [-> | [-> | ->]]%sample_api_cases [-> | [-> | ->]]%sample_api_cases; try done.
Qed.

Lemma sample_versioned : versioned MetaNamespaceKeyFunc pod_ResourceVersion sample_api.
Proof. intros p q [-> | [-> | ->]]%sample_api_cases [-> | [-> | ->]]%sample_api_cases; done. Qed.

Definition sample_pod_range (m : gmap string (list (Delta Pod))) : list string := (map_to_list m).*1.

(** The informer lists one pod, which is bound; another comes and goes. *)
Definition sample_informer_events : list (InformerEvents.event (Obj := Pod)) :=
  [EAddHandler 0 0; ERun; EReplace [sample_a1]; InformerEvents.EPop; InformerEvents.EUpdate sample_a2;
   InformerEvents.EAdd sample_b; InformerEvents.EPop; InformerEvents.EPop; InformerEvents.EDelete sample_b;
   InformerEvents.EPop] ++ repeat (EDispatch 0) 5.

(** The pod is bound, but before that is popped a new list no longer has it. *)
Definition stale_informer_events : list (InformerEvents.event (Obj := Pod)) :=
  [EAddHandler 0 0; ERun; EReplace [sample_a1]; InformerEvents.EPop; InformerEvents.EUpdate sample_a2;
   EReplace []; InformerEvents.EPop] ++ repeat (EDispatch 0) 5.

Local Abbreviation check_informer := (h_check (key_of MetaNamespaceKeyFunc) pod_ResourceVersion sample_pod_range).

Definition informer_after (es : list InformerEvents.event) : history (Obj := Pod) :=
  default (new_history 0 ∅) (check_informer (new_history 0 ∅) es).
Definition sample_listener (es : list InformerEvents.event) : processorListener (Obj := Pod) :=
  default (newProcessListener 0 0 0 0) (listeners (processor (h_inf (informer_after es))) !! 0%nat).

Lemma informer_after_trace es :
  bool_decide (is_Some (check_informer (new_history 0 ∅) es)) = true →
  trace (h_step (key_of MetaNamespaceKeyFunc) pod_ResourceVersion sample_pod_range) (new_history 0 ∅) es (informer_after es).
Proof.
  intros [h He]%bool_decide_eq_true. unfold informer_after. rewrite He. by apply h_check_trace in He.
Qed.

Local Abbreviation sample_sched_step :=
  (sched_step true true 30 PrioritySort_Less 1 10 [] false (λ _, ∅) QueueEvents.sample_range sample_api).
Local Abbreviation sample_exec :=
  (sched_exec true true 30 PrioritySort_Less 1 10 [] false (λ _, ∅) QueueEvents.sample_range).

Definition sample_scheduler : Scheduler := new_scheduler (Some 0) (Some 0) (Some 0) 0 {["default-scheduler" := newWaitingPodsMap]}.

Definition scheduler_after (es : list sched_event) : Scheduler :=
  foldl (λ s e, match sample_exec e s with Some (Ret s') => s' | _ => s end) sample_scheduler es.

(** The cycle assumes the pod between the notifications of the listener. *)
Definition sample_sched_events : list sched_event :=
  SNode (addNotification (Live (sample_node "n" "z1"))) 0 ::
  match (λ n, SPod n 0) <$> pl_delivered (sample_listener sample_informer_events) with
  | e :: es => e :: SCache (EvAssume sample_a2) :: es
  | [] => []
  end.
Definition stale_sched_events : list sched_event :=
  (λ n, SPod n 0) <$> pl_delivered (sample_listener stale_informer_events).

(** *** Checked histories *)

Definition note_objects (n : notification (Obj := Pod)) : list Pod :=
  match n with
  | addNotification x => option_list (live_object x)
  | updateNotification x y => option_list (live_object x) ++ option_list (live_object y)
  | deleteNotification x => option_list (final_object x)
  end.

Lemma mentions_objects n o : mentions n o → o ∈ note_objects n.
Proof.
  destruct n as [x y|x|x]; simpl.
  - intros [-> | ->]; apply elem_of_app; [left|right]; by left.
  - intros ->. by left.
  - intros ->. by left.
Qed.

Local Abbreviation in_api p := (bool_decide (p ∈ [sample_a1; sample_a2; sample_b])).

Definition sample_allowed (s : Scheduler) (e : sched_event) : bool :=
  match e with
  | SPod n _ => (generation (SchedulerCache s) + 6 <=? max_int64)%Z && forallb (λ o, in_api o) (note_objects n)
  | SNode n _ => (generation (SchedulerCache s) + 3 <=? max_int64)%Z
  | SCache (EvAssume p) => in_api p && (generation (SchedulerCache s) + 3 <=? max_int64)%Z
  | _ => false
  end.

Fixpoint sample_check (s : Scheduler) (es : list sched_event) : bool :=
  match es with
  | [] => true
  | e :: es =>
      sample_allowed s e && match sample_exec e s with Some (Ret s') => sample_check s' es | _ => false end
  end.

Lemma sample_allowed_ok s e : sample_allowed s e = true → SchedulerEvents.allowed sample_api s e.
Proof.
  destruct e as [n now|n now| | |[]|]; simpl; try done.
  - intros [Hg%Z.leb_le Ho]%andb_true_iff. split; [done|]. intros o Hm%mentions_objects.
    apply list_elem_of_In in Hm. apply (proj1 (forallb_forall _ _) Ho) in Hm. by apply bool_decide_eq_true in Hm.
  - apply Z.leb_le.
  - intros [Hp%bool_decide_eq_true Hg%Z.leb_le]%andb_true_iff. split_and!; try done. by exists pod.
Qed.

Lemma sample_check_trace es : ∀ s, sample_check s es = true →
  trace sample_sched_step s es (foldl (λ s e, match sample_exec e s with Some (Ret s') => s' | _ => s end) s es).
Proof.
  induction es as [|e es IH]; intros s Hc; [constructor|]. apply andb_true_iff in Hc as [Ha Hc]. cbn [foldl].
  destruct (sample_exec e s) as [[s'|]|] eqn:He; try done.
  econstructor; [split; [by apply sample_allowed_ok|done]|by apply IH].
Qed.

(** *** A pod that stays in the cache *)

(** A stale deletion can leave a pod in the cache.  In this history a pod is
    bound, a new list without it arrives before the binding is popped, and the deletion
    carries the pod of the store, which has no node; the filter of the cache's
    handler drops it.  Everything has been handled, the API server has no pods,
    and the cache still counts the pod on its node. *)
Lemma scheduler_cache_stale : ∃ ies h l es s,
  trace (h_step (key_of MetaNamespaceKeyFunc) pod_ResourceVersion sample_pod_range) (new_history 0 ∅) ies h ∧
  listeners (processor (h_inf h)) !! 0%nat = Some l ∧ quiet h l ∧
  trace sample_sched_step sample_scheduler es s ∧ pod_notes es = pl_delivered l ∧
  h_truth h = ∅ ∧ ThreadSafeStore.items (indexer (h_inf h)) = ∅ ∧
  abs (SchedulerCache s) !! pod_UID sample_a2 = Some (sample_a2, Added).
Proof.
  exists stale_informer_events, (informer_after stale_informer_events), (sample_listener stale_informer_events),
    stale_sched_events, (scheduler_after stale_sched_events).
  split; [apply informer_after_trace; vm_compute; reflexivity|].
  split; [vm_compute; reflexivity|].
  split; [repeat split; vm_compute; reflexivity|].
  split; [apply sample_check_trace; vm_compute; reflexivity|].
  repeat split; vm_compute; reflexivity.
Qed.

(** *** Witnesses *)

Lemma empty_takes_all : takes_all (∅ : gmap string (IndexFunc (dobj Pod))).
Proof. by intros name f o ?%lookup_empty_Some. Qed.

Lemma sample_exact_nodes : exact_stream node_Name (λ o o', o' = o) ∅ (node_notes sample_sched_events).
Proof.
  assert (node_notes sample_sched_events = [addNotification (Live (sample_node "n" "z1"))]) as -> by (vm_compute; reflexivity).
  split; [|done]. by exists (sample_node "n" "z1").
Qed.

Lemma sample_notes :
  pl_delivered (sample_listener sample_informer_events) =
    [addNotification (Live sample_a1); updateNotification (Live sample_a1) (Live sample_a2);
     addNotification (Live sample_b); deleteNotification (Live sample_b)].
Proof. vm_compute. reflexivity. Qed.

Lemma sample_exact_pods : exact_stream MetaNamespaceKeyFunc fresh_pod ∅ (pod_notes sample_sched_events).
Proof.
  assert (pod_notes sample_sched_events = pl_delivered (sample_listener sample_informer_events)) as ->
    by (vm_compute; reflexivity).
  rewrite sample_notes. repeat split.
  - by exists sample_a1.
  - by exists sample_a1, sample_a2.
  - by exists sample_b.
  - by exists sample_b, sample_b.
Qed.


Lemma scheduler_cache_converges_witness :
  abs (SchedulerCache (scheduler_after sample_sched_events)) !! "uid-a" = Some (sample_a2, Added) ↔
    pod_UID sample_a2 = "uid-a" ∧ assignedPod sample_a2 = true ∧
    h_truth (informer_after sample_informer_events) !! MetaNamespaceKeyFunc sample_a2 = Some (Live sample_a2).
Proof.
  apply (scheduler_cache_converges true true 30 PrioritySort_Less 1 10 [] false (λ _, ∅) QueueEvents.sample_range
    (Some 0) (Some 0) (Some 0) QueueEvents.sample_range_keys sample_api sample_pod_range 0 ∅ sample_informer_events
    (informer_after sample_informer_events) 0%nat (sample_listener sample_informer_events)
    0 {["default-scheduler" := newWaitingPodsMap]} sample_sched_events).
  - apply empty_takes_all.
  - apply informer_after_trace. vm_compute. reflexivity.
  - vm_compute. reflexivity.
  - repeat split; vm_compute; reflexivity.
  - apply sample_versioned.
  - intros k p. assert (h_truth (informer_after sample_informer_events) = {[ "ns/a" := Live sample_a2 ]}) as ->
      by (vm_compute; reflexivity). intros [_ [= <-]]%lookup_singleton_Some. right. left.
  - rewrite sample_notes. repeat split. intros k o Hk Ho. exists sample_b. split; [done|].
    injection Hk as <-. vm_compute in Ho. by injection Ho as <-.
  - lia.
  - apply sample_check_trace. vm_compute. reflexivity.
  - vm_compute. reflexivity.
  - apply sample_exact_nodes.
Defined.
End Sample.
