(* ===== verification/SchedulingCycle.v ===== *)
(** * The scheduling and the binding cycle: [pkg/scheduler/scheduler.go]

    [scheduleOne] with the error function of [factory.go], as a goroutine that
    goes from one access of the shared state (the cache, the queue, the waiting
    pods) to the next; the binding cycles it starts are goroutines of their
    own.  Events, metrics and the update of the pod's condition through the API
    server are left out. *)

From S2P Require Import Prelude GoHeap SchedHeap Labels ApiTypes NodeInfo FwkStatus WaitingPods.
From S2P Require Import Parallelizer FeasibleSearch NodeTree SchedCache CacheEvents Snapshot SchedQueue.
From S2P Require Import Framework GenericScheduler DeltaFIFO RingGrowing Informer EventHandlers.
#[local] Open Scope Z_scope.

(** The kinds of errors the error function distinguishes.  Its branch for a
    node that is not found needs an error of the API that is not wrapped, and
    what the plugins return is wrapped. *)
Inductive cycle_error := ENoNodes | EFit (diagnosis : Diagnosis) | EFailed.

(** ** Data *)

Definition set_NodeName (pod : Pod) (host : string) : Pod :=
  mkPod (pod_Name pod) (pod_Namespace pod) (pod_UID pod) (pod_ResourceVersion pod) (pod_Labels pod)
    (pod_Containers pod) (pod_InitContainers pod) (pod_Overhead pod) host
    (pod_Affinity pod) (pod_Priority pod) (pod_NominatedNodeName pod) (pod_SchedulerName pod)
    (pod_NodeSelector pod) (pod_Tolerations pod) (pod_Annotations pod) (pod_ManagedFields pod) (pod_Finalizers pod)
    (pod_DeletionTimestamp pod) (pod_Conditions pod) (pod_PreemptionPolicy pod) (pod_CreationTimestamp pod)
    (pod_OwnerReferences pod) (pod_Phase pod) (pod_StartTime pod) (pod_ContainerStatuses pod).

Definition set_PodInfo (q : QueuedPodInfo) (ref : nat) (pi : PodInfo) : QueuedPodInfo :=
  mkQPI ref pi (Timestamp q) (Attempts q) (InitialAttemptTimestamp q) (UnschedulablePlugins q).

Definition set_UnschedulablePlugins (q : QueuedPodInfo) (plugins : gset string) : QueuedPodInfo :=
  mkQPI (qpi_ref q) (qpi_PodInfo q) (Timestamp q) (Attempts q) (InitialAttemptTimestamp q) plugins.

(** The copy whose pod is assumed: a new object, without the plugins that have
    rejected the pod. *)
Definition DeepCopy (q : QueuedPodInfo) (ref : nat) : QueuedPodInfo :=
  mkQPI ref (qpi_PodInfo q) (Timestamp q) (Attempts q) (InitialAttemptTimestamp q) ∅.

Definition with_node (q : QueuedPodInfo) (host : string) : QueuedPodInfo :=
  let pi := qpi_PodInfo q in
  set_PodInfo q (qpi_ref q)
    (mkPodInfo (set_NodeName (pi_Pod pi) host) (RequiredAffinityTerms pi) (RequiredAntiAffinityTerms pi)
       (PreferredAffinityTerms pi) (PreferredAntiAffinityTerms pi) (ParseError pi)).

Section Cycle.
Context {Data : Type}.

(** Where a goroutine is, with its local variables; [assumed] is the copy of
    the popped pod, bound for [host], and [waitingPod] the pointer to the
    waiting pod whose channel the goroutine reads. *)
Inductive pc :=
| PNext
| PCheck (podInfo : QueuedPodInfo)
| PSchedule (podInfo : QueuedPodInfo)
| PAssume (podInfo : QueuedPodInfo) (state : gmap string Data) (host : string)
| PDenominate (assumed : QueuedPodInfo) (state : gmap string Data) (host : string)
| PPermit (assumed : QueuedPodInfo) (state : gmap string Data) (host : string)
| PWait (assumed : QueuedPodInfo) (state : gmap string Data) (host : string)
| PReceive (assumed : QueuedPodInfo) (state : gmap string Data) (host : string) (waitingPod : nat)
| PReceived (assumed : QueuedPodInfo) (state : gmap string Data) (host : string) (status : Status)
| PBind (assumed : QueuedPodInfo) (state : gmap string Data) (host : string)
| PFinish (assumed : QueuedPodInfo) (state : gmap string Data) (host : string) (err : bool)
| PForget (assumed : QueuedPodInfo) (state : gmap string Data)
| PError (podInfo : QueuedPodInfo) (err : cycle_error) (nominatedNode : string)
| PCycle (podInfo : QueuedPodInfo) (nominatedNode : string)
| PRequeue (podInfo : QueuedPodInfo) (podSchedulingCycle : Z) (nominatedNode : string)
| PNominate (podInfo : QueuedPodInfo) (nominatedNode : string)
| PDone.

(** What a step gets from outside: the time, the choices of [Schedule], the
    nominated pods as the search reads them and the number of generations it
    uses up, what the lister of the pods has under the name, and the address of
    a new object. *)
Record env := mkEnv {
  e_now : Z;
  e_choices : choices;
  e_nominated : string → list PodInfo;
  e_ticks : nat;
  e_cached : option Pod;
  e_ref : nat;
}.

Context (clone : Data → Data) (lsci overhead : bool) (ttl : Z).
Context (lessFn : QueuedPodInfo → QueuedPodInfo → bool) (initial maximum : Z).
Context (PreferNominatedNode : bool) (parallelism : nat).
Context (range : PluginToStatus → list string) (snapshot_range : gmap string nat → list string).
Context (frameworks : gmap string (frameworkImpl Data)).
Implicit Types (s : Scheduler) (g : genericScheduler) (e : env).

(** ** The steps *)

Definition frameworkForPod (pod : Pod) : option (frameworkImpl Data) := frameworks !! pod_SchedulerName pod.

Definition skipPodSchedule s (pod : Pod) : bool :=
  bool_decide (is_Some (pod_DeletionTimestamp pod)) || skipPodUpdate s pod.

(** [MakeNextPodFunc]; [None] while the queue has no pod. *)
Definition NextPod s : option (outcome (Scheduler * option QueuedPodInfo)) :=
  match SchedQueue.Pop lessFn (SchedulingQueue s) with
  | Panic => Some Panic
  | Ret (q, SchedQueue.PopWait) => None
  | Ret (q, SchedQueue.PopItem podInfo) => Some (Ret (set_queue s q, Some podInfo))
  | Ret (q, _) => Some (Ret (set_queue s q, None))
  end.

(** The nominated node [RunPostFilterPlugins] finds after a failure. *)
Definition preempt (fwk : frameworkImpl Data) (state : gmap string Data) (pod : Pod) (diagnosis : Diagnosis) : string :=
  if negb (HasPostFilterPlugins fwk) then EmptyString
  else
    let '(_, result, status) := RunPostFilterPlugins range fwk state pod (dg_statuses diagnosis) in
    if IsSuccess status then default EmptyString result else EmptyString.

(** From [Algorithm.Schedule] to the failure or to [assume]. *)
Definition attempt s g e (podInfo : QueuedPodInfo) : option (genericScheduler * pc) :=
  let pod := qpi_Pod podInfo in
  match frameworkForPod pod with
  | None => Some (g, PNext)
  | Some fwk =>
      '(g, state, out) ← Schedule clone lsci overhead (e_nominated e) range (generation (SchedulerCache s))
        PreferNominatedNode parallelism snapshot_range (SchedulerCache s) g fwk ∅ pod (e_choices e);
      Some (g, match out with
               | Suggested r => PAssume podInfo state (SuggestedHost r)
               | FitError _ d => PError podInfo (EFit d) (preempt fwk state pod d)
               | ErrNoNodesAvailable => PError podInfo ENoNodes EmptyString
               | ScheduleError => PError podInfo EFailed EmptyString
               end)
  end.

(** [assume], up to the nominator. *)
Definition assume s (assumed : QueuedPodInfo) : Scheduler * bool :=
  let '(c, ok) := AssumePod lsci overhead (SchedulerCache s) (qpi_Pod assumed) in (set_cache s c, ok).

Definition denominate s (pod : Pod) : Scheduler :=
  set_queue s (set_nominator (SchedulingQueue s) (DeleteNominatedPodIfExists (nominator (SchedulingQueue s)) pod)).

Definition set_waiting s (profile : string) (w : waitingPodsMap) : Scheduler :=
  mkScheduler (SchedulerCache s) (SchedulingQueue s) (<[profile := w]> (Profiles s)).

(** The framework of the pod is the one [scheduleOne] has found. *)
Definition unreserve (assumed : QueuedPodInfo) (state : gmap string Data) (host : string) : gmap string Data :=
  match frameworkForPod (qpi_Pod assumed) with
  | Some fwk => RunReservePluginsUnreserve fwk state (qpi_Pod assumed) host
  | None => state
  end.

(** Reserve and Permit: the binding cycle starts, or the pod is forgotten. *)
Definition permit s e (assumed : QueuedPodInfo) (state : gmap string Data) (host : string) : Scheduler * (pc + pc) :=
  let pod := qpi_Pod assumed in
  match frameworkForPod pod with
  | None => (s, inl (PForget assumed state))
  | Some fwk =>
      let '(state, sts) := RunReservePluginsReserve fwk state pod host in
      if negb (IsSuccess sts) then (s, inl (PForget assumed (unreserve assumed state host)))
      else
        let waiting := default newWaitingPodsMap (Profiles s !! pod_SchedulerName pod) in
        let '(state, waiting, status) := RunPermitPlugins fwk state pod host waiting (e_now e) in
        let s := set_waiting s (pod_SchedulerName pod) waiting in
        if negb (bool_decide (status_Code status = Wait)) && negb (IsSuccess status)
        then (s, inl (PForget assumed (unreserve assumed state host)))
        else (s, inr (PWait assumed state host))
  end.

(** The binding of the first extender that binds the pod. *)
Fixpoint extendersBinding (exts : list Extender) (pod : Pod) (node : string) : option (option string) :=
  match exts with
  | [] => None
  | ext :: exts =>
      if negb (IsBinder ext) || negb (IsInterested ext pod) then extendersBinding exts pod node
      else Some (ext_Bind ext pod node)
  end.

(** [bind], up to [finishBinding]: the flag is for an error. *)
Definition bind g (fwk : frameworkImpl Data) (assumed : Pod) (targetNode : string) (state : gmap string Data)
    : gmap string Data * bool :=
  match extendersBinding (extenders g) assumed targetNode with
  | Some err => (state, bool_decide (is_Some err))
  | None => let '(state, status) := RunBindPlugins fwk state assumed targetNode in (state, negb (IsSuccess status))
  end.

(** PreBind and [bind]. *)
Definition prebind_and_bind g (assumed : QueuedPodInfo) (state : gmap string Data) (host : string) : pc :=
  let pod := qpi_Pod assumed in
  match frameworkForPod pod with
  | None => PForget assumed state
  | Some fwk =>
      let '(state, status) := RunPreBindPlugins fwk state pod host in
      if negb (IsSuccess status) then PForget assumed (unreserve assumed state host)
      else let '(state, err) := bind g fwk pod host state in PFinish assumed state host err
  end.

(** The error function, up to the queue: what it does with the pod's state and
    with the answer of the lister. *)
Definition error_func e (podInfo : QueuedPodInfo) (err : cycle_error) (nominatedNode : string) : pc :=
  let podInfo := match err with
                 | EFit d => set_UnschedulablePlugins podInfo (dg_plugins d)
                 | _ => podInfo
                 end in
  match e_cached e with
  | None => PNominate podInfo nominatedNode
  | Some cachedPod =>
      if negb (String.length (pod_NodeName cachedPod) =? 0)%nat then PNominate podInfo nominatedNode
      else PCycle (set_PodInfo podInfo (e_ref e) (NewPodInfo cachedPod)) nominatedNode
  end.

(** One step: the new state, where the goroutine goes on and the binding cycle
    it starts; [None] where it blocks or the choices are not those of a run.
    [back] is where the goroutine goes when it is done with the pod. *)
Definition step (back : pc) e (p : pc) s g : option (outcome (Scheduler * genericScheduler * pc * option pc)) :=
  let go s p := Some (Ret (s, g, p, None)) in
  match p with
  | PNext =>
      match NextPod s with
      | None => None
      | Some Panic => Some Panic
      | Some (Ret (s, None)) => go s PNext
      | Some (Ret (s, Some podInfo)) => go s (PCheck podInfo)
      end
  | PCheck podInfo =>
      match frameworkForPod (qpi_Pod podInfo) with
      | None => go s back
      | Some _ => go s (if skipPodSchedule s (qpi_Pod podInfo) then back else PSchedule podInfo)
      end
  | PSchedule podInfo =>
      '(g, p) ← attempt s g e podInfo;
      Some (Ret (set_cache s (tick (e_ticks e) (SchedulerCache s)), g, p, None))
  | PAssume podInfo state host =>
      let assumed := with_node (DeepCopy podInfo (e_ref e)) host in
      let '(s, ok) := assume s assumed in
      go s (if ok then PDenominate assumed state host else PError assumed EFailed EmptyString)
  | PDenominate assumed state host => go (denominate s (qpi_Pod assumed)) (PPermit assumed state host)
  | PPermit assumed state host =>
      match permit s e assumed state host with
      | (s, inl p) => go s p
      | (s, inr binding) => Some (Ret (s, g, back, Some binding))
      end
  | PWait assumed state host =>
      let pod := qpi_Pod assumed in
      match wpm_get (default newWaitingPodsMap (Profiles s !! pod_SchedulerName pod)) (pod_UID pod) with
      | None => go s (PBind assumed state host)
      | Some waitingPod => go s (PReceive assumed state host waitingPod)
      end
  | PReceive assumed state host waitingPod =>
      let pod := qpi_Pod assumed in
      let waiting := default newWaitingPodsMap (Profiles s !! pod_SchedulerName pod) in
      '(status, waiting) ← wpm_receive waiting waitingPod;
      go (set_waiting s (pod_SchedulerName pod) waiting) (PReceived assumed state host status)
  | PReceived assumed state host status =>
      let pod := qpi_Pod assumed in
      let waiting := default newWaitingPodsMap (Profiles s !! pod_SchedulerName pod) in
      let s := set_waiting s (pod_SchedulerName pod) (wpm_remove waiting (pod_UID pod)) in
      go s (if IsSuccess (WaitOnPermit status) then PBind assumed state host
            else PForget assumed (unreserve assumed state host))
  | PBind assumed state host => go s (prebind_and_bind g assumed state host)
  | PFinish assumed state host err =>
      let '(c, _) := finishBinding ttl (SchedulerCache s) (qpi_Pod assumed) (e_now e) in
      go (set_cache s c) (if err then PForget assumed (unreserve assumed state host) else back)
  | PForget assumed _ =>
      match ForgetPod lsci overhead (SchedulerCache s) (qpi_Pod assumed) with
      | Panic => Some Panic
      | Ret (c, _) => go (set_cache s c) (PError assumed EFailed EmptyString)
      end
  | PError podInfo err nominatedNode => go s (error_func e podInfo err nominatedNode)
  | PCycle podInfo nominatedNode =>
      go s (PRequeue podInfo (schedulingCycle (SchedulingQueue s)) nominatedNode)
  | PRequeue podInfo podSchedulingCycle nominatedNode =>
      let '(q, _) := AddUnschedulableIfNotPresent initial maximum (SchedulingQueue s) podInfo podSchedulingCycle (e_now e) in
      go (set_queue s q) (PNominate podInfo nominatedNode)
  | PNominate podInfo nominatedNode =>
      let q := SchedulingQueue s in
      go (set_queue s (set_nominator q
            (AddNominatedPod (nominator q) (qpi_ref podInfo, qpi_PodInfo podInfo) nominatedNode))) back
  | PDone => None
  end.
End Cycle.
Arguments pc : clear implicits.
