(* ===== verification/CycleEvents.v ===== *)
(** * Histories of the scheduler with its scheduling and binding cycles

    The goroutine of [scheduleOne], the goroutines of the binding cycles, the
    informers' handlers, the periodic flushes of the queue and clean-ups of the
    cache and the signals of the permit plugins, interleaved.  Besides the
    invariants of the parts, every assumed pod whose binding has not finished
    has a goroutine that will finish or forget it. *)

From S2P Require Import Prelude GoHeap SchedHeap Labels ApiTypes NodeInfo FwkStatus WaitingPods.
From S2P Require Import Parallelizer FeasibleSearch NodeTree SchedCache CacheEvents Snapshot.
From S2P Require Import Framework GenericScheduler GenericProps ThreadSafeStore DeltaFIFO RingGrowing Informer InformerInv InformerEvents.
From S2P Require Import SchedQueue QueueInv QueueEvents EventHandlers SchedulerEvents SchedulingCycle.
#[local] Open Scope Z_scope.

(** ** The pods of the queue *)

Section QueueAll.
Context (P : Pod → Prop).
Context (lessFn : QueuedPodInfo → QueuedPodInfo → bool).
Context (initial maximum : Z) (clusterEventMap : list (ClusterEvent * gset string)).
Context (nsSelectorEnabled : bool) (namespaceLabels : string → Labels).

Definition queue_all (v : QueueEvents.view) : Prop :=
  ∀ x pl q, name_ok x → v_place v x = Some (pl, q) → P (qpi_Pod q).

(** The pods an event brings. *)
Definition brings (e : QueueEvents.event) (pod : Pod) : Prop :=
  match e with
  | EAdd p _ _ => pod = p
  | EAddUnschedulable q _ _ => pod = qpi_Pod q
  | EUpdate _ p _ _ => pod = p
  | _ => False
  end.

Lemma queue_all_step v e a v' :
  QueueEvents.spec_step lessFn initial maximum clusterEventMap nsSelectorEnabled namespaceLabels v (e, a) v' →
  queue_all v → (∀ pod, brings e pod → P pod) → queue_all v'.
Proof.
  intros (Hpl & _) Hv Hb x pl q Hx. rewrite (Hpl x Hx). cbn [fst snd].
  assert (∀ f ev now, moved initial maximum clusterEventMap f ev now (v_place v x) = Some (pl, q) → P (qpi_Pod q)) as Hmoved.
  { intros f ev now. unfold moved. destruct (v_place v x) as [[[] q0]|] eqn:Hq; intros [= _ <-]; by eapply Hv. }
  destruct e; cbn [spec_place brings] in *; try first [by apply Hmoved|by apply (Hv x)].
  - case_decide; [intros [= _ <-]; by apply Hb|by apply (Hv x)].
  - case_decide; [|by apply (Hv x)]. destruct (v_place v x) as [there|] eqn:Hq; [intros [= ->]; by eapply Hv|].
    intros [= _ <-]. by apply Hb.
  - unfold flushed. destruct (v_place v x) as [[[] q0]|] eqn:Hq; intros [= _ <-]; by eapply Hv.
  - repeat case_match; try done; by apply (Hv x).
  - case_decide; [|by apply (Hv x)].
    destruct (v_place v newPod) as [[pl0 q0]|]; intros [= _ <-]; [rewrite updated_Pod|]; by apply Hb.
  - case_decide; [done|by apply (Hv x)].
Qed.
End QueueAll.

(** ** The machine *)

Section Machine.
Context {Data : Type} (clone : Data → Data) (lsci overhead : bool) (ttl : Z).
Context (lessFn : QueuedPodInfo → QueuedPodInfo → bool) `{!StrictWeakOrder lessFn}.
Context (initial maximum : Z) (clusterEventMap : list (ClusterEvent * gset string)).
Context (nsSelectorEnabled : bool) (namespaceLabels : string → Labels).
Context (range : gmap string QueuedPodInfo → list string) (ra rb ru : option Z).
Context (range_keys : ∀ m, range m ≡ₚ (map_to_list m).*1).
Context (PreferNominatedNode : bool) (parallelism : nat).
Context (status_range : PluginToStatus → list string) (snapshot_range : gmap string nat → list string).
Context (frameworks : gmap string (frameworkImpl Data)) (duration : Z → string).
Context (api : Pod → Prop) `{!PodApi api}.
Local Abbreviation PC := (pc Data).

Record machine := mkMachine {
  m_sched : Scheduler;
  m_alg : genericScheduler;
  m_main : pc Data;
  m_bindings : list (pc Data);
}.

Inductive m_event :=
| MMain (e : env)
| MBinding (i : nat) (e : env)
| MOther (ev : sched_event)
| MSignal (profile : string) (waitingPod : nat) (we : wait_event).

Local Abbreviation run_step := (step clone lsci overhead ttl lessFn initial maximum PreferNominatedNode parallelism
  status_range snapshot_range frameworks).
Local Abbreviation execute := (sched_exec lsci overhead ttl lessFn initial maximum clusterEventMap
  nsSelectorEnabled namespaceLabels range).

(** What others do: the informers, the periodic clean-up and flushes, a waking
    of the queue, and its closing. *)
Definition outside (s : Scheduler) (ev : sched_event) : Prop :=
  SchedulerEvents.allowed api s ev ∧
  match ev with
  | SCache (EvCleanup _ _) | SCache (EvTick _) => True
  | SCache _ => False
  | SQueue (EFlushBackoff _) | SQueue (EFlushLeftover _) | SQueue EResume | SQueue EClose => True
  | SQueue _ => False
  | SQueuePod n _ _ => ∀ o, mentions n o → api o
  | _ => True
  end.

(** The environment of a goroutine's step: counters away from their maximum, at
    most 21474836 nodes, the lister's pod is one of the API server with the
    name asked for, and new objects at unused addresses. *)
Definition fair (s : Scheduler) (p : PC) (e : env) : Prop :=
  match p with
  | PNext => schedulingCycle (SchedulingQueue s) < max_int64
  | PSchedule _ =>
      generation (SchedulerCache s) + Z.of_nat (e_ticks e) ≤ max_int64 ∧
      Z.of_nat (size (live_infos (SchedulerCache s))) ≤ 21474836
  | PAssume _ _ _ | PFinish _ _ _ _ | PForget _ _ => generation (SchedulerCache s) + 3 ≤ max_int64
  | PError podInfo _ _ => ∀ cached, e_cached e = Some cached → api cached ∧ same cached (qpi_Pod podInfo)
  | PRequeue podInfo _ _ => name_ok (qpi_Pod podInfo) ∧ ref_ok (SchedulingQueue s) podInfo
  | PNominate podInfo _ => ref_ok (SchedulingQueue s) podInfo
  | _ => True
  end.

Inductive m_step (m : machine) : m_event → machine → Prop :=
| step_main e s g p new :
    fair (m_sched m) (m_main m) e →
    run_step PNext e (m_main m) (m_sched m) (m_alg m) = Some (Ret (s, g, p, new)) →
    m_step m (MMain e) (mkMachine s g p (m_bindings m ++ option_list new))
| step_binding i e p0 s g p new :
    m_bindings m !! i = Some p0 → fair (m_sched m) p0 e →
    run_step PDone e p0 (m_sched m) (m_alg m) = Some (Ret (s, g, p, new)) →
    m_step m (MBinding i e) (mkMachine s g (m_main m) (<[i := p]> (m_bindings m) ++ option_list new))
| step_other ev s :
    outside (m_sched m) ev → execute ev (m_sched m) = Some (Ret s) →
    m_step m (MOther ev) (mkMachine s (m_alg m) (m_main m) (m_bindings m))
| step_signal profile ref we w wp wp' :
    Profiles (m_sched m) !! profile = Some w → wpm_heap w !! ref = Some wp → wait_step duration wp we wp' →
    m_step m (MSignal profile ref we)
      (mkMachine (set_waiting (m_sched m) profile (wpm_set w ref wp')) (m_alg m) (m_main m) (m_bindings m)).

Definition threads (m : machine) : list PC := m_main m :: m_bindings m.

(** The notifications the cache's listeners have handled. *)
Definition other_events : list m_event → list sched_event :=
  omap (λ ev, match ev with MOther ev => Some ev | _ => None end).

(** ** The invariant *)

Definition pod_of (p : PC) : option Pod :=
  match p with
  | PNext | PDone => None
  | PCheck q | PSchedule q | PAssume q _ _ | PDenominate q _ _ | PPermit q _ _ | PWait q _ _ | PReceive q _ _ _ | PReceived q _ _ _
  | PBind q _ _ | PFinish q _ _ _ | PForget q _ | PError q _ _ | PCycle q _ | PRequeue q _ _ | PNominate q _ => Some (qpi_Pod q)
  end.

(** The pod the goroutine has assumed and will finish or forget. *)
Definition holds (p : PC) : option Pod :=
  match p with
  | PDenominate q _ _ | PPermit q _ _ | PWait q _ _ | PReceive q _ _ _ | PReceived q _ _ _ | PBind q _ _ | PFinish q _ _ _
  | PForget q _ => Some (qpi_Pod q)
  | _ => None
  end.

Definition held (ts : list PC) (A : gmap string (Pod * phase)) : Prop :=
  ∀ uid q, A !! uid = Some (q, Assumed None) → ∃ t, t ∈ ts ∧ holds t = Some q.

Definition all_threads_served (ts : list PC) : Prop := ∀ t pod, t ∈ ts → pod_of t = Some pod → served api pod.

(** The algorithm's snapshot is one of an earlier state of the cache. *)
Definition alg_ok (c : schedulerCache) (g : genericScheduler) : Prop :=
  (∃ c0, Snapshot.synced c0 (nodeInfoSnapshot g) ∧ evolves c0 c) ∧ extenders_filter (extenders g).

Local Abbreviation sched_inv := (sched_inv lsci overhead lessFn initial maximum ra rb ru api).

Record inv_on (s : Scheduler) (g : genericScheduler) (ts : list PC) (mp : gmap string (dobj Pod))
    (mn : gmap string (dobj Node)) : Prop := {
  io_sched : sched_inv s mp mn;
  io_queue : queue_all (served api) (view_of (SchedulingQueue s));
  io_served : all_threads_served ts;
  io_held : held ts (abs (SchedulerCache s));
  io_alg : alg_ok (SchedulerCache s) g;
}.

Definition m_inv (m : machine) : gmap string (dobj Pod) → gmap string (dobj Node) → Prop :=
  inv_on (m_sched m) (m_alg m) (threads m).

(** The order of the goroutines does not matter. *)
Lemma inv_on_permuted s g ts ts' mp mn : ts ≡ₚ ts' → inv_on s g ts mp mn → inv_on s g ts' mp mn.
Proof.
  intros Hp [H1 H2 H3 H4 H5]. split; try done.
  - intros t pod Ht. apply H3. by rewrite Hp.
  - intros uid q Hq. destruct (H4 uid q Hq) as (t & Ht & Hh). exists t. by rewrite <- Hp.
Qed.

#[export] Instance inv_on_perm s g : Proper ((≡ₚ) ==> (=) ==> (=) ==> iff) (inv_on s g).
Proof. intros ts ts' Hp mp ? <- mn ? <-. split; apply inv_on_permuted; [done|by symmetry]. Qed.

(** ** Steps of the goroutines *)

Implicit Types (s : Scheduler) (g : genericScheduler) (p : PC) (ts : list PC).

Lemma queue_part s mp mn e q' a :
  sched_inv s mp mn → queue_all (served api) (view_of (SchedulingQueue s)) →
  QueueEvents.coherent (SchedulingQueue s) e → (∀ pod, brings e pod → served api pod) →
  QueueEvents.exec lessFn initial maximum clusterEventMap nsSelectorEnabled namespaceLabels range e (SchedulingQueue s) =
    Some (Ret (q', a)) →
  sched_inv (set_queue s q') mp mn ∧ queue_all (served api) (view_of q') ∧
  QueueEvents.spec_answer lessFn (view_of (SchedulingQueue s)) e a.
Proof.
  intros Hs Hall Hco Hb He.
  destruct (queue_step_inv lsci overhead lessFn initial maximum clusterEventMap nsSelectorEnabled namespaceLabels
    range ra rb ru range_keys api s mp mn e Hs Hco) as (q & a' & He' & Hq & Hst).
  rewrite He in He'. injection He' as <- <-. split; [by apply queue_only|]. split; [by eapply queue_all_step|apply Hst].
Qed.

Lemma cache_part s mp mn ev c' ok :
  sched_inv s mp mn → SchedulerEvents.allowed api s (SCache ev) →
  CacheEvents.exec lsci overhead ttl ev (SchedulerCache s) = Ret (c', ok) →
  sched_inv (set_cache s c') mp mn ∧ evolves (SchedulerCache s) c' ∧
  CacheEvents.spec_step ttl ev (abs (SchedulerCache s)) = (abs c', ok).
Proof.
  intros Hs Hal He. destruct (cycle_step lsci overhead ttl lessFn initial maximum ra rb ru api s mp mn ev Hs Hal)
    as (c1 & ok1 & He1 & H). rewrite He in He1. by injection He1 as <- <-.
Qed.

Lemma alg_ok_evolves c c' g : alg_ok c g → evolves c c' → alg_ok c' g.
Proof. intros [(c0 & Hs & Hev) Hx] H. split; [|done]. exists c0. split; [done|by etrans]. Qed.

(** The goroutine goes on with the same cache. *)
Lemma move_same s s' g p p' ts mp mn :
  inv_on s g (p :: ts) mp mn → sched_inv s' mp mn → queue_all (served api) (view_of (SchedulingQueue s')) →
  SchedulerCache s' = SchedulerCache s → (∀ pod, pod_of p' = Some pod → served api pod) →
  (∀ q, holds p = Some q → holds p' = Some q) → inv_on s' g (p' :: ts) mp mn.
Proof.
  intros [H1 H2 H3 H4 H5] Hs Hq Hc Hp Hh. split; try done; [| |by rewrite Hc].
  - intros t pod [->|Ht]%elem_of_cons; [apply Hp|apply H3; by right].
  - rewrite Hc. intros uid q Hx. destruct (H4 uid q Hx) as (t & [->|Ht]%elem_of_cons & Hq').
    + exists p'. split; [by left|by apply Hh].
    + exists t. split; [by right|done].
Qed.

Lemma inv_on_idle s g p ts mp mn :
  pod_of p = None → inv_on s g ts mp mn → inv_on s g (p :: ts) mp mn.
Proof.
  intros Hp [H1 H2 H3 H4 H5]. split; try done.
  - intros t pod [->|Ht]%elem_of_cons; [by rewrite Hp|by apply H3].
  - intros uid q Hx. destruct (H4 uid q Hx) as (t & Ht & Hq). exists t. split; [by right|done].
Qed.

Lemma served_node pod host : served api pod → served api (set_NodeName pod host).
Proof. by intros (a & Ha & Hu & Hs); exists a. Qed.

(** The goroutine's own pod is served. *)
Lemma own_pod s g p ts mp mn pod : inv_on s g (p :: ts) mp mn → pod_of p = Some pod → served api pod.
Proof. intros [_ _ H _ _]. apply H. by left. Qed.

Lemma all_served_uid s mp mn uid q ph :
  sched_inv s mp mn → abs (SchedulerCache s) !! uid = Some (q, ph) → pod_UID q = uid ∧ served api q.
Proof. intros [(_ & HA & _) _ _ _] Hq. by apply (HA uid (q, ph)). Qed.

Lemma served_key pod : served api pod → GetPodKey pod = Some (pod_UID pod).
Proof. intros (a & Ha & Hu & _). apply GetPodKey_uid. rewrite <- Hu. by apply (api_uid a). Qed.

(** An event of the cache that assumes no pod, and makes sure of the pod the
    goroutine lets go of. *)
Lemma move_cache s g p p' ts mp mn ev c' ok :
  inv_on s g (p :: ts) mp mn → SchedulerEvents.allowed api s (SCache ev) →
  CacheEvents.exec lsci overhead ttl ev (SchedulerCache s) = Ret (c', ok) → assumes ev = false →
  (∀ pod, pod_of p' = Some pod → served api pod) →
  (∀ q, holds p = Some q → holds p' = Some q ∨ abs c' !! pod_UID q ≠ Some (q, Assumed None)) →
  inv_on (set_cache s c') g (p' :: ts) mp mn.
Proof.
  intros Hi Hal He Has Hp Hh. pose proof Hi as [H1 H2 H3 H4 H5].
  destruct (cache_part s mp mn ev c' ok H1 Hal He) as (Hs & Hev & Hst).
  destruct (follows_step ttl _ ev c' ok Hev Hst Has) as [_ Hsub]. split; try done; simpl.
  - intros t pod [->|Ht]%elem_of_cons; [apply Hp|apply H3; by right].
  - intros uid q Hx. destruct (all_served_uid _ _ _ _ _ _ Hs Hx) as [Hu _].
    destruct (H4 uid q (Hsub uid q Hx)) as (t & [->|Ht]%elem_of_cons & Hq).
    + destruct (Hh q Hq) as [Hh'|Hno]; [exists p'; split; [by left|done]|]. by rewrite Hu in Hno.
    + exists t. split; [by right|done].
  - by eapply alg_ok_evolves.
Qed.

Context (status_keys : ∀ m, status_range m ≡ₚ (map_to_list m).*1) (clone_id : ∀ d, clone d = d).
Context (par : (0 < parallelism)%nat ∧ Z.of_nat parallelism ≤ 2 ^ 20).
Context (snapshot_keys : ∀ m, snapshot_range m ≡ₚ (map_to_list m).*1).

(** [p'], and the binding cycle that may be started, keep the invariant. *)
Definition step_ok (back : PC) (e : env) (p : PC) : Prop :=
  ∀ s g ts mp mn s' g' p' new,
    inv_on s g (p :: ts) mp mn → fair s p e → run_step back e p s g = Some (Ret (s', g', p', new)) →
    inv_on s' g' (p' :: option_list new ++ ts) mp mn.

Section Steps.
Context (back : PC) (back_idle : pod_of back = None) (e : env).

Lemma next_ok : step_ok back e PNext.
Proof.
  intros s g ts mp mn s' g' p' new Hi Hfair. cbn [step]. unfold NextPod. pose proof Hi as [H1 H2 _ _ _].
  destruct (SchedQueue.Pop lessFn (SchedulingQueue s)) as [[q r]|] eqn:Hpop; [|done].
  destruct (queue_part s mp mn QueueEvents.EPop q (APop r) H1 H2 Hfair) as (Hs & Hall & Hans); [done| |].
  { cbn [QueueEvents.exec]. by rewrite Hpop. }
  assert (∀ o, (∀ pod, pod_of o = Some pod → served api pod) → inv_on (set_queue s q) g (o :: ts) mp mn) as Hgo.
  { intros o Ho. by apply (move_same s _ g PNext). }
  destruct r as [| | |podInfo]; intros [= <- <- <- <-]; simpl; apply Hgo; try done.
  destruct Hans as (q0 & -> & [Hname Hpl] & _). intros pod [= <-]. by apply (H2 _ _ _ Hname Hpl).
Qed.

Lemma check_ok podInfo : step_ok back e (PCheck podInfo).
Proof.
  intros s g ts mp mn s' g' p' new Hi _. cbn [step]. pose proof Hi as [H1 H2 _ _ _].
  pose proof (own_pod _ _ _ _ _ _ _ Hi eq_refl) as Hpod.
  assert (∀ o, (∀ pod, pod_of o = Some pod → served api pod) → inv_on s g (o :: ts) mp mn) as Hgo.
  { intros o Ho. by apply (move_same s _ g (PCheck podInfo)). }
  destruct (frameworkForPod frameworks (qpi_Pod podInfo)); intros [= <- <- <- <-]; apply Hgo.
  - destruct (skipPodSchedule s (qpi_Pod podInfo)); [by rewrite back_idle|]. by intros pod [= <-].
  - by rewrite back_idle.
Qed.

Lemma schedule_ok podInfo : step_ok back e (PSchedule podInfo).
Proof.
  intros s g ts mp mn s' g' p' new Hi [Hgen Hsize]. cbn [step]. pose proof Hi as [H1 H2 _ _ H5].
  pose proof (own_pod _ _ _ _ _ _ _ Hi eq_refl) as Hpod.
  destruct (attempt _ _ _ _ _ _ _ _ s g e podInfo) as [[g1 p1]|] eqn:Hat; [|done]. intros [= <- <- <- <-].
  assert (alg_ok (SchedulerCache s) g1 ∧ (∀ pod, pod_of p1 = Some pod → served api pod)) as [Halg Hp1].
  { unfold attempt in Hat. destruct (frameworkForPod frameworks (qpi_Pod podInfo)) as [fwk|]; [|by injection Hat as <- <-].
    destruct (Schedule _ _ _ _ _ _ _ _ _ _ _ _ _ _ _) as [[[g2 state] out]|] eqn:Hsch; [|done].
    cbn [mbind option_bind] in Hat. injection Hat as <- <-. destruct H5 as [Hsy Hext]. split.
    - apply schedule_spec in Hsch as (Hs2 & Hx & _); try done; [|by destruct H1 as [(? & _) _ _ _]].
      split; [|by rewrite Hx]. by exists (SchedulerCache s).
    - destruct out; by intros pod [= <-]. }
  assert (inv_on s g1 (PSchedule podInfo :: ts) mp mn) as Hi1 by by destruct Hi.
  eapply (move_cache s g1 (PSchedule podInfo) p1 ts mp mn (EvTick (e_ticks e))); try done.
Qed.

Lemma assume_ok podInfo state host : step_ok back e (PAssume podInfo state host).
Proof.
  intros s g ts mp mn s' g' p' new Hi Hgen. cbn [step]. unfold assume. set (a := with_node (DeepCopy podInfo (e_ref e)) host).
  pose proof (own_pod _ _ _ _ _ _ _ Hi eq_refl) as Hpod. assert (served api (qpi_Pod a)) as Hserved by by apply served_node.
  destruct (AssumePod _ _ _ _) as [c ok] eqn:Has. intros [= <- <- <- <-]. pose proof Hi as [H1 H2 H3 H4 H5].
  destruct (cache_part s mp mn (EvAssume (qpi_Pod a)) c ok H1) as (Hs & Hev & Hst); [done|simpl; by rewrite Has|].
  simpl in Hst. rewrite (served_key _ Hserved) in Hst. simpl.
  split; try done; simpl; [..|by eapply alg_ok_evolves].
  - intros t pod [->|Ht]%elem_of_cons; [destruct ok; by intros [= <-]|apply H3; by right].
  - intros uid q Hx. destruct (abs (SchedulerCache s) !! pod_UID (qpi_Pod a)) as [v|] eqn:Hv.
    + injection Hst as Habs <-. rewrite <- Habs in Hx. destruct (H4 uid q Hx) as (t & [->|Ht]%elem_of_cons & Hq); [done|].
      exists t. split; [by right|done].
    + injection Hst as Habs <-. rewrite <- Habs in Hx. apply lookup_insert_Some in Hx as [[_ [= <-]]|[_ Hx]].
      * eexists. split; [by left|done].
      * destruct (H4 uid q Hx) as (t & [->|Ht]%elem_of_cons & Hq); [done|]. exists t. split; [by right|done].
Qed.

Lemma finish_ok assumed state host err : step_ok back e (PFinish assumed state host err).
Proof.
  intros s g ts mp mn s' g' p' new Hi Hgen. cbn [step]. pose proof (own_pod _ _ _ _ _ _ _ Hi eq_refl) as Hpod.
  pose proof Hi as [H1 _ _ _ _]. set (ev := EvFinish (qpi_Pod assumed) (e_now e)).
  destruct (finishBinding _ _ _ _) as [c ok] eqn:Hf. intros [= <- <- <- <-]. simpl.
  assert (CacheEvents.exec lsci overhead ttl ev (SchedulerCache s) = Ret (c, ok)) as He by (simpl; by rewrite Hf).
  apply (move_cache s g (PFinish assumed state host err) _ ts mp mn ev c ok); try done.
  - destruct err; [by intros pod [= <-]|by rewrite back_idle].
  - intros q [= <-]. destruct err; [by left|right].
    destruct (cache_part s mp mn ev c ok H1) as (_ & _ & Hst); try done.
    simpl in Hst. rewrite (served_key _ Hpod) in Hst.
    destruct (abs (SchedulerCache s) !! pod_UID (qpi_Pod assumed)) as [[q []]|] eqn:Hq;
      injection Hst as Habs _; rewrite <- Habs, ?lookup_insert_eq, ?Hq; done.
Qed.

Lemma forget_ok assumed state : step_ok back e (PForget assumed state).
Proof.
  intros s g ts mp mn s' g' p' new Hi Hgen. cbn [step]. pose proof (own_pod _ _ _ _ _ _ _ Hi eq_refl) as Hpod.
  pose proof Hi as [H1 _ _ _ _]. set (ev := EvForget (qpi_Pod assumed)).
  destruct (ForgetPod _ _ _ _) as [[c ok]|] eqn:Hf; [|done]. intros [= <- <- <- <-]. simpl.
  apply (move_cache s g (PForget assumed state) _ ts mp mn ev c ok); try done.
  - by intros pod [= <-].
  - intros q [= <-]. right. destruct (cache_part s mp mn ev c ok H1) as (_ & _ & Hst); try done.
    simpl in Hst. rewrite (served_key _ Hpod) in Hst. intros Hc.
    destruct (abs (SchedulerCache s) !! pod_UID (qpi_Pod assumed)) as [[q []]|] eqn:Hq; [|injection Hst as Habs _; congruence..].
    case_bool_decide as Hn; injection Hst as Habs _; rewrite <- Habs in Hc; [by rewrite lookup_delete_eq in Hc|].
    rewrite Hq in Hc. injection Hc as -> _. done.
Qed.

(** The steps that leave the cache alone. *)
Lemma stay_ok p p' s s' g ts mp mn :
  inv_on s g (p :: ts) mp mn → SchedulerCache s' = SchedulerCache s → SchedulingQueue s' = SchedulingQueue s →
  (∀ pod, pod_of p' = Some pod → served api pod) → (∀ q, holds p = Some q → holds p' = Some q) →
  inv_on s' g (p' :: ts) mp mn.
Proof.
  intros Hi Hc Hq Hp Hh. pose proof Hi as [H1 H2 _ _ _]. apply (move_same s s' g p p'); try done; [|by rewrite Hq].
  destruct H1 as [I1 I2 I3 I4]. split; rewrite ?Hc, ?Hq; done.
Qed.

Lemma queue_ok p p' s g ts mp mn ev q a :
  inv_on s g (p :: ts) mp mn → QueueEvents.coherent (SchedulingQueue s) ev → (∀ pod, brings ev pod → served api pod) →
  QueueEvents.exec lessFn initial maximum clusterEventMap nsSelectorEnabled namespaceLabels range ev (SchedulingQueue s) =
    Some (Ret (q, a)) →
  (∀ pod, pod_of p' = Some pod → served api pod) → (∀ q, holds p = Some q → holds p' = Some q) →
  inv_on (set_queue s q) g (p' :: ts) mp mn.
Proof.
  intros Hi Hco Hb He Hp Hh. pose proof Hi as [H1 H2 _ _ _].
  destruct (queue_part s mp mn ev q a H1 H2 Hco Hb He) as (Hs & Hall & _). by apply (move_same s _ g p p').
Qed.

Lemma permit_ok assumed state host : step_ok back e (PPermit assumed state host).
Proof.
  intros s g ts mp mn s' g' p' new Hi _. cbn [step]. pose proof (own_pod _ _ _ _ _ _ _ Hi eq_refl) as Hpod.
  assert (∀ s1 o, SchedulerCache s1 = SchedulerCache s → SchedulingQueue s1 = SchedulingQueue s →
    holds o = Some (qpi_Pod assumed) → pod_of o = Some (qpi_Pod assumed) → inv_on s1 g (o :: ts) mp mn) as Hgo.
  { intros s1 o Hc Hq Hh Ho. apply (stay_ok (PPermit assumed state host) o s); try done.
    - rewrite Ho. by intros pod [= <-].
    - rewrite Hh. by intros q [= <-]. }
  unfold permit. destruct (frameworkForPod frameworks (qpi_Pod assumed)) as [fwk|].
  2: { intros [= <- <- <- <-]. by apply Hgo. }
  destruct (RunReservePluginsReserve _ _ _ _) as [state1 sts]. destruct (IsSuccess sts); cbn [negb].
  2: { intros [= <- <- <- <-]. by apply Hgo. }
  destruct (RunPermitPlugins _ _ _ _ _ _) as [[state2 w] status]. destruct (_ && _).
  { intros [= <- <- <- <-]. by apply Hgo. }
  intros [= <- <- <- <-]. apply inv_on_idle; [done|]. by apply Hgo.
Qed.

Lemma receive_ok assumed state host ref : step_ok back e (PReceive assumed state host ref).
Proof.
  intros s g ts mp mn s' g' p' new Hi _. cbn [step]. pose proof (own_pod _ _ _ _ _ _ _ Hi eq_refl) as Hpod.
  destruct (wpm_receive _ _) as [[status w]|]; [|done]. cbn [mbind option_bind]. intros [= <- <- <- <-].
  (apply (stay_ok (PReceive assumed state host ref) _ s); try done); by intros ? [= <-].
Qed.

Lemma received_ok assumed state host status : step_ok back e (PReceived assumed state host status).
Proof.
  intros s g ts mp mn s' g' p' new Hi _. cbn [step]. pose proof (own_pod _ _ _ _ _ _ _ Hi eq_refl) as Hpod.
  intros [= <- <- <- <-].
  apply (stay_ok (PReceived assumed state host status) _ s); try done; destruct (IsSuccess _); by intros ? [= <-].
Qed.

Lemma bind_ok assumed state host : step_ok back e (PBind assumed state host).
Proof.
  intros s g ts mp mn s' g' p' new Hi _. cbn [step]. pose proof (own_pod _ _ _ _ _ _ _ Hi eq_refl) as Hpod.
  intros [= <- <- <- <-]. unfold prebind_and_bind.
  assert (∀ o, holds o = Some (qpi_Pod assumed) → pod_of o = Some (qpi_Pod assumed) → inv_on s g (o :: ts) mp mn) as Hgo.
  { intros o Hh Ho. apply (stay_ok (PBind assumed state host) o s); try done.
    - rewrite Ho. by intros pod [= <-].
    - rewrite Hh. by intros q [= <-]. }
  destruct (frameworkForPod frameworks (qpi_Pod assumed)) as [fwk|]; [|by apply Hgo].
  destruct (RunPreBindPlugins _ _ _ _) as [state1 status]. destruct (IsSuccess status); cbn [negb]; [|by apply Hgo].
  destruct (bind _ _ _ _ _) as [state2 err]. by apply Hgo.
Qed.

Lemma error_ok podInfo err nominatedNode : step_ok back e (PError podInfo err nominatedNode).
Proof.
  intros s g ts mp mn s' g' p' new Hi Hfair. cbn [step]. pose proof (own_pod _ _ _ _ _ _ _ Hi eq_refl) as Hpod.
  intros [= <- <- <- <-]. apply (stay_ok (PError podInfo err nominatedNode) _ s); try done.
  unfold error_func. set (podInfo' := match err with EFit d => _ | _ => _ end).
  assert (qpi_Pod podInfo' = qpi_Pod podInfo) as He by (unfold podInfo'; by destruct err).
  destruct (e_cached e) as [cached|] eqn:Hcached; [|intros pod [= <-]; by rewrite He].
  destruct (Hfair cached Hcached) as [Hapi _]. destruct (_ =? _)%nat; simpl; [|intros pod [= <-]; by rewrite He].
  intros pod [= <-]. unfold qpi_Pod. simpl. by apply served_api.
Qed.

Lemma all_ok p : step_ok back e p.
Proof.
  destruct p.
  - apply next_ok.
  - apply check_ok.
  - apply schedule_ok.
  - apply assume_ok.
  - intros s g ts mp mn s' g' p' new Hi _. cbn [step]. intros [= <- <- <- <-].
    pose proof (own_pod _ _ _ _ _ _ _ Hi eq_refl) as Hpod.
    eapply (queue_ok _ _ s g ts mp mn (EDenominate (qpi_Pod assumed))); try done; by intros ? [= <-].
  - apply permit_ok.
  - intros s g ts mp mn s' g' p' new Hi _. cbn [step]. pose proof (own_pod _ _ _ _ _ _ _ Hi eq_refl) as Hpod.
    destruct (wpm_get _ _); intros [= <- <- <- <-]; (eapply stay_ok; [exact Hi|done|done|..]); by intros ? [= <-].
  - apply receive_ok.
  - apply received_ok.
  - apply bind_ok.
  - apply finish_ok.
  - apply forget_ok.
  - apply error_ok.
  - intros s g ts mp mn s' g' p' new Hi _. cbn [step]. pose proof (own_pod _ _ _ _ _ _ _ Hi eq_refl) as Hpod.
    intros [= <- <- <- <-]. (eapply stay_ok; [exact Hi|done|done|..]); by intros ? [= <-].
  - intros s g ts mp mn s' g' p' new Hi Hfair. cbn [step]. pose proof (own_pod _ _ _ _ _ _ _ Hi eq_refl) as Hpod.
    destruct (AddUnschedulableIfNotPresent _ _ _ _ _ _) as [q ok] eqn:Hadd. intros [= <- <- <- <-].
    eapply (queue_ok _ _ s g ts mp mn (EAddUnschedulable podInfo podSchedulingCycle (e_now e))); try done.
    + by intros pod ->.
    + cbn [QueueEvents.exec]. by rewrite Hadd.
    + by intros ? [= <-].
  - intros s g ts mp mn s' g' p' new Hi Hfair. cbn [step]. intros [= <- <- <- <-].
    eapply (queue_ok _ _ s g ts mp mn (ENominate (qpi_ref podInfo, qpi_PodInfo podInfo) nominatedNode)); try done.
    by rewrite back_idle.
  - by intros s g ts mp mn s' g' p' new Hi _.
Qed.
End Steps.

(** ** Steps of others *)

Local Abbreviation queue_runs := (queue_run lessFn initial maximum clusterEventMap nsSelectorEnabled namespaceLabels range).
Local Abbreviation queue_inv := (queue_inv lessFn initial maximum ra rb ru).
Local Abbreviation all_served := (queue_all (served api)).

Lemma queue_run_all es : ∀ q,
  forallb queue_moves es = true → queue_inv q → all_served (view_of q) → all_served (view_of (queue_runs es q)).
Proof.
  induction es as [|ev es IH]; intros q He Hq Hall; [done|]. apply andb_true_iff in He as [He Hes]. simpl.
  assert (QueueEvents.coherent q ev) as Hco by by destruct ev.
  destruct (queue_event_step lessFn initial maximum clusterEventMap nsSelectorEnabled namespaceLabels range ra rb ru
    range_keys q ev Hq Hco) as (q' & a & -> & Hq' & Hst). apply IH; [done|done|].
  eapply queue_all_step; [done|done|]. by destruct ev.
Qed.

(** What the queue's handler brings is one of the objects of its notification. *)
Lemma queue_pod_brings s n now ref ev pod :
  queue_pod_event s n now ref = Some ev → brings ev pod → mentions n pod.
Proof.
  destruct n as [x y|x|x]; simpl; intros He Hb.
  - destruct (unscheduled_filter _ y), (unscheduled_filter _ x); try done.
    + destruct x as [o|], y as [o'|]; simpl in He; try done. destruct (_ || _); [done|].
      injection He as <-. simpl in Hb. subst. by right.
    + destruct y as [o'|]; [|done]. injection He as <-. simpl in Hb. subst. by right.
    + destruct (final_object x); [|done]. by injection He as <-.
  - destruct (unscheduled_filter _ x); [|done]. destruct x as [o|]; [|done]. injection He as <-. simpl in Hb. by subst.
  - destruct (unscheduled_filter _ x); [|done]. destruct (final_object x); [|done]. by injection He as <-.
Qed.

Lemma other_queue s mp mn ev s' :
  sched_inv s mp mn → all_served (view_of (SchedulingQueue s)) → outside s ev → execute ev s = Some (Ret s') →
  (∀ n now, ev = SPod n now → live_note n = true) → (∀ n now, ev = SNode n now → live_note n = true) →
  all_served (view_of (SchedulingQueue s')).
Proof.
  intros Hs Hall [Hal Hout] He Hp Hn. pose proof (si_queue _ _ _ _ _ _ _ _ _ _ _ _ Hs) as Hq.
  destruct ev as [n now|n now|n now ref|o now|ev|ev]; cbn [sched_exec] in He.
  - rewrite (podHandler_runs lsci overhead ttl) in He by by eapply Hp. unfold run_both in He.
    destruct (cache_run _ _ _ _ _) as [c|]; [|done]. injection He as <-. simpl. apply queue_run_all; try done. apply pod_queue_moves.
  - rewrite (nodeHandler_runs lsci overhead ttl lessFn initial maximum clusterEventMap nsSelectorEnabled namespaceLabels) in He by by eapply Hn. unfold run_both in He.
    destruct (cache_run _ _ _ _ _) as [c|]; [|done]. injection He as <-. simpl. apply queue_run_all; try done. apply node_queue_moves.
  - destruct Hal as [Hl Hco].
    pose proof (queueHandler_runs lessFn initial maximum clusterEventMap nsSelectorEnabled namespaceLabels range n now ref s Hl) as Hr.
    destruct (queue_pod_event s n now ref) as [qe|] eqn:Hqe; [|rewrite Hr in He; by injection He as <-].
    destruct (queue_step_inv lsci overhead lessFn initial maximum clusterEventMap nsSelectorEnabled namespaceLabels
      range ra rb ru range_keys api s mp mn qe Hs Hco) as (q & a & He' & _ & Hst).
    destruct (Hr q a He') as [profiles Hh]. rewrite Hh in He. injection He as <-. simpl.
    eapply queue_all_step; [done|done|]. intros pod Hb. apply served_api, Hout. by eapply queue_pod_brings.
  - injection He as <-. unfold onOther. destruct (other_name o) as [ev|]; [|done].
    exact (queue_run_all [EMoveAll ev now] _ eq_refl Hq Hall).
  - destruct (CacheEvents.exec _ _ _ _ _) as [[c ok]|]; [|done]. by injection He as <-.
  - destruct (QueueEvents.exec _ _ _ _ _ _ _ _ _) as [[[q a]|]|] eqn:Hqe; try done. injection He as <-.
    eapply (queue_part s mp mn ev q a); try done. by destruct ev.
Qed.

Local Abbreviation podKey := MetaNamespaceKeyFunc.
Local Abbreviation exact_pods := (exact_stream podKey fresh_pod).
Local Abbreviation exact_nodes := (exact_stream node_Name (λ o o', o' = o)).
Local Abbreviation pods_after := (foldl (apply_notification (key_of podKey))).
Local Abbreviation nodes_seen := (foldl (apply_notification (key_of node_Name))).

Lemma other_ok s g ts mp mn ev s' :
  inv_on s g ts mp mn → outside s ev → exact_pods mp (pod_notes [ev]) → exact_nodes mn (node_notes [ev]) →
  execute ev s = Some (Ret s') →
  inv_on s' g ts (pods_after mp (pod_notes [ev])) (nodes_seen mn (node_notes [ev])).
Proof.
  intros [H1 H2 H3 H4 H5] Hout Hep Hen He. pose proof Hout as [Hal Hcls].
  destruct (sched_event_step lsci overhead ttl lessFn initial maximum clusterEventMap nsSelectorEnabled namespaceLabels
    range ra rb ru range_keys api s mp mn ev H1 Hal Hep Hen) as (s1 & He1 & Hs1 & Hev & Hfol).
  rewrite He in He1. injection He1 as <-. destruct Hfol as [_ Hsub].
  { intros cev ->. by destruct cev. }
  split; [done| |done| |by eapply alg_ok_evolves].
  - apply (other_queue s mp mn ev s' H1 H2 Hout He).
    + intros n now ->. simpl in Hep. eapply exact_live. apply Hep.
    + intros n now ->. simpl in Hen. eapply exact_live. apply Hen.
  - intros uid q Hq. by apply (H4 uid), Hsub.
Qed.

Lemma threads_binding i p0 p bs (main : PC) new :
  bs !! i = Some p0 →
  main :: bs ≡ₚ p0 :: main :: delete i bs ∧
  main :: <[i := p]> bs ++ option_list new ≡ₚ p :: option_list new ++ main :: delete i bs.
Proof.
  intros Hi. rewrite (delete_Permutation bs i p0 Hi) at 1.
  assert (<[i := p]> bs !! i = Some p) as Hp by (apply list_lookup_insert_eq; by eapply lookup_lt_Some).
  split; [solve_Permutation|]. rewrite (delete_Permutation _ i p Hp).
  assert (delete i (<[i := p]> bs) = delete i bs) as ->; [|solve_Permutation].
  clear. revert i. induction bs as [|b bs IH]; intros [|i]; simpl; [done..|]. f_equal. apply IH.
Qed.

Local Abbreviation m_steps := m_step.

Lemma m_step_inv m ev m' mp mn :
  m_steps m ev m' → m_inv m mp mn →
  exact_pods mp (pod_notes (other_events [ev])) → exact_nodes mn (node_notes (other_events [ev])) →
  m_inv m' (pods_after mp (pod_notes (other_events [ev]))) (nodes_seen mn (node_notes (other_events [ev]))).
Proof.
  intros Hstep Hi Hep Hen. unfold m_inv, threads in *.
  destruct Hstep as [e s g p new Hfair Hrun|i e p0 s g p new Hb Hfair Hrun|ev s Hout Hex|profile ref we w wp wp' Hw Hu Hwt];
    cbn [other_events omap list_omap m_sched m_alg m_main m_bindings] in *.
  - simpl. rewrite (Permutation_app_comm (m_bindings m)). by eapply (all_ok PNext eq_refl e).
  - destruct (threads_binding i p0 p (m_bindings m) (m_main m) new Hb) as [E1 E2]. simpl. rewrite E2. rewrite E1 in Hi.
    by eapply (all_ok PDone eq_refl e).
  - by apply (other_ok (m_sched m)).
  - simpl. destruct Hi as [H1 H2 H3 H4 H5]. split; try done. apply queue_only; [done|apply H1].
Qed.

Lemma m_trace_inv m evs m' : trace m_steps m evs m' → ∀ mp mn,
  m_inv m mp mn → exact_pods mp (pod_notes (other_events evs)) → exact_nodes mn (node_notes (other_events evs)) →
  m_inv m' (pods_after mp (pod_notes (other_events evs))) (nodes_seen mn (node_notes (other_events evs))).
Proof.
  induction 1 as [m|m ev m1 evs m2 Hstep _ IH]; intros mp mn Hi Hp Hn; [done|].
  assert (∀ l l', pod_notes (l ++ l') = pod_notes l ++ pod_notes l' ∧ node_notes (l ++ l') = node_notes l ++ node_notes l') as Happ.
  { intros l l'. unfold pod_notes, node_notes. by rewrite !omap_app. }
  assert (other_events (ev :: evs) = other_events [ev] ++ other_events evs) as E by by destruct ev.
  destruct (Happ (other_events [ev]) (other_events evs)) as [Ep En]. rewrite E, Ep, En in *.
  apply exact_app in Hp as [Hp1 Hp2], Hn as [Hn1 Hn2]. rewrite !foldl_app. apply IH; try done. by eapply m_step_inv.
Qed.

Definition new_machine (gen : Z) (profiles : gmap string waitingPodsMap) (exts : list Extender) (percentage : Z) : machine :=
  mkMachine (new_scheduler ra rb ru gen profiles) (mkGeneric exts NewEmptySnapshot percentage 0) PNext [].

Lemma new_machine_inv gen profiles exts percentage :
  0 ≤ gen → extenders_filter exts → m_inv (new_machine gen profiles exts percentage) ∅ ∅.
Proof.
  intros Hg Hx. split; [by apply new_scheduler_inv|..]; simpl.
  - intros x pl q _. simpl. unfold place_of. simpl. by rewrite !lookup_empty.
  - intros t pod Ht. apply list_elem_of_singleton in Ht as ->. done.
  - intros uid q. by rewrite abs_lookup.
  - split; [|done]. exists (newSchedulerCache gen). split; [by apply empty_synced|done].
Qed.
End Machine.
