(* ===== verification/CyclePermits.v ===== *)
(** * Binding cycles that wait for a permit

    A binding cycle reads the channel of the waiting pod whose pointer it has
    got from its framework.  While no two binding cycles are in their permit
    phase for pods with the same UID, that channel has a status or the timer of
    a pending plugin will send one, whatever the informers, the plugins and the
    other goroutines do. *)

From S2P Require Import Prelude GoHeap SchedHeap Labels ApiTypes NodeInfo FwkStatus WaitingPods.
From S2P Require Import Parallelizer FeasibleSearch NodeTree SchedCache CacheEvents Snapshot SchedQueue QueueEvents.
From S2P Require Import Framework GenericScheduler DeltaFIFO RingGrowing Informer EventHandlers SchedulerEvents SchedulingCycle CycleEvents.
#[local] Open Scope Z_scope.

(** ** The waiting pods of a profile *)

Definition waiting (s : Scheduler) (profile : string) : waitingPodsMap :=
  default newWaitingPodsMap (Profiles s !! profile).

(** A profile's waiting pods, with the pods that have received their status
    ([R]) and those that wait for it at a pointer ([V]): the objects the map
    has, unless their status is received, and the ones that are waited for get
    a status. *)
Record profile_ok (R : list (string * string)) (V : list (string * string * nat)) (profile : string)
    (w : waitingPodsMap) : Prop := {
  po_entry uid ref : wpm_get w uid = Some ref →
    ∃ wp, wpm_heap w !! ref = Some wp ∧ pod_UID (wp_pod wp) = uid ∧ (alive wp ∨ (profile, uid) ∈ R);
  po_waiter uid ref : (profile, uid, ref) ∈ V →
    ∃ wp, wpm_heap w !! ref = Some wp ∧ pod_UID (wp_pod wp) = uid ∧ alive wp;
}.

Lemma profile_ok_mono R R' V V' profile w :
  profile_ok R V profile w → (∀ uid, (profile, uid) ∈ R → (profile, uid) ∈ R') →
  (∀ uid ref, (profile, uid, ref) ∈ V' → (profile, uid, ref) ∈ V) → profile_ok R' V' profile w.
Proof.
  intros [H1 H2] HR HV. split.
  - intros uid ref Hg. destruct (H1 uid ref Hg) as (wp & Hw & Hu & Ha). exists wp. naive_solver.
  - intros uid ref Hv. by apply H2, HV.
Qed.

Lemma profile_ok_new R V profile : (∀ uid ref, (profile, uid, ref) ∉ V) → profile_ok R V profile newWaitingPodsMap.
Proof. intros HV. split; [done|]. by intros uid ref ?%HV. Qed.

(** An object changes and does not lose its status. *)
Lemma profile_ok_set R V profile w ref wp wp' :
  profile_ok R V profile w → wpm_heap w !! ref = Some wp → wp_pod wp' = wp_pod wp → (alive wp → alive wp') →
  profile_ok R V profile (wpm_set w ref wp').
Proof.
  intros [H1 H2] Hwp Hpod Ha. split; intros uid ref' Hr; cbn [wpm_set wpm_heap].
  - destruct (H1 uid ref' Hr) as (wp1 & Hw1 & Hu & Ho). destruct (decide (ref' = ref)) as [->|Hne].
    + rewrite Hwp in Hw1. injection Hw1 as <-. exists wp'. rewrite lookup_insert_eq, Hpod. naive_solver.
    + exists wp1. by rewrite lookup_insert_ne.
  - destruct (H2 uid ref' Hr) as (wp1 & Hw1 & Hu & Ho). destruct (decide (ref' = ref)) as [->|Hne].
    + rewrite Hwp in Hw1. injection Hw1 as <-. exists wp'. rewrite lookup_insert_eq, Hpod. naive_solver.
    + exists wp1. by rewrite lookup_insert_ne.
Qed.

(** A new waiting pod is at an address of its own. *)
Lemma profile_ok_add R V profile w wp : profile_ok R V profile w → alive wp → profile_ok R V profile (wpm_add w wp).
Proof.
  intros [H1 H2] Ha. unfold wpm_add. set (ref := fresh (dom (wpm_heap w))).
  assert (wpm_heap w !! ref = None) as Hfresh by (apply not_elem_of_dom, is_fresh).
  assert (∀ r wp1, wpm_heap w !! r = Some wp1 → <[ref := wp]> (wpm_heap w) !! r = Some wp1) as Hold.
  { intros r wp1 Hr. rewrite lookup_insert_ne; [done|]. intros <-. by rewrite Hfresh in Hr. }
  split; intros uid r; cbn [wpm_heap]; unfold wpm_get; cbn [wpm_pods].
  - intros [[<- <-]|[_ Hr]]%lookup_insert_Some.
    + exists wp. rewrite lookup_insert_eq. by split_and!; [..|left].
    + destruct (H1 uid r Hr) as (wp1 & Hw & Ho). exists wp1. split; [by apply Hold|done].
  - intros Hr. destruct (H2 uid r Hr) as (wp1 & Hw & Ho). exists wp1. split; [by apply Hold|done].
Qed.

(** A pod receives its status. *)
Lemma profile_ok_receive R V profile w uid ref status w' :
  profile_ok R ((profile, uid, ref) :: V) profile w → wpm_receive w ref = Some (status, w') →
  (∀ r, (profile, uid, r) ∉ V) → profile_ok ((profile, uid) :: R) V profile w'.
Proof.
  intros [H1 H2] Hrec HV. destruct (H2 uid ref (list_elem_of_here _ _)) as (wp & Hwp & Hu & _).
  unfold wpm_receive in Hrec. rewrite Hwp in Hrec. cbn [mbind option_bind] in Hrec.
  destruct (signal wp) as [st|]; [|done]. cbn [mbind option_bind] in Hrec. injection Hrec as _ <-.
  split; intros u r Hr; cbn [wpm_set wpm_heap].
  - destruct (H1 u r Hr) as (wp1 & Hw1 & Hu1 & Ho). destruct (decide (r = ref)) as [->|Hne].
    + rewrite Hwp in Hw1. injection Hw1 as <-. eexists. rewrite lookup_insert_eq. split; [done|]. split; [done|].
      right. subst. by left.
    + exists wp1. rewrite lookup_insert_ne by done. rewrite elem_of_cons. naive_solver.
  - destruct (H2 u r ltac:(by right)) as (wp1 & Hw1 & Hu1 & Ho). exists wp1. rewrite lookup_insert_ne; [done|].
    intros <-. rewrite Hwp in Hw1. injection Hw1 as <-. rewrite <- Hu1, Hu in Hr. by eapply HV.
Qed.

(** The entry of a pod that has received its status is removed. *)
Lemma profile_ok_remove R V profile w uid :
  profile_ok ((profile, uid) :: R) V profile w → profile_ok R V profile (wpm_remove w uid).
Proof.
  intros [H1 H2]. split; [|done]. intros u r. unfold wpm_get. cbn [wpm_remove wpm_pods].
  intros [Hne Hr]%lookup_delete_Some. destruct (H1 u r Hr) as (wp & Hw & Hu & Ho). exists wp. split; [done|]. split; [done|].
  destruct Ho as [?|[[= ->]|?]%elem_of_cons]; [by left|done|by right].
Qed.

(** ** The goroutines *)

Section Permits.
Context {Data : Type} (clone : Data → Data) (lsci overhead : bool) (ttl : Z).
Context (lessFn : QueuedPodInfo → QueuedPodInfo → bool).
Context (initial maximum : Z) (clusterEventMap : list (ClusterEvent * gset string)).
Context (nsSelectorEnabled : bool) (namespaceLabels : string → Labels).
Context (range : gmap string QueuedPodInfo → list string).
Context (PreferNominatedNode : bool) (parallelism : nat).
Context (status_range : PluginToStatus → list string) (snapshot_range : gmap string nat → list string).
Context (frameworks : gmap string (frameworkImpl Data)) (duration : Z → string) (api : Pod → Prop).
Local Abbreviation PC := (pc Data).
Local Abbreviation m_steps := (m_step clone lsci overhead ttl lessFn initial maximum clusterEventMap nsSelectorEnabled
  namespaceLabels range PreferNominatedNode parallelism status_range snapshot_range frameworks duration api).
Local Abbreviation run_step := (step clone lsci overhead ttl lessFn initial maximum PreferNominatedNode parallelism
  status_range snapshot_range frameworks).
Local Abbreviation execute := (sched_exec lsci overhead ttl lessFn initial maximum clusterEventMap
  nsSelectorEnabled namespaceLabels range).
Implicit Types (s : Scheduler) (g : genericScheduler) (p : PC) (ts : list PC).

(** The profile and the UID of a pod. *)
Definition pod_id (q : QueuedPodInfo) : string * string := (pod_SchedulerName (qpi_Pod q), pod_UID (qpi_Pod q)).

(** The pod of a binding cycle in its permit phase, of one that waits, with the
    pointer it has, and of one that has received its status. *)
Definition in_permit (p : PC) : option (string * string) :=
  match p with PWait q _ _ | PReceive q _ _ _ | PReceived q _ _ _ => Some (pod_id q) | _ => None end.
Definition receiving (p : PC) : option (string * string * nat) :=
  match p with PReceive q _ _ ref => Some (pod_id q, ref) | _ => None end.
Definition received (p : PC) : option (string * string) :=
  match p with PReceived q _ _ _ => Some (pod_id q) | _ => None end.

(** No two binding cycles are in their permit phase for pods of the same UID. *)
Definition apart (m : machine (Data := Data)) : Prop := NoDup (omap in_permit (threads m)).

Definition waits_ok s ts : Prop :=
  ∀ profile, profile_ok (omap received ts) (omap receiving ts) profile (waiting s profile).

Lemma received_in_permit k ts : k ∈ omap received ts → k ∈ omap in_permit ts.
Proof. rewrite !list_elem_of_omap. intros (t & Ht & Hk). exists t. split; [done|]. by destruct t. Qed.

Lemma receiving_in_permit k ref ts : (k, ref) ∈ omap receiving ts → k ∈ omap in_permit ts.
Proof. rewrite !list_elem_of_omap. intros (t & Ht & Hk). exists t. split; [done|]. destruct t; naive_solver. Qed.

#[export] Instance waits_ok_perm s : Proper ((≡ₚ) ==> iff) (waits_ok s).
Proof.
  intros ts ts' Hp. split; intros H profile; (eapply profile_ok_mono; [apply H|..]); intros *; by rewrite Hp.
Qed.

Lemma waiting_set s profile profile' w :
  waiting (set_waiting s profile w) profile' = if decide (profile' = profile) then w else waiting s profile'.
Proof.
  unfold waiting. simpl. destruct (decide (profile' = profile)) as [->|Hne].
  - by rewrite lookup_insert_eq.
  - by rewrite lookup_insert_ne.
Qed.

(** A step that does not touch the waiting pods. *)
Lemma waits_same s s' p p' ts :
  waits_ok s (p :: ts) → Profiles s' = Profiles s → received p = None → receiving p' = None → waits_ok s' (p' :: ts).
Proof.
  intros H Hp Hr Hv profile. unfold waiting. rewrite Hp. specialize (H profile). cbn [omap list_omap] in *. rewrite Hr in H.
  rewrite Hv. eapply profile_ok_mono; [exact H|..].
  - intros uid Hu. destruct (received p'); [by right|done].
  - intros uid ref Hu. destruct (receiving p); [by right|done].
Qed.

(** A step that replaces the waiting pods of the pod's profile. *)
Lemma waits_changed s ts ts' profile w :
  waits_ok s ts → profile_ok (omap received ts') (omap receiving ts') profile w →
  (∀ profile' uid, profile' ≠ profile → (profile', uid) ∈ omap received ts → (profile', uid) ∈ omap received ts') →
  (∀ profile' uid ref, profile' ≠ profile → (profile', uid, ref) ∈ omap receiving ts' → (profile', uid, ref) ∈ omap receiving ts) →
  waits_ok (set_waiting s profile w) ts'.
Proof.
  intros H Hw HR HV profile'. rewrite waiting_set. destruct (decide (profile' = profile)) as [->|Hne]; [done|].
  eapply profile_ok_mono; [apply H|..]; intros *; [by apply HR|by apply HV].
Qed.

Lemma waits_set s ts profile w :
  waits_ok s ts → profile_ok (omap received ts) (omap receiving ts) profile w → waits_ok (set_waiting s profile w) ts.
Proof. intros H Hw. by eapply waits_changed. Qed.

(** ** Steps *)

(** What a binding cycle starts with. *)
Lemma permit_waits s e q st h s' r ts :
  waits_ok s ts → permit frameworks s e q st h = (s', r) →
  waits_ok s' ts ∧ match r with
                   | inl p => received p = None ∧ receiving p = None
                   | inr p => received p = None ∧ receiving p = None
                   end.
Proof.
  intros H. unfold permit. destruct (frameworkForPod _ _) as [fwk|]; [|by intros [= <- <-]].
  destruct (RunReservePluginsReserve _ _ _ _) as [st1 sts]. destruct (negb (IsSuccess sts)); [by intros [= <- <-]|].
  fold (waiting s (pod_SchedulerName (qpi_Pod q))).
  destruct (RunPermitPlugins _ _ _ _ _ _) as [[st2 w] status] eqn:Hrun.
  assert (waits_ok (set_waiting s (pod_SchedulerName (qpi_Pod q)) w) ts) as Hw.
  { apply waits_set; [done|]. specialize (H (pod_SchedulerName (qpi_Pod q))). unfold RunPermitPlugins in Hrun.
    destruct (permit_loop _ _ _ _ _) as [st3 [waits|st4]]; [|by injection Hrun as _ <- _].
    destruct (size waits =? 0)%nat eqn:Hz; [by injection Hrun as _ <- _|]. injection Hrun as _ <- _.
    apply profile_ok_add; [done|]. apply alive_new. intros ->. by rewrite map_size_empty in Hz. }
  destruct (_ && _); by intros [= <- <-].
Qed.

(** The goroutine gets the pointer to its waiting pod. *)
Lemma wait_waits q st h s ts ref :
  waits_ok s (PWait q st h :: ts) → NoDup (omap in_permit (PWait q st h :: ts)) →
  wpm_get (waiting s (pod_SchedulerName (qpi_Pod q))) (pod_UID (qpi_Pod q)) = Some ref →
  waits_ok s (PReceive q st h ref :: ts).
Proof.
  intros H Hnd Hg profile. specialize (H profile) as [H1 H2]. split; [done|]. intros uid r. cbn [omap list_omap receiving].
  intros [[= -> -> ->]|Hr]%elem_of_cons; [|by apply H2].
  destruct (H1 _ _ Hg) as (wp & Hw & Hu & [Ha|Hrec]); [by exists wp|exfalso].
  apply NoDup_cons in Hnd as [Hno _]. by apply Hno, received_in_permit.
Qed.

(** It receives its status. *)
Lemma receive_waits q st h s ts ref status w :
  waits_ok s (PReceive q st h ref :: ts) → NoDup (omap in_permit (PReceive q st h ref :: ts)) →
  wpm_receive (waiting s (pod_SchedulerName (qpi_Pod q))) ref = Some (status, w) →
  waits_ok (set_waiting s (pod_SchedulerName (qpi_Pod q)) w) (PReceived q st h status :: ts).
Proof.
  intros H Hnd Hrec. apply NoDup_cons in Hnd as [Hno _]. eapply waits_changed; [exact H|..].
  - eapply profile_ok_receive; [apply H|exact Hrec|]. intros r Hr. by apply Hno, (receiving_in_permit _ r).
  - intros profile' uid _ Hr. by right.
  - intros profile' uid r _ Hr. by right.
Qed.

(** It removes its entry. *)
Lemma remove_waits q st h status s ts p' :
  waits_ok s (PReceived q st h status :: ts) → received p' = None → receiving p' = None →
  waits_ok (set_waiting s (pod_SchedulerName (qpi_Pod q))
    (wpm_remove (waiting s (pod_SchedulerName (qpi_Pod q))) (pod_UID (qpi_Pod q)))) (p' :: ts).
Proof.
  intros H E1 E2. eapply waits_changed; [exact H|..]; cbn [omap list_omap]; rewrite ?E1, ?E2.
  - apply profile_ok_remove. apply (H (pod_SchedulerName (qpi_Pod q))).
  - intros profile' uid Hne [[= -> _]|?]%elem_of_cons; done.
  - done.
Qed.

(** The other steps of a goroutine leave the waiting pods alone. *)
Definition quiet_pc p : bool := match p with PPermit _ _ _ | PWait _ _ _ | PReceive _ _ _ _ | PReceived _ _ _ _ => false | _ => true end.

Lemma quiet_step back e p s g s' g' p' new :
  quiet_pc p = true → receiving back = None → run_step back e p s g = Some (Ret (s', g', p', new)) →
  new = None ∧ Profiles s' = Profiles s ∧ receiving p' = None.
Proof.
  intros Hq Hb. destruct p; try done; cbn [step].
  - unfold NextPod. by destruct (SchedQueue.Pop _ _) as [[qu [| | |info]]|]; intros [= <- <- <- <-].
  - destruct (frameworkForPod _ _); intros [= <- <- <- <-]; [|done]. by destruct (skipPodSchedule _ _).
  - destruct (attempt _ _ _ _ _ _ _ _ _ _ _ _) as [[g1 p1]|] eqn:Hat; [|done]. intros [= <- <- <- <-].
    unfold attempt in Hat. destruct (frameworkForPod _ _); [|by injection Hat as <- <-].
    destruct (Schedule _ _ _ _ _ _ _ _ _ _ _ _ _ _ _) as [[[g2 st] out]|]; [|done].
    cbn [mbind option_bind] in Hat. injection Hat as _ <-. by destruct out.
  - unfold assume. destruct (AssumePod _ _ _ _) as [c ok]. intros [= <- <- <- <-]. by destruct ok.
  - by intros [= <- <- <- <-].
  - intros [= <- <- <- <-]. unfold prebind_and_bind. destruct (frameworkForPod _ _); [|done].
    destruct (RunPreBindPlugins _ _ _ _). destruct (negb _); [done|]. by destruct (bind _ _ _ _ _).
  - destruct (finishBinding _ _ _ _). intros [= <- <- <- <-]. by destruct err.
  - destruct (ForgetPod _ _ _ _) as [[c ok]|]; [|done]. by intros [= <- <- <- <-].
  - intros [= <- <- <- <-]. unfold error_func. destruct (e_cached e); [|done]. by destruct (negb _).
  - by intros [= <- <- <- <-].
  - destruct (AddUnschedulableIfNotPresent _ _ _ _ _ _). by intros [= <- <- <- <-].
  - by intros [= <- <- <- <-].
Qed.

Lemma step_waits back e p s g ts s' g' p' new :
  waits_ok s (p :: ts) → NoDup (omap in_permit (p :: ts)) → received back = None → receiving back = None →
  run_step back e p s g = Some (Ret (s', g', p', new)) → waits_ok s' (p' :: option_list new ++ ts).
Proof.
  intros H Hnd Hb1 Hb2 Hrun. destruct (quiet_pc p) eqn:Hquiet.
  { destruct (quiet_step back e p s g s' g' p' new Hquiet Hb2 Hrun) as (-> & Hp & Hr). eapply waits_same; try done. by destruct p. }
  revert Hrun. destruct p as [| | | | |q st h|q st h|q st h ref|q st h status| | | | | | | |]; try done; cbn [step];
    fold (waiting s (pod_SchedulerName (qpi_Pod q))).
  - destruct (permit _ _ _ _ _ _) as [s1 r] eqn:Hpm. eapply permit_waits in Hpm as [Hw Hr]; [|exact H].
    destruct r as [p1|p1]; destruct Hr as [Hr1 Hr2]; intros [= <- <- <- <-]; simpl; [by eapply waits_same|].
    intros profile. specialize (Hw profile). cbn [omap list_omap] in *. by rewrite Hb1, Hb2, Hr1, Hr2.
  - destruct (wpm_get _ _) as [ref|] eqn:Hg; intros [= <- <- <- <-]; [by apply wait_waits|by eapply waits_same].
  - destruct (wpm_receive _ _) as [[status w]|] eqn:Hrec; [|done]. cbn [mbind option_bind]. intros [= <- <- <- <-].
    by eapply receive_waits.
  - intros [= <- <- <- <-]. eapply remove_waits; [exact H|..]; by destruct (IsSuccess _).
Qed.

(** What others do to the waiting pods: the handler of a deleted pod rejects it. *)
Definition rejected_in s s' : Prop :=
  Profiles s' = Profiles s ∨
  ∃ profile w uid, Profiles s !! profile = Some w ∧ Profiles s' = <[profile := RejectWaitingPod w uid]> (Profiles s).

Lemma rejected_same s s' : Profiles s' = Profiles s → rejected_in s s'.
Proof. by left. Qed.

Ltac outcome_cases H := unfold mbind, outcome_bind in H; repeat case_match; simplify_eq/=; try done.

(** A filter hands a notification on to at most one function of its handler. *)
Lemma filtered_handle {Obj} (R : Scheduler → Scheduler → Prop) f (h : ResourceEventHandler Obj Scheduler) n s s' :
  (∀ s, R s s) → (∀ obj s s', OnAdd h obj s = Ret s' → R s s') → (∀ obj obj' s s', OnUpdate h obj obj' s = Ret s' → R s s') →
  (∀ obj s s', OnDelete h obj s = Ret s' → R s s') → handle (FilteringResourceEventHandler f h) n s = Ret s' → R s s'.
Proof.
  intros Hr Ha Hu Hd. destruct n as [x y|x|x]; simpl; unfold Filtering_OnUpdate;
    intros He; repeat case_match; simplify_eq/=; eauto.
Qed.

Lemma pod_cache_profiles now n s s' :
  handle (cachePodHandler lsci overhead lessFn initial maximum clusterEventMap nsSelectorEnabled namespaceLabels range now) n s =
    Ret s' → Profiles s' = Profiles s.
Proof.
  assert (∀ obj s s', addPodToCache lsci overhead lessFn initial maximum clusterEventMap nsSelectorEnabled namespaceLabels range
    now obj s = Ret s' → Profiles s' = Profiles s) as Ha.
  { intros obj s1 s2 H. unfold addPodToCache in H. outcome_cases H. }
  assert (∀ obj s s', deletePodFromCache lsci overhead lessFn initial maximum clusterEventMap range now obj s = Ret s' →
    Profiles s' = Profiles s) as Hd.
  { intros obj s1 s2 H. unfold deletePodFromCache in H. outcome_cases H. }
  apply (filtered_handle (λ s s', Profiles s' = Profiles s)); [done|exact Ha| |exact Hd].
  intros obj obj' s1 s2 H. simpl in H. unfold updatePodInCache in H.
  destruct (live_object obj), (live_object obj'); try by simplify_eq/=. destruct (negb _); [|outcome_cases H].
  destruct (deletePodFromCache _ _ _ _ _ _ _ _ _ _) as [s3|] eqn:H3; [|done]. simpl in H. by rewrite (Ha _ _ _ H), (Hd _ _ _ H3).
Qed.

Lemma pod_queue_profiles now ref n s s' :
  handle (queuePodHandler lessFn initial maximum (Profiles s) now ref) n s = Ret s' → rejected_in s s'.
Proof.
  apply filtered_handle; [by left|..].
  - intros obj s1 s2 H. simpl in H. unfold addPodToSchedulingQueue in H. apply rejected_same. outcome_cases H.
  - intros obj obj' s1 s2 H. simpl in H. unfold updatePodInSchedulingQueue in H. apply rejected_same. outcome_cases H.
  - intros obj s1 s2 H. simpl in H. unfold deletePodFromSchedulingQueue in H. destruct (final_object obj) as [pod|]; [|by simplify_eq; left].
    destruct (SchedQueue.Delete _ _ _ _ _) as [q|]; [|done]. simpl in H.
    destruct (Profiles s1 !! _) as [w|] eqn:Hw; simplify_eq; [|by left]. right. by exists (pod_SchedulerName pod), w, (pod_UID pod).
Qed.

Lemma other_profiles ev s s' : execute ev s = Some (Ret s') → rejected_in s s'.
Proof.
  destruct ev as [n now|n now|n now ref|o now|ev|ev]; cbn [sched_exec]; intros H.
  - injection H as H. apply rejected_same. by eapply pod_cache_profiles.
  - injection H as H. apply rejected_same. destruct n as [x y|x|x]; simpl in H;
      unfold updateNodeInCache, addNodeToCache, deleteNodeFromCache in H; outcome_cases H.
  - injection H as H. by eapply pod_queue_profiles.
  - injection H as <-. apply rejected_same. unfold onOther. by destruct (other_name o).
  - apply rejected_same. injection H as H. outcome_cases H.
  - apply rejected_same. destruct (QueueEvents.exec _ _ _ _ _ _ _ _ _) as [r|]; [|done]. injection H as H. outcome_cases H.
Qed.

Lemma other_waits ev s s' ts : execute ev s = Some (Ret s') → waits_ok s ts → waits_ok s' ts.
Proof.
  intros He H. destruct (other_profiles ev s s' He) as [Hp|(profile & w & uid & Hw & Hp)]; intros profile'; unfold waiting; rewrite Hp.
  { apply H. }
  destruct (decide (profile' = profile)) as [->|Hne]; [|rewrite lookup_insert_ne by done; apply H].
  rewrite lookup_insert_eq. simpl. specialize (H profile). unfold waiting in H. rewrite Hw in H. simpl in H.
  unfold RejectWaitingPod. destruct (wpm_get w uid) as [ref|]; [|done]. destruct (wpm_heap w !! ref) as [wp|] eqn:Hwp; [|done].
  eapply profile_ok_set; [done|done|done|]. intros _. apply alive_reject.
Qed.

(** ** Histories *)

Lemma m_step_waits m ev m' :
  m_steps m ev m' → apart m → waits_ok (m_sched m) (threads m) → waits_ok (m_sched m') (threads m').
Proof.
  intros Hstep Hap H. unfold apart, threads in *.
  destruct Hstep as [e s g p new Hfair Hrun|i e p0 s g p new Hb Hfair Hrun|ev s Hout Hex|profile ref we w wp wp' Hw Hu Hwt];
    cbn [m_sched m_main m_bindings] in *.
  - rewrite (Permutation_app_comm (m_bindings m)). by eapply (step_waits PNext).
  - destruct (threads_binding i p0 p (m_bindings m) (m_main m) new Hb) as [E1 E2]. rewrite E2. rewrite E1 in H, Hap.
    by eapply (step_waits PDone).
  - by eapply other_waits.
  - apply waits_set; [done|]. specialize (H profile). unfold waiting in H. rewrite Hw in H. simpl in H.
    destruct (alive_step duration wp we wp' Hwt) as [Hpod Ha]. by eapply profile_ok_set.
Qed.

Lemma m_trace_waits m evs m' :
  trace (λ m ev m', apart m ∧ m_steps m ev m') m evs m' →
  waits_ok (m_sched m) (threads m) → waits_ok (m_sched m') (threads m').
Proof. induction 1 as [|m ev m1 evs m2 [Hap Hstep] _ IH]; intros H; [done|]. apply IH. by eapply m_step_waits. Qed.

(** A goroutine that waits is woken by a timer: from some time on the timer of a
    plugin can fire, and when it has, the goroutine goes on. *)
Definition timer_wakes (m : machine) (q : QueuedPodInfo) (t : PC) (ref : nat) : Prop :=
  ∃ plugin at_, ∀ now, at_ ≤ now →
    ∃ m', m_steps m (MSignal (pod_SchedulerName (qpi_Pod q)) ref (WFire plugin now)) m' ∧ threads m' = threads m ∧
      ∀ back e, ∃ r, run_step back e t (m_sched m') (m_alg m') = Some (Ret r).

Lemma waiting_wakes m q st h ref :
  waits_ok (m_sched m) (threads m) → PReceive q st h ref ∈ threads m →
  wpm_receive (waiting (m_sched m) (pod_SchedulerName (qpi_Pod q))) ref = None →
  timer_wakes m q (PReceive q st h ref) ref.
Proof.
  intros H Ht Hrec. destruct (H (pod_SchedulerName (qpi_Pod q))) as [_ Hv].
  destruct (Hv (pod_UID (qpi_Pod q)) ref) as (wp & Hwp & _ & Ha).
  { apply list_elem_of_omap. by exists (PReceive q st h ref). }
  assert (∃ w, Profiles (m_sched m) !! pod_SchedulerName (qpi_Pod q) = Some w) as [w Hw].
  { unfold waiting in Hwp. destruct (Profiles _ !! _); [by eexists|done]. }
  unfold waiting in Hwp, Hrec. rewrite Hw in Hwp, Hrec. simpl in Hwp, Hrec. unfold wpm_receive in Hrec. rewrite Hwp in Hrec.
  cbn [mbind option_bind] in Hrec. destruct (signal wp) as [|] eqn:Hs; [done|].
  destruct (alive_fires duration wp Ha Hs) as (plugin & at_ & Hf). exists plugin, at_. intros now Hnow.
  destruct (Hf now Hnow) as (wp' & status & Hwt & Hsig). eexists. split; [by eapply step_signal|]. split; [done|].
  intros back e. cbn [step m_sched set_waiting Profiles]. rewrite lookup_insert_eq. simpl. unfold wpm_receive.
  cbn [wpm_set wpm_heap]. rewrite lookup_insert_eq. cbn [mbind option_bind]. rewrite Hsig. by eexists.
Qed.
End Permits.
