(* ===== verification/CycleProps.v ===== *)
(** * What the scheduler guarantees with its cycles

    The guarantees of the machine of [CycleEvents]: the invariants along every
    history, with a goroutine for every pod that is assumed; that no goroutine
    panics or is stuck; that the decisions do not overcommit a node; and what
    becomes of a pod whose attempt fails. *)

From S2P Require Import Prelude GoHeap SchedHeap Quantity Labels ApiTypes NodeInfo FwkStatus WaitingPods NodeResourcesFit NodeAffinity.
From S2P Require Import Parallelizer FeasibleSearch NodeTree SchedCache CacheEvents Snapshot.
From S2P Require Import Framework NodeFilters GenericScheduler GenericProps ThreadSafeStore DeltaFIFO RingGrowing Informer InformerInv InformerEvents.
From S2P Require Import SchedQueue QueueInv QueueEvents EventHandlers SchedulerEvents SchedulingCycle CycleEvents CyclePermits.
#[local] Open Scope Z_scope.

Section Guarantees.
Context {Data : Type} (clone : Data → Data) (lsci overhead : bool) (ttl : Z).
Context (lessFn : QueuedPodInfo → QueuedPodInfo → bool) `{!StrictWeakOrder lessFn}.
Context (initial maximum : Z) (clusterEventMap : list (ClusterEvent * gset string)).
Context (nsSelectorEnabled : bool) (namespaceLabels : string → Labels).
Context (range : gmap string QueuedPodInfo → list string) (ra rb ru : option Z).
Context (range_keys : ∀ m, range m ≡ₚ (map_to_list m).*1).
Context (PreferNominatedNode : bool) (parallelism : nat).
Context (status_range : PluginToStatus → list string) (snapshot_range : gmap string nat → list string).
Context (frameworks : gmap string (frameworkImpl Data)) (duration : Z → string).
Context (api : Pod → Prop) `{!PodApi api}.
Context (status_keys : ∀ m, status_range m ≡ₚ (map_to_list m).*1) (clone_id : ∀ d, clone d = d).
Context (par : (0 < parallelism)%nat ∧ Z.of_nat parallelism ≤ 2 ^ 20).
Context (snapshot_keys : ∀ m, snapshot_range m ≡ₚ (map_to_list m).*1).

Local Abbreviation m_steps := (m_step clone lsci overhead ttl lessFn initial maximum clusterEventMap nsSelectorEnabled
  namespaceLabels range PreferNominatedNode parallelism status_range snapshot_range frameworks duration api).
Local Abbreviation run_step := (step clone lsci overhead ttl lessFn initial maximum PreferNominatedNode parallelism
  status_range snapshot_range frameworks).
Local Abbreviation m_invariant := (m_inv lsci overhead lessFn initial maximum ra rb ru api).
Local Abbreviation invariant_on := (inv_on lsci overhead lessFn initial maximum ra rb ru api).
Local Abbreviation podKey := MetaNamespaceKeyFunc.
Local Abbreviation new := (new_machine (Data := Data) ra rb ru).
Local Abbreviation cache_of m := (SchedulerCache (m_sched m)).
Local Abbreviation queue_of m := (SchedulingQueue (m_sched m)).

(** A history of a new machine whose cache listens to exact streams. *)
Definition reached (evs : list m_event) (m : machine) : Prop :=
  ∃ gen profiles exts percentage,
    0 ≤ gen ∧ extenders_filter exts ∧ trace m_steps (new gen profiles exts percentage) evs m ∧
    exact_stream podKey fresh_pod ∅ (pod_notes (other_events evs)) ∧
    exact_stream node_Name (λ o o', o' = o) ∅ (node_notes (other_events evs)).

Lemma reached_inv evs m :
  reached evs m →
  m_invariant m (replay (key_of podKey) (pod_notes (other_events evs)))
    (replay (key_of node_Name) (node_notes (other_events evs))).
Proof.
  intros (gen & profiles & exts & percentage & Hg & Hx & Ht & Hp & Hn).
  eapply (m_trace_inv clone lsci overhead ttl lessFn initial maximum clusterEventMap nsSelectorEnabled namespaceLabels range
    ra rb ru range_keys PreferNominatedNode parallelism status_range snapshot_range frameworks duration api
    par snapshot_keys); [done| |done|done]. by apply new_machine_inv.
Qed.


(** ** Progress *)

(** A history in which no two binding cycles are in their permit phase for pods
    of the same UID, of a machine without waiting pods. *)
Definition reached_apart (evs : list m_event) (m : machine) : Prop :=
  ∃ gen profiles exts percentage,
    0 ≤ gen ∧ extenders_filter exts ∧ (∀ name w, profiles !! name = Some w → w = newWaitingPodsMap) ∧
    trace (λ m ev m', apart m ∧ m_steps m ev m') (new gen profiles exts percentage) evs m ∧
    exact_stream podKey fresh_pod ∅ (pod_notes (other_events evs)) ∧
    exact_stream node_Name (λ o o', o' = o) ∅ (node_notes (other_events evs)).

Lemma reached_waits evs m : reached_apart evs m → waits_ok (m_sched m) (threads m).
Proof.
  intros (gen & profiles & exts & percentage & _ & _ & Hp & Ht & _). eapply m_trace_waits; [exact Ht|]. intros profile.
  unfold waiting. simpl. destruct (profiles !! profile) as [w|] eqn:Hw; simpl; [rewrite (Hp _ _ Hw)|];
    (apply profile_ok_new; intros * ?%not_elem_of_nil; done).
Qed.

(** The goroutine waits for a pod, or for the status of a waiting pod. *)
Definition waits (s : Scheduler) (t : pc Data) : Prop :=
  match t with
  | PNext => (∀ q, ¬ is_active (view_of (SchedulingQueue s)) q) ∧ closed (SchedulingQueue s) = false
  | PReceive assumed _ _ ref => wpm_receive (waiting s (pod_SchedulerName (qpi_Pod assumed))) ref = None
  | PDone => True
  | _ => False
  end.

Lemma progress s g p ts mp mn e back :
  invariant_on s g (p :: ts) mp mn → fair api s p e →
  waits s p ∨ ∃ e' r, fair api s p e' ∧ run_step back e' p s g = Some (Ret r).
Proof.
  intros Hi Hf. pose proof Hi as [H1 H2 _ _ H5]. pose proof H1 as [(Hinv & HA & _) _ _ Hq].
  destruct p as [|q|q|q st h|q st h|q st h|q st h|q st h ref|q st h status|q st h|q st h err|q st|q err nn|q nn|q cyc nn|q nn|]; cbn [waits step].
  - destruct (pop_step lessFn initial maximum clusterEventMap nsSelectorEnabled namespaceLabels ra rb ru (SchedulingQueue s) Hq Hf)
      as (q' & r & Hpop & _ & _ & Hans & _). unfold NextPod. rewrite Hpop.
    destruct r as [| | |info]; [by left| |done|]; right; exists e; by eexists.
  - right. exists e. destruct (frameworkForPod _ _); by eexists.
  - right. destruct Hf as [Hgen Hsize]. unfold attempt. destruct (frameworkForPod frameworks (qpi_Pod q)) as [fwk|].
    2: { exists e. by eexists. }
    destruct (schedule_exists clone lsci overhead (e_nominated e) status_range (generation (SchedulerCache s))
      PreferNominatedNode parallelism par snapshot_range snapshot_keys (SchedulerCache s) g fwk ∅
      (qpi_Pod q) []) as (o1 & o2 & [[g' st'] out] & Hr).
    { by destruct H5. }
    exists (mkEnv (e_now e) (mkChoices o1 o2 []) (e_nominated e) (e_ticks e) (e_cached e) (e_ref e)).
    cbn [e_choices e_nominated e_ticks]. rewrite Hr. by eexists.
  - right. exists e. destruct (assume _ _ _ _) as [s' ok]. by eexists.
  - right. exists e. by eexists.
  - right. exists e. destruct (permit _ _ _ _ _ _) as [s' [p'|b]]; by eexists.
  - right. exists e. destruct (wpm_get _ _); by eexists.
  - fold (waiting s (pod_SchedulerName (qpi_Pod q))). destruct (wpm_receive _ _) as [[status w]|]; [right|by left].
    exists e. by eexists.
  - right. exists e. by eexists.
  - right. exists e. by eexists.
  - right. exists e. destruct (finishBinding _ _ _ _). by eexists.
  - right. exists e. pose proof (own_pod _ _ _ _ _ _ _ _ _ _ _ _ _ _ _ _ Hi eq_refl) as Hpod.
    destruct (cycle_step lsci overhead ttl lessFn initial maximum ra rb ru api s mp mn (EvForget (qpi_Pod q)) H1)
      as (c' & ok & He & _); [done|]. simpl in He. rewrite He. by eexists.
  - right. exists e. by eexists.
  - right. exists e. by eexists.
  - right. exists e. destruct (AddUnschedulableIfNotPresent _ _ _ _ _ _). by eexists.
  - right. exists e. by eexists.
  - by left.
Qed.

Lemma no_panic s g p ts mp mn e back :
  invariant_on s g (p :: ts) mp mn → fair api s p e → run_step back e p s g ≠ Some Panic.
Proof.
  intros Hi Hf. pose proof Hi as [H1 _ _ _ _]. pose proof H1 as [_ _ _ Hq].
  destruct p as [|q|q|q st h|q st h|q st h|q st h|q st h ref|q st h status|q st h|q st h err|q st|q err nn|q nn|q cyc nn|q nn|]; cbn [step]; try done.
  - destruct (pop_step lessFn initial maximum clusterEventMap nsSelectorEnabled namespaceLabels ra rb ru (SchedulingQueue s) Hq Hf)
      as (q' & r & Hpop & _). unfold NextPod. rewrite Hpop. by destruct r.
  - by destruct (frameworkForPod _ _).
  - by destruct (attempt _ _ _ _ _ _ _ _ s g e q) as [[g1 p1]|].
  - by destruct (assume _ _ _ _) as [s' ok].
  - by destruct (permit _ _ _ _ _ _) as [s' [p'|b]].
  - by destruct (wpm_get _ _).
  - by destruct (wpm_receive _ _) as [[status w]|].
  - by destruct (finishBinding _ _ _ _).
  - pose proof (own_pod _ _ _ _ _ _ _ _ _ _ _ _ _ _ _ _ Hi eq_refl) as Hpod.
    destruct (cycle_step lsci overhead ttl lessFn initial maximum ra rb ru api s mp mn (EvForget (qpi_Pod q)) H1)
      as (c' & ok & He & _); [done|]. simpl in He. by rewrite He.
  - by destruct (AddUnschedulableIfNotPresent _ _ _ _ _ _).
Qed.

(** Each goroutine in turn. *)
Lemma thread_first evs m t :
  reached evs m → t ∈ threads m → ∃ ts mp mn, invariant_on (m_sched m) (m_alg m) (t :: ts) mp mn.
Proof.
  intros Hr%reached_inv [ts Hts]%elem_of_Permutation. eexists ts, _, _. by eapply inv_on_permuted.
Qed.

(** C12. No goroutine of the scheduler panics or is stuck.  In every state reached
    with exact streams, a goroutine that is not done can take its next step
    whatever the plugins do (the parallel search of the nodes has a run that
    ends), unless it is the main loop while the queue has no active pod and is
    not closed, or a binding cycle while the channel of its waiting pod is
    empty; and no step panics.  If in the history no two binding cycles are in
    their permit phase for pods of the same UID, a binding cycle that waits
    does not wait for ever: from some time on the timer of a plugin of its
    waiting pod can fire, and then the binding cycle can go on. *)
Theorem cycle_progress evs m t back :
  reached evs m → t ∈ threads m →
  (∀ e, fair api (m_sched m) t e → run_step back e t (m_sched m) (m_alg m) ≠ Some Panic) ∧
  ((∃ e, fair api (m_sched m) t e) →
   waits (m_sched m) t ∨
   ∃ e r, fair api (m_sched m) t e ∧ run_step back e t (m_sched m) (m_alg m) = Some (Ret r)) ∧
  (reached_apart evs m → ∀ assumed state host ref, t = PReceive assumed state host ref → waits (m_sched m) t →
   ∃ plugin at_, ∀ now, at_ ≤ now →
     ∃ m', m_steps m (MSignal (pod_SchedulerName (qpi_Pod assumed)) ref (WFire plugin now)) m' ∧ threads m' = threads m ∧
       ∀ back e, ∃ r, run_step back e t (m_sched m') (m_alg m') = Some (Ret r)).
Proof.
  intros Hr Ht. destruct (thread_first evs m t Hr Ht) as (ts & mp & mn & Hi).
  split; [intros e Hf; by eapply no_panic|]. split; [intros [e Hf]; by eapply progress|].
  intros Hw%reached_waits assumed state host ref -> Hwait. by eapply waiting_wakes.
Qed.

(** ** Failures *)


(** If the attempt fails after the pod is gone from the lister, the error
    function does not queue it, but its nomination is written again: after that
    step the nominator has the pod on its nominated node, if it has one. *)
Lemma cycle_stale_nomination back e e1 podInfo err nn s g :
  e_cached e = None →
  let pod := qpi_Pod podInfo in
  let node := if (String.length nn =? 0)%nat then pod_NominatedNodeName pod else nn in
  node ≠ EmptyString →
  ∃ info, run_step back e (PError podInfo err nn) s g = Some (Ret (s, g, PNominate info nn, None)) ∧ qpi_Pod info = pod ∧
    ∃ s1, run_step back e1 (PNominate info nn) s g = Some (Ret (s1, g, back, None)) ∧
      nominatedPodToNode (nominator (SchedulingQueue s1)) !! pod_UID pod = Some node ∧
      ∃ pi, pi ∈ NominatedPodsForNode (nominator (SchedulingQueue s1)) node ∧ pod_UID (pi_Pod pi) = pod_UID pod.
Proof.
  intros Hc pod node Hne. cbn [step]. unfold error_func. rewrite Hc.
  set (i := match err with EFit d => _ | _ => _ end). assert (qpi_Pod i = pod) as Hi by (unfold i; by destruct err).
  exists i. split; [done|]. split; [done|]. eexists. split; [done|].
  cbn [SchedulingQueue set_queue set_nominator nominator]. unfold AddNominatedPod, npm_add. cbn [snd].
  change (pi_Pod (qpi_PodInfo i)) with (qpi_Pod i). rewrite Hi. fold pod. unfold NominatedNodeName. fold node.
  assert ((String.length node =? 0)%nat = false) as Hz by (by destruct node).
  rewrite Hz. set (npm := mkNPM _ _). destruct (has_uid (pod_UID pod) (np_list npm node)) eqn:Hu.
  - split; [apply lookup_insert_eq|]. apply existsb_exists in Hu as (np & Hin & Heq). exists np.2.
    apply String.eqb_eq in Heq. split; [|done]. unfold NominatedPodsForNode. apply list_elem_of_fmap. exists np.
    split; [done|]. by apply list_elem_of_In.
  - split; [apply lookup_insert_eq|]. exists (qpi_PodInfo i). split; [|change (pod_UID (qpi_Pod i) = pod_UID pod); by rewrite Hi].
    unfold NominatedPodsForNode, np_list. cbn [nominatedPods]. rewrite lookup_insert_eq. simpl.
    rewrite fmap_app. apply elem_of_app. right. by left.
Qed.

(** ** No overcommitment *)

Section Fit.
Context (wrap : Resource → Data) (unwrap : Data → option Resource) (show : Data → string).

(** The resource filter is one of the filters, without resources to ignore, and
    of the plugins that run before only its own touches its state. *)
Record fit_enabled (fwk : frameworkImpl Data) : Prop := {
  fe_unwrap r : unwrap (wrap r) = Some r;
  fe_filter : filters_with fwk (λ state _ ni, NodeResourcesFit.Filter unwrap show ∅ ∅ state ni);
  fe_before : prefilter_key fwk preFilterStateKey (λ pod, wrap (computePodResourceRequest lsci overhead pod));
}.

Lemma passes_fits fwk pod ni :
  fit_enabled fwk → passes fwk (RunPreFilterPlugins fwk ∅ pod).1 pod ni → Fits lsci overhead pod ni = [].
Proof.
  intros Hfe Hp%(passes_with _ _ _ _ _ (fe_filter _ Hfe)).
  unfold NodeResourcesFit.Filter, getPreFilterState, CycleState_Read in Hp.
  destruct (prefilter_key_kept fwk _ _ ∅ pod (fe_before _ Hfe)) as [Hs|Hs]; [by left|by rewrite Hs in Hp|].
  rewrite Hs, (fe_unwrap _ Hfe) in Hp. unfold Fits. destruct (fitsRequest _ _ _ _); done.
Qed.

(** What [Schedule] has found when [scheduleOne] goes on to assume the pod. *)
Lemma attempt_assume s g e podInfo g' state host :
  ready lsci overhead (SchedulerCache s) g →
  attempt clone lsci overhead PreferNominatedNode parallelism status_range snapshot_range frameworks s g e podInfo =
    Some (g', PAssume podInfo state host) →
  ∃ fwk ni, frameworks !! pod_SchedulerName (qpi_Pod podInfo) = Some fwk ∧ infos (SchedulerCache s) !! host = Some ni ∧
    is_Some (node ni) ∧ passes fwk (RunPreFilterPlugins fwk ∅ (qpi_Pod podInfo)).1 (qpi_Pod podInfo) ni.
Proof.
  intros Hready. unfold attempt, frameworkForPod. destruct (frameworks !! _) as [fwk|]; [|done].
  destruct (Schedule _ _ _ _ _ _ _ _ _ _ _ _ _ _ _) as [[[g2 st] out]|] eqn:Hsch; [|done].
  cbn [mbind option_bind]. intros [= _ Hout]. destruct out as [r| | |]; try done. injection Hout as _ <-.
  apply schedule_spec in Hsch as (_ & _ & Hok); try done.
  apply suggested_node in Hok as (ni & Hni & _ & Hp); try done; [|apply Hready].
  apply live_infos_lookup in Hni as [Hni Hnode]. by exists fwk, ni.
Qed.

(** Assuming the pod adds it to its node. *)
Lemma assume_adds s podInfo host ref s' :
  cache_inv lsci overhead (SchedulerCache s) → generation (SchedulerCache s) + 3 ≤ max_int64 →
  assume lsci overhead s (with_node (DeepCopy podInfo ref) host) = (s', true) →
  ∀ ni, infos (SchedulerCache s) !! host = Some ni →
  ∃ gen, infos (SchedulerCache s') !! host = Some (NodeInfo.AddPod lsci overhead ni (set_NodeName (qpi_Pod podInfo) host) gen).1.
Proof.
  intros [([l Hsi] & _ & _ & _ & H0) _] Hgen. unfold assume, AssumePod.
  change (qpi_Pod (with_node (DeepCopy podInfo ref) host)) with (set_NodeName (qpi_Pod podInfo) host).
  destruct (GetPodKey _) as [k|]; [|done]. destruct (podStates _ !! k); [done|]. intros [= <-] ni Hni.
  destruct (addPod_spec lsci overhead (SchedulerCache s) l (set_NodeName (qpi_Pod podInfo) host) Hsi H0)
    as (gen & ni' & Hadd & Hinf & _); [lia|]. exists gen. simpl.
  change (infos (set_pods ?c _ _)) with (infos c). rewrite Hinf, lookup_insert_eq.
  unfold info_or_new in Hadd. simpl in Hadd. rewrite Hni in Hadd. simpl in Hadd. by rewrite <- Hadd.
Qed.

(** C2. Scheduling does not overcommit a node.  In a history with exact streams,
    let a profile have the resource filter, without resources to ignore, and
    let the algorithm suggest a host for a pod whose summed requests are not
    negative.  The host is a node of the cache; and if the entry of that node is
    the same when the pod is assumed on it, whatever else has happened in
    between, and what the node's pods request was within what the node can
    allocate already, then the node holds the pod, still requests no more than
    it can allocate, in every dimension, and holds no more pods than it allows. *)
Theorem schedule_no_overcommit evs m e m1 podInfo state host fwk :
  reached evs m → m_steps m (MMain e) m1 → m_main m = PSchedule podInfo → m_main m1 = PAssume podInfo state host →
  frameworks !! pod_SchedulerName (qpi_Pod podInfo) = Some fwk → fit_enabled fwk →
  (∀ d, 0 ≤ get d (calculateResource lsci overhead (qpi_Pod podInfo)).1.1) →
  ∃ ni, infos (cache_of m) !! host = Some ni ∧ is_Some (node ni) ∧
    ∀ evs2 m2 e2 m3 assumed, reached evs2 m2 → m_main m2 = PAssume podInfo state host → infos (cache_of m2) !! host = Some ni →
      m_steps m2 (MMain e2) m3 → m_main m3 = PDenominate assumed state host →
      within ni → Z.of_nat (length (Pods ni)) < max_int64 →
      ∃ ni', infos (cache_of m3) !! host = Some ni' ∧ qpi_Pod assumed ∈ node_pods ni' ∧ within ni' ∧
        Z.of_nat (length (Pods ni')) ≤ AllowedPodNumber (Allocatable ni').
Proof.
  intros Hr Hst Hmain Hmain1 Hfwk Hfe Hreq. destruct (reached_inv evs m Hr) as [[(Hinv & _) _ _ _] _ _ _ [Hsy Hext]].
  inversion Hst as [e' s1 g1 p1 new1 Hfair Hrun| | |]; subst. cbn [m_main] in Hmain1. subst p1. rewrite Hmain in Hfair, Hrun.
  cbn [step] in Hrun. destruct Hfair as [Hgen Hsize].
  destruct (attempt _ _ _ _ _ _ _ _ (m_sched m) (m_alg m) e podInfo) as [[g2 p2]|] eqn:Hat; [|done].
  injection Hrun as _ _ -> _. apply attempt_assume in Hat as (fwk' & ni & Hfwk' & Hni & Hnode & Hp); [|done].
  rewrite Hfwk in Hfwk'. injection Hfwk' as <-. exists ni. split; [done|]. split; [done|].
  intros evs2 m2 e2 m3 assumed Hr2 Hmain2 Hni2 Hst2 Hmain3 Hw Hlen. destruct (reached_inv evs2 m2 Hr2) as [[(Hinv2 & _) _ _ _] _ _ _ _].
  inversion Hst2 as [e' s3 g3 p3 new3 Hfair Hrun| | |]; subst. cbn [m_main m_sched] in *. subst p3. rewrite Hmain2 in Hfair, Hrun.
  cbn [step] in Hrun. destruct (assume lsci overhead (m_sched m2) _) as [s4 ok] eqn:Has. injection Hrun as <- _ Hp3 _.
  destruct ok; [|done]. injection Hp3 as <-.
  destruct (assume_adds _ _ _ _ _ Hinv2 Hfair Has ni Hni2) as [gen Hadd]. eexists. split; [exact Hadd|].
  destruct (fit_no_overcommit lsci overhead (set_NodeName (qpi_Pod podInfo) host) ni gen Hw Hreq Hlen) as [H1 H2].
  { by apply (passes_fits fwk) in Hp. }
  split; [|done]. unfold node_pods, NodeInfo.AddPod, AddPodInfo. destruct (calculateResource _ _ _) as [[? ?] ?]. simpl.
  rewrite fmap_app. apply elem_of_app. right. by left.
Qed.
End Fit.

(** ** Constraints *)

Section Constraints.
Context (wrapA : RequiredNodeAffinity → Data) (unwrapA : Data → option RequiredNodeAffinity).
Context (wrapP : list ContainerPort → Data) (unwrapP : Data → option (list ContainerPort)) (showP : Data → string).
Context (added : option (list NodeSelectorTerm)).

(** The filters for the node's name, the cordon, taints, affinity and ports are
    among the filters, and of the plugins that run before only their own touch
    their states. *)
Record constraints_enabled (fwk : frameworkImpl Data) : Prop := {
  ce_unwrapA r : unwrapA (wrapA r) = Some r;
  ce_unwrapP l : unwrapP (wrapP l) = Some l;
  ce_name : filters_with fwk (λ _ pod ni, nodename_Filter pod ni);
  ce_unschedulable : filters_with fwk (λ _ pod ni, unschedulable_Filter pod ni);
  ce_taints : filters_with fwk (λ _ pod ni, taint_Filter pod ni);
  ce_affinity : filters_with fwk (affinity_Filter unwrapA (NewLazyErrorNodeSelector <$> added));
  ce_ports : filters_with fwk (λ state _ ni, ports_Filter unwrapP showP state ni);
  ce_beforeA : prefilter_key fwk affinity_preFilterStateKey (λ pod, wrapA (GetRequiredNodeAffinity pod));
  ce_beforeP : prefilter_key fwk ports_preFilterStateKey (λ pod, wrapP (getContainerPorts [pod]));
}.

Lemma passes_may_run fwk pod ni n :
  constraints_enabled fwk → node ni = Some n → passes fwk (RunPreFilterPlugins fwk ∅ pod).1 pod ni → may_run added pod ni n.
Proof.
  intros Hce Hn Hp.
  destruct (prefilter_key_kept fwk _ _ ∅ pod (ce_beforeP _ Hce)) as [HsP|HsP]; [by left|..].
  { apply (passes_with _ _ _ _ _ (ce_ports _ Hce)) in Hp. unfold ports_Filter, ports_getPreFilterState, CycleState_Read in Hp.
    by rewrite HsP in Hp. }
  destruct (node_affinity_filter wrapA unwrapA added (RunPreFilterPlugins fwk ∅ pod).1 pod ni n (ce_unwrapA _ Hce) Hn) as [Haff Hcode].
  { destruct (prefilter_key_kept fwk _ _ ∅ pod (ce_beforeA _ Hce)) as [HsA|HsA]; [by left|by left|right].
    exists (RunPreFilterPlugins fwk ∅ pod).1. symmetry. by apply insert_id. }
  destruct (proj1 Haff) as [Hadded Hsel].
  { apply (passes_with _ _ _ _ _ (ce_affinity _ Hce)) in Hp. destruct Hcode as [?|[rs Hrs]]; [done|]. by rewrite Hrs in Hp. }
  split; [..|done|done|].
  - apply (nodename_exact pod ni n Hn). apply (passes_with _ _ _ _ _ (ce_name _ Hce)) in Hp. unfold nodename_Filter in *.
    rewrite Hn in *. by destruct (nodename_Fits pod n).
  - apply (unschedulable_exact pod ni n Hn). apply (passes_with _ _ _ _ _ (ce_unschedulable _ Hce)) in Hp. unfold unschedulable_Filter in *.
    rewrite Hn in *. cbv zeta in *. by destruct (node_Unschedulable n && _).
  - apply (taint_exact pod ni n Hn). apply (passes_with _ _ _ _ _ (ce_taints _ Hce)) in Hp. unfold taint_Filter in *.
    rewrite Hn in *. by destruct (FindMatchingUntoleratedTaint _ _ _).
  - apply (ports_exact pod ni wrapP unwrapP showP _ (ce_unwrapP _ Hce) HsP). apply (passes_with _ _ _ _ _ (ce_ports _ Hce)) in Hp.
    unfold ports_Filter, ports_getPreFilterState, CycleState_Read in *. rewrite HsP, (ce_unwrapP _ Hce) in *. by destruct (fitsPorts _ _).
Qed.

(** C13. A pod is only sent where it may run.  In a history with exact streams,
    where a profile has the filters for constraints, a host the algorithm has
    suggested is a node of the cache on which the pod may run: it has the name
    the pod asks for, the pod tolerates its cordon and its taints, its labels
    and name satisfy the pod's node selector and required affinity and the
    affinity of the configuration, and the pod's host ports are free. *)
Theorem schedule_constraints evs m e m1 podInfo state host fwk :
  reached evs m → m_steps m (MMain e) m1 → m_main m = PSchedule podInfo → m_main m1 = PAssume podInfo state host →
  frameworks !! pod_SchedulerName (qpi_Pod podInfo) = Some fwk → constraints_enabled fwk →
  ∃ ni n, infos (cache_of m) !! host = Some ni ∧ node ni = Some n ∧ may_run added (qpi_Pod podInfo) ni n.
Proof.
  intros Hr Hst Hmain Hmain1 Hfwk Hce. destruct (reached_inv evs m Hr) as [[(Hinv & _) _ _ _] _ _ _ [Hsy Hext]].
  inversion Hst as [e' s1 g1 p1 new1 Hfair Hrun| | |]; subst. cbn [m_main] in Hmain1. subst p1. rewrite Hmain in Hfair, Hrun.
  cbn [step] in Hrun. destruct Hfair as [Hgen Hsize].
  destruct (attempt _ _ _ _ _ _ _ _ (m_sched m) (m_alg m) e podInfo) as [[g2 p2]|] eqn:Hat; [|done].
  injection Hrun as _ _ -> _. apply attempt_assume in Hat as (fwk' & ni & Hfwk' & Hni & [n Hn] & Hp); [|done].
  rewrite Hfwk in Hfwk'. injection Hfwk' as <-. exists ni, n. split; [done|]. split; [done|]. by apply (passes_may_run fwk).
Qed.
End Constraints.
End Guarantees.

(** ** Examples *)

Section Sample.
Local Open Scope string_scope.

Definition cycle_pod (version node : string) : Pod :=
  mkPod "a" "ns" "uid-a" version ∅ [mkContainer [] (sample_requests 500 4096)] [] None node None None EmptyString
    "default-scheduler" {["disk" := "ssd"]} [mkToleration "spot" "Exists" "" ""] ∅ [] [] None [] None None [] "" None [].
Definition cycle_api (p : Pod) : Prop := p = cycle_pod "1" "" ∨ p = cycle_pod "2" "n".

#[local] Instance cycle_PodApi : PodApi cycle_api.
Proof. split; [by intros p [-> | ->]|..]; intros p q [-> | ->] [-> | ->]; done. Qed.

Definition cycle_node : Node :=
  mkNode "n" {["disk" := "ssd"]} (<["pods" := NewQuantity 110 DecimalSI]> (sample_requests 8000 (2 ^ 30))) [] false
    [mkTaint "spot" "yes" "NoSchedule" None] [].

(** A framework with the resource filter, the filters for constraints and a
    permit plugin that lets every pod wait. *)
Inductive cycle_data := DFit (r : Resource) | DAffinity (r : RequiredNodeAffinity) | DPorts (l : list ContainerPort).
Definition un_fit (d : cycle_data) : option Resource := match d with DFit r => Some r | _ => None end.
Definition un_affinity (d : cycle_data) : option RequiredNodeAffinity := match d with DAffinity r => Some r | _ => None end.
Definition un_ports (d : cycle_data) : option (list ContainerPort) := match d with DPorts l => Some l | _ => None end.

Definition fit_framework : frameworkImpl cycle_data :=
  mkFramework
    [mkPreFilter "NodeResourcesFit" (PreFilter true true DFit) None;
     mkPreFilter "NodePorts" (ports_PreFilter DPorts) None;
     mkPreFilter "NodeAffinity" (affinity_PreFilter DAffinity) None]
    [mkFilter "NodeUnschedulable" (λ _, unschedulable_Filter);
     mkFilter "NodeName" (λ _, nodename_Filter);
     mkFilter "TaintToleration" (λ _, taint_Filter);
     mkFilter "NodeAffinity" (affinity_Filter un_affinity None);
     mkFilter "NodePorts" (λ state _ ni, ports_Filter un_ports (λ _, "") state ni);
     mkFilter "NodeResourcesFit" (λ state _ ni, NodeResourcesFit.Filter un_fit (λ _, "") ∅ ∅ state ni)]
    [] [] [] [] [mkPermit "Wait" (λ state _ _, (state, Some (NewStatus Wait []), 60))] [] [] ∅ false.

Lemma fit_framework_key key value :
  (∀ pl, pl ∈ preFilterPlugins fit_framework →
    (∀ state pod, pre_PreFilter pl state pod = (<[key := value pod]> state, None)) ∨
    ∃ key' value', key' ≠ key ∧ ∀ state pod, pre_PreFilter pl state pod = (<[key' := value' pod]> state, None)) →
  prefilter_key fit_framework key value.
Proof.
  intros H pl Hpl. destruct (H pl Hpl) as [Hw|(key' & value' & Hne & Hw)]; [left|right]; intros state pod; rewrite Hw; cbn [fst].
  - apply lookup_insert_eq.
  - by apply lookup_insert_ne.
Qed.

Ltac framework_filter i := eexists; split; [apply (list_elem_of_lookup_2 _ i); reflexivity|reflexivity].
Ltac framework_key :=
  apply fit_framework_key; intros pl Hpl; rewrite list_elem_of_In in Hpl;
  destruct Hpl as [<-|[<-|[<-|[]]]]; first [by left|right; eexists _, _; split; [|by intros; simpl]; done].

Lemma fit_framework_enabled : fit_enabled true true DFit un_fit (λ _, "") fit_framework.
Proof. split; [done|framework_filter 5%nat|framework_key]. Qed.

Lemma framework_constraints : constraints_enabled DAffinity un_affinity DPorts un_ports (λ _, "") None fit_framework.
Proof. split; [done|done|framework_filter 1%nat|framework_filter 0%nat|framework_filter 2%nat|
  framework_filter 3%nat|framework_filter 4%nat|framework_key|framework_key]. Qed.

Definition cycle_env (cached : option Pod) : env :=
  mkEnv 0 (mkChoices [] (repeat 0%nat 7) []) (λ _, []) 0 cached 7.

Definition cycle_status_range (m : PluginToStatus) : list string := (map_to_list m).*1.
Definition cycle_frameworks : gmap string (frameworkImpl cycle_data) := {["default-scheduler" := fit_framework]}.

Local Abbreviation sample_step := (step id true true 30 PrioritySort_Less 1 10 false 1 cycle_status_range
  Snapshot.sample_range cycle_frameworks).
Local Abbreviation sample_exec := (sched_exec true true 30 PrioritySort_Less 1 10 [] false (λ _, ∅) QueueEvents.sample_range).
Local Abbreviation sample_m_step := (m_step id true true 30 PrioritySort_Less 1 10 [] false (λ _, ∅)
  QueueEvents.sample_range false 1 cycle_status_range Snapshot.sample_range cycle_frameworks (λ _, "") cycle_api).

Definition cycle_next (m : machine (Data := cycle_data)) (e : m_event) : machine :=
  match e with
  | MMain e =>
      match sample_step PNext e (m_main m) (m_sched m) (m_alg m) with
      | Some (Ret (s, g, p, new)) => mkMachine s g p (m_bindings m ++ option_list new)
      | _ => m
      end
  | MBinding i e =>
      match sample_step PDone e (default PDone (m_bindings m !! i)) (m_sched m) (m_alg m) with
      | Some (Ret (s, g, p, new)) => mkMachine s g (m_main m) (<[i := p]> (m_bindings m) ++ option_list new)
      | _ => m
      end
  | MOther ev =>
      match sample_exec ev (m_sched m) with
      | Some (Ret s) => mkMachine s (m_alg m) (m_main m) (m_bindings m)
      | _ => m
      end
  | _ => m
  end.

(** A node and a pod arrive, the pod is popped, scheduled and assumed, its
    binding cycle starts and waits for a permit. *)
Definition cycle_events : list m_event :=
  [MOther (SNode (addNotification (Live cycle_node)) 0);
   MOther (SQueuePod (addNotification (Live (cycle_pod "1" ""))) 0 1)] ++ repeat (MMain (cycle_env None)) 6 ++
  [MBinding 0 (cycle_env None)].
Definition cycle_start : machine (Data := cycle_data) := new_machine (Some 0) (Some 0) (Some 0) 0 {["default-scheduler" := newWaitingPodsMap]} [] 0.
Definition cycle_state (n : nat) : machine (Data := cycle_data) := foldl cycle_next cycle_start (take n cycle_events).

Lemma cycle_main n m e :
  cycle_next m (MMain e) = n →
  match sample_step PNext e (m_main m) (m_sched m) (m_alg m) with Some (Ret _) => true | _ => false end = true →
  fair cycle_api (m_sched m) (m_main m) e → sample_m_step m (MMain e) n.
Proof.
  intros <- Hs Hf. unfold cycle_next. destruct (sample_step _ _ _ _ _) as [[[[[s g] p] new]|]|] eqn:He; try done.
  by apply step_main.
Qed.

Lemma cycle_main_steps k :
  (k < 6)%nat → sample_m_step (cycle_state (2 + k)) (MMain (cycle_env None)) (cycle_state (3 + k)).
Proof.
  intros Hk. assert (k = 0 ∨ k = 1 ∨ k = 2 ∨ k = 3 ∨ k = 4 ∨ k = 5)%nat as Hc by lia.
  destruct Hc as [-> | [-> | [-> | [-> | [-> | ->]]]]]; (apply cycle_main; [vm_compute; reflexivity|vm_compute; reflexivity|]).
  - vm_compute. reflexivity.
  - done.
  - split; vm_compute; discriminate.
  - vm_compute. discriminate.
  - vm_compute. exact I.
  - vm_compute. exact I.
Qed.

Lemma cycle_binding_step : sample_m_step (cycle_state 8) (MBinding 0 (cycle_env None)) (cycle_state 9).
Proof.
  assert (∃ q st h, m_bindings (cycle_state 8) = [PWait q st h]) as (q & st & h & Hb) by (eexists _, _, _; vm_compute; reflexivity).
  assert (∃ s g p new, sample_step PDone (cycle_env None) (default PDone (m_bindings (cycle_state 8) !! 0%nat))
    (m_sched (cycle_state 8)) (m_alg (cycle_state 8)) = Some (Ret (s, g, p, new))) as (s & g & p & new & Hs)
    by (eexists _, _, _, _; vm_compute; reflexivity).
  assert (cycle_next (cycle_state 8) (MBinding 0 (cycle_env None)) = cycle_state 9) as <- by (vm_compute; reflexivity).
  unfold cycle_next. rewrite Hs. eapply step_binding; [by rewrite Hb|done|]. by rewrite Hb in Hs.
Qed.

Lemma no_copies q r uid :
  active q = ∅ → backoff q = ∅ → unsched q = ∅ → nominatedPods (nominator q) = ∅ → ¬ has_copy q r uid.
Proof.
  intros H1 H2 H3 H4 [H|[H|[H|H]]].
  - destruct H as (k & i & Hk & _). by rewrite H1 in Hk.
  - destruct H as (k & i & Hk & _). by rewrite H2 in Hk.
  - destruct H as (k & i & Hk & _). by rewrite H3 in Hk.
  - destruct H as (x & np & Hx & _). unfold np_list in Hx. rewrite H4, lookup_empty in Hx. by apply not_elem_of_nil in Hx.
Qed.

Lemma cycle_other_steps :
  sample_m_step cycle_start (MOther (SNode (addNotification (Live cycle_node)) 0)) (cycle_state 1) ∧
  sample_m_step (cycle_state 1) (MOther (SQueuePod (addNotification (Live (cycle_pod "1" ""))) 0 1)) (cycle_state 2).
Proof.
  assert (∀ m ev s, sample_exec ev (m_sched m) = Some (Ret s) → outside cycle_api (m_sched m) ev →
    sample_m_step m (MOther ev) (cycle_next m (MOther ev))) as Hstep.
  { intros m ev s He Ho. unfold cycle_next. rewrite He. by apply step_other. }
  split; (eapply Hstep; [vm_compute; reflexivity|]).
  - split; [vm_compute; discriminate|done].
  - split; [|intros o [= <-]; by left]. split; [done|].
    assert (queue_pod_event (m_sched (cycle_state 1)) (addNotification (Live (cycle_pod "1" ""))) 0 1 =
      Some (EAdd (cycle_pod "1" "") 0 1)) as -> by (vm_compute; reflexivity).
    split; [repeat split; vm_compute; reflexivity|].
    intros uid Hc. exfalso. revert Hc. apply no_copies; vm_compute; reflexivity.
Qed.

Lemma cycle_steps n : (n < 9)%nat → ∃ ev, cycle_events !! n = Some ev ∧ sample_m_step (cycle_state n) ev (cycle_state (S n)).
Proof.
  destruct cycle_other_steps as [H1 H2]. intros Hn.
  assert (n = 0 ∨ n = 1 ∨ n = 8 ∨ ∃ k, n = 2 + k ∧ k < 6)%nat as [-> | [-> | [-> | (k & -> & Hk)]]].
  { destruct n as [|[|k]]; [by left|right; by left|]. right. right. destruct (decide (k = 6%nat)) as [->|]; [by left|].
    right. exists k. lia. }
  - eexists. split; [reflexivity|exact H1].
  - eexists. split; [reflexivity|exact H2].
  - eexists. split; [reflexivity|apply cycle_binding_step].
  - eexists. split; [|by apply cycle_main_steps]. do 6 (destruct k as [|k]; [reflexivity|]). lia.
Qed.

Lemma cycle_apart n : (n ≤ 9)%nat → apart (cycle_state n).
Proof.
  intros Hn. do 10 (destruct n as [|n]; [apply (bool_decide_eq_true_1 _); vm_compute; reflexivity|]). lia.
Qed.

Lemma cycle_trace n : (n ≤ 9)%nat →
  trace (λ m ev m', apart m ∧ sample_m_step m ev m') cycle_start (take n cycle_events) (cycle_state n).
Proof.
  induction n as [|n IH]; intros Hn; [constructor|]. destruct (cycle_steps n Hn) as (ev & Hev & Hstep).
  rewrite (take_S_r _ _ _ Hev). eapply trace_app; [apply IH; lia|].
  econstructor; [split; [apply cycle_apart; lia|exact Hstep]|constructor].
Qed.

Lemma cycle_exact n : (n ≤ 9)%nat →
  exact_stream MetaNamespaceKeyFunc fresh_pod ∅ (pod_notes (other_events (take n cycle_events))) ∧
  exact_stream node_Name (λ o o', o' = o) ∅ (node_notes (other_events (take n cycle_events))).
Proof.
  intros Hn. destruct n as [|n]; [done|]. do 9 (destruct n as [|n]; [split; [done|split; [by exists cycle_node|done]]|]). lia.
Qed.

Lemma no_extenders_filter : extenders_filter [].
Proof. by intros ext ? ? ? ? ? ?%not_elem_of_nil. Qed.

Lemma cycle_reached_apart n : (n ≤ 9)%nat →
  reached_apart id true true 30 PrioritySort_Less 1 10 [] false (λ _, ∅) QueueEvents.sample_range (Some 0) (Some 0) (Some 0)
    false 1 cycle_status_range Snapshot.sample_range cycle_frameworks (λ _, "") cycle_api (take n cycle_events) (cycle_state n).
Proof.
  intros Hn. exists 0, {["default-scheduler" := newWaitingPodsMap]}, [], 0. split; [done|]. split; [apply no_extenders_filter|].
  split; [by intros name w [_ <-]%lookup_singleton_Some|]. split; [by apply cycle_trace|by apply cycle_exact].
Qed.

Lemma cycle_reached n : (n ≤ 9)%nat →
  reached id true true 30 PrioritySort_Less 1 10 [] false (λ _, ∅) QueueEvents.sample_range (Some 0) (Some 0) (Some 0)
    false 1 cycle_status_range Snapshot.sample_range cycle_frameworks (λ _, "") cycle_api (take n cycle_events) (cycle_state n).
Proof.
  intros Hn. exists 0, {["default-scheduler" := newWaitingPodsMap]}, [], 0. split; [done|]. split; [apply no_extenders_filter|].
  split; [|by apply cycle_exact]. eapply trace_impl; [|by apply cycle_trace]. by intros m ev m' [_ H].
Qed.

(** *** Witnesses *)

Definition assumed_sample : Pod := set_NodeName (cycle_pod "1" "") "n".


(** The binding cycle of the sample waits for a permit, and is woken. *)
Definition sample_waits (m : machine (Data := cycle_data)) : bool :=
  match m_bindings m with
  | [PReceive q _ _ ref] =>
      (pod_SchedulerName (qpi_Pod q) =? "default-scheduler") &&
      match wpm_receive (waiting (m_sched m) "default-scheduler") ref with None => true | Some _ => false end
  | _ => false
  end.

Lemma sample_waits_spec m :
  sample_waits m = true →
  ∃ q st h ref, m_bindings m = [PReceive q st h ref] ∧ pod_SchedulerName (qpi_Pod q) = "default-scheduler" ∧
    waits (m_sched m) (PReceive q st h ref).
Proof.
  unfold sample_waits. destruct (m_bindings m) as [|[| | | | | | |q st h ref| | | | | | | | |] [|]]; try done.
  intros [Hname%String.eqb_eq Hr]%andb_true_iff. exists q, st, h, ref. split; [done|]. split; [done|]. simpl. rewrite Hname.
  by destruct (wpm_receive _ _).
Qed.

Lemma cycle_progress_witness :
  ∃ q st h ref plugin at_, m_bindings (cycle_state 9) = [PReceive q st h ref] ∧
    ∀ now, (at_ ≤ now)%Z → ∃ m', sample_m_step (cycle_state 9) (MSignal "default-scheduler" ref (WFire plugin now)) m' ∧
      ∀ e, ∃ r, sample_step PDone e (PReceive q st h ref) (m_sched m') (m_alg m') = Some (Ret r).
Proof.
  destruct (sample_waits_spec (cycle_state 9)) as (q & st & h & ref & Hb & Hname & Hw); [vm_compute; reflexivity|].
  destruct (cycle_progress id true true 30 PrioritySort_Less 1 10 [] false (λ _, ∅) QueueEvents.sample_range
    (Some 0) (Some 0) (Some 0) QueueEvents.sample_range_keys false 1 cycle_status_range Snapshot.sample_range cycle_frameworks
    (λ _, "") cycle_api ltac:(lia) (λ m, Permutation_refl _) (take 9 cycle_events) (cycle_state 9) (PReceive q st h ref) PDone)
    as (_ & _ & H).
  - apply cycle_reached. lia.
  - unfold threads. rewrite Hb. right. left.
  - destruct (H (cycle_reached_apart 9 ltac:(lia)) q st h ref eq_refl Hw) as (plugin & at_ & Hf).
    exists q, st, h, ref, plugin, at_. split; [exact Hb|]. intros now Hnow. destruct (Hf now Hnow) as (m' & Hs & _ & Hgo).
    rewrite Hname in Hs. exists m'. split; [exact Hs|]. intros e. exact (Hgo PDone e).
Defined.


Definition cycle_info : NodeInfo := default zero_NodeInfo (infos (SchedulerCache (m_sched (cycle_state 4))) !! "n").

Lemma cycle_info_within : within cycle_info.
Proof.
  intros [| | |name]; [vm_compute; split; [split|]; discriminate..|].
  assert (ScalarResources (Requested cycle_info) = ∅ ∧ ScalarResources (Allocatable cycle_info) = ∅) as [H1 H2]
    by (split; vm_compute; reflexivity).
  unfold get, scalar. rewrite H1, H2, lookup_empty. simpl. unfold max_int64. lia.
Qed.

Lemma schedule_no_overcommit_witness :
  ∃ ni', infos (SchedulerCache (m_sched (cycle_state 6))) !! "n" = Some ni' ∧ assumed_sample ∈ node_pods ni' ∧ within ni'.
Proof.
  set (info := incr_Attempts (newQueuedPodInfo 1 (cycle_pod "1" "") 0)).
  assert (∃ state, m_main (cycle_state 5) = PAssume info state "n" ∧
    m_main (cycle_state 6) = PDenominate (with_node (DeepCopy info 7) "n") state "n") as (state & Hm5 & Hm6).
  { eexists. split; vm_compute; reflexivity. }
  destruct (schedule_no_overcommit id true true 30 PrioritySort_Less 1 10 [] false (λ _, ∅) QueueEvents.sample_range
    (Some 0) (Some 0) (Some 0) QueueEvents.sample_range_keys false 1 cycle_status_range Snapshot.sample_range cycle_frameworks
    (λ _, "") cycle_api (λ m, Permutation_refl _) (λ d, eq_refl) ltac:(lia) (λ m, Permutation_refl _) DFit un_fit (λ _, "")
    (take 4 cycle_events) (cycle_state 4) (cycle_env None) (cycle_state 5) info state "n" fit_framework)
    as (ni & Hni & _ & H);
    [..|assert (ni = cycle_info) as Hi by (unfold cycle_info; rewrite Hni; reflexivity)].
  - apply cycle_reached. lia.
  - apply (cycle_main_steps 2). lia.
  - vm_compute. reflexivity.
  - exact Hm5.
  - exact (lookup_singleton_eq "default-scheduler" fit_framework).
  - apply fit_framework_enabled.
  - intros [| | |name]; [vm_compute; discriminate..|].
    assert (ScalarResources (calculateResource true true (qpi_Pod info)).1.1 = ∅) as E by (vm_compute; reflexivity).
    unfold get, scalar. rewrite E, lookup_empty. simpl. lia.
  - destruct (H (take 5 cycle_events) (cycle_state 5) (cycle_env None) (cycle_state 6) (with_node (DeepCopy info 7) "n"))
      as (ni' & H1 & H2 & H3 & _).
    + apply cycle_reached. lia.
    + exact Hm5.
    + rewrite <- Hni. vm_compute. reflexivity.
    + apply (cycle_main_steps 3). lia.
    + exact Hm6.
    + rewrite Hi. apply cycle_info_within.
    + rewrite Hi. vm_compute. reflexivity.
    + exists ni'. split; [exact H1|]. split; [exact H2|exact H3].
Defined.

Lemma schedule_constraints_witness :
  ∃ ni n, infos (SchedulerCache (m_sched (cycle_state 4))) !! "n" = Some ni ∧ node ni = Some n ∧
    may_run None (cycle_pod "1" "") ni n.
Proof.
  set (info := incr_Attempts (newQueuedPodInfo 1 (cycle_pod "1" "") 0)).
  assert (∃ state, m_main (cycle_state 5) = PAssume info state "n") as [state Hm5] by (eexists; vm_compute; reflexivity).
  apply (schedule_constraints id true true 30 PrioritySort_Less 1 10 [] false (λ _, ∅) QueueEvents.sample_range
    (Some 0) (Some 0) (Some 0) QueueEvents.sample_range_keys false 1 cycle_status_range Snapshot.sample_range cycle_frameworks
    (λ _, "") cycle_api (λ m, Permutation_refl _) (λ d, eq_refl) ltac:(lia) (λ m, Permutation_refl _)
    DAffinity un_affinity DPorts un_ports (λ _, "") None
    (take 4 cycle_events) (cycle_state 4) (cycle_env None) (cycle_state 5) info state "n" fit_framework).
  - apply cycle_reached. lia.
  - apply (cycle_main_steps 2). lia.
  - vm_compute. reflexivity.
  - exact Hm5.
  - exact (lookup_singleton_eq "default-scheduler" fit_framework).
  - apply framework_constraints.
Defined.

Definition is_suggestion (o : option (genericScheduler * gmap string cycle_data * schedule_outcome)) : bool :=
  match o with Some (_, _, Suggested _) => true | _ => false end.

Lemma sample_suggestion : ∃ g state r, Schedule id true true (λ _, []) cycle_status_range 0 false 1 Snapshot.sample_range
      (SchedulerCache (m_sched (cycle_state 4))) (m_alg (cycle_state 4)) fit_framework ∅ (cycle_pod "1" "")
      (e_choices (cycle_env None)) = Some (g, state, Suggested r).
Proof.
  assert (is_suggestion (Schedule id true true (λ _, []) cycle_status_range 0 false 1 Snapshot.sample_range
    (SchedulerCache (m_sched (cycle_state 4))) (m_alg (cycle_state 4)) fit_framework ∅ (cycle_pod "1" "")
    (e_choices (cycle_env None))) = true) as H by (vm_compute; reflexivity).
  destruct (Schedule _ _ _ _ _ _ _ _ _ _ _ _ _ _ _) as [[[g state] [r| | |]]|]; try discriminate H. by exists g, state, r.
Qed.

Lemma schedule_sound_witness :
  ∃ g state r, Schedule id true true (λ _, []) cycle_status_range 0 false 1 Snapshot.sample_range
      (SchedulerCache (m_sched (cycle_state 4))) (m_alg (cycle_state 4)) fit_framework ∅ (cycle_pod "1" "")
      (e_choices (cycle_env None)) = Some (g, state, Suggested r) ∧
    ∃ ni, live_infos (SchedulerCache (m_sched (cycle_state 4))) !! SuggestedHost r = Some ni ∧
      passes fit_framework (RunPreFilterPlugins fit_framework ∅ (cycle_pod "1" "")).1 (cycle_pod "1" "") ni.
Proof.
  destruct (schedule_sound id true true (λ _, []) cycle_status_range 0 false 1 (λ m, Permutation_refl _) (λ d, eq_refl)
    ltac:(lia) Snapshot.sample_range (λ m, Permutation_refl _) (SchedulerCache (m_sched (cycle_state 4))) (m_alg (cycle_state 4))
    fit_framework ∅ (cycle_pod "1" "")) as [_ H].
  { destruct (reached_inv id true true 30 PrioritySort_Less 1 10 [] false (λ _, ∅) QueueEvents.sample_range
      (Some 0) (Some 0) (Some 0) QueueEvents.sample_range_keys false 1 cycle_status_range Snapshot.sample_range cycle_frameworks
      (λ _, "") cycle_api ltac:(lia) (λ m, Permutation_refl _) (take 4 cycle_events) (cycle_state 4)) as [[[Hinv _] _ _ _] _ _ _ [Hsy Hx]].
    - apply cycle_reached. lia.
    - split; [exact Hinv|]. split; [exact Hsy|]. split; [exact Hx|]. vm_compute. discriminate. }
  destruct sample_suggestion as (g & state & r & Hs).
  exists g, state, r. split; [exact Hs|]. destruct (H _ _ _ _ Hs) as (_ & _ & _ & Hsug). exact (Hsug r eq_refl).
Defined.
End Sample.
