(* ===== verification/Expectations.v ===== *)
(** * Expectations of controllers: [pkg/controller/controller_utils.go]

    What a controller waits to see before it acts again.  The store holds
    pointers: a reader gets the object of a controller and may change it after
    another has replaced it in the store.  Objects are numbered; errors of the
    store, whose key function cannot fail here, are left out.  Times are in
    nanoseconds. *)

From S2P Require Import Prelude.
#[local] Open Scope Z_scope.

Definition ExpectationsTimeout : Z := 5 * 60 * 10 ^ 9.

Record ControlleeExpectations := mkCE { exp_add : Z; exp_del : Z; exp_timestamp : Z }.

(** [ControllerExpectations] with the set of keys of
    [UIDTrackingControllerExpectations]. *)
Record Expectations := mkExpectations {
  ex_heap : gmap nat ControlleeExpectations;
  ex_store : gmap string nat;
  ex_next : nat;
  ex_uids : gmap string (gset string);
}.

Definition NewUIDTrackingControllerExpectations : Expectations := mkExpectations ∅ ∅ 0 ∅.

(** ** One object *)

Definition CE_Add (e : ControlleeExpectations) (add del : Z) : ControlleeExpectations :=
  mkCE (int64 (exp_add e + add)) (int64 (exp_del e + del)) (exp_timestamp e).

Definition Fulfilled (e : ControlleeExpectations) : bool := (exp_add e <=? 0) && (exp_del e <=? 0).

Definition isExpired (e : ControlleeExpectations) (now : Z) : bool := ExpectationsTimeout <? now - exp_timestamp e.

(** ** The store *)

Implicit Types r : Expectations.

(** The pointer; [None] if there is none. *)
Definition GetExpectations r (controllerKey : string) : option nat := ex_store r !! controllerKey.

Definition DeleteExpectations_ctl r (controllerKey : string) : Expectations :=
  match GetExpectations r controllerKey with
  | Some _ => mkExpectations (ex_heap r) (delete controllerKey (ex_store r)) (ex_next r) (ex_uids r)
  | None => r
  end.

Definition SatisfiedExpectations r (controllerKey : string) (now : Z) : bool :=
  match GetExpectations r controllerKey ≫= λ ref, ex_heap r !! ref with
  | Some exp => if Fulfilled exp then true else if isExpired exp now then true else false
  | None => true
  end.

Definition SetExpectations r (controllerKey : string) (add del now : Z) : Expectations :=
  mkExpectations (<[ex_next r := mkCE add del now]> (ex_heap r)) (<[controllerKey := ex_next r]> (ex_store r)) (S (ex_next r))
    (ex_uids r).

Definition ExpectCreations r (controllerKey : string) (adds now : Z) : Expectations := SetExpectations r controllerKey adds 0 now.
Definition ExpectDeletions_ctl r (controllerKey : string) (dels now : Z) : Expectations := SetExpectations r controllerKey 0 dels now.

(** [exp.Add] through a pointer. *)
Definition exp_Add r (ref : nat) (add del : Z) : Expectations :=
  mkExpectations (alter (λ e, CE_Add e add del) ref (ex_heap r)) (ex_store r) (ex_next r) (ex_uids r).

Definition LowerExpectations r (controllerKey : string) (add del : Z) : Expectations :=
  match GetExpectations r controllerKey with Some ref => exp_Add r ref (- add) (- del) | None => r end.

Definition RaiseExpectations r (controllerKey : string) (add del : Z) : Expectations :=
  match GetExpectations r controllerKey with Some ref => exp_Add r ref add del | None => r end.

Definition CreationObserved r (controllerKey : string) : Expectations := LowerExpectations r controllerKey 1 0.
Definition DeletionObserved_ctl r (controllerKey : string) : Expectations := LowerExpectations r controllerKey 0 1.

(** ** Tracking of UIDs *)

Definition GetUIDs r (controllerKey : string) : gset string := default ∅ (ex_uids r !! controllerKey).

Definition set_uids r (controllerKey : string) (uids : gset string) : Expectations :=
  mkExpectations (ex_heap r) (ex_store r) (ex_next r) (<[controllerKey := uids]> (ex_uids r)).

(** Under the lock. *)
Definition ExpectDeletions r (rcKey : string) (deletedKeys : list string) (now : Z) : Expectations :=
  let expectedUIDs := list_to_set deletedKeys in
  ExpectDeletions_ctl (set_uids r rcKey expectedUIDs) rcKey (Z.of_nat (size expectedUIDs)) now.

Definition DeletionObserved r (rcKey deleteKey : string) : Expectations :=
  if bool_decide (deleteKey ∈ GetUIDs r rcKey) then
    let r := DeletionObserved_ctl r rcKey in set_uids r rcKey (GetUIDs r rcKey ∖ {[deleteKey]})
  else r.

(** [DeletionObserved] up to the change, with the pointer that
    [LowerExpectations] gets if the key is expected, and the change. *)
Definition deletion_begin r (rcKey deleteKey : string) : option (option nat) :=
  if bool_decide (deleteKey ∈ GetUIDs r rcKey) then Some (GetExpectations r rcKey) else None.

Definition deletion_finish r (rcKey deleteKey : string) (ref : option nat) : Expectations :=
  let r := match ref with Some ref => exp_Add r ref 0 (-1) | None => r end in
  set_uids r rcKey (GetUIDs r rcKey ∖ {[deleteKey]}).

Definition DeleteExpectations r (rcKey : string) : Expectations :=
  let r := DeleteExpectations_ctl r rcKey in
  mkExpectations (ex_heap r) (ex_store r) (ex_next r) (delete rcKey (ex_uids r)).

(** ** What is expected *)

(** The object of a controller. *)
Definition expected r (controllerKey : string) : option ControlleeExpectations :=
  ref ← ex_store r !! controllerKey; ex_heap r !! ref.

(** The store points to objects, each to its own. *)
Record ex_wf r : Prop := {
  ew_heap k ref : ex_store r !! k = Some ref → is_Some (ex_heap r !! ref);
  ew_fresh ref : is_Some (ex_heap r !! ref) → (ref < ex_next r)%nat;
  ew_inj k k' ref : ex_store r !! k = Some ref → ex_store r !! k' = Some ref → k = k';
}.

Lemma new_ex_wf : ex_wf NewUIDTrackingControllerExpectations.
Proof. split; intros *; simpl; rewrite ?lookup_empty; done. Qed.

Lemma set_expected r k add del now : expected (SetExpectations r k add del now) k = Some (mkCE add del now).
Proof. unfold expected, SetExpectations. simpl. rewrite lookup_insert_eq. simpl. by rewrite lookup_insert_eq. Qed.

Lemma set_wf r k add del now : ex_wf r → ex_wf (SetExpectations r k add del now).
Proof.
  intros [H1 H2 H3]. split; unfold SetExpectations; simpl.
  - intros k' ref [[_ <-]|[_ Hk]]%lookup_insert_Some; [rewrite lookup_insert_eq; by eexists|].
    destruct (decide (ref = ex_next r)) as [->|]; [rewrite lookup_insert_eq; by eexists|]. rewrite lookup_insert_ne by done. by eapply H1.
  - intros ref [e [[-> _]|[_ He]]%lookup_insert_Some]; [lia|]. assert (ref < ex_next r)%nat by (apply H2; by eexists). lia.
  - intros k1 k2 ref. rewrite !lookup_insert_Some. intros [[<- <-]|[? Ha]] [[<- Hb]|[? Hb]]; try done.
    + apply H1, H2 in Hb. lia.
    + subst. apply H1, H2 in Ha. lia.
    + by eapply H3.
Qed.

Lemma exp_Add_wf r ref add del : ex_wf r → ex_wf (exp_Add r ref add del).
Proof.
  intros [H1 H2 H3]. split; unfold exp_Add; simpl; [| |done].
  - intros k ref' Hk. destruct (decide (ref = ref')) as [->|]; [rewrite lookup_alter_eq, fmap_is_Some|rewrite lookup_alter_ne by done];
      by eapply H1.
  - intros ref'. destruct (decide (ref = ref')) as [->|]; [rewrite lookup_alter_eq, fmap_is_Some|rewrite lookup_alter_ne by done]; apply H2.
Qed.

Lemma exp_Add_expected r k ref add del :
  ex_store r !! k = Some ref → expected (exp_Add r ref add del) k = (λ e, CE_Add e add del) <$> expected r k.
Proof. intros Hk. unfold expected, exp_Add. simpl. rewrite Hk. simpl. by rewrite lookup_alter_eq. Qed.

Lemma exp_Add_other r k ref add del :
  ex_store r !! k ≠ Some ref → expected (exp_Add r ref add del) k = expected r k.
Proof.
  intros Hk. unfold expected, exp_Add. simpl. destruct (ex_store r !! k) as [ref'|]; [|done]. simpl.
  rewrite lookup_alter_ne; [done|congruence].
Qed.

Lemma deletion_steps r rcKey deleteKey :
  DeletionObserved r rcKey deleteKey =
  match deletion_begin r rcKey deleteKey with Some ref => deletion_finish r rcKey deleteKey ref | None => r end.
Proof.
  unfold DeletionObserved, deletion_begin, deletion_finish, DeletionObserved_ctl, LowerExpectations.
  case_bool_decide; [|done]. by destruct (GetExpectations r rcKey).
Qed.

Lemma lower_expected r k add del :
  expected (LowerExpectations r k add del) k = (λ e, CE_Add e (- add) (- del)) <$> expected r k.
Proof.
  unfold LowerExpectations, GetExpectations. destruct (ex_store r !! k) as [ref|] eqn:Hk; [by apply exp_Add_expected|].
  unfold expected. by rewrite Hk.
Qed.

Lemma lower_wf r k add del : ex_wf r → ex_wf (LowerExpectations r k add del).
Proof. intros Hw. unfold LowerExpectations. case_match; [by apply exp_Add_wf|done]. Qed.

Lemma satisfied_spec r k now :
  ex_wf r → SatisfiedExpectations r k now = true → (∀ e, expected r k = Some e → isExpired e now = false) →
  ∀ e, expected r k = Some e → exp_add e ≤ 0 ∧ exp_del e ≤ 0.
Proof.
  intros _. unfold SatisfiedExpectations, GetExpectations, expected. intros Hs Hx e He. rewrite He in Hs.
  rewrite (Hx e He) in Hs. unfold Fulfilled in Hs. destruct (Z.leb_spec (exp_add e) 0), (Z.leb_spec (exp_del e) 0); done.
Qed.
