(* ===== verification/ActivePods.v ===== *)
(** * Pods as controllers see them: [pkg/controller/controller_utils.go],
    [pkg/api/v1/pod/util.go]

    Readiness, availability and the orders controllers sort pods in.
    [sort.Sort] is not stable and stays an argument, and so does the integer
    part of a binary logarithm in floating point. *)

From Stdlib Require Import Sorted.
From S2P Require Import Prelude Strconv Labels ApiTypes.
#[local] Open Scope Z_scope.

(** ** Conditions: [pkg/api/v1/pod/util.go] *)

Definition GetPodConditionFromList (conditions : list PodCondition) (conditionType : string) : option PodCondition :=
  snd <$> list_find (λ c, pc_Type c = conditionType) conditions.

Definition GetPodReadyCondition (pod : Pod) : option PodCondition := GetPodConditionFromList (pod_Conditions pod) "Ready".

Definition IsPodReady (pod : Pod) : bool :=
  match GetPodReadyCondition pod with Some c => bool_decide (pc_Status c = "True"%string) | None => false end.

Definition second : Z := 10 ^ 9.

Definition IsPodAvailable (pod : Pod) (minReadySeconds now : Z) : bool :=
  if negb (IsPodReady pod) then false
  else
    let minReadySecondsDuration := int64 (minReadySeconds * second) in
    if minReadySeconds =? 0 then true
    else match GetPodReadyCondition pod ≫= pc_LastTransitionTime with
         | Some t => t + minReadySecondsDuration <? now
         | None => false
         end.

(** ** Deletion cost: [pkg/apis/core/helper/helpers.go] *)

Definition PodDeletionCost : string := "controller.kubernetes.io/pod-deletion-cost".

Definition validFirstDigit (str : text) : bool :=
  match str with
  | [] => false
  | c :: r => (c =? "-")%char || (c =? "0")%char && bool_decide (r = []) || is_digit c && negb (is_zero c)
  end.

(** Without the error, which no caller reads. *)
Definition GetDeletionCostFromPodAnnotations (annotations : gmap string string) : Z :=
  match annotations !! PodDeletionCost with
  | Some value =>
      if negb (validFirstDigit (txt value)) then 0
      else match ParseInt (txt value) with
           | Some i => if (- 2 ^ 31 <=? i) && (i <? 2 ^ 31) then i else 0
           | None => 0
           end
  | None => 0
  end.

(** ** [controller_utils.go] *)

Definition podPhaseToOrdinal (phase : string) : Z :=
  if (phase =? "Pending")%string then 0 else if (phase =? "Unknown")%string then 1 else if (phase =? "Running")%string then 2 else 0.

Definition afterOrZero (t1 t2 : option Z) : bool :=
  match t1, t2 with Some t1, Some t2 => t2 <? t1 | None, _ => true | Some _, None => false end.

Definition podReadyTime (pod : Pod) : option Z :=
  if IsPodReady pod then
    match list_find (λ c, pc_Type c = "Ready"%string ∧ pc_Status c = "True"%string) (pod_Conditions pod) with
    | Some (_, c) => pc_LastTransitionTime c
    | None => None
    end
  else None.

Definition maxContainerRestarts (pod : Pod) : Z := foldl (λ m c, Z.max m (RestartCount c)) 0 (pod_ContainerStatuses pod).

Definition IsPodActive (p : Pod) : bool :=
  negb (pod_Phase p =? "Succeeded")%string && negb (pod_Phase p =? "Failed")%string && bool_decide (pod_DeletionTimestamp p = None).

Definition FilterActivePods (pods : list Pod) : list Pod := filter (λ p, IsPodActive p = true) pods.

Definition PodKey (pod : Pod) : string := (pod_Namespace pod ++ "/" ++ pod_Name pod)%string.

Definition ByLogging_Less (a b : Pod) : bool :=
  if bool_decide (pod_NodeName a ≠ pod_NodeName b) && (bool_decide (pod_NodeName a = ""%string) || bool_decide (pod_NodeName b = ""%string))
  then bool_decide (pod_NodeName a ≠ ""%string)
  else if bool_decide (pod_Phase a ≠ pod_Phase b) then podPhaseToOrdinal (pod_Phase b) <? podPhaseToOrdinal (pod_Phase a)
  else if negb (Bool.eqb (IsPodReady a) (IsPodReady b)) then IsPodReady a
  else if IsPodReady a && IsPodReady b && bool_decide (podReadyTime a ≠ podReadyTime b) then afterOrZero (podReadyTime b) (podReadyTime a)
  else if negb (maxContainerRestarts a =? maxContainerRestarts b) then maxContainerRestarts b <? maxContainerRestarts a
  else if bool_decide (pod_CreationTimestamp a ≠ pod_CreationTimestamp b) then afterOrZero (pod_CreationTimestamp b) (pod_CreationTimestamp a)
  else false.

Definition ActivePods_Less (a b : Pod) : bool :=
  if bool_decide (pod_NodeName a ≠ pod_NodeName b) && (bool_decide (pod_NodeName a = ""%string) || bool_decide (pod_NodeName b = ""%string))
  then bool_decide (pod_NodeName a = ""%string)
  else if negb (podPhaseToOrdinal (pod_Phase a) =? podPhaseToOrdinal (pod_Phase b))
  then podPhaseToOrdinal (pod_Phase a) <? podPhaseToOrdinal (pod_Phase b)
  else if negb (Bool.eqb (IsPodReady a) (IsPodReady b)) then negb (IsPodReady a)
  else if IsPodReady a && IsPodReady b && bool_decide (podReadyTime a ≠ podReadyTime b) then afterOrZero (podReadyTime a) (podReadyTime b)
  else if negb (maxContainerRestarts a =? maxContainerRestarts b) then maxContainerRestarts b <? maxContainerRestarts a
  else if bool_decide (pod_CreationTimestamp a ≠ pod_CreationTimestamp b) then afterOrZero (pod_CreationTimestamp a) (pod_CreationTimestamp b)
  else false.

Section Order.
(** The feature gates, and [int64(math.Log2(float64(d)))]. *)
Context (PodDeletionCostGate LogarithmicScaleDown : bool) (log_rank : Z → Z).

Definition logarithmicRankDiff (t1 t2 now : Z) : Z :=
  let d1 := now - t1 in
  let d2 := now - t2 in
  let r1 := if 0 <? d1 then log_rank d1 else -1 in
  let r2 := if 0 <? d2 then log_rank d2 else -1 in
  int64 (r1 - r2).

(** Of two times that differ, on pods [a] and [b]. *)
Definition time_Less (now t1 t2 : option Z) (a b : Pod) : bool :=
  if negb LogarithmicScaleDown then afterOrZero t1 t2
  else match now, t1, t2 with
       | Some now, Some x1, Some x2 =>
           let rankDiff := logarithmicRankDiff x1 x2 now in
           if rankDiff =? 0 then String.ltb (pod_UID a) (pod_UID b) else rankDiff <? 0
       | _, _, _ => afterOrZero t1 t2
       end.

(** [ActivePodsWithRanks.Less]; a pod with its rank. *)
Definition ActivePodsWithRanks_Less (now : option Z) (i j : Pod * Z) : bool :=
  let '(a, ra) := i in
  let '(b, rb) := j in
  if bool_decide (pod_NodeName a ≠ pod_NodeName b) && (bool_decide (pod_NodeName a = ""%string) || bool_decide (pod_NodeName b = ""%string))
  then bool_decide (pod_NodeName a = ""%string)
  else if negb (podPhaseToOrdinal (pod_Phase a) =? podPhaseToOrdinal (pod_Phase b))
  then podPhaseToOrdinal (pod_Phase a) <? podPhaseToOrdinal (pod_Phase b)
  else if negb (Bool.eqb (IsPodReady a) (IsPodReady b)) then negb (IsPodReady a)
  else
    let pi := GetDeletionCostFromPodAnnotations (pod_Annotations a) in
    let pj := GetDeletionCostFromPodAnnotations (pod_Annotations b) in
    if PodDeletionCostGate && negb (pi =? pj) then pi <? pj
    else if negb (ra =? rb) then rb <? ra
    else if IsPodReady a && IsPodReady b && bool_decide (podReadyTime a ≠ podReadyTime b)
    then time_Less now (podReadyTime a) (podReadyTime b) a b
    else if negb (maxContainerRestarts a =? maxContainerRestarts b) then maxContainerRestarts b <? maxContainerRestarts a
    else if bool_decide (pod_CreationTimestamp a ≠ pod_CreationTimestamp b)
    then time_Less now (pod_CreationTimestamp a) (pod_CreationTimestamp b) a b
    else false.

(** ** [replica_set.go]: the choice of pods to delete *)

Context (sort : (Pod * Z → Pod * Z → bool) → list (Pod * Z) → list (Pod * Z)).

Definition getPodsRankedByRelatedPodsOnSameNode (podsToRank relatedPods : list Pod) : list (Pod * Z) :=
  let podsOnNode :=
    foldl (λ m pod, if IsPodActive pod then <[pod_NodeName pod := default 0 (m !! pod_NodeName pod) + 1]> m else m)
      (∅ : gmap string Z) relatedPods in
  (λ pod, (pod, default 0 (podsOnNode !! pod_NodeName pod))) <$> podsToRank.

(** [sort.Sort] sorts the array of [filteredPods]: the chosen pods and what
    the array then holds.  [diff] is at most its length. *)
Definition getPodsToDelete (filteredPods relatedPods : list Pod) (diff : nat) (now : Z) : list Pod * list Pod :=
  let filteredPods :=
    if (diff <? length filteredPods)%nat then
      fst <$> sort (ActivePodsWithRanks_Less (Some now)) (getPodsRankedByRelatedPodsOnSameNode filteredPods relatedPods)
    else filteredPods in
  (take diff filteredPods, filteredPods).

End Order.

Definition getPodKeys (pods : list Pod) : list string := PodKey <$> pods.

(** ** The order is lexicographic *)

Fixpoint lex_lt (k k' : list Z) : bool :=
  match k, k' with
  | x :: k, y :: k' => if x =? y then lex_lt k k' else x <? y
  | [], _ :: _ => true
  | _, [] => false
  end.

(** Zero times first, then later ones. *)
Definition time_key (t : option Z) : list Z := match t with None => [0; 0] | Some t => [1; - t] end.

(** What makes a pod dear: assigned, far in its phases, ready, costly,
    alone on its node, ready for long, seldom restarted and old. *)
Definition worth (cost : bool) (i : Pod * Z) : list Z :=
  let '(p, rank) := i in
  [if bool_decide (pod_NodeName p = ""%string) then 0 else 1; podPhaseToOrdinal (pod_Phase p); if IsPodReady p then 1 else 0;
   if cost then GetDeletionCostFromPodAnnotations (pod_Annotations p) else 0; - rank] ++
  time_key (podReadyTime p) ++ [- maxContainerRestarts p] ++ time_key (pod_CreationTimestamp p).

Lemma lex_lt_irrefl k : lex_lt k k = false.
Proof. induction k as [|x k IH]; simpl; [done|]. by rewrite Z.eqb_refl. Qed.

Lemma lex_lt_total k k' : length k = length k' → lex_lt k k' = false → lex_lt k' k = false → k = k'.
Proof.
  revert k'. induction k as [|x k IH]; intros [|y k']; simpl; try done. intros [= Hl]. rewrite (Z.eqb_sym y x).
  destruct (Z.eqb_spec x y) as [->|Hn]; [intros; f_equal; by apply IH|].
  destruct (Z.ltb_spec x y), (Z.ltb_spec y x); try done. lia.
Qed.

Lemma lex_lt_trans k1 k2 k3 : lex_lt k1 k2 = true → lex_lt k2 k3 = true → lex_lt k1 k3 = true.
Proof.
  revert k2 k3. induction k1 as [|x k1 IH]; intros [|y k2] [|z k3]; simpl; try done.
  destruct (Z.eqb_spec x y) as [->|], (Z.eqb_spec y z) as [->|].
  - intros. rewrite ?Z.eqb_refl. eauto.
  - intros _ H. destruct (Z.eqb_spec y z); [done|]. done.
  - intros H _. destruct (Z.eqb_spec x z); [done|]. done.
  - rewrite !Z.ltb_lt. intros. destruct (Z.eqb_spec x z); [lia|]. apply Z.ltb_lt. lia.
Qed.

Lemma lex_cons x y k k' : lex_lt (x :: k) (y :: k') = if negb (x =? y) then x <? y else lex_lt k k'.
Proof. simpl. by destruct (x =? y). Qed.

Lemma lex_neg x y k k' : lex_lt (- x :: k) (- y :: k') = if negb (x =? y) then y <? x else lex_lt k k'.
Proof.
  rewrite lex_cons. destruct (Z.eqb_spec x y), (Z.eqb_spec (- x) (- y)); try lia; simpl; [done|].
  destruct (Z.ltb_spec y x), (Z.ltb_spec (- x) (- y)); lia.
Qed.

Lemma lex_time t t' k k' :
  lex_lt (time_key t ++ k) (time_key t' ++ k') = if bool_decide (t ≠ t') then afterOrZero t t' else lex_lt k k'.
Proof.
  destruct t as [t|], t' as [t'|]; [|by rewrite bool_decide_true|by rewrite bool_decide_true|by rewrite bool_decide_false by (intros Hne; by apply Hne)].
  unfold time_key. cbn [app]. rewrite lex_cons, lex_neg. simpl.
  destruct (Z.eqb_spec t t') as [->|Hn]; simpl; [by rewrite bool_decide_false by (intros Hne; by apply Hne)|]. by rewrite bool_decide_true by congruence.
Qed.

Lemma IsPodReady_time p q : IsPodReady p && IsPodReady q = false → IsPodReady p = IsPodReady q → podReadyTime p = podReadyTime q.
Proof. unfold podReadyTime. intros H Heq. rewrite Heq in *. by destruct (IsPodReady q). Qed.

(** Without logarithms, the order compares what pods are worth. *)
Lemma ranked_less cost log_rank now a b :
  ActivePodsWithRanks_Less cost false log_rank now a b = lex_lt (worth cost a) (worth cost b).
Proof.
  destruct a as [p r], b as [q s]. unfold ActivePodsWithRanks_Less, worth. cbn [app].
  do 4 rewrite lex_cons. rewrite (lex_neg r), lex_time, (lex_neg (maxContainerRestarts _)), <- (app_nil_r (time_key (pod_CreationTimestamp p))),
    <- (app_nil_r (time_key (pod_CreationTimestamp q))), lex_time.
  assert (∀ x y : string, bool_decide (x ≠ y) && (bool_decide (x = ""%string) || bool_decide (y = ""%string)) =
    negb ((if bool_decide (x = ""%string) then 0 else 1) =? (if bool_decide (y = ""%string) then 0 else 1))) as ->.
  { intros x y. repeat case_bool_decide; subst; simpl; congruence. }
  destruct (Z.eqb_spec (if bool_decide (pod_NodeName p = ""%string) then 0 else 1)
    (if bool_decide (pod_NodeName q = ""%string) then 0 else 1)) as [_|Hd]; simpl.
  2: { revert Hd. by repeat case_bool_decide. }
  case_match; [done|]. destruct (IsPodReady p) eqn:Hp, (IsPodReady q) eqn:Hq; simpl; try done.
  - by destruct cost.
  - rewrite (IsPodReady_time p q) by (by rewrite ?Hp, ?Hq). rewrite (bool_decide_false (podReadyTime q ≠ podReadyTime q)) by (intros Hne; by apply Hne). by destruct cost.
Qed.

(** ** The choice *)

(** What [sort.Sort] promises for a strict weak order. *)
Definition sorts (sort : (Pod * Z → Pod * Z → bool) → list (Pod * Z) → list (Pod * Z)) : Prop :=
  ∀ less l,
    (∀ a, less a a = false) → (∀ a b c, less a b = true → less b c = true → less a c = true) →
    (∀ a b c, less a b = false → less b c = false → less a c = false) →
    sort less l ≡ₚ l ∧ StronglySorted (λ a b, less b a = false) (sort less l).

Lemma length_worth cost i : length (worth cost i) = 10%nat.
Proof. destruct i as [p r]. unfold worth. destruct (podReadyTime p), (pod_CreationTimestamp p); done. Qed.

Lemma lex_lt_ntrans k1 k2 k3 :
  length k1 = length k2 → length k2 = length k3 → lex_lt k1 k2 = false → lex_lt k2 k3 = false → lex_lt k1 k3 = false.
Proof.
  intros H1 H2 H12 H23. destruct (lex_lt k1 k3) eqn:H13; [|done].
  destruct (lex_lt k2 k1) eqn:H21; [by rewrite (lex_lt_trans k2 k1 k3) in H23|].
  assert (k1 = k2) as -> by (by apply lex_lt_total). congruence.
Qed.

Lemma ranked_sorted cost log_rank sort now l :
  sorts sort →
  sort (ActivePodsWithRanks_Less cost false log_rank now) l ≡ₚ l ∧
  StronglySorted (λ a b, lex_lt (worth cost b) (worth cost a) = false) (sort (ActivePodsWithRanks_Less cost false log_rank now) l).
Proof.
  intros Hs. destruct (Hs (ActivePodsWithRanks_Less cost false log_rank now) l) as [Hp Hss].
  - intros a. rewrite ranked_less. apply lex_lt_irrefl.
  - intros a b c. rewrite !ranked_less. apply lex_lt_trans.
  - intros a b c. rewrite !ranked_less. apply lex_lt_ntrans; by rewrite !length_worth.
  - split; [done|]. clear Hp. induction Hss as [|x l' _ IH Hall]; [constructor|]. constructor; [done|].
    eapply Forall_impl; [exact Hall|]. intros y Hy. cbv beta in Hy. by rewrite ranked_less in Hy.
Qed.

Lemma StronglySorted_split {A} (R : A → A → Prop) l1 l2 x y : StronglySorted R (l1 ++ l2) → x ∈ l1 → y ∈ l2 → R x y.
Proof.
  induction l1 as [|z l1 IH]; simpl; [by intros _ ?%elem_of_nil|]. intros Hs [->|Hx]%elem_of_cons Hy; inversion_clear Hs as [|? ? Hs' Hall].
  - rewrite Forall_forall in Hall. apply Hall, elem_of_app. by right.
  - by apply IH.
Qed.

(** The active pods of [related] that share the node of a pod. *)
Definition colocated (related : list Pod) (p : Pod) : Z :=
  Z.of_nat (length (filter (λ q, pod_NodeName q = pod_NodeName p) (FilterActivePods related))).

Lemma ranks_spec pods related : getPodsRankedByRelatedPodsOnSameNode pods related = (λ p, (p, colocated related p)) <$> pods.
Proof.
  unfold getPodsRankedByRelatedPodsOnSameNode. apply list_fmap_ext. intros _ p _. f_equal. unfold colocated.
  assert (∀ (m : gmap string Z) (n : string), default 0 (foldl (λ m pod, if IsPodActive pod then <[pod_NodeName pod := default 0 (m !! pod_NodeName pod) + 1]> m else m) m related !! n) =
    default 0 (m !! n) + Z.of_nat (length (filter (λ q, pod_NodeName q = n) (FilterActivePods related)))) as H.
  { induction related as [|q related IH]; intros m n; simpl; [lia|]. rewrite IH. unfold FilterActivePods. rewrite filter_cons.
    destruct (IsPodActive q); [|done]. rewrite decide_True by done. rewrite filter_cons. destruct (decide (pod_NodeName q = n)) as [<-|Hn].
    - rewrite lookup_insert_eq. simpl. lia.
    - by rewrite lookup_insert_ne. }
  by rewrite H, lookup_empty.
Qed.

(** Without logarithmic scaling, the pods chosen for deletion are the
    cheapest: as many as asked for, taken from the active pods, and no pod that
    is kept is worth less than a chosen one, in the order of the comment of
    [ActivePodsWithRanks]: assigned, phase, ready, deletion cost, alone on its
    node, ready for long, few restarts, old. *)
Lemma deletion_choice cost log_rank sort filtered related diff now :
  sorts sort → (diff ≤ length filtered)%nat →
  let '(chosen, arr) := getPodsToDelete cost false log_rank sort filtered related diff now in
  ∃ kept, arr = chosen ++ kept ∧ arr ≡ₚ filtered ∧ length chosen = diff ∧
    ∀ c k, c ∈ chosen → k ∈ kept →
      lex_lt (worth cost (k, colocated related k)) (worth cost (c, colocated related c)) = false.
Proof.
  intros Hs Hd. unfold getPodsToDelete. destruct (Nat.ltb_spec diff (length filtered)) as [Hlt|Hge].
  2: { exists []. rewrite app_nil_r, take_ge by lia. split_and!; [done|done|lia|]. by intros c k _ ?%elem_of_nil. }
  rewrite ranks_spec. set (rank := λ p, (p, colocated related p)).
  destruct (ranked_sorted cost log_rank sort (Some now) (rank <$> filtered) Hs) as [Hp Hss].
  set (l := sort _ (rank <$> filtered)) in *. exists (drop diff (fst <$> l)). rewrite take_drop.
  assert (l = rank <$> (fst <$> l)) as Hl.
  { rewrite <- list_fmap_compose. rewrite <- (list_fmap_id l) at 1. apply list_fmap_ext. intros i x Hx%list_elem_of_lookup_2.
    rewrite Hp in Hx. apply list_elem_of_fmap in Hx as (p & -> & _). done. }
  assert (fst <$> l ≡ₚ filtered) as Hperm by (rewrite Hp, <- list_fmap_compose; by rewrite list_fmap_id).
  split_and!; [done|done|rewrite length_take; pose proof (Permutation_length Hperm); lia|].
  intros c k Hc Hk. rewrite Hl, <- (take_drop diff (fst <$> l)), fmap_app in Hss.
  apply (StronglySorted_split _ _ _ (rank c) (rank k) Hss); by apply list_elem_of_fmap_2.
Qed.

(** Go's sort, for an order. *)
Definition not_less (less : Pod * Z → Pod * Z → bool) (a b : Pod * Z) : Prop := less b a = false.

#[local] Instance not_less_dec less : RelDecision (not_less less).
Proof. unfold not_less. intros a b. apply _. Defined.

Definition sort_by (less : Pod * Z → Pod * Z → bool) (l : list (Pod * Z)) : list (Pod * Z) :=
  merge_sort (not_less less) l.

Lemma sort_by_sorts : sorts sort_by.
Proof.
  intros less l Hi Ht Hn. split; [apply merge_sort_Permutation|]. apply StronglySorted_merge_sort.
  - intros a b c H1 H2. by apply (Hn c b a).
  - intros a b. destruct (less b a) eqn:H1; [|by left]. destruct (less a b) eqn:H2; [|by right].
    specialize (Ht a b a H2 H1). by rewrite Hi in Ht.
Qed.

Definition choice_pod (name node : string) (created : Z) : Pod :=
  mkPod name "default" name "1" ∅ [] [] None node None None "" "" ∅ [] ∅ [] [] None [] None (Some created) [] "Running" None [].

(** Two pods share a node: the younger of them goes. *)
Lemma deletion_choice_witness :
  let pods := [choice_pod "a" "n1" 1; choice_pod "b" "n2" 2; choice_pod "c" "n1" 3] in
  ∃ kept, (getPodsToDelete true false Z.log2 sort_by pods pods 1 9).2 = [choice_pod "c" "n1" 3] ++ kept ∧
    ∀ k, k ∈ kept → lex_lt (worth true (k, colocated pods k)) (worth true (choice_pod "c" "n1" 3, 2)) = false.
Proof.
  intros pods. pose proof (deletion_choice true Z.log2 sort_by pods pods 1 9 sort_by_sorts ltac:(simpl; lia)) as H.
  assert ((getPodsToDelete true false Z.log2 sort_by pods pods 1 9).1 = [choice_pod "c" "n1" 3]) as Hc by (vm_compute; reflexivity).
  destruct (getPodsToDelete true false Z.log2 sort_by pods pods 1 9) as [chosen arr]. simpl in Hc. subst chosen.
  destruct H as (kept & Harr & _ & _ & Hk). exists kept. split; [exact Harr|]. intros k Hin.
  exact (Hk (choice_pod "c" "n1" 3) k ltac:(by left) Hin).
Defined.

(** With it, the order has a cycle: of pods that are ready since about the
    same time the UID decides, of those ready since the same time the number
    of restarts. *)
Definition ready_pod (uid : string) (since restarts : Z) : Pod :=
  mkPod uid "default" uid "1" ∅ [] [] None "n1" None None "" "" ∅ [] ∅ [] [] None [mkPodCondition "Ready" "True" "" "" (Some since)] None (Some 0) []
    "Running" None [mkContainerStatus restarts].

Lemma logarithmic_cycle :
  let less := ActivePodsWithRanks_Less true true Z.log2 (Some 100) in
  let a := (ready_pod "a" 10 0, 1) in
  let b := (ready_pod "b" 11 0, 1) in
  let c := (ready_pod "c" 10 1, 1) in
  less a b = true ∧ less b c = true ∧ less c a = true.
Proof. vm_compute. done. Qed.
