(* ===== verification/AppsTypes.v ===== *)
(** * ReplicaSets: the API objects of [apps/v1] and their conditions
    ([pkg/controller/replicaset/replica_set_utils.go])

    The template of a set is a pod of which only the spec, the labels, the
    annotations and the finalizers are used.  The number of replicas is a
    pointer in the API that defaulting sets; a nil pointer would panic. *)

From S2P Require Import Prelude Strconv Labels ApiTypes ActivePods.
#[local] Open Scope Z_scope.

Record ReplicaSetCondition := mkRSCondition {
  rc_Type : string; rc_Status : string; rc_LastTransitionTime : option Z; rc_Reason : string; rc_Message : string;
}.

Record ReplicaSetStatus := mkRSStatus {
  st_Replicas : Z; st_FullyLabeledReplicas : Z; st_ReadyReplicas : Z; st_AvailableReplicas : Z;
  st_ObservedGeneration : Z; st_Conditions : list ReplicaSetCondition;
}.

Record ReplicaSet := mkReplicaSet {
  rs_Namespace : string;
  rs_Name : string;
  rs_UID : string;
  rs_Labels : Labels;
  rs_Annotations : gmap string string;
  rs_CreationTimestamp : option Z;
  rs_DeletionTimestamp : option Z;
  rs_Generation : Z;
  rs_OwnerReferences : list OwnerReference;
  rs_Replicas : Z;
  rs_MinReadySeconds : Z;
  rs_Selector : option LabelSelector;
  rs_Template : Pod;
  rs_Status : ReplicaSetStatus;
}.

#[export] Instance ReplicaSetCondition_eq_dec : EqDecision ReplicaSetCondition.
Proof. solve_decision. Defined.

(** What the code asks of an error of the API server, and its text. *)
Inductive reason := NotFound | AlreadyExists | Invalid | NamespaceTerminating | OtherReason.

Record api_error := mkError { err_Reason : reason; err_Text : string }.

#[export] Instance reason_eq_dec : EqDecision reason.
Proof. solve_decision. Defined.

#[export] Instance api_error_eq_dec : EqDecision api_error.
Proof. solve_decision. Defined.

Definition IsNotFound (e : api_error) : bool := bool_decide (err_Reason e = NotFound).
Definition IsAlreadyExists (e : api_error) : bool := bool_decide (err_Reason e = AlreadyExists).
Definition IsInvalid (e : api_error) : bool := bool_decide (err_Reason e = Invalid).

(** [fmt.Errorf] *)
Definition Errorf (text : string) : api_error := mkError OtherReason text.

Definition set_Status (rs : ReplicaSet) (status : ReplicaSetStatus) : ReplicaSet :=
  mkReplicaSet (rs_Namespace rs) (rs_Name rs) (rs_UID rs) (rs_Labels rs) (rs_Annotations rs) (rs_CreationTimestamp rs)
    (rs_DeletionTimestamp rs) (rs_Generation rs) (rs_OwnerReferences rs) (rs_Replicas rs) (rs_MinReadySeconds rs)
    (rs_Selector rs) (rs_Template rs) status.

(** ** [controller_ref.go] *)

Definition GetControllerOf (refs : list OwnerReference) : option OwnerReference :=
  snd <$> list_find (λ ref, own_Controller ref = Some true) refs.

(** [KeyFunc] *)
Definition MetaNamespaceKey (namespace name : string) : string :=
  if bool_decide (namespace = ""%string) then name else (namespace ++ "/" ++ name)%string.

Definition RSKey (rs : ReplicaSet) : string := MetaNamespaceKey (rs_Namespace rs) (rs_Name rs).

(** [cache.SplitMetaNamespaceKey] *)
Definition SplitMetaNamespaceKey (key : string) : option (string * string) :=
  match split_on "/"%char (txt key) with
  | [name] => Some (""%string, of_text name)
  | [namespace; name] => Some (of_text namespace, of_text name)
  | _ => None
  end.

(** ** Conditions: [replica_set_utils.go] *)

Definition ReplicaSetReplicaFailure : string := "ReplicaFailure".

Definition NewReplicaSetCondition (condType status reason msg : string) (now : Z) : ReplicaSetCondition :=
  mkRSCondition condType status (Some now) reason msg.

Definition GetCondition (status : ReplicaSetStatus) (condType : string) : option ReplicaSetCondition :=
  snd <$> list_find (λ c, rc_Type c = condType) (st_Conditions status).

Definition filterOutCondition (conditions : list ReplicaSetCondition) (condType : string) : list ReplicaSetCondition :=
  filter (λ c, rc_Type c ≠ condType) conditions.

Definition with_Conditions (status : ReplicaSetStatus) (conditions : list ReplicaSetCondition) : ReplicaSetStatus :=
  mkRSStatus (st_Replicas status) (st_FullyLabeledReplicas status) (st_ReadyReplicas status) (st_AvailableReplicas status)
    (st_ObservedGeneration status) conditions.

Definition SetCondition (status : ReplicaSetStatus) (condition : ReplicaSetCondition) : ReplicaSetStatus :=
  let set := with_Conditions status (filterOutCondition (st_Conditions status) (rc_Type condition) ++ [condition]) in
  match GetCondition status (rc_Type condition) with
  | Some currentCond =>
      if (rc_Status currentCond =? rc_Status condition)%string && (rc_Reason currentCond =? rc_Reason condition)%string
      then status else set
  | None => set
  end.

Definition RemoveCondition (status : ReplicaSetStatus) (condType : string) : ReplicaSetStatus :=
  with_Conditions status (filterOutCondition (st_Conditions status) condType).

(** The clock is read once for every ready pod; [clock] are the readings. *)
Fixpoint count_pods (templateLabel : Selector) (minReadySeconds : Z) (clock : nat → Z) (pods : list Pod) (c : Z * Z * Z) : Z * Z * Z :=
  match pods with
  | [] => c
  | pod :: pods =>
      let '(fully, ready, available) := c in
      let fully := if Matches templateLabel (pod_Labels pod) then fully + 1 else fully in
      let '(ready, available) :=
        if IsPodReady pod then
          (ready + 1, if IsPodAvailable pod minReadySeconds (clock (Z.to_nat ready)) then available + 1 else available)
        else (ready, available) in
      count_pods templateLabel minReadySeconds clock pods (fully, ready, available)
  end.

Definition calculateStatus (rs : ReplicaSet) (filteredPods : list Pod) (manageReplicasErr : option api_error) (clock : nat → Z) : ReplicaSetStatus :=
  let newStatus := rs_Status rs in
  let templateLabel := SelectorFromValidatedSet (pod_Labels (rs_Template rs)) in
  let '(fully, ready, available) := count_pods templateLabel (rs_MinReadySeconds rs) clock filteredPods (0, 0, 0) in
  let newStatus :=
    match manageReplicasErr, GetCondition (rs_Status rs) ReplicaSetReplicaFailure with
    | Some err, None =>
        let diff := Z.of_nat (length filteredPods) - rs_Replicas rs in
        let reason := if diff <? 0 then "FailedCreate"%string else if 0 <? diff then "FailedDelete"%string else ""%string in
        SetCondition newStatus (NewReplicaSetCondition ReplicaSetReplicaFailure "True" reason (err_Text err) (clock (Z.to_nat ready)))
    | None, Some _ => RemoveCondition newStatus ReplicaSetReplicaFailure
    | _, _ => newStatus
    end in
  mkRSStatus (int32 (Z.of_nat (length filteredPods))) (int32 fully) (int32 ready) (int32 available) (st_ObservedGeneration newStatus)
    (st_Conditions newStatus).
