(* ===== verification/CtlProgram.v ===== *)
(** * Programs of the ReplicaSet controller

    A controller's code as a tree of the steps that touch what it shares with
    other goroutines: the expectations, the queue, the informers' caches, the
    clock and the API server.  Everything else is computed between two steps.
    [Par] runs goroutines and goes on with their results in the order they
    finished, as [errCh] and the [WaitGroup] do. *)

From S2P Require Import Prelude Labels ApiTypes AppsTypes Expectations.
#[local] Open Scope Z_scope.

(** Steps that give nothing back.  [DeletionFinish] ends what [LockUIDs]
    began. *)
Inductive action :=
  | AExpectCreations (key : string) (adds : Z)
  | AExpectDeletions (key : string) (deletedKeys : list string)
  | ADeleteExpectations (key : string)
  | AExpAdd (ref : nat) (add del : Z)
  | ADeletionFinish (rcKey deleteKey : string) (ref : option nat)
  | AQueueAdd (key : string)
  | AQueueAddAfter (key : string) (duration : Z)
  | AQueueAddRateLimited (key : string)
  | AQueueForget (key : string)
  | AQueueDone (key : string).

(** Requests to the API server that return an error or nothing. *)
Inductive request :=
  | RCreatePod (namespace : string) (pod : Pod)
  | RDeletePod (namespace name : string)
  | RAdoptPod (pod : Pod) (controller : OwnerReference)
  | RReleasePod (pod : Pod) (controllerUID : string).

Inductive prog (A : Type) : Type :=
  | Done (a : A)
  | Do (a : action) (k : prog A)
  | Call (r : request) (k : option api_error → prog A)
  | Par (gs : list (prog (option api_error))) (finished : list (option api_error)) (k : list (option api_error) → prog A)
  (* the pointer of [GetExpectations] *)
  | GetExp (key : string) (k : option nat → prog A)
  (* [uidStoreLock.Lock]; released at once if the key is not expected *)
  | LockUIDs (rcKey deleteKey : string) (k : option (option nat) → prog A)
  | Satisfied (key : string) (k : bool → prog A)
  (* the listers *)
  | GetReplicaSet (namespace name : string) (k : option ReplicaSet → prog A)
  | ListReplicaSets (namespace : string) (k : list ReplicaSet → prog A)
  | ListPods (namespace : string) (selector : Selector) (k : list Pod → prog A)
  (* the API server *)
  | FetchReplicaSet (namespace name : string) (k : api_error + ReplicaSet → prog A)
  | UpdateStatus (rs : ReplicaSet) (k : api_error + ReplicaSet → prog A)
  (* the readings of the clock to come *)
  | Clock (k : (nat → Z) → prog A).

Arguments Done {A}.
Arguments Do {A}.
Arguments Call {A}.
Arguments Par {A}.
Arguments GetExp {A}.
Arguments LockUIDs {A}.
Arguments Satisfied {A}.
Arguments GetReplicaSet {A}.
Arguments ListReplicaSets {A}.
Arguments ListPods {A}.
Arguments FetchReplicaSet {A}.
Arguments UpdateStatus {A}.
Arguments Clock {A}.

#[export] Instance prog_ret : MRet prog := @Done.

#[export] Instance prog_bind : MBind prog :=
  fix bind {A B} (f : A → prog B) (p : prog A) : prog B :=
    match p with
    | Done a => f a
    | Do a k => Do a (bind f k)
    | Call r k => Call r (λ x, bind f (k x))
    | Par gs d k => Par gs d (λ x, bind f (k x))
    | GetExp key k => GetExp key (λ x, bind f (k x))
    | LockUIDs rcKey deleteKey k => LockUIDs rcKey deleteKey (λ x, bind f (k x))
    | Satisfied key k => Satisfied key (λ x, bind f (k x))
    | GetReplicaSet ns name k => GetReplicaSet ns name (λ x, bind f (k x))
    | ListReplicaSets ns k => ListReplicaSets ns (λ x, bind f (k x))
    | ListPods ns sel k => ListPods ns sel (λ x, bind f (k x))
    | FetchReplicaSet ns name k => FetchReplicaSet ns name (λ x, bind f (k x))
    | UpdateStatus rs k => UpdateStatus rs (λ x, bind f (k x))
    | Clock k => Clock (λ x, bind f (k x))
    end.

Definition act (a : action) : prog unit := Do a (Done tt).
Definition call (r : request) : prog (option api_error) := Call r Done.

(** [wg.Wait] on goroutines with bodies [gs]. *)
Definition go (gs : list (prog (option api_error))) : prog (list (option api_error)) := Par gs [] Done.

(** [for _, x := range l] *)
Fixpoint each {A} (f : A → prog unit) (l : list A) : prog unit :=
  match l with [] => Done tt | a :: l => f a ;; each f l end.

(** ** Expectations, step by step *)

Definition LowerCreations (key : string) : prog unit :=
  GetExp key (λ ref, match ref with Some ref => act (AExpAdd ref (-1) 0) | None => Done tt end).

(** [CreationObserved] *)
Definition observe_creation (key : string) : prog unit := LowerCreations key.

(** [UIDTrackingControllerExpectations.DeletionObserved]: two steps under the
    lock.  Nothing another goroutine does between them depends on the set of
    keys, which the lock guards. *)
Definition observe_deletion (rcKey deleteKey : string) : prog unit :=
  LockUIDs rcKey deleteKey (λ r, match r with Some ref => act (ADeletionFinish rcKey deleteKey ref) | None => Done tt end).
