(* ===== verification/ReplicaSet.v ===== *)
(** * The ReplicaSet controller: [pkg/controller/replicaset/replica_set.go]

    The handlers of the informers, the claim of pods, slow start, the choice
    between creating and deleting and the synchronisation of a set, as
    programs of [CtlProgram]; [RealPodControl] without its events and
    [PodControllerRefManager] ([controller_ref_manager.go]).  Texts of errors
    made with [Errorf] keep their constant part. *)

From Equations Require Import Equations.
From S2P Require Import Prelude Strconv Labels ApiTypes ActivePods AppsTypes Expectations CtlProgram.
#[local] Open Scope Z_scope.

Definition BurstReplicas : Z := 500.
Definition statusUpdateRetries : nat := 1.
Definition SlowStartInitialBatchSize : Z := 1.

(** ** Errors of many calls *)

Definition errors_of (l : list (option api_error)) : list api_error := omap id l.

(** The first error that was sent to a channel. *)
Definition first_error (l : list (option api_error)) : option api_error := head (errors_of l).

Fixpoint aggregate_text (seen : list string) (errs : list api_error) : string :=
  match errs with
  | [] => ""
  | e :: errs =>
      if bool_decide (err_Text e ∈ seen) then aggregate_text seen errs
      else ((if bool_decide (seen = []) then "" else ", ") ++ err_Text e ++ aggregate_text (err_Text e :: seen) errs)%string
  end.

Definition NewAggregate (errs : list api_error) : option api_error :=
  match errs with
  | [] => None
  | [e] => Some (Errorf (err_Text e))
  | e :: rest =>
      let text := aggregate_text [] errs in
      Some (Errorf (if forallb (λ x, bool_decide (err_Text x = err_Text e)) rest then text else ("[" ++ text ++ "]")%string))
  end.

(** ** [RealPodControl] *)

(** [GetPodFromTemplate]; the server makes up the name from [GenerateName]. *)
Definition GetPodFromTemplate (template : Pod) (controllerRef : OwnerReference) : Pod :=
  mkPod "" "" "" "" (pod_Labels template) (pod_Containers template) (pod_InitContainers template) (pod_Overhead template)
    (pod_NodeName template) (pod_Affinity template) (pod_Priority template) "" (pod_SchedulerName template)
    (pod_NodeSelector template) (pod_Tolerations template) (pod_Annotations template) [] (pod_Finalizers template) None []
    (pod_PreemptionPolicy template) None [controllerRef] "" None [].

Definition createPods (namespace : string) (template : Pod) (controllerRef : OwnerReference) : prog (option api_error) :=
  let pod := GetPodFromTemplate template controllerRef in
  if bool_decide (pod_Labels pod = ∅) then Done (Some (Errorf "unable to create pods, no labels"))
  else call (RCreatePod namespace pod).

Definition validateControllerRef (controllerRef : OwnerReference) : option api_error :=
  if bool_decide (own_Kind controllerRef = ""%string) then Some (Errorf "controllerRef has empty Kind")
  else if bool_decide (own_Controller controllerRef = Some true) then None
  else Some (Errorf "controllerRef.Controller is not set to true").

Definition CreatePodsWithControllerRef (namespace : string) (template : Pod) (controllerRef : OwnerReference) : prog (option api_error) :=
  match validateControllerRef controllerRef with
  | Some err => Done (Some err)
  | None => createPods namespace template controllerRef
  end.

Definition DeletePod (namespace podID : string) : prog (option api_error) :=
  err ← call (RDeletePod namespace podID);
  match err with
  | None => Done None
  | Some err => if IsNotFound err then Done (Some err) else Done (Some (Errorf ("unable to delete pods: " ++ err_Text err)))
  end.

(** ** Slow start *)

Section SlowStart.
Context (fn : prog (option api_error)).

(** The loop of [slowStartBatch] before [integer.IntMin]: [size] is what the
    batch would be. *)
Equations? slow_loop (size remaining successes : Z) : prog (Z * option api_error) by wf (Z.to_nat remaining) lt :=
  slow_loop size remaining successes with Z_lt_dec 0 (Z.min size remaining) => {
    | left _ =>
      let batchSize := Z.min size remaining in
      errCh ← go (repeat fn (Z.to_nat batchSize));
      let curSuccesses := batchSize - Z.of_nat (length (errors_of errCh)) in
      let successes := successes + curSuccesses in
      match first_error errCh with
      | Some err => Done (successes, Some err)
      | None => slow_loop (int64 (2 * batchSize)) (remaining - batchSize) successes
      end
    | right _ => Done (successes, None) }.
Proof. lia. Qed.

Definition slowStartBatch (count initialBatchSize : Z) : prog (Z * option api_error) := slow_loop initialBatchSize count 0.

End SlowStart.

(** ** Claiming pods: [controller_ref_manager.go] *)

Section Claim.
Context (controller : ReplicaSet) (selector : Selector) (kind : string).

(** [NewControllerRef] *)
Definition NewControllerRef (owner : ReplicaSet) : OwnerReference :=
  mkOwnerReference kind (rs_Name owner) (rs_UID owner) (Some true).

(** [claimPods], [RecheckDeletionTimestamp]: is the set still there? *)
Definition canAdoptFunc : prog (option api_error) :=
  FetchReplicaSet (rs_Namespace controller) (rs_Name controller) (λ fresh,
    match fresh with
    | inl err => Done (Some (Errorf ("can't recheck DeletionTimestamp: " ++ err_Text err)))
    | inr fresh =>
        if negb (rs_UID fresh =? rs_UID controller)%string then Done (Some (Errorf "can't recheck DeletionTimestamp: original is gone"))
        else if bool_decide (rs_DeletionTimestamp fresh = None) then Done None
        else Done (Some (Errorf "has just been deleted"))
    end).

(** [CanAdopt] asks once; the answer is kept in [once]. *)
Definition CanAdopt (once : option (option api_error)) : prog (option api_error) :=
  match once with Some err => Done err | None => canAdoptFunc end.

Definition AdoptPod (once : option (option api_error)) (pod : Pod) : prog (option api_error * option (option api_error)) :=
  canAdopt ← CanAdopt once;
  match canAdopt with
  | Some err => Done (Some (Errorf ("can't adopt Pod: " ++ err_Text err)), Some canAdopt)
  | None => err ← call (RAdoptPod pod (NewControllerRef controller)); Done (err, Some canAdopt)
  end.

Definition ReleasePod (pod : Pod) : prog (option api_error) :=
  err ← call (RReleasePod pod (rs_UID controller));
  match err with
  | Some err => if IsNotFound err || IsInvalid err then Done None else Done (Some err)
  | None => Done None
  end.

(** Whether the pod is ours now, or an error; with what [CanAdopt] keeps. *)
Definition ClaimObject (once : option (option api_error)) (pod : Pod) : prog ((api_error + bool) * option (option api_error)) :=
  match GetControllerOf (pod_OwnerReferences pod) with
  | Some controllerRef =>
      if negb (own_UID controllerRef =? rs_UID controller)%string then Done (inr false, once)
      else if Matches selector (pod_Labels pod) then Done (inr true, once)
      else if bool_decide (rs_DeletionTimestamp controller ≠ None) then Done (inr false, once)
      else
        err ← ReleasePod pod;
        match err with
        | Some err => if IsNotFound err then Done (inr false, once) else Done (inl err, once)
        | None => Done (inr false, once)
        end
  | None =>
      if bool_decide (rs_DeletionTimestamp controller ≠ None) || negb (Matches selector (pod_Labels pod)) then Done (inr false, once)
      else if bool_decide (pod_DeletionTimestamp pod ≠ None) then Done (inr false, once)
      else
        r ← AdoptPod once pod;
        let '(err, once) := r in
        match err with
        | Some err => if IsNotFound err then Done (inr false, once) else Done (inl err, once)
        | None => Done (inr true, once)
        end
  end.

Fixpoint claim_loop (once : option (option api_error)) (pods claimed : list Pod) (errlist : list api_error) : prog (list Pod * option api_error) :=
  match pods with
  | [] => Done (claimed, NewAggregate errlist)
  | pod :: pods =>
      r ← ClaimObject once pod;
      match r with
      | (inl err, once) => claim_loop once pods claimed (errlist ++ [err])
      | (inr ok, once) => claim_loop once pods (if ok : bool then claimed ++ [pod] else claimed) errlist
      end
  end.

Definition ClaimPods (pods : list Pod) : prog (list Pod * option api_error) := claim_loop None pods [] [].

End Claim.

(** ** The controller *)

Section Controller.
(** [GroupVersionKind.Kind], [burstReplicas], the feature gates, the logarithm
    and [sort.Sort]. *)
Context (Kind : string) (burstReplicas : Z) (PodDeletionCostGate LogarithmicScaleDown : bool) (log_rank : Z → Z)
  (sort : (Pod * Z → Pod * Z → bool) → list (Pod * Z) → list (Pod * Z)).

(** *** The handlers *)

Definition enqueueRS (rs : ReplicaSet) : prog unit := act (AQueueAdd (RSKey rs)).
Definition enqueueRSAfter (rs : ReplicaSet) (duration : Z) : prog unit := act (AQueueAddAfter (RSKey rs) duration).

Definition resolveControllerRef (namespace : string) (controllerRef : OwnerReference) : prog (option ReplicaSet) :=
  if negb (own_Kind controllerRef =? Kind)%string then Done None
  else GetReplicaSet namespace (own_Name controllerRef) (λ rs,
    match rs with
    | Some rs => if negb (rs_UID rs =? own_UID controllerRef)%string then Done None else Done (Some rs)
    | None => Done None
    end).

(** [GetPodReplicaSets] of the lister; [None] for an invalid selector. *)
Fixpoint matching_sets (pod : Pod) (l : list ReplicaSet) : option (list ReplicaSet) :=
  match l with
  | [] => Some []
  | rs :: l =>
      if negb (rs_Namespace rs =? pod_Namespace pod)%string then matching_sets pod l
      else match LabelSelectorAsSelector (rs_Selector rs) with
           | None => None
           | Some selector =>
               if Empty selector || negb (Matches selector (pod_Labels pod)) then matching_sets pod l
               else rss ← matching_sets pod l; Some (rs :: rss)
           end
  end.

Definition getPodReplicaSets (pod : Pod) : prog (list ReplicaSet) :=
  if bool_decide (pod_Labels pod = ∅) then Done []
  else ListReplicaSets (pod_Namespace pod) (λ l, Done (default [] (matching_sets pod l))).

(** An object or the last known state of a deleted one. *)
Definition deletePod (pod : Pod) : prog unit :=
  match GetControllerOf (pod_OwnerReferences pod) with
  | None => Done tt
  | Some controllerRef =>
      rs ← resolveControllerRef (pod_Namespace pod) controllerRef;
      match rs with
      | None => Done tt
      | Some rs => observe_deletion (RSKey rs) (PodKey pod) ;; act (AQueueAdd (RSKey rs))
      end
  end.

Definition addPod (pod : Pod) : prog unit :=
  if bool_decide (pod_DeletionTimestamp pod ≠ None) then deletePod pod
  else match GetControllerOf (pod_OwnerReferences pod) with
       | Some controllerRef =>
           rs ← resolveControllerRef (pod_Namespace pod) controllerRef;
           match rs with
           | None => Done tt
           | Some rs => observe_creation (RSKey rs) ;; act (AQueueAdd (RSKey rs))
           end
       | None => rss ← getPodReplicaSets pod; each enqueueRS rss
       end.

Definition updatePod (oldPod curPod : Pod) : prog unit :=
  if bool_decide (pod_ResourceVersion curPod = pod_ResourceVersion oldPod) then Done tt
  else
    let labelChanged := bool_decide (pod_Labels curPod ≠ pod_Labels oldPod) in
    if bool_decide (pod_DeletionTimestamp curPod ≠ None) then
      deletePod curPod ;;
      (if labelChanged then deletePod oldPod else Done tt)
    else
      let curControllerRef := GetControllerOf (pod_OwnerReferences curPod) in
      let oldControllerRef := GetControllerOf (pod_OwnerReferences oldPod) in
      let controllerRefChanged := bool_decide (curControllerRef ≠ oldControllerRef) in
      match oldControllerRef with
      | Some ref =>
          if controllerRefChanged then
            rs ← resolveControllerRef (pod_Namespace oldPod) ref;
            match rs with Some rs => enqueueRS rs | None => Done tt end
          else Done tt
      | None => Done tt
      end ;;
      match curControllerRef with
      | Some ref =>
          rs ← resolveControllerRef (pod_Namespace curPod) ref;
          match rs with
          | None => Done tt
          | Some rs =>
              enqueueRS rs ;;
              (if negb (IsPodReady oldPod) && IsPodReady curPod && (0 <? rs_MinReadySeconds rs)
               then enqueueRSAfter rs (int64 (int64 (rs_MinReadySeconds rs * second) + second))
               else Done tt)
          end
      | None =>
          if labelChanged || controllerRefChanged then rss ← getPodReplicaSets curPod; each enqueueRS rss
          else Done tt
      end.

Definition addRS (rs : ReplicaSet) : prog unit := enqueueRS rs.

Definition deleteRS (rs : ReplicaSet) : prog unit := act (ADeleteExpectations (RSKey rs)) ;; act (AQueueAdd (RSKey rs)).

Definition updateRS (oldRS curRS : ReplicaSet) : prog unit :=
  (if bool_decide (rs_UID curRS ≠ rs_UID oldRS) then deleteRS oldRS else Done tt) ;;
  enqueueRS curRS.

(** *** Related pods *)

Definition getReplicaSetsWithSameController (rs : ReplicaSet) : prog (list ReplicaSet) :=
  match GetControllerOf (rs_OwnerReferences rs) with
  | None => Done []
  | Some controllerRef =>
      ListReplicaSets (rs_Namespace rs) (λ allRSs,
        Done (filter (λ r, own_UID <$> GetControllerOf (rs_OwnerReferences r) = Some (own_UID controllerRef)) allRSs))
  end.

(** Pods of [pods] with a UID not [seen] before. *)
Fixpoint unseen (seen : gset string) (pods : list Pod) : list Pod * gset string :=
  match pods with
  | [] => ([], seen)
  | pod :: pods =>
      if bool_decide (pod_UID pod ∈ seen) then unseen seen pods
      else let '(l, seen) := unseen ({[pod_UID pod]} ∪ seen) pods in (pod :: l, seen)
  end.

(** [None] for an error. *)
Fixpoint related_loop (seen : gset string) (relatedPods : list Pod) (sets : list ReplicaSet) : prog (option (list Pod)) :=
  match sets with
  | [] => Done (Some relatedPods)
  | relatedRS :: sets =>
      match LabelSelectorAsSelector (rs_Selector relatedRS) with
      | None => Done None
      | Some selector =>
          ListPods (rs_Namespace relatedRS) selector (λ pods,
            let '(l, seen) := unseen seen pods in related_loop seen (relatedPods ++ l) sets)
      end
  end.

Definition getIndirectlyRelatedPods (rs : ReplicaSet) : prog (list Pod) :=
  sets ← getReplicaSetsWithSameController rs;
  pods ← related_loop ∅ [] sets;
  Done (default [] pods).

(** *** Managing replicas *)

Definition create_call (rs : ReplicaSet) : prog (option api_error) :=
  err ← CreatePodsWithControllerRef (rs_Namespace rs) (rs_Template rs) (NewControllerRef Kind rs);
  match err with
  | Some e => if bool_decide (err_Reason e = NamespaceTerminating) then Done None else Done err
  | None => Done None
  end.

(** What the goroutine sends to [errCh], if anything. *)
Definition delete_call (rs : ReplicaSet) (targetPod : Pod) : prog (option api_error) :=
  err ← DeletePod (rs_Namespace rs) (pod_Name targetPod);
  match err with
  | Some e =>
      observe_deletion (RSKey rs) (PodKey targetPod) ;;
      Done (if IsNotFound e then None else Some e)
  | None => Done None
  end.

(** The error, and what the array of [filteredPods] then holds. *)
Definition manageReplicas (filteredPods : list Pod) (rs : ReplicaSet) : prog (option api_error * list Pod) :=
  let diff := Z.of_nat (length filteredPods) - rs_Replicas rs in
  let rsKey := RSKey rs in
  if diff <? 0 then
    let diff := Z.min (- diff) burstReplicas in
    act (AExpectCreations rsKey diff) ;;
    r ← slowStartBatch (create_call rs) diff SlowStartInitialBatchSize;
    let '(successfulCreations, err) := r in
    let skippedPods := diff - successfulCreations in
    each (λ _, observe_creation rsKey) (replicate (Z.to_nat skippedPods) tt) ;;
    Done (err, filteredPods)
  else if 0 <? diff then
    let diff := Z.min diff burstReplicas in
    relatedPods ← getIndirectlyRelatedPods rs;
    Clock (λ clock,
      let '(podsToDelete, filteredPods) :=
        getPodsToDelete PodDeletionCostGate LogarithmicScaleDown log_rank sort filteredPods relatedPods (Z.to_nat diff) (clock 0%nat) in
      act (AExpectDeletions rsKey (getPodKeys podsToDelete)) ;;
      errCh ← go (delete_call rs <$> podsToDelete);
      Done (first_error errCh, filteredPods))
  else Done (None, filteredPods).

(** *** Status *)

Definition same_status (rs : ReplicaSet) (newStatus : ReplicaSetStatus) : bool :=
  (st_Replicas (rs_Status rs) =? st_Replicas newStatus) &&
  (st_FullyLabeledReplicas (rs_Status rs) =? st_FullyLabeledReplicas newStatus) &&
  (st_ReadyReplicas (rs_Status rs) =? st_ReadyReplicas newStatus) &&
  (st_AvailableReplicas (rs_Status rs) =? st_AvailableReplicas newStatus) &&
  (rs_Generation rs =? st_ObservedGeneration (rs_Status rs)) &&
  bool_decide (st_Conditions (rs_Status rs) = st_Conditions newStatus).

(** The loop, with [retries] attempts left after this one. *)
Fixpoint update_status_loop (retries : nat) (rs : ReplicaSet) (newStatus : ReplicaSetStatus) : prog (api_error + ReplicaSet) :=
  UpdateStatus (set_Status rs newStatus) (λ r,
    match r with
    | inr updatedRS => Done (inr updatedRS)
    | inl updateErr =>
        match retries with
        | O => Done (inl updateErr)
        | S retries =>
            FetchReplicaSet (rs_Namespace rs) (rs_Name rs) (λ fresh,
              match fresh with inl getErr => Done (inl getErr) | inr rs => update_status_loop retries rs newStatus end)
        end
    end).

Definition updateReplicaSetStatus (rs : ReplicaSet) (newStatus : ReplicaSetStatus) : prog (api_error + ReplicaSet) :=
  if same_status rs newStatus then Done (inr rs)
  else
    update_status_loop statusUpdateRetries rs
      (mkRSStatus (st_Replicas newStatus) (st_FullyLabeledReplicas newStatus) (st_ReadyReplicas newStatus) (st_AvailableReplicas newStatus)
        (rs_Generation rs) (st_Conditions newStatus)).

(** *** Synchronisation *)

(** After [manageReplicas]. *)
Definition finish_sync (key : string) (rs : ReplicaSet) (filteredPods : list Pod) (manageReplicasErr : option api_error) : prog (option api_error) :=
  Clock (λ clock,
    updated ← updateReplicaSetStatus rs (calculateStatus rs filteredPods manageReplicasErr clock);
    match updated with
    | inl err => Done (Some err)
    | inr updatedRS =>
        (if bool_decide (manageReplicasErr = None) && (0 <? rs_MinReadySeconds updatedRS) &&
            (st_ReadyReplicas (rs_Status updatedRS) =? rs_Replicas updatedRS) &&
            negb (st_AvailableReplicas (rs_Status updatedRS) =? rs_Replicas updatedRS)
         then act (AQueueAddAfter key (int64 (rs_MinReadySeconds updatedRS * second)))
         else Done tt) ;;
        Done manageReplicasErr
    end).

Definition syncReplicaSet (key : string) : prog (option api_error) :=
  match SplitMetaNamespaceKey key with
  | None => Done (Some (Errorf "unexpected key format"))
  | Some (namespace, name) =>
      GetReplicaSet namespace name (λ rs,
        match rs with
        | None => act (ADeleteExpectations key) ;; Done None
        | Some rs =>
            Satisfied key (λ rsNeedsSync,
              match LabelSelectorAsSelector (rs_Selector rs) with
              | None => Done None
              | Some selector =>
                  ListPods (rs_Namespace rs) Everything (λ allPods,
                    r ← ClaimPods rs selector Kind (FilterActivePods allPods);
                    match r with
                    | (_, Some err) => Done (Some err)
                    | (filteredPods, None) =>
                        r ← (if rsNeedsSync && bool_decide (rs_DeletionTimestamp rs = None) then manageReplicas filteredPods rs
                             else Done (None, filteredPods));
                        let '(manageReplicasErr, filteredPods) := r in
                        finish_sync key rs filteredPods manageReplicasErr
                    end)
              end)
        end)
  end.

(** [processNextWorkItem] once [queue.Get] has given a key. *)
Definition processNextWorkItem (key : string) : prog unit :=
  err ← syncReplicaSet key;
  (if bool_decide (err = None) then act (AQueueForget key) else act (AQueueAddRateLimited key)) ;;
  act (AQueueDone key).

End Controller.
