(* ===== verification/SlowStart.v ===== *)
(** * Slow start: [slowStartBatch] of [replica_set.go]

    How many calls and how many batches it makes, whatever the calls return. *)

From S2P Require Import Prelude AppsTypes CtlProgram ReplicaSet.
#[local] Open Scope Z_scope.

(** A program that only starts copies of [fn], batch by batch: the results of
    each batch in the order they came, and the result. *)
Inductive rounds {A} (fn : prog (option api_error)) : prog A → list (list (option api_error)) → A → Prop :=
  | rounds_done a : rounds fn (Done a) [] a
  | rounds_par n k rs rss a : length rs = n → rounds fn (k rs) rss a → rounds fn (Par (repeat fn n) [] k) (rs :: rss) a.

(** [1+floor(log_2(ceil(N/SlowStartInitialBatchSize)))], none for nothing. *)
Definition batches_of (count initialBatchSize : Z) : Z :=
  if count =? 0 then 0 else 1 + Z.log2 ((count + initialBatchSize - 1) / initialBatchSize).

Lemma slow_loop_unfold fn size remaining successes :
  slow_loop fn size remaining successes =
  let batchSize := Z.min size remaining in
  if 0 <? batchSize then
    Par (repeat fn (Z.to_nat batchSize)) [] (λ errCh,
      let successes := successes + (batchSize - Z.of_nat (length (errors_of errCh))) in
      match first_error errCh with
      | Some err => Done (successes, Some err)
      | None => slow_loop fn (int64 (2 * batchSize)) (remaining - batchSize) successes
      end)
  else Done (successes, None).
Proof.
  rewrite slow_loop_equation_1. unfold slow_loop_unfold_clause_1. simpl.
  destruct (Z_lt_dec 0 (Z.min size remaining)) as [H|H]; destruct (Z.ltb_spec 0 (Z.min size remaining)); try lia; done.
Qed.

Lemma no_errors l : first_error l = None ↔ errors_of l = [].
Proof. unfold first_error. by destruct (errors_of l). Qed.

Lemma errors_app l l' : errors_of (l ++ l') = errors_of l ++ errors_of l'.
Proof. apply omap_app. Qed.

Lemma length_errors l : (length (errors_of l) ≤ length l)%nat.
Proof. induction l as [|[e|] l IH]; simpl; [done| |]; unfold errors_of in *; simpl; lia. Qed.

Lemma batches_last size remaining : 0 < remaining ≤ size → batches_of remaining size = 1.
Proof.
  intros H. unfold batches_of. rewrite (proj2 (Z.eqb_neq _ _)) by lia.
  replace ((remaining + size - 1) / size) with 1; [done|]. apply (Z.div_unique_pos _ _ _ (remaining - 1)); lia.
Qed.

Lemma batches_more size remaining :
  0 < size < remaining → batches_of remaining size = 1 + batches_of (remaining - size) (2 * size).
Proof.
  intros H. unfold batches_of. rewrite !(proj2 (Z.eqb_neq _ _)) by lia. f_equal.
  set (q := (remaining + size - 1) / size).
  assert (size * q ≤ remaining + size - 1 < size * q + size) as Hq.
  { pose proof (Z.div_mod (remaining + size - 1) size ltac:(lia)). pose proof (Z.mod_pos_bound (remaining + size - 1) size ltac:(lia)). unfold q. lia. }
  assert (2 ≤ q) as H2 by nia.
  assert ((remaining - size + 2 * size - 1) / (2 * size) = q / 2) as ->.
  { symmetry. apply (Z.div_unique_pos _ _ _ (remaining + size - 1 - 2 * size * (q / 2))); [|lia].
    pose proof (Z.div_mod q 2 ltac:(lia)). pose proof (Z.mod_pos_bound q 2 ltac:(lia)). nia. }
  rewrite <- Z.div2_div, Z.div2_spec, Z.log2_shiftr by lia.
  assert (1 ≤ Z.log2 q) by (apply Z.log2_le_pow2; lia). lia.
Qed.

(** One batch, and what follows. *)
Lemma slow_loop_rounds fn size remaining successes rss res :
  1 ≤ size → 0 ≤ remaining ≤ 2 ^ 62 → rounds fn (slow_loop fn size remaining successes) rss res →
  (remaining = 0 ∧ rss = [] ∧ res = (successes, None)) ∨
  (∃ rs rest, rss = rs :: rest ∧ length rs = Z.to_nat (Z.min size remaining) ∧ 0 < remaining ∧
    let successes := successes + (Z.min size remaining - Z.of_nat (length (errors_of rs))) in
    match first_error rs with
    | Some err => rest = [] ∧ res = (successes, Some err)
    | None => if bool_decide (remaining ≤ size) then rest = [] ∧ res = (successes, None)
              else rounds fn (slow_loop fn (2 * size) (remaining - size) successes) rest res
    end).
Proof.
  intros Hs Hr. rewrite slow_loop_unfold. cbv zeta. destruct (Z.ltb_spec 0 (Z.min size remaining)) as [Hb|Hb].
  2: { inversion 1; subst. left. split; [lia|done]. }
  inversion 1 as [|n k rs rest a Hl Hk Hn]; subst. right. exists rs, rest.
  split_and!; [done| |lia|]; [apply (f_equal length) in Hn; by rewrite !repeat_length in Hn|].
  destruct (first_error rs); [by inversion Hk; subst|]. case_bool_decide as Hle.
  - rewrite Z.min_r in Hk by lia. rewrite Z.min_r by lia. rewrite Z.sub_diag, slow_loop_unfold in Hk. cbv zeta in Hk.
    destruct (Z.ltb_spec 0 (Z.min (int64 (2 * remaining)) 0)); [lia|]. by inversion Hk; subst.
  - rewrite Z.min_l in Hk by lia. rewrite Z.min_l by lia. rewrite int64_id in Hk; [done|]. unfold min_int64, max_int64. lia.
Qed.

(** What the calls of all batches tell. *)
Record slow_result (size remaining successes : Z) (rss : list (list (option api_error))) (res : Z * option api_error) : Prop := {
  slow_calls : Z.of_nat (length (concat rss)) ≤ remaining;
  slow_successes : res.1 = successes + Z.of_nat (length (concat rss)) - Z.of_nat (length (errors_of (concat rss)));
  slow_error : res.2 = first_error (concat rss);
  slow_all : res.2 = None → Z.of_nat (length (concat rss)) = remaining ∧ Z.of_nat (length rss) = batches_of remaining size;
  slow_batches : Z.of_nat (length rss) ≤ batches_of remaining size;
  slow_first : ∀ rs rest, rss = rs :: rest → Z.of_nat (length rs) = Z.min size remaining;
  slow_stop : ∀ l rs r, rss = l ++ rs :: r → errors_of rs ≠ [] → r = [];
}.

Lemma slow_result_cons size remaining successes rs rest res :
  0 < size < remaining → Z.of_nat (length rs) = size → errors_of rs = [] →
  slow_result (2 * size) (remaining - size) (successes + size) rest res → slow_result size remaining successes (rs :: rest) res.
Proof.
  intros Hs Hl He [H1 H2 H3 H4 H5 _ H7]. pose proof (batches_more size remaining Hs) as Hb.
  split; simpl; unfold first_error; rewrite ?length_app, ?errors_app, ?He.
  - lia.
  - simpl. rewrite H2. lia.
  - done.
  - intros Hn. destruct (H4 Hn) as [H4a H4b]. lia.
  - lia.
  - intros ? ? [= <- <-]. lia.
  - intros [|x l] ? ? [= <- Hrest]; [by rewrite He|]. by eapply H7.
Qed.

Lemma slow_result_one size remaining successes rs res :
  0 < size → 0 < remaining → Z.of_nat (length rs) = Z.min size remaining →
  (errors_of rs = [] → remaining ≤ size) → res = (successes + (Z.min size remaining - Z.of_nat (length (errors_of rs))), first_error rs) →
  slow_result size remaining successes [rs] res.
Proof.
  intros Hs Hr Hl He ->. assert (1 ≤ batches_of remaining size) as Hb.
  { destruct (Z.le_gt_cases remaining size); [rewrite batches_last; lia|]. rewrite batches_more by lia. unfold batches_of. case_match; [lia|].
    pose proof (Z.log2_nonneg ((remaining - size + 2 * size - 1) / (2 * size))). lia. }
  split; simpl; rewrite ?app_nil_r.
  - lia.
  - lia.
  - done.
  - intros Hn%no_errors. specialize (He Hn). rewrite batches_last by lia. lia.
  - lia.
  - by intros ? ? [= <- <-].
  - intros [|x l] ? ? Heq _; injection Heq; [done|]. intros H. by destruct l.
Qed.

Lemma slow_loop_result fn size remaining successes rss res :
  1 ≤ size → 0 ≤ remaining ≤ 2 ^ 62 → rounds fn (slow_loop fn size remaining successes) rss res →
  slow_result size remaining successes rss res.
Proof.
  revert size remaining successes. induction rss as [|rs rss IH]; intros size remaining successes Hs Hr Hro.
  - apply slow_loop_rounds in Hro as [(-> & _ & ->)|(? & ? & [=] & _)]; [|lia|lia].
    split; simpl; try done; [lia|by intros [] ? ? [=]].
  - apply slow_loop_rounds in Hro as [(_ & [=] & _)|(? & ? & [= <- <-] & Hl & Hpos & Hm)]; [|lia|lia]. cbv zeta in Hm.
    destruct (first_error rs) as [e|] eqn:He.
    { destruct Hm as [-> ->]. apply slow_result_one; [lia|lia|lia| |by rewrite He]. intros Hn%no_errors. congruence. }
    apply no_errors in He as He'. rewrite He' in Hm. simpl in Hm. case_bool_decide as Hle.
    { destruct Hm as [-> ->]. apply slow_result_one; [lia|lia|lia|done|]. by rewrite He, He'. }
    rewrite Z.min_l in Hm by lia. rewrite Z.sub_0_r in Hm. apply slow_result_cons; [lia|lia|done|]. apply IH; [lia|lia|done].
Qed.

(** Every sequence of answers is used up to the end of a batch. *)
Lemma slow_loop_runs fn (answers : nat → option api_error) size remaining successes i :
  1 ≤ size → 0 ≤ remaining ≤ 2 ^ 62 →
  ∃ rss res, rounds fn (slow_loop fn size remaining successes) rss res ∧ concat rss = answers <$> seq i (length (concat rss)).
Proof.
  remember (Z.to_nat remaining) as n eqn:Hn. revert size remaining successes i Hn.
  induction n as [n IH] using lt_wf_ind. intros size remaining successes i -> Hs Hr. rewrite slow_loop_unfold. cbv zeta.
  destruct (Z.ltb_spec 0 (Z.min size remaining)) as [Hb|Hb]; [|by exists [], (successes, None); split; [constructor|]].
  set (b := Z.min size remaining) in *. set (rs := answers <$> seq i (Z.to_nat b)).
  assert (length rs = Z.to_nat b) as Hl by (unfold rs; by rewrite length_fmap, length_seq).
  destruct (first_error rs) as [e|] eqn:He.
  { eexists [rs], _. split; [constructor; [done|]; rewrite He; constructor|]. simpl. by rewrite app_nil_r, Hl. }
  assert (∃ rest res, rounds fn (slow_loop fn (int64 (2 * b)) (remaining - b) (successes + (b - Z.of_nat (length (errors_of rs))))) rest res ∧
    concat rest = answers <$> seq (i + length rs) (length (concat rest))) as (rest & res & Hro & Hc).
  { destruct (Z.le_gt_cases remaining size).
    - assert (remaining - b = 0) as -> by lia. rewrite slow_loop_unfold. cbv zeta.
      destruct (Z.ltb_spec 0 (Z.min (int64 (2 * b)) 0)); [lia|]. exists []. eexists. split; [constructor|done].
    - rewrite int64_id by (unfold min_int64, max_int64; lia). eapply IH; [|done|lia|lia]. lia. }
  exists (rs :: rest), res. split; [constructor; [done|]; by rewrite He|]. simpl. rewrite length_app, seq_app, fmap_app, <- Hc. f_equal.
  by rewrite Hl.
Qed.

(** C31. [slowStartBatch] terminates, for at most 2^62 calls and batches of at
    least one.  Whatever the calls return, it stops after at most [count] of
    them, in at most as many batches as its comment says,
    [1+floor(log_2(ceil(N/initial)))].  It reports the number of calls that
    succeeded and the first error.  Without an error it has made all calls, in
    exactly that many batches; after a batch with an error there is no other, so
    that if every call fails only [min(N, initial)] are made. *)
Theorem slow_start_terminates fn count initialBatchSize :
  0 ≤ count ≤ 2 ^ 62 → 1 ≤ initialBatchSize →
  (∀ answers : nat → option api_error, ∃ rss res,
     rounds fn (slowStartBatch fn count initialBatchSize) rss res ∧ concat rss = answers <$> seq 0 (length (concat rss))) ∧
  ∀ rss successes err, rounds fn (slowStartBatch fn count initialBatchSize) rss (successes, err) →
    let calls := concat rss in
    Z.of_nat (length calls) ≤ count ∧
    Z.of_nat (length rss) ≤ batches_of count initialBatchSize ∧
    successes = Z.of_nat (length calls) - Z.of_nat (length (errors_of calls)) ∧
    err = first_error calls ∧
    (err = None → successes = count ∧ Z.of_nat (length rss) = batches_of count initialBatchSize) ∧
    (∀ l rs r, rss = l ++ rs :: r → errors_of rs ≠ [] → r = []) ∧
    (errors_of calls ≠ [] → Forall (λ r, r ≠ None) calls → Z.of_nat (length calls) = Z.min count initialBatchSize).
Proof.
  intros Hc Hi. unfold slowStartBatch. split; [intros answers; by apply slow_loop_runs|].
  intros rss successes err Hro. apply slow_loop_result in Hro as [H1 H2 H3 H4 H5 H6 H7]; [|done|done]. simpl in *. cbv zeta.
  split_and!; [done|done|lia|done| |done|].
  - intros Hn. destruct (H4 Hn) as [H4a H4b]. rewrite H3 in Hn. apply no_errors in Hn. rewrite Hn in H2. simpl in H2. lia.
  - intros Hne Hall. destruct rss as [|rs rest]; [done|]. simpl in *. apply Forall_app in Hall as [Hall _].
    assert (rest = []) as ->.
    { apply (H7 [] rs rest); [done|]. specialize (H6 rs rest eq_refl).
      assert (0 < count) by (destruct rs; simpl in *; [|lia]; destruct (Z.eq_dec count 0) as [->|]; [|lia]; exfalso; apply Hne;
        destruct (concat rest); [done|simpl in *; lia]).
      destruct rs as [|[e|] rs]; simpl in *; [lia|done|]. by apply Forall_cons in Hall as [? _]. }
    simpl. rewrite app_nil_r, Z.min_comm. by apply (H6 rs []).
Qed.

(** Four pods, the third call fails: one call, then two, then no more. *)
Definition quota_error : api_error := mkError OtherReason "exceeded quota".

Lemma slow_start_terminates_witness :
  ∃ successes, rounds (Done None) (slowStartBatch (Done None) 4 1) [[None]; [None; Some quota_error]] (successes, Some quota_error) ∧
    successes = 2 ∧ 3 ≤ batches_of 4 1.
Proof.
  destruct (slow_start_terminates (Done None) 4 1 ltac:(lia) ltac:(lia)) as [_ H].
  assert (rounds (Done None) (slowStartBatch (Done None) 4 1) [[None]; [None; Some quota_error]] (2, Some quota_error)) as Hr.
  { unfold slowStartBatch. rewrite slow_loop_unfold. apply (rounds_par _ 1); [done|]. simpl. rewrite slow_loop_unfold.
    apply (rounds_par _ 2); [done|]. simpl. constructor. }
  exists 2. split; [exact Hr|]. destruct (H _ _ _ Hr) as (_ & _ & H1 & _). split; [exact H1|done].
Defined.
