(* ===== verification/ReplicaSetSystem.v ===== *)
(** * The ReplicaSet controller at work

    One ReplicaSet, the API server with the pods of its namespace, the
    informer that follows the server at its own pace, the goroutine that runs
    the handlers and the worker that holds the key of the set.  The server is
    known by its history; the cache shows what the history was some time ago,
    and the handlers have been told of a part of that.  Every step of the
    system is the choice of a [label]. *)

From S2P Require Import Prelude Labels ApiTypes ActivePods AppsTypes Expectations CtlProgram ReplicaSet.
#[local] Open Scope Z_scope.

#[export] Instance Requirement_eq_dec : EqDecision Requirement.
Proof. solve_decision. Defined.
#[export] Instance Selector_eq_dec : EqDecision Selector.
Proof. solve_decision. Defined.

(** ** History of pods *)

Inductive pod_event := PAdd (p : Pod) | PUpdate (old cur : Pod) | PDelete (p : Pod).

Definition event_key (ev : pod_event) : string :=
  match ev with PAdd p | PDelete p => PodKey p | PUpdate old _ => PodKey old end.

Definition apply_event (m : gmap string Pod) (ev : pod_event) : gmap string Pod :=
  match ev with
  | PAdd p => <[PodKey p := p]> m
  | PUpdate old cur => <[PodKey old := cur]> m
  | PDelete p => delete (PodKey p) m
  end.

Definition apply_all (m : gmap string Pod) (l : list pod_event) : gmap string Pod := foldl apply_event m l.

Record shared := mkShared {
  sh_base : gmap string Pod;
  sh_log : list pod_event;
  sh_seen : nat;
  sh_handled : nat;
  sh_exp : Expectations;
  sh_lock : bool;
}.

Definition server (s : shared) : gmap string Pod := apply_all (sh_base s) (sh_log s).
Definition cache (s : shared) : gmap string Pod := apply_all (sh_base s) (take (sh_seen s) (sh_log s)).
Definition told (s : shared) : gmap string Pod := apply_all (sh_base s) (take (sh_handled s) (sh_log s)).

(** The names that were ever used before the first [n] events. *)
Definition used (s : shared) (n : nat) : gset string :=
  dom (sh_base s) ∪ list_to_set (event_key <$> take n (sh_log s)).

Definition with_exp (s : shared) (e : Expectations) : shared :=
  mkShared (sh_base s) (sh_log s) (sh_seen s) (sh_handled s) e (sh_lock s).
Definition with_lock (s : shared) (b : bool) : shared :=
  mkShared (sh_base s) (sh_log s) (sh_seen s) (sh_handled s) (sh_exp s) b.
Definition happens (s : shared) (ev : pod_event) : shared :=
  mkShared (sh_base s) (sh_log s ++ [ev]) (sh_seen s) (sh_handled s) (sh_exp s) (sh_lock s).

Section System.
Context (Kind : string) (burstReplicas : Z) (PodDeletionCostGate LogarithmicScaleDown : bool) (log_rank : Z → Z)
  (sort : (Pod * Z → Pod * Z → bool) → list (Pod * Z) → list (Pod * Z)).
(** The set: its namespace, name, UID and selector. *)
Context (ns name uid : string) (selector : Selector).
(** Its number of replicas while it is watched, and whether others end or
    delete its pods. *)
Context (lo hi : Z) (disturb : bool).

Abbreviation key := (MetaNamespaceKey ns name).

(** ** The pods of the set *)

Definition mine (p : Pod) : bool :=
  (pod_Namespace p =? ns)%string && Matches selector (pod_Labels p) &&
  match GetControllerOf (pod_OwnerReferences p) with
  | Some ref => (own_Kind ref =? Kind)%string && (own_Name ref =? name)%string && (own_UID ref =? uid)%string
  | None => false
  end.

Definition foreign (p : Pod) : bool :=
  match GetControllerOf (pod_OwnerReferences p) with Some ref => negb (own_UID ref =? uid)%string | None => false end.

(** The names of the active pods of the set. *)
Definition acts (m : gmap string Pod) : gset string := dom (filter (λ kp, mine kp.2 && IsPodActive kp.2 = true) m).

(** What the lister may return for the set. *)
Definition our_set (rs : ReplicaSet) : bool :=
  (rs_Namespace rs =? ns)%string && (rs_Name rs =? name)%string && (rs_UID rs =? uid)%string &&
  (lo <=? rs_Replicas rs) && (rs_Replicas rs <=? hi) &&
  match LabelSelectorAsSelector (rs_Selector rs) with
  | Some sel => bool_decide (sel = selector) && Matches sel (pod_Labels (rs_Template rs))
  | None => false
  end.

(** ** Steps of programs *)

Inductive answer :=
  | AVoid
  | ANow (now : Z)
  | AFail (e : api_error)
  | ACreated (p : Pod)
  (* a deletion sets the timestamp, removes the pod or finds it marked *)
  | AMarked (cur : Pod) | ARemoved | AMarkedBefore
  | ASet (r : option ReplicaSet)
  | ASets (l : list ReplicaSet)
  | APods (names : list string)
  | AFetched (r : api_error + ReplicaSet)
  | AClock (clock : nat → Z)
  (* a goroutine of [Par] *)
  | AGo (i : nat) (a : answer)
  | AJoin (i : nat)
  | AWait.

Definition exec_action (s : shared) (a : action) (x : answer) : option shared :=
  match a, x with
  | AExpectCreations k n, ANow now => Some (with_exp s (ExpectCreations (sh_exp s) k n now))
  | AExpectDeletions k ks, ANow now => if sh_lock s then None else Some (with_exp s (ExpectDeletions (sh_exp s) k ks now))
  | ADeleteExpectations k, AVoid => if sh_lock s then None else Some (with_exp s (DeleteExpectations (sh_exp s) k))
  | AExpAdd ref add del, AVoid => Some (with_exp s (exp_Add (sh_exp s) ref add del))
  | ADeletionFinish rcKey deleteKey ref, AVoid =>
      Some (with_lock (with_exp s (deletion_finish (sh_exp s) rcKey deleteKey ref)) false)
  | AQueueAdd _, AVoid | AQueueAddAfter _ _, AVoid | AQueueAddRateLimited _, AVoid | AQueueForget _, AVoid | AQueueDone _, AVoid => Some s
  | _, _ => None
  end.

(** A created pod has a name that was never used. *)
Definition created_from (s : shared) (namespace : string) (pod p : Pod) : bool :=
  bool_decide (pod_Namespace p = namespace ∧ pod_Labels p = pod_Labels pod ∧ pod_OwnerReferences p = pod_OwnerReferences pod) &&
  IsPodActive p && bool_decide (PodKey p ∉ used s (length (sh_log s))).

(** The mark of a deletion changes nothing else the controller sees. *)
Definition marked (old cur : Pod) : bool :=
  bool_decide (PodKey cur = PodKey old ∧ pod_Namespace cur = pod_Namespace old ∧ pod_Labels cur = pod_Labels old ∧
    pod_OwnerReferences cur = pod_OwnerReferences old ∧ pod_DeletionTimestamp old = None ∧ pod_DeletionTimestamp cur ≠ None).

(** Requests either fail, without effect, or have their effect. *)
Definition exec_request (s : shared) (r : request) (x : answer) : option (shared * option api_error) :=
  match r, x with
  | _, AFail e => Some (s, Some e)
  | RCreatePod namespace pod, ACreated p => if created_from s namespace pod p then Some (happens s (PAdd p), None) else None
  | RDeletePod namespace podName, _ =>
      old ← server s !! (namespace ++ "/" ++ podName)%string;
      match x with
      | AMarked cur => if marked old cur then Some (happens s (PUpdate old cur), None) else None
      | ARemoved => Some (happens s (PDelete old), None)
      | AMarkedBefore => if bool_decide (pod_DeletionTimestamp old = None) then None else Some (s, None)
      | _ => None
      end
  | _, _ => None
  end.

(** A lister answers from the cache, in any order. *)
Definition list_pods (s : shared) (namespace : string) (sel : Selector) (names : list string) : option (list Pod) :=
  if bool_decide (list_to_set names = dom (cache s) ∧ NoDup names) then
    Some (filter (λ p, pod_Namespace p = namespace ∧ Matches sel (pod_Labels p) = true) (omap (cache s !!.) names))
  else None.

(** The lister has the set under its key, and other sets under theirs. *)
Definition set_answer (namespace rsName : string) (r : option ReplicaSet) : bool :=
  if bool_decide (MetaNamespaceKey namespace rsName = key) then match r with Some rs => our_set rs | None => false end
  else match r with Some rs => bool_decide (RSKey rs = MetaNamespaceKey namespace rsName) | None => true end.

(** Expectations do not expire. *)
Definition unexpired (s : shared) (now : Z) : bool :=
  match expected (sh_exp s) key with Some e => Fulfilled e || negb (isExpired e now) | None => true end.

(** One step of a program that is not at [Par]. *)
Definition step_one {A} (s : shared) (p : prog A) (x : answer) : option (shared * prog A) :=
  match p, x with
  | Do a k, _ => s' ← exec_action s a x; Some (s', k)
  | Call r k, _ => '(s', e) ← exec_request s r x; Some (s', k e)
  | GetExp k' k, AVoid => Some (s, k (GetExpectations (sh_exp s) k'))
  | LockUIDs rcKey deleteKey k, AVoid =>
      if sh_lock s then None
      else match deletion_begin (sh_exp s) rcKey deleteKey with
           | Some ref => Some (with_lock s true, k (Some ref))
           | None => Some (s, k None)
           end
  | Satisfied k' k, ANow now => if unexpired s now then Some (s, k (SatisfiedExpectations (sh_exp s) k' now)) else None
  | GetReplicaSet namespace rsName k, ASet r => if set_answer namespace rsName r then Some (s, k r) else None
  | ListReplicaSets _ k, ASets l => Some (s, k l)
  | ListPods namespace sel k, APods names => l ← list_pods s namespace sel names; Some (s, k l)
  | FetchReplicaSet _ _ k, AFetched r => Some (s, k r)
  | UpdateStatus _ k, AFetched r => Some (s, k r)
  | Clock k, AClock clock => Some (s, k clock)
  | _, _ => None
  end.

Definition step_prog {A} (s : shared) (p : prog A) (x : answer) : option (shared * prog A) :=
  match p, x with
  | Par gs finished k, AGo i x => g ← gs !! i; '(s', g') ← step_one s g x; Some (s', Par (<[i := g']> gs) finished k)
  | Par gs finished k, AJoin i =>
      g ← gs !! i;
      match g with Done r => Some (s, Par (delete i gs) (finished ++ [r]) k) | _ => None end
  | Par [] finished k, AWait => Some (s, k finished)
  | _, _ => step_one s p x
  end.

(** ** The system *)

Record system := mkSystem { sy_shared : shared; sy_worker : option (prog unit); sy_handler : option (prog unit) }.

Inductive label :=
  (* the worker takes the key, and goes on; it ends when nothing is left *)
  | LTake | LWork (x : answer) | LWorkDone
  (* the informer updates its cache; the next event is handed to a handler, or
     is lost in a relist *)
  | LSee | LTell (lost : bool) | LHandle (x : answer) | LHandleDone
  (* something else happens to a pod *)
  | LOutside (ev : pod_event).

(** The handlers of the informer of pods. *)
Definition handle (ev : pod_event) : prog unit :=
  match ev with
  | PAdd p => addPod Kind p
  | PUpdate old cur => updatePod Kind old cur
  | PDelete p => deletePod Kind p
  end.

(** What others do: pods of the set stay its own and do not become active
    again; with [disturb] they may be ended or deleted.  Pods of others stay
    theirs. *)
Definition outside (m : gmap string Pod) (ev : pod_event) : bool :=
  match ev with
  | PAdd p => bool_decide (m !! PodKey p = None) && foreign p && negb (mine p)
  | PUpdate old cur =>
      bool_decide (m !! PodKey old = Some old) && bool_decide (PodKey cur = PodKey old) &&
      (if mine old then
         mine cur && implb (IsPodActive cur) (IsPodActive old) && (disturb || implb (IsPodActive old) (IsPodActive cur))
       else negb (mine cur) && foreign cur)
  | PDelete p => bool_decide (m !! PodKey p = Some p) && (disturb || negb (mine p && IsPodActive p))
  end.

Definition step_system (c : system) (l : label) : option system :=
  let s := sy_shared c in
  match l with
  | LTake =>
      match sy_worker c with
      | None => Some (mkSystem s (Some (processNextWorkItem Kind burstReplicas PodDeletionCostGate LogarithmicScaleDown log_rank sort key)) (sy_handler c))
      | Some _ => None
      end
  | LWork x => p ← sy_worker c; '(s', p') ← step_prog s p x; Some (mkSystem s' (Some p') (sy_handler c))
  | LWorkDone => match sy_worker c with Some (Done _) => Some (mkSystem s None (sy_handler c)) | _ => None end
  | LSee =>
      if (sh_seen s <? length (sh_log s))%nat
      then Some (mkSystem (mkShared (sh_base s) (sh_log s) (S (sh_seen s)) (sh_handled s) (sh_exp s) (sh_lock s)) (sy_worker c) (sy_handler c))
      else None
  | LTell lost =>
      match sy_handler c with
      | None =>
          if (sh_handled s <? sh_seen s)%nat then
            ev ← sh_log s !! sh_handled s;
            Some (mkSystem (mkShared (sh_base s) (sh_log s) (sh_seen s) (S (sh_handled s)) (sh_exp s) (sh_lock s)) (sy_worker c)
                    (if lost : bool then None else Some (handle ev)))
          else None
      | Some _ => None
      end
  | LHandle x => p ← sy_handler c; '(s', p') ← step_prog s p x; Some (mkSystem s' (sy_worker c) (Some p'))
  | LHandleDone => match sy_handler c with Some (Done _) => Some (mkSystem s (sy_worker c) None) | _ => None end
  | LOutside ev => if outside (server s) ev then Some (mkSystem (happens s ev) (sy_worker c) (sy_handler c)) else None
  end.

Fixpoint run_system (c : system) (ls : list label) : option system :=
  match ls with [] => Some c | l :: ls => c' ← step_system c l; run_system c' ls end.

(** The controller has started: the cache is in step with the server and the
    handlers know every pod. *)
Definition start_system (base : gmap string Pod) : system :=
  mkSystem (mkShared base [] 0 0 NewUIDTrackingControllerExpectations false) None None.

End System.
