(* ===== verification/PodHistory.v ===== *)
(** * Histories of pods

    What the active pods of a ReplicaSet at one point of a history tell about
    those at another. *)

From S2P Require Import Prelude Labels ApiTypes ActivePods AppsTypes Expectations CtlProgram ReplicaSet ReplicaSetSystem.
#[local] Open Scope Z_scope.

Lemma apply_all_app m l l' : apply_all m (l ++ l') = apply_all (apply_all m l) l'.
Proof. apply foldl_app. Qed.

Section History.
Context (Kind ns name uid : string) (selector : Selector).

Local Abbreviation mine := (mine Kind ns name uid selector).
Local Abbreviation foreign := (foreign uid).
Local Abbreviation acts := (acts Kind ns name uid selector).

Lemma elem_of_acts m k : k ∈ acts m ↔ ∃ p, m !! k = Some p ∧ mine p = true ∧ IsPodActive p = true.
Proof.
  unfold ReplicaSetSystem.acts. rewrite elem_of_dom. split.
  - intros [p [Hp [Hm Ha]%andb_prop]%map_lookup_filter_Some]. eauto.
  - intros (p & Hp & Hm & Ha). exists p. apply map_lookup_filter_Some. simpl. by rewrite Hm, Ha.
Qed.

Lemma acts_insert_active m k p : mine p = true → IsPodActive p = true → acts (<[k := p]> m) = {[k]} ∪ acts m.
Proof.
  intros Hm Ha. apply set_eq. intros x. rewrite elem_of_union, elem_of_singleton, !elem_of_acts.
  destruct (decide (x = k)) as [->|Hn]; [rewrite lookup_insert_eq|rewrite lookup_insert_ne by done].
  - split; [by left|]. intros _. eauto.
  - split; [by right|]. by intros [?|?].
Qed.

Lemma acts_insert_other m k p : mine p && IsPodActive p = false → acts (<[k := p]> m) = acts m ∖ {[k]}.
Proof.
  intros Hm. apply set_eq. intros x. rewrite elem_of_difference, elem_of_singleton, !elem_of_acts.
  destruct (decide (x = k)) as [->|Hn]; [rewrite lookup_insert_eq|rewrite lookup_insert_ne by done].
  - split; [|by intros [_ []]]. intros (p' & [= <-] & H1 & H2). by rewrite H1, H2 in Hm.
  - split; [by intros ?; split|by intros []].
Qed.

Lemma acts_delete m k : acts (delete k m) = acts m ∖ {[k]}.
Proof.
  apply set_eq. intros x. rewrite elem_of_difference, elem_of_singleton, !elem_of_acts.
  destruct (decide (x = k)) as [->|Hn]; [rewrite lookup_delete_eq|rewrite lookup_delete_ne by done].
  - split; [by intros (? & [=] & _)|by intros [_ []]].
  - split; [by intros ?; split|by intros []].
Qed.

Lemma acts_None m k : m !! k = None → k ∉ acts m.
Proof. rewrite elem_of_acts. intros H (p & Hp & _). congruence. Qed.

Definition mine_add (ev : pod_event) : bool := match ev with PAdd p => mine p | _ => false end.

(** An event the history may go on with. *)
Definition ok_event (m : gmap string Pod) (us : gset string) (ev : pod_event) : Prop :=
  match ev with
  | PAdd p =>
      m !! PodKey p = None ∧ (if mine p then PodKey p ∉ us ∧ IsPodActive p = true else foreign p = true)
  | PUpdate old cur =>
      m !! PodKey old = Some old ∧ PodKey cur = PodKey old ∧
      (if mine old then mine cur = true ∧ implb (IsPodActive cur) (IsPodActive old) = true else mine cur = false ∧ foreign cur = true)
  | PDelete p => m !! PodKey p = Some p
  end.

Fixpoint history (m : gmap string Pod) (us : gset string) (l : list pod_event) : Prop :=
  match l with
  | [] => True
  | ev :: l => ok_event m us ev ∧ history (apply_event m ev) (us ∪ {[event_key ev]}) l
  end.

(** Pods under their names, of the set or of others. *)
Definition pods_ok (m : gmap string Pod) : Prop :=
  ∀ k p, m !! k = Some p → PodKey p = k ∧ (mine p = true ∨ mine p = false ∧ foreign p = true).

Lemma history_app m us l l' :
  history m us (l ++ l') ↔ history m us l ∧ history (apply_all m l) (us ∪ list_to_set (event_key <$> l)) l'.
Proof.
  revert m us. induction l as [|ev l IH]; intros m us; simpl.
  - change (apply_all m []) with m. rewrite union_empty_r_L. naive_solver.
  - rewrite IH, <- union_assoc_L. change (apply_all m (ev :: l)) with (apply_all (apply_event m ev) l). naive_solver.
Qed.

Lemma ok_event_pods m us ev : pods_ok m → ok_event m us ev → pods_ok (apply_event m ev).
Proof.
  intros Hm Hev k p. destruct ev as [q|old cur|q]; simpl in *.
  - destruct Hev as [_ Hq]. intros [[<- <-]|[_ H]]%lookup_insert_Some; [|by apply Hm]. split; [done|].
    destruct (mine q); [by left|by right].
  - destruct Hev as (Hold & Hk & Hq). intros [[<- <-]|[_ H]]%lookup_insert_Some; [|by apply Hm]. split; [done|].
    destruct (mine old); [left|right]; tauto.
  - intros [_ H]%lookup_delete_Some. by apply Hm.
Qed.

Lemma history_pods m us l : pods_ok m → history m us l → pods_ok (apply_all m l).
Proof.
  revert m us. induction l as [|ev l IH]; intros m us Hm; simpl; [done|]. intros [Hev Hl]. eapply IH; [|done].
  by eapply ok_event_pods.
Qed.

(** How the active pods change. *)
Lemma acts_event m us ev :
  ok_event m us ev →
  (mine_add ev = true ∧ event_key ev ∉ us ∧ event_key ev ∉ acts m ∧ acts (apply_event m ev) = {[event_key ev]} ∪ acts m) ∨
  (mine_add ev = false ∧ (acts (apply_event m ev) = acts m ∨ acts (apply_event m ev) = acts m ∖ {[event_key ev]})).
Proof.
  destruct ev as [p|old cur|p]; simpl.
  - intros [Hn Hp]. destruct (mine p) eqn:Hm.
    + left. destruct Hp as [Hu Ha]. split_and!; [done|done|by apply acts_None|]. by apply acts_insert_active.
    + right. split; [done|]. right. apply acts_insert_other. by rewrite Hm.
  - intros (Hold & Hk & Hm). right. split; [done|]. destruct (mine cur && IsPodActive cur) eqn:Hc; [|right; by apply acts_insert_other].
    apply andb_prop in Hc as [Hc Ha]. left. rewrite acts_insert_active by done.
    destruct (mine old) eqn:Hmo; [|by destruct Hm as [Hf _]; rewrite Hf in Hc]. destruct Hm as [_ Hi]. rewrite Ha in Hi.
    assert (PodKey old ∈ acts m). { apply elem_of_acts. exists old. split_and!; [done|done|]. by destruct (IsPodActive old). }
    set_solver.
  - intros Hp. right. split; [done|]. right. apply acts_delete.
Qed.

(** Without creations, what is active was active. *)
Lemma history_no_adds m us l k :
  history m us l → Forall (λ ev, mine_add ev = false) l → k ∈ acts (apply_all m l) → k ∈ acts m.
Proof.
  revert m us. induction l as [|ev l IH]; intros m us; simpl; [done|]. intros [Hev Hl] [Ha Hall]%Forall_cons Hk.
  specialize (IH _ _ Hl Hall Hk). apply acts_event in Hev as [(? & _)|(_ & [He|He])]; [congruence| |]; rewrite He in IH; [done|set_solver].
Qed.

(** A name that was used does not become active. *)
Lemma history_gone m us l k : history m us l → k ∈ us → k ∉ acts m → k ∉ acts (apply_all m l).
Proof.
  revert m us. induction l as [|ev l IH]; intros m us; simpl; [done|]. intros [Hev Hl] Hu Hk.
  eapply (IH _ _ Hl); [set_solver|]. apply acts_event in Hev as [(_ & Hn & _ & He)|(_ & [He|He])]; rewrite He; set_solver.
Qed.

Lemma acts_used m us l : history m us l → dom m ⊆ us → dom (apply_all m l) ⊆ us ∪ list_to_set (event_key <$> l).
Proof.
  revert m us. induction l as [|ev l IH]; intros m us; simpl; [set_solver|]. intros [_ Hl] Hd.
  specialize (IH _ _ Hl). assert (dom (apply_event m ev) ⊆ us ∪ {[event_key ev]}) as H.
  { destruct ev; simpl; rewrite ?dom_insert_L, ?dom_delete_L; set_solver. }
  specialize (IH H). set_solver.
Qed.

End History.
