(* ===== verification/ReplicaSetInv.v ===== *)
(** * Ownership in the ReplicaSet controller: the invariant

    What a goroutine may do is a token it owns: to create a pod, to delete
    one, to lower an expectation, to change a record it has a pointer to.  The
    invariant says what the tokens of all goroutines mean for the
    expectations, the server, the cache and what the handlers were told; one
    lemma for each kind of step shows that it is kept. *)

From S2P Require Import Prelude Labels ApiTypes ActivePods AppsTypes Expectations CtlProgram ReplicaSet ReplicaSetSystem PodHistory.
#[local] Open Scope Z_scope.

(** ** Tokens *)

Record tok := mkTok {
  (* creations to observe, pods to create, pods to delete *)
  t_obs : nat;
  t_new : nat;
  t_del : list string;
  (* the lock with a deletion begun under it *)
  t_locks : list (string * string * option nat);
  (* a pointer to the record of the set, with a creation to observe *)
  t_gots : list nat;
  (* a pointer to a record of another set *)
  t_others : list nat;
  (* pods whose deletion was told *)
  t_gone : list string;
}.

Definition tok0 : tok := mkTok 0 0 [] [] [] [] [].
Definition tok_obs (n : nat) : tok := mkTok n 0 [] [] [] [] [].
Definition tok_create (n : nat) : tok := mkTok n n [] [] [] [] [].
Definition tok_delete (ks : list string) : tok := mkTok 0 0 ks [] [] [] [].
Definition tok_lock (l : string * string * option nat) : tok := mkTok 0 0 [] [l] [] [] [].
Definition tok_got (ref : nat) : tok := mkTok 0 0 [] [] [ref] [] [].
Definition tok_other (ref : nat) : tok := mkTok 0 0 [] [] [] [ref] [].
Definition tok_gone (ks : list string) : tok := mkTok 0 0 [] [] [] [] ks.

Definition tok_add (t u : tok) : tok :=
  mkTok (t_obs t + t_obs u) (t_new t + t_new u) (t_del t ++ t_del u) (t_locks t ++ t_locks u) (t_gots t ++ t_gots u)
    (t_others t ++ t_others u) (t_gone t ++ t_gone u).

Infix "⊕" := tok_add (at level 50, left associativity).

Definition tok_sum (ts : list tok) : tok := foldr tok_add tok0 ts.

(** Tokens may be given up, but not the lock. *)
Record tok_le (t u : tok) : Prop := {
  le_obs : (t_obs t + length (t_gots t) ≤ t_obs u + length (t_gots u))%nat;
  le_new : (t_new t ≤ t_new u)%nat;
  le_del : t_del t ⊆+ t_del u;
  le_locks : t_locks t ≡ₚ t_locks u;
  le_gots : t_gots t ⊆ t_gots u;
  le_others : t_others t ⊆ t_others u;
  le_gone : t_gone t ⊆ t_gone u;
}.

(** What the worker has read: that the expectations are met, then the names
    of the active pods. *)
Inductive mode := MNone | MFresh | MSeen (l : gset string).

Section Invariant.
Context (Kind ns name uid : string) (selector : Selector) (lo hi : Z) (disturb : bool).

Local Abbreviation key := (MetaNamespaceKey ns name).
Local Abbreviation mine := (mine Kind ns name uid selector).
Local Abbreviation foreign := (foreign uid).
Local Abbreviation acts := (acts Kind ns name uid selector).
Local Abbreviation mine_add := (mine_add Kind ns name uid selector).
Local Abbreviation history := (history Kind ns name uid selector).
Local Abbreviation pods_ok := (pods_ok Kind ns name uid selector).

(** Creations the handlers were not told of, and the deletions to see. *)
Definition untold (s : shared) : nat := length (filter (λ ev, mine_add ev = true) (drop (sh_handled s) (sh_log s))).
Definition uids (s : shared) : gset string := GetUIDs (sh_exp s) key.

Definition obligations (T : tok) : nat := t_obs T + length (t_gots T).

(** The names that are active as far as was told or is to be told. *)
Definition known (s : shared) : gset string :=
  acts (told s) ∪ list_to_set (event_key <$> filter (λ ev, mine_add ev = true) (drop (sh_handled s) (sh_log s))).

(** A name the handlers know not to be active. *)
Definition settled (s : shared) (k : string) : Prop := k ∈ used s (sh_handled s) ∧ k ∉ acts (told s).

Definition other_ref (s : shared) (ref : nat) : Prop := (ref < ex_next (sh_exp s))%nat ∧ ex_store (sh_exp s) !! key ≠ Some ref.

Definition quiet (s : shared) (T : tok) : Prop := untold s = 0%nat ∧ obligations T = 0%nat ∧ uids s = ∅.

Definition mode_ok (s : shared) (T : tok) (md : mode) : Prop :=
  match md with
  | MNone => True
  | MFresh => quiet s T
  | MSeen l => quiet s T ∧ acts (server s) ⊆ l ∧ (disturb = false → l ⊆ acts (server s))
  end.

Definition lock_ok (s : shared) (l : string * string * option nat) : Prop :=
  let '(rk, dk, ref) := l in
  if decide (rk = key) then
    dk ∈ uids s ∧ ref = ex_store (sh_exp s) !! key ∧ (disturb = false → dk ∈ acts (server s) ∨ settled s dk)
  else ∀ r, ref = Some r → other_ref s r.

Record inv (s : shared) (T : tok) (md : mode) : Prop := {
  v_wf : ex_wf (sh_exp s);
  v_base : pods_ok (sh_base s);
  v_hist : history (sh_base s) (dom (sh_base s)) (sh_log s);
  v_seen : (sh_handled s ≤ sh_seen s ≤ length (sh_log s))%nat;
  v_exp : match expected (sh_exp s) key with
          | None => (untold s + obligations T = 0)%nat ∧ uids s = ∅
          | Some e => Z.of_nat (untold s + obligations T) ≤ exp_add e ≤ max_int64 ∧ exp_del e = Z.of_nat (size (uids s))
          end;
  v_small : Z.of_nat (size (uids s)) ≤ max_int64;
  v_hi : Z.of_nat (size (acts (server s)) + t_new T) ≤ hi;
  v_lo : disturb = false →
    lo + Z.of_nat (length (t_del T)) ≤ Z.of_nat (size (acts (server s))) ∧ NoDup (t_del T) ∧
    (∀ k, k ∈ t_del T → k ∈ acts (server s) ∧ k ∈ uids s) ∧ known s ⊆ acts (server s) ∪ uids s ∧
    (∀ dk ref, (key, dk, ref) ∈ t_locks T → dk ∉ t_del T);
  v_locked : length (t_locks T) = if sh_lock s then 1%nat else 0%nat;
  v_locks : ∀ l, l ∈ t_locks T → lock_ok s l;
  v_gots : ∀ ref, ref ∈ t_gots T → ex_store (sh_exp s) !! key = Some ref;
  v_others : ∀ ref, ref ∈ t_others T → other_ref s ref;
  v_gone : ∀ k, k ∈ t_gone T → settled s k;
  v_mode : mode_ok s T md;
}.

(** ** Giving up *)

Lemma inv_drop s T T' md : inv s T md → tok_le T' T → inv s T' md.
Proof.
  intros [] [Ho Hn Hd Hl Hg Hot Hgo]. unfold obligations in *. split; try done.
  - destruct (expected (sh_exp s) key); destruct v_exp0; split; try done; unfold obligations in *; lia.
  - lia.
  - intros Hdi. destruct (v_lo0 Hdi) as (H1 & H2 & H3 & H4 & H5). pose proof (submseteq_length _ _ Hd). split_and!; [lia| | |done|].
    + destruct (submseteq_Permutation _ _ Hd) as [r Hr]. rewrite Hr in H2. by apply NoDup_app in H2 as [? _].
    + intros k Hk. apply H3. by eapply elem_of_submseteq.
    + intros dk ref Hin Hk. rewrite Hl in Hin. apply (H5 dk ref Hin). by eapply elem_of_submseteq.
  - by rewrite Hl.
  - intros l Hin. apply v_locks0. by rewrite <- Hl.
  - set_solver.
  - set_solver.
  - set_solver.
  - destruct md as [| |l]; simpl in *; unfold quiet, obligations in *; [done| |]; intuition lia.
Qed.

Lemma inv_mode s T md : inv s T md → inv s T MNone.
Proof. intros []. by split. Qed.

(** ** Expectations *)

Lemma GetUIDs_Set e k add del now k' : GetUIDs (SetExpectations e k add del now) k' = GetUIDs e k'.
Proof. done. Qed.

Lemma inv_expect_creations s F l n now :
  inv s F (MSeen l) → t_new F = 0%nat → (0 ≤ Z.of_nat n ≤ max_int64) → Z.of_nat (n + size l) ≤ hi →
  inv (with_exp s (ExpectCreations (sh_exp s) key (Z.of_nat n) now)) (tok_create n ⊕ F) MNone.
Proof.
  intros [] HF Hn Hh. destruct v_mode0 as ((Hu & Ho & Hq) & Hsub & _). unfold obligations in Ho.
  assert (size (acts (server s)) ≤ size l)%nat by (by apply subseteq_size).
  split; unfold with_exp in *; simpl; try done.
  - by apply set_wf.
  - unfold ExpectCreations. rewrite set_expected. simpl. unfold obligations, untold, uids in *. simpl.
    unfold ExpectCreations. rewrite GetUIDs_Set, Hq, Hu. split; [lia|done].
  - unfold server in *. simpl. lia.
  - intros [[rk dk] ref] Hin. specialize (v_locks0 _ Hin). unfold lock_ok in *. destruct (decide _) as [->|Hne].
    + destruct v_locks0 as (Hd & _). rewrite Hq in Hd. by apply elem_of_empty in Hd.
    + intros r Hr. destruct (v_locks0 r Hr) as [Hlt _]. split; simpl; [lia|]. rewrite lookup_insert_eq. intros [= Heq]. lia.
  - intros ref Hr. destruct (t_gots F); [by apply elem_of_nil in Hr|]. simpl in Ho. lia.
  - intros ref Hr. destruct (v_others0 ref Hr) as [Hlt _]. split; simpl; [lia|]. rewrite lookup_insert_eq. intros [= Heq]. lia.
Qed.

Lemma inv_expect_deletions s F l ks now :
  inv s F (MSeen l) → sh_lock s = false → t_del F = [] → NoDup ks → (∀ k, k ∈ ks → k ∈ l) →
  lo + Z.of_nat (length ks) ≤ Z.of_nat (size l) → Z.of_nat (length ks) ≤ max_int64 →
  inv (with_exp s (ExpectDeletions (sh_exp s) key ks now)) (tok_delete ks ⊕ F) MNone.
Proof.
  intros [] Hlk HF Hnd Hks Hlo Hmax. destruct v_mode0 as ((Hu & Ho & Hq) & Hsub & Hsup). unfold obligations in Ho.
  assert (uids (with_exp s (ExpectDeletions (sh_exp s) key ks now)) = list_to_set ks) as Huids.
  { unfold uids, with_exp, ExpectDeletions, ExpectDeletions_ctl. simpl. rewrite GetUIDs_Set. unfold GetUIDs, set_uids. simpl.
    by rewrite lookup_insert_eq. }
  assert (size (list_to_set ks : gset string) = length ks) as Hsz by (by apply size_list_to_set).
  split; unfold with_exp in *; simpl; try done.
  - apply set_wf. destruct v_wf0 as [W1 W2 W3]. split; simpl; done.
  - rewrite Huids. unfold ExpectDeletions, ExpectDeletions_ctl. rewrite set_expected. simpl. unfold obligations, untold in *. simpl.
    rewrite Hu. split; [lia|done].
  - rewrite Huids, Hsz. lia.
  - intros Hd. destruct (v_lo0 Hd) as (H1 & H2 & H3 & H4 & _). specialize (Hsup Hd). rewrite HF, app_nil_r.
    assert (l = acts (server s)) as Hl by set_solver. unfold server in *. simpl. split_and!; [rewrite <- Hl; lia|done| | |].
    + intros k Hk. rewrite <- Hl, Huids. split; [by apply Hks|by apply elem_of_list_to_set].
    + change (known _) with (known s). rewrite Hq in H4. set_solver.
    + intros dk ref Hin. rewrite Hlk in v_locked0. destruct (t_locks F); [by apply elem_of_nil in Hin|done].
  - intros l' Hin. rewrite Hlk in v_locked0. destruct (t_locks F); [by apply elem_of_nil in Hin|done].
  - intros ref Hr. destruct (t_gots F); [by apply elem_of_nil in Hr|]. simpl in Ho. lia.
  - intros ref Hr. destruct (v_others0 ref Hr) as [Hlt _]. split; simpl; [lia|]. rewrite lookup_insert_eq. intros [= Heq]. lia.
Qed.

(** A record changes, and tokens are used. *)
Lemma inv_records s T T' md e' :
  inv s T md → ex_wf e' → ex_store e' = ex_store (sh_exp s) → ex_next e' = ex_next (sh_exp s) → GetUIDs e' key = uids s →
  (obligations T' ≤ obligations T)%nat → t_new T' = t_new T → t_del T' = t_del T → t_locks T' = t_locks T →
  t_gots T' ⊆ t_gots T → t_others T' ⊆ t_others T → t_gone T' ⊆ t_gone T →
  (∀ e, expected (sh_exp s) key = Some e → ∃ e1, expected e' key = Some e1 ∧
     Z.of_nat (untold s + obligations T') ≤ exp_add e1 ≤ max_int64 ∧ exp_del e1 = exp_del e) →
  inv (with_exp s e') T' md.
Proof.
  intros [] Hwf Hst Hnx Hui Hob Hnew Hdel Hlk Hgo Hot Hgn He.
  assert (uids (with_exp s e') = uids s) as Hu by done.
  split; unfold with_exp in *; simpl in *; rewrite ?Hu, ?Hnew, ?Hdel, ?Hlk; try done.
  - change (untold _) with (untold s). destruct (expected (sh_exp s) key) as [e|] eqn:Hx.
    + destruct (He e eq_refl) as (e1 & -> & H1 & H2). split; [done|]. rewrite H2. by destruct v_exp0.
    + destruct (expected e' key) as [e1|] eqn:He1; [|destruct v_exp0; split; [lia|done]]. exfalso.
      unfold expected in Hx, He1. rewrite Hst in He1. destruct (ex_store (sh_exp s) !! key) as [ref|] eqn:Hs; [|done].
      destruct (ew_heap _ v_wf0 key ref Hs) as [x Hx']. simpl in *. congruence.
  - intros l Hin. specialize (v_locks0 l Hin). destruct l as [[rk dk] ref]. unfold lock_ok, other_ref in *. simpl. rewrite Hu, Hst, Hnx. done.
  - rewrite Hst. set_solver.
  - unfold other_ref in *. simpl. rewrite Hst, Hnx. set_solver.
  - intros k Hk. change (settled _ k) with (settled s k). set_solver.
  - destruct md as [| |l]; simpl in *; unfold quiet, untold in *; simpl in *; rewrite ?Hu; intuition lia.
Qed.

Lemma inv_got s T md ref :
  inv s (tok_obs 1 ⊕ T) md → GetExpectations (sh_exp s) key = Some ref → inv s (tok_got ref ⊕ T) md.
Proof.
  intros [] Hg. unfold obligations in *. simpl in *. split; try done; unfold obligations; simpl.
  - destruct (expected (sh_exp s) key); destruct v_exp0; split; try done; lia.
  - intros r [->|Hr]%elem_of_cons; [done|by apply v_gots0].
  - destruct md as [| |l]; simpl in *; unfold quiet, obligations in *; simpl in *; intuition lia.
Qed.

Lemma CE_Add_lower e add del :
  exp_add e + add = int64 (exp_add e + add) → exp_del e + del = int64 (exp_del e + del) →
  CE_Add e add del = mkCE (exp_add e + add) (exp_del e + del) (exp_timestamp e).
Proof. intros H1 H2. unfold CE_Add. by rewrite <- H1, <- H2. Qed.

Lemma inv_lower s T md ref :
  inv s (tok_got ref ⊕ T) md → inv (with_exp s (exp_Add (sh_exp s) ref (-1) 0)) T md.
Proof.
  intros Hi. pose proof Hi as []. assert (ex_store (sh_exp s) !! key = Some ref) as Hst by (apply v_gots0; simpl; set_solver).
  eapply inv_records; [done|by apply exp_Add_wf|done|done|done| |done|done|done| | | |]; [|simpl; set_solver|done|done|].
  - unfold obligations. simpl. lia.
  - intros e He. rewrite He in v_exp0. destruct v_exp0 as [Ha Hd]. unfold obligations in *. simpl in Ha.
    exists (CE_Add e (-1) 0). rewrite (exp_Add_expected _ _ _ _ _ Hst), He. simpl. split; [done|].
    rewrite !int64_id by (unfold min_int64, max_int64 in *; lia). split; lia.
Qed.

Lemma inv_other s T md k ref :
  inv s T md → k ≠ key → GetExpectations (sh_exp s) k = Some ref → inv s (tok_other ref ⊕ T) md.
Proof.
  intros [] Hk Hg. assert (other_ref s ref) as Ho.
  { unfold GetExpectations in Hg. split; [by eapply (ew_fresh _ v_wf0), (ew_heap _ v_wf0)|]. intros Hk'. by pose proof (ew_inj _ v_wf0 _ _ _ Hg Hk'). }
  split; try done; simpl. intros r [->|Hr]%elem_of_cons; [done|by apply v_others0].
Qed.

Lemma inv_lower_other s T md ref add del :
  inv s (tok_other ref ⊕ T) md → inv (with_exp s (exp_Add (sh_exp s) ref add del)) T md.
Proof.
  intros Hi. pose proof Hi as []. destruct (v_others0 ref) as [_ Hst]; [simpl; set_solver|].
  eapply inv_records; [done|by apply exp_Add_wf|done|done|done| |done|done|done|done| |done|]; [done|simpl; set_solver|].
  intros e He. rewrite He in v_exp0. exists e. rewrite exp_Add_other by done. split; [done|]. split; [|done]. by destruct v_exp0.
Qed.

(** ** The lock *)

Lemma inv_lock s T md rk dk ref :
  inv s T md → sh_lock s = false → deletion_begin (sh_exp s) rk dk = Some ref →
  (rk = key → disturb = false → (dk ∈ acts (server s) ∨ settled s dk) ∧ dk ∉ t_del T) →
  inv (with_lock s true) (tok_lock (rk, dk, ref) ⊕ T) md.
Proof.
  intros [] Hlk Hb Hr. unfold deletion_begin in Hb. case_bool_decide as Hin; [|done]. injection Hb as <-.
  split; unfold with_lock in *; simpl; try done.
  - intros Hd. destruct (v_lo0 Hd) as (H1 & H2 & H3 & H4 & H5). split_and!; try done.
    intros dk' ref [[= <- -> _]|Hin']%elem_of_cons; [by apply Hr|by eapply H5].
  - by rewrite v_locked0, Hlk.
  - intros l [->|Hl]%elem_of_cons; [|by apply v_locks0]. unfold lock_ok. destruct (decide (rk = key)) as [->|Hne].
    + split_and!; [done|done|]. intros Hd. by apply Hr.
    + intros r Hg. unfold GetExpectations in Hg. split; simpl; [by eapply (ew_fresh _ v_wf0), (ew_heap _ v_wf0)|].
      intros Hk'. by pose proof (ew_inj _ v_wf0 _ _ _ Hg Hk').
Qed.

Lemma fresh_untold s T md k :
  inv s T md → k ∈ (event_key <$> filter (λ ev, mine_add ev = true) (drop (sh_handled s) (sh_log s))) → k ∉ used s (sh_handled s).
Proof.
  intros [] (ev & -> & [Hm Hev]%list_elem_of_filter)%list_elem_of_fmap. rewrite <- (take_drop (sh_handled s) (sh_log s)) in v_hist0.
  apply history_app in v_hist0 as [_ Hh]. unfold used. revert Hh Hev. generalize (apply_all (sh_base s) (take (sh_handled s) (sh_log s))).
  generalize (dom (sh_base s) ∪ list_to_set (event_key <$> take (sh_handled s) (sh_log s))).
  induction (drop (sh_handled s) (sh_log s)) as [|ev' l IH]; intros us m; simpl; [by intros _ ?%elem_of_nil|].
  intros [Hok Hl] [->|Hev]%elem_of_cons.
  - apply acts_event in Hok as [(_ & Hn & _)|(Hf & _)]; [done|congruence].
  - specialize (IH _ _ Hl Hev). set_solver.
Qed.

Lemma settled_unknown s T md k : inv s T md → settled s k → k ∉ known s.
Proof.
  intros Hi [Hu Ha]. unfold known. rewrite elem_of_union, elem_of_list_to_set. intros [?|Hk]; [done|].
  by apply (fresh_untold s T md k Hi) in Hk.
Qed.

Lemma uids_finish s rk dk ref :
  uids (with_lock (with_exp s (deletion_finish (sh_exp s) rk dk ref)) false) = if decide (rk = key) then uids s ∖ {[dk]} else uids s.
Proof.
  unfold uids, with_lock, with_exp, deletion_finish, GetUIDs, set_uids. simpl. destruct (decide (rk = key)) as [->|Hne].
  - rewrite lookup_insert_eq. by destruct ref.
  - rewrite lookup_insert_ne by done. by destruct ref.
Qed.

Lemma expected_finish e rk dk ref k :
  expected (deletion_finish e rk dk ref) k = match ref with Some ref => expected (exp_Add e ref 0 (-1)) k | None => expected e k end.
Proof. unfold deletion_finish. by destruct ref. Qed.

Lemma finish_frame e rk dk ref :
  ex_wf e → ex_wf (deletion_finish e rk dk ref) ∧ ex_store (deletion_finish e rk dk ref) = ex_store e ∧
  ex_next (deletion_finish e rk dk ref) = ex_next e.
Proof.
  intros Hw. unfold deletion_finish. destruct ref as [ref|]; [|split_and!; [destruct Hw as [W1 W2 W3]; by split|done|done]].
  pose proof (exp_Add_wf e ref 0 (-1) Hw) as [W1 W2 W3]. split_and!; [by split|done|done].
Qed.

Lemma inv_unlock s T md rk dk ref :
  inv s (tok_lock (rk, dk, ref) ⊕ T) md → inv (with_lock (with_exp s (deletion_finish (sh_exp s) rk dk ref)) false) T md.
Proof.
  intros Hi. pose proof Hi as []. pose proof (uids_finish s rk dk ref) as Hu.
  destruct (finish_frame (sh_exp s) rk dk ref v_wf0) as (Hw & Hst & Hnx). set (s' := with_lock _ _) in *.
  assert (t_locks T = []) as HT by (simpl in v_locked0; destruct (t_locks T), (sh_lock s); simpl in *; [done|done|lia|lia]).
  assert (lock_ok s (rk, dk, ref)) as Hl by (apply v_locks0; simpl; set_solver). unfold lock_ok in Hl.
  assert (uids s' ⊆ uids s) as Hsub by (rewrite Hu; case_match; set_solver).
  assert (match expected (sh_exp s') key with
          | None => (untold s' + obligations T = 0)%nat ∧ uids s' = ∅
          | Some e => Z.of_nat (untold s' + obligations T) ≤ exp_add e ≤ max_int64 ∧ exp_del e = Z.of_nat (size (uids s'))
          end) as Hexp.
  { change (sh_exp s') with (deletion_finish (sh_exp s) rk dk ref). rewrite expected_finish, Hu. change (untold s') with (untold s).
    change (obligations (tok_lock (rk, dk, ref) ⊕ T)) with (obligations T) in v_exp0. destruct (decide (rk = key)) as [->|Hne].
    - destruct Hl as (Hd & -> & _). destruct (expected (sh_exp s) key) as [e|] eqn:He; [|destruct v_exp0 as [_ H0]; rewrite H0 in Hd; set_solver].
      destruct (ex_store (sh_exp s) !! key) as [r|] eqn:Hr; [|by unfold expected in He; rewrite Hr in He].
      rewrite (exp_Add_expected _ _ _ _ _ Hr), He. simpl. destruct v_exp0 as [H1 H2].
      assert (size (uids s) = S (size (uids s ∖ {[dk]}))) as Hsz by (rewrite (union_difference_singleton_L dk (uids s)) at 1 by done; rewrite size_union, size_singleton by set_solver; lia).
      rewrite !int64_id by (unfold min_int64, max_int64 in *; lia). split; lia.
    - destruct ref as [r|]; [|done]. destruct (Hl r eq_refl) as [_ Hor]. by rewrite exp_Add_other. }
  split; try done.
  - apply subseteq_size in Hsub. lia.
  - intros Hd. destruct (v_lo0 Hd) as (H1 & H2 & H3 & H4 & H5). simpl in H1, H2, H3. change (server s') with (server s).
    change (known s') with (known s). rewrite HT. split_and!; [done|done| | |by intros ? ? ?%elem_of_nil].
    + intros k Hk. destruct (H3 k Hk) as [Ha Hui]. split; [done|]. rewrite Hu. destruct (decide (rk = key)) as [->|]; [|done].
      apply elem_of_difference. split; [done|]. rewrite elem_of_singleton. intros ->. apply (H5 dk ref); [simpl; by left|done].
    + rewrite Hu. destruct (decide (rk = key)) as [->|]; [|done]. destruct Hl as (_ & _ & Hl). intros k Hk.
      apply elem_of_union. destruct (decide (k = dk)) as [->|].
      2: { apply H4, elem_of_union in Hk as [?|?]; [by left|right]. by apply elem_of_difference, conj; [|rewrite elem_of_singleton]. }
      destruct (Hl Hd) as [|Hse]; [by left|]. by eapply settled_unknown in Hse.
  - simpl. by rewrite HT.
  - rewrite HT. by intros l ?%elem_of_nil.
  - change (ex_store (sh_exp s')) with (ex_store (deletion_finish (sh_exp s) rk dk ref)). by rewrite Hst.
  - intros r Hr. unfold other_ref. change (sh_exp s') with (deletion_finish (sh_exp s) rk dk ref). rewrite Hst, Hnx. by apply v_others0.
  - assert (uids s = ∅ → uids s' = ∅) as H0 by (clear -Hsub; set_solver). clear -H0 v_mode0.
    destruct md as [| |l]; [done| |]; [destruct v_mode0 as (H1 & H2 & H3)|destruct v_mode0 as ((H1 & H2 & H3) & H4)]; repeat split; auto; apply H4.
Qed.
End Invariant.
