(* ===== verification/ReplicaSetSteps.v ===== *)
(** * Ownership in the ReplicaSet controller: events and reads

    The invariant of [ReplicaSetInv] when something happens to a pod, when the
    informer or a handler learns of it, and when the worker reads. *)

From S2P Require Import Prelude Labels ApiTypes ActivePods AppsTypes Expectations CtlProgram ReplicaSet ReplicaSetSystem PodHistory ReplicaSetInv.
#[local] Open Scope Z_scope.

Section Steps.
Context (Kind ns name uid : string) (selector : Selector) (lo hi : Z) (disturb : bool).

Local Abbreviation key := (MetaNamespaceKey ns name).
Local Abbreviation mine := (mine Kind ns name uid selector).
Local Abbreviation acts := (acts Kind ns name uid selector).
Local Abbreviation mine_add := (mine_add Kind ns name uid selector).
Local Abbreviation ok_event := (ok_event Kind ns name uid selector).
Local Abbreviation untold := (untold Kind ns name uid selector).
Local Abbreviation known := (known Kind ns name uid selector).
Local Abbreviation settled := (settled Kind ns name uid selector).
Local Abbreviation uids := (uids ns name).
Local Abbreviation inv := (inv Kind ns name uid selector lo hi disturb).
Local Abbreviation lock_ok := (lock_ok Kind ns name uid selector disturb).
Local Abbreviation mode_ok := (mode_ok Kind ns name uid selector disturb).

(** ** Something happens *)

Lemma happens_server s ev : server (happens s ev) = apply_event (server s) ev.
Proof. unfold server, happens. simpl. apply apply_all_app. Qed.

Lemma happens_take s ev n : (n ≤ length (sh_log s))%nat → take n (sh_log (happens s ev)) = take n (sh_log s).
Proof. intros Hn. unfold happens. simpl. by rewrite take_app_le. Qed.

Lemma happens_told s ev : (sh_handled s ≤ length (sh_log s))%nat → told (happens s ev) = told s.
Proof. intros Hn. unfold told. change (sh_handled (happens s ev)) with (sh_handled s). by rewrite happens_take. Qed.

Lemma happens_used s ev n : (n ≤ length (sh_log s))%nat → used (happens s ev) n = used s n.
Proof. intros Hn. unfold used. by rewrite happens_take. Qed.

Lemma happens_drop s ev :
  (sh_handled s ≤ length (sh_log s))%nat →
  drop (sh_handled (happens s ev)) (sh_log (happens s ev)) = drop (sh_handled s) (sh_log s) ++ [ev].
Proof. intros Hn. unfold happens. simpl. by rewrite drop_app_le. Qed.

Lemma happens_untold s ev :
  (sh_handled s ≤ length (sh_log s))%nat → untold (happens s ev) = (untold s + if mine_add ev then 1 else 0)%nat.
Proof.
  intros Hn. unfold ReplicaSetInv.untold. rewrite happens_drop, filter_app, length_app by done. f_equal. rewrite filter_cons.
  by destruct (mine_add ev).
Qed.

Lemma happens_known s ev :
  (sh_handled s ≤ length (sh_log s))%nat → known (happens s ev) = known s ∪ (if mine_add ev then {[event_key ev]} else ∅).
Proof.
  intros Hn. unfold ReplicaSetInv.known. rewrite happens_told, happens_drop, filter_app, fmap_app, list_to_set_app_L by done.
  rewrite filter_cons. destruct (mine_add ev); simpl; rewrite ?filter_nil; simpl; set_solver.
Qed.

Lemma happens_settled s ev k : (sh_handled s ≤ length (sh_log s))%nat → settled (happens s ev) k ↔ settled s k.
Proof. intros Hn. unfold ReplicaSetInv.settled. by rewrite happens_told, happens_used by done. Qed.

Lemma used_all s : used s (length (sh_log s)) = dom (sh_base s) ∪ list_to_set (event_key <$> sh_log s).
Proof. unfold used. by rewrite firstn_all. Qed.

(** The part of the invariant that does not speak of tokens. *)
Lemma happens_history s T md ev :
  inv s T md → ok_event (server s) (used s (length (sh_log s))) ev →
  PodHistory.history Kind ns name uid selector (sh_base s) (dom (sh_base s)) (sh_log (happens s ev)).
Proof.
  intros [] Hok. unfold happens. simpl. apply history_app. split; [done|]. simpl. rewrite used_all in Hok. by split.
Qed.

Lemma happens_lock s ev l :
  (sh_handled s ≤ length (sh_log s))%nat → lock_ok s l →
  (disturb = false → (∃ ref, l = (key, (l.1).2, ref)) → (l.1).2 ∈ acts (server s) → (l.1).2 ∈ acts (server (happens s ev))) → lock_ok (happens s ev) l.
Proof.
  intros Hn. destruct l as [[rk dk] ref]. unfold ReplicaSetInv.lock_ok. destruct (decide (rk = key)) as [->|]; [|done].
  intros (H1 & H2 & H3) Hk. split_and!; [done|done|]. intros Hd. rewrite happens_settled by done. simpl in *.
  destruct (H3 Hd); [left|by right]. apply Hk; eauto.
Qed.

(** A pod of the set is created with the tokens for it. *)
Lemma inv_create s T p :
  inv s (tok_create 1 ⊕ T) MNone → ok_event (server s) (used s (length (sh_log s))) (PAdd p) → mine p = true →
  inv (happens s (PAdd p)) T MNone.
Proof.
  intros Hi Hok Hm. pose proof (happens_history _ _ _ _ Hi Hok) as Hh. destruct Hi as [].
  assert (sh_handled s ≤ length (sh_log s))%nat as Hn by lia.
  pose proof (happens_untold s (PAdd p) Hn) as Hu. pose proof (happens_known s (PAdd p) Hn) as Hkn. simpl in Hu, Hkn. rewrite Hm in Hu, Hkn.
  apply acts_event in Hok as [(_ & _ & Hna & Ha)|(Hf & _)]; [|simpl in Hf; congruence]. rewrite <- happens_server in Ha. simpl in Ha, Hna.
  assert (acts (server s) ⊆ acts (server (happens s (PAdd p)))) as Hsub by (rewrite Ha; set_solver).
  split; try done.
  - simpl. rewrite length_app. simpl. lia.
  - simpl. rewrite Hu. unfold obligations in *. simpl in v_exp. destruct (expected (sh_exp s) key); destruct v_exp; split; try done; lia.
  - rewrite Ha, size_union, size_singleton by set_solver. simpl in v_hi. lia.
  - intros Hd. destruct (v_lo Hd) as (H1 & H2 & H3 & H4 & H5). simpl in H1, H2, H3, H5. split_and!; [|done| | |done].
    + apply subseteq_size in Hsub. lia.
    + intros k Hk. destruct (H3 k Hk). split; [by apply Hsub|done].
    + rewrite Hkn. change (uids (happens s (PAdd p))) with (uids s). clear -H4 Ha. set_solver.
  - intros l Hl. apply happens_lock; [done|by apply v_locks|]. intros _ _ Hin. by apply Hsub.
  - intros k Hk. apply happens_settled; [done|]. by apply v_gone.
Qed.

(** Something else happens: nothing to the active pods of the set, or anything
    where pods may be disturbed. *)
Lemma inv_happens s T md ev :
  inv s T md → ok_event (server s) (used s (length (sh_log s))) ev → mine_add ev = false →
  (disturb = false → acts (apply_event (server s) ev) = acts (server s)) → inv (happens s ev) T md.
Proof.
  intros Hi Hok Hm Hd. pose proof (happens_history _ _ _ _ Hi Hok) as Hh. destruct Hi as [].
  assert (sh_handled s ≤ length (sh_log s))%nat as Hn by lia.
  pose proof (happens_untold s ev Hn) as Hu. pose proof (happens_known s ev Hn) as Hkn. rewrite Hm in Hu, Hkn. rewrite Nat.add_0_r in Hu.
  rewrite union_empty_r_L in Hkn. rewrite <- happens_server in Hd.
  assert (acts (server (happens s ev)) ⊆ acts (server s)) as Hsub.
  { apply acts_event in Hok as [(Ht & _)|(_ & H)]; [congruence|]. rewrite <- happens_server in H. destruct H as [->| ->]; [done|]. set_solver. }
  split; try done.
  - simpl. rewrite length_app. simpl. lia.
  - simpl. by rewrite Hu.
  - apply subseteq_size in Hsub. lia.
  - intros Hdi. specialize (Hd Hdi). rewrite Hd, Hkn. by apply v_lo.
  - intros l Hl. apply happens_lock; [done|by apply v_locks|]. intros Hdi _ Hin. by rewrite Hd.
  - intros k Hk. apply happens_settled; [done|]. by apply v_gone.
  - assert (quiet Kind ns name uid selector s T → quiet Kind ns name uid selector (happens s ev) T) as Hq by (intros (? & ? & ?); split_and!; [by rewrite Hu|done|done]).
    destruct md as [| |l]; [done|by apply Hq|]. destruct v_mode as (H1 & H2 & H3). split_and!; [by apply Hq|by etransitivity|].
    intros Hdi. rewrite Hd by done. by apply H3.
Qed.

(** A pod is deleted with the token for it. *)
Lemma inv_delete s T k ev :
  inv s (tok_delete [k] ⊕ T) MNone → ok_event (server s) (used s (length (sh_log s))) ev → mine_add ev = false → event_key ev = k →
  inv (happens s ev) T MNone.
Proof.
  intros Hi Hok Hm Hek. assert (inv s T MNone) as Hi'.
  { eapply inv_drop; [done|]. split; simpl; try done. apply submseteq_cons; done. }
  destruct (decide (disturb = true ∨ acts (apply_event (server s) ev) = acts (server s))) as [Hc|Hc].
  { apply inv_happens; try done. intros Hd. destruct Hc as [?|?]; [congruence|done]. }
  pose proof (happens_history _ _ _ _ Hi Hok) as Hh. apply acts_event in Hok as [(Ht & _)|(_ & [He|He])]; [congruence|by destruct Hc; right|].
  rewrite Hek in He. destruct Hi as []. assert (sh_handled s ≤ length (sh_log s))%nat as Hn by lia.
  pose proof (happens_untold s ev Hn) as Hu. pose proof (happens_known s ev Hn) as Hkn. rewrite Hm in Hu, Hkn. rewrite Nat.add_0_r in Hu.
  rewrite union_empty_r_L in Hkn. rewrite <- happens_server in He.
  assert (disturb = false) as Hd by (destruct disturb; [|done]; destruct Hc; by left).
  destruct (v_lo Hd) as (H1 & H2 & H3 & H4 & H5). simpl in H1, H2, H3, H5. apply NoDup_cons in H2 as [Hnk H2].
  destruct (H3 k) as [Hka Hku]; [by left|].
  assert (size (acts (server s)) = S (size (acts (server (happens s ev))))) as Hsz.
  { rewrite He. rewrite (union_difference_singleton_L k (acts (server s))) at 1 by done. rewrite size_union, size_singleton by set_solver. lia. }
  split; try done.
  - simpl. rewrite length_app. simpl. lia.
  - simpl. by rewrite Hu.
  - simpl in v_hi. lia.
  - intros _. split_and!; [lia|done| | |].
    + intros x Hx. destruct (H3 x) as [Hxa Hxu]; [by right|]. split; [|done]. rewrite He. apply elem_of_difference. split; [done|].
      rewrite elem_of_singleton. by intros ->.
    + rewrite Hkn, He. change (uids (happens s ev)) with (uids s). intros x Hx. apply elem_of_union.
      destruct (decide (x = k)) as [->|]; [by right|]. apply H4, elem_of_union in Hx as [?|?]; [left|by right].
      apply elem_of_difference. by rewrite elem_of_singleton.
    + intros dk ref Hin Hdk. apply (H5 dk ref Hin). by right.
  - intros l Hl. apply happens_lock; [done|by apply v_locks|]. intros _ [ref Hlk] Hin. rewrite He. apply elem_of_difference. split; [done|].
    rewrite elem_of_singleton. intros Hek'. apply (H5 (l.1).2 ref); [by rewrite <- Hlk|]. rewrite Hek'. by left.
  - intros x Hx. apply happens_settled; [done|]. by apply v_gone.
Qed.

(** ** Learning *)

Lemma inv_see s T md :
  inv s T md → (sh_seen s < length (sh_log s))%nat →
  inv (mkShared (sh_base s) (sh_log s) (S (sh_seen s)) (sh_handled s) (sh_exp s) (sh_lock s)) T md.
Proof. intros [] Hl. split; try done. simpl. lia. Qed.

Definition tell (s : shared) : shared :=
  mkShared (sh_base s) (sh_log s) (sh_seen s) (S (sh_handled s)) (sh_exp s) (sh_lock s).

Lemma tell_told s ev : sh_log s !! sh_handled s = Some ev → told (tell s) = apply_event (told s) ev.
Proof. intros Hl. unfold told. simpl. by rewrite (take_S_r _ _ _ Hl), apply_all_app. Qed.

Lemma tell_used s ev : sh_log s !! sh_handled s = Some ev → used (tell s) (S (sh_handled s)) = used s (sh_handled s) ∪ {[event_key ev]}.
Proof. intros Hl. unfold used. simpl. rewrite (take_S_r _ _ _ Hl), fmap_app, list_to_set_app_L. simpl. set_solver. Qed.

Lemma tell_event s T md ev :
  inv s T md → sh_log s !! sh_handled s = Some ev → ok_event (told s) (used s (sh_handled s)) ev.
Proof.
  intros [] Hl. rewrite <- (take_drop (sh_handled s) (sh_log s)) in v_hist. apply history_app in v_hist as [_ Hh].
  rewrite (drop_S _ _ _ Hl) in Hh. by destruct Hh.
Qed.

Lemma tell_untold s ev : sh_log s !! sh_handled s = Some ev → untold s = ((if mine_add ev then 1 else 0) + untold (tell s))%nat.
Proof.
  intros Hl. unfold ReplicaSetInv.untold. simpl. rewrite (drop_S _ _ _ Hl), filter_cons. by destruct (mine_add ev).
Qed.

Lemma tell_known s T md ev : inv s T md → sh_log s !! sh_handled s = Some ev → known (tell s) ⊆ known s.
Proof.
  intros Hi Hl. unfold ReplicaSetInv.known. rewrite (tell_told s ev Hl), (drop_S _ _ _ Hl), filter_cons. simpl sh_handled. simpl sh_log.
  destruct (acts_event _ _ _ _ _ _ _ _ (tell_event _ _ _ _ Hi Hl)) as [(-> & _ & _ & ->)|(-> & [->| ->])]; simpl; set_solver.
Qed.

Lemma tell_settled s T md ev k : inv s T md → sh_log s !! sh_handled s = Some ev → settled s k → settled (tell s) k.
Proof.
  intros Hi Hl [Hu Hk]. unfold ReplicaSetInv.settled. change (sh_handled (tell s)) with (S (sh_handled s)).
  rewrite (tell_used s ev Hl), (tell_told s ev Hl). split; [set_solver|].
  destruct (acts_event _ _ _ _ _ _ _ _ (tell_event _ _ _ _ Hi Hl)) as [(_ & Hn & _ & ->)|(_ & [->| ->])]; set_solver.
Qed.

Lemma inv_tell s T md ev :
  inv s T md → (sh_handled s < sh_seen s)%nat → sh_log s !! sh_handled s = Some ev →
  inv (tell s) ((if mine_add ev then tok_obs 1 else tok0) ⊕ T) md.
Proof.
  intros Hi Hlt Hl. pose proof (tell_untold s ev Hl) as Hu. pose proof (tell_known s T md ev Hi Hl) as Hkn.
  assert (∀ k, settled s k → settled (tell s) k) as Hse by (intros k; by apply (tell_settled s T md ev)).
  destruct Hi as []. set (T' := _ ⊕ T).
  assert (obligations T' = (if mine_add ev then 1 else 0) + obligations T)%nat as Hob by (unfold T', obligations; destruct (mine_add ev); simpl; lia).
  assert (t_new T' = t_new T ∧ t_del T' = t_del T ∧ t_locks T' = t_locks T ∧ t_gots T' = t_gots T ∧ t_others T' = t_others T ∧ t_gone T' = t_gone T)
    as (Hn & Hd & Hlk & Hg & Ho & Hgo) by (unfold T'; by destruct (mine_add ev)).
  clearbody T'. split; rewrite ?Hn, ?Hd, ?Hlk, ?Hg, ?Ho, ?Hgo; try done.
  - simpl. lia.
  - simpl. rewrite Hob. change (uids (tell s)) with (uids s).
    destruct (expected (sh_exp s) key); destruct v_exp; split; try done; lia.
  - intros Hdi. destruct (v_lo Hdi) as (H1 & H2 & H3 & H4 & H5). split_and!; try done. by etransitivity.
  - intros [[rk dk] ref] Hin. specialize (v_locks _ Hin). unfold ReplicaSetInv.lock_ok in *. destruct (decide (rk = key)); [|done].
    destruct v_locks as (L1 & L2 & L3). split_and!; [done|done|]. intros Hdi. destruct (L3 Hdi); [by left|right]. by apply Hse.
  - intros k Hk. by apply Hse, v_gone.
  - assert (quiet Kind ns name uid selector s T → quiet Kind ns name uid selector (tell s) T') as Hq.
    { intros (Q1 & Q2 & Q3). split_and!; [lia| |done]. rewrite Hob. destruct (mine_add ev); lia. }
    destruct md as [| |l]; [done|by apply Hq|]. destruct v_mode as (M1 & M2). split; [by apply Hq|done].
Qed.

(** An event that leaves its pod inactive settles it. *)
Lemma inv_gone s T md ev :
  inv s T md → (sh_handled s < sh_seen s)%nat → sh_log s !! sh_handled s = Some ev → event_key ev ∉ acts (apply_event (told s) ev) →
  inv (tell s) (tok_gone [event_key ev] ⊕ T) md.
Proof.
  intros Hi Hlt Hl Hna. assert (mine_add ev = false) as Hm.
  { destruct (acts_event _ _ _ _ _ _ _ _ (tell_event _ _ _ _ Hi Hl)) as [(_ & _ & _ & He)|(? & _)]; [|done]. rewrite He in Hna. set_solver. }
  pose proof (inv_tell s T md ev Hi Hlt Hl) as Hi'. rewrite Hm in Hi'. destruct Hi' as []. split; try done.
  intros k [->|Hk]%elem_of_cons; [|by apply v_gone]. unfold ReplicaSetInv.settled. change (sh_handled (tell s)) with (S (sh_handled s)).
  rewrite (tell_used s ev Hl), (tell_told s ev Hl). split; [set_solver|done].
Qed.

(** ** Reading *)

Lemma inv_satisfied s T md now :
  inv s T md → unexpired ns name s now = true → SatisfiedExpectations (sh_exp s) key now = true → inv s T MFresh.
Proof.
  intros [] Hx Hs. split; try done. unfold unexpired in Hx. unfold SatisfiedExpectations, GetExpectations in Hs.
  change (ex_store (sh_exp s) !! key ≫= λ ref, ex_heap (sh_exp s) !! ref) with (expected (sh_exp s) key) in Hs.
  simpl. unfold quiet. destruct (expected (sh_exp s) key) as [e|]; [|destruct v_exp; split_and!; [lia|lia|done]].
  assert (Fulfilled e = true) as Hf by (destruct (Fulfilled e), (isExpired e now); done).
  unfold Fulfilled in Hf. apply andb_prop in Hf as [H1%Z.leb_le H2%Z.leb_le]. destruct v_exp as [E1 E2]. split_and!; [lia|lia|].
  apply leibniz_equiv, size_empty_iff. lia.
Qed.

Lemma inv_list s T : inv s T MFresh → inv s T (MSeen (acts (cache s))).
Proof.
  intros []. pose proof v_mode as (Hu & Ho & Hq). split; try done. split; [done|].
  assert (Forall (λ ev, mine_add ev = false) (drop (sh_handled s) (sh_log s))) as Hall.
  { apply Forall_forall. intros ev Hev. destruct (mine_add ev) eqn:Hm; [|done]. exfalso. unfold ReplicaSetInv.untold in Hu.
    apply nil_length_inv in Hu. assert (ev ∈ filter (λ ev, mine_add ev = true) (drop (sh_handled s) (sh_log s))) as Hin by (by apply list_elem_of_filter).
    rewrite Hu in Hin. by apply elem_of_nil in Hin. }
  assert (drop (sh_handled s) (sh_log s) = drop (sh_handled s) (take (sh_seen s) (sh_log s)) ++ drop (sh_seen s) (sh_log s)) as Hsplit.
  { rewrite <- (take_drop (sh_seen s) (sh_log s)) at 1. rewrite drop_app_le; [done|]. rewrite length_take. lia. }
  rewrite Hsplit in Hall. apply Forall_app in Hall as [Hall1 Hall2]. split.
  - intros k Hk. rewrite <- (take_drop (sh_seen s) (sh_log s)) in v_hist. apply history_app in v_hist as [_ Hh].
    eapply history_no_adds; [exact Hh|done|]. unfold server in Hk. by rewrite <- (take_drop (sh_seen s) (sh_log s)), apply_all_app in Hk.
  - intros Hd k Hk. destruct (v_lo Hd) as (_ & _ & _ & H4 & _). rewrite Hq in H4.
    assert (take (sh_seen s) (sh_log s) = take (sh_handled s) (sh_log s) ++ drop (sh_handled s) (take (sh_seen s) (sh_log s))) as Ht.
    { rewrite <- (take_drop (sh_handled s) (take (sh_seen s) (sh_log s))) at 1. f_equal. rewrite take_take. f_equal. lia. }
    assert (k ∈ acts (told s)) as Hk'.
    { rewrite <- (take_drop (sh_seen s) (sh_log s)), Ht in v_hist. apply history_app in v_hist as [v_hist _].
      apply history_app in v_hist as [_ Hh]. eapply history_no_adds; [exact Hh|done|].
      unfold cache in Hk. by rewrite Ht, apply_all_app in Hk. }
    assert (k ∈ known s) as Hkk by (unfold ReplicaSetInv.known; set_solver). apply H4 in Hkk. set_solver.
Qed.

End Steps.
