(* ===== verification/ReplicaSetWp.v ===== *)
(** * Ownership in the ReplicaSet controller: programs

    [wpw], [wpg] and [wph] say that a program of the worker, of a goroutine it
    starts and of a handler keeps to its tokens, whatever the answers it gets;
    a step of such a program keeps the invariant of [ReplicaSetInv]. *)

From S2P Require Import Prelude Labels ApiTypes ActivePods AppsTypes Expectations CtlProgram ReplicaSet ReplicaSetSystem PodHistory ReplicaSetInv ReplicaSetSteps.
#[local] Open Scope Z_scope.

(** ** Tokens up to order *)

Record tok_eq (t u : tok) : Prop := {
  eq_obs : t_obs t = t_obs u;
  eq_new : t_new t = t_new u;
  eq_del : t_del t ≡ₚ t_del u;
  eq_locks : t_locks t ≡ₚ t_locks u;
  eq_gots : t_gots t ≡ₚ t_gots u;
  eq_others : t_others t ≡ₚ t_others u;
  eq_gone : t_gone t ≡ₚ t_gone u;
}.

#[export] Instance tok_equiv : Equiv tok := tok_eq.

#[export] Instance tok_equivalence : Equivalence (≡@{tok}).
Proof.
  split.
  - intros t. by split.
  - intros t u []. by split.
  - intros t u v [] []. split; etransitivity; eauto.
Qed.

#[export] Instance tok_add_proper : Proper ((≡) ==> (≡) ==> (≡)) tok_add.
Proof. intros t t' [] u u' []. split; simpl; try lia; by apply Permutation_app. Qed.

#[export] Instance tok_add_assoc : Assoc (≡) tok_add.
Proof. intros t u v. split; simpl; try lia; by rewrite (assoc_L (++)). Qed.

#[export] Instance tok_add_comm : Comm (≡) tok_add.
Proof. intros t u. split; simpl; try lia; apply Permutation_app_comm. Qed.

Lemma tok_swap t u v : t ⊕ (u ⊕ v) ≡ u ⊕ (t ⊕ v).
Proof. by rewrite (assoc tok_add t), (comm tok_add t u), <- (assoc tok_add u). Qed.

Lemma tok_equiv_le t u : t ≡ u → tok_le t u.
Proof.
  intros []. split; try done; [by rewrite eq_obs0, eq_gots0|lia|by rewrite eq_del0|by rewrite eq_gots0|by rewrite eq_others0|by rewrite eq_gone0].
Qed.

#[export] Instance tok_le_preorder : PreOrder tok_le.
Proof.
  split; [intros t; by apply tok_equiv_le|]. intros t u v [] []. split; [lia|lia| | | | |]; by etransitivity.
Qed.

#[export] Instance tok_le_proper : Proper ((≡) ==> (≡) ==> iff) tok_le.
Proof.
  intros t t' Ht u u' Hu. split; intros H.
  - rewrite <- (tok_equiv_le u u' Hu), <- H. by apply tok_equiv_le.
  - rewrite (tok_equiv_le t t' Ht), H. by apply tok_equiv_le.
Qed.

Lemma tok_le_add t t' u : tok_le t t' → tok_le (t ⊕ u) (t' ⊕ u).
Proof.
  intros []. split; simpl; rewrite ?length_app; try lia; try set_solver.
  - by apply submseteq_skips_r.
  - by apply Permutation_app_tail.
Qed.

Lemma tok0_l t : tok0 ⊕ t = t.
Proof. by destruct t. Qed.

Lemma tok_sum_insert ts i t :
  ts !! i = Some t → ∃ r, tok_sum ts ≡ t ⊕ r ∧ tok_sum (delete i ts) ≡ r ∧ ∀ t', tok_sum (<[i := t']> ts) ≡ t' ⊕ r.
Proof.
  revert i. induction ts as [|u ts IH]; intros [|i]; simpl; try done.
  - intros [= ->]. by exists (tok_sum ts).
  - intros Hi. destruct (IH i Hi) as (r & H1 & H2 & H3). exists (u ⊕ r).
    split_and!; [rewrite H1; apply tok_swap|by rewrite H2|]. intros t'. change (u ⊕ tok_sum (<[i:=t']> ts) ≡ t' ⊕ (u ⊕ r)).
    rewrite H3. apply tok_swap.
Qed.

(** ** Programs within their tokens *)

Section Wp.
Context (Kind ns name uid : string) (selector : Selector) (lo hi : Z) (disturb : bool).

Local Abbreviation key := (MetaNamespaceKey ns name).
Local Abbreviation mine := (mine Kind ns name uid selector).
Local Abbreviation foreign := (foreign uid).
Local Abbreviation acts := (acts Kind ns name uid selector).
Local Abbreviation inv := (inv Kind ns name uid selector lo hi disturb).
Local Abbreviation settled := (settled Kind ns name uid selector).
Local Abbreviation set_answer := (set_answer ns name uid selector lo hi).
Local Abbreviation step_one := (step_one ns name uid selector lo hi).
Local Abbreviation step_prog := (step_prog ns name uid selector lo hi).

(** What the set's template makes. *)
Definition mine_spec (pod : Pod) : bool :=
  Matches selector (pod_Labels pod) &&
  match GetControllerOf (pod_OwnerReferences pod) with
  | Some ref => (own_Kind ref =? Kind)%string && (own_Name ref =? name)%string && (own_UID ref =? uid)%string
  | None => false
  end.

Fixpoint wpg {A} (p : prog A) (t : tok) (Q : A → tok → Prop) : Prop :=
  match p with
  | Done a => Q a t
  | Do (ADeletionFinish rk dk ref) k => ∃ t', t = tok_lock (rk, dk, ref) ⊕ t' ∧ wpg k t' Q
  | Call (RCreatePod n pod) k =>
      n = ns ∧ mine_spec pod = true ∧ ∃ t', t = tok_create 1 ⊕ t' ∧ wpg (k None) t' Q ∧ ∀ e, wpg (k (Some e)) (tok_obs 1 ⊕ t') Q
  | Call (RDeletePod n podName) k =>
      ∃ t', t = tok_delete [(n ++ "/" ++ podName)%string] ⊕ t' ∧ wpg (k None) t' Q ∧ ∀ e, wpg (k (Some e)) t Q
  | LockUIDs rk dk k =>
      rk = key ∧ ∃ t', t = tok_delete [dk] ⊕ t' ∧ wpg (k None) t' Q ∧ ∀ ref, wpg (k (Some ref)) (tok_lock (rk, dk, ref) ⊕ t') Q
  | _ => False
  end.

(** What a lister returns: pods with different names, of the set or not. *)
Definition listing (l : list Pod) : Prop :=
  NoDup (PodKey <$> l) ∧ Forall (λ p, pod_Namespace p = ns ∧ (mine p = true ∨ mine p = false ∧ foreign p = true)) l.

Definition live_names (l : list Pod) : gset string := list_to_set (PodKey <$> filter (λ p, mine p && IsPodActive p = true) l).

Fixpoint wpw {A} (p : prog A) (md : mode) (t : tok) (Q : A → mode → tok → Prop) : Prop :=
  match p with
  | Done a => Q a md t
  | Do a k =>
      match a with
      | AExpectCreations k' n =>
          k' = key ∧ t = tok0 ∧ ∃ l m, md = MSeen l ∧ n = Z.of_nat m ∧ n ≤ max_int64 ∧ Z.of_nat (m + size l) ≤ hi ∧ wpw k MNone (tok_create m) Q
      | AExpectDeletions k' ks =>
          k' = key ∧ t = tok0 ∧ ∃ l, md = MSeen l ∧ NoDup ks ∧ (∀ x, x ∈ ks → x ∈ l) ∧
            lo + Z.of_nat (length ks) ≤ Z.of_nat (size l) ∧ Z.of_nat (length ks) ≤ max_int64 ∧ wpw k MNone (tok_delete ks) Q
      | AExpAdd ref add del => add = -1 ∧ del = 0 ∧ ∃ t', t = tok_got ref ⊕ t' ∧ wpw k md t' Q
      | ADeleteExpectations _ | ADeletionFinish _ _ _ => False
      | _ => wpw k md t Q
      end
  | Par gs finished k => ∃ (R : option api_error → tok) rest ts,
      t ≡ rest ⊕ tok_sum ts ⊕ tok_sum (R <$> finished) ∧ Forall2 (λ g t, wpg g t (λ r t', tok_le (R r) t')) gs ts ∧
      ∀ rs, length rs = (length gs + length finished)%nat → wpw (k rs) MNone (rest ⊕ tok_sum (R <$> rs)) Q
  | GetExp k' k => k' = key ∧ ∃ t', t = tok_obs 1 ⊕ t' ∧ wpw (k None) md t' Q ∧ ∀ ref, wpw (k (Some ref)) md (tok_got ref ⊕ t') Q
  | Satisfied k' k => k' = key ∧ wpw (k true) MFresh t Q ∧ wpw (k false) MNone t Q
  | GetReplicaSet n m k => ∀ r, set_answer n m r = true → wpw (k r) md t Q
  | ListReplicaSets _ k => ∀ l, wpw (k l) md t Q
  | ListPods n sel k =>
      match md with
      | MFresh => n = ns ∧ sel = Everything ∧ ∀ l, listing l → wpw (k l) (MSeen (live_names l)) t Q
      | _ => ∀ l, (n = ns → sel = Everything → listing l) → wpw (k l) md t Q
      end
  | FetchReplicaSet _ _ k | UpdateStatus _ k => ∀ r, wpw (k r) md t Q
  | Clock k => ∀ clock, wpw (k clock) md t Q
  | Call _ _ | LockUIDs _ _ _ => False
  end.

Fixpoint wph {A} (p : prog A) (t : tok) (Q : A → tok → Prop) : Prop :=
  match p with
  | Done a => Q a t
  | Do a k =>
      match a with
      | AExpAdd ref add del =>
          (add = -1 ∧ del = 0 ∧ ∃ t', t = tok_got ref ⊕ t' ∧ wph k t' Q) ∨ (∃ t', t = tok_other ref ⊕ t' ∧ wph k t' Q)
      | ADeletionFinish rk dk ref => ∃ t', t = tok_lock (rk, dk, ref) ⊕ t' ∧ wph k t' Q
      | AExpectCreations _ _ | AExpectDeletions _ _ | ADeleteExpectations _ => False
      | _ => wph k t Q
      end
  | GetExp k' k =>
      if decide (k' = key) then ∃ t', t = tok_obs 1 ⊕ t' ∧ wph (k None) t' Q ∧ ∀ ref, wph (k (Some ref)) (tok_got ref ⊕ t') Q
      else wph (k None) t Q ∧ ∀ ref, wph (k (Some ref)) (tok_other ref ⊕ t) Q
  | LockUIDs rk dk k => (rk = key → dk ∈ t_gone t) ∧ wph (k None) t Q ∧ ∀ ref, wph (k (Some ref)) (tok_lock (rk, dk, ref) ⊕ t) Q
  | GetReplicaSet n m k => ∀ r, set_answer n m r = true → wph (k r) t Q
  | ListReplicaSets _ k => ∀ l, wph (k l) t Q
  | _ => False
  end.

(** *** Sequences *)

Lemma wpg_bind {A B} (f : A → prog B) (p : prog A) t Q : wpg p t (λ a t', wpg (f a) t' Q) → wpg (p ≫= f) t Q.
Proof.
  revert t. induction p as [A a|A a k IH|A r k IH|A gs d k IH|A k' k IH|A rk dk k IH|A k' k IH|A n m k IH|A n k IH|A n sel k IH|A n m k IH|A rs k IH|A k IH]; intros t; simpl; try done.
  - destruct a; try done. intros (t' & -> & H). exists t'. split; [done|by apply IH].
  - destruct r; try done.
    + intros (-> & Hm & t' & -> & H1 & H2). split_and!; [done|done|]. exists t'. split_and!; [done|by apply IH|]. intros e. by apply IH.
    + intros (t' & -> & H1 & H2). exists t'. split_and!; [done|by apply IH|]. intros e. by apply IH.
  - intros (-> & t' & -> & H1 & H2). split; [done|]. exists t'. split_and!; [done|by apply IH|]. intros ref. by apply IH.
Qed.

Lemma wpw_bind {A B} (f : A → prog B) (p : prog A) md t Q : wpw p md t (λ a md' t', wpw (f a) md' t' Q) → wpw (p ≫= f) md t Q.
Proof.
  revert md t. induction p as [A a|A a k IH|A r k IH|A gs d k IH|A k' k IH|A rk dk k IH|A k' k IH|A n m k IH|A n k IH|A n sel k IH|A n m k IH|A rs k IH|A k IH]; intros md t; simpl; try done.
  - destruct a; try done.
    + intros (-> & -> & l & m & H1 & H2 & H3 & H4 & H5). split_and!; [done|done|]. exists l, m. split_and!; try done. by apply IH.
    + intros (-> & -> & l & H1 & H2 & H3 & H4 & H5 & H6). split_and!; [done|done|]. exists l. split_and!; try done. by apply IH.
    + intros (-> & -> & t' & -> & H). split_and!; [done|done|]. exists t'. split; [done|by apply IH].
    + apply IH.
    + apply IH.
    + apply IH.
    + apply IH.
    + apply IH.
  - intros (R & rest & ts & H1 & H2 & H3). exists R, rest, ts. split_and!; [done|done|]. intros rs Hrs. by apply IH, H3.
  - intros (-> & t' & -> & H1 & H2). split; [done|]. exists t'. split_and!; [done|by apply IH|]. intros ref. by apply IH.
  - intros (-> & H1 & H2). split_and!; [done|by apply IH|by apply IH].
  - intros H r Hr. by apply IH, H.
  - intros H l. by apply IH.
  - destruct md; [intros H l Hl; by apply IH, H| |intros H l' Hl; by apply IH, H]. intros (-> & -> & H). split_and!; [done|done|]. intros l Hl. by apply IH, H.
  - intros H r. by apply IH.
  - intros H r. by apply IH.
  - intros H r. by apply IH.
Qed.

Lemma wpw_mono {A} (p : prog A) md t (Q Q' : A → mode → tok → Prop) : (∀ a md t, Q a md t → Q' a md t) → wpw p md t Q → wpw p md t Q'.
Proof.
  intros HQ. revert md t. induction p as [A a|A a k IH|A r k IH|A gs d k IH|A k' k IH|A rk dk k IH|A k' k IH|A n m k IH|A n k IH|A n sel k IH|A n m k IH|A rs k IH|A k IH]; intros md t; simpl; try done.
  - apply HQ.
  - destruct a; try done; try by apply IH.
    + intros (-> & -> & l & m & H1 & H2 & H3 & H4 & H5). split_and!; [done|done|]. exists l, m. split_and!; try done. by eapply IH.
    + intros (-> & -> & l & H1 & H2 & H3 & H4 & H5 & H6). split_and!; [done|done|]. exists l. split_and!; try done. by eapply IH.
    + intros (-> & -> & t' & -> & H). split_and!; [done|done|]. exists t'. split; [done|by eapply IH].
  - intros (R & rest & ts & H1 & H2 & H3). exists R, rest, ts. split_and!; [done|done|]. intros rs Hrs. eapply IH; [done|by apply H3].
  - intros (-> & t' & -> & H1 & H2). split; [done|]. exists t'. split_and!; [done|by eapply IH|]. intros ref. eapply IH; [done|by apply H2].
  - intros (-> & H1 & H2). split_and!; [done|by eapply IH|by eapply IH].
  - intros H r Hr. eapply IH; [done|by apply H].
  - intros H l. eapply IH; [done|by apply H].
  - destruct md; [intros H l Hl; eapply IH; [done|by apply H]| |intros H l' Hl; eapply IH; [done|by apply H]].
    intros (-> & -> & H). split_and!; [done|done|]. intros l Hl. eapply IH; [done|by apply H].
  - intros H r. eapply IH; [done|by apply H].
  - intros H r. eapply IH; [done|by apply H].
  - intros H r. eapply IH; [done|by apply H].
Qed.

Lemma wph_bind {A B} (f : A → prog B) (p : prog A) t Q : wph p t (λ a t', wph (f a) t' Q) → wph (p ≫= f) t Q.
Proof.
  revert t. induction p as [A a|A a k IH|A r k IH|A gs d k IH|A k' k IH|A rk dk k IH|A k' k IH|A n m k IH|A n k IH|A n sel k IH|A n m k IH|A rs k IH|A k IH]; intros t; simpl; try done.
  - destruct a; try done; try apply IH.
    + intros [(-> & -> & t' & -> & H)|(t' & -> & H)]; [left; split_and!; [done|done|]|right]; exists t'; (split; [done|by apply IH]).
    + intros (t' & -> & H). exists t'. split; [done|by apply IH].
  - destruct (decide (k' = key)).
    + intros (t' & -> & H1 & H2). exists t'. split_and!; [done|by apply IH|]. intros ref. by apply IH.
    + intros [H1 H2]. split; [by apply IH|]. intros ref. by apply IH.
  - intros (H0 & H1 & H2). split_and!; [done|by apply IH|]. intros ref. by apply IH.
  - intros H r Hr. by apply IH, H.
  - intros H l. by apply IH.
Qed.

End Wp.
