(* ===== verification/ReplicaSetAdequacy.v ===== *)
(** * Ownership in the ReplicaSet controller: every step

    A step of a program that keeps to its tokens keeps the invariant. *)

From S2P Require Import Prelude Labels ApiTypes ActivePods AppsTypes Expectations CtlProgram ReplicaSet ReplicaSetSystem PodHistory ReplicaSetInv ReplicaSetSteps.
From S2P Require Import ReplicaSetWp.
#[local] Open Scope Z_scope.

Lemma tok_assoc_L t u v : t ⊕ u ⊕ v = t ⊕ (u ⊕ v).
Proof. unfold tok_add. simpl. f_equal; try lia; by rewrite (assoc_L (++)). Qed.

Section Adequacy.
Context (Kind ns name uid : string) (selector : Selector) (lo hi : Z) (disturb : bool).

Local Abbreviation key := (MetaNamespaceKey ns name).
Local Abbreviation mine := (mine Kind ns name uid selector).
Local Abbreviation foreign := (foreign uid).
Local Abbreviation acts := (acts Kind ns name uid selector).
Local Abbreviation ok_event := (ok_event Kind ns name uid selector).
Local Abbreviation pods_ok := (pods_ok Kind ns name uid selector).
Local Abbreviation inv := (inv Kind ns name uid selector lo hi disturb).
Local Abbreviation settled := (settled Kind ns name uid selector).
Local Abbreviation step_one := (step_one ns name uid selector lo hi).
Local Abbreviation step_prog := (step_prog ns name uid selector lo hi).
Local Abbreviation wpg := (wpg Kind ns name uid selector).
Local Abbreviation wpw := (wpw Kind ns name uid selector lo hi).
Local Abbreviation wph := (wph ns name uid selector lo hi).
Local Abbreviation listing := (listing Kind ns name uid selector).
Local Abbreviation live_names := (live_names Kind ns name uid selector).

#[local] Instance inv_proper s : Proper ((≡) ==> eq ==> iff) (inv s).
Proof. intros T T' HT md md' <-. split; intros Hi; (eapply inv_drop; [exact Hi|]); by apply tok_equiv_le. Qed.

(** ** Pods that are created and deleted *)

Lemma server_pods s T md : inv s T md → pods_ok (server s).
Proof. intros []. by eapply history_pods. Qed.

Lemma prefix_pods s T md n : inv s T md → pods_ok (apply_all (sh_base s) (take n (sh_log s))).
Proof.
  intros []. rewrite <- (take_drop n (sh_log s)) in v_hist. apply history_app in v_hist as [Hh _]. by eapply history_pods.
Qed.

Lemma created_ok s T md pod p :
  inv s T md → mine_spec Kind name uid selector pod = true → created_from s ns pod p = true →
  mine p = true ∧ ok_event (server s) (used s (length (sh_log s))) (PAdd p).
Proof.
  intros Hi Hs Hc. unfold created_from in Hc. apply andb_prop in Hc as [Hc Hu%bool_decide_eq_true_1].
  apply andb_prop in Hc as [(Hn & Hl & Ho)%bool_decide_eq_true_1 Ha].
  assert (mine p = true) as Hm.
  { unfold ReplicaSetSystem.mine, mine_spec in *. rewrite Hn, Hl, Ho, String.eqb_refl. done. }
  split; [done|]. simpl. rewrite Hm. split; [|done]. destruct Hi as []. apply not_elem_of_dom. intros Hd. apply Hu. rewrite used_all.
  by apply (acts_used Kind ns name uid selector _ _ _ v_hist).
Qed.

Lemma mine_same p q :
  pod_Namespace p = pod_Namespace q → pod_Labels p = pod_Labels q → pod_OwnerReferences p = pod_OwnerReferences q → mine p = mine q ∧ foreign p = foreign q.
Proof. intros H1 H2 H3. unfold ReplicaSetSystem.mine, ReplicaSetSystem.foreign. by rewrite H1, H2, H3. Qed.

Lemma marked_ok s T md us old cur :
  inv s T md → server s !! PodKey old = Some old → marked old cur = true → ok_event (server s) us (PUpdate old cur).
Proof.
  intros Hi Ho Hm. apply bool_decide_eq_true_1 in Hm as (Hk & Hn & Hl & Hr & _ & Hd). simpl. split_and!; [done|done|].
  destruct (mine_same cur old Hn Hl Hr) as [-> ->]. destruct (server_pods _ _ _ Hi _ _ Ho) as [_ [Hm|[Hm Hf]]]; rewrite Hm; [|done].
  split; [done|]. unfold IsPodActive. rewrite (bool_decide_false (pod_DeletionTimestamp cur = None)) by done. by rewrite andb_false_r.
Qed.

(** ** Goroutines *)

Lemma exec_delete s T n podName x s' e F :
  inv s (tok_delete [(n ++ "/" ++ podName)%string] ⊕ F) MNone → T = tok_delete [(n ++ "/" ++ podName)%string] ⊕ F →
  exec_request s (RDeletePod n podName) x = Some (s', e) → (e = None ∧ inv s' F MNone) ∨ (∃ e', e = Some e' ∧ inv s' T MNone).
Proof.
  intros Hi -> Hx. set (k := (n ++ "/" ++ podName)%string) in *.
  assert (inv s F MNone) as Hi' by (eapply inv_drop; [exact Hi|]; split; simpl; try done; by apply submseteq_cons).
  assert (∀ old, server s !! k = Some old → PodKey old = k) as Hk by (intros old Ho; by apply (server_pods _ _ _ Hi)).
  destruct x; simpl in Hx; fold k in Hx; try (destruct (server s !! k) as [old|] eqn:Ho; simpl in Hx; [|done]); try done.
  - injection Hx as <- <-. right. eauto.
  - destruct (marked old cur) eqn:Hm; [|done]. injection Hx as <- <-. left. split; [done|]. rewrite <- (Hk old eq_refl) in Ho.
    eapply (inv_delete _ _ _ _ _ _ _ _ s F k); [done|by eapply marked_ok|done|]. simpl. by apply Hk.
  - injection Hx as <- <-. left. split; [done|]. eapply (inv_delete _ _ _ _ _ _ _ _ s F k); [done| |done|]; simpl; [|by apply Hk].
    by rewrite (Hk old eq_refl).
  - case_bool_decide; [done|]. injection Hx as <- <-. by left.
Qed.

Lemma inv_lock_worker s F dk ref :
  inv s (tok_delete [dk] ⊕ F) MNone → sh_lock s = false → deletion_begin (sh_exp s) key dk = Some ref →
  inv (with_lock s true) (tok_lock (key, dk, ref) ⊕ F) MNone.
Proof.
  intros Hi Hl Hb. apply inv_lock; [|done|done|].
  - eapply inv_drop; [exact Hi|]; split; simpl; try done; by apply submseteq_cons.
  - intros _ Hd. destruct Hi as []. destruct (v_lo Hd) as (_ & H2 & H3 & _). simpl in H2, H3. apply NoDup_cons in H2 as [? _].
    split; [|done]. left. apply H3. by left.
Qed.

Lemma goroutine_step {A} s t F (p p' : prog A) x s' Q :
  wpg p t Q → inv s (t ⊕ F) MNone → step_one s p x = Some (s', p') → ∃ t', wpg p' t' Q ∧ inv s' (t' ⊕ F) MNone.
Proof.
  destruct p as [a|a k|r k|gs d k|k' k|rk dk k|k' k|n m k|n k|n sel k|n m k|rs k|k]; simpl; try done.
  - destruct a; try done. intros (t' & -> & Hk) Hi. destruct x; try done. intros [= <- <-]. exists t'. split; [done|].
    rewrite tok_assoc_L in Hi. by apply inv_unlock.
  - destruct r as [n pod|n podName|pod c|pod u]; try done.
    + intros (-> & Hm & t' & -> & H1 & H2) Hi. rewrite tok_assoc_L in Hi. destruct x; try done; simpl.
      * intros [= <- <-]. exists (tok_obs 1 ⊕ t'). split; [done|]. rewrite tok_assoc_L. eapply inv_drop; [exact Hi|]. split; simpl; try done; lia.
      * destruct (created_from s ns pod p) eqn:Hc; [|done]. intros [= <- <-]. exists t'. split; [done|].
        destruct (created_ok _ _ _ _ _ Hi Hm Hc). by apply inv_create.
    + intros (t' & -> & H1 & H2) Hi Hx. rewrite tok_assoc_L in Hi.
      destruct (exec_request s (RDeletePod n podName) x) as [[s1 e]|] eqn:He; simpl in *; [|done]. injection Hx as <- <-.
      destruct (exec_delete _ _ _ _ _ _ _ _ Hi eq_refl He) as [[-> Hd]|(e' & -> & Hd)]; [by exists t'|].
      exists (tok_delete [(n ++ "/" ++ podName)%string] ⊕ t'). split; [done|]. by rewrite tok_assoc_L.
  - intros (-> & t' & -> & H1 & H2) Hi. rewrite tok_assoc_L in Hi. destruct x; try done. destruct (sh_lock s) eqn:Hl; [done|].
    destruct (deletion_begin (sh_exp s) key dk) as [ref|] eqn:Hb; intros [= <- <-].
    + exists (tok_lock (key, dk, ref) ⊕ t'). split; [done|]. rewrite tok_assoc_L. by apply inv_lock_worker.
    + exists t'. split; [done|]. eapply inv_drop; [exact Hi|]; split; simpl; try done; by apply submseteq_cons.
Qed.

(** ** The worker *)

Lemma list_pods_ok s T md names l :
  inv s T md → list_pods s ns Everything names = Some l → listing l ∧ live_names l = acts (cache s).
Proof.
  intros Hi. unfold list_pods. case_bool_decide as Hb; [|done]. destruct Hb as [Hd Hnd]. intros [= <-].
  pose proof (prefix_pods _ _ _ (sh_seen s) Hi) as Hp. change (apply_all (sh_base s) (take (sh_seen s) (sh_log s))) with (cache s) in Hp.
  assert (∀ p, p ∈ omap (cache s !!.) names ↔ cache s !! PodKey p = Some p) as Hin.
  { intros p. rewrite list_elem_of_omap. split.
    - intros (x & Hx & Hc). destruct (Hp _ _ Hc) as [Hk _]. by rewrite Hk.
    - intros Hc. exists (PodKey p). split; [|done]. assert (PodKey p ∈ dom (cache s)) as Hdm by (by eapply elem_of_dom_2).
      rewrite <- Hd in Hdm. by apply elem_of_list_to_set in Hdm. }
  assert (NoDup (PodKey <$> omap (cache s !!.) names)) as Hnk.
  { clear Hd Hin. induction Hnd as [|x l Hx Hnd IH]; simpl; [constructor|]. destruct (cache s !! x) as [p|] eqn:Hc; [|done].
    simpl. constructor; [|done]. intros (q & Hq & Hql)%list_elem_of_fmap. apply list_elem_of_omap in Hql as (y & Hy & Hcy).
    destruct (Hp _ _ Hc) as [Hkp _], (Hp _ _ Hcy) as [Hkq _]. congruence. }
  split; [split|].
  - eapply sublist_NoDup; [exact Hnk|]. apply fmap_sublist, sublist_filter.
  - apply Forall_forall. intros p [[Hns _] Hpi]%list_elem_of_filter. split; [done|]. apply Hin in Hpi. by destruct (Hp _ _ Hpi).
  - apply set_eq. intros k. unfold ReplicaSetWp.live_names. rewrite elem_of_list_to_set, list_elem_of_fmap, elem_of_acts. split.
    + intros (p & -> & [[Hm Ha]%andb_prop [_ Hpi]%list_elem_of_filter]%list_elem_of_filter). exists p. by rewrite <- Hin.
    + intros (p & Hc & Hm & Ha). destruct (Hp _ _ Hc) as [<- _]. exists p. split; [done|]. apply list_elem_of_filter. rewrite Hm, Ha. split; [done|].
      apply list_elem_of_filter. rewrite Hin. split; [|done]. split; [|done]. unfold ReplicaSetSystem.mine in Hm.
      by apply andb_prop in Hm as [[Hns%String.eqb_eq _]%andb_prop _].
Qed.

(** A handler has no pods to create or to delete. *)
Definition small (t : tok) : Prop := t_new t = 0%nat ∧ t_del t = [].

Lemma par_cases {A} s gs d (k : list (option api_error) → prog A) x s' p' :
  step_prog s (Par gs d k) x = Some (s', p') →
  (∃ i y g g', gs !! i = Some g ∧ step_one s g y = Some (s', g') ∧ p' = Par (<[i := g']> gs) d k) ∨
  (∃ i r, gs !! i = Some (Done r) ∧ s' = s ∧ p' = Par (delete i gs) (d ++ [r]) k) ∨
  (gs = [] ∧ s' = s ∧ p' = k d).
Proof.
  intros Hx. destruct x as [| | | | | | | | | | | |i y|i|]; try by destruct gs.
  - left. exists i, y. assert ((g ← gs !! i; '(s', g') ← step_one s g y; Some (s', Par (<[i := g']> gs) d k)) = Some (s', p')) as H by (by destruct gs).
    destruct (gs !! i) as [g|]; [|done]. simpl in H. destruct (step_one s g y) as [[s1 g']|] eqn:He; [|done]. simplify_eq/=. eauto 10.
  - right. left. exists i. assert ((g ← gs !! i; match g with Done r => Some (s, Par (delete i gs) (d ++ [r]) k) | _ => None end) = Some (s', p')) as H by (by destruct gs).
    destruct (gs !! i) as [g|]; [|done]. destruct g; simplify_eq/=. eauto.
  - right. right. destruct gs; [|done]. by simplify_eq/=.
Qed.

Lemma par_step {A} s md t F gs d (k : list (option api_error) → prog A) x s' p' Q :
  wpw (Par gs d k) md t Q → inv s (t ⊕ F) md → step_prog s (Par gs d k) x = Some (s', p') →
  ∃ md' t', wpw p' md' t' Q ∧ inv s' (t' ⊕ F) md'.
Proof.
  intros (R & rest & ts & Ht & Hgs & Hk) Hi%inv_mode Hx. rewrite Ht in Hi. exists MNone.
  apply par_cases in Hx as [(i & y & g & g' & Hg & Hs & ->)|[(i & r0 & Hg & -> & ->)|(-> & -> & ->)]].
  - destruct (Forall2_lookup_l _ _ _ _ _ Hgs Hg) as (ti & Hti & Hw).
    destruct (tok_sum_insert ts i ti Hti) as (r & Hr & _ & Hins). rewrite Hr in Hi.
    assert (∀ s t, inv s (t ⊕ (rest ⊕ r ⊕ tok_sum (R <$> d) ⊕ F)) MNone ↔ inv s (rest ⊕ (t ⊕ r) ⊕ tok_sum (R <$> d) ⊕ F) MNone) as Hfocus.
    { intros s0 t0. rewrite <- !tok_assoc_L. by rewrite (comm tok_add t0 rest). }
    apply Hfocus in Hi. destruct (goroutine_step _ _ _ _ _ _ _ _ Hw Hi Hs) as (ti' & Hw' & Hi').
    exists (rest ⊕ tok_sum (<[i:=ti']> ts) ⊕ tok_sum (R <$> d)). split; [|rewrite Hins; by apply Hfocus].
    exists R, rest, (<[i:=ti']> ts). split_and!; [done|by apply Forall2_insert|]. rewrite length_insert. exact Hk.
  - destruct (Forall2_lookup_l _ _ _ _ _ Hgs Hg) as (ti & Hti & Hw). destruct (tok_sum_insert ts i ti Hti) as (r & Hr & Hdel & _). simpl in Hw.
    exists (rest ⊕ tok_sum (delete i ts) ⊕ tok_sum (R <$> d ++ [r0])). split.
    + exists R, rest, (delete i ts). split_and!; [done|by apply Forall2_delete|]. intros rs Hrs. apply Hk. rewrite Hrs, length_delete, length_app by done.
      apply lookup_lt_Some in Hg. simpl. lia.
    + eapply inv_drop; [exact Hi|]. rewrite Hr, Hdel, fmap_app. apply tok_le_add.
      assert (tok_sum ((R <$> d) ++ (R <$> [r0])) ≡ R r0 ⊕ tok_sum (R <$> d)) as ->.
      { clear. induction d as [|x d IH]; simpl; [done|]. rewrite IH. apply tok_swap. }
      rewrite <- tok_assoc_L. apply tok_le_add. rewrite (comm tok_add (rest ⊕ r)). transitivity (ti ⊕ (rest ⊕ r)); [by apply tok_le_add|].
      by rewrite tok_swap.
  - inversion Hgs; subst. exists (rest ⊕ tok_sum (R <$> d)). split; [by apply Hk|]. simpl in Hi.
    rewrite <- (tok0_l rest). by rewrite (comm tok_add tok0 rest).
Qed.

Lemma worker_step {A} s md t F (p p' : prog A) x s' Q :
  wpw p md t Q → small F → inv s (t ⊕ F) md → step_prog s p x = Some (s', p') → ∃ md' t', wpw p' md' t' Q ∧ inv s' (t' ⊕ F) md'.
Proof.
  intros Hw [Hn Hd] Hi Hx. destruct p as [a|a k|r k|gs d k|k' k|rk dk k|k' k|n m k|n k|n sel k|n m k|rs k|k];
    [by destruct x| |done|by eapply par_step| |done| | | | | | |]; destruct x; try done; simpl in Hw, Hx; try (by destruct a).
  - destruct a; simpl in Hx; try done; simplify_eq/=; try (by exists md, t).
    destruct Hw as (-> & -> & t' & -> & Hw). exists md, t'. split; [done|]. rewrite tok_assoc_L in Hi. by apply inv_lower.
  - destruct a; simpl in Hx; try done.
    + destruct Hw as (-> & -> & l & m & -> & -> & H1 & H2 & Hw). injection Hx as <- <-. rewrite tok0_l in Hi. exists MNone, (tok_create m).
      split; [done|]. eapply inv_expect_creations; try done. lia.
    + destruct Hw as (-> & -> & l & -> & H1 & H2 & H3 & H4 & Hw). destruct (sh_lock s) eqn:Hl; [done|]. injection Hx as <- <-. rewrite tok0_l in Hi.
      exists MNone, (tok_delete deletedKeys). split; [done|]. by eapply inv_expect_deletions.
  - destruct Hw as (-> & t' & -> & H1 & H2). rewrite tok_assoc_L in Hi. injection Hx as <- <-. exists md.
    destruct (GetExpectations (sh_exp s) key) as [ref|] eqn:Hg.
    + exists (tok_got ref ⊕ t'). split; [done|]. rewrite tok_assoc_L. by apply inv_got.
    + exists t'. split; [done|]. eapply inv_drop; [exact Hi|]. split; simpl; try done; lia.
  - destruct Hw as (-> & H1 & H2). destruct (unexpired ns name s now) eqn:Hu; [|done]. injection Hx as <- <-.
    destruct (SatisfiedExpectations (sh_exp s) key now) eqn:Hs; [|exists MNone, t; split; [done|by eapply inv_mode]].
    exists MFresh, t. split; [done|]. by eapply inv_satisfied.
  - destruct (set_answer _ _ _ _ _ _ _ _ r) eqn:Hr; [|done]. injection Hx as <- <-. exists md, t. split; [by apply Hw|done].
  - injection Hx as <- <-. exists md, t. split; [by apply Hw|done].
  - destruct (list_pods s n sel names) as [l|] eqn:Hl; [|done]. injection Hx as <- <-.
    assert (n = ns → sel = Everything → listing l) as Hli by (intros -> ->; by destruct (list_pods_ok _ _ _ _ _ Hi Hl)). destruct md as [| |l'].
    + exists MNone, t. split; [by apply Hw|done].
    + destruct Hw as (-> & -> & Hw). destruct (list_pods_ok _ _ _ _ _ Hi Hl) as [_ Hln]. exists (MSeen (live_names l)), t.
      split; [by apply Hw, Hli|]. rewrite Hln. by apply inv_list.
    + exists (MSeen l'), t. split; [by apply Hw|done].
  - injection Hx as <- <-. exists md, t. split; [by apply Hw|done].
  - injection Hx as <- <-. exists md, t. split; [by apply Hw|done].
  - injection Hx as <- <-. exists md, t. split; [by apply Hw|done].
Qed.

(** ** Handlers *)

Lemma settled_inactive s T md k : inv s T md → settled s k → k ∉ acts (server s).
Proof.
  intros [] [Hu Hk]. rewrite <- (take_drop (sh_handled s) (sh_log s)) in v_hist. apply history_app in v_hist as [_ Hh].
  unfold server. rewrite <- (take_drop (sh_handled s) (sh_log s)), apply_all_app. by eapply history_gone.
Qed.

Lemma handler_step {A} s md t F (p p' : prog A) x s' Q :
  wph p t Q → small t → inv s (t ⊕ F) md → step_prog s p x = Some (s', p') → ∃ t', wph p' t' Q ∧ small t' ∧ inv s' (t' ⊕ F) md.
Proof.
  intros Hw [Hn Hd] Hi Hx. destruct p as [a|a k|r k|gs d k|k' k|rk dk k|k' k|n m k|n k|n sel k|n m k|rs k|k];
    [by destruct x| |done|done| | |done| | |done|done|done|done]; destruct x; try done; simpl in Hw, Hx; try (by destruct a).
  - destruct a; simpl in Hx; try done; simplify_eq/=; try (by exists t).
    + destruct Hw as [(-> & -> & t' & -> & Hw)|(t' & -> & Hw)]; exists t'; (split; [done|]); (split; [done|]); rewrite tok_assoc_L in Hi;
        [by apply inv_lower|by apply inv_lower_other].
    + destruct Hw as (t' & -> & Hw). exists t'. split; [done|]. split; [done|]. rewrite tok_assoc_L in Hi. by apply inv_unlock.
  - injection Hx as <- <-. destruct (decide (k' = key)) as [->|Hne].
    + destruct Hw as (t' & -> & H1 & H2). rewrite tok_assoc_L in Hi. destruct (GetExpectations (sh_exp s) key) as [ref|] eqn:Hg.
      * exists (tok_got ref ⊕ t'). split; [done|]. split; [done|]. rewrite tok_assoc_L. by apply inv_got.
      * exists t'. split; [done|]. split; [done|]. eapply inv_drop; [exact Hi|]. split; simpl; try done; lia.
    + destruct Hw as [H1 H2]. destruct (GetExpectations (sh_exp s) k') as [ref|] eqn:Hg; [|by exists t].
      exists (tok_other ref ⊕ t). split; [done|]. split; [done|]. rewrite tok_assoc_L. by eapply inv_other.
  - destruct Hw as (H0 & H1 & H2). destruct (sh_lock s) eqn:Hl; [done|].
    destruct (deletion_begin (sh_exp s) rk dk) as [ref|] eqn:Hb; injection Hx as <- <-; [|by exists t].
    exists (tok_lock (rk, dk, ref) ⊕ t). split; [done|]. split; [done|]. rewrite tok_assoc_L. apply inv_lock; [done|done|done|].
    intros -> Hdi. assert (settled s dk) as Hs by (destruct Hi as []; apply v_gone; simpl; apply elem_of_app; left; by apply H0).
    split; [by right|]. intros Hin. destruct Hi as [] eqn:Hieq. destruct (v_lo Hdi) as (_ & _ & H3 & _). destruct (H3 dk Hin) as [Ha _].
    by eapply settled_inactive in Ha.
  - destruct (set_answer _ _ _ _ _ _ _ _ r) eqn:Hr; [|done]. injection Hx as <- <-. exists t. split; [by apply Hw|done].
  - injection Hx as <- <-. exists t. split; [by apply Hw|done].
Qed.

End Adequacy.
