(* ===== verification/ReplicaSetPrograms.v ===== *)
(** * The programs of the ReplicaSet controller keep to their tokens *)

From S2P Require Import Prelude Labels ApiTypes ActivePods AppsTypes Expectations CtlProgram ReplicaSet SlowStart ReplicaSetSystem PodHistory ReplicaSetInv.
From S2P Require Import ReplicaSetSteps ReplicaSetWp ReplicaSetAdequacy.
#[local] Open Scope Z_scope.

Section Programs.
Context (Kind : string) (burstReplicas : Z) (PodDeletionCostGate LogarithmicScaleDown : bool) (log_rank : Z → Z)
  (sort : (Pod * Z → Pod * Z → bool) → list (Pod * Z) → list (Pod * Z)).
Context (ns name uid : string) (selector : Selector) (lo hi : Z).

Local Abbreviation key := (MetaNamespaceKey ns name).
Local Abbreviation mine := (mine Kind ns name uid selector).
Local Abbreviation foreign := (foreign uid).
Local Abbreviation our_set := (our_set ns name uid selector lo hi).
Local Abbreviation set_answer := (set_answer ns name uid selector lo hi).
Local Abbreviation wpg := (wpg Kind ns name uid selector).
Local Abbreviation wpw := (wpw Kind ns name uid selector lo hi).
Local Abbreviation wph := (wph ns name uid selector lo hi).
Local Abbreviation listing := (listing Kind ns name uid selector).
Local Abbreviation live_names := (live_names Kind ns name uid selector).

(** Kinds are not empty; replicas are not negative; the burst is a number of pods; a key gives back the
    namespace and the name it was made of; [sort.Sort] swaps. *)
Context (kind_ok : Kind ≠ ""%string) (lo_ok : 0 ≤ lo) (burst_ok : 0 ≤ burstReplicas ≤ 2 ^ 62)
  (key_ok : SplitMetaNamespaceKey key = Some (ns, name))
  (sort_perm : ∀ less l, sort less l ≡ₚ l).

(** ** Handlers *)

Lemma our_set_spec rs : our_set rs = true →
  rs_Namespace rs = ns ∧ rs_Name rs = name ∧ rs_UID rs = uid ∧ lo ≤ rs_Replicas rs ≤ hi ∧
  LabelSelectorAsSelector (rs_Selector rs) = Some selector ∧ Matches selector (pod_Labels (rs_Template rs)) = true.
Proof.
  unfold ReplicaSetSystem.our_set. rewrite !andb_true_iff, !String.eqb_eq, !Z.leb_le. intros (((((H1 & H2) & H3) & H4) & H5) & H6).
  destruct (LabelSelectorAsSelector (rs_Selector rs)) as [sel|]; [|done]. apply andb_prop in H6 as [->%bool_decide_eq_true_1 H6]. done.
Qed.

Lemma RSKey_ours rs : our_set rs = true → RSKey rs = key.
Proof. intros (H1 & H2 & _)%our_set_spec. unfold RSKey. by rewrite H1, H2. Qed.

(** The controller of a pod is the set or has another key. *)
Lemma resolve_wph p ref t (Q : option ReplicaSet → tok → Prop) :
  GetControllerOf (pod_OwnerReferences p) = Some ref → (mine p = true ∨ foreign p = true) →
  Q None t → (∀ rs, mine p = true → our_set rs = true → Q (Some rs) t) → (∀ rs, RSKey rs ≠ key → Q (Some rs) t) →
  wph (resolveControllerRef Kind (pod_Namespace p) ref) t Q.
Proof.
  intros Href Hp H1 H2 H3. unfold resolveControllerRef. destruct (String.eqb_spec (own_Kind ref) Kind) as [Hk|]; simpl; [|done].
  intros r Hr. unfold ReplicaSetSystem.set_answer in Hr. case_bool_decide as Hkey.
  - destruct r as [rs|]; [|done]. pose proof (our_set_spec rs Hr) as (_ & _ & Hu & _).
    destruct (String.eqb_spec (rs_UID rs) (own_UID ref)) as [Heq|]; simpl; [|done]. apply H2; [|done]. destruct Hp as [?|Hf]; [done|].
    unfold ReplicaSetSystem.foreign in Hf. rewrite Href in Hf. destruct (String.eqb_spec (own_UID ref) uid); [done|congruence].
  - destruct r as [rs|]; simpl; [|done]. apply bool_decide_eq_true_1 in Hr. destruct (_ =? _)%string; simpl; [|done]. apply H3. congruence.
Qed.

Lemma mine_controller p : mine p = true ∨ foreign p = true → ∃ ref, GetControllerOf (pod_OwnerReferences p) = Some ref.
Proof.
  unfold ReplicaSetSystem.mine, ReplicaSetSystem.foreign. destruct (GetControllerOf (pod_OwnerReferences p)) as [ref|]; [by exists ref|].
  rewrite andb_false_r. by intros [|].
Qed.

Lemma deletePod_wph p t Q :
  (mine p = true → PodKey p ∈ t_gone t) → (mine p = true ∨ foreign p = true) → Q tt t → wph (deletePod Kind p) t Q.
Proof.
  intros Hg Hp HQ. destruct (mine_controller p Hp) as [ref Href]. unfold deletePod. rewrite Href. apply wph_bind.
  eapply resolve_wph; [done|done|done| |].
  - intros rs Hm Hrs. rewrite (RSKey_ours rs Hrs). simpl. split_and!; [by auto|done|]. intros r. exists t. by split.
  - intros rs Hk. simpl. split_and!; [done|done|]. intros r. exists t. by split.
Qed.

Lemma observe_creation_other k t (Q : unit → tok → Prop) : k ≠ key → Q tt t → wph (observe_creation k) t Q.
Proof.
  intros Hk HQ. unfold observe_creation, LowerCreations. simpl. rewrite decide_False by done. split; [done|]. intros ref. right.
  by exists t.
Qed.

(** A handler of an addition, with the creation to observe. *)
Lemma addPod_wph p t t' Q :
  (mine p = true → pod_DeletionTimestamp p = None ∧ t = tok_obs 1 ⊕ t') → (mine p = false → foreign p = true ∧ t' = t) →
  Q tt t → Q tt t' → wph (addPod Kind p) t Q.
Proof.
  intros Hm Hf HQ HQ'. assert (mine p = true ∨ foreign p = true) as Hp.
  { destruct (mine p) eqn:Hmp; [by left|right]. by destruct (Hf eq_refl). }
  unfold addPod. case_bool_decide as Hd.
  - assert (mine p = false) as Hmf by (destruct (mine p) eqn:Hmp; [|done]; by destruct (Hm eq_refl)). apply deletePod_wph; [congruence|done|done].
  - destruct (mine_controller p Hp) as [ref Href]. rewrite Href. apply wph_bind. eapply resolve_wph; [done|done|done| |].
    + intros rs Hmp Hrs. rewrite (RSKey_ours rs Hrs). destruct (Hm Hmp) as [_ ->]. simpl. rewrite decide_True by done. exists t'.
      split_and!; [done|done|]. intros r. left. split_and!; [done|done|]. by exists t'.
    + intros rs Hk. apply wph_bind, observe_creation_other; done.
Qed.

Lemma each_enqueue_wph l t Q : Q tt t → wph (each enqueueRS l) t Q.
Proof. intros HQ. induction l as [|rs l IH]; simpl; [done|]. done. Qed.

Lemma updatePod_wph old cur t Q :
  (mine cur = true → pod_DeletionTimestamp cur ≠ None → PodKey old ∈ t_gone t) → PodKey cur = PodKey old →
  mine old = mine cur → (mine cur = true ∨ foreign cur = true) → (mine old = true ∨ foreign old = true) → Q tt t →
  wph (updatePod Kind old cur) t Q.
Proof.
  intros Hg Hk Hm Hc Ho HQ. unfold updatePod. case_bool_decide; [done|]. case_bool_decide as Hd.
  - apply wph_bind, deletePod_wph; [rewrite Hk; by intros; apply Hg|done|]. case_bool_decide; [|done].
    apply deletePod_wph; [rewrite Hm; by intros; apply Hg|done|done].
  - destruct (mine_controller cur Hc) as [rc Hrc], (mine_controller old Ho) as [ro Hro]. rewrite Hrc, Hro. apply wph_bind.
    assert (wph (rs ← resolveControllerRef Kind (pod_Namespace cur) rc;
      match rs with
      | None => Done tt
      | Some rs => enqueueRS rs ;; (if negb (IsPodReady old) && IsPodReady cur && (0 <? rs_MinReadySeconds rs)
                     then enqueueRSAfter rs (int64 (int64 (rs_MinReadySeconds rs * second) + second)) else Done tt)
      end) t Q) as Hlast.
    { apply wph_bind. eapply resolve_wph; [done|done|done| |]; intros rs; intros; simpl; by case_match. }
    case_bool_decide; [|exact Hlast]. apply wph_bind. eapply resolve_wph; [done|done|exact Hlast| |]; intros rs; intros; exact Hlast.
Qed.

(** ** Creating *)

(** A call with the tokens for it: the creation is observed by a handler, or
    the token is left for the worker. *)
Definition left_over (r : option api_error) : tok := match r with Some _ => tok_obs 1 | None => tok0 end.

Lemma create_call_wpg rs :
  our_set rs = true → wpg (create_call Kind rs) (tok_create 1) (λ r t, tok_le (left_over r) t).
Proof.
  intros (H1 & H2 & H3 & _ & _ & Hm)%our_set_spec. unfold create_call, CreatePodsWithControllerRef, validateControllerRef. simpl.
  rewrite bool_decide_false by done. unfold createPods. simpl. case_bool_decide as He; simpl.
  { split; simpl; try done; lia. }
  assert (tok_le tok0 (tok_obs 1 ⊕ tok0)) by (split; simpl; try done; lia).
  split_and!; [done| |exists tok0; split_and!; [done|done|]].
  - unfold mine_spec. simpl. rewrite Hm. unfold GetControllerOf. simpl. by rewrite H2, H3, !String.eqb_refl.
  - intros e. case_bool_decide; simpl; [done|]. by split.
Qed.

Lemma sum_create n : tok_sum (repeat (tok_create 1) n) = tok_create n.
Proof. induction n as [|n IH]; simpl; [done|]. by rewrite IH. Qed.

Lemma sum_left_over rs : tok_sum (left_over <$> rs) = tok_obs (length (errors_of rs)).
Proof.
  induction rs as [|r rs IH]; [done|]. change (left_over r ⊕ tok_sum (left_over <$> rs) = tok_obs (length (errors_of (r :: rs)))).
  rewrite IH. by destruct r.
Qed.

(** Slow start leaves the tokens of what it did not create. *)
Lemma slow_loop_wpw rs size remaining successes :
  our_set rs = true → 0 ≤ remaining →
  wpw (slow_loop (create_call Kind rs) size remaining successes) MNone (tok_create (Z.to_nat remaining))
    (λ res md t, md = MNone ∧ ∃ w, t = mkTok (Z.to_nat (remaining - (res.1 - successes))) w [] [] [] [] [] ∧ 0 ≤ remaining - (res.1 - successes)).
Proof.
  intros Hrs. remember (Z.to_nat remaining) as n eqn:Hn. revert size remaining successes Hn.
  induction n as [n IH] using lt_wf_ind. intros size remaining successes -> Hr. rewrite slow_loop_unfold. cbv zeta.
  destruct (Z.ltb_spec 0 (Z.min size remaining)) as [Hb|Hb].
  2: { simpl. split; [done|]. exists (Z.to_nat remaining). split; [|lia]. unfold tok_create. f_equal. lia. }
  set (b := Z.min size remaining) in *. exists left_over, (tok_create (Z.to_nat (remaining - b))), (repeat (tok_create 1) (Z.to_nat b)).
  split_and!.
  - rewrite sum_create. apply reflexive_eq. unfold tok_add, tok_create. simpl. f_equal; lia.
  - assert (∀ n, Forall2 (λ g t, wpg g t (λ r t', tok_le (left_over r) t')) (repeat (create_call Kind rs) n) (repeat (tok_create 1) n)) as H.
    { intros m. induction m as [|m IHm]; simpl; constructor; [by apply create_call_wpg|done]. }
    apply H.
  - intros errs Hl. rewrite repeat_length in Hl. simpl in Hl. rewrite Nat.add_0_r in Hl. pose proof (length_errors errs) as Hle. rewrite sum_left_over.
    destruct (first_error errs) as [e|] eqn:He.
    { simpl. split; [done|]. exists (Z.to_nat (remaining - b) + 0)%nat. split; [|lia]. unfold tok_add. simpl. f_equal. lia. }
    apply no_errors in He. rewrite He in *. simpl length in *.
    assert (tok_create (Z.to_nat (remaining - b)) ⊕ tok_obs 0 = tok_create (Z.to_nat (remaining - b))) as -> by (unfold tok_add, tok_create; simpl; f_equal; lia).
    eapply wpw_mono; [|eapply IH; [|reflexivity|lia]; lia]. intros [succ' err'] md' t' (-> & w & -> & H). simpl in *. split; [done|]. exists w.
    split; [f_equal; lia|lia].
Qed.

Lemma skip_wpw n w (Q : unit → mode → tok → Prop) md :
  (∀ t, t_locks t = [] → Q tt md t) →
  wpw (each (λ _, observe_creation key) (replicate n tt)) md (mkTok n w [] [] [] [] []) Q.
Proof.
  intros HQ. induction n as [|n IH]; simpl; [by apply HQ|]. split; [done|]. exists (mkTok n w [] [] [] [] []). split_and!; [done|exact IH|].
  intros ref. split_and!; [done|done|]. by exists (mkTok n w [] [] [] [] []).
Qed.

(** ** Deleting *)

Lemma delete_call_wpg rs p :
  our_set rs = true → pod_Namespace p = ns → wpg (delete_call rs p) (tok_delete [PodKey p]) (λ _ t, tok_le tok0 t).
Proof.
  intros Hrs Hp. pose proof (RSKey_ours rs Hrs) as Hk. apply our_set_spec in Hrs as (H1 & _). unfold delete_call, DeletePod. simpl.
  exists tok0. rewrite Hk, H1. split_and!; [|done|].
  - unfold PodKey. by rewrite Hp.
  - intros e. destruct (IsNotFound e); simpl; (split; [done|]); exists tok0; (split; [done|]); (split; [done|]); intros ref;
      by exists tok0.
Qed.

Lemma related_wpw rs l t Q md :
  md = MSeen l → (∀ pods, Q pods md t) → wpw (getIndirectlyRelatedPods rs) md t Q.
Proof.
  intros -> HQ. unfold getIndirectlyRelatedPods. apply wpw_bind.
  assert (∀ sets, wpw (pods ← related_loop ∅ [] sets; Done (default [] pods)) (MSeen l) t Q) as Hloop.
  { intros sets. apply wpw_bind.
    assert (∀ seen acc, wpw (related_loop seen acc sets) (MSeen l) t (λ pods md t, wpw (Done (default [] pods)) md t Q)) as H; [|apply H].
    induction sets as [|r sets IH]; intros seen acc; [apply HQ|]. unfold related_loop; fold related_loop.
    destruct (LabelSelectorAsSelector (rs_Selector r)); [|apply HQ]. intros pods _. destruct (unseen seen pods). apply IH. }
  unfold getReplicaSetsWithSameController. destruct (GetControllerOf _); [|exact (Hloop [])]. intros l'. exact (Hloop _).
Qed.

Lemma manageReplicas_wpw pods rs Q :
  our_set rs = true → NoDup (PodKey <$> pods) → Forall (λ p, pod_Namespace p = ns) pods →
  (∀ r md t, t_locks t = [] → Q r md t) →
  wpw (manageReplicas Kind burstReplicas PodDeletionCostGate LogarithmicScaleDown log_rank sort pods rs) (MSeen (list_to_set (PodKey <$> pods))) tok0 Q.
Proof.
  intros Hrs Hnd Hns HQ. pose proof (our_set_spec rs Hrs) as (H1 & H2 & _ & Hlh & _). unfold manageReplicas.
  assert (size (list_to_set (PodKey <$> pods) : gset string) = length pods) as Hsz by (rewrite size_list_to_set by done; apply length_fmap).
  destruct (Z.ltb_spec (Z.of_nat (length pods) - rs_Replicas rs) 0) as [Hd|Hd]; [|destruct (Z.ltb_spec 0 (Z.of_nat (length pods) - rs_Replicas rs)) as [Hd'|Hd']].
  - set (d := Z.min (- (Z.of_nat (length pods) - rs_Replicas rs)) burstReplicas).
    apply wpw_bind. simpl. rewrite (RSKey_ours rs Hrs). split_and!; [done|done|]. eexists _, (Z.to_nat d).
    split_and!; [done|lia|unfold max_int64; lia|rewrite Hsz; lia|]. apply wpw_bind. unfold slowStartBatch.
    eapply wpw_mono; [|apply slow_loop_wpw; [done|lia]]. intros [succ err] md t (-> & w & -> & H0). simpl in *. rewrite Z.sub_0_r in *.
    apply wpw_bind, skip_wpw. intros t Ht. by apply HQ.
  - set (d := Z.min (Z.of_nat (length pods) - rs_Replicas rs) burstReplicas). apply wpw_bind. eapply related_wpw; [done|]. intros related clock.
    destruct (getPodsToDelete PodDeletionCostGate LogarithmicScaleDown log_rank sort pods related (Z.to_nat d) (clock 0%nat)) as [chosen arr] eqn:Hg.
    assert (chosen = take (Z.to_nat d) arr ∧ arr ≡ₚ pods) as [-> Hperm].
    { unfold getPodsToDelete in Hg. injection Hg as <- <-. split; [done|]. case_match; [|done]. rewrite sort_perm.
      unfold getPodsRankedByRelatedPodsOnSameNode. rewrite <- list_fmap_compose. by rewrite list_fmap_id. }
    assert (length (take (Z.to_nat d) arr) = Z.to_nat d) as Hlen by (rewrite length_take, (Permutation_length Hperm); lia).
    assert (NoDup (PodKey <$> arr)) as Hnd' by (by rewrite Hperm).
    assert (NoDup (PodKey <$> take (Z.to_nat d) arr)) as Hnd''.
    { rewrite <- (take_drop (Z.to_nat d) arr), fmap_app in Hnd'. by apply NoDup_app in Hnd' as [? _]. }
    simpl. rewrite (RSKey_ours rs Hrs). split_and!; [done|done|]. eexists. split_and!; [done|exact Hnd''| | | |].
    + intros x (p & -> & Hp)%list_elem_of_fmap. apply elem_of_list_to_set, list_elem_of_fmap_2. rewrite <- Hperm. by apply (subseteq_take (Z.to_nat d) arr).
    + unfold getPodKeys. rewrite Hsz, length_fmap, Hlen. lia.
    + unfold getPodKeys. rewrite length_fmap, Hlen. unfold max_int64. lia.
    + exists (λ _, tok0), tok0, ((λ p, tok_delete [PodKey p]) <$> take (Z.to_nat d) arr). split_and!.
      * apply reflexive_eq. unfold getPodKeys. generalize (take (Z.to_nat d) arr) as ps. intros ps. rewrite tok0_l.
        induction ps as [|p ps IH]; [done|]. change (tok_delete (PodKey p :: (PodKey <$> ps)) = tok_delete [PodKey p] ⊕ tok_sum ((λ p, tok_delete [PodKey p]) <$> ps) ⊕ tok0).
        rewrite tok_assoc_L, <- IH. done.
      * assert (Forall (λ p, pod_Namespace p = ns) (take (Z.to_nat d) arr)) as Hall by (apply Forall_take; by rewrite Hperm).
        clear -Hall Hrs. induction Hall as [|p ps Hp _ IH]; [constructor|]. apply Forall2_cons. split; [by apply delete_call_wpg|exact IH].
      * intros errs _. simpl. apply HQ. clear. induction errs as [|e errs IH]; [done|]. exact IH.
  - simpl. by apply HQ.
Qed.

(** ** Synchronising *)

Lemma finish_sync_wpw rs pods err md t (Q : option api_error → mode → tok → Prop) :
  (∀ r, Q r md t) → wpw (finish_sync key rs pods err) md t Q.
Proof.
  intros HQ. unfold finish_sync, updateReplicaSetStatus. simpl. intros clock. apply wpw_bind.
  assert (∀ u : api_error + ReplicaSet, wpw (match u with
    | inl err => Done (Some err)
    | inr updatedRS =>
        (if bool_decide (err = None) && (0 <? rs_MinReadySeconds updatedRS) && (st_ReadyReplicas (rs_Status updatedRS) =? rs_Replicas updatedRS) &&
            negb (st_AvailableReplicas (rs_Status updatedRS) =? rs_Replicas updatedRS)
         then act (AQueueAddAfter key (int64 (rs_MinReadySeconds updatedRS * second))) else Done tt) ;; Done err
    end) md t Q) as Hlast.
  { intros [e|u]; [apply HQ|]. case_match; apply HQ. }
  case_match; [apply Hlast|]. simpl. intros [e|u]; [|apply Hlast]. simpl. intros [e'|rs']; [apply Hlast|]. simpl. intros [e'|u]; apply Hlast.
Qed.

Lemma claim_ours rs pods :
  our_set rs = true → Forall (λ p, mine p = true ∨ mine p = false ∧ foreign p = true) pods →
  ClaimPods rs selector Kind pods = Done (filter (λ p, mine p = true) pods, None).
Proof.
  intros (_ & _ & Hu & _)%our_set_spec Hall. unfold ClaimPods.
  assert (∀ once acc, claim_loop rs selector Kind once pods acc [] = Done (acc ++ filter (λ p, mine p = true) pods, None)) as H; [|apply H].
  induction Hall as [|p pods Hp _ IH]; intros once acc; simpl; [by rewrite app_nil_r|]. unfold ClaimObject. rewrite filter_cons.
  destruct Hp as [Hm|[Hm Hf]]; rewrite Hm.
  - unfold ReplicaSetSystem.mine in Hm. destruct (GetControllerOf (pod_OwnerReferences p)) as [ref|]; [|by rewrite andb_false_r in Hm].
    apply andb_prop in Hm as [[_ Hs]%andb_prop [_ Hid%String.eqb_eq]%andb_prop]. rewrite Hid, Hu, String.eqb_refl, Hs. simpl. rewrite IH, <- app_assoc. done.
  - unfold ReplicaSetSystem.foreign in Hf. destruct (GetControllerOf (pod_OwnerReferences p)) as [ref|]; [|done]. rewrite Hu, Hf. simpl. by rewrite IH.
Qed.

Lemma syncReplicaSet_wpw (Q : option api_error → mode → tok → Prop) :
  (∀ r md t, t_locks t = [] → Q r md t) →
  wpw (syncReplicaSet Kind burstReplicas PodDeletionCostGate LogarithmicScaleDown log_rank sort key) MNone tok0 Q.
Proof.
  intros HQ. unfold syncReplicaSet. rewrite key_ok. simpl. intros r Hr. unfold ReplicaSetSystem.set_answer in Hr.
  rewrite bool_decide_true in Hr by done. destruct r as [rs|]; [|done]. pose proof (our_set_spec rs Hr) as (H1 & _ & _ & _ & Hsel & _).
  rewrite Hsel, H1.
  assert (∀ b l md, listing l → (b = true → md = MSeen (live_names l)) →
    wpw (r ← ClaimPods rs selector Kind (FilterActivePods l);
         match r with
         | (_, Some err) => Done (Some err)
         | (filteredPods, None) =>
             r ← (if b && bool_decide (rs_DeletionTimestamp rs = None)
                  then manageReplicas Kind burstReplicas PodDeletionCostGate LogarithmicScaleDown log_rank sort filteredPods rs else Done (None, filteredPods));
             let '(manageReplicasErr, filteredPods) := r in finish_sync key rs filteredPods manageReplicasErr
         end) md tok0 Q) as Hrest.
  { intros b l md [Hnd Hall] Hmd. rewrite claim_ours; [|done|].
    2: { unfold FilterActivePods. apply Forall_forall. intros p [_ Hp]%list_elem_of_filter. rewrite Forall_forall in Hall. by apply Hall. }
    simpl. unfold FilterActivePods. rewrite list_filter_filter. set (fp := filter _ l).
    assert (fp = filter (λ p, mine p && IsPodActive p = true) l) as Hfp.
    { apply list_filter_iff. intros p. rewrite andb_true_iff. tauto. }
    destruct b; simpl; [|apply finish_sync_wpw; intros; by apply HQ].
    case_bool_decide; simpl; [|apply finish_sync_wpw; intros; by apply HQ]. rewrite (Hmd eq_refl). unfold ReplicaSetWp.live_names. rewrite <- Hfp.
    apply wpw_bind, manageReplicas_wpw; [done| | |].
    - eapply sublist_NoDup; [exact Hnd|]. apply fmap_sublist, sublist_filter.
    - apply Forall_forall. intros p [_ Hp]%list_elem_of_filter. rewrite Forall_forall in Hall. by destruct (Hall p Hp).
    - intros [err pods] md' t Ht. apply finish_sync_wpw. intros; by apply HQ. }
  split_and!; [done| |].
  - split_and!; [done|done|]. intros l Hl. by apply (Hrest true).
  - intros l Hl. apply (Hrest false); [by apply Hl|done].
Qed.

Lemma worker_wpw :
  wpw (processNextWorkItem Kind burstReplicas PodDeletionCostGate LogarithmicScaleDown log_rank sort key) MNone tok0 (λ _ _ t, t_locks t = []).
Proof.
  unfold processNextWorkItem. apply wpw_bind, syncReplicaSet_wpw. intros r md t Ht. by case_bool_decide.
Qed.

End Programs.
