(* ===== verification/ReplicaSetProps.v ===== *)
(** * The number of replicas

    However the worker, the handlers, the informer, the API server and others
    interleave, a ReplicaSet never has more active pods than it was asked for,
    and never fewer through the controller.  A controller that starts before
    its handlers know the pods can exceed the number. *)

From S2P Require Import Prelude Strconv Labels ApiTypes ActivePods AppsTypes Expectations CtlProgram ReplicaSet SlowStart ReplicaSetSystem PodHistory.
From S2P Require Import ReplicaSetInv ReplicaSetSteps ReplicaSetWp ReplicaSetAdequacy ReplicaSetPrograms.
#[local] Open Scope Z_scope.

Section Props.
Context (Kind : string) (burstReplicas : Z) (PodDeletionCostGate LogarithmicScaleDown : bool) (log_rank : Z → Z)
  (sort : (Pod * Z → Pod * Z → bool) → list (Pod * Z) → list (Pod * Z)).
Context (ns name uid : string) (selector : Selector) (lo hi : Z) (disturb : bool).

Local Abbreviation key := (MetaNamespaceKey ns name).
Local Abbreviation mine := (mine Kind ns name uid selector).
Local Abbreviation foreign := (foreign uid).
Local Abbreviation acts := (acts Kind ns name uid selector).
Local Abbreviation pods_ok := (pods_ok Kind ns name uid selector).
Local Abbreviation ok_event := (ok_event Kind ns name uid selector).
Local Abbreviation inv := (inv Kind ns name uid selector lo hi disturb).
Local Abbreviation wpw := (wpw Kind ns name uid selector lo hi).
Local Abbreviation wph := (wph ns name uid selector lo hi).
Local Abbreviation step_system :=
  (step_system Kind burstReplicas PodDeletionCostGate LogarithmicScaleDown log_rank sort ns name uid selector lo hi disturb).
Local Abbreviation run_system :=
  (run_system Kind burstReplicas PodDeletionCostGate LogarithmicScaleDown log_rank sort ns name uid selector lo hi disturb).

Context (kind_ok : Kind ≠ ""%string) (lo_ok : 0 ≤ lo) (burst_ok : 0 ≤ burstReplicas ≤ 2 ^ 62)
  (key_ok : SplitMetaNamespaceKey key = Some (ns, name)) (sort_perm : ∀ less l, sort less l ≡ₚ l).

#[local] Instance inv_proper' s : Proper ((≡) ==> eq ==> iff) (inv s).
Proof. intros T T' HT md md' <-. split; intros Hi; (eapply inv_drop; [exact Hi|]); by apply tok_equiv_le. Qed.

(** ** The invariant of the system *)

Definition unlocked {A} (_ : A) (t : tok) : Prop := t_locks t = [].

Definition system_inv (c : system) : Prop := ∃ tw th md,
  inv (sy_shared c) (tw ⊕ th) md ∧ small th ∧
  match sy_worker c with Some p => wpw p md tw (λ a _ t, unlocked a t) | None => tw = tok0 end ∧
  match sy_handler c with Some p => wph p th unlocked | None => th = tok0 end.

Lemma drop_all t u : unlocked tt t → tok_le (tok0 ⊕ u) (t ⊕ u).
Proof.
  intros Ht. apply tok_le_add. destruct t as [o n d l g ot go]. unfold unlocked in Ht. simpl in Ht. subst.
  split; simpl; try lia; try done; [apply submseteq_nil_l|set_solver|set_solver|set_solver].
Qed.

Lemma system_start_inv base :
  pods_ok base → Z.of_nat (size (acts base)) ≤ hi → (disturb = false → lo ≤ Z.of_nat (size (acts base))) → system_inv (start_system base).
Proof.
  intros Hb Hhi Hlo. exists tok0, tok0, MNone. split_and!; [|done|done|done].
  split; simpl; try done.
  - apply new_ex_wf.
  - unfold server. simpl. change (apply_all base []) with base. lia.
  - intros Hd. split_and!; [|constructor|by intros k ?%elem_of_nil| |by intros ? ? ?%elem_of_nil].
    + unfold server. simpl. change (apply_all base []) with base. specialize (Hlo Hd). lia.
    + unfold known, server, told. simpl. set_solver.
  - by intros l ?%elem_of_nil.
  - by intros l ?%elem_of_nil.
  - by intros l ?%elem_of_nil.
  - by intros l ?%elem_of_nil.
Qed.

(** The handler of the next event, with what it was told. *)
Lemma told_inv s T md ev :
  inv s T md → (sh_handled s < sh_seen s)%nat → sh_log s !! sh_handled s = Some ev →
  ∃ th, inv (tell s) (th ⊕ T) md ∧ small th ∧ wph (handle Kind ev) th unlocked.
Proof.
  intros Hi Hlt Hl. pose proof (tell_event _ _ _ _ _ _ _ _ _ _ _ _ Hi Hl) as Hok.
  pose proof (prefix_pods _ _ _ _ _ _ _ _ _ _ _ (sh_handled s) Hi) as Hpods. fold (told s) in Hpods.
  pose proof (inv_tell _ _ _ _ _ _ _ _ _ _ _ _ Hi Hlt Hl) as Htell. destruct ev as [p|old cur|p]; simpl in *.
  - destruct Hok as [_ Hp]. exists (if mine p then tok_obs 1 else tok0). split_and!; [done|by destruct (mine p)|].
    apply (addPod_wph _ _ _ _ _ _ _ p _ tok0); [| |by destruct (mine p)|done].
    + intros Hm. rewrite Hm in *. destruct Hp as [_ Ha]. unfold IsPodActive in Ha. apply andb_prop in Ha as [_ ->%bool_decide_eq_true_1]. done.
    + intros Hm. by rewrite Hm in *.
  - destruct Hok as (Hold & Hk & Hm). destruct (Hpods _ _ Hold) as [_ Ho].
    assert (mine old = mine cur ∧ (mine cur = true ∨ foreign cur = true)) as [Hmc Hc] by (destruct (mine old); destruct Hm as [-> ?]; tauto).
    assert (mine old = true ∨ foreign old = true) as Ho' by (destruct Ho as [?|[? ?]]; tauto).
    destruct (decide (mine cur = true ∧ pod_DeletionTimestamp cur ≠ None)) as [[Hm' Hd]|Hn].
    + exists (tok_gone [PodKey old]). split_and!; [|done|].
      * eapply (inv_gone _ _ _ _ _ _ _ _ s T md (PUpdate old cur)); try done. simpl. rewrite acts_insert_other; [set_solver|].
        unfold IsPodActive. rewrite (bool_decide_false (pod_DeletionTimestamp cur = None)) by done. by rewrite !andb_false_r.
      * apply updatePod_wph; try done. intros _ _. simpl. by left.
    + exists tok0. split_and!; [done|done|]. apply updatePod_wph; try done. intros H1 H2. by destruct Hn.
  - destruct (Hpods _ _ Hok) as [_ Ho]. exists (tok_gone [PodKey p]). split_and!; [|done|].
    + eapply (inv_gone _ _ _ _ _ _ _ _ s T md (PDelete p)); try done. simpl. rewrite acts_delete. set_solver.
    + apply deletePod_wph; [intros _; simpl; by left| |done]. destruct Ho as [?|[? ?]]; tauto.
Qed.

Lemma outside_ok s T md ev :
  inv s T md → outside Kind ns name uid selector disturb (server s) ev = true → inv (happens s ev) T md.
Proof.
  intros Hi Ho. destruct ev as [p|old cur|p]; simpl in Ho.
  - apply andb_prop in Ho as [[Hn%bool_decide_eq_true_1 Hf]%andb_prop Hm%negb_true_iff].
    apply inv_happens; [done|simpl; by rewrite Hm|done|]. intros _. simpl. rewrite acts_insert_other by (by rewrite Hm).
    apply acts_None with (Kind := Kind) (ns := ns) (name := name) (uid := uid) (selector := selector) in Hn. set_solver.
  - apply andb_prop in Ho as [[Hold%bool_decide_eq_true_1 Hk%bool_decide_eq_true_1]%andb_prop Hm].
    assert (ok_event (server s) (used s (length (sh_log s))) (PUpdate old cur)) as Hok.
    { simpl. split_and!; [done|done|]. destruct (mine old); [|apply andb_prop in Hm as [Hm%negb_true_iff ?]; done].
      by apply andb_prop in Hm as [[? ?]%andb_prop _]. }
    apply inv_happens; [done|done|done|]. intros Hd. simpl. destruct (mine old) eqn:Hmo.
    + apply andb_prop in Hm as [[Hmc Hi1]%andb_prop Hi2]. rewrite Hd in Hi2. simpl in Hi2.
      destruct (IsPodActive cur) eqn:Hac, (IsPodActive old) eqn:Hao; try done.
      * rewrite acts_insert_active by done. assert (PodKey old ∈ acts (server s)) by (apply elem_of_acts; eauto). set_solver.
      * rewrite acts_insert_other by (by rewrite Hac, andb_false_r).
        assert (PodKey old ∉ acts (server s)) by (rewrite elem_of_acts; intros (p & Hp & _ & Ha); congruence). set_solver.
    + apply andb_prop in Hm as [Hmc%negb_true_iff _]. rewrite acts_insert_other by (by rewrite Hmc).
      assert (PodKey old ∉ acts (server s)) by (rewrite elem_of_acts; intros (p & Hp & Hmp & _); congruence). set_solver.
  - apply andb_prop in Ho as [Hp%bool_decide_eq_true_1 Hm]. apply inv_happens; [done|done|done|]. intros Hd. simpl. rewrite acts_delete.
    rewrite Hd in Hm. simpl in Hm. assert (PodKey p ∉ acts (server s)); [|set_solver].
    rewrite elem_of_acts. intros (q & Hq & Hmq & Ha). assert (q = p) as -> by congruence. by rewrite Hmq, Ha in Hm.
Qed.

Lemma system_step_inv c l c' : system_inv c → step_system c l = Some c' → system_inv c'.
Proof.
  intros (tw & th & md & Hi & Hsm & Hw & Hh). destruct l as [|x| | |lost|x| |ev]; simpl.
  - destruct (sy_worker c); [done|]. intros [= <-]. subst. exists tok0, th, MNone. split_and!; [by eapply inv_mode|done| |done]. by apply worker_wpw.
  - destruct (sy_worker c) as [p|]; [|done]. simpl.
    destruct (step_prog ns name uid selector lo hi (sy_shared c) p x) as [[s' p']|] eqn:Hs; [|done]. intros [= <-].
    destruct (worker_step _ _ _ _ _ _ _ _ _ _ _ _ _ _ _ _ _ Hw Hsm Hi Hs) as (md' & tw' & Hw' & Hi'). by exists tw', th, md'.
  - destruct (sy_worker c) as [p|]; [|done]. destruct p; try done. intros [= <-]. exists tok0, th, md. split_and!; try done.
    eapply inv_drop; [exact Hi|]. by apply drop_all.
  - destruct (Nat.ltb_spec (sh_seen (sy_shared c)) (length (sh_log (sy_shared c)))); [|done]. intros [= <-]. exists tw, th, md.
    split_and!; [by apply inv_see|done|done|done].
  - destruct (sy_handler c); [done|]. subst th. destruct (Nat.ltb_spec (sh_handled (sy_shared c)) (sh_seen (sy_shared c))) as [Hlt|]; [|done].
    destruct (sh_log (sy_shared c) !! sh_handled (sy_shared c)) as [ev|] eqn:Hev; [|done]. intros [= <-].
    destruct (told_inv _ _ _ _ Hi Hlt Hev) as (th & Hi' & Hsm' & Hwh). change (mkShared _ _ _ _ _ _) with (tell (sy_shared c)). destruct lost.
    + exists tw, tok0, md. split_and!; [|done|done|done]. eapply inv_drop; [apply (inv_tell _ _ _ _ _ _ _ _ _ _ _ _ Hi Hlt Hev)|].
      rewrite <- (tok0_l (tw ⊕ tok0)) at 1. apply tok_le_add. destruct (mine_add _ _ _ _ _ ev); split; simpl; try done; lia.
    + exists tw, th, md. split_and!; [|done|done|done]. rewrite tok_swap in Hi'. by rewrite (comm tok_add th tok0), tok0_l in Hi'.
  - destruct (sy_handler c) as [p|]; [|done]. simpl.
    destruct (step_prog ns name uid selector lo hi (sy_shared c) p x) as [[s' p']|] eqn:Hs; [|done]. intros [= <-]. rewrite (comm tok_add) in Hi.
    destruct (handler_step _ _ _ _ _ _ _ _ _ _ _ _ _ _ _ _ _ Hh Hsm Hi Hs) as (th' & Hh' & Hsm' & Hi'). exists tw, th', md.
    split_and!; [by rewrite (comm tok_add)|done|done|done].
  - destruct (sy_handler c) as [p|]; [|done]. destruct p; try done. intros [= <-]. exists tw, tok0, md. split_and!; try done.
    rewrite (comm tok_add) in Hi. rewrite (comm tok_add). eapply inv_drop; [exact Hi|]. by apply drop_all.
  - destruct (outside _ _ _ _ _ _ _ ev) eqn:Ho; [|done]. intros [= <-]. exists tw, th, md. split_and!; [by apply outside_ok|done|done|done].
Qed.

Lemma run_inv c ls c' : system_inv c → run_system c ls = Some c' → system_inv c'.
Proof.
  revert c. induction ls as [|l ls IH]; intros c Hc; simpl; [by intros [= <-]|]. destruct (step_system c l) as [c1|] eqn:Hs; [|done]. simpl.
  apply IH. by eapply system_step_inv.
Qed.

End Props.

(** ** How many pods there are *)

Section Theorems.
Context (Kind : string) (burstReplicas : Z) (PodDeletionCostGate LogarithmicScaleDown : bool) (log_rank : Z → Z)
  (sort : (Pod * Z → Pod * Z → bool) → list (Pod * Z) → list (Pod * Z)).
Context (ns name uid : string) (selector : Selector) (lo hi : Z).

Local Abbreviation acts := (acts Kind ns name uid selector).
Local Abbreviation pods_ok := (pods_ok Kind ns name uid selector).
Local Abbreviation run_system :=
  (run_system Kind burstReplicas PodDeletionCostGate LogarithmicScaleDown log_rank sort ns name uid selector lo hi).

Lemma run_disturbed disturb c ls c' : run_system disturb c ls = Some c' → run_system true c ls = Some c'.
Proof.
  revert c. induction ls as [|l ls IH]; intros c; simpl; [done|].
  destruct (step_system _ _ _ _ _ _ _ _ _ _ _ _ disturb c l) as [c1|] eqn:Hs; [|done]. simpl. intros Hr.
  assert (step_system Kind burstReplicas PodDeletionCostGate LogarithmicScaleDown log_rank sort ns name uid selector lo hi true c l = Some c1) as ->; [|by apply IH].
  destruct l as [|x| | |lost|x| |ev]; try exact Hs. simpl in *. destruct (outside _ _ _ _ _ disturb _ ev) eqn:Ho; [|done].
  assert (outside Kind ns name uid selector true (server (sy_shared c)) ev = true) as ->; [|done].
  destruct ev; simpl in *; [done| |]; apply andb_prop in Ho as [-> Ho]; simpl; [|done].
  destruct (mine _ _ _ _ _ old); [|done]. by apply andb_prop in Ho as [-> _].
Qed.

Context (kind_ok : Kind ≠ ""%string) (lo_ok : 0 ≤ lo) (burst_ok : 0 ≤ burstReplicas ≤ 2 ^ 62)
  (key_ok : SplitMetaNamespaceKey (MetaNamespaceKey ns name) = Some (ns, name)) (sort_perm : ∀ less l, sort less l ≡ₚ l).

(** C5. A ReplicaSet never has more active pods than the largest number of
    replicas it was asked for, however its worker, the handlers, the informer
    and the API server interleave: although the worker counts pods in a stale
    cache, its expectations keep it from creating a pod twice.  Creations may
    fail, pods may be ended or deleted by others, events may be lost in a
    relist.  This holds for a set that is not deleted, whose selector stays the
    same and accepts its template, that has no more active pods than that at the
    start, and of whose key one worker at a time has charge; at most 2^62 pods
    are created in one go, and the sorting of pods loses none; every pod is the set's own, and stays so, or has another controller,
    and no name is used twice; expectations do not expire, a failed request has
    no effect, and when the controller starts its handlers know the pods there
    are. *)
Theorem replicas_not_exceeded disturb base ls c :
  pods_ok base → Z.of_nat (size (acts base)) ≤ hi → run_system disturb (start_system base) ls = Some c →
  Z.of_nat (size (acts (server (sy_shared c)))) ≤ hi.
Proof.
  intros Hb Hhi Hr%run_disturbed. eapply run_inv in Hr; [|done..|by apply system_start_inv]. destruct Hr as (tw & th & md & [] & _). lia.
Qed.

(** C17. In the same system, if nobody else ends or deletes its pods, a ReplicaSet
    whose active pods were at the start no fewer than the smallest and no more
    than the largest number of replicas it is asked for never has fewer than the
    smallest, however everything interleaves: the worker deletes no pod it does
    not have to, although it counts pods in a stale cache that may still show
    pods it has deleted. *)
Theorem replicas_not_short base ls c :
  pods_ok base → Z.of_nat (size (acts base)) ≤ hi → lo ≤ Z.of_nat (size (acts base)) →
  run_system false (start_system base) ls = Some c → lo ≤ Z.of_nat (size (acts (server (sy_shared c)))).
Proof.
  intros Hb Hhi Hlo Hr. eapply run_inv in Hr; [|done..|by apply system_start_inv]. destruct Hr as (tw & th & md & [] & _).
  destruct (v_lo eq_refl). lia.
Qed.

End Theorems.

(** ** A set of two pods *)

Definition web_labels : Labels := {["app" := "web"]}.
Definition web_selector : Selector := SelectorFromValidatedSet web_labels.

Definition web_pod (name uid : string) (created : Z) (owned : bool) : Pod :=
  mkPod name "default" uid "1" web_labels [] [] None "node-1" None None "" "" ∅ [] ∅ [] [] None [] None (Some created)
    (if owned then [mkOwnerReference "ReplicaSet" "web" "rs-1" (Some true)] else []) "Running" None [].

Definition web_set (replicas : Z) : ReplicaSet :=
  mkReplicaSet "default" "web" "rs-1" web_labels ∅ None None 1 [] replicas 0 (Some (mkLabelSelector web_labels [])) (web_pod "" "" 0 false)
    (mkRSStatus 0 0 0 0 0 []).

Definition web_pods (l : list Pod) : gmap string Pod := list_to_map ((λ p, (PodKey p, p)) <$> l).

Definition no_sort (_ : Pod * Z → Pod * Z → bool) (l : list (Pod * Z)) : list (Pod * Z) := l.

Local Abbreviation web_run := (run_system "ReplicaSet" 500 true false Z.log2 no_sort "default" "web" "rs-1" web_selector).
Local Abbreviation web_acts := (acts "ReplicaSet" "default" "web" "rs-1" web_selector).

(** The worker sees [names] and creates [p]. *)
Definition sync_create (replicas : Z) (names : list string) (p : Pod) : list label :=
  [LTake; LWork (ASet (Some (web_set replicas))); LWork (ANow 0); LWork (APods names); LWork (ANow 0); LWork (AGo 0 (ACreated p));
   LWork (AJoin 0); LWork AWait; LWork (AClock (λ _, 0)); LWork (AFetched (inr (web_set replicas))); LWork AVoid; LWork AVoid; LWorkDone].

(** The worker sees [names] and deletes a pod, which becomes [p]. *)
Definition sync_delete (replicas : Z) (names : list string) (p : Pod) : list label :=
  [LTake; LWork (ASet (Some (web_set replicas))); LWork (ANow 0); LWork (APods names); LWork (AClock (λ _, 0)); LWork (ANow 0);
   LWork (AGo 0 (AMarked p)); LWork (AJoin 0); LWork AWait; LWork (AClock (λ _, 0)); LWork (AFetched (inr (web_set replicas))); LWork AVoid;
   LWork AVoid; LWorkDone].

(** The handler learns of a pod that was added. *)
Definition tell_add (replicas : Z) : list label :=
  [LTell false; LHandle (ASet (Some (web_set replicas))); LHandle AVoid; LHandle AVoid; LHandle AVoid; LHandleDone].

Definition p1 : Pod := web_pod "web-1" "u1" 1 true.
Definition p2 : Pod := web_pod "web-2" "u2" 2 true.
Definition p3 : Pod := web_pod "web-3" "u3" 3 true.

Lemma web_pods_ok l : Forall (λ p, mine "ReplicaSet" "default" "web" "rs-1" web_selector p = true) l →
  pods_ok "ReplicaSet" "default" "web" "rs-1" web_selector (web_pods l).
Proof.
  intros Hl k p Hp. apply elem_of_list_to_map_2, list_elem_of_fmap in Hp as (q & [= -> ->] & Hq). split; [done|]. left.
  rewrite Forall_forall in Hl. by apply Hl.
Qed.

(** One pod where two are wanted: one is created. *)
Lemma replicas_not_exceeded_witness :
  ∃ c, web_run 2 2 true (start_system (web_pods [p1])) (sync_create 2 ["default/web-1"] p2) = Some c ∧
    Z.of_nat (size (web_acts (server (sy_shared c)))) ≤ 2.
Proof.
  destruct (web_run 2 2 true (start_system (web_pods [p1])) (sync_create 2 ["default/web-1"] p2)) as [c|] eqn:Hr.
  2: { exfalso. assert (bool_decide (is_Some (web_run 2 2 true (start_system (web_pods [p1])) (sync_create 2 ["default/web-1"] p2))) = true) as H by (vm_compute; reflexivity).
       apply bool_decide_eq_true_1 in H. rewrite Hr in H. by destruct H. }
  exists c. split; [done|].
  refine (replicas_not_exceeded "ReplicaSet" 500 true false Z.log2 no_sort "default" "web" "rs-1" web_selector 2 2 _ _ _ _ _ true
    (web_pods [p1]) _ c _ _ Hr); [done|lia|lia|by vm_compute|done| |by vm_compute].
  apply web_pods_ok. repeat constructor.
Defined.

(** Three pods where two are wanted: one is deleted, and the set is looked at
    again before the cache shows it. *)
Definition p3_deleted : Pod :=
  mkPod "web-3" "default" "u3" "2" web_labels [] [] None "node-1" None None "" "" ∅ [] ∅ [] [] (Some 5) [] None (Some 3)
    [mkOwnerReference "ReplicaSet" "web" "rs-1" (Some true)] "Running" None [].

Definition look_again : list label :=
  [LTake; LWork (ASet (Some (web_set 2))); LWork (ANow 0); LWork (APods ["default/web-1"; "default/web-2"; "default/web-3"]);
   LWork (AClock (λ _, 0)); LWork (AFetched (inr (web_set 2))); LWork AVoid; LWork AVoid; LWorkDone].

Lemma replicas_not_short_witness :
  let labels := sync_delete 2 ["default/web-3"; "default/web-1"; "default/web-2"] p3_deleted ++ look_again in
  ∃ c, web_run 2 3 false (start_system (web_pods [p1; p2; p3])) labels = Some c ∧ 2 ≤ Z.of_nat (size (web_acts (server (sy_shared c)))).
Proof.
  intros labels. destruct (web_run 2 3 false (start_system (web_pods [p1; p2; p3])) labels) as [c|] eqn:Hr.
  2: { exfalso. assert (bool_decide (is_Some (web_run 2 3 false (start_system (web_pods [p1; p2; p3])) labels)) = true) as H by (vm_compute; reflexivity).
       apply bool_decide_eq_true_1 in H. rewrite Hr in H. by destruct H. }
  exists c. split; [done|].
  refine (replicas_not_short "ReplicaSet" 500 true false Z.log2 no_sort "default" "web" "rs-1" web_selector 2 3 _ _ _ _ _
    (web_pods [p1; p2; p3]) _ c _ _ _ Hr); [done|lia|lia|by vm_compute|done| |by vm_compute|by vm_compute].
  apply web_pods_ok. repeat constructor.
Defined.

(** A controller whose caches are filled but whose handlers were not told of
    the pods yet takes the news of an old pod for that of the pod it has just
    created, and creates another: three pods where two are wanted. *)
Lemma start_exceeds :
  let late := mkSystem (mkShared ∅ [PAdd p1] 1 0 NewUIDTrackingControllerExpectations false) None None in
  (λ c, size (web_acts (server (sy_shared c)))) <$>
    web_run 2 2 false late (sync_create 2 ["default/web-1"] p2 ++ tell_add 2 ++ sync_create 2 ["default/web-1"] p3) = Some 3%nat.
Proof. vm_compute. reflexivity. Qed.
