(* ===== verification/Deployment.v ===== *)
(** * The Deployment controller: deployments and their status
    ([pkg/controller/deployment/progress.go], [util/deployment_util.go],
    [apimachinery/pkg/util/intstr])

    What the controller computes: numbers of pods, annotations, conditions
    and the status of a deployment.  Sums of [int32] wrap.  Quotients of
    [int32] in floating point, rounded, are those of exact fractions, since
    the error of the quotient is smaller than its distance to a half; so are
    percentages, which validation keeps at most 100.  The clock is read once
    for a status. *)

From S2P Require Import Prelude Strconv Labels ApiTypes ActivePods AppsTypes.
#[local] Open Scope Z_scope.

(** ** [intstr] *)

Inductive IntOrString := IntVal (i : Z) | StrVal (s : string).

(** The value and whether it is a percentage; [None] for an error. *)
Definition getIntOrPercentValueSafely (intOrStr : IntOrString) : option (Z * bool) :=
  match intOrStr with
  | IntVal i => Some (i, false)
  | StrVal s =>
      match reverse (txt s) with
      | "%"%char :: r => v ← ParseInt (reverse r); Some (v, true)
      | _ => None
      end
  end.

Definition GetScaledValueFromIntOrPercent (intOrPercent : option IntOrString) (total : Z) (roundUp : bool) : option Z :=
  intOrPercent ← intOrPercent;
  '(value, isPercent) ← getIntOrPercentValueSafely intOrPercent;
  Some (if isPercent : bool then if roundUp then - (- (value * total) / 100) else value * total / 100 else value).

Definition ValueOrDefault (intOrPercent : option IntOrString) (defaultValue : IntOrString) : option IntOrString :=
  Some (default defaultValue intOrPercent).

(** ** Deployments *)

Record DeploymentCondition := mkDCondition {
  dc_Type : string; dc_Status : string; dc_LastUpdateTime : option Z; dc_LastTransitionTime : option Z; dc_Reason : string; dc_Message : string;
}.

Record DeploymentStatus := mkDStatus {
  ds_ObservedGeneration : Z; ds_Replicas : Z; ds_UpdatedReplicas : Z; ds_ReadyReplicas : Z; ds_AvailableReplicas : Z;
  ds_UnavailableReplicas : Z; ds_Conditions : list DeploymentCondition; ds_CollisionCount : option Z;
}.

#[export] Instance DeploymentCondition_eq_dec : EqDecision DeploymentCondition.
Proof. solve_decision. Defined.
#[export] Instance DeploymentStatus_eq_dec : EqDecision DeploymentStatus.
Proof. solve_decision. Defined.

(** The replicas and the parameters of a rolling update are set by
    defaulting. *)
Record Deployment := mkDeployment {
  d_Namespace : string;
  d_Name : string;
  d_UID : string;
  d_Annotations : gmap string string;
  d_DeletionTimestamp : option Z;
  d_Generation : Z;
  d_Replicas : Z;
  d_Selector : LabelSelector;
  d_Template : Pod;
  d_MinReadySeconds : Z;
  d_StrategyType : string;
  d_MaxSurge : option IntOrString;
  d_MaxUnavailable : option IntOrString;
  d_Paused : bool;
  d_RevisionHistoryLimit : option Z;
  d_ProgressDeadlineSeconds : option Z;
  d_Status : DeploymentStatus;
}.

Definition RollingUpdateDeploymentStrategyType : string := "RollingUpdate".
Definition RecreateDeploymentStrategyType : string := "Recreate".
Definition DesiredReplicasAnnotation : string := "deployment.kubernetes.io/desired-replicas".
Definition MaxReplicasAnnotation : string := "deployment.kubernetes.io/max-replicas".
Definition RevisionAnnotation : string := "deployment.kubernetes.io/revision".

Definition MaxInt32 : Z := 2147483647.

Definition HasProgressDeadline (d : Deployment) : bool :=
  match d_ProgressDeadlineSeconds d with Some s => negb (s =? MaxInt32) | None => false end.

Definition HasRevisionHistoryLimit (d : Deployment) : bool :=
  match d_RevisionHistoryLimit d with Some l => negb (l =? MaxInt32) | None => false end.

(** ** Numbers of pods *)

Definition IsRollingUpdate (d : Deployment) : bool := (d_StrategyType d =? RollingUpdateDeploymentStrategyType)%string.

(** [None] for an error. *)
Definition ResolveFenceposts (maxSurge maxUnavailable : option IntOrString) (desired : Z) : option (Z * Z) :=
  surge ← GetScaledValueFromIntOrPercent (ValueOrDefault maxSurge (IntVal 0)) desired true;
  unavailable ← GetScaledValueFromIntOrPercent (ValueOrDefault maxUnavailable (IntVal 0)) desired false;
  let unavailable := if (surge =? 0) && (unavailable =? 0) then 1 else unavailable in
  Some (int32 surge, int32 unavailable).

Definition MaxUnavailable (d : Deployment) : Z :=
  if negb (IsRollingUpdate d) || (d_Replicas d =? 0) then 0
  else
    let '(_, maxUnavailable) := default (0, 0) (ResolveFenceposts (d_MaxSurge d) (d_MaxUnavailable d) (d_Replicas d)) in
    if d_Replicas d <? maxUnavailable then d_Replicas d else maxUnavailable.

Definition MinAvailable (d : Deployment) : Z :=
  if negb (IsRollingUpdate d) then 0 else int32 (d_Replicas d - MaxUnavailable d).

Definition MaxSurge (d : Deployment) : Z :=
  if negb (IsRollingUpdate d) then 0
  else let '(maxSurge, _) := default (0, 0) (ResolveFenceposts (d_MaxSurge d) (d_MaxUnavailable d) (d_Replicas d)) in maxSurge.

Definition sum32 (f : ReplicaSet → Z) (l : list ReplicaSet) : Z := foldl (λ n rs, int32 (n + f rs)) 0 l.

Definition AvailableReplicas (rs : ReplicaSet) : Z := st_AvailableReplicas (rs_Status rs).

(** Nil sets are left out before. *)
Definition GetReplicaCountForReplicaSets (l : list ReplicaSet) : Z := sum32 rs_Replicas l.
Definition GetActualReplicaCountForReplicaSets (l : list ReplicaSet) : Z := sum32 (λ rs, st_Replicas (rs_Status rs)) l.
Definition GetReadyReplicaCountForReplicaSets (l : list ReplicaSet) : Z := sum32 (λ rs, st_ReadyReplicas (rs_Status rs)) l.
Definition GetAvailableReplicaCountForReplicaSets (l : list ReplicaSet) : Z := sum32 AvailableReplicas l.

Definition FilterActiveReplicaSets (l : list ReplicaSet) : list ReplicaSet := filter (λ rs, 0 < rs_Replicas rs) l.

(** [None] for an error. *)
Definition NewRSNewReplicas (d : Deployment) (allRSs : list ReplicaSet) (newRS : ReplicaSet) : option Z :=
  if (d_StrategyType d =? RollingUpdateDeploymentStrategyType)%string then
    maxSurge ← GetScaledValueFromIntOrPercent (d_MaxSurge d) (d_Replicas d) true;
    let currentPodCount := GetReplicaCountForReplicaSets allRSs in
    let maxTotalPods := int32 (d_Replicas d + int32 maxSurge) in
    if maxTotalPods <=? currentPodCount then Some (rs_Replicas newRS)
    else
      let scaleUpCount := int32 (maxTotalPods - currentPodCount) in
      let scaleUpCount := int32 (Z.min scaleUpCount (int32 (d_Replicas d - rs_Replicas newRS))) in
      Some (int32 (rs_Replicas newRS + scaleUpCount))
  else if (d_StrategyType d =? RecreateDeploymentStrategyType)%string then Some (d_Replicas d)
  else None.

(** ** Annotations *)

Definition Sprint (n : Z) : string := of_text (print_Z n).

Definition getIntFromAnnotation (rs : ReplicaSet) (annotationKey : string) : option Z :=
  annotationValue ← rs_Annotations rs !! annotationKey;
  intValue ← ParseInt (txt annotationValue);
  Some (int32 intValue).

Definition GetDesiredReplicasAnnotation (rs : ReplicaSet) : option Z := getIntFromAnnotation rs DesiredReplicasAnnotation.
Definition getMaxReplicasAnnotation (rs : ReplicaSet) : option Z := getIntFromAnnotation rs MaxReplicasAnnotation.

Definition with_Scale (rs : ReplicaSet) (replicas : Z) (annotations : gmap string string) : ReplicaSet :=
  mkReplicaSet (rs_Namespace rs) (rs_Name rs) (rs_UID rs) (rs_Labels rs) annotations (rs_CreationTimestamp rs) (rs_DeletionTimestamp rs)
    (rs_Generation rs) (rs_OwnerReferences rs) replicas (rs_MinReadySeconds rs) (rs_Selector rs) (rs_Template rs) (rs_Status rs).

Definition SetReplicasAnnotations (annotations : gmap string string) (desiredReplicas maxReplicas : Z) : gmap string string :=
  <[MaxReplicasAnnotation := Sprint maxReplicas]> (<[DesiredReplicasAnnotation := Sprint desiredReplicas]> annotations).

Definition ReplicasAnnotationsNeedUpdate (rs : ReplicaSet) (desiredReplicas maxReplicas : Z) : bool :=
  negb (bool_decide (rs_Annotations rs !! DesiredReplicasAnnotation = Some (Sprint desiredReplicas)) &&
        bool_decide (rs_Annotations rs !! MaxReplicasAnnotation = Some (Sprint maxReplicas))).

Definition Revision (rs : ReplicaSet) : option Z :=
  match rs_Annotations rs !! RevisionAnnotation with Some v => ParseInt (txt v) | None => Some 0 end.

Definition IsSaturated (d : Deployment) (rs : option ReplicaSet) : bool :=
  match rs with
  | None => false
  | Some rs =>
      match ParseInt (txt (default ""%string (rs_Annotations rs !! DesiredReplicasAnnotation))) with
      | None => false
      | Some desired => (rs_Replicas rs =? d_Replicas d) && (int32 desired =? d_Replicas d) && (AvailableReplicas rs =? d_Replicas d)
      end
  end.

(** ** Orders *)

(** Zero times are before all others. *)
Definition time_Before (t1 t2 : option Z) : bool :=
  match t1, t2 with Some t1, Some t2 => t1 <? t2 | None, Some _ => true | _, None => false end.

Definition ByCreationTimestamp_Less (a b : ReplicaSet) : bool :=
  if bool_decide (rs_CreationTimestamp a = rs_CreationTimestamp b) then String.ltb (rs_Name a) (rs_Name b)
  else time_Before (rs_CreationTimestamp a) (rs_CreationTimestamp b).

Definition BySizeOlder_Less (a b : ReplicaSet) : bool :=
  if rs_Replicas a =? rs_Replicas b then ByCreationTimestamp_Less a b else rs_Replicas b <? rs_Replicas a.

Definition BySizeNewer_Less (a b : ReplicaSet) : bool :=
  if rs_Replicas a =? rs_Replicas b then ByCreationTimestamp_Less b a else rs_Replicas b <? rs_Replicas a.

Definition ByRevision_Less (a b : ReplicaSet) : bool :=
  match Revision a, Revision b with
  | Some r1, Some r2 => if r1 =? r2 then ByCreationTimestamp_Less a b else r1 <? r2
  | _, _ => ByCreationTimestamp_Less a b
  end.

(** ** Conditions *)

(** [%q] of a name of an object *)
Definition quoted (name : string) : string := String "034" (name ++ String "034" "").

Definition NewDeploymentCondition (condType status reason message : string) (now : Z) : DeploymentCondition :=
  mkDCondition condType status (Some now) (Some now) reason message.

Definition GetDeploymentCondition (conditions : list DeploymentCondition) (condType : string) : option DeploymentCondition :=
  snd <$> list_find (λ c, dc_Type c = condType) conditions.

Definition RemoveDeploymentCondition (conditions : list DeploymentCondition) (condType : string) : list DeploymentCondition :=
  filter (λ c, dc_Type c ≠ condType) conditions.

Definition SetDeploymentCondition (conditions : list DeploymentCondition) (condition : DeploymentCondition) : list DeploymentCondition :=
  let set condition := RemoveDeploymentCondition conditions (dc_Type condition) ++ [condition] in
  match GetDeploymentCondition conditions (dc_Type condition) with
  | Some currentCond =>
      if (dc_Status currentCond =? dc_Status condition)%string then
        if (dc_Reason currentCond =? dc_Reason condition)%string then conditions
        else set (mkDCondition (dc_Type condition) (dc_Status condition) (dc_LastUpdateTime condition) (dc_LastTransitionTime currentCond)
                    (dc_Reason condition) (dc_Message condition))
      else set condition
  | None => set condition
  end.

Definition ReplicaSetToDeploymentCondition (cond : ReplicaSetCondition) : DeploymentCondition :=
  mkDCondition (rc_Type cond) (rc_Status cond) (rc_LastTransitionTime cond) (rc_LastTransitionTime cond) (rc_Reason cond) (rc_Message cond).

(** ** Status *)

Definition with_DConditions (s : DeploymentStatus) (conditions : list DeploymentCondition) : DeploymentStatus :=
  mkDStatus (ds_ObservedGeneration s) (ds_Replicas s) (ds_UpdatedReplicas s) (ds_ReadyReplicas s) (ds_AvailableReplicas s)
    (ds_UnavailableReplicas s) conditions (ds_CollisionCount s).

Definition calculateDeploymentStatus (allRSs : list ReplicaSet) (newRS : option ReplicaSet) (d : Deployment) (now : Z) : DeploymentStatus :=
  let availableReplicas := GetAvailableReplicaCountForReplicaSets allRSs in
  let totalReplicas := GetReplicaCountForReplicaSets allRSs in
  let unavailableReplicas := Z.max 0 (int32 (totalReplicas - availableReplicas)) in
  let conditions :=
    SetDeploymentCondition (ds_Conditions (d_Status d))
      (if int32 (d_Replicas d - MaxUnavailable d) <=? availableReplicas
       then NewDeploymentCondition "Available" "True" "MinimumReplicasAvailable" "Deployment has minimum availability." now
       else NewDeploymentCondition "Available" "False" "MinimumReplicasUnavailable" "Deployment does not have minimum availability." now) in
  mkDStatus (d_Generation d) (GetActualReplicaCountForReplicaSets allRSs)
    (GetActualReplicaCountForReplicaSets (match newRS with Some rs => [rs] | None => [] end)) (GetReadyReplicaCountForReplicaSets allRSs) availableReplicas unavailableReplicas
    conditions (ds_CollisionCount (d_Status d)).

Definition DeploymentComplete (d : Deployment) (newStatus : DeploymentStatus) : bool :=
  (ds_UpdatedReplicas newStatus =? d_Replicas d) && (ds_Replicas newStatus =? d_Replicas d) &&
  (ds_AvailableReplicas newStatus =? d_Replicas d) && (d_Generation d <=? ds_ObservedGeneration newStatus).

Definition DeploymentProgressing (d : Deployment) (newStatus : DeploymentStatus) : bool :=
  let oldStatus := d_Status d in
  let oldStatusOldReplicas := int32 (ds_Replicas oldStatus - ds_UpdatedReplicas oldStatus) in
  let newStatusOldReplicas := int32 (ds_Replicas newStatus - ds_UpdatedReplicas newStatus) in
  (ds_UpdatedReplicas oldStatus <? ds_UpdatedReplicas newStatus) || (newStatusOldReplicas <? oldStatusOldReplicas) ||
  (ds_ReadyReplicas oldStatus <? ds_ReadyReplicas newStatus) || (ds_AvailableReplicas oldStatus <? ds_AvailableReplicas newStatus).

Definition DeploymentTimedOut (d : Deployment) (newStatus : DeploymentStatus) (now : Z) : bool :=
  if negb (HasProgressDeadline d) then false
  else match GetDeploymentCondition (ds_Conditions newStatus) "Progressing" with
       | None => false
       | Some condition =>
           if (dc_Reason condition =? "NewReplicaSetAvailable")%string then false
           else if (dc_Reason condition =? "ProgressDeadlineExceeded")%string then true
           else match dc_LastUpdateTime condition with
                | Some from => from + int64 (default 0 (d_ProgressDeadlineSeconds d) * second) <? now
                | None => true
                end
       end.

Definition getReplicaFailures (allRSs : list ReplicaSet) (newRS : option ReplicaSet) : list DeploymentCondition :=
  let failures rs := ReplicaSetToDeploymentCondition <$> filter (λ c, rc_Type c = ReplicaSetReplicaFailure) (st_Conditions (rs_Status rs)) in
  match default [] (failures <$> newRS) with
  | [] => allRSs ≫= failures
  | conditions => conditions
  end.

(** [syncRolloutStatus] up to the request: the new status. *)
Definition rollout_status (allRSs : list ReplicaSet) (newRS : option ReplicaSet) (d : Deployment) (now : Z) : DeploymentStatus :=
  let newStatus := calculateDeploymentStatus allRSs newRS d now in
  let newStatus :=
    if HasProgressDeadline d then newStatus else with_DConditions newStatus (RemoveDeploymentCondition (ds_Conditions newStatus) "Progressing") in
  let currentCond := GetDeploymentCondition (ds_Conditions (d_Status d)) "Progressing" in
  let isCompleteDeployment :=
    (ds_Replicas newStatus =? ds_UpdatedReplicas newStatus) &&
    match currentCond with Some c => (dc_Reason c =? "NewReplicaSetAvailable")%string | None => false end in
  let msg suffix :=
    match newRS with Some rs => ("ReplicaSet " ++ quoted (rs_Name rs) ++ suffix)%string | None => ("Deployment " ++ quoted (d_Name d) ++ suffix)%string end in
  let newStatus :=
    if HasProgressDeadline d && negb isCompleteDeployment then
      if DeploymentComplete d newStatus then
        with_DConditions newStatus (SetDeploymentCondition (ds_Conditions newStatus)
          (NewDeploymentCondition "Progressing" "True" "NewReplicaSetAvailable" (msg " has successfully progressed."%string) now))
      else if DeploymentProgressing d newStatus then
        let condition := NewDeploymentCondition "Progressing" "True" "ReplicaSetUpdated" (msg " is progressing."%string) now in
        match currentCond with
        | Some c =>
            let condition :=
              if (dc_Status c =? "True")%string then
                mkDCondition (dc_Type condition) (dc_Status condition) (dc_LastUpdateTime condition) (dc_LastTransitionTime c) (dc_Reason condition) (dc_Message condition)
              else condition in
            with_DConditions newStatus (SetDeploymentCondition (RemoveDeploymentCondition (ds_Conditions newStatus) "Progressing") condition)
        | None => with_DConditions newStatus (SetDeploymentCondition (ds_Conditions newStatus) condition)
        end
      else if DeploymentTimedOut d newStatus now then
        with_DConditions newStatus (SetDeploymentCondition (ds_Conditions newStatus)
          (NewDeploymentCondition "Progressing" "False" "ProgressDeadlineExceeded" (msg " has timed out progressing."%string) now))
      else newStatus
    else newStatus in
  match getReplicaFailures allRSs newRS with
  | c :: _ => with_DConditions newStatus (SetDeploymentCondition (ds_Conditions newStatus) c)
  | [] => with_DConditions newStatus (RemoveDeploymentCondition (ds_Conditions newStatus) "ReplicaFailure")
  end.

(** [requeueStuckDeployment]: after how long to look again, if at all. *)
Definition requeueStuckDeployment (d : Deployment) (newStatus : DeploymentStatus) (now : Z) : option Z :=
  match GetDeploymentCondition (ds_Conditions (d_Status d)) "Progressing" with
  | None => None
  | Some currentCond =>
      if negb (HasProgressDeadline d) then None
      else if DeploymentComplete d newStatus || (dc_Reason currentCond =? "ProgressDeadlineExceeded")%string then None
      else
        match dc_LastUpdateTime currentCond with
        | Some updated =>
            let after := updated + int64 (default 0 (d_ProgressDeadlineSeconds d) * second) - now in
            if after <? second then Some 0 else Some (after + second)
        | None => Some 0
        end
  end.

(** ** Proportions *)

(** [integer.RoundToInt32] of [float64(a) / float64(b)] *)
Definition round_quotient (a b : Z) : Z :=
  let n := Z.abs a in
  let m := Z.abs b in
  Z.sgn a * Z.sgn b * ((2 * n + m) / (2 * m)).

Section Proportion.
(** What the conversion of an infinite quotient gives. *)
Context (infinite : Z).

Definition getReplicaSetFraction (rs : ReplicaSet) (d : Deployment) : Z :=
  if d_Replicas d =? 0 then int32 (- rs_Replicas rs)
  else
    let deploymentReplicas := int32 (d_Replicas d + MaxSurge d) in
    let annotatedReplicas := default (ds_Replicas (d_Status d)) (getMaxReplicasAnnotation rs) in
    let newRSsize := int32 (rs_Replicas rs * deploymentReplicas) in
    int32 ((if annotatedReplicas =? 0 then infinite else int32 (round_quotient newRSsize annotatedReplicas)) - rs_Replicas rs).

Definition GetProportion (rs : ReplicaSet) (d : Deployment) (deploymentReplicasToAdd deploymentReplicasAdded : Z) : Z :=
  if (rs_Replicas rs =? 0) || (deploymentReplicasToAdd =? 0) || (deploymentReplicasToAdd =? deploymentReplicasAdded) then 0
  else
    let rsFraction := getReplicaSetFraction rs d in
    let allowed := int32 (deploymentReplicasToAdd - deploymentReplicasAdded) in
    if 0 <? deploymentReplicasToAdd then Z.min rsFraction allowed else Z.max rsFraction allowed.

(** The sizes of the first loop of [scale], in order, and their sum. *)
Fixpoint proportions (d : Deployment) (toAdd added : Z) (l : list ReplicaSet) : list Z * Z :=
  match l with
  | [] => ([], added)
  | rs :: l =>
      if toAdd =? 0 then let '(sizes, added) := proportions d toAdd added l in (rs_Replicas rs :: sizes, added)
      else
        let proportion := GetProportion rs d toAdd added in
        let '(sizes, added) := proportions d toAdd (int32 (added + proportion)) l in
        (int32 (rs_Replicas rs + proportion) :: sizes, added)
  end.

(** With what is left over added to the first. *)
Definition scaled_sizes (d : Deployment) (toAdd : Z) (l : list ReplicaSet) : list Z :=
  let '(sizes, added) := proportions d toAdd 0 l in
  match sizes with
  | size :: sizes =>
      (if toAdd =? 0 then size else let size := int32 (size + int32 (toAdd - added)) in if size <? 0 then 0 else size) :: sizes
  | [] => []
  end.

End Proportion.
