(* ===== verification/Rollout.v ===== *)
(** * The Deployment controller: synchronisation
    ([pkg/controller/deployment/sync.go], [rolling.go], [recreate.go],
    [rollback.go], [util/deployment_util.go], [pkg/util/labels])

    What one synchronisation does for a deployment, given the sets it owns.
    The state has what the server keeps of them, the controller's copy of the
    deployment, which it changes in place, and what was written and queued;
    a request fails when [answers] says so, by its number.  Success of an
    update means that the set it was based on was current (resource version),
    so the answer is what was sent.  Arguments: [sort.Sort] by the order it
    is given, the hash of a template, the equality of templates
    ([apiequality.Semantic.DeepEqual]), what a created set gets from the
    server, the lister.  Sets of one namespace have different names. *)

From S2P Require Import Prelude Strconv Labels ApiTypes ActivePods AppsTypes Deployment.
#[local] Open Scope Z_scope.

Inductive dwrite := WStatus (d : Deployment) | WSpec (d : Deployment).

Record dworld := mkDWorld {
  dw_calls : nat; dw_sets : list ReplicaSet; dw_d : Deployment; dw_writes : list dwrite; dw_requeues : list Z;
}.

(** ** Requests *)

Definition edm (A : Type) : Type := dworld → (api_error + A) * dworld.

#[export] Instance edm_ret : MRet edm := λ A a w, (inr a, w).
#[export] Instance edm_bind : MBind edm := λ A B f m w,
  let '(r, w) := m w in match r with inl e => (inl e, w) | inr a => f a w end.

Definition fail {A} (e : api_error) : edm A := λ w, (inl e, w).
Definition attempt {A} (m : edm A) : edm (api_error + A) := λ w, let '(r, w) := m w in (inr r, w).
Definition modify (f : dworld → dworld) : edm unit := λ w, (inr tt, f w).
Definition get_d : edm Deployment := λ w, (inr (dw_d w), w).

Definition with_sets (f : list ReplicaSet → list ReplicaSet) (w : dworld) : dworld :=
  mkDWorld (dw_calls w) (f (dw_sets w)) (dw_d w) (dw_writes w) (dw_requeues w).
Definition with_d (d : Deployment) (w : dworld) : dworld :=
  mkDWorld (dw_calls w) (dw_sets w) d (dw_writes w) (dw_requeues w).
Definition with_write (x : dwrite) (w : dworld) : dworld :=
  mkDWorld (dw_calls w) (dw_sets w) (dw_d w) (dw_writes w ++ [x]) (dw_requeues w).
Definition with_requeue (after : Z) (w : dworld) : dworld :=
  mkDWorld (dw_calls w) (dw_sets w) (dw_d w) (dw_writes w) (dw_requeues w ++ [after]).

(** ** Deployments *)

Definition with_DStatus (d : Deployment) (status : DeploymentStatus) : Deployment :=
  mkDeployment (d_Namespace d) (d_Name d) (d_UID d) (d_Annotations d) (d_DeletionTimestamp d) (d_Generation d) (d_Replicas d) (d_Selector d)
    (d_Template d) (d_MinReadySeconds d) (d_StrategyType d) (d_MaxSurge d) (d_MaxUnavailable d) (d_Paused d) (d_RevisionHistoryLimit d)
    (d_ProgressDeadlineSeconds d) status.
Definition with_DMeta (d : Deployment) (annotations : gmap string string) (template : Pod) : Deployment :=
  mkDeployment (d_Namespace d) (d_Name d) (d_UID d) annotations (d_DeletionTimestamp d) (d_Generation d) (d_Replicas d) (d_Selector d)
    template (d_MinReadySeconds d) (d_StrategyType d) (d_MaxSurge d) (d_MaxUnavailable d) (d_Paused d) (d_RevisionHistoryLimit d)
    (d_ProgressDeadlineSeconds d) (d_Status d).

Definition with_DCondition (d : Deployment) (condition : DeploymentCondition) : Deployment :=
  with_DStatus d (with_DConditions (d_Status d) (SetDeploymentCondition (ds_Conditions (d_Status d)) condition)).

(** ** Revisions and annotations *)

Definition DefaultDeploymentUniqueLabelKey : string := "pod-template-hash".
Definition RevisionHistoryAnnotation : string := "deployment.kubernetes.io/revision-history".
Definition DeprecatedRollbackTo : string := "deprecated.deployment.rollback.to".
Definition maxRevHistoryLengthInChars : Z := 2000.

Definition MaxRevision (allRSs : list ReplicaSet) : Z :=
  foldl (λ max rs, match Revision rs with Some v => if max <? v then v else max | None => max end) 0 allRSs.

Definition LastRevision (allRSs : list ReplicaSet) : Z :=
  snd (foldl (λ '(max, secMax) rs,
    match Revision rs with
    | Some v => if max <=? v then (v, max) else if secMax <? v then (max, v) else (max, secMax)
    | None => (max, secMax)
    end) (0, 0) allRSs).

Definition SetDeploymentRevision (d : Deployment) (revision : string) : Deployment * bool :=
  if (default ""%string (d_Annotations d !! RevisionAnnotation) =? revision)%string then (d, false)
  else (with_DMeta d (<[RevisionAnnotation := revision]> (d_Annotations d)) (d_Template d), true).

Definition annotationsToSkip : gset string :=
  list_to_set ["kubectl.kubernetes.io/last-applied-configuration"; RevisionAnnotation; RevisionHistoryAnnotation;
    DesiredReplicasAnnotation; MaxReplicasAnnotation; DeprecatedRollbackTo].

(** [for k, v := range deployment.Annotations] writes different keys. *)
Definition copyDeploymentAnnotationsToReplicaSet (d : Deployment) (annotations : gmap string string) : gmap string string * bool :=
  let new := filter (λ kv, kv.1 ∉ annotationsToSkip) (d_Annotations d) ∪ annotations in
  (new, negb (bool_decide (new = annotations))).

Fixpoint trim_revisions (totalLen : Z) (oldRevisions : list text) : Z * list text :=
  match oldRevisions with
  | r :: rest =>
      if maxRevHistoryLengthInChars <? totalLen then trim_revisions (totalLen - Z.of_nat (length r) - 1) rest else (totalLen, oldRevisions)
  | [] => (totalLen, [])
  end.

Definition push_revision (history oldRevision : string) : string :=
  let oldRevisions := split_on ","%char (txt history) in
  if bool_decide (head oldRevisions = Some []) then oldRevision
  else
    let '(totalLen, kept) := trim_revisions (Z.of_nat (String.length history) + Z.of_nat (String.length oldRevision) + 1) oldRevisions in
    if totalLen <=? maxRevHistoryLengthInChars then of_text (join (txt ",") (kept ++ [txt oldRevision])) else history.

(** The annotations of the set and whether the update is wanted. *)
Definition SetNewReplicaSetAnnotations (d : Deployment) (annotations : gmap string string) (newRevision : string) (exist : bool)
    : gmap string string * bool :=
  let '(annotations, annotationChanged) := copyDeploymentAnnotationsToReplicaSet d annotations in
  let oldRevision := default ""%string (annotations !! RevisionAnnotation) in
  let ok := bool_decide (is_Some (annotations !! RevisionAnnotation)) in
  match ParseInt (txt oldRevision), bool_decide (oldRevision = ""%string), ParseInt (txt newRevision) with
  | None, false, _ => (annotations, false)
  | _, _, None => (annotations, false)
  | oldRevisionInt, _, Some newRevisionInt =>
      let older := default 0 oldRevisionInt <? newRevisionInt in
      let '(annotations, annotationChanged) :=
        if older then (<[RevisionAnnotation := newRevision]> annotations, true) else (annotations, annotationChanged) in
      let annotations :=
        if ok && older then
          <[RevisionHistoryAnnotation := push_revision (default ""%string (annotations !! RevisionHistoryAnnotation)) oldRevision]> annotations
        else annotations in
      if exist then (annotations, annotationChanged)
      else (SetReplicasAnnotations annotations (d_Replicas d) (int32 (d_Replicas d + MaxSurge d)),
            annotationChanged || negb (bool_decide (SetReplicasAnnotations annotations (d_Replicas d) (int32 (d_Replicas d + MaxSurge d)) = annotations)))
  end.

Definition with_Meta (rs : ReplicaSet) (annotations : gmap string string) (minReadySeconds : Z) : ReplicaSet :=
  mkReplicaSet (rs_Namespace rs) (rs_Name rs) (rs_UID rs) (rs_Labels rs) annotations (rs_CreationTimestamp rs) (rs_DeletionTimestamp rs)
    (rs_Generation rs) (rs_OwnerReferences rs) (rs_Replicas rs) minReadySeconds (rs_Selector rs) (rs_Template rs) (rs_Status rs).

Definition with_Labels (template : Pod) (labels : Labels) : Pod :=
  mkPod (pod_Name template) (pod_Namespace template) (pod_UID template) (pod_ResourceVersion template) labels (pod_Containers template)
    (pod_InitContainers template) (pod_Overhead template) (pod_NodeName template) (pod_Affinity template) (pod_Priority template)
    (pod_NominatedNodeName template) (pod_SchedulerName template) (pod_NodeSelector template) (pod_Tolerations template)
    (pod_Annotations template) (pod_ManagedFields template) (pod_Finalizers template) (pod_DeletionTimestamp template)
    (pod_Conditions template) (pod_PreemptionPolicy template) (pod_CreationTimestamp template) (pod_OwnerReferences template)
    (pod_Phase template) (pod_StartTime template) (pod_ContainerStatuses template).

Definition CloneAndAddLabel (labels : Labels) (labelKey labelValue : string) : Labels :=
  if (labelKey =? "")%string then labels else <[labelKey := labelValue]> labels.
Definition CloneAndRemoveLabel (labels : Labels) (labelKey : string) : Labels :=
  if (labelKey =? "")%string then labels else delete labelKey labels.
Definition CloneSelectorAndAddLabel (selector : LabelSelector) (labelKey labelValue : string) : LabelSelector :=
  if (labelKey =? "")%string then selector else mkLabelSelector (<[labelKey := labelValue]> (MatchLabels selector)) (Labels.MatchExpressions selector).

Section Sync.
Context (answers : nat → option api_error).
Context (sort : (ReplicaSet → ReplicaSet → bool) → list ReplicaSet → list ReplicaSet).
Context (DeepEqual : Pod → Pod → bool).
Context (ComputeHash : Pod → option Z → string).
Context (assigned : nat → string * Z).
Context (lister : string → api_error + ReplicaSet).
Context (infinite now : Z).

Definition request : edm unit := λ w,
  let w' := mkDWorld (S (dw_calls w)) (dw_sets w) (dw_d w) (dw_writes w) (dw_requeues w) in
  match answers (dw_calls w) with Some e => (inl e, w') | None => (inr tt, w') end.

Definition replace (rs : ReplicaSet) (sets : list ReplicaSet) : list ReplicaSet :=
  (λ r, if bool_decide (rs_Name r = rs_Name rs) then rs else r) <$> sets.

Definition update_set (rs : ReplicaSet) : edm ReplicaSet :=
  _ ← request; _ ← modify (with_sets (replace rs)); mret rs.

(** The server gives the set its identity, and has no two sets of a name. *)
Definition with_Identity (rs : ReplicaSet) (identity : string * Z) : ReplicaSet :=
  mkReplicaSet (rs_Namespace rs) (rs_Name rs) identity.1 (rs_Labels rs) (rs_Annotations rs) (Some identity.2) (rs_DeletionTimestamp rs)
    (rs_Generation rs) (rs_OwnerReferences rs) (rs_Replicas rs) (rs_MinReadySeconds rs) (rs_Selector rs) (rs_Template rs) (rs_Status rs).

Definition create_set (rs : ReplicaSet) : edm ReplicaSet := λ w,
  let rs := with_Identity rs (assigned (dw_calls w)) in
  (_ ← request;
   if bool_decide (rs_Name rs ∈ rs_Name <$> dw_sets w) then fail (mkError AlreadyExists "already exists")
   else _ ← modify (with_sets (λ sets, sets ++ [rs])); mret rs) w.

Definition delete_set (name : string) : edm unit :=
  _ ← request; modify (with_sets (filter (λ r, rs_Name r ≠ name))).

(** [UpdateStatus] and [Update] of the controller's copy *)
Definition update_status : edm unit :=
  _ ← request; d ← get_d; modify (with_write (WStatus d)).
Definition update_deployment : edm unit :=
  _ ← request; d ← get_d; modify (with_write (WSpec d)).

(** ** The new set and the old ones *)

Definition EqualIgnoreHash (template1 template2 : Pod) : bool :=
  DeepEqual (with_Labels template1 (delete DefaultDeploymentUniqueLabelKey (pod_Labels template1)))
            (with_Labels template2 (delete DefaultDeploymentUniqueLabelKey (pod_Labels template2))).

(** The array is sorted in place. *)
Definition FindNewReplicaSet (d : Deployment) (rsList : list ReplicaSet) : option ReplicaSet * list ReplicaSet :=
  let rsList := sort ByCreationTimestamp_Less rsList in
  (snd <$> list_find (λ rs, EqualIgnoreHash (rs_Template rs) (d_Template d) = true) rsList, rsList).

(** All old sets; those with pods are not used by the controller. *)
Definition FindOldReplicaSets (d : Deployment) (rsList : list ReplicaSet) : list ReplicaSet * list ReplicaSet :=
  let '(newRS, rsList) := FindNewReplicaSet d rsList in
  (match newRS with Some newRS => filter (λ rs, rs_UID rs ≠ rs_UID newRS) rsList | None => rsList end, rsList).

Definition existing_set (d : Deployment) (existingNewRS : ReplicaSet) (newRevision : string) : edm ReplicaSet :=
  let '(annotations, annotationsUpdated) := SetNewReplicaSetAnnotations d (rs_Annotations existingNewRS) newRevision true in
  let rsCopy := with_Meta existingNewRS annotations (rs_MinReadySeconds existingNewRS) in
  if annotationsUpdated || negb (rs_MinReadySeconds rsCopy =? d_MinReadySeconds d) then
    update_set (with_Meta rsCopy annotations (d_MinReadySeconds d))
  else
    let '(d, needsUpdate) := SetDeploymentRevision d (default ""%string (annotations !! RevisionAnnotation)) in
    let '(d, needsUpdate) :=
      match HasProgressDeadline d, GetDeploymentCondition (ds_Conditions (d_Status d)) "Progressing" with
      | true, None =>
          (with_DCondition d (NewDeploymentCondition "Progressing" "True" "FoundNewReplicaSet"
             ("Found new replica set " ++ quoted (rs_Name rsCopy)) now), true)
      | _, _ => (d, needsUpdate)
      end in
    _ ← modify (with_d d);
    _ ← (if needsUpdate : bool then update_status else mret tt);
    mret rsCopy.

Definition deploymentKind : string := "Deployment".

(** The set of [getNewReplicaSet] before it is created. *)
Definition new_set (d : Deployment) (oldRSs : list ReplicaSet) (newRevision : string) : option ReplicaSet :=
  let podTemplateSpecHash := ComputeHash (d_Template d) (ds_CollisionCount (d_Status d)) in
  let labels := CloneAndAddLabel (pod_Labels (d_Template d)) DefaultDeploymentUniqueLabelKey podTemplateSpecHash in
  let newRSSelector := CloneSelectorAndAddLabel (d_Selector d) DefaultDeploymentUniqueLabelKey podTemplateSpecHash in
  let newRS replicas annotations :=
    mkReplicaSet (d_Namespace d) (d_Name d ++ "-" ++ podTemplateSpecHash) "" labels annotations None None 0
      [mkOwnerReference deploymentKind (d_Name d) (d_UID d) (Some true)] replicas (d_MinReadySeconds d) (Some newRSSelector)
      (with_Labels (d_Template d) labels) (mkRSStatus 0 0 0 0 0 []) in
  newReplicasCount ← NewRSNewReplicas d (oldRSs ++ [newRS 0 ∅]) (newRS 0 ∅);
  Some (newRS newReplicasCount (fst (SetNewReplicaSetAnnotations d ∅ newRevision false))).

Definition created_set (d : Deployment) (createdRS : ReplicaSet) (alreadyExists : bool) (newRevision : string) : edm ReplicaSet :=
  let '(d, needsUpdate) := SetDeploymentRevision d newRevision in
  let '(d, needsUpdate) :=
    if negb alreadyExists && HasProgressDeadline d then
      (with_DCondition d (NewDeploymentCondition "Progressing" "True" "NewReplicaSetCreated"
         ("Created new replica set " ++ quoted (rs_Name createdRS)) now), true)
    else (d, needsUpdate) in
  _ ← modify (with_d d);
  _ ← (if needsUpdate : bool then update_status else mret tt);
  mret createdRS.

(** A set of that name exists: the new set itself, or a collision. *)
Definition existing_name (d : Deployment) (newRS : ReplicaSet) (err : api_error) (newRevision : string) : edm ReplicaSet :=
  match lister (rs_Name newRS) with
  | inl rsErr => fail rsErr
  | inr rs =>
      if match GetControllerOf (rs_OwnerReferences rs) with Some ref => (own_UID ref =? d_UID d)%string | None => false end &&
         EqualIgnoreHash (d_Template d) (rs_Template rs)
      then created_set d rs true newRevision
      else
        let s := d_Status d in
        let count := default 0 (ds_CollisionCount s) in
        _ ← modify (with_d (with_DStatus d (mkDStatus (ds_ObservedGeneration s) (ds_Replicas s) (ds_UpdatedReplicas s) (ds_ReadyReplicas s)
              (ds_AvailableReplicas s) (ds_UnavailableReplicas s) (ds_Conditions s) (Some (int32 (count + 1))))));
        _ ← attempt update_status;
        fail err
  end.

Definition failed_set (d : Deployment) (newRS : ReplicaSet) (err : api_error) : edm ReplicaSet :=
  let msg := ("Failed to create new replica set " ++ quoted (rs_Name newRS) ++ ": " ++ err_Text err)%string in
  _ ← (if HasProgressDeadline d then
         _ ← modify (with_d (with_DCondition d (NewDeploymentCondition "Progressing" "False" "ReplicaSetCreateError" msg now)));
         _ ← attempt update_status; mret tt
       else mret tt);
  fail err.

Definition create_new_set (d : Deployment) (newRS : ReplicaSet) (newRevision : string) : edm ReplicaSet :=
  createdRS ← attempt (create_set newRS);
  match createdRS with
  | inr createdRS => created_set d createdRS false newRevision
  | inl err =>
      if IsAlreadyExists err then existing_name d newRS err newRevision
      else if bool_decide (err_Reason err = NamespaceTerminating) then fail err
      else failed_set d newRS err
  end.

(** [newRS == nil]: there is none and none is to be created.  The strategy
    decides whether the number of replicas is an error. *)
Definition getNewReplicaSet (rsList oldRSs : list ReplicaSet) (createIfNotExisted : bool) : edm (option ReplicaSet * list ReplicaSet) :=
  d ← get_d;
  let '(existingNewRS, rsList) := FindNewReplicaSet d rsList in
  let newRevision := Sprint (int64 (MaxRevision oldRSs + 1)) in
  match existingNewRS with
  | Some rs => rs ← existing_set d rs newRevision; mret (Some rs, rsList)
  | None =>
      if negb createIfNotExisted then mret (None, rsList)
      else match new_set d oldRSs newRevision with
           | None => fail (Errorf ("deployment type " ++ d_StrategyType d ++ " isn't supported"))
           | Some newRS =>
               rs ← create_new_set d newRS newRevision;
               mret (Some rs, rsList)
           end
  end.

Definition getAllReplicaSetsAndSyncRevision (rsList : list ReplicaSet) (createIfNotExisted : bool)
    : edm (option ReplicaSet * list ReplicaSet * list ReplicaSet) :=
  d ← get_d;
  let '(allOldRSs, rsList) := FindOldReplicaSets d rsList in
  '(newRS, rsList) ← getNewReplicaSet rsList allOldRSs createIfNotExisted;
  mret (newRS, allOldRSs, rsList).

(** ** Scaling *)

Definition option_list {A} (x : option A) : list A := match x with Some x => [x] | None => [] end.

(** Whether the set was scaled, and the set after it. *)
Definition scaleReplicaSet (rs : ReplicaSet) (newScale : Z) (d : Deployment) : edm (bool * ReplicaSet) :=
  let sizeNeedsUpdate := negb (rs_Replicas rs =? newScale) in
  let maxReplicas := int32 (d_Replicas d + MaxSurge d) in
  let annotationsNeedUpdate := ReplicasAnnotationsNeedUpdate rs (d_Replicas d) maxReplicas in
  if sizeNeedsUpdate || annotationsNeedUpdate then
    rs ← update_set (with_Scale rs newScale (SetReplicasAnnotations (rs_Annotations rs) (d_Replicas d) maxReplicas));
    mret (sizeNeedsUpdate, rs)
  else mret (false, rs).

Definition scaleReplicaSetAndRecordEvent (rs : ReplicaSet) (newScale : Z) (d : Deployment) : edm (bool * ReplicaSet) :=
  if rs_Replicas rs =? newScale then mret (false, rs) else scaleReplicaSet rs newScale d.

(** [panic] is [oldRSs[0]] of no sets, which the first test excludes. *)
Definition FindActiveOrLatest (newRS : option ReplicaSet) (oldRSs : list ReplicaSet) : option ReplicaSet * list ReplicaSet :=
  match newRS, oldRSs with
  | None, [] => (None, oldRSs)
  | _, _ =>
      let oldRSs := sort (λ a b, ByCreationTimestamp_Less b a) oldRSs in
      (match FilterActiveReplicaSets (oldRSs ++ option_list newRS) with
       | [] => match newRS with Some rs => Some rs | None => head oldRSs end
       | [rs] => Some rs
       | _ => None
       end, oldRSs)
  end.

Fixpoint scale_all (d : Deployment) (l : list (ReplicaSet * Z)) : edm unit :=
  match l with
  | [] => mret tt
  | (rs, size) :: l => _ ← scaleReplicaSet rs size d; scale_all d l
  end.

Fixpoint scale_to_zero (d : Deployment) (l : list ReplicaSet) : edm unit :=
  match l with
  | [] => mret tt
  | rs :: l => _ ← scaleReplicaSetAndRecordEvent rs 0 d; scale_to_zero d l
  end.

(** The old sets are sorted in place. *)
Definition scale (d : Deployment) (newRS : option ReplicaSet) (oldRSs : list ReplicaSet) : edm (list ReplicaSet) :=
  match FindActiveOrLatest newRS oldRSs with
  | (Some activeOrLatest, oldRSs) =>
      _ ← (if rs_Replicas activeOrLatest =? d_Replicas d then mret tt
           else _ ← scaleReplicaSetAndRecordEvent activeOrLatest (d_Replicas d) d; mret tt);
      mret oldRSs
  | (None, oldRSs) =>
      if IsSaturated d newRS then _ ← scale_to_zero d (FilterActiveReplicaSets oldRSs); mret oldRSs
      else if IsRollingUpdate d then
        let allRSs := FilterActiveReplicaSets (oldRSs ++ option_list newRS) in
        let allRSsReplicas := GetReplicaCountForReplicaSets allRSs in
        let allowedSize := if 0 <? d_Replicas d then int32 (d_Replicas d + MaxSurge d) else 0 in
        let deploymentReplicasToAdd := int32 (allowedSize - allRSsReplicas) in
        let allRSs :=
          if 0 <? deploymentReplicasToAdd then sort BySizeNewer_Less allRSs
          else if deploymentReplicasToAdd <? 0 then sort BySizeOlder_Less allRSs
          else allRSs in
        _ ← scale_all d (zip allRSs (scaled_sizes infinite d deploymentReplicasToAdd allRSs));
        mret oldRSs
      else mret oldRSs
  end.

(** ** Clean up *)

Fixpoint cleanup_sets (l : list ReplicaSet) : edm unit :=
  match l with
  | [] => mret tt
  | rs :: l =>
      if negb (st_Replicas (rs_Status rs) =? 0) || negb (rs_Replicas rs =? 0) || (st_ObservedGeneration (rs_Status rs) <? rs_Generation rs) ||
         bool_decide (is_Some (rs_DeletionTimestamp rs))
      then cleanup_sets l
      else
        r ← attempt (delete_set (rs_Name rs));
        match r with
        | inl err => if IsNotFound err then cleanup_sets l else fail err
        | inr _ => cleanup_sets l
        end
  end.

(** A limit is not negative: with one that is, the loop would index past the
    end of the sets. *)
Definition cleanupDeployment (oldRSs : list ReplicaSet) (d : Deployment) : edm unit :=
  if negb (HasRevisionHistoryLimit d) then mret tt
  else
    let cleanableRSes := filter (λ rs, rs_DeletionTimestamp rs = None) oldRSs in
    let diff := int32 (int32 (Z.of_nat (length cleanableRSes)) - default 0 (d_RevisionHistoryLimit d)) in
    if diff <=? 0 then mret tt
    else cleanup_sets (take (Z.to_nat diff) (sort ByRevision_Less cleanableRSes)).

(** ** Status *)

Definition syncDeploymentStatus (allRSs : list ReplicaSet) (newRS : option ReplicaSet) : edm unit :=
  d ← get_d;
  let newStatus := calculateDeploymentStatus allRSs newRS d now in
  if bool_decide (d_Status d = newStatus) then mret tt
  else _ ← modify (with_d (with_DStatus d newStatus)); update_status.

Definition syncRolloutStatus (allRSs : list ReplicaSet) (newRS : option ReplicaSet) : edm unit :=
  d ← get_d;
  let newStatus := rollout_status allRSs newRS d now in
  if bool_decide (d_Status d = newStatus) then
    match requeueStuckDeployment d newStatus now with Some after => modify (with_requeue after) | None => mret tt end
  else _ ← modify (with_d (with_DStatus d newStatus)); update_status.

Definition syncStatusOnly (rsList : list ReplicaSet) : edm unit :=
  '(newRS, oldRSs, _) ← getAllReplicaSetsAndSyncRevision rsList false;
  syncDeploymentStatus (oldRSs ++ option_list newRS) newRS.

Definition getRollbackTo (d : Deployment) : option Z :=
  let revision := default ""%string (d_Annotations d !! DeprecatedRollbackTo) in
  if (revision =? "")%string then None else ParseInt (txt revision).

(** The controller's method [sync]. *)
Definition sync (rsList : list ReplicaSet) : edm unit :=
  '(newRS, oldRSs, _) ← getAllReplicaSetsAndSyncRevision rsList false;
  d ← get_d;
  oldRSs ← scale d newRS oldRSs;
  _ ← (if d_Paused d && negb (bool_decide (is_Some (getRollbackTo d))) then cleanupDeployment oldRSs d else mret tt);
  syncDeploymentStatus (oldRSs ++ option_list newRS) newRS.

Definition checkPausedConditions : edm unit :=
  d ← get_d;
  if negb (HasProgressDeadline d) then mret tt
  else
    let cond := GetDeploymentCondition (ds_Conditions (d_Status d)) "Progressing" in
    let because reason := match cond with Some c => (dc_Reason c =? reason)%string | None => false end in
    if because "ProgressDeadlineExceeded"%string then mret tt
    else
      let pausedCondExists := because "DeploymentPaused"%string in
      let write reason msg := _ ← modify (with_d (with_DCondition d (NewDeploymentCondition "Progressing" "Unknown" reason msg now))); update_status in
      if d_Paused d && negb pausedCondExists then write "DeploymentPaused"%string "Deployment is paused"%string
      else if negb (d_Paused d) && pausedCondExists then write "DeploymentResumed"%string "Deployment is resumed"%string
      else mret tt.

(** Also the listed sets as they are sorted. *)
Definition isScalingEvent (rsList : list ReplicaSet) : edm (bool * list ReplicaSet) :=
  '(newRS, oldRSs, rsList) ← getAllReplicaSetsAndSyncRevision rsList false;
  d ← get_d;
  mret (existsb (λ rs, match GetDesiredReplicasAnnotation rs with Some desired => negb (desired =? d_Replicas d) | None => false end)
          (FilterActiveReplicaSets (oldRSs ++ option_list newRS)), rsList).

(** ** Rolling updates *)

Definition reconcileNewReplicaSet (allRSs : list ReplicaSet) (newRS : ReplicaSet) (d : Deployment) : edm bool :=
  if rs_Replicas newRS =? d_Replicas d then mret false
  else if d_Replicas d <? rs_Replicas newRS then
    '(scaled, _) ← scaleReplicaSetAndRecordEvent newRS (d_Replicas d) d; mret scaled
  else match NewRSNewReplicas d allRSs newRS with
       | None => fail (Errorf ("deployment type " ++ d_StrategyType d ++ " isn't supported"))
       | Some newReplicasCount => '(scaled, _) ← scaleReplicaSetAndRecordEvent newRS newReplicasCount d; mret scaled
       end.

(** The sets as they are left in the array, and how many pods fewer. *)
Fixpoint cleanup_loop (d : Deployment) (maxCleanupCount totalScaledDown : Z) (oldRSs : list ReplicaSet) : edm (list ReplicaSet * Z) :=
  match oldRSs with
  | [] => mret ([], totalScaledDown)
  | targetRS :: rest =>
      if maxCleanupCount <=? totalScaledDown then mret (oldRSs, totalScaledDown)
      else if (rs_Replicas targetRS =? 0) || (rs_Replicas targetRS =? AvailableReplicas targetRS) then
        '(rest, total) ← cleanup_loop d maxCleanupCount totalScaledDown rest; mret (targetRS :: rest, total)
      else
        let scaledDownCount := int32 (Z.min (int32 (maxCleanupCount - totalScaledDown)) (int32 (rs_Replicas targetRS - AvailableReplicas targetRS))) in
        let newReplicasCount := int32 (rs_Replicas targetRS - scaledDownCount) in
        if rs_Replicas targetRS <? newReplicasCount then fail (Errorf "when cleaning up unhealthy replicas, got invalid request to scale down")
        else
          '(_, updatedOldRS) ← scaleReplicaSetAndRecordEvent targetRS newReplicasCount d;
          '(rest, total) ← cleanup_loop d maxCleanupCount (int32 (totalScaledDown + scaledDownCount)) rest;
          mret (updatedOldRS :: rest, total)
  end.

Definition cleanupUnhealthyReplicas (oldRSs : list ReplicaSet) (d : Deployment) (maxCleanupCount : Z) : edm (list ReplicaSet * Z) :=
  cleanup_loop d maxCleanupCount 0 (sort ByCreationTimestamp_Less oldRSs).

Fixpoint scale_down_loop (d : Deployment) (totalScaleDownCount totalScaledDown : Z) (oldRSs : list ReplicaSet) : edm Z :=
  match oldRSs with
  | [] => mret totalScaledDown
  | targetRS :: rest =>
      if totalScaleDownCount <=? totalScaledDown then mret totalScaledDown
      else if rs_Replicas targetRS =? 0 then scale_down_loop d totalScaleDownCount totalScaledDown rest
      else
        let scaleDownCount := int32 (Z.min (rs_Replicas targetRS) (int32 (totalScaleDownCount - totalScaledDown))) in
        let newReplicasCount := int32 (rs_Replicas targetRS - scaleDownCount) in
        if rs_Replicas targetRS <? newReplicasCount then fail (Errorf "when scaling down old RS, got invalid request to scale down")
        else
          _ ← scaleReplicaSetAndRecordEvent targetRS newReplicasCount d;
          scale_down_loop d totalScaleDownCount (int32 (totalScaledDown + scaleDownCount)) rest
  end.

Definition scaleDownOldReplicaSetsForRollingUpdate (allRSs oldRSs : list ReplicaSet) (d : Deployment) : edm Z :=
  let minAvailable := int32 (d_Replicas d - MaxUnavailable d) in
  let availablePodCount := GetAvailableReplicaCountForReplicaSets allRSs in
  if availablePodCount <=? minAvailable then mret 0
  else scale_down_loop d (int32 (availablePodCount - minAvailable)) 0 (sort ByCreationTimestamp_Less oldRSs).

(** Errors of the clean up and of the scaling down are dropped. *)
Definition reconcileOldReplicaSets (allRSs oldRSs : list ReplicaSet) (newRS : ReplicaSet) (d : Deployment) : edm bool :=
  if GetReplicaCountForReplicaSets oldRSs =? 0 then mret false
  else
    let allPodsCount := GetReplicaCountForReplicaSets allRSs in
    let minAvailable := int32 (d_Replicas d - MaxUnavailable d) in
    let newRSUnavailablePodCount := int32 (rs_Replicas newRS - AvailableReplicas newRS) in
    let maxScaledDown := int32 (int32 (allPodsCount - minAvailable) - newRSUnavailablePodCount) in
    if maxScaledDown <=? 0 then mret false
    else
      r ← attempt (cleanupUnhealthyReplicas oldRSs d maxScaledDown);
      match r with
      | inl _ => mret false
      | inr (oldRSs, cleanupCount) =>
          r ← attempt (scaleDownOldReplicaSetsForRollingUpdate (oldRSs ++ [newRS]) oldRSs d);
          match r with
          | inl _ => mret false
          | inr scaledDownCount => mret (0 <? int32 (cleanupCount + scaledDownCount))
          end
      end.

(** [rolloutRolling] after the sets are found. *)
Definition roll (newRS : ReplicaSet) (oldRSs : list ReplicaSet) (d : Deployment) : edm unit :=
  let allRSs := oldRSs ++ [newRS] in
  scaledUp ← reconcileNewReplicaSet allRSs newRS d;
  if scaledUp : bool then syncRolloutStatus allRSs (Some newRS)
  else
    scaledDown ← reconcileOldReplicaSets allRSs (FilterActiveReplicaSets oldRSs) newRS d;
    if scaledDown : bool then syncRolloutStatus allRSs (Some newRS)
    else
      _ ← (if DeploymentComplete d (d_Status d) then cleanupDeployment oldRSs d else mret tt);
      syncRolloutStatus allRSs (Some newRS).

Definition rolloutRolling (rsList : list ReplicaSet) : edm unit :=
  '(newRS, oldRSs, _) ← getAllReplicaSetsAndSyncRevision rsList true;
  d ← get_d;
  match newRS with
  | None => fail (Errorf "invalid memory address or nil pointer dereference")
  | Some newRS => roll newRS oldRSs d
  end.

(** ** Recreation *)

Fixpoint recreate_loop (d : Deployment) (scaled : bool) (oldRSs : list ReplicaSet) : edm bool :=
  match oldRSs with
  | [] => mret scaled
  | rs :: rest =>
      if rs_Replicas rs =? 0 then recreate_loop d scaled rest
      else '(scaledRS, _) ← scaleReplicaSetAndRecordEvent rs 0 d; recreate_loop d (scaled || scaledRS) rest
  end.

Definition scaleDownOldReplicaSetsForRecreate (oldRSs : list ReplicaSet) (d : Deployment) : edm bool := recreate_loop d false oldRSs.

Definition oldPodsRunning (newRS : option ReplicaSet) (oldRSs : list ReplicaSet) (podMap : gmap string (list Pod)) : bool :=
  (0 <? GetActualReplicaCountForReplicaSets oldRSs) ||
  existsb (λ '(rsUID, podList),
    negb (match newRS with Some newRS => (rs_UID newRS =? rsUID)%string | None => false end) &&
    existsb (λ pod, negb ((pod_Phase pod =? "Failed")%string || (pod_Phase pod =? "Succeeded")%string)) podList) (map_to_list podMap).

Definition scaleUpNewReplicaSetForRecreate (newRS : ReplicaSet) (d : Deployment) : edm bool :=
  '(scaled, _) ← scaleReplicaSetAndRecordEvent newRS (d_Replicas d) d; mret scaled.

Definition rolloutRecreate (rsList : list ReplicaSet) (podMap : gmap string (list Pod)) : edm unit :=
  '(newRS, oldRSs, rsList) ← getAllReplicaSetsAndSyncRevision rsList false;
  d ← get_d;
  let allRSs := oldRSs ++ option_list newRS in
  scaledDown ← scaleDownOldReplicaSetsForRecreate (FilterActiveReplicaSets oldRSs) d;
  if scaledDown : bool then syncRolloutStatus allRSs newRS
  else if oldPodsRunning newRS oldRSs podMap then syncRolloutStatus allRSs newRS
  else
    '(newRS, oldRSs) ← (match newRS with
      | Some _ => mret (newRS, oldRSs)
      | None => '(newRS, oldRSs, _) ← getAllReplicaSetsAndSyncRevision rsList true; mret (newRS, oldRSs)
      end);
    d ← get_d;
    let allRSs := oldRSs ++ option_list newRS in
    match newRS with
    | None => fail (Errorf "invalid memory address or nil pointer dereference")
    | Some rs =>
        _ ← scaleUpNewReplicaSetForRecreate rs d;
        _ ← (if DeploymentComplete d (d_Status d) then cleanupDeployment oldRSs d else mret tt);
        syncRolloutStatus allRSs newRS
    end.

(** ** Rolling back *)

Definition updateDeploymentAndClearRollbackTo : edm unit :=
  d ← get_d;
  _ ← modify (with_d (with_DMeta d (delete DeprecatedRollbackTo (d_Annotations d)) (d_Template d)));
  update_deployment.

Definition SetFromReplicaSetTemplate (template : Pod) : Pod :=
  with_Labels template (CloneAndRemoveLabel (pod_Labels template) DefaultDeploymentUniqueLabelKey).

Definition SetDeploymentAnnotationsTo (annotations rollbackTo : gmap string string) : gmap string string :=
  filter (λ kv, kv.1 ∉ annotationsToSkip) rollbackTo ∪ filter (λ kv, kv.1 ∈ annotationsToSkip) annotations.

Definition rollbackToTemplate (rs : ReplicaSet) : edm unit :=
  d ← get_d;
  _ ← (if EqualIgnoreHash (d_Template d) (rs_Template rs) then mret tt
       else modify (with_d (with_DMeta d (SetDeploymentAnnotationsTo (d_Annotations d) (rs_Annotations rs)) (SetFromReplicaSetTemplate (rs_Template rs)))));
  updateDeploymentAndClearRollbackTo.

(** [rollback] is called when [getRollbackTo] gives a revision, which the
    synchronisation of revisions keeps. *)
Definition rollback (rsList : list ReplicaSet) : edm unit :=
  '(newRS, allOldRSs, _) ← getAllReplicaSetsAndSyncRevision rsList true;
  d ← get_d;
  let allRSs := allOldRSs ++ option_list newRS in
  match getRollbackTo d with
  | None => fail (Errorf "invalid memory address or nil pointer dereference")
  | Some revision =>
      let revision := if revision =? 0 then LastRevision allRSs else revision in
      if revision =? 0 then updateDeploymentAndClearRollbackTo
      else match list_find (λ rs, Revision rs = Some revision) allRSs with
           | Some (_, rs) => rollbackToTemplate rs
           | None => updateDeploymentAndClearRollbackTo
           end
  end.

(** ** Synchronisation *)

(** The pods of [podLister] that the selector matches, by their set. *)
Definition getPodMapForDeployment (rsList : list ReplicaSet) (pods : list Pod) : gmap string (list Pod) :=
  foldl (λ podMap pod,
    match GetControllerOf (pod_OwnerReferences pod) with
    | None => podMap
    | Some ref => match podMap !! own_UID ref with Some l => <[own_UID ref := l ++ [pod]]> podMap | None => podMap end
    end) (list_to_map ((λ rs, (rs_UID rs, [])) <$> rsList)) pods.

(** [syncDeployment] of a deployment in the cache, whose copy is in the
    state, and the sets it has claimed. *)
Definition syncDeployment (rsList : list ReplicaSet) (pods : list Pod) : edm unit :=
  d ← get_d;
  if bool_decide (d_Selector d = mkLabelSelector ∅ []) then
    if ds_ObservedGeneration (d_Status d) <? d_Generation d then
      let s := d_Status d in
      _ ← modify (with_d (with_DStatus d (mkDStatus (d_Generation d) (ds_Replicas s) (ds_UpdatedReplicas s) (ds_ReadyReplicas s)
            (ds_AvailableReplicas s) (ds_UnavailableReplicas s) (ds_Conditions s) (ds_CollisionCount s))));
      _ ← attempt update_status; mret tt
    else mret tt
  else
    let podMap := getPodMapForDeployment rsList pods in
    if bool_decide (is_Some (d_DeletionTimestamp d)) then syncStatusOnly rsList
    else
      _ ← checkPausedConditions;
      if d_Paused d then sync rsList
      else if bool_decide (is_Some (getRollbackTo d)) then rollback rsList
      else
        '(scalingEvent, rsList) ← isScalingEvent rsList;
        if scalingEvent : bool then sync rsList
        else if (d_StrategyType d =? RecreateDeploymentStrategyType)%string then rolloutRecreate rsList podMap
        else if (d_StrategyType d =? RollingUpdateDeploymentStrategyType)%string then rolloutRolling rsList
        else fail (Errorf ("unexpected deployment strategy type: " ++ d_StrategyType d)).

End Sync.
