(* ===== verification/RolloutWp.v ===== *)
(** * Rollouts: what the steps of a synchronisation do to the sets

    Weakest preconditions for the requests of [Rollout], and what each of its
    loops leaves on the server: which sets shrink, by how much, and that only
    a failed request stops them. *)

From S2P Require Import Prelude Strconv Labels ApiTypes ActivePods AppsTypes Deployment Rollout.
#[local] Open Scope Z_scope.

(** ** Weakest preconditions *)

Definition dwp {A} (m : edm A) (Φ : api_error + A → dworld → Prop) (w : dworld) : Prop :=
  let '(r, w') := m w in Φ r w'.

Lemma dwp_bind {A B} (m : edm A) (f : A → edm B) Φ w :
  dwp m (λ r w', match r with inl e => Φ (inl e) w' | inr a => dwp (f a) Φ w' end) w → dwp (m ≫= f) Φ w.
Proof. unfold dwp, mbind, edm_bind. destruct (m w) as [[e|a] w']; done. Qed.

Lemma dwp_mono {A} (m : edm A) (Φ Ψ : api_error + A → dworld → Prop) w : dwp m Φ w → (∀ r w', Φ r w' → Ψ r w') → dwp m Ψ w.
Proof. unfold dwp. destruct (m w). auto. Qed.

Lemma dwp_ret {A} (a : A) (Φ : api_error + A → dworld → Prop) w : Φ (inr a) w → dwp (mret a) Φ w.
Proof. done. Qed.

Lemma dwp_get_d (Φ : api_error + Deployment → dworld → Prop) w : Φ (inr (dw_d w)) w → dwp get_d Φ w.
Proof. done. Qed.

Lemma dwp_modify f (Φ : api_error + unit → dworld → Prop) w : Φ (inr tt) (f w) → dwp (modify f) Φ w.
Proof. done. Qed.

Lemma dwp_attempt {A} (m : edm A) Φ w : dwp m (λ r w', Φ (inr r) w') w → dwp (attempt m) Φ w.
Proof. unfold dwp, attempt. by destruct (m w). Qed.

(** ** Sets *)

(** What scaling looks at: without annotations and [MinReadySeconds]. *)
Definition core (rs : ReplicaSet) : ReplicaSet := with_Meta rs ∅ 0.
Definition resize (n : Z) (rs : ReplicaSet) : ReplicaSet := with_Scale rs n (rs_Annotations rs).

Definition served (w : dworld) : list ReplicaSet := core <$> dw_sets w.
Definition names (l : list ReplicaSet) : list string := rs_Name <$> l.

(** What no synchronisation changes in the controller's copy. *)
Definition spec_of (d : Deployment) : Z * string * option IntOrString * option IntOrString * Pod :=
  (d_Replicas d, d_StrategyType d, d_MaxSurge d, d_MaxUnavailable d, d_Template d).

Lemma core_idemp rs : core (core rs) = core rs.
Proof. done. Qed.

Lemma core_Replicas r r' : core r = core r' → rs_Replicas r = rs_Replicas r'.
Proof. intros H. by apply (f_equal rs_Replicas) in H. Qed.
Lemma core_Available r r' : core r = core r' → AvailableReplicas r = AvailableReplicas r'.
Proof. intros H. by apply (f_equal AvailableReplicas) in H. Qed.
Lemma core_Name r r' : core r = core r' → rs_Name r = rs_Name r'.
Proof. intros H. by apply (f_equal rs_Name) in H. Qed.

Lemma names_core l : names (core <$> l) = names l.
Proof. unfold names. rewrite <-list_fmap_compose. done. Qed.

(** An update of a set of the server is an update of that set. *)
Lemma replace_served t rs sets s0 :
  core <$> sets ≡ₚ core t :: s0 → NoDup (names sets) → rs_Name rs = rs_Name t → core <$> replace rs sets ≡ₚ core rs :: s0.
Proof.
  intros Hp Hnd Hn. assert (core t ∈ core <$> sets) as Ht by (rewrite Hp; left).
  apply list_elem_of_fmap in Ht as (t0 & Ht & Hin). apply list_elem_of_split in Hin as (l1 & l2 & ->).
  unfold names in Hnd. rewrite fmap_app, fmap_cons in Hnd. apply NoDup_app in Hnd as (_ & Hd & Hnd). apply NoDup_cons in Hnd as [Hd2 _].
  assert (∀ l, rs_Name t0 ∉ rs_Name <$> l → replace rs l = l) as Hsame.
  { intros l Hl. unfold replace. transitivity (id <$> l); [|apply list_fmap_id]. apply list_fmap_ext. intros i r Hi. case_bool_decide as Hr; [|done].
    destruct Hl. rewrite <-(core_Name _ _ Ht), <-Hn, <-Hr. by apply list_elem_of_fmap_2, list_elem_of_lookup_2 with i. }
  assert (replace rs (l1 ++ t0 :: l2) = l1 ++ rs :: l2) as ->.
  { unfold replace in *. rewrite fmap_app, fmap_cons, !Hsame; [|done|].
    - rewrite bool_decide_eq_true_2; [done|]. by rewrite Hn, (core_Name _ _ Ht).
    - intros Hin. apply (Hd _ Hin). left. }
  rewrite fmap_app, fmap_cons in Hp |- *. rewrite <-Ht, <-Permutation_middle in Hp. apply Permutation_cons_inv in Hp.
  by rewrite <-Permutation_middle, Hp.
Qed.

(** ** Sums *)

Lemma zsum_cons {A} (f : A → Z) x l : zsum f (x :: l) = f x + zsum f l.
Proof. done. Qed.

Lemma sum32_zsum f l : Forall (λ rs, 0 ≤ f rs) l → zsum f l < 2 ^ 31 → sum32 f l = zsum f l.
Proof.
  unfold sum32. intros Hl Hs. enough (∀ acc, 0 ≤ acc → acc + zsum f l < 2 ^ 31 → foldl (λ n rs, int32 (n + f rs)) acc l = acc + zsum f l) as H
    by (rewrite H; lia).
  clear Hs. induction Hl as [|rs l Hrs Hl IH]; intros acc Hacc Hs; cbn [foldl] in *; [unfold zsum; simpl; lia|].
  pose proof (zsum_nonneg f l Hl). unfold zsum in *. cbn [foldr] in *. rewrite int32_id by lia. rewrite IH; lia.
Qed.

Lemma Forall2_perm_r {A B} (P : A → B → Prop) l k k' : Forall2 P l k → k ≡ₚ k' → ∃ l', l ≡ₚ l' ∧ Forall2 P l' k'.
Proof.
  intros Hl Hk. revert l Hl. induction Hk as [|y k k' _ IH|y z k|k k2 k' _ IH1 _ IH2]; intros l Hl.
  - exists []. by apply Forall2_nil_inv_r in Hl as ->.
  - apply Forall2_cons_inv_r in Hl as (x & l0 & Hx & Hl & ->). destruct (IH l0 Hl) as (l' & Hp & Hl'). exists (x :: l'). by split; [rewrite Hp|constructor].
  - apply Forall2_cons_inv_r in Hl as (x1 & l0 & Hx1 & Hl & ->). apply Forall2_cons_inv_r in Hl as (x2 & l & Hx2 & Hl & ->).
    exists (x2 :: x1 :: l). split; [constructor|by repeat constructor].
  - destruct (IH1 l Hl) as (l1 & Hp1 & Hl1). destruct (IH2 l1 Hl1) as (l2 & Hp2 & Hl2). exists l2. by rewrite Hp1.
Qed.

Lemma Forall2_compose {A B C} (P : A → B → Prop) (Q : B → C → Prop) (R : A → C → Prop) l k m :
  (∀ x y z, P x y → Q y z → R x z) → Forall2 P l k → Forall2 Q k m → Forall2 R l m.
Proof. intros H F. revert m. induction F; intros m G; inversion G; subst; constructor; eauto. Qed.

(** ** Sets that lose pods *)

Definition healthy (rs : ReplicaSet) : Prop := 0 ≤ AvailableReplicas rs ≤ rs_Replicas rs.

(** The set after it lost pods, but not below [lo]. *)
Definition shrunk (lo : ReplicaSet → Z) (t t' : ReplicaSet) : Prop :=
  core t' = resize (rs_Replicas t') (core t) ∧ lo t ≤ rs_Replicas t' ≤ rs_Replicas t.

Lemma shrunk_refl lo t : lo t ≤ rs_Replicas t → shrunk lo t t.
Proof. intros H. split; [done|lia]. Qed.

Lemma shrunk_all_refl lo l : Forall (λ t, lo t ≤ rs_Replicas t) l → Forall2 (shrunk lo) l l.
Proof. induction 1; constructor; auto using shrunk_refl. Qed.

Lemma NoDup_names_perm w w' s0 t t' :
  served w ≡ₚ core t :: s0 → served w' ≡ₚ core t' :: s0 → rs_Name t' = rs_Name t → NoDup (names (served w)) → NoDup (names (served w')).
Proof. unfold names. intros -> -> Hn. rewrite !fmap_cons. simpl. by rewrite Hn. Qed.

Definition zero (_ : ReplicaSet) : Z := 0.

(** Up to the order of the sets. *)

Definition shrinks (lo : ReplicaSet → Z) (l l' : list ReplicaSet) : Prop := ∃ l0, l ≡ₚ l0 ∧ Forall2 (shrunk lo) l0 l'.

#[export] Instance shrinks_Proper lo : Proper ((≡ₚ) ==> (≡ₚ) ==> iff) (shrinks lo).
Proof.
  enough (∀ l k l' k', l ≡ₚ k → l' ≡ₚ k' → shrinks lo l l' → shrinks lo k k') as H by (intros l k Hl l' k' Hl'; by split; apply H).
  intros l k l' k' Hl Hl' (l0 & Hp & H2). destruct (Forall2_perm_r _ _ _ _ H2 Hl') as (l1 & Hp1 & H1). exists l1. split; [by rewrite <-Hp1, <-Hl|done].
Qed.

Lemma shrinks_refl lo l : Forall (λ t, lo t ≤ rs_Replicas t) l → shrinks lo l l.
Proof. intros H. exists l. by split; [|apply shrunk_all_refl]. Qed.

Lemma shrinks_app lo l1 l2 l1' l2' : shrinks lo l1 l1' → shrinks lo l2 l2' → shrinks lo (l1 ++ l2) (l1' ++ l2').
Proof. intros (k1 & H1 & F1) (k2 & H2 & F2). exists (k1 ++ k2). split; [by rewrite H1, H2|by apply Forall2_app]. Qed.

Lemma shrinks_trans lo l1 l2 l3 : shrinks lo l1 l2 → shrinks zero l2 l3 → Forall (λ t, 0 ≤ lo t) l1 → shrinks zero l1 l3.
Proof.
  intros (k1 & H1 & F1) (k2 & H2 & F2) H0. destruct (Forall2_perm_r _ _ _ _ F1 H2) as (k & Hk & F). exists k. split; [by rewrite H1|].
  eapply Forall2_compose; [|exact F|exact F2]. intros x y z [Hxy Hy] [Hyz Hz]. split; [|unfold zero in *; lia].
  rewrite Hyz, Hxy. done.
Qed.

(** The pods that are still available once the set has its new size. *)
Definition able (rs : ReplicaSet) : Z := Z.min (AvailableReplicas rs) (rs_Replicas rs).

Lemma shrunk_Available lo t t' : shrunk lo t t' → AvailableReplicas t' = AvailableReplicas t.
Proof. intros [H _]. by apply (f_equal AvailableReplicas) in H. Qed.

Lemma shrinks_sum lo l l' : shrinks lo l l' → zsum rs_Replicas l' ≤ zsum rs_Replicas l.
Proof. intros (l0 & -> & H). apply zsum_Forall2, Forall2_flip. eapply Forall2_impl; [exact H|]. by intros ?? [_ []]. Qed.

Lemma shrinks_nonneg l l' : shrinks zero l l' → Forall (λ t, 0 ≤ rs_Replicas t) l'.
Proof. intros (l0 & _ & H). induction H as [|?? ?? [_ []]]; constructor; auto. Qed.

Lemma healthy_able l : Forall healthy l → zsum able l = zsum AvailableReplicas l.
Proof. induction 1 as [|t l [H0 H] _ IH]; [done|]. rewrite !zsum_cons, IH. unfold able. lia. Qed.

Lemma shrinks_able l l' : shrinks AvailableReplicas l l' → zsum able l' = zsum AvailableReplicas l ∧ zsum AvailableReplicas l' = zsum AvailableReplicas l.
Proof.
  intros (l0 & -> & H). induction H as [|t t' m m' H _ [IH1 IH2]]; [done|]. rewrite !zsum_cons, IH1, IH2. unfold able.
  rewrite (shrunk_Available _ _ _ H). destruct H as [_ H]. split; lia.
Qed.

Lemma shrinks_loss l l' : shrinks zero l l' → zsum able l - (zsum rs_Replicas l - zsum rs_Replicas l') ≤ zsum able l'.
Proof.
  intros (l0 & -> & H). induction H as [|t t' m m' H _ IH]; [unfold zsum; simpl; lia|]. rewrite !zsum_cons. unfold able in *.
  rewrite (shrunk_Available _ _ _ H). destruct H as [_ H]. lia.
Qed.

Lemma shrinks_full l l' : Forall (λ t, AvailableReplicas t = rs_Replicas t) l → shrinks AvailableReplicas l l' → zsum rs_Replicas l' = zsum rs_Replicas l.
Proof.
  intros Hf (l0 & Hp & H). rewrite Hp in *. clear Hp. induction H as [|t t' m m' [_ H] _ IH]; [done|].
  apply Forall_cons in Hf as [Ht Hf]. rewrite !zsum_cons, IH by done. lia.
Qed.

Section Steps.
Context (answers : nat → option api_error).
Context (sort : (ReplicaSet → ReplicaSet → bool) → list ReplicaSet → list ReplicaSet).
Hypothesis sort_perm : ∀ less l, sort less l ≡ₚ l.

Definition fails : Prop := ∃ n e, answers n = Some e.

Lemma dwp_request Φ w :
  (∀ e w', fails → dw_sets w' = dw_sets w → dw_d w' = dw_d w → Φ (inl e) w') →
  (∀ w', dw_sets w' = dw_sets w → dw_d w' = dw_d w → Φ (inr tt) w') →
  dwp (request answers) Φ w.
Proof.
  intros He Hok. unfold dwp, request. destruct (answers (dw_calls w)) as [e|] eqn:Ha; [|by apply Hok].
  apply He; [|done..]. by exists (dw_calls w), e.
Qed.

Lemma dwp_update_set t rs s0 w Φ :
  served w ≡ₚ core t :: s0 → NoDup (names (served w)) → rs_Name rs = rs_Name t →
  (∀ e w', fails → served w' = served w → dw_d w' = dw_d w → Φ (inl e) w') →
  (∀ w', served w' ≡ₚ core rs :: s0 → dw_d w' = dw_d w → Φ (inr rs) w') →
  dwp (update_set answers rs) Φ w.
Proof.
  intros Hs Hnd Hn He Hok. apply dwp_bind, dwp_request; [intros e w' Hf Hw Hd; apply He; [done|by unfold served; rewrite Hw|done]|].
  intros w' Hw Hd. apply dwp_bind, dwp_modify, dwp_ret, Hok; [|done]. unfold served. simpl. rewrite Hw.
  apply (replace_served t); [done|by rewrite <-names_core|done].
Qed.

Lemma dwp_scaleReplicaSet rs n d w s0 Φ :
  served w ≡ₚ core rs :: s0 → NoDup (names (served w)) →
  (∀ e w', fails → served w' = served w → dw_d w' = dw_d w → Φ (inl e) w') →
  (∀ rs' w', core rs' = resize n (core rs) → served w' ≡ₚ core rs' :: s0 → dw_d w' = dw_d w → Φ (inr (negb (rs_Replicas rs =? n), rs')) w') →
  dwp (scaleReplicaSet answers rs n d) Φ w.
Proof.
  intros Hs Hnd He Hok. unfold scaleReplicaSet. destruct (negb (rs_Replicas rs =? n) || _) eqn:Hb.
  - apply dwp_bind, (dwp_update_set rs _ s0); [done..|]. intros w' Hs' Hd. apply dwp_ret, Hok; done.
  - apply orb_false_iff in Hb as [Hb _]. specialize (Hok rs w). rewrite Hb in Hok. unfold dwp. simpl. apply Hok; [|done..].
    apply negb_false_iff, Z.eqb_eq in Hb. by subst n.
Qed.

Lemma dwp_scale rs n d w s0 Φ :
  served w ≡ₚ core rs :: s0 → NoDup (names (served w)) →
  (∀ e w', fails → served w' = served w → dw_d w' = dw_d w → Φ (inl e) w') →
  (∀ rs' w', core rs' = resize n (core rs) → served w' ≡ₚ core rs' :: s0 → dw_d w' = dw_d w → Φ (inr (negb (rs_Replicas rs =? n), rs')) w') →
  dwp (scaleReplicaSetAndRecordEvent answers rs n d) Φ w.
Proof.
  intros Hs Hnd He Hok. unfold scaleReplicaSetAndRecordEvent. destruct (rs_Replicas rs =? n) eqn:Hb; [|by eapply dwp_scaleReplicaSet; eauto; rewrite Hb].
  unfold dwp. simpl. apply (Hok rs w); [|done..]. apply Z.eqb_eq in Hb. by subst n.
Qed.

(** ** The loops over old sets *)

Lemma dwp_cleanup_loop d max l : ∀ total s0 w,
  Forall healthy l → 0 ≤ total ≤ max → max ≤ 2 ^ 30 → zsum rs_Replicas l ≤ 2 ^ 30 →
  served w ≡ₚ (core <$> l) ++ s0 → NoDup (names (served w)) →
  dwp (cleanup_loop answers d max total l) (λ r w', ∃ l',
    Forall2 (shrunk AvailableReplicas) l l' ∧ served w' ≡ₚ (core <$> l') ++ s0 ∧ NoDup (names (served w')) ∧ dw_d w' = dw_d w ∧
    match r with inl _ => fails | inr (l'', total') => l'' = l' ∧ total' = total + zsum rs_Replicas l - zsum rs_Replicas l' end) w.
Proof.
  induction l as [|t l IH]; intros total s0 w Hl Ht Hm Hsum Hs Hnd; cbn [cleanup_loop].
  { unfold dwp; simpl. exists []. repeat split; [constructor|done..|simpl; lia]. }
  assert (Forall (λ t, AvailableReplicas t ≤ rs_Replicas t) (t :: l)) as Hle by (eapply Forall_impl; [exact Hl|intros ? []; done]).
  apply Forall_cons in Hl as [[Ha Hr] Hl].
  assert (0 ≤ zsum rs_Replicas l) as H0 by (apply zsum_nonneg; eapply Forall_impl; [exact Hl|intros ? []; lia]). rewrite zsum_cons in Hsum.
  destruct (max <=? total) eqn:Hmt.
  { unfold dwp; simpl. exists (t :: l). split; [by apply shrunk_all_refl|]. repeat split; [done..|rewrite ?zsum_cons; lia]. }
  apply Z.leb_gt in Hmt. destruct ((rs_Replicas t =? 0) || _).
  - apply dwp_bind. eapply dwp_mono; [apply (IH total (core t :: s0)); try done; [lia..|]|].
    { rewrite Hs, fmap_cons. simpl. by rewrite Permutation_middle. }
    intros r w' (l' & Hl' & Hs' & Hnd' & Hd & Hr'). destruct r as [e|[l'' total']].
    + exists (t :: l'). split; [by constructor; [apply shrunk_refl|]|]. split; [by rewrite Hs', fmap_cons, <-Permutation_middle|done].
    + destruct Hr' as [-> ->]. unfold dwp; simpl. exists (t :: l'). split; [by constructor; [apply shrunk_refl|]|].
      split; [by rewrite Hs', <-Permutation_middle|]. repeat split; [done..|rewrite ?zsum_cons; lia].
  - set (k := int32 (Z.min _ _)). assert (k = Z.min (max - total) (rs_Replicas t - AvailableReplicas t)) as Hk 
      by (subst k; rewrite (int32_id (max - total)), (int32_id (rs_Replicas t - AvailableReplicas t)), int32_id; lia).
    clearbody k. rewrite int32_id by lia. rewrite (int32_id (total + k)) by lia.
    destruct (rs_Replicas t <? rs_Replicas t - k) eqn:Hbad; [apply Z.ltb_lt in Hbad; lia|].
    apply dwp_bind. eapply (dwp_scale t _ _ _ ((core <$> l) ++ s0)); [done..| |].
    + intros e w' Hf Hs' Hd. exists (t :: l). split; [by apply shrunk_all_refl|]. rewrite Hs'. done.
    + intros t' w' Ht' Hs' Hd. assert (rs_Replicas t' = rs_Replicas t - k) as Hr' by (apply (f_equal rs_Replicas) in Ht'; done).
      apply dwp_bind. eapply dwp_mono; [apply (IH (total + k) (core t' :: s0)); try done; [lia..| |]|].
      * by rewrite Hs', Permutation_middle.
      * eapply NoDup_names_perm; [exact Hs|exact Hs'| |done]. by apply (f_equal rs_Name) in Ht'.
      * intros r w2 (l' & Hl' & Hs2 & Hnd2 & Hd2 & Hr2).
        assert (Forall2 (shrunk AvailableReplicas) (t :: l) (t' :: l')) by (constructor; [split; [by rewrite Hr'|lia]|done]).
        assert (served w2 ≡ₚ (core <$> t' :: l') ++ s0) by (by rewrite Hs2, fmap_cons, <-Permutation_middle).
        destruct r as [e|[l'' total']]; [exists (t' :: l'); by rewrite Hd2|]. destruct Hr2 as [-> ->].
        unfold dwp; simpl. exists (t' :: l'). repeat split; [done..|by rewrite Hd2|rewrite ?zsum_cons; lia].
Qed.

Lemma dwp_scale_down_loop d count l : ∀ total s0 w,
  Forall (λ t, 0 ≤ rs_Replicas t) l → 0 ≤ total ≤ count → count ≤ 2 ^ 30 → zsum rs_Replicas l ≤ 2 ^ 30 →
  served w ≡ₚ (core <$> l) ++ s0 → NoDup (names (served w)) →
  dwp (scale_down_loop answers d count total l) (λ r w', ∃ l',
    Forall2 (shrunk zero) l l' ∧ served w' ≡ₚ (core <$> l') ++ s0 ∧ NoDup (names (served w')) ∧ dw_d w' = dw_d w ∧
    zsum rs_Replicas l - zsum rs_Replicas l' ≤ count - total ∧
    match r with
    | inl _ => fails
    | inr total' => total' = total + zsum rs_Replicas l - zsum rs_Replicas l' ∧ (total' = count ∨ zsum rs_Replicas l' = 0)
    end) w.
Proof.
  induction l as [|t l IH]; intros total s0 w Hl Ht Hc Hsum Hs Hnd; cbn [scale_down_loop].
  { unfold dwp; simpl. exists []. split; [constructor|]. split; [done|]. split; [done|]. split; [done|]. unfold zsum; simpl. split; [lia|]. split; [lia|by right]. }
  pose proof (shrunk_all_refl zero _ Hl) as Hrefl. apply Forall_cons in Hl as [Hr Hl].
  pose proof (zsum_nonneg _ _ Hl) as H0. rewrite zsum_cons in *.
  destruct (count <=? total) eqn:Hmt.
  { apply Z.leb_le in Hmt. unfold dwp; simpl. exists (t :: l). split; [done|].
    repeat split; [done..|rewrite ?zsum_cons; lia|rewrite ?zsum_cons; lia|left; lia]. }
  apply Z.leb_gt in Hmt. destruct (rs_Replicas t =? 0) eqn:Hz.
  - apply Z.eqb_eq in Hz. eapply dwp_mono; [apply (IH total (core t :: s0)); try done; [lia|]|].
    { rewrite Hs, fmap_cons. simpl. by rewrite Permutation_middle. }
    intros r w' (l' & Hl' & Hs' & Hnd' & Hd & Hle & Hr'). exists (t :: l'). rewrite zsum_cons.
    split; [by constructor; [apply shrunk_refl|]|]. split; [by rewrite Hs', fmap_cons, <-Permutation_middle|].
    repeat split; [done..|lia|]. destruct r as [e|total']; [done|]. destruct Hr' as [-> Hr']. split; [lia|]. destruct Hr'; [left|right]; lia.
  - set (k := int32 (Z.min _ _)). assert (k = Z.min (rs_Replicas t) (count - total)) as Hk
      by (subst k; rewrite (int32_id (count - total)), int32_id; lia).
    clearbody k. rewrite int32_id by lia. rewrite (int32_id (total + k)) by lia.
    destruct (rs_Replicas t <? rs_Replicas t - k) eqn:Hbad; [apply Z.ltb_lt in Hbad; lia|].
    apply dwp_bind. eapply (dwp_scale t _ _ _ ((core <$> l) ++ s0)); [done..| |].
    + intros e w' Hf Hs' Hd. exists (t :: l). rewrite Hs', zsum_cons. repeat split; [done..|lia|done].
    + intros t' w' Ht' Hs' Hd. assert (rs_Replicas t' = rs_Replicas t - k) as Hr' by (apply (f_equal rs_Replicas) in Ht'; done).
      eapply dwp_mono; [apply (IH (total + k) (core t' :: s0)); try done; [lia..| |]|].
      * by rewrite Hs', Permutation_middle.
      * eapply NoDup_names_perm; [exact Hs|exact Hs'| |done]. by apply (f_equal rs_Name) in Ht'.
      * intros r w2 (l' & Hl' & Hs2 & Hnd2 & Hd2 & Hle2 & Hr2). exists (t' :: l'). rewrite zsum_cons.
        split; [constructor; [split; [by rewrite Hr'|unfold zero; lia]|done]|]. split; [by rewrite Hs2, fmap_cons, <-Permutation_middle|].
        repeat split; [done|by rewrite Hd2|lia|]. destruct r as [e|total']; [done|]. destruct Hr2 as [-> Hr2]. split; [lia|].
        destruct Hr2; [left; lia|]. destruct (decide (k = rs_Replicas t)); [right; lia|]. left.
        assert (0 ≤ zsum rs_Replicas l - zsum rs_Replicas l'); [|lia].
        enough (zsum rs_Replicas l' ≤ zsum rs_Replicas l) by lia. apply zsum_Forall2, Forall2_flip. eapply Forall2_impl; [exact Hl'|]. by intros ?? [_ []].
Qed.

(** The status and the annotations of the copy may change. *)
Definition steady (w w' : dworld) : Prop := served w' = served w ∧ spec_of (dw_d w') = spec_of (dw_d w).

Lemma dwp_update_status (Φ : api_error + unit → dworld → Prop) w :
  (∀ e w', fails → steady w w' → Φ (inl e) w') → (∀ w', steady w w' → Φ (inr tt) w') → dwp (update_status answers) Φ w.
Proof.
  intros He Hok. unfold update_status. apply dwp_bind, dwp_request.
  - intros e w' Hf Hs Hd. apply He; [done|]. split; [unfold served|]; congruence.
  - intros w' Hs Hd. apply dwp_bind, dwp_get_d, dwp_modify, Hok. split; [unfold served; simpl|simpl]; congruence.
Qed.

End Steps.
