(* ===== verification/RollingUpdate.v ===== *)
(** * Rollouts: one rolling update

    What [rolloutRolling] leaves on the server, whichever requests fail: the
    new set moves towards its size, the old ones only lose pods. *)

From S2P Require Import Prelude Strconv Labels ApiTypes ActivePods AppsTypes Deployment Rollout RolloutWp.
#[local] Open Scope Z_scope.

(** ** The parameters of a rolling update *)

Record rolling (d : Deployment) (surge unavailable : Z) : Prop := {
  ro_type : d_StrategyType d = RollingUpdateDeploymentStrategyType;
  ro_surge : GetScaledValueFromIntOrPercent (d_MaxSurge d) (d_Replicas d) true = Some surge;
  ro_unavailable : GetScaledValueFromIntOrPercent (d_MaxUnavailable d) (d_Replicas d) false = Some unavailable;
  ro_replicas : 0 ≤ d_Replicas d;
  ro_surge_pos : 0 ≤ surge;
  ro_unavailable_pos : 0 ≤ unavailable ≤ 2 ^ 30;
  ro_bound : d_Replicas d + surge ≤ 2 ^ 30;
}.

(** The least number of pods that stay available. *)
Definition least (d : Deployment) : Z := d_Replicas d - MaxUnavailable d.

Lemma rolling_fenceposts d surge unavailable :
  rolling d surge unavailable →
  MaxSurge d = surge ∧ 0 ≤ MaxUnavailable d ≤ d_Replicas d ∧ (0 < d_Replicas d → 1 ≤ surge + MaxUnavailable d).
Proof.
  intros []. assert (IsRollingUpdate d = true) as Hr by (unfold IsRollingUpdate; by rewrite ro_type0).
  assert (ResolveFenceposts (d_MaxSurge d) (d_MaxUnavailable d) (d_Replicas d) =
    Some (surge, if (surge =? 0) && (unavailable =? 0) then 1 else unavailable)) as Hf.
  { unfold ResolveFenceposts. destruct (d_MaxSurge d) as [x|]; [|done]. destruct (d_MaxUnavailable d) as [y|]; [|done].
    change (ValueOrDefault (Some x) _) with (Some x). change (ValueOrDefault (Some y) _) with (Some y). rewrite ro_surge0. cbn [mbind option_bind]. rewrite ro_unavailable0. cbn [mbind option_bind].
    rewrite !int32_id; [done| |lia]. case_match; lia. }
  unfold MaxSurge, MaxUnavailable. rewrite Hr, Hf. cbn [negb orb from_option id].
  split; [done|]. destruct (d_Replicas d =? 0) eqn:Hz; [apply Z.eqb_eq in Hz; lia|]. apply Z.eqb_neq in Hz.
  destruct ((surge =? 0) && (unavailable =? 0)) eqn:Hb.
  - destruct (d_Replicas d <? 1) eqn:H1; lia.
  - apply andb_false_iff in Hb. rewrite !Z.eqb_neq in Hb. destruct (d_Replicas d <? unavailable) eqn:H1; lia.
Qed.

Lemma rolling_least d surge unavailable : rolling d surge unavailable → int32 (d_Replicas d - MaxUnavailable d) = least d ∧ 0 ≤ least d ≤ d_Replicas d.
Proof. intros H. pose proof (rolling_fenceposts _ _ _ H) as (_ & ? & _). destruct H. unfold least. rewrite int32_id; lia. Qed.

Lemma spec_of_rolling d d' surge unavailable : spec_of d = spec_of d' → rolling d surge unavailable → rolling d' surge unavailable.
Proof. unfold spec_of. intros H []. injection H as H1 H2 H3 H4 H5. constructor; rewrite <-?H1, <-?H2, <-?H3, <-?H4; done. Qed.

Lemma spec_of_least d d' : spec_of d = spec_of d' → least d = least d'.
Proof. unfold spec_of, least, MaxUnavailable, IsRollingUpdate. intros H. injection H as -> -> -> -> _. done. Qed.

Section Rolling.
Context (answers : nat → option api_error).
Context (sort : (ReplicaSet → ReplicaSet → bool) → list ReplicaSet → list ReplicaSet).
Hypothesis sort_perm : ∀ less l, sort less l ≡ₚ l.
Context (d : Deployment) (surge unavailable : Z).
Hypothesis Hd : rolling d surge unavailable.

(** ** Old sets *)

Definition full (rs : ReplicaSet) : Prop := AvailableReplicas rs = rs_Replicas rs.

Lemma healthy_Replicas l : Forall healthy l → Forall (λ rs, 0 ≤ rs_Replicas rs) l.
Proof. intros H. eapply Forall_impl; [exact H|]. intros rs []. lia. Qed.
Lemma healthy_Available l : Forall healthy l → Forall (λ rs, 0 ≤ AvailableReplicas rs) l.
Proof. intros H. eapply Forall_impl; [exact H|]. by intros rs []. Qed.

Lemma healthy_sum l : Forall healthy l → zsum AvailableReplicas l ≤ zsum rs_Replicas l.
Proof. induction 1 as [|t l [] _ IH]; [done|]. rewrite !zsum_cons. lia. Qed.

Lemma healthy_counts l : Forall healthy l → zsum rs_Replicas l ≤ 2 ^ 30 →
  GetReplicaCountForReplicaSets l = zsum rs_Replicas l ∧ GetAvailableReplicaCountForReplicaSets l = zsum AvailableReplicas l.
Proof.
  intros Hl Hs. pose proof (healthy_sum l Hl). split; apply sum32_zsum; auto using healthy_Replicas, healthy_Available; lia.
Qed.

Lemma dwp_scaleDown new l s0 w :
  Forall healthy (new :: l) → zsum rs_Replicas (new :: l) ≤ 2 ^ 30 →
  served w ≡ₚ (core <$> l) ++ s0 → NoDup (names (served w)) →
  dwp (scaleDownOldReplicaSetsForRollingUpdate answers sort (l ++ [new]) l d) (λ r w', ∃ l',
    shrinks zero l l' ∧ served w' ≡ₚ (core <$> l') ++ s0 ∧ NoDup (names (served w')) ∧ dw_d w' = dw_d w ∧
    zsum rs_Replicas l - zsum rs_Replicas l' ≤ Z.max 0 (zsum AvailableReplicas (new :: l) - least d) ∧
    match r with
    | inl _ => fails answers
    | inr _ => zsum AvailableReplicas (new :: l) - least d ≤ zsum rs_Replicas l - zsum rs_Replicas l' ∨ zsum rs_Replicas l' = 0
    end) w.
Proof.
  intros Hh Hsum Hs Hnd. unfold scaleDownOldReplicaSetsForRollingUpdate. destruct (rolling_least _ _ _ Hd) as [-> Hle].
  assert (l ++ [new] ≡ₚ new :: l) as Hp by (by rewrite Permutation_app_comm).
  assert (GetAvailableReplicaCountForReplicaSets (l ++ [new]) = zsum AvailableReplicas (new :: l)) as ->.
  { destruct (healthy_counts (l ++ [new])) as [_ ->]; rewrite Hp; done. }
  pose proof (healthy_sum _ Hh) as Ha. pose proof (zsum_nonneg _ _ (healthy_Available _ Hh)).
  destruct (_ <=? least d) eqn:Hb.
  - apply Z.leb_le in Hb. apply dwp_ret. exists l. split; [apply shrinks_refl, healthy_Replicas; by apply Forall_cons in Hh as []|].
    repeat split; [done..|lia|left; lia].
  - apply Z.leb_gt in Hb. apply Forall_cons in Hh as [[Hn0 Hn] Hh]. rewrite int32_id by lia.
    assert (zsum rs_Replicas l ≤ 2 ^ 30) by (rewrite zsum_cons in Hsum; lia).
    eapply dwp_mono; [apply (dwp_scale_down_loop answers d _ _ 0 s0)|]; rewrite ?sort_perm; auto using healthy_Replicas; [lia..|].
    intros r w' (l' & Hl' & Hs' & Hnd' & Hdd & Hk & Hr). exists l'. rewrite sort_perm in Hk.
    split; [exists (sort ByCreationTimestamp_Less l); split; [by rewrite sort_perm|done]|]. repeat split; [done..|lia|].
    destruct r as [e|total]; [done|]. destruct Hr as [-> Hr]. rewrite sort_perm in Hr. destruct Hr; [left; lia|by right].
Qed.

Lemma active_idle olds : Forall healthy olds →
  ∃ idle, FilterActiveReplicaSets olds ++ idle ≡ₚ olds ∧ Forall (λ rs, AvailableReplicas rs = 0 ∧ rs_Replicas rs = 0) idle.
Proof.
  intros Ho. exists (filter (λ rs, ¬ 0 < rs_Replicas rs) olds). split; [apply filter_app_complement|].
  rewrite Forall_forall in Ho |- *. intros rs Hrs. apply list_elem_of_filter in Hrs as [Hr Hrs]. destruct (Ho rs Hrs). lia.
Qed.

Lemma idle_sum l : Forall (λ rs, AvailableReplicas rs = 0 ∧ rs_Replicas rs = 0) l →
  zsum rs_Replicas l = 0 ∧ zsum AvailableReplicas l = 0 ∧ zsum able l = 0 ∧ shrinks zero l l.
Proof.
  intros H. assert (zsum rs_Replicas l = 0 ∧ zsum AvailableReplicas l = 0 ∧ zsum able l = 0) as (H1 & H2 & H3).
  { induction H as [|rs l [Ha Hr] _ (IH1 & IH2 & IH3)]; [done|]. rewrite !zsum_cons, IH1, IH2, IH3. unfold able. lia. }
  repeat split; [done..|]. apply shrinks_refl. eapply Forall_impl; [exact H|]. intros rs []. unfold zero. lia.
Qed.

(** What the clean up and the scaling down leave of the sets [l]. *)
Definition kept (new : ReplicaSet) (l l' : list ReplicaSet) : Prop :=
  shrinks zero l l' ∧ Z.min (least d) (zsum able (new :: l)) ≤ zsum able (new :: l') ∧
  (¬ fails answers → Forall full (new :: l) → least d < zsum rs_Replicas (new :: l) → 0 < zsum rs_Replicas l →
   zsum rs_Replicas l' < zsum rs_Replicas l).

Lemma kept_refl new l : Forall healthy l →
  (¬ fails answers → Forall full (new :: l) → least d < zsum rs_Replicas (new :: l) → 0 < zsum rs_Replicas l → False) → kept new l l.
Proof. intros Hl Hno. split; [by apply shrinks_refl, healthy_Replicas|]. split; [lia|]. intros. exfalso. eauto. Qed.

Lemma full_sum l : Forall full l → zsum AvailableReplicas l = zsum rs_Replicas l.
Proof. unfold full. induction 1 as [|rs l H _ IH]; [done|]. rewrite !zsum_cons. lia. Qed.

Lemma shrinks_healthy l l' : Forall healthy l → shrinks AvailableReplicas l l' → Forall healthy l'.
Proof.
  intros Hl (l0 & Hp & H). rewrite Hp in Hl. clear Hp. induction H as [|t t' m m' Ht _ IH]; [done|].
  apply Forall_cons in Hl as [[H0 _] Hl]. constructor; [|by apply IH]. split; rewrite (shrunk_Available _ _ _ Ht); [done|]. by destruct Ht as [_ []].
Qed.

Lemma dwp_reconcile_active new act s0 maxScaledDown w :
  Forall healthy (new :: act) → zsum rs_Replicas (new :: act) ≤ 2 ^ 30 → 0 < maxScaledDown ≤ 2 ^ 30 →
  served w ≡ₚ (core <$> act) ++ s0 → NoDup (names (served w)) →
  dwp (attempt (cleanupUnhealthyReplicas answers sort act d maxScaledDown)) (λ r w', ∃ act1,
    shrinks AvailableReplicas act act1 ∧ served w' ≡ₚ (core <$> act1) ++ s0 ∧ NoDup (names (served w')) ∧ dw_d w' = dw_d w ∧
    match r with inr (inr (l, _)) => l = act1 | inr (inl _) => fails answers | inl _ => False end) w.
Proof.
  intros Hh Hsum Hm Hs Hnd. apply dwp_attempt. unfold cleanupUnhealthyReplicas. rewrite zsum_cons in Hsum.
  apply Forall_cons in Hh as [[Hn0 Hn] Hh].
  eapply dwp_mono; [apply (dwp_cleanup_loop answers d _ _ 0 s0)|]; rewrite ?sort_perm; try done; [lia..|].
  intros r w' (l' & Hl' & Hs' & Hnd' & Hdd & Hr). exists l'.
  split; [exists (sort ByCreationTimestamp_Less act); split; [by rewrite sort_perm|done]|]. repeat split; [done..|].
  destruct r as [e|[l'' total]]; [done|]. by destruct Hr as [-> _].
Qed.

Lemma kept_scaled new act act1 act2 :
  Forall healthy (new :: act) → shrinks AvailableReplicas act act1 → shrinks zero act1 act2 →
  zsum rs_Replicas act1 - zsum rs_Replicas act2 ≤ Z.max 0 (zsum AvailableReplicas (new :: act1) - least d) →
  fails answers ∨ zsum AvailableReplicas (new :: act1) - least d ≤ zsum rs_Replicas act1 - zsum rs_Replicas act2 ∨ zsum rs_Replicas act2 = 0 →
  kept new act act2.
Proof.
  intros Hh H1 H2 Hk Hp. apply Forall_cons in Hh as [[Hn0 Hn] Hh]. destruct (shrinks_able _ _ H1) as [Ha1 Hav]. pose proof (shrinks_loss _ _ H2) as Hl.
  rewrite !zsum_cons in *. rewrite Hav in *. split; [by eapply shrinks_trans; [| |apply healthy_Available]|].
  assert (able new = AvailableReplicas new) by (unfold able; lia).
  split; [rewrite !zsum_cons, (healthy_able act Hh); lia|].
  intros Hnf Hf Hle Hpos. rewrite zsum_cons in Hle. apply Forall_cons in Hf as [Hfn Hf]. rewrite (full_sum _ Hf) in *.
  rewrite (shrinks_full _ _ Hf H1) in *. unfold full in Hfn. destruct Hp as [?|[?|?]]; [done|lia..].
Qed.

Lemma kept_cleanup new act act1 : Forall healthy (new :: act) → shrinks AvailableReplicas act act1 → fails answers → kept new act act1.
Proof.
  intros Hh H1 Hf. eapply kept_scaled; [done|exact H1| |lia|by left].
  apply shrinks_refl, healthy_Replicas. eapply shrinks_healthy; [|exact H1]. by apply Forall_cons in Hh as [].
Qed.

Lemma kept_idle new act idle act' :
  Forall (λ rs, AvailableReplicas rs = 0 ∧ rs_Replicas rs = 0) idle → kept new act act' → kept new (act ++ idle) (act' ++ idle).
Proof.
  intros Hi (H1 & H2 & H3). destruct (idle_sum _ Hi) as (Hi1 & Hi2 & Hi3 & Hi4). split; [by apply shrinks_app|].
  rewrite !zsum_cons, !zsum_app in *. split; [lia|]. intros Hnf Hf Hle Hpos. rewrite Forall_cons, Forall_app in Hf. destruct Hf as (Hn & Hf & _).
  specialize (H3 Hnf). rewrite Forall_cons in H3. specialize (H3 (conj Hn Hf)). lia.
Qed.

Lemma kept_perm new l k l' : l ≡ₚ k → kept new l l' → kept new k l'.
Proof.
  intros Hp (H1 & H2 & H3). rewrite !zsum_cons in *. split; [by rewrite <-Hp|]. rewrite !zsum_cons, <-(zsum_perm _ _ _ Hp). split; [done|].
  intros Hnf Hf Hle Hpos. rewrite <-(zsum_perm _ _ _ Hp) in *. apply H3; [done|by rewrite Hp|done..].
Qed.

Lemma dwp_reconcileOld new olds w :
  Forall healthy (new :: olds) → zsum rs_Replicas (new :: olds) ≤ 2 ^ 30 →
  served w ≡ₚ core new :: (core <$> olds) → NoDup (names (served w)) →
  dwp (reconcileOldReplicaSets answers sort (olds ++ [new]) (FilterActiveReplicaSets olds) new d) (λ r w', ∃ b olds',
    r = inr b ∧ kept new olds olds' ∧ served w' ≡ₚ core new :: (core <$> olds') ∧ NoDup (names (served w')) ∧ dw_d w' = dw_d w) w.
Proof.
  intros Hh Hsum Hs Hnd. unfold reconcileOldReplicaSets. destruct (rolling_least _ _ _ Hd) as [-> Hle].
  assert (olds ++ [new] ≡ₚ new :: olds) as Hp by (by rewrite Permutation_app_comm).
  destruct (healthy_counts (olds ++ [new])) as [-> _]; [by rewrite Hp|by rewrite Hp|]. rewrite (zsum_perm _ _ _ Hp).
  pose proof (ro_bound _ _ _ Hd) as Hbound. pose proof (ro_surge_pos _ _ _ Hd) as Hpos.
  assert (Forall healthy olds) as Ho by (by apply Forall_cons in Hh as []). destruct (active_idle olds Ho) as (idle & Hact & Hidle).
  set (act := FilterActiveReplicaSets olds) in *. destruct (idle_sum _ Hidle) as (Hi1 & _).
  assert (zsum rs_Replicas olds = zsum rs_Replicas act) as Hoa by (rewrite <-Hact, zsum_app; lia).
  assert (Forall healthy (new :: act)) as Hha.
  { rewrite <-Hact, Forall_cons, Forall_app in Hh. rewrite Forall_cons. tauto. }
  assert (0 ≤ zsum rs_Replicas olds) by (by apply zsum_nonneg, healthy_Replicas).
  assert (healthy new) as [Hn0 Hn] by (by apply Forall_cons in Hh as []). rewrite zsum_cons in *.
  destruct (healthy_counts act) as [-> _]; [by apply Forall_cons in Hha as []|lia|]. rewrite <-Hoa.
  assert (kept new olds olds → dwp (mret false) (λ r w', ∃ b olds',
    r = inr b ∧ kept new olds olds' ∧ served w' ≡ₚ core new :: (core <$> olds') ∧ NoDup (names (served w')) ∧ dw_d w' = dw_d w) w) as Hskip
    by (intros Hk; apply dwp_ret; by exists false, olds).
  destruct (_ =? 0) eqn:Hz; [apply Hskip, kept_refl; [done|]; apply Z.eqb_eq in Hz; intros; lia|].
  rewrite (int32_id (_ - least d)), (int32_id (rs_Replicas new - _)), int32_id by lia.
  destruct (_ <=? 0) eqn:Hm.
  { apply Hskip, kept_refl; [done|]. apply Z.leb_le in Hm. intros _ Hf Hlt _. rewrite zsum_cons in Hlt. apply Forall_cons in Hf as [Hf _].
    unfold full in Hf. lia. }
  apply Z.leb_gt in Hm. apply dwp_bind. eapply dwp_mono; [apply (dwp_reconcile_active new act (core new :: (core <$> idle)))|]; try done.
  { rewrite zsum_cons. lia. } { lia. } { by rewrite Hs, <-Hact, fmap_app, Permutation_middle. }
  intros r w1 (act1 & H1 & Hs1 & Hnd1 & Hd1 & Hr). destruct r as [e|[e|[l count]]]; [done| |subst l].
  { apply dwp_ret. exists false, (act1 ++ idle). split; [done|]. split; [by apply (kept_perm _ _ _ _ Hact), kept_idle, kept_cleanup|].
    split; [by rewrite Hs1, fmap_app, Permutation_middle|done]. }
  apply dwp_bind, dwp_attempt. eapply dwp_mono; [apply (dwp_scaleDown new act1 (core new :: (core <$> idle)))|]; try done.
  { constructor; [done|]. eapply shrinks_healthy; [|exact H1]. by apply Forall_cons in Hha as []. }
  { rewrite zsum_cons. pose proof (shrinks_sum _ _ _ H1). lia. }
  intros r w2 (act2 & H2 & Hs2 & Hnd2 & Hd2 & Hk & Hr).
  assert (kept new olds (act2 ++ idle)) as Hkept.
  { apply (kept_perm _ _ _ _ Hact), kept_idle; [done|]. eapply kept_scaled; [done|exact H1|done..|]. destruct r; auto. }
  assert (served w2 ≡ₚ core new :: (core <$> act2 ++ idle)) as Hs' by (by rewrite Hs2, fmap_app, Permutation_middle).
  rewrite Hd1 in Hd2. destruct r as [e|n]; apply dwp_ret; eexists _, _; eauto.
Qed.

(** ** The new set *)

Lemma rolling_NewRSNewReplicas l new :
  Forall healthy l → zsum rs_Replicas l ≤ 2 ^ 30 → 0 ≤ rs_Replicas new ≤ d_Replicas d →
  NewRSNewReplicas d l new =
    Some (rs_Replicas new + Z.min (Z.max 0 (d_Replicas d + surge - zsum rs_Replicas l)) (d_Replicas d - rs_Replicas new)).
Proof.
  intros Hl Hs Hn. pose proof Hd as []. unfold NewRSNewReplicas. rewrite ro_type0, String.eqb_refl.
  rewrite ro_surge0. cbn [mbind option_bind]. destruct (healthy_counts l) as [-> _]; [done..|].
  pose proof (zsum_nonneg _ _ (healthy_Replicas _ Hl)).
  rewrite (int32_id surge), (int32_id (d_Replicas d + surge)) by lia. destruct (_ <=? _) eqn:Hb; [apply Z.leb_le in Hb; f_equal; lia|].
  apply Z.leb_gt in Hb. rewrite (int32_id (_ - zsum _ _)), (int32_id (d_Replicas d - _)), (int32_id (Z.min _ _)), int32_id by lia. f_equal. lia.
Qed.

(** A change of size of the new set. *)
Definition moved (x y total : Z) : Prop :=
  (d_Replicas d < x ∧ y = d_Replicas d) ∨ (x < y ≤ d_Replicas d ∧ total + (y - x) ≤ d_Replicas d + surge).

Definition new_after (new : ReplicaSet) (olds : list ReplicaSet) (w : dworld) (r : api_error + bool) (w' : dworld) : Prop :=
  dw_d w' = dw_d w ∧
  match r with
  | inr true => ∃ new', core new' = resize (rs_Replicas new') (core new) ∧ served w' ≡ₚ core new' :: (core <$> olds) ∧
      moved (rs_Replicas new) (rs_Replicas new') (zsum rs_Replicas (new :: olds))
  | inr false => served w' ≡ₚ core new :: (core <$> olds) ∧ NoDup (names (served w')) ∧
      (rs_Replicas new = d_Replicas d ∨ rs_Replicas new < d_Replicas d ∧ d_Replicas d + surge ≤ zsum rs_Replicas (new :: olds))
  | inl _ => fails answers ∧ served w' ≡ₚ core new :: (core <$> olds)
  end.

Lemma dwp_reconcileNew new olds w :
  Forall healthy (new :: olds) → zsum rs_Replicas (new :: olds) ≤ 2 ^ 30 →
  served w ≡ₚ core new :: (core <$> olds) → NoDup (names (served w)) →
  dwp (reconcileNewReplicaSet answers (olds ++ [new]) new d) (new_after new olds w) w.
Proof.
  intros Hh Hsum Hs Hnd. pose proof Hd as []. unfold reconcileNewReplicaSet.
  assert (olds ++ [new] ≡ₚ new :: olds) as Hp by (by rewrite Permutation_app_comm).
  assert (∀ n, n ≠ rs_Replicas new → moved (rs_Replicas new) n (zsum rs_Replicas (new :: olds)) →
    dwp ('(scaled, _) ← scaleReplicaSetAndRecordEvent answers new n d; mret scaled) (new_after new olds w) w) as Hscale.
  { intros n Hn Hm. apply dwp_bind. eapply dwp_scale; [done..| |].
    - intros e w' Hf Hs' Hd'. split; [done|]. by rewrite Hs'.
    - intros rs' w' Hc Hs' Hd'. apply dwp_ret. rewrite (proj2 (Z.eqb_neq _ _)) by done. split; [done|]. exists rs'.
      assert (rs_Replicas rs' = n) as -> by (by apply (f_equal rs_Replicas) in Hc). done. }
  destruct (rs_Replicas new =? d_Replicas d) eqn:He; [apply Z.eqb_eq in He; apply dwp_ret; unfold new_after; auto|]. apply Z.eqb_neq in He.
  destruct (d_Replicas d <? rs_Replicas new) eqn:Hlt.
  { apply Z.ltb_lt in Hlt. apply Hscale; [done|]. by left. }
  apply Z.ltb_ge in Hlt. assert (healthy new) as [Hn0 Hn] by (by apply Forall_cons in Hh as []).
  rewrite rolling_NewRSNewReplicas; [|by rewrite Hp|by rewrite Hp|lia]. rewrite (zsum_perm _ _ _ Hp).
  set (n := _ + _). destruct (decide (n = rs_Replicas new)) as [Hsame|Hdiff].
  - rewrite Hsame. apply dwp_bind. unfold scaleReplicaSetAndRecordEvent. rewrite Z.eqb_refl. change (new_after new olds w (inr false) w). repeat split; [done..|].
    right. subst n. lia.
  - apply Hscale; [done|]. right. subst n. lia.
Qed.

(** ** Clean up and status *)

Lemma dwp_status l new now w :
  dwp (syncRolloutStatus answers now l new) (λ r w', steady w w' ∧ match r with inl _ => fails answers | inr _ => True end) w.
Proof.
  unfold syncRolloutStatus. apply dwp_bind, dwp_get_d. case_bool_decide; [by destruct requeueStuckDeployment; [apply dwp_modify|apply dwp_ret]|].
  apply dwp_bind, dwp_modify, dwp_update_status; intros; split; done.
Qed.

Lemma filter_served name (l : list ReplicaSet) : core <$> filter (λ r, rs_Name r ≠ name) l = filter (λ r, rs_Name r ≠ name) (core <$> l).
Proof.
  induction l as [|r l IH]; [done|]. rewrite fmap_cons, !filter_cons. change (rs_Name (core r)) with (rs_Name r).
  destruct (decide _); [rewrite fmap_cons|]; by rewrite IH.
Qed.

(** The sets that a clean up deletes have no pods. *)
Definition cleaned (l : list ReplicaSet) (s s' : list ReplicaSet) : Prop :=
  ∃ gone, s ≡ₚ gone ++ s' ∧ Forall (λ r, rs_Replicas r = 0 ∧ rs_Name r ∈ names l) gone.

Definition agree (l s : list ReplicaSet) : Prop :=
  ∀ rs r, rs ∈ l → r ∈ s → rs_Name r = rs_Name rs → rs_Replicas rs = 0 → rs_Replicas r = 0.

Lemma cleaned_refl l s : cleaned l s s.
Proof. by exists []. Qed.

Lemma dwp_cleanup_sets l : ∀ w, agree l (served w) →
  dwp (cleanup_sets answers l) (λ r w', cleaned l (served w) (served w') ∧ dw_d w' = dw_d w ∧
    match r with inl _ => fails answers | inr _ => True end) w.
Proof.
  induction l as [|rs l IH]; intros w Hw; cbn [cleanup_sets]; [apply dwp_ret; auto using cleaned_refl|].
  assert (∀ w', served w' = served w → dw_d w' = dw_d w → dwp (cleanup_sets answers l) (λ r w', cleaned (rs :: l) (served w) (served w') ∧ dw_d w' = dw_d w ∧
    match r with inl _ => fails answers | inr _ => True end) w') as Hnext.
  { intros w' Hs Hdw. eapply dwp_mono; [apply IH; rewrite Hs; intros ? ? ? ?; apply Hw; [by right|done]|].
    intros r w2 ((gone & Hg & Hf) & Hd2 & Hr). rewrite Hs in Hg. repeat split; [|congruence|done]. exists gone. split; [done|].
    eapply Forall_impl; [exact Hf|]. intros g []. split; [done|]. by right. }
  destruct (_ || _) eqn:Hb; [by apply Hnext|]. rewrite !orb_false_iff, !negb_false_iff, !Z.eqb_eq in Hb. destruct Hb as [[[_ Hz] _] _].
  apply dwp_bind, dwp_attempt. unfold delete_set. apply dwp_bind, dwp_request.
  - intros e w' Hf Hs Hdw. destruct (IsNotFound e); [apply Hnext; [unfold served; congruence|done]|].
    unfold dwp, fail. assert (served w' = served w) as -> by (unfold served; congruence). auto using cleaned_refl.
  - intros w' Hs Hdw. apply dwp_modify. set (w1 := with_sets _ w').
    assert (served w1 = filter (λ r, rs_Name r ≠ rs_Name rs) (served w)) as Hs1 by (unfold served; simpl; by rewrite Hs, filter_served).
    eapply dwp_mono; [apply IH; rewrite Hs1; intros ? ? ? Hin; apply Hw; [by right|by apply list_elem_of_filter in Hin as []]|].
    intros r w2 ((gone & Hg & Hf) & Hd2 & Hr). repeat split; [|simpl in Hd2; congruence|done].
    exists (filter (λ r, ¬ rs_Name r ≠ rs_Name rs) (served w) ++ gone). split.
    { rewrite <-app_assoc, <-Hg, Hs1, Permutation_app_comm. symmetry. apply filter_app_complement. }
    apply Forall_app. split.
    + apply Forall_forall. intros g Hg'. apply list_elem_of_filter in Hg' as [Hn Hg']. destruct (decide (rs_Name g = rs_Name rs)) as [Hn'|]; [|done].
      split; [by apply (Hw rs); [left|..]|]. unfold names. rewrite fmap_cons, Hn'. left.
    + eapply Forall_impl; [exact Hf|]. intros g []. split; [done|]. by right.
Qed.

Lemma dwp_cleanupDeployment olds w : agree olds (served w) →
  dwp (cleanupDeployment answers sort olds d) (λ r w', cleaned olds (served w) (served w') ∧ dw_d w' = dw_d w ∧
    match r with inl _ => fails answers | inr _ => True end) w.
Proof.
  intros Hw. unfold cleanupDeployment. destruct (negb _); [apply dwp_ret; auto using cleaned_refl|].
  destruct (_ <=? 0); [apply dwp_ret; auto using cleaned_refl|]. set (l := take _ _).
  assert (∀ rs, rs ∈ l → rs ∈ olds) as Hl.
  { intros rs Hrs. subst l. apply subseteq_take in Hrs. rewrite sort_perm in Hrs. by apply list_elem_of_filter in Hrs as []. }
  eapply dwp_mono; [apply dwp_cleanup_sets; intros rs r Hrs; apply Hw, Hl, Hrs|].
  intros r w' ((gone & Hg & Hf) & Hr). split; [|done]. exists gone. split; [done|]. eapply Forall_impl; [exact Hf|]. intros g [Hz Hn]. split; [done|].
  apply list_elem_of_fmap in Hn as (rs & -> & Hrs). by apply list_elem_of_fmap_2, Hl.
Qed.

Lemma set_names_inj l a b : NoDup (names l) → a ∈ l → b ∈ l → rs_Name a = rs_Name b → a = b.
Proof.
  intros Hnd Ha Hb Hn. apply list_elem_of_lookup in Ha as [i Ha]. apply list_elem_of_lookup in Hb as [j Hb].
  assert (i = j) as ->; [|congruence]. apply (NoDup_lookup (names l) i j (rs_Name a) Hnd); unfold names; rewrite list_lookup_fmap.
  - by rewrite Ha.
  - by rewrite Hb, Hn.
Qed.

Lemma shrinks_agree new olds olds' : NoDup (names (new :: olds)) → shrinks zero olds olds' → agree olds (core new :: (core <$> olds')).
Proof.
  intros Hnd (l0 & Hp & H2) rs r Hrs Hr Hn Hz. apply NoDup_cons in Hnd as [Hnew Hnd]. apply elem_of_cons in Hr as [->|Hr].
  { destruct Hnew. change (rs_Name new) with (rs_Name (core new)). rewrite Hn. by apply list_elem_of_fmap_2. }
  apply list_elem_of_fmap in Hr as (t' & -> & Ht'). apply list_elem_of_lookup in Ht' as [i Ht'].
  destruct (Forall2_lookup_r _ _ _ _ _ H2 Ht') as (t & Ht & Hc & Hle).
  assert (t = rs) as ->.
  { apply (set_names_inj olds); [done|rewrite Hp; by apply list_elem_of_lookup_2 with i|done|]. apply (f_equal rs_Name) in Hc. rewrite <-Hn. done. }
  unfold zero in Hle. change (rs_Replicas t' = 0). lia.
Qed.

(** ** One rolling update *)

Inductive rolled (new : ReplicaSet) (olds : list ReplicaSet) : ReplicaSet → list ReplicaSet → Prop :=
| rolled_new new' : core new' = resize (rs_Replicas new') (core new) →
    moved (rs_Replicas new) (rs_Replicas new') (zsum rs_Replicas (new :: olds)) → rolled new olds new' olds
| rolled_old olds' : kept new olds olds' →
    rs_Replicas new = d_Replicas d ∨ rs_Replicas new < d_Replicas d ∧ d_Replicas d + surge ≤ zsum rs_Replicas (new :: olds) →
    rolled new olds new olds'
| rolled_fails : fails answers → rolled new olds new olds.

Lemma dwp_roll new olds now w :
  Forall healthy (new :: olds) → zsum rs_Replicas (new :: olds) ≤ 2 ^ 30 →
  served w ≡ₚ core new :: (core <$> olds) → NoDup (names (served w)) →
  dwp (roll answers sort now new olds d) (λ r w', ∃ new' olds',
    rolled new olds new' olds' ∧ cleaned olds (core new' :: (core <$> olds')) (served w') ∧
    spec_of (dw_d w') = spec_of (dw_d w) ∧ match r with inl _ => fails answers | inr _ => True end) w.
Proof.
  intros Hh Hsum Hs Hnd. assert (NoDup (names (new :: olds))) as Hnd0.
  { rewrite <-names_core, fmap_cons. unfold names in *. by rewrite <-Hs. }
  unfold roll. apply dwp_bind. eapply dwp_mono; [by apply dwp_reconcileNew|]. intros r w1 [Hd1 Hr]. destruct r as [e|[|]].
  - destruct Hr as [Hf Hs1]. exists new, olds. repeat split; [by apply rolled_fails| |by rewrite Hd1|done]. exists []. by rewrite Hs1.
  - destruct Hr as (new' & Hc & Hs1 & Hm). eapply dwp_mono; [apply dwp_status|]. intros r w2 [[Hs2 Hd2] Hr].
    exists new', olds. repeat split; [by apply rolled_new| |by rewrite Hd2, Hd1|done]. exists []. by rewrite Hs2, Hs1.
  - destruct Hr as (Hs1 & Hnd1 & Hx). apply dwp_bind. eapply dwp_mono; [by apply dwp_reconcileOld|].
    intros r w2 (b & olds' & -> & Hk & Hs2 & Hnd2 & Hd2). destruct b.
    { eapply dwp_mono; [apply dwp_status|]. intros r w3 [[Hs3 Hd3] Hr]. exists new, olds'.
      repeat split; [by apply rolled_old| |by rewrite Hd3, Hd2, Hd1|done]. exists []. by rewrite Hs3, Hs2. }
    apply dwp_bind. apply dwp_mono with (λ r w', cleaned olds (served w2) (served w') ∧ dw_d w' = dw_d w2 ∧
      match r with inl _ => fails answers | inr _ => True end).
    { destruct (DeploymentComplete _ _); [|apply dwp_ret; auto using cleaned_refl]. apply dwp_cleanupDeployment.
      intros rs r Hrs Hr. rewrite Hs2 in Hr. revert Hr. eapply shrinks_agree; [done|by destruct Hk|done]. }
    intros r w3 (Hcl & Hd3 & Hr). assert (cleaned olds (core new :: (core <$> olds')) (served w3)) as Hcl'.
    { destruct Hcl as (gone & Hg & Hgf). exists gone. by rewrite <-Hs2. }
    destruct r as [e|u]; [exists new, olds'; repeat split; [by apply rolled_old|done|by rewrite Hd3, Hd2, Hd1|done]|].
    eapply dwp_mono; [apply dwp_status|]. intros r w4 [[Hs4 Hd4] Hr4]. exists new, olds'.
    repeat split; [by apply rolled_old| |by rewrite Hd4, Hd3, Hd2, Hd1|done]. by rewrite Hs4.
Qed.

End Rolling.
