(* ===== verification/RolloutSets.v ===== *)
(** * Rollouts: the new set and the old ones

    Which of the listed sets is the new one, and what the synchronisation of
    revisions does when there is none yet. *)

From Stdlib Require Import Sorted.
From S2P Require Import Prelude Strconv Labels ApiTypes ActivePods AppsTypes Deployment Rollout RolloutWp RollingUpdate.
#[local] Open Scope Z_scope.

Definition is_inl {A B} (x : A + B) : bool := match x with inl _ => true | inr _ => false end.

Definition uids (l : list ReplicaSet) : list string := rs_UID <$> l.

Lemma filter_uid x (l : list ReplicaSet) : NoDup (uids l) → x ∈ l → x :: filter (λ rs, rs_UID rs ≠ rs_UID x) l ≡ₚ l.
Proof.
  intros Hnd Hx. rewrite <-(filter_app_complement (λ rs, rs_UID rs ≠ rs_UID x) l) at 2.
  assert (filter (λ rs, ¬ rs_UID rs ≠ rs_UID x) l = [x]) as ->; [|by rewrite Permutation_app_comm].
  apply list_elem_of_split in Hx as (l1 & l2 & ->). unfold uids in Hnd. rewrite fmap_app, fmap_cons in Hnd.
  apply NoDup_app in Hnd as (_ & H1 & H2). apply NoDup_cons in H2 as [H2 _]. rewrite filter_app, filter_cons_True by (intros H; by destruct H).
  assert (∀ k, rs_UID x ∉ rs_UID <$> k → filter (λ rs, ¬ rs_UID rs ≠ rs_UID x) k = []) as Hk.
  { intros k Hk. apply elem_of_nil_inv. intros y Hy. apply list_elem_of_filter in Hy as [Hn Hy]. destruct Hn as []. intros Hu. apply Hk. rewrite <-Hu.
    by apply list_elem_of_fmap_2. }
  rewrite !Hk; [done|done|]. intros Hin. apply (H1 _ Hin). left.
Qed.

(** ** The order by age *)

Definition strict_weak {A} (less : A → A → bool) : Prop :=
  (∀ a, less a a = false) ∧ (∀ a b c, less a b = true → less b c = true → less a c = true) ∧
  (∀ a b c, less a b = false → less b c = false → less a c = false).

Definition time_lt (t1 t2 : option Z) : Prop :=
  match t1, t2 with Some t1, Some t2 => t1 < t2 | None, Some _ => True | _, None => False end.

Lemma Less_false a b : ByCreationTimestamp_Less a b = false ↔
  time_lt (rs_CreationTimestamp b) (rs_CreationTimestamp a) ∨
  rs_CreationTimestamp a = rs_CreationTimestamp b ∧ string_le (rs_Name b) (rs_Name a).
Proof.
  unfold ByCreationTimestamp_Less, string_le, String.ltb, String.leb. rewrite (String.compare_antisym (rs_Name b) (rs_Name a)).
  case_bool_decide as Ht.
  - rewrite Ht. assert (¬ time_lt (rs_CreationTimestamp b) (rs_CreationTimestamp b)) by (destruct (rs_CreationTimestamp b); simpl; [lia|tauto]).
    destruct (rs_Name a ?= rs_Name b)%string; simpl; intuition discriminate.
  - unfold time_Before, time_lt. destruct (rs_CreationTimestamp a) as [x|], (rs_CreationTimestamp b) as [y|]; rewrite ?Z.ltb_ge; try (intuition congruence).
    split; [|intuition (congruence || lia)]. intros Hle. left. assert (x ≠ y) by congruence. lia.
Qed.

Lemma time_lt_trans t1 t2 t3 : time_lt t1 t2 → time_lt t2 t3 → time_lt t1 t3.
Proof. destruct t1, t2, t3; simpl; lia || done. Qed.

Lemma creation_ntrans a b c :
  ByCreationTimestamp_Less a b = false → ByCreationTimestamp_Less b c = false → ByCreationTimestamp_Less a c = false.
Proof.
  rewrite !Less_false. intros [H1|[E1 N1]] [H2|[E2 N2]].
  - left. by eapply time_lt_trans.
  - left. by rewrite <-E2.
  - left. by rewrite E1.
  - right. split; [congruence|]. by etrans.
Qed.

Lemma creation_total a b : ByCreationTimestamp_Less a b = false ∨ ByCreationTimestamp_Less b a = false.
Proof.
  rewrite !Less_false. destruct (decide (rs_CreationTimestamp a = rs_CreationTimestamp b)) as [He|Hne].
  - destruct (total string_le (rs_Name a) (rs_Name b)); [right|left]; right; done.
  - unfold time_lt. destruct (rs_CreationTimestamp a) as [x|], (rs_CreationTimestamp b) as [y|]; [|by left; left|by right; left|done].
    assert (x ≠ y) by congruence. destruct (decide (x < y)); [right|left]; left; lia.
Qed.

Lemma strict_weak_intro {A} (less : A → A → bool) :
  (∀ a b, less a b = false ∨ less b a = false) → (∀ a b c, less a b = false → less b c = false → less a c = false) → strict_weak less.
Proof.
  intros Htot Hn. split; [intros a; by destruct (Htot a a)|]. split; [|done]. intros a b c H1 H2. apply not_false_is_true. intros H3.
  destruct (Htot b a) as [H4|H4]; [|congruence]. by rewrite (Hn b a c H4 H3) in H2.
Qed.

Lemma creation_strict_weak : strict_weak ByCreationTimestamp_Less.
Proof. apply strict_weak_intro; [exact creation_total|exact creation_ntrans]. Qed.

Section NewSet.
Context (answers : nat → option api_error).
Context (sort : (ReplicaSet → ReplicaSet → bool) → list ReplicaSet → list ReplicaSet).
Hypothesis sort_perm : ∀ less l, sort less l ≡ₚ l.
Hypothesis sort_sorts : ∀ less, strict_weak less → ∀ l, StronglySorted (λ a b, less b a = false) (sort less l).
Context (DeepEqual : Pod → Pod → bool).
Hypothesis DeepEqual_refl : ∀ p, DeepEqual p p = true.
Hypothesis DeepEqual_sym : ∀ p q, DeepEqual p q = DeepEqual q p.
Context (ComputeHash : Pod → option Z → string).
Context (assigned : nat → string * Z).
Context (lister : string → api_error + ReplicaSet).
Context (now : Z).

(** ** The new set *)

Definition matching (template : Pod) (rs : ReplicaSet) : Prop := EqualIgnoreHash DeepEqual (rs_Template rs) template = true.

(** The oldest set with the template. *)
Definition oldest (template : Pod) (l : list ReplicaSet) (x : ReplicaSet) : Prop :=
  x ∈ l ∧ matching template x ∧ ∀ y, y ∈ l → matching template y → ByCreationTimestamp_Less y x = false.

Lemma order_antisym a b : ByCreationTimestamp_Less a b = false → ByCreationTimestamp_Less b a = false → rs_Name a = rs_Name b.
Proof.
  rewrite !Less_false. assert (∀ t, ¬ time_lt t t) as Hirr by (intros []; simpl; [lia|tauto]).
  intros [H1|[E1 N1]] [H2|[E2 N2]]; [by destruct (Hirr _ (time_lt_trans _ _ _ H1 H2))| | |by apply String.leb_antisym].
  - rewrite E2 in H1. by destruct (Hirr _ H1).
  - rewrite E1 in H2. by destruct (Hirr _ H2).
Qed.

Lemma oldest_unique template l x y : NoDup (names l) → oldest template l x → oldest template l y → x = y.
Proof. intros Hnd (Hx & Hmx & Hlx) (Hy & Hmy & Hly). apply (set_names_inj l); auto using order_antisym. Qed.

Lemma FindNew_spec d l :
  match FindNewReplicaSet sort DeepEqual d l with
  | (Some x, l') => oldest (d_Template d) l x ∧ l' = sort ByCreationTimestamp_Less l
  | (None, l') => (∀ y, y ∈ l → ¬ matching (d_Template d) y) ∧ l' = sort ByCreationTimestamp_Less l
  end.
Proof.
  unfold FindNewReplicaSet. pose proof (sort_sorts _ creation_strict_weak l) as Hs. pose proof (sort_perm ByCreationTimestamp_Less l) as Hp.
  set (k := sort _ l) in *. destruct (list_find _ k) as [[i x]|] eqn:Hf; simpl.
  - apply list_find_Some in Hf as (Hi & Hm & Hfirst). split; [|done]. split; [rewrite <-Hp; by apply list_elem_of_lookup_2 with i|]. split; [done|].
    intros y Hy Hmy. rewrite <-Hp in Hy. apply list_elem_of_lookup in Hy as [j Hj]. destruct (decide (j = i)) as [->|Hne].
    { assert (x = y) as -> by congruence. apply creation_strict_weak. }
    assert (i < j)%nat as Hij. { destruct (decide (j < i)%nat); [|lia]. by destruct (Hfirst j y). }
    rewrite <-(take_drop_middle k i x Hi) in Hs. apply StronglySorted_app_1_r, StronglySorted_cons in Hs as [Hs _].
    rewrite Forall_forall in Hs. apply Hs. apply list_elem_of_lookup. exists (j - S i)%nat. rewrite lookup_drop. by replace (S i + (j - S i))%nat with j by lia.
  - apply list_find_None in Hf. split; [|done]. intros y Hy. rewrite <-Hp in Hy. rewrite Forall_forall in Hf. by apply Hf.
Qed.

Lemma spec_of_Meta d a status : spec_of (with_DStatus (with_DMeta d a (d_Template d)) status) = spec_of d.
Proof. done. Qed.

Lemma SetDeploymentRevision_spec d revision : spec_of (SetDeploymentRevision d revision).1 = spec_of d.
Proof. unfold SetDeploymentRevision. by case_match. Qed.

(** Both ends of [getNewReplicaSet]: the copy is changed, and written. *)
Lemma dwp_write {A} (d : Deployment) (b : bool) (a : A) w :
  spec_of d = spec_of (dw_d w) →
  dwp (_ ← modify (with_d d); _ ← (if b then update_status answers else mret tt); mret a)
    (λ r w', steady w w' ∧ match r with inl _ => fails answers | inr a' => a' = a end) w.
Proof.
  intros Hd. apply dwp_bind, dwp_modify, dwp_bind. destruct b; [|by apply dwp_ret].
  apply dwp_update_status; [intros e w' Hf [Hs Hw]; by split; [split; [|rewrite Hw]|]|].
  intros w' [Hs Hw]. apply dwp_ret. by split; [split; [|rewrite Hw]|].
Qed.

Lemma dwp_existing_set x s0 revision w :
  served w ≡ₚ core x :: s0 → NoDup (names (served w)) →
  dwp (existing_set answers now (dw_d w) x revision) (λ r w', served w' ≡ₚ served w ∧ spec_of (dw_d w') = spec_of (dw_d w) ∧
    match r with inl _ => fails answers | inr rs => core rs = core x end) w.
Proof.
  intros Hs Hnd. unfold existing_set. destruct (SetNewReplicaSetAnnotations _ _ _ _) as [annotations updated]. destruct (_ || _).
  - apply (dwp_update_set answers x _ s0); [done..|intros e w' Hf Hs' Hd'; by rewrite Hs', Hd'|].
    intros w' Hs' Hd'. rewrite Hd'. split; [by rewrite Hs', Hs|done].
  - pose proof (SetDeploymentRevision_spec (dw_d w) (default ""%string (annotations !! RevisionAnnotation))) as Hrev.
    destruct (SetDeploymentRevision _ _) as [d1 needs]. cbn [fst] in Hrev. set (pair := match HasProgressDeadline d1 with true => _ | false => _ end).
    assert (spec_of pair.1 = spec_of (dw_d w)) as Hp by (unfold pair; repeat case_match; done).
    destruct pair as [d2 needs2]. eapply dwp_mono; [by apply dwp_write|]. intros r w' [[Hs' Hd'] Hr]. rewrite Hs'. split; [done|]. split; [done|].
    destruct r; [done|]. by subst.
Qed.

(** ** A new set is created *)

Lemma dwp_create_set rs w (Φ : api_error + ReplicaSet → dworld → Prop) :
  (∀ e w', fails answers → steady w w' → Φ (inl e) w') →
  (rs_Name rs ∈ names (served w) → ∀ w', steady w w' → Φ (inl (mkError AlreadyExists "already exists")) w') →
  (∀ n w', rs_Name rs ∉ names (served w) → served w' = served w ++ [core (with_Identity rs (assigned n))] → spec_of (dw_d w') = spec_of (dw_d w) →
     Φ (inr (with_Identity rs (assigned n))) w') →
  dwp (create_set answers assigned rs) Φ w.
Proof.
  intros He Ht Hok. unfold create_set. set (rs' := with_Identity rs (assigned (dw_calls w))). assert (names (served w) = names (dw_sets w)) as Hn by apply names_core.
  change (dwp (_ ← request answers; if bool_decide (rs_Name rs' ∈ names (dw_sets w)) then fail (mkError AlreadyExists "already exists")
    else _ ← modify (with_sets (λ sets, sets ++ [rs'])); mret rs') Φ w). rewrite Hn in *.
  apply dwp_bind, dwp_request; intros.
  - apply He; [done|]. split; [unfold served|]; congruence.
  - case_bool_decide as Hin; [apply (Ht Hin); split; [unfold served|]; congruence|].
    apply dwp_bind, dwp_modify, dwp_ret, (Hok (dw_calls w)); [done| |simpl; congruence]. unfold served. simpl. by rewrite H, fmap_app.
Qed.

(** There is no new set, and its name is taken. *)
Definition taken (d : Deployment) (s : list ReplicaSet) : Prop :=
  (∀ y, y ∈ s → ¬ matching (d_Template d) y) ∧
  (d_Name d ++ "-" ++ ComputeHash (d_Template d) (ds_CollisionCount (d_Status d)))%string ∈ names s.

Lemma EqualIgnoreHash_hash template hash :
  EqualIgnoreHash DeepEqual (with_Labels template (CloneAndAddLabel (pod_Labels template) DefaultDeploymentUniqueLabelKey hash)) template = true.
Proof.
  unfold EqualIgnoreHash, CloneAndAddLabel. change ((_ =? "")%string) with false. cbv iota.
  match goal with |- DeepEqual ?a ?b = true => assert (a = b) as ->; [|apply DeepEqual_refl] end.
  change (with_Labels template (delete DefaultDeploymentUniqueLabelKey (<[DefaultDeploymentUniqueLabelKey := hash]> (pod_Labels template : gmap string string))) =
    with_Labels template (delete DefaultDeploymentUniqueLabelKey (pod_Labels template : gmap string string))). by rewrite delete_insert_eq.
Qed.

Lemma new_set_spec d surge unavailable oldRSs revision :
  rolling d surge unavailable → Forall healthy oldRSs → zsum rs_Replicas oldRSs ≤ 2 ^ 30 →
  ∃ rs, new_set ComputeHash d oldRSs revision = Some rs ∧
    rs_Name rs = (d_Name d ++ "-" ++ ComputeHash (d_Template d) (ds_CollisionCount (d_Status d)))%string ∧
    rs_Replicas rs = Z.min (Z.max 0 (d_Replicas d + surge - zsum rs_Replicas oldRSs)) (d_Replicas d) ∧
    AvailableReplicas rs = 0 ∧ matching (d_Template d) rs.
Proof.
  intros Hd Hh Hs. unfold new_set. set (empty := mkReplicaSet _ _ _ _ ∅ _ _ _ _ 0 _ _ _ _).
  assert (Forall healthy (oldRSs ++ [empty])) as Hh' by (apply Forall_app; split; [done|]; by repeat constructor).
  assert (zsum rs_Replicas (oldRSs ++ [empty]) = zsum rs_Replicas oldRSs) as Hsum by (rewrite zsum_app; unfold zsum at 2; simpl; lia).
  assert (NewRSNewReplicas d (oldRSs ++ [empty]) empty = Some (Z.min (Z.max 0 (d_Replicas d + surge - zsum rs_Replicas oldRSs)) (d_Replicas d))) as Hn.
  { rewrite (rolling_NewRSNewReplicas d surge unavailable Hd); [|done|lia|destruct Hd; simpl; lia]. rewrite Hsum. f_equal. simpl. lia. }
  rewrite Hn. cbn [mbind option_bind]. eexists. split; [done|]. repeat split. apply EqualIgnoreHash_hash.
Qed.

Definition owned (d : Deployment) (rs : ReplicaSet) : bool :=
  match GetControllerOf (rs_OwnerReferences rs) with Some ref => (own_UID ref =? d_UID d)%string | None => false end.

Lemma steady_trans w d w' : spec_of d = spec_of (dw_d w) → steady (with_d d w) w' → steady w w'.
Proof. intros Hd [Hs Hw]. split; [done|]. by rewrite Hw. Qed.

Lemma dwp_existing_name d newRS err revision w :
  spec_of d = spec_of (dw_d w) →
  (∀ rs, lister (rs_Name newRS) = inr rs → owned d rs = true → EqualIgnoreHash DeepEqual (d_Template d) (rs_Template rs) = false) →
  dwp (existing_name answers DeepEqual lister now d newRS err revision) (λ r w', steady w w' ∧ is_inl r = true) w.
Proof.
  intros Hd Hl. unfold existing_name. destruct (lister _) as [e|rs]; [done|]. specialize (Hl rs eq_refl). fold (owned d rs).
  destruct (owned d rs && _) eqn:Hb; [apply andb_true_iff in Hb as [Ho He]; by rewrite Hl in He|].
  apply dwp_bind, dwp_modify, dwp_bind, dwp_attempt, dwp_update_status; intros; split; eauto using steady_trans.
Qed.

Lemma dwp_failed_set d newRS err w :
  spec_of d = spec_of (dw_d w) → dwp (failed_set answers now d newRS err) (λ r w', steady w w' ∧ is_inl r = true) w.
Proof.
  intros Hd. unfold failed_set. apply dwp_bind. destruct (HasProgressDeadline _); [|done].
  apply dwp_bind, dwp_modify, dwp_bind, dwp_attempt, dwp_update_status; intros; split; eauto using steady_trans.
Qed.

Lemma dwp_created_set d rs b revision w : spec_of d = spec_of (dw_d w) →
  dwp (created_set answers now d rs b revision) (λ r w', steady w w' ∧ match r with inl _ => fails answers | inr rs' => rs' = rs end) w.
Proof.
  intros Hd. unfold created_set. pose proof (SetDeploymentRevision_spec d revision) as Hrev.
  destruct (SetDeploymentRevision _ _) as [d1 needs]. cbn [fst] in Hrev. rewrite Hd in Hrev. destruct (negb b && _); [by apply (dwp_write _ true)|by apply (dwp_write _ needs)].
Qed.

(** What [getAllReplicaSetsAndSyncRevision] gives when it may create. *)
Definition found (d : Deployment) (surge : Z) (s : list ReplicaSet) (new : ReplicaSet) (olds : list ReplicaSet) : Prop :=
  (oldest (d_Template d) s (core new) ∧ core new :: (core <$> olds) ≡ₚ s) ∨
  ((∀ y, y ∈ s → ¬ matching (d_Template d) y) ∧ core <$> olds ≡ₚ s ∧ matching (d_Template d) new ∧ AvailableReplicas new = 0 ∧
   (∃ n, rs_UID new = (assigned n).1) ∧ rs_Name new ∉ names s ∧
   rs_Replicas new = Z.min (Z.max 0 (d_Replicas d + surge - zsum rs_Replicas s)) (d_Replicas d)).

Lemma dwp_create surge newRS olds revision w :
  (∀ y, y ∈ served w → ¬ matching (d_Template (dw_d w)) y) → core <$> olds ≡ₚ served w →
  (∀ rs, lister (rs_Name newRS) = inr rs → owned (dw_d w) rs = true → EqualIgnoreHash DeepEqual (d_Template (dw_d w)) (rs_Template rs) = false) →
  rs_Name newRS = (d_Name (dw_d w) ++ "-" ++ ComputeHash (d_Template (dw_d w)) (ds_CollisionCount (d_Status (dw_d w))))%string →
  rs_Replicas newRS = Z.min (Z.max 0 (d_Replicas (dw_d w) + surge - zsum rs_Replicas (served w))) (d_Replicas (dw_d w)) →
  AvailableReplicas newRS = 0 → matching (d_Template (dw_d w)) newRS →
  dwp (create_new_set answers DeepEqual assigned lister now (dw_d w) newRS revision) (λ r w', spec_of (dw_d w') = spec_of (dw_d w) ∧
    match r with
    | inl _ => (served w' = served w ∧ (fails answers ∨ taken (dw_d w) (served w))) ∨
        (∃ rs, served w' = served w ++ [core rs] ∧ found (dw_d w) surge (served w) rs olds ∧ fails answers)
    | inr rs => served w' = served w ++ [core rs] ∧ found (dw_d w) surge (served w) rs olds
    end) w.
Proof.
  intros Hno Hp Hl Hname Hrep Hav Hm.
  assert (∀ err w1, steady w w1 →
    dwp (if IsAlreadyExists err then existing_name answers DeepEqual lister now (dw_d w) newRS err revision
         else if bool_decide (err_Reason err = NamespaceTerminating) then fail err
         else failed_set answers now (dw_d w) newRS err) (λ r w', steady w w' ∧ is_inl r = true) w1) as Herr.
  { intros err w1 [Hs Hd]. apply dwp_mono with (λ r w', steady w1 w' ∧ is_inl r = true).
    - destruct (IsAlreadyExists err); [by apply dwp_existing_name|]. case_bool_decide; [done|by apply dwp_failed_set].
    - intros r w' [[Hs' Hd'] Hr]. split; [split; congruence|done]. }
  apply dwp_bind, dwp_attempt, dwp_create_set.
  - intros e w1 Hf Hw. eapply dwp_mono; [by apply Herr|]. intros r w' [[Hs Hd] Hr]. split; [done|]. destruct r; [|done]. auto.
  - intros Hin w1 Hw. eapply dwp_mono; [by apply Herr|]. intros r w' [[Hs Hd] Hr]. split; [done|]. destruct r; [|done].
    left. split; [done|]. right. split; [done|]. by rewrite <-Hname.
  - intros n w1 Hfresh Hs1 Hd1. eapply dwp_mono; [by apply dwp_created_set|].
    intros r w2 [[Hs2 Hd2] Hr]. assert (found (dw_d w) surge (served w) (with_Identity newRS (assigned n)) olds) as Hf by (right; eauto 10).
    split; [congruence|]. destruct r as [e|rs]; [|subst rs; split; [congruence|done]].
    right. eexists. split; [rewrite Hs2; exact Hs1|done].
Qed.

Lemma oldest_perm template l k x : l ≡ₚ k → oldest template l x → oldest template k x.
Proof. intros Hp (Hx & Hm & Hl). split; [by rewrite <-Hp|]. split; [done|]. intros y Hy. rewrite <-Hp in Hy. by apply Hl. Qed.

Lemma oldest_core template l x : oldest template l x → oldest template (core <$> l) (core x).
Proof.
  intros (Hx & Hm & Hl). split; [by apply list_elem_of_fmap_2|]. split; [done|]. intros y Hy Hmy.
  apply list_elem_of_fmap in Hy as (y' & -> & Hy). by apply (Hl y').
Qed.

Lemma oldest_nodup template l x y : NoDup (names l) → x ∈ l → oldest template (core <$> l) (core x) → oldest template l y → x = y.
Proof.
  intros Hnd Hx (_ & Hm & Hl) (Hy & Hmy & Hly). apply (set_names_inj l); [done..|]. apply order_antisym; [by apply Hly|].
  by apply (Hl (core y)); [apply list_elem_of_fmap_2|].
Qed.

Lemma dwp_getAll surge unavailable w :
  rolling (dw_d w) surge unavailable → Forall healthy (dw_sets w) → zsum rs_Replicas (dw_sets w) ≤ 2 ^ 30 →
  NoDup (names (dw_sets w)) → NoDup (uids (dw_sets w)) →
  (∀ name rs, lister name = inr rs → owned (dw_d w) rs = true → rs ∈ dw_sets w) →
  dwp (getAllReplicaSetsAndSyncRevision answers sort DeepEqual ComputeHash assigned lister now (dw_sets w) true) (λ r w',
    spec_of (dw_d w') = spec_of (dw_d w) ∧
    match r with
    | inl _ => (served w' ≡ₚ served w ∧ (fails answers ∨ taken (dw_d w) (served w))) ∨
        (∃ new olds, served w' ≡ₚ core new :: (core <$> olds) ∧ found (dw_d w) surge (served w) new olds ∧ fails answers)
    | inr (o, olds, _) => ∃ new, o = Some new ∧ served w' ≡ₚ core new :: (core <$> olds) ∧ found (dw_d w) surge (served w) new olds
    end) w.
Proof.
  intros Hd Hh Hsum Hn Hu Hl. unfold getAllReplicaSetsAndSyncRevision, FindOldReplicaSets. apply dwp_bind, dwp_get_d.
  pose proof (FindNew_spec (dw_d w) (dw_sets w)) as Hf. destruct (FindNewReplicaSet _ _ _ _) as [o l] eqn:Hfn.
  assert (l ≡ₚ dw_sets w) as Hp by (destruct o; destruct Hf as [_ ->]; apply sort_perm).
  unfold getNewReplicaSet. pose proof (FindNew_spec (dw_d w) l) as Hf2.
  destruct o as [x|].
  - destruct Hf as [Hx _]. assert (x :: filter (λ rs, rs_UID rs ≠ rs_UID x) l ≡ₚ l) as Hfilter.
    { apply filter_uid; [unfold uids; by rewrite Hp|]. rewrite Hp. by destruct Hx. }
    set (olds := filter _ l) in *. apply dwp_bind, dwp_bind, dwp_get_d. destruct (FindNewReplicaSet _ _ _ l) as [o2 l2].
    destruct o2 as [x2|]; [|destruct Hf2 as [Hf2 _]; destruct Hx as (Hx & Hm & _); destruct (Hf2 x); [by rewrite Hp|done]].
    destruct Hf2 as [Hx2 _]. assert (x2 = x) as -> by (eapply oldest_unique; [done|by eapply oldest_perm|done]).
    assert (served w ≡ₚ core x :: (core <$> olds)) as Hs by (unfold served; by rewrite <-Hp, <-Hfilter).
    apply dwp_bind. eapply dwp_mono; [apply (dwp_existing_set x (core <$> olds)); [done|unfold served; by rewrite names_core]|].
    intros r w' (Hs' & Hd' & Hr). destruct r as [e|rs]; [split; [done|]; auto|]. apply dwp_ret, dwp_ret. split; [done|].
    exists rs. split; [done|]. rewrite Hr. split; [by rewrite Hs', Hs|]. left. rewrite Hr. split; [by apply oldest_core|by rewrite Hs].
  - destruct Hf as [Hf _]. apply dwp_bind, dwp_bind, dwp_get_d. destruct (FindNewReplicaSet _ _ _ l) as [o2 l2].
    destruct o2 as [x2|]; [destruct Hf2 as [(Hx & Hm & _) _]; rewrite Hp in Hx; by destruct (Hf x2)|]. cbn [negb].
    destruct (new_set_spec (dw_d w) surge unavailable l (Sprint (int64 (MaxRevision l + 1))) Hd) as (newRS & -> & Hname & Hrep & Hav & Hm).
    { by rewrite Hp. } { by rewrite Hp. }
    apply dwp_bind. eapply dwp_mono; [apply (dwp_create surge newRS l)|]; try done.
    + intros y Hy. apply list_elem_of_fmap in Hy as (y' & -> & Hy). exact (Hf y' Hy).
    + unfold served. by rewrite Hp.
    + intros rs Hrs Ho. apply not_true_is_false. intros He. apply (Hf rs); [by eapply Hl|]. unfold matching, EqualIgnoreHash in *. by rewrite DeepEqual_sym.
    + rewrite Hrep. unfold served. by rewrite zsum_fmap, <-Hp.
    + intros r w' (Hd' & Hr). destruct r as [e|rs].
      * split; [done|]. destruct Hr as [[Hs Hr]|(rs & Hs & Hfd)]; [left; by rewrite Hs|right].
        exists rs, l. split; [|done]. rewrite Hs, Permutation_app_comm. unfold served. by rewrite Hp.
      * destruct Hr as [Hs Hfd]. apply dwp_ret, dwp_ret. split; [done|]. exists rs. split; [done|]. split; [|done].
        rewrite Hs, Permutation_app_comm. unfold served. by rewrite Hp.
Qed.

End NewSet.
