(* ===== verification/RolloutProps.v ===== *)
(** * Rollouts: the theorems

    A rolling update never has more pods than the surge allows nor fewer
    available ones than it must keep, whichever requests fail; repeated, it
    ends with the new set at its size and the old ones empty. *)

From Stdlib Require Import Sorted.
From S2P Require Import Prelude Strconv Labels ApiTypes ActivePods AppsTypes Deployment Rollout RolloutWp RollingUpdate RolloutSets.
#[local] Open Scope Z_scope.

Section Rollout.
Context (sort : (ReplicaSet → ReplicaSet → bool) → list ReplicaSet → list ReplicaSet).
Hypothesis sort_perm : ∀ less l, sort less l ≡ₚ l.
Hypothesis sort_sorts : ∀ less, strict_weak less → ∀ l, StronglySorted (λ a b, less b a = false) (sort less l).
Context (DeepEqual : Pod → Pod → bool).
Hypothesis DeepEqual_refl : ∀ p, DeepEqual p p = true.
Hypothesis DeepEqual_sym : ∀ p q, DeepEqual p q = DeepEqual q p.
Context (ComputeHash : Pod → option Z → string).

(** ** One synchronisation *)

Section Sync.
Context (answers : nat → option api_error) (assigned : nat → string * Z) (lister : string → api_error + ReplicaSet) (now : Z).

(** What is left of the sets [s]: the new set and the old ones are found,
    changed, and empty old ones may be deleted; or nothing happens. *)
Definition synced_sets (d : Deployment) (surge : Z) (s s' : list ReplicaSet) : Prop :=
  (∃ new olds new' olds', found DeepEqual assigned d surge s new olds ∧ rolled answers d surge new olds new' olds' ∧
     cleaned olds (core new' :: (core <$> olds')) s') ∨
  (s' ≡ₚ s ∧ (fails answers ∨ taken DeepEqual ComputeHash d s)).

Lemma rolled_spec_of d d' surge new olds new' olds' :
  spec_of d = spec_of d' → rolled answers d surge new olds new' olds' → rolled answers d' surge new olds new' olds'.
Proof.
  intros Hs. assert (d_Replicas d = d_Replicas d') as Hr by (by injection Hs). pose proof (spec_of_least _ _ Hs) as Hl.
  intros [n Hc Hm|l Hk Hx|Hf]; [apply rolled_new|apply rolled_old|apply rolled_fails]; try done.
  - unfold moved in *. by rewrite <-Hr.
  - unfold kept in *. by rewrite <-Hl.
  - by rewrite <-Hr.
Qed.

Lemma found_sums d surge unavailable s new olds :
  rolling d surge unavailable → Forall healthy s → found DeepEqual assigned d surge s new olds →
  Forall healthy (new :: olds) ∧ zsum able (new :: olds) = zsum able s ∧
  zsum rs_Replicas (new :: olds) ≤ Z.max (zsum rs_Replicas s) (d_Replicas d + surge).
Proof.
  intros [] Hh [[_ Hp]|(_ & Hp & _ & Hav & _ & _ & Hrep)].
  - change (core new :: (core <$> olds)) with (core <$> (new :: olds)) in Hp. rewrite <-Hp in Hh |- *. rewrite Forall_fmap in Hh. rewrite !zsum_fmap.
    split; [exact Hh|]. split; [done|]. apply Z.le_max_l.
  - rewrite <-Hp in Hh, Hrep |- *. rewrite Forall_fmap in Hh. rewrite !zsum_fmap in *. rewrite !zsum_cons.
    assert (healthy new) as Hn by (split; rewrite Hav; [done|lia]).
    change (zsum (able ∘ core) olds) with (zsum able olds). change (zsum (rs_Replicas ∘ core) olds) with (zsum rs_Replicas olds) in *.
    split; [by constructor|]. destruct Hn as [_ Hn]. rewrite Hav in Hn. split; [|lia]. unfold able at 1. rewrite Hav. lia.
Qed.

Lemma found_names d surge s new olds :
  NoDup (names s) → found DeepEqual assigned d surge s new olds → NoDup (names (core new :: (core <$> olds))).
Proof.
  intros Hn [[_ Hp]|(_ & Hp & _ & _ & _ & Hfresh & _)]; unfold names in *.
  - by rewrite Hp.
  - rewrite fmap_cons, Hp. by constructor.
Qed.

Lemma dwp_rolloutRolling surge unavailable w :
  rolling (dw_d w) surge unavailable → Forall healthy (dw_sets w) → zsum rs_Replicas (dw_sets w) ≤ 2 ^ 30 →
  NoDup (names (dw_sets w)) → NoDup (uids (dw_sets w)) →
  (∀ name rs, lister name = inr rs → owned (dw_d w) rs = true → rs ∈ dw_sets w) →
  dwp (rolloutRolling answers sort DeepEqual ComputeHash assigned lister now (dw_sets w))
    (λ _ w', synced_sets (dw_d w) surge (served w) (served w')) w.
Proof.
  intros Hd Hh Hsum Hn Hu Hl. unfold rolloutRolling. apply dwp_bind.
  assert (Forall healthy (served w)) as Hhs by (unfold served; by rewrite Forall_fmap).
  assert (zsum rs_Replicas (served w) ≤ 2 ^ 30) as Hss by (unfold served; by rewrite zsum_fmap).
  eapply dwp_mono; [by eapply dwp_getAll|]. intros r w1 [Hd1 Hr]. destruct r as [e|[[o olds] l]].
  - destruct Hr as [Hr|(new & olds & Hs & Hf & Hfail)]; [by right|]. left. exists new, olds, new, olds. split; [done|].
    split; [by apply rolled_fails|]. exists []. by rewrite Hs.
  - destruct Hr as (new & -> & Hs & Hf). apply dwp_bind, dwp_get_d.
    destruct (found_sums _ _ _ _ _ _ Hd Hhs Hf) as (Hh1 & _ & Hsum1).
    assert (NoDup (names (served w1))) as Hn1.
    { unfold names at 1. rewrite Hs. eapply found_names; [|exact Hf]. unfold served. by rewrite names_core. }
    eapply dwp_mono; [eapply (dwp_roll answers sort sort_perm (dw_d w1) surge unavailable)|]; try done.
    + by eapply spec_of_rolling; [|exact Hd].
    + destruct Hd. lia.
    + intros r w2 (new' & olds' & Hroll & Hcl & _). left. exists new, olds, new', olds'. split; [done|]. split; [by eapply rolled_spec_of|done].
Qed.

Lemma cleaned_sums olds s s' : cleaned olds s s' → Forall (λ r, 0 ≤ AvailableReplicas r) s → zsum rs_Replicas s' = zsum rs_Replicas s ∧ zsum able s' = zsum able s.
Proof.
  intros (gone & Hp & Hg) Ha. rewrite Hp in Ha |- *. rewrite !zsum_app. apply Forall_app in Ha as [Ha _].
  assert (zsum rs_Replicas gone = 0 ∧ zsum able gone = 0) as [-> ->]; [|lia].
  clear Hp. induction Hg as [|g gone [Hz _] _ IH]; [done|]. apply Forall_cons in Ha as [Hav Ha]. destruct (IH Ha) as [IH1 IH2]. rewrite !zsum_cons, IH1, IH2.
  unfold able. lia.
Qed.

Lemma rolled_Available d surge new olds new' olds' :
  Forall healthy (new :: olds) → rolled answers d surge new olds new' olds' → Forall (λ r, 0 ≤ AvailableReplicas r) (core new' :: (core <$> olds')).
Proof.
  intros Hh Hr. apply Forall_cons in Hh as [[Hn _] Hh]. apply healthy_Available in Hh.
  assert (Forall (λ r, 0 ≤ AvailableReplicas r) (core <$> olds)) as Ho by (by rewrite Forall_fmap).
  destruct Hr as [n Hc Hm|l Hk Hx|Hf]; constructor; try done.
  - apply (f_equal AvailableReplicas) in Hc. by rewrite Hc.
  - rewrite Forall_fmap. destruct Hk as [(l0 & Hp & H2) _]. rewrite Hp in Hh. clear -Hh H2. induction H2 as [|t t' m m' Ht _ IH]; [done|].
    apply Forall_cons in Hh as [Ht0 Hh]. constructor; [|by apply IH]. change (0 ≤ AvailableReplicas t'). by rewrite (shrunk_Available _ _ _ Ht).
Qed.

Lemma rolled_sums d surge unavailable new olds new' olds' :
  rolling d surge unavailable → Forall healthy (new :: olds) → rolled answers d surge new olds new' olds' →
  zsum rs_Replicas (new' :: olds') ≤ Z.max (zsum rs_Replicas (new :: olds)) (d_Replicas d + surge) ∧
  Z.min (least d) (zsum able (new :: olds)) ≤ zsum able (new' :: olds').
Proof.
  intros Hd Hh Hr. destruct (rolling_least _ _ _ Hd) as [_ Hle]. pose proof (zsum_nonneg _ _ (healthy_Available _ Hh)) as H0.
  assert (0 ≤ zsum able olds) as Ho. { apply Forall_cons in Hh as [_ Hh]. rewrite (healthy_able _ Hh). by apply zsum_nonneg, healthy_Available. }
  apply Forall_cons in Hh as [[Hn0 Hn] Hh]. destruct Hd. rewrite !zsum_cons in *. destruct Hr as [n Hc Hm|l Hk Hx|Hf]; [| |lia].
  - rewrite !zsum_cons in Hm. assert (AvailableReplicas n = AvailableReplicas new) as Ha by (by apply (f_equal AvailableReplicas) in Hc).
    assert (able n = Z.min (AvailableReplicas new) (rs_Replicas n)) as -> by (unfold able; by rewrite Ha).
    assert (able new = AvailableReplicas new) as -> by (unfold able; lia). unfold moved in Hm. lia.
  - destruct Hk as (Hs & Hk & _). rewrite !zsum_cons in Hk. pose proof (shrinks_sum _ _ _ Hs). lia.
Qed.

Lemma synced_bounds d surge unavailable s s' :
  rolling d surge unavailable → Forall healthy s → synced_sets d surge s s' →
  zsum rs_Replicas s' ≤ Z.max (zsum rs_Replicas s) (d_Replicas d + surge) ∧ Z.min (least d) (zsum able s) ≤ zsum able s'.
Proof.
  intros Hd Hh [(new & olds & new' & olds' & Hf & Hr & Hc)|[Hp _]]; [|rewrite Hp; lia].
  destruct (found_sums _ _ _ _ _ _ Hd Hh Hf) as (Hh1 & Ha & Ht). destruct (rolled_sums _ _ _ _ _ _ _ Hd Hh1 Hr) as [H1 H2].
  destruct (cleaned_sums _ _ _ Hc) as [-> ->]; [by eapply rolled_Available|].
  change (core new' :: (core <$> olds')) with (core <$> (new' :: olds')). rewrite !zsum_fmap.
  change (zsum (rs_Replicas ∘ core)) with (zsum rs_Replicas). change (zsum (able ∘ core)) with (zsum able). lia.
Qed.

(** C10. A rolling update keeps its promises, whichever requests fail.  With
    sorts that sort, a reflexive and symmetric equality of templates, [maxSurge] and [maxUnavailable] valid, the sets that the controller lists
    being what the server has, with different names and UIDs, no set reporting
    more available pods than it has replicas and at most 2^30 replicas in all
    (and at most as many allowed), and a lister that knows no other set of the
    deployment, after one call of [rolloutRolling] the
    replicas of all sets are at most [replicas + maxSurge], or no more than
    before; and the pods that stay available when every set has got its new
    size are at least [replicas - maxUnavailable], or no fewer than before. *)
Theorem rolling_bounds surge unavailable w :
  rolling (dw_d w) surge unavailable → Forall healthy (dw_sets w) → zsum rs_Replicas (dw_sets w) ≤ 2 ^ 30 →
  NoDup (names (dw_sets w)) → NoDup (uids (dw_sets w)) →
  (∀ name rs, lister name = inr rs → owned (dw_d w) rs = true → rs ∈ dw_sets w) →
  let w' := (rolloutRolling answers sort DeepEqual ComputeHash assigned lister now (dw_sets w) w).2 in
  zsum rs_Replicas (dw_sets w') ≤ Z.max (zsum rs_Replicas (dw_sets w)) (d_Replicas (dw_d w) + surge) ∧
  Z.min (d_Replicas (dw_d w) - MaxUnavailable (dw_d w)) (zsum able (dw_sets w)) ≤ zsum able (dw_sets w').
Proof.
  intros Hd Hh Hsum Hn Hu Hl w'. pose proof (dwp_rolloutRolling surge unavailable w Hd Hh Hsum Hn Hu Hl) as H. unfold dwp in H.
  subst w'. destruct (rolloutRolling _ _ _ _ _ _ _ _ w) as [r w']. cbn [snd].
  apply (synced_bounds _ _ unavailable) in H; [|done|unfold served; by rewrite Forall_fmap]. unfold served in H. rewrite !zsum_fmap in H. exact H.
Qed.

(** ** The measure of a rollout *)

(** How far the sets are from the end: the new set from its size, the pods of
    old sets, and one more if there is no new set yet. *)
Definition pending (d : Deployment) (s : list ReplicaSet) (m : Z) : Prop :=
  (∃ x, oldest DeepEqual (d_Template d) s x ∧ m = Z.abs (d_Replicas d - rs_Replicas x) + (zsum rs_Replicas s - rs_Replicas x)) ∨
  ((∀ y, y ∈ s → ¬ matching DeepEqual (d_Template d) y) ∧ m = 1 + d_Replicas d + zsum rs_Replicas s).

(** The fields that decide which set is the new one. *)
Definition same_key (a b : ReplicaSet) : Prop :=
  rs_Name a = rs_Name b ∧ rs_CreationTimestamp a = rs_CreationTimestamp b ∧ rs_Template a = rs_Template b ∧ rs_UID a = rs_UID b.

Lemma same_key_resize n a b : core a = resize n (core b) → same_key a b.
Proof.
  intros H. repeat split; [apply (f_equal rs_Name) in H|apply (f_equal rs_CreationTimestamp) in H|apply (f_equal rs_Template) in H|apply (f_equal rs_UID) in H]; exact H.
Qed.

Lemma same_key_Less a a' b b' : same_key a a' → same_key b b' → ByCreationTimestamp_Less a b = ByCreationTimestamp_Less a' b'.
Proof. intros (H1 & H2 & _) (H3 & H4 & _). unfold ByCreationTimestamp_Less. by rewrite H1, H2, H3, H4. Qed.

(** The new set stays the new one when others are kept with their keys. *)
Lemma oldest_keys template l x l' x' :
  oldest DeepEqual template l x → x' ∈ l' → same_key x' x → (∀ y', y' ∈ l' → ∃ y, y ∈ l ∧ same_key y' y) → oldest DeepEqual template l' x'.
Proof.
  intros (Hx & Hm & Hl) Hx' Hk Hl'. split; [done|]. split; [unfold matching in *; destruct Hk as (_ & _ & -> & _); done|].
  intros y' Hy' Hmy. destruct (Hl' y' Hy') as (y & Hy & Hky). rewrite (same_key_Less _ y _ x Hky Hk). apply Hl; [done|].
  unfold matching in *. by destruct Hky as (_ & _ & <- & _).
Qed.

Lemma found_oldest d surge s new olds :
  found DeepEqual assigned d surge s new olds → oldest DeepEqual (d_Template d) (core new :: (core <$> olds)) (core new).
Proof.
  intros [[Ho Hp]|(Hno & Hp & Hm & _)]; [by eapply oldest_perm; [symmetry|]|].
  split; [left|]. split; [done|]. intros y Hy Hmy. apply elem_of_cons in Hy as [->|Hy]; [apply creation_strict_weak|].
  rewrite Hp in Hy. by destruct (Hno y).
Qed.

Lemma rolled_keys d surge new olds new' olds' :
  rolled answers d surge new olds new' olds' →
  same_key new' new ∧ ∃ olds0, olds ≡ₚ olds0 ∧ Forall2 same_key olds' olds0.
Proof.
  assert (∀ l, Forall2 same_key l l) as Hrefl by (intros l; apply Forall_Forall2_diag, Forall_true; done).
  intros [n Hc Hm|l Hk Hx|Hf]; [split; [by eapply same_key_resize|eauto]| |split; [done|eauto]].
  split; [done|]. destruct Hk as [(olds0 & Hp & H2) _]. exists olds0. split; [done|]. apply Forall2_flip. eapply Forall2_impl; [exact H2|].
  intros t t' [Hc _]. by eapply same_key_resize.
Qed.

Definition tidy (s : list ReplicaSet) : Prop := NoDup (names s) ∧ NoDup (uids s) ∧ Forall (λ rs, 0 ≤ rs_Replicas rs) s.

Lemma keys_fmap {A} (f : ReplicaSet → A) l l' : (∀ a b, same_key a b → f a = f b) → Forall2 same_key l l' → f <$> l = f <$> l'.
Proof. intros Hf H. induction H as [|a b l l' Hk _ IH]; [done|]. rewrite !fmap_cons, IH. by rewrite (Hf _ _ Hk). Qed.

Lemma rolled_tidy d surge unavailable new olds new' olds' :
  rolling d surge unavailable → Forall healthy (new :: olds) → rolled answers d surge new olds new' olds' →
  NoDup (names (new :: olds)) → NoDup (uids (new :: olds)) → tidy (new' :: olds').
Proof.
  intros Hd Hh Hr Hn Hu. destruct (rolled_keys _ _ _ _ _ _ Hr) as [Hk (olds0 & Hp & Hks)].
  assert (Forall2 same_key (new' :: olds') (new :: olds0)) as Hall by (by constructor). unfold names, uids in *. rewrite Hp in Hn, Hu. repeat split.
  - unfold names. rewrite (keys_fmap rs_Name _ _ (λ a b '(conj H _), H) Hall). done.
  - unfold uids. rewrite (keys_fmap rs_UID _ _ (λ a b '(conj _ (conj _ (conj _ H))), H) Hall). done.
  - apply healthy_Replicas in Hh. apply Forall_cons in Hh as [Hn0 Hh]. destruct Hd. destruct Hr as [n Hc Hm|l Hkept Hx|Hf].
    + constructor; [|done]. unfold moved in Hm. lia.
    + constructor; [done|]. destruct Hkept as [Hs _]. by eapply shrinks_nonneg.
    + by constructor.
Qed.

Lemma tidy_core l : tidy (core <$> l) ↔ tidy l.
Proof.
  unfold tidy. rewrite names_core. assert (uids (core <$> l) = uids l) as -> by (unfold uids; by rewrite <-list_fmap_compose).
  by rewrite Forall_fmap.
Qed.

Lemma tidy_sub gone s s' : s ≡ₚ gone ++ s' → tidy s → tidy s'.
Proof.
  intros Hp (Hn & Hu & Hr). unfold tidy, names, uids in *. rewrite Hp in Hn, Hu, Hr. rewrite fmap_app in Hn, Hu.
  apply NoDup_app in Hn as (_ & _ & Hn), Hu as (_ & _ & Hu). by apply Forall_app in Hr as [_ Hr].
Qed.

Lemma found_tidy d surge s new olds :
  tidy s → (∀ n, (assigned n).1 ∉ uids s) → found DeepEqual assigned d surge s new olds → NoDup (names (new :: olds)) ∧ NoDup (uids (new :: olds)).
Proof.
  intros (Hn & Hu & _) Hfresh Hf. rewrite <-names_core. split; [by eapply found_names|].
  assert (uids (new :: olds) = uids (core new :: (core <$> olds))) as -> by (unfold uids; rewrite !fmap_cons, <-list_fmap_compose; done).
  destruct Hf as [[_ Hp]|(_ & Hp & _ & _ & [n Huid] & _)]; unfold uids in *; [by rewrite Hp|]. rewrite fmap_cons, Hp. constructor; [|done].
  change (rs_UID (core new)) with (rs_UID new). rewrite Huid. apply Hfresh.
Qed.

Lemma synced_tidy d surge unavailable s s' :
  rolling d surge unavailable → Forall healthy s → tidy s → (∀ n, (assigned n).1 ∉ uids s) → synced_sets d surge s s' → tidy s'.
Proof.
  intros Hd Hh Ht Hfresh [(new & olds & new' & olds' & Hf & Hr & (gone & Hp & _))|[Hp _]].
  - destruct (found_sums _ _ _ _ _ _ Hd Hh Hf) as (Hh1 & _). destruct (found_tidy _ _ _ _ _ Ht Hfresh Hf) as [Hn Hu].
    apply (tidy_sub _ _ _ Hp). change (tidy (core <$> (new' :: olds'))). apply tidy_core. by eapply rolled_tidy.
  - apply (tidy_sub [] s); [by rewrite Hp|done].
Qed.

Lemma synced_oldest d surge s s' new olds new' olds' :
  found DeepEqual assigned d surge s new olds → rolled answers d surge new olds new' olds' → cleaned olds (core new' :: (core <$> olds')) s' →
  NoDup (names (new :: olds)) → oldest DeepEqual (d_Template d) s' (core new').
Proof.
  intros Hf Hr (gone & Hp & Hg) Hn. destruct (rolled_keys _ _ _ _ _ _ Hr) as [Hk (olds0 & Hpo & Hks)].
  eapply oldest_keys; [by eapply found_oldest| |exact Hk|].
  - assert (core new' ∈ gone ++ s') as Hin by (rewrite <-Hp; left). apply elem_of_app in Hin as [Hin|]; [|done].
    rewrite Forall_forall in Hg. destruct (Hg _ Hin) as [_ Hname]. apply NoDup_cons in Hn as [Hn _]. destruct Hn.
    destruct Hk as (Hk & _). by rewrite <-Hk.
  - intros y' Hy'. assert (y' ∈ core new' :: (core <$> olds')) as Hin by (rewrite Hp; apply elem_of_app; by right).
    apply elem_of_cons in Hin as [->|Hin]; [exists (core new); split; [left|exact Hk]|].
    apply list_elem_of_fmap in Hin as (t' & -> & Ht'). apply list_elem_of_lookup in Ht' as [i Ht'].
    destruct (Forall2_lookup_l _ _ _ _ _ Hks Ht') as (t & Ht & Hkt). exists (core t). split; [|exact Hkt].
    right. apply list_elem_of_fmap_2. rewrite Hpo. by apply list_elem_of_lookup_2 with i.
Qed.

Lemma rolled_measure d surge unavailable new olds new' olds' :
  rolling d surge unavailable → Forall healthy (new :: olds) → rolled answers d surge new olds new' olds' →
  let m := Z.abs (d_Replicas d - rs_Replicas new) + zsum rs_Replicas olds in
  let m' := Z.abs (d_Replicas d - rs_Replicas new') + zsum rs_Replicas olds' in
  m' ≤ m ∧ (¬ fails answers → Forall full (new :: olds) → 0 < m → m' < m).
Proof.
  intros Hd Hh Hr m m'. destruct (rolling_fenceposts _ _ _ Hd) as (_ & Hu & Hone). apply healthy_Replicas, Forall_cons in Hh as [Hn Hh].
  pose proof (zsum_nonneg _ _ Hh) as Ho. destruct Hd. destruct Hr as [n Hc Hm|l Hk Hx|Hf].
  - unfold moved in Hm. subst m m'. lia.
  - destruct Hk as (Hs & _ & Hprog). pose proof (shrinks_sum _ _ _ Hs) as Hle. subst m m'. split; [lia|]. intros Hnf Hfull Hpos.
    rewrite !zsum_cons in *. unfold least in Hprog. assert (zsum rs_Replicas l < zsum rs_Replicas olds); [|lia]. apply Hprog; [done|done|lia|lia].
  - subst m m'. split; [lia|]. done.
Qed.

Lemma synced_pending d surge unavailable s s' m :
  rolling d surge unavailable → Forall healthy s → tidy s → (∀ n, (assigned n).1 ∉ uids s) → synced_sets d surge s s' → pending d s m →
  ∃ m', pending d s' m' ∧ m' ≤ m ∧ (¬ fails answers → ¬ taken DeepEqual ComputeHash d s → Forall full s → 0 < m → m' < m).
Proof.
  intros Hd Hh Ht Hfresh [(new & olds & new' & olds' & Hf & Hr & Hc)|[Hp Hbad]] Hpend.
  - destruct (found_sums _ _ _ _ _ _ Hd Hh Hf) as (Hh1 & _). destruct (found_tidy _ _ _ _ _ Ht Hfresh Hf) as [Hn Hu].
    destruct (rolled_measure _ _ _ _ _ _ _ Hd Hh1 Hr) as [Hle Hlt].
    destruct (cleaned_sums _ _ _ Hc) as [Hsum _]; [by eapply rolled_Available|].
    assert (pending d s' (Z.abs (d_Replicas d - rs_Replicas new') + zsum rs_Replicas olds')) as Hpend'.
    { left. exists (core new'). split; [by eapply synced_oldest|]. rewrite Hsum, zsum_cons, zsum_fmap. change (zsum (rs_Replicas ∘ core)) with (zsum rs_Replicas).
      simpl. lia. }
    eexists. split; [exact Hpend'|]. destruct Hd. destruct Hf as [[Hold Hp]|(Hno & Hp & _ & _ & _ & _ & Hrep)].
    + destruct Hpend as [(x & Hx & ->)|[Hno _]]; [|destruct Hold as (Hin & Hm & _); by destruct (Hno (core new))].
      assert (x = core new) as -> by (eapply oldest_unique; [|exact Hx|exact Hold]; by destruct Ht).
      assert (zsum rs_Replicas s - rs_Replicas (core new) = zsum rs_Replicas olds) as ->.
      { rewrite <-Hp, zsum_cons, zsum_fmap. change (zsum (rs_Replicas ∘ core)) with (zsum rs_Replicas). lia. }
      split; [done|]. intros Hnf _ Hfull. apply Hlt; [done|]. rewrite <-Hp in Hfull. change (Forall full (core <$> (new :: olds))) in Hfull. by rewrite Forall_fmap in Hfull.
    + destruct Hpend as [(x & (Hin & Hm & _) & _)|[_ ->]]; [by destruct (Hno x)|].
      assert (zsum rs_Replicas s = zsum rs_Replicas olds) as Hs by (by rewrite <-Hp, zsum_fmap).
      rewrite Hs in *. apply Forall_cons in Hh1 as [[Hn0 Hn1] _]. lia.
  - exists m. split; [|split; [done|intros; tauto]]. destruct Hpend as [(x & Hx & ->)|[Hno ->]]; [left|right].
    + exists x. split; [by eapply oldest_perm; [symmetry|]|]. by rewrite Hp.
    + split; [|by rewrite Hp]. intros y Hy. rewrite Hp in Hy. by apply Hno.
Qed.

End Sync.

(** ** A rollout *)

(** One round: every set reports its status, then the deployment is
    synchronised.  The deployment is as the controller reads it. *)
Record round := mkRound {
  rd_answers : nat → option api_error;
  rd_assigned : nat → string * Z;
  rd_lister : string → api_error + ReplicaSet;
  rd_now : Z;
  rd_d : Deployment;
  rd_report : ReplicaSet → ReplicaSetStatus;
}.

Definition reported (r : round) (s : list ReplicaSet) : list ReplicaSet := (λ rs, set_Status rs (rd_report r rs)) <$> s.

Definition run_round (r : round) (s : list ReplicaSet) : list ReplicaSet :=
  dw_sets (rolloutRolling (rd_answers r) sort DeepEqual ComputeHash (rd_assigned r) (rd_lister r) (rd_now r) (reported r s)
    (mkDWorld 0 (reported r s) (rd_d r) [] [])).2.

Record sound (d : Deployment) (r : round) (s : list ReplicaSet) : Prop := {
  so_spec : spec_of (rd_d r) = spec_of d;
  so_report : ∀ rs, rs ∈ s → 0 ≤ st_AvailableReplicas (rd_report r rs) ≤ rs_Replicas rs;
  so_fresh : ∀ n, (rd_assigned r n).1 ∉ uids s;
  so_lister : ∀ name rs, rd_lister r name = inr rs → owned (rd_d r) rs = true → rs ∈ reported r s;
}.

(** A round in which all goes well: every pod of every set is available, no
    request fails and the name of the new set is free if there is none. *)
Record good (r : round) (s : list ReplicaSet) : Prop := {
  go_report : ∀ rs, rs ∈ s → st_AvailableReplicas (rd_report r rs) = rs_Replicas rs;
  go_answers : ∀ n, rd_answers r n = None;
  go_name : ¬ taken DeepEqual ComputeHash (rd_d r) s;
}.

(** Rounds in a row, and how many of them are good. *)
Inductive rollout (d : Deployment) : list ReplicaSet → nat → list ReplicaSet → Prop :=
| rollout_done s : rollout d s 0 s
| rollout_round s r k s' : sound d r s → rollout d (run_round r s) k s' → rollout d s k s'
| rollout_good s r k s' : sound d r s → good r s → rollout d (run_round r s) k s' → rollout d s (S k) s'.

Definition same_set (a b : ReplicaSet) : Prop := same_key a b ∧ rs_Replicas a = rs_Replicas b.

Lemma pending_same d d' l l' m : spec_of d = spec_of d' → Forall2 same_set l' l → pending d l m → pending d' l' m.
Proof.
  intros Hs Hl. assert (d_Replicas d = d_Replicas d') as Hr by (by injection Hs). assert (d_Template d = d_Template d') as Ht by (by injection Hs).
  assert (zsum rs_Replicas l' = zsum rs_Replicas l) as Hsum by (induction Hl as [|a b l' l [_ H] _ IH]; [done|]; rewrite !zsum_cons; lia).
  assert (∀ y', y' ∈ l' → ∃ y, y ∈ l ∧ same_set y' y) as Hin.
  { intros y' Hy'. apply list_elem_of_lookup in Hy' as [i Hi]. destruct (Forall2_lookup_l _ _ _ _ _ Hl Hi) as (y & Hy & Hk).
    exists y. split; [by apply list_elem_of_lookup_2 with i|done]. }
  intros [(x & Hx & ->)|[Hno ->]].
  - left. pose proof Hx as (Hxl & _). apply list_elem_of_lookup in Hxl as [i Hi]. destruct (Forall2_lookup_r _ _ _ _ _ Hl Hi) as (x' & Hx' & Hk & Hrep).
    exists x'. rewrite Hsum, Hrep, Hr. split; [|done]. rewrite <-Ht. eapply oldest_keys; [exact Hx|by apply list_elem_of_lookup_2 with i|exact Hk|].
    intros y' Hy'. destruct (Hin y' Hy') as (y & Hy & Hk' & _). eauto.
  - right. rewrite Hsum, Hr. split; [|done]. intros y' Hy' Hm. destruct (Hin y' Hy') as (y & Hy & (_ & _ & Hk & _) & _). apply (Hno y Hy).
    unfold matching in *. by rewrite <-Hk, Ht.
Qed.

Lemma same_set_fmap f l : (∀ x, same_set (f x) x) → Forall2 same_set (f <$> l) l.
Proof. intros H. induction l; constructor; auto. Qed.

Lemma same_set_fmap_r f l : (∀ x, same_set x (f x)) → Forall2 same_set l (f <$> l).
Proof. intros H. induction l; constructor; auto. Qed.

Lemma reported_tidy r s : tidy s → tidy (reported r s).
Proof.
  intros (Hn & Hu & Hr). unfold tidy, names, uids, reported. rewrite <-!list_fmap_compose. split; [done|]. split; [done|]. by rewrite Forall_fmap.
Qed.

Lemma round_step d surge unavailable r s m :
  rolling d surge unavailable → tidy s → zsum rs_Replicas s ≤ 2 ^ 30 → sound d r s → pending d s m →
  tidy (run_round r s) ∧ zsum rs_Replicas (run_round r s) ≤ Z.max (zsum rs_Replicas s) (d_Replicas d + surge) ∧
  ∃ m', pending d (run_round r s) m' ∧ m' ≤ m ∧ (good r s → 0 < m → m' < m).
Proof.
  intros Hd Ht Hsum [Hspec Hrep Hfresh Hlist] Hpend. unfold run_round. set (w := mkDWorld 0 (reported r s) (rd_d r) [] []).
  assert (rolling (dw_d w) surge unavailable) as Hd' by (by eapply spec_of_rolling).
  assert (Forall healthy (dw_sets w)) as Hh.
  { simpl. unfold reported. rewrite Forall_fmap, Forall_forall. intros rs Hrs. exact (Hrep rs Hrs). }
  assert (zsum rs_Replicas (reported r s) = zsum rs_Replicas s) as Hsr by (unfold reported; by rewrite zsum_fmap).
  pose proof (reported_tidy r s Ht) as Htr. pose proof Htr as (Hn & Hu & _).
  assert (synced_sets (rd_answers r) (rd_assigned r) (rd_d r) surge (served w)
    (core <$> dw_sets (rolloutRolling (rd_answers r) sort DeepEqual ComputeHash (rd_assigned r) (rd_lister r) (rd_now r) (reported r s) w).2)) as Hsync.
  { pose proof (dwp_rolloutRolling (rd_answers r) (rd_assigned r) (rd_lister r) (rd_now r) surge unavailable w Hd' Hh) as H. unfold dwp in H.
    destruct (rolloutRolling _ _ _ _ _ _ _ _ w) as [res w']. apply H; [simpl; lia|done..]. }
  set (s' := dw_sets (rolloutRolling _ _ _ _ _ _ _ _ w).2) in *. assert (Forall healthy (served w)) as Hhs by (unfold served; by rewrite Forall_fmap).
  assert (tidy (served w)) as Hts by (by apply tidy_core).
  assert (uids (served w) = uids s) as Hus by (unfold uids, served, reported; simpl; unfold reported; by rewrite <-!list_fmap_compose).
  assert (∀ n, (rd_assigned r n).1 ∉ uids (served w)) as Hfresh' by (by rewrite Hus).
  assert (pending (rd_d r) (served w) m) as Hpend'.
  { assert (pending d (reported r s) m) by (apply (pending_same d d s); [done|by apply same_set_fmap|done]).
    apply (pending_same d _ (reported r s)); [done|by apply same_set_fmap|done]. }
  split; [apply tidy_core; by eapply synced_tidy|]. split.
  { destruct (synced_bounds _ _ _ _ _ _ _ Hd' Hhs Hsync) as [Hb _]. unfold served in Hb. rewrite !zsum_fmap in Hb. injection Hspec as <-.
    change (zsum (rs_Replicas ∘ core)) with (zsum rs_Replicas) in Hb. simpl in Hb. by rewrite <-Hsr. }
  destruct (synced_pending _ _ _ _ _ _ _ _ Hd' Hhs Hts Hfresh' Hsync Hpend') as (m' & Hm & Hle & Hlt). exists m'.
  split; [apply (pending_same (rd_d r) d (core <$> s')); [done|by apply same_set_fmap_r|done]|]. split; [done|]. intros [Hfull Hans Hname]. apply Hlt.
  - intros (n & e & He). by rewrite Hans in He.
  - intros [Hno Htk]. apply Hname. assert (names (served w) = names s) as Hns.
    { unfold names, served. simpl. unfold reported. by rewrite <-!list_fmap_compose. }
    rewrite Hns in Htk. split; [|done]. intros y Hy. apply (Hno (core (set_Status y (rd_report r y)))).
    apply list_elem_of_fmap_2. unfold w, reported. simpl. by apply (list_elem_of_fmap_2 (λ rs, set_Status rs (rd_report r rs))).
  - unfold served. rewrite Forall_fmap. simpl. unfold reported. rewrite Forall_fmap, Forall_forall. intros rs Hrs. exact (Hfull rs Hrs).
Qed.

Lemma pending_completed d s m :
  0 ≤ d_Replicas d → tidy s → pending d s m → m ≤ 0 →
  ∃ x, oldest DeepEqual (d_Template d) s x ∧ rs_Replicas x = d_Replicas d ∧ ∀ y, y ∈ s → rs_Name y ≠ rs_Name x → rs_Replicas y = 0.
Proof.
  intros H0 (Hn & _ & Hr) Hpend Hm. pose proof (zsum_nonneg _ _ Hr) as Hs. destruct Hpend as [(x & Hx & ->)|[_ ->]]; [|lia].
  exists x. split; [done|]. destruct Hx as (Hin & _). apply list_elem_of_split in Hin as (l1 & l2 & ->).
  rewrite zsum_app, zsum_cons in *. rewrite Forall_app, Forall_cons in Hr. destruct Hr as (Hr1 & Hx & Hr2).
  pose proof (zsum_nonneg _ _ Hr1). pose proof (zsum_nonneg _ _ Hr2).
  assert (∀ l, Forall (λ rs, 0 ≤ rs_Replicas rs) l → zsum rs_Replicas l ≤ 0 → ∀ y, y ∈ l → rs_Replicas y = 0) as Hz.
  { intros l Hl Hsl y Hy. apply list_elem_of_split in Hy as (k1 & k2 & ->). rewrite zsum_app, zsum_cons in Hsl.
    apply Forall_app in Hl as [Hk1 Hl]. apply Forall_cons in Hl as [Hy Hk2]. pose proof (zsum_nonneg _ _ Hk1). pose proof (zsum_nonneg _ _ Hk2). lia. }
  split; [lia|]. intros y Hy Hne. apply elem_of_app in Hy as [Hy|Hy]; [by apply (Hz l1); [|lia|]|].
  apply elem_of_cons in Hy as [->|Hy]; [done|]. by apply (Hz l2); [|lia|].
Qed.

Lemma pending_start d s : tidy s → 0 ≤ d_Replicas d → ∃ m, pending d s m ∧ m ≤ 1 + d_Replicas d + zsum rs_Replicas s.
Proof.
  intros (Hn & _ & Hr) H0. pose proof (FindNew_spec sort sort_perm sort_sorts DeepEqual d s) as Hf. destruct (FindNewReplicaSet _ _ _ _) as [[x|] l].
  - destruct Hf as [Hx _]. eexists. split; [left; exists x; by split|]. destruct Hx as (Hin & _). rewrite Forall_forall in Hr. specialize (Hr x Hin).
    simpl in Hr. lia.
  - destruct Hf as [Hno _]. eexists. split; [right; by split|]. lia.
Qed.

Lemma rollout_pending d surge unavailable s k s' :
  rolling d surge unavailable → rollout d s k s' → ∀ m, tidy s → zsum rs_Replicas s ≤ 2 ^ 30 → pending d s m →
  tidy s' ∧ zsum rs_Replicas s' ≤ Z.max (zsum rs_Replicas s) (d_Replicas d + surge) ∧
  ∃ m', pending d s' m' ∧ m' ≤ Z.max 0 (m - Z.of_nat k).
Proof.
  intros Hd Hroll. pose proof (ro_bound _ _ _ Hd) as Hb. induction Hroll as [s|s r k s' Hsound _ IH|s r k s' Hsound Hgood _ IH]; intros m Ht Hs Hp.
  - split; [done|]. split; [lia|]. exists m. split; [done|lia].
  - destruct (round_step _ _ _ _ _ _ Hd Ht Hs Hsound Hp) as (Ht' & Hs' & m' & Hp' & Hle & _).
    destruct (IH m' Ht' ltac:(lia) Hp') as (Ht2 & Hs2 & m2 & Hp2 & Hm2). split; [done|]. split; [lia|]. exists m2. split; [done|lia].
  - destruct (round_step _ _ _ _ _ _ Hd Ht Hs Hsound Hp) as (Ht' & Hs' & m' & Hp' & Hle & Hlt).
    destruct (IH m' Ht' ltac:(lia) Hp') as (Ht2 & Hs2 & m2 & Hp2 & Hm2). split; [done|]. split; [lia|]. exists m2. split; [done|].
    destruct (decide (0 < m)) as [Hpos|]; [specialize (Hlt Hgood Hpos)|]; lia.
Qed.

(** C15. A rollout comes to its end.  Take sorts that sort, a reflexive and
    symmetric equality of templates, a rolling update with a valid
    [maxSurge] and [maxUnavailable], sets with different names and UIDs, and
    at most 2^30 replicas; and rounds of the controller in each of which the
    deployment asks for the same, the sets, and no others, are read as the server
    has them and report no more available pods than they have replicas, and a
    set that is created gets a new UID.  After any number
    of rounds, whichever requests fail, the replicas of all sets are at most
    [replicas + maxSurge], or what they were at the start.  Once there have
    been as many good rounds (no request fails, every pod is available, the
    name of the new set is free) as the deployment and its sets had replicas
    at the start, and one more, the oldest set with the template of the
    deployment has exactly its replicas and every other set is empty. *)
Theorem rollout_completes d surge unavailable s k s' :
  rolling d surge unavailable → tidy s → zsum rs_Replicas s ≤ 2 ^ 30 → rollout d s k s' →
  zsum rs_Replicas s' ≤ Z.max (zsum rs_Replicas s) (d_Replicas d + surge) ∧
  (1 + d_Replicas d + zsum rs_Replicas s ≤ Z.of_nat k →
   ∃ x, oldest DeepEqual (d_Template d) s' x ∧ rs_Replicas x = d_Replicas d ∧
     ∀ y, y ∈ s' → rs_Name y ≠ rs_Name x → rs_Replicas y = 0).
Proof.
  intros Hd Ht Hs Hr. pose proof (ro_replicas _ _ _ Hd) as H0. destruct (pending_start d s Ht H0) as (m & Hp & Hm).
  destruct (rollout_pending _ _ _ _ _ _ Hd Hr m Ht Hs Hp) as (Ht' & Hs' & m' & Hp' & Hm').
  split; [done|]. intros Hk. eapply pending_completed; [done..|]. lia.
Qed.

End Rollout.

(** ** Examples *)

Definition not_after (less : ReplicaSet → ReplicaSet → bool) (a b : ReplicaSet) : Prop := less b a = false.

#[local] Instance not_after_dec less : RelDecision (not_after less).
Proof. unfold not_after. intros a b. apply _. Defined.

Definition sort_sets (less : ReplicaSet → ReplicaSet → bool) (l : list ReplicaSet) : list ReplicaSet := merge_sort (not_after less) l.

Lemma sort_sets_perm less l : sort_sets less l ≡ₚ l.
Proof. apply merge_sort_Permutation. Qed.

Lemma sort_sets_sorts less : strict_weak less → ∀ l, StronglySorted (λ a b, less b a = false) (sort_sets less l).
Proof.
  intros (Hi & Ht & Hn) l. change (StronglySorted (not_after less) (sort_sets less l)). apply StronglySorted_merge_sort.
  - intros a b c H1 H2. by apply (Hn c b a).
  - intros a b. destruct (less b a) eqn:H1; [|by left]. destruct (less a b) eqn:H2; [|by right]. specialize (Ht a b a H2 H1). by rewrite Hi in Ht.
Qed.

(** Templates that differ in their labels. *)
Definition same_labels (p q : Pod) : bool := bool_decide (pod_Labels p = pod_Labels q).

Lemma same_labels_refl p : same_labels p p = true.
Proof. by apply bool_decide_eq_true_2. Qed.
Lemma same_labels_sym p q : same_labels p q = same_labels q p.
Proof. unfold same_labels. apply bool_decide_ext. split; congruence. Qed.

Definition web_template (version : string) : Pod :=
  mkPod "" "" "" "" {["version" := version]} [] [] None "" None None "" "" ∅ [] ∅ [] [] None [] None None [] "" None [].

Definition web_set (version : string) (replicas available : Z) : ReplicaSet :=
  mkReplicaSet "default" ("web-" ++ version) ("uid-" ++ version) {["version" := version]} ∅ (Some 1) None 1 [] replicas 0 None (web_template version)
    (mkRSStatus replicas replicas available available 1 []).

Definition web_deployment (replicas : Z) : Deployment :=
  mkDeployment "default" "web" "uid-web" ∅ None 2 replicas (mkLabelSelector {["app" := "web"]} []) (web_template "v2") 0 "RollingUpdate"
    (Some (IntVal 3)) (Some (StrVal "20%")) false (Some 10) None (mkDStatus 1 replicas replicas replicas replicas 0 [] None).

Lemma web_rolling replicas : 0 ≤ replicas ≤ 1000 → rolling (web_deployment replicas) 3 (20 * replicas / 100).
Proof.
  intros H. constructor; simpl; [done..|lia|lia| |lia]. split; [apply Z.div_pos; lia|]. apply Z.div_le_upper_bound; lia.
Qed.

Definition web_hash (_ : Pod) (_ : option Z) : string := "v2".
Definition no_set (name : string) : api_error + ReplicaSet := inl (mkError NotFound name).
Definition fail_at (k n : nat) : option api_error := if (n =? k)%nat then Some (Errorf "conflict") else None.

(** Ten replicas of version 1; the update to version 2 creates a set of three,
    and two of the old pods go.  The write of the status fails. *)
Lemma rolling_bounds_witness :
  let w := mkDWorld 0 [web_set "v1" 10 10] (web_deployment 10) [] [] in
  let w' := (rolloutRolling (fail_at 3) sort_sets same_labels web_hash (λ _, ("uid-v2", 5)) no_set 7 (dw_sets w) w).2 in
  rs_Replicas <$> dw_sets w' = [8; 3] ∧ zsum rs_Replicas (dw_sets w') ≤ 13 ∧ 8 ≤ zsum able (dw_sets w').
Proof.
  intros w w'.
  pose proof (rolling_bounds sort_sets sort_sets_perm sort_sets_sorts same_labels same_labels_refl same_labels_sym web_hash (fail_at 3)
    (λ _, ("uid-v2", 5)) no_set 7 3 2 w (web_rolling 10 ltac:(lia))) as H.
  split; [vm_compute; reflexivity|]. apply H.
  - constructor; [vm_compute; split; congruence|constructor].
  - vm_compute. congruence.
  - apply NoDup_singleton.
  - apply NoDup_singleton.
  - done.
Defined.

(** All pods available, no failure. *)
Definition ideal_round (uid : string) : round :=
  mkRound (λ _, None) (λ _, (uid, 5)) no_set 7 (web_deployment 2)
    (λ rs, mkRSStatus (rs_Replicas rs) (rs_Replicas rs) (rs_Replicas rs) (rs_Replicas rs) 1 []).

Definition ideal_step (uid : string) (s : list ReplicaSet) : list ReplicaSet := run_round sort_sets same_labels web_hash (ideal_round uid) s.

Definition ideal_ok (uid : string) (s : list ReplicaSet) : bool :=
  bool_decide (uid ∉ uids s ∧ Forall (λ rs, 0 ≤ rs_Replicas rs) s ∧
    ("web-v2" ∉ names s ∨ existsb (λ y, EqualIgnoreHash same_labels (rs_Template y) (web_template "v2")) s = true)).

Lemma ideal_good uid s :
  ideal_ok uid s = true → sound (web_deployment 2) (ideal_round uid) s ∧ good same_labels web_hash (ideal_round uid) s.
Proof.
  intros H. apply bool_decide_eq_true_1 in H as (Hu & Hr & Hn). rewrite Forall_forall in Hr. split; constructor; try done.
  - intros rs Hrs. specialize (Hr rs Hrs). simpl in *. lia.
  - intros [Hno Htaken]. destruct Hn as [Hn|Hn]; [done|]. apply existsb_exists in Hn as (y & Hy & Hm). apply (Hno y); [by apply list_elem_of_In|done].
Qed.

Lemma ideal_next uid s k s' :
  ideal_ok uid s = true → rollout sort_sets same_labels web_hash (web_deployment 2) (ideal_step uid s) k s' →
  rollout sort_sets same_labels web_hash (web_deployment 2) s (S k) s'.
Proof. intros H Hr. destruct (ideal_good uid s H) as [Hs Hg]. exact (rollout_good _ _ _ _ s (ideal_round uid) k s' Hs Hg Hr). Qed.

(** Two replicas of version 1 are replaced by two of version 2. *)
Lemma rollout_completes_witness :
  let s' := ideal_step "uid-x" (ideal_step "uid-x" (ideal_step "uid-x" (ideal_step "uid-x" (ideal_step "uid-v2" [web_set "v1" 2 2])))) in
  rs_Replicas <$> s' = [0; 2] ∧
  ∃ x, oldest same_labels (web_template "v2") s' x ∧ rs_Replicas x = 2 ∧ ∀ y, y ∈ s' → rs_Name y ≠ rs_Name x → rs_Replicas y = 0.
Proof.
  intros s'. split; [vm_compute; reflexivity|].
  destruct (rollout_completes sort_sets sort_sets_perm sort_sets_sorts same_labels same_labels_refl same_labels_sym web_hash (web_deployment 2) 3 0
    [web_set "v1" 2 2] 5 s') as [_ H]; [..|apply H].
  - apply (web_rolling 2). lia.
  - split; [apply NoDup_singleton|]. split; [apply NoDup_singleton|]. constructor; [vm_compute; congruence|constructor].
  - vm_compute. congruence.
  - apply (ideal_next "uid-v2"); [vm_compute; reflexivity|].
    do 4 (apply (ideal_next "uid-x"); [vm_compute; reflexivity|]). apply rollout_done.
  - vm_compute. congruence.
Defined.

(** ** A status that is behind *)

Definition aged (created : Z) (rs : ReplicaSet) : ReplicaSet :=
  mkReplicaSet (rs_Namespace rs) (rs_Name rs) (rs_UID rs) (rs_Labels rs) (rs_Annotations rs) (Some created) (rs_DeletionTimestamp rs)
    (rs_Generation rs) (rs_OwnerReferences rs) (rs_Replicas rs) (rs_MinReadySeconds rs) (rs_Selector rs) (rs_Template rs) (rs_Status rs).

Definition tight_deployment : Deployment :=
  mkDeployment "default" "web" "uid-web" ∅ None 2 10 (mkLabelSelector {["app" := "web"]} []) (web_template "v2") 0 "RollingUpdate"
    (Some (IntVal 0)) (Some (IntVal 1)) false (Some 10) None (mkDStatus 1 10 10 10 10 0 [] None).

(** A set that was scaled from eight to five still reports eight available
    pods.  The clean up takes the pod of another old set and ends there, and
    the eight pods let three more go: six stay available, not nine. *)
Lemma stale_status_breaches :
  let sets := [aged 1 (web_set "v0" 1 0); aged 2 (web_set "v1" 5 8); aged 3 (web_set "v2" 4 4)] in
  let w := mkDWorld 0 sets tight_deployment [] [] in
  let s' := dw_sets (rolloutRolling (λ _, None) sort_sets same_labels web_hash (λ _, ("uid-x", 5)) no_set 7 sets w).2 in
  least tight_deployment = 9 ∧ zsum able sets = 9 ∧ rs_Replicas <$> s' = [0; 2; 4] ∧ zsum able s' = 6.
Proof. vm_compute. done. Qed.
