(* ===== verification/Proportions.v ===== *)
(** * Rollouts: proportional scaling

    [scale] in [pkg/controller/deployment/sync.go] when more than one set has
    pods: what is added or removed is shared out in proportion, and the rest
    goes to the first set. *)

From Stdlib Require Import Sorted.
From S2P Require Import Prelude Strconv Labels ApiTypes ActivePods AppsTypes Deployment Rollout RolloutWp RollingUpdate RolloutSets RolloutProps.
#[local] Open Scope Z_scope.

(** ** The order by size *)

Lemma BySizeOlder_false a b : BySizeOlder_Less a b = false ↔
  rs_Replicas a < rs_Replicas b ∨ rs_Replicas a = rs_Replicas b ∧ ByCreationTimestamp_Less a b = false.
Proof.
  unfold BySizeOlder_Less. destruct (rs_Replicas a =? rs_Replicas b) eqn:He; [apply Z.eqb_eq in He|apply Z.eqb_neq in He; rewrite Z.ltb_ge].
  - split; [by right|]. intros [?|[_ ?]]; [lia|done].
  - split; [left; lia|]. intros [?|[? _]]; lia.
Qed.

Lemma size_strict_weak : strict_weak BySizeOlder_Less.
Proof.
  apply strict_weak_intro.
  - intros a b. rewrite !BySizeOlder_false. destruct (Z.lt_trichotomy (rs_Replicas a) (rs_Replicas b)) as [?|[?|?]]; [auto| |auto].
    destruct (creation_total a b); auto.
  - intros a b c. rewrite !BySizeOlder_false. intros [?|[? H1]] [?|[? H2]]; [left; lia..|]. right. split; [lia|]. by apply (creation_ntrans a b c).
Qed.

Section Scale.
Context (infinite : Z) (d : Deployment) (surge unavailable : Z).
Hypothesis Hd : rolling d surge unavailable.

(** The size the deployment had when the set was last scaled is known. *)
Definition annotated (rs : ReplicaSet) : Prop := 0 < default (ds_Replicas (d_Status d)) (getMaxReplicasAnnotation rs).

Lemma round_quotient_bounds n a : 0 ≤ n → 0 < a → 0 ≤ round_quotient n a ≤ n.
Proof.
  intros Hn Ha. unfold round_quotient. rewrite (Z.sgn_pos a), (Z.abs_eq n), (Z.abs_eq a) by lia.
  destruct (decide (n = 0)) as [->|]; [simpl; lia|]. rewrite Z.sgn_pos by lia. rewrite !Z.mul_1_l.
  split; [apply Z.div_pos; lia|]. assert ((2 * n + a) / (2 * a) < n + 1); [|lia]. apply Z.div_lt_upper_bound; nia.
Qed.

Lemma fraction_bounds rs :
  annotated rs → 0 ≤ rs_Replicas rs → rs_Replicas rs * (d_Replicas d + surge) ≤ 2 ^ 29 → rs_Replicas rs ≤ 2 ^ 29 →
  0 ≤ rs_Replicas rs + getReplicaSetFraction infinite rs d ≤ rs_Replicas rs * (d_Replicas d + surge).
Proof.
  intros Ha H0 Hm Hr. destruct (rolling_fenceposts _ _ _ Hd) as (Hsurge & _). destruct Hd.
  unfold getReplicaSetFraction. rewrite Hsurge. destruct (d_Replicas d =? 0) eqn:Hz; [rewrite int32_id by lia; nia|].
  unfold annotated in Ha. set (a := default _ _) in *. rewrite (proj2 (Z.eqb_neq a 0)) by lia. rewrite (int32_id (d_Replicas d + surge)) by lia.
  assert (0 ≤ rs_Replicas rs * (d_Replicas d + surge)) as Hpos by nia. set (n := rs_Replicas rs * _) in *. clearbody n.
  rewrite (int32_id n) by lia. destruct (round_quotient_bounds n _ Hpos Ha) as [Hl Hu]. set (q := round_quotient _ _) in *. clearbody q.
  rewrite (int32_id q), (int32_id (q - _)) by lia. lia.
Qed.

Lemma proportion_bounds rs toAdd added :
  annotated rs → 0 ≤ rs_Replicas rs → rs_Replicas rs * (d_Replicas d + surge) ≤ 2 ^ 29 → rs_Replicas rs ≤ 2 ^ 29 →
  - 2 ^ 29 ≤ toAdd ≤ 2 ^ 29 → - 2 ^ 29 ≤ added ≤ 2 ^ 29 → (0 < toAdd → added ≤ toAdd) → (toAdd < 0 → toAdd ≤ added) →
  let p := GetProportion infinite rs d toAdd added in
  - rs_Replicas rs ≤ p ≤ rs_Replicas rs * (d_Replicas d + surge) ∧ (0 < toAdd → added + p ≤ toAdd) ∧ (toAdd < 0 → toAdd ≤ added + p).
Proof.
  intros Ha H0 Hm Hr Ht Hadd Hup Hdown. pose proof (fraction_bounds rs Ha H0 Hm Hr) as Hf. destruct Hd. unfold GetProportion.
  destruct (_ || _ || _) eqn:Hb; [nia|]. rewrite !orb_false_iff, !Z.eqb_neq in Hb. rewrite int32_id by lia.
  destruct (0 <? toAdd) eqn:Hlt; [apply Z.ltb_lt in Hlt|apply Z.ltb_ge in Hlt]; cbv zeta; nia.
Qed.

Lemma proportions_spec toAdd l : ∀ added,
  Forall (λ rs, annotated rs ∧ 0 ≤ rs_Replicas rs) l → - 2 ^ 29 ≤ toAdd ≤ 2 ^ 29 → toAdd ≠ 0 →
  zsum rs_Replicas l ≤ 2 ^ 29 → zsum rs_Replicas l * (d_Replicas d + surge) ≤ 2 ^ 29 →
  - 2 ^ 29 + zsum rs_Replicas l ≤ added ≤ 2 ^ 29 - zsum rs_Replicas l * (d_Replicas d + surge) →
  (0 < toAdd → added ≤ toAdd) → (toAdd < 0 → toAdd ≤ added) →
  let '(sizes, added') := proportions infinite d toAdd added l in
  length sizes = length l ∧ Forall (λ n, 0 ≤ n ≤ 2 ^ 30) sizes ∧ zsum id sizes = zsum rs_Replicas l + (added' - added) ∧
  - 2 ^ 29 ≤ added' ≤ 2 ^ 29 ∧ (0 < toAdd → added' ≤ toAdd) ∧ (toAdd < 0 → toAdd ≤ added').
Proof.
  pose proof (ro_replicas _ _ _ Hd) as HR. pose proof (ro_surge_pos _ _ _ Hd) as HS.
  induction l as [|rs l IH]; intros added Hl Ht Hne Hrep Hmul Hb Hup Hdown; cbn [proportions].
  { change (zsum rs_Replicas []) with 0 in *. split; [done|]. split; [constructor|]. split; [unfold zsum; simpl; lia|]. split; [lia|done]. }
  apply Forall_cons in Hl as [[Ha H0] Hl]. rewrite zsum_cons in *.
  assert (0 ≤ zsum rs_Replicas l) as Hs by (apply zsum_nonneg; eapply Forall_impl; [exact Hl|]; by intros ? []).
  rewrite (proj2 (Z.eqb_neq _ _)) by done. rewrite Z.mul_add_distr_r in *.
  assert (0 ≤ rs_Replicas rs * (d_Replicas d + surge) ∧ 0 ≤ zsum rs_Replicas l * (d_Replicas d + surge)) as [H1 H2] by nia.
  destruct (proportion_bounds rs toAdd added Ha H0) as (Hp & Hpu & Hpd); [lia..|done|done|]. set (p := GetProportion _ _ _ _ _) in *.
  rewrite !int32_id by lia. specialize (IH (added + p) Hl Ht Hne ltac:(lia) ltac:(lia)).
  destruct (proportions infinite d toAdd (added + p) l) as [sizes added']. destruct IH as (Hlen & Hf & Hsum & Hb' & Hu' & Hd'); [lia|done|done|].
  split; [simpl; by rewrite Hlen|]. split; [constructor; [lia|done]|]. split; [rewrite zsum_cons; unfold id at 1; lia|]. done.
Qed.

(** The sizes add up to what is allowed, unless the first set would have had
    to go below zero. *)
Lemma scaled_sizes_spec toAdd l :
  Forall (λ rs, annotated rs ∧ 0 ≤ rs_Replicas rs) l → - 2 ^ 29 ≤ toAdd < 2 ^ 29 → l ≠ [] →
  zsum rs_Replicas l ≤ 2 ^ 29 → zsum rs_Replicas l * (d_Replicas d + surge) ≤ 2 ^ 29 →
  length (scaled_sizes infinite d toAdd l) = length l ∧
  zsum rs_Replicas l + toAdd ≤ zsum id (scaled_sizes infinite d toAdd l) ∧
  (zsum id (scaled_sizes infinite d toAdd l) ≠ zsum rs_Replicas l + toAdd → toAdd < 0 ∧ head (scaled_sizes infinite d toAdd l) = Some 0).
Proof.
  intros Hl Ht Hne Hs Hm. assert (0 ≤ zsum rs_Replicas l) as H0 by (apply zsum_nonneg; eapply Forall_impl; [exact Hl|]; by intros ? []).
  unfold scaled_sizes. destruct (decide (toAdd = 0)) as [->|Hz].
  - assert (∀ k, proportions infinite d 0 0 k = (rs_Replicas <$> k, 0)) as Hk by (induction k as [|rs k IH]; [done|]; cbn [proportions]; by rewrite IH).
    assert (zsum id (rs_Replicas <$> l) = zsum rs_Replicas l) as Hsum by (by rewrite zsum_fmap).
    rewrite Hk. destruct l as [|rs l]; [done|]. rewrite fmap_cons in *. cbv iota. change (if 0 =? 0 then ?x else _) with x.
    rewrite Hsum. simpl length. rewrite length_fmap. repeat split; lia.
  - pose proof (proportions_spec toAdd l 0 Hl ltac:(lia) Hz Hs Hm) as H. destruct (proportions infinite d toAdd 0 l) as [sizes added].
    destruct H as (Hlen & Hf & Hsum & Hb & Hu & Hdn); [lia..|]. destruct sizes as [|n sizes]; [by destruct l|].
    rewrite (proj2 (Z.eqb_neq _ _)) by done. apply Forall_cons in Hf as [Hn _]. rewrite zsum_cons in Hsum. unfold id at 1 in Hsum.
    assert (0 ≤ zsum rs_Replicas l * (d_Replicas d + surge)) by (destruct Hd; nia).
    rewrite (int32_id (toAdd - added)), int32_id by lia. split; [done|]. rewrite !zsum_cons. unfold id at 1 3.
    destruct (_ <? 0) eqn:Hneg; [apply Z.ltb_lt in Hneg|apply Z.ltb_ge in Hneg; split; lia]. split; [lia|]. intros _. split; [lia|done].
Qed.

(** ** The requests *)

Section Requests.
Context (answers : nat → option api_error).
Context (sort : (ReplicaSet → ReplicaSet → bool) → list ReplicaSet → list ReplicaSet).
Hypothesis sort_perm : ∀ less l, sort less l ≡ₚ l.
Hypothesis sort_sorts : ∀ less, strict_weak less → ∀ l, StronglySorted (λ a b, less b a = false) (sort less l).

Lemma dwp_scale_all l : ∀ s0 w,
  served w ≡ₚ (core <$> l.*1) ++ s0 → NoDup (names (served w)) →
  dwp (scale_all answers d l) (λ r w', match r with
    | inl _ => fails answers
    | inr _ => served w' ≡ₚ ((λ '(rs, n), resize n (core rs)) <$> l) ++ s0
    end) w.
Proof.
  induction l as [|[rs n] l IH]; intros s0 w Hs Hn; cbn [scale_all]; [by apply dwp_ret|].
  apply dwp_bind. eapply (dwp_scaleReplicaSet answers rs n d w ((core <$> l.*1) ++ s0)); [done..|].
  intros rs' w' Hc Hs' _. eapply dwp_mono; [apply (IH (core rs' :: s0))|].
  - by rewrite Hs', Permutation_middle.
  - eapply NoDup_names_perm; [exact Hs|exact Hs'| |done]. by apply (f_equal rs_Name) in Hc.
  - intros [e|[]] w2; [done|]. intros ->. rewrite fmap_cons, <-Hc. by rewrite <-Permutation_middle.
Qed.

(** The replicas that scaling allows. *)
Definition allowed : Z := if 0 <? d_Replicas d then d_Replicas d + surge else 0.

Lemma idle_rest l : Forall (λ rs, 0 ≤ rs_Replicas rs) l →
  ∃ idle, FilterActiveReplicaSets l ++ idle ≡ₚ l ∧ zsum rs_Replicas idle = 0.
Proof.
  intros Hl. exists (filter (λ rs, ¬ 0 < rs_Replicas rs) l). split; [apply filter_app_complement|].
  induction Hl as [|rs l Hrs _ IH]; [done|]. rewrite filter_cons. destruct (decide _); [|done]. rewrite zsum_cons. lia.
Qed.

Lemma zsum_resized (l : list ReplicaSet) (sizes : list Z) : length sizes = length l →
  zsum rs_Replicas ((λ '(rs, n), resize n (core rs)) <$> zip l sizes) = zsum id sizes.
Proof.
  revert sizes. induction l as [|rs l IH]; intros [|n sizes] Hlen; [done..|]. simpl zip. rewrite fmap_cons, !zsum_cons, IH by (simpl in Hlen; lia). done.
Qed.

Lemma active_pos l : Forall (λ rs, 0 < rs_Replicas rs) (FilterActiveReplicaSets l).
Proof. apply Forall_forall. intros rs Hrs. by apply list_elem_of_filter in Hrs as []. Qed.

(** What the last case of [scale] does. *)
Lemma dwp_scale_proportional all w :
  Forall annotated (FilterActiveReplicaSets all) → Forall (λ rs, 0 ≤ rs_Replicas rs) all → FilterActiveReplicaSets all ≠ [] →
  zsum rs_Replicas all ≤ 2 ^ 29 → zsum rs_Replicas all * (d_Replicas d + surge) ≤ 2 ^ 29 →
  served w ≡ₚ core <$> all → NoDup (names (served w)) →
  let allRSs := FilterActiveReplicaSets all in
  let toAdd := int32 (allowed - GetReplicaCountForReplicaSets allRSs) in
  let sorted := if 0 <? toAdd then sort BySizeNewer_Less allRSs else if toAdd <? 0 then sort BySizeOlder_Less allRSs else allRSs in
  dwp (scale_all answers d (zip sorted (scaled_sizes infinite d toAdd sorted))) (λ r w', match r with
    | inl _ => fails answers
    | inr _ => allowed ≤ zsum rs_Replicas (served w') ∧ (zsum rs_Replicas (served w') ≠ allowed →
        allowed < zsum rs_Replicas all ∧
        ∃ first, head (sort BySizeOlder_Less (FilterActiveReplicaSets all)) = Some first ∧ resize 0 (core first) ∈ served w')
    end) w.
Proof.
  intros Ha Hall Hne Hsum Hmul Hs Hn allRSs toAdd sorted. destruct (idle_rest all Hall) as (idle & Hp & Hidle). fold allRSs in Hp.
  assert (zsum rs_Replicas all = zsum rs_Replicas allRSs) as Htot by (rewrite <-Hp, zsum_app; lia).
  pose proof (active_pos all) as Hpos. fold allRSs in Hpos, Ha, Hne. pose proof (ro_replicas _ _ _ Hd) as HR. pose proof (ro_surge_pos _ _ _ Hd) as HS.
  assert (1 ≤ zsum rs_Replicas allRSs) as H1.
  { destruct allRSs as [|rs l]; [done|]. apply Forall_cons in Hpos as [Hrs Hl]. rewrite zsum_cons.
    enough (0 ≤ zsum rs_Replicas l) by lia. apply zsum_nonneg. eapply Forall_impl; [exact Hl|]. simpl. lia. }
  assert (0 ≤ allowed ≤ 2 ^ 29) as Hal by (unfold allowed; destruct (0 <? d_Replicas d); nia).
  assert (toAdd = allowed - zsum rs_Replicas allRSs) as Hta.
  { unfold toAdd, GetReplicaCountForReplicaSets. rewrite sum32_zsum; [rewrite int32_id; lia| |lia]. eapply Forall_impl; [exact Hpos|]. simpl. lia. }
  clearbody toAdd. assert (sorted ≡ₚ allRSs) as Hsort by (unfold sorted; repeat case_match; rewrite ?sort_perm; done).
  destruct (scaled_sizes_spec toAdd sorted) as (Hlen & Hge & Hfirst).
  { rewrite Hsort. apply Forall_and. split; [done|]. eapply Forall_impl; [exact Hpos|]. simpl. lia. }
  { lia. } { intros Hnil. rewrite Hnil in Hsort. by apply Permutation_nil_l in Hsort. } { rewrite Hsort. lia. } { rewrite Hsort, <-Htot. done. }
  rewrite (zsum_perm rs_Replicas _ _ Hsort) in Hge, Hfirst. set (sizes := scaled_sizes infinite d toAdd sorted) in *.
  eapply dwp_mono; [apply (dwp_scale_all _ (core <$> idle))|].
  { rewrite fst_zip by lia. by rewrite Hs, <-Hp, fmap_app, Hsort. } { done. }
  intros [e|[]] w' Hw'; [done|]. assert (zsum rs_Replicas (served w') = zsum id sizes) as ->.
  { rewrite Hw', zsum_app, zsum_resized by done. rewrite zsum_fmap. change (zsum (rs_Replicas ∘ core) idle) with (zsum rs_Replicas idle). lia. }
  split; [lia|]. intros Hneq. destruct Hfirst as [Hneg Hhead]; [lia|]. split; [lia|].
  fold allRSs. assert (sorted = sort BySizeOlder_Less allRSs) as <-.
  { unfold sorted. rewrite (proj2 (Z.ltb_ge _ _)) by lia. by rewrite (proj2 (Z.ltb_lt _ _)) by lia. }
  clearbody sizes sorted. destruct sorted as [|rs l], sizes as [|n sizes']; try done. exists rs. split; [done|]. injection Hhead as ->. rewrite Hw'. left.
Qed.

Lemma first_largest l first : head (sort BySizeOlder_Less l) = Some first → first ∈ l ∧ ∀ y, y ∈ l → rs_Replicas y ≤ rs_Replicas first.
Proof.
  intros Hh. pose proof (sort_sorts _ size_strict_weak l) as Hs. pose proof (sort_perm BySizeOlder_Less l) as Hp.
  destruct (sort BySizeOlder_Less l) as [|x k]; [done|]. injection Hh as ->. split; [rewrite <-Hp; left|]. intros y Hy. rewrite <-Hp in Hy.
  apply elem_of_cons in Hy as [->|Hy]; [done|]. apply StronglySorted_inv in Hs as [_ Hs]. rewrite Forall_forall in Hs. specialize (Hs y Hy).
  apply BySizeOlder_false in Hs as [?|[? _]]; lia.
Qed.

Lemma FindActiveOrLatest_None newRS oldRSs :
  (1 < length (FilterActiveReplicaSets (oldRSs ++ option_list newRS)))%nat →
  FindActiveOrLatest sort newRS oldRSs = (None, sort (λ a b, ByCreationTimestamp_Less b a) oldRSs).
Proof.
  intros Hl. set (k := sort (λ a b, ByCreationTimestamp_Less b a) oldRSs).
  assert (FilterActiveReplicaSets (k ++ option_list newRS) ≡ₚ FilterActiveReplicaSets (oldRSs ++ option_list newRS)) as Hp.
  { unfold FilterActiveReplicaSets, k. by rewrite sort_perm. }
  rewrite <-(Permutation_length Hp) in Hl.
  assert (FindActiveOrLatest sort newRS oldRSs = (match FilterActiveReplicaSets (k ++ option_list newRS) with
    | [] => match newRS with Some rs => Some rs | None => head k end | [rs] => Some rs | _ => None end, k)) as ->.
  { unfold FindActiveOrLatest. destruct newRS, oldRSs; try done. exfalso. rewrite (Permutation_length Hp) in Hl. simpl in Hl. lia. }
  destruct (FilterActiveReplicaSets _) as [|? [|? ?]]; simpl in Hl; [lia..|done].
Qed.

(** Scaling in the middle of a rollout gives the sets exactly the
    replicas that are allowed.  With at least two sets that have pods, no
    failed request, the size at which each set was last scaled known and
    products that fit 32 bits, the replicas of all sets add up to
    [replicas + maxSurge] (none for a deployment of none) after [scale];
    when they must shrink they may add up to more, but only if the largest set
    was taken down to nothing. *)
Lemma proportional_scale newRS oldRSs w :
  let all := oldRSs ++ option_list newRS in
  (∀ n, answers n = None) → IsSaturated d newRS = false → (1 < length (FilterActiveReplicaSets all))%nat →
  Forall annotated (FilterActiveReplicaSets all) → Forall (λ rs, 0 ≤ rs_Replicas rs) all →
  zsum rs_Replicas all ≤ 2 ^ 29 → zsum rs_Replicas all * (d_Replicas d + surge) ≤ 2 ^ 29 →
  dw_sets w ≡ₚ all → NoDup (names all) →
  let s' := dw_sets (scale answers sort infinite d newRS oldRSs w).2 in
  allowed ≤ zsum rs_Replicas s' ∧ (zsum rs_Replicas s' ≠ allowed →
    allowed < zsum rs_Replicas all ∧ ∃ x x', x ∈ all ∧ (∀ y, y ∈ all → rs_Replicas y ≤ rs_Replicas x) ∧
      x' ∈ s' ∧ rs_Name x' = rs_Name x ∧ rs_Replicas x' = 0).
Proof.
  intros all Hans Hsat Hlen Hann Hpos Hsum Hmul Hs Hn s'. assert (¬ fails answers) as Hnf by (intros (n & e & He); by rewrite Hans in He).
  set (all' := sort (λ a b, ByCreationTimestamp_Less b a) oldRSs ++ option_list newRS).
  assert (all' ≡ₚ all) as Hp by (unfold all', all; by rewrite sort_perm).
  assert (FilterActiveReplicaSets all' ≡ₚ FilterActiveReplicaSets all) as Hpa by (unfold FilterActiveReplicaSets; by rewrite Hp).
  assert (IsRollingUpdate d = true) as Hroll by (unfold IsRollingUpdate; by rewrite (ro_type _ _ _ Hd)).
  assert (served w ≡ₚ core <$> all') as Hsw by (unfold served; by rewrite Hs, Hp).
  destruct (rolling_fenceposts _ _ _ Hd) as (Hsurge & _). pose proof (ro_bound _ _ _ Hd). pose proof (ro_replicas _ _ _ Hd). pose proof (ro_surge_pos _ _ _ Hd).
  pose proof (dwp_scale_proportional all' w) as Hw. cbv zeta in Hw. unfold dwp in Hw. unfold s', scale. rewrite FindActiveOrLatest_None, Hsat, Hroll by done.
  fold all'. rewrite Hsurge, (int32_id (d_Replicas d + surge)) by lia. fold allowed. set (m := scale_all _ _ _) in *.
  change ((m ≫= λ _ : (), mret (sort (λ a b, ByCreationTimestamp_Less b a) oldRSs)) w) with
    (let '(r, w) := m w in match r with inl e => (inl e, w) | inr _ => (inr (sort (λ a b, ByCreationTimestamp_Less b a) oldRSs), w) end).
  assert (FilterActiveReplicaSets all' ≠ []) as Hne by (intros Hnil; rewrite <-(Permutation_length Hpa), Hnil in Hlen; simpl in Hlen; lia).
  assert (NoDup (names (served w))) as Hnw by (unfold served; rewrite names_core; unfold names; by rewrite Hs).
  rewrite !(zsum_perm _ _ _ Hp) in Hw. specialize (Hw ltac:(by rewrite Hpa) ltac:(by rewrite Hp) Hne Hsum Hmul Hsw Hnw).
  destruct (m w) as [[e|[]] w']; [done|]. cbn [snd]. unfold served in Hw. rewrite zsum_fmap in Hw. change (zsum (rs_Replicas ∘ core)) with (zsum rs_Replicas) in Hw.
  destruct Hw as [Hge Hx]. split; [done|]. intros Hne'. destruct (Hx Hne') as (Hlt & first & Hfirst & Hin). split; [done|].
  apply first_largest in Hfirst as [Hf Hmax]. apply list_elem_of_fmap in Hin as (x' & Hx' & Hin). exists first, x'.
  split; [rewrite <-Hp; by apply list_elem_of_filter in Hf as []|]. split; [|split; [done|]].
  - intros y Hy. destruct (decide (0 < rs_Replicas y)); [apply Hmax, list_elem_of_filter; by rewrite Hp|].
    apply list_elem_of_filter in Hf as [? _]. lia.
  - split; [by apply (f_equal rs_Name) in Hx'|by apply (f_equal rs_Replicas) in Hx'].
Qed.

End Requests.

End Scale.

(** From ten replicas to twenty, with eight old pods and five new ones: there
    is room for ten more. *)
Lemma proportional_scale_witness :
  let w := mkDWorld 0 [web_set "v1" 8 8; web_set "v2" 5 5] (web_deployment 20) [] [] in
  let s' := dw_sets (scale (λ _, None) sort_sets 0 (web_deployment 20) (Some (web_set "v2" 5 5)) [web_set "v1" 8 8] w).2 in
  rs_Replicas <$> s' = [17; 6] ∧ 23 ≤ zsum rs_Replicas s'.
Proof.
  intros w s'. split; [vm_compute; reflexivity|].
  apply (proportional_scale 0 (web_deployment 20) 3 4 (web_rolling 20 ltac:(lia)) (λ _, None) sort_sets sort_sets_perm sort_sets_sorts
    (Some (web_set "v2" 5 5)) [web_set "v1" 8 8] w).
  - done.
  - vm_compute. reflexivity.
  - vm_compute. lia.
  - repeat (constructor; [vm_compute; reflexivity|]). constructor.
  - repeat (constructor; [vm_compute; congruence|]). constructor.
  - vm_compute. congruence.
  - vm_compute. congruence.
  - done.
  - apply (bool_decide_unpack _). vm_compute. exact I.
Defined.

(** Without the bound on the product it wraps: the share of a set of 50000
    replicas in the three pods that a deployment of as many may add is
    negative, and more than the set has. *)
Lemma fraction_overflows : getReplicaSetFraction 0 (web_set "v1" 50000 50000) (web_deployment 50000) = -85896.
Proof. vm_compute. reflexivity. Qed.
